(* ===== verification/_CoqProject ===== *)
-Q . S2P
Prelude.v
Models.v
StoreCore.v
Keys.v
Engine.v
PebbleTx.v
PebbleTxInv.v
PebbleTxProps.v
PebbleTxQueries.v
PebbleBlocks.v
PebbleBlocksInv.v
PebbleBlocksProps.v
PebbleSubs.v
PebbleSubsProps.v
Bump.v
BumpBuild.v
BumpTree.v
BumpMerge.v
BumpBuildProps.v
BumpAssembleProps.v
Datahub.v
Effects.v
BumpCalls.v
BumpTrace.v
Reconciler.v
ReconcilerProps.v
ReconcilerTick.v
ReconcilerSafe.v
BumpBuilder.v
BumpBuilderProps.v
Watchdog.v
WatchdogProps.v
WatchdogStore.v
GoStrings.v
Teranode.v
TeranodeProps.v
BumpCache.v
PebbleBumps.v
Paging.v
Offsets.v
Dispatcher.v
DispatcherInv.v
DispatcherProps.v
Chunking.v
Finality.v
Verdicts.v
VerdictsProps.v
VerdictsExact.v
Broadcast.v
BroadcastProps.v
Propagator.v
PropagatorProps.v
Reaper.v
ReaperLayers.v
ReaperProps.v
Replay.v
ReplayProps.v
MerklePool.v
MerklePoolProps.v
MerklePoolPromise.v
Webhook.v
WebhookProps.v
Sse.v
SseProps.v
FamilyKeys.v
FamilyKeysProps.v
NetGuard.v
NetGuardProps.v
Discovery.v
DiscoveryProps.v
NetPolicy.v
NetPolicyProps.v
Intake.v
IntakeProps.v
ApiReads.v
ApiReadsProps.v
Kafka.v
KafkaProps.v
