(* ===== verification/Prelude.v ===== *)
(** * A verification of arcade

    Arcade broadcasts Bitcoin transactions to Teranode and follows them to
    their final status.  HTTP intake records a transaction in the store and
    publishes it on Kafka; the propagation service consumes a partition claim,
    holds transactions whose parents are still in flight, broadcasts batches
    and records verdicts; block and merkle callbacks mark transactions mined,
    build compound BUMPs and, on a reorg, orphan and reconcile blocks;
    webhooks and event streams deliver status changes to the submitters.
    The store is the shared state of all services and the propagation loop is
    the only other stateful core; this library models the store contract on
    its embedded Pebble backend, the BUMP cache in front of it, the
    propagation loop of one claim, the broadcast pipeline behind it with the
    client of the Teranode peers, the intake finality check, the assembly of
    compound BUMPs, and the services that drive blocks: the BUMP builder, the
    anchor reconciler and the watchdog; the reaper and the replay behind the
    pipeline; the pool of merkle-service endpoints they register with; the
    delivery of callbacks and event streams; and at the edge the handlers of
    the API server, the policy they enforce, and the guards and the registry
    of peer endpoints.

    ** Files, and the code they model

    - [Prelude]: this header; Go's error values, machine integers, times,
      contexts and byte-ordered strings; shared lemmas and hint databases.
    - [Models]: [src/models]: hex JSON ([Module HexJSON]), the status
      lattice ([Module Lattice]), the orphaned-anchor history ([Module Rows]),
      stump content hashes.
    - [StoreCore]: [src/store/trackerscan.go], [tracker.go], [store.go],
      [submissions.go]: the hydration predicate ([Scan]), the transaction
      tracker ([TxTracker]), policy checks ([Policies]), token fan-out
      ([Tokens]).
    - [Keys]: [src/store/pebble/keys.go]: the keyspace and its injectivity and
      ordering lemmas.
    - [Engine]: the stored record types of [src/store/pebble/pebble.go] and
      the key-value engine as classes: [Engine] (operations, each may fail),
      [EngineSpec] (documented behaviour), [EngineReliable] (no failures),
      with the finite-map instance [MemDB].
    - [PebbleTx]: the transaction rows of [pebble.go]; [PebbleTxInv] their
      index invariant [tx_ok], [PebbleTxProps] and [PebbleTxQueries] the
      theorems.
    - [PebbleBlocks], [PebbleBlocksInv], [PebbleBlocksProps]: the
      block_processing, expected-subtree and STUMP rows, their invariant
      [blk_ok] and theorems.
    - [PebbleSubs], [PebbleSubsProps]: submissions, webhook delivery state,
      leases, endpoint and peer-policy registries.
    - [Bump]: the read side of [src/bump/bump.go] and [helpers.go]: minimal
      paths out of a compound BUMP, by scan and through the cached index; the
      codec of go-sdk is a parameter.
    - [BumpBuild]: the write side of [src/bump/bump.go]: assembly of one path
      and of the compound; [BumpTree] the Merkle trees with Bitcoin's padding
      it is judged by, [BumpMerge] the union of STUMP variants,
      [BumpBuildProps] and [BumpAssembleProps] the theorems.
    - [Datahub]: [src/bump/datahub.go]: the block parser and the endpoint loop.
    - [Effects]: programs as trees of calls with arbitrary answers, their
      executions (cut short or not), and a weakest-precondition calculus.
    - [BumpCalls]: the calls of [src/services/bump_builder] and what its two
      services share; [BumpTrace] evidence in traces.
    - [BumpBuilder], [BumpBuilderProps]: [builder.go], the BLOCK_PROCESSED
      handler and the STUMP janitor.
    - [Reconciler], [ReconcilerProps], [ReconcilerTick], [ReconcilerSafe]:
      [reconciler.go], the service from [Start] to one block.
    - [Watchdog], [WatchdogProps], [WatchdogStore]: [src/services/watchdog]:
      the run loop, its attempt table and backoff, and its composition with
      the Pebble store.
    - [GoStrings]: what the code uses of Go's [strings] and [regexp].
    - [Teranode], [TeranodeProps]: [src/teranode/client.go]: the endpoint
      registry with its circuit breaker ([Module Breaker]) and the reading of
      /txs responses ([Module Txs]).
    - [BumpCache]: [src/store/bumpcache/bumpcache.go] and the interleavings of
      its fills, writers and invalidations, for any compound index;
      [PebbleBumps]: the BUMP rows and the enrichment path through the cache
      over the index of [Bump].
    - [Paging]: [src/store/paging.go], written against the class
      [BlockLister], of which the Pebble store is an instance.
    - [Offsets]: [src/services/propagation/offset_tracker.go] (with Go's
      container/heap) and [mark_queue.go].
    - [Dispatcher], [DispatcherInv], [DispatcherProps]:
      [src/services/propagation/dispatcher.go]: the loop's state ([Graph],
      [Loop]), its handlers, one round of the loop ([step]), the waiter-graph
      invariant and the theorems.
    - [Chunking]: [src/services/propagation/chunking.go].
    - [Verdicts], [VerdictsProps], [VerdictsExact]:
      [src/services/propagation/propagator.go]: from the responses of the
      peers to one verdict per transaction; [VerdictsExact] has the reference
      the verdicts are compared with.
    - [Broadcast], [BroadcastProps]: the fan-out of a chunk, the breaker
      accounting, the halving of chunks, and the calls of the service.
    - [Propagator], [PropagatorProps]: [processBatch]: registration, terminal
      writes, cascades, events, missing parents, durable retry, requeueing.
    - [Reaper], [ReaperLayers], [ReaperProps]: [reaper.go]: the walk over
      stuck rows, the due retries and their rebroadcast in dependency layers.
    - [Replay], [ReplayProps]: [replay.go]: the replay of registrations, and
      the resync loops as a step relation.
    - [MerklePool], [MerklePoolProps], [MerklePoolPromise]:
      [src/merkleservice]: the client and the pool of merkle-service endpoints
      with their catch-up queues and breakers; what an answer means.
    - [Webhook], [WebhookProps]: [src/services/webhook]: the delivery of
      callbacks and the retry sweep, also over the Pebble store.
    - [Sse], [SseProps]: [src/services/sse]: the token cache, the registry of
      clients, the fan-out, and the goroutine of a connection with its replays.
    - [Finality]: [src/finality/finality.go] and [mtp.go].
    - [FamilyKeys], [FamilyKeysProps]: [partition_keys.go] of
      [src/services/api_server]: the union-find that keys a submission.
    - [NetGuard], [NetGuardProps]: [src/callbackurl] and [src/ssrfguard]: the
      guards over the bytes of an address, and the cache of successes.
    - [Discovery], [DiscoveryProps]: [src/services/p2p_client]: announcements
      of peers; the endpoint source of [src/app/app.go].
    - [NetPolicy], [NetPolicyProps]: [src/validator] and [policy_refresher.go],
      [policy_routes.go]: the policy observed, enforced and advertised.
    - [Intake], [IntakeProps]: [handlers.go]: submissions, callbacks of
      merkle-service, status reads; the error table of [src/errors].
    - [ApiReads], [ApiReadsProps]: [block_status_routes.go],
      [reprocess_routes.go] and the caches of the health route.
    - [Kafka], [KafkaProps]: [src/kafka]: the in-process broker with its
      partitions, and the consumer with its retries and dead letters.

    ** How the code is modelled

    State is passed explicitly: a store operation is a function from its
    arguments and a database to its results and the new database; a handler of
    the dispatcher is a function on the loop's state.  A region the code runs
    under a lock is one step.  Where the code takes a lock per row of a list,
    the single-row step is an operation of its own, and where it takes none
    ([UpdateDeliveryStatus]) the read and the write are separate, so that
    theorems over sequences of operations cover the interleavings.  Errors are
    values: [Res] for a value or an error, pairs with an optional error where
    the code returns partial results.  A Go context is a poll budget: [None]
    never expires, [Some n] is cancelled after [n] polls; a callee polls its
    own copy of the budget.  JSON payloads are the records themselves, and a
    payload of another record type is a decode failure.  Sizes that matter are
    kept at their width ([uint64], [int64]).

    The services that only make calls are programs over an arbitrary
    environment ([Effects]): nothing is assumed of the answers, so that their
    theorems cover failures, other replicas, lost leases and crashes; the
    evidence a theorem speaks of is an event of the trace.

    Code outside the repository is an interface: the engine, the LRU library,
    the BRC-74 codec, SHA-256, hex-to-hash parsing, JSON decoding of Kafka
    values and the chain sources are class members, section variables or
    arguments, and each hypothesis about them is a documented behaviour with
    an instance that satisfies it.

    ** What the theorems show

    - Store invariants: after any sequence of operations and single-row steps,
      with any engine failures, every secondary index holds exactly what the
      rows call for (transactions, blocks), no operation invents or deletes a
      transaction row, and IMMUTABLE rows stay.  One operation escapes the
      status lattice, and a theorem shows it.
    - Store behaviour: each operation on every branch, the exact contents and
      order of each listing, exactly-once intake, exactly-once delivery
      claims, lease exclusion, single-use orphan generations.
    - Proofs: a minimal path verifies to the root its compound verifies to;
      the index answers as a scan; an enrichment after a write serves the
      path of the compound just written.
    - Assembly: from any correct STUMP variants the compound is built, covers
      exactly the leaves of the variants that are kept and verifies each of
      them to the root of the block; a variant is dropped only where another
      folds to the root of the subtree and it does not; a theorem shows the
      one block shape for which nothing is built.
    - Builder and reconciler: every write is backed by evidence read before,
      every outcome says what was written, every status change is announced,
      the reconciler's memory is bounded and the janitor's walk ends; a
      theorem shows a failed mine that leaves a block stamped.
    - Cache: no entry is stale once its writer is done; the leaf budget.
    - Paging: the scan terminates and misses nothing of positive height.
    - Dispatcher: for every reachable state and every event, no panic, no
      message marked past an in-flight offset, exact marking, exact release
      and exact, terminating cascades; no held transaction is forgotten if
      parents are admitted first, and a theorem shows that the condition is
      needed.
    - Watchdog: every re-drive and every parked block is backed by what the
      store and merkle-service answered; over the Pebble store every stale
      block that is due is re-driven.
    - Peers: the breaker sidelines an endpoint exactly on runs of failures;
      a printed failure list is read back.
    - Broadcast: the verdict on a transaction is the one an independent
      reading of the responses calls for, with the line that says most as its
      reason, and its class does not depend on their order; no acceptance and no rejection
      without a response that says so; one result per transaction within two
      fan-outs each; a theorem shows how one line hides another.
    - Pipeline: every call of a batch is backed by earlier answers, and every
      transaction of a batch has a terminal row its dispatchers were told of,
      was requeued with its bytes, or, where the store failed its row, stays
      in flight.
    - Reaper and replay: every call is backed by the lease, the scan and the
      registrations; no due retry is forgotten, parents go out in earlier
      layers than their children (and a theorem shows that stuck rows do
      not); a replay registers exactly what is in flight, and no resync
      request is lost.
    - Merkle-service pool: each registration has one exchange with every
      endpoint whose breaker is closed, its entry is nil exactly when one of
      them was answered with a 2xx, and whatever an endpoint missed stays owed
      until it is acknowledged, refused for good, or a resync is requested.
    - Webhooks: no POST without a claim won for it, nobody listed is
      forgotten, exact back-off; two theorems show where the claim does not
      hold (a failed POST takes back a later claim, a re-anchor is claimed by
      all).
    - Event streams: a client gets exactly the events its token is subscribed
      to by the answers of the store (on an error of the store an event is
      withheld from tokens), a drop is always recorded and never escapes the catch-up, a replay
      stops only where it can be resumed, and the cache of tokens bounds its
      memory and its staleness.
    - Finality: the rule, the quoted waits, and a cache that never mixes two
      tips.
    - Intake: nothing is published unchecked, untracked or already known,
      nothing is rejected without a verdict, every answer is accounted for, a
      callback is authenticated and its 200 durable; the keys of a submission
      are those of its families, in any order.
    - Policy: the engines are those of the advertised policy under any
      announcements, the observed fee and limits are bounded on the safe
      side, and every refusal is classified.
    - Guards: both address guards are a list of networks; no peer endpoint is
      registered or listed unless its URL passed within a time to live.
    - Broker: a family travels on one partition in the order of its
      submission; no message is marked unless it was handled or
      dead-lettered, and a theorem shows a mark that passes over one.
    - Reads: a page shows the next rows and where to go on, and a theorem
      shows the sibling it hides; the height on the health route is as fresh
      as the store allows.

    ** Bounds and fuel

    Loops that are not structural take fuel and say so when it runs out:
    [pageLoop] needs at most 18 rounds per stored row and 18 more (a page
    doubles at most 17 times before the cap); [cascadeLoop] one round more
    than there are waiter registrations; [cleanTop], [up] and [down] the
    heap's length; [evictLoop] the number of entries; [searchLoop] the
    length of the list it searches; [topTreeLoop] and [liftLoop] the height
    of the tree; [pruneLoop] the height of the tip and one more;
    [broadcastChunk] the length of the chunk, which every halving shortens;
    [resolve] the number of messages it layers; [trimLoop] the number of
    entries; [findLoop] the largest size of a tree; [parseAll] the length of
    the body.  The theorems prove these
    amounts sufficient, so that running out is impossible.  The number of
    ticks of the reaper is arbitrary.
    [headerPollLoop] polls once per second of the configured wait.  The page
    walk of the reconciler's scan, its readiness wait and the number of ticks
    take arbitrary bounds, and its theorems hold for all of them.  Hypotheses
    bound counters away from the end of their type where the code does not
    check: orphan generations below the end of [int64], cache generations
    below 2^64 in one run, block heights below 2^64-1.

    ** Not modelled

    The SQL, MongoDB and Aerospike backends (statements run by servers), the
    Sarama broker, the HTTP server with its middleware, the script engine and the
    libp2p client (both are arguments or answers), wiring, metrics and logging.  A frame of an event
    stream is the record it encodes.  The jitter of the retry delays is
    computed exactly where the code uses floating point, and
    the chunks of one batch run one after the other: they write disjoint parts
    of the results and share only the circuit breaker. *)

(** * Prelude: shared definitions, lemmas and automation *)
From stdpp Require Import base gmap strings list sorting option pretty.
From Stdlib Require Import Ascii ZArith Lia.

Declare Scope arcade_scope.
Delimit Scope arcade_scope with arcade.
Open Scope arcade_scope.

(** The hint database the components share. *)
Create HintDb arcade.

(** ** Results: Go's [(value, error)] pairs *)

(** The error values the modelled code returns or forwards.  [ErrIO] is a
    storage-engine failure, [ErrDecode] a [json.Unmarshal] failure,
    [ErrCanceled] the context's error, and [ErrMsg] an error made on the spot
    by [fmt.Errorf], with the fixed part of its text.  An error that wraps
    another one with [%w] is that other one, which is what [errors.Is] sees. *)
Inductive error : Type :=
| ErrNotFound
| ErrCanceled
| ErrIO
| ErrDecode
| ErrReplayUnavailable
| ErrInvalidPeerPolicy
| ErrInvalidEndpointPolicy
| ErrInvalidHex
| ErrArgument
| ErrCallback (n : nat)
| ErrHeaderNotFound
| ErrMalformedBUMP
| ErrMsg (text : string).

#[export] Instance error_eq_dec : EqDecision error.
Proof. solve_decision. Defined.

Inductive Res (A : Type) : Type :=
| Ok (a : A)
| Err (e : error).
Arguments Ok {A} a.
Arguments Err {A} e.

#[export] Instance Res_eq_dec {A} `{EqDecision A} : EqDecision (Res A).
Proof. solve_decision. Defined.

Definition is_ok {A} (r : Res A) : bool := match r with Ok _ => true | Err _ => false end.

(** ** Machine integers *)

Definition uint64 (z : Z) : Z := z mod 2 ^ 64.
Definition uint32 (z : Z) : Z := z mod 2 ^ 32.
Definition int64 (z : Z) : Z := (z + 2 ^ 63) mod 2 ^ 64 - 2 ^ 63.

Definition maxUint64 : Z := 2 ^ 64 - 1.
Definition maxUint32 : Z := 2 ^ 32 - 1.
Definition maxInt64 : Z := 2 ^ 63 - 1.

Definition is_u64 (z : Z) : Prop := (0 <= z < 2 ^ 64)%Z.
Definition is_u32 (z : Z) : Prop := (0 <= z < 2 ^ 32)%Z.

Lemma uint64_id z : is_u64 z -> uint64 z = z.
Proof. intros ?. by apply Z.mod_small. Qed.
Lemma uint32_id z : is_u32 z -> uint32 z = z.
Proof. intros ?. by apply Z.mod_small. Qed.
Lemma uint64_range z : is_u64 (uint64 z).
Proof. apply Z.mod_pos_bound. lia. Qed.

(** ** [time.Time]

    A [time.Time] is [None] for Go's zero time and otherwise the nanoseconds
    since the Unix epoch ([UnixNano]).  [time.Unix(0, ns)] is [Some ns]. *)
Abbreviation Time := (option Z).

Definition IsZero (t : Time) : bool := match t with None => true | Some _ => false end.

(** [time.Time{}.UnixNano()]: year 1 overflows [int64] and Go returns this
    wrapped value. *)
Definition zeroTimeUnixNano : Z := -6795364578871345152.

Definition UnixNano (t : Time) : Z := match t with None => zeroTimeUnixNano | Some ns => ns end.

(** A stored nanosecond field read back: [0] is the "not set" sentinel. *)
Definition timeOfNs (ns : Z) : Time := if (ns =? 0)%Z then None else Some ns.

(** A time written to a nanosecond field that keeps [0] for the zero time. *)
Definition nsOfTime (t : Time) : Z := if IsZero t then 0%Z else UnixNano t.

Lemma timeOfNs_nsOfTime t : t ≠ Some 0%Z -> timeOfNs (nsOfTime t) = t.
Proof.
  destruct t as [z|]; simpl; [|done].
  intros Hz. unfold timeOfNs, nsOfTime; simpl. case (Z.eqb_spec z 0) as [->|]; done.
Qed.

Lemma nsOfTime_timeOfNs ns : nsOfTime (timeOfNs ns) = ns.
Proof. unfold timeOfNs. case (Z.eqb_spec ns 0) as [->|]; done. Qed.

(** [a.Before(b)]: the zero time, year 1, precedes every stored instant. *)
Definition timeBefore (a b : Time) : bool :=
  match a, b with
  | _, None => false
  | None, Some _ => true
  | Some x, Some y => (x <? y)%Z
  end.

(** [now.Add(d)] and [a.Sub(b)]. *)
Definition timeAdd (t : Time) (d : Z) : Time := Some (UnixNano t + d)%Z.
Definition timeSub (a b : Time) : Z := (UnixNano a - UnixNano b)%Z.

(** ** [context.Context]

    [None] is a context that is never cancelled; [Some n] one that answers
    [n] more [ctx.Err()] polls with [nil] and is cancelled from then on. *)
Abbreviation Ctx := (option nat).

Definition ctx_err (c : Ctx) : bool := match c with Some 0%nat => true | _ => false end.
Definition ctx_tick (c : Ctx) : Ctx := match c with Some (S n) => Some n | _ => c end.
Definition background : Ctx := None.

(** ** Strings *)

Arguments String.append : simpl nomatch.

Definition colon : ascii := ":"%char.

Fixpoint no_colon (s : string) : bool :=
  match s with
  | EmptyString => true
  | String c s' => negb (Ascii.eqb c colon) && no_colon s'
  end.

Lemma string_app_assoc (a b c : string) : (a +:+ b) +:+ c = a +:+ (b +:+ c).
Proof. induction a as [|x a IH]; [done|]. simpl. by rewrite IH. Qed.

Lemma string_app_inj_l (a b c : string) : a +:+ b = a +:+ c -> b = c.
Proof. induction a as [|x a IH]; [done|]. simpl. intros [= ?]. auto. Qed.

Lemma string_app_nil_r (a : string) : a +:+ "" = a.
Proof. induction a as [|x a IH]; [done|]. simpl. by rewrite IH. Qed.

Lemma string_length_app a b : String.length (a +:+ b) = (String.length a + String.length b)%nat.
Proof. induction a as [|c a IH]; [done|]. simpl. by rewrite IH. Qed.

Lemma no_colon_app a b : no_colon (a +:+ b) = no_colon a && no_colon b.
Proof. induction a as [|c a IH]; [done|]. simpl. rewrite IH. by rewrite andb_assoc. Qed.

(** Splitting at the first colon is unambiguous. *)
Lemma colon_split a b x y :
  no_colon a -> no_colon b ->
  a +:+ String colon x = b +:+ String colon y -> a = b ∧ x = y.
Proof.
  revert b. induction a as [|c a IH]; intros [|d b] Ha Hb E; simpl in E; injection E.
  - by intros ->.
  - intros _ <-. done.
  - intros _ ->. done.
  - intros E' ->. simpl in Ha, Hb. apply andb_True in Ha as [_ Ha], Hb as [_ Hb].
    by destruct (IH _ Ha Hb E') as [-> ->].
Qed.

(** Go's bytewise [<] on strings and keys. *)
Fixpoint str_ltb (a b : string) : bool :=
  match a, b with
  | _, EmptyString => false
  | EmptyString, String _ _ => true
  | String c a', String d b' =>
      if (N_of_ascii c <? N_of_ascii d)%N then true
      else if (N_of_ascii c =? N_of_ascii d)%N then str_ltb a' b' else false
  end.

Definition str_leb (a b : string) : bool := negb (str_ltb b a).

Lemma N_of_ascii_inj a b : N_of_ascii a = N_of_ascii b -> a = b.
Proof. intros H. by rewrite <-(ascii_N_embedding a), <-(ascii_N_embedding b), H. Qed.

Lemma str_ltb_irrefl a : str_ltb a a = false.
Proof. induction a as [|c a IH]; [done|]. simpl. by rewrite N.ltb_irrefl, N.eqb_refl. Qed.

Lemma str_ltb_trans a b c : str_ltb a b = true -> str_ltb b c = true -> str_ltb a c = true.
Proof.
  revert b c. induction a as [|x a IH]; intros [|y b] [|z c]; simpl; try done.
  destruct (N.ltb_spec (N_of_ascii x) (N_of_ascii y)), (N.ltb_spec (N_of_ascii y) (N_of_ascii z)),
    (N.ltb_spec (N_of_ascii x) (N_of_ascii z)), (N.eqb_spec (N_of_ascii x) (N_of_ascii y)),
    (N.eqb_spec (N_of_ascii y) (N_of_ascii z)), (N.eqb_spec (N_of_ascii x) (N_of_ascii z));
    try done; try lia; eauto.
Qed.

Lemma str_ltb_asym a b : str_ltb a b = true -> str_ltb b a = false.
Proof.
  intros H. destruct (str_ltb b a) eqn:E; [|done].
  by rewrite <-(str_ltb_irrefl a), (str_ltb_trans _ _ _ H E).
Qed.

Lemma str_ltb_total a b : str_ltb a b = true ∨ a = b ∨ str_ltb b a = true.
Proof.
  revert b. induction a as [|x a IH]; intros [|y b]; simpl; auto.
  destruct (N.ltb_spec (N_of_ascii x) (N_of_ascii y)); auto.
  destruct (N.eqb_spec (N_of_ascii x) (N_of_ascii y)) as [E|].
  - apply N_of_ascii_inj in E as ->. rewrite N.ltb_irrefl, N.eqb_refl.
    destruct (IH b) as [?|[->|?]]; auto.
  - right; right. destruct (N.ltb_spec (N_of_ascii y) (N_of_ascii x)); [done|lia].
Qed.

Lemma str_ltb_app p a b : str_ltb (p +:+ a) (p +:+ b) = str_ltb a b.
Proof. induction p as [|c p IH]; [done|]. simpl. by rewrite N.ltb_irrefl, N.eqb_refl. Qed.

(** [strings.HasPrefix]. *)
Fixpoint has_prefix (p s : string) : bool :=
  match p, s with
  | EmptyString, _ => true
  | String _ _, EmptyString => false
  | String c p', String d s' => Ascii.eqb c d && has_prefix p' s'
  end.

Lemma has_prefix_app p s : has_prefix p (p +:+ s) = true.
Proof. induction p as [|c p IH]; [done|]. simpl. by rewrite Ascii.eqb_refl. Qed.

Lemma has_prefix_spec p s : has_prefix p s = true ↔ ∃ r, s = p +:+ r.
Proof.
  split.
  - revert s. induction p as [|c p IH]; intros [|d s]; simpl; try done; eauto.
    intros [->%Ascii.eqb_eq H]%andb_true_iff. destruct (IH _ H) as [r ->]. eauto.
  - intros [r ->]. apply has_prefix_app.
Qed.

(** ** Fixed-width hexadecimal: Go's [%0<w>x]

    [hexpad w z] prints [z] in [w] lower-case digits, most significant
    first; for [0 <= z < 16^w] it is what [fmt.Sprintf("%0<w>x", z)] prints. *)
Definition hexchar (d : Z) : ascii := ascii_of_N (Z.to_N (if (d <? 10)%Z then 48 + d else 87 + d)).

Fixpoint hexpad (w : nat) (z : Z) : string :=
  match w with
  | O => ""
  | S w' => String (hexchar ((z / 16 ^ Z.of_nat w') mod 16)) (hexpad w' z)
  end.

Lemma N_of_hexchar d :
  (0 <= d < 16)%Z -> Z.of_N (N_of_ascii (hexchar d)) = (if (d <? 10)%Z then 48 + d else 87 + d)%Z.
Proof.
  intros Hd. unfold hexchar. rewrite N_ascii_embedding; case (Z.ltb_spec d 10); lia.
Qed.

Lemma hexchar_lt a b :
  (0 <= a)%Z -> (a < b)%Z -> (b < 16)%Z -> (N_of_ascii (hexchar a) < N_of_ascii (hexchar b))%N.
Proof.
  intros Ha Hab Hb. pose proof (N_of_hexchar a) as Ea. pose proof (N_of_hexchar b) as Eb.
  destruct (Z.ltb_spec a 10), (Z.ltb_spec b 10); lia.
Qed.

Lemma hexchar_not_colon d : (0 <= d < 16)%Z -> Ascii.eqb (hexchar d) colon = false.
Proof.
  intros Hd. apply Ascii.eqb_neq. intros E. pose proof (N_of_hexchar d Hd) as H.
  rewrite E in H. cbn in H. destruct (Z.ltb_spec d 10); lia.
Qed.

Lemma hexpad_no_colon w z : no_colon (hexpad w z) = true.
Proof.
  induction w as [|w IH]; [done|]. cbn [hexpad no_colon].
  rewrite hexchar_not_colon by (apply Z.mod_pos_bound; lia). done.
Qed.

Lemma hexpad_length w z : String.length (hexpad w z) = w.
Proof. induction w as [|w IH]; [done|]. cbn [hexpad String.length]. by rewrite IH. Qed.

(** Only the low [w] digits matter. *)
Lemma hexpad_mod w v z : (w <= v)%nat -> hexpad w (z mod 16 ^ Z.of_nat v) = hexpad w z.
Proof.
  induction w as [|w IH]; [done|]. intros Hv. cbn [hexpad]. rewrite IH by lia. do 2 f_equal.
  replace (Z.of_nat v) with (Z.of_nat w + (1 + Z.of_nat (v - S w)))%Z by lia.
  rewrite (Z.pow_add_r 16 (Z.of_nat w)), Z.pow_add_r by lia.
  pose proof (Z.pow_pos_nonneg 16 (Z.of_nat w)). pose proof (Z.pow_pos_nonneg 16 (Z.of_nat (v - S w))).
  rewrite Z.rem_mul_r by lia.
  rewrite (Z.mul_comm (16 ^ Z.of_nat w) (_ mod _)), Z.div_add by lia.
  rewrite (Z.div_small (z mod _)) by (apply Z.mod_pos_bound; lia).
  rewrite Z.add_0_l, Z.pow_1_r, Z.rem_mul_r by lia.
  rewrite Z.mul_comm, Z.mod_add by lia. by rewrite Z.mod_mod by lia.
Qed.

(** Numeric order is lexicographic order, whatever follows the digits. *)
Lemma hexpad_lt w a b x y :
  (0 <= a)%Z -> (a < b)%Z -> (b < 16 ^ Z.of_nat w)%Z ->
  str_ltb (hexpad w a +:+ x) (hexpad w b +:+ y) = true.
Proof.
  revert a b. induction w as [|w IH]; intros a b Ha Hab Hb; [simpl in Hb; lia|].
  cbn [hexpad String.append str_ltb].
  replace (Z.of_nat (S w)) with (Z.of_nat w + 1)%Z in Hb by lia. rewrite Z.pow_add_r in Hb by lia.
  pose proof (Z.pow_pos_nonneg 16 (Z.of_nat w)) as Hp.
  set (p := (16 ^ Z.of_nat w)%Z) in *.
  assert (a / p < 16)%Z by (apply Z.div_lt_upper_bound; lia).
  assert (b / p < 16)%Z by (apply Z.div_lt_upper_bound; lia).
  assert (0 <= a / p)%Z by (apply Z.div_pos; lia).
  assert (a / p <= b / p)%Z by (apply Z.div_le_mono; lia).
  rewrite !Z.mod_small by lia.
  destruct (Z.eq_dec (a / p) (b / p)) as [E|].
  - rewrite E, N.ltb_irrefl, N.eqb_refl.
    rewrite <-(hexpad_mod w w a), <-(hexpad_mod w w b) by lia. fold p.
    pose proof (Z.div_mod a p). pose proof (Z.div_mod b p).
    pose proof (Z.mod_pos_bound a p). pose proof (Z.mod_pos_bound b p).
    apply IH; lia.
  - pose proof (hexchar_lt (a / p) (b / p)) as Hc.
    destruct (N.ltb_spec (N_of_ascii (hexchar (a / p))) (N_of_ascii (hexchar (b / p)))); [done|lia].
Qed.

Lemma hexpad_inj w a b :
  (0 <= a < 16 ^ Z.of_nat w)%Z -> (0 <= b < 16 ^ Z.of_nat w)%Z -> hexpad w a = hexpad w b -> a = b.
Proof.
  intros Ha Hb E. destruct (Z.lt_trichotomy a b) as [H|[H|H]]; [|done|].
  - pose proof (hexpad_lt w a b "" "") as Hl. rewrite E, str_ltb_irrefl in Hl. discriminate Hl; lia.
  - pose proof (hexpad_lt w b a "" "") as Hl. rewrite E, str_ltb_irrefl in Hl. discriminate Hl; lia.
Qed.

(** Reading hexadecimal digits back ([fmt.Sscanf] with [%x]). *)
Definition hexval (c : ascii) : option Z :=
  let n := Z.of_N (N_of_ascii c) in
  (if (48 <=? n) && (n <=? 57) then Some (n - 48)
   else if (97 <=? n) && (n <=? 102) then Some (n - 87)
   else if (65 <=? n) && (n <=? 70) then Some (n - 55)
   else None)%Z.

Fixpoint scanHexDigits (acc : Z) (s : string) : Z :=
  match s with
  | EmptyString => acc
  | String c s' => match hexval c with Some d => scanHexDigits (acc * 16 + d) s' | None => acc end
  end.

(** Scanning into an [int64]: at least one digit, and no overflow. *)
Definition sscanfX (s : string) : option Z :=
  match s with
  | EmptyString => None
  | String c _ =>
      match hexval c with
      | None => None
      | Some _ => let v := scanHexDigits 0 s in if (v <=? maxInt64)%Z then Some v else None
      end
  end.

Lemma hexval_hexchar d : (0 <= d < 16)%Z -> hexval (hexchar d) = Some d.
Proof.
  intros Hd. unfold hexval. rewrite N_of_hexchar by done.
  destruct (Z.ltb_spec d 10).
  - rewrite (proj2 (Z.leb_le 48 _)), (proj2 (Z.leb_le _ 57)) by lia. cbn. f_equal; lia.
  - rewrite (proj2 (Z.leb_le 48 _)), (proj2 (Z.leb_gt _ 57)) by lia. cbn.
    rewrite (proj2 (Z.leb_le 97 _)), (proj2 (Z.leb_le _ 102)) by lia. cbn. f_equal; lia.
Qed.

Lemma scanHexDigits_hexpad w acc z :
  (0 <= z < 16 ^ Z.of_nat w)%Z -> scanHexDigits acc (hexpad w z) = (acc * 16 ^ Z.of_nat w + z)%Z.
Proof.
  revert acc z. induction w as [|w IH]; intros acc z Hz; [simpl in *; lia|].
  replace (Z.of_nat (S w)) with (Z.of_nat w + 1)%Z in * by lia. rewrite Z.pow_add_r in * by lia.
  pose proof (Z.pow_pos_nonneg 16 (Z.of_nat w)) as Hp.
  cbn [hexpad scanHexDigits]. set (p := (16 ^ Z.of_nat w)%Z) in *.
  assert (z / p < 16)%Z by (apply Z.div_lt_upper_bound; lia).
  assert (0 <= z / p)%Z by (apply Z.div_pos; lia).
  rewrite Z.mod_small, hexval_hexchar by lia.
  pose proof (Z.div_mod z p). pose proof (Z.mod_pos_bound z p).
  rewrite <-(hexpad_mod w w z) by lia. fold p. rewrite IH by lia. fold p. lia.
Qed.

Lemma sscanfX_hexpad z : (0 <= z <= maxInt64)%Z -> sscanfX (hexpad 16 z) = Some z.
Proof.
  intros Hz. unfold sscanfX.
  assert ((z / 16 ^ Z.of_nat 15) mod 16 < 16)%Z by (apply Z.mod_pos_bound; lia).
  assert (0 <= (z / 16 ^ Z.of_nat 15) mod 16)%Z by (apply Z.mod_pos_bound; lia).
  destruct (hexpad 16 z) as [|c s] eqn:E; [by cbn in E|].
  assert (c = hexchar ((z / 16 ^ Z.of_nat 15) mod 16)) as ->.
  { cbn [hexpad] in E. by injection E. }
  rewrite hexval_hexchar by lia. rewrite <-E.
  rewrite scanHexDigits_hexpad by (unfold maxInt64 in Hz; simpl; lia).
  rewrite (proj2 (Z.leb_le _ _)) by lia. done.
Qed.

(** ** Loops *)

(** A range loop establishes [P] of the elements it has passed. *)
Lemma foldl_ranged {A B} (f : A -> B -> A) (P : list B -> A -> Prop) (a : A) (l : list B) :
  P [] a -> (∀ pre x post st, l = pre ++ x :: post -> P pre st -> P (pre ++ [x]) (f st x)) -> P l (foldl f a l).
Proof.
  intros H0 Hs. assert (∀ post pre st, l = pre ++ post -> P pre st -> P l (foldl f st post)) as Hgen.
  { induction post as [|x post IH]; intros pre st E Hp; [by rewrite E, app_nil_r|].
    apply (IH (pre ++ [x])); [by rewrite <-app_assoc|]. by apply (Hs pre x post). }
  by apply (Hgen l []).
Qed.

(** A counting loop from [i] to [i + n]. *)
Lemma foldl_seq {A} (f : A -> nat -> A) (P : nat -> A -> Prop) (a : A) (i n : nat) :
  P i a -> (∀ k st, (i <= k < i + n)%nat -> P k st -> P (S k) (f st k)) -> P (i + n)%nat (foldl f a (seq i n)).
Proof.
  revert i a. induction n as [|n IH]; intros i a H0 Hs; [by rewrite Nat.add_0_r|]. cbn [seq foldl].
  replace (i + S n)%nat with (S i + n)%nat by lia. apply IH; [apply Hs; [lia|done]|].
  intros k st Hk. apply Hs. lia.
Qed.
