(* ===== verification/Models.v ===== *)
(** * Models: the data types of package [models]

    [Module HexJSON] models the JSON codec of [models.HexBytes];
    [Module Lattice] the transaction statuses and the transition lattice every
    store backend enforces; [Module Anchors] the orphaned-anchor history of a
    transaction row; [Module Blocks] the block-processing row; [Module Stumps]
    the content-addressed STUMP row and the callback message's txid list. *)
From stdpp Require Import base gmap strings list sorting relations.
From Stdlib Require Import Ascii ZArith Lia.
From Stdlib Require Import Strings.Byte.
From S2P Require Import Prelude.

(** ** [models.HexBytes] *)
Module HexJSON.

Definition hexDigits : string := "0123456789abcdef".

(** [hex.EncodeToString]'s digit table. *)
Definition hexDigit (n : nat) : ascii :=
  match String.get n hexDigits with Some c => c | None => "0"%char end.

(** [hex.DecodeString]'s reverse table; upper-case digits are accepted. *)
Definition fromHexDigit (c : ascii) : option nat :=
  let n := nat_of_ascii c in
  if (48 <=? n) && (n <=? 57) then Some (n - 48)
  else if (97 <=? n) && (n <=? 102) then Some (n - 87)
  else if (65 <=? n) && (n <=? 70) then Some (n - 55)
  else None.

Definition byteHi (b : byte) : nat := N.to_nat (Byte.to_N b) / 16.
Definition byteLo (b : byte) : nat := N.to_nat (Byte.to_N b) mod 16.

Fixpoint EncodeToString (bs : list byte) : string :=
  match bs with
  | [] => ""
  | b :: bs' => String (hexDigit (byteHi b)) (String (hexDigit (byteLo b)) (EncodeToString bs'))
  end.

Fixpoint DecodeString (s : string) : Res (list byte) :=
  match s with
  | EmptyString => Ok []
  | String _ EmptyString => Err ErrInvalidHex
  | String hi (String lo s') =>
      match fromHexDigit hi, fromHexDigit lo with
      | Some h, Some l =>
          match Byte.of_N (N.of_nat (16 * h + l)), DecodeString s' with
          | Some b, Ok bs => Ok (b :: bs)
          | _, Err e => Err e
          | None, _ => Err ErrInvalidHex
          end
      | _, _ => Err ErrInvalidHex
      end
  end.

(** A Go [[]byte] where nil and empty differ. *)
Definition HexBytes : Type := option (list byte).

Definition quote : ascii := "034"%char.

Definition MarshalJSON (h : HexBytes) : string :=
  match h with
  | None => "null"
  | Some bs => String quote (EncodeToString bs +:+ String quote "")
  end.

(** [data[len(data)-1]]. *)
Fixpoint lastChar (s : string) : option ascii :=
  match s with
  | EmptyString => None
  | String c EmptyString => Some c
  | String _ s' => lastChar s'
  end.

(** [data[:len(data)-1]]. *)
Fixpoint dropLast (s : string) : string :=
  match s with
  | EmptyString => ""
  | String _ EmptyString => ""
  | String c s' => String c (dropLast s')
  end.

Definition stripQuotes (data : string) : string :=
  match data with
  | String c (String d s) =>
      if Ascii.eqb c quote && bool_decide (lastChar data = Some quote)
      then dropLast (String d s) else data
  | _ => data
  end.

Definition UnmarshalJSON (data : string) : Res HexBytes :=
  if String.eqb data "null" then Ok None
  else match DecodeString (stripQuotes data) with
       | Ok bs => Ok (Some bs)
       | Err e => Err e
       end.

Lemma hexDigit_roundtrip b :
  fromHexDigit (hexDigit (byteHi b)) = Some (byteHi b) ∧
  fromHexDigit (hexDigit (byteLo b)) = Some (byteLo b) ∧
  Byte.of_N (N.of_nat (16 * byteHi b + byteLo b)) = Some b.
Proof. by destruct b. Qed.

Lemma DecodeString_EncodeToString bs : DecodeString (EncodeToString bs) = Ok bs.
Proof.
  induction bs as [|b bs IH]; [done|]. cbn [EncodeToString DecodeString].
  destruct (hexDigit_roundtrip b) as (-> & -> & ->). by rewrite IH.
Qed.

Lemma lastChar_snoc s c : lastChar (s +:+ String c "") = Some c.
Proof. induction s as [|x s IH]; [done|]. simpl. destruct s; [done|]. exact IH. Qed.

Lemma dropLast_snoc s c : dropLast (s +:+ String c "") = s.
Proof.
  induction s as [|x s IH]; [done|]. simpl. destruct s as [|y s]; [done|].
  f_equal. exact IH.
Qed.

Lemma stripQuotes_quoted s : stripQuotes (String quote (s +:+ String quote "")) = s.
Proof.
  unfold stripQuotes.
  destruct (s +:+ String quote "") as [|d r] eqn:E; [by destruct s|].
  rewrite Ascii.eqb_refl, andb_true_l, bool_decide_eq_true_2; rewrite <-E.
  - apply dropLast_snoc.
  - apply (lastChar_snoc (String quote s)).
Qed.

(** Decoding the JSON form of any [HexBytes] value, nil included,
    returns that value: nil comes back as nil and an empty slice as an empty
    slice. *)
Theorem HexBytes_json_roundtrip (h : HexBytes) : UnmarshalJSON (MarshalJSON h) = Ok h.
Proof.
  destruct h as [bs|]; [|done]. unfold UnmarshalJSON.
  change (MarshalJSON (Some bs)) with (String quote (EncodeToString bs +:+ String quote "")).
  rewrite stripQuotes_quoted, DecodeString_EncodeToString. done.
Qed.

End HexJSON.

(** ** Transaction statuses *)
Module Lattice.

(** [models.Status] is a Go string type. *)
Definition Status : Type := string.

Definition StatusUnknown : Status := "UNKNOWN".
Definition StatusReceived : Status := "RECEIVED".
Definition StatusSentToNetwork : Status := "SENT_TO_NETWORK".
Definition StatusAcceptedByNetwork : Status := "ACCEPTED_BY_NETWORK".
Definition StatusSeenOnNetwork : Status := "SEEN_ON_NETWORK".
Definition StatusSeenMultipleNodes : Status := "SEEN_MULTIPLE_NODES".
Definition StatusDoubleSpendAttempted : Status := "DOUBLE_SPEND_ATTEMPTED".
Definition StatusRejected : Status := "REJECTED".
Definition StatusPendingRetry : Status := "PENDING_RETRY".
Definition StatusStumpProcessing : Status := "STUMP_PROCESSING".
Definition StatusMined : Status := "MINED".
Definition StatusImmutable : Status := "IMMUTABLE".

Definition AllStatuses : list Status :=
  [StatusUnknown; StatusReceived; StatusSentToNetwork;
   StatusAcceptedByNetwork; StatusSeenOnNetwork; StatusSeenMultipleNodes;
   StatusDoubleSpendAttempted; StatusRejected; StatusPendingRetry;
   StatusStumpProcessing; StatusMined; StatusImmutable].

Definition terminalStatuses : list Status :=
  [StatusRejected; StatusDoubleSpendAttempted; StatusMined; StatusImmutable].

Definition status_in (s : Status) (l : list Status) : bool := existsb (String.eqb s) l.

Definition IsTerminal (s : Status) : bool := status_in s terminalStatuses.

Definition NonTerminalStatuses : list Status :=
  [StatusReceived; StatusSentToNetwork; StatusAcceptedByNetwork;
   StatusSeenOnNetwork; StatusSeenMultipleNodes;
   StatusPendingRetry; StatusStumpProcessing].

(** The [switch] of [DisallowedPreviousStatuses], case by case. *)
Definition DisallowedPreviousStatuses (s : Status) : list Status :=
  if String.eqb s StatusUnknown || String.eqb s StatusReceived then
    [StatusSentToNetwork; StatusAcceptedByNetwork;
     StatusSeenOnNetwork; StatusSeenMultipleNodes;
     StatusPendingRetry; StatusStumpProcessing;
     StatusRejected; StatusDoubleSpendAttempted;
     StatusMined; StatusImmutable]
  else if String.eqb s StatusSentToNetwork then
    [StatusSentToNetwork; StatusAcceptedByNetwork;
     StatusSeenOnNetwork; StatusSeenMultipleNodes;
     StatusRejected; StatusDoubleSpendAttempted;
     StatusMined; StatusImmutable]
  else if String.eqb s StatusAcceptedByNetwork then
    [StatusAcceptedByNetwork;
     StatusSeenOnNetwork; StatusSeenMultipleNodes;
     StatusDoubleSpendAttempted;
     StatusMined; StatusImmutable]
  else if String.eqb s StatusSeenOnNetwork then
    [StatusSeenOnNetwork; StatusSeenMultipleNodes;
     StatusPendingRetry;
     StatusDoubleSpendAttempted;
     StatusMined; StatusImmutable]
  else if String.eqb s StatusSeenMultipleNodes then
    [StatusSeenMultipleNodes;
     StatusPendingRetry;
     StatusDoubleSpendAttempted;
     StatusMined; StatusImmutable]
  else if String.eqb s StatusPendingRetry then
    [StatusSeenOnNetwork; StatusSeenMultipleNodes;
     StatusRejected; StatusDoubleSpendAttempted;
     StatusMined; StatusImmutable]
  else if String.eqb s StatusStumpProcessing then
    [StatusRejected; StatusDoubleSpendAttempted;
     StatusMined; StatusImmutable]
  else if String.eqb s StatusRejected then
    [StatusSeenOnNetwork; StatusSeenMultipleNodes;
     StatusMined; StatusImmutable]
  else if String.eqb s StatusDoubleSpendAttempted then [StatusMined; StatusImmutable]
  else if String.eqb s StatusMined then [StatusImmutable]
  else if String.eqb s StatusImmutable then []
  else [].

(** [CanTransitionFrom s prev]: the receiver [s] is the requested status. *)
Definition CanTransitionFrom (s prev : Status) : bool :=
  if String.eqb prev "" || String.eqb prev s then true
  else negb (status_in prev (DisallowedPreviousStatuses s)).

(** *** The lattice as a step relation

    A row at status [a] moves to [b] when a writer requests a known status
    [b] and the guard accepts it. *)
Inductive status_step : Status -> Status -> Prop :=
| StatusStep a b : b ∈ AllStatuses -> CanTransitionFrom b a = true -> status_step a b.

Lemma status_in_spec s l : status_in s l = true ↔ s ∈ l.
Proof.
  unfold status_in. rewrite existsb_exists. setoid_rewrite String.eqb_eq.
  rewrite list_elem_of_In. naive_solver.
Qed.

(** A set of statuses closed under one step is closed under many; the closure
    check is a computation over [AllStatuses]. *)
Definition closed_under_steps (l : list Status) : bool :=
  forallb (fun a => forallb (fun b => negb (CanTransitionFrom b a) || status_in b l) AllStatuses) l.

Lemma closed_reach (l : list Status) a b :
  closed_under_steps l = true -> a ∈ l -> rtc status_step a b -> b ∈ l.
Proof.
  intros Hc Ha Hr. induction Hr as [a|a b c [a' b' Hb Hs] _ IH]; [done|]. apply IH.
  unfold closed_under_steps in Hc. rewrite forallb_forall in Hc.
  specialize (Hc a' (proj1 (list_elem_of_In _ _) Ha)).
  rewrite forallb_forall in Hc.
  specialize (Hc b' (proj1 (list_elem_of_In _ _) Hb)).
  rewrite Hs in Hc. simpl in Hc. by apply status_in_spec.
Qed.

(** Whatever sequence of accepted updates follows, a MINED row is only
    ever MINED or IMMUTABLE, and an IMMUTABLE row stays IMMUTABLE. *)
Theorem mined_is_final (s : Status) :
  (rtc status_step StatusMined s -> s = StatusMined ∨ s = StatusImmutable) ∧
  (rtc status_step StatusImmutable s -> s = StatusImmutable).
Proof.
  split; intros H.
  - apply (closed_reach [StatusMined; StatusImmutable]) in H; [|by vm_compute|set_solver].
    set_solver.
  - apply (closed_reach [StatusImmutable]) in H; [|by vm_compute|set_solver].
    set_solver.
Qed.

Lemma mined_is_final_step s :
  s ∈ AllStatuses -> CanTransitionFrom s StatusImmutable = true -> s = StatusImmutable.
Proof.
  intros Hs Hc. assert (s ∈ [StatusImmutable]); [|set_solver].
  apply (closed_reach [StatusImmutable] StatusImmutable); [by vm_compute|set_solver|].
  apply rtc_once. by constructor.
Qed.

(** The pairs (terminal status, different status it may move to). *)
Definition terminal_exits : list (Status * Status) :=
  concat (map (fun a => map (pair a)
    (List.filter (fun b => negb (String.eqb a b) && CanTransitionFrom b a) AllStatuses))
    terminalStatuses).

(** The accepted transitions out of a terminal status are exactly these
    ten: besides MINED to IMMUTABLE, REJECTED recovers to ACCEPTED / SEEN /
    DOUBLE_SPEND / MINED / IMMUTABLE and DOUBLE_SPEND falls to REJECTED or is mined. *)
Theorem terminal_exits_exact :
  terminal_exits =
  [(StatusRejected, StatusAcceptedByNetwork);
   (StatusRejected, StatusSeenOnNetwork);
   (StatusRejected, StatusSeenMultipleNodes);
   (StatusRejected, StatusDoubleSpendAttempted);
   (StatusRejected, StatusMined);
   (StatusRejected, StatusImmutable);
   (StatusDoubleSpendAttempted, StatusRejected);
   (StatusDoubleSpendAttempted, StatusMined);
   (StatusDoubleSpendAttempted, StatusImmutable);
   (StatusMined, StatusImmutable)].
Proof. vm_compute. reflexivity. Qed.

Lemma CanTransitionFrom_refl s : CanTransitionFrom s s = true.
Proof. unfold CanTransitionFrom. by rewrite String.eqb_refl, orb_true_r. Qed.

Lemma AllStatuses_no_colon s : s ∈ AllStatuses -> no_colon s = true.
Proof.
  intros H. assert (forallb no_colon AllStatuses = true) as Hf by by vm_compute.
  rewrite forallb_forall in Hf. apply Hf. by apply list_elem_of_In.
Qed.

End Lattice.
Export Lattice.

(** ** Transaction rows and submissions *)
Module Rows.

(** [models.OrphanedAnchor]. *)
Record OrphanedAnchor : Type := mkOrphanedAnchor {
  oa_BlockHash : string;
  oa_BlockHeight : Z;
  oa_OrphanedAt : Time;
  oa_MerklePath : list byte
}.

(** [models.TransactionStatus].  Byte slices are lists: the code only ever
    tests their length, so nil and empty are the same value here. *)
Record TransactionStatus : Type := mkTransactionStatus {
  ts_TxID : string;
  ts_Status : Status;
  ts_StatusCode : Z;
  ts_Timestamp : Time;
  ts_TxIDs : list string;
  ts_BlockHash : string;
  ts_BlockHeight : Z;
  ts_MerklePath : list byte;
  ts_ExtraInfo : string;
  ts_CompetingTxs : list string;
  ts_RawTx : list byte;
  ts_RetryCount : Z;
  ts_NextRetryAt : Time;
  ts_CreatedAt : Time;
  ts_OrphanedProofs : list OrphanedAnchor;
  ts_MerkleRegisteredAt : Time
}.

(** A composite literal that sets no field. *)
Definition emptyTransactionStatus : TransactionStatus :=
  mkTransactionStatus "" "" 0 None [] "" 0 [] "" [] [] 0 None None [] None.

(** [models.Submission]; the two pointer times are optional. *)
Record Submission : Type := mkSubmission {
  sb_SubmissionID : string;
  sb_TxID : string;
  sb_CallbackURL : string;
  sb_CallbackToken : string;
  sb_FullStatusUpdates : bool;
  sb_LastDeliveredStatus : Status;
  sb_RetryCount : Z;
  sb_NextRetryAt : option Z;
  sb_Attempts : Z;
  sb_LastAttemptAt : option Z;
  sb_LastResult : string;
  sb_CreatedAt : Time
}.

Definition MaxOrphanedAnchors : nat := 5.

(** [history[len(history)-MaxOrphanedAnchors:]] when it is longer than that. *)
Definition capHistory {A} (h : list A) : list A :=
  if (MaxOrphanedAnchors <? length h)%nat then drop (length h - MaxOrphanedAnchors) h else h.

Definition AppendOrphanedAnchor (history : list OrphanedAnchor) (anchor : OrphanedAnchor)
  : list OrphanedAnchor :=
  if String.eqb (oa_BlockHash anchor) "" then history
  else match last history with
       | Some a =>
           if String.eqb (oa_BlockHash a) (oa_BlockHash anchor) then history
           else capHistory (history ++ [anchor])
       | None => capHistory (history ++ [anchor])
       end.

(** *** Lemmas on capped histories, shared with the persisted form *)

(** No two neighbouring anchors name the same block. *)
Definition no_adj_dup {A} (key : A -> string) (l : list A) : Prop :=
  ∀ i x y, l !! i = Some x -> l !! S i = Some y -> key x ≠ key y.

Lemma capHistory_length {A} (h : list A) : (length (capHistory h) <= MaxOrphanedAnchors)%nat.
Proof. unfold capHistory. case (Nat.ltb_spec MaxOrphanedAnchors (length h)); [rewrite length_drop|]; lia. Qed.

Lemma capHistory_last {A} (h : list A) x : last (capHistory (h ++ [x])) = Some x.
Proof.
  unfold capHistory. case (Nat.ltb_spec MaxOrphanedAnchors (length (h ++ [x]))); intros Hlen.
  - rewrite length_app in *; simpl in *. unfold MaxOrphanedAnchors in *.
    rewrite drop_app_le by lia. apply last_snoc.
  - apply last_snoc.
Qed.

Lemma no_adj_dup_drop {A} (key : A -> string) n l : no_adj_dup key l -> no_adj_dup key (drop n l).
Proof.
  intros H i x y. rewrite !lookup_drop. replace (n + S i)%nat with (S (n + i)) by lia. apply H.
Qed.

Lemma no_adj_dup_snoc {A} (key : A -> string) l x :
  no_adj_dup key l -> (∀ y, last l = Some y -> key y ≠ key x) -> no_adj_dup key (l ++ [x]).
Proof.
  intros H Hl i a b Ha Hb.
  apply lookup_app_Some in Hb as [Hb|[Hge Hb]].
  - apply (H i); [|done]. apply lookup_lt_Some in Hb. rewrite lookup_app_l in Ha by lia. done.
  - apply list_lookup_singleton_Some in Hb as [Hi <-].
    assert (i < length l)%nat by (apply lookup_lt_Some in Ha; rewrite length_app in Ha; simpl in Ha; lia).
    rewrite lookup_app_l in Ha by done. apply Hl. rewrite last_lookup.
    by replace (pred (length l)) with i by lia.
Qed.

Lemma capHistory_no_adj {A} (key : A -> string) l : no_adj_dup key l -> no_adj_dup key (capHistory l).
Proof. unfold capHistory. destruct (_ <? _)%nat; auto using no_adj_dup_drop. Qed.

(** An anchor history never exceeds [MaxOrphanedAnchors] entries and
    never holds the same block twice in a row; appending keeps both, records
    a named anchor as the newest entry, and appending it again changes
    nothing. *)
Theorem AppendOrphanedAnchor_ok (h : list OrphanedAnchor) (a : OrphanedAnchor) :
  (length h <= MaxOrphanedAnchors)%nat -> no_adj_dup oa_BlockHash h ->
  let h' := AppendOrphanedAnchor h a in
  (length h' <= MaxOrphanedAnchors)%nat ∧ no_adj_dup oa_BlockHash h' ∧
  (oa_BlockHash a ≠ "" -> ∃ b, last h' = Some b ∧ oa_BlockHash b = oa_BlockHash a) ∧
  AppendOrphanedAnchor h' a = h'.
Proof.
  intros Hlen Hadj. simpl. unfold AppendOrphanedAnchor.
  destruct (String.eqb_spec (oa_BlockHash a) "") as [|Hne]; [done|].
  destruct (last h) as [b|] eqn:El.
  - destruct (String.eqb_spec (oa_BlockHash b) (oa_BlockHash a)) as [Eb|Eb].
    + rewrite El. rewrite Eb, String.eqb_refl. eauto 10.
    + rewrite capHistory_last, String.eqb_refl. split_and!; eauto using capHistory_length.
      apply capHistory_no_adj, no_adj_dup_snoc; [done|]. naive_solver.
  - rewrite capHistory_last, String.eqb_refl. split_and!; eauto using capHistory_length.
    apply capHistory_no_adj, no_adj_dup_snoc; [done|]. naive_solver.
Qed.

Lemma AppendOrphanedAnchor_ok_witness :
  (length [mkOrphanedAnchor "aa" 7 None []] <= MaxOrphanedAnchors)%nat ∧
  length (AppendOrphanedAnchor [mkOrphanedAnchor "aa" 7 None []] (mkOrphanedAnchor "bb" 7 None []))
    = 2%nat ∧
  (length (AppendOrphanedAnchor [mkOrphanedAnchor "aa" 7 None []] (mkOrphanedAnchor "bb" 7 None []))
    <= MaxOrphanedAnchors)%nat.
Proof.
  split; [simpl; unfold MaxOrphanedAnchors; lia|]. split; [reflexivity|].
  apply (AppendOrphanedAnchor_ok [mkOrphanedAnchor "aa" 7 None []] (mkOrphanedAnchor "bb" 7 None [])).
  - simpl; unfold MaxOrphanedAnchors; lia.
  - intros i x y Hx Hy. by destruct i.
Defined.

End Rows.
Export Rows.

(** ** Block-processing rows *)
Module Blocks.

Definition BlockStatusActive : string := "active".
Definition BlockStatusOrphaned : string := "orphaned".
Definition BlockStatusParked : string := "parked".

(** [models.BlockProcessingStatus]; pointer times are optional. *)
Record BlockProcessingStatus : Type := mkBlockProcessingStatus {
  bp_BlockHash : string;
  bp_BlockHeight : Z;
  bp_HeaderSeenAt : Time;
  bp_ProcessedAt : option Z;
  bp_BUMPBuiltAt : option Z;
  bp_Status : string;
  bp_OrphanedAt : option Z;
  bp_ReconciledAt : option Z
}.

#[export] Instance BlockProcessingStatus_eq_dec : EqDecision BlockProcessingStatus.
Proof. solve_decision. Defined.

(** [OrphanGeneration]; a nil receiver is [None]. *)
Definition OrphanGeneration (b : option BlockProcessingStatus) : Time :=
  match b with
  | None => None
  | Some b => bp_OrphanedAt b
  end.

End Blocks.
Export Blocks.

(** ** STUMP rows and callback messages *)
Module Stumps.

(** [models.Stump]. *)
Record Stump : Type := mkStump {
  stump_BlockHash : string;
  stump_SubtreeIndex : Z;
  stump_StumpData : list byte;
  stump_ContentHash : string
}.

(** The part of [models.CallbackMessage] the SEEN callbacks read. *)
Record SeenCallback : Type := mkSeenCallback {
  cb_TxID : string;
  cb_TxIDs : list string
}.

Definition ResolveSeenTxIDs (msg : SeenCallback) : list string :=
  match cb_TxIDs msg with
  | _ :: _ => cb_TxIDs msg
  | [] => if String.eqb (cb_TxID msg) "" then [] else [cb_TxID msg]
  end.

Section ContentAddress.
(** [sha256.Sum256]. *)
Context (sha256 : list byte -> list byte).

Definition StumpContentHash (data : list byte) : string :=
  HexJSON.EncodeToString (sha256 data).

Definition NewStump (blockHash : string) (subtreeIndex : Z) (data : list byte) : Stump :=
  mkStump blockHash subtreeIndex data (StumpContentHash data).

(** The receiver after the call, and the returned hash. *)
Definition EnsureContentHash (s : Stump) : Stump * string :=
  if String.eqb (stump_ContentHash s) "" then
    let h := StumpContentHash (stump_StumpData s) in
    (mkStump (stump_BlockHash s) (stump_SubtreeIndex s) (stump_StumpData s) h, h)
  else (s, stump_ContentHash s).
End ContentAddress.

End Stumps.
Export Stumps.
