(* ===== verification/StoreCore.v ===== *)
(** * StoreCore: the backend-independent part of package [store]

    [Module Scan] models [store/trackerscan.go] (which rows a tracker
    hydration keeps), [Module TxTracker] the in-memory tracker of
    [store/tracker.go], [Module Policies] the policy validation of
    [store/store.go], and [Module Tokens] the token projection of
    [store/submissions.go]. *)
From stdpp Require Import base gmap strings list sorting.
From Stdlib Require Import ZArith Lia.
From S2P Require Import Prelude Models.

Definition ConfirmationsRequired : Z := 100.

(** ** Hydration scans *)
Module Scan.

Record TrackerRow : Type := mkTrackerRow {
  tr_TxID : string;
  tr_Status : Status;
  tr_BlockHeight : Z
}.

Definition trackerStatuses : list Status :=
  List.filter (fun s => negb (IsTerminal s) || String.eqb s StatusMined) AllStatuses.

Definition TrackerStatuses : list Status := trackerStatuses.

Definition TracksStatus (s : Status) : bool := status_in s trackerStatuses.

Record TrackerScan : Type := mkTrackerScan { PruneMinedBelow : Z }.

Definition NewTrackerScan (tipHeight : Z) (tipKnown : bool) : TrackerScan :=
  if negb tipKnown || (tipHeight <? ConfirmationsRequired)%Z then mkTrackerScan 0
  else mkTrackerScan (uint64 (tipHeight - ConfirmationsRequired + 1)).

Definition Statuses (_ : TrackerScan) : list Status := TrackerStatuses.

Definition Keep (s : TrackerScan) (status : Status) (blockHeight : Z) : bool :=
  if negb (TracksStatus status) then false
  else if String.eqb status StatusMined && (0 <? blockHeight)%Z
          && (0 <? PruneMinedBelow s)%Z && (blockHeight <? PruneMinedBelow s)%Z then false
  else true.

(** The filter hydration used before the pushdown: skip terminal rows other
    than MINED, and MINED rows with at least [ConfirmationsRequired] blocks on
    top of a recorded height.  The addition is a [uint64] addition. *)
Definition inlineFilter (tipHeight : Z) (status : Status) (blockHeight : Z) : bool :=
  negb (IsTerminal status && negb (String.eqb status StatusMined)) &&
  negb (String.eqb status StatusMined && (0 <? blockHeight)%Z &&
        (uint64 (blockHeight + ConfirmationsRequired) <=? tipHeight)%Z).

Lemma TracksStatus_known s :
  s ∈ AllStatuses -> TracksStatus s = negb (IsTerminal s && negb (String.eqb s StatusMined)).
Proof.
  intros Hs. assert (forallb (fun s => Bool.eqb (TracksStatus s)
    (negb (IsTerminal s && negb (String.eqb s StatusMined)))) AllStatuses = true) as Hf by by vm_compute.
  rewrite forallb_forall in Hf. apply Bool.eqb_prop, Hf. by apply list_elem_of_In.
Qed.

(** For a known tip, the pushed-down predicate keeps exactly the rows
    the former inline filter kept, for every known status and every height
    whose confirmation depth does not overflow. *)
Theorem Keep_equiv_inline (tip h : Z) (s : Status) :
  is_u64 tip -> (0 <= h)%Z -> (h + ConfirmationsRequired < 2 ^ 64)%Z -> s ∈ AllStatuses ->
  Keep (NewTrackerScan tip true) s h = inlineFilter tip s h.
Proof.
  intros Ht Hh Hov Hs. unfold Keep, inlineFilter. rewrite TracksStatus_known by done.
  destruct (negb (IsTerminal s && _)) eqn:Et; [|done]. simpl.
  rewrite (uint64_id (h + _)) by (unfold is_u64, ConfirmationsRequired in *; lia).
  destruct (String.eqb s StatusMined); [|done]. simpl.
  unfold NewTrackerScan; simpl.
  destruct (Z.ltb_spec tip ConfirmationsRequired) as [Hlt|Hge]; simpl.
  - destruct (Z.ltb_spec 0 h); simpl; [|done].
    by rewrite (proj2 (Z.leb_gt _ _)) by lia.
  - rewrite uint64_id by (unfold is_u64, ConfirmationsRequired in *; lia).
    rewrite (proj2 (Z.ltb_lt 0 (tip - _ + 1))) by lia.
    destruct (Z.ltb_spec 0 h); simpl; [|done].
    destruct (Z.ltb_spec h (tip - ConfirmationsRequired + 1)),
      (Z.leb_spec (h + ConfirmationsRequired) tip); simpl; try done; lia.
Qed.

Lemma Keep_equiv_inline_witness :
  Keep (NewTrackerScan 850000 true) StatusMined 849900 = false ∧
  inlineFilter 850000 StatusMined 849900 = false ∧
  Keep (NewTrackerScan 850000 true) StatusMined 849901 = inlineFilter 850000 StatusMined 849901.
Proof.
  split; [vm_compute; reflexivity|]. split; [vm_compute; reflexivity|].
  apply (Keep_equiv_inline 850000 849901 StatusMined); unfold is_u64, ConfirmationsRequired; try lia.
  apply status_in_spec. vm_compute. reflexivity.
Defined.

End Scan.
Export Scan.

(** ** The in-memory transaction tracker *)
Module TxTracker.

Record TrackedTx : Type := mkTrackedTx {
  tt_Status : Status;
  tt_MinedHeight : Z
}.

Record LoadStats : Type := mkLoadStats {
  Scanned : nat;
  Loaded : nat;
  Skipped : nat
}.

Section Tracker.
(** [chainhash.Hash] and [chainhash.NewHashFromHex] of the Go SDK. *)
Context {Hash : Type} `{Countable Hash} (NewHashFromHex : string -> option Hash).

Abbreviation txids := (gmap Hash TrackedTx).

Definition NewTxTracker : txids := ∅.

Definition AddHash (t : txids) (hash : Hash) (status : Status) : txids :=
  <[hash := mkTrackedTx status 0]> t.

Definition Add (t : txids) (txid : string) (status : Status) : txids :=
  match NewHashFromHex txid with None => t | Some hash => AddHash t hash status end.

Definition UpdateStatusHash (t : txids) (hash : Hash) (status : Status) : txids :=
  match t !! hash with
  | Some tx => <[hash := mkTrackedTx status (tt_MinedHeight tx)]> t
  | None => t
  end.

Definition UpdateStatus (t : txids) (txid : string) (status : Status) : txids :=
  match NewHashFromHex txid with None => t | Some hash => UpdateStatusHash t hash status end.

Definition SetMinedHash (t : txids) (hash : Hash) (blockHeight : Z) : txids :=
  match t !! hash with
  | Some _ => <[hash := mkTrackedTx StatusMined blockHeight]> t
  | None => t
  end.

Definition SetMined (t : txids) (txid : string) (blockHeight : Z) : txids :=
  match NewHashFromHex txid with None => t | Some hash => SetMinedHash t hash blockHeight end.

(** [currentHeight >= tx.MinedHeight+ConfirmationsRequired] on [uint64]. *)
Definition prunable (currentHeight : Z) (tx : TrackedTx) : bool :=
  String.eqb (tt_Status tx) StatusMined && (0 <? tt_MinedHeight tx)%Z &&
  (uint64 (tt_MinedHeight tx + ConfirmationsRequired) <=? currentHeight)%Z.

(** The hashes returned (in map-iteration order) and the tracker left. *)
Definition PruneConfirmed (t : txids) (currentHeight : Z) : list Hash * txids :=
  ((filter (fun e => prunable currentHeight e.2 = true) (map_to_list t)).*1,
   filter (fun e => prunable currentHeight e.2 = false) t).

Definition RemoveHash (t : txids) (hash : Hash) : txids := delete hash t.

Definition Remove (t : txids) (txid : string) : txids :=
  match NewHashFromHex txid with None => t | Some hash => RemoveHash t hash end.

Definition ContainsHash (t : txids) (hash : Hash) : bool := bool_decide (is_Some (t !! hash)).

Definition Contains (t : txids) (txid : string) : bool :=
  match NewHashFromHex txid with None => false | Some hash => ContainsHash t hash end.

Definition GetStatusHash (t : txids) (hash : Hash) : Status * bool :=
  match t !! hash with Some tx => (tt_Status tx, true) | None => ("", false) end.

Definition GetStatus (t : txids) (txid : string) : Status * bool :=
  match NewHashFromHex txid with None => ("", false) | Some hash => GetStatusHash t hash end.

Definition FilterTrackedHashes (t : txids) (hashes : list Hash) : list Hash :=
  List.filter (ContainsHash t) hashes.

Fixpoint filterTracked (t : txids) (ids : list string) (tracked : list string) (unknown : nat)
  : list string * nat :=
  match ids with
  | [] => (tracked, unknown)
  | s :: ids' =>
      match NewHashFromHex s with
      | None => filterTracked t ids' tracked (S unknown)
      | Some hash =>
          if ContainsHash t hash then filterTracked t ids' (tracked ++ [s]) unknown
          else filterTracked t ids' tracked (S unknown)
      end
  end.

Definition FilterTrackedTxids (t : txids) (ids : list string) : list string * nat :=
  filterTracked t ids [] 0.

Definition Count (t : txids) : nat := size t.

(** *** Hydration

    [loadFromStore]'s closure state: the tracker, the batch of kept rows
    not yet flushed, and the counters. *)
Record loadState : Type := mkLoadState {
  ls_txids : txids;
  ls_batch : list (Hash * TrackedTx);
  ls_stats : LoadStats
}.

Definition insertAll (t : txids) (batch : list (Hash * TrackedTx)) : txids :=
  foldl (fun t k => <[k.1 := k.2]> t) t batch.

Definition flush (s : loadState) : loadState :=
  mkLoadState (insertAll (ls_txids s) (ls_batch s)) []
    (mkLoadStats (Scanned (ls_stats s)) (Loaded (ls_stats s) + length (ls_batch s))
       (Skipped (ls_stats s))).

Definition loadRow (scan : TrackerScan) (batchSize : nat) (s : loadState) (row : TrackerRow)
  : loadState :=
  let st := ls_stats s in
  if negb (Keep scan (tr_Status row) (tr_BlockHeight row)) then
    mkLoadState (ls_txids s) (ls_batch s) (mkLoadStats (S (Scanned st)) (Loaded st) (S (Skipped st)))
  else
    match NewHashFromHex (tr_TxID row) with
    | None =>
        mkLoadState (ls_txids s) (ls_batch s) (mkLoadStats (S (Scanned st)) (Loaded st) (Skipped st))
    | Some hash =>
        let s' := mkLoadState (ls_txids s)
          (ls_batch s ++ [(hash, mkTrackedTx (tr_Status row) (tr_BlockHeight row))])
          (mkLoadStats (S (Scanned st)) (Loaded st) (Skipped st)) in
        if (batchSize <=? length (ls_batch s'))%nat then flush s' else s'
    end.

(** [rows] are the rows the store emitted before returning [err]; the final
    flush runs on both paths. *)
Definition loadFromStoreBatchSize : Z := 10000.

Definition loadFromStore (t : txids) (scan : TrackerScan) (batchSize : Z)
    (rows : list TrackerRow) (err : option error) : txids * LoadStats * option error :=
  let batchSize := Z.to_nat (if (batchSize <=? 0)%Z then loadFromStoreBatchSize else batchSize) in
  let s := flush (foldl (loadRow scan batchSize) (mkLoadState t [] (mkLoadStats 0 0 0)) rows) in
  (ls_txids s, ls_stats s, err).

Definition LoadFromStore (t : txids) (scan : TrackerScan) (rows : list TrackerRow)
    (err : option error) : txids * LoadStats * option error :=
  loadFromStore t scan loadFromStoreBatchSize rows err.

(** The reference: insert every row that [Keep] accepts and whose txid
    parses, in the order emitted. *)
Definition keptRows (scan : TrackerScan) (rows : list TrackerRow) : list (Hash * TrackedTx) :=
  omap (fun row => if Keep scan (tr_Status row) (tr_BlockHeight row)
                   then (fun h => (h, mkTrackedTx (tr_Status row) (tr_BlockHeight row)))
                          <$> NewHashFromHex (tr_TxID row)
                   else None) rows.

Lemma insertAll_app t a b : insertAll t (a ++ b) = insertAll (insertAll t a) b.
Proof. apply foldl_app. Qed.

(** What the closure state stands for: tracker contents once flushed, and
    the rows loaded so far. *)
Definition ls_total (s : loadState) : txids := insertAll (ls_txids s) (ls_batch s).
Definition ls_loaded (s : loadState) : nat := (Loaded (ls_stats s) + length (ls_batch s))%nat.

Lemma loadRow_total scan n s row :
  ls_total (loadRow scan n s row) = insertAll (ls_total s) (keptRows scan [row]) ∧
  ls_loaded (loadRow scan n s row) = (ls_loaded s + length (keptRows scan [row]))%nat ∧
  Scanned (ls_stats (loadRow scan n s row)) = S (Scanned (ls_stats s)).
Proof.
  unfold loadRow, keptRows, ls_total, ls_loaded. cbn [omap list_omap].
  destruct (Keep scan _ _); cbn -[flush]; [|split_and!; [done|lia|done]].
  destruct (NewHashFromHex _); cbn -[flush]; [|split_and!; [done|lia|done]].
  case_match; cbn; rewrite ?length_app, ?insertAll_app; simpl; split_and!; try done; try lia.
Qed.

Lemma loadRows_total scan n rows s :
  let s' := foldl (loadRow scan n) s rows in
  ls_total s' = insertAll (ls_total s) (keptRows scan rows) ∧
  ls_loaded s' = (ls_loaded s + length (keptRows scan rows))%nat ∧
  Scanned (ls_stats s') = (Scanned (ls_stats s) + length rows)%nat.
Proof.
  revert s. induction rows as [|row rows IH]; intros s; [simpl; split_and!; [done|lia|lia]|].
  destruct (loadRow_total scan n s row) as (E1 & E2 & E3).
  specialize (IH (loadRow scan n s row)). cbn [foldl]. destruct IH as (I1 & I2 & I3).
  assert (keptRows scan (row :: rows) = keptRows scan [row] ++ keptRows scan rows) as ->
    by (unfold keptRows; by rewrite <-omap_app).
  rewrite insertAll_app, length_app, I1, I2, I3, E1, E2, E3.
  cbn [length]. split_and!; [done|lia|lia].
Qed.

(** Hydration does not depend on the batch size or on where an
    iteration error cuts it off: the tracker ends up with exactly the rows
    emitted so far that [Keep] accepts and whose txid parses, the counters
    agree, and the error is surfaced. *)
Theorem loadFromStore_spec (t : txids) (scan : TrackerScan) (batchSize : Z)
    (rows : list TrackerRow) (err : option error) :
  let '(t', stats, e) := loadFromStore t scan batchSize rows err in
  t' = insertAll t (keptRows scan rows) ∧ Loaded stats = length (keptRows scan rows) ∧
  Scanned stats = length rows ∧ e = err.
Proof.
  unfold loadFromStore.
  destruct (loadRows_total scan
    (Z.to_nat (if (batchSize <=? 0)%Z then loadFromStoreBatchSize else batchSize)) rows (mkLoadState t [] (mkLoadStats 0 0 0)))
    as (E1 & E2 & E3).
  unfold ls_total, ls_loaded in *. simpl in *. done.
Qed.

(** Pruning returns exactly the tracked transactions that are MINED at
    a recorded height with [ConfirmationsRequired] blocks on top, each once,
    removes exactly those and leaves every other entry as it was. *)
Theorem PruneConfirmed_exact (t : txids) (currentHeight : Z) :
  let '(immutable, t') := PruneConfirmed t currentHeight in
  NoDup immutable ∧
  (∀ h, h ∈ immutable ↔ ∃ tx, t !! h = Some tx ∧ prunable currentHeight tx = true) ∧
  (∀ h, t' !! h = if decide (h ∈ immutable) then None else t !! h).
Proof.
  unfold PruneConfirmed.
  assert (∀ h, h ∈ (filter (fun e => prunable currentHeight e.2 = true) (map_to_list t)).*1 ↔
               ∃ tx, t !! h = Some tx ∧ prunable currentHeight tx = true) as Hin.
  { intros h. rewrite list_elem_of_fmap. split.
    - intros ([h' tx] & -> & [Hp Hl]%list_elem_of_filter). apply elem_of_map_to_list in Hl. eauto.
    - intros (tx & Hl & Hp). exists (h, tx). split; [done|].
      apply list_elem_of_filter. split; [done|]. by apply elem_of_map_to_list. }
  split_and!; [|done|].
  - apply (NoDup_fmap_fst).
    + intros h x y [_ Hx]%list_elem_of_filter [_ Hy]%list_elem_of_filter.
      apply elem_of_map_to_list in Hx, Hy. congruence.
    + apply NoDup_filter, NoDup_map_to_list.
  - intros h. destruct (t !! h) as [tx|] eqn:Et.
    + destruct (prunable currentHeight tx) eqn:Ep.
      * rewrite decide_True by (apply Hin; eauto).
        apply map_lookup_filter_None. right. intros tx' E'. simplify_eq. simpl. congruence.
      * rewrite decide_False by (rewrite Hin; intros (tx' & E' & Ep'); simplify_eq; congruence).
        by apply map_lookup_filter_Some.
    + rewrite map_lookup_filter_None_2 by auto. by case_decide.
Qed.

(** A row [Keep] drops is one the tracker would prune at once. *)
Lemma Keep_false_prunable tip s h :
  is_u64 tip -> (h + ConfirmationsRequired < 2 ^ 64)%Z -> TracksStatus s = true ->
  Keep (NewTrackerScan tip true) s h = false -> prunable tip (mkTrackedTx s h) = true.
Proof.
  unfold Keep, prunable, NewTrackerScan, is_u64, ConfirmationsRequired. intros Ht Ho ->. simpl.
  destruct (String.eqb s StatusMined); simpl; [|done].
  destruct (Z.ltb_spec 0 h); simpl; [|done].
  destruct (Z.ltb_spec tip 100); simpl; [done|].
  rewrite uint64_id by (unfold is_u64; lia). rewrite uint64_id by (unfold is_u64; lia).
  destruct (Z.ltb_spec 0 (tip - 100 + 1)), (Z.ltb_spec h (tip - 100 + 1)); simpl; try done; lia.
Qed.
End Tracker.

End TxTracker.

(** ** Advertised policies *)
Module Policies.

Record EndpointPolicy : Type := mkEndpointPolicy {
  EP_MiningFeeSatoshis : Z;
  EP_MiningFeeBytes : Z;
  EP_MaxTxSizePolicy : Z;
  EP_MaxScriptSizePolicy : Z;
  EP_MaxTxSigopsCountsPolicy : Z
}.

Record DatahubEndpoint : Type := mkDatahubEndpoint {
  DE_URL : string;
  DE_Network : string;
  DE_Source : string;
  DE_Policy : option EndpointPolicy;
  DE_LastSeen : Time
}.

Record PeerPolicy : Type := mkPeerPolicy {
  PP_PeerID : string;
  PP_Network : string;
  PP_MiningFeeSatoshis : Z;
  PP_MiningFeeBytes : Z;
  PP_MaxTxSizePolicy : Z;
  PP_MaxScriptSizePolicy : Z;
  PP_LastSeen : Time
}.

Definition maxStorablePolicyValue : Z := maxInt64.

(** The loop over the five fields; the first one out of range is the error. *)
Definition EndpointPolicy_Validate (ep : EndpointPolicy) : option error :=
  if existsb (fun v => (maxStorablePolicyValue <? v)%Z)
       [EP_MiningFeeSatoshis ep; EP_MiningFeeBytes ep; EP_MaxTxSizePolicy ep;
        EP_MaxScriptSizePolicy ep; EP_MaxTxSigopsCountsPolicy ep]
  then Some ErrInvalidEndpointPolicy else None.

Definition PeerPolicy_Validate (pp : PeerPolicy) : option error :=
  if String.eqb (PP_PeerID pp) "" then Some ErrInvalidPeerPolicy
  else if (PP_MiningFeeBytes pp =? 0)%Z then Some ErrInvalidPeerPolicy
  else if (maxStorablePolicyValue <? PP_MiningFeeSatoshis pp)%Z then Some ErrInvalidPeerPolicy
  else if (maxStorablePolicyValue <? PP_MiningFeeBytes pp)%Z then Some ErrInvalidPeerPolicy
  else if (maxStorablePolicyValue <? PP_MaxTxSizePolicy pp)%Z then Some ErrInvalidPeerPolicy
  else if (maxStorablePolicyValue <? PP_MaxScriptSizePolicy pp)%Z then Some ErrInvalidPeerPolicy
  else None.

Definition SanitizePolicySizes (pp : PeerPolicy) : PeerPolicy * Z :=
  let bigTx := (maxStorablePolicyValue <? PP_MaxTxSizePolicy pp)%Z in
  let bigScript := (maxStorablePolicyValue <? PP_MaxScriptSizePolicy pp)%Z in
  (mkPeerPolicy (PP_PeerID pp) (PP_Network pp) (PP_MiningFeeSatoshis pp) (PP_MiningFeeBytes pp)
     (if bigTx then 0%Z else PP_MaxTxSizePolicy pp)
     (if bigScript then 0%Z else PP_MaxScriptSizePolicy pp) (PP_LastSeen pp),
   ((if bigTx then 1 else 0) + (if bigScript then 1 else 0))%Z).

(** The [uint64] fields of a policy. *)
Definition peer_fields_u64 (pp : PeerPolicy) : Prop :=
  is_u64 (PP_MiningFeeSatoshis pp) ∧ is_u64 (PP_MiningFeeBytes pp) ∧
  is_u64 (PP_MaxTxSizePolicy pp) ∧ is_u64 (PP_MaxScriptSizePolicy pp).

Lemma int64_small z : (0 <= z <= maxInt64)%Z -> int64 z = z.
Proof. unfold int64, maxInt64. intros ?. rewrite Z.mod_small; lia. Qed.

(** A peer policy that passes [Validate] survives the backends'
    narrowing to signed 64 bits unchanged and has a nonzero fee basis; and
    sanitizing the sizes of a policy whose identity and fee are valid always
    yields one that passes. *)
Theorem PeerPolicy_validate_lossless (pp : PeerPolicy) :
  peer_fields_u64 pp ->
  (PeerPolicy_Validate pp = None ->
     PP_MiningFeeBytes pp ≠ 0%Z ∧
     int64 (PP_MiningFeeSatoshis pp) = PP_MiningFeeSatoshis pp ∧
     int64 (PP_MiningFeeBytes pp) = PP_MiningFeeBytes pp ∧
     int64 (PP_MaxTxSizePolicy pp) = PP_MaxTxSizePolicy pp ∧
     int64 (PP_MaxScriptSizePolicy pp) = PP_MaxScriptSizePolicy pp) ∧
  (PP_PeerID pp ≠ "" -> PP_MiningFeeBytes pp ≠ 0%Z ->
   (PP_MiningFeeBytes pp <= maxStorablePolicyValue)%Z ->
   (PP_MiningFeeSatoshis pp <= maxStorablePolicyValue)%Z ->
   PeerPolicy_Validate (SanitizePolicySizes pp).1 = None).
Proof.
  intros (H1 & H2 & H3 & H4). unfold is_u64 in *. unfold PeerPolicy_Validate, maxStorablePolicyValue.
  split.
  - repeat case_match; try done. intros _.
    repeat match goal with
    | H : (_ <? _)%Z = false |- _ => apply Z.ltb_ge in H
    | H : (_ =? _)%Z = false |- _ => apply Z.eqb_neq in H
    end. split_and!; try done; apply int64_small; lia.
  - intros Hid Hb Hb' Hs. simpl. apply String.eqb_neq in Hid as ->.
    apply Z.eqb_neq in Hb as ->. unfold maxStorablePolicyValue in *.
    rewrite (proj2 (Z.ltb_ge _ _) Hs), (proj2 (Z.ltb_ge _ _) Hb').
    destruct (maxInt64 <? PP_MaxTxSizePolicy pp)%Z eqn:E1,
      (maxInt64 <? PP_MaxScriptSizePolicy pp)%Z eqn:E2; rewrite ?E1, ?E2; done.
Qed.

Lemma PeerPolicy_validate_lossless_witness :
  peer_fields_u64 (mkPeerPolicy "12D3" "mainnet" 100 1000 (2 ^ 63) 500000 None) ∧
  PeerPolicy_Validate (mkPeerPolicy "12D3" "mainnet" 100 1000 (2 ^ 63) 500000 None)
    = Some ErrInvalidPeerPolicy ∧
  PeerPolicy_Validate (SanitizePolicySizes
    (mkPeerPolicy "12D3" "mainnet" 100 1000 (2 ^ 63) 500000 None)).1 = None.
Proof.
  split; [unfold peer_fields_u64, is_u64; simpl; lia|]. split; [vm_compute; reflexivity|].
  apply (PeerPolicy_validate_lossless (mkPeerPolicy "12D3" "mainnet" 100 1000 (2 ^ 63) 500000 None)).
  - unfold peer_fields_u64, is_u64; simpl; lia.
  - simpl; discriminate.
  - simpl; lia.
  - simpl; unfold maxStorablePolicyValue, maxInt64; lia.
  - simpl; unfold maxStorablePolicyValue, maxInt64; lia.
Defined.

End Policies.
Export Policies.

(** ** Callback tokens of a transaction *)
Module Tokens.

(** The slice elements are pointers, so an entry may be nil. *)
Fixpoint distinctTokens (tokens : list string) (subs : list (option Submission)) : list string :=
  match subs with
  | [] => tokens
  | None :: subs' => distinctTokens tokens subs'
  | Some sub :: subs' =>
      if String.eqb (sb_CallbackToken sub) "" then distinctTokens tokens subs'
      else if existsb (String.eqb (sb_CallbackToken sub)) tokens then distinctTokens tokens subs'
      else distinctTokens (tokens ++ [sb_CallbackToken sub]) subs'
  end.

Definition DistinctTokens (subs : list (option Submission)) : list string := distinctTokens [] subs.

(** The loop of [TokensForTxIDsViaPerTxID]: [ctx] is polled before each txid
    and the first lookup error ends it. *)
Fixpoint tokensLoop (c : Ctx) (getByTxID : string -> Res (list (option Submission)))
    (seen : gset string) (out : gmap string (list string)) (txids : list string)
  : Res (gmap string (list string)) :=
  match txids with
  | [] => Ok out
  | txid :: txids' =>
      if ctx_err c then Err ErrCanceled
      else if String.eqb txid "" then tokensLoop (ctx_tick c) getByTxID seen out txids'
      else if decide (txid ∈ seen) then tokensLoop (ctx_tick c) getByTxID seen out txids'
      else match getByTxID txid with
           | Err e => Err e
           | Ok subs =>
               let tokens := DistinctTokens subs in
               tokensLoop (ctx_tick c) getByTxID ({[txid]} ∪ seen)
                 (match tokens with [] => out | _ => <[txid := tokens]> out end) txids'
           end
  end.

Definition TokensForTxIDsViaPerTxID (c : Ctx) (txids : list string)
    (getByTxID : string -> Res (list (option Submission))) : Res (gmap string (list string)) :=
  tokensLoop c getByTxID ∅ ∅ txids.

(** A token some submission of the list carries. *)
Definition carries (subs : list (option Submission)) (tok : string) : Prop :=
  tok ≠ "" ∧ ∃ sub, Some sub ∈ subs ∧ sb_CallbackToken sub = tok.

Lemma existsb_eqb_spec x l : existsb (String.eqb x) l = true ↔ x ∈ l.
Proof. apply status_in_spec. Qed.

Lemma distinctTokens_spec tokens subs :
  NoDup tokens -> (∀ tok, tok ∈ tokens -> tok ≠ "") ->
  NoDup (distinctTokens tokens subs) ∧
  ∀ tok, tok ∈ distinctTokens tokens subs ↔ tok ∈ tokens ∨ carries subs tok.
Proof.
  revert tokens. unfold carries. induction subs as [|[sub|] subs IH]; intros tokens Hnd Hne; simpl.
  - set_solver.
  - destruct (String.eqb_spec (sb_CallbackToken sub) "") as [E|E].
    { destruct (IH tokens Hnd Hne) as [? Hs]. split; [done|]. intros tok. rewrite Hs. set_solver. }
    destruct (existsb _ tokens) eqn:Ex.
    + apply existsb_eqb_spec in Ex. destruct (IH tokens Hnd Hne) as [? Hs].
      split; [done|]. intros tok. rewrite Hs. set_solver.
    + assert (sb_CallbackToken sub ∉ tokens) as Hni.
      { intros Hin. apply existsb_eqb_spec in Hin. congruence. }
      destruct (IH (tokens ++ [sb_CallbackToken sub])) as [? Hs].
      * apply NoDup_app. split_and!; [done|set_solver|apply NoDup_singleton].
      * set_solver.
      * split; [done|]. intros tok. rewrite Hs. set_solver.
  - destruct (IH tokens Hnd Hne) as [? Hs]. split; [done|]. intros tok. rewrite Hs. set_solver.
Qed.

Lemma DistinctTokens_elem subs tok : tok ∈ DistinctTokens subs ↔ carries subs tok.
Proof.
  unfold DistinctTokens. destruct (distinctTokens_spec [] subs) as [_ Hs]; [apply NoDup_nil_2|set_solver|].
  rewrite Hs. set_solver.
Qed.

Lemma tokensLoop_spec c get seen out txids r :
  tokensLoop c get seen out txids = Ok r ->
  ∀ txid, r !! txid =
    if decide ((txid ∈ txids) ∧ (txid ∉ seen) ∧ (txid ≠ ""))
    then match get txid with
         | Ok subs => match DistinctTokens subs with [] => (out !! txid) | l => Some l end
         | Err _ => (out !! txid)
         end
    else out !! txid.
Proof.
  revert c seen out. induction txids as [|x txids IH]; cbn [tokensLoop]; intros c seen out.
  { intros [= <-] txid. case_decide; [set_solver|done]. }
  destruct (ctx_err c); [done|].
  destruct (String.eqb_spec x "") as [->|Hx].
  { intros Hr txid. rewrite (IH _ _ _ Hr). by apply decide_ext; set_solver. }
  destruct (decide (x ∈ seen)) as [Hs|Hs].
  { intros Hr txid. rewrite (IH _ _ _ Hr). by apply decide_ext; set_solver. }
  destruct (get x) as [subs|] eqn:Eg; [|done].
  intros Hr txid. rewrite (IH _ _ _ Hr). destruct (decide (txid = x)) as [->|Hne].
  - case_decide; [set_solver|]. case_decide; [|set_solver]. rewrite Eg.
    destruct (DistinctTokens subs); [done|]. by rewrite lookup_insert_eq.
  - assert ((match DistinctTokens subs with [] => out | _ => <[x:=DistinctTokens subs]> out end) !! txid
      = out !! txid) as -> by (destruct (DistinctTokens subs); [done|by rewrite lookup_insert_ne]).
    by apply decide_ext; set_solver.
Qed.

(** With lookups that succeed the loop returns. *)
Lemma tokensLoop_total (get : string -> Res (list (option Submission))) seen out txids :
  (∀ t, t ∈ txids -> t ≠ "" -> ∃ subs, get t = Ok subs) -> ∃ r, tokensLoop None get seen out txids = Ok r.
Proof.
  revert seen out. induction txids as [|x txids IH]; intros seen out Hg; cbn [tokensLoop ctx_err ctx_tick]; [eauto|].
  assert (∀ t, t ∈ txids -> t ≠ "" -> ∃ subs, get t = Ok subs) as Hg' by set_solver.
  destruct (String.eqb_spec x ""); [by apply IH|]. case_decide; [by apply IH|].
  destruct (Hg x) as [subs ->]; [set_solver|done|]. by apply IH.
Qed.

Lemma DistinctTokens_nodup subs : NoDup (DistinctTokens subs).
Proof. unfold DistinctTokens. apply distinctTokens_spec; [apply NoDup_nil_2|set_solver]. Qed.

End Tokens.
Export Tokens.
