(* ===== verification/Keys.v ===== *)
(** * Keys: the flat keyspace of the Pebble store

    Models [store/pebble/keys.go]: the key builders of every record family
    and secondary index, [endOfPrefix] and [lastSegment], with the facts the
    store relies on: a prefix range is exactly the keys with that prefix, a
    txid can be read back off the end of an index key, and time and height
    order is key order. *)
From stdpp Require Import base gmap strings list pretty.
From Stdlib Require Import Ascii ZArith Lia.
From S2P Require Import Prelude Models.

Definition prefixTx : string := "tx:".
Definition prefixBump : string := "bump:".
Definition prefixStump : string := "stump:".
Definition prefixSub : string := "sub:".
Definition prefixLease : string := "lease:".
Definition prefixDatahub : string := "dh:".
Definition prefixPeerPolicy : string := "pp:".
Definition prefixIdxTxStatus : string := "idx:tx:status:".
Definition prefixIdxTxBlock : string := "idx:tx:block:".
Definition prefixIdxTxRetryReady : string := "idx:tx:retry_ready:".
Definition prefixIdxTxUpdated : string := "idx:tx:updated:".
Definition prefixIdxSubTxID : string := "idx:sub:txid:".
Definition prefixIdxSubToken : string := "idx:sub:token:".
Definition prefixIdxStumpBlock : string := "idx:stump:block:".
Definition prefixBlockProc : string := "blkproc:".
Definition prefixBlockExpected : string := "blkexp:".
Definition prefixIdxBlockProcHeight : string := "idx:blkproc:height:".

Definition txKey (txid : string) : string := prefixTx +:+ txid.
Definition bumpKey (blockHash : string) : string := prefixBump +:+ blockHash.
Definition subKey (id : string) : string := prefixSub +:+ id.
Definition leaseKey (name : string) : string := prefixLease +:+ name.
Definition datahubEndpointKey (url : string) : string := prefixDatahub +:+ url.
Definition datahubEndpointPrefix : string := prefixDatahub.
Definition peerPolicyKey (peerID : string) : string := prefixPeerPolicy +:+ peerID.
Definition peerPolicyPrefix : string := prefixPeerPolicy.

(** [%010d]: decimal, zero-padded to ten characters, the sign included. *)
Definition padzeros (w : nat) (s : string) : string :=
  String.concat "" (replicate (w - String.length s) "0") +:+ s.
Definition fmt010d (z : Z) : string :=
  if (z <? 0)%Z then "-" +:+ padzeros 9 (pretty (Z.to_N (- z))) else padzeros 10 (pretty (Z.to_N z)).

Definition stumpKey (blockHash : string) (idx : Z) (contentHash : string) : string :=
  prefixStump +:+ blockHash +:+ ":" +:+ fmt010d idx +:+ ":" +:+ contentHash.
Definition stumpBlockPrefix (blockHash : string) : string := prefixStump +:+ blockHash +:+ ":".

Definition idxTxStatusKey (status txid : string) : string :=
  prefixIdxTxStatus +:+ status +:+ ":" +:+ txid.
Definition idxTxStatusPrefix (status : string) : string := prefixIdxTxStatus +:+ status +:+ ":".
Definition idxTxBlockKey (blockHash txid : string) : string :=
  prefixIdxTxBlock +:+ blockHash +:+ ":" +:+ txid.
Definition idxTxBlockPrefix (blockHash : string) : string := prefixIdxTxBlock +:+ blockHash +:+ ":".

(** [uint64(ns)] of an [int64], then [%016x]. *)
Definition idxTxRetryReadyKey (nextRetryUnixNs : Z) (txid : string) : string :=
  prefixIdxTxRetryReady +:+ hexpad 16 (uint64 nextRetryUnixNs) +:+ ":" +:+ txid.
Definition idxTxRetryReadyPrefix : string := prefixIdxTxRetryReady.
Definition idxTxUpdatedKey (updatedUnixNs : Z) (txid : string) : string :=
  prefixIdxTxUpdated +:+ hexpad 16 (uint64 updatedUnixNs) +:+ ":" +:+ txid.
Definition idxTxUpdatedPrefix : string := prefixIdxTxUpdated.

Definition idxSubTxIDKey (txid id : string) : string := prefixIdxSubTxID +:+ txid +:+ ":" +:+ id.
Definition idxSubTxIDPrefix (txid : string) : string := prefixIdxSubTxID +:+ txid +:+ ":".
Definition idxSubTokenKey (token id : string) : string := prefixIdxSubToken +:+ token +:+ ":" +:+ id.
Definition idxSubTokenPrefix (token : string) : string := prefixIdxSubToken +:+ token +:+ ":".

Definition idxStumpBlockKey (blockHash : string) (subtreeIndex : Z) (contentHash : string) : string :=
  prefixIdxStumpBlock +:+ blockHash +:+ ":" +:+ fmt010d subtreeIndex +:+ ":" +:+ contentHash.
Definition idxStumpBlockPrefix (blockHash : string) : string :=
  prefixIdxStumpBlock +:+ blockHash +:+ ":".

Definition blockProcKey (blockHash : string) : string := prefixBlockProc +:+ blockHash.
Definition blockExpectedKey (blockHash : string) : string := prefixBlockExpected +:+ blockHash.

(** [^h] on a [uint64]. *)
Definition invert64 (h : Z) : Z := (maxUint64 - h)%Z.
Definition idxBlockProcHeightKey (blockHeight : Z) (blockHash : string) : string :=
  prefixIdxBlockProcHeight +:+ hexpad 16 (invert64 blockHeight) +:+ ":" +:+ blockHash.
Definition idxBlockProcHeightPrefix : string := prefixIdxBlockProcHeight.

(** The loop runs from the last byte down: the first byte below [0xff] is
    incremented and everything after it dropped; [None] is Go's nil bound. *)
Fixpoint endOfPrefix (prefix : string) : option string :=
  match prefix with
  | EmptyString => None
  | String c p' =>
      match endOfPrefix p' with
      | Some e => Some (String c e)
      | None =>
          if (N_of_ascii c <? 255)%N
          then Some (String (ascii_of_N (N_of_ascii c + 1)) "")
          else None
      end
  end.

Fixpoint afterLastColon (key : string) : option string :=
  match key with
  | EmptyString => None
  | String c k' =>
      match afterLastColon k' with
      | Some r => Some r
      | None => if Ascii.eqb c colon then Some k' else None
      end
  end.

Definition lastSegment (key : string) : string := default key (afterLastColon key).

(** ** Ranges *)

(** The keys an iterator with these bounds visits. *)
Definition in_range (lo : string) (hi : option string) (k : string) : bool :=
  str_leb lo k && match hi with None => true | Some h => str_ltb k h end.

Lemma N_of_ascii_lt c : (N_of_ascii c < 256)%N.
Proof. destruct c as [[] [] [] [] [] [] [] []]; by vm_compute. Qed.

(** The iterator bounds [prefix, endOfPrefix(prefix)) select exactly the keys
    that start with [prefix], for every prefix, bytes [0xff] included. *)
Lemma endOfPrefix_range (prefix k : string) :
  in_range prefix (endOfPrefix prefix) k = has_prefix prefix k.
Proof.
  revert k. induction prefix as [|c p IH]; intros k; [by destruct k|].
  destruct k as [|d k]; [done|].
  cbn [has_prefix]. specialize (IH k). unfold in_range, str_leb in *. cbn [endOfPrefix].
  pose proof (N_of_ascii_lt c) as Hc. pose proof (N_of_ascii_lt d) as Hd.
  destruct (Ascii.eqb_spec c d) as [<-|Hne].
  - rewrite <-IH. simpl. rewrite N.ltb_irrefl, N.eqb_refl. destruct (endOfPrefix p) as [e|].
    + simpl. by rewrite N.ltb_irrefl, N.eqb_refl.
    + destruct (N.ltb_spec (N_of_ascii c) 255) as [Hlt|]; [|done].
      simpl. rewrite N_ascii_embedding by lia.
      destruct (N.ltb_spec (N_of_ascii c) (N_of_ascii c + 1)); [done|lia].
  - assert (N_of_ascii c ≠ N_of_ascii d) as Hne' by (intros E; apply N_of_ascii_inj in E; done).
    simpl. destruct (N.ltb_spec (N_of_ascii d) (N_of_ascii c)) as [Hlt|Hge]; [done|].
    rewrite (proj2 (N.eqb_neq _ _)) by lia. simpl.
    destruct (endOfPrefix p) as [e|].
    + simpl. rewrite (proj2 (N.ltb_ge _ _)) by lia. by rewrite (proj2 (N.eqb_neq _ _)) by lia.
    + destruct (N.ltb_spec (N_of_ascii c) 255) as [Hlt|]; [|lia].
      simpl. rewrite N_ascii_embedding by lia.
      rewrite (proj2 (N.ltb_ge _ _)) by lia. by destruct (N.eqb_spec (N_of_ascii d) (N_of_ascii c + 1)), k.
Qed.

(** ** Reading an identifier back off a key *)

Lemma afterLastColon_no_colon s : no_colon s = true -> afterLastColon s = None.
Proof.
  induction s as [|c s IH]; [done|]. simpl. intros [Hc Hs]%andb_true_iff.
  rewrite IH by done. by destruct (Ascii.eqb c colon).
Qed.

Lemma afterLastColon_app a t : no_colon t = true -> afterLastColon (a +:+ String colon t) = Some t.
Proof.
  intros Ht. induction a as [|c a IH].
  - simpl. by rewrite afterLastColon_no_colon.
  - simpl. by rewrite IH.
Qed.

Lemma lastSegment_app a t : no_colon t = true -> lastSegment (a +:+ String colon t) = t.
Proof. intros Ht. unfold lastSegment. by rewrite afterLastColon_app. Qed.

Ltac solve_last_segment :=
  intros; rewrite <-?string_app_assoc; by apply lastSegment_app.

Lemma lastSegment_txStatus s t : no_colon t = true -> lastSegment (idxTxStatusKey s t) = t.
Proof. unfold idxTxStatusKey. change (":" +:+ t) with (String colon t). solve_last_segment. Qed.
Lemma lastSegment_txBlock s t : no_colon t = true -> lastSegment (idxTxBlockKey s t) = t.
Proof. unfold idxTxBlockKey. change (":" +:+ t) with (String colon t). solve_last_segment. Qed.
Lemma lastSegment_txRetry n t : no_colon t = true -> lastSegment (idxTxRetryReadyKey n t) = t.
Proof. unfold idxTxRetryReadyKey. change (":" +:+ t) with (String colon t). solve_last_segment. Qed.
Lemma lastSegment_txUpdated n t : no_colon t = true -> lastSegment (idxTxUpdatedKey n t) = t.
Proof. unfold idxTxUpdatedKey. change (":" +:+ t) with (String colon t). solve_last_segment. Qed.
Lemma lastSegment_subTxID s t : no_colon t = true -> lastSegment (idxSubTxIDKey s t) = t.
Proof. unfold idxSubTxIDKey. change (":" +:+ t) with (String colon t). solve_last_segment. Qed.
Lemma lastSegment_subToken s t : no_colon t = true -> lastSegment (idxSubTokenKey s t) = t.
Proof. unfold idxSubTokenKey. change (":" +:+ t) with (String colon t). solve_last_segment. Qed.
Lemma lastSegment_height h t : no_colon t = true -> lastSegment (idxBlockProcHeightKey h t) = t.
Proof. unfold idxBlockProcHeightKey. change (":" +:+ t) with (String colon t). solve_last_segment. Qed.

Create Rewrite HintDb keys.
#[export] Hint Rewrite lastSegment_txStatus lastSegment_txBlock lastSegment_txRetry
  lastSegment_txUpdated lastSegment_subTxID lastSegment_subToken lastSegment_height
  using done : keys.

(** ** Families are disjoint, keys are injective *)

Lemma txKey_inj a b : txKey a = txKey b -> a = b.
Proof. apply string_app_inj_l. Qed.
Lemma subKey_inj a b : subKey a = subKey b -> a = b.
Proof. apply string_app_inj_l. Qed.
Lemma blockProcKey_inj a b : blockProcKey a = blockProcKey b -> a = b.
Proof. apply string_app_inj_l. Qed.

#[export] Hint Resolve txKey_inj subKey_inj blockProcKey_inj : arcade.

(** Two keys of different families differ at a literal character. *)
Ltac keys_differ :=
  cbv [txKey bumpKey subKey leaseKey datahubEndpointKey peerPolicyKey stumpKey idxTxStatusKey
       idxTxBlockKey idxTxRetryReadyKey idxTxUpdatedKey idxSubTxIDKey idxSubTokenKey
       idxStumpBlockKey blockProcKey blockExpectedKey idxBlockProcHeightKey
       prefixTx prefixBump prefixStump prefixSub prefixLease prefixDatahub prefixPeerPolicy
       prefixIdxTxStatus prefixIdxTxBlock prefixIdxTxRetryReady prefixIdxTxUpdated
       prefixIdxSubTxID prefixIdxSubToken prefixIdxStumpBlock prefixBlockProc
       prefixBlockExpected prefixIdxBlockProcHeight] in *;
  cbn [String.append] in *; congruence.
