(* ===== verification/Engine.v ===== *)
(** * Engine: persisted records and the key-value engine interface

    The record types [store/pebble/pebble.go] marshals to JSON, the payload
    type of the keyspace, and the interface of [github.com/cockroachdb/pebble]
    the store is written against.  The engine is third-party code, so it is a
    class: [Engine] has the operations the store calls, each of which may fail
    with an I/O error; [EngineSpec] the documented behaviour (point reads, an
    atomic batch, iteration in key order over [[lower, upper))); and
    [EngineReliable] says that no call fails.  [MemDB], a finite map, is an
    instance of all three. *)
From stdpp Require Import base gmap strings list sorting.
From Stdlib Require Import ZArith Lia.
From Stdlib Require Import Strings.Byte.
From S2P Require Import Prelude Models Keys.

(** ** Persisted records *)

Record storedOrphanedAnchor : Type := mkStoredOrphanedAnchor {
  so_BlockHash : string;
  so_BlockHeight : Z;
  so_OrphanedUnixNs : Z
}.

Record storedStatus : Type := mkStoredStatus {
  ss_TxID : string;
  ss_Status : string;
  ss_StatusCode : Z;
  ss_BlockHash : string;
  ss_BlockHeight : Z;
  ss_MerklePath : list byte;
  ss_ExtraInfo : string;
  ss_CompetingTxs : list string;
  ss_RawTx : list byte;
  ss_RetryCount : Z;
  ss_TimestampUnixNs : Z;
  ss_CreatedUnixNs : Z;
  ss_NextRetryUnixNs : Z;
  ss_RetryReason : string;
  ss_MerkleRegisteredUnixNs : Z;
  ss_OrphanedAnchors : list storedOrphanedAnchor
}.

Record storedSubmission : Type := mkStoredSubmission {
  su_SubmissionID : string;
  su_TxID : string;
  su_CallbackURL : string;
  su_CallbackToken : string;
  su_FullStatusUpdates : bool;
  su_LastDeliveredStatus : string;
  su_RetryCount : Z;
  su_NextRetryUnixNs : Z;
  su_Attempts : Z;
  su_LastAttemptUnixNs : Z;
  su_LastResult : string;
  su_CreatedUnixNs : Z
}.

Record storedLease : Type := mkStoredLease {
  le_Holder : string;
  le_ExpiresUnixNs : Z
}.

Record storedBump : Type := mkStoredBump {
  bu_BlockHeight : Z;
  bu_BumpData : list byte
}.

Record storedEndpointPolicy : Type := mkStoredEndpointPolicy {
  ep_MiningFeeSatoshis : Z;
  ep_MiningFeeBytes : Z;
  ep_MaxTxSizePolicy : Z;
  ep_MaxScriptSizePolicy : Z;
  ep_MaxTxSigopsCountsPolicy : Z
}.

Record storedDatahubEndpoint : Type := mkStoredDatahubEndpoint {
  de_URL : string;
  de_Network : string;
  de_Source : string;
  de_Policy : option storedEndpointPolicy;
  de_LastSeenUnixNs : Z
}.

Record storedPeerPolicy : Type := mkStoredPeerPolicy {
  pp_PeerID : string;
  pp_Network : string;
  pp_MiningFeeSatoshis : Z;
  pp_MiningFeeBytes : Z;
  pp_MaxTxSizePolicy : Z;
  pp_MaxScriptSizePolicy : Z;
  pp_LastSeenUnixNs : Z
}.

Record storedBlockProcessing : Type := mkStoredBlockProcessing {
  sp_BlockHash : string;
  sp_BlockHeight : Z;
  sp_HeaderSeenUnixNs : Z;
  sp_ProcessedUnixNs : Z;
  sp_BUMPBuiltUnixNs : Z;
  sp_Status : string;
  sp_OrphanedAtUnixNs : Z;
  sp_ReconciledAtUnixNs : Z
}.

(** A payload is the JSON of one of these records, or empty (an index
    entry).  [json.Unmarshal] into another record type fails. *)
Inductive payload : Type :=
| PEmpty
| PStatus (s : storedStatus)
| PSubmission (s : storedSubmission)
| PLease (l : storedLease)
| PBump (b : storedBump)
| PStump (s : Stump)
| PBlockProc (b : storedBlockProcessing)
| PExpected (l : list Z)
| PDatahub (d : storedDatahubEndpoint)
| PPeerPolicy (p : storedPeerPolicy).

Definition asStatus (v : payload) : option storedStatus :=
  match v with PStatus s => Some s | _ => None end.
Definition asSubmission (v : payload) : option storedSubmission :=
  match v with PSubmission s => Some s | _ => None end.
Definition asLease (v : payload) : option storedLease :=
  match v with PLease s => Some s | _ => None end.
Definition asBump (v : payload) : option storedBump :=
  match v with PBump s => Some s | _ => None end.
Definition asStump (v : payload) : option Stump :=
  match v with PStump s => Some s | _ => None end.
Definition asBlockProc (v : payload) : option storedBlockProcessing :=
  match v with PBlockProc s => Some s | _ => None end.
Definition asExpected (v : payload) : option (list Z) :=
  match v with PExpected l => Some l | _ => None end.
Definition asDatahub (v : payload) : option storedDatahubEndpoint :=
  match v with PDatahub s => Some s | _ => None end.
Definition asPeerPolicy (v : payload) : option storedPeerPolicy :=
  match v with PPeerPolicy s => Some s | _ => None end.

(** ** The engine *)

(** One mutation of a write batch. *)
Inductive bop : Type :=
| BSet (k : string) (v : payload)
| BDel (k : string).

Definition bop_key (o : bop) : string := match o with BSet k _ => k | BDel k => k end.

Definition apply_bop (m : gmap string payload) (o : bop) : gmap string payload :=
  match o with
  | BSet k v => <[k := v]> m
  | BDel k => delete k m
  end.

Definition apply_batch (m : gmap string payload) (b : list bop) : gmap string payload :=
  foldl apply_bop m b.

(** What an iterator bounded by [lo] and [hi] yields over [m]: every entry in
    range, in strictly increasing key order. *)
Definition scan_of (m : gmap string payload) (lo : string) (hi : option string)
    (l : list (string * payload)) : Prop :=
  StronglySorted (fun a b => str_ltb a b = true) l.*1 ∧
  ∀ k v, (k, v) ∈ l ↔ m !! k = Some v ∧ in_range lo hi k = true.

Class Engine (DB : Type) : Type := {
  eng_get : DB -> string -> Res (option payload);
  eng_commit : DB -> list bop -> Res DB;
  eng_iter : DB -> string -> option string -> Res (list (string * payload))
}.

Class EngineSpec (DB : Type) `{Engine DB} : Type := {
  view : DB -> gmap string payload;
  get_sound d k r : eng_get d k = Ok r -> r = view d !! k;
  commit_sound d b d' : eng_commit d b = Ok d' -> view d' = apply_batch (view d) b;
  iter_sound d lo hi l : eng_iter d lo hi = Ok l -> scan_of (view d) lo hi l
}.

Class EngineReliable (DB : Type) `{EngineSpec DB} : Prop := {
  get_total d k : eng_get d k = Ok (view d !! k);
  commit_total d b : ∃ d', eng_commit d b = Ok d';
  iter_total d lo hi : ∃ l, eng_iter d lo hi = Ok l
}.

(** ** Batches *)

Lemma apply_batch_app m a b : apply_batch m (a ++ b) = apply_batch (apply_batch m a) b.
Proof. apply foldl_app. Qed.

Lemma apply_batch_other m b k : k ∉ (bop_key <$> b) -> apply_batch m b !! k = m !! k.
Proof.
  revert m. induction b as [|o b IH]; intros m Hk; [done|]. rewrite fmap_cons in Hk.
  apply not_elem_of_cons in Hk as [Hne Hk]. simpl. rewrite IH by done.
  destruct o; simpl in *; [by rewrite lookup_insert_ne|by rewrite lookup_delete_ne].
Qed.

Lemma apply_sets m (ks : list string) k :
  apply_batch m ((fun k => BSet k PEmpty) <$> ks) !! k
  = if decide (k ∈ ks) then Some PEmpty else m !! k.
Proof.
  revert m. induction ks as [|x ks IH]; intros m; [done|]. cbn.
  fold (apply_batch (<[x:=PEmpty]> m) ((fun k => BSet k PEmpty) <$> ks)). rewrite IH.
  destruct (decide (k ∈ ks)), (decide (k ∈ x :: ks)); try set_solver.
  - assert (k = x) as -> by set_solver. by rewrite lookup_insert_eq.
  - rewrite lookup_insert_ne; set_solver.
Qed.

Lemma apply_dels m (ks : list string) k :
  apply_batch m (BDel <$> ks) !! k = if decide (k ∈ ks) then None else m !! k.
Proof.
  revert m. induction ks as [|x ks IH]; intros m; [done|]. cbn.
  fold (apply_batch (delete x m) (BDel <$> ks)). rewrite IH.
  destruct (decide (k ∈ ks)), (decide (k ∈ x :: ks)); try set_solver.
  - assert (k = x) as -> by set_solver. by rewrite lookup_delete_eq.
  - rewrite lookup_delete_ne; set_solver.
Qed.

(** ** The in-memory instance *)

Definition MemDB : Type := gmap string payload.

Definition entry_le (a b : string * payload) : Prop := str_leb a.1 b.1 = true.

#[export] Instance entry_le_dec : RelDecision entry_le.
Proof. intros a b. unfold entry_le. apply _. Defined.

#[export] Instance entry_le_total : Total entry_le.
Proof.
  intros [a x] [b y]. unfold entry_le, str_leb; simpl.
  destruct (str_ltb_total a b) as [H|[->|H]].
  - left. by rewrite (str_ltb_asym _ _ H).
  - left. by rewrite str_ltb_irrefl.
  - right. by rewrite (str_ltb_asym _ _ H).
Qed.

#[export] Instance entry_le_trans : Transitive entry_le.
Proof.
  intros [a x] [b y] [c z]. unfold entry_le, str_leb; simpl. intros H1 H2.
  destruct (str_ltb c a) eqn:E; [|done].
  destruct (str_ltb_total a b) as [H|[->|H]].
  - rewrite (str_ltb_trans _ _ _ E H) in H2. done.
  - by rewrite E in H2.
  - by rewrite H in H1.
Qed.

Definition memIter (m : gmap string payload) (lo : string) (hi : option string)
  : list (string * payload) :=
  filter (fun e => in_range lo hi e.1 = true) (merge_sort entry_le (map_to_list m)).

Lemma StronglySorted_filter_fst (P : string * payload -> Prop) `{∀ x, Decision (P x)} R l :
  StronglySorted R l -> StronglySorted R (filter P l).
Proof.
  induction 1 as [|x l Hs IH Hf]; [constructor|]. rewrite filter_cons.
  destruct (decide (P x)); [|done]. constructor; [done|].
  rewrite Forall_forall in *. intros y Hy. apply Hf. by apply list_elem_of_filter in Hy as [_ ?].
Qed.

Lemma sorted_keys_strict (l : list (string * payload)) :
  NoDup l.*1 -> StronglySorted entry_le l -> StronglySorted (fun a b => str_ltb a b = true) l.*1.
Proof.
  intros Hnd Hs. induction Hs as [|x l Hs IH Hf]; [constructor|]. rewrite fmap_cons in *.
  apply NoDup_cons in Hnd as [Hx Hnd]. constructor; [auto|].
  apply Forall_forall. intros y (e & -> & He)%list_elem_of_fmap.
  pose proof (proj1 (Forall_forall _ _) Hf e He) as Hle. clear Hf. rename Hle into Hf. unfold entry_le, str_leb in Hf.
  destruct (str_ltb_total x.1 e.1) as [?|[E|E]]; [done| |by rewrite E in Hf].
  exfalso. apply Hx. rewrite E. by apply list_elem_of_fmap_2.
Qed.

Lemma memIter_scan m lo hi : scan_of m lo hi (memIter m lo hi).
Proof.
  unfold memIter. split.
  - apply sorted_keys_strict.
    + eapply (NoDup_fmap_fst).
      * intros k v v' Hv Hv'. apply list_elem_of_filter in Hv as [_ Hv], Hv' as [_ Hv'].
        rewrite merge_sort_Permutation in Hv, Hv'.
        apply elem_of_map_to_list in Hv, Hv'. congruence.
      * apply NoDup_filter. rewrite merge_sort_Permutation. apply NoDup_map_to_list.
    + apply StronglySorted_filter_fst, StronglySorted_merge_sort; apply _.
  - intros k v. rewrite list_elem_of_filter, merge_sort_Permutation, elem_of_map_to_list. simpl. tauto.
Qed.

#[export] Instance MemDB_engine : Engine MemDB := {
  eng_get m k := Ok (m !! k);
  eng_commit m b := Ok (apply_batch m b);
  eng_iter m lo hi := Ok (memIter m lo hi)
}.

#[export] Instance MemDB_spec : EngineSpec MemDB.
Proof.
  refine {| view := (fun m => m : gmap string payload) |}.
  - intros d k r [= <-]. done.
  - intros d b d' [= <-]. done.
  - intros d lo hi l [= <-]. apply memIter_scan.
Defined.

#[export] Instance MemDB_reliable : EngineReliable MemDB.
Proof. constructor; intros; simpl; eauto. Qed.

(** ** Prefix scans *)

Lemma prefix_scan m p l k v :
  scan_of m p (endOfPrefix p) l -> (k, v) ∈ l ↔ m !! k = Some v ∧ has_prefix p k = true.
Proof. intros [_ Hl]. by rewrite Hl, endOfPrefix_range. Qed.

Lemma prefix_scan_key m p l k :
  scan_of m p (endOfPrefix p) l -> k ∈ l.*1 ↔ is_Some (m !! k) ∧ has_prefix p k = true.
Proof.
  intros Hs. rewrite list_elem_of_fmap. split.
  - intros ([k' v] & -> & Hin). rewrite (prefix_scan _ _ _ _ _ Hs) in Hin. naive_solver.
  - intros [[v Hv] Hp]. exists (k, v). split; [done|]. by rewrite (prefix_scan _ _ _ _ _ Hs).
Qed.

Lemma strict_sorted_nodup (l : list string) :
  StronglySorted (fun a b => str_ltb a b = true) l -> NoDup l.
Proof.
  induction 1 as [|x l _ IH Hf]; [constructor|]. constructor; [|done].
  intros Hx. rewrite Forall_forall in Hf. specialize (Hf x Hx). by rewrite str_ltb_irrefl in Hf.
Qed.

Lemma scan_nodup m lo hi l : scan_of m lo hi l -> NoDup l.*1.
Proof. intros [Hs _]. by apply strict_sorted_nodup. Qed.

(** A check run over every entry of a concrete store. *)
Lemma entries_checked (P : string * payload -> bool) (m : gmap string payload) k v :
  forallb P (map_to_list m) = true -> m !! k = Some v -> P (k, v) = true.
Proof.
  intros Hf Hl. rewrite forallb_forall in Hf. apply Hf, list_elem_of_In. by apply elem_of_map_to_list.
Qed.
