(* ===== verification/PebbleTx.v ===== *)
(** * PebbleTx: transaction rows of the Pebble store

    The transaction-status operations of [store/pebble/pebble.go] over an
    abstract engine: the JSON row and its conversion from and to the model
    type, the secondary-index maintenance, and every read and write of a
    transaction row.  Each operation returns its Go result and the database
    left; the per-txid shard lock makes one row's read-modify-write a single
    step, so the batch operations are loops over such steps.

    [tx_ok] is the store's invariant: the four transaction indexes hold
    exactly the entries the rows call for. *)
From stdpp Require Import base gmap strings list sorting.
From Stdlib Require Import ZArith Lia.
From Stdlib Require Import Strings.Byte.
From S2P Require Import Prelude Models StoreCore Keys Engine.

(** ** Rows *)

Definition storedStatus_toModel (s : storedStatus) : TransactionStatus :=
  mkTransactionStatus (ss_TxID s) (ss_Status s) (ss_StatusCode s)
    (timeOfNs (ss_TimestampUnixNs s)) [] (ss_BlockHash s) (ss_BlockHeight s) (ss_MerklePath s)
    (ss_ExtraInfo s) (ss_CompetingTxs s) (ss_RawTx s) (ss_RetryCount s)
    (timeOfNs (ss_NextRetryUnixNs s)) (timeOfNs (ss_CreatedUnixNs s))
    ((fun a => mkOrphanedAnchor (so_BlockHash a) (so_BlockHeight a) (Some (so_OrphanedUnixNs a)) [])
       <$> ss_OrphanedAnchors s)
    (timeOfNs (ss_MerkleRegisteredUnixNs s)).

Definition fromModel (m : TransactionStatus) : storedStatus :=
  mkStoredStatus (ts_TxID m) (ts_Status m) (ts_StatusCode m) (ts_BlockHash m) (ts_BlockHeight m)
    (ts_MerklePath m) (ts_ExtraInfo m) (ts_CompetingTxs m) (ts_RawTx m) (ts_RetryCount m)
    (nsOfTime (ts_Timestamp m)) (nsOfTime (ts_CreatedAt m)) (nsOfTime (ts_NextRetryAt m)) ""
    (nsOfTime (ts_MerkleRegisteredAt m))
    ((fun a => mkStoredOrphanedAnchor (oa_BlockHash a) (oa_BlockHeight a) (UnixNano (oa_OrphanedAt a)))
       <$> ts_OrphanedProofs m).

(** [appendOrphanedAnchor]: the history of the row after the call. *)
Definition appendOrphanedAnchor (row : storedStatus) (now : Z) : list storedOrphanedAnchor :=
  let a := mkStoredOrphanedAnchor (ss_BlockHash row) (ss_BlockHeight row) now in
  if String.eqb (ss_BlockHash row) "" then ss_OrphanedAnchors row
  else match last (ss_OrphanedAnchors row) with
       | Some b =>
           if String.eqb (so_BlockHash b) (ss_BlockHash row) then ss_OrphanedAnchors row
           else capHistory (ss_OrphanedAnchors row ++ [a])
       | None => capHistory (ss_OrphanedAnchors row ++ [a])
       end.

Definition addStatusIndexes (st : storedStatus) : list bop :=
  [BSet (idxTxStatusKey (ss_Status st) (ss_TxID st)) PEmpty] ++
  (if String.eqb (ss_BlockHash st) "" then []
   else [BSet (idxTxBlockKey (ss_BlockHash st) (ss_TxID st)) PEmpty]) ++
  (if String.eqb (ss_Status st) StatusPendingRetry && negb (ss_NextRetryUnixNs st =? 0)%Z
   then [BSet (idxTxRetryReadyKey (ss_NextRetryUnixNs st) (ss_TxID st)) PEmpty] else []) ++
  (if (ss_TimestampUnixNs st =? 0)%Z then []
   else [BSet (idxTxUpdatedKey (ss_TimestampUnixNs st) (ss_TxID st)) PEmpty]).

Definition removeStatusIndexes (st : storedStatus) : list bop :=
  [BDel (idxTxStatusKey (ss_Status st) (ss_TxID st))] ++
  (if String.eqb (ss_BlockHash st) "" then []
   else [BDel (idxTxBlockKey (ss_BlockHash st) (ss_TxID st))]) ++
  (if String.eqb (ss_Status st) StatusPendingRetry && negb (ss_NextRetryUnixNs st =? 0)%Z
   then [BDel (idxTxRetryReadyKey (ss_NextRetryUnixNs st) (ss_TxID st))] else []) ++
  (if (ss_TimestampUnixNs st =? 0)%Z then []
   else [BDel (idxTxUpdatedKey (ss_TimestampUnixNs st) (ss_TxID st))]).

(** [mergeStatus]: empty and zero fields of the update keep the stored one. *)
Definition mergeStatus (existing : option storedStatus) (u : TransactionStatus) : storedStatus :=
  let z := mkStoredStatus "" "" 0 "" 0 [] "" [] [] 0 0 0 0 "" 0 [] in
  let e := match existing with Some e => e | None => z end in
  mkStoredStatus (ts_TxID u)
    (if String.eqb (ts_Status u) "" then ss_Status e else ts_Status u)
    (if (ts_StatusCode u =? 0)%Z then ss_StatusCode e else ts_StatusCode u)
    (if String.eqb (ts_BlockHash u) "" then ss_BlockHash e else ts_BlockHash u)
    (if (0 <? ts_BlockHeight u)%Z then ts_BlockHeight u else ss_BlockHeight e)
    (match ts_MerklePath u with [] => ss_MerklePath e | p => p end)
    (if String.eqb (ts_ExtraInfo u) "" then ss_ExtraInfo e else ts_ExtraInfo u)
    (match ts_CompetingTxs u with [] => ss_CompetingTxs e | l => l end)
    (match ts_RawTx u with [] => ss_RawTx e | l => l end)
    (if (0 <? ts_RetryCount u)%Z then ts_RetryCount u else ss_RetryCount e)
    (if IsZero (ts_Timestamp u) then ss_TimestampUnixNs e else UnixNano (ts_Timestamp u))
    (if IsZero (ts_CreatedAt u) then ss_CreatedUnixNs e else UnixNano (ts_CreatedAt u))
    (if IsZero (ts_NextRetryAt u) then ss_NextRetryUnixNs e else UnixNano (ts_NextRetryAt u))
    (ss_RetryReason e)
    (if IsZero (ts_MerkleRegisteredAt u) then ss_MerkleRegisteredUnixNs e
     else UnixNano (ts_MerkleRegisteredAt u))
    (ss_OrphanedAnchors e).

(** [store.StatusUpdate]. *)
Record StatusUpdate : Type := mkStatusUpdate {
  Prev : option TransactionStatus;
  Current : option TransactionStatus
}.
Definition Applied (u : StatusUpdate) : bool := match Prev u with Some _ => true | None => false end.

(** [store.PendingRetry]. *)
Record PendingRetry : Type := mkPendingRetry {
  pr_TxID : string;
  pr_RawTx : list byte;
  pr_RetryCount : Z;
  pr_NextRetryAt : Time;
  pr_LastReason : string
}.

(** Row rewrites of the individual writers. *)
Definition withRetryCount (e : storedStatus) (n : Z) : storedStatus :=
  mkStoredStatus (ss_TxID e) (ss_Status e) (ss_StatusCode e) (ss_BlockHash e) (ss_BlockHeight e)
    (ss_MerklePath e) (ss_ExtraInfo e) (ss_CompetingTxs e) (ss_RawTx e) n
    (ss_TimestampUnixNs e) (ss_CreatedUnixNs e) (ss_NextRetryUnixNs e) (ss_RetryReason e)
    (ss_MerkleRegisteredUnixNs e) (ss_OrphanedAnchors e).

Definition withMerkleRegistered (e : storedStatus) (ts : Z) : storedStatus :=
  mkStoredStatus (ss_TxID e) (ss_Status e) (ss_StatusCode e) (ss_BlockHash e) (ss_BlockHeight e)
    (ss_MerklePath e) (ss_ExtraInfo e) (ss_CompetingTxs e) (ss_RawTx e) (ss_RetryCount e)
    (ss_TimestampUnixNs e) (ss_CreatedUnixNs e) (ss_NextRetryUnixNs e) (ss_RetryReason e)
    ts (ss_OrphanedAnchors e).

Definition pendingRetryRow (e : storedStatus) (now : Z) (rawTx : list byte) (nextRetryAt : Time)
    (lastReason : string) : storedStatus :=
  mkStoredStatus (ss_TxID e) StatusPendingRetry (ss_StatusCode e) (ss_BlockHash e)
    (ss_BlockHeight e) (ss_MerklePath e) (ss_ExtraInfo e) (ss_CompetingTxs e) rawTx
    (ss_RetryCount e) now (ss_CreatedUnixNs e) (UnixNano nextRetryAt) lastReason
    (ss_MerkleRegisteredUnixNs e) (ss_OrphanedAnchors e).

Definition clearedRetryRow (e : storedStatus) (now : Z) (finalStatus : Status) (extraInfo : string)
  : storedStatus :=
  mkStoredStatus (ss_TxID e) finalStatus (ss_StatusCode e) (ss_BlockHash e) (ss_BlockHeight e)
    (ss_MerklePath e) (if String.eqb extraInfo "" then ss_ExtraInfo e else extraInfo)
    (ss_CompetingTxs e) [] (ss_RetryCount e) now (ss_CreatedUnixNs e) 0 ""
    (ss_MerkleRegisteredUnixNs e) (ss_OrphanedAnchors e).

Definition minedRow (e : storedStatus) (now : Z) (blockHash : string) (blockHeight : Z) : storedStatus :=
  mkStoredStatus (ss_TxID e) StatusMined (ss_StatusCode e) blockHash blockHeight
    (ss_MerklePath e) (ss_ExtraInfo e) (ss_CompetingTxs e) (ss_RawTx e) (ss_RetryCount e)
    now (ss_CreatedUnixNs e) (ss_NextRetryUnixNs e) (ss_RetryReason e) (ss_MerkleRegisteredUnixNs e)
    (if String.eqb (ss_Status e) StatusMined && negb (String.eqb (ss_BlockHash e) blockHash)
     then appendOrphanedAnchor e now else ss_OrphanedAnchors e).

Definition blockRewriteRow (e : storedStatus) (now : Z) (newStatus : Status) : storedStatus :=
  let clearBlock := String.eqb newStatus StatusSeenOnNetwork in
  mkStoredStatus (ss_TxID e) newStatus (ss_StatusCode e)
    (if clearBlock then "" else ss_BlockHash e) (if clearBlock then 0%Z else ss_BlockHeight e)
    (ss_MerklePath e) (ss_ExtraInfo e) (ss_CompetingTxs e) (ss_RawTx e) (ss_RetryCount e)
    now (ss_CreatedUnixNs e) (ss_NextRetryUnixNs e) (ss_RetryReason e) (ss_MerkleRegisteredUnixNs e)
    (if clearBlock then appendOrphanedAnchor e now else ss_OrphanedAnchors e).

(** ** Operations *)
Section Operations.
Context {DB : Type} `{Engine DB}.

(** Commit a batch, keeping the database when the engine refuses it. *)
Definition commitTo {A} (d : DB) (b : list bop) (r : A) : Res A * DB :=
  match eng_commit d b with Ok d' => (Ok r, d') | Err e => (Err e, d) end.

Definition readStoredStatus (d : DB) (txid : string) : Res (option storedStatus) :=
  match eng_get d (txKey txid) with
  | Err e => Err e
  | Ok None => Ok None
  | Ok (Some v) => match asStatus v with Some st => Ok (Some st) | None => Err ErrDecode end
  end.

Definition readStatus (d : DB) (txid : string) : Res (option TransactionStatus) :=
  match eng_get d (txKey txid) with
  | Err e => Err e
  | Ok None => Ok None
  | Ok (Some v) =>
      match asStatus v with Some st => Ok (Some (storedStatus_toModel st)) | None => Err ErrDecode end
  end.

Definition writeStatusNew (d : DB) (status : TransactionStatus) : Res unit * DB :=
  let st := fromModel status in
  commitTo d (BSet (txKey (ts_TxID status)) (PStatus st) :: addStatusIndexes st) tt.

(** The fields [GetOrInsertStatus] fills in before the insert. *)
Definition insertDefaults (now : Z) (s : TransactionStatus) : TransactionStatus :=
  mkTransactionStatus (ts_TxID s)
    (if String.eqb (ts_Status s) "" then StatusReceived else ts_Status s) (ts_StatusCode s)
    (if IsZero (ts_Timestamp s) then Some now else ts_Timestamp s) (ts_TxIDs s) (ts_BlockHash s)
    (ts_BlockHeight s) (ts_MerklePath s) (ts_ExtraInfo s) (ts_CompetingTxs s) (ts_RawTx s)
    (ts_RetryCount s) (ts_NextRetryAt s) (Some now) (ts_OrphanedProofs s) (ts_MerkleRegisteredAt s).

Definition GetOrInsertStatus (c : Ctx) (now : Z) (status : TransactionStatus) (d : DB)
  : Res (TransactionStatus * bool) * DB :=
  if ctx_err c then (Err ErrCanceled, d)
  else match readStatus d (ts_TxID status) with
       | Err e => (Err e, d)
       | Ok (Some existing) => (Ok (existing, false), d)
       | Ok None =>
           let status := insertDefaults now status in
           match writeStatusNew d status with
           | (Err e, d') => (Err e, d')
           | (Ok _, d') => (Ok (status, true), d')
           end
       end.

(** Replace a row and its index entries in one batch. *)
Definition rewriteRow {A} (d : DB) (txid : string) (existing updated : storedStatus) (r : A)
  : Res A * DB :=
  commitTo d (removeStatusIndexes existing ++ [BSet (txKey txid) (PStatus updated)]
              ++ addStatusIndexes updated) r.

Definition UpdateStatusReturning (c : Ctx) (status : TransactionStatus) (d : DB)
  : Res StatusUpdate * DB :=
  if ctx_err c then (Err ErrCanceled, d)
  else match readStoredStatus d (ts_TxID status) with
       | Err e => (Err e, d)
       | Ok None => (Err ErrNotFound, d)
       | Ok (Some existing) =>
           if negb (String.eqb (ts_Status status) "")
              && negb (CanTransitionFrom (ts_Status status) (ss_Status existing))
           then (Ok (mkStatusUpdate None (Some (storedStatus_toModel existing))), d)
           else rewriteRow d (ts_TxID status) existing (mergeStatus (Some existing) status)
                  (mkStatusUpdate (Some (storedStatus_toModel existing)) None)
       end.

Definition UpdateStatus (c : Ctx) (status : TransactionStatus) (d : DB) : Res unit * DB :=
  match UpdateStatusReturning c status d with
  | (Ok _, d') => (Ok tt, d')
  | (Err e, d') => (Err e, d')
  end.

(** The rows an index scan leads to: the loop shared by [GetStatusesSince]
    and [IterateStatusesSince]; [fn] is the callback over its own state. *)
Fixpoint sinceLoop {S} (d : DB) (c : Ctx) (since : Time)
    (fn : S -> TransactionStatus -> S * option error) (s : S) (entries : list (string * payload))
  : S * option error :=
  match entries with
  | [] => (s, None)
  | (key, _) :: rest =>
      if ctx_err c then (s, Some ErrCanceled)
      else match readStatus d (lastSegment key) with
           | Err _ | Ok None => sinceLoop d (ctx_tick c) since fn s rest
           | Ok (Some st) =>
               if negb (IsZero since) && (UnixNano (ts_Timestamp st) <? UnixNano since)%Z
               then sinceLoop d (ctx_tick c) since fn s rest
               else match fn s st with
                    | (s', Some e) => (s', Some e)
                    | (s', None) => sinceLoop d (ctx_tick c) since fn s' rest
                    end
           end
  end.

Definition IterateStatusesSince {S} (c : Ctx) (since : Time)
    (fn : S -> TransactionStatus -> S * option error) (s : S) (d : DB) : S * option error :=
  if ctx_err c then (s, Some ErrCanceled)
  else match eng_iter d idxTxUpdatedPrefix (endOfPrefix idxTxUpdatedPrefix) with
       | Err e => (s, Some e)
       | Ok entries => sinceLoop d (ctx_tick c) since fn s entries
       end.

Definition GetStatusesSince (c : Ctx) (since : Time) (d : DB)
  : list TransactionStatus * option error :=
  IterateStatusesSince c since (fun acc st => (acc ++ [st], None)) [] d.

(** [IterateTrackerRows]: one index scan per tracked status, every emitted
    row re-checked against the stored status and [Keep]. *)
Fixpoint trackerRowsLoop {S} (d : DB) (c : Ctx) (scan : TrackerScan) (status : Status)
    (fn : S -> TrackerRow -> S * option error) (s : S) (entries : list (string * payload))
  : S * option error * Ctx :=
  match entries with
  | [] => (s, None, c)
  | (key, _) :: rest =>
      if ctx_err c then (s, Some ErrCanceled, c)
      else match readStoredStatus d (lastSegment key) with
           | Err _ | Ok None => trackerRowsLoop d (ctx_tick c) scan status fn s rest
           | Ok (Some st) =>
               if negb (String.eqb (ss_Status st) status) || negb (Keep scan (ss_Status st) (ss_BlockHeight st))
               then trackerRowsLoop d (ctx_tick c) scan status fn s rest
               else match fn s (mkTrackerRow (ss_TxID st) (ss_Status st) (ss_BlockHeight st)) with
                    | (s', Some e) => (s', Some e, c)
                    | (s', None) => trackerRowsLoop d (ctx_tick c) scan status fn s' rest
                    end
           end
  end.

Fixpoint trackerStatusLoop {S} (d : DB) (c : Ctx) (scan : TrackerScan)
    (fn : S -> TrackerRow -> S * option error) (s : S) (statuses : list Status)
  : S * option error :=
  match statuses with
  | [] => (s, None)
  | status :: rest =>
      match eng_iter d (idxTxStatusPrefix status) (endOfPrefix (idxTxStatusPrefix status)) with
      | Err e => (s, Some e)
      | Ok entries =>
          match trackerRowsLoop d c scan status fn s entries with
          | (s', Some e, _) => (s', Some e)
          | (s', None, c') => trackerStatusLoop d c' scan fn s' rest
          end
      end
  end.

Definition IterateTrackerRows {S} (c : Ctx) (scan : TrackerScan)
    (fn : S -> TrackerRow -> S * option error) (s : S) (d : DB) : S * option error :=
  if ctx_err c then (s, Some ErrCanceled)
  else trackerStatusLoop d (ctx_tick c) scan fn s (Statuses scan).

(** *** Block-scoped rewrites *)

Fixpoint keysLoop (c : Ctx) (acc : list string) (entries : list (string * payload))
  : list string * option error * Ctx :=
  match entries with
  | [] => (acc, None, c)
  | (key, _) :: rest =>
      if ctx_err c then (acc, Some ErrCanceled, c)
      else keysLoop (ctx_tick c) (acc ++ [lastSegment key]) rest
  end.

Definition GetTxIDsByBlockHash (c : Ctx) (blockHash : string) (d : DB)
  : list string * option error :=
  if ctx_err c then ([], Some ErrCanceled)
  else match eng_iter d (idxTxBlockPrefix blockHash) (endOfPrefix (idxTxBlockPrefix blockHash)) with
       | Err e => ([], Some e)
       | Ok entries =>
           match keysLoop (ctx_tick c) [] entries with (txids, err, _) => (txids, err) end
       end.

(** One candidate of [SetStatusByBlockHash]: [Ok true] when rewritten. *)
Definition blockRewriteStep (now : Z) (blockHash : string) (newStatus : Status) (txid : string)
    (d : DB) : Res bool * DB :=
  match readStoredStatus d txid with
  | Err _ | Ok None => (Ok false, d)
  | Ok (Some existing) =>
      if negb (String.eqb (ss_BlockHash existing) blockHash) then (Ok false, d)
      else if String.eqb (ss_Status existing) StatusImmutable then (Ok false, d)
      else rewriteRow d txid existing (blockRewriteRow existing now newStatus) true
  end.

Fixpoint blockRewriteLoop (now : Z) (blockHash : string) (newStatus : Status)
    (txids : list string) (candidates : list string) (d : DB) : list string * option error * DB :=
  match candidates with
  | [] => (txids, None, d)
  | txid :: rest =>
      match blockRewriteStep now blockHash newStatus txid d with
      | (Err e, d') => (txids, Some e, d')
      | (Ok true, d') => blockRewriteLoop now blockHash newStatus (txids ++ [txid]) rest d'
      | (Ok false, d') => blockRewriteLoop now blockHash newStatus txids rest d'
      end
  end.

Definition SetStatusByBlockHash (c : Ctx) (now : Z) (blockHash : string) (newStatus : Status) (d : DB)
  : list string * option error * DB :=
  if ctx_err c then ([], Some ErrCanceled, d)
  else match eng_iter d (idxTxBlockPrefix blockHash) (endOfPrefix (idxTxBlockPrefix blockHash)) with
       | Err e => ([], Some e, d)
       | Ok entries =>
           match keysLoop (ctx_tick c) [] entries with
           | (_, Some e, _) => ([], Some e, d)
           | (candidates, None, _) => blockRewriteLoop now blockHash newStatus [] candidates d
           end
       end.

(** *** Retry queue *)

Definition BumpRetryCount (c : Ctx) (txid : string) (d : DB) : Res Z * DB :=
  if ctx_err c then (Err ErrCanceled, d)
  else match readStoredStatus d txid with
       | Err e => (Err e, d)
       | Ok None => (Err ErrNotFound, d)
       | Ok (Some existing) =>
           let n := int64 (ss_RetryCount existing + 1) in
           commitTo d [BSet (txKey txid) (PStatus (withRetryCount existing n))] n
       end.

Definition SetPendingRetryFields (c : Ctx) (now : Z) (txid : string) (rawTx : list byte)
    (nextRetryAt : Time) (lastReason : string) (d : DB) : Res unit * DB :=
  if ctx_err c then (Err ErrCanceled, d)
  else match readStoredStatus d txid with
       | Err e => (Err e, d)
       | Ok None => (Err ErrNotFound, d)
       | Ok (Some existing) =>
           if negb (CanTransitionFrom StatusPendingRetry (ss_Status existing)) then (Ok tt, d)
           else rewriteRow d txid existing
                  (pendingRetryRow existing now rawTx nextRetryAt lastReason) tt
       end.

(** [rest[16] != ':'] and the slices of the retry key. *)
Fixpoint sdrop (n : nat) (s : string) : string :=
  match n, s with
  | O, _ => s
  | S n', String _ s' => sdrop n' s'
  | S _, EmptyString => ""
  end.
Fixpoint stake (n : nat) (s : string) : string :=
  match n, s with
  | O, _ => ""
  | S n', String c s' => String c (stake n' s')
  | S _, EmptyString => ""
  end.

(** The scan stops at [limit] results, at the first entry that is not due,
    and on an error; entries it cannot parse are skipped. *)
Fixpoint readyLoop (d : DB) (c : Ctx) (nowNs : Z) (limit : nat) (results : list PendingRetry)
    (entries : list (string * payload)) : list PendingRetry * option error :=
  match entries with
  | [] => (results, None)
  | (key, _) :: more =>
      if (limit <=? length results)%nat then (results, None)
      else if ctx_err c then (results, Some ErrCanceled)
      else
        let c := ctx_tick c in
        let rest := sdrop (String.length idxTxRetryReadyPrefix) key in
        if (String.length rest <? 17)%nat || negb (bool_decide (String.get 16 rest = Some colon))
        then readyLoop d c nowNs limit results more
        else match sscanfX (stake 16 rest) with
             | None => readyLoop d c nowNs limit results more
             | Some nextNs =>
                 if (nowNs <? nextNs)%Z then (results, None)
                 else match eng_get d (txKey (sdrop 17 rest)) with
                      | Err e => (results, Some e)
                      | Ok None => readyLoop d c nowNs limit results more
                      | Ok (Some v) =>
                          match asStatus v with
                          | None => (results, Some ErrDecode)
                          | Some st =>
                              match ss_RawTx st with
                              | [] => readyLoop d c nowNs limit results more
                              | _ =>
                                  readyLoop d c nowNs limit
                                    (results ++ [mkPendingRetry (ss_TxID st) (ss_RawTx st)
                                       (ss_RetryCount st) (Some (ss_NextRetryUnixNs st))
                                       (ss_RetryReason st)]) more
                              end
                          end
                      end
             end
  end.

Definition GetReadyRetries (c : Ctx) (now : Time) (limit : Z) (d : DB)
  : list PendingRetry * option error :=
  if (limit <=? 0)%Z then ([], None)
  else if ctx_err c then ([], Some ErrCanceled)
  else match eng_iter d idxTxRetryReadyPrefix (endOfPrefix idxTxRetryReadyPrefix) with
       | Err e => ([], Some e)
       | Ok entries => readyLoop d (ctx_tick c) (UnixNano now) (Z.to_nat limit) [] entries
       end.

Definition ClearRetryState (c : Ctx) (now : Z) (txid : string) (finalStatus : Status)
    (extraInfo : string) (d : DB) : Res unit * DB :=
  if ctx_err c then (Err ErrCanceled, d)
  else match readStoredStatus d txid with
       | Err e => (Err e, d)
       | Ok None => (Ok tt, d)
       | Ok (Some existing) =>
           rewriteRow d txid existing (clearedRetryRow existing now finalStatus extraInfo) tt
       end.

(** *** Mining *)

(** One txid of [SetMinedByTxIDs]: the previous row when it was updated. *)
Definition setMinedStep (now : Z) (blockHash : string) (blockHeight : Z) (txid : string) (d : DB)
  : Res (option TransactionStatus) * DB :=
  match readStoredStatus d txid with
  | Err e => (Err e, d)
  | Ok None => (Ok None, d)
  | Ok (Some existing) =>
      if negb (CanTransitionFrom StatusMined (ss_Status existing)) then (Ok None, d)
      else rewriteRow d txid existing (minedRow existing now blockHash blockHeight)
             (Some (storedStatus_toModel existing))
  end.

(** The row as returned to the caller. *)
Definition minedResult (now : Z) (blockHash : string) (blockHeight : Z) (txid : string)
  : TransactionStatus :=
  mkTransactionStatus txid StatusMined 0 (Some now) [] blockHash blockHeight [] "" [] [] 0
    None None [] None.

Fixpoint setMinedLoop (c : Ctx) (now : Z) (blockHash : string) (blockHeight : Z)
    (prevs out : list TransactionStatus) (txids : list string) (d : DB)
  : list TransactionStatus * list TransactionStatus * option error * DB :=
  match txids with
  | [] => (prevs, out, None, d)
  | txid :: rest =>
      if ctx_err c then (prevs, out, Some ErrCanceled, d)
      else match setMinedStep now blockHash blockHeight txid d with
           | (Err e, d') => (prevs, out, Some e, d')
           | (Ok None, d') => setMinedLoop (ctx_tick c) now blockHash blockHeight prevs out rest d'
           | (Ok (Some prev), d') =>
               setMinedLoop (ctx_tick c) now blockHash blockHeight (prevs ++ [prev])
                 (out ++ [minedResult now blockHash blockHeight txid]) rest d'
           end
  end.

Definition SetMinedByTxIDs (c : Ctx) (now : Z) (blockHash : string) (blockHeight : Z)
    (txids : list string) (d : DB)
  : list TransactionStatus * list TransactionStatus * option error * DB :=
  if ctx_err c then ([], [], Some ErrCanceled, d)
  else setMinedLoop (ctx_tick c) now blockHash blockHeight [] [] txids d.

Definition markMerkleStep (tsNs : Z) (txid : string) (d : DB) : Res unit * DB :=
  match readStoredStatus d txid with
  | Err e => (Err e, d)
  | Ok None => (Ok tt, d)
  | Ok (Some existing) =>
      commitTo d [BSet (txKey txid) (PStatus (withMerkleRegistered existing tsNs))] tt
  end.

Fixpoint markMerkleLoop (c : Ctx) (tsNs : Z) (txids : list string) (d : DB) : Res unit * DB :=
  match txids with
  | [] => (Ok tt, d)
  | txid :: rest =>
      if ctx_err c then (Err ErrCanceled, d)
      else match markMerkleStep tsNs txid d with
           | (Err e, d') => (Err e, d')
           | (Ok _, d') => markMerkleLoop (ctx_tick c) tsNs rest d'
           end
  end.

Definition MarkMerkleRegisteredByTxIDs (c : Ctx) (txids : list string) (ts : Time) (d : DB)
  : Res unit * DB :=
  if ctx_err c then (Err ErrCanceled, d) else markMerkleLoop (ctx_tick c) (UnixNano ts) txids d.

(** *** Census *)

Record StatusCensus : Type := mkStatusCensus { ce_Count : Z; ce_Oldest : Time }.

Fixpoint censusLoop (d : DB) (c : Ctx) (since : Time) (deadlineNs : Z) (census : StatusCensus)
    (entries : list (string * payload)) : Res (StatusCensus * Ctx) :=
  match entries with
  | [] => Ok (census, c)
  | (key, _) :: rest =>
      if ctx_err c then Err ErrCanceled
      else match readStoredStatus d (lastSegment key) with
           | Err _ | Ok None => censusLoop d (ctx_tick c) since deadlineNs census rest
           | Ok (Some st) =>
               if (negb (IsZero since) && (ss_TimestampUnixNs st <? UnixNano since)%Z)
                  || (deadlineNs <=? ss_TimestampUnixNs st)%Z
               then censusLoop d (ctx_tick c) since deadlineNs census rest
               else censusLoop d (ctx_tick c) since deadlineNs
                 (mkStatusCensus (ce_Count census + 1)
                    (if IsZero (ce_Oldest census)
                        || (ss_TimestampUnixNs st <? UnixNano (ce_Oldest census))%Z
                     then Some (ss_TimestampUnixNs st) else ce_Oldest census)) rest
           end
  end.

Fixpoint censusStatusLoop (d : DB) (c : Ctx) (since stuckDeadline : Time)
    (out : gmap string StatusCensus) (statuses : list Status) : Res (gmap string StatusCensus) :=
  match statuses with
  | [] => Ok out
  | status :: rest =>
      match eng_iter d (idxTxStatusPrefix status) (endOfPrefix (idxTxStatusPrefix status)) with
      | Err e => Err e
      | Ok entries =>
          match censusLoop d c since (UnixNano stuckDeadline) (mkStatusCensus 0 None) entries with
          | Err e => Err e
          | Ok (census, c') => censusStatusLoop d c' since stuckDeadline (<[status := census]> out) rest
          end
      end
  end.

Definition CensusStatusesSince (c : Ctx) (since stuckDeadline : Time) (statuses : list Status) (d : DB)
  : Res (gmap string StatusCensus) :=
  if ctx_err c then Err ErrCanceled
  else censusStatusLoop d (ctx_tick c) since stuckDeadline ∅ statuses.
End Operations.
