(* ===== verification/PebbleTxInv.v ===== *)
(** * PebbleTxInv: what the transaction writers may do to the keyspace

    Every writer of [PebbleTx] is a sequence of row effects: nothing, the
    creation of one row, the rewrite of one row together with its index
    entries, or an in-place write that no index depends on.  From that
    description follow the index invariant, the absence of phantom rows and
    the protection of IMMUTABLE rows, for every sequence of operations and
    every engine failure. *)
From stdpp Require Import base gmap strings list sorting relations.
From Stdlib Require Import ZArith Lia.
From Stdlib Require Import Strings.Byte.
From S2P Require Import Prelude Models StoreCore Keys Engine PebbleTx.

(** ** The index entries a row calls for *)

Definition status_keys (st : storedStatus) : list string :=
  [idxTxStatusKey (ss_Status st) (ss_TxID st)] ++
  (if String.eqb (ss_BlockHash st) "" then [] else [idxTxBlockKey (ss_BlockHash st) (ss_TxID st)]) ++
  (if String.eqb (ss_Status st) StatusPendingRetry && negb (ss_NextRetryUnixNs st =? 0)%Z
   then [idxTxRetryReadyKey (ss_NextRetryUnixNs st) (ss_TxID st)] else []) ++
  (if (ss_TimestampUnixNs st =? 0)%Z then [] else [idxTxUpdatedKey (ss_TimestampUnixNs st) (ss_TxID st)]).

Lemma addStatusIndexes_keys st : addStatusIndexes st = (fun k => BSet k PEmpty) <$> status_keys st.
Proof. unfold addStatusIndexes, status_keys. rewrite !fmap_app. repeat case_match; done. Qed.

Lemma removeStatusIndexes_keys st : removeStatusIndexes st = BDel <$> status_keys st.
Proof. unfold removeStatusIndexes, status_keys. rewrite !fmap_app. repeat case_match; done. Qed.

Definition row_ok (st : storedStatus) : Prop :=
  no_colon (ss_TxID st) = true ∧ no_colon (ss_BlockHash st) = true ∧ no_colon (ss_Status st) = true.

Definition idx_tx_prefix : string := "idx:tx:".

Lemma status_keys_elem st k :
  k ∈ status_keys st ↔
  k = idxTxStatusKey (ss_Status st) (ss_TxID st) ∨
  (ss_BlockHash st ≠ "" ∧ k = idxTxBlockKey (ss_BlockHash st) (ss_TxID st)) ∨
  (ss_Status st = StatusPendingRetry ∧ ss_NextRetryUnixNs st ≠ 0%Z ∧
     k = idxTxRetryReadyKey (ss_NextRetryUnixNs st) (ss_TxID st)) ∨
  (ss_TimestampUnixNs st ≠ 0%Z ∧ k = idxTxUpdatedKey (ss_TimestampUnixNs st) (ss_TxID st)).
Proof.
  unfold status_keys. rewrite !elem_of_app, list_elem_of_singleton.
  destruct (String.eqb_spec (ss_BlockHash st) ""), (String.eqb_spec (ss_Status st) StatusPendingRetry),
    (Z.eqb_spec (ss_NextRetryUnixNs st) 0), (Z.eqb_spec (ss_TimestampUnixNs st) 0); simpl; set_solver.
Qed.

Lemma status_keys_last st k : row_ok st -> k ∈ status_keys st -> lastSegment k = ss_TxID st.
Proof.
  intros (Ht & _) [->|[(_ & ->)|[(_ & _ & ->)|(_ & ->)]]]%status_keys_elem;
    by autorewrite with keys.
Qed.

Lemma status_keys_prefix st k : k ∈ status_keys st -> has_prefix idx_tx_prefix k = true.
Proof.
  intros [->|[(_ & ->)|[(_ & _ & ->)|(_ & ->)]]]%status_keys_elem; done.
Qed.

Lemma txKey_not_idx t : has_prefix idx_tx_prefix (txKey t) = false.
Proof. done. Qed.

Lemma txKey_not_status_key st t : txKey t ∉ status_keys st.
Proof. intros Hk%status_keys_prefix. by rewrite txKey_not_idx in Hk. Qed.

(** ** The invariant *)

Record tx_ok (m : gmap string payload) : Prop := {
  tx_rows t v : m !! txKey t = Some v -> ∃ st, v = PStatus st ∧ ss_TxID st = t ∧ row_ok st;
  tx_idx k : has_prefix idx_tx_prefix k = true ->
    is_Some (m !! k) ↔ ∃ t st, m !! txKey t = Some (PStatus st) ∧ k ∈ status_keys st
}.

Lemma tx_ok_empty : tx_ok ∅.
Proof.
  split.
  - intros t v. by rewrite lookup_empty.
  - intros k _. rewrite lookup_empty. split; [by intros []|].
    intros (t & st & Hl & _). by rewrite lookup_empty in Hl.
Qed.

Lemma tx_row m t st : tx_ok m -> m !! txKey t = Some (PStatus st) -> ss_TxID st = t ∧ row_ok st.
Proof. intros Hok Hl. destruct (tx_rows m Hok _ _ Hl) as (st' & [= <-] & ? & ?). done. Qed.

(** ** Effects *)

Definition newBatch (t : string) (u : storedStatus) : list bop :=
  BSet (txKey t) (PStatus u) :: addStatusIndexes u.
Definition rewriteBatch (t : string) (e u : storedStatus) : list bop :=
  removeStatusIndexes e ++ [BSet (txKey t) (PStatus u)] ++ addStatusIndexes u.

Inductive row_effect (create : storedStatus -> Prop) (rw : storedStatus -> storedStatus -> Prop)
    (m : gmap string payload) : gmap string payload -> Prop :=
| eff_none : row_effect create rw m m
| eff_new t u : m !! txKey t = None -> ss_TxID u = t -> create u ->
    row_effect create rw m (apply_batch m (newBatch t u))
| eff_rewrite t e u : m !! txKey t = Some (PStatus e) -> rw e u -> (ss_TxID e = t -> ss_TxID u = t) ->
    row_effect create rw m (apply_batch m (rewriteBatch t e u))
| eff_inplace t e u : m !! txKey t = Some (PStatus e) -> rw e u -> status_keys u = status_keys e ->
    ss_TxID u = ss_TxID e ->
    row_effect create rw m (<[txKey t := PStatus u]> m).

(** Lookups after a rewrite; a creation is a rewrite of nothing. *)
Lemma rewriteBatch_lookup m t e u k :
  apply_batch m (rewriteBatch t e u) !! k =
  if decide (k ∈ status_keys u) then Some PEmpty
  else if decide (k = txKey t) then Some (PStatus u)
  else if decide (k ∈ status_keys e) then None else m !! k.
Proof.
  unfold rewriteBatch. rewrite !apply_batch_app, addStatusIndexes_keys, removeStatusIndexes_keys.
  rewrite apply_sets. destruct (decide (k ∈ status_keys u)); [done|].
  destruct (decide (k = txKey t)) as [->|Hne]; [by apply lookup_insert_eq|].
  etransitivity; [by apply lookup_insert_ne|]. apply apply_dels.
Qed.

Lemma newBatch_lookup m t u k :
  apply_batch m (newBatch t u) !! k =
  if decide (k ∈ status_keys u) then Some PEmpty
  else if decide (k = txKey t) then Some (PStatus u) else m !! k.
Proof.
  unfold newBatch. change (?x :: ?l) with ([x] ++ l). rewrite apply_batch_app, addStatusIndexes_keys.
  rewrite apply_sets. destruct (decide (k ∈ status_keys u)); [done|].
  destruct (decide (k = txKey t)) as [->|Hne]; [by apply lookup_insert_eq|].
  by apply lookup_insert_ne.
Qed.

(** The transaction rows after a rewrite. *)
Lemma rewriteBatch_row m t e u t' :
  apply_batch m (rewriteBatch t e u) !! txKey t' =
  if decide (t' = t) then Some (PStatus u) else m !! txKey t'.
Proof.
  rewrite rewriteBatch_lookup. rewrite decide_False by apply txKey_not_status_key.
  destruct (decide (t' = t)) as [->|Hne]; [by rewrite decide_True|].
  rewrite decide_False by (intros ?%txKey_inj; done).
  by rewrite decide_False by apply txKey_not_status_key.
Qed.

Lemma newBatch_row m t u t' :
  apply_batch m (newBatch t u) !! txKey t' =
  if decide (t' = t) then Some (PStatus u) else m !! txKey t'.
Proof.
  rewrite newBatch_lookup. rewrite decide_False by apply txKey_not_status_key.
  destruct (decide (t' = t)) as [->|Hne]; [by rewrite decide_True|].
  by rewrite decide_False by (intros ?%txKey_inj; done).
Qed.

(** Rows of different transactions never share an index entry. *)
Lemma status_keys_disjoint m t e t' e' k :
  tx_ok m -> m !! txKey t = Some (PStatus e) -> m !! txKey t' = Some (PStatus e') ->
  k ∈ status_keys e -> k ∈ status_keys e' -> t = t'.
Proof.
  intros Hok He He' Hk Hk'.
  destruct (tx_row _ _ _ Hok He) as [<- Ho], (tx_row _ _ _ Hok He') as [<- Ho'].
  by rewrite <-(status_keys_last _ _ Ho Hk), <-(status_keys_last _ _ Ho' Hk').
Qed.

Lemma tx_ok_rewrite m t e u :
  tx_ok m -> m !! txKey t = Some (PStatus e) -> ss_TxID u = t -> row_ok u ->
  tx_ok (apply_batch m (rewriteBatch t e u)).
Proof.
  intros Hok He Hu Hro. split.
  - intros t' v. rewrite rewriteBatch_row. case_decide; subst.
    + intros [= <-]. eauto.
    + apply (tx_rows m Hok).
  - intros k Hp. rewrite rewriteBatch_lookup.
    assert (k ≠ txKey t) as Hne by (intros ->; by rewrite txKey_not_idx in Hp).
    rewrite (decide_False (P := k = txKey t)) by done.
    destruct (decide (k ∈ status_keys u)) as [Hin|Hni].
    { split; [|by eauto]. intros _. exists t, u. rewrite rewriteBatch_row, decide_True; done. }
    destruct (decide (k ∈ status_keys e)) as [Hine|Hnie]; split.
    + by intros [].
    + intros (t' & st & Hl & Hk). rewrite rewriteBatch_row in Hl. case_decide; [by simplify_eq|].
      by destruct (status_keys_disjoint _ _ _ _ _ _ Hok He Hl Hine Hk).
    + intros (t' & st & Hl & Hk)%(tx_idx m Hok _ Hp). exists t', st. split; [|done].
      rewrite rewriteBatch_row, decide_False; [done|]. intros ->. simplify_eq.
    + intros (t' & st & Hl & Hk). rewrite rewriteBatch_row in Hl. case_decide; [by simplify_eq|].
      apply (tx_idx m Hok _ Hp). eauto.
Qed.

Lemma tx_ok_new m t u :
  tx_ok m -> m !! txKey t = None -> ss_TxID u = t -> row_ok u ->
  tx_ok (apply_batch m (newBatch t u)).
Proof.
  intros Hok He Hu Hro. split.
  - intros t' v. rewrite newBatch_row. case_decide; subst.
    + intros [= <-]. eauto.
    + apply (tx_rows m Hok).
  - intros k Hp. rewrite newBatch_lookup.
    assert (k ≠ txKey t) as Hne by (intros ->; by rewrite txKey_not_idx in Hp).
    rewrite (decide_False (P := k = txKey t)) by done.
    destruct (decide (k ∈ status_keys u)) as [Hin|Hni].
    { split; [|by eauto]. intros _. exists t, u. rewrite newBatch_row, decide_True; done. }
    rewrite (tx_idx m Hok _ Hp). split; intros (t' & st & Hl & Hk); exists t', st; (split; [|done]).
    + rewrite newBatch_row, decide_False; [done|]. intros ->. congruence.
    + rewrite newBatch_row in Hl. case_decide; by simplify_eq.
Qed.

Lemma tx_ok_inplace m t e u :
  tx_ok m -> m !! txKey t = Some (PStatus e) -> status_keys u = status_keys e ->
  ss_TxID u = ss_TxID e -> row_ok u -> tx_ok (<[txKey t := PStatus u]> m).
Proof.
  intros Hok He Hk Ht Hro. destruct (tx_row _ _ _ Hok He) as [Het _].
  assert (∀ t' v, <[txKey t:=PStatus u]> m !! txKey t' = Some v ↔
    (t' = t ∧ v = PStatus u) ∨ (t' ≠ t ∧ m !! txKey t' = Some v)) as Hl.
  { intros t' v. destruct (decide (t' = t)) as [->|]; [rewrite lookup_insert_eq; naive_solver|].
    rewrite lookup_insert_ne by (intros ?%txKey_inj; done). naive_solver. }
  split.
  - intros t' v [[-> ->]|[_ Hv]]%Hl; [|by apply (tx_rows m Hok)]. exists u. naive_solver.
  - intros k Hp. rewrite lookup_insert_ne by (intros <-; by rewrite txKey_not_idx in Hp).
    rewrite (tx_idx m Hok _ Hp). split.
    + intros (t' & st & Hv & Hin). destruct (decide (t' = t)) as [->|].
      * assert (st = e) as -> by congruence. exists t, u. rewrite Hl, Hk. naive_solver.
      * exists t', st. rewrite Hl. naive_solver.
    + intros (t' & st & [[-> [= ->]]|[_ Hv]]%Hl & Hin); [|by eauto].
      exists t, e. by rewrite <-Hk.
Qed.

(** The conditions under which an effect keeps the invariant. *)
Definition effect_safe (create : storedStatus -> Prop) (rw : storedStatus -> storedStatus -> Prop) : Prop :=
  (∀ u, create u -> row_ok u) ∧ (∀ e u, row_ok e -> rw e u -> row_ok u).

Lemma row_effect_ok create rw m m' :
  effect_safe create rw -> row_effect create rw m m' -> tx_ok m -> tx_ok m'.
Proof.
  intros [Hc Hr] Heff Hok. destruct Heff as [|t u Hn Ht Hcr|t e u He Hrw Ht|t e u He Hrw Hk Ht].
  - done.
  - apply tx_ok_new; auto.
  - destruct (tx_row _ _ _ Hok He). apply tx_ok_rewrite; eauto.
  - destruct (tx_row _ _ _ Hok He). eapply tx_ok_inplace; eauto.
Qed.

Lemma row_effects_ok create rw m m' :
  effect_safe create rw -> rtc (row_effect create rw) m m' -> tx_ok m -> tx_ok m'.
Proof. intros Hs. induction 1; eauto using row_effect_ok. Qed.
