(* ===== verification/PebbleTxProps.v ===== *)
(** * PebbleTxProps: correctness of the transaction writers

    [tx_op] names every write of a transaction row, whole operations and the
    single-row steps concurrent callers interleave; [op_effects] gives each
    its row effects.  The theorems hold for every engine, failing ones
    included; those that promise a result are under [EngineReliable]. *)
From stdpp Require Import base gmap strings list sorting relations.
From Stdlib Require Import ZArith Lia.
From Stdlib Require Import Strings.Byte.
From S2P Require Import Prelude Models StoreCore Keys Engine PebbleTx PebbleTxInv.

(** ** Operations as data *)

Inductive tx_op : Type :=
| OpInsert (c : Ctx) (now : Z) (st : TransactionStatus)
| OpUpdate (c : Ctx) (st : TransactionStatus)
| OpBlockRow (now : Z) (blockHash : string) (newStatus : Status) (txid : string)
| OpBlock (c : Ctx) (now : Z) (blockHash : string) (newStatus : Status)
| OpBump (c : Ctx) (txid : string)
| OpPending (c : Ctx) (now : Z) (txid : string) (rawTx : list byte) (next : Time) (reason : string)
| OpClear (c : Ctx) (now : Z) (txid : string) (final : Status) (extra : string)
| OpMinedRow (now : Z) (blockHash : string) (blockHeight : Z) (txid : string)
| OpMined (c : Ctx) (now : Z) (blockHash : string) (blockHeight : Z) (txids : list string)
| OpMerkleRow (ts : Z) (txid : string)
| OpMerkle (c : Ctx) (txids : list string) (ts : Time).

(** Which rows an operation may create, and how it may rewrite one. *)
Definition op_create (o : tx_op) (u : storedStatus) : Prop :=
  match o with OpInsert _ now st => u = fromModel (insertDefaults now st) | _ => False end.

Definition op_rw (o : tx_op) (e u : storedStatus) : Prop :=
  match o with
  | OpInsert _ _ _ => False
  | OpUpdate _ st => u = mergeStatus (Some e) st ∧
      (ts_Status st = "" ∨ CanTransitionFrom (ts_Status st) (ss_Status e) = true)
  | OpBlockRow now bh s _ | OpBlock _ now bh s =>
      u = blockRewriteRow e now s ∧ ss_BlockHash e = bh ∧ ss_Status e ≠ StatusImmutable
  | OpBump _ _ => u = withRetryCount e (int64 (ss_RetryCount e + 1))
  | OpPending _ now _ raw next reason => u = pendingRetryRow e now raw next reason ∧
      CanTransitionFrom StatusPendingRetry (ss_Status e) = true
  | OpClear _ now _ final extra => u = clearedRetryRow e now final extra
  | OpMinedRow now bh h _ | OpMined _ now bh h _ =>
      u = minedRow e now bh h ∧ CanTransitionFrom StatusMined (ss_Status e) = true
  | OpMerkleRow ts _ => u = withMerkleRegistered e ts
  | OpMerkle _ _ ts => u = withMerkleRegistered e (UnixNano ts)
  end.

(** The caller's side: identifiers and statuses are colon-free (hex txids and
    block hashes, statuses of [models]). *)
Definition op_args_ok (o : tx_op) : Prop :=
  match o with
  | OpInsert _ now st => row_ok (fromModel (insertDefaults now st))
  | OpUpdate _ st => no_colon (ts_TxID st) = true ∧ no_colon (ts_BlockHash st) = true ∧
      no_colon (ts_Status st) = true
  | OpBlockRow _ _ s _ | OpBlock _ _ _ s => no_colon s = true
  | OpClear _ _ _ s _ => no_colon s = true
  | OpMinedRow _ bh _ _ | OpMined _ _ bh _ _ => no_colon bh = true
  | _ => True
  end.

Lemma op_effect_safe o : op_args_ok o -> effect_safe (op_create o) (op_rw o).
Proof.
  intros Ha. split.
  - intros u Hu. destruct o; simpl in *; try done. by subst.
  - intros e u (H1 & H2 & H3) Hu.
    destruct o; simpl in *; try done; destruct_and?; subst; split_and!; simpl; try done;
      repeat case_match; done.
Qed.

Section Props.
Context {DB : Type} `{EngineSpec DB}.

Definition run_op (o : tx_op) (d : DB) : DB :=
  match o with
  | OpInsert c now st => (GetOrInsertStatus c now st d).2
  | OpUpdate c st => (UpdateStatusReturning c st d).2
  | OpBlockRow now bh s t => (blockRewriteStep now bh s t d).2
  | OpBlock c now bh s => (SetStatusByBlockHash c now bh s d).2
  | OpBump c t => (BumpRetryCount c t d).2
  | OpPending c now t raw next reason => (SetPendingRetryFields c now t raw next reason d).2
  | OpClear c now t final extra => (ClearRetryState c now t final extra d).2
  | OpMinedRow now bh h t => (setMinedStep now bh h t d).2
  | OpMined c now bh h ts => (SetMinedByTxIDs c now bh h ts d).2
  | OpMerkleRow ts t => (markMerkleStep ts t d).2
  | OpMerkle c ts t => (MarkMerkleRegisteredByTxIDs c ts t d).2
  end.

(** *** Effects of each operation *)

Lemma readStoredStatus_sound d t r :
  readStoredStatus d t = Ok r -> view d !! txKey t = PStatus <$> r.
Proof.
  unfold readStoredStatus. destruct (eng_get d (txKey t)) as [v|] eqn:E; [|done].
  apply get_sound in E as <-. destruct v as [v|]; [|by intros [= <-]].
  destruct v; simpl; try done. by intros [= <-].
Qed.

Lemma readStatus_none d t : readStatus d t = Ok None -> view d !! txKey t = None.
Proof.
  unfold readStatus. destruct (eng_get d (txKey t)) as [v|] eqn:E; [|done].
  apply get_sound in E as <-. destruct v as [v|]; [|done]. by destruct v.
Qed.

Lemma commitTo_view {A} d b (r : A) :
  view (commitTo d b r).2 = apply_batch (view d) b ∨ (commitTo d b r).2 = d.
Proof.
  unfold commitTo. destruct (eng_commit d b) as [d'|] eqn:E; [|by right].
  left. by apply commit_sound in E.
Qed.

Lemma commit_effect {A} create rw d b (r : A) :
  row_effect create rw (view d) (apply_batch (view d) b) ->
  row_effect create rw (view d) (view (commitTo d b r).2).
Proof. intros He. destruct (commitTo_view d b r) as [-> | ->]; [done|constructor]. Qed.

(** A row read and rewritten in one step. *)
Lemma rewriteRow_effect {A} create (rw : storedStatus -> storedStatus -> Prop) d t e u (r : A) :
  view d !! txKey t = Some (PStatus e) -> rw e u -> (ss_TxID e = t -> ss_TxID u = t) ->
  row_effect create rw (view d) (view (rewriteRow d t e u r).2).
Proof. intros He Hrw Ht. apply commit_effect. by eapply eff_rewrite. Qed.

Ltac read_row :=
  match goal with
  | |- context [readStoredStatus ?d ?t] =>
      let E := fresh "Erow" in
      destruct (readStoredStatus d t) as [[?e|]|] eqn:E; simpl; try (by constructor);
      apply readStoredStatus_sound in E; simpl in E
  end.

Lemma blockRewriteStep_effect o now bh s t d :
  op_rw o = op_rw (OpBlockRow now bh s t) ->
  row_effect (op_create o) (op_rw o) (view d) (view (blockRewriteStep now bh s t d).2).
Proof.
  intros Ho. unfold blockRewriteStep. read_row.
  destruct (String.eqb_spec (ss_BlockHash e) bh); simpl; [|constructor].
  destruct (String.eqb_spec (ss_Status e) StatusImmutable); simpl; [constructor|].
  apply rewriteRow_effect; [done| |done]. by rewrite Ho.
Qed.

Lemma setMinedStep_effect o now bh h t d :
  op_rw o = op_rw (OpMinedRow now bh h t) ->
  row_effect (op_create o) (op_rw o) (view d) (view (setMinedStep now bh h t d).2).
Proof.
  intros Ho. unfold setMinedStep. read_row.
  destruct (CanTransitionFrom _ _) eqn:Ec; simpl; [|constructor].
  apply rewriteRow_effect; [done| |done]. by rewrite Ho.
Qed.

Lemma markMerkleStep_effect o ts t d :
  op_rw o = op_rw (OpMerkleRow ts t) ->
  row_effect (op_create o) (op_rw o) (view d) (view (markMerkleStep ts t d).2).
Proof.
  intros Ho. unfold markMerkleStep. read_row.
  apply commit_effect. simpl. eapply eff_inplace; [done| |done|done]. by rewrite Ho.
Qed.

Lemma blockRewriteLoop_effects o now bh s t acc l d :
  op_rw o = op_rw (OpBlockRow now bh s t) ->
  rtc (row_effect (op_create o) (op_rw o)) (view d) (view (blockRewriteLoop now bh s acc l d).2).
Proof.
  intros Ho. revert acc d. induction l as [|x l IH]; intros acc d; [done|]. cbn [blockRewriteLoop].
  pose proof (blockRewriteStep_effect o now bh s x d Ho) as Hs.
  destruct (blockRewriteStep now bh s x d) as [[[]|] d']; simpl in *;
    (eapply rtc_l; [exact Hs|]); done || apply IH.
Qed.

Lemma setMinedLoop_effects o now bh h t c ps out l d :
  op_rw o = op_rw (OpMinedRow now bh h t) ->
  rtc (row_effect (op_create o) (op_rw o)) (view d) (view (setMinedLoop c now bh h ps out l d).2).
Proof.
  intros Ho. revert c ps out d. induction l as [|x l IH]; intros c ps out d; [done|].
  cbn [setMinedLoop]. destruct (ctx_err c); [done|].
  pose proof (setMinedStep_effect o now bh h x d Ho) as Hs.
  destruct (setMinedStep now bh h x d) as [[[]|] d']; simpl in *;
    (eapply rtc_l; [exact Hs|]); done || apply IH.
Qed.

Lemma markMerkleLoop_effects o ts t c l d :
  op_rw o = op_rw (OpMerkleRow ts t) ->
  rtc (row_effect (op_create o) (op_rw o)) (view d) (view (markMerkleLoop c ts l d).2).
Proof.
  intros Ho. revert c d. induction l as [|x l IH]; intros c d; [done|].
  cbn [markMerkleLoop]. destruct (ctx_err c); [done|].
  pose proof (markMerkleStep_effect o ts x d Ho) as Hs.
  destruct (markMerkleStep ts x d) as [[[]|] d']; simpl in *;
    (eapply rtc_l; [exact Hs|]); done || apply IH.
Qed.

Lemma op_effects o d :
  rtc (row_effect (op_create o) (op_rw o)) (view d) (view (run_op o d)).
Proof.
  destruct o; simpl.
  - apply rtc_once. unfold GetOrInsertStatus. destruct (ctx_err c); [constructor|].
    destruct (readStatus d (ts_TxID st)) as [[|]|] eqn:E; try constructor.
    apply readStatus_none in E. unfold writeStatusNew.
    set (b := BSet _ _ :: _).
    assert (row_effect (op_create (OpInsert c now st)) (op_rw (OpInsert c now st)) (view d)
      (view (commitTo d b tt).2)) as He.
    { apply commit_effect. by apply eff_new. }
    by destruct (commitTo d b tt) as [[|] d'].
  - apply rtc_once. unfold UpdateStatusReturning. destruct (ctx_err c); [constructor|]. read_row.
    destruct (String.eqb_spec (ts_Status st) ""); simpl.
    + apply rewriteRow_effect; simpl; auto.
    + destruct (CanTransitionFrom _ _) eqn:Ec; simpl; [|constructor].
      apply rewriteRow_effect; simpl; auto.
  - apply rtc_once. by apply blockRewriteStep_effect.
  - unfold SetStatusByBlockHash. destruct (ctx_err c); [done|].
    destruct (eng_iter _ _ _) as [l|]; [|done].
    destruct (keysLoop _ _ _) as [[cs [|]] c']; [done|]. by eapply (blockRewriteLoop_effects _ _ _ _ "").
  - apply rtc_once. unfold BumpRetryCount. destruct (ctx_err c); [constructor|]. read_row.
    apply commit_effect. simpl. by eapply eff_inplace.
  - apply rtc_once. unfold SetPendingRetryFields. destruct (ctx_err c); [constructor|]. read_row.
    destruct (CanTransitionFrom _ _) eqn:Ec; simpl; [|constructor]. by apply rewriteRow_effect.
  - apply rtc_once. unfold ClearRetryState. destruct (ctx_err c); [constructor|]. read_row.
    by apply rewriteRow_effect.
  - apply rtc_once. by apply setMinedStep_effect.
  - unfold SetMinedByTxIDs. destruct (ctx_err c); [done|]. by eapply (setMinedLoop_effects _ _ _ _ "").
  - apply rtc_once. by apply markMerkleStep_effect.
  - unfold MarkMerkleRegisteredByTxIDs. destruct (ctx_err c); [done|].
    by eapply (markMerkleLoop_effects _ _ "").
Qed.

Definition run_ops (ops : list tx_op) (d : DB) : DB := foldl (fun d o => run_op o d) d ops.

Lemma run_ops_tx_ok (ops : list tx_op) (d : DB) :
  Forall op_args_ok ops -> tx_ok (view d) -> tx_ok (view (run_ops ops d)).
Proof.
  unfold run_ops. intros Ha. revert d. induction Ha as [|o ops Ho _ IH]; intros d Hd; [done|].
  simpl. apply IH. eapply row_effects_ok; [|apply op_effects|done]. by apply op_effect_safe.
Qed.

(** C1: starting from an empty store, after any sequence of transaction
    operations and single-row steps, in any interleaving and with any
    engine failures, the four secondary indexes hold exactly the entries
    the stored rows call for, and every row is stored under its own txid. *)
Theorem tx_index_invariant (ops : list tx_op) (d : DB) :
  Forall op_args_ok ops -> view d = ∅ -> tx_ok (view (run_ops ops d)).
Proof. intros Ha Hd. apply run_ops_tx_ok; [done|]. rewrite Hd. apply tx_ok_empty. Qed.

(** *** Rows through an operation *)

(** What may happen to the row of one txid: it stays, or an operation that
    may create it does, or it is rewritten by the operation's own rule. *)
Definition row_change (o : tx_op) (r r' : option payload) : Prop :=
  r' = r ∨ (r = None ∧ ∃ u, op_create o u ∧ r' = Some (PStatus u)) ∨
  ∃ e u, r = Some (PStatus e) ∧ op_rw o e u ∧ r' = Some (PStatus u).

Lemma row_effect_change o m m' t :
  row_effect (op_create o) (op_rw o) m m' -> row_change o (m !! txKey t) (m' !! txKey t).
Proof.
  unfold row_change. intros [|t' u Hn Ht Hc|t' e u He Hrw Ht|t' e u He Hrw Hk Ht].
  - by left.
  - rewrite newBatch_row. case_decide; [subst; eauto 10|by left].
  - rewrite rewriteBatch_row. case_decide; [subst; eauto 10|by left].
  - destruct (decide (t = t')) as [->|Hne]; [rewrite lookup_insert_eq; eauto 10|].
    left. rewrite lookup_insert_ne; [done|]. by intros ?%txKey_inj.
Qed.

Definition creates (o : tx_op) : bool := match o with OpInsert _ _ _ => true | _ => false end.

(** No operation other than [GetOrInsertStatus] creates a transaction
    row, and none deletes one: a callback, a mined block or a retry naming
    an unknown txid leaves no phantom row behind. *)
Theorem no_phantom_rows (o : tx_op) (d : DB) (t : string) :
  (is_Some (view d !! txKey t) -> is_Some (view (run_op o d) !! txKey t)) ∧
  (creates o = false -> is_Some (view (run_op o d) !! txKey t) -> is_Some (view d !! txKey t)).
Proof.
  pose proof (op_effects o d) as He. revert He.
  generalize (view d), (view (run_op o d)). intros m m' He.
  induction He as [m|m m1 m' He _ [IH1 IH2]]; [done|].
  destruct (row_effect_change o m m1 t He) as [Eq|[(Hn & u & Hc & Eq)|(e & u & Eq & Hrw & Eq')]].
  - rewrite Eq in IH1, IH2. done.
  - split; [by rewrite Hn; intros []|]. intros Ho. by destruct o.
  - split; intros; rewrite ?Eq in *; eauto.
Qed.

(** The operations whose requested status goes through the lattice guard or
    skips IMMUTABLE rows, with a known status. *)
Definition guarded (o : tx_op) : Prop :=
  match o with
  | OpClear _ _ _ _ _ => False
  | OpUpdate _ st => ts_Status st = "" ∨ ts_Status st ∈ AllStatuses
  | _ => True
  end.

Lemma guarded_rw_immutable o e u :
  guarded o -> op_rw o e u -> ss_Status e = StatusImmutable -> ss_Status u = StatusImmutable.
Proof.
  assert (∀ s, s ∈ AllStatuses -> CanTransitionFrom s StatusImmutable = true -> s = StatusImmutable)
    as Hsink.
  { intros s Hs Hc. apply (mined_is_final_step s Hs Hc). }
  destruct o as [| |??? ?|? ???| | | | | | |]; simpl; try done.
  - intros Hg (-> & Hc) Hi. simpl. destruct (String.eqb_spec (ts_Status st) ""); [done|].
    destruct Hg as [|Hg]; [done|]. destruct Hc as [|Hc]; [done|].
    rewrite Hi in Hc. auto.
  - by intros _ (-> & _ & Hne).
  - by intros _ (-> & _ & Hne).
  - by intros _ ->.
  - intros _ (-> & Hc) Hi. rewrite Hi in Hc. by vm_compute in Hc.
  - intros _ (-> & Hc) Hi. rewrite Hi in Hc. by vm_compute in Hc.
  - intros _ (-> & Hc) Hi. rewrite Hi in Hc. by vm_compute in Hc.
  - by intros _ ->.
  - by intros _ ->.
Qed.

(** C10: an IMMUTABLE row stays IMMUTABLE through any sequence of operations
    other than [ClearRetryState]: updates and parkings are stopped by the
    lattice, re-mining skips it, and block-scoped rewrites skip it. *)
Theorem immutable_rows_stay (ops : list tx_op) (d : DB) (t : string) (st : storedStatus) :
  Forall guarded ops ->
  view d !! txKey t = Some (PStatus st) -> ss_Status st = StatusImmutable ->
  ∃ st', view (run_ops ops d) !! txKey t = Some (PStatus st') ∧ ss_Status st' = StatusImmutable.
Proof.
  unfold run_ops. intros Hg. revert d st. induction Hg as [|o ops Ho _ IH]; intros d st Hl Hi; [eauto|].
  simpl. assert (∃ st', view (run_op o d) !! txKey t = Some (PStatus st') ∧
    ss_Status st' = StatusImmutable) as (st' & Hl' & Hi'); [|by eapply IH].
  pose proof (op_effects o d) as He. revert st Hl Hi He.
  generalize (view d), (view (run_op o d)). intros m m' st Hl Hi He. revert st Hl Hi.
  induction He as [m|m m1 m' He _ IHe]; intros st Hl Hi; [eauto|].
  destruct (row_effect_change o m m1 t He) as [Eq|[(Hn & _)|(e & u & Eq & Hrw & Eq')]].
  - rewrite <-Eq in Hl. by eapply IHe.
  - congruence.
  - rewrite Hl in Eq. injection Eq as <-. eapply IHe; [done|]. by eapply guarded_rw_immutable.
Qed.

(** *** Results on a reliable engine *)
Section Reliable.
Context `{!EngineReliable DB}.

Lemma readStoredStatus_total d t :
  tx_ok (view d) ->
  readStoredStatus d t = Ok (match view d !! txKey t with Some (PStatus e) => Some e | _ => None end).
Proof.
  intros Hok. unfold readStoredStatus. rewrite get_total.
  destruct (view d !! txKey t) as [v|] eqn:E; [|done].
  destruct (tx_rows _ Hok _ _ E) as (st & -> & _). done.
Qed.

Lemma readStatus_total d t :
  tx_ok (view d) ->
  readStatus d t = Ok (match view d !! txKey t with
                       | Some (PStatus e) => Some (storedStatus_toModel e) | _ => None end).
Proof.
  intros Hok. unfold readStatus. rewrite get_total.
  destruct (view d !! txKey t) as [v|] eqn:E; [|done].
  destruct (tx_rows _ Hok _ _ E) as (st & -> & _). done.
Qed.

Lemma rewriteRow_total {A} d t e u (r : A) :
  ∃ d', rewriteRow d t e u r = (Ok r, d') ∧ view d' = apply_batch (view d) (rewriteBatch t e u).
Proof.
  unfold rewriteRow, commitTo, rewriteBatch. destruct (commit_total d
    (removeStatusIndexes e ++ [BSet (txKey t) (PStatus u)] ++ addStatusIndexes u)) as [d' E].
  rewrite E. eexists. split; [done|]. by apply commit_sound in E.
Qed.

(** What a partial update leaves: a field the update sets ([b]) has the
    update's value, any other keeps the stored one. *)
Definition overlay {A} (b : bool) (upd old new : A) : Prop := new = if b then upd else old.

Record merged (e : storedStatus) (u : TransactionStatus) (r : storedStatus) : Prop := {
  mg_txid : ss_TxID r = ts_TxID u;
  mg_status : overlay (negb (String.eqb (ts_Status u) "")) (ts_Status u) (ss_Status e) (ss_Status r);
  mg_code : overlay (negb (ts_StatusCode u =? 0)%Z) (ts_StatusCode u) (ss_StatusCode e) (ss_StatusCode r);
  mg_hash : overlay (negb (String.eqb (ts_BlockHash u) "")) (ts_BlockHash u) (ss_BlockHash e) (ss_BlockHash r);
  mg_height : overlay (0 <? ts_BlockHeight u)%Z (ts_BlockHeight u) (ss_BlockHeight e) (ss_BlockHeight r);
  mg_path : overlay (0 <? length (ts_MerklePath u))%nat (ts_MerklePath u) (ss_MerklePath e) (ss_MerklePath r);
  mg_extra : overlay (negb (String.eqb (ts_ExtraInfo u) "")) (ts_ExtraInfo u) (ss_ExtraInfo e) (ss_ExtraInfo r);
  mg_compete : overlay (0 <? length (ts_CompetingTxs u))%nat (ts_CompetingTxs u) (ss_CompetingTxs e) (ss_CompetingTxs r);
  mg_raw : overlay (0 <? length (ts_RawTx u))%nat (ts_RawTx u) (ss_RawTx e) (ss_RawTx r);
  mg_retry : overlay (0 <? ts_RetryCount u)%Z (ts_RetryCount u) (ss_RetryCount e) (ss_RetryCount r);
  mg_time : overlay (negb (IsZero (ts_Timestamp u))) (UnixNano (ts_Timestamp u)) (ss_TimestampUnixNs e) (ss_TimestampUnixNs r);
  mg_created : overlay (negb (IsZero (ts_CreatedAt u))) (UnixNano (ts_CreatedAt u)) (ss_CreatedUnixNs e) (ss_CreatedUnixNs r);
  mg_next : overlay (negb (IsZero (ts_NextRetryAt u))) (UnixNano (ts_NextRetryAt u)) (ss_NextRetryUnixNs e) (ss_NextRetryUnixNs r);
  mg_merkle : overlay (negb (IsZero (ts_MerkleRegisteredAt u))) (UnixNano (ts_MerkleRegisteredAt u))
                (ss_MerkleRegisteredUnixNs e) (ss_MerkleRegisteredUnixNs r);
  mg_reason : ss_RetryReason r = ss_RetryReason e;
  mg_anchors : ss_OrphanedAnchors r = ss_OrphanedAnchors e
}.

Lemma mergeStatus_merged e u : merged e u (mergeStatus (Some e) u).
Proof.
  split; unfold overlay, mergeStatus; cbn [ss_TxID ss_Status ss_StatusCode ss_BlockHash ss_BlockHeight ss_MerklePath
    ss_ExtraInfo ss_CompetingTxs ss_RawTx ss_RetryCount ss_TimestampUnixNs ss_CreatedUnixNs ss_NextRetryUnixNs
    ss_RetryReason ss_MerkleRegisteredUnixNs ss_OrphanedAnchors];
  repeat (done || case_match); done.
Qed.

Lemma mergeStatus_idem e u : mergeStatus (Some (mergeStatus (Some e) u)) u = mergeStatus (Some e) u.
Proof.
  unfold mergeStatus; cbn [ss_TxID ss_Status ss_StatusCode ss_BlockHash ss_BlockHeight ss_MerklePath
    ss_ExtraInfo ss_CompetingTxs ss_RawTx ss_RetryCount ss_TimestampUnixNs ss_CreatedUnixNs ss_NextRetryUnixNs
    ss_RetryReason ss_MerkleRegisteredUnixNs ss_OrphanedAnchors].
  f_equal; by case_match.
Qed.

(** [UpdateStatusReturning] on every branch: an unknown txid is
    [ErrNotFound] and writes nothing; a transition the lattice refuses
    returns the durable row as [Current] and writes nothing; an accepted
    one returns the row it replaced as [Prev], overlays the fields the update
    sets on the stored row, keeps every other field, touches no other
    transaction, and merging the same update again would change nothing. *)
Theorem UpdateStatusReturning_spec (c : Ctx) (st : TransactionStatus) (d : DB) :
  ctx_err c = false -> tx_ok (view d) ->
  match view d !! txKey (ts_TxID st) with
  | Some (PStatus e) =>
      if negb (String.eqb (ts_Status st) "") && negb (CanTransitionFrom (ts_Status st) (ss_Status e))
      then UpdateStatusReturning c st d
           = (Ok (mkStatusUpdate None (Some (storedStatus_toModel e))), d)
      else ∃ d' row, UpdateStatusReturning c st d
             = (Ok (mkStatusUpdate (Some (storedStatus_toModel e)) None), d') ∧
           merged e st row ∧ mergeStatus (Some row) st = row ∧
           ∀ t, view d' !! txKey t = if decide (t = ts_TxID st)
                  then Some (PStatus row) else view d !! txKey t
  | _ => UpdateStatusReturning c st d = (Err ErrNotFound, d)
  end.
Proof.
  intros Hc Hok. unfold UpdateStatusReturning. rewrite Hc, readStoredStatus_total by done.
  destruct (view d !! txKey (ts_TxID st)) as [v|] eqn:E; [|done].
  destruct (tx_rows _ Hok _ _ E) as (e & -> & Ht & _).
  case_match; [done|]. destruct (rewriteRow_total d (ts_TxID st) e (mergeStatus (Some e) st)
    (mkStatusUpdate (Some (storedStatus_toModel e)) None)) as (d' & -> & Hv).
  exists d', (mergeStatus (Some e) st). split; [done|]. split; [apply mergeStatus_merged|].
  split; [apply mergeStatus_idem|]. intros t. rewrite Hv. apply rewriteBatch_row.
Qed.

(** Mining one row, as a function of what is stored. *)
Definition mine (now : Z) (bh : string) (h : Z) (r : option payload) : option payload :=
  match r with
  | Some (PStatus e) =>
      if CanTransitionFrom StatusMined (ss_Status e) then Some (PStatus (minedRow e now bh h)) else r
  | _ => r
  end.
Definition minable (r : option payload) : bool :=
  match r with Some (PStatus e) => CanTransitionFrom StatusMined (ss_Status e) | _ => false end.

(** The fields no move between blocks touches. *)
Definition same_body (e r : storedStatus) : Prop :=
  ss_TxID r = ss_TxID e ∧ ss_StatusCode r = ss_StatusCode e ∧ ss_MerklePath r = ss_MerklePath e ∧
  ss_ExtraInfo r = ss_ExtraInfo e ∧ ss_CompetingTxs r = ss_CompetingTxs e ∧ ss_RawTx r = ss_RawTx e ∧
  ss_RetryCount r = ss_RetryCount e ∧ ss_CreatedUnixNs r = ss_CreatedUnixNs e ∧
  ss_NextRetryUnixNs r = ss_NextRetryUnixNs e ∧ ss_RetryReason r = ss_RetryReason e ∧
  ss_MerkleRegisteredUnixNs r = ss_MerkleRegisteredUnixNs e.

(** The anchor [e] had is the newest entry of the history of [r]. *)
Definition remembers (e r : storedStatus) : Prop :=
  ∃ a, last (ss_OrphanedAnchors r) = Some a ∧ so_BlockHash a = ss_BlockHash e.

Lemma appendOrphanedAnchor_last e now :
  ss_BlockHash e ≠ "" ->
  ∃ a, last (appendOrphanedAnchor e now) = Some a ∧ so_BlockHash a = ss_BlockHash e.
Proof.
  intros Hne. unfold appendOrphanedAnchor. rewrite (proj2 (String.eqb_neq _ _) Hne).
  destruct (last (ss_OrphanedAnchors e)) as [b|] eqn:El; [destruct (String.eqb_spec (so_BlockHash b) (ss_BlockHash e))|];
    [eauto|rewrite Rows.capHistory_last; by eexists..].
Qed.

(** What mining leaves of a row: a transaction that was MINED in another
    block keeps that anchor in its history, any other keeps its history. *)
Definition mined_from (e : storedStatus) (now : Z) (bh : string) (h : Z) (r : storedStatus) : Prop :=
  ss_Status r = StatusMined ∧ ss_BlockHash r = bh ∧ ss_BlockHeight r = h ∧ ss_TimestampUnixNs r = now ∧
  same_body e r ∧
  if decide (ss_Status e = StatusMined ∧ ss_BlockHash e ≠ bh ∧ ss_BlockHash e ≠ "") then remembers e r
  else ss_OrphanedAnchors r = ss_OrphanedAnchors e.

Lemma minedRow_from e now bh h : mined_from e now bh h (minedRow e now bh h).
Proof.
  unfold mined_from, minedRow, same_body, remembers. cbn. split_and!; try done.
  destruct (String.eqb_spec (ss_Status e) StatusMined), (String.eqb_spec (ss_BlockHash e) bh);
    cbn [andb negb]; case_decide as Hd; try tauto; try (apply appendOrphanedAnchor_last; tauto).
  unfold appendOrphanedAnchor. destruct (String.eqb_spec (ss_BlockHash e) ""); [done|tauto].
Qed.

Lemma mine_idem now bh h r : mine now bh h (mine now bh h r) = mine now bh h r.
Proof.
  destruct r as [[]|]; simpl; try done. destruct (CanTransitionFrom _ _) eqn:Ec; simpl; [|by rewrite Ec].
  unfold minedRow; simpl. by rewrite String.eqb_refl.
Qed.

Lemma minable_mine now bh h r : minable (mine now bh h r) = minable r.
Proof.
  destruct r as [[]|]; simpl; try done. destruct (CanTransitionFrom _ _) eqn:Ec; simpl; [done|by rewrite Ec].
Qed.

Lemma setMinedStep_total now bh h t d :
  tx_ok (view d) -> no_colon bh = true ->
  ∃ r d', setMinedStep now bh h t d = (Ok r, d') ∧ tx_ok (view d') ∧
    (r = None ↔ minable (view d !! txKey t) = false) ∧
    (∀ t', view d' !! txKey t' = if decide (t' = t) then mine now bh h (view d !! txKey t')
                                 else view d !! txKey t').
Proof.
  intros Hok Hbh.
  assert (tx_ok (view (setMinedStep now bh h t d).2)) as Hok'.
  { eapply (run_ops_tx_ok [OpMinedRow now bh h t]); [by repeat constructor|done]. }
  revert Hok'. unfold setMinedStep. rewrite readStoredStatus_total by done.
  destruct (view d !! txKey t) as [v|] eqn:E.
  - destruct (tx_rows _ Hok _ _ E) as (e & -> & Ht & _). simpl.
    destruct (CanTransitionFrom _ _) eqn:Ec; simpl.
    + destruct (rewriteRow_total d t e (minedRow e now bh h) (Some (storedStatus_toModel e)))
        as (d' & -> & Hv). intros Hok'. do 2 eexists. split_and!; [done|done|done|].
      intros t'. rewrite Hv, rewriteBatch_row. case_decide; [|done]. subst t'. rewrite E. simpl.
      by rewrite Ec.
    + intros _. do 2 eexists. split_and!; [done|done|done|]. intros t'. case_decide; [|done].
      subst t'. rewrite E. simpl. by rewrite Ec.
  - intros _. do 2 eexists. split_and!; [done|done|done|]. intros t'. case_decide; [|done].
    subst t'. by rewrite E.
Qed.

Lemma setMinedLoop_total now bh h ps out txids d :
  tx_ok (view d) -> no_colon bh = true -> length ps = length out ->
  ∃ ps' d', setMinedLoop None now bh h ps out txids d
    = (ps', out ++ (minedResult now bh h <$> List.filter (fun t => minable (view d !! txKey t)) txids),
       None, d') ∧
    length ps' = (length out + length (List.filter (fun t => minable (view d !! txKey t)) txids))%nat ∧
    (∀ t, view d' !! txKey t = if decide (t ∈ txids) then mine now bh h (view d !! txKey t)
                               else view d !! txKey t).
Proof.
  intros Hok Hbh. revert ps out d Hok. induction txids as [|x txids IH]; intros ps out d Hok Hlen.
  { simpl. exists ps, d. rewrite app_nil_r. split_and!; [done|lia|]. intros t.
    done. }
  cbn [setMinedLoop ctx_err ctx_tick List.filter].
  destruct (setMinedStep_total now bh h x d Hok Hbh) as (r & d1 & -> & Hok1 & Hr & Hv).
  assert (List.filter (fun t => minable (view d1 !! txKey t)) txids
          = List.filter (fun t => minable (view d !! txKey t)) txids) as Hf.
  { apply List.filter_ext. intros t. rewrite Hv. case_decide; [by rewrite minable_mine|done]. }
  assert (∀ t, (if decide (t ∈ txids) then mine now bh h (view d1 !! txKey t) else view d1 !! txKey t)
    = if decide (t ∈ x :: txids) then mine now bh h (view d !! txKey t) else view d !! txKey t) as Hrows.
  { intros t. rewrite Hv. destruct (decide (t = x)) as [->|].
    - rewrite (decide_True (P := x ∈ x :: txids)) by set_solver.
      case_decide; [apply mine_idem|done].
    - destruct (decide (t ∈ txids)), (decide (t ∈ x :: txids)); set_solver. }
  destruct r as [p|].
  - destruct (minable (view d !! txKey x)) eqn:Em; [|discriminate (proj2 Hr eq_refl)].
    destruct (IH (ps ++ [p]) (out ++ [minedResult now bh h x]) d1 Hok1) as (ps' & d' & -> & Hl & Hv').
    { rewrite !length_app. simpl. lia. }
    exists ps', d'. rewrite Hf in *. split_and!.
    + by rewrite <-app_assoc.
    + rewrite Hl, length_app. simpl. lia.
    + intros t. rewrite Hv'. apply Hrows.
  - rewrite (proj1 Hr eq_refl). destruct (IH ps out d1 Hok1 Hlen) as (ps' & d' & -> & Hl & Hv').
    exists ps', d'. rewrite Hf in *. split_and!; [done|done|]. intros t. rewrite Hv'. apply Hrows.
Qed.

(** Marking a block mined, for any list of txids, repeats included:
    every known transaction of the list that is not IMMUTABLE becomes
    MINED at that block and height, with its other fields kept and, if it was
    MINED in another block, that anchor as the newest of its history;
    everything else is untouched, unknown txids create nothing, and the two
    returned slices are parallel and list the updated txids in input order
    with the block's identity. *)
Theorem SetMinedByTxIDs_spec (now : Z) (bh : string) (h : Z) (txids : list string) (d : DB) :
  tx_ok (view d) -> no_colon bh = true ->
  let updated := List.filter (fun t => minable (view d !! txKey t)) txids in
  ∃ prevs d', SetMinedByTxIDs background now bh h txids d
    = (prevs, minedResult now bh h <$> updated, None, d') ∧
  length prevs = length updated ∧
  (∀ t e, t ∈ updated -> view d !! txKey t = Some (PStatus e) ->
     ∃ r, view d' !! txKey t = Some (PStatus r) ∧ mined_from e now bh h r) ∧
  ∀ t, t ∉ updated -> view d' !! txKey t = view d !! txKey t.
Proof.
  intros Hok Hbh. unfold SetMinedByTxIDs.
  destruct (setMinedLoop_total now bh h [] [] txids d Hok Hbh eq_refl) as (ps & d' & E & Hl & Hv).
  exists ps, d'. unfold background. cbn [ctx_err ctx_tick]. rewrite E. split; [done|]. split; [done|].
  assert (∀ t, t ∈ List.filter (fun t => minable (view d !! txKey t)) txids ↔
            t ∈ txids ∧ minable (view d !! txKey t) = true) as Hup
    by (intros t; by rewrite !list_elem_of_In, List.filter_In). split.
  - intros t e [Ht Hm]%Hup Hrow. rewrite Hv, decide_True by done. rewrite Hrow in Hm |- *. simpl in *. rewrite Hm.
    eexists. split; [done|apply minedRow_from].
  - intros t Hn. rewrite Hv. case_decide; [|done]. rewrite Hup in Hn. unfold mine, minable in *.
    destruct (view d !! txKey t) as [[]|]; try done. case_match; [tauto|done].
Qed.
End Reliable.
End Props.

(** ** Concrete runs *)
Section Witnesses.
Definition wRow (t : string) (s : Status) (bh : string) (h : Z) : TransactionStatus :=
  mkTransactionStatus t s 0 (Some 5%Z) [] bh h [] "" [] [] 0 None None [] None.

Definition wDB : MemDB :=
  run_ops [OpInsert background 10 (wRow "aa" "" "" 0);
           OpInsert background 11 (wRow "bb" StatusImmutable "b0" 100)] (∅ : MemDB).

Lemma tx_index_invariant_witness :
  tx_ok (view (run_ops [OpInsert background 10 (wRow "aa" "" "" 0);
                        OpMined background 20 "b1" 101 ["aa"; "zz"];
                        OpBlock background 30 "b1" StatusSeenOnNetwork] (∅ : MemDB))).
Proof.
  apply (tx_index_invariant (DB := MemDB)); [repeat constructor|reflexivity].
Defined.

Lemma wDB_ok : tx_ok (view wDB).
Proof. apply (run_ops_tx_ok (DB := MemDB)); [repeat constructor|apply tx_ok_empty]. Qed.

Lemma no_phantom_rows_witness :
  is_Some (view (run_op (OpUpdate background (wRow "zz" StatusMined "b1" 101)) wDB) !! txKey "aa").
Proof.
  refine (proj1 (no_phantom_rows (DB := MemDB)
    (OpUpdate background (wRow "zz" StatusMined "b1" 101)) wDB "aa") _).
  apply (bool_decide_unpack _). vm_compute. exact I.
Defined.

Lemma immutable_rows_stay_witness :
  ∃ st', view (run_ops [OpMined background 20 "b1" 101 ["bb"];
                        OpUpdate background (wRow "bb" StatusRejected "" 0);
                        OpBlock background 30 "b0" StatusSeenOnNetwork] wDB) !! txKey "bb"
         = Some (PStatus st') ∧ ss_Status st' = StatusImmutable.
Proof.
  eapply (immutable_rows_stay (DB := MemDB)); [|vm_compute; reflexivity|reflexivity].
  constructor; [exact I|]. constructor; [|constructor; [exact I|constructor]].
  right. apply status_in_spec. vm_compute. reflexivity.
Defined.

Definition wSeen : TransactionStatus := wRow "aa" StatusSeenOnNetwork "" 0.
Definition wPrev : storedStatus := fromModel (insertDefaults 10 (wRow "aa" "" "" 0)).

Lemma wDB_aa : view wDB !! txKey (ts_TxID wSeen) = Some (PStatus wPrev).
Proof. vm_compute. reflexivity. Qed.

Lemma UpdateStatusReturning_spec_witness :
  ∃ d', UpdateStatusReturning background wSeen wDB
    = (Ok (mkStatusUpdate (Some (storedStatus_toModel wPrev)) None), d') ∧
    view d' !! txKey "bb" = view wDB !! txKey "bb".
Proof.
  pose proof (UpdateStatusReturning_spec (DB := MemDB) background wSeen wDB eq_refl wDB_ok) as Hs.
  rewrite wDB_aa in Hs. destruct Hs as (d' & row & E & _ & _ & Hv). exists d'. split; [exact E|]. apply (Hv "bb").
Defined.

Lemma SetMinedByTxIDs_spec_witness :
  ∃ prevs d', SetMinedByTxIDs background 20 "b1" 101 ["aa"; "zz"; "bb"] wDB
    = (prevs, [minedResult 20 "b1" 101 "aa"], None, d') ∧ length prevs = 1%nat.
Proof.
  destruct (SetMinedByTxIDs_spec (DB := MemDB) 20 "b1" 101 ["aa"; "zz"; "bb"] wDB wDB_ok eq_refl)
    as (prevs & d' & E & Hl & _).
  exists prevs, d'. split; [exact E|exact Hl].
Defined.

(** [ClearRetryState] writes its final status without consulting the
    lattice: it moves an IMMUTABLE row to REJECTED, a transition that
    [CanTransitionFrom] forbids and that every other writer refuses. *)
Theorem ClearRetryState_bypasses_lattice :
  CanTransitionFrom StatusRejected StatusImmutable = false ∧
  ∃ st, view (ClearRetryState background 40 "bb" StatusRejected "gave up" wDB).2 !! txKey "bb"
        = Some (PStatus st) ∧ ss_Status st = StatusRejected.
Proof. split; [reflexivity|]. eexists. split; vm_compute; reflexivity. Qed.
End Witnesses.
