(* ===== verification/PebbleTxQueries.v ===== *)
(** * PebbleTxQueries: what the transaction reads and block rewrites return

    Exactness of the index-driven operations on a store that satisfies
    [tx_ok]: the block-scoped reads and rewrites, the retry queue, tracker
    hydration, and first-writer-wins insertion.  The theorems that promise a
    result are under [EngineReliable]. *)
From stdpp Require Import base gmap strings list sorting relations.
From Stdlib Require Import ZArith Lia.
From Stdlib Require Import Strings.Byte.
From S2P Require Import Prelude Models StoreCore Keys Engine PebbleTx PebbleTxInv PebbleTxProps.

(** ** Index keys of one family *)

Lemma block_key_prefix bh st k :
  row_ok st -> no_colon bh = true -> k ∈ status_keys st ->
  has_prefix (idxTxBlockPrefix bh) k = true ↔
  ss_BlockHash st = bh ∧ ss_BlockHash st ≠ "" ∧ k = idxTxBlockKey bh (ss_TxID st).
Proof.
  intros (Ht & Hb & Hs) Hbh Hk. split.
  - intros [r Hr]%has_prefix_spec. revert Hr.
    apply status_keys_elem in Hk as [->|[(Hne & ->)|[(_ & _ & ->)|(_ & ->)]]]; intros Hr.
    + unfold idxTxBlockPrefix in Hr. rewrite string_app_assoc in Hr. by keys_differ.
    + unfold idxTxBlockPrefix, idxTxBlockKey in *. rewrite !string_app_assoc in Hr.
      apply string_app_inj_l in Hr.
      apply colon_split in Hr as [<- _]; [by split_and!| |]; by apply Is_true_true.
    + unfold idxTxBlockPrefix in Hr. rewrite string_app_assoc in Hr. by keys_differ.
    + unfold idxTxBlockPrefix in Hr. rewrite string_app_assoc in Hr. by keys_differ.
  - intros (<- & _ & ->). unfold idxTxBlockKey, idxTxBlockPrefix.
    apply has_prefix_spec. exists (ss_TxID st). by rewrite !string_app_assoc.
Qed.

Lemma status_key_prefix s st k :
  row_ok st -> no_colon s = true -> k ∈ status_keys st ->
  has_prefix (idxTxStatusPrefix s) k = true ↔ ss_Status st = s ∧ k = idxTxStatusKey s (ss_TxID st).
Proof.
  intros (Ht & Hb & Hs) Hns Hk. split.
  - intros [r Hr]%has_prefix_spec. revert Hr.
    apply status_keys_elem in Hk as [->|[(Hne & ->)|[(_ & _ & ->)|(_ & ->)]]]; intros Hr.
    + unfold idxTxStatusPrefix, idxTxStatusKey in *. rewrite !string_app_assoc in Hr.
      apply string_app_inj_l in Hr.
      apply colon_split in Hr as [<- _]; [by split_and!| |]; by apply Is_true_true.
    + unfold idxTxStatusPrefix in Hr. rewrite string_app_assoc in Hr. by keys_differ.
    + unfold idxTxStatusPrefix in Hr. rewrite string_app_assoc in Hr. by keys_differ.
    + unfold idxTxStatusPrefix in Hr. rewrite string_app_assoc in Hr. by keys_differ.
  - intros (<- & ->). unfold idxTxStatusKey, idxTxStatusPrefix.
    apply has_prefix_spec. exists (ss_TxID st). by rewrite !string_app_assoc.
Qed.

Lemma block_prefix_idx bh k :
  has_prefix (idxTxBlockPrefix bh) k = true -> has_prefix idx_tx_prefix k = true.
Proof. by intros [r ->]%has_prefix_spec. Qed.

Lemma status_prefix_idx s k :
  has_prefix (idxTxStatusPrefix s) k = true -> has_prefix idx_tx_prefix k = true.
Proof. by intros [r ->]%has_prefix_spec. Qed.

(** The txids a block scan reads off its keys. *)
Lemma block_scan m bh l :
  tx_ok m -> no_colon bh = true -> bh ≠ "" ->
  scan_of m (idxTxBlockPrefix bh) (endOfPrefix (idxTxBlockPrefix bh)) l ->
  NoDup (lastSegment <$> l.*1) ∧
  ∀ t, t ∈ (lastSegment <$> l.*1) ↔ ∃ e, m !! txKey t = Some (PStatus e) ∧ ss_BlockHash e = bh.
Proof.
  intros Hok Hbh Hne Hs.
  assert (∀ k, k ∈ l.*1 ↔ ∃ t e, m !! txKey t = Some (PStatus e) ∧ ss_BlockHash e = bh ∧
    k = idxTxBlockKey bh t ∧ no_colon t = true) as Hk.
  { intros k. rewrite (prefix_scan_key _ _ _ _ Hs). split.
    - intros [Hl Hp]. apply (tx_idx _ Hok) in Hl as (t & e & He & Hin); [|by eapply block_prefix_idx].
      destruct (tx_row _ _ _ Hok He) as [<- Hro].
      apply (block_key_prefix _ _ _ Hro Hbh Hin) in Hp as (? & _ & ->). destruct Hro as (? & _). eauto 10.
    - intros (t & e & He & Eb & -> & _). destruct (tx_row _ _ _ Hok He) as [Et Hro].
      assert (idxTxBlockKey bh t ∈ status_keys e) as Hin.
      { apply status_keys_elem. right; left. split; congruence. }
      split; [|apply (block_key_prefix _ _ _ Hro Hbh Hin); split_and!; congruence].
      apply (tx_idx _ Hok); [|eauto]. done. }
  split.
  - apply (NoDup_fmap_2_strong lastSegment); [|by eapply scan_nodup].
    intros x y (t & _ & _ & _ & -> & Ht)%Hk (t' & _ & _ & _ & -> & Ht')%Hk.
    autorewrite with keys. by intros ->.
  - intros t. rewrite list_elem_of_fmap. split.
    + intros (k & -> & (t' & e & He & Eb & -> & Ht')%Hk). autorewrite with keys. eauto.
    + intros (e & He & Eb). destruct (tx_row _ _ _ Hok He) as [Et (Ht & _)].
      rewrite Et in Ht. exists (idxTxBlockKey bh t). split; [by autorewrite with keys|].
      apply Hk. eauto 10.
Qed.

(** ** The retry queue *)

Lemma sdrop_app a b : sdrop (String.length a) (a +:+ b) = b.
Proof. induction a as [|c a IH]; [by destruct b|]. done. Qed.

Lemma stake_app a b : stake (String.length a) (a +:+ b) = a.
Proof. induction a as [|c a IH]; [by destruct b|]. simpl. by rewrite IH. Qed.

Lemma get_app a c b : String.get (String.length a) (a +:+ String c b) = Some c.
Proof. induction a as [|x a IH]; [done|]. done. Qed.

Lemma retry_key_prefix st k :
  k ∈ status_keys st -> has_prefix idxTxRetryReadyPrefix k = true ->
  ss_Status st = StatusPendingRetry ∧ ss_NextRetryUnixNs st ≠ 0%Z ∧
  k = idxTxRetryReadyKey (ss_NextRetryUnixNs st) (ss_TxID st).
Proof.
  intros Hk [r Hr]%has_prefix_spec.
  apply status_keys_elem in Hk as [->|[(Hne & ->)|[(? & ? & ->)|(_ & ->)]]]; try done;
    unfold idxTxRetryReadyPrefix in Hr; by keys_differ.
Qed.

Lemma Forall_choose {A B} (P : A -> B -> Prop) (l : list A) :
  Forall (fun a => ∃ b, P a b) l -> ∃ l', Forall2 P l l'.
Proof.
  induction 1 as [|a l [b Hb] _ [l' IH]]; [exists []; constructor|]. exists (b :: l'). by constructor.
Qed.

(** The rows an index walk in due order yields before the first future one. *)
Fixpoint dueRows (now : Z) (es : list storedStatus) : list storedStatus :=
  match es with
  | [] => []
  | e :: es' => if (now <? ss_NextRetryUnixNs e)%Z then [] else e :: dueRows now es'
  end.

Definition hasRaw (e : storedStatus) : Prop := ss_RawTx e ≠ [].
#[export] Instance hasRaw_dec e : Decision (hasRaw e).
Proof. unfold hasRaw. destruct (ss_RawTx e); [right; tauto|by left]. Defined.

Definition retryOf (e : storedStatus) : PendingRetry :=
  mkPendingRetry (ss_TxID e) (ss_RawTx e) (ss_RetryCount e) (Some (ss_NextRetryUnixNs e)) (ss_RetryReason e).

Definition nextLe (a b : storedStatus) : Prop := (ss_NextRetryUnixNs a <= ss_NextRetryUnixNs b)%Z.

Lemma dueRows_elem now es e :
  StronglySorted nextLe es -> e ∈ dueRows now es ↔ e ∈ es ∧ (ss_NextRetryUnixNs e <= now)%Z.
Proof.
  induction 1 as [|x es _ IH Hf]; [set_solver|]. cbn [dueRows]. rewrite Forall_forall in Hf.
  destruct (Z.ltb_spec now (ss_NextRetryUnixNs x)).
  - split; [set_solver|]. intros [[->|Hin]%elem_of_cons Hle]; [lia|].
    specialize (Hf e Hin). unfold nextLe in Hf. lia.
  - rewrite !elem_of_cons, IH. split; [|naive_solver]. intros [->|]; [|naive_solver]. auto with lia.
Qed.

Lemma dueRows_sublist now es : dueRows now es `sublist_of` es.
Proof.
  induction es as [|e es IH]; [constructor|]. cbn [dueRows].
  destruct (_ <? _)%Z; [apply sublist_nil_l|by constructor].
Qed.

Lemma StronglySorted_sublist {A} (R : A -> A -> Prop) l k :
  l `sublist_of` k -> StronglySorted R k -> StronglySorted R l.
Proof.
  intros Hs. induction Hs as [|x l k Hs IH|x l k Hs IH]; intros Hk; [done| |];
    apply StronglySorted_inv in Hk as [Hk Hf]; [|auto].
  constructor; [auto|]. rewrite Forall_forall in *. intros y Hy. apply Hf.
  by eapply elem_of_sublist.
Qed.

Lemma keysLoop_background acc l :
  keysLoop None acc l = (acc ++ (lastSegment <$> l.*1), None, None).
Proof.
  revert acc. induction l as [|[k v] l IH]; intros acc; cbn [keysLoop ctx_err ctx_tick].
  - by rewrite app_nil_r.
  - rewrite IH. by rewrite <-app_assoc.
Qed.

Section Queries.
Context {DB : Type} `{EngineReliable DB}.

(** ** Block-scoped reads and rewrites *)

(** Every txid currently anchored to the block, each once. *)
Lemma GetTxIDsByBlockHash_exact (bh : string) (d : DB) :
  tx_ok (view d) -> no_colon bh = true -> bh ≠ "" ->
  ∃ txids, GetTxIDsByBlockHash background bh d = (txids, None) ∧ NoDup txids ∧
  ∀ t, t ∈ txids ↔ ∃ e, view d !! txKey t = Some (PStatus e) ∧ ss_BlockHash e = bh.
Proof.
  intros Hok Hbh Hne. unfold GetTxIDsByBlockHash, background. cbn [ctx_err ctx_tick].
  destruct (iter_total d (idxTxBlockPrefix bh) (endOfPrefix (idxTxBlockPrefix bh))) as [l El].
  rewrite El, keysLoop_background. eexists. split; [done|]. simpl.
  apply block_scan; [done..|]. by apply iter_sound in El.
Qed.

(** What a block-scoped rewrite does to one row. *)
Definition revert (now : Z) (bh : string) (s : Status) (r : option payload) : option payload :=
  match r with
  | Some (PStatus e) =>
      if String.eqb (ss_BlockHash e) bh && negb (String.eqb (ss_Status e) StatusImmutable)
      then Some (PStatus (blockRewriteRow e now s)) else r
  | _ => r
  end.
Definition revertible (bh : string) (r : option payload) : bool :=
  match r with
  | Some (PStatus e) => String.eqb (ss_BlockHash e) bh && negb (String.eqb (ss_Status e) StatusImmutable)
  | _ => false
  end.

(** A rewrite to SEEN_ON_NETWORK takes the row off its block and remembers
    the anchor; any other keeps the block. *)
Definition moved_off (e : storedStatus) (now : Z) (s : Status) (r : storedStatus) : Prop :=
  ss_Status r = s ∧ ss_TimestampUnixNs r = now ∧ same_body e r ∧
  if decide (s = StatusSeenOnNetwork)
  then ss_BlockHash r = "" ∧ ss_BlockHeight r = 0%Z ∧ remembers e r
  else ss_BlockHash r = ss_BlockHash e ∧ ss_BlockHeight r = ss_BlockHeight e ∧
       ss_OrphanedAnchors r = ss_OrphanedAnchors e.

Lemma blockRewriteRow_moved e now s : ss_BlockHash e ≠ "" -> moved_off e now s (blockRewriteRow e now s).
Proof.
  intros Hne. unfold moved_off, blockRewriteRow, same_body, remembers. cbn. split_and!; try done.
  destruct (String.eqb_spec s StatusSeenOnNetwork); case_decide; try done.
  split_and!; [done|done|]. by apply appendOrphanedAnchor_last.
Qed.

Lemma blockRewriteStep_total now bh s t d :
  tx_ok (view d) -> no_colon s = true ->
  ∃ d', blockRewriteStep now bh s t d = (Ok (revertible bh (view d !! txKey t)), d') ∧ tx_ok (view d') ∧
    ∀ t', view d' !! txKey t' = if decide (t' = t) then revert now bh s (view d !! txKey t')
                                else view d !! txKey t'.
Proof.
  intros Hok Hs.
  assert (tx_ok (view (blockRewriteStep now bh s t d).2)) as Hok'.
  { eapply (run_ops_tx_ok [OpBlockRow now bh s t]); [by repeat constructor|done]. }
  revert Hok'. unfold blockRewriteStep. rewrite readStoredStatus_total by done.
  assert (∀ r, r = view d !! txKey t -> revertible bh r = false ->
    ∀ t', view d !! txKey t' = if decide (t' = t) then revert now bh s (view d !! txKey t')
                               else view d !! txKey t') as Hsame.
  { intros r Er Hr t'. case_decide; [|done]. subst. unfold revertible, revert in *.
    destruct (view d !! txKey t) as [[]|]; try done. by rewrite Hr. }
  destruct (view d !! txKey t) as [v|] eqn:E; [|eauto 10].
  destruct (tx_rows _ Hok _ _ E) as (e & -> & Ht & _). simpl.
  destruct (String.eqb_spec (ss_BlockHash e) bh) as [Eb|Eb]; simpl; [|intros; eexists; split_and!; [done..|]].
  2:{ apply Hsame with (1 := eq_refl). unfold revertible. by apply String.eqb_neq in Eb as ->. }
  destruct (String.eqb_spec (ss_Status e) StatusImmutable) as [Ei|Ei]; simpl.
  { intros. eexists; split_and!; [done..|]. apply Hsame with (1 := eq_refl). unfold revertible.
    by rewrite Ei, andb_false_r. }
  destruct (rewriteRow_total d t e (blockRewriteRow e now s) true) as (d' & -> & Hv).
  intros Hok'. exists d'. split_and!; [done|done|]. intros t'. rewrite Hv, rewriteBatch_row.
  case_decide; [|done]. subst t'. rewrite E. simpl.
  apply String.eqb_eq in Eb. apply String.eqb_neq in Ei. by rewrite Eb, Ei.
Qed.

Lemma blockRewriteLoop_total now bh s acc l d :
  tx_ok (view d) -> no_colon s = true -> NoDup l ->
  ∃ d', blockRewriteLoop now bh s acc l d
    = (acc ++ List.filter (fun t => revertible bh (view d !! txKey t)) l, None, d') ∧
    ∀ t, view d' !! txKey t = if decide (t ∈ l) then revert now bh s (view d !! txKey t)
                              else view d !! txKey t.
Proof.
  intros Hok Hs. revert acc d Hok. induction l as [|x l IH]; intros acc d Hok Hnd.
  { exists d. simpl. by rewrite app_nil_r. }
  apply NoDup_cons in Hnd as [Hx Hnd]. cbn [blockRewriteLoop List.filter].
  destruct (blockRewriteStep_total now bh s x d Hok Hs) as (d1 & -> & Hok1 & Hv).
  assert (List.filter (fun t => revertible bh (view d1 !! txKey t)) l
          = List.filter (fun t => revertible bh (view d !! txKey t)) l) as Hf.
  { apply List.filter_ext_in. intros t Ht%list_elem_of_In. rewrite Hv. case_decide; [by subst|done]. }
  assert (∀ t, (if decide (t ∈ l) then revert now bh s (view d1 !! txKey t) else view d1 !! txKey t)
    = if decide (t ∈ x :: l) then revert now bh s (view d !! txKey t) else view d !! txKey t) as Hrows.
  { intros t. rewrite Hv. destruct (decide (t = x)) as [->|].
    - rewrite (decide_False (P := x ∈ l)), (decide_True (P := x ∈ x :: l)) by set_solver. done.
    - destruct (decide (t ∈ l)), (decide (t ∈ x :: l)); set_solver. }
  destruct (revertible bh (view d !! txKey x)).
  - destruct (IH (acc ++ [x]) d1 Hok1 Hnd) as (d' & -> & Hv'). exists d'. rewrite Hf, <-app_assoc.
    split; [done|]. intros t. rewrite Hv'. apply Hrows.
  - destruct (IH acc d1 Hok1 Hnd) as (d' & -> & Hv'). exists d'. rewrite Hf.
    split; [done|]. intros t. rewrite Hv'. apply Hrows.
Qed.

(** A block-scoped rewrite, such as the revert of an orphaned block,
    reaches exactly the rows anchored to that block that are not IMMUTABLE,
    returns their txids, each once, and leaves every other row as it was.  A
    row reverted to SEEN_ON_NETWORK loses its block and keeps the anchor as
    the newest of its history; all other fields stay. *)
Theorem SetStatusByBlockHash_spec (now : Z) (bh : string) (s : Status) (d : DB) :
  tx_ok (view d) -> no_colon bh = true -> bh ≠ "" -> no_colon s = true ->
  ∃ txids d', SetStatusByBlockHash background now bh s d = (txids, None, d') ∧ NoDup txids ∧
    (∀ t, t ∈ txids ↔ revertible bh (view d !! txKey t) = true) ∧
    (∀ t e, t ∈ txids -> view d !! txKey t = Some (PStatus e) ->
       ∃ r, view d' !! txKey t = Some (PStatus r) ∧ moved_off e now s r) ∧
    (∀ t, t ∉ txids -> view d' !! txKey t = view d !! txKey t).
Proof.
  intros Hok Hbh Hne Hs. unfold SetStatusByBlockHash, background. cbn [ctx_err ctx_tick].
  destruct (iter_total d (idxTxBlockPrefix bh) (endOfPrefix (idxTxBlockPrefix bh))) as [l El].
  rewrite El, keysLoop_background. simpl.
  destruct (block_scan (view d) bh l Hok Hbh Hne) as [Hnd Hin]; [by apply iter_sound in El|].
  destruct (blockRewriteLoop_total now bh s [] _ d Hok Hs Hnd) as (d' & -> & Hv).
  assert (∀ t, revertible bh (view d !! txKey t) = true -> t ∈ (lastSegment <$> l.*1)) as Hcand.
  { intros t Hr. apply Hin. unfold revertible in Hr. destruct (view d !! txKey t) as [[]|]; try done.
    apply andb_true_iff in Hr as [Eb%String.eqb_eq _]. eauto. }
  assert (∀ t, view d' !! txKey t = revert now bh s (view d !! txKey t)) as Hrows.
  { intros t. rewrite Hv. case_decide as Ht; [done|].
    specialize (Hcand t). unfold revert, revertible in *. destruct (view d !! txKey t) as [[]|]; try done.
    case_match; [|done]. naive_solver. }
  set (txids := [] ++ _). assert (∀ t, t ∈ txids ↔ revertible bh (view d !! txKey t) = true) as Htx.
  { intros t. unfold txids. rewrite list_elem_of_In. simpl. rewrite List.filter_In, <-list_elem_of_In. naive_solver. }
  exists txids, d'. split_and!; [done| |done| |].
  - unfold txids. simpl. apply NoDup_ListNoDup, List.NoDup_filter. by apply NoDup_ListNoDup.
  - intros t e Ht%Htx Hrow. rewrite Hrows. rewrite Hrow in Ht |- *. simpl in *. rewrite Ht.
    eexists. split; [done|]. apply blockRewriteRow_moved. apply andb_true_iff in Ht as [Eb%String.eqb_eq _]. by rewrite Eb.
  - intros t Hn. rewrite Hrows. rewrite Htx in Hn. unfold revert, revertible in *.
    destruct (view d !! txKey t) as [[]|]; try done. case_match; done.
Qed.

(** ** First writer wins *)

(** The results of callers whose inserts of one txid the shard lock
    serialises in this order. *)
Fixpoint insertAllStatuses (calls : list (Z * TransactionStatus)) (d : DB)
  : list (Res (TransactionStatus * bool)) * DB :=
  match calls with
  | [] => ([], d)
  | (now, st) :: rest =>
      let '(r, d1) := GetOrInsertStatus background now st d in
      let '(rs, d2) := insertAllStatuses rest d1 in (r :: rs, d2)
  end.

Lemma GetOrInsertStatus_existing now st e d :
  tx_ok (view d) -> view d !! txKey (ts_TxID st) = Some (PStatus e) ->
  GetOrInsertStatus background now st d = (Ok (storedStatus_toModel e, false), d).
Proof.
  intros Hok He. unfold GetOrInsertStatus, background. cbn [ctx_err].
  by rewrite readStatus_total, He.
Qed.

Lemma GetOrInsertStatus_new now st d :
  view d !! txKey (ts_TxID st) = None ->
  ∃ d', GetOrInsertStatus background now st d = (Ok (insertDefaults now st, true), d') ∧
  view d' = apply_batch (view d) (newBatch (ts_TxID st) (fromModel (insertDefaults now st))).
Proof.
  intros Hn. unfold GetOrInsertStatus, background. cbn [ctx_err].
  unfold readStatus. rewrite get_total, Hn. unfold writeStatusNew, commitTo.
  destruct (commit_total d (newBatch (ts_TxID st) (fromModel (insertDefaults now st)))) as [d' E].
  unfold newBatch in E. cbn [ts_TxID insertDefaults] in *. rewrite E.
  eexists. split; [done|]. by apply commit_sound in E.
Qed.

(** Of any number of callers inserting one txid, exactly the first to
    take the shard lock is told it inserted, and every other caller is handed
    the row that first caller stored, whatever it tried to insert. *)
Theorem GetOrInsertStatus_exactly_once (t : string) (now : Z) (st : TransactionStatus)
    (calls : list (Z * TransactionStatus)) (d : DB) :
  tx_ok (view d) -> view d !! txKey t = None ->
  Forall (fun c => ts_TxID c.2 = t) ((now, st) :: calls) -> row_ok (fromModel (insertDefaults now st)) ->
  let row := insertDefaults now st in
  ∃ d', insertAllStatuses ((now, st) :: calls) d
    = (Ok (row, true) :: replicate (length calls) (Ok (storedStatus_toModel (fromModel row), false)), d') ∧
  ∀ t', view d' !! txKey t' = if decide (t' = t) then Some (PStatus (fromModel row)) else view d !! txKey t'.
Proof.
  intros Hok Hn Hall Hro. apply Forall_cons in Hall as [Ht Hall]. simpl in Ht.
  cbn [insertAllStatuses]. rewrite <-Ht in Hn.
  destruct (GetOrInsertStatus_new now st d Hn) as (d1 & -> & Hv).
  assert (tx_ok (view d1)) as Hok1 by (rewrite Hv; by apply tx_ok_new).
  assert (∀ t', view d1 !! txKey t' = if decide (t' = t) then Some (PStatus (fromModel (insertDefaults now st)))
    else view d !! txKey t') as Hrow by (intros t'; rewrite Hv, newBatch_row, Ht; done).
  assert (insertAllStatuses calls d1 = (replicate (length calls)
    (Ok (storedStatus_toModel (fromModel (insertDefaults now st)), false)), d1)) as ->; [|by eauto].
  clear Hv Hn. induction Hall as [|[n s] calls Hs _ IH]; [done|]. cbn [insertAllStatuses].
  rewrite (GetOrInsertStatus_existing n s (fromModel (insertDefaults now st))); [|done|].
  - by rewrite IH.
  - simpl in Hs. by rewrite Hs, Hrow, decide_True.
Qed.

(** ** The retry queue *)

(** A key of the retry index, taken apart. *)
Lemma retry_key_parse n t :
  (0 <= n <= maxInt64)%Z ->
  let rest := sdrop (String.length idxTxRetryReadyPrefix) (idxTxRetryReadyKey n t) in
  (String.length rest <? 17)%nat = false ∧ String.get 16 rest = Some colon ∧
  sscanfX (stake 16 rest) = Some n ∧ sdrop 17 rest = t.
Proof.
  intros Hn. assert (uint64 n = n) as Eu by (apply uint64_id; unfold is_u64, maxInt64 in *; lia).
  unfold idxTxRetryReadyKey, idxTxRetryReadyPrefix. rewrite Eu. cbv zeta. rewrite sdrop_app.
  set (h := hexpad 16 n). assert (String.length h = 16%nat) as Hh by apply hexpad_length.
  split_and!.
  - apply Nat.ltb_ge. rewrite !string_length_app, Hh. simpl. lia.
  - rewrite <-Hh. apply get_app.
  - rewrite <-Hh, stake_app. by apply sscanfX_hexpad.
  - assert (String.length (h +:+ ":") = 17%nat) as Hh' by by rewrite string_length_app, Hh.
    rewrite <-string_app_assoc, <-Hh'. apply sdrop_app.
Qed.

(** The keys of a walk, and the rows they belong to. *)
Definition walks (d : DB) (k : string) (e : storedStatus) : Prop :=
  k = idxTxRetryReadyKey (ss_NextRetryUnixNs e) (ss_TxID e) ∧
  view d !! txKey (ss_TxID e) = Some (PStatus e) ∧ (0 <= ss_NextRetryUnixNs e <= maxInt64)%Z.

Lemma readyLoop_walk d now limit acc l es :
  Forall2 (walks d) l.*1 es ->
  readyLoop d None now limit acc l
  = (acc ++ take (limit - length acc) (retryOf <$> filter hasRaw (dueRows now es)), None).
Proof.
  intros Hw. remember l.*1 as ks eqn:Ek. revert l acc Ek.
  induction Hw as [|k e ks es (Hk & Hrow & Hn) _ IH]; intros [|[k' v] l] acc Ek; try done.
  { cbn [readyLoop dueRows]. by rewrite filter_nil, fmap_nil, take_nil, app_nil_r. }
  rewrite fmap_cons in Ek. injection Ek as -> Ek. cbn [fst] in *. subst k'.
  cbn [readyLoop ctx_err ctx_tick]. destruct (Nat.leb_spec limit (length acc)) as [Hle|Hlt].
  { replace (limit - length acc)%nat with 0%nat by lia. by rewrite app_nil_r. }
  destruct (retry_key_parse (ss_NextRetryUnixNs e) (ss_TxID e) Hn) as (-> & Hg & Hp & Ht).
  rewrite Hg, bool_decide_true by done. cbn [orb negb]. rewrite Hp. cbn [dueRows].
  destruct (now <? ss_NextRetryUnixNs e)%Z; [by rewrite filter_nil, fmap_nil, take_nil, app_nil_r|].
  rewrite Ht, get_total, Hrow. cbn [asStatus]. rewrite filter_cons.
  destruct (ss_RawTx e) as [|b raw] eqn:Er.
  - rewrite decide_False by (unfold hasRaw; rewrite Er; tauto). by apply IH.
  - rewrite decide_True by (unfold hasRaw; by rewrite Er). rewrite IH, length_app by done. simpl.
    replace (limit - length acc)%nat with (S (limit - (length acc + 1))) by lia. rewrite <-app_assoc.
    unfold retryOf at 2. by rewrite Er.
Qed.

(** A retry walk is in due order: time order is key order. *)
Lemma walk_sorted d ks es :
  Forall2 (walks d) ks es -> StronglySorted (fun a b => str_ltb a b = true) ks -> StronglySorted nextLe es.
Proof.
  intros Hw Hs. revert es Hw. induction Hs as [|k ks _ IH Hf]; intros es Hw.
  { apply Forall2_nil_inv_l in Hw as ->. constructor. }
  apply Forall2_cons_inv_l in Hw as (e & es' & (-> & _ & Hn) & Hw & ->).
  constructor; [by apply IH|]. apply Forall_forall. intros e' He'.
  apply list_elem_of_lookup in He' as [i Hi].
  destruct (Forall2_lookup_r _ _ _ _ _ Hw Hi) as (k' & Hk' & (-> & _ & Hn')).
  pose proof (proj1 (Forall_forall _ _) Hf _ (list_elem_of_lookup_2 _ _ _ Hk')) as Hlt. unfold nextLe.
  destruct (Z.le_gt_cases (ss_NextRetryUnixNs e) (ss_NextRetryUnixNs e')) as [|Hgt]; [done|].
  assert (is_u64 (ss_NextRetryUnixNs e) ∧ is_u64 (ss_NextRetryUnixNs e')) as [Hu Hu']
    by (unfold is_u64, maxInt64 in *; lia).
  apply str_ltb_asym in Hlt. unfold idxTxRetryReadyKey in Hlt. rewrite str_ltb_app, !uint64_id in Hlt by done.
  rewrite hexpad_lt in Hlt; [done|..]; unfold is_u64 in *; simpl; lia.
Qed.

(** The rows of the retry index. *)
Lemma retry_scan d l :
  tx_ok (view d) ->
  (∀ t e, view d !! txKey t = Some (PStatus e) -> ss_Status e = StatusPendingRetry ->
     (0 <= ss_NextRetryUnixNs e <= maxInt64)%Z) ->
  scan_of (view d) idxTxRetryReadyPrefix (endOfPrefix idxTxRetryReadyPrefix) l ->
  ∃ es, Forall2 (walks d) l.*1 es ∧ StronglySorted nextLe es ∧ NoDup es ∧
    ∀ e, e ∈ es ↔ view d !! txKey (ss_TxID e) = Some (PStatus e) ∧
      ss_Status e = StatusPendingRetry ∧ ss_NextRetryUnixNs e ≠ 0%Z.
Proof.
  intros Hok Hpos Hs.
  destruct (Forall_choose (fun k e => walks d k e ∧ ss_Status e = StatusPendingRetry ∧
    ss_NextRetryUnixNs e ≠ 0%Z) l.*1) as [es Hes].
  { apply Forall_forall. intros k [Hk Hp]%(prefix_scan_key _ _ _ _ Hs).
    apply (tx_idx _ Hok) in Hk as (t & e & He & Hin); [|by apply has_prefix_spec in Hp as [r ->]].
    destruct (tx_row _ _ _ Hok He) as [<- Hro].
    destruct (retry_key_prefix _ _ Hin Hp) as (Est & Hz & ->). exists e. unfold walks. eauto 10. }
  assert (Forall2 (walks d) l.*1 es) as Hw by (eapply Forall2_impl; [exact Hes|naive_solver]).
  exists es. split_and!; [done|eapply walk_sorted; [done|apply Hs]| |].
  - pose proof (scan_nodup _ _ _ _ Hs) as Hnd. clear -Hw Hnd. induction Hw as [|k e ks es Hk Hw IH]; [constructor|].
    apply NoDup_cons in Hnd as [Hni Hnd]. constructor; [|auto]. intros He. apply Hni.
    apply list_elem_of_lookup in He as [i Hi]. destruct (Forall2_lookup_r _ _ _ _ _ Hw Hi) as (k' & Hk' & Hwk).
    destruct Hk as (-> & _), Hwk as (-> & _). by eapply list_elem_of_lookup_2.
  - intros e. split.
    + intros [i Hi]%list_elem_of_lookup. destruct (Forall2_lookup_r _ _ _ _ _ Hes Hi) as (k & _ & (_ & ? & _) & ?).
      done.
    + intros (He & Est & Hz).
      assert (idxTxRetryReadyKey (ss_NextRetryUnixNs e) (ss_TxID e) ∈ l.*1) as Hk.
      { apply (prefix_scan_key _ _ _ _ Hs). split; [|apply has_prefix_app]. apply (tx_idx _ Hok); [done|].
        exists (ss_TxID e), e. split; [done|]. apply status_keys_elem. right; right; left. by split_and!. }
      apply list_elem_of_lookup in Hk as [i Hi]. destruct (Forall2_lookup_l _ _ _ _ _ Hes Hi) as (e' & He' & Hwk & _).
      destruct Hwk as (Ek & Hrow & Hn'). assert (ss_TxID e' = ss_TxID e) as Et.
      { destruct (tx_row _ _ _ Hok He) as [_ (Ht & _)], (tx_row _ _ _ Hok Hrow) as [_ (Ht' & _)].
        apply (f_equal lastSegment) in Ek. autorewrite with keys in Ek. done. }
      rewrite Et, He in Hrow. injection Hrow as <-. by eapply list_elem_of_lookup_2.
Qed.

(** [GetReadyRetries] serves the durable retry queue in due order: the
    PENDING_RETRY rows whose time has come and that carry a raw transaction,
    earliest first, cut off at the limit; none is skipped for a later one. *)
Theorem GetReadyRetries_spec (now limit : Z) (d : DB) :
  tx_ok (view d) -> (0 < limit)%Z ->
  (∀ t e, view d !! txKey t = Some (PStatus e) -> ss_Status e = StatusPendingRetry ->
     (0 <= ss_NextRetryUnixNs e <= maxInt64)%Z) ->
  ∃ q, GetReadyRetries background (Some now) limit d = (retryOf <$> take (Z.to_nat limit) q, None) ∧
    StronglySorted nextLe q ∧ NoDup q ∧
    ∀ e, e ∈ q ↔ view d !! txKey (ss_TxID e) = Some (PStatus e) ∧ ss_Status e = StatusPendingRetry ∧
      ss_NextRetryUnixNs e ≠ 0%Z ∧ (ss_NextRetryUnixNs e <= now)%Z ∧ hasRaw e.
Proof.
  intros Hok Hlim Hpos. unfold GetReadyRetries, background. rewrite (proj2 (Z.leb_gt limit 0)) by lia.
  cbn [ctx_err ctx_tick UnixNano].
  destruct (iter_total d idxTxRetryReadyPrefix (endOfPrefix idxTxRetryReadyPrefix)) as [l El]. rewrite El.
  destruct (retry_scan d l Hok Hpos) as (es & Hw & Hsort & Hnd & Hes); [by apply iter_sound in El|].
  exists (filter hasRaw (dueRows now es)). rewrite (readyLoop_walk d now _ [] l es Hw). split_and!.
  - simpl. by rewrite Nat.sub_0_r, fmap_take.
  - eapply StronglySorted_sublist; [|done]. etrans; [apply sublist_filter|apply dueRows_sublist].
  - apply NoDup_filter. eapply sublist_NoDup; [done|apply dueRows_sublist].
  - intros e. rewrite list_elem_of_filter, dueRows_elem by done. rewrite Hes. naive_solver.
Qed.

(** ** Tracker hydration *)

Definition rowOf (e : storedStatus) : TrackerRow :=
  mkTrackerRow (ss_TxID e) (ss_Status e) (ss_BlockHeight e).

(** The rows one status scan leads to. *)
Definition statusRows (d : DB) (s : Status) (es : list storedStatus) : Prop :=
  NoDup es ∧ ∀ e, e ∈ es ↔ view d !! txKey (ss_TxID e) = Some (PStatus e) ∧ ss_Status e = s.

Lemma status_scan d s l :
  tx_ok (view d) -> no_colon s = true ->
  scan_of (view d) (idxTxStatusPrefix s) (endOfPrefix (idxTxStatusPrefix s)) l ->
  ∃ es, Forall2 (fun k e => lastSegment k = ss_TxID e ∧
                            view d !! txKey (ss_TxID e) = Some (PStatus e)) l.*1 es ∧
        statusRows d s es.
Proof.
  intros Hok Hs Hscan.
  destruct (Forall_choose (fun k e => k = idxTxStatusKey s (ss_TxID e) ∧ ss_Status e = s ∧
    no_colon (ss_TxID e) = true ∧ view d !! txKey (ss_TxID e) = Some (PStatus e)) l.*1) as [es Hes].
  { apply Forall_forall. intros k [Hk Hp]%(prefix_scan_key _ _ _ _ Hscan).
    apply (tx_idx _ Hok) in Hk as (t & e & He & Hin); [|by eapply status_prefix_idx].
    destruct (tx_row _ _ _ Hok He) as [<- Hro].
    apply (status_key_prefix _ _ _ Hro Hs Hin) in Hp as (Est & ->). exists e. destruct Hro. eauto. }
  exists es. split; [|split].
  - eapply Forall2_impl; [exact Hes|]. intros k e (-> & _ & Ht & He). by autorewrite with keys.
  - pose proof (scan_nodup _ _ _ _ Hscan) as Hnd. clear -Hes Hnd.
    induction Hes as [|k e ks es Hk Hw IH]; [constructor|].
    apply NoDup_cons in Hnd as [Hni Hnd]. constructor; [|auto]. intros He. apply Hni.
    apply list_elem_of_lookup in He as [i Hi]. destruct (Forall2_lookup_r _ _ _ _ _ Hw Hi) as (k' & Hk' & Hwk).
    destruct Hk as (-> & _), Hwk as (-> & _). by eapply list_elem_of_lookup_2.
  - intros e. split.
    + intros [i Hi]%list_elem_of_lookup. destruct (Forall2_lookup_r _ _ _ _ _ Hes Hi) as (k & _ & _ & ? & _ & ?).
      done.
    + intros (He & Est). destruct (tx_row _ _ _ Hok He) as [_ Hro].
      assert (idxTxStatusKey s (ss_TxID e) ∈ status_keys e) as Hin by (apply status_keys_elem; subst; auto).
      assert (idxTxStatusKey s (ss_TxID e) ∈ l.*1) as Hk.
      { apply (prefix_scan_key _ _ _ _ Hscan). split; [|by apply (status_key_prefix _ _ _ Hro Hs Hin)].
        apply (tx_idx _ Hok); [done|]. eauto. }
      apply list_elem_of_lookup in Hk as [i Hi].
      destruct (Forall2_lookup_l _ _ _ _ _ Hes Hi) as (e' & He' & Ek & _ & Ht' & Hrow').
      apply (f_equal lastSegment) in Ek. destruct Hro as (Ht & _). autorewrite with keys in Ek.
      rewrite <-Ek, He in Hrow'. injection Hrow' as <-. by eapply list_elem_of_lookup_2.
Qed.

Definition keeps (scan : TrackerScan) (e : storedStatus) : bool := Keep scan (ss_Status e) (ss_BlockHeight e).

Lemma trackerRowsLoop_fold {S} (f : S -> TrackerRow -> S) d scan s acc l es :
  tx_ok (view d) ->
  Forall2 (fun k e => lastSegment k = ss_TxID e ∧ view d !! txKey (ss_TxID e) = Some (PStatus e)) l.*1 es ->
  Forall (fun e => ss_Status e = s) es ->
  trackerRowsLoop d None scan s (fun s r => (f s r, None)) acc l
  = (foldl f acc (rowOf <$> List.filter (keeps scan) es), None, None).
Proof.
  intros Hok Hw. remember l.*1 as ks eqn:Ek. revert l acc Ek.
  induction Hw as [|k e ks es (Hk & Hrow) _ IH]; intros [|[k' v] l] acc Ek Hst; try done.
  rewrite fmap_cons in Ek. injection Ek as -> Ek. cbn [fst] in *.
  apply Forall_cons in Hst as [<- Hst].
  cbn [trackerRowsLoop ctx_err ctx_tick List.filter]. rewrite readStoredStatus_total, Hk, Hrow by done.
  rewrite String.eqb_refl. cbn [negb orb]. unfold keeps at 1. destruct (Keep scan _ _); cbn [negb]; by apply IH.
Qed.

Lemma trackerStatusLoop_fold {S} (f : S -> TrackerRow -> S) d scan acc ss :
  tx_ok (view d) -> NoDup ss -> Forall (fun s => no_colon s = true) ss ->
  ∃ es, trackerStatusLoop d None scan (fun s r => (f s r, None)) acc ss
        = (foldl f acc (rowOf <$> List.filter (keeps scan) es), None) ∧ NoDup es ∧
    ∀ e, e ∈ es ↔ view d !! txKey (ss_TxID e) = Some (PStatus e) ∧ ss_Status e ∈ ss.
Proof.
  intros Hok. revert acc. induction ss as [|s ss IH]; intros acc Hnd Hc.
  { exists []. split; [done|]. split; [constructor|set_solver]. }
  apply NoDup_cons in Hnd as [Hs Hnd]. apply Forall_cons in Hc as [Hsc Hc].
  cbn [trackerStatusLoop].
  destruct (iter_total d (idxTxStatusPrefix s) (endOfPrefix (idxTxStatusPrefix s))) as [l El]. rewrite El.
  destruct (status_scan d s l Hok Hsc) as (es & Hw & Hndes & Hes); [by apply iter_sound in El|].
  rewrite (trackerRowsLoop_fold f d scan s acc l es Hok Hw); [|apply Forall_forall; naive_solver].
  destruct (IH (foldl f acc (rowOf <$> List.filter (keeps scan) es)) Hnd Hc) as (es' & -> & Hndes' & Hes').
  exists (es ++ es'). split_and!.
  - by rewrite List.filter_app, fmap_app, foldl_app.
  - apply NoDup_app. split_and!; [done| |done]. intros e [_ E1]%Hes [_ E2]%Hes'. congruence.
  - intros e. rewrite elem_of_app, Hes, Hes', elem_of_cons. naive_solver.
Qed.

Lemma trackerStatuses_ok : NoDup trackerStatuses ∧ Forall (fun s => no_colon s = true) trackerStatuses.
Proof. split; [apply (bool_decide_unpack _)|apply (bool_decide_unpack _)]; by vm_compute. Qed.

(** Hydration through any callback that does not fail: the kept rows, each once. *)
Lemma IterateTrackerRows_fold {S} (f : S -> TrackerRow -> S) scan acc d :
  tx_ok (view d) ->
  ∃ es, IterateTrackerRows background scan (fun s r => (f s r, None)) acc d
        = (foldl f acc (rowOf <$> es), None) ∧ NoDup es ∧
    ∀ e, e ∈ es ↔ view d !! txKey (ss_TxID e) = Some (PStatus e) ∧ keeps scan e = true.
Proof.
  intros Hok. unfold IterateTrackerRows, background. cbn [ctx_err ctx_tick].
  destruct trackerStatuses_ok as [Hnd Hc].
  destruct (trackerStatusLoop_fold f d scan acc trackerStatuses Hok Hnd Hc) as (es & E & Hndes & Hes).
  unfold Statuses, TrackerStatuses. rewrite E. eexists. split; [done|]. split.
  { apply NoDup_ListNoDup, List.NoDup_filter. by apply NoDup_ListNoDup. }
  intros e. rewrite list_elem_of_In, List.filter_In, <-list_elem_of_In, Hes.
  split; [naive_solver|]. intros [? Hk]. split_and!; [done| |done]. revert Hk. unfold keeps, Keep, TracksStatus.
  destruct (status_in _ _) eqn:Es; [|done]. by apply status_in_spec in Es.
Qed.

Section Hydration.
Context {Hash : Type} `{Countable Hash} (NewHashFromHex : string -> option Hash).

Lemma insertAll_lookup (t : gmap Hash TxTracker.TrackedTx) kept h tx :
  NoDup kept.*1 ->
  TxTracker.insertAll t kept !! h = Some tx ↔ (h, tx) ∈ kept ∨ (t !! h = Some tx ∧ h ∉ kept.*1).
Proof.
  revert t. induction kept as [|[k x] kept IH]; intros t Hnd; [set_solver|].
  rewrite fmap_cons in *. apply NoDup_cons in Hnd as [Hk Hnd].
  change (TxTracker.insertAll t ((k, x) :: kept)) with (TxTracker.insertAll (<[k:=x]> t) kept).
  rewrite IH by done. simpl in *. destruct (decide (h = k)) as [->|Hne].
  - rewrite lookup_insert_eq. split.
    + intros [Hin|[[= ->] _]]; [|set_solver]. destruct Hk. by apply (list_elem_of_fmap_2 fst) in Hin.
    + intros [[[= ->]|Hin]%elem_of_cons|[_ ?]]; [auto| |set_solver].
      destruct Hk. by apply (list_elem_of_fmap_2 fst) in Hin.
  - rewrite lookup_insert_ne by done. set_solver.
Qed.

(** The tracker entry a row hydrates to. *)
Definition entryOf (e : storedStatus) : option (Hash * TxTracker.TrackedTx) :=
  (fun h => (h, TxTracker.mkTrackedTx (ss_Status e) (ss_BlockHeight e))) <$> NewHashFromHex (ss_TxID e).

Lemma keptRows_entries scan es :
  Forall (fun e => keeps scan e = true) es ->
  TxTracker.keptRows NewHashFromHex scan (rowOf <$> es) = omap entryOf es.
Proof.
  induction 1 as [|e es He _ IH]; [done|]. unfold TxTracker.keptRows in *.
  change (e :: es) with ([e] ++ es). rewrite fmap_app, !omap_app, IH. f_equal. simpl.
  unfold keeps in He. by rewrite He.
Qed.

Lemma entries_nodup es :
  NoDup (ss_TxID <$> es) ->
  (∀ e e' h, e ∈ es -> e' ∈ es -> NewHashFromHex (ss_TxID e) = Some h ->
     NewHashFromHex (ss_TxID e') = Some h -> ss_TxID e = ss_TxID e') ->
  NoDup (omap entryOf es).*1.
Proof.
  induction es as [|e es IH]; intros Hnd Hinj; [constructor|]. rewrite fmap_cons in Hnd.
  apply NoDup_cons in Hnd as [He Hnd]. simpl. unfold entryOf at 1.
  destruct (NewHashFromHex (ss_TxID e)) as [h|] eqn:Eh; simpl; [|apply IH; set_solver].
  constructor; [|apply IH; set_solver].
  intros ([h' tx] & -> & (e' & He' & Ee')%list_elem_of_omap)%list_elem_of_fmap. simpl in *.
  apply fmap_Some in Ee' as (h'' & Eh' & [= -> ->]). apply He.
  rewrite (Hinj e e' h'') by set_solver. by apply list_elem_of_fmap_2.
Qed.

(** Hydrating an empty tracker from the store, the closure of
    [loadFromStore] driven by [IterateTrackerRows], leaves the tracker with
    exactly one entry per stored row the scan keeps, carrying that row's
    status and height, whatever the flush batch size. *)
Theorem hydration_exact (scan : TrackerScan) (bs : nat) (d : DB) :
  tx_ok (view d) ->
  (∀ t t' h e e', view d !! txKey t = Some (PStatus e) -> view d !! txKey t' = Some (PStatus e') ->
     NewHashFromHex t = Some h -> NewHashFromHex t' = Some h -> t = t') ->
  ∃ s, IterateTrackerRows background scan (fun s r => (TxTracker.loadRow NewHashFromHex scan bs s r, None))
         (TxTracker.mkLoadState ∅ [] (TxTracker.mkLoadStats 0 0 0)) d = (s, None) ∧
  ∀ h tx, TxTracker.ls_txids (TxTracker.flush s) !! h = Some tx ↔
    ∃ t e, view d !! txKey t = Some (PStatus e) ∧ NewHashFromHex t = Some h ∧
      Keep scan (ss_Status e) (ss_BlockHeight e) = true ∧
      tx = TxTracker.mkTrackedTx (ss_Status e) (ss_BlockHeight e).
Proof.
  intros Hok Hinj. destruct (IterateTrackerRows_fold (TxTracker.loadRow NewHashFromHex scan bs) scan
    (TxTracker.mkLoadState ∅ [] (TxTracker.mkLoadStats 0 0 0)) d Hok) as (es & -> & Hnd & Hes).
  eexists. split; [done|]. intros h tx.
  destruct (TxTracker.loadRows_total NewHashFromHex scan bs (rowOf <$> es)
    (TxTracker.mkLoadState ∅ [] (TxTracker.mkLoadStats 0 0 0))) as (E & _).
  unfold TxTracker.ls_total in E. cbn [TxTracker.flush TxTracker.ls_txids]. rewrite E. clear E.
  rewrite keptRows_entries by (apply Forall_forall; naive_solver). simpl.
  rewrite insertAll_lookup.
  - split.
    + intros [(e & He & Ee)%list_elem_of_omap|[Hl _]]; [|by rewrite lookup_empty in Hl].
      apply fmap_Some in Ee as (h' & Eh & [= -> ->]). apply Hes in He as (He & Hk). eauto 10.
    + intros (t & e & He & Eh & Hk & ->). destruct (tx_row _ _ _ Hok He) as [<- _]. left.
      apply list_elem_of_omap. exists e. split; [by apply Hes|]. unfold entryOf. by rewrite Eh.
  - apply entries_nodup.
    + apply (NoDup_fmap_2_strong ss_TxID); [|done].
      intros x y (Hx & _)%Hes (Hy & _)%Hes Exy. rewrite Exy, Hy in Hx. by injection Hx.
    + intros e e' h' (He & _)%Hes (He' & _)%Hes. by eapply Hinj.
Qed.
End Hydration.
End Queries.

(** ** Row round trip *)

(** A row written by [GetOrInsertStatus] reads back as it was, field by
    field, provided no time in it is exactly the Unix epoch (the stored zero
    means "not set") and its anchors carry no enriched proof. *)
Theorem storedStatus_roundtrip (m : TransactionStatus) :
  ts_TxIDs m = [] ->
  Forall (fun a => oa_MerklePath a = [] ∧ oa_OrphanedAt a ≠ None) (ts_OrphanedProofs m) ->
  Forall (fun t : Time => t ≠ Some 0%Z)
    [ts_Timestamp m; ts_CreatedAt m; ts_NextRetryAt m; ts_MerkleRegisteredAt m] ->
  storedStatus_toModel (fromModel m) = m.
Proof.
  intros Htx Ha Ht. rewrite !Forall_cons in Ht. destruct Ht as (H1 & H2 & H3 & H4 & _).
  destruct m; cbn in *. subst. unfold storedStatus_toModel, fromModel. cbn.
  rewrite !timeOfNs_nsOfTime by done. f_equal.
  rewrite <-list_fmap_compose. clear -Ha. induction Ha as [|[bh h o p] l [Hp Ho] _ IH]; [done|].
  cbn in *. subst p. destruct o; [|done]. by rewrite IH.
Qed.

Section QueryWitnesses.

Lemma storedStatus_roundtrip_witness :
  storedStatus_toModel (fromModel (wRow "aa" StatusMined "b1" 101)) = wRow "aa" StatusMined "b1" 101.
Proof. apply storedStatus_roundtrip; [reflexivity|constructor|]. repeat constructor; discriminate. Defined.

Definition wMined : MemDB := run_ops [OpMined background 20 "b1" 101 ["aa"]] wDB.

Lemma wMined_ok : tx_ok (view wMined).
Proof. apply (run_ops_tx_ok (DB := MemDB)); [repeat constructor|apply wDB_ok]. Qed.

Lemma SetStatusByBlockHash_spec_witness :
  ∃ txids d', SetStatusByBlockHash background 30 "b1" StatusSeenOnNetwork wMined = (txids, None, d') ∧
  "aa" ∈ txids ∧ view d' !! txKey "bb" = view wMined !! txKey "bb".
Proof.
  destruct (SetStatusByBlockHash_spec (DB := MemDB) 30 "b1" StatusSeenOnNetwork wMined wMined_ok
    eq_refl ltac:(discriminate) eq_refl) as (txids & d' & E & _ & Hin & _ & Hv).
  exists txids, d'. split; [exact E|]. split.
  - apply Hin. vm_compute. reflexivity.
  - apply Hv. intros H. apply Hin in H. vm_compute in H. discriminate H.
Defined.

Lemma GetOrInsertStatus_exactly_once_witness :
  ∃ d', insertAllStatuses [(10%Z, wRow "cc" "" "" 0); (11%Z, wRow "cc" StatusRejected "" 0)] wDB
    = ([Ok (insertDefaults 10 (wRow "cc" "" "" 0), true);
        Ok (storedStatus_toModel (fromModel (insertDefaults 10 (wRow "cc" "" "" 0))), false)], d').
Proof.
  destruct (GetOrInsertStatus_exactly_once (DB := MemDB) "cc" 10 (wRow "cc" "" "" 0)
    [(11%Z, wRow "cc" StatusRejected "" 0)] wDB wDB_ok) as (d' & E & _).
  - vm_compute. reflexivity.
  - repeat constructor.
  - repeat constructor.
  - exists d'. exact E.
Defined.

(** A parked transaction, due at 50. *)
Definition wParked : MemDB :=
  run_ops [OpInsert background 10 (wRow "aa" "" "" 0);
           OpPending background 20 "aa" [x01] (Some 50%Z) "no endpoint"] (∅ : MemDB).

Lemma wParked_ok : tx_ok (view wParked).
Proof. apply (run_ops_tx_ok (DB := MemDB)); [repeat constructor|apply tx_ok_empty]. Qed.

Definition row_times_ok (kv : string * payload) : bool :=
  match kv.2 with
  | PStatus e => negb (String.eqb (ss_Status e) StatusPendingRetry)
                 || ((0 <=? ss_NextRetryUnixNs e)%Z && (ss_NextRetryUnixNs e <=? maxInt64)%Z)
  | _ => true
  end.

Lemma wParked_times t e :
  view wParked !! txKey t = Some (PStatus e) -> ss_Status e = StatusPendingRetry ->
  (0 <= ss_NextRetryUnixNs e <= maxInt64)%Z.
Proof.
  intros Hl Hs.
  assert (row_times_ok (txKey t, PStatus e) = true) as Hr.
  { apply (entries_checked row_times_ok wParked); [by vm_compute|exact Hl]. }
  unfold row_times_ok in Hr. cbn [snd] in Hr. rewrite Hs, String.eqb_refl in Hr.
  cbn [negb orb] in Hr. apply andb_true_iff in Hr as [H1 H2]. lia.
Qed.

Lemma GetReadyRetries_spec_witness :
  ∃ q, GetReadyRetries background (Some 60%Z) 5 wParked = (retryOf <$> take 5 q, None) ∧ NoDup q.
Proof.
  destruct (GetReadyRetries_spec (DB := MemDB) 60 5 wParked wParked_ok eq_refl wParked_times)
    as (q & E & _ & Hn & _).
  exists q. split; [exact E|exact Hn].
Defined.

Lemma hydration_exact_witness :
  ∃ s, IterateTrackerRows background (NewTrackerScan 1000 true)
         (fun s r => (TxTracker.loadRow (Hash := string) Some (NewTrackerScan 1000 true) 2 s r, None))
         (TxTracker.mkLoadState ∅ [] (TxTracker.mkLoadStats 0 0 0)) wDB = (s, None) ∧
  is_Some (TxTracker.ls_txids (TxTracker.flush s) !! "aa").
Proof.
  destruct (hydration_exact (DB := MemDB) (Hash := string) Some (NewTrackerScan 1000 true) 2 wDB wDB_ok)
    as (s & E & Hs).
  - intros t t' h e e' _ _ Ht Ht'. injection Ht as ->. injection Ht' as ->. reflexivity.
  - exists s. split; [exact E|]. eexists. apply Hs. exists "aa", wPrev.
    split; [exact wDB_aa|]. split; [reflexivity|]. split; [vm_compute; reflexivity|reflexivity].
Defined.
End QueryWitnesses.
