(* ===== verification/PebbleBlocks.v ===== *)
(** * PebbleBlocks: block-processing rows of the Pebble store

    The block_processing part of [store/pebble/pebble.go]: the row and its
    descending-height index, the milestone writers, the orphan state machine
    (generations, compare-and-set on the generation, parking), the expected
    subtree sets, the STUMP rows, and the listings.  A row's
    read-modify-write is under the block's shard lock, so it is one step;
    the batch writers are loops over such steps. *)
From stdpp Require Import base gmap strings list sorting.
From Stdlib Require Import ZArith Lia.
From Stdlib Require Import Strings.Byte.
From S2P Require Import Prelude Models StoreCore Keys Engine PebbleTx.

(** ** Rows *)

Definition storedBlockProcessing_toModel (b : storedBlockProcessing) : BlockProcessingStatus :=
  mkBlockProcessingStatus (sp_BlockHash b) (sp_BlockHeight b) (timeOfNs (sp_HeaderSeenUnixNs b))
    (timeOfNs (sp_ProcessedUnixNs b)) (timeOfNs (sp_BUMPBuiltUnixNs b)) (sp_Status b)
    (if negb (sp_OrphanedAtUnixNs b =? 0)%Z && String.eqb (sp_Status b) BlockStatusOrphaned
     then Some (sp_OrphanedAtUnixNs b) else None)
    (timeOfNs (sp_ReconciledAtUnixNs b)).

(** The rows the writers store, from the previous row if there is one. *)
Definition headerSeenRow (blockHash : string) (blockHeight : Z) (seenAt : Time)
    (prev : option storedBlockProcessing) : storedBlockProcessing :=
  let seen := match prev with Some p => sp_HeaderSeenUnixNs p | None => 0%Z end in
  mkStoredBlockProcessing blockHash blockHeight
    (if (seen =? 0)%Z then UnixNano seenAt else seen)
    (match prev with Some p => sp_ProcessedUnixNs p | None => 0%Z end)
    (match prev with Some p => sp_BUMPBuiltUnixNs p | None => 0%Z end)
    BlockStatusActive
    (match prev with Some p => sp_OrphanedAtUnixNs p | None => 0%Z end) 0.

Definition processedRow (blockHash : string) (blockHeight : Z) (processedAt : Time)
    (prev : option storedBlockProcessing) : storedBlockProcessing :=
  match prev with
  | Some p => mkStoredBlockProcessing blockHash (sp_BlockHeight p) (sp_HeaderSeenUnixNs p)
      (UnixNano processedAt) (sp_BUMPBuiltUnixNs p) (sp_Status p) (sp_OrphanedAtUnixNs p)
      (sp_ReconciledAtUnixNs p)
  | None => mkStoredBlockProcessing blockHash blockHeight (UnixNano processedAt)
      (UnixNano processedAt) 0 BlockStatusActive 0 0
  end.

Definition bumpBuiltRow (blockHash : string) (blockHeight : Z) (builtAt : Time)
    (prev : option storedBlockProcessing) : storedBlockProcessing :=
  match prev with
  | Some p => mkStoredBlockProcessing blockHash (sp_BlockHeight p) (sp_HeaderSeenUnixNs p)
      (sp_ProcessedUnixNs p) (UnixNano builtAt) (sp_Status p) (sp_OrphanedAtUnixNs p)
      (sp_ReconciledAtUnixNs p)
  | None => mkStoredBlockProcessing blockHash blockHeight (UnixNano builtAt) 0
      (UnixNano builtAt) BlockStatusActive 0 0
  end.

Definition withProcessed (p : storedBlockProcessing) (ns : Z) : storedBlockProcessing :=
  mkStoredBlockProcessing (sp_BlockHash p) (sp_BlockHeight p) (sp_HeaderSeenUnixNs p) ns
    (sp_BUMPBuiltUnixNs p) (sp_Status p) (sp_OrphanedAtUnixNs p) (sp_ReconciledAtUnixNs p).

Definition withReconciled (p : storedBlockProcessing) (ns : Z) : storedBlockProcessing :=
  mkStoredBlockProcessing (sp_BlockHash p) (sp_BlockHeight p) (sp_HeaderSeenUnixNs p)
    (sp_ProcessedUnixNs p) (sp_BUMPBuiltUnixNs p) (sp_Status p) (sp_OrphanedAtUnixNs p) ns.

Definition withStatus (p : storedBlockProcessing) (s : string) : storedBlockProcessing :=
  mkStoredBlockProcessing (sp_BlockHash p) (sp_BlockHeight p) (sp_HeaderSeenUnixNs p)
    (sp_ProcessedUnixNs p) (sp_BUMPBuiltUnixNs p) s (sp_OrphanedAtUnixNs p) (sp_ReconciledAtUnixNs p).

Definition reactivatedRow (p : storedBlockProcessing) (blockHeight : Z) : storedBlockProcessing :=
  mkStoredBlockProcessing (sp_BlockHash p) blockHeight (sp_HeaderSeenUnixNs p)
    (sp_ProcessedUnixNs p) (sp_BUMPBuiltUnixNs p) BlockStatusActive (sp_OrphanedAtUnixNs p) 0.

(** [prevUnixNs + 1] is an [int64] addition. *)
Definition mintOrphanGeneration (prevUnixNs wantUnixNs : Z) : Z :=
  if (wantUnixNs <=? prevUnixNs)%Z then int64 (prevUnixNs + 1) else wantUnixNs.

Definition orphanedRow (p : storedBlockProcessing) (gen : Z) : storedBlockProcessing :=
  mkStoredBlockProcessing (sp_BlockHash p) (sp_BlockHeight p) (sp_HeaderSeenUnixNs p)
    (sp_ProcessedUnixNs p) (sp_BUMPBuiltUnixNs p) BlockStatusOrphaned
    (mintOrphanGeneration (sp_OrphanedAtUnixNs p) gen) 0.

(** [slices.Sort] then [slices.Compact]. *)
Fixpoint compactFrom (x : Z) (l : list Z) : list Z :=
  match l with
  | [] => [x]
  | y :: l' => if (x =? y)%Z then compactFrom x l' else x :: compactFrom y l'
  end.
Definition compact (l : list Z) : list Z := match l with [] => [] | x :: l' => compactFrom x l' end.

(** A stable sort by a strict order: [sort.SliceStable]. *)
Fixpoint stableInsert {A} (less : A -> A -> bool) (x : A) (l : list A) : list A :=
  match l with
  | [] => [x]
  | y :: l' => if less y x then y :: stableInsert less x l' else x :: l
  end.
Definition stableSort {A} (less : A -> A -> bool) (l : list A) : list A :=
  foldr (stableInsert less) [] l.

(** ** Operations *)
Section Operations.
Context {DB : Type} `{Engine DB}.

Definition readBlockProc (d : DB) (blockHash : string) : Res (option storedBlockProcessing) :=
  match eng_get d (blockProcKey blockHash) with
  | Err e => Err e
  | Ok None => Ok None
  | Ok (Some v) => match asBlockProc v with Some b => Ok (Some b) | None => Err ErrDecode end
  end.

Definition blockProcBatch (prev : option storedBlockProcessing) (current : storedBlockProcessing)
  : list bop :=
  match prev with
  | Some p => if negb (sp_BlockHeight p =? sp_BlockHeight current)%Z
              then [BDel (idxBlockProcHeightKey (sp_BlockHeight p) (sp_BlockHash p))] else []
  | None => []
  end ++
  [BSet (blockProcKey (sp_BlockHash current)) (PBlockProc current);
   BSet (idxBlockProcHeightKey (sp_BlockHeight current) (sp_BlockHash current)) PEmpty].

Definition writeBlockProc {A} (d : DB) (prev : option storedBlockProcessing)
    (current : storedBlockProcessing) (r : A) : Res A * DB :=
  commitTo d (blockProcBatch prev current) r.

Definition UpsertBlockHeaderSeen (c : Ctx) (blockHash : string) (blockHeight : Z) (seenAt : Time) (d : DB)
  : Res unit * DB :=
  if ctx_err c then (Err ErrCanceled, d)
  else match readBlockProc d blockHash with
       | Err e => (Err e, d)
       | Ok prev => writeBlockProc d prev (headerSeenRow blockHash blockHeight seenAt prev) tt
       end.

Definition MarkBlockProcessed (c : Ctx) (blockHash : string) (blockHeight : Z) (processedAt : Time) (d : DB)
  : Res unit * DB :=
  if ctx_err c then (Err ErrCanceled, d)
  else match readBlockProc d blockHash with
       | Err e => (Err e, d)
       | Ok prev => writeBlockProc d prev (processedRow blockHash blockHeight processedAt prev) tt
       end.

Definition ClearBlockProcessed (c : Ctx) (blockHash : string) (d : DB) : Res unit * DB :=
  if ctx_err c then (Err ErrCanceled, d)
  else match readBlockProc d blockHash with
       | Err e => (Err e, d)
       | Ok None => (Ok tt, d)
       | Ok (Some prev) => writeBlockProc d (Some prev) (withProcessed prev 0) tt
       end.

Definition readBlockExpected (d : DB) (blockHash : string) : Res (list Z) :=
  match eng_get d (blockExpectedKey blockHash) with
  | Err e => Err e
  | Ok None => Ok []
  | Ok (Some v) => match asExpected v with Some l => Ok l | None => Err ErrDecode end
  end.

Definition AddBlockExpectedSubtrees (c : Ctx) (blockHash : string) (indices : list Z) (d : DB)
  : Res unit * DB :=
  if ctx_err c then (Err ErrCanceled, d)
  else match indices with
       | [] => (Ok tt, d)
       | _ =>
           match readBlockProc d blockHash with
           | Err e => (Err e, d)
           | Ok None => (Ok tt, d)
           | Ok (Some _) =>
               match readBlockExpected d blockHash with
               | Err e => (Err e, d)
               | Ok cur =>
                   let merged := compact (merge_sort Z.le (cur ++ indices)) in
                   commitTo d [BSet (blockExpectedKey blockHash) (PExpected merged)] tt
               end
           end
       end.

Definition GetBlockExpectedSubtrees (c : Ctx) (blockHash : string) (d : DB) : Res (list Z) :=
  if ctx_err c then Err ErrCanceled else readBlockExpected d blockHash.

Definition ClearBlockExpectedSubtrees (c : Ctx) (blockHash : string) (d : DB) : Res unit * DB :=
  if ctx_err c then (Err ErrCanceled, d) else commitTo d [BDel (blockExpectedKey blockHash)] tt.

Definition MarkBlockBUMPBuilt (c : Ctx) (blockHash : string) (blockHeight : Z) (builtAt : Time) (d : DB)
  : Res unit * DB :=
  if ctx_err c then (Err ErrCanceled, d)
  else match readBlockProc d blockHash with
       | Err e => (Err e, d)
       | Ok prev => writeBlockProc d prev (bumpBuiltRow blockHash blockHeight builtAt prev) tt
       end.

(** *** Orphan generations *)

Definition isOrphaned (p : storedBlockProcessing) : bool := String.eqb (sp_Status p) BlockStatusOrphaned.

(** One hash of [MarkBlocksOrphaned]: [Ok true] for a transition. *)
Definition orphanStep (gen : Z) (h : string) (d : DB) : Res bool * DB :=
  match readBlockProc d h with
  | Err e => (Err e, d)
  | Ok None => (Ok false, d)
  | Ok (Some prev) =>
      let wasOrphaned := isOrphaned prev in
      if wasOrphaned && (gen <? sp_OrphanedAtUnixNs prev)%Z then (Ok false, d)
      else writeBlockProc d (Some prev) (orphanedRow prev gen) (negb wasOrphaned)
  end.

Fixpoint orphanLoop (c : Ctx) (gen : Z) (transitions : Z) (hashes : list string) (d : DB)
  : Z * option error * DB :=
  match hashes with
  | [] => (transitions, None, d)
  | h :: rest =>
      if ctx_err c then (transitions, Some ErrCanceled, d)
      else match orphanStep gen h d with
           | (Err e, d') => (transitions, Some e, d')
           | (Ok true, d') => orphanLoop (ctx_tick c) gen (transitions + 1) rest d'
           | (Ok false, d') => orphanLoop (ctx_tick c) gen transitions rest d'
           end
  end.

Definition MarkBlocksOrphaned (c : Ctx) (blockHashes : list string) (orphanedAt : Time) (d : DB)
  : Z * option error * DB :=
  if ctx_err c then (0%Z, Some ErrCanceled, d)
  else orphanLoop (ctx_tick c) (UnixNano orphanedAt) 0 blockHashes d.

(** The guard of the three compare-and-set writers. *)
Definition generationMatches (p : storedBlockProcessing) (orphanedAt : Time) : bool :=
  isOrphaned p && (IsZero orphanedAt || (sp_OrphanedAtUnixNs p =? UnixNano orphanedAt)%Z).

Definition MarkBlockReconciled (c : Ctx) (blockHash : string) (orphanedAt at_ : Time) (d : DB)
  : Res bool * DB :=
  if ctx_err c then (Err ErrCanceled, d)
  else match readBlockProc d blockHash with
       | Err e => (Err e, d)
       | Ok None => (Ok false, d)
       | Ok (Some prev) =>
           if negb (generationMatches prev orphanedAt) then (Ok false, d)
           else writeBlockProc d (Some prev) (withReconciled prev (UnixNano at_)) true
       end.

Definition RequeueOrphanedBlock (c : Ctx) (blockHash : string) (orphanedAt : Time) (d : DB)
  : Res bool * DB :=
  if ctx_err c then (Err ErrCanceled, d)
  else match readBlockProc d blockHash with
       | Err e => (Err e, d)
       | Ok None => (Ok false, d)
       | Ok (Some prev) =>
           if negb (generationMatches prev orphanedAt) then (Ok false, d)
           else if (sp_ReconciledAtUnixNs prev =? 0)%Z then (Ok true, d)
           else writeBlockProc d (Some prev) (withReconciled prev 0) true
       end.

Definition ReactivateBlock (c : Ctx) (blockHash : string) (blockHeight : Z) (orphanedAt : Time) (d : DB)
  : Res bool * DB :=
  if ctx_err c then (Err ErrCanceled, d)
  else match readBlockProc d blockHash with
       | Err e => (Err e, d)
       | Ok None => (Ok false, d)
       | Ok (Some prev) =>
           if negb (generationMatches prev orphanedAt) then (Ok false, d)
           else writeBlockProc d (Some prev) (reactivatedRow prev blockHeight) true
       end.

Definition parkStep (h : string) (d : DB) : Res unit * DB :=
  match readBlockProc d h with
  | Err e => (Err e, d)
  | Ok None => (Ok tt, d)
  | Ok (Some prev) =>
      if negb (String.eqb (sp_Status prev) BlockStatusActive) then (Ok tt, d)
      else writeBlockProc d (Some prev) (withStatus prev BlockStatusParked) tt
  end.

Fixpoint parkLoop (c : Ctx) (hashes : list string) (d : DB) : Res unit * DB :=
  match hashes with
  | [] => (Ok tt, d)
  | h :: rest =>
      if ctx_err c then (Err ErrCanceled, d)
      else match parkStep h d with
           | (Err e, d') => (Err e, d')
           | (Ok _, d') => parkLoop (ctx_tick c) rest d'
           end
  end.

Definition MarkBlocksParked (c : Ctx) (blockHashes : list string) (d : DB) : Res unit * DB :=
  if ctx_err c then (Err ErrCanceled, d) else parkLoop (ctx_tick c) blockHashes d.

(** *** The reconciler's queue *)

Definition hasBUMP (d : DB) (blockHash : string) : bool :=
  match eng_get d (bumpKey blockHash) with Ok (Some _) => true | _ => false end.

(** The scan: queued orphans in key order, and the active hashes per height. *)
Fixpoint queueScan (c : Ctx) (rows : list storedBlockProcessing) (activeByHeight : gmap Z (list string))
    (entries : list (string * payload))
  : Res (list storedBlockProcessing * gmap Z (list string)) :=
  match entries with
  | [] => Ok (rows, activeByHeight)
  | (_, v) :: rest =>
      if ctx_err c then Err ErrCanceled
      else match asBlockProc v with
           | None => queueScan (ctx_tick c) rows activeByHeight rest
           | Some b =>
               if String.eqb (sp_Status b) BlockStatusActive then
                 queueScan (ctx_tick c) rows
                   (<[sp_BlockHeight b := default [] (activeByHeight !! sp_BlockHeight b)
                                          ++ [sp_BlockHash b]]> activeByHeight) rest
               else if isOrphaned b && (sp_ReconciledAtUnixNs b =? 0)%Z
               then queueScan (ctx_tick c) (rows ++ [b]) activeByHeight rest
               else queueScan (ctx_tick c) rows activeByHeight rest
           end
  end.

(** [heightReanchorable] over the rows, with its per-height memo. *)
Fixpoint reanchorLoop (d : DB) (activeByHeight : gmap Z (list string)) (memo : gmap Z bool)
    (rows : list storedBlockProcessing) : list (bool * storedBlockProcessing) :=
  match rows with
  | [] => []
  | r :: rest =>
      let height := sp_BlockHeight r in
      match memo !! height with
      | Some v => (v, r) :: reanchorLoop d activeByHeight memo rest
      | None =>
          let v := existsb (hasBUMP d) (default [] (activeByHeight !! height)) in
          (v, r) :: reanchorLoop d activeByHeight (<[height := v]> memo) rest
      end
  end.

Definition reanchorLess (a b : bool * storedBlockProcessing) : bool :=
  if negb (Bool.eqb a.1 b.1) then a.1
  else (sp_OrphanedAtUnixNs a.2 <? sp_OrphanedAtUnixNs b.2)%Z.

Definition ListOrphanedBlocksToReconcile (c : Ctx) (limit : Z) (d : DB)
  : Res (list BlockProcessingStatus) :=
  if ctx_err c then Err ErrCanceled
  else if (limit <=? 0)%Z then Err ErrArgument
  else match eng_iter d prefixBlockProc (endOfPrefix prefixBlockProc) with
       | Err e => Err e
       | Ok entries =>
           match queueScan (ctx_tick c) [] ∅ entries with
           | Err e => Err e
           | Ok (rows, activeByHeight) =>
               let sorted := stableSort reanchorLess (reanchorLoop d activeByHeight ∅ rows) in
               Ok ((fun r => storedBlockProcessing_toModel r.2) <$> take (Z.to_nat limit) sorted)
           end
       end.

(** *** Reads *)

Definition GetBlockProcessingStatus (c : Ctx) (blockHash : string) (d : DB) : Res BlockProcessingStatus :=
  if ctx_err c then Err ErrCanceled
  else match readBlockProc d blockHash with
       | Err e => Err e
       | Ok None => Err ErrNotFound
       | Ok (Some b) => Ok (storedBlockProcessing_toModel b)
       end.

Fixpoint tipLoop (d : DB) (c : Ctx) (entries : list (string * payload)) : Res Z :=
  match entries with
  | [] => Ok 0%Z
  | (key, _) :: rest =>
      if ctx_err c then Err ErrCanceled
      else match readBlockProc d (lastSegment key) with
           | Err e => Err e
           | Ok None => tipLoop d (ctx_tick c) rest
           | Ok (Some b) =>
               if negb (String.eqb (sp_Status b) BlockStatusActive) then tipLoop d (ctx_tick c) rest
               else Ok (sp_BlockHeight b)
           end
  end.

Definition GetActiveTipBlockHeight (c : Ctx) (d : DB) : Res Z :=
  if ctx_err c then Err ErrCanceled
  else match eng_iter d idxBlockProcHeightPrefix (endOfPrefix idxBlockProcHeightPrefix) with
       | Err e => Err e
       | Ok entries => tipLoop d (ctx_tick c) entries
       end.

(** The watchdog's filter. *)
Definition isStale (threshold minHeight : Z) (b : storedBlockProcessing) : bool :=
  String.eqb (sp_Status b) BlockStatusActive && (sp_ProcessedUnixNs b =? 0)%Z &&
  negb ((sp_HeaderSeenUnixNs b =? 0)%Z || (threshold <=? sp_HeaderSeenUnixNs b)%Z) &&
  negb (sp_BlockHeight b <? minHeight)%Z.

Fixpoint staleLoop (d : DB) (c : Ctx) (threshold minHeight : Z) (candidates : list storedBlockProcessing)
    (entries : list (string * payload)) : Res (list storedBlockProcessing) :=
  match entries with
  | [] => Ok candidates
  | (key, _) :: rest =>
      if ctx_err c then Err ErrCanceled
      else match readBlockProc d (lastSegment key) with
           | Err e => Err e
           | Ok None => staleLoop d (ctx_tick c) threshold minHeight candidates rest
           | Ok (Some b) =>
               staleLoop d (ctx_tick c) threshold minHeight
                 (if isStale threshold minHeight b then candidates ++ [b] else candidates) rest
           end
  end.

(** [sort.Slice] promises order but not stability, so it is a parameter. *)
Definition ListStaleBlockProcessingStatus
    (sortSlice : (storedBlockProcessing -> storedBlockProcessing -> bool) ->
                 list storedBlockProcessing -> list storedBlockProcessing)
    (c : Ctx) (olderThan : Time) (minHeight limit : Z) (d : DB) : Res (list BlockProcessingStatus) :=
  if ctx_err c then Err ErrCanceled
  else if (limit <=? 0)%Z then Ok []
  else match eng_iter d idxBlockProcHeightPrefix (endOfPrefix idxBlockProcHeightPrefix) with
       | Err e => Err e
       | Ok entries =>
           match staleLoop d (ctx_tick c) (UnixNano olderThan) minHeight [] entries with
           | Err e => Err e
           | Ok candidates =>
               let sorted := sortSlice (fun a b => sp_HeaderSeenUnixNs a <? sp_HeaderSeenUnixNs b)%Z
                               candidates in
               Ok (storedBlockProcessing_toModel <$> take (Z.to_nat limit) sorted)
           end
       end.

Fixpoint listLoop (d : DB) (c : Ctx) (limit : nat) (out : list BlockProcessingStatus)
    (entries : list (string * payload)) : list BlockProcessingStatus * option error :=
  match entries with
  | [] => (out, None)
  | (key, _) :: rest =>
      if (limit <=? length out)%nat then (out, None)
      else if ctx_err c then (out, Some ErrCanceled)
      else match readBlockProc d (lastSegment key) with
           | Err e => (out, Some e)
           | Ok None => listLoop d (ctx_tick c) limit out rest
           | Ok (Some b) =>
               listLoop d (ctx_tick c) limit (out ++ [storedBlockProcessing_toModel b]) rest
           end
  end.

(** The iterator's lower bound: heights at or above the cursor are skipped. *)
Definition listLower (beforeHeight : Z) : string :=
  if (0 <? beforeHeight)%Z
  then prefixIdxBlockProcHeight +:+ hexpad 16 (invert64 (beforeHeight - 1)) +:+ ":"
  else idxBlockProcHeightPrefix.

Definition ListBlockProcessingStatus (c : Ctx) (beforeHeight limit : Z) (d : DB)
  : list BlockProcessingStatus * option error :=
  if ctx_err c then ([], Some ErrCanceled)
  else if (limit <=? 0)%Z then ([], None)
  else match eng_iter d (listLower beforeHeight) (endOfPrefix idxBlockProcHeightPrefix) with
       | Err e => ([], Some e)
       | Ok entries => listLoop d (ctx_tick c) (Z.to_nat limit) [] entries
       end.

(** *** STUMP rows *)
Section StumpRows.
Context (sha256 : list byte -> list byte).

(** The stored row, and the batch's outcome; the caller's value is updated
    with its content hash. *)
Definition InsertStump (c : Ctx) (stump : Stump) (d : DB) : Res unit * Stump * DB :=
  if ctx_err c then (Err ErrCanceled, stump, d)
  else
    let '(stump, hash) := EnsureContentHash sha256 stump in
    let '(r, d') := commitTo d
      [BSet (stumpKey (stump_BlockHash stump) (stump_SubtreeIndex stump) hash) (PStump stump);
       BSet (idxStumpBlockKey (stump_BlockHash stump) (stump_SubtreeIndex stump) hash) PEmpty] tt in
    (r, stump, d').

Fixpoint stumpsLoop (c : Ctx) (stumps : list Stump) (entries : list (string * payload))
  : list Stump * option error :=
  match entries with
  | [] => (stumps, None)
  | (_, v) :: rest =>
      if ctx_err c then (stumps, Some ErrCanceled)
      else match asStump v with
           | None => ([], Some ErrDecode)
           | Some st => stumpsLoop (ctx_tick c) (stumps ++ [(EnsureContentHash sha256 st).1]) rest
           end
  end.

Definition GetStumpsByBlockHash (c : Ctx) (blockHash : string) (d : DB) : list Stump * option error :=
  if ctx_err c then ([], Some ErrCanceled)
  else match eng_iter d (stumpBlockPrefix blockHash) (endOfPrefix (stumpBlockPrefix blockHash)) with
       | Err e => ([], Some e)
       | Ok entries => stumpsLoop (ctx_tick c) [] entries
       end.
End StumpRows.

Definition DeleteStumpsByBlockHash (c : Ctx) (blockHash : string) (d : DB) : Res unit * DB :=
  if ctx_err c then (Err ErrCanceled, d)
  else match eng_iter d (stumpBlockPrefix blockHash) (endOfPrefix (stumpBlockPrefix blockHash)) with
       | Err e => (Err e, d)
       | Ok entries =>
           match eng_iter d (idxStumpBlockPrefix blockHash) (endOfPrefix (idxStumpBlockPrefix blockHash)) with
           | Err e => (Err e, d)
           | Ok idxEntries => commitTo d (BDel <$> (entries ++ idxEntries).*1) tt
           end
       end.
End Operations.
