(* ===== verification/PebbleBlocksInv.v ===== *)
(** * PebbleBlocksInv: invariants of the block-processing rows

    The height index of [PebbleBlocks] holds exactly one entry per row, at
    the row's current height, and a row's orphan generation only grows.  Both
    follow from a description of every operation as a bounded number of row
    effects, which hold with any engine failure in between. *)
From stdpp Require Import base gmap strings list sorting relations.
From Stdlib Require Import ZArith Lia.
From Stdlib Require Import Strings.Byte.
From S2P Require Import Prelude Models StoreCore Keys Engine PebbleTx PebbleBlocks.

(** ** Height keys *)

Lemma heightKey_inj a x b y :
  is_u64 a -> is_u64 b -> idxBlockProcHeightKey a x = idxBlockProcHeightKey b y -> a = b ∧ x = y.
Proof.
  intros Ha Hb E. unfold idxBlockProcHeightKey in E. apply string_app_inj_l in E.
  apply colon_split in E as [E ->]; [|by rewrite hexpad_no_colon..].
  split; [|done]. apply hexpad_inj in E; unfold invert64, maxUint64, is_u64 in *; simpl in *; lia.
Qed.

Lemma blockProcKey_not_idx h : has_prefix prefixIdxBlockProcHeight (blockProcKey h) = false.
Proof. done. Qed.

(** ** The invariant *)

Record blk_ok (m : gmap string payload) : Prop := {
  blk_rows h v : m !! blockProcKey h = Some v ->
    ∃ b, v = PBlockProc b ∧ sp_BlockHash b = h ∧ no_colon h = true ∧ is_u64 (sp_BlockHeight b);
  blk_idx k : has_prefix prefixIdxBlockProcHeight k = true ->
    is_Some (m !! k) ↔ ∃ h b, m !! blockProcKey h = Some (PBlockProc b) ∧
                              k = idxBlockProcHeightKey (sp_BlockHeight b) h
}.

Lemma blk_ok_empty : blk_ok ∅.
Proof.
  split.
  - intros h v. by rewrite lookup_empty.
  - intros k _. rewrite lookup_empty. split; [by intros []|].
    intros (h & b & Hl & _). by rewrite lookup_empty in Hl.
Qed.

Lemma blk_row m h b :
  blk_ok m -> m !! blockProcKey h = Some (PBlockProc b) ->
  sp_BlockHash b = h ∧ no_colon h = true ∧ is_u64 (sp_BlockHeight b).
Proof. intros Hok Hl. destruct (blk_rows m Hok _ _ Hl) as (b' & [= <-] & ?). done. Qed.

(** Two stores that agree on the rows and their index. *)
Definition blk_foot (k : string) : bool :=
  has_prefix prefixBlockProc k || has_prefix prefixIdxBlockProcHeight k.

Lemma blk_ok_frame m m' :
  (∀ k, blk_foot k = true -> m' !! k = m !! k) -> blk_ok m -> blk_ok m'.
Proof.
  intros Hf Hok.
  assert (∀ h, m' !! blockProcKey h = m !! blockProcKey h) as Hr.
  { intros h. apply Hf. unfold blk_foot, blockProcKey. by rewrite has_prefix_app. }
  split.
  - intros h v. rewrite Hr. apply (blk_rows m Hok).
  - intros k Hk. rewrite Hf by (unfold blk_foot; rewrite Hk; apply orb_true_r).
    rewrite (blk_idx m Hok k Hk). by setoid_rewrite Hr.
Qed.

(** ** Writes *)

Definition prevOf (m : gmap string payload) (h : string) : option storedBlockProcessing :=
  match m !! blockProcKey h with Some (PBlockProc b) => Some b | _ => None end.

Lemma blockProcBatch_row m prev cur h :
  apply_batch m (blockProcBatch prev cur) !! blockProcKey h =
  if decide (h = sp_BlockHash cur) then Some (PBlockProc cur) else m !! blockProcKey h.
Proof.
  unfold blockProcBatch. rewrite apply_batch_app. cbn [apply_batch foldl apply_bop].
  rewrite lookup_insert_ne by keys_differ. destruct (decide (h = sp_BlockHash cur)) as [->|Hne].
  - by rewrite lookup_insert_eq.
  - rewrite lookup_insert_ne by (intros E%blockProcKey_inj; done).
    destruct prev as [p|]; [|done]. destruct (negb _); [|done]. simpl.
    rewrite lookup_delete_ne by keys_differ. done.
Qed.

Lemma blockProcBatch_idx m prev cur k :
  has_prefix prefixIdxBlockProcHeight k = true ->
  apply_batch m (blockProcBatch prev cur) !! k =
  if decide (k = idxBlockProcHeightKey (sp_BlockHeight cur) (sp_BlockHash cur)) then Some PEmpty
  else match prev with
       | Some p => if decide (k = idxBlockProcHeightKey (sp_BlockHeight p) (sp_BlockHash p) ∧
                              sp_BlockHeight p ≠ sp_BlockHeight cur) then None else m !! k
       | None => m !! k
       end.
Proof.
  intros Hk. unfold blockProcBatch. rewrite apply_batch_app. cbn [apply_batch foldl apply_bop].
  destruct (decide (k = _)) as [->|Hne]; [by rewrite lookup_insert_eq|].
  rewrite lookup_insert_ne by done.
  rewrite lookup_insert_ne by (intros <-; by rewrite blockProcKey_not_idx in Hk).
  destruct prev as [p|]; [|done].
  destruct (Z.eqb_spec (sp_BlockHeight p) (sp_BlockHeight cur)) as [E|E]; simpl.
  - rewrite decide_False by tauto. done.
  - case_decide as Hd; [destruct Hd as [-> _]; by rewrite lookup_delete_eq|].
    rewrite lookup_delete_ne; [done|]. intros <-. tauto.
Qed.

Lemma blk_ok_write m h cur :
  blk_ok m -> sp_BlockHash cur = h -> no_colon h = true -> is_u64 (sp_BlockHeight cur) ->
  blk_ok (apply_batch m (blockProcBatch (prevOf m h) cur)).
Proof.
  intros Hok Eh Hc Hu.
  assert (∀ h' b, apply_batch m (blockProcBatch (prevOf m h) cur) !! blockProcKey h' = Some (PBlockProc b) ↔
    (h' = h ∧ b = cur) ∨ (h' ≠ h ∧ m !! blockProcKey h' = Some (PBlockProc b))) as Hrow.
  { intros h' b. rewrite blockProcBatch_row, Eh. case_decide; naive_solver. }
  split.
  - intros h' v. rewrite blockProcBatch_row, Eh. case_decide as Hd.
    + intros [= <-]. subst h'. eauto.
    + apply (blk_rows m Hok).
  - intros k Hk. rewrite blockProcBatch_idx by done. setoid_rewrite Hrow. clear Hrow.
    destruct (decide (k = _)) as [->|Hne].
    { split; [|by eauto]. intros _. exists h, cur. rewrite Eh. auto. }
    assert (∀ h' b', (h' = h ∧ b' = cur) -> k ≠ idxBlockProcHeightKey (sp_BlockHeight b') h') as Hcur.
    { intros h' b' [-> ->] ->. by rewrite Eh in Hne. }
    unfold prevOf. destruct (m !! blockProcKey h) as [v|] eqn:Ep.
    + destruct (blk_rows m Hok _ _ Ep) as (p & -> & Eph & _ & Hpu).
      case_decide as Hd.
      * destruct Hd as [-> Hh]. split; [by intros []|].
        intros (h' & b' & [Hc'|[Hn Hb']] & Ek); [by destruct (Hcur _ _ Hc')|].
        destruct (blk_row _ _ _ Hok Hb') as (_ & _ & Hbu). apply heightKey_inj in Ek as [_ Ek]; [|done..].
        destruct Hn. congruence.
      * rewrite (blk_idx m Hok k Hk). split.
        -- intros (h' & b' & Hb' & Ek). destruct (decide (h' = h)) as [->|]; [|eauto 10].
           assert (b' = p) as -> by congruence. exfalso.
           destruct (decide (sp_BlockHeight p = sp_BlockHeight cur)) as [Eh'|Hh];
             [|destruct Hd; split; [by rewrite Eph|done]].
           apply Hne. by rewrite Eh, <-Eh'.
        -- intros (h' & b' & [Hc'|[Hn Hb']] & Ek); [by destruct (Hcur _ _ Hc')|eauto].
    + rewrite (blk_idx m Hok k Hk). split.
      * intros (h' & b' & Hb' & Ek). exists h', b'. split; [|done]. right. split; [congruence|done].
      * intros (h' & b' & [Hc'|[Hn Hb']] & Ek); [by destruct (Hcur _ _ Hc')|eauto].
Qed.

(** ** Operations as data *)

Inductive blk_op : Type :=
| BHeader (c : Ctx) (h : string) (height : Z) (seenAt : Time)
| BProcessed (c : Ctx) (h : string) (height : Z) (at_ : Time)
| BUnprocessed (c : Ctx) (h : string)
| BBuilt (c : Ctx) (h : string) (height : Z) (at_ : Time)
| BOrphanRow (gen : Z) (h : string)
| BOrphan (c : Ctx) (hs : list string) (at_ : Time)
| BReconciled (c : Ctx) (h : string) (tok at_ : Time)
| BRequeue (c : Ctx) (h : string) (tok : Time)
| BReactivate (c : Ctx) (h : string) (height : Z) (tok : Time)
| BParkRow (h : string)
| BPark (c : Ctx) (hs : list string)
| BExpect (c : Ctx) (h : string) (indices : list Z)
| BUnexpect (c : Ctx) (h : string).

(** How an operation may write the row of [h] given what is stored. *)
Definition blk_rw (o : blk_op) (h : string) (prev : option storedBlockProcessing)
    (cur : storedBlockProcessing) : Prop :=
  match o, prev with
  | BHeader _ h' height t, _ => h = h' ∧ cur = headerSeenRow h height t prev
  | BProcessed _ h' height t, _ => h = h' ∧ cur = processedRow h height t prev
  | BBuilt _ h' height t, _ => h = h' ∧ cur = bumpBuiltRow h height t prev
  | BUnprocessed _ h', Some p => h = h' ∧ cur = withProcessed p 0
  | BOrphanRow gen h', Some p => h = h' ∧ cur = orphanedRow p gen ∧
      ¬ (isOrphaned p = true ∧ (gen < sp_OrphanedAtUnixNs p)%Z)
  | BOrphan _ hs t, Some p => h ∈ hs ∧ cur = orphanedRow p (UnixNano t) ∧
      ¬ (isOrphaned p = true ∧ (UnixNano t < sp_OrphanedAtUnixNs p)%Z)
  | BReconciled _ h' tok t, Some p => h = h' ∧ generationMatches p tok = true ∧ cur = withReconciled p (UnixNano t)
  | BRequeue _ h' tok, Some p => h = h' ∧ generationMatches p tok = true ∧ cur = withReconciled p 0
  | BReactivate _ h' height tok, Some p => h = h' ∧ generationMatches p tok = true ∧ cur = reactivatedRow p height
  | BParkRow h', Some p => h = h' ∧ sp_Status p = BlockStatusActive ∧ cur = withStatus p BlockStatusParked
  | BPark _ hs, Some p => h ∈ hs ∧ sp_Status p = BlockStatusActive ∧ cur = withStatus p BlockStatusParked
  | _, _ => False
  end.

Definition blk_args_ok (o : blk_op) : Prop :=
  match o with
  | BHeader _ h height _ | BProcessed _ h height _ | BBuilt _ h height _ =>
      no_colon h = true ∧ is_u64 height
  | BReactivate _ _ height _ => is_u64 height
  | _ => True
  end.

(** An upper bound on the rows an operation writes. *)
Definition blk_weight (o : blk_op) : nat :=
  match o with BOrphan _ hs _ | BPark _ hs => length hs | _ => 1 end.

Inductive blk_effect (o : blk_op) (m : gmap string payload) : gmap string payload -> Prop :=
| be_frame m' : (∀ k, blk_foot k = true -> m' !! k = m !! k) -> blk_effect o m m'
| be_write h cur : sp_BlockHash cur = h -> blk_rw o h (prevOf m h) cur ->
    (∀ v, m !! blockProcKey h = Some v -> ∃ b, v = PBlockProc b) ->
    blk_effect o m (apply_batch m (blockProcBatch (prevOf m h) cur)).

Lemma be_none o m : blk_effect o m m.
Proof. by constructor. Qed.

Lemma blk_effect_ok o m m' : blk_args_ok o -> blk_effect o m m' -> blk_ok m -> blk_ok m'.
Proof.
  intros Ha [m1 Hf|h cur Eh Hrw _] Hok; [by eapply blk_ok_frame|].
  assert (∀ p, prevOf m h = Some p -> no_colon h = true ∧ is_u64 (sp_BlockHeight p)) as Hp.
  { unfold prevOf. intros p Ep. destruct (m !! blockProcKey h) as [[]|] eqn:E; simplify_eq.
    by destruct (blk_row _ _ _ Hok E) as (_ & ? & ?). }
  apply blk_ok_write; [done|done| |]; clear Eh; destruct (prevOf m h) as [p|] eqn:Ep;
    try specialize (Hp p eq_refl); destruct o; simpl in *; destruct_and?; subst; simpl; tauto.
Qed.

Section Runs.
Context {DB : Type} `{EngineSpec DB}.

Definition run_blk (o : blk_op) (d : DB) : DB :=
  match o with
  | BHeader c h ht t => (UpsertBlockHeaderSeen c h ht t d).2
  | BProcessed c h ht t => (MarkBlockProcessed c h ht t d).2
  | BUnprocessed c h => (ClearBlockProcessed c h d).2
  | BBuilt c h ht t => (MarkBlockBUMPBuilt c h ht t d).2
  | BOrphanRow gen h => (orphanStep gen h d).2
  | BOrphan c hs t => (MarkBlocksOrphaned c hs t d).2
  | BReconciled c h tok t => (MarkBlockReconciled c h tok t d).2
  | BRequeue c h tok => (RequeueOrphanedBlock c h tok d).2
  | BReactivate c h ht tok => (ReactivateBlock c h ht tok d).2
  | BParkRow h => (parkStep h d).2
  | BPark c hs => (MarkBlocksParked c hs d).2
  | BExpect c h idx => (AddBlockExpectedSubtrees c h idx d).2
  | BUnexpect c h => (ClearBlockExpectedSubtrees c h d).2
  end.

Definition run_blks (ops : list blk_op) (d : DB) : DB := foldl (fun d o => run_blk o d) d ops.

Lemma readBlockProc_sound d h r :
  readBlockProc d h = Ok r ->
  r = prevOf (view d) h ∧ ∀ v, view d !! blockProcKey h = Some v -> ∃ b, v = PBlockProc b.
Proof.
  unfold readBlockProc, prevOf. destruct (eng_get d (blockProcKey h)) as [v|] eqn:E; [|done].
  apply get_sound in E as <-. destruct v as [v|]; [|by intros [= <-]].
  destruct v; simpl; try done. intros [= <-]. split; [done|]. intros ? [= <-]. eauto.
Qed.

Lemma writeBlockProc_effect {A} o d h cur (r : A) :
  sp_BlockHash cur = h -> blk_rw o h (prevOf (view d) h) cur ->
  (∀ v, view d !! blockProcKey h = Some v -> ∃ b, v = PBlockProc b) ->
  blk_effect o (view d) (view (writeBlockProc d (prevOf (view d) h) cur r).2).
Proof.
  intros Eh Hrw Hv. unfold writeBlockProc, commitTo.
  destruct (eng_commit d _) as [d'|] eqn:E; [|apply be_none].
  apply commit_sound in E. simpl. rewrite E. by apply be_write.
Qed.

Lemma commit_frame {A} o d b (r : A) :
  (∀ k, blk_foot k = true -> k ∉ (bop_key <$> b)) ->
  blk_effect o (view d) (view (commitTo d b r).2).
Proof.
  intros Hf. unfold commitTo. destruct (eng_commit d b) as [d'|] eqn:E; [|apply be_none].
  apply commit_sound in E. simpl. rewrite E. apply be_frame. intros k Hk. apply apply_batch_other. auto.
Qed.

(** The stored rows carry their own hash. *)
Definition hashes_ok (m : gmap string payload) : Prop :=
  ∀ h b, m !! blockProcKey h = Some (PBlockProc b) -> sp_BlockHash b = h.

Lemma hashes_ok_effect o m m' : blk_effect o m m' -> hashes_ok m -> hashes_ok m'.
Proof.
  intros [m1 Hf|h cur Eh _ _] Hok h' b.
  - rewrite Hf; [apply Hok|]. unfold blk_foot, blockProcKey. by rewrite has_prefix_app.
  - rewrite blockProcBatch_row. case_decide; [|apply Hok]. intros [= <-]. congruence.
Qed.

Lemma prevOf_hash m h p : hashes_ok m -> prevOf m h = Some p -> sp_BlockHash p = h.
Proof.
  intros Hok. unfold prevOf. destruct (m !! blockProcKey h) as [[]|] eqn:E; try done.
  intros [= <-]. by apply Hok.
Qed.

(** Read the row of [h]; failed reads leave the store alone. *)
Ltac read_block :=
  match goal with
  | |- context [readBlockProc ?d ?h] =>
      let E := fresh "Erow" in let Hv := fresh "Hdec" in
      destruct (readBlockProc d h) as [?r|] eqn:E; simpl; try (by apply be_none);
      destruct (readBlockProc_sound _ _ _ E) as [-> Hv]
  end.

Ltac read_some_block Hok :=
  read_block;
  let Ep := fresh "Eprev" in
  match goal with
  | |- context [prevOf ?m ?h] => destruct (prevOf m h) as [?p|] eqn:Ep; simpl; try (by apply be_none);
      pose proof (prevOf_hash _ _ _ Hok Ep) as Hhash
  end.

Ltac write_block Ep := rewrite <-Ep; apply writeBlockProc_effect; [done|rewrite Ep; simpl|done].

Lemma orphanStep_effect o gen h d :
  hashes_ok (view d) -> (∀ prev cur, blk_rw (BOrphanRow gen h) h prev cur -> blk_rw o h prev cur) ->
  blk_effect o (view d) (view (orphanStep gen h d).2).
Proof.
  intros Hok Ho. unfold orphanStep. read_some_block Hok.
  destruct (isOrphaned p && (gen <? sp_OrphanedAtUnixNs p)%Z) eqn:Eg; simpl; [apply be_none|].
  rewrite <-Eprev. apply writeBlockProc_effect; [done| |done]. apply Ho. rewrite Eprev. simpl.
  split_and!; [done|done|]. intros [E1 E2]. rewrite E1 in Eg. simpl in Eg. lia.
Qed.

Lemma parkStep_effect o h d :
  hashes_ok (view d) -> (∀ prev cur, blk_rw (BParkRow h) h prev cur -> blk_rw o h prev cur) ->
  blk_effect o (view d) (view (parkStep h d).2).
Proof.
  intros Hok Ho. unfold parkStep. read_some_block Hok.
  destruct (String.eqb_spec (sp_Status p) BlockStatusActive) as [Es|]; simpl; [|apply be_none].
  rewrite <-Eprev. apply writeBlockProc_effect; [done| |done]. apply Ho. rewrite Eprev. done.
Qed.

(** A number of effects within the operation's weight. *)
Definition blk_effects (o : blk_op) (w : nat) (m m' : gmap string payload) : Prop :=
  ∃ n, (n <= w)%nat ∧ nsteps (blk_effect o) n m m'.

Lemma blk_effects_refl o w m : blk_effects o w m m.
Proof. exists 0%nat. split; [lia|constructor]. Qed.

Lemma blk_effects_cons o w m1 m2 m3 :
  blk_effect o m1 m2 -> blk_effects o w m2 m3 -> blk_effects o (S w) m1 m3.
Proof. intros He (n & Hn & Hs). exists (S n). split; [lia|by econstructor]. Qed.

Lemma blk_effects_one o m m' : blk_effect o m m' -> blk_effects o 1 m m'.
Proof. intros He. eapply blk_effects_cons; [done|apply blk_effects_refl]. Qed.

Lemma orphanLoop_effects o c gen n hs d :
  hashes_ok (view d) ->
  (∀ h prev cur, h ∈ hs -> blk_rw (BOrphanRow gen h) h prev cur -> blk_rw o h prev cur) ->
  blk_effects o (length hs) (view d) (view (orphanLoop c gen n hs d).2).
Proof.
  revert c n d. induction hs as [|h hs IH]; intros c n d Hok Ho; [apply blk_effects_refl|].
  cbn [orphanLoop]. destruct (ctx_err c); [apply blk_effects_refl|].
  assert (blk_effect o (view d) (view (orphanStep gen h d).2)) as Hs
    by (apply orphanStep_effect; [done|]; intros; apply Ho; set_solver).
  pose proof (hashes_ok_effect _ _ _ Hs Hok) as Hok'.
  destruct (orphanStep gen h d) as [[[]|] d']; simpl in *; eapply blk_effects_cons; eauto using blk_effects_refl.
  - apply IH; [done|]. intros; apply Ho; set_solver.
  - apply IH; [done|]. intros; apply Ho; set_solver.
Qed.

Lemma parkLoop_effects o c hs d :
  hashes_ok (view d) ->
  (∀ h prev cur, h ∈ hs -> blk_rw (BParkRow h) h prev cur -> blk_rw o h prev cur) ->
  blk_effects o (length hs) (view d) (view (parkLoop c hs d).2).
Proof.
  revert c d. induction hs as [|h hs IH]; intros c d Hok Ho; [apply blk_effects_refl|].
  cbn [parkLoop]. destruct (ctx_err c); [apply blk_effects_refl|].
  assert (blk_effect o (view d) (view (parkStep h d).2)) as Hs
    by (apply parkStep_effect; [done|]; intros; apply Ho; set_solver).
  pose proof (hashes_ok_effect _ _ _ Hs Hok) as Hok'.
  destruct (parkStep h d) as [[|] d']; simpl in *; eapply blk_effects_cons; eauto using blk_effects_refl.
  apply IH; [done|]. intros; apply Ho; set_solver.
Qed.

Lemma expected_not_foot h k : blk_foot k = true -> k ≠ blockExpectedKey h.
Proof. by intros Hk ->. Qed.

Lemma blk_op_effects o d :
  hashes_ok (view d) -> blk_effects o (blk_weight o) (view d) (view (run_blk o d)).
Proof.
  intros Hok. destruct o; simpl; try apply blk_effects_one.
  - unfold UpsertBlockHeaderSeen. destruct (ctx_err c); [apply be_none|]. read_block.
    by apply writeBlockProc_effect.
  - unfold MarkBlockProcessed. destruct (ctx_err c); [apply be_none|]. read_block.
    apply writeBlockProc_effect; [by destruct (prevOf _ _)|done|done].
  - unfold ClearBlockProcessed. destruct (ctx_err c); [apply be_none|]. read_some_block Hok.
    by write_block Eprev.
  - unfold MarkBlockBUMPBuilt. destruct (ctx_err c); [apply be_none|]. read_block.
    apply writeBlockProc_effect; [by destruct (prevOf _ _)|done|done].
  - by apply orphanStep_effect.
  - unfold MarkBlocksOrphaned. destruct (ctx_err c); [apply blk_effects_refl|].
    apply orphanLoop_effects; [done|]. intros h [p|] cur Hin; simpl; naive_solver.
  - unfold MarkBlockReconciled. destruct (ctx_err c); [apply be_none|]. read_some_block Hok.
    destruct (generationMatches p tok) eqn:Eg; simpl; [|apply be_none]. by write_block Eprev.
  - unfold RequeueOrphanedBlock. destruct (ctx_err c); [apply be_none|]. read_some_block Hok.
    destruct (generationMatches p tok) eqn:Eg; simpl; [|apply be_none].
    destruct (sp_ReconciledAtUnixNs p =? 0)%Z; [apply be_none|]. by write_block Eprev.
  - unfold ReactivateBlock. destruct (ctx_err c); [apply be_none|]. read_some_block Hok.
    destruct (generationMatches p tok) eqn:Eg; simpl; [|apply be_none]. by write_block Eprev.
  - by apply parkStep_effect.
  - unfold MarkBlocksParked. destruct (ctx_err c); [apply blk_effects_refl|].
    apply parkLoop_effects; [done|]. intros h [p|] cur Hin; simpl; naive_solver.
  - unfold AddBlockExpectedSubtrees. destruct (ctx_err c); [apply be_none|].
    destruct indices; [apply be_none|]. read_some_block Hok.
    destruct (readBlockExpected d h) as [cur|]; [|apply be_none]. apply commit_frame.
    intros k Hk. simpl. rewrite list_elem_of_singleton. by apply expected_not_foot.
  - unfold ClearBlockExpectedSubtrees. destruct (ctx_err c); [apply be_none|]. apply commit_frame.
    intros k Hk. simpl. rewrite list_elem_of_singleton. by apply expected_not_foot.
Qed.

Lemma blk_ok_hashes m : blk_ok m -> hashes_ok m.
Proof. intros Hok h b Hl. by destruct (blk_row _ _ _ Hok Hl). Qed.

Lemma blk_effects_ok o w m m' : blk_args_ok o -> blk_effects o w m m' -> blk_ok m -> blk_ok m'.
Proof.
  intros Ha (n & _ & Hs). induction Hs as [|n x y z He _ IH]; [done|]. intros Hok. apply IH.
  by eapply blk_effect_ok.
Qed.

Lemma run_blks_ok ops d :
  Forall blk_args_ok ops -> blk_ok (view d) -> blk_ok (view (run_blks ops d)).
Proof.
  unfold run_blks. intros Ha. revert d. induction Ha as [|o ops Ho _ IH]; intros d Hd; [done|].
  simpl. apply IH. eapply blk_effects_ok; [done|apply blk_op_effects|done]. by apply blk_ok_hashes.
Qed.
End Runs.
