(* ===== verification/PebbleBlocksProps.v ===== *)
(** * PebbleBlocksProps: correctness of the block-processing rows

    The height index is exact, an orphan generation observed once is never
    accepted again after the block was re-orphaned, and the listings return
    what they promise, in order and without gaps. *)
From stdpp Require Import base gmap strings list sorting relations.
From Stdlib Require Import ZArith Lia.
From Stdlib Require Import Strings.Byte.
From S2P Require Import Prelude Models StoreCore Keys Engine PebbleTx PebbleTxQueries PebbleBlocks PebbleBlocksInv.

(** ** Generations *)

Definition genOf (m : gmap string payload) (h : string) : Z :=
  match prevOf m h with Some b => sp_OrphanedAtUnixNs b | None => 0%Z end.

Definition minInt64 : Z := - 2 ^ 63.

(** Orphan timestamps of an operation lie in [int64] and at or below [T]. *)
Definition op_times (T : Z) (o : blk_op) : Prop :=
  match o with
  | BOrphanRow gen _ => (minInt64 <= gen <= T)%Z
  | BOrphan _ _ t => (minInt64 <= UnixNano t <= T)%Z
  | _ => True
  end.

Definition weight (ops : list blk_op) : Z := foldr (fun o w => Z.of_nat (blk_weight o) + w)%Z 0%Z ops.

Lemma weight_nonneg ops : (0 <= weight ops)%Z.
Proof. induction ops; simpl; lia. Qed.

Lemma mint_bounds p g T :
  (minInt64 <= p <= T)%Z -> (minInt64 <= g <= T)%Z -> (T < maxInt64)%Z ->
  (p < mintOrphanGeneration p g <= T + 1)%Z.
Proof.
  unfold mintOrphanGeneration, minInt64, maxInt64, int64. intros Hp Hg HT.
  destruct (Z.leb_spec g p); [|lia]. rewrite Z.mod_small; lia.
Qed.

Lemma prevOf_write m cur h :
  prevOf (apply_batch m (blockProcBatch (prevOf m (sp_BlockHash cur)) cur)) h =
  if decide (h = sp_BlockHash cur) then Some cur else prevOf m h.
Proof. unfold prevOf at 1. rewrite blockProcBatch_row. by case_decide. Qed.

Definition genp (prev : option storedBlockProcessing) : Z :=
  match prev with Some b => sp_OrphanedAtUnixNs b | None => 0%Z end.

Lemma rw_gen o h T prev cur :
  blk_rw o h prev cur -> op_times T o -> (minInt64 <= genp prev <= T)%Z -> (T < maxInt64)%Z ->
  (genp prev <= sp_OrphanedAtUnixNs cur <= T + 1)%Z.
Proof.
  destruct prev as [p|], o; simpl; intros Hrw Ho Hg HT; try done; destruct_and?; subst; simpl; try lia.
  - pose proof (mint_bounds (sp_OrphanedAtUnixNs p) gen T). lia.
  - pose proof (mint_bounds (sp_OrphanedAtUnixNs p) (UnixNano at_) T). lia.
Qed.

Lemma effect_gen o T m m' h :
  blk_effect o m m' -> op_times T o -> (minInt64 <= genOf m h <= T)%Z -> (T < maxInt64)%Z ->
  (genOf m h <= genOf m' h <= T + 1)%Z.
Proof.
  intros [m1 Hf|h' cur <- Hrw _] Ho Hg HT.
  - unfold genOf, prevOf. rewrite Hf; [unfold genOf, prevOf in Hg; lia|].
    unfold blk_foot, blockProcKey. by rewrite has_prefix_app.
  - unfold genOf in *. rewrite prevOf_write. case_decide as Hd; [|lia]. subst h.
    by eapply rw_gen.
Qed.

Lemma op_times_mono T T' o : (T <= T')%Z -> op_times T o -> op_times T' o.
Proof. destruct o; simpl; lia. Qed.

Lemma effects_gen o w T m m' h :
  blk_effects o w m m' -> op_times T o -> (minInt64 <= genOf m h <= T)%Z ->
  (T + Z.of_nat w <= maxInt64)%Z -> (genOf m h <= genOf m' h <= T + Z.of_nat w)%Z.
Proof.
  intros (n & Hn & Hs). revert T w Hn. induction Hs as [|n x y z He _ IH]; intros T w Hn Ho Hg HT; [lia|].
  pose proof (effect_gen o T x y h He Ho Hg) as H1.
  pose proof (IH (T + 1)%Z (w - 1)%nat) as H2.
  pose proof (op_times_mono T (T + 1) o). unfold minInt64, maxInt64 in *.
  destruct w; [lia|]. specialize (H1 ltac:(lia)). specialize (H2 ltac:(lia) ltac:(auto with lia)). lia.
Qed.

Section Generations.
Context {DB : Type} `{EngineSpec DB}.

Lemma run_gen ops T (d : DB) h :
  Forall blk_args_ok ops -> Forall (op_times T) ops -> blk_ok (view d) ->
  (minInt64 <= genOf (view d) h <= T)%Z -> (T + weight ops <= maxInt64)%Z ->
  (genOf (view d) h <= genOf (view (run_blks ops d)) h <= T + weight ops)%Z.
Proof.
  unfold run_blks. revert T d. induction ops as [|o ops IH]; intros T d Ha Ho Hok Hg HT; [simpl in *; lia|].
  apply Forall_cons in Ha as [Hao Ha], Ho as [Hoo Ho]. cbn [foldl weight foldr] in *.
  pose proof (weight_nonneg ops) as Hw. unfold weight in Hw.
  pose proof (blk_op_effects o d (blk_ok_hashes _ Hok)) as He.
  pose proof (effects_gen _ _ T _ _ h He Hoo Hg ltac:(lia)) as H1.
  pose proof (IH (T + Z.of_nat (blk_weight o))%Z (run_blk o d) Ha) as H2.
  specialize (H2 ltac:(eapply Forall_impl; [done|]; intros; eapply op_times_mono; [|done]; lia)).
  specialize (H2 ltac:(by eapply blk_effects_ok)).
  unfold minInt64, weight in *. lia.
Qed.

(** A token that no longer matches is refused, and the store left as it is. *)
Lemma stale_token_refused c h g at_ ht (d : DB) :
  genOf (view d) h ≠ g ->
  ((MarkBlockReconciled c h (Some g) at_ d).1 ≠ Ok true ∧ (MarkBlockReconciled c h (Some g) at_ d).2 = d) ∧
  ((RequeueOrphanedBlock c h (Some g) d).1 ≠ Ok true ∧ (RequeueOrphanedBlock c h (Some g) d).2 = d) ∧
  ((ReactivateBlock c h ht (Some g) d).1 ≠ Ok true ∧ (ReactivateBlock c h ht (Some g) d).2 = d).
Proof.
  intros Hg. unfold MarkBlockReconciled, RequeueOrphanedBlock, ReactivateBlock.
  destruct (ctx_err c); [done|]. destruct (readBlockProc d h) as [r|] eqn:E; [|done].
  apply readBlockProc_sound in E as [-> _]. unfold genOf in Hg.
  destruct (prevOf (view d) h) as [p|]; [|done].
  assert (generationMatches p (Some g) = false) as ->; [|done].
  unfold generationMatches. simpl. apply andb_false_intro2. by apply Z.eqb_neq.
Qed.

(** Orphaning a block that was not orphaned mints a fresh generation. *)
Lemma orphanStep_gen gen h T (d : DB) :
  blk_ok (view d) -> (orphanStep gen h d).1 = Ok true ->
  (minInt64 <= genOf (view d) h <= T)%Z -> (minInt64 <= gen <= T)%Z -> (T < maxInt64)%Z ->
  (genOf (view d) h < genOf (view (orphanStep gen h d).2) h <= T + 1)%Z.
Proof.
  intros Hok. unfold orphanStep. destruct (readBlockProc d h) as [r|] eqn:Er; [|done].
  apply readBlockProc_sound in Er as [-> _]. destruct (prevOf (view d) h) as [p|] eqn:Ep; [|done].
  destruct (isOrphaned p && _) eqn:Eo; [done|]. unfold writeBlockProc, commitTo.
  destruct (eng_commit d _) as [d2|] eqn:Ec; [|done]. intros _ Hg Hn HT. apply commit_sound in Ec. simpl.
  pose proof (prevOf_hash _ _ _ (blk_ok_hashes _ Hok) Ep) as Eh.
  assert (prevOf (view d2) h = Some (orphanedRow p gen)) as Ep'.
  { unfold prevOf. rewrite Ec, blockProcBatch_row, decide_True; [done|]. by rewrite <-Eh. }
  unfold genOf in *. rewrite Ep, Ep' in *. cbn [orphanedRow sp_OrphanedAtUnixNs]. by apply mint_bounds.
Qed.

(** C11: an orphan generation is a single-use token: once a block has been
    orphaned again, the generation its row carried before, whatever happened
    in between and afterwards and whatever timestamps callers reuse, is
    refused by all three compare-and-set writers, which then change nothing.
    The bound says that the counter does not reach the end of [int64]. *)
Theorem orphan_token_never_reused (ops1 ops2 : list blk_op) (T gen : Z) (h : string)
    (b : storedBlockProcessing) (d : DB) (c : Ctx) (at_ : Time) (ht : Z) :
  blk_ok (view d) -> view d !! blockProcKey h = Some (PBlockProc b) ->
  Forall blk_args_ok (ops1 ++ ops2) -> Forall (op_times T) (ops1 ++ BOrphanRow gen h :: ops2) ->
  (minInt64 <= sp_OrphanedAtUnixNs b <= T)%Z -> (T + weight ops1 + 1 + weight ops2 <= maxInt64)%Z ->
  (orphanStep gen h (run_blks ops1 d)).1 = Ok true ->
  let d' := run_blks ops2 (orphanStep gen h (run_blks ops1 d)).2 in
  let g := sp_OrphanedAtUnixNs b in
  ((MarkBlockReconciled c h (Some g) at_ d').1 ≠ Ok true ∧ (MarkBlockReconciled c h (Some g) at_ d').2 = d') ∧
  ((RequeueOrphanedBlock c h (Some g) d').1 ≠ Ok true ∧ (RequeueOrphanedBlock c h (Some g) d').2 = d') ∧
  ((ReactivateBlock c h ht (Some g) d').1 ≠ Ok true ∧ (ReactivateBlock c h ht (Some g) d').2 = d').
Proof.
  intros Hok Hb Ha Ho Hg HT Horph. cbv zeta. apply stale_token_refused.
  apply Forall_app in Ha as [Ha1 Ha2], Ho as [Ho1 Ho2]. apply Forall_cons in Ho2 as [Hog Ho2].
  pose proof (weight_nonneg ops1) as Hw1. pose proof (weight_nonneg ops2) as Hw2.
  assert (genOf (view d) h = sp_OrphanedAtUnixNs b) as Eg by (unfold genOf, prevOf; by rewrite Hb).
  pose proof (run_gen ops1 T d h Ha1 Ho1 Hok ltac:(lia) ltac:(lia)) as H1.
  pose proof (run_blks_ok ops1 d Ha1 Hok) as Hok1. set (d1 := run_blks ops1 d) in *.
  assert (genOf (view d1) h < genOf (view (orphanStep gen h d1).2) h <= T + weight ops1 + 1)%Z as H2.
  { simpl in Hog. apply orphanStep_gen; unfold minInt64 in *; lia || done. }
  assert (blk_ok (view (orphanStep gen h d1).2)) as Hok2
    by (apply (run_blks_ok [BOrphanRow gen h]); [by repeat constructor|done]).
  pose proof (run_gen ops2 (T + weight ops1 + 1) (orphanStep gen h d1).2 h Ha2) as H3.
  specialize (H3 ltac:(eapply Forall_impl; [done|]; intros; eapply op_times_mono; [|done]; lia) Hok2).
  unfold minInt64 in *. lia.
Qed.

(** After any sequence of block operations and single-row steps, with any
    engine failures, the height index holds exactly one entry per stored row,
    at the row's current height, and every row is stored under its own hash. *)
Theorem blk_index_invariant (ops : list blk_op) (d : DB) :
  Forall blk_args_ok ops -> view d = ∅ -> blk_ok (view (run_blks ops d)).
Proof. intros Ha Hd. apply run_blks_ok; [done|]. rewrite Hd. apply blk_ok_empty. Qed.
End Generations.

(** ** Scans of the height index *)

Definition heightGe (a b : storedBlockProcessing) : Prop := (sp_BlockHeight b <= sp_BlockHeight a)%Z.

Lemma height_key_lt a x b y :
  is_u64 a -> is_u64 b -> (b < a)%Z -> str_ltb (idxBlockProcHeightKey a x) (idxBlockProcHeightKey b y) = true.
Proof.
  intros Ha Hb Hlt. unfold idxBlockProcHeightKey. rewrite str_ltb_app. unfold is_u64 in *.
  apply hexpad_lt; unfold invert64, maxUint64; simpl; lia.
Qed.

(** The bounds of [ListBlockProcessingStatus] select the rows below the cursor. *)
Lemma list_range before ht h :
  is_u64 before -> is_u64 ht ->
  in_range (listLower before) (endOfPrefix idxBlockProcHeightPrefix) (idxBlockProcHeightKey ht h) = true ↔
  before = 0%Z ∨ (ht < before)%Z.
Proof.
  intros Hb Hh.
  assert (in_range idxBlockProcHeightPrefix (endOfPrefix idxBlockProcHeightPrefix)
            (idxBlockProcHeightKey ht h) = true) as Hr
    by (rewrite endOfPrefix_range; apply has_prefix_app).
  unfold listLower. destruct (Z.ltb_spec 0 before) as [Hpos|]; [|unfold is_u64 in *; rewrite Hr; lia].
  unfold in_range in *. apply andb_true_iff in Hr as [_ Hr]. rewrite Hr, andb_true_r.
  unfold str_leb. rewrite negb_true_iff. unfold idxBlockProcHeightKey. rewrite str_ltb_app.
  unfold is_u64, invert64, maxUint64 in *.
  destruct (Z.lt_trichotomy ht (before - 1)) as [Hlt|[->|Hgt]].
  - rewrite str_ltb_asym; [split; [lia|done]|]. apply hexpad_lt; simpl; lia.
  - rewrite str_ltb_app. split; [lia|]. intros _. simpl. by destruct h.
  - rewrite hexpad_lt by (simpl; lia). split; [done|lia].
Qed.

Lemma list_range_prefix before k :
  is_u64 before ->
  in_range (listLower before) (endOfPrefix idxBlockProcHeightPrefix) k = true ->
  has_prefix idxBlockProcHeightPrefix k = true.
Proof.
  intros Hb. rewrite <-endOfPrefix_range. unfold in_range. intros [Hl ->]%andb_true_iff. rewrite andb_true_r.
  unfold listLower in Hl. destruct (0 <? before)%Z; [|done]. unfold str_leb in *. rewrite negb_true_iff in *.
  destruct (str_ltb k idxBlockProcHeightPrefix) eqn:E; [|done]. rewrite <-Hl. symmetry.
  eapply str_ltb_trans; [done|]. unfold idxBlockProcHeightPrefix.
  rewrite <-(string_app_nil_r prefixIdxBlockProcHeight) at 1. by rewrite str_ltb_app.
Qed.

(** ** Stable sorting *)
Section StableSort.
Context {A : Type} (less : A -> A -> bool).
Context (less_asym : ∀ a b, less a b = true -> less b a = false).
Context (less_cotrans : ∀ a b c, less b a = false -> less c b = false -> less c a = false).

Lemma stableInsert_perm x l : stableInsert less x l ≡ₚ x :: l.
Proof.
  induction l as [|y l IH]; [done|]. cbn [stableInsert]. destruct (less y x); [|done].
  rewrite IH. apply Permutation_swap.
Qed.

Lemma stableSort_perm l : stableSort less l ≡ₚ l.
Proof. induction l as [|x l IH]; [done|]. simpl. by rewrite stableInsert_perm, IH. Qed.

Lemma stableSort_sorted l : StronglySorted (fun a b => less b a = false) (stableSort less l).
Proof.
  induction l as [|x l IH]; [constructor|]. simpl.
  revert IH. generalize (stableSort less l). clear l. intros l IH.
  induction IH as [|y l Hs IH Hf]; [repeat constructor|]. cbn [stableInsert].
  destruct (less y x) eqn:E.
  - constructor; [done|]. rewrite stableInsert_perm. constructor; [|done]. by apply less_asym.
  - constructor; [by constructor|]. constructor; [done|].
    eapply Forall_impl; [exact Hf|]. intros z Hz. by eapply less_cotrans.
Qed.
End StableSort.

Lemma reanchorLess_asym a b : reanchorLess a b = true -> reanchorLess b a = false.
Proof. unfold reanchorLess. destruct (a.1), (b.1); simpl; try done; lia. Qed.

Lemma reanchorLess_cotrans a b c :
  reanchorLess b a = false -> reanchorLess c b = false -> reanchorLess c a = false.
Proof. unfold reanchorLess. destruct (a.1), (b.1), (c.1); simpl; try done; lia. Qed.

(** ** Sorted sets of indices *)

Lemma compactFrom_spec x l :
  StronglySorted Z.le (x :: l) ->
  StronglySorted Z.lt (compactFrom x l) ∧ (∀ y, y ∈ compactFrom x l ↔ y ∈ x :: l).
Proof.
  revert x. induction l as [|z l IH]; intros x Hs; cbn [compactFrom].
  { split; [repeat constructor|done]. }
  apply StronglySorted_inv in Hs as [Hs Hf]. apply Forall_cons in Hf as [Hxz Hf].
  destruct (Z.eqb_spec x z) as [->|Hne].
  - destruct (IH z Hs) as [H1 H2]. split; [done|]. intros y. rewrite H2. set_solver.
  - destruct (IH z Hs) as [H1 H2]. split; [|intros y; rewrite !elem_of_cons, H2; set_solver].
    constructor; [done|]. apply Forall_forall. intros y [->|Hy]%H2%elem_of_cons; [lia|].
    apply StronglySorted_inv in Hs as [_ Hz]. rewrite Forall_forall in Hz. specialize (Hz y Hy). lia.
Qed.

Lemma sortCompact_spec l :
  StronglySorted Z.lt (compact (merge_sort Z.le l)) ∧ (∀ y, y ∈ compact (merge_sort Z.le l) ↔ y ∈ l).
Proof.
  assert (StronglySorted Z.le (merge_sort Z.le l)) as Hs by (apply StronglySorted_merge_sort; apply _).
  assert (∀ y, y ∈ merge_sort Z.le l ↔ y ∈ l) as Hp by (intros y; by rewrite merge_sort_Permutation).
  destruct (merge_sort Z.le l) as [|x l']; simpl.
  - split; [constructor|done].
  - destruct (compactFrom_spec x l' Hs) as [H1 H2]. split; [done|]. intros y. by rewrite H2.
Qed.

Section Listings.
Context {DB : Type} `{EngineReliable DB}.

Lemma readBlockProc_total (d : DB) h : blk_ok (view d) -> readBlockProc d h = Ok (prevOf (view d) h).
Proof.
  intros Hok. unfold readBlockProc, prevOf. rewrite get_total.
  destruct (view d !! blockProcKey h) as [v|] eqn:E; [|done].
  destruct (blk_rows _ Hok _ _ E) as (b & -> & _). done.
Qed.

(** A walk over the height index, and the rows it leads to. *)
Definition blk_walk (d : DB) (k : string) (b : storedBlockProcessing) : Prop :=
  k = idxBlockProcHeightKey (sp_BlockHeight b) (sp_BlockHash b) ∧
  view d !! blockProcKey (sp_BlockHash b) = Some (PBlockProc b).

Lemma blk_walk_read d k b :
  blk_ok (view d) -> blk_walk d k b -> readBlockProc d (lastSegment k) = Ok (Some b).
Proof.
  intros Hok (-> & Hb). destruct (blk_row _ _ _ Hok Hb) as (_ & Hc & _).
  autorewrite with keys. rewrite readBlockProc_total by done. unfold prevOf. by rewrite Hb.
Qed.

Lemma blk_walk_sorted d ks bs :
  blk_ok (view d) -> Forall2 (blk_walk d) ks bs ->
  StronglySorted (fun a b => str_ltb a b = true) ks -> StronglySorted heightGe bs.
Proof.
  intros Hok Hw Hs. revert bs Hw. induction Hs as [|k ks _ IH Hf]; intros bs Hw.
  { apply Forall2_nil_inv_l in Hw as ->. constructor. }
  apply Forall2_cons_inv_l in Hw as (b & bs' & (-> & Hb) & Hw & ->).
  constructor; [by apply IH|]. apply Forall_forall. intros b' Hb'.
  apply list_elem_of_lookup in Hb' as [i Hi].
  destruct (Forall2_lookup_r _ _ _ _ _ Hw Hi) as (k' & Hk' & (-> & Hb')).
  pose proof (proj1 (Forall_forall _ _) Hf _ (list_elem_of_lookup_2 _ _ _ Hk')) as Hlt. unfold heightGe.
  destruct (blk_row _ _ _ Hok Hb) as (_ & _ & Hu), (blk_row _ _ _ Hok Hb') as (_ & _ & Hu').
  destruct (Z.le_gt_cases (sp_BlockHeight b') (sp_BlockHeight b)) as [|Hgt]; [done|].
  apply str_ltb_asym in Hlt. rewrite height_key_lt in Hlt; [done|done|done|lia].
Qed.

(** The rows of a cursor scan: every row below the cursor, descending. *)
Definition listed (d : DB) (before : Z) (bs : list storedBlockProcessing) : Prop :=
  StronglySorted heightGe bs ∧ NoDup bs ∧
  ∀ b, b ∈ bs ↔ view d !! blockProcKey (sp_BlockHash b) = Some (PBlockProc b) ∧
                (before = 0%Z ∨ (sp_BlockHeight b < before)%Z).

Lemma height_scan d before l :
  blk_ok (view d) -> is_u64 before ->
  scan_of (view d) (listLower before) (endOfPrefix idxBlockProcHeightPrefix) l ->
  ∃ bs, Forall2 (blk_walk d) l.*1 bs ∧ listed d before bs.
Proof.
  intros Hok Hbef Hs.
  assert (∀ k, k ∈ l.*1 ↔ is_Some (view d !! k) ∧
    in_range (listLower before) (endOfPrefix idxBlockProcHeightPrefix) k = true) as Hkeys.
  { intros k. rewrite list_elem_of_fmap. destruct Hs as [_ Hl]. split.
    - intros ([k' v] & -> & Hin). apply Hl in Hin as [? ?]. eauto.
    - intros [[v Hv] Hr]. exists (k, v). split; [done|]. by apply Hl. }
  assert (∀ k, k ∈ l.*1 -> ∃ b, blk_walk d k b ∧ (before = 0%Z ∨ (sp_BlockHeight b < before)%Z)) as Hk.
  { intros k [Hv Hr]%Hkeys.
    apply (blk_idx _ Hok) in Hv as (h & b & Hb & ->); [|by eapply list_range_prefix].
    destruct (blk_row _ _ _ Hok Hb) as (<- & _ & Hu). exists b. split; [done|].
    by apply (list_range before (sp_BlockHeight b) (sp_BlockHash b)). }
  destruct (Forall_choose (fun k b => blk_walk d k b ∧ (before = 0%Z ∨ (sp_BlockHeight b < before)%Z)) l.*1)
    as [bs Hbs]; [by apply Forall_forall|].
  assert (Forall2 (blk_walk d) l.*1 bs) as Hw by (eapply Forall2_impl; [exact Hbs|naive_solver]).
  exists bs. split_and!; [done|]. split_and!; [eapply blk_walk_sorted; [done|done|apply Hs]| |].
  - pose proof (scan_nodup _ _ _ _ Hs) as Hnd. clear -Hw Hnd. induction Hw as [|k b ks bs Hk Hw IH]; [constructor|].
    apply NoDup_cons in Hnd as [Hni Hnd]. constructor; [|auto]. intros He. apply Hni.
    apply list_elem_of_lookup in He as [i Hi]. destruct (Forall2_lookup_r _ _ _ _ _ Hw Hi) as (k' & Hk' & Hwk).
    destruct Hk as (-> & _), Hwk as (-> & _). by eapply list_elem_of_lookup_2.
  - intros b. split.
    + intros [i Hi]%list_elem_of_lookup. destruct (Forall2_lookup_r _ _ _ _ _ Hbs Hi) as (k & _ & (_ & ?) & ?).
      done.
    + intros (Hb & Hlt). destruct (blk_row _ _ _ Hok Hb) as (_ & _ & Hu).
      assert (idxBlockProcHeightKey (sp_BlockHeight b) (sp_BlockHash b) ∈ l.*1) as Hin.
      { apply Hkeys. split; [|by apply list_range]. apply (blk_idx _ Hok); [apply has_prefix_app|eauto]. }
      apply list_elem_of_lookup in Hin as [i Hi]. destruct (Forall2_lookup_l _ _ _ _ _ Hw Hi) as (b' & Hb' & Ek & Hrow).
      destruct (blk_row _ _ _ Hok Hrow) as (_ & _ & Hu'). apply heightKey_inj in Ek as [_ Eh]; [|done..].
      rewrite <-Eh, Hb in Hrow. injection Hrow as <-. by eapply list_elem_of_lookup_2.
Qed.

Lemma listLoop_walk d limit out l bs :
  blk_ok (view d) -> Forall2 (blk_walk d) l.*1 bs ->
  listLoop d None limit out l
  = (out ++ take (limit - length out) (storedBlockProcessing_toModel <$> bs), None).
Proof.
  intros Hok Hw. remember l.*1 as ks eqn:Ek. revert l out Ek.
  induction Hw as [|k b ks bs Hk _ IH]; intros [|[k' v] l] out Ek; try done.
  { cbn [listLoop]. by rewrite fmap_nil, take_nil, app_nil_r. }
  rewrite fmap_cons in Ek. injection Ek as -> Ek. cbn [fst] in *.
  cbn [listLoop ctx_err ctx_tick]. destruct (Nat.leb_spec limit (length out)).
  { replace (limit - length out)%nat with 0%nat by lia. by rewrite app_nil_r. }
  rewrite (blk_walk_read d _ b) by done. rewrite IH, length_app by done. simpl.
  replace (limit - length out)%nat with (S (limit - (length out + 1))) by lia. by rewrite <-app_assoc.
Qed.

(** The page before it is cut, as the other components use it. *)
Lemma list_page (before limit : Z) (d : DB) :
  blk_ok (view d) -> is_u64 before -> (0 < limit)%Z ->
  ∃ bs, ListBlockProcessingStatus background before limit d
        = (storedBlockProcessing_toModel <$> take (Z.to_nat limit) bs, None) ∧ listed d before bs.
Proof.
  intros Hok Hb Hlim. unfold ListBlockProcessingStatus, background. cbn [ctx_err ctx_tick].
  rewrite (proj2 (Z.leb_gt limit 0)) by lia.
  destruct (iter_total d (listLower before) (endOfPrefix idxBlockProcHeightPrefix)) as [l El]. rewrite El.
  destruct (height_scan d before l Hok Hb) as (bs & Hw & Hlisted); [by apply iter_sound in El|].
  exists bs. split; [|done]. rewrite (listLoop_walk d _ [] l bs Hok Hw). simpl.
  by rewrite Nat.sub_0_r, fmap_take.
Qed.

(** A page of [ListBlockProcessingStatus] is the first [limit] rows, in
    descending height, among all rows strictly below the cursor (all rows for
    cursor zero); no row below the cursor is skipped for a lower one. *)
Theorem ListBlockProcessingStatus_spec (before limit : Z) (d : DB) :
  blk_ok (view d) -> is_u64 before -> (0 < limit)%Z ->
  ∃ bs, ListBlockProcessingStatus background before limit d
        = (storedBlockProcessing_toModel <$> take (Z.to_nat limit) bs, None) ∧ listed d before bs.
Proof. apply list_page. Qed.

Definition isActive (b : storedBlockProcessing) : bool := String.eqb (sp_Status b) BlockStatusActive.

Lemma tipLoop_walk d l bs :
  blk_ok (view d) -> Forall2 (blk_walk d) l.*1 bs ->
  tipLoop d None l = Ok (match List.find isActive bs with Some b => sp_BlockHeight b | None => 0%Z end).
Proof.
  intros Hok Hw. remember l.*1 as ks eqn:Ek. revert l Ek.
  induction Hw as [|k b ks bs Hk _ IH]; intros [|[k' v] l] Ek; try done.
  rewrite fmap_cons in Ek. injection Ek as -> Ek. cbn [fst] in *.
  cbn [tipLoop ctx_err ctx_tick List.find]. rewrite (blk_walk_read d _ b) by done.
  unfold isActive at 1. destruct (String.eqb _ _); simpl; [done|auto].
Qed.

(** [GetActiveTipBlockHeight] is the largest height of an active row,
    and zero when no row is active. *)
Theorem GetActiveTipBlockHeight_spec (d : DB) :
  blk_ok (view d) ->
  ∃ tip, GetActiveTipBlockHeight background d = Ok tip ∧
  (∀ h b, view d !! blockProcKey h = Some (PBlockProc b) -> isActive b = true -> (sp_BlockHeight b <= tip)%Z) ∧
  (tip = 0%Z ∨ ∃ h b, view d !! blockProcKey h = Some (PBlockProc b) ∧ isActive b = true ∧ tip = sp_BlockHeight b).
Proof.
  intros Hok. unfold GetActiveTipBlockHeight, background. cbn [ctx_err ctx_tick].
  destruct (iter_total d idxBlockProcHeightPrefix (endOfPrefix idxBlockProcHeightPrefix)) as [l El]. rewrite El.
  destruct (height_scan d 0 l Hok) as (bs & Hw & Hs & _ & Hin); [unfold is_u64; lia|by apply iter_sound in El|].
  rewrite (tipLoop_walk d l bs Hok Hw). eexists. split; [done|].
  assert (∀ h b, view d !! blockProcKey h = Some (PBlockProc b) -> b ∈ bs) as Hall.
  { intros h b Hb. apply Hin. destruct (blk_row _ _ _ Hok Hb) as (-> & _). auto. }
  destruct (List.find isActive bs) as [t|] eqn:Ef.
  - destruct (List.find_some _ _ Ef) as [Ht%list_elem_of_In Ha]. split.
    + intros h b Hb%Hall Hact. clear -Hs Ef Hb Hact. induction Hs as [|x bs _ IH Hf]; [done|].
      cbn [List.find] in Ef. destruct (isActive x) eqn:Ex.
      * injection Ef as <-. apply elem_of_cons in Hb as [->|Hb]; [done|].
        by apply (proj1 (Forall_forall _ _) Hf).
      * apply elem_of_cons in Hb as [->|Hb]; [congruence|auto].
    + right. apply Hin in Ht as [Ht _]. eauto.
  - split; [|by left]. intros h b Hb%Hall Hact. apply list_elem_of_In in Hb.
    by rewrite (List.find_none _ _ Ef b Hb) in Hact.
Qed.

(** ** The reconciler's queue *)

Definition queued (b : storedBlockProcessing) : bool := isOrphaned b && (sp_ReconciledAtUnixNs b =? 0)%Z.

(** Every stored row, off the primary keys. *)
Lemma rows_scan d l :
  blk_ok (view d) -> scan_of (view d) prefixBlockProc (endOfPrefix prefixBlockProc) l ->
  ∃ bs, l.*2 = PBlockProc <$> bs ∧ NoDup bs ∧
    ∀ b, b ∈ bs ↔ view d !! blockProcKey (sp_BlockHash b) = Some (PBlockProc b).
Proof.
  intros Hok Hs.
  destruct (Forall_choose (fun e b => e = (blockProcKey (sp_BlockHash b), PBlockProc b) ∧
    view d !! blockProcKey (sp_BlockHash b) = Some (PBlockProc b)) l) as [bs Hbs].
  { apply Forall_forall. intros [k v] [Hl [h ->]%has_prefix_spec]%(prefix_scan _ _ _ _ _ Hs).
    destruct (blk_rows _ Hok h v Hl) as (b & -> & <- & _). eauto. }
  assert (l = (fun b => (blockProcKey (sp_BlockHash b), PBlockProc b)) <$> bs) as El.
  { clear Hs. induction Hbs as [|e b l bs [-> _] _ IH]; [done|]. by rewrite IH at 1. }
  exists bs. split_and!.
  - rewrite El. by rewrite <-list_fmap_compose.
  - pose proof (scan_nodup _ _ _ _ Hs) as Hnd. rewrite El, <-list_fmap_compose in Hnd.
    by eapply NoDup_fmap_1.
  - intros b. split.
    + intros [i Hi]%list_elem_of_lookup. by destruct (Forall2_lookup_r _ _ _ _ _ Hbs Hi) as (e & _ & _ & ?).
    + intros Hb. assert ((blockProcKey (sp_BlockHash b), PBlockProc b) ∈ l) as Hin
        by (apply (prefix_scan _ _ _ _ _ Hs); split; [done|apply has_prefix_app]).
      rewrite El in Hin. apply list_elem_of_fmap in Hin as (b' & [= _ ->] & ?). done.
Qed.

Lemma queueScan_rows rows act l bs :
  l.*2 = PBlockProc <$> bs ->
  ∃ act', queueScan None rows act l = Ok (rows ++ List.filter queued bs, act') ∧
    ∀ ht h, h ∈ default [] (act' !! ht) ↔
      h ∈ default [] (act !! ht) ∨ ∃ b, b ∈ bs ∧ isActive b = true ∧ sp_BlockHeight b = ht ∧ sp_BlockHash b = h.
Proof.
  revert rows act bs. induction l as [|[k v] l IH]; intros rows act [|b bs] El; try done.
  { exists act. rewrite app_nil_r. split; [done|]. set_solver. }
  rewrite !fmap_cons in El. injection El as -> El.
  cbn [queueScan ctx_err ctx_tick asBlockProc List.filter].
  unfold queued at 1, isOrphaned. destruct (String.eqb_spec (sp_Status b) BlockStatusActive) as [Ea|Ea].
  - rewrite Ea. cbn [andb]. simpl. destruct (IH rows (<[sp_BlockHeight b:=default [] (act !! sp_BlockHeight b)
      ++ [sp_BlockHash b]]> act) bs El) as (act' & -> & Hact). exists act'. split; [done|].
    intros ht h. rewrite Hact. destruct (decide (ht = sp_BlockHeight b)) as [->|Hne].
    + rewrite lookup_insert_eq. simpl. rewrite elem_of_app, list_elem_of_singleton.
      apply String.eqb_eq in Ea. fold (isActive b) in Ea. set_solver.
    + rewrite lookup_insert_ne by done. set_solver.
  - assert (isActive b = false) as Hna by by apply String.eqb_neq.
    assert (∀ act' : gmap Z (list string), (∀ ht h, h ∈ default [] (act' !! ht) ↔
      h ∈ default [] (act !! ht) ∨ ∃ b0, b0 ∈ bs ∧ isActive b0 = true ∧ sp_BlockHeight b0 = ht ∧ sp_BlockHash b0 = h) ->
      ∀ ht h, h ∈ default [] (act' !! ht) ↔ h ∈ default [] (act !! ht) ∨
        ∃ b0, b0 ∈ b :: bs ∧ isActive b0 = true ∧ sp_BlockHeight b0 = ht ∧ sp_BlockHash b0 = h) as Hskip.
    { intros act' Hact ht h. rewrite Hact. split; [set_solver|].
      intros [?|(b0 & [->|?]%elem_of_cons & ? & ?)]; [auto|congruence|eauto 10]. }
    unfold isOrphaned. destruct (String.eqb (sp_Status b) BlockStatusOrphaned && (sp_ReconciledAtUnixNs b =? 0)%Z).
    + destruct (IH (rows ++ [b]) act bs El) as (act' & -> & Hact). exists act'. rewrite <-app_assoc. auto.
    + destruct (IH rows act bs El) as (act' & -> & Hact). eauto.
Qed.

Lemma reanchorLoop_map d act memo rows :
  (∀ ht v, memo !! ht = Some v -> v = existsb (hasBUMP d) (default [] (act !! ht))) ->
  reanchorLoop d act memo rows
  = (fun r => (existsb (hasBUMP d) (default [] (act !! sp_BlockHeight r)), r)) <$> rows.
Proof.
  revert memo. induction rows as [|r rows IH]; intros memo Hm; [done|]. cbn [reanchorLoop].
  destruct (memo !! sp_BlockHeight r) as [v|] eqn:E.
  - rewrite IH by done. by rewrite (Hm _ _ E).
  - rewrite IH; [done|]. intros ht v. destruct (decide (ht = sp_BlockHeight r)) as [->|].
    + rewrite lookup_insert_eq. by intros [= <-].
    + rewrite lookup_insert_ne by done. apply Hm.
Qed.

(** The canonical block at the row's height has a stored BUMP. *)
Definition reanchorable (d : DB) (b : storedBlockProcessing) : Prop :=
  ∃ h a, view d !! blockProcKey h = Some (PBlockProc a) ∧ isActive a = true ∧
         sp_BlockHeight a = sp_BlockHeight b ∧ is_Some (view d !! bumpKey h).

(** [a] is served no later than [b]: re-anchorable rows first, then the
    older generation. *)
Definition servedBefore (d : DB) (a b : storedBlockProcessing) : Prop :=
  (reanchorable d b -> reanchorable d a) ∧
  ((reanchorable d a -> reanchorable d b) -> (sp_OrphanedAtUnixNs a <= sp_OrphanedAtUnixNs b)%Z).

Lemma hasBUMP_spec d h : hasBUMP d h = true ↔ is_Some (view d !! bumpKey h).
Proof.
  unfold hasBUMP. rewrite get_total. destruct (view d !! bumpKey h); [|split; [done|by intros []]].
  split; [eauto|done].
Qed.

(** The reconciler's queue holds exactly the orphaned rows not yet
    reconciled; re-anchorable rows are served before the others and, within a
    group, older generations first, so a backlog that cannot be re-anchored
    never starves one that can. *)
Theorem ListOrphanedBlocksToReconcile_spec (limit : Z) (d : DB) :
  blk_ok (view d) -> (0 < limit)%Z ->
  ∃ q, ListOrphanedBlocksToReconcile background limit d
       = Ok (storedBlockProcessing_toModel <$> take (Z.to_nat limit) q) ∧
    NoDup q ∧ StronglySorted (servedBefore d) q ∧
    ∀ b, b ∈ q ↔ view d !! blockProcKey (sp_BlockHash b) = Some (PBlockProc b) ∧ queued b = true.
Proof.
  intros Hok Hlim. unfold ListOrphanedBlocksToReconcile, background. cbn [ctx_err ctx_tick].
  rewrite (proj2 (Z.leb_gt limit 0)) by lia.
  destruct (iter_total d prefixBlockProc (endOfPrefix prefixBlockProc)) as [l El]. rewrite El.
  destruct (rows_scan d l Hok) as (bs & Hl & Hnd & Hin); [by apply iter_sound in El|].
  destruct (queueScan_rows [] ∅ l bs Hl) as (act & -> & Hact). simpl.
  rewrite reanchorLoop_map by (intros ht v; by rewrite lookup_empty).
  set (reanch := fun r => existsb (hasBUMP d) (default [] (act !! sp_BlockHeight r))).
  set (sorted := stableSort reanchorLess _).
  assert (sorted ≡ₚ (fun r => (reanch r, r)) <$> List.filter queued bs) as Hp by apply stableSort_perm.
  assert (∀ r, reanch r = true ↔ reanchorable d r) as Hre.
  { intros r. unfold reanch. rewrite existsb_exists. setoid_rewrite <-list_elem_of_In. split.
    - intros (h & [Hh|(a & Ha & Hact' & Eh & Eb)]%Hact & Hb%hasBUMP_spec); [rewrite lookup_empty in Hh; by apply not_elem_of_nil in Hh|].
      apply Hin in Ha. rewrite Eb in Ha. exists h, a. auto.
    - intros (h & a & Ha & Hact' & Eh & Hb). exists h. rewrite hasBUMP_spec. split; [|done].
      apply Hact. right. destruct (blk_row _ _ _ Hok Ha) as (Eh' & _). exists a. split_and!; [|done..].
      apply Hin. by rewrite Eh'. }
  assert (∀ p, p ∈ sorted -> p.1 = reanch p.2) as Hfst.
  { intros p. rewrite Hp. by intros (r & -> & _)%list_elem_of_fmap. }
  exists (sorted.*2). split_and!.
  - by rewrite <-fmap_take, <-list_fmap_compose.
  - rewrite Hp, <-list_fmap_compose. unfold compose. simpl. rewrite list_fmap_id.
    apply NoDup_ListNoDup, List.NoDup_filter. by apply NoDup_ListNoDup.
  - assert (StronglySorted (fun a b => reanchorLess b a = false) sorted) as Hs
      by (apply stableSort_sorted; [apply reanchorLess_asym|apply reanchorLess_cotrans]).
    clear Hp. induction Hs as [|x q _ IH Hf]; [constructor|]. rewrite fmap_cons. constructor; [apply IH; set_solver|].
    apply Forall_forall. intros b (y & -> & Hy)%list_elem_of_fmap.
    pose proof (proj1 (Forall_forall _ _) Hf y Hy) as Hlt. unfold reanchorLess in Hlt.
    rewrite (Hfst x), (Hfst y) in Hlt by set_solver. unfold servedBefore. rewrite <-!Hre.
    destruct (reanch x.2), (reanch y.2); simpl in Hlt; try done; split; try done; intros; try lia; naive_solver.
  - intros b. rewrite Hp, <-list_fmap_compose. unfold compose. simpl. rewrite list_fmap_id.
    rewrite list_elem_of_In, List.filter_In, <-list_elem_of_In, Hin. done.
Qed.

(** ** Expected subtrees *)

(** Announcing subtree indices for a known block makes the stored set
    the union of the old set and the new indices, sorted and without
    repeats, so redeliveries and overlaps change nothing; for an unknown
    block nothing is written. *)
Theorem AddBlockExpectedSubtrees_union (h : string) (indices old : list Z) (d : DB) :
  blk_ok (view d) -> indices ≠ [] -> GetBlockExpectedSubtrees background h d = Ok old ->
  match view d !! blockProcKey h with
  | None => AddBlockExpectedSubtrees background h indices d = (Ok tt, d)
  | Some _ => ∃ d' new, AddBlockExpectedSubtrees background h indices d = (Ok tt, d') ∧
      GetBlockExpectedSubtrees background h d' = Ok new ∧ StronglySorted Z.lt new ∧
      ∀ i, i ∈ new ↔ i ∈ old ∨ i ∈ indices
  end.
Proof.
  intros Hok Hne Hold. unfold AddBlockExpectedSubtrees, GetBlockExpectedSubtrees, background in *.
  cbn [ctx_err] in *. destruct indices as [|i0 indices]; [done|].
  rewrite readBlockProc_total by done. unfold prevOf.
  destruct (view d !! blockProcKey h) as [v|] eqn:Ev; [|done].
  destruct (blk_rows _ Hok _ _ Ev) as (b & -> & _). rewrite Hold. unfold commitTo.
  set (merged := compact _). destruct (commit_total d [BSet (blockExpectedKey h) (PExpected merged)]) as [d' Ed].
  rewrite Ed. exists d', merged. split_and!; [done| |apply sortCompact_spec|].
  - apply commit_sound in Ed. unfold readBlockExpected. rewrite get_total, Ed. simpl.
    by rewrite lookup_insert_eq.
  - intros i. unfold merged. rewrite (proj2 (sortCompact_spec _) i). apply elem_of_app.
Qed.
End Listings.

(** ** Concrete runs *)
Section BlockWitnesses.

(** Two blocks seen at height 7, the first of them orphaned at time 50. *)
Definition wBlocks : MemDB :=
  run_blks [BHeader background "aa" 7 (Some 10%Z); BHeader background "bb" 7 (Some 11%Z);
            BHeader background "cc" 9 (Some 12%Z); BOrphan background ["aa"] (Some 50%Z)] (∅ : MemDB).

Lemma wArgs (h : string) (ht : Z) (Hh : no_colon h = true) (Ht : (0 <=? ht)%Z && (ht <? 2 ^ 64)%Z = true)
  : no_colon h = true ∧ is_u64 ht.
Proof. split; [done|]. unfold is_u64. lia. Qed.

Lemma wBlocks_ok : blk_ok (view wBlocks).
Proof.
  apply (run_blks_ok (DB := MemDB)); [|apply blk_ok_empty].
  constructor; [by apply wArgs|]. constructor; [by apply wArgs|]. constructor; [by apply wArgs|].
  constructor; [exact I|constructor].
Qed.

Definition wOrphan : storedBlockProcessing :=
  mkStoredBlockProcessing "aa" 7 10 0 0 BlockStatusOrphaned 50 0.

Lemma wBlocks_aa : view wBlocks !! blockProcKey "aa" = Some (PBlockProc wOrphan).
Proof. vm_compute. reflexivity. Qed.

(** The block returns to the chain and is orphaned again with the same
    caller timestamp; the first generation's token is refused. *)
Lemma orphan_token_never_reused_witness :
  (MarkBlockReconciled background "aa" (Some 50%Z) (Some 60%Z)
     (orphanStep 50 "aa" (run_blks [BReactivate background "aa" 7 (Some 50%Z)] wBlocks)).2).1 ≠ Ok true.
Proof.
  pose proof (orphan_token_never_reused (DB := MemDB) [BReactivate background "aa" 7 (Some 50%Z)] []
    50 50 "aa" wOrphan wBlocks background (Some 60%Z) 7 wBlocks_ok wBlocks_aa) as Hs.
  refine (proj1 (proj1 (Hs _ _ _ _ _))).
  - constructor; [unfold blk_args_ok, is_u64; lia|constructor].
  - constructor; [exact I|]. constructor; [unfold op_times, minInt64; lia|constructor].
  - unfold minInt64. cbn. lia.
  - vm_compute. discriminate.
  - vm_compute. reflexivity.
Defined.

Lemma blk_index_invariant_witness :
  blk_ok (view (run_blks [BHeader background "aa" 7 (Some 10%Z); BOrphan background ["aa"; "zz"] (Some 50%Z);
                          BReactivate background "aa" 8 (Some 50%Z)] (∅ : MemDB))).
Proof.
  apply (blk_index_invariant (DB := MemDB)); [|reflexivity].
  constructor; [apply wArgs; reflexivity|]. constructor; [exact I|].
  constructor; [unfold blk_args_ok, is_u64; lia|constructor].
Defined.

Lemma ListBlockProcessingStatus_spec_witness :
  ∃ bs, ListBlockProcessingStatus background 9 5 wBlocks
        = (storedBlockProcessing_toModel <$> take 5 bs, None) ∧ listed wBlocks 9 bs.
Proof.
  apply (ListBlockProcessingStatus_spec (DB := MemDB) 9 5 wBlocks wBlocks_ok); unfold is_u64; lia.
Defined.

Lemma GetActiveTipBlockHeight_spec_witness :
  ∃ tip, GetActiveTipBlockHeight background wBlocks = Ok tip.
Proof.
  destruct (GetActiveTipBlockHeight_spec (DB := MemDB) wBlocks wBlocks_ok) as (tip & E & _).
  exists tip. exact E.
Defined.

Lemma ListOrphanedBlocksToReconcile_spec_witness :
  ∃ q, ListOrphanedBlocksToReconcile background 1 wBlocks
       = Ok (storedBlockProcessing_toModel <$> take 1 q) ∧ wOrphan ∈ q.
Proof.
  destruct (ListOrphanedBlocksToReconcile_spec (DB := MemDB) 1 wBlocks wBlocks_ok eq_refl)
    as (q & E & _ & _ & Hin).
  exists q. split; [exact E|]. apply Hin. split; [exact wBlocks_aa|reflexivity].
Defined.

Lemma AddBlockExpectedSubtrees_union_witness :
  ∃ d' new, AddBlockExpectedSubtrees background "bb" [3%Z; 1%Z; 3%Z] wBlocks = (Ok tt, d') ∧
    GetBlockExpectedSubtrees background "bb" d' = Ok new ∧ (3%Z ∈ new).
Proof.
  pose proof (AddBlockExpectedSubtrees_union (DB := MemDB) "bb" [3%Z; 1%Z; 3%Z] [] wBlocks wBlocks_ok
    ltac:(discriminate) ltac:(vm_compute; reflexivity)) as Hs.
  assert (view wBlocks !! blockProcKey "bb"
    = Some (PBlockProc (mkStoredBlockProcessing "bb" 7 11 0 0 BlockStatusActive 0 0))) as E
    by (vm_compute; reflexivity).
  rewrite E in Hs. destruct Hs as (d' & new & E1 & E2 & _ & Hin). exists d', new.
  split; [exact E1|]. split; [exact E2|]. apply Hin. right. apply elem_of_cons. left. reflexivity.
Defined.
End BlockWitnesses.
