(* ===== verification/PebbleSubs.v ===== *)
(** * PebbleSubs: submissions, leases and the endpoint registries

    The submission rows and their two indexes, the delivery bookkeeping of the
    webhook and SSE services, the lease rows behind leader election, and the
    datahub-endpoint and peer-policy registries of [store/pebble/pebble.go].

    [RecordDeliveryAttempt] and [UpdateDeliveryStatusCAS] hold [submissionMu]
    and the lease calls hold [leaseMu], so each is one step;
    [UpdateDeliveryStatus] holds no lock, so it is also given as its two
    halves, the read and the write. *)
From stdpp Require Import base gmap strings list sorting.
From Stdlib Require Import ZArith Lia.
From Stdlib Require Import Strings.Byte.
From S2P Require Import Prelude Models StoreCore Keys Engine PebbleTx.

(** ** Rows *)

Definition storedSubmission_toModel (s : storedSubmission) : Submission :=
  mkSubmission (su_SubmissionID s) (su_TxID s) (su_CallbackURL s) (su_CallbackToken s)
    (su_FullStatusUpdates s) (su_LastDeliveredStatus s) (su_RetryCount s)
    (timeOfNs (su_NextRetryUnixNs s)) (su_Attempts s) (timeOfNs (su_LastAttemptUnixNs s))
    (su_LastResult s) (timeOfNs (su_CreatedUnixNs s)).

Definition submissionRow (sub : Submission) : storedSubmission :=
  mkStoredSubmission (sb_SubmissionID sub) (sb_TxID sub) (sb_CallbackURL sub) (sb_CallbackToken sub)
    (sb_FullStatusUpdates sub) (sb_LastDeliveredStatus sub) (sb_RetryCount sub) 0 0 0 ""
    (nsOfTime (sb_CreatedAt sub)).

Definition deliveredRow (s : storedSubmission) (lastStatus : Status) (retryCount nextNs : Z) : storedSubmission :=
  mkStoredSubmission (su_SubmissionID s) (su_TxID s) (su_CallbackURL s) (su_CallbackToken s)
    (su_FullStatusUpdates s) lastStatus retryCount nextNs (su_Attempts s) (su_LastAttemptUnixNs s)
    (su_LastResult s) (su_CreatedUnixNs s).

(** [Attempts++] on an [int]. *)
Definition attemptRow (s : storedSubmission) (atNs : Z) (result : string) : storedSubmission :=
  mkStoredSubmission (su_SubmissionID s) (su_TxID s) (su_CallbackURL s) (su_CallbackToken s)
    (su_FullStatusUpdates s) (su_LastDeliveredStatus s) (su_RetryCount s) (su_NextRetryUnixNs s)
    (int64 (su_Attempts s + 1)) atNs result (su_CreatedUnixNs s).

(** ** Operations *)
Section Operations.
Context {DB : Type} `{Engine DB}.

Definition InsertSubmission (c : Ctx) (sub : Submission) (d : DB) : Res unit * DB :=
  if ctx_err c then (Err ErrCanceled, d)
  else commitTo d
    (BSet (subKey (sb_SubmissionID sub)) (PSubmission (submissionRow sub)) ::
     (if String.eqb (sb_TxID sub) "" then []
      else [BSet (idxSubTxIDKey (sb_TxID sub) (sb_SubmissionID sub)) PEmpty]) ++
     (if String.eqb (sb_CallbackToken sub) "" then []
      else [BSet (idxSubTokenKey (sb_CallbackToken sub) (sb_SubmissionID sub)) PEmpty])) tt.

(** A row that cannot be decoded is skipped; the limit is checked before the
    row is kept. *)
Fixpoint subsLoop (d : DB) (c : Ctx) (limit : Z) (subs : list Submission)
    (entries : list (string * payload)) : list Submission * option error :=
  match entries with
  | [] => (subs, None)
  | (key, _) :: rest =>
      if ctx_err c then (subs, Some ErrCanceled)
      else match eng_get d (subKey (lastSegment key)) with
           | Err e => (subs, Some e)
           | Ok None => subsLoop d (ctx_tick c) limit subs rest
           | Ok (Some v) =>
               match asSubmission v with
               | None => subsLoop d (ctx_tick c) limit subs rest
               | Some ss =>
                   if (0 <? limit)%Z && (limit <=? Z.of_nat (length subs))%Z
                   then ([], Some ErrReplayUnavailable)
                   else subsLoop d (ctx_tick c) limit (subs ++ [storedSubmission_toModel ss]) rest
               end
           end
  end.

Definition submissionsByIndexBounded (c : Ctx) (prefix : string) (limit : Z) (d : DB)
  : list Submission * option error :=
  if ctx_err c then ([], Some ErrCanceled)
  else match eng_iter d prefix (endOfPrefix prefix) with
       | Err e => ([], Some e)
       | Ok entries => subsLoop d (ctx_tick c) limit [] entries
       end.

Definition submissionsByIndex (c : Ctx) (prefix : string) (d : DB) : list Submission * option error :=
  submissionsByIndexBounded c prefix 0 d.

Definition GetSubmissionsByTxID (c : Ctx) (txid : string) (d : DB) : list Submission * option error :=
  submissionsByIndex c (idxSubTxIDPrefix txid) d.

Definition GetSubmissionsByToken (c : Ctx) (callbackToken : string) (d : DB)
  : list Submission * option error :=
  submissionsByIndex c (idxSubTokenPrefix callbackToken) d.

Definition TokensForTxIDs (c : Ctx) (txids : list string) (d : DB) : Res (gmap string (list string)) :=
  Tokens.TokensForTxIDsViaPerTxID c txids
    (fun txid => match GetSubmissionsByTxID c txid d with
                 | (subs, None) => Ok (Some <$> subs)
                 | (_, Some e) => Err e
                 end).

(** *** Catchup replay *)

Definition maxTokenReplayScan : Z := 250000.

Definition replayProjection (st : TransactionStatus) : TransactionStatus :=
  mkTransactionStatus (ts_TxID st) (ts_Status st) 0 (ts_Timestamp st) [] (ts_BlockHash st)
    (ts_BlockHeight st) [] "" [] [] 0 None None [] None.

Fixpoint matchLoop (d : DB) (c : Ctx) (since : Time) (only : list Status) (seen : gset string)
    (matched : list TransactionStatus) (subs : list Submission) : Res (list TransactionStatus) :=
  match subs with
  | [] => Ok matched
  | sub :: rest =>
      if ctx_err c then Err ErrCanceled
      else if decide (sb_TxID sub ∈ seen) then matchLoop d (ctx_tick c) since only seen matched rest
      else
        let seen := {[sb_TxID sub]} ∪ seen in
        match readStatus d (sb_TxID sub) with
        | Err _ | Ok None => matchLoop d (ctx_tick c) since only seen matched rest
        | Ok (Some st) =>
            if negb (IsZero since) && negb (timeBefore since (ts_Timestamp st))
            then matchLoop d (ctx_tick c) since only seen matched rest
            else if match only with [] => false | _ => negb (status_in (ts_Status st) only) end
            then matchLoop d (ctx_tick c) since only seen matched rest
            else matchLoop d (ctx_tick c) since only seen (matched ++ [replayProjection st]) rest
        end
  end.

Fixpoint emitLoop {S} (fn : S -> TransactionStatus -> S * option error) (s : S)
    (matched : list TransactionStatus) : S * option error :=
  match matched with
  | [] => (s, None)
  | st :: rest => match fn s st with
                  | (s', Some e) => (s', Some e)
                  | (s', None) => emitLoop fn s' rest
                  end
  end.

(** [sort.Slice] promises order but not stability, so it is a parameter. *)
Definition IterateStatusesByToken {S}
    (sortSlice : (TransactionStatus -> TransactionStatus -> bool) ->
                 list TransactionStatus -> list TransactionStatus)
    (c : Ctx) (callbackToken : string) (since : Time) (onlyStatuses : list Status)
    (fn : S -> TransactionStatus -> S * option error) (s : S) (d : DB) : S * option error :=
  match submissionsByIndexBounded c (idxSubTokenPrefix callbackToken) maxTokenReplayScan d with
  | (_, Some e) => (s, Some e)
  | (subs, None) =>
      match matchLoop d c since onlyStatuses ∅ [] subs with
      | Err e => (s, Some e)
      | Ok matched => emitLoop fn s (sortSlice (fun a b => timeBefore (ts_Timestamp a) (ts_Timestamp b)) matched)
      end
  end.

(** *** Delivery bookkeeping *)

Definition readSubmission (d : DB) (id : string) : Res (option storedSubmission) :=
  match eng_get d (subKey id) with
  | Err e => Err e
  | Ok None => Ok None
  | Ok (Some v) => match asSubmission v with Some s => Ok (Some s) | None => Err ErrDecode end
  end.

Definition deliveryWrite (id : string) (ss : storedSubmission) (lastStatus : Status) (retryCount : Z)
    (nextRetry : option Z) (d : DB) : Res unit * DB :=
  commitTo d [BSet (subKey id) (PSubmission (deliveredRow ss lastStatus retryCount
                (match nextRetry with Some ns => ns | None => 0%Z end)))] tt.

Definition UpdateDeliveryStatus (c : Ctx) (id : string) (lastStatus : Status) (retryCount : Z)
    (nextRetry : option Z) (d : DB) : Res unit * DB :=
  if ctx_err c then (Err ErrCanceled, d)
  else match readSubmission d id with
       | Err e => (Err e, d)
       | Ok None => (Ok tt, d)
       | Ok (Some ss) => deliveryWrite id ss lastStatus retryCount nextRetry d
       end.

Definition RecordDeliveryAttempt (c : Ctx) (id : string) (at_ : Time) (result : string) (d : DB)
  : Res unit * DB :=
  if ctx_err c then (Err ErrCanceled, d)
  else match readSubmission d id with
       | Err e => (Err e, d)
       | Ok None => (Ok tt, d)
       | Ok (Some ss) =>
           commitTo d [BSet (subKey id) (PSubmission (attemptRow ss (UnixNano at_) result))] tt
       end.

Definition UpdateDeliveryStatusCAS (c : Ctx) (id : string) (expected next : Status) (d : DB)
  : Res bool * DB :=
  if ctx_err c then (Err ErrCanceled, d)
  else match readSubmission d id with
       | Err e => (Err e, d)
       | Ok None => (Ok false, d)
       | Ok (Some ss) =>
           if negb (String.eqb (su_LastDeliveredStatus ss) expected) then (Ok false, d)
           else commitTo d [BSet (subKey id) (PSubmission (deliveredRow ss next 0 0))] true
       end.

Fixpoint readySubsLoop (c : Ctx) (nowNs : Z) (candidates : list storedSubmission)
    (entries : list (string * payload)) : Res (list storedSubmission) :=
  match entries with
  | [] => Ok candidates
  | (_, v) :: rest =>
      if ctx_err c then Err ErrCanceled
      else match asSubmission v with
           | None => readySubsLoop (ctx_tick c) nowNs candidates rest
           | Some ss =>
               if (su_RetryCount ss <=? 0)%Z || (su_NextRetryUnixNs ss <=? 0)%Z
                  || (nowNs <? su_NextRetryUnixNs ss)%Z
               then readySubsLoop (ctx_tick c) nowNs candidates rest
               else readySubsLoop (ctx_tick c) nowNs (candidates ++ [ss]) rest
           end
  end.

Definition ListSubmissionsReadyForRetry
    (sortSlice : (storedSubmission -> storedSubmission -> bool) ->
                 list storedSubmission -> list storedSubmission)
    (c : Ctx) (now : Time) (limit : Z) (d : DB) : Res (list Submission) :=
  if (limit <=? 0)%Z then Ok []
  else if ctx_err c then Err ErrCanceled
  else match eng_iter d prefixSub (endOfPrefix prefixSub) with
       | Err e => Err e
       | Ok entries =>
           match readySubsLoop (ctx_tick c) (UnixNano now) [] entries with
           | Err e => Err e
           | Ok candidates =>
               let sorted := sortSlice (fun a b => su_NextRetryUnixNs a <? su_NextRetryUnixNs b)%Z
                               candidates in
               Ok (storedSubmission_toModel <$> take (Z.to_nat limit) sorted)
           end
       end.

(** *** Leases *)

(** The expiry on success, the zero time when another holder's lease is
    live; an undecodable row counts as vacant. *)
Definition TryAcquireOrRenew (c : Ctx) (name holder : string) (now ttl : Z) (d : DB) : Res Time * DB :=
  if ctx_err c then (Err ErrCanceled, d)
  else
    let expires := int64 (now + ttl) in
    let grant := commitTo d [BSet (leaseKey name) (PLease (mkStoredLease holder expires))] (Some expires : Time) in
    match eng_get d (leaseKey name) with
    | Err e => (Err e, d)
    | Ok None => grant
    | Ok (Some v) =>
        match asLease v with
        | Some cur =>
            if negb (String.eqb (le_Holder cur) holder) && (now <? le_ExpiresUnixNs cur)%Z
            then (Ok (None : Time), d) else grant
        | None => grant
        end
    end.

Definition Release (c : Ctx) (name holder : string) (d : DB) : Res unit * DB :=
  if ctx_err c then (Err ErrCanceled, d)
  else match eng_get d (leaseKey name) with
       | Err e => (Err e, d)
       | Ok None => (Ok tt, d)
       | Ok (Some v) =>
           match asLease v with
           | Some cur => if negb (String.eqb (le_Holder cur) holder) then (Ok tt, d)
                         else commitTo d [BDel (leaseKey name)] tt
           | None => commitTo d [BDel (leaseKey name)] tt
           end
       end.

(** *** Registries *)

Definition existingEndpointPolicy (d : DB) (url : string) : option storedEndpointPolicy :=
  match eng_get d (datahubEndpointKey url) with
  | Ok (Some v) => match asDatahub v with Some row => de_Policy row | None => None end
  | _ => None
  end.

Definition storedPolicyOf (p : Policies.EndpointPolicy) : storedEndpointPolicy :=
  mkStoredEndpointPolicy (Policies.EP_MiningFeeSatoshis p) (Policies.EP_MiningFeeBytes p)
    (Policies.EP_MaxTxSizePolicy p) (Policies.EP_MaxScriptSizePolicy p)
    (Policies.EP_MaxTxSigopsCountsPolicy p).

Definition policyOf (p : storedEndpointPolicy) : Policies.EndpointPolicy :=
  Policies.mkEndpointPolicy (ep_MiningFeeSatoshis p) (ep_MiningFeeBytes p) (ep_MaxTxSizePolicy p)
    (ep_MaxScriptSizePolicy p) (ep_MaxTxSigopsCountsPolicy p).

Definition UpsertDatahubEndpoint (c : Ctx) (ep : Policies.DatahubEndpoint) (d : DB) : Res unit * DB :=
  if ctx_err c then (Err ErrCanceled, d)
  else if String.eqb (Policies.DE_URL ep) "" then (Err ErrArgument, d)
  else
    let write policy := commitTo d
      [BSet (datahubEndpointKey (Policies.DE_URL ep))
         (PDatahub (mkStoredDatahubEndpoint (Policies.DE_URL ep) (Policies.DE_Network ep)
            (Policies.DE_Source ep) policy (nsOfTime (Policies.DE_LastSeen ep))))] tt in
    match Policies.DE_Policy ep with
    | Some p => match Policies.EndpointPolicy_Validate p with
                | Some e => (Err e, d)
                | None => write (Some (storedPolicyOf p))
                end
    | None => write (existingEndpointPolicy d (Policies.DE_URL ep))
    end.

Fixpoint endpointsLoop (c : Ctx) (network : string) (out : list Policies.DatahubEndpoint)
    (entries : list (string * payload)) : list Policies.DatahubEndpoint * option error :=
  match entries with
  | [] => (out, None)
  | (_, v) :: rest =>
      if ctx_err c then (out, Some ErrCanceled)
      else match asDatahub v with
           | None => endpointsLoop (ctx_tick c) network out rest
           | Some row =>
               if negb (String.eqb (de_Network row) network) then endpointsLoop (ctx_tick c) network out rest
               else endpointsLoop (ctx_tick c) network
                 (out ++ [Policies.mkDatahubEndpoint (de_URL row) (de_Network row) (de_Source row)
                            (policyOf <$> de_Policy row) (timeOfNs (de_LastSeenUnixNs row))]) rest
           end
  end.

Definition ListDatahubEndpoints (c : Ctx) (network : string) (d : DB)
  : list Policies.DatahubEndpoint * option error :=
  if ctx_err c then ([], Some ErrCanceled)
  else match eng_iter d datahubEndpointPrefix (endOfPrefix datahubEndpointPrefix) with
       | Err e => ([], Some e)
       | Ok entries => endpointsLoop (ctx_tick c) network [] entries
       end.

Definition UpsertPeerPolicy (c : Ctx) (pp : Policies.PeerPolicy) (d : DB) : Res unit * DB :=
  if ctx_err c then (Err ErrCanceled, d)
  else match Policies.PeerPolicy_Validate pp with
       | Some e => (Err e, d)
       | None => commitTo d [BSet (peerPolicyKey (Policies.PP_PeerID pp))
           (PPeerPolicy (mkStoredPeerPolicy (Policies.PP_PeerID pp) (Policies.PP_Network pp)
              (Policies.PP_MiningFeeSatoshis pp) (Policies.PP_MiningFeeBytes pp)
              (Policies.PP_MaxTxSizePolicy pp) (Policies.PP_MaxScriptSizePolicy pp)
              (nsOfTime (Policies.PP_LastSeen pp))))] tt
       end.

Fixpoint peerPoliciesLoop (c : Ctx) (network : string) (out : list Policies.PeerPolicy)
    (entries : list (string * payload)) : list Policies.PeerPolicy * option error :=
  match entries with
  | [] => (out, None)
  | (_, v) :: rest =>
      if ctx_err c then (out, Some ErrCanceled)
      else match asPeerPolicy v with
           | None => peerPoliciesLoop (ctx_tick c) network out rest
           | Some row =>
               if negb (String.eqb (pp_Network row) network) then peerPoliciesLoop (ctx_tick c) network out rest
               else peerPoliciesLoop (ctx_tick c) network
                 (out ++ [Policies.mkPeerPolicy (pp_PeerID row) (pp_Network row)
                            (pp_MiningFeeSatoshis row) (pp_MiningFeeBytes row) (pp_MaxTxSizePolicy row)
                            (pp_MaxScriptSizePolicy row) (timeOfNs (pp_LastSeenUnixNs row))]) rest
           end
  end.

Definition ListPeerPolicies (c : Ctx) (network : string) (d : DB)
  : list Policies.PeerPolicy * option error :=
  if ctx_err c then ([], Some ErrCanceled)
  else match eng_iter d peerPolicyPrefix (endOfPrefix peerPolicyPrefix) with
       | Err e => ([], Some e)
       | Ok entries => peerPoliciesLoop (ctx_tick c) network [] entries
       end.
End Operations.
