(* ===== verification/PebbleSubsProps.v ===== *)
(** * PebbleSubsProps: correctness of submissions, leases and registries

    The submission index is exact for colon-free tokens and leaks across
    tokens that contain a colon; the delivery compare-and-set lets one
    deliverer through; the lock-free delivery update loses a concurrent
    attempt record; leases exclude each other until they expire; and a
    registration without a policy keeps the recorded one. *)
From stdpp Require Import base gmap strings list sorting relations.
From Stdlib Require Import ZArith Lia.
From Stdlib Require Import Strings.Byte.
From S2P Require Import Prelude Models StoreCore Keys Engine PebbleTx PebbleTxQueries PebbleSubs.

(** ** The index invariant *)

Definition idx_sub_prefix : string := "idx:sub:".

Definition sub_keys (s : storedSubmission) : list string :=
  (if String.eqb (su_TxID s) "" then [] else [idxSubTxIDKey (su_TxID s) (su_SubmissionID s)]) ++
  (if String.eqb (su_CallbackToken s) "" then [] else [idxSubTokenKey (su_CallbackToken s) (su_SubmissionID s)]).

Lemma sub_keys_elem s k :
  k ∈ sub_keys s ↔
  (su_TxID s ≠ "" ∧ k = idxSubTxIDKey (su_TxID s) (su_SubmissionID s)) ∨
  (su_CallbackToken s ≠ "" ∧ k = idxSubTokenKey (su_CallbackToken s) (su_SubmissionID s)).
Proof.
  unfold sub_keys. rewrite elem_of_app.
  destruct (String.eqb_spec (su_TxID s) ""), (String.eqb_spec (su_CallbackToken s) ""); set_solver.
Qed.

Record sub_ok (m : gmap string payload) : Prop := {
  sub_rows id v : m !! subKey id = Some v ->
    ∃ s, v = PSubmission s ∧ su_SubmissionID s = id ∧ no_colon id = true ∧ no_colon (su_TxID s) = true;
  sub_idx k : has_prefix idx_sub_prefix k = true ->
    is_Some (m !! k) ↔ ∃ id s, m !! subKey id = Some (PSubmission s) ∧ k ∈ sub_keys s
}.

Lemma sub_ok_empty : sub_ok ∅.
Proof.
  split.
  - intros id v. by rewrite lookup_empty.
  - intros k _. rewrite lookup_empty. split; [by intros []|].
    intros (id & s & Hl & _). by rewrite lookup_empty in Hl.
Qed.

Lemma subKey_not_idx id : has_prefix idx_sub_prefix (subKey id) = false.
Proof. done. Qed.

Lemma sub_key_prefix s k : k ∈ sub_keys s -> has_prefix idx_sub_prefix k = true.
Proof. by intros [(_ & ->)|(_ & ->)]%sub_keys_elem. Qed.

Definition insertBatch (s : storedSubmission) : list bop :=
  BSet (subKey (su_SubmissionID s)) (PSubmission s) :: ((fun k => BSet k PEmpty) <$> sub_keys s).

Lemma insertBatch_lookup m s k :
  apply_batch m (insertBatch s) !! k =
  if decide (k ∈ sub_keys s) then Some PEmpty
  else if decide (k = subKey (su_SubmissionID s)) then Some (PSubmission s) else m !! k.
Proof.
  unfold insertBatch. change (?x :: ?l) with ([x] ++ l). rewrite apply_batch_app, apply_sets.
  destruct (decide (k ∈ sub_keys s)); [done|].
  destruct (decide (k = subKey _)) as [->|Hne]; [by apply lookup_insert_eq|by apply lookup_insert_ne].
Qed.

Lemma insertBatch_row m s id :
  apply_batch m (insertBatch s) !! subKey id =
  if decide (id = su_SubmissionID s) then Some (PSubmission s) else m !! subKey id.
Proof.
  rewrite insertBatch_lookup, decide_False by (intros Hk%sub_key_prefix; by rewrite subKey_not_idx in Hk).
  destruct (decide (id = su_SubmissionID s)) as [->|Hne]; [by rewrite decide_True|].
  by rewrite decide_False by (intros ?%subKey_inj; done).
Qed.

Lemma sub_ok_insert m s :
  sub_ok m -> m !! subKey (su_SubmissionID s) = None -> no_colon (su_SubmissionID s) = true ->
  no_colon (su_TxID s) = true -> sub_ok (apply_batch m (insertBatch s)).
Proof.
  intros Hok Hn Hid Htx. split.
  - intros id v. rewrite insertBatch_row. case_decide; subst; [intros [= <-]; eauto|apply (sub_rows m Hok)].
  - intros k Hp. rewrite insertBatch_lookup.
    rewrite (decide_False (P := k = subKey _)) by (intros ->; by rewrite subKey_not_idx in Hp).
    destruct (decide (k ∈ sub_keys s)) as [Hin|Hni].
    { split; [|by eauto]. intros _. exists (su_SubmissionID s), s. by rewrite insertBatch_row, decide_True. }
    rewrite (sub_idx m Hok k Hp). split; intros (id & s' & Hl & Hk); exists id, s'; (split; [|done]).
    + rewrite insertBatch_row, decide_False; [done|]. intros ->. congruence.
    + rewrite insertBatch_row in Hl. case_decide; by simplify_eq.
Qed.

(** In-place rewrites that keep the indexed fields. *)
Lemma sub_ok_inplace m id s s' :
  sub_ok m -> m !! subKey id = Some (PSubmission s) -> su_SubmissionID s' = su_SubmissionID s ->
  su_TxID s' = su_TxID s -> su_CallbackToken s' = su_CallbackToken s ->
  sub_ok (<[subKey id := PSubmission s']> m).
Proof.
  intros Hok Hl Ei Et Ek. destruct (sub_rows m Hok _ _ Hl) as (? & [= <-] & Eid & Hid & Htx).
  assert (sub_keys s' = sub_keys s) as Eks by (unfold sub_keys; by rewrite Ei, Et, Ek).
  assert (∀ id' v, <[subKey id:=PSubmission s']> m !! subKey id' = Some v ↔
    (id' = id ∧ v = PSubmission s') ∨ (id' ≠ id ∧ m !! subKey id' = Some v)) as Hlk.
  { intros id' v. destruct (decide (id' = id)) as [->|]; [rewrite lookup_insert_eq; naive_solver|].
    rewrite lookup_insert_ne by (intros ?%subKey_inj; done). naive_solver. }
  split.
  - intros id' v [[-> ->]|[_ Hv]]%Hlk; [|by apply (sub_rows m Hok)].
    exists s'. rewrite Ei, Et. naive_solver.
  - intros k Hp. rewrite lookup_insert_ne by (intros <-; by rewrite subKey_not_idx in Hp).
    rewrite (sub_idx m Hok _ Hp). split.
    + intros (id' & s0 & Hv & Hin). destruct (decide (id' = id)) as [->|].
      * assert (s0 = s) as -> by congruence. exists id, s'. rewrite Hlk, Eks. naive_solver.
      * exists id', s0. rewrite Hlk. naive_solver.
    + intros (id' & s0 & [[-> [= ->]]|[_ Hv]]%Hlk & Hin); [|by eauto].
      exists id, s. by rewrite <-Eks.
Qed.

Section Subs.
Context {DB : Type} `{EngineSpec DB}.

(** ** Operations as data *)

Inductive sub_op : Type :=
| SInsert (c : Ctx) (sub : Submission)
| SDelivery (c : Ctx) (id : string) (lastStatus : Status) (retryCount : Z) (nextRetry : option Z)
| SAttempt (c : Ctx) (id : string) (at_ : Time) (result : string)
| SCas (c : Ctx) (id : string) (expected next : Status).

Definition run_sub (o : sub_op) (d : DB) : DB :=
  match o with
  | SInsert c sub => (InsertSubmission c sub d).2
  | SDelivery c id st rc nx => (UpdateDeliveryStatus c id st rc nx d).2
  | SAttempt c id t r => (RecordDeliveryAttempt c id t r d).2
  | SCas c id e n => (UpdateDeliveryStatusCAS c id e n d).2
  end.

(** Submission ids are fresh, and ids and txids colon-free. *)
Definition sub_op_ok (o : sub_op) (d : DB) : Prop :=
  match o with
  | SInsert _ sub => view d !! subKey (sb_SubmissionID sub) = None ∧
      no_colon (sb_SubmissionID sub) = true ∧ no_colon (sb_TxID sub) = true
  | _ => True
  end.

Lemma readSubmission_sound d id r :
  readSubmission d id = Ok r -> view d !! subKey id = PSubmission <$> r.
Proof.
  unfold readSubmission. destruct (eng_get d (subKey id)) as [v|] eqn:E; [|done].
  apply get_sound in E as <-. destruct v as [v|]; [|by intros [= <-]].
  destruct v; simpl; try done. by intros [= <-].
Qed.

Lemma commitTo_cases {A} d b (r : A) :
  (∃ d', commitTo d b r = (Ok r, d') ∧ view d' = apply_batch (view d) b) ∨ (∃ e, commitTo d b r = (Err e, d)).
Proof.
  unfold commitTo. destruct (eng_commit d b) as [d'|e] eqn:E; [left|right; eauto].
  apply commit_sound in E. eauto.
Qed.

Lemma InsertSubmission_batch c sub d :
  ctx_err c = false -> InsertSubmission c sub d = commitTo d (insertBatch (submissionRow sub)) tt.
Proof.
  intros Hc. unfold InsertSubmission. rewrite Hc. f_equal. unfold insertBatch, sub_keys.
  cbn [submissionRow su_SubmissionID su_TxID su_CallbackToken]. f_equal.
  by destruct (String.eqb (sb_TxID sub) ""), (String.eqb (sb_CallbackToken sub) "").
Qed.

Lemma run_sub_ok o d : sub_op_ok o d -> sub_ok (view d) -> sub_ok (view (run_sub o d)).
Proof.
  intros Ho Hok.
  assert (∀ id s s' (r : unit), view d !! subKey id = Some (PSubmission s) ->
    su_SubmissionID s' = su_SubmissionID s -> su_TxID s' = su_TxID s ->
    su_CallbackToken s' = su_CallbackToken s ->
    sub_ok (view (commitTo d [BSet (subKey id) (PSubmission s')] r).2)) as Hset.
  { intros id s s' r Hl E1 E2 E3.
    destruct (commitTo_cases d [BSet (subKey id) (PSubmission s')] r) as [(d' & -> & Hv)|[e ->]]; [|done].
    simpl. rewrite Hv. by eapply sub_ok_inplace. }
  destruct o; simpl.
  - destruct (ctx_err c) eqn:Ec; [unfold InsertSubmission; by rewrite Ec|].
    rewrite InsertSubmission_batch by done.
    destruct (commitTo_cases d (insertBatch (submissionRow sub)) tt) as [(d' & -> & Hv)|[e ->]]; [|done].
    simpl. rewrite Hv. destruct Ho as (? & ? & ?). by apply sub_ok_insert.
  - unfold UpdateDeliveryStatus. destruct (ctx_err c); [done|].
    destruct (readSubmission d id) as [[s|]|] eqn:E; try done. apply readSubmission_sound in E.
    by eapply Hset.
  - unfold RecordDeliveryAttempt. destruct (ctx_err c); [done|].
    destruct (readSubmission d id) as [[s|]|] eqn:E; try done. apply readSubmission_sound in E.
    by eapply Hset.
  - unfold UpdateDeliveryStatusCAS. destruct (ctx_err c); [done|].
    destruct (readSubmission d id) as [[s|]|] eqn:E; try done. apply readSubmission_sound in E.
    destruct (negb _); [done|].
    destruct (commitTo_cases d [BSet (subKey id) (PSubmission (deliveredRow s next 0 0))] true)
      as [(d' & -> & Hv)|[e ->]]; [|done].
    simpl. rewrite Hv. by eapply sub_ok_inplace.
Qed.
End Subs.

(** ** Queries *)

Lemma sub_txid_prefix txid s k :
  no_colon (su_TxID s) = true -> no_colon txid = true -> k ∈ sub_keys s ->
  has_prefix (idxSubTxIDPrefix txid) k = true ↔
  su_TxID s = txid ∧ su_TxID s ≠ "" ∧ k = idxSubTxIDKey txid (su_SubmissionID s).
Proof.
  intros Hs Ht Hk. split.
  - intros [r Hr]%has_prefix_spec. revert Hr.
    apply sub_keys_elem in Hk as [(Hne & ->)|(_ & ->)]; intros Hr.
    + unfold idxSubTxIDPrefix, idxSubTxIDKey in *. rewrite !string_app_assoc in Hr.
      apply string_app_inj_l in Hr. apply colon_split in Hr as [<- _]; [by split_and!| |]; by apply Is_true_true.
    + unfold idxSubTxIDPrefix in Hr. rewrite string_app_assoc in Hr. by keys_differ.
  - intros (<- & _ & ->). unfold idxSubTxIDKey, idxSubTxIDPrefix.
    apply has_prefix_spec. exists (su_SubmissionID s). by rewrite !string_app_assoc.
Qed.

Lemma sub_id_last s k : no_colon (su_SubmissionID s) = true -> k ∈ sub_keys s -> lastSegment k = su_SubmissionID s.
Proof. intros Hc [(_ & ->)|(_ & ->)]%sub_keys_elem; by autorewrite with keys. Qed.

Section SubQueries.
Context {DB : Type} `{EngineReliable DB}.

Definition sub_walk (d : DB) (k : string) (s : storedSubmission) : Prop :=
  lastSegment k = su_SubmissionID s ∧ view d !! subKey (su_SubmissionID s) = Some (PSubmission s).

Lemma subsLoop_walk d acc l ss :
  Forall2 (sub_walk d) l.*1 ss ->
  subsLoop d None 0 acc l = (acc ++ (storedSubmission_toModel <$> ss), None).
Proof.
  intros Hw. remember l.*1 as ks eqn:Ek. revert l acc Ek.
  induction Hw as [|k s ks ss [Hk Hrow] _ IH]; intros [|[k' v] l] acc Ek; try done.
  { simpl. by rewrite app_nil_r. }
  rewrite fmap_cons in Ek. injection Ek as -> Ek. cbn [fst] in *.
  cbn [subsLoop ctx_err ctx_tick]. rewrite get_total, Hk, Hrow. cbn [asSubmission].
  replace (0 <? 0)%Z with false by done. cbn [andb]. rewrite IH by done. by rewrite <-app_assoc.
Qed.

(** The submissions of one transaction, each once. *)
Lemma GetSubmissionsByTxID_exact (txid : string) (d : DB) :
  sub_ok (view d) -> no_colon txid = true -> txid ≠ "" ->
  ∃ ss, GetSubmissionsByTxID background txid d = (storedSubmission_toModel <$> ss, None) ∧ NoDup ss ∧
  ∀ s, s ∈ ss ↔ view d !! subKey (su_SubmissionID s) = Some (PSubmission s) ∧ su_TxID s = txid.
Proof.
  intros Hok Hc Hne. unfold GetSubmissionsByTxID, submissionsByIndex, submissionsByIndexBounded, background.
  cbn [ctx_err ctx_tick]. destruct (iter_total d (idxSubTxIDPrefix txid) (endOfPrefix (idxSubTxIDPrefix txid)))
    as [l El]. rewrite El. apply iter_sound in El as Hs.
  destruct (Forall_choose (fun k s => k = idxSubTxIDKey txid (su_SubmissionID s) ∧ su_TxID s = txid ∧
    sub_walk d k s) l.*1) as [ss Hss].
  { apply Forall_forall. intros k [Hk Hp]%(prefix_scan_key _ _ _ _ Hs).
    apply (sub_idx _ Hok) in Hk as (id & s & Hl & Hin); [|by apply has_prefix_spec in Hp as [r ->]].
    destruct (sub_rows _ Hok _ _ Hl) as (? & [= <-] & <- & Hid & Htx).
    apply (sub_txid_prefix txid s k Htx Hc Hin) in Hp as (Et & _ & ->). exists s.
    split_and!; [done|done|]. split; [by apply sub_id_last|done]. }
  assert (Forall2 (sub_walk d) l.*1 ss) as Hw by (eapply Forall2_impl; [exact Hss|naive_solver]).
  exists ss. rewrite (subsLoop_walk d [] l ss Hw). split_and!; [done| |].
  - pose proof (scan_nodup _ _ _ _ Hs) as Hnd. clear -Hss Hnd. induction Hss as [|k s ks ss Hk Hss IH]; [constructor|].
    apply NoDup_cons in Hnd as [Hni Hnd]. constructor; [|auto]. intros He. apply Hni.
    apply list_elem_of_lookup in He as [i Hi]. destruct (Forall2_lookup_r _ _ _ _ _ Hss Hi) as (k' & Hk' & Hwk).
    destruct Hk as (-> & _), Hwk as (-> & _). by eapply list_elem_of_lookup_2.
  - intros s. split.
    + intros [i Hi]%list_elem_of_lookup.
      by destruct (Forall2_lookup_r _ _ _ _ _ Hss Hi) as (k & _ & _ & ? & _ & ?).
    + intros (Hl & Et). destruct (sub_rows _ Hok _ _ Hl) as (? & [= <-] & _ & Hid & Htx).
      assert (idxSubTxIDKey txid (su_SubmissionID s) ∈ sub_keys s) as Hin
        by (apply sub_keys_elem; left; rewrite Et; done).
      assert (idxSubTxIDKey txid (su_SubmissionID s) ∈ l.*1) as Hk.
      { apply (prefix_scan_key _ _ _ _ Hs). split; [|apply (sub_txid_prefix txid s _ Htx Hc Hin); by rewrite Et].
        apply (sub_idx _ Hok); [done|]. eauto. }
      apply list_elem_of_lookup in Hk as [i Hi].
      destruct (Forall2_lookup_l _ _ _ _ _ Hw Hi) as (s' & Hs' & Elast & Hrow).
      autorewrite with keys in Elast. rewrite <-Elast, Hl in Hrow. injection Hrow as <-.
      by eapply list_elem_of_lookup_2.
Qed.

(** For any list of txids, [TokensForTxIDs] returns, for each txid that
    some stored submission gives a callback token, the set of those tokens
    without repeats, and no entry for any other txid. *)
Theorem TokensForTxIDs_exact (txids : list string) (d : DB) :
  sub_ok (view d) -> Forall (fun t => no_colon t = true) txids ->
  ∃ r, TokensForTxIDs background txids d = Ok r ∧
  ∀ txid,
    (∀ toks, r !! txid = Some toks -> NoDup toks ∧ toks ≠ []) ∧
    (∀ tok, tok ∈ default [] (r !! txid) ↔
       txid ∈ txids ∧ txid ≠ "" ∧ tok ≠ "" ∧
       ∃ id s, view d !! subKey id = Some (PSubmission s) ∧ su_TxID s = txid ∧ su_CallbackToken s = tok).
Proof.
  intros Hok Hc. unfold TokensForTxIDs, TokensForTxIDsViaPerTxID. set (get := fun txid : string => _).
  assert (∀ t, t ∈ txids -> t ≠ "" -> ∃ ss, get t = Ok (Some <$> (storedSubmission_toModel <$> ss)) ∧
    ∀ s, s ∈ ss ↔ view d !! subKey (su_SubmissionID s) = Some (PSubmission s) ∧ su_TxID s = t) as Hget.
  { intros t Ht Hne. rewrite Forall_forall in Hc.
    destruct (GetSubmissionsByTxID_exact t d Hok (Hc t Ht) Hne) as (ss & E & _ & Hss).
    exists ss. split; [|done]. unfold get. by rewrite E. }
  destruct (tokensLoop_total get ∅ ∅ txids) as [r Er]; [naive_solver|].
  exists r. split; [done|]. intros txid. pose proof (tokensLoop_spec _ _ _ _ _ _ Er txid) as Hr.
  rewrite lookup_empty in Hr. case_decide as Hd.
  - destruct Hd as (Hin & _ & Hne). destruct (Hget txid Hin Hne) as (ss & Eg & Hss). rewrite Eg in Hr.
    set (subs := Some <$> (storedSubmission_toModel <$> ss)) in *.
    assert (∀ tok, tok ∈ default [] (r !! txid) ↔ tok ∈ DistinctTokens subs) as Htok
      by (intros tok; rewrite Hr; by destruct (DistinctTokens subs)).
    split.
    + intros toks Et. rewrite Hr in Et. pose proof (DistinctTokens_nodup subs) as Hnd.
      destruct (DistinctTokens subs); [done|]. by injection Et as <-.
    + intros tok. rewrite Htok, DistinctTokens_elem. unfold carries, subs. split.
      * intros (Ht & sub & (sub' & [= ->] & (s & -> & [Hl Et]%Hss)%list_elem_of_fmap)%list_elem_of_fmap & Ek).
        eauto 10.
      * intros (_ & _ & Ht & id & s & Hl & Et & Ek). split; [done|]. exists (storedSubmission_toModel s).
        split; [|done]. do 2 apply list_elem_of_fmap_2. apply Hss.
        destruct (sub_rows _ Hok _ _ Hl) as (? & [= <-] & Eid & _). by rewrite Eid.
  - split; [by rewrite Hr|]. intros tok. rewrite Hr. simpl. split; [set_solver|].
    intros (? & ? & _). destruct Hd. split_and!; [done|set_solver|done].
Qed.

(** A token that contains a colon leaks: a submission registered with
    callback token [tok:x] is returned by a lookup of token [tok]. *)
Theorem token_colon_leak (tok x : string) (s : storedSubmission) (d : DB) :
  sub_ok (view d) -> view d !! subKey (su_SubmissionID s) = Some (PSubmission s) ->
  su_CallbackToken s = tok +:+ ":" +:+ x ->
  ∃ subs, GetSubmissionsByToken background tok d = (subs, None) ∧ storedSubmission_toModel s ∈ subs.
Proof.
  intros Hok Hl Etok. unfold GetSubmissionsByToken, submissionsByIndex, submissionsByIndexBounded, background.
  cbn [ctx_err ctx_tick]. destruct (iter_total d (idxSubTokenPrefix tok) (endOfPrefix (idxSubTokenPrefix tok)))
    as [l El]. rewrite El. apply iter_sound in El as Hs.
  destruct (Forall_choose (sub_walk d) l.*1) as [ss Hw].
  { apply Forall_forall. intros k [Hk Hp]%(prefix_scan_key _ _ _ _ Hs).
    apply (sub_idx _ Hok) in Hk as (id & s' & Hl' & Hin); [|by apply has_prefix_spec in Hp as [r ->]].
    destruct (sub_rows _ Hok _ _ Hl') as (? & [= <-] & <- & Hid & Htx). exists s'.
    split; [by apply sub_id_last|done]. }
  rewrite (subsLoop_walk d [] l ss Hw). eexists. split; [done|]. apply list_elem_of_fmap_2.
  destruct (sub_rows _ Hok _ _ Hl) as (? & [= <-] & _ & Hid & Htx).
  assert (idxSubTokenKey (su_CallbackToken s) (su_SubmissionID s) ∈ sub_keys s) as Hin.
  { apply sub_keys_elem. right. split; [|done]. rewrite Etok. by destruct tok. }
  assert (idxSubTokenKey (su_CallbackToken s) (su_SubmissionID s) ∈ l.*1) as Hk.
  { apply (prefix_scan_key _ _ _ _ Hs). split; [apply (sub_idx _ Hok); [by eapply sub_key_prefix|eauto]|].
    rewrite Etok. unfold idxSubTokenKey, idxSubTokenPrefix. apply has_prefix_spec.
    exists (x +:+ ":" +:+ su_SubmissionID s). by rewrite !string_app_assoc. }
  apply list_elem_of_lookup in Hk as [i Hi].
  destruct (Forall2_lookup_l _ _ _ _ _ Hw Hi) as (s' & Hs' & Elast & Hrow).
  autorewrite with keys in Elast. rewrite <-Elast, Hl in Hrow. injection Hrow as <-.
  by eapply list_elem_of_lookup_2.
Qed.
End SubQueries.

(** ** Delivery *)
Section Delivery.
Context {DB : Type} `{EngineReliable DB}.

Lemma set_total {A} k v (r : A) (d : DB) :
  ∃ d', commitTo d [BSet k v] r = (Ok r, d') ∧ view d' = <[k := v]> (view d).
Proof.
  unfold commitTo. destruct (commit_total d [BSet k v]) as [d' E]. rewrite E.
  apply commit_sound in E. eauto.
Qed.

Lemma readSubmission_row d id s :
  view d !! subKey id = Some (PSubmission s) -> readSubmission d id = Ok (Some s).
Proof. intros Hl. unfold readSubmission. by rewrite get_total, Hl. Qed.

(** What concurrent deliverers do to one submission, in the order
    [submissionMu] serialises them: claim a status, or record an attempt. *)
Inductive delivery_ev : Type :=
| EvClaim (next : Status)
| EvAttempt (at_ : Time) (result : string).

Fixpoint runDelivery (id : string) (expected : Status) (evs : list delivery_ev) (d : DB)
  : list (Res bool) * DB :=
  match evs with
  | [] => ([], d)
  | EvClaim next :: rest =>
      let '(r, d1) := UpdateDeliveryStatusCAS background id expected next d in
      let '(rs, d2) := runDelivery id expected rest d1 in (r :: rs, d2)
  | EvAttempt t res :: rest => runDelivery id expected rest (RecordDeliveryAttempt background id t res d).2
  end.

Definition claims (evs : list delivery_ev) : nat :=
  length (List.filter (fun e => match e with EvClaim _ => true | _ => false end) evs).

Definition never_back (expected : Status) (ev : delivery_ev) : Prop :=
  match ev with EvClaim next => next ≠ expected | _ => True end.

Lemma RecordDeliveryAttempt_row d id s t res :
  view d !! subKey id = Some (PSubmission s) ->
  ∃ d', RecordDeliveryAttempt background id t res d = (Ok tt, d') ∧
    view d' = <[subKey id := PSubmission (attemptRow s (UnixNano t) res)]> (view d).
Proof.
  intros Hl. unfold RecordDeliveryAttempt, background. cbn [ctx_err].
  rewrite (readSubmission_row _ _ _ Hl). apply set_total.
Qed.

Lemma runDelivery_lost id expected evs s d :
  view d !! subKey id = Some (PSubmission s) -> su_LastDeliveredStatus s ≠ expected ->
  (runDelivery id expected evs d).1 = replicate (claims evs) (Ok false).
Proof.
  revert s d. induction evs as [|[next|t res] evs IH]; intros s d Hl Hne; [done| |].
  - cbn [runDelivery]. unfold UpdateDeliveryStatusCAS, background. cbn [ctx_err].
    rewrite (readSubmission_row _ _ _ Hl), (proj2 (String.eqb_neq _ _) Hne). simpl.
    specialize (IH s d Hl Hne). destruct (runDelivery id expected evs d). simpl in *. by rewrite IH.
  - cbn [runDelivery]. destruct (RecordDeliveryAttempt_row d id s t res Hl) as (d' & -> & Hv). cbn [snd].
    apply (IH (attemptRow s (UnixNano t) res)); [by rewrite Hv, lookup_insert_eq|done].
Qed.

(** Of any number of deliverers that saw the same last-delivered status
    and race to claim the next one, with attempts recorded in between,
    exactly the first is told to deliver and every other is refused. *)
Theorem delivery_claimed_once (id : string) (expected : Status) (evs : list delivery_ev)
    (s : storedSubmission) (d : DB) :
  view d !! subKey id = Some (PSubmission s) -> su_LastDeliveredStatus s = expected ->
  Forall (never_back expected) evs ->
  (runDelivery id expected evs d).1
  = match claims evs with O => [] | S n => Ok true :: replicate n (Ok false) end.
Proof.
  intros Hl Hs Hev. revert s d Hl Hs. induction Hev as [|[next|t res] evs Hn _ IH]; intros s d Hl Hs; [done| |].
  - cbn [runDelivery]. unfold UpdateDeliveryStatusCAS, background. cbn [ctx_err].
    rewrite (readSubmission_row _ _ _ Hl), Hs, String.eqb_refl. cbn [negb].
    destruct (set_total (subKey id) (PSubmission (deliveredRow s next 0 0)) true d) as (d' & -> & Hv).
    pose proof (runDelivery_lost id expected evs (deliveredRow s next 0 0) d') as Hlost.
    destruct (runDelivery id expected evs d') as [rs d2]. simpl in *.
    rewrite Hlost; [done|by rewrite Hv, lookup_insert_eq|done].
  - cbn [runDelivery]. destruct (RecordDeliveryAttempt_row d id s t res Hl) as (d' & -> & Hv). cbn [snd].
    apply (IH (attemptRow s (UnixNano t) res)); [by rewrite Hv, lookup_insert_eq|done].
Qed.

(** An attempt recorded between the read and the write of a concurrent
    [UpdateDeliveryStatus] is lost: the row ends up with the old attempt count
    and the old result, although [RecordDeliveryAttempt] reported success. *)
Theorem delivery_attempt_lost (id : string) (s : storedSubmission) (d : DB) (t : Time) (res : string)
    (lastStatus : Status) (retryCount : Z) (nextRetry : option Z) :
  readSubmission d id = Ok (Some s) ->
  ∃ d1 d2 s', RecordDeliveryAttempt background id t res d = (Ok tt, d1) ∧
    deliveryWrite id s lastStatus retryCount nextRetry d1 = (Ok tt, d2) ∧
    readSubmission d2 id = Ok (Some s') ∧
    su_Attempts s' = su_Attempts s ∧ su_LastResult s' = su_LastResult s.
Proof.
  intros Hr. pose proof (readSubmission_sound _ _ _ Hr) as Hl. simpl in Hl.
  destruct (RecordDeliveryAttempt_row d id s t res Hl) as (d1 & E1 & Hv1). unfold deliveryWrite.
  destruct (set_total (subKey id) (PSubmission (deliveredRow s lastStatus retryCount
    (match nextRetry with Some ns => ns | None => 0%Z end))) tt d1) as (d2 & E2 & Hv2).
  exists d1, d2. eexists. split_and!; [done|done|by apply readSubmission_row; rewrite Hv2, lookup_insert_eq|done|done].
Qed.

(** ** Registries *)

(** Registering an endpoint without a policy refreshes the row and keeps
    the policy recorded before; with a policy in range that policy is stored;
    an out-of-range policy is refused and nothing changes. *)
Theorem UpsertDatahubEndpoint_policy (ep : Policies.DatahubEndpoint) (d : DB) (row : storedDatahubEndpoint) :
  Policies.DE_URL ep ≠ "" -> view d !! datahubEndpointKey (Policies.DE_URL ep) = Some (PDatahub row) ->
  match Policies.DE_Policy ep with
  | Some p =>
      match Policies.EndpointPolicy_Validate p with
      | Some e => UpsertDatahubEndpoint background ep d = (Err e, d)
      | None => ∃ d' row', UpsertDatahubEndpoint background ep d = (Ok tt, d') ∧
          view d' !! datahubEndpointKey (Policies.DE_URL ep) = Some (PDatahub row') ∧
          policyOf <$> de_Policy row' = Some p
      end
  | None => ∃ d' row', UpsertDatahubEndpoint background ep d = (Ok tt, d') ∧
      view d' !! datahubEndpointKey (Policies.DE_URL ep) = Some (PDatahub row') ∧
      de_Policy row' = de_Policy row ∧ de_Source row' = Policies.DE_Source ep
  end.
Proof.
  intros Hu Hl. unfold UpsertDatahubEndpoint, background. cbn [ctx_err].
  rewrite (proj2 (String.eqb_neq _ _) Hu).
  destruct (Policies.DE_Policy ep) as [p|].
  - destruct (Policies.EndpointPolicy_Validate p); [done|].
    match goal with |- context [commitTo d [BSet ?k ?v] tt] => destruct (set_total k v tt d) as (d' & -> & Hv) end.
    do 2 eexists. split_and!; [done|by rewrite Hv, lookup_insert_eq|]. by destruct p.
  - unfold existingEndpointPolicy. rewrite get_total, Hl. cbn [asDatahub].
    match goal with |- context [commitTo d [BSet ?k ?v] tt] => destruct (set_total k v tt d) as (d' & -> & Hv) end.
    do 2 eexists. split_and!; [done|by rewrite Hv, lookup_insert_eq|done|done].
Qed.
End Delivery.

(** ** Leases *)
Section Leases.
Context {DB : Type} `{EngineSpec DB}.

Inductive lease_op : Type :=
| LAcquire (c : Ctx) (name holder : string) (now ttl : Z)
| LRelease (c : Ctx) (name holder : string).

Definition run_lease (o : lease_op) (d : DB) : DB :=
  match o with
  | LAcquire c name holder now ttl => (TryAcquireOrRenew c name holder now ttl d).2
  | LRelease c name holder => (Release c name holder d).2
  end.
Definition run_leases (ops : list lease_op) (d : DB) : DB := foldl (fun d o => run_lease o d) d ops.

(** A call that is not the holder's own and comes before the expiry, or is
    about another lease. *)
Definition foreign (name holder : string) (expires : Z) (o : lease_op) : Prop :=
  match o with
  | LAcquire _ n h now _ => n ≠ name ∨ (h ≠ holder ∧ (now < expires)%Z)
  | LRelease _ n h => n ≠ name ∨ h ≠ holder
  end.

Definition held (d : DB) (name holder : string) (expires : Z) : Prop :=
  view d !! leaseKey name = Some (PLease (mkStoredLease holder expires)).

Lemma leaseKey_inj a b : leaseKey a = leaseKey b -> a = b.
Proof. apply string_app_inj_l. Qed.

Lemma commit_other_lease {A} (d : DB) name n v (r : A) :
  n ≠ name -> view (commitTo d [BSet (leaseKey n) v] r).2 !! leaseKey name = view d !! leaseKey name ∧
              view (commitTo d [BDel (leaseKey n)] r).2 !! leaseKey name = view d !! leaseKey name.
Proof.
  intros Hn. assert (leaseKey n ≠ leaseKey name) as Hk by (intros E%leaseKey_inj; done).
  split; [destruct (commitTo_cases d [BSet (leaseKey n) v] r) as [(d' & -> & Hv)|[e ->]]
         |destruct (commitTo_cases d [BDel (leaseKey n)] r) as [(d' & -> & Hv)|[e ->]]]; try done; simpl; rewrite Hv.
  - simpl. by rewrite lookup_insert_ne.
  - simpl. by rewrite lookup_delete_ne.
Qed.

Lemma acquire_refused c name holder h now ttl expires d :
  held d name holder expires -> h ≠ holder -> (now < expires)%Z ->
  ∃ r, TryAcquireOrRenew c name h now ttl d = (r, d) ∧ ∀ e, r ≠ Ok (Some e).
Proof.
  intros Hh Hne Hlt. unfold held in Hh. unfold TryAcquireOrRenew. destruct (ctx_err c); [eauto|].
  destruct (eng_get d (leaseKey name)) as [v|] eqn:E; [|eauto]. apply get_sound in E as ->.
  rewrite Hh. cbn [asLease le_Holder le_ExpiresUnixNs]. rewrite (proj2 (String.eqb_neq holder h)) by done.
  rewrite (proj2 (Z.ltb_lt now expires) Hlt). eauto.
Qed.

Lemma foreign_keeps name holder expires o d :
  held d name holder expires -> foreign name holder expires o -> held (run_lease o d) name holder expires.
Proof.
  intros Hh Hf. destruct o as [c n h now ttl|c n h]; simpl in *.
  - destruct (decide (n = name)) as [->|Hn].
    + destruct Hf as [|[Hne Hlt]]; [done|]. by destruct (acquire_refused c name holder h now ttl expires d Hh Hne Hlt) as (r & -> & _).
    + unfold held, TryAcquireOrRenew in *. destruct (ctx_err c); [done|]. cbv zeta.
      destruct (eng_get d (leaseKey n)) as [[v|]|]; [|by rewrite (proj1 (commit_other_lease _ _ _ _ _ Hn))|done].
      destruct (asLease v) as [cur|]; [|by rewrite (proj1 (commit_other_lease _ _ _ _ _ Hn))].
      destruct (_ && _); [done|]. by rewrite (proj1 (commit_other_lease _ _ _ _ _ Hn)).
  - unfold held, Release in *. destruct (ctx_err c); [done|].
    destruct (eng_get d (leaseKey n)) as [[v|]|] eqn:E; [|done|done]. apply get_sound in E.
    destruct (decide (n = name)) as [->|Hn].
    + destruct Hf as [|Hne]; [done|]. rewrite Hh in E. injection E as ->. cbn [asLease le_Holder].
      by rewrite (proj2 (String.eqb_neq _ _)) by done.
    + destruct (asLease v) as [cur|].
      * destruct (negb _); [done|]. by rewrite (proj2 (commit_other_lease _ _ _ PEmpty _ Hn)).
      * by rewrite (proj2 (commit_other_lease _ _ _ PEmpty _ Hn)).
Qed.

(** C27: a lease excludes: once a holder is granted a lease until [e], then
    whatever other holders do before [e], acquire, renew or release, on this
    lease or others, with any engine failures, none of them is granted it
    before [e], and the holder's record stays in place. *)
Theorem lease_mutual_exclusion (c : Ctx) (name holder : string) (now ttl e : Z) (d d1 : DB)
    (ops : list lease_op) :
  TryAcquireOrRenew c name holder now ttl d = (Ok (Some e), d1) ->
  Forall (foreign name holder e) ops ->
  held (run_leases ops d1) name holder e ∧
  ∀ c' h now' ttl', h ≠ holder -> (now' < e)%Z ->
    ∀ e', (TryAcquireOrRenew c' name h now' ttl' (run_leases ops d1)).1 ≠ Ok (Some e').
Proof.
  intros Hacq Hops.
  assert (held d1 name holder e) as Hh.
  { revert Hacq. unfold TryAcquireOrRenew. destruct (ctx_err c); [done|]. cbv zeta.
    set (g := commitTo _ _ _). assert (g = (Ok (Some e), d1) -> held d1 name holder e) as Hg.
    { unfold g. destruct (commitTo_cases d [BSet (leaseKey name) (PLease (mkStoredLease holder (int64 (now + ttl))))]
        (Some (int64 (now + ttl)) : Time)) as [(d' & -> & Hv)|[err ->]]; [|done].
      intros [= <- <-]. unfold held. rewrite Hv. simpl. apply lookup_insert_eq. }
    destruct (eng_get d (leaseKey name)) as [[v|]|]; [|done|done].
    destruct (asLease v) as [cur|]; [|done]. by destruct (_ && _). }
  clear Hacq. assert (held (run_leases ops d1) name holder e) as Hend.
  { unfold run_leases. revert d1 Hh. induction Hops as [|o ops Ho _ IH]; intros d1 Hh; [done|].
    simpl. apply IH. by eapply foreign_keeps. }
  split; [done|]. intros c' h now' ttl' Hne Hlt.
  by destruct (acquire_refused c' name holder h now' ttl' e _ Hend Hne Hlt) as (r & -> & ?).
Qed.
End Leases.

(** ** Concrete runs *)
Section SubWitnesses.

Definition wSub (id txid tok : string) : Submission :=
  mkSubmission id txid "" tok false "" 0 None 0 None "" None.

Definition wSubs : MemDB :=
  run_sub (SInsert background (wSub "s2" "aa" "a:b"))
    (run_sub (SInsert background (wSub "s1" "aa" "t1")) (∅ : MemDB)).

Lemma wSubs_ok : sub_ok (view wSubs).
Proof.
  apply (run_sub_ok (DB := MemDB)); [|apply (run_sub_ok (DB := MemDB)); [|apply sub_ok_empty]].
  - split; [vm_compute; reflexivity|by split].
  - split; [vm_compute; reflexivity|by split].
Qed.

Lemma wSubs_s2 : view wSubs !! subKey "s2" = Some (PSubmission (submissionRow (wSub "s2" "aa" "a:b"))).
Proof. vm_compute. reflexivity. Qed.

Lemma TokensForTxIDs_exact_witness :
  ∃ r, TokensForTxIDs background ["aa"; "bb"] wSubs = Ok r ∧ "t1" ∈ default [] (r !! "aa").
Proof.
  destruct (TokensForTxIDs_exact (DB := MemDB) ["aa"; "bb"] wSubs wSubs_ok) as (r & E & Hr).
  - repeat constructor.
  - exists r. split; [exact E|]. apply Hr. split; [apply elem_of_cons; left; reflexivity|].
    split; [discriminate|]. split; [discriminate|].
    exists "s1", (submissionRow (wSub "s1" "aa" "t1")). split; [vm_compute; reflexivity|]. split; reflexivity.
Defined.

Lemma token_colon_leak_witness :
  ∃ subs, GetSubmissionsByToken background "a" wSubs = (subs, None) ∧
    storedSubmission_toModel (submissionRow (wSub "s2" "aa" "a:b")) ∈ subs.
Proof.
  apply (token_colon_leak (DB := MemDB) "a" "b" (submissionRow (wSub "s2" "aa" "a:b")) wSubs wSubs_ok wSubs_s2).
  reflexivity.
Defined.

Lemma delivery_claimed_once_witness :
  (runDelivery "s2" "" [EvAttempt (Some 5%Z) "500"; EvClaim StatusMined; EvClaim StatusMined] wSubs).1
  = [Ok true; Ok false].
Proof.
  apply (delivery_claimed_once (DB := MemDB) "s2" ""
    [EvAttempt (Some 5%Z) "500"; EvClaim StatusMined; EvClaim StatusMined] _ wSubs wSubs_s2).
  - reflexivity.
  - repeat constructor; discriminate.
Defined.

Lemma delivery_attempt_lost_witness :
  ∃ d1 d2 s', RecordDeliveryAttempt background "s2" (Some 5%Z) "500" wSubs = (Ok tt, d1) ∧
    deliveryWrite "s2" (submissionRow (wSub "s2" "aa" "a:b")) StatusMined 1 (Some 9%Z) d1 = (Ok tt, d2) ∧
    readSubmission d2 "s2" = Ok (Some s') ∧ su_Attempts s' = 0%Z.
Proof.
  destruct (delivery_attempt_lost (DB := MemDB) "s2" (submissionRow (wSub "s2" "aa" "a:b")) wSubs (Some 5%Z)
    "500" StatusMined 1 (Some 9%Z)) as (d1 & d2 & s' & E1 & E2 & E3 & Ea & _).
  - vm_compute. reflexivity.
  - exists d1, d2, s'. split; [exact E1|]. split; [exact E2|]. split; [exact E3|exact Ea].
Defined.

Definition wEndpoint (p : option Policies.EndpointPolicy) : Policies.DatahubEndpoint :=
  Policies.mkDatahubEndpoint "http://h" "main" "discovered" p None.
Definition wPolicy : Policies.EndpointPolicy := Policies.mkEndpointPolicy 1 1000 0 0 0.
Definition wRegistry : MemDB := (UpsertDatahubEndpoint background (wEndpoint (Some wPolicy)) (∅ : MemDB)).2.

Lemma UpsertDatahubEndpoint_policy_witness :
  ∃ d' row', UpsertDatahubEndpoint background (wEndpoint None) wRegistry = (Ok tt, d') ∧
    de_Policy row' = Some (storedPolicyOf wPolicy).
Proof.
  destruct (UpsertDatahubEndpoint_policy (DB := MemDB) (wEndpoint None) wRegistry
    (mkStoredDatahubEndpoint "http://h" "main" "discovered" (Some (storedPolicyOf wPolicy)) 0))
    as (d' & row' & E & _ & Hp & _).
  - discriminate.
  - vm_compute. reflexivity.
  - exists d', row'. split; [exact E|exact Hp].
Defined.

Lemma lease_mutual_exclusion_witness :
  ∃ d1, TryAcquireOrRenew background "leader" "pod-a" 100 50 (∅ : MemDB) = (Ok (Some 150%Z), d1) ∧
    ∀ e', (TryAcquireOrRenew background "leader" "pod-b" 149 50
      (run_leases [LAcquire background "leader" "pod-b" 120 50; LRelease background "leader" "pod-b"] d1)).1
      ≠ Ok (Some e').
Proof.
  eexists. split; [vm_compute; reflexivity|].
  refine (proj2 (lease_mutual_exclusion (DB := MemDB) background "leader" "pod-a" 100 50 150 ∅ _
    [LAcquire background "leader" "pod-b" 120 50; LRelease background "leader" "pod-b"] _ _)
    background "pod-b" 149%Z 50%Z _ _).
  - vm_compute. reflexivity.
  - constructor; [right; split; [discriminate|lia]|]. constructor; [right; discriminate|constructor].
  - discriminate.
  - lia.
Defined.
End SubWitnesses.
