(* ===== verification/Bump.v ===== *)
(** * Bump: minimal merkle paths out of a compound BUMP

    Models the read side of [bump/bump.go] and [bump/helpers.go]: the linear
    extraction ([ExtractMinimalPathForTx]) and the indexed one
    ([IndexCompound], [MinimalPathBytes]) that the cache uses, with the binary
    search of Go's [slices] package.  The BRC-74 codec and the txid parser
    belong to go-sdk and are section variables. *)
From stdpp Require Import base gmap strings list sorting.
From Stdlib Require Import ZArith Lia.
From Stdlib Require Import Strings.Byte.
From S2P Require Import Prelude.

(** A 32-byte hash. *)
Definition Hash : Type := string.

(** The fields of [transaction.PathElement] and [transaction.MerklePath] of
    go-sdk; a nil pointer is [None]. *)
Record PathElement : Type := mkPathElement {
  pe_Offset : Z;
  pe_Hash : option Hash;
  pe_Txid : option bool;
  pe_Duplicate : option bool
}.

Record MerklePath : Type := mkMerklePath {
  mp_BlockHeight : Z;
  mp_Path : list (list PathElement)
}.

#[export] Instance PathElement_eq_dec : EqDecision PathElement.
Proof. solve_decision. Defined.
#[export] Instance PathElement_inhabited : Inhabited PathElement := populate (mkPathElement 0 None None None).

(** ** helpers.go *)

Definition addLeaf (mp : MerklePath) (level : nat) (elem : PathElement) : MerklePath :=
  let grown := mp_Path mp ++ replicate (S level - length (mp_Path mp)) [] in
  mkMerklePath (mp_BlockHeight mp) (alter (fun l => l ++ [elem]) level grown).

Definition findLeafByOffset (mp : MerklePath) (level : nat) (offset : Z) : option PathElement :=
  match mp_Path mp !! level with
  | None => None
  | Some elems => List.find (fun elem => pe_Offset elem =? offset)%Z elems
  end.

Definition isDuplicate (elem : option PathElement) : bool :=
  match elem with Some e => match pe_Duplicate e with Some b => b | None => false end | None => false end.

(** ** Extraction *)

(** The loop shared by [ExtractMinimalPath] and [MinimalPathBytes], over the
    levels [level .. level + n - 1]; [find] is the lookup each of them uses. *)
Fixpoint minimalWalk (find : nat -> Z -> option PathElement) (n level : nat) (offset : Z) (mp : MerklePath)
  : MerklePath :=
  match n with
  | O => mp
  | S n =>
      let mp := if (level =? 0)%nat
                then match find level offset with Some leaf => addLeaf mp level leaf | None => mp end
                else mp in
      let mp := match find level (Z.lxor offset 1) with Some sibling => addLeaf mp level sibling | None => mp end in
      minimalWalk find n (S level) (Z.shiftr offset 1) mp
  end.

Definition ExtractMinimalPath (fullPath : MerklePath) (txOffset : Z) : MerklePath :=
  minimalWalk (findLeafByOffset fullPath) (length (mp_Path fullPath)) 0 txOffset
    (mkMerklePath (mp_BlockHeight fullPath) (replicate (length (mp_Path fullPath)) [])).

(** [slices.SortFunc]: sorted, not necessarily stable. *)
Class SortFunc : Type := {
  sortByOffset : list PathElement -> list PathElement;
  sort_perm l : sortByOffset l ≡ₚ l;
  sort_sorted l : StronglySorted (fun a b => pe_Offset a <= pe_Offset b)%Z (sortByOffset l)
}.

(** [slices.BinarySearchFunc]: the interval halves, so its length is fuel. *)
Fixpoint searchLoop (fuel : nat) (elems : list PathElement) (offset : Z) (i j : nat) : nat :=
  match fuel with
  | O => i
  | S fuel =>
      if (i <? j)%nat then
        let h := ((i + j) / 2)%nat in
        if (pe_Offset (elems !!! h) <? offset)%Z then searchLoop fuel elems offset (S h) j
        else searchLoop fuel elems offset i h
      else i
  end.

Definition BinarySearch (elems : list PathElement) (offset : Z) : nat * bool :=
  let i := searchLoop (length elems) elems offset 0 (length elems) in
  (i, (i <? length elems)%nat && (pe_Offset (elems !!! i) =? offset)%Z).

Record CompoundIndex : Type := mkCompoundIndex {
  ci_blockHeight : Z;
  ci_txOffsets : gmap Hash Z;
  ci_levels : list (list PathElement);
  ci_leaves : Z
}.

Definition leafAt (ci : CompoundIndex) (level : nat) (offset : Z) : option PathElement :=
  match ci_levels ci !! level with
  | None => None
  | Some elems => let '(i, ok) := BinarySearch elems offset in if ok then Some (elems !!! i) else None
  end.

Section Codec.
Context (NewMerklePathFromBinary : list byte -> Res MerklePath) (Bytes : MerklePath -> list byte).
Context (NewHashFromHex : string -> Res Hash).
Context `{SortFunc}.

Definition ExtractMinimalPathForTx (bumpData : list byte) (txid : string) : option (list byte) :=
  match NewMerklePathFromBinary bumpData with
  | Err _ => None
  | Ok compound =>
      match NewHashFromHex txid with
      | Err _ => None
      | Ok txHash =>
          match mp_Path compound with
          | [] => None
          | level0 :: _ =>
              match List.find (fun leaf => bool_decide (pe_Hash leaf = Some txHash)) level0 with
              | None => None
              | Some leaf => Some (Bytes (ExtractMinimalPath compound (pe_Offset leaf)))
              end
          end
      end
  end.

Definition recordOffset (m : gmap Hash Z) (leaf : PathElement) : gmap Hash Z :=
  match pe_Hash leaf with Some h => <[h := pe_Offset leaf]> m | None => m end.

Definition indexLevels (compound : MerklePath) : CompoundIndex :=
  mkCompoundIndex (mp_BlockHeight compound)
    (match mp_Path compound with [] => ∅ | level0 :: _ => foldl recordOffset ∅ level0 end)
    (sortByOffset <$> mp_Path compound)
    (foldl (fun n elems => n + Z.of_nat (length elems))%Z 0%Z (sortByOffset <$> mp_Path compound)).

Definition IndexCompound (bumpData : list byte) : Res CompoundIndex :=
  match NewMerklePathFromBinary bumpData with
  | Err e => Err e
  | Ok compound => Ok (indexLevels compound)
  end.

Definition Leaves (ci : CompoundIndex) : Z := ci_leaves ci.

Definition Contains (ci : CompoundIndex) (txid : string) : bool :=
  match NewHashFromHex txid with
  | Err _ => false
  | Ok txHash => bool_decide (is_Some (ci_txOffsets ci !! txHash))
  end.

Definition MinimalPathBytes (ci : CompoundIndex) (txid : string) : option (list byte) :=
  match NewHashFromHex txid with
  | Err _ => None
  | Ok txHash =>
      match ci_txOffsets ci !! txHash with
      | None => None
      | Some txOffset =>
          Some (Bytes (minimalWalk (leafAt ci) (length (ci_levels ci)) 0 txOffset
                         (mkMerklePath (ci_blockHeight ci) (replicate (length (ci_levels ci)) []))))
      end
  end.
End Codec.

(** ** The search *)

Definition ordered (l : list PathElement) : Prop := StronglySorted (fun a b => pe_Offset a <= pe_Offset b)%Z l.

Lemma ordered_lookup l i j :
  ordered l -> (i <= j)%nat -> (j < length l)%nat -> (pe_Offset (l !!! i) <= pe_Offset (l !!! j))%Z.
Proof.
  intros Hs. revert i j. induction Hs as [|x l Hs IH Hf]; intros i j Hij Hj; simpl in Hj; [lia|].
  destruct i as [|i], j as [|j]; simpl; [lia| |lia|apply IH; lia].
  rewrite Forall_forall in Hf. apply Hf. eapply list_elem_of_lookup_2, list_lookup_lookup_total_lt. lia.
Qed.

Lemma searchLoop_spec fuel l o i j :
  ordered l -> (i <= j <= length l)%nat -> (j - i <= fuel)%nat ->
  (∀ k, (k < i)%nat -> (pe_Offset (l !!! k) < o)%Z) ->
  (∀ k, (j <= k < length l)%nat -> (o <= pe_Offset (l !!! k))%Z) ->
  let r := searchLoop fuel l o i j in
  (r <= length l)%nat ∧ (∀ k, (k < r)%nat -> (pe_Offset (l !!! k) < o)%Z) ∧
  (∀ k, (r <= k < length l)%nat -> (o <= pe_Offset (l !!! k))%Z).
Proof.
  intros Hs. revert i j. induction fuel as [|fuel IH]; intros i j Hij Hf Hlo Hhi; cbn [searchLoop].
  { assert (i = j) as -> by lia. split_and!; [lia|done|done]. }
  destruct (Nat.ltb_spec i j) as [Hlt|]; [|assert (i = j) as -> by lia; split_and!; [lia|done|done]].
  assert (i <= (i + j) / 2 < j)%nat as Hh
    by (pose proof (Nat.div_mod_eq (i + j) 2); pose proof (Nat.mod_upper_bound (i + j) 2); lia).
  set (h := ((i + j) / 2)%nat) in *. clearbody h.
  destruct (Z.ltb_spec (pe_Offset (l !!! h)) o) as [Hl|Hg]; apply IH; try lia; try done.
  - intros k Hk. pose proof (ordered_lookup l k h Hs ltac:(lia) ltac:(lia)). lia.
  - intros k Hk. pose proof (ordered_lookup l h k Hs ltac:(lia) ltac:(lia)). lia.
Qed.

Lemma BinarySearch_spec l o e :
  ordered l -> NoDup (pe_Offset <$> l) ->
  (let '(i, ok) := BinarySearch l o in if ok then Some (l !!! i) else None) = Some e ↔ e ∈ l ∧ pe_Offset e = o.
Proof.
  intros Hs Hnd. unfold BinarySearch.
  destruct (searchLoop_spec (length l) l o 0 (length l) Hs) as (Hr & Hlo & Hhi); [lia|lia|lia|lia|].
  set (r := searchLoop (length l) l o 0 (length l)) in *. clearbody r.
  assert (∀ k, l !! k = Some e -> pe_Offset e = o -> (r <= k)%nat) as Hge.
  { intros k Hk He. destruct (Nat.le_gt_cases r k); [done|]. specialize (Hlo k ltac:(lia)).
    rewrite (list_lookup_total_correct _ _ _ Hk) in Hlo. lia. }
  destruct (Nat.ltb_spec r (length l)) as [Hlt|Hend]; cbn [andb].
  - assert (l !! r = Some (l !!! r)) as Er by (by apply list_lookup_lookup_total_lt).
    destruct (Z.eqb_spec (pe_Offset (l !!! r)) o) as [E|E].
    + split; [intros [= <-]; split; [by eapply list_elem_of_lookup_2|done]|].
      intros [[k Hk]%list_elem_of_lookup He]. f_equal. assert (k = r) as ->; [|by apply list_lookup_total_correct].
      apply (NoDup_lookup (pe_Offset <$> l) k r o); [done|rewrite list_lookup_fmap, Hk; simpl; by rewrite He|].
      rewrite list_lookup_fmap, Er. simpl. by rewrite E.
    + split; [done|]. intros [[k Hk]%list_elem_of_lookup He]. exfalso. specialize (Hge k Hk He).
      pose proof (lookup_lt_Some _ _ _ Hk) as Hkl. pose proof (Hhi r ltac:(lia)).
      pose proof (ordered_lookup l r k Hs Hge Hkl) as Hle. rewrite (list_lookup_total_correct _ _ _ Hk) in Hle. lia.
  - split; [done|]. intros [[k Hk]%list_elem_of_lookup He]. specialize (Hge k Hk He).
    apply lookup_lt_Some in Hk. lia.
Qed.

Lemma find_spec l o e :
  NoDup (pe_Offset <$> l) ->
  List.find (fun elem => pe_Offset elem =? o)%Z l = Some e ↔ e ∈ l ∧ pe_Offset e = o.
Proof.
  induction l as [|x l IH]; intros Hnd; cbn [List.find].
  { split; [done|]. intros [Hin _]. by apply not_elem_of_nil in Hin. }
  apply NoDup_cons in Hnd as [Hni Hnd]. destruct (Z.eqb_spec (pe_Offset x) o) as [E|E].
  - split; [intros [= <-]; split; [set_solver|done]|]. intros [[->|Hin]%elem_of_cons He]; [done|].
    destruct Hni. rewrite E, <-He. by apply list_elem_of_fmap_2.
  - rewrite IH by done. rewrite elem_of_cons. naive_solver.
Qed.

(** ** The index answers as the scan *)

(** A compound has one element per position and one leaf per txid. *)
Record compound_ok (mp : MerklePath) : Prop := {
  co_offsets : ∀ level elems, mp_Path mp !! level = Some elems -> NoDup (pe_Offset <$> elems);
  co_txids : ∀ level0, mp_Path mp !! 0%nat = Some level0 -> NoDup (omap pe_Hash level0)
}.

Lemma minimalWalk_ext find find' n level o mp :
  (∀ l x, find l x = find' l x) -> minimalWalk find n level o mp = minimalWalk find' n level o mp.
Proof.
  intros He. revert level o mp. induction n as [|n IH]; intros level o mp; cbn [minimalWalk]; [done|].
  rewrite !He. apply IH.
Qed.

Section Equivalence.
Context (NewMerklePathFromBinary : list byte -> Res MerklePath) (Bytes : MerklePath -> list byte).
Context (NewHashFromHex : string -> Res Hash).
Context `{SortFunc}.

Lemma leafAt_find mp level o : compound_ok mp -> leafAt (indexLevels mp) level o = findLeafByOffset mp level o.
Proof.
  intros [Hoff _]. unfold leafAt, findLeafByOffset, indexLevels. cbn [ci_levels]. rewrite list_lookup_fmap.
  destruct (mp_Path mp !! level) as [elems|] eqn:El; [|done].
  change (sortByOffset <$> Some elems) with (Some (sortByOffset elems)). cbn iota.
  specialize (Hoff level elems El). apply option_eq. intros e.
  etrans; [apply BinarySearch_spec; [apply sort_sorted|by rewrite sort_perm]|]. by rewrite sort_perm, find_spec.
Qed.

Lemma offsets_lookup level0 m h :
  NoDup (omap pe_Hash level0) ->
  foldl recordOffset m level0 !! h =
  match List.find (fun leaf => bool_decide (pe_Hash leaf = Some h)) level0 with
  | Some leaf => Some (pe_Offset leaf)
  | None => m !! h
  end.
Proof.
  revert m. induction level0 as [|x l IH]; intros m Hnd; cbn [foldl List.find]; [done|].
  cbn [omap list_omap] in Hnd. unfold recordOffset at 2. destruct (pe_Hash x) as [hx|] eqn:Ex.
  - apply NoDup_cons in Hnd as [Hni Hnd]. rewrite IH by done. case_bool_decide as Eh.
    + injection Eh as ->. destruct (List.find _ l) as [y|] eqn:Ef; [|by rewrite lookup_insert_eq].
      apply List.find_some in Ef as [Hin Hy%bool_decide_eq_true]. destruct Hni. apply list_elem_of_omap.
      exists y. split; [by apply list_elem_of_In|done].
    + destruct (List.find _ l); [done|]. rewrite lookup_insert_ne; [done|congruence].
  - rewrite IH by done. case_bool_decide; [done|]. done.
Qed.

Lemma indexed_as_scanned (data : list byte) (mp : MerklePath) (txid : string) :
  NewMerklePathFromBinary data = Ok mp -> compound_ok mp ->
  MinimalPathBytes Bytes NewHashFromHex (indexLevels mp) txid
  = ExtractMinimalPathForTx NewMerklePathFromBinary Bytes NewHashFromHex data txid ∧
  Contains NewHashFromHex (indexLevels mp) txid
  = bool_decide (is_Some (ExtractMinimalPathForTx NewMerklePathFromBinary Bytes NewHashFromHex data txid)).
Proof.
  intros Hp Hok. unfold MinimalPathBytes, ExtractMinimalPathForTx, Contains. rewrite Hp.
  destruct (NewHashFromHex txid) as [h|]; [|by rewrite bool_decide_eq_false_2 by (by intros [? ?])].
  assert (ci_txOffsets (indexLevels mp) !! h =
    match mp_Path mp with
    | [] => None
    | level0 :: _ => pe_Offset <$> List.find (fun leaf => bool_decide (pe_Hash leaf = Some h)) level0
    end) as ->.
  { unfold indexLevels. simpl. destruct (mp_Path mp) as [|level0 rest] eqn:Ep; [by rewrite lookup_empty|].
    rewrite offsets_lookup by (apply (co_txids _ Hok); by rewrite Ep). by destruct (List.find _ level0). }
  destruct (mp_Path mp) as [|level0 rest] eqn:Ep; [done|].
  destruct (List.find _ level0) as [leaf|]; simpl; [|done]. split; [|done]. do 2 f_equal. unfold ExtractMinimalPath.
  rewrite length_fmap. apply minimalWalk_ext. intros l x. by apply leafAt_find.
Qed.

(** The cached index is a faithful replacement of the scan: for every
    compound with one element per position and one leaf per txid, and any
    sort that sorts, the indexed extraction returns the same bytes as parsing
    and scanning the compound again, for every txid, found or not. *)
Theorem MinimalPathBytes_equiv (data : list byte) (mp : MerklePath) (txid : string) :
  NewMerklePathFromBinary data = Ok mp -> compound_ok mp ->
  ∃ ci, IndexCompound NewMerklePathFromBinary data = Ok ci ∧
    MinimalPathBytes Bytes NewHashFromHex ci txid
    = ExtractMinimalPathForTx NewMerklePathFromBinary Bytes NewHashFromHex data txid ∧
    Contains NewHashFromHex ci txid
    = bool_decide (is_Some (ExtractMinimalPathForTx NewMerklePathFromBinary Bytes NewHashFromHex data txid)).
Proof.
  intros Hp Hok. exists (indexLevels mp). split; [|by apply indexed_as_scanned].
  unfold IndexCompound. by rewrite Hp.
Qed.
End Equivalence.

(** A sort for the concrete instance: merge sort by offset. *)
Definition offset_le (a b : PathElement) : Prop := (pe_Offset a <= pe_Offset b)%Z.
#[local] Instance offset_le_dec : RelDecision offset_le.
Proof. intros a b. unfold offset_le. apply _. Defined.
#[local] Instance offset_le_trans : Transitive offset_le.
Proof. intros a b c. unfold offset_le. lia. Qed.
#[local] Instance offset_le_total : Total offset_le.
Proof. intros a b. unfold offset_le. lia. Qed.
#[local] Instance mergeSortFunc : SortFunc := {
  sortByOffset := merge_sort offset_le;
  sort_perm := merge_sort_Permutation offset_le;
  sort_sorted := StronglySorted_merge_sort offset_le
}.

(** A three-transaction block whose last leaf is its own sibling, stored with
    its leaves out of order. *)
Definition sampleCompound : MerklePath :=
  mkMerklePath 7
    [[mkPathElement 2 (Some "c") (Some true) None; mkPathElement 3 None None (Some true);
      mkPathElement 0 (Some "a") (Some true) None; mkPathElement 1 (Some "b") None None];
     [mkPathElement 1 (Some "cc") None None; mkPathElement 0 (Some "ab") None None]].

(** The offsets of a path, level by level: enough of a serialisation to tell
    which nodes were kept. *)
Definition offsetBytes (mp : MerklePath) : list byte :=
  concat (List.map (fun level => omap (fun e => Byte.of_N (Z.to_N (pe_Offset e))) level) (mp_Path mp)).

Lemma sampleCompound_ok : compound_ok sampleCompound.
Proof.
  split.
  - intros [|[|level]] elems E; injection E as <- || done; apply (bool_decide_unpack _); by vm_compute.
  - intros level0 E. injection E as <-. apply (bool_decide_unpack _). by vm_compute.
Qed.

Lemma MinimalPathBytes_equiv_witness :
  ∃ ci, IndexCompound (fun _ => Ok sampleCompound) [] = Ok ci ∧
    MinimalPathBytes offsetBytes Ok ci "c"
    = ExtractMinimalPathForTx (fun _ => Ok sampleCompound) offsetBytes Ok [] "c" ∧
    Contains Ok ci "c" = true.
Proof.
  destruct (MinimalPathBytes_equiv (fun _ => Ok sampleCompound) offsetBytes Ok [] sampleCompound "c" eq_refl
              sampleCompound_ok) as (ci & E1 & E2 & E3).
  exists ci. split_and!; [exact E1|exact E2|exact E3].
Defined.

(** ** The extracted path proves the same root *)
Section Verify.
(** [transaction.MerkleTreeParent]. *)
Context (parent : Hash -> Hash -> Hash).

(** BRC-74 verification: fold the working hash with the sibling of each level
    of the path, or with itself where the sibling is marked duplicate. *)
Fixpoint foldPath (find : nat -> Z -> option PathElement) (n level : nat) (offset : Z) (working : Hash)
  : option Hash :=
  match n with
  | O => Some working
  | S n =>
      match find level (Z.lxor offset 1) with
      | None => None
      | Some s =>
          if isDuplicate (Some s) then foldPath find n (S level) (Z.shiftr offset 1) (parent working working)
          else match pe_Hash s with
               | None => None
               | Some h =>
                   foldPath find n (S level) (Z.shiftr offset 1)
                     (if Z.even offset then parent working h else parent h working)
               end
      end
  end.

Definition rootOf (mp : MerklePath) (offset : Z) (txHash : Hash) : option Hash :=
  foldPath (findLeafByOffset mp) (length (mp_Path mp)) 0 offset txHash.

Lemma foldPath_ext find find' n level o w :
  (∀ i, (i < n)%nat -> find (level + i)%nat (Z.lxor (Z.shiftr o (Z.of_nat i)) 1)
                     = find' (level + i)%nat (Z.lxor (Z.shiftr o (Z.of_nat i)) 1)) ->
  foldPath find n level o w = foldPath find' n level o w.
Proof.
  revert level o w. induction n as [|n IH]; intros level o w Hf; cbn [foldPath]; [done|].
  pose proof (Hf 0%nat ltac:(lia)) as H0. rewrite Nat.add_0_r, Z.shiftr_0_r in H0. rewrite H0.
  assert (∀ w, foldPath find n (S level) (Z.shiftr o 1) w = foldPath find' n (S level) (Z.shiftr o 1) w) as Hrec.
  { intros w'. apply IH. intros i Hi. specialize (Hf (S i) ltac:(lia)).
    replace (level + S i)%nat with (S level + i)%nat in Hf by lia.
    replace (Z.of_nat (S i)) with (1 + Z.of_nat i)%Z in Hf by lia. by rewrite <-Z.shiftr_shiftr in Hf by lia. }
  destruct (find' level (Z.lxor o 1)) as [s|]; [|done]. rewrite Hrec. destruct (pe_Hash s); [|done]. by rewrite Hrec.
Qed.
End Verify.

(** *** What the walk collects *)

Definition putLeaf (mp : MerklePath) (level : nat) (e : option PathElement) : MerklePath :=
  match e with Some e => addLeaf mp level e | None => mp end.

Lemma putLeaf_path mp level e :
  (level < length (mp_Path mp))%nat ->
  mp_Path (putLeaf mp level e) = alter (fun l => l ++ option_list e) level (mp_Path mp).
Proof.
  intros Hl. destruct e as [e|]; simpl.
  - unfold addLeaf. simpl. replace (S level - length (mp_Path mp))%nat with 0%nat by lia. by rewrite app_nil_r.
  - apply list_eq. intros i. destruct (decide (i = level)) as [->|].
    + rewrite list_lookup_alter_eq. destruct (mp_Path mp !! level); simpl; [by rewrite app_nil_r|done].
    + by rewrite list_lookup_alter_ne.
Qed.

Lemma putLeaf_length mp level e :
  (level < length (mp_Path mp))%nat -> length (mp_Path (putLeaf mp level e)) = length (mp_Path mp).
Proof. intros Hl. by rewrite putLeaf_path, length_alter. Qed.

(** The nodes collected at level [level + i] of a walk from [(level, o)]. *)
Definition collected (find : nat -> Z -> option PathElement) (level i : nat) (o : Z) : list PathElement :=
  (if (level + i =? 0)%nat then option_list (find 0%nat o) else []) ++
  option_list (find (level + i)%nat (Z.lxor (Z.shiftr o (Z.of_nat i)) 1)).

Lemma collected_S find level i o :
  collected find (S level) i (Z.shiftr o 1) = collected find level (S i) o.
Proof.
  unfold collected. replace (level + S i)%nat with (S level + i)%nat by lia.
  replace (Z.of_nat (S i)) with (1 + Z.of_nat i)%Z by lia. rewrite <-Z.shiftr_shiftr by lia. done.
Qed.

Lemma minimalWalk_lookup find n level o mp :
  length (mp_Path mp) = (level + n)%nat ->
  length (mp_Path (minimalWalk find n level o mp)) = (level + n)%nat ∧
  (∀ l, (l < level)%nat -> mp_Path (minimalWalk find n level o mp) !! l = mp_Path mp !! l) ∧
  (∀ i, (i < n)%nat -> mp_Path (minimalWalk find n level o mp) !! (level + i)%nat
                     = (fun old => old ++ collected find level i o) <$> mp_Path mp !! (level + i)%nat).
Proof.
  revert level o mp. induction n as [|n IH]; intros level o mp Hl; cbn [minimalWalk]; [split_and!; [done|done|lia]|].
  set (mp1 := if (level =? 0)%nat then _ else mp).
  assert (mp1 = putLeaf mp level (if (level =? 0)%nat then find level o else None)) as E1
    by (unfold mp1; by destruct (level =? 0)%nat).
  set (mp2 := match find level (Z.lxor o 1) with Some _ => _ | None => mp1 end).
  assert (mp2 = putLeaf mp1 level (find level (Z.lxor o 1))) as E2 by (unfold mp2; by destruct (find level (Z.lxor o 1))).
  clearbody mp1 mp2. subst mp1.
  assert (length (mp_Path mp2) = (S level + n)%nat) as Hl2 by (rewrite E2, !putLeaf_length; rewrite ?putLeaf_length; lia).
  destruct (IH (S level) (Z.shiftr o 1) mp2 Hl2) as (H1 & H2 & H3).
  assert (∀ l, mp_Path mp2 !! l = if decide (l = level)
            then (fun old => old ++ collected find level 0 o) <$> mp_Path mp !! l else mp_Path mp !! l) as Hmp2.
  { intros l. rewrite E2, !putLeaf_path by (rewrite ?putLeaf_length; lia). case_decide as Hd.
    - subst l. rewrite !list_lookup_alter_eq, <-option_fmap_compose. apply option_fmap_ext. intros old. simpl.
      unfold collected. rewrite Nat.add_0_r, Z.shiftr_0_r, <-app_assoc. destruct (Nat.eqb_spec level 0) as [->|]; done.
    - by rewrite !list_lookup_alter_ne by done. }
  split; [lia|]. split.
  - intros l Hll. rewrite H2, Hmp2, decide_False by lia. done.
  - intros [|i] Hi.
    + rewrite Nat.add_0_r, H2, Hmp2, decide_True by lia. done.
    + replace (level + S i)%nat with (S level + i)%nat by lia. rewrite H3, Hmp2, decide_False by lia.
      by rewrite collected_S.
Qed.

Lemma Extract_level full o i :
  (i < length (mp_Path full))%nat ->
  mp_Path (ExtractMinimalPath full o) !! i = Some (collected (findLeafByOffset full) 0 i o).
Proof.
  intros Hi. unfold ExtractMinimalPath.
  destruct (minimalWalk_lookup (findLeafByOffset full) (length (mp_Path full)) 0 o
    (mkMerklePath (mp_BlockHeight full) (replicate (length (mp_Path full)) []))) as (_ & _ & H3).
  { simpl. by rewrite length_replicate. }
  rewrite (H3 i Hi : mp_Path _ !! i = _). simpl. by rewrite lookup_replicate_2.
Qed.

Lemma findLeaf_offset mp level o e : findLeafByOffset mp level o = Some e -> pe_Offset e = o.
Proof.
  unfold findLeafByOffset. destruct (mp_Path mp !! level); [|done].
  intros [_ E%Z.eqb_eq]%List.find_some. done.
Qed.

Lemma lxor_1_ne o : Z.lxor o 1 ≠ o.
Proof.
  intros E. assert (Z.lxor o (Z.lxor o 1) = Z.lxor o o) as E2 by (by rewrite E).
  rewrite <-Z.lxor_assoc, Z.lxor_nilpotent, Z.lxor_0_l in E2. done.
Qed.

Lemma find_option_list (o : Z) (e : option PathElement) :
  (∀ x, e = Some x -> pe_Offset x = o) -> List.find (fun x => pe_Offset x =? o)%Z (option_list e) = e.
Proof. intros He. destruct e as [x|]; simpl; [|done]. by rewrite (He x eq_refl), Z.eqb_refl. Qed.

Lemma Extract_sibling full o i :
  (i < length (mp_Path full))%nat ->
  let x := Z.lxor (Z.shiftr o (Z.of_nat i)) 1 in
  findLeafByOffset (ExtractMinimalPath full o) i x = findLeafByOffset full i x.
Proof.
  intros Hi x. unfold findLeafByOffset at 1. rewrite Extract_level by done. unfold collected. fold x. simpl Nat.add.
  destruct (Nat.eqb_spec i 0) as [->|Hne]; [|apply find_option_list, findLeaf_offset].
  destruct (findLeafByOffset full 0 o) as [leaf|] eqn:El; simpl; [|apply find_option_list, findLeaf_offset].
  apply findLeaf_offset in El. rewrite El. subst x. simpl Z.of_nat. rewrite Z.shiftr_0_r.
  rewrite (proj2 (Z.eqb_neq _ _)) by (intros E; by apply (lxor_1_ne o)).
  apply find_option_list, findLeaf_offset.
Qed.

Lemma Extract_length full o : length (mp_Path (ExtractMinimalPath full o)) = length (mp_Path full).
Proof. unfold ExtractMinimalPath. apply minimalWalk_lookup. simpl. by rewrite length_replicate. Qed.

Lemma Extract_rootOf (parent : Hash -> Hash -> Hash) full o txHash :
  rootOf parent (ExtractMinimalPath full o) o txHash = rootOf parent full o txHash.
Proof. unfold rootOf. rewrite Extract_length. apply foldPath_ext. intros i Hi. by apply Extract_sibling. Qed.

(** The extracted path is a proof: it keeps the transaction's leaf and
    verifies, for the transaction's position, to exactly the root the whole
    compound verifies to, or fails exactly when the compound does; and it is
    minimal: at most two nodes at the leaf level and one at every other. *)
Theorem ExtractMinimalPath_sound (parent : Hash -> Hash -> Hash) (full : MerklePath) (o : Z) (txHash : Hash) :
  let p := ExtractMinimalPath full o in
  rootOf parent p o txHash = rootOf parent full o txHash ∧
  findLeafByOffset p 0 o = findLeafByOffset full 0 o ∧
  length (mp_Path p) = length (mp_Path full) ∧
  ∀ i elems, mp_Path p !! i = Some elems -> (length elems <= if (i =? 0)%nat then 2 else 1)%nat.
Proof.
  cbn zeta.
  pose proof (Extract_length full o) as El. split_and!.
  - apply Extract_rootOf.
  - unfold findLeafByOffset at 1. destruct (mp_Path full) as [|l0 rest] eqn:Ep.
    + apply nil_length_inv in El. rewrite El. unfold findLeafByOffset. by rewrite Ep.
    + rewrite Extract_level by (rewrite Ep; simpl; lia). unfold collected. simpl Nat.add. cbn [Nat.eqb].
      destruct (findLeafByOffset full 0 o) as [leaf|] eqn:Ef; simpl.
      * by rewrite (findLeaf_offset _ _ _ _ Ef), Z.eqb_refl.
      * rewrite Z.shiftr_0_r. destruct (findLeafByOffset full 0 (Z.lxor o 1)) as [s|] eqn:Es; simpl; [|done].
        rewrite (findLeaf_offset _ _ _ _ Es), (proj2 (Z.eqb_neq _ _)) by apply lxor_1_ne. done.
  - done.
  - intros i elems Hi. pose proof (lookup_lt_Some _ _ _ Hi) as Hl. rewrite El in Hl.
    rewrite Extract_level in Hi by done. injection Hi as <-. unfold collected. rewrite length_app. simpl Nat.add.
    assert (∀ e : option PathElement, (length (option_list e) <= 1)%nat) as Ho by (intros []; simpl; lia).
    pose proof (Ho (findLeafByOffset full 0 o)). pose proof (Ho (findLeafByOffset full i (Z.lxor (Z.shiftr o (Z.of_nat i)) 1))).
    destruct (i =? 0)%nat; simpl; lia.
Qed.
