(* ===== verification/BumpBuild.v ===== *)
(** * BumpBuild: assembling block-level merkle paths from subtree paths

    Models the assembly side of [bump/bump.go] and [bump/helpers.go]: the
    single-subtree assembly ([assembleFullPath], [AssembleBUMP]), the compound
    of a whole block ([BuildCompoundBUMP]) with its coinbase substitution,
    variant filter, variant merge and lifted final subtree, and the routines
    that fill in missing nodes.  The BRC-74 codec, the parent hash,
    [ComputeRoot] and the printing of hashes belong to go-sdk and are section
    variables.  The theorems are in [BumpTree] and [BumpBuildProps]. *)
From stdpp Require Import base gmap strings list.
From Stdlib Require Import ZArith Lia.
From Stdlib Require Import Strings.Byte.
From S2P Require Import Prelude Models Bump.

(** [int(math.Ceil(math.Log2(float64(n))))]: exact in doubles for every [n]
    below 2^40. *)
Definition ceilLog2 (n : nat) : nat := Nat.log2_up n.

(** [uint64(i) << k]. *)
Definition shl64 (i : Z) (k : nat) : Z := uint64 (Z.shiftl i (Z.of_nat k)).

(** [p := true; &PathElement{Offset: o, Duplicate: &p}] and
    [&PathElement{Offset: o, Hash: h}]. *)
Definition dupElem (o : Z) : PathElement := mkPathElement o None None (Some true).
Definition hashElem (o : Z) (h : Hash) : PathElement := mkPathElement o (Some h) None None.

Definition setHash (h : Hash) (e : PathElement) : PathElement :=
  mkPathElement (pe_Offset e) (Some h) (pe_Txid e) (pe_Duplicate e).

Definition isTracked (e : PathElement) : bool := match pe_Txid e with Some b => b | None => false end.

(** A range loop that updates the first element satisfying [p] and breaks. *)
Fixpoint updateFirst (p : PathElement -> bool) (f : PathElement -> PathElement) (l : list PathElement)
  : list PathElement :=
  match l with
  | [] => []
  | e :: l => if p e then f e :: l else e :: updateFirst p f l
  end.

Definition validateSubtreeIndex (subtreeIndex : Z) (numSubtrees : nat) : Res unit :=
  if (subtreeIndex <? 0)%Z || (Z.of_nat numSubtrees <=? subtreeIndex)%Z
  then Err (ErrMsg "invalid subtree index") else Ok tt.

Section Build.
Context (NewMerklePathFromBinary : list byte -> Res MerklePath) (Bytes : MerklePath -> list byte).
(** [transaction.MerkleTreeParent], [MerklePath.ComputeRoot] and
    [chainhash.Hash.String]. *)
Context (merkleTreeParent : Hash -> Hash -> Hash).
Context (ComputeRoot : MerklePath -> Hash -> Res Hash).
Context (HashString : Hash -> string).
Context `{SortFunc}.

(** ** helpers.go: filling in missing nodes *)

(** One iteration of [computeMissingHashes]'s inner loop. *)
Definition missingParent (mp : MerklePath) (level : nat) (elem : PathElement) : option PathElement :=
  match pe_Hash elem with
  | None => None
  | Some h =>
      let parentOffset := (pe_Offset elem / 2)%Z in
      match findLeafByOffset mp (S level) parentOffset with
      | Some _ => None
      | None =>
          match findLeafByOffset mp level (Z.lxor (pe_Offset elem) 1) with
          | None => None
          | Some sibling =>
              if isDuplicate (Some sibling) then Some (hashElem parentOffset (merkleTreeParent h h))
              else match pe_Hash sibling with
                   | None => None
                   | Some s =>
                       if (pe_Offset elem mod 2 =? 0)%Z
                       then Some (hashElem parentOffset (merkleTreeParent h s))
                       else Some (hashElem parentOffset (merkleTreeParent s h))
                   end
          end
      end
  end.

Definition missingStep (level : nat) (mp : MerklePath) (elem : PathElement) : MerklePath :=
  match missingParent mp level elem with Some p => addLeaf mp (S level) p | None => mp end.

Definition missingLevel (mp : MerklePath) (level : nat) : MerklePath :=
  foldl (missingStep level) mp (default [] (mp_Path mp !! level)).

Definition computeMissingHashes (mp : MerklePath) : MerklePath :=
  foldl missingLevel mp (seq 0 (length (mp_Path mp) - 1)).

(** One parent of [padAndComputeBlockLevel]. *)
Definition padStep (level : nat) (mp : MerklePath) (i : nat) : MerklePath :=
  let parentOffset := Z.of_nat i in
  match findLeafByOffset mp (S level) parentOffset with
  | Some _ => mp
  | None =>
      match findLeafByOffset mp level (2 * Z.of_nat i)%Z, findLeafByOffset mp level (2 * Z.of_nat i + 1)%Z with
      | Some lft, Some rgt =>
          if isDuplicate (Some rgt) then
            match pe_Hash lft with
            | None => mp
            | Some l => addLeaf mp (S level) (hashElem parentOffset (merkleTreeParent l l))
            end
          else if isDuplicate (Some lft) then
            match pe_Hash rgt with
            | None => mp
            | Some r => addLeaf mp (S level) (hashElem parentOffset (merkleTreeParent r r))
            end
          else match pe_Hash lft, pe_Hash rgt with
               | Some l, Some r => addLeaf mp (S level) (hashElem parentOffset (merkleTreeParent l r))
               | _, _ => mp
               end
      | _, _ => mp
      end
  end.

(** Pad-on-odd: [if realCount%2 == 1 { ... realCount++ }]. *)
Definition padOdd (level realCount : nat) (mp : MerklePath) : MerklePath * nat :=
  if (realCount mod 2 =? 1)%nat then
    (match findLeafByOffset mp level (Z.of_nat realCount) with
     | Some _ => mp
     | None => addLeaf mp level (dupElem (Z.of_nat realCount))
     end, S realCount)
  else (mp, realCount).

Definition padLevel (st : MerklePath * nat) (level : nat) : MerklePath * nat :=
  let '(mp, realCount) := padOdd level st.2 st.1 in
  let parentCount := (realCount / 2)%nat in
  (foldl (padStep level) mp (seq 0 parentCount), parentCount).

Definition padAndComputeBlockLevel (mp : MerklePath) (fromLevel realNodes : nat) : MerklePath :=
  (foldl padLevel (mp, realNodes) (seq fromLevel (length (mp_Path mp) - 1 - fromLevel))).1.

(** ** Coinbase substitution *)

Definition coinbaseLeaf (cbPath : MerklePath) : option Hash :=
  match mp_Path cbPath with
  | [] => None
  | level0 :: _ =>
      match List.find (fun leaf => (pe_Offset leaf =? 0)%Z && bool_decide (is_Some (pe_Hash leaf))) level0 with
      | Some leaf => pe_Hash leaf
      | None => None
      end
  end.

Definition extractCoinbaseTxID (coinbaseBUMP : list byte) : option Hash :=
  match coinbaseBUMP with
  | [] => None
  | _ => match NewMerklePathFromBinary coinbaseBUMP with
         | Err _ => None
         | Ok cbPath => coinbaseLeaf cbPath
         end
  end.

(** The walk of the minimal-STUMP branch: the levels [level .. level + n - 1]. *)
Fixpoint replaceSpine (cbPath : MerklePath) (n level : nat) (currentHash : Hash) (mp : MerklePath) : MerklePath :=
  match n with
  | O => mp
  | S n =>
      let mp := mkMerklePath (mp_BlockHeight mp)
                  (alter (updateFirst (fun e => (pe_Offset e =? 0)%Z && negb (isTracked e)) (setHash currentHash))
                     level (mp_Path mp)) in
      match findLeafByOffset cbPath level 1 with
      | None => mp
      | Some sibling =>
          match pe_Hash sibling with
          | None => mp
          | Some s => replaceSpine cbPath n (S level) (merkleTreeParent currentHash s) mp
          end
      end
  end.

Definition applyCoinbaseToSTUMP (stumpPath : MerklePath) (coinbaseTxID : Hash) (coinbaseBUMP : list byte)
  : MerklePath :=
  match mp_Path stumpPath with
  | [] => stumpPath
  | level0 :: rest =>
      if existsb (fun e => pe_Offset e =? 0)%Z level0 then
        mkMerklePath (mp_BlockHeight stumpPath)
          (updateFirst (fun e => pe_Offset e =? 0)%Z (setHash coinbaseTxID) level0 ::
           List.map (List.filter (fun e => negb (pe_Offset e =? 0)%Z)) rest)
      else
        match NewMerklePathFromBinary coinbaseBUMP with
        | Err _ => stumpPath
        | Ok cbPath =>
            replaceSpine cbPath (Nat.min (length (mp_Path stumpPath)) (length (mp_Path cbPath))) 0
              coinbaseTxID stumpPath
        end
  end.

(** The fold of [subtree0RootFromCoinbaseBUMP]. *)
Fixpoint foldSpine (cbPath : MerklePath) (n level : nat) (working : Hash) : option Hash :=
  match n with
  | O => Some working
  | S n =>
      match findLeafByOffset cbPath level 1 with
      | None => None
      | Some sibling =>
          if isDuplicate (Some sibling)
          then foldSpine cbPath n (S level) (merkleTreeParent working working)
          else match pe_Hash sibling with
               | Some s => foldSpine cbPath n (S level) (merkleTreeParent working s)
               | None => None
               end
      end
  end.

Definition subtree0RootFromCoinbaseBUMP (coinbaseBUMP : list byte) (internalHeight : nat) : option Hash :=
  match coinbaseBUMP with
  | [] => None
  | _ =>
      if (internalHeight =? 0)%nat then None
      else match NewMerklePathFromBinary coinbaseBUMP with
           | Err _ => None
           | Ok cbPath =>
               if (length (mp_Path cbPath) <? internalHeight)%nat then None
               else match coinbaseLeaf cbPath with
                    | None => None
                    | Some coinbase => foldSpine cbPath internalHeight 0 coinbase
                    end
           end
  end.

Definition correctedSubtree0Root (coinbaseBUMP : list byte) (numSubtrees : nat) : option Hash :=
  match NewMerklePathFromBinary coinbaseBUMP with
  | Err _ => None
  | Ok cbPath =>
      if (length (mp_Path cbPath) =? 0)%nat then None
      else
        let internalHeight := (Z.of_nat (length (mp_Path cbPath)) - Z.of_nat (ceilLog2 numSubtrees))%Z in
        if (internalHeight <=? 0)%Z then None
        else subtree0RootFromCoinbaseBUMP coinbaseBUMP (Z.to_nat internalHeight)
  end.

(** The loop of [extendSubtreeToBlockRoot] over [level .. level + n - 1]. *)
Fixpoint extendLoop (cbPath : MerklePath) (n level : nat) (mp : MerklePath) : MerklePath :=
  match n with
  | O => mp
  | S n =>
      match findLeafByOffset cbPath level 1 with
      | None => mp
      | Some sib =>
          match pe_Hash sib with
          | None => mp
          | Some h =>
              match findLeafByOffset mp level 1 with
              | Some _ => extendLoop cbPath n (S level) mp
              | None => extendLoop cbPath n (S level) (addLeaf mp level (hashElem 1 h))
              end
          end
      end
  end.

Definition extendSubtreeToBlockRoot (stumpPath : MerklePath) (coinbaseBUMP : list byte) (internalHeight : nat)
  : MerklePath :=
  match coinbaseBUMP with
  | [] => stumpPath
  | _ =>
      match NewMerklePathFromBinary coinbaseBUMP with
      | Err _ => stumpPath
      | Ok cbPath =>
          if (length (mp_Path cbPath) <=? internalHeight)%nat then stumpPath
          else extendLoop cbPath (length (mp_Path cbPath) - internalHeight) internalHeight stumpPath
      end
  end.

(** ** Assembly for one STUMP *)

(** The offset of the first tracked leaf, zero when there is none. *)
Definition trackedOffset (internalHeight : nat) (mp : MerklePath) : Z :=
  if (0 <? internalHeight)%nat then
    match List.find isTracked (default [] (mp_Path mp !! 0%nat)) with
    | Some leaf => pe_Offset leaf
    | None => 0%Z
    end
  else 0%Z.

Definition shiftElem (shift : Z) (e : PathElement) : PathElement :=
  mkPathElement (uint64 (pe_Offset e + shift)) (pe_Hash e) (pe_Txid e) (pe_Duplicate e).

(** Local to global offsets, level by level. *)
Definition shiftLevels (index : Z) (internalHeight : nat) (levels : list (list PathElement))
  : list (list PathElement) :=
  imap (fun level => List.map (shiftElem (shl64 index (internalHeight - level)))) levels.

(** [for _, elem := range elems { addLeaf(mp, level, elem) }], for each level. *)
Definition placeLevels (levels : list (list PathElement)) (mp : MerklePath) : MerklePath :=
  foldl (fun mp '(level, elems) => foldl (fun mp e => addLeaf mp level e) mp elems) mp
    (imap (fun level elems => (level, elems)) levels).

Definition assembleFullPath (stumpData : list byte) (subtreeIndex : Z) (subtreeHashes : list Hash)
    (coinbaseBUMP : list byte) : Res (MerklePath * Z) :=
  match validateSubtreeIndex subtreeIndex (length subtreeHashes) with
  | Err e => Err e
  | Ok _ =>
      match NewMerklePathFromBinary stumpData with
      | Err e => Err e
      | Ok stumpPath =>
          let internalHeight := length (mp_Path stumpPath) in
          let stumpPath :=
            if (subtreeIndex =? 0)%Z && (0 <? length coinbaseBUMP)%nat then
              match extractCoinbaseTxID coinbaseBUMP with
              | Some coinbaseTxID => applyCoinbaseToSTUMP stumpPath coinbaseTxID coinbaseBUMP
              | None => stumpPath
              end
            else stumpPath in
          let numSubtrees := length subtreeHashes in
          if (numSubtrees <=? 1)%nat then
            let stumpPath := computeMissingHashes stumpPath in
            let stumpPath := extendSubtreeToBlockRoot stumpPath coinbaseBUMP internalHeight in
            Ok (stumpPath, trackedOffset internalHeight stumpPath)
          else
            let shifted := mkMerklePath (mp_BlockHeight stumpPath)
                             (shiftLevels subtreeIndex internalHeight (mp_Path stumpPath)) in
            let txOffset := trackedOffset internalHeight shifted in
            let totalHeight := (internalHeight + ceilLog2 numSubtrees)%nat in
            let fullPath := placeLevels (mp_Path shifted)
                              (mkMerklePath (mp_BlockHeight stumpPath) (replicate totalHeight [])) in
            let fullPath :=
              foldl (fun mp '(i, subHash) =>
                       if (Z.of_nat i =? subtreeIndex)%Z then mp
                       else addLeaf mp internalHeight (hashElem (Z.of_nat i) subHash))
                fullPath (imap (fun i h => (i, h)) subtreeHashes) in
            let fullPath := computeMissingHashes fullPath in
            Ok (padAndComputeBlockLevel fullPath internalHeight numSubtrees, txOffset)
      end
  end.

Definition AssembleBUMP (stumpData : list byte) (subtreeIndex : Z) (subtreeHashes : list Hash)
    (coinbaseBUMP : list byte) : Res (MerklePath * Z) :=
  match validateSubtreeIndex subtreeIndex (length subtreeHashes) with
  | Err e => Err e
  | Ok _ =>
      match assembleFullPath stumpData subtreeIndex subtreeHashes coinbaseBUMP with
      | Err e => Err e
      | Ok (fullPath, txOffset) => Ok (ExtractMinimalPath fullPath txOffset, txOffset)
      end
  end.

Definition ExtractLevel0Hashes (stumpData : list byte) : list Hash :=
  match NewMerklePathFromBinary stumpData with
  | Err _ => []
  | Ok mp => match mp_Path mp with [] => [] | level0 :: _ => omap pe_Hash level0 end
  end.

Definition ValidateCompoundRoot (compound : option MerklePath) (expected : option Hash) : Res unit :=
  match expected with
  | None => Err (ErrMsg "no block-header merkle root to validate against")
  | Some expected =>
      match compound with
      | None => Err (ErrMsg "empty compound path")
      | Some compound =>
          match mp_Path compound with
          | [] | [] :: _ => Err (ErrMsg "empty compound path")
          | level0 :: _ =>
              match head (omap pe_Hash level0) with
              | None => Err (ErrMsg "no level-0 hash to compute root from")
              | Some leaf =>
                  match ComputeRoot compound leaf with
                  | Err e => Err e
                  | Ok got =>
                      if String.eqb got expected then Ok tt
                      else Err (ErrMsg "computed root != block header merkle root")
                  end
              end
          end
      end
  end.

(** ** Variants of one subtree *)

(** [variantFoldsToRoot]; [root] is the block's hash of the subtree. *)
Definition variantFoldsToRoot (st : Stump) (root : Hash) (height : nat) (coinbaseTxID : option Hash)
    (coinbaseBUMP : list byte) : bool :=
  match NewMerklePathFromBinary (stump_StumpData st) with
  | Err _ => false
  | Ok path =>
      if (height =? 0)%nat || (length (mp_Path path) <? height)%nat then false
      else
        let path := match coinbaseTxID with
                    | Some cb => if (stump_SubtreeIndex st =? 0)%Z
                                 then applyCoinbaseToSTUMP path cb coinbaseBUMP else path
                    | None => path
                    end in
        let subtree := mkMerklePath (mp_BlockHeight path) (take height (mp_Path path)) in
        let level0 := default [] (mp_Path subtree !! 0%nat) in
        let leaves := match omap pe_Hash (List.filter isTracked level0) with
                      | [] => omap pe_Hash level0
                      | ls => ls
                      end in
        negb (length leaves =? 0)%nat &&
        forallb (fun leaf => match ComputeRoot subtree leaf with
                             | Ok got => String.eqb got root
                             | Err _ => false
                             end) leaves
  end.

Definition sameIndex (st : Stump) (s : Stump) : bool := (stump_SubtreeIndex s =? stump_SubtreeIndex st)%Z.

(** The variants that were checked and matched their subtree's root. *)
Definition variantMatches (stumps : list Stump) (subtreeHashes : list Hash) (requiredHeight : Z -> nat)
    (coinbaseTxID : option Hash) (coinbaseBUMP : list byte) (st : Stump) : bool :=
  let idx := stump_SubtreeIndex st in
  if (length (List.filter (sameIndex st) stumps) <? 2)%nat || (idx <? 0)%Z || (Z.of_nat (length subtreeHashes) <=? idx)%Z
  then false
  else match subtreeHashes !! Z.to_nat idx with
       | Some root => variantFoldsToRoot st root (requiredHeight idx) coinbaseTxID coinbaseBUMP
       | None => false
       end.

Definition dropVariantsOffSubtreeRoot (stumps : list Stump) (subtreeHashes : list Hash)
    (requiredHeight : Z -> nat) (coinbaseTxID : option Hash) (coinbaseBUMP : list byte) : list Stump :=
  let matches := variantMatches stumps subtreeHashes requiredHeight coinbaseTxID coinbaseBUMP in
  List.filter (fun st =>
    negb ((2 <=? length (List.filter (sameIndex st) stumps))%nat
          && existsb (fun s => sameIndex st s && matches s) stumps
          && negb (matches st))) stumps.

(** One element of [unionMerklePath]'s inner loop; [existing] maps an offset
    to the position of its element in the level being built. *)
Definition unionElem (st : Res (list PathElement * gmap Z nat)) (e : PathElement)
  : Res (list PathElement * gmap Z nat) :=
  match st with
  | Err x => Err x
  | Ok (level, existing) =>
      match existing !! pe_Offset e with
      | None => Ok (level ++ [e], <[pe_Offset e := length level]> existing)
      | Some pos =>
          let have := level !!! pos in
          let track (h : PathElement) :=
            if isTracked e && negb (isTracked h)
            then mkPathElement (pe_Offset h) (pe_Hash h) (Some true) (pe_Duplicate h) else h in
          match pe_Hash have, pe_Hash e with
          | Some a, Some b =>
              if String.eqb a b then Ok (<[pos := track have]> level, existing)
              else Err (ErrMsg "STUMP variants disagree")
          | None, Some b =>
              Ok (<[pos := track (mkPathElement (pe_Offset have) (Some b) (pe_Txid have) None)]> level, existing)
          | _, None => Ok (<[pos := track have]> level, existing)
          end
      end
  end.

Definition offsetIndex (level : list PathElement) : gmap Z nat :=
  foldl (fun m '(i, e) => <[pe_Offset e := i]> m) ∅ (imap (fun i e => (i, e)) level).

Definition unionLevel (dst src : list PathElement) : Res (list PathElement) :=
  match foldl unionElem (Ok (dst, offsetIndex dst)) src with
  | Err x => Err x
  | Ok (level, _) => Ok (sortByOffset level)
  end.

Fixpoint unionLevels (dst src : list (list PathElement)) : Res (list (list PathElement)) :=
  match src with
  | [] => Ok dst
  | s :: src =>
      match unionLevel (default [] (head dst)) s with
      | Err x => Err x
      | Ok level =>
          match unionLevels (tail dst) src with
          | Err x => Err x
          | Ok rest => Ok (level :: rest)
          end
      end
  end.

Definition unionMerklePath (dst src : MerklePath) : Res MerklePath :=
  match unionLevels (mp_Path dst) (mp_Path src) with
  | Err x => Err x
  | Ok levels => Ok (mkMerklePath (mp_BlockHeight dst) levels)
  end.

Definition level0TxIDs (path : MerklePath) : list string :=
  match mp_Path path with
  | [] => []
  | level0 :: _ =>
      (foldl (fun '(seen, out) h =>
                let id := HashString h in
                if bool_decide (id ∈ (seen : gset string)) then (seen, out) else ({[id]} ∪ seen, out ++ [id]))
         (∅, []) (omap pe_Hash level0)).2
  end.

Record mergedStump : Type := mkMergedStump {
  ms_index : Z;
  ms_path : MerklePath;
  ms_data : list byte;
  ms_txids : list string
}.

(** The maps [byIndex] and [variants] and the slice [order]. *)
Record mergeState : Type := mkMergeState {
  g_byIndex : gmap Z (MerklePath * list byte);
  g_variants : gmap Z nat;
  g_order : list Z
}.

Definition mergeStep (g : mergeState) (st : Stump) : Res mergeState :=
  let idx := stump_SubtreeIndex st in
  match NewMerklePathFromBinary (stump_StumpData st) with
  | Err e => Err e
  | Ok path =>
      let variants := <[idx := S (default 0%nat (g_variants g !! idx))]> (g_variants g) in
      match g_byIndex g !! idx with
      | None => Ok (mkMergeState (<[idx := (path, stump_StumpData st)]> (g_byIndex g)) variants (g_order g ++ [idx]))
      | Some (have, data) =>
          match unionMerklePath have path with
          | Err e => Err e
          | Ok u => Ok (mkMergeState (<[idx := (u, data)]> (g_byIndex g)) variants (g_order g))
          end
      end
  end.

Fixpoint mergeLoop (g : mergeState) (stumps : list Stump) : Res mergeState :=
  match stumps with
  | [] => Ok g
  | st :: stumps => match mergeStep g st with Err e => Err e | Ok g => mergeLoop g stumps end
  end.

Definition mergedOut (g : mergeState) (idx : Z) : option mergedStump :=
  match g_byIndex g !! idx with
  | None => None
  | Some (path, data) =>
      Some (mkMergedStump idx path
              (if (1 <? default 0%nat (g_variants g !! idx))%nat then Bytes path else data)
              (level0TxIDs path))
  end.

Definition mergeStumpVariants (stumps : list Stump) : Res (list mergedStump) :=
  match mergeLoop (mkMergeState ∅ ∅ []) stumps with
  | Err e => Err e
  | Ok g => Ok (omap (mergedOut g) (g_order g))
  end.

(** ** The top tree *)

Fixpoint pairUp (level : list Hash) : list Hash :=
  match level with
  | a :: b :: rest => merkleTreeParent a b :: pairUp rest
  | _ => []
  end.

Fixpoint topTreeLoop (fuel : nat) (level : list Hash) : list Hash :=
  match fuel with
  | O => level
  | S fuel =>
      if (length level <=? 1)%nat then level
      else
        let level := if (length level mod 2 =? 1)%nat then level ++ option_list (last level) else level in
        topTreeLoop fuel (pairUp level)
  end.

(** [None] is the index panic on an empty slice. *)
Definition topTreeRoot (hs : list Hash) : option Hash := head (topTreeLoop (length hs) hs).

(** The loop of [deriveFinalSubtreeLift] for [k .. k + n - 1]. *)
Fixpoint liftLoop (prefix : list Hash) (lifted root : Hash) (n k : nat) : nat :=
  match n with
  | O => 0
  | S n =>
      if bool_decide (topTreeRoot (prefix ++ [lifted]) = Some root) then k
      else liftLoop prefix (merkleTreeParent lifted lifted) root n (S k)
  end.

Definition deriveFinalSubtreeLift (subtreeHashes : list Hash) (internalHeight : nat) (headerMerkleRoot : option Hash)
  : nat :=
  match headerMerkleRoot, last subtreeHashes with
  | Some root, Some final =>
      if (length subtreeHashes <? 2)%nat then 0
      else liftLoop (removelast subtreeHashes) final root (S internalHeight) 0
  | _, _ => 0
  end.

(** ** The compound *)

(** One element of [computeAndPadCompound]'s inner loop: [idx] and [present]
    are its two maps. *)
Definition compoundParent (idx : gmap Z PathElement) (present : gset Z) (elem : PathElement)
  : option PathElement :=
  let parentOffset := (pe_Offset elem / 2)%Z in
  if bool_decide (parentOffset ∈ present) then None
  else match idx !! Z.lxor (pe_Offset elem) 1 with
       | None => None
       | Some sibling =>
           if isDuplicate (Some sibling) then
             (fun h => hashElem parentOffset (merkleTreeParent h h)) <$> pe_Hash elem
           else if isDuplicate (Some elem) then
             (fun h => hashElem parentOffset (merkleTreeParent h h)) <$> pe_Hash sibling
           else match pe_Hash elem, pe_Hash sibling with
                | Some h, Some s =>
                    Some (hashElem parentOffset
                            (if (pe_Offset elem mod 2 =? 0)%Z then merkleTreeParent h s else merkleTreeParent s h))
                | _, _ => None
                end
       end.

Definition compoundStep (level : nat) (idx : gmap Z PathElement) (st : MerklePath * gset Z) (elem : PathElement)
  : MerklePath * gset Z :=
  match compoundParent idx st.2 elem with
  | None => st
  | Some p => (addLeaf st.1 (S level) p, {[pe_Offset p]} ∪ st.2)
  end.

Definition compoundLevel (subtreeRootLayer : nat) (st : MerklePath * nat) (level : nat) : MerklePath * nat :=
  let '(mp, realCount) := if (subtreeRootLayer <=? level)%nat then padOdd level st.2 st.1 else st in
  let elems := default [] (mp_Path mp !! level) in
  let idx := foldl (fun m e => <[pe_Offset e := e]> m) ∅ elems in
  let present := list_to_set (List.map pe_Offset (default [] (mp_Path mp !! S level))) in
  let mp := (foldl (compoundStep level idx) (mp, present) elems).1 in
  (mp, if (subtreeRootLayer <=? level)%nat then (realCount / 2)%nat else realCount).

Definition computeAndPadCompound (mp : MerklePath) (subtreeRootLayer numSubtrees : nat) : MerklePath :=
  (foldl (compoundLevel subtreeRootLayer) (mp, numSubtrees) (seq 0 (length (mp_Path mp) - 1))).1.

(** The placement loop of [BuildCompoundBUMP]: the compound, [haveSTUMP] and
    [txids]. *)
Definition placeStump (internalHeight : nat) (requiredHeightFor : Z -> nat) (coinbaseTxID : option Hash)
    (coinbaseBUMP : list byte) (st : Res (MerklePath * gset Z * list string)) (stump : mergedStump)
  : Res (MerklePath * gset Z * list string) :=
  match st with
  | Err e => Err e
  | Ok (compound, have, txids) =>
      let requiredHeight := requiredHeightFor (ms_index stump) in
      if (length (mp_Path (ms_path stump)) <? requiredHeight)%nat
      then Err (ErrMsg "subtree STUMP has internal height, expected at least")
      else
        let path := match coinbaseTxID with
                    | Some cb => if (ms_index stump =? 0)%Z
                                 then applyCoinbaseToSTUMP (ms_path stump) cb coinbaseBUMP else ms_path stump
                    | None => ms_path stump
                    end in
        Ok (placeLevels (shiftLevels (ms_index stump) internalHeight (take requiredHeight (mp_Path path))) compound,
            {[ms_index stump]} ∪ have, txids ++ ms_txids stump)
  end.

(** The duplicate markers of the lifted final subtree. *)
Definition placeLift (internalHeight finalNaturalHeight : nat) (finalIdx : Z) (compound : MerklePath) : MerklePath :=
  foldl (fun mp level => addLeaf mp level (dupElem (uint64 (shl64 finalIdx (internalHeight - level) + 1))))
    compound (seq finalNaturalHeight (internalHeight - finalNaturalHeight)).

(** The subtree-root layer of the slots without a STUMP. *)
Definition seedRoots (internalHeight liftLevels : nat) (finalIdx : Z) (have : gset Z) (subtreeHashes : list Hash)
    (compound : MerklePath) : MerklePath :=
  foldl (fun mp '(i, subHash) =>
           if bool_decide (Z.of_nat i ∈ have) then mp
           else
             let h := if (Z.of_nat i =? finalIdx)%Z
                      then Nat.iter liftLevels (fun h => merkleTreeParent h h) subHash else subHash in
             addLeaf mp internalHeight (hashElem (Z.of_nat i) h))
    compound (imap (fun i h => (i, h)) subtreeHashes).

(** [BuildCompoundBUMP]; the second component is the caller's
    [subtreeHashes] after the call, whose first entry, if there is one, it
    corrects in place. *)
Definition BuildCompoundBUMP (stumps : list Stump) (subtreeHashes : list Hash) (coinbaseBUMP : list byte)
    (headerMerkleRoot : option Hash) : Res (MerklePath * list string) * list Hash :=
  match stumps with
  | [] => (Err (ErrMsg "no stumps to build compound BUMP"), subtreeHashes)
  | stump0 :: _ =>
      let coinbaseTxID := extractCoinbaseTxID coinbaseBUMP in
      let subtreeHashes :=
        match coinbaseTxID with
        | Some _ => match correctedSubtree0Root coinbaseBUMP (length subtreeHashes) with
                    | Some root => <[0%nat := root]> subtreeHashes
                    | None => subtreeHashes
                    end
        | None => subtreeHashes
        end in
      let numSubtrees := length subtreeHashes in
      (if (numSubtrees <=? 1)%nat then
         match mergeStumpVariants stumps with
         | Err e => Err e
         | Ok [] => Err (ErrMsg "index out of range")
         | Ok (m :: _) =>
             match assembleFullPath (ms_data m) (ms_index m) subtreeHashes coinbaseBUMP with
             | Err e => Err e
             | Ok (full, _) => Ok (full, ms_txids m)
             end
         end
       else
         match NewMerklePathFromBinary (stump_StumpData stump0) with
         | Err e => Err e
         | Ok firstPath =>
             let subtreeRootLayer := ceilLog2 numSubtrees in
             let internalHeight :=
               match NewMerklePathFromBinary coinbaseBUMP with
               | Ok cbPath => if (subtreeRootLayer <? length (mp_Path cbPath))%nat
                              then (length (mp_Path cbPath) - subtreeRootLayer)%nat
                              else length (mp_Path firstPath)
               | Err _ => length (mp_Path firstPath)
               end in
             let totalHeight := (internalHeight + subtreeRootLayer)%nat in
             let liftLevels := deriveFinalSubtreeLift subtreeHashes internalHeight headerMerkleRoot in
             let finalIdx := Z.of_nat (numSubtrees - 1) in
             let finalNaturalHeight := (internalHeight - liftLevels)%nat in
             let requiredHeightFor index :=
               if (index =? finalIdx)%Z then finalNaturalHeight else internalHeight in
             let stumps := dropVariantsOffSubtreeRoot stumps subtreeHashes requiredHeightFor
                             coinbaseTxID coinbaseBUMP in
             match mergeStumpVariants stumps with
             | Err e => Err e
             | Ok merged =>
                 let compound := mkMerklePath (mp_BlockHeight firstPath) (replicate totalHeight []) in
                 match foldl (placeStump internalHeight requiredHeightFor coinbaseTxID coinbaseBUMP)
                         (Ok (compound, ∅, [])) merged with
                 | Err e => Err e
                 | Ok (compound, have, txids) =>
                     let compound :=
                       if (0 <? liftLevels)%nat && bool_decide (finalIdx ∈ have)
                       then placeLift internalHeight finalNaturalHeight finalIdx compound else compound in
                     let compound := seedRoots internalHeight liftLevels finalIdx have subtreeHashes compound in
                     Ok (computeAndPadCompound compound internalHeight numSubtrees, txids)
                 end
             end
         end, subtreeHashes)
  end.
End Build.
