(* ===== verification/BumpTree.v ===== *)
(** * BumpTree: the canonical merkle tree and the node-filling passes

    The reference definition is Bitcoin's merkle tree of a list of leaves:
    each level pairs the hashes below and folds an odd last one with itself.
    Against it, the passes of [BumpBuild] that fill in missing nodes
    ([computeAndPadCompound], [computeMissingHashes],
    [padAndComputeBlockLevel]) are sound (a path of correct nodes stays a path
    of correct nodes) and complete (two present siblings give a present
    parent), and [topTreeRoot] is the root of the list it is given. *)
From stdpp Require Import base gmap strings list.
From Stdlib Require Import ZArith Lia.
From Stdlib Require Import Strings.Byte.
From S2P Require Import Prelude Bump BumpBuild.

(** ** Siblings *)

Lemma lxor_even i : (0 <= i)%Z -> Z.lxor (2 * i) 1 = (2 * i + 1)%Z.
Proof. intros Hi. destruct i as [|p|p]; [done|done|lia]. Qed.

Lemma lxor_odd i : (0 <= i)%Z -> Z.lxor (2 * i + 1) 1 = (2 * i)%Z.
Proof. intros Hi. rewrite <-lxor_even by done. by rewrite Z.lxor_assoc, Z.lxor_nilpotent, Z.lxor_0_r. Qed.

(** The two halves of a sibling pair. *)
Lemma halves o : (0 <= o)%Z -> ∃ i, (0 <= i)%Z ∧ (o / 2 = i)%Z ∧
  ((o = 2 * i ∧ Z.lxor o 1 = 2 * i + 1 ∧ Z.even o = true ∧ o mod 2 = 0) ∨
   (o = 2 * i + 1 ∧ Z.lxor o 1 = 2 * i ∧ Z.even o = false ∧ o mod 2 = 1))%Z.
Proof.
  intros Ho. exists (o / 2)%Z. assert (0 <= o / 2)%Z as Hd by (apply Z.div_pos; lia).
  split; [done|]. split; [done|]. pose proof (Z.div_mod o 2 ltac:(lia)) as E.
  pose proof (Z.mod_pos_bound o 2 ltac:(lia)) as Hm. assert (o mod 2 = 0 ∨ o mod 2 = 1)%Z as [M|M] by lia.
  - left. assert (o = 2 * (o / 2))%Z as Eo by lia. split_and!; [done| | |done].
    + rewrite Eo at 1. by apply lxor_even.
    + rewrite Eo. by rewrite Z.even_mul.
  - right. assert (o = 2 * (o / 2) + 1)%Z as Eo by lia. split_and!; [done| | |done].
    + rewrite Eo at 1. by apply lxor_odd.
    + rewrite Eo. by rewrite Z.even_add, Z.even_mul.
Qed.

Section Tree.
Context (parent : Hash -> Hash -> Hash).

(** ** The reference tree *)

Fixpoint merkleNext (l : list Hash) : list Hash :=
  match l with
  | [] => []
  | [a] => [parent a a]
  | a :: b :: rest => parent a b :: merkleNext rest
  end.

Definition merkleLevel (leaves : list Hash) (level : nat) : list Hash := Nat.iter level merkleNext leaves.

Definition merkleRoot (leaves : list Hash) : option Hash :=
  head (merkleLevel leaves (Nat.log2_up (length leaves))).

Definition nodeAt (leaves : list Hash) (level : nat) (o : Z) : option Hash :=
  if (o <? 0)%Z then None else merkleLevel leaves level !! Z.to_nat o.

Lemma merkleNext_lookup l i :
  merkleNext l !! i = (fun a => parent a (default a (l !! (2 * i + 1)%nat))) <$> l !! (2 * i)%nat.
Proof.
  revert l i. fix IH 1. intros [|a [|b l]] i; simpl.
  - done.
  - destruct i as [|i]; [done|]. simpl. replace (i + S (i + 0))%nat with (S (2 * i)) by lia. done.
  - destruct i as [|i]; [done|]. simpl. rewrite IH. replace (i + S (i + 0))%nat with (S (2 * i)) by lia.
    replace (S (2 * i) + 1)%nat with (S (2 * i + 1)) by lia. done.
Qed.

(** What the passes need of a tree. *)
Record is_tree (T : nat -> Z -> option Hash) : Prop := {
  tree_S : ∀ l o, T (S l) o = (fun a => parent a (default a (T l (2 * o + 1)%Z))) <$> T l (2 * o)%Z;
  tree_pair : ∀ l o, is_Some (T l (2 * o + 1)%Z) -> is_Some (T l (2 * o)%Z);
  tree_neg : ∀ l o, (o < 0)%Z -> T l o = None
}.

Lemma nodeAt_S leaves l o :
  nodeAt leaves (S l) o = (fun a => parent a (default a (nodeAt leaves l (2 * o + 1)))) <$> nodeAt leaves l (2 * o).
Proof.
  unfold nodeAt.
  destruct (Z.ltb_spec o 0) as [Ho|Ho], (Z.ltb_spec (2 * o) 0), (Z.ltb_spec (2 * o + 1) 0); try lia; [done|].
  unfold merkleLevel. rewrite Nat.iter_succ, merkleNext_lookup.
  by replace (Z.to_nat (2 * o + 1)) with (2 * Z.to_nat o + 1)%nat by lia;
     replace (Z.to_nat (2 * o)) with (2 * Z.to_nat o)%nat by lia.
Qed.

Lemma nodeAt_some leaves l o :
  is_Some (nodeAt leaves l o) ↔ (0 <= o)%Z ∧ (o * 2 ^ Z.of_nat l < Z.of_nat (length leaves))%Z.
Proof.
  revert o. induction l as [|l IH]; intros o.
  - unfold nodeAt, merkleLevel. simpl. destruct (Z.ltb_spec o 0) as [Ho|Ho].
    + split; [by intros [? ?]|lia].
    + rewrite lookup_lt_is_Some. lia.
  - rewrite nodeAt_S, fmap_is_Some, IH.
    replace (Z.of_nat (S l)) with (Z.of_nat l + 1)%Z by lia. rewrite Z.pow_add_r by lia. lia.
Qed.

Lemma nodeAt_tree leaves : is_tree (nodeAt leaves).
Proof.
  split; [apply nodeAt_S| |].
  - intros l o. rewrite !nodeAt_some. intros [H1 H2]. split; [lia|]. nia.
  - intros l o Ho. unfold nodeAt. by rewrite (proj2 (Z.ltb_lt o 0)).
Qed.

Lemma nodeAt_shift leaves h l o : nodeAt (merkleLevel leaves h) l o = nodeAt leaves (h + l) o.
Proof.
  unfold nodeAt, merkleLevel. destruct (o <? 0)%Z; [done|]. rewrite Nat.add_comm. by rewrite Nat.iter_add.
Qed.

(** Nodes off the left spine do not depend on the first leaf. *)
Lemma nodeAt_off_spine leaves h l o : o ≠ 0%Z -> nodeAt (<[0%nat := h]> leaves) l o = nodeAt leaves l o.
Proof.
  revert o. induction l as [|l IH]; intros o Ho.
  - unfold nodeAt, merkleLevel. simpl. destruct (Z.ltb_spec o 0); [done|].
    rewrite list_lookup_insert_ne; [done|lia].
  - rewrite !nodeAt_S, !IH by lia. done.
Qed.

Lemma merkleRoot_node leaves : merkleRoot leaves = nodeAt leaves (Nat.log2_up (length leaves)) 0.
Proof. unfold merkleRoot, nodeAt. simpl. by destruct (merkleLevel _ _). Qed.

(** ** [topTreeRoot] *)

Lemma merkleNext_length l : length (merkleNext l) = ((length l + 1) / 2)%nat.
Proof.
  revert l. fix IH 1. intros [|a [|b l]]; [done|done|]. cbn [merkleNext length]. rewrite IH.
  replace (S (S (length l)) + 1)%nat with (1 * 2 + (length l + 1))%nat by lia. by rewrite Nat.div_add_l.
Qed.

Lemma pairUp_app_last l a :
  pairUp parent (if (length (l ++ [a]) mod 2 =? 1)%nat then (l ++ [a]) ++ option_list (last (l ++ [a])) else l ++ [a])
  = merkleNext (l ++ [a]).
Proof.
  rewrite last_snoc. simpl option_list. revert l. fix IH 1. intros [|b [|c l]]; [done|done|].
  specialize (IH l). replace (length ((b :: c :: l) ++ [a])) with (length (l ++ [a]) + 1 * 2)%nat by (simpl; lia).
  rewrite Nat.Div0.mod_add. cbn [app merkleNext]. rewrite <-IH. by destruct (_ =? 1)%nat.
Qed.

Lemma log2_up_half n : (2 <= n)%nat -> Nat.log2_up n = S (Nat.log2_up ((n + 1) / 2)).
Proof.
  intros Hn. pose proof (Nat.div_mod_eq (n + 1) 2) as E. pose proof (Nat.mod_upper_bound (n + 1) 2 ltac:(lia)).
  set (m := ((n + 1) / 2)%nat) in *. clearbody m. destruct (decide (m = 1%nat)) as [->|Hm].
  { assert (n = 2%nat) as -> by lia. done. }
  destruct (Nat.log2_up_spec m ltac:(lia)) as [H1 H2].
  apply Nat.log2_up_unique; [lia|]. cbn [Nat.pred]. rewrite Nat.pow_succ_r'.
  destruct (Nat.log2_up m) as [|k] eqn:Ek; [simpl in *; lia|]. cbn [Nat.pred] in H1. rewrite Nat.pow_succ_r' in *. lia.
Qed.

Lemma topTreeLoop_spec fuel l :
  l ≠ [] -> (length l <= fuel)%nat -> topTreeLoop parent fuel l = merkleLevel l (Nat.log2_up (length l)).
Proof.
  revert l. induction fuel as [|fuel IH]; intros l Hl Hf; [destruct l; simpl in Hf; [done|lia]|]. cbn [topTreeLoop].
  destruct (Nat.leb_spec (length l) 1) as [H1|H1].
  { destruct l as [|a [|b l]]; [done|reflexivity|simpl in H1; lia]. }
  destruct (exists_last Hl) as (l' & a & ->).
  rewrite pairUp_app_last, IH.
  - rewrite merkleNext_length. rewrite (log2_up_half (length (l' ++ [a]))) by lia.
    unfold merkleLevel. by rewrite Nat.iter_succ_r.
  - intros E%(f_equal length). rewrite merkleNext_length in E. change (length []) with 0%nat in E.
    pose proof (Nat.div_mod_eq (length (l' ++ [a]) + 1) 2).
    pose proof (Nat.mod_upper_bound (length (l' ++ [a]) + 1) 2 ltac:(lia)). lia.
  - rewrite merkleNext_length. pose proof (Nat.div_mod_eq (length (l' ++ [a]) + 1) 2). lia.
Qed.

Lemma topTreeRoot_merkle hs : hs ≠ [] -> topTreeRoot parent hs = merkleRoot hs.
Proof. intros Hh. unfold topTreeRoot, merkleRoot. by rewrite topTreeLoop_spec. Qed.
End Tree.

(** ** Levels of a path *)

Definition lev (mp : MerklePath) (l : nat) : list PathElement := default [] (mp_Path mp !! l).
Definition height (mp : MerklePath) : nat := length (mp_Path mp).

(** The slot [(l, o)] holds an element. *)
Definition has (mp : MerklePath) (l : nat) (o : Z) : Prop := o ∈ pe_Offset <$> lev mp l.

#[export] Instance has_dec mp l o : Decision (has mp l o).
Proof. unfold has. apply _. Defined.

Lemma has_elem mp l e : e ∈ lev mp l -> has mp l (pe_Offset e).
Proof. apply list_elem_of_fmap_2. Qed.

Lemma find_lev mp l o : findLeafByOffset mp l o = List.find (fun e => pe_Offset e =? o)%Z (lev mp l).
Proof. unfold findLeafByOffset, lev. by destruct (mp_Path mp !! l). Qed.

Lemma find_elem mp l o e : findLeafByOffset mp l o = Some e -> e ∈ lev mp l ∧ pe_Offset e = o.
Proof. rewrite find_lev. intros [Hin E]%List.find_some. apply Z.eqb_eq in E. by apply list_elem_of_In in Hin. Qed.

Lemma has_find mp l o : has mp l o -> ∃ e, findLeafByOffset mp l o = Some e ∧ e ∈ lev mp l ∧ pe_Offset e = o.
Proof.
  intros (e & Eo & Hin)%list_elem_of_fmap. destruct (findLeafByOffset mp l o) as [s|] eqn:Ef.
  - exists s. split; [done|]. by apply find_elem.
  - rewrite find_lev in Ef. apply list_elem_of_In in Hin. pose proof (List.find_none _ _ Ef e Hin) as En.
    simpl in En. apply Z.eqb_neq in En. congruence.
Qed.

Lemma find_not_has mp l o : findLeafByOffset mp l o = None ↔ ¬ has mp l o.
Proof.
  split; [intros Ef Hh; destruct (has_find _ _ _ Hh) as (e & ? & _); congruence|].
  intros Hn. destruct (findLeafByOffset mp l o) as [e|] eqn:Ef; [|done].
  destruct Hn. apply find_elem in Ef as [Hin <-]. by apply has_elem.
Qed.

Lemma addLeaf_lev mp l e j : lev (addLeaf mp l e) j = if decide (j = l) then lev mp l ++ [e] else lev mp j.
Proof.
  unfold lev, addLeaf. cbn [mp_Path]. set (P := mp_Path mp). set (k := (S l - length P)%nat).
  assert (∀ i, default [] ((P ++ replicate k []) !! i) = default [] (P !! i)) as Hg.
  { intros i. destruct (decide (i < length P)%nat) as [|Hge]; [by rewrite lookup_app_l|].
    rewrite lookup_app_r, (lookup_ge_None_2 P i) by lia. simpl.
    destruct (replicate k [] !! (i - length P)%nat) as [x|] eqn:E; [|done]. apply lookup_replicate in E as [-> _]. done. }
  case_decide as Hd; [subst j|by rewrite list_lookup_alter_ne, Hg].
  rewrite list_lookup_alter_eq, <-Hg. destruct ((P ++ replicate k []) !! l) as [x|] eqn:E; [done|].
  apply lookup_ge_None in E. rewrite length_app, length_replicate in E. lia.
Qed.

Lemma addLeaf_height mp l e : (l < height mp)%nat -> height (addLeaf mp l e) = height mp.
Proof.
  intros Hl. unfold height, addLeaf in *. cbn [mp_Path]. rewrite length_alter, length_app, length_replicate. lia.
Qed.

Lemma addLeaf_has mp l e j o : has (addLeaf mp l e) j o ↔ has mp j o ∨ (j = l ∧ o = pe_Offset e).
Proof.
  unfold has. rewrite addLeaf_lev. case_decide as Hd; [subst j|naive_solver].
  rewrite fmap_app, elem_of_app. simpl. rewrite list_elem_of_singleton. naive_solver.
Qed.

(** ** Correct nodes *)
Section Passes.
Context (parent : Hash -> Hash -> Hash) (T : nat -> Z -> option Hash) (HT : is_tree parent T).

(** A correct element carries the node of its slot, or marks the missing
    right half of a pair. *)
Definition elem_ok (l : nat) (e : PathElement) : Prop :=
  if isDuplicate (Some e)
  then pe_Hash e = None ∧ (0 <= pe_Offset e)%Z ∧ Z.even (pe_Offset e) = false ∧ T l (pe_Offset e) = None
  else ∃ h, pe_Hash e = Some h ∧ T l (pe_Offset e) = Some h.

Definition sound (mp : MerklePath) : Prop := ∀ l e, e ∈ lev mp l -> elem_ok l e.

Lemma elem_ok_nonneg l e : elem_ok l e -> (0 <= pe_Offset e)%Z.
Proof.
  unfold elem_ok. destruct (isDuplicate _); [tauto|]. intros (h & _ & Eh).
  destruct (Z.lt_ge_cases (pe_Offset e) 0) as [Hn|]; [|done]. by rewrite (tree_neg _ _ HT) in Eh.
Qed.

Lemma elem_ok_hash l o h : T l o = Some h -> elem_ok l (hashElem o h).
Proof. intros E. exists h. done. Qed.

Lemma elem_ok_dup l o : (0 <= o)%Z -> Z.even o = false -> T l o = None -> elem_ok l (dupElem o).
Proof. done. Qed.

Lemma addLeaf_sound mp l e : sound mp -> elem_ok l e -> sound (addLeaf mp l e).
Proof.
  intros Hs He j x. rewrite addLeaf_lev. case_decide as Hd; [subst j|apply Hs].
  intros [Hx|Hx]%elem_of_app; [by apply Hs|]. by apply list_elem_of_singleton in Hx as ->.
Qed.

(** What two correct siblings make of their parent. *)
Lemma pair_ok l i a b :
  elem_ok l a -> elem_ok l b -> pe_Offset a = (2 * i)%Z -> pe_Offset b = (2 * i + 1)%Z ->
  ∃ ha, isDuplicate (Some a) = false ∧ pe_Hash a = Some ha ∧
    ((isDuplicate (Some b) = true ∧ T (S l) i = Some (parent ha ha)) ∨
     (∃ hb, isDuplicate (Some b) = false ∧ pe_Hash b = Some hb ∧ T (S l) i = Some (parent ha hb))).
Proof.
  unfold elem_ok. intros Ha Hb Ea Eb. rewrite Ea, Eb in *. rewrite (tree_S _ _ HT).
  destruct (isDuplicate (Some a)) eqn:Da.
  { destruct Ha as (_ & _ & Ev & _). by rewrite Z.even_mul in Ev. }
  destruct Ha as (ha & Hha & Ta). exists ha. rewrite Ta. split; [done|]. split; [done|].
  destruct (isDuplicate (Some b)) eqn:Db.
  - left. destruct Hb as (_ & _ & _ & Tb). by rewrite Tb.
  - right. destruct Hb as (hb & Hhb & Tb). exists hb. by rewrite Tb.
Qed.

(** The effect of processing one level. *)
Record fills (l : nat) (mp mp' : MerklePath) : Prop := {
  f_height : height mp' = height mp;
  f_other : ∀ j, j ≠ S l -> lev mp' j = lev mp j;
  f_next : ∃ added, lev mp' (S l) = lev mp (S l) ++ added ∧ Forall (elem_ok (S l)) added
}.

Definition closed_at (mp : MerklePath) (l : nat) : Prop :=
  ∀ o, has mp l o -> has mp l (Z.lxor o 1) -> has mp (S l) (o / 2).

Lemma fills_refl l mp : fills l mp mp.
Proof. split; [done|done|]. exists []. by rewrite app_nil_r. Qed.

Lemma fills_add l mp mp' e :
  (S l < height mp)%nat -> fills l mp mp' -> elem_ok (S l) e -> fills l mp (addLeaf mp' (S l) e).
Proof.
  intros Hl [Hh Ho (added & Ea & Hf)] He. split.
  - rewrite addLeaf_height; [done|]. lia.
  - intros j Hj. rewrite addLeaf_lev, decide_False by done. by apply Ho.
  - exists (added ++ [e]). rewrite addLeaf_lev, decide_True, Ea, app_assoc by done. split; [done|].
    apply Forall_app. by split; [|constructor].
Qed.

Lemma fills_has l mp mp' j o : fills l mp mp' -> has mp j o -> has mp' j o.
Proof.
  intros [_ Ho (added & Ea & _)] Hh. destruct (decide (j = S l)) as [->|Hj]; unfold has in *.
  - rewrite Ea, fmap_app. apply elem_of_app. by left.
  - by rewrite Ho.
Qed.

Lemma fills_sound l mp mp' : fills l mp mp' -> sound mp -> sound mp'.
Proof.
  intros [_ Ho (added & Ea & Hf)] Hs j e He. destruct (decide (j = S l)) as [->|Hj].
  - rewrite Ea in He. apply elem_of_app in He as [He|He]; [by apply Hs|]. by eapply Forall_forall in Hf.
  - rewrite Ho in He by done. by apply Hs.
Qed.

(** *** [computeAndPadCompound] *)

Lemma idx_lookup (elems : list PathElement) o :
  let idx := foldl (fun m e => <[pe_Offset e := e]> m) (∅ : gmap Z PathElement) elems in
  (∀ s, idx !! o = Some s -> s ∈ elems ∧ pe_Offset s = o) ∧ (o ∈ pe_Offset <$> elems -> is_Some (idx !! o)).
Proof.
  apply (foldl_ranged _ (fun pre (m : gmap Z PathElement) =>
    (∀ s, m !! o = Some s -> s ∈ pre ∧ pe_Offset s = o) ∧ (o ∈ pe_Offset <$> pre -> is_Some (m !! o)))).
  { split; [by intros s|by intros ?%elem_of_nil]. }
  intros pre x post m _ [H1 H2]. rewrite fmap_app. setoid_rewrite elem_of_app.
  destruct (decide (pe_Offset x = o)) as [E|E].
  - rewrite E, lookup_insert_eq. split; [intros s [= ->]; split; [right; by left|done]|done].
  - rewrite lookup_insert_ne by done. split; [intros s Hs; destruct (H1 s Hs); auto|].
    intros [Hin|Hin]; [auto|]. simpl in Hin. apply list_elem_of_singleton in Hin. congruence.
Qed.

Lemma compoundParent_ok l idx present e s :
  elem_ok l e -> elem_ok l s -> idx !! Z.lxor (pe_Offset e) 1 = Some s -> pe_Offset s = Z.lxor (pe_Offset e) 1 ->
  (pe_Offset e / 2)%Z ∉ present ->
  ∃ h, compoundParent parent idx present e = Some (hashElem (pe_Offset e / 2) h) ∧
       T (S l) (pe_Offset e / 2) = Some h.
Proof.
  intros He Hs Ei Es Hp. unfold compoundParent. rewrite bool_decide_eq_false_2, Ei by done.
  destruct (halves (pe_Offset e) (elem_ok_nonneg _ _ He)) as (i & Hi & Ed & [(E1 & E2 & _ & Em)|(E1 & E2 & _ & Em)]);
    rewrite Ed, Em; rewrite E2 in Es.
  - destruct (pair_ok l i e s He Hs E1 Es) as (ha & Da & Hha & [(Db & Et)|(hb & Db & Hhb & Et)]); rewrite Db, ?Da, Hha.
    + by eexists.
    + rewrite Hhb. by eexists.
  - destruct (pair_ok l i s e Hs He Es E1) as (ha & Da & Hha & [(Db & Et)|(hb & Db & Hhb & Et)]); rewrite Da, Db, Hha.
    + by eexists.
    + rewrite Hhb. by eexists.
Qed.

Lemma compound_fold l mp (present : gset Z) :
  (S l < height mp)%nat -> (∀ e, e ∈ lev mp l -> elem_ok l e) -> (∀ o, o ∈ present ↔ has mp (S l) o) ->
  let idx := foldl (fun m e => <[pe_Offset e := e]> m) ∅ (lev mp l) in
  let r := foldl (compoundStep parent l idx) (mp, present) (lev mp l) in
  fills l mp r.1 ∧ closed_at r.1 l.
Proof.
  intros Hl Hok Hpres idx.
  assert (∀ o s, idx !! o = Some s -> s ∈ lev mp l ∧ pe_Offset s = o) as Hi1 by (intros o; apply idx_lookup).
  assert (∀ o, has mp l o -> is_Some (idx !! o)) as Hi2 by (intros o; apply idx_lookup). clearbody idx.
  pose proof (foldl_ranged (compoundStep parent l idx) (fun pre st => fills l mp st.1 ∧
    (∀ o, o ∈ st.2 ↔ has st.1 (S l) o) ∧
    (∀ e, e ∈ pre -> has mp l (Z.lxor (pe_Offset e) 1) -> has st.1 (S l) (pe_Offset e / 2))) (mp, present) (lev mp l))
    as [Hf [_ Hc]].
  { split; [apply fills_refl|]. split; [done|]. by intros e ?%elem_of_nil. }
  { intros pre x post [mp' pres] E (Hf & Hp & Hc). cbn [fst snd] in *. unfold compoundStep. cbn [fst snd].
    assert (elem_ok l x) as Hx by (apply Hok; rewrite E; apply elem_of_app; right; by left).
    destruct (compoundParent parent idx pres x) as [p|] eqn:Ep; cbn [fst snd].
    - assert (∃ s, idx !! Z.lxor (pe_Offset x) 1 = Some s ∧ (pe_Offset x / 2)%Z ∉ pres) as (s & Es & Hnp).
      { unfold compoundParent in Ep. case_bool_decide; [done|]. destruct (idx !! _) as [s|]; [eauto|done]. }
      destruct (Hi1 _ _ Es) as [Hin Eo].
      destruct (compoundParent_ok l idx pres x s Hx (Hok s Hin) Es Eo Hnp) as (h & Eh & Et).
      rewrite Ep in Eh. injection Eh as ->. split; [apply fills_add; [done|done|by apply elem_ok_hash]|]. split.
      + intros o. rewrite addLeaf_has, elem_of_union, elem_of_singleton, Hp. cbn [pe_Offset hashElem]. naive_solver.
      + intros e [He|He]%elem_of_app Hsib; rewrite addLeaf_has; [left; auto|].
        apply list_elem_of_singleton in He as ->. by right.
    - split; [done|]. split; [done|]. intros e [He|He]%elem_of_app Hsib; [auto|].
      apply list_elem_of_singleton in He as ->. destruct (Hi2 _ Hsib) as [s Es]. destruct (Hi1 _ _ Es) as [Hin Eo].
      destruct (decide ((pe_Offset x / 2)%Z ∈ pres)) as [Hin'|Hnin]; [by apply Hp|].
      destruct (compoundParent_ok l idx pres x s Hx (Hok s Hin) Es Eo Hnin) as (h & Eh & _). congruence. }
  split; [done|]. intros o Ho Hs. unfold has in Ho, Hs. rewrite (f_other _ _ _ Hf) in Ho, Hs by lia.
  apply list_elem_of_fmap in Ho as (e & -> & He). by apply Hc.
Qed.

(** *** Padding *)

(** Level [l] of the tree has [n] nodes. *)
Definition counts (l n : nat) : Prop := ∀ o, is_Some (T l o) ↔ (0 <= o < Z.of_nat n)%Z.

Lemma counts_S l n : counts l n -> counts (S l) ((n + 1) / 2).
Proof.
  intros Hc o. rewrite (tree_S _ _ HT), fmap_is_Some, (Hc (2 * o)%Z).
  pose proof (Nat.div_mod_eq (n + 1) 2). pose proof (Nat.mod_upper_bound (n + 1) 2 ltac:(lia)). lia.
Qed.

(** A level whose odd last node has its duplicate marker. *)
Definition padded_at (mp : MerklePath) (l : nat) : Prop :=
  ∀ n, counts l n -> (n mod 2 = 1)%nat -> has mp l (Z.of_nat n).

Lemma counts_inj l n m : counts l n -> counts l m -> n = m.
Proof.
  intros Hn Hm. destruct (Nat.lt_trichotomy n m) as [Hlt|[->|Hlt]]; [|done|].
  - pose proof (proj1 (Hn (Z.of_nat n)) (proj2 (Hm (Z.of_nat n)) ltac:(lia))). lia.
  - pose proof (proj1 (Hm (Z.of_nat m)) (proj2 (Hn (Z.of_nat m)) ltac:(lia))). lia.
Qed.

Lemma odd_not_even n : (n mod 2 = 1)%nat -> Z.even (Z.of_nat n) = false.
Proof.
  intros E. pose proof (Nat.div_mod_eq n 2) as Ed. rewrite E in Ed. rewrite Ed.
  replace (Z.of_nat (2 * (n / 2) + 1)) with (2 * Z.of_nat (n / 2) + 1)%Z by lia. by rewrite Z.even_add, Z.even_mul.
Qed.

Lemma padOdd_ok l n mp :
  (l < height mp)%nat -> sound mp -> counts l n ->
  let r := padOdd l n mp in
  height r.1 = height mp ∧ sound r.1 ∧ (∀ j, j ≠ l -> lev r.1 j = lev mp j) ∧
  (∀ j o, has mp j o -> has r.1 j o) ∧ padded_at r.1 l ∧ (r.2 / 2 = (n + 1) / 2)%nat.
Proof.
  intros Hl Hs Hc. unfold padOdd. pose proof (Nat.div_mod_eq n 2). pose proof (Nat.mod_upper_bound n 2 ltac:(lia)).
  destruct (Nat.eqb_spec (n mod 2) 1) as [E|E]; cbn [fst snd].
  - destruct (findLeafByOffset mp l (Z.of_nat n)) as [e|] eqn:Ef; cbn [fst snd].
    + split_and!; try done; [|f_equal; lia]. intros m Hm _. rewrite (counts_inj _ _ _ Hm Hc).
      apply find_elem in Ef as [Hin <-]. by apply has_elem.
    + split_and!.
      * by apply addLeaf_height.
      * apply addLeaf_sound; [done|]. apply elem_ok_dup; [lia|by apply odd_not_even|].
        apply eq_None_not_Some. rewrite (Hc (Z.of_nat n)). lia.
      * intros j Hj. by rewrite addLeaf_lev, decide_False.
      * intros j o Ho. apply addLeaf_has. by left.
      * intros m Hm _. rewrite (counts_inj _ _ _ Hm Hc). apply addLeaf_has. by right.
      * f_equal. lia.
  - split_and!; try done; [|replace (n + 1)%nat with (1 + n / 2 * 2)%nat by lia; rewrite Nat.div_add by lia; done].
    intros m Hm Em. by rewrite (counts_inj _ _ _ Hm Hc) in Em.
Qed.

(** What a filling pass establishes: everything it was given is still there,
    it is still correct, sibling pairs have parents, and the levels from [h]
    up are padded. *)
Record completed (h : nat) (mp0 mp : MerklePath) (k : nat) : Prop := {
  c_height : height mp = height mp0;
  c_sound : sound mp;
  c_has : ∀ l o, has mp0 l o -> has mp l o;
  c_closed : ∀ l, (l < k)%nat -> closed_at mp l;
  c_padded : ∀ l, (h <= l < k)%nat -> padded_at mp l
}.

Lemma closed_at_mono mp mp' l :
  lev mp' l = lev mp l -> (∀ o, has mp (S l) o -> has mp' (S l) o) -> closed_at mp l -> closed_at mp' l.
Proof. unfold closed_at, has. intros -> Hm Hc o H1 H2. by apply Hm, Hc. Qed.

Lemma completed_0 h mp : sound mp -> completed h mp mp 0.
Proof. intros Hs. split; [done|done|done|intros; lia|intros; lia]. Qed.

(** One more level: optional padding of level [k], then its parents. *)
Lemma completed_S h mp0 mp mp1 mp2 k :
  completed h mp0 mp k ->
  height mp1 = height mp -> sound mp1 -> (∀ j, j ≠ k -> lev mp1 j = lev mp j) -> (∀ j o, has mp j o -> has mp1 j o) ->
  ((h <= k)%nat -> padded_at mp1 k) ->
  fills k mp1 mp2 -> closed_at mp2 k -> completed h mp0 mp2 (S k).
Proof.
  intros [Hh Hs Hm Hc Hp] Hh1 Hs1 Ho1 Hm1 Hp1 Hf Hc2. split.
  - rewrite (f_height _ _ _ Hf). lia.
  - by eapply fills_sound.
  - intros l o Hl. by apply (fills_has _ _ _ _ _ Hf), Hm1, Hm.
  - intros l Hl. destruct (decide (l = k)) as [->|Hne]; [done|].
    apply (closed_at_mono mp); [|intros o Ho; by apply (fills_has _ _ _ _ _ Hf), Hm1|apply Hc; lia].
    rewrite (f_other _ _ _ Hf), Ho1 by lia. done.
  - intros l Hl n Hn En. apply (fills_has _ _ _ _ _ Hf). destruct (decide (l = k)) as [->|Hne].
    + apply Hp1; [lia|done|done].
    + apply Hm1, (Hp l); [lia|done|done].
Qed.

Lemma compound_completed h n mp :
  sound mp -> counts h n -> completed h mp (computeAndPadCompound parent mp h n) (height mp - 1).
Proof.
  intros Hs Hn. unfold computeAndPadCompound. change (length (mp_Path mp)) with (height mp).
  pose proof (foldl_seq (compoundLevel parent h) (fun k st => completed h mp st.1 k ∧ counts (Nat.max h k) st.2)
    (mp, n) 0 (height mp - 1)) as [Hc _].
  { rewrite Nat.max_0_r. split; [by apply completed_0|done]. }
  { intros k [mp' rc] Hk [Hc Hcnt]. cbn [fst snd] in *.
    unfold compoundLevel. cbn [fst snd].
    destruct (Nat.leb_spec h k) as [Hhk|Hhk].
    - destruct (padOdd_ok k rc mp') as (P1 & P2 & P3 & P4 & P5 & P6);
        [rewrite (c_height _ _ _ _ Hc); lia|apply Hc|by rewrite Nat.max_r in Hcnt by lia|].
      destruct (padOdd k rc mp') as [mp1 rc1]. cbn [fst snd] in *. fold (lev mp1 k).
      destruct (compound_fold k mp1 (list_to_set (List.map pe_Offset (lev mp1 (S k))))) as [Hf Hcl];
        [rewrite P1, (c_height _ _ _ _ Hc); lia|intros e He; by apply P2| |].
      { intros o. rewrite elem_of_list_to_set. done. }
      split; [eapply completed_S; eauto|]. rewrite P6, Nat.max_r by lia. apply counts_S.
      by rewrite Nat.max_r in Hcnt by lia.
    - fold (lev mp' k). destruct (compound_fold k mp' (list_to_set (List.map pe_Offset (lev mp' (S k))))) as [Hf Hcl];
        [rewrite (c_height _ _ _ _ Hc); lia|intros e He; by apply (c_sound _ _ _ _ Hc)| |].
      { intros o. rewrite elem_of_list_to_set. done. }
      split; [|by rewrite Nat.max_l in * by lia].
      eapply completed_S; eauto using c_sound; lia. }
  done.
Qed.

(** *** [computeMissingHashes] and [padAndComputeBlockLevel] *)

Lemma missingParent_ok l mp e s :
  elem_ok l e -> elem_ok l s -> findLeafByOffset mp l (Z.lxor (pe_Offset e) 1) = Some s ->
  pe_Offset s = Z.lxor (pe_Offset e) 1 -> pe_Hash e ≠ None -> ¬ has mp (S l) (pe_Offset e / 2) ->
  ∃ h, missingParent parent mp l e = Some (hashElem (pe_Offset e / 2) h) ∧ T (S l) (pe_Offset e / 2) = Some h.
Proof.
  intros He Hs Ef Es Hh Hn. unfold missingParent. rewrite (proj2 (find_not_has _ _ _) Hn), Ef.
  destruct (halves (pe_Offset e) (elem_ok_nonneg _ _ He)) as (i & Hi & Ed & [(E1 & E2 & _ & Em)|(E1 & E2 & _ & Em)]);
    rewrite Ed, Em; rewrite E2 in Es.
  - destruct (pair_ok l i e s He Hs E1 Es) as (ha & Da & Hha & [(Db & Et)|(hb & Db & Hhb & Et)]); rewrite Hha, Db.
    + by eexists.
    + rewrite Hhb. by eexists.
  - destruct (pair_ok l i s e Hs He Es E1) as (ha & Da & Hha & [(Db & Et)|(hb & Db & Hhb & Et)]); rewrite Da, Hha.
    + destruct Hh. unfold elem_ok in He. rewrite Db in He. tauto.
    + rewrite Hhb. by eexists.
Qed.

(** Of two correct siblings the left one carries a hash. *)
Lemma closed_from_hashes l mp mp' :
  fills l mp mp' -> (∀ e, e ∈ lev mp l -> elem_ok l e) ->
  (∀ i, (0 <= i)%Z -> has mp l (2 * i) -> has mp l (2 * i + 1) -> has mp' (S l) i) -> closed_at mp' l.
Proof.
  intros Hf Hok Hp o Ho Hs. unfold has in Ho, Hs. rewrite (f_other _ _ _ Hf) in Ho, Hs by lia.
  assert (0 <= o)%Z as Hge.
  { pose proof Ho as (e & -> & He)%list_elem_of_fmap. by apply (elem_ok_nonneg l), Hok. }
  destruct (halves o Hge) as (i & Hi & Ed & [(E1 & E2 & _)|(E1 & E2 & _)]); rewrite Ed; rewrite E2 in Hs.
  - subst o. by apply Hp.
  - subst o. by apply Hp.
Qed.

Lemma missing_fold l mp :
  (S l < height mp)%nat -> (∀ e, e ∈ lev mp l -> elem_ok l e) ->
  fills l mp (missingLevel parent mp l) ∧ closed_at (missingLevel parent mp l) l.
Proof.
  intros Hl Hok. unfold missingLevel. fold (lev mp l).
  pose proof (foldl_ranged (missingStep parent l) (fun pre mp' => fills l mp mp' ∧
    (∀ e, e ∈ pre -> pe_Hash e ≠ None -> has mp l (Z.lxor (pe_Offset e) 1) -> has mp' (S l) (pe_Offset e / 2)))
    mp (lev mp l)) as [Hf Hc].
  { split; [apply fills_refl|]. by intros e ?%elem_of_nil. }
  { intros pre x post mp' E (Hf & Hc).
    assert (elem_ok l x) as Hx by (apply Hok; rewrite E; apply elem_of_app; right; by left).
    assert (∀ o s, findLeafByOffset mp' l o = Some s -> elem_ok l s ∧ pe_Offset s = o) as Hfind.
    { intros o s [Hin Eo]%find_elem. rewrite (f_other _ _ _ Hf) in Hin by lia. auto. }
    unfold missingStep. destruct (missingParent parent mp' l x) as [p|] eqn:Ep.
    - assert (∃ s, findLeafByOffset mp' l (Z.lxor (pe_Offset x) 1) = Some s ∧ ¬ has mp' (S l) (pe_Offset x / 2)
                ∧ pe_Hash x ≠ None) as (s & Es & Hnp & Hh).
      { unfold missingParent in Ep. destruct (pe_Hash x); [|done].
        destruct (findLeafByOffset mp' (S l) _) eqn:En; [done|]. apply find_not_has in En.
        destruct (findLeafByOffset mp' l _) as [s|]; [|done]. eauto. }
      destruct (Hfind _ _ Es) as [Hsok Eo].
      destruct (missingParent_ok l mp' x s Hx Hsok Es Eo Hh Hnp) as (h & Eh & Et). rewrite Ep in Eh. injection Eh as ->.
      split; [apply fills_add; [done|done|by apply elem_ok_hash]|].
      intros e [He|He]%elem_of_app Hhe Hsib; rewrite addLeaf_has; [left; auto|].
      apply list_elem_of_singleton in He as ->. by right.
    - split; [done|]. intros e [He|He]%elem_of_app Hhe Hsib; [auto|]. apply list_elem_of_singleton in He as ->.
      assert (has mp' l (Z.lxor (pe_Offset x) 1)) as Hsib' by (by apply (fills_has _ _ _ _ _ Hf)).
      destruct (has_find _ _ _ Hsib') as (s & Es & _). destruct (Hfind _ _ Es) as [Hsok Eo].
      destruct (findLeafByOffset mp' (S l) (pe_Offset x / 2)) as [q|] eqn:Eq.
      + apply find_elem in Eq as [Hin <-]. by apply has_elem.
      + apply find_not_has in Eq.
        destruct (missingParent_ok l mp' x s Hx Hsok Es Eo Hhe Eq) as (h & Eh & _). congruence. }
  split; [done|]. apply (closed_from_hashes l mp); [done|done|]. intros i Hi Ha Hb.
  apply list_elem_of_fmap in Ha as (a & Ea & Hina). pose proof Hb as (b & Eb & Hinb)%list_elem_of_fmap.
  destruct (pair_ok l i a b (Hok a Hina) (Hok b Hinb) (eq_sym Ea) (eq_sym Eb)) as (ha & _ & Hha & _).
  specialize (Hc a Hina). rewrite <-Ea, lxor_even, Hha in Hc by done.
  rewrite (Z.mul_comm 2 i), Z.div_mul in Hc by lia. rewrite (Z.mul_comm i 2) in Hc. by apply Hc.
Qed.

Lemma missing_completed mp h :
  sound mp -> (height mp <= h)%nat -> completed h mp (computeMissingHashes parent mp) (height mp - 1).
Proof.
  intros Hs Hh. unfold computeMissingHashes. change (length (mp_Path mp)) with (height mp).
  apply (foldl_seq (missingLevel parent) (fun k mp' => completed h mp mp' k) mp 0); [apply completed_0; done|].
  intros k mp' Hk Hc. destruct (missing_fold k mp') as [Hf Hcl];
    [rewrite (c_height _ _ _ _ Hc); lia|intros e He; by apply (c_sound _ _ _ _ Hc)|].
  eapply completed_S; eauto using c_sound; lia.
Qed.

Lemma padStep_fold l n mp :
  (S l < height mp)%nat -> (∀ e, e ∈ lev mp l -> elem_ok l e) -> counts l n ->
  let mp' := foldl (padStep parent l) mp (seq 0 ((n + 1) / 2)) in fills l mp mp' ∧ closed_at mp' l.
Proof.
  intros Hl Hok Hcnt.
  pose proof (foldl_seq (padStep parent l) (fun k mp' => fills l mp mp' ∧
    (∀ i, (0 <= i < Z.of_nat k)%Z -> has mp l (2 * i) -> has mp l (2 * i + 1) -> has mp' (S l) i))
    mp 0 ((n + 1) / 2)) as [Hf Hc].
  { split; [apply fills_refl|]. intros; lia. }
  { intros k mp' Hk [Hf Hc].
    assert (∀ o, findLeafByOffset mp' l o = findLeafByOffset mp l o) as Efind
      by (intros o; rewrite !find_lev; by rewrite (f_other _ _ _ Hf) by lia).
    assert (∀ mp2, fills l mp mp2 -> (∀ o, has mp' (S l) o -> has mp2 (S l) o) ->
      (has mp l (2 * Z.of_nat k) -> has mp l (2 * Z.of_nat k + 1) -> has mp2 (S l) (Z.of_nat k)) ->
      fills l mp mp2 ∧ (∀ i, (0 <= i < Z.of_nat (S k))%Z -> has mp l (2 * i) -> has mp l (2 * i + 1) -> has mp2 (S l) i))
      as Hdone.
    { intros mp2 Hf2 Hm H2. split; [done|]. intros i Hi Ha Hb. destruct (decide (i = Z.of_nat k)) as [->|]; [auto|].
      apply Hm, Hc; [lia|done|done]. }
    unfold padStep. rewrite !Efind. destruct (findLeafByOffset mp' (S l) (Z.of_nat k)) as [q|] eqn:Eq.
    { apply Hdone; [done|done|]. intros _ _. apply find_elem in Eq as [Hin <-]. by apply has_elem. }
    destruct (findLeafByOffset mp l (2 * Z.of_nat k)) as [a|] eqn:Ea;
      [|apply Hdone; [done|done|]; intros Ha; by apply find_not_has in Ea].
    destruct (findLeafByOffset mp l (2 * Z.of_nat k + 1)) as [b|] eqn:Eb;
      [|apply Hdone; [done|done|]; intros _ Hb; by apply find_not_has in Eb].
    apply find_elem in Ea as [Hina Ea], Eb as [Hinb Eb].
    destruct (pair_ok l _ a b (Hok a Hina) (Hok b Hinb) Ea Eb) as (ha & Da & Hha & [(Db & Et)|(hb & Db & Hhb & Et)]);
      rewrite Db, ?Da, Hha, ?Hhb;
      (apply Hdone; [apply fills_add; [done|done|by apply elem_ok_hash]|intros o Ho; apply addLeaf_has; by left|]);
      intros _ _; apply addLeaf_has; by right. }
  split; [done|]. apply (closed_from_hashes l mp); [done|done|]. intros i Hi Ha Hb. apply Hc; [|done|done].
  apply list_elem_of_fmap in Ha as (a & Ea & Hina). apply list_elem_of_fmap in Hb as (b & Eb & Hinb).
  destruct (pair_ok l i a b (Hok a Hina) (Hok b Hinb) (eq_sym Ea) (eq_sym Eb)) as (ha & Da & Hha & _).
  specialize (Hok a Hina). unfold elem_ok in Hok. rewrite Da in Hok. destruct Hok as (h' & _ & Et).
  assert (is_Some (T l (pe_Offset a))) as Hsome by eauto. apply Hcnt in Hsome.
  pose proof (Nat.div_mod_eq (n + 1) 2). pose proof (Nat.mod_upper_bound (n + 1) 2 ltac:(lia)). lia.
Qed.

Lemma pad_completed h n mp0 mp :
  completed h mp0 mp h -> (h <= height mp - 1)%nat -> counts h n ->
  completed h mp0 (padAndComputeBlockLevel parent mp h n) (height mp0 - 1).
Proof.
  intros Hc0 Hh Hn. unfold padAndComputeBlockLevel. change (length (mp_Path mp)) with (height mp).
  pose proof (foldl_seq (padLevel parent) (fun k st => completed h mp0 st.1 k ∧ counts k st.2)
    (mp, n) h (height mp - 1 - h)) as [Hc _].
  { done. }
  { intros k [mp' rc] Hk [Hc Hcnt]. cbn [fst snd] in *. unfold padLevel. cbn [fst snd].
    assert (height mp' = height mp) as Eh by (rewrite (c_height _ _ _ _ Hc), (c_height _ _ _ _ Hc0); done).
    destruct (padOdd_ok k rc mp') as (P1 & P2 & P3 & P4 & P5 & P6); [lia|apply Hc|done|].
    destruct (padOdd k rc mp') as [mp1 rc1]. cbn [fst snd] in *. rewrite P6.
    destruct (padStep_fold k rc mp1) as [Hf Hcl]; [lia|intros e He; by apply P2|done|].
    split; [eapply completed_S; eauto|by apply counts_S]. }
  replace (h + (height mp - 1 - h))%nat with (height mp0 - 1)%nat in Hc; [done|].
  rewrite (c_height _ _ _ _ Hc0) in *. lia.
Qed.

(** ** Verification against the tree *)

Lemma shiftr_div2 o : Z.shiftr o 1 = (o / 2)%Z.
Proof. by rewrite Z.shiftr_div_pow2. Qed.

(** A correct path that has every sibling folds a leaf to the tree's top. *)
Lemma foldPath_tree mp n l o w :
  sound mp -> (0 <= o)%Z -> T l o = Some w ->
  (∀ i, (i < n)%nat -> has mp (l + i) (Z.lxor (Z.shiftr o (Z.of_nat i)) 1)) ->
  foldPath parent (findLeafByOffset mp) n l o w = T (l + n) (Z.shiftr o (Z.of_nat n)).
Proof.
  intros Hs. revert l o w. induction n as [|n IH]; intros l o w Ho Ew Hsib; cbn [foldPath].
  { by rewrite Nat.add_0_r, Z.shiftr_0_r. }
  pose proof (Hsib 0%nat ltac:(lia)) as H0. rewrite Nat.add_0_r, Z.shiftr_0_r in H0.
  destruct (has_find _ _ _ H0) as (s & -> & Hin & Es). pose proof (Hs l s Hin) as Hok.
  assert (∀ w', T (S l) (o / 2) = Some w' ->
    foldPath parent (findLeafByOffset mp) n (S l) (Z.shiftr o 1) w' = T (l + S n) (Z.shiftr o (Z.of_nat (S n)))) as Hrec.
  { intros w' E. rewrite IH.
    - replace (S l + n)%nat with (l + S n)%nat by lia. f_equal. rewrite Z.shiftr_shiftr by lia. f_equal. lia.
    - rewrite shiftr_div2. apply Z.div_pos; lia.
    - by rewrite shiftr_div2.
    - intros i Hi. replace (S l + i)%nat with (l + S i)%nat by lia. rewrite Z.shiftr_shiftr by lia.
      replace (1 + Z.of_nat i)%Z with (Z.of_nat (S i)) by lia. apply Hsib. lia. }
  destruct (halves o Ho) as (i & Hi & Ed & [(E1 & E2 & Ev & _)|(E1 & E2 & Ev & _)]); rewrite Ev, Ed in *; rewrite E2 in Es;
    rewrite E1 in Ew; rewrite (tree_S _ _ HT) in Hrec; unfold elem_ok in Hok; rewrite Es in Hok;
    destruct (isDuplicate (Some s)).
  - destruct Hok as (_ & _ & _ & En). apply Hrec. by rewrite Ew, En.
  - destruct Hok as (h & -> & Eh). apply Hrec. by rewrite Ew, Eh.
  - destruct Hok as (_ & _ & E & _). by rewrite Z.even_mul in E.
  - destruct Hok as (h & -> & Eh). apply Hrec. by rewrite Ew, Eh.
Qed.

(** The path from a leaf up through complete pairs. *)
Lemma spine_present h mp0 mp k o :
  completed h mp0 mp k -> has mp 0 o ->
  (∀ l, (l < k)%nat -> has mp l (Z.lxor (Z.shiftr o (Z.of_nat l)) 1)) ->
  ∀ l, (l <= k)%nat -> has mp l (Z.shiftr o (Z.of_nat l)).
Proof.
  intros Hc H0 Hsib. induction l as [|l IH]; intros Hl; [by rewrite Z.shiftr_0_r|].
  pose proof (c_closed _ _ _ _ Hc l ltac:(lia) _ (IH ltac:(lia)) (Hsib l ltac:(lia))) as Hp.
  rewrite <-shiftr_div2, Z.shiftr_shiftr in Hp by lia. by replace (Z.of_nat (S l)) with (Z.of_nat l + 1)%Z by lia.
Qed.

Lemma completed_upto h mp0 mp k j :
  completed h mp0 mp k -> (j <= k)%nat -> completed h mp0 mp j.
Proof. intros [] Hj. split; auto; intros; [apply c_closed0|apply c_padded0]; lia. Qed.

Lemma counts_sub l n mp o : counts l n -> padded_at mp l -> (∀ o, is_Some (T l o) -> has mp l o) ->
  is_Some (T l o) -> has mp l (Z.lxor o 1).
Proof.
  intros Hn Hp Hall Ho. pose proof (proj1 (Hn o) Ho) as Hr.
  destruct (halves o ltac:(lia)) as (i & Hi & _ & [(E1 & E2 & _ & _)|(E1 & E2 & _ & _)]); rewrite E2.
  - destruct (decide (2 * i + 1 < Z.of_nat n)%Z) as [Hlt|Hge]; [apply Hall, Hn; lia|].
    replace (2 * i + 1)%Z with (Z.of_nat n) by lia. apply Hp; [done|].
    assert (n = 1 + Z.to_nat i * 2)%nat as -> by lia. by rewrite Nat.Div0.mod_add.
  - apply Hall, Hn. lia.
Qed.

(** From a full layer [h] every node above is present. *)
Lemma top_present h mp0 mp k n :
  completed h mp0 mp k -> counts h n -> (∀ o, is_Some (T h o) -> has mp h o) ->
  ∀ j, (h + j <= k)%nat -> ∃ m, counts (h + j) m ∧ ∀ o, is_Some (T (h + j) o) -> has mp (h + j) o.
Proof.
  intros Hc Hn Hall. induction j as [|j IH]; intros Hj; [rewrite Nat.add_0_r; eauto|].
  destruct IH as (m & Hm & Ha); [lia|]. exists ((m + 1) / 2)%nat. rewrite Nat.add_succ_r. split; [by apply counts_S|].
  intros o Ho. rewrite (tree_S _ _ HT), fmap_is_Some in Ho.
  assert (0 <= o)%Z as Hge by (pose proof (proj1 (Hm _) Ho); lia).
  pose proof (counts_sub _ m mp (2 * o) Hm (c_padded _ _ _ _ Hc (h + j) ltac:(lia)) Ha Ho) as Hs.
  pose proof (c_closed _ _ _ _ Hc (h + j) ltac:(lia) _ (Ha _ Ho) Hs) as Hp.
  by rewrite (Z.mul_comm 2 o), Z.div_mul in Hp by lia.
Qed.

(** The level below the root has two nodes. *)
Lemma counts_last h n : (2 <= n)%nat -> counts h n -> counts (h + Nat.log2_up n - 1) 2.
Proof.
  revert h. induction n as [n IH] using (well_founded_induction lt_wf); intros h Hn Hc.
  destruct (decide (n = 2%nat)) as [->|Hne]; [by rewrite Nat.add_1_r, Nat.sub_1_r|].
  pose proof (Nat.div_mod_eq (n + 1) 2). pose proof (Nat.mod_upper_bound (n + 1) 2 ltac:(lia)).
  assert (2 <= (n + 1) / 2 < n)%nat as Hm by lia.
  specialize (IH _ (proj2 Hm) (S h) (proj1 Hm) (counts_S _ _ Hc)).
  rewrite (log2_up_half n) by lia. by replace (h + S _ - 1)%nat with (S h + Nat.log2_up ((n + 1) / 2) - 1)%nat by lia.
Qed.

Lemma tree_up l o : is_Some (T l o) -> is_Some (T (S l) (o / 2)).
Proof.
  intros Ho. assert (0 <= o)%Z as Hge.
  { destruct (Z.lt_ge_cases o 0); [|done]. rewrite (tree_neg _ _ HT) in Ho by done. by destruct Ho. }
  rewrite (tree_S _ _ HT), fmap_is_Some.
  destruct (halves o Hge) as (i & Hi & -> & [(-> & _)|(-> & _)]); [done|]. by apply (tree_pair _ _ HT).
Qed.

Lemma tree_up_shift l o j : is_Some (T l o) -> is_Some (T (l + j) (Z.shiftr o (Z.of_nat j))).
Proof.
  intros Ho. induction j as [|j IH]; [by rewrite Nat.add_0_r, Z.shiftr_0_r|].
  replace (Z.of_nat (S j)) with (Z.of_nat j + 1)%Z by lia. rewrite <-Z.shiftr_shiftr, shiftr_div2 by lia.
  rewrite Nat.add_succ_r. by apply tree_up.
Qed.

(** Every leaf whose siblings below the subtree-root layer are there verifies
    to the root, once the layer is full and the pass is done. *)
Lemma completed_verifies h n mp0 mp g tx :
  completed h mp0 mp (height mp - 1) -> height mp = (h + Nat.log2_up n)%nat -> (2 <= n)%nat -> counts h n ->
  (∀ o, is_Some (T h o) -> has mp h o) -> T 0 g = Some tx ->
  (∀ l, (l < h)%nat -> has mp l (Z.lxor (Z.shiftr g (Z.of_nat l)) 1)) ->
  rootOf parent mp g tx = T (h + Nat.log2_up n) 0.
Proof.
  intros Hc Hh Hn Hcnt Hall Hg Hsib. unfold rootOf. change (length (mp_Path mp)) with (height mp).
  assert (∀ l, is_Some (T l (Z.shiftr g (Z.of_nat l)))) as Hnode by (intros l; apply (tree_up_shift 0); eauto).
  assert (0 < Nat.log2_up n)%nat as Hr by (apply Nat.log2_up_pos; lia).
  rewrite (foldPath_tree _ _ 0 g tx); [|apply Hc| |done|].
  - rewrite Hh. simpl. f_equal. replace (Z.of_nat (h + Nat.log2_up n)) with (Z.of_nat h + Z.of_nat (Nat.log2_up n))%Z by lia.
    rewrite <-Z.shiftr_shiftr by lia. pose proof (proj1 (Hcnt _) (Hnode h)) as Hb.
    rewrite Z.shiftr_div_pow2 by lia. apply Z.div_small. split; [lia|].
    destruct (Nat.log2_up_spec n ltac:(lia)) as [_ Hup]. apply (Nat2Z.inj_le n) in Hup. rewrite Nat2Z.inj_pow in Hup. lia.
  - destruct (Z.lt_ge_cases g 0) as [Hneg|]; [|done]. by rewrite (tree_neg _ _ HT) in Hg.
  - intros l Hl. simpl. destruct (decide (l < h)%nat) as [Hlt|Hge]; [by apply Hsib|].
    destruct (top_present _ _ _ _ _ Hc Hcnt Hall (l - h) ltac:(lia)) as (m & Hm & Ha).
    replace (h + (l - h))%nat with l in * by lia. destruct (decide (l = height mp - 1)%nat) as [->|Hne].
    + pose proof (counts_last h n Hn Hcnt) as H2. rewrite <-Hh in H2. specialize (Hnode (height mp - 1)%nat).
      apply H2 in Hnode. apply Ha, H2. set (x := Z.shiftr g _) in *. clearbody x.
      destruct (halves x ltac:(lia)) as (i & Hi & _ & [(E1 & -> & _)|(E1 & -> & _)]); lia.
    + apply (counts_sub l m); [done|apply (c_padded _ _ _ _ Hc); lia|done|done].
Qed.
End Passes.
