(* ===== verification/BumpMerge.v ===== *)
(** * BumpMerge: merging the STUMP variants of a subtree

    [unionMerklePath] and [mergeStumpVariants] of [bump/bump.go]: variants that
    agree on the slots they share always merge, the union holds every slot of
    every variant exactly once, and a property of single nodes that is stable
    under the two reconciliations (the tracked flag is or-ed, a hash beats a
    duplicate marker) carries over to the union. *)
From stdpp Require Import base gmap strings list.
From Stdlib Require Import ZArith Lia.
From Stdlib Require Import Strings.Byte.
From S2P Require Import Prelude Models Bump BumpBuild BumpTree.

(** The reconciliations a per-node property has to survive. *)
Record mergeable (P : PathElement -> Prop) : Prop := {
  mg_agree : ∀ x y a b, P x -> P y -> pe_Offset x = pe_Offset y -> pe_Hash x = Some a -> pe_Hash y = Some b -> a = b;
  mg_track : ∀ x y, P x -> P y -> pe_Offset x = pe_Offset y -> isTracked y = true ->
                    P (mkPathElement (pe_Offset x) (pe_Hash x) (Some true) (pe_Duplicate x));
  mg_hash : ∀ x y b, P x -> P y -> pe_Offset x = pe_Offset y -> pe_Hash x = None -> pe_Hash y = Some b ->
                     P (mkPathElement (pe_Offset x) (Some b) (pe_Txid x) None)
}.

Section Union.
Context `{SortFunc}.

Lemma offsetIndex_spec dst o :
  (∀ pos, offsetIndex dst !! o = Some pos -> ∃ x, dst !! pos = Some x ∧ pe_Offset x = o) ∧
  (o ∈ pe_Offset <$> dst -> is_Some (offsetIndex dst !! o)).
Proof.
  unfold offsetIndex. set (l := imap _ dst).
  assert (∀ i e, (i, e) ∈ l -> dst !! i = Some e) as Hl.
  { intros i e (x & Ex)%list_elem_of_lookup. unfold l in Ex. rewrite list_lookup_imap in Ex.
    destruct (dst !! x) eqn:Ed; [|done]. simpl in Ex. injection Ex as <- <-. done. }
  assert (dst = l.*2) as Ed.
  { unfold l. rewrite fmap_imap. apply list_eq. intros i. rewrite list_lookup_imap. by destruct (dst !! i). }
  assert (pe_Offset <$> dst = pe_Offset <$> l.*2) as -> by congruence. clearbody l. clear Ed.
  apply (foldl_ranged _ (fun pre (m : gmap Z nat) =>
    (∀ pos, m !! o = Some pos -> ∃ x, dst !! pos = Some x ∧ pe_Offset x = o) ∧
    (o ∈ pe_Offset <$> pre.*2 -> is_Some (m !! o)))).
  { split; [done|by intros ?%elem_of_nil]. }
  intros pre [i e] post m El [H1 H2]. rewrite !fmap_app, elem_of_app. simpl. rewrite list_elem_of_singleton.
  assert (dst !! i = Some e) as Ei by (apply Hl; rewrite El; apply elem_of_app; right; by left).
  destruct (decide (pe_Offset e = o)) as [E|E].
  - rewrite E, lookup_insert_eq. split; [intros pos [= <-]; eauto|done].
  - rewrite lookup_insert_ne by done. split; [done|]. intros [Hin|Hin]; [auto|congruence].
Qed.

(** The inner loop's state. *)
Record union_ok (P : PathElement -> Prop) (level : list PathElement) (existing : gmap Z nat) : Prop := {
  u_nodup : NoDup (pe_Offset <$> level);
  u_pos : ∀ o pos, existing !! o = Some pos -> ∃ x, level !! pos = Some x ∧ pe_Offset x = o;
  u_all : ∀ o, o ∈ pe_Offset <$> level -> is_Some (existing !! o);
  u_prop : Forall P level
}.

Lemma union_replace P level existing pos x y :
  union_ok P level existing -> level !! pos = Some x -> pe_Offset y = pe_Offset x -> P y ->
  union_ok P (<[pos := y]> level) existing ∧ pe_Offset <$> <[pos := y]> level = pe_Offset <$> level.
Proof.
  intros [Hn Hp Ha HP] Ex Ey HPy.
  assert (pe_Offset <$> <[pos := y]> level = pe_Offset <$> level) as Eo.
  { rewrite list_fmap_insert, list_insert_id; [done|]. by rewrite list_lookup_fmap, Ex, Ey. }
  split; [|done]. split.
  - by rewrite Eo.
  - intros o q Eq. destruct (Hp o q Eq) as (z & Ez & Eoz). destruct (decide (q = pos)) as [->|Hne].
    + exists y. rewrite list_lookup_insert_eq by (by eapply lookup_lt_Some). split; [done|]. congruence.
    + exists z. by rewrite list_lookup_insert_ne.
  - by rewrite Eo.
  - by apply Forall_insert.
Qed.

Lemma unionElem_ok P level existing e :
  mergeable P -> union_ok P level existing -> P e ->
  ∃ level' existing', unionElem (Ok (level, existing)) e = Ok (level', existing') ∧ union_ok P level' existing' ∧
    ∀ o, o ∈ pe_Offset <$> level' ↔ o ∈ pe_Offset <$> level ∨ o = pe_Offset e.
Proof.
  intros HM HU He. cbn [unionElem]. destruct (existing !! pe_Offset e) as [pos|] eqn:Ee.
  - destruct (u_pos _ _ _ HU _ _ Ee) as (x & Ex & Eo). rewrite (list_lookup_total_correct _ _ _ Ex).
    assert (P x) as Hx by (eapply Forall_lookup_1; [apply HU|done]).
    assert (∀ z, P z -> pe_Offset z = pe_Offset x ->
      let z' := if isTracked e && negb (isTracked z)
                then mkPathElement (pe_Offset z) (pe_Hash z) (Some true) (pe_Duplicate z) else z in
      ∃ level' existing', Ok (<[pos := z']> level, existing) = Ok (level', existing') ∧ union_ok P level' existing' ∧
        ∀ o, o ∈ pe_Offset <$> level' ↔ o ∈ pe_Offset <$> level ∨ o = pe_Offset e) as Hrep.
    { intros z Hz Ez z'. assert (P z' ∧ pe_Offset z' = pe_Offset x) as [Hz' Ez'].
      { unfold z'. destruct (isTracked e) eqn:Et, (isTracked z); try done. split; [|done].
        apply (mg_track _ HM z e); [done|done|congruence|done]. }
      destruct (union_replace P level existing pos x z' HU Ex Ez' Hz') as [HU' Eo'].
      do 2 eexists. split; [done|]. split; [done|]. intros o. rewrite Eo'. split; [by left|].
      intros [?| ->]; [done|]. rewrite <-Eo. by eapply list_elem_of_fmap_2, list_elem_of_lookup_2. }
    pose proof (Hrep x Hx eq_refl) as Hrx. cbv zeta in Hrx. revert Hrx.
    destruct (pe_Hash x) as [a|] eqn:Ha, (pe_Hash e) as [b|] eqn:Hb; intros Hrx; [| |clear Hrx|]; try exact Hrx.
    + rewrite (mg_agree _ HM x e a b Hx He Eo Ha Hb), String.eqb_refl. by rewrite <-(mg_agree _ HM x e a b Hx He Eo Ha Hb).
    + apply (Hrep (mkPathElement (pe_Offset x) (Some b) (pe_Txid x) None)); [|done].
      by apply (mg_hash _ HM x e b).
  - do 2 eexists. split; [done|]. assert (pe_Offset e ∉ pe_Offset <$> level) as Hni.
    { intros [? Hs]%(u_all _ _ _ HU). congruence. }
    assert (∀ o, o ∈ pe_Offset <$> level ++ [e] ↔ o ∈ pe_Offset <$> level ∨ o = pe_Offset e) as Hin.
    { intros o. rewrite fmap_app, elem_of_app. simpl. by rewrite list_elem_of_singleton. }
    split; [|done]. split.
    + rewrite fmap_app. apply NoDup_app. split; [apply HU|]. split; [|apply NoDup_singleton].
      intros o Ho Ho'. simpl in Ho'. apply list_elem_of_singleton in Ho' as ->. done.
    + intros o pos. destruct (decide (o = pe_Offset e)) as [->|Hne].
      * rewrite lookup_insert_eq. intros [= <-]. exists e. by rewrite list_lookup_middle.
      * rewrite lookup_insert_ne by done. intros (x & Ex & Ex')%(u_pos _ _ _ HU). exists x.
        split; [|done]. by apply lookup_app_l_Some.
    + intros o [Ho| ->]%Hin; [|by rewrite lookup_insert_eq].
      destruct (decide (o = pe_Offset e)) as [->|Hne]; [by rewrite lookup_insert_eq|].
      rewrite lookup_insert_ne by done. by apply (u_all _ _ _ HU).
    + apply Forall_app. split; [apply HU|by constructor].
Qed.

Lemma unionLevel_ok P dst src :
  mergeable P -> NoDup (pe_Offset <$> dst) -> Forall P dst -> Forall P src ->
  ∃ u, unionLevel dst src = Ok u ∧ NoDup (pe_Offset <$> u) ∧ Forall P u ∧
    ∀ o, o ∈ pe_Offset <$> u ↔ o ∈ pe_Offset <$> dst ∨ o ∈ pe_Offset <$> src.
Proof.
  intros HM Hn Hd Hs. unfold unionLevel.
  pose proof (foldl_ranged unionElem (fun pre st => ∃ level existing, st = Ok (level, existing) ∧
    union_ok P level existing ∧ ∀ o, o ∈ pe_Offset <$> level ↔ o ∈ pe_Offset <$> dst ∨ o ∈ pe_Offset <$> pre)
    (Ok (dst, offsetIndex dst)) src) as (level & existing & -> & HU & Ho).
  { exists dst, (offsetIndex dst). split; [done|]. split.
    - split; [done|intros o pos; by apply offsetIndex_spec|intros o; by apply offsetIndex_spec|done].
    - intros o. simpl. rewrite elem_of_nil. tauto. }
  { intros pre e post st E (level & existing & -> & HU & Ho).
    assert (P e) as He by (eapply Forall_forall; [exact Hs|]; rewrite E; apply elem_of_app; right; by left).
    destruct (unionElem_ok P level existing e HM HU He) as (l' & e' & El & HU' & Ho').
    exists l', e'. split; [done|]. split; [done|]. intros o. rewrite Ho', Ho, fmap_app, elem_of_app. simpl.
    rewrite list_elem_of_singleton. tauto. }
  exists (sortByOffset level). split; [done|]. split; [rewrite sort_perm; apply HU|].
  split; [rewrite sort_perm; apply HU|]. intros o. by rewrite sort_perm.
Qed.

(** The union of two paths, level by level; [P] may depend on the level. *)
Lemma unionLevels_ok (P : nat -> PathElement -> Prop) k dst src :
  (∀ l, mergeable (P l)) ->
  (∀ l elems, dst !! l = Some elems -> NoDup (pe_Offset <$> elems) ∧ Forall (P (k + l)%nat) elems) ->
  (∀ l elems, src !! l = Some elems -> Forall (P (k + l)%nat) elems) ->
  ∃ u, unionLevels dst src = Ok u ∧ length u = Nat.max (length dst) (length src) ∧
    (∀ l elems, u !! l = Some elems -> NoDup (pe_Offset <$> elems) ∧ Forall (P (k + l)%nat) elems) ∧
    ∀ l o, o ∈ pe_Offset <$> default [] (u !! l) ↔
           o ∈ pe_Offset <$> default [] (dst !! l) ∨ o ∈ pe_Offset <$> default [] (src !! l).
Proof.
  intros HM. revert k dst. induction src as [|s src IH]; intros k dst Hd Hs; cbn [unionLevels].
  { exists dst. split; [done|]. split; [simpl; lia|]. split; [done|]. intros l o. rewrite lookup_nil. simpl.
    rewrite elem_of_nil. tauto. }
  assert (NoDup (pe_Offset <$> default [] (head dst)) ∧ Forall (P k) (default [] (head dst))) as [Hn HP].
  { destruct dst as [|d dst]; [by split; constructor|]. specialize (Hd 0%nat d eq_refl). by rewrite Nat.add_0_r in Hd. }
  pose proof (Hs 0%nat s eq_refl) as Hs0. rewrite Nat.add_0_r in Hs0.
  destruct (unionLevel_ok (P k) (default [] (head dst)) s (HM k) Hn HP Hs0) as (u & -> & Un & UP & Uo).
  destruct (IH (S k) (tail dst)) as (us & -> & Ul & UP' & Uo').
  { intros l elems El. replace (S k + l)%nat with (k + S l)%nat by lia. apply Hd. by destruct dst. }
  { intros l elems El. replace (S k + l)%nat with (k + S l)%nat by lia. by apply Hs. }
  exists (u :: us). split; [done|]. split; [destruct dst; simpl in *; lia|]. split.
  - intros [|l] elems; cbn [lookup list_lookup]; [intros [= <-]; by rewrite Nat.add_0_r|].
    replace (k + S l)%nat with (S k + l)%nat by lia. apply UP'.
  - intros [|l] o; [simpl; rewrite Uo; by destruct dst|]. specialize (Uo' l o). by destruct dst.
Qed.
End Union.

(** ** All the variants of a block *)
Section Merge.
Context `{SortFunc}.
Context (parse : list byte -> Res MerklePath) (Bytes : MerklePath -> list byte) (HashString : Hash -> string).
(** The property of the nodes of subtree [i] at level [l]. *)
Context (P : Z -> nat -> PathElement -> Prop) (HM : ∀ i l, mergeable (P i l)).

Definition levels_ok (i : Z) (mp : MerklePath) : Prop :=
  ∀ l elems, mp_Path mp !! l = Some elems -> NoDup (pe_Offset <$> elems) ∧ Forall (P i l) elems.

(** A delivered STUMP that parses to [p]. *)
Definition delivered (stumps : list Stump) (i : Z) (p : MerklePath) : Prop :=
  ∃ st, st ∈ stumps ∧ stump_SubtreeIndex st = i ∧ parse (stump_StumpData st) = Ok p.

(** [u] is the union of the paths delivered for subtree [i]. *)
Record union_of (stumps : list Stump) (i : Z) (u : MerklePath) : Prop := {
  uo_ok : levels_ok i u;
  uo_in : ∀ p, delivered stumps i p -> height p <= height u ∧ ∀ l o, has p l o -> has u l o;
  uo_from : ∀ l o, has u l o -> ∃ p, delivered stumps i p ∧ has p l o;
  uo_some : ∃ p, delivered stumps i p
}.

Lemma union_of_step stumps st i u p v :
  stump_SubtreeIndex st = i -> parse (stump_StumpData st) = Ok p ->
  union_of stumps i u -> levels_ok i v -> height v = Nat.max (height u) (height p) ->
  (∀ l o, has v l o ↔ has u l o ∨ has p l o) -> union_of (stumps ++ [st]) i v.
Proof.
  intros Ei Ep [Hok Hin Hfrom (q0 & Hq0)] Hv Eh Ho.
  assert (∀ q, delivered (stumps ++ [st]) i q ↔ delivered stumps i q ∨ q = p) as Hd.
  { intros q. unfold delivered. setoid_rewrite elem_of_app. setoid_rewrite list_elem_of_singleton. split.
    - intros (s & [Hs| ->] & E1 & E2); [left; eauto|right; congruence].
    - intros [(s & Hs & E)| ->]; [exists s|exists st]; auto. }
  split; [done| | |].
  - intros q [Hq| ->]%Hd; [|split; [lia|]; intros l o Hl; apply Ho; by right].
    destruct (Hin q Hq) as [Hh Hl]. split; [lia|]. intros l o Hlo. apply Ho. left. auto.
  - intros l o [Hu|Hp]%Ho.
    + destruct (Hfrom l o Hu) as (q & Hq & Hlo). exists q. split; [apply Hd; by left|done].
    + exists p. split; [apply Hd; by right|done].
  - exists q0. apply Hd. by left.
Qed.

Lemma union_of_other stumps st i u :
  stump_SubtreeIndex st ≠ i -> union_of stumps i u -> union_of (stumps ++ [st]) i u.
Proof.
  intros Hne [Hok Hin Hfrom (q0 & Hq0)].
  assert (∀ q, delivered (stumps ++ [st]) i q ↔ delivered stumps i q) as Hd.
  { intros q. unfold delivered. setoid_rewrite elem_of_app. setoid_rewrite list_elem_of_singleton. naive_solver. }
  split; [done|intros q Hq%Hd; auto| |exists q0; by apply Hd].
  intros l o (q & Hq & Hl)%Hfrom. exists q. by rewrite Hd.
Qed.

Lemma unionMerklePath_ok i u p :
  levels_ok i u -> levels_ok i p ->
  ∃ v, unionMerklePath u p = Ok v ∧ levels_ok i v ∧ height v = Nat.max (height u) (height p) ∧
    ∀ l o, has v l o ↔ has u l o ∨ has p l o.
Proof.
  intros Hu Hp. unfold unionMerklePath.
  destruct (unionLevels_ok (P i) 0 (mp_Path u) (mp_Path p)) as (v & -> & Vl & Vok & Vo);
    [apply HM|done|intros l elems E; by apply Hp|].
  eexists. split; [done|]. split; [done|]. split; [done|]. done.
Qed.

(** The maps of the merge hold the unions of what was seen. *)
Record merge_inv (seen : list Stump) (g : mergeState) : Prop := {
  mi_order : ∀ i, i ∈ g_order g ↔ is_Some (g_byIndex g !! i);
  mi_nodup : NoDup (g_order g);
  mi_union : ∀ i u d, g_byIndex g !! i = Some (u, d) -> union_of seen i u;
  mi_all : ∀ st, st ∈ seen -> is_Some (g_byIndex g !! stump_SubtreeIndex st)
}.

Lemma mergeStep_ok seen g st p :
  merge_inv seen g -> parse (stump_StumpData st) = Ok p -> levels_ok (stump_SubtreeIndex st) p ->
  ∃ g', mergeStep parse g st = Ok g' ∧ merge_inv (seen ++ [st]) g'.
Proof.
  intros [Ho Hn Hu Ha] Ep Hp. unfold mergeStep. rewrite Ep. set (i := stump_SubtreeIndex st) in *.
  destruct (g_byIndex g !! i) as [[u d]|] eqn:Eg.
  - destruct (unionMerklePath_ok i u p (uo_ok _ _ _ (Hu _ _ _ Eg)) Hp) as (v & -> & Vok & Vh & Vo).
    eexists. split; [done|]. split; cbn [g_order g_byIndex].
    + intros j. rewrite Ho, lookup_insert_is_Some'. split; [by right|]. intros [<-|?]; [by eexists|done].
    + done.
    + intros j w d'. destruct (decide (j = i)) as [->|Hne].
      * rewrite lookup_insert_eq. intros [= <- <-]. eapply union_of_step; eauto.
      * rewrite lookup_insert_ne by done. intros Ej. apply union_of_other; [done|by eapply Hu].
    + intros s [Hs|Hs]%elem_of_app; apply lookup_insert_is_Some'; [right; auto|].
      apply list_elem_of_singleton in Hs as ->. by left.
  - assert (∀ q, ¬ delivered seen i q) as Hnone.
    { intros q (s & Hs & Es & _). apply Ha in Hs. rewrite Es, Eg in Hs. by destruct Hs. }
    eexists. split; [done|]. split; cbn [g_order g_byIndex].
    + intros j. rewrite elem_of_app, list_elem_of_singleton, Ho, lookup_insert_is_Some'.
      split; [intros [?| ->]; auto|]. intros [<-|?]; auto.
    + apply NoDup_app. split; [done|]. split; [|apply NoDup_singleton].
      intros j Hj ->%list_elem_of_singleton. apply Ho in Hj. rewrite Eg in Hj. by destruct Hj.
    + intros j w d'. destruct (decide (j = i)) as [->|Hne].
      * rewrite lookup_insert_eq. intros [= <- <-].
        assert (∀ q, delivered (seen ++ [st]) i q -> q = p) as Hq.
        { intros q (s & [Hs|Hs]%elem_of_app & E1 & E2); [by destruct (Hnone q); exists s|].
          apply list_elem_of_singleton in Hs as ->. congruence. }
        assert (delivered (seen ++ [st]) i p) as Hdp.
        { exists st. split; [apply elem_of_app; right; by left|done]. }
        split; [done|by intros q ->%Hq|eauto|eauto].
      * rewrite lookup_insert_ne by done. intros Ej. apply union_of_other; [done|by eapply Hu].
    + intros s [Hs|Hs]%elem_of_app; apply lookup_insert_is_Some'; [right; auto|].
      apply list_elem_of_singleton in Hs as ->. by left.
Qed.

Lemma mergeLoop_ok seen g stumps :
  merge_inv seen g ->
  (∀ st, st ∈ stumps -> ∃ p, parse (stump_StumpData st) = Ok p ∧ levels_ok (stump_SubtreeIndex st) p) ->
  ∃ g', mergeLoop parse g stumps = Ok g' ∧ merge_inv (seen ++ stumps) g'.
Proof.
  revert seen g. induction stumps as [|st stumps IH]; intros seen g Hi Hp; cbn [mergeLoop].
  { exists g. by rewrite app_nil_r. }
  destruct (Hp st) as (p & Ep & Hok); [by left|].
  destruct (mergeStep_ok seen g st p Hi Ep Hok) as (g' & -> & Hi').
  destruct (IH (seen ++ [st]) g' Hi') as (g2 & -> & Hi2); [intros s Hs; apply Hp; by right|].
  exists g2. split; [done|]. by rewrite <-app_assoc in Hi2.
Qed.

(** Variants that agree always merge, into exactly one union per subtree. *)
Lemma mergeStumpVariants_ok stumps :
  (∀ st, st ∈ stumps -> ∃ p, parse (stump_StumpData st) = Ok p ∧ levels_ok (stump_SubtreeIndex st) p) ->
  ∃ merged, mergeStumpVariants parse Bytes HashString stumps = Ok merged ∧ NoDup (ms_index <$> merged) ∧
    (∀ m, m ∈ merged -> union_of stumps (ms_index m) (ms_path m) ∧ ms_txids m = level0TxIDs HashString (ms_path m)) ∧
    (∀ st, st ∈ stumps -> ∃ m, m ∈ merged ∧ ms_index m = stump_SubtreeIndex st).
Proof.
  intros Hp. unfold mergeStumpVariants.
  destruct (mergeLoop_ok [] (mkMergeState ∅ ∅ []) stumps) as (g & -> & [Ho Hn Hu Ha]); [|done|].
  { split; cbn [g_order g_byIndex].
    - intros i. rewrite elem_of_nil, lookup_empty. split; [done|by intros [? ?]].
    - constructor.
    - done.
    - by intros st ?%elem_of_nil. }
  eexists. split; [done|].
  assert (∀ i, i ∈ g_order g -> ∃ m, mergedOut Bytes HashString g i = Some m ∧ ms_index m = i) as Hout.
  { intros i [[u d] Ei]%Ho. unfold mergedOut. rewrite Ei. eauto. }
  split; [|split].
  - assert (ms_index <$> omap (mergedOut Bytes HashString g) (g_order g) = g_order g) as ->; [|done].
    clear Ho Hn. induction (g_order g) as [|i l IH]; [done|]. cbn [omap list_omap].
    destruct (Hout i) as (m & -> & Em); [by left|]. cbn [fmap list_fmap].
    rewrite Em, IH; [done|]. intros j Hj. apply Hout. by right.
  - intros m (i & Hi & Em)%list_elem_of_omap. unfold mergedOut in Em.
    destruct (g_byIndex g !! i) as [[u d]|] eqn:Ei; [|done]. injection Em as <-. split; [by eapply Hu|done].
  - intros st Hst. apply Ha, Ho in Hst as Hin. destruct (Hout _ Hin) as (m & Em & Ei). exists m. split; [|done].
    apply list_elem_of_omap. eauto.
Qed.
End Merge.
