(* ===== verification/BumpBuildProps.v ===== *)
(** * BumpBuildProps: the compound BUMP proves the block's merkle root

    The end-to-end theorems of [bump/bump.go]: from STUMPs that are correct
    paths of a block's subtrees, [BuildCompoundBUMP] assembles a compound in
    which every delivered leaf verifies to the canonical merkle root of the
    block, through the coinbase substitution, the variant merge, the lifted
    final subtree and the padding. *)
From stdpp Require Import base gmap strings list.
From Stdlib Require Import ZArith Lia.
From Stdlib Require Import Strings.Byte.
From S2P Require Import Prelude Models Bump BumpBuild BumpTree BumpMerge.

(** ** Placement *)

Lemma addLeaves_lev (elems : list PathElement) mp l j :
  lev (foldl (fun mp e => addLeaf mp l e) mp elems) j = if decide (j = l) then lev mp l ++ elems else lev mp j.
Proof.
  revert mp. induction elems as [|e elems IH]; intros mp; cbn [foldl].
  - case_decide as Hd; [subst j; by rewrite app_nil_r|done].
  - rewrite IH, !addLeaf_lev. case_decide as Hd; [subst j|done]. rewrite decide_True by done. by rewrite <-app_assoc.
Qed.

Lemma addLeaves_height (elems : list PathElement) mp l :
  (l < height mp)%nat -> height (foldl (fun mp e => addLeaf mp l e) mp elems) = height mp.
Proof.
  revert mp. induction elems as [|e elems IH]; intros mp Hl; cbn [foldl]; [done|].
  rewrite IH; rewrite addLeaf_height; done.
Qed.

Lemma placeLevels_ok levels mp :
  (length levels <= height mp)%nat ->
  height (placeLevels levels mp) = height mp ∧
  ∀ j, lev (placeLevels levels mp) j = lev mp j ++ default [] (levels !! j).
Proof.
  intros Hl. unfold placeLevels. set (items := imap _ levels).
  assert (∀ k x, items !! k = Some x -> x.1 = k ∧ levels !! k = Some x.2) as Hi.
  { intros k x E. unfold items in E. rewrite list_lookup_imap in E. destruct (levels !! k); [|done].
    simpl in E. by injection E as <-. }
  assert (length items = length levels) as Elen by (unfold items; by rewrite length_imap).
  pose proof (foldl_ranged (fun mp '(level, elems) => foldl (fun mp e => addLeaf mp level e) mp elems)
    (fun pre mp' => height mp' = height mp ∧
       ∀ j, lev mp' j = lev mp j ++ if decide (j < length pre)%nat then default [] (levels !! j) else [])
    mp items) as [H1 H2].
  { split; [done|]. intros j. rewrite decide_False by (simpl; lia). by rewrite app_nil_r. }
  { intros pre [k elems] post mp' E [Hh Hlev]. destruct (Hi (length pre) (k, elems)) as [Ek Ee].
    { by rewrite E, lookup_app_r, Nat.sub_diag. }
    simpl in Ek, Ee. subst k. apply lookup_lt_Some in Ee as Hk.
    split; [rewrite addLeaves_height; [done|lia]|]. intros j. rewrite addLeaves_lev, length_app. cbn [length].
    destruct (decide (j = length pre)) as [->|Hne].
    - rewrite Hlev, decide_False, app_nil_r, decide_True, Ee by lia. done.
    - rewrite Hlev. destruct (decide (j < length pre)%nat).
      + by rewrite decide_True by lia.
      + by rewrite decide_False by lia. }
  split; [done|]. intros j. rewrite H2. case_decide as Hd; [done|].
  rewrite lookup_ge_None_2 by lia. done.
Qed.

Lemma shiftLevels_lookup i h levels l :
  shiftLevels i h levels !! l = List.map (shiftElem (shl64 i (h - l))) <$> levels !! l.
Proof. unfold shiftLevels. by rewrite list_lookup_imap. Qed.

(** The node of the block a local slot of subtree [i] stands for. *)
Definition globalOffset (h : nat) (i : Z) (l : nat) (o : Z) : Z := (i * 2 ^ Z.of_nat (h - l) + o)%Z.

Definition globalElem (h : nat) (i : Z) (l : nat) (e : PathElement) : PathElement :=
  mkPathElement (globalOffset h i l (pe_Offset e)) (pe_Hash e) (pe_Txid e) (pe_Duplicate e).

(** Shifting does not wrap for a block of at most 2^64 leaves. *)
Lemma shiftElem_global h n i l e :
  (Z.of_nat n * 2 ^ Z.of_nat h < 2 ^ 64)%Z -> (0 <= i < Z.of_nat n)%Z ->
  (0 <= pe_Offset e < 2 ^ Z.of_nat (h - l))%Z ->
  shiftElem (shl64 i (h - l)) e = globalElem h i l e.
Proof.
  intros Hn Hi Ho. unfold shiftElem, globalElem, shl64, globalOffset. rewrite Z.shiftl_mul_pow2 by lia.
  set (w := (2 ^ Z.of_nat (h - l))%Z) in *.
  assert (w <= 2 ^ Z.of_nat h)%Z as Hw by (apply Z.pow_le_mono_r; lia).
  assert (0 < w)%Z by lia. assert ((i + 1) * w <= Z.of_nat n * 2 ^ Z.of_nat h)%Z by nia.
  rewrite (uint64_id (i * w)) by (split; nia). rewrite uint64_id by (split; nia). f_equal. lia.
Qed.

(** ** Blocks and their STUMPs *)

(** A block of [n] subtrees of capacity 2^[h] in leaf order: all full but the
    last, which has at most 2^([h] - [lift]) leaves and is lifted. *)
Record block_shape (leaves : list Hash) (h n lift : nat) : Prop := {
  bs_two : (2 <= n)%nat;
  bs_lift : (lift <= h)%nat;
  bs_more : ((n - 1) * 2 ^ h < length leaves)%nat;
  bs_less : (length leaves <= (n - 1) * 2 ^ h + 2 ^ (h - lift))%nat;
  bs_fits : (Z.of_nat n * 2 ^ Z.of_nat h < 2 ^ 64)%Z
}.

(** The height a STUMP of subtree [i] has to cover. *)
Definition requiredHeight (h n lift : nat) (i : Z) : nat :=
  if (i =? Z.of_nat (n - 1))%Z then (h - lift)%nat else h.

Section Block.
Context (parent : Hash -> Hash -> Hash) (h n lift : nat).
Abbreviation req := (requiredHeight h n lift).

(** A node a merkle-service may deliver for subtree [i]: correct for the tree
    [T0] below the required height; above it (an over-tall STUMP) only
    consistent with the other variants, as given by [over]; tracked flags are
    on leaves only. *)
Definition node_ok (T0 : nat -> Z -> option Hash) (over : Z -> nat -> Z -> Hash) (i : Z) (l : nat) (e : PathElement)
  : Prop :=
  ((l < req i)%nat -> (0 <= pe_Offset e < 2 ^ Z.of_nat (h - l))%Z ∧ elem_ok T0 l (globalElem h i l e)) ∧
  ((req i <= l)%nat -> ∀ x, pe_Hash e = Some x -> over i l (pe_Offset e) = x) ∧
  ((0 < l)%nat -> isTracked e = false).

(** A correct STUMP of subtree [i]: tall enough, correct nodes, one per slot,
    at least one leaf, and every leaf with all its siblings. *)
Record stump_ok T0 over (i : Z) (p : MerklePath) : Prop := {
  so_tall : (req i <= height p)%nat;
  so_levels : levels_ok (node_ok T0 over) i p;
  so_leaf : ∃ o, has p 0 o;
  so_closed : ∀ o, has p 0 o -> ∀ l, (l < req i)%nat -> has p l (Z.lxor (Z.shiftr o (Z.of_nat l)) 1)
}.

Lemma elem_ok_hashed T l e x : elem_ok T l e -> pe_Hash e = Some x -> isDuplicate (Some e) = false ∧ T l (pe_Offset e) = Some x.
Proof.
  unfold elem_ok. destruct (isDuplicate (Some e)); [intros (E & _) E'; congruence|].
  intros (y & E & Et) E'. split; [done|]. congruence.
Qed.

Lemma node_ok_mergeable T0 over i l : mergeable (node_ok T0 over i l).
Proof.
  split.
  - intros x y a b (X1 & X2 & _) (Y1 & Y2 & _) Eo Ea Eb. destruct (decide (l < req i)%nat) as [Hl|Hl].
    + destruct (X1 Hl) as [_ X], (Y1 Hl) as [_ Y].
      apply (elem_ok_hashed _ _ _ a) in X as [_ X]; [|done]. apply (elem_ok_hashed _ _ _ b) in Y as [_ Y]; [|done].
      simpl in X, Y. rewrite Eo in X. congruence.
    + specialize (X2 ltac:(lia) _ Ea). specialize (Y2 ltac:(lia) _ Eb). rewrite Eo in X2. congruence.
  - intros x y (X1 & X2 & X3) (_ & _ & Y3) Eo Et. split; [exact X1|]. split; [exact X2|].
    intros Hl. specialize (Y3 Hl). congruence.
  - intros x y b (X1 & X2 & X3) (Y1 & Y2 & Y3) Eo En Eb. split; [|split].
    + intros Hl. destruct (X1 Hl) as [Hr _], (Y1 Hl) as [_ Y]. split; [done|].
      apply (elem_ok_hashed _ _ _ b) in Y as [_ Y]; [|done]. exists b. split; [done|]. simpl in *. by rewrite Eo.
    + intros Hl z [= <-]. cbn [pe_Offset]. rewrite Eo. by apply Y2.
    + exact X3.
Qed.

(** The union of correct STUMPs is one. *)
Lemma union_stump_ok T0 over parse stumps i u :
  (∀ p, delivered parse stumps i p -> stump_ok T0 over i p) ->
  union_of parse (node_ok T0 over) stumps i u -> stump_ok T0 over i u.
Proof.
  intros Hd [Hok Hin Hfrom (p & Hp)]. destruct (Hin p Hp) as [Hh Hl]. destruct (Hd p Hp) as [Ht _ (o & Ho) _].
  split; [lia|done|exists o; auto|]. intros o' Ho' l Hll. destruct (Hfrom 0%nat o' Ho') as (q & Hq & Hqo).
  destruct (Hin q Hq) as [_ Hql]. apply Hql. by apply (so_closed _ _ _ _ (Hd q Hq)).
Qed.

(** What the compound is given of a STUMP once the coinbase has been put in:
    a sibling on the left spine may be missing where the coinbase leaf and the
    spine's other siblings allow to recompute it. *)
Record placed_ok (T : nat -> Z -> option Hash) (i : Z) (p : MerklePath) : Prop := {
  po_tall : (req i <= height p)%nat;
  po_elem : ∀ l e, (l < req i)%nat -> e ∈ lev p l ->
            (0 <= pe_Offset e < 2 ^ Z.of_nat (h - l))%Z ∧ elem_ok T l (globalElem h i l e);
  po_leaf : ∃ o, has p 0 o;
  po_sib : ∀ o, has p 0 o -> ∀ l, (l < req i)%nat ->
           has p l (Z.lxor (Z.shiftr o (Z.of_nat l)) 1) ∨
           (i = 0%Z ∧ Z.lxor (Z.shiftr o (Z.of_nat l)) 1 = 0%Z ∧ has p 0 0 ∧ ∀ k, (k < req i)%nat -> has p k 1)
}.

Lemma lev_lookup mp l e : e ∈ lev mp l -> ∃ elems, mp_Path mp !! l = Some elems ∧ e ∈ elems.
Proof. unfold lev. destruct (mp_Path mp !! l); simpl; [eauto|by intros ?%elem_of_nil]. Qed.

Lemma stump_node T0 over i p l e : stump_ok T0 over i p -> e ∈ lev p l -> node_ok T0 over i l e.
Proof.
  intros [_ Hl _ _] (elems & E & He)%lev_lookup. destruct (Hl l elems E) as [_ Hf]. by eapply Forall_forall in Hf.
Qed.

Lemma stump_placed T0 T over i p :
  (∀ l e, (l < req i)%nat -> e ∈ lev p l -> elem_ok T0 l (globalElem h i l e) -> elem_ok T l (globalElem h i l e)) ->
  stump_ok T0 over i p -> placed_ok T i p.
Proof.
  intros HT Hs. split; [apply Hs| |apply Hs|].
  - intros l e Hl He. destruct (stump_node _ _ _ _ _ _ Hs He) as (H1 & _). destruct (H1 Hl). split; [done|]. by apply HT.
  - intros o Ho l Hl. left. by apply Hs.
Qed.
End Block.

(** ** The coinbase *)

Lemma updateFirst_proj {A} (f : PathElement -> A) q x l :
  (∀ e, f (setHash x e) = f e) -> f <$> updateFirst q (setHash x) l = f <$> l.
Proof.
  intros Hf. induction l as [|e l IH]; [done|]. cbn [updateFirst]. destruct (q e); rewrite !fmap_cons; [by rewrite Hf|by rewrite IH].
Qed.

Lemma updateFirst_offsets q x l : pe_Offset <$> updateFirst q (setHash x) l = pe_Offset <$> l.
Proof. by apply updateFirst_proj. Qed.

Lemma updateFirst_in q x l e :
  (∀ a, q a = true -> pe_Offset a = 0%Z) -> NoDup (pe_Offset <$> l) -> e ∈ updateFirst q (setHash x) l ->
  (∃ e0, e0 ∈ l ∧ q e0 = true ∧ e = setHash x e0) ∨ (e ∈ l ∧ q e = false).
Proof.
  intros Hq. induction l as [|a l IH]; intros Hn; cbn [updateFirst]; [by intros ?%elem_of_nil|].
  rewrite fmap_cons in Hn. apply NoDup_cons in Hn as [Hni Hn]. destruct (q a) eqn:Ea; intros [->|He]%elem_of_cons.
  - left. exists a. split; [by left|done].
  - right. split; [by right|]. destruct (q e) eqn:Ee; [|done]. destruct Hni.
    rewrite (Hq a Ea), <-(Hq e Ee). by apply list_elem_of_fmap_2.
  - right. split; [by left|done].
  - destruct (IH Hn He) as [(e0 & H0 & E)|[H0 E]]; [left; exists e0|right]; split; auto; by right.
Qed.

Lemma replaceSpine_proj {A} (f : PathElement -> A) parent cbPath k l cur mp j :
  (∀ x e, f (setHash x e) = f e) -> f <$> lev (replaceSpine parent cbPath k l cur mp) j = f <$> lev mp j.
Proof.
  intros Hf. revert l cur mp. induction k as [|k IH]; intros l cur mp; cbn [replaceSpine]; [done|].
  set (mp1 := mkMerklePath _ _). assert (f <$> lev mp1 j = f <$> lev mp j) as <-.
  { unfold mp1, lev. cbn [mp_Path]. destruct (decide (j = l)) as [->|Hne]; [|by rewrite list_lookup_alter_ne].
    rewrite list_lookup_alter_eq. destruct (mp_Path mp !! l); [|done]. cbn [fmap option_fmap option_map default from_option].
    by apply updateFirst_proj. }
  destruct (findLeafByOffset cbPath l 1) as [s|]; [|done]. by destruct (pe_Hash s).
Qed.

Lemma replaceSpine_offsets parent cbPath k l cur mp j :
  pe_Offset <$> lev (replaceSpine parent cbPath k l cur mp) j = pe_Offset <$> lev mp j.
Proof. by apply replaceSpine_proj. Qed.

Section Coinbase.
Context (parent : Hash -> Hash -> Hash) (leaves : list Hash) (h n lift : nat).
Context (Hshape : block_shape leaves h n lift).
Abbreviation T := (nodeAt parent leaves).
Abbreviation req := (requiredHeight h n lift).

(** A correct coinbase BUMP: a path of the block from leaf 0 to the root. *)
Record coinbase_ok (cbPath : MerklePath) : Prop := {
  cb_tall : height cbPath = (h + Nat.log2_up n)%nat;
  cb_sound : sound T cbPath;
  cb_leaf : has cbPath 0 0;
  cb_sib : ∀ l, (l < h)%nat -> has cbPath l 1
}.

Lemma shape_leaf l o : (l <= h)%nat -> (0 <= o)%Z -> (o < 2 ^ Z.of_nat (h - l) * Z.of_nat (n - 1))%Z -> is_Some (T l o).
Proof.
  intros Hl H0 Ho. apply nodeAt_some. split; [done|]. destruct Hshape as [H2 _ Hm _ _].
  assert (2 ^ Z.of_nat (h - l) * 2 ^ Z.of_nat l = 2 ^ Z.of_nat h)%Z as E by (rewrite <-Z.pow_add_r by lia; f_equal; lia).
  apply (inj_lt _ _) in Hm. rewrite Nat2Z.inj_mul, Nat2Z.inj_pow in Hm.
  assert (0 < 2 ^ Z.of_nat l)%Z by lia. nia.
Qed.

Lemma req_0 : req 0 = h.
Proof. unfold requiredHeight. destruct Hshape as [H2 _ _ _ _]. by rewrite (proj2 (Z.eqb_neq _ _)) by lia. Qed.

Context (cbPath : MerklePath) (Hcb : coinbase_ok cbPath).

Lemma spine_step l : (l < h)%nat ->
  ∃ a b s, T l 0 = Some a ∧ T (S l) 0 = Some (parent a b) ∧
    findLeafByOffset cbPath l 1 = Some s ∧ isDuplicate (Some s) = false ∧ pe_Hash s = Some b.
Proof.
  intros Hl. destruct Hshape as [H2 _ _ _ _].
  assert (2 ^ Z.of_nat (h - l) >= 2)%Z as Hp.
  { replace (Z.of_nat (h - l)) with (Z.of_nat (h - l - 1) + 1)%Z by lia. rewrite Z.pow_add_r by lia. lia. }
  destruct (shape_leaf l 0 ltac:(lia) ltac:(lia) ltac:(nia)) as [a Ea].
  destruct (shape_leaf l 1 ltac:(lia) ltac:(lia) ltac:(nia)) as [b Eb].
  destruct (has_find _ _ _ (cb_sib _ Hcb l Hl)) as (s & Es & Hin & Eo).
  pose proof (cb_sound _ Hcb l s Hin) as Hok. unfold elem_ok in Hok. rewrite Eo in Hok.
  exists a, b, s. rewrite nodeAt_S. change (2 * 0 + 1)%Z with 1%Z. change (2 * 0)%Z with 0%Z. rewrite Ea, Eb.
  destruct (isDuplicate (Some s)); [destruct Hok as (_ & _ & _ & ?); congruence|].
  destruct Hok as (b' & Hb' & Eb'). split_and!; try done. congruence.
Qed.

Lemma foldSpine_ok k l w : T l 0 = Some w -> (l + k <= h)%nat -> foldSpine parent cbPath k l w = T (l + k) 0.
Proof.
  revert l w. induction k as [|k IH]; intros l w Ew Hk; cbn [foldSpine]; [by rewrite Nat.add_0_r|].
  destruct (spine_step l ltac:(lia)) as (a & b & s & Ea & Es & -> & -> & ->).
  rewrite Ew in Ea. injection Ea as ->. rewrite IH; [|done|lia]. by rewrite <-Nat.add_succ_comm.
Qed.

Lemma coinbaseLeaf_ok : coinbaseLeaf cbPath = T 0 0.
Proof.
  unfold coinbaseLeaf. pose proof (cb_leaf _ Hcb) as H0.
  assert (∀ e, e ∈ lev cbPath 0 -> pe_Offset e = 0%Z -> ∃ x, pe_Hash e = Some x ∧ T 0 0 = Some x) as Hx.
  { intros e He Eo. pose proof (cb_sound _ Hcb 0%nat e He) as Hok. unfold elem_ok in Hok. rewrite Eo in Hok.
    destruct (isDuplicate (Some e)); [by destruct Hok as (_ & _ & Ev & _)|done]. }
  unfold has, lev in *. destruct (mp_Path cbPath) as [|level0 rest]; [by apply elem_of_nil in H0|]. simpl in *.
  destruct (List.find _ level0) as [e|] eqn:Ef.
  - apply List.find_some in Ef as [Hin Hp]. apply list_elem_of_In in Hin. apply andb_prop in Hp as [Eo%Z.eqb_eq _].
    destruct (Hx e Hin Eo) as (x & -> & ->). done.
  - apply list_elem_of_fmap in H0 as (e & Eo & Hin). destruct (Hx e Hin (eq_sym Eo)) as (x & Ex & _).
    apply list_elem_of_In in Hin. pose proof (List.find_none _ _ Ef e Hin) as Hn. simpl in Hn.
    rewrite <-Eo, Ex, bool_decide_eq_true_2 in Hn by done. done.
Qed.

Lemma replaceSpine_ok k l cur mp :
  ((l < h)%nat -> T l 0 = Some cur) ->
  let r := replaceSpine parent cbPath k l cur mp in
  height r = height mp ∧ (∀ j, (j < l)%nat -> lev r j = lev mp j) ∧
  ∀ j, (l <= j < l + k)%nat -> (j < h)%nat -> ∃ x, T j 0 = Some x ∧
    lev r j = updateFirst (fun e => (pe_Offset e =? 0)%Z && negb (isTracked e)) (setHash x) (lev mp j).
Proof.
  revert l cur mp. induction k as [|k IH]; intros l cur mp Hcur; cbn [replaceSpine]; [split_and!; [done|done|lia]|].
  set (upd := updateFirst _ (setHash cur)). set (mp1 := mkMerklePath _ _).
  assert (height mp1 = height mp) as E1 by (unfold mp1, height; cbn [mp_Path]; by rewrite length_alter).
  assert (∀ j, lev mp1 j = if decide (j = l) then upd (lev mp j) else lev mp j) as El.
  { intros j. unfold mp1, lev. cbn [mp_Path]. case_decide as Hd; [subst j|by rewrite list_lookup_alter_ne].
    rewrite list_lookup_alter_eq. by destruct (mp_Path mp !! l). }
  clearbody mp1.
  assert (∀ r, height r = height mp1 -> (∀ j, (j < S l)%nat -> lev r j = lev mp1 j) ->
    (∀ j, (S l <= j < S l + k)%nat -> (j < h)%nat -> ∃ x, T j 0 = Some x ∧
      lev r j = updateFirst (fun e => (pe_Offset e =? 0)%Z && negb (isTracked e)) (setHash x) (lev mp1 j)) ->
    height r = height mp ∧ (∀ j, (j < l)%nat -> lev r j = lev mp j) ∧
    ∀ j, (l <= j < l + S k)%nat -> (j < h)%nat -> ∃ x, T j 0 = Some x ∧
      lev r j = updateFirst (fun e => (pe_Offset e =? 0)%Z && negb (isTracked e)) (setHash x) (lev mp j)) as Hdone.
  { intros r R1 R2 R3. split_and!; [lia|intros j Hj; rewrite R2, El, decide_False by lia; done|].
    intros j Hj Hjh. destruct (decide (j = l)) as [->|Hne].
    - exists cur. split; [auto|]. by rewrite R2, El, decide_True by lia.
    - destruct (R3 j ltac:(lia) Hjh) as (x & Ex & ->). exists x. by rewrite El, decide_False by done. }
  destruct (decide (l < h)%nat) as [Hl|Hl].
  - destruct (spine_step l Hl) as (a & b & s & Ea & Es & -> & _ & ->). rewrite (Hcur Hl) in Ea. injection Ea as ->.
    destruct (IH (S l) (parent a b) mp1) as (R1 & R2 & R3); [done|]. by apply Hdone.
  - destruct (findLeafByOffset cbPath l 1) as [s|]; [|apply Hdone; [done|done|intros; lia]].
    destruct (pe_Hash s) as [b|]; [|apply Hdone; [done|done|intros; lia]].
    destruct (IH (S l) (parent cur b) mp1) as (R1 & R2 & R3); [lia|]. by apply Hdone.
Qed.

(** ** Putting the coinbase into the STUMP of subtree 0 *)

Context (placeholder cbTx : Hash) (HcbTx : T 0 0 = Some cbTx).
Abbreviation T0 := (nodeAt parent (<[0%nat := placeholder]> leaves)).

Lemma elem_ok_off_spine l e : pe_Offset e ≠ 0%Z -> elem_ok T0 l e -> elem_ok T l e.
Proof. intros Ho. unfold elem_ok. by rewrite nodeAt_off_spine. Qed.

(** A left-spine element with its true hash put in. *)
Lemma elem_ok_set l e x :
  T l 0 = Some x -> pe_Offset e = 0%Z -> elem_ok T0 l (globalElem h 0 l e) -> elem_ok T l (globalElem h 0 l (setHash x e)).
Proof.
  intros Ex Eo. unfold elem_ok, globalElem, globalOffset, isDuplicate. cbn [pe_Offset pe_Duplicate pe_Hash setHash].
  rewrite Eo. simpl. destruct (match pe_Duplicate e with Some b => b | None => false end).
  - by intros (_ & _ & ? & _).
  - intros _. by exists x.
Qed.

Lemma globalElem_0 l e : globalElem h 0 l e = e.
Proof. unfold globalElem, globalOffset. destruct e. simpl. f_equal. Qed.

Lemma apply_placed over parse cb p :
  parse cb = Ok cbPath -> stump_ok h n lift T0 over 0 p ->
  placed_ok h n lift T 0 (applyCoinbaseToSTUMP parse parent p cbTx cb).
Proof.
  intros Hparse Hs. pose proof (so_tall _ _ _ _ _ _ _ Hs) as Ht. rewrite req_0 in Ht.
  assert (∀ l e, (l < h)%nat -> e ∈ lev p l -> (0 <= pe_Offset e < 2 ^ Z.of_nat (h - l))%Z ∧ elem_ok T0 l e) as Hel.
  { intros l e Hl He. destruct (stump_node _ _ _ _ _ _ _ _ _ Hs He) as (Hn & _ & _). rewrite req_0 in Hn.
    destruct (Hn Hl) as [Hr Hok]. by rewrite globalElem_0 in Hok. }
  assert (∀ l, NoDup (pe_Offset <$> lev p l)) as Hnd.
  { intros l. unfold lev. destruct (mp_Path p !! l) as [elems|] eqn:E; [|constructor].
    by apply (so_levels _ _ _ _ _ _ _ Hs) in E as [? _]. }
  pose proof (so_closed _ _ _ _ _ _ _ Hs) as Hcl. rewrite req_0 in Hcl. pose proof (so_leaf _ _ _ _ _ _ _ Hs) as Hlf.
  unfold applyCoinbaseToSTUMP. rewrite Hparse. destruct (mp_Path p) as [|level0 rest] eqn:Ep.
  { destruct Hlf as (o & Ho). unfold has, lev in Ho. rewrite Ep in Ho. by apply elem_of_nil in Ho. }
  assert (lev p 0 = level0) as E0 by (unfold lev; by rewrite Ep).
  assert (∀ l, lev p (S l) = default [] (rest !! l)) as ES by (intros l; unfold lev; by rewrite Ep).
  destruct (existsb (fun e => pe_Offset e =? 0)%Z level0) eqn:Ex.
  - set (p' := mkMerklePath _ _).
    assert (lev p' 0 = updateFirst (fun e => pe_Offset e =? 0)%Z (setHash cbTx) (lev p 0)) as P0 by (by rewrite E0).
    assert (∀ l, lev p' (S l) = List.filter (fun e => negb (pe_Offset e =? 0)%Z) (lev p (S l))) as PS.
    { intros l. rewrite ES. unfold p', lev. cbn [mp_Path]. simpl lookup. rewrite list_lookup_fmap. by destruct (rest !! l). }
    assert (∀ o, has p' 0 o ↔ has p 0 o) as H0 by (intros o; unfold has; by rewrite P0, updateFirst_offsets).
    assert (∀ l o, o ≠ 0%Z -> has p l o -> has p' l o) as Hkeep.
    { intros [|l] o Ho Hp; [by apply H0|]. unfold has in *. apply list_elem_of_fmap in Hp as (e & -> & He).
      apply list_elem_of_fmap_2. rewrite PS. apply list_elem_of_In, List.filter_In. split; [by apply list_elem_of_In|].
      by rewrite (proj2 (Z.eqb_neq _ _)). }
    assert (has p 0 0) as H00.
    { apply existsb_exists in Ex as (e & He & Eo%Z.eqb_eq). rewrite <-Eo. apply has_elem. rewrite E0. by apply list_elem_of_In. }
    split; rewrite ?req_0.
    + unfold height, p' in *. rewrite Ep in Ht. cbn [mp_Path length] in *. by rewrite length_map.
    + intros [|l] e Hl He; rewrite globalElem_0.
      * rewrite P0 in He. apply updateFirst_in in He as [(e0 & He0 & Eo%Z.eqb_eq & ->)|[He Eo%Z.eqb_neq]];
          [| |by intros a ?%Z.eqb_eq|apply Hnd].
        -- destruct (Hel 0%nat e0 Hl He0). split; [done|]. rewrite <-(globalElem_0 0). apply elem_ok_set; [done|done|].
           by rewrite globalElem_0.
        -- destruct (Hel 0%nat e Hl He). split; [done|]. by apply elem_ok_off_spine.
      * rewrite PS in He. apply list_elem_of_In, List.filter_In in He as [He Eo]. apply list_elem_of_In in He.
        destruct (Hel (S l) e Hl He). split; [done|]. apply elem_ok_off_spine; [|done]. by destruct (Z.eqb_spec (pe_Offset e) 0).
    + destruct Hlf as (o & Ho). exists o. by apply H0.
    + intros o Ho%H0 l Hl. pose proof (Hcl o Ho l Hl) as Hsib.
      destruct (decide (Z.lxor (Z.shiftr o (Z.of_nat l)) 1 = 0%Z)) as [Ez|Hne]; [|left; by apply Hkeep].
      right. split_and!; [done|done|by apply H0|]. intros k Hk. apply Hkeep; [done|].
      pose proof (Hcl 0%Z H00 k Hk) as Hk1. by rewrite Z.shiftr_0_l in Hk1.
  - set (k := Nat.min _ _). assert (h <= k)%nat as Hk.
    { unfold k. pose proof (cb_tall _ Hcb) as Hc. unfold height in *. rewrite <-Ep. lia. }
    destruct (replaceSpine_ok k 0 cbTx p) as (R1 & _ & R3); [done|]. set (p' := replaceSpine _ _ _ _ _ _) in *.
    assert (∀ l, (l < h)%nat -> ∃ x, T l 0 = Some x ∧ lev p' l =
      updateFirst (fun e => (pe_Offset e =? 0)%Z && negb (isTracked e)) (setHash x) (lev p l)) as Hlev
      by (intros l Hl; apply R3; lia). clear R3.
    assert (∀ l o, has p' l o ↔ has p l o) as Hhas
      by (intros l o; unfold has, p'; by rewrite replaceSpine_offsets).
    split; rewrite ?req_0.
    + lia.
    + intros l e Hl He. rewrite globalElem_0. destruct (Hlev l Hl) as (x & Tx & E). rewrite E in He.
      apply updateFirst_in in He as [(e0 & He0 & Eq & ->)|[He Eq]];
        [| |by intros a [?%Z.eqb_eq _]%andb_prop|apply Hnd].
      * apply andb_prop in Eq as [Eo%Z.eqb_eq _]. destruct (Hel l e0 Hl He0). split; [done|].
        rewrite <-(globalElem_0 l). apply elem_ok_set; [done|done|]. by rewrite globalElem_0.
      * destruct (Hel l e Hl He) as [Hr Hok]. split; [done|]. apply elem_ok_off_spine; [|done]. intros Eo.
        rewrite Eo in Eq. simpl in Eq. destruct l as [|l].
        -- rewrite E0 in He. apply list_elem_of_In in He.
           assert (existsb (fun e => pe_Offset e =? 0)%Z level0 = true); [|congruence].
           apply existsb_exists. exists e. split; [done|]. by rewrite Eo.
        -- destruct (stump_node _ _ _ _ _ _ _ _ _ Hs He) as (_ & _ & Ht'). rewrite Ht' in Eq by lia. done.
    + destruct Hlf as (o & Ho). exists o. by apply Hhas.
    + intros o Ho%Hhas l Hl. left. apply Hhas. by apply Hcl.
Qed.
End Coinbase.

(** ** The compound before its nodes are filled in *)

Lemma shiftr_global h i l o :
  (l <= h)%nat -> Z.shiftr (globalOffset h i 0 o) (Z.of_nat l) = globalOffset h i l (Z.shiftr o (Z.of_nat l)).
Proof.
  intros Hl. unfold globalOffset. rewrite !Z.shiftr_div_pow2, Nat.sub_0_r by lia.
  replace (2 ^ Z.of_nat h)%Z with (2 ^ Z.of_nat (h - l) * 2 ^ Z.of_nat l)%Z by (rewrite <-Z.pow_add_r by lia; f_equal; lia).
  rewrite Z.mul_assoc, Z.div_add_l by lia. done.
Qed.

Lemma lxor_global h i l o :
  (l < h)%nat -> (0 <= i)%Z -> (0 <= o)%Z -> Z.lxor (globalOffset h i l o) 1 = globalOffset h i l (Z.lxor o 1).
Proof.
  intros Hl Hi Ho. unfold globalOffset.
  replace (Z.of_nat (h - l)) with (1 + Z.of_nat (h - l - 1))%Z by lia. rewrite Z.pow_add_r by lia.
  set (w := (2 ^ Z.of_nat (h - l - 1))%Z). assert (0 < w)%Z by (unfold w; lia). clearbody w.
  destruct (halves o Ho) as (k & Hk & _ & [(-> & -> & _)|(-> & -> & _)]).
  - replace (i * (2 ^ 1 * w) + 2 * k)%Z with (2 * (i * w + k))%Z by lia. rewrite lxor_even by nia. lia.
  - replace (i * (2 ^ 1 * w) + (2 * k + 1))%Z with (2 * (i * w + k) + 1)%Z by lia. rewrite lxor_odd by nia. lia.
Qed.

Section Compound.
Context (parent : Hash -> Hash -> Hash) (leaves : list Hash) (h n lift : nat).
Context (Hshape : block_shape leaves h n lift).
Context (parse : list byte -> Res MerklePath) (coinbaseTxID : option Hash) (cb : list byte).
Abbreviation T := (nodeAt parent leaves).
Abbreviation req := (requiredHeight h n lift).

(** The path the placement loop reads. *)
Definition applied (m : mergedStump) : MerklePath :=
  match coinbaseTxID with
  | Some t => if (ms_index m =? 0)%Z then applyCoinbaseToSTUMP parse parent (ms_path m) t cb else ms_path m
  | None => ms_path m
  end.

Record merged_ok (m : mergedStump) : Prop := {
  mo_index : (0 <= ms_index m < Z.of_nat n)%Z;
  mo_tall : (req (ms_index m) <= height (ms_path m))%nat;
  mo_placed : placed_ok h n lift T (ms_index m) (applied m)
}.

Lemma req_le i : (req i <= h)%nat.
Proof. unfold requiredHeight. destruct (_ =? _)%Z; lia. Qed.

(** What the placement loop has built from the STUMPs [pre]. *)
Record placement_ok (pre : list mergedStump) (H : nat) (c : MerklePath) (have : gset Z) : Prop := {
  pl_height : height c = H;
  pl_sound : sound T c;
  pl_have : ∀ i, i ∈ have ↔ ∃ m, m ∈ pre ∧ ms_index m = i;
  pl_has : ∀ m l o, m ∈ pre -> (l < req (ms_index m))%nat -> has (applied m) l o ->
           has c l (globalOffset h (ms_index m) l o)
}.

Lemma placeStump_ok pre H c have txids m :
  (h <= H)%nat -> placement_ok pre H c have -> merged_ok m ->
  ∃ c', placeStump parse parent h req coinbaseTxID cb (Ok (c, have, txids)) m
        = Ok (c', {[ms_index m]} ∪ have, txids ++ ms_txids m) ∧
    placement_ok (pre ++ [m]) H c' ({[ms_index m]} ∪ have).
Proof.
  intros HH [Eh Hs Hhv Hhas] [Hi Ht Hp]. unfold placeStump. fold (applied m).
  rewrite (proj2 (Nat.ltb_ge (length (mp_Path (ms_path m))) _) Ht). eexists. split; [done|].
  set (i := ms_index m) in *. set (levels := shiftLevels i h (take (req i) (mp_Path (applied m)))).
  pose proof (req_le i) as Hr.
  destruct (placeLevels_ok levels c) as [P1 P2].
  { unfold levels, shiftLevels. rewrite length_imap, length_take. lia. }
  assert (∀ l, default [] (levels !! l) = if decide (l < req i)%nat then List.map (globalElem h i l) (lev (applied m) l) else [])
    as Elev.
  { intros l. unfold levels. rewrite shiftLevels_lookup. case_decide as Hd.
    - rewrite lookup_take_lt by done. unfold lev. destruct (mp_Path (applied m) !! l) as [elems|] eqn:E; [|done]. simpl.
      apply list_fmap_ext. intros k e Ek. apply (shiftElem_global h n); [apply Hshape|done|].
      apply (po_elem _ _ _ _ _ _ Hp l e Hd). unfold lev. rewrite E. by eapply list_elem_of_lookup_2.
    - rewrite lookup_take_ge by lia. done. }
  split.
  - lia.
  - intros l e. rewrite P2, Elev. intros [He|He]%elem_of_app; [by apply Hs|]. case_decide as Hd; [|by apply elem_of_nil in He].
    apply list_elem_of_fmap in He as (e0 & -> & He0). by apply (po_elem _ _ _ _ _ _ Hp l e0 Hd).
  - intros j. rewrite elem_of_union, elem_of_singleton, Hhv. setoid_rewrite elem_of_app.
    setoid_rewrite list_elem_of_singleton. naive_solver.
  - intros m' l o [Hm|Hm]%elem_of_app Hl Ho; unfold has; rewrite P2, fmap_app, elem_of_app; [left; by apply Hhas|].
    apply list_elem_of_singleton in Hm as ->. right. fold i in Hl |- *. rewrite Elev, decide_True by done.
    apply list_elem_of_fmap in Ho as (e & -> & He). apply list_elem_of_fmap.
    exists (globalElem h i l e). split; [done|]. by apply list_elem_of_fmap_2.
Qed.

Lemma placeAll_ok merged bh :
  (∀ m, m ∈ merged -> merged_ok m) ->
  ∃ c have, foldl (placeStump parse parent h req coinbaseTxID cb)
      (Ok (mkMerklePath bh (replicate (h + Nat.log2_up n) []), ∅, [])) merged
    = Ok (c, have, concat (ms_txids <$> merged)) ∧ placement_ok merged (h + Nat.log2_up n) c have.
Proof.
  intros Hm.
  apply (foldl_ranged _ (fun pre st => ∃ c have, st = Ok (c, have, concat (ms_txids <$> pre)) ∧
    placement_ok pre (h + Nat.log2_up n) c have)).
  - do 2 eexists. split; [done|]. split.
    + unfold height. cbn [mp_Path]. by rewrite length_replicate.
    + intros l e He. unfold lev in He. cbn [mp_Path] in He. destruct (replicate _ _ !! l) as [x|] eqn:E; simpl in He.
      * apply lookup_replicate in E as [-> _]. by apply elem_of_nil in He.
      * by apply elem_of_nil in He.
    + intros i. split; [by intros ?%elem_of_empty|]. by intros (m & ?%elem_of_nil & _).
    + by intros m l o ?%elem_of_nil.
  - intros pre m post st E (c & have & -> & Hpl).
    destruct (placeStump_ok pre (h + Nat.log2_up n) c have (concat (ms_txids <$> pre)) m) as (c' & -> & Hpl');
      [lia|done|apply Hm; rewrite E; apply elem_of_app; right; by left|].
    do 2 eexists. split; [|done]. by rewrite fmap_app, concat_app; simpl; rewrite app_nil_r.
Qed.

(** *** The lifted final subtree *)

Abbreviation finalIdx := (Z.of_nat (n - 1)).

Lemma final_alone l : (h - lift <= l <= h)%nat -> T l (finalIdx * 2 ^ Z.of_nat (h - l) + 1) = None.
Proof.
  intros Hl. apply eq_None_not_Some. rewrite nodeAt_some. intros [_ Hlt]. destruct Hshape as [H2 Hlf Hm Hless Hf].
  apply inj_le in Hless. rewrite Nat2Z.inj_add, Nat2Z.inj_mul, !Nat2Z.inj_pow in Hless.
  replace (Z.of_nat h) with (Z.of_nat (h - l) + Z.of_nat l)%Z in Hless by lia. rewrite Z.pow_add_r in Hless by lia.
  assert (2 ^ Z.of_nat (h - lift) <= 2 ^ Z.of_nat l)%Z by (apply Z.pow_le_mono_r; lia). nia.
Qed.

Lemma shape_counts : counts T h n.
Proof.
  intros o. rewrite nodeAt_some. destruct Hshape as [H2 Hlf Hm Hless Hf].
  assert (2 ^ (h - lift) <= 2 ^ h)%nat as Hp by (apply Nat.pow_le_mono_r; lia).
  assert (Z.of_nat (length leaves) <= Z.of_nat n * 2 ^ Z.of_nat h)%Z as H3.
  { replace (2 ^ Z.of_nat h)%Z with (Z.of_nat (2 ^ h)) by apply Nat2Z.inj_pow. nia. }
  assert (Z.of_nat (n - 1) * 2 ^ Z.of_nat h < Z.of_nat (length leaves))%Z as H4.
  { replace (2 ^ Z.of_nat h)%Z with (Z.of_nat (2 ^ h)) by apply Nat2Z.inj_pow. nia. }
  assert (0 < 2 ^ Z.of_nat h)%Z by lia. split; intros [? ?]; split; try done; nia.
Qed.

Lemma final_lifted k x :
  (k <= lift)%nat -> T (h - lift) (finalIdx * 2 ^ Z.of_nat lift) = Some x ->
  T (h - lift + k) (finalIdx * 2 ^ Z.of_nat (lift - k)) = Some (Nat.iter k (fun a => parent a a) x).
Proof.
  intros Hk Ex. destruct Hshape as [H2 Hlf _ _ _]. induction k as [|k IH]; [by rewrite Nat.add_0_r, Nat.sub_0_r|].
  rewrite Nat.add_succ_r, nodeAt_S. specialize (IH ltac:(lia)).
  replace (2 * (finalIdx * 2 ^ Z.of_nat (lift - S k)))%Z with (finalIdx * 2 ^ Z.of_nat (lift - k))%Z.
  2:{ replace (Z.of_nat (lift - k)) with (1 + Z.of_nat (lift - S k))%Z by lia. rewrite Z.pow_add_r by lia. lia. }
  rewrite IH. pose proof (final_alone (h - lift + k) ltac:(lia)) as Hn.
  replace (h - (h - lift + k))%nat with (lift - k)%nat in Hn by lia. rewrite Hn. done.
Qed.

Lemma placeLift_ok c :
  (h < height c)%nat -> sound T c ->
  let r := placeLift h (h - lift) finalIdx c in
  height r = height c ∧ sound T r ∧ (∀ l o, has c l o -> has r l o) ∧
  ∀ l, (h - lift <= l < h)%nat -> has r l (globalOffset h finalIdx l 1).
Proof.
  intros Hh Hs. unfold placeLift.
  pose proof (foldl_seq (fun mp level => addLeaf mp level (dupElem (uint64 (shl64 finalIdx (h - level) + 1))))
    (fun k r => height r = height c ∧ sound T r ∧ (∀ l o, has c l o -> has r l o) ∧
       ∀ l, (h - lift <= l < k)%nat -> has r l (globalOffset h finalIdx l 1)) c (h - lift) (h - (h - lift))) as HP.
  replace (h - lift + (h - (h - lift)))%nat with h in HP by (destruct Hshape; lia). apply HP; clear HP.
  { split_and!; [done|done|done|intros; lia]. }
  intros k r Hk (R1 & R2 & R3 & R4).
  assert (dupElem (uint64 (shl64 finalIdx (h - k) + 1)) = dupElem (globalOffset h finalIdx k 1)) as E.
  { assert (1 < 2 ^ Z.of_nat (h - k))%Z as Hw by (apply Z.pow_gt_1; lia).
    assert (0 <= finalIdx < Z.of_nat n)%Z as Hf by (destruct Hshape; lia).
    pose proof (shiftElem_global h n finalIdx k (dupElem 1) (bs_fits _ _ _ _ Hshape) Hf ltac:(simpl; lia)) as Es.
    unfold shiftElem, globalElem in Es. injection Es as Es. simpl in Es. unfold dupElem. f_equal.
    rewrite <-Es. f_equal. lia. }
  rewrite E. split_and!.
  - rewrite addLeaf_height; lia.
  - apply addLeaf_sound; [done|]. apply elem_ok_dup.
    + unfold globalOffset. assert (0 <= 2 ^ Z.of_nat (h - k))%Z by lia. nia.
    + unfold globalOffset. replace (Z.of_nat (h - k)) with (1 + Z.of_nat (h - k - 1))%Z by lia.
      rewrite Z.pow_add_r, Z.even_add, !Z.even_mul by lia. simpl. by rewrite orb_true_r.
    + apply final_alone. lia.
  - intros l o Hl. apply addLeaf_has. left. auto.
  - intros l Hl. apply addLeaf_has. destruct (decide (l = k)) as [->|]; [by right|]. left. apply R4. lia.
Qed.

(** *** The subtree-root layer *)

(** The block's subtree hashes: the final one is the root of its own leaves,
    before the lift. *)
Record hashes_ok (hs : list Hash) : Prop := {
  ha_length : length hs = n;
  ha_full : ∀ i, (i < n - 1)%nat -> hs !! i = T h (Z.of_nat i);
  ha_final : hs !! (n - 1)%nat = T (h - lift) (finalIdx * 2 ^ Z.of_nat lift)
}.

Lemma lifted_root hs x : hashes_ok hs -> hs !! (n - 1)%nat = Some x -> T h finalIdx = Some (Nat.iter lift (fun a => parent a a) x).
Proof.
  intros [_ _ Hf] Ex. rewrite Hf in Ex. pose proof (final_lifted lift x (le_n _) Ex) as El.
  rewrite Nat.sub_diag in El. destruct Hshape as [_ Hl _ _ _].
  replace (h - lift + lift)%nat with h in El by lia. by rewrite Z.mul_1_r in El.
Qed.

(** What seeding reads of the subtree hashes: those of the slots not in [have]. *)
Definition seeds_ok (have : gset Z) (hs : list Hash) : Prop :=
  length hs = n ∧ ∀ i x, hs !! i = Some x -> Z.of_nat i ∉ have ->
    T h (Z.of_nat i) = Some (if (Z.of_nat i =? finalIdx)%Z then Nat.iter lift (fun a => parent a a) x else x).

Lemma hashes_seeds have hs : hashes_ok hs -> seeds_ok have hs.
Proof.
  intros Hhs. split; [apply Hhs|]. intros i x Ei _.
  pose proof (lookup_lt_Some _ _ _ Ei) as Hlt. rewrite (ha_length _ Hhs) in Hlt.
  destruct (Z.eqb_spec (Z.of_nat i) finalIdx) as [Ef|Hne].
  - rewrite Ef. apply (lifted_root hs); [done|]. by replace (n - 1)%nat with i by lia.
  - rewrite <-(ha_full _ Hhs) by lia. done.
Qed.

Lemma seedRoots_ok hs have c :
  (h < height c)%nat -> sound T c -> seeds_ok have hs ->
  let r := seedRoots parent h lift finalIdx have hs c in
  height r = height c ∧ sound T r ∧ (∀ l o, has c l o -> has r l o) ∧
  ∀ o, (0 <= o < Z.of_nat n)%Z -> o ∉ have -> has r h o.
Proof.
  intros Hh Hs Hhs. unfold seedRoots. set (items := imap _ hs).
  assert (∀ i x, (i, x) ∈ items ↔ hs !! i = Some x) as Hit.
  { intros i x. rewrite list_elem_of_lookup. unfold items. setoid_rewrite list_lookup_imap. split.
    - intros (k & Ek). destruct (hs !! k) as [y|] eqn:E; [|done]. simpl in Ek. by injection Ek as <- <-.
    - intros E. exists i. by rewrite E. }
  pose proof (foldl_ranged (fun mp '(i, subHash) => if bool_decide (Z.of_nat i ∈ have) then mp else
      let x := if (Z.of_nat i =? finalIdx)%Z then Nat.iter lift (fun h => parent h h) subHash else subHash in
      addLeaf mp h (hashElem (Z.of_nat i) x))
    (fun pre r => height r = height c ∧ sound T r ∧ (∀ l o, has c l o -> has r l o) ∧
       ∀ i x, (i, x) ∈ pre -> Z.of_nat i ∉ have -> has r h (Z.of_nat i)) c items) as (R1 & R2 & R3 & R4).
  { split_and!; [done|done|done|by intros i x ?%elem_of_nil]. }
  { intros pre [i x] post r E (R1 & R2 & R3 & R4). case_bool_decide as Hin.
    - split_and!; [done|done|done|]. intros j y [Hj|Hj]%elem_of_app; [by eapply R4|].
      apply list_elem_of_singleton in Hj as [= -> ->]. done.
    - cbv zeta. set (y := if (Z.of_nat i =? finalIdx)%Z then _ else x).
      assert (hs !! i = Some x) as Ei by (apply Hit; rewrite E; apply elem_of_app; right; by left).
      assert (T h (Z.of_nat i) = Some y) as Ey by (by apply Hhs).
      split_and!.
      + rewrite addLeaf_height; [done|lia].
      + apply addLeaf_sound; [done|by apply elem_ok_hash].
      + intros l o Hl. apply addLeaf_has. left. auto.
      + intros j z [Hj|Hj]%elem_of_app Hnin; apply addLeaf_has; [left; by eapply R4|].
        apply list_elem_of_singleton in Hj as [= -> ->]. by right. }
  split_and!; [done|done|done|]. intros o Ho Hnin.
  destruct (lookup_lt_is_Some_2 hs (Z.to_nat o)) as [x Ex]; [rewrite (proj1 Hhs); lia|].
  specialize (R4 (Z.to_nat o) x). rewrite Z2Nat.id in R4 by lia. apply R4; [by apply Hit|done].
Qed.

(** The leaves of the final subtree are below its natural capacity. *)
Lemma final_bound i p o :
  i = finalIdx -> (0 < req i)%nat -> placed_ok h n lift T i p -> has p 0 o -> (o < 2 ^ Z.of_nat (h - lift))%Z.
Proof.
  intros Ei Hreq Hp Ho. pose proof Hshape as [H2 Hl Hm Hless Hf].
  assert (req i = (h - lift)%nat) as Er by (unfold requiredHeight; by rewrite Ei, Z.eqb_refl).
  assert (∀ x, has p 0 x -> Z.even x = true -> (x < 2 ^ Z.of_nat (h - lift))%Z) as Heven.
  { intros x (e & -> & He)%list_elem_of_fmap Hev. destruct (po_elem _ _ _ _ _ _ Hp 0%nat e Hreq He) as [_ Hok].
    unfold elem_ok, globalElem, globalOffset in Hok. cbn [pe_Offset] in Hok. rewrite Nat.sub_0_r in Hok.
    destruct (isDuplicate _).
    - destruct Hok as (_ & _ & Ev & _). rewrite Z.even_add, Z.even_mul, Z.even_pow, Hev in Ev by lia.
      by rewrite orb_true_r in Ev.
    - destruct Hok as (y & _ & Ey). assert (is_Some (T 0 (i * 2 ^ Z.of_nat h + pe_Offset e))) as Hs by eauto.
      apply nodeAt_some in Hs as [_ Hs]. apply inj_le in Hless. rewrite Nat2Z.inj_add, Nat2Z.inj_mul, !Nat2Z.inj_pow in Hless.
      subst i. simpl (Z.of_nat 0) in Hs. rewrite Z.pow_0_r in Hs. change (Z.of_nat 2) with 2%Z in Hless. lia. }
  assert (0 <= o)%Z as Hge by (pose proof Ho as (e & -> & He)%list_elem_of_fmap; by apply (po_elem _ _ _ _ _ _ Hp 0%nat e)).
  destruct (halves o Hge) as (k & Hk & _ & [(E1 & E2 & Ev & _)|(E1 & E2 & Ev & _)]); [by apply Heven|].
  destruct (po_sib _ _ _ _ _ _ Hp o Ho 0%nat Hreq) as [Hs|(E & _)]; [|lia].
  rewrite Z.shiftr_0_r, E2 in Hs. apply Heven in Hs; [|by rewrite Z.even_mul].
  replace (Z.of_nat (h - lift)) with (1 + Z.of_nat (h - lift - 1))%Z in * by lia. rewrite Z.pow_add_r in * by lia. lia.
Qed.

(** *** The filled compound *)

Definition compoundOf (have : gset Z) (hs : list Hash) (c : MerklePath) : MerklePath :=
  computeAndPadCompound parent
    (seedRoots parent h lift finalIdx have hs
       (if (0 <? lift)%nat && bool_decide (finalIdx ∈ have) then placeLift h (h - lift) finalIdx c else c)) h n.

Lemma compoundOf_completed merged have hs c :
  placement_ok merged (h + Nat.log2_up n) c have -> hashes_ok hs ->
  let r := compoundOf have hs c in
  ∃ c0, completed T h c0 r (height r - 1) ∧ height r = (h + Nat.log2_up n)%nat ∧
    (∀ l o, has c l o -> has r l o) ∧
    (finalIdx ∈ have -> ∀ l, (h - lift <= l < h)%nat -> has r l (globalOffset h finalIdx l 1)) ∧
    (∀ o, (0 <= o < Z.of_nat n)%Z -> o ∉ have -> has r h o).
Proof.
  intros [Eh Hs Hhv Hhas] Hhs r.
  assert (0 < Nat.log2_up n)%nat as Hr by (apply Nat.log2_up_pos; destruct Hshape; lia).
  set (c1 := if (0 <? lift)%nat && bool_decide (finalIdx ∈ have) then placeLift h (h - lift) finalIdx c else c).
  assert (height c1 = height c ∧ sound T c1 ∧ (∀ l o, has c l o -> has c1 l o) ∧
    (finalIdx ∈ have -> ∀ l, (h - lift <= l < h)%nat -> has c1 l (globalOffset h finalIdx l 1))) as (C1 & C2 & C3 & C4).
  { unfold c1. destruct (placeLift_ok c) as (L1 & L2 & L3 & L4); [lia|done|].
    destruct (Nat.ltb_spec 0 lift); [case_bool_decide|]; cbn [andb]; split_and!; try done; intros; lia. }
  destruct (seedRoots_ok hs have c1) as (S1 & S2 & S3 & S4); [lia|done|by apply hashes_seeds|].
  pose proof (compound_completed parent T (nodeAt_tree _ _) h n _ S2 shape_counts) as Hc.
  unfold r, compoundOf. fold c1. set (c2 := seedRoots _ _ _ _ _ _ c1) in *.
  exists c2. rewrite <-(c_height _ _ _ _ _ Hc) in Hc. pose proof (c_has _ _ _ _ _ Hc) as Hm.
  split_and!; [done|rewrite (c_height _ _ _ _ _ Hc); lia|auto|auto|auto].
Qed.

(** The siblings of a placed leaf below the subtree-root layer. *)
Lemma leaf_siblings merged have hs c m o :
  placement_ok merged (h + Nat.log2_up n) c have -> hashes_ok hs ->
  m ∈ merged -> merged_ok m -> (0 < req (ms_index m))%nat -> has (applied m) 0 o ->
  let g := globalOffset h (ms_index m) 0 o in
  (0 <= o < 2 ^ Z.of_nat h)%Z ∧ has (compoundOf have hs c) 0 g ∧
  ∀ l, (l < h)%nat -> has (compoundOf have hs c) l (Z.lxor (Z.shiftr g (Z.of_nat l)) 1).
Proof.
  intros Hpl Hhs Hin [Hi Ht Hp] Hreq Ho g. set (i := ms_index m) in *.
  destruct (compoundOf_completed merged have hs c Hpl Hhs) as (c0 & Hc & Hh & Hm & Hlift & _).
  set (r := compoundOf have hs c) in *. clearbody r.
  assert (0 <= o < 2 ^ Z.of_nat (h - 0))%Z as Hob.
  { pose proof Ho as (e & -> & He)%list_elem_of_fmap. by apply (po_elem _ _ _ _ _ _ Hp 0%nat e). }
  rewrite Nat.sub_0_r in Hob.
  assert (∀ l x, (l < req i)%nat -> has (applied m) l x -> has r l (globalOffset h i l x)) as Hg
    by (intros l x Hl Hx; by apply Hm, (pl_has _ _ _ _ Hpl)).
  assert (has r 0 g) as H0 by (by apply Hg). split_and!; [lia|lia|done|].
  assert (0 < Nat.log2_up n)%nat as Hr by (apply Nat.log2_up_pos; destruct Hshape; lia).
  intros l Hl. unfold g. rewrite shiftr_global, lxor_global by (rewrite ?Z.shiftr_nonneg; lia).
  destruct (decide (l < req i)%nat) as [Hlr|Hlr].
  - destruct (po_sib _ _ _ _ _ _ Hp o Ho l Hlr) as [Hs|(Ei & -> & H00 & Hk)]; [by apply Hg|].
    rewrite Ei. change (globalOffset h 0 l 0) with 0%Z.
    assert (req i = h) as Er.
    { unfold requiredHeight. rewrite Ei, (proj2 (Z.eqb_neq _ _)); [done|]. destruct Hshape; lia. }
    assert (∀ k x, (k < h)%nat -> has (applied m) k x -> has r k x) as Hg0.
    { intros k x Hkh Hx. specialize (Hg k x ltac:(lia) Hx). by rewrite Ei in Hg. }
    pose proof (spine_present T h c0 r l 0 (completed_upto T h c0 r (height r - 1) l Hc ltac:(lia)) (Hg0 0%nat 0%Z ltac:(lia) H00)) as Hsp.
    rewrite <-(Z.shiftr_0_l (Z.of_nat l)). apply Hsp; [|done]. intros k Hkl. rewrite Z.shiftr_0_l.
    apply Hg0; [lia|]. apply Hk. lia.
  - unfold requiredHeight in Hlr, Hreq. destruct (Z.eqb_spec i finalIdx) as [Ef|]; [|lia].
    assert (finalIdx ∈ have) as Hf by (apply (pl_have _ _ _ _ Hpl); exists m; by rewrite <-Ef).
    assert (Z.shiftr o (Z.of_nat l) = 0%Z) as ->; [|rewrite Ef; apply Hlift; [done|lia]].
    rewrite Z.shiftr_div_pow2 by lia. apply Z.div_small. split; [lia|].
    assert (o < 2 ^ Z.of_nat (h - lift))%Z; [|eapply Z.lt_le_trans; [done|apply Z.pow_le_mono_r; lia]].
    apply (final_bound i (applied m)); [done| |done|done]. unfold requiredHeight. rewrite Ef, Z.eqb_refl. lia.
Qed.

Lemma shape_height : Nat.log2_up (length leaves) = (h + Nat.log2_up n)%nat.
Proof.
  destruct Hshape as [H2 Hl Hm Hless _]. destruct (Nat.log2_up_spec n ltac:(lia)) as [Hlo Hup].
  assert (0 < Nat.log2_up n)%nat as Hr by (apply Nat.log2_up_pos; lia).
  assert (2 ^ (h - lift) <= 2 ^ h)%nat as Hp by (apply Nat.pow_le_mono_r; lia).
  apply Nat.log2_up_unique; [lia|]. rewrite !Nat.pow_add_r.
  replace (Nat.pred (h + Nat.log2_up n)) with (h + Nat.pred (Nat.log2_up n))%nat by lia.
  rewrite Nat.pow_add_r. assert (0 < 2 ^ h)%nat by (apply Nat.neq_0_lt_0, Nat.pow_nonzero; lia). nia.
Qed.

Lemma root_node : merkleRoot parent leaves = T (h + Nat.log2_up n) 0.
Proof. by rewrite merkleRoot_node, shape_height. Qed.

Lemma compoundOf_verifies merged have hs c m o tx :
  placement_ok merged (h + Nat.log2_up n) c have -> hashes_ok hs ->
  (∀ m, m ∈ merged -> merged_ok m ∧ (0 < req (ms_index m))%nat) ->
  m ∈ merged -> has (applied m) 0 o -> T 0 (globalOffset h (ms_index m) 0 o) = Some tx ->
  rootOf parent (compoundOf have hs c) (globalOffset h (ms_index m) 0 o) tx = merkleRoot parent leaves.
Proof.
  intros Hpl Hhs Hall Hm Ho Etx. rewrite root_node.
  destruct (compoundOf_completed merged have hs c Hpl Hhs) as (c0 & Hc & Hh & _ & _ & Hseed).
  assert (0 < Nat.log2_up n)%nat as Hr by (apply Nat.log2_up_pos; destruct Hshape; lia).
  apply (completed_verifies parent T (nodeAt_tree _ _) h n c0); [done|done|apply Hshape|apply shape_counts| |done|].
  - intros i Hi%shape_counts. destruct (decide (i ∈ have)) as [Hin|Hnin]; [|by apply Hseed].
    apply (pl_have _ _ _ _ Hpl) in Hin as (m' & Hm' & Ei). destruct (Hall m' Hm') as [Hok Hreq].
    destruct (po_leaf _ _ _ _ _ _ (mo_placed _ Hok)) as (o' & Ho').
    destruct (leaf_siblings merged have hs c m' o' Hpl Hhs Hm' Hok Hreq Ho') as (Hb & H0 & Hsib).
    pose proof (spine_present T h c0 _ h _ (completed_upto T h c0 _ _ h Hc ltac:(lia)) H0 Hsib h (le_n h)) as Hsp.
    rewrite shiftr_global in Hsp by lia. unfold globalOffset in Hsp.
    rewrite Nat.sub_diag, Z.shiftr_div_pow2, Z.div_small, Ei, Z.mul_1_r, Z.add_0_r in Hsp by lia. done.
  - intros l Hl. destruct (Hall m Hm) as [Hok Hreq]. by apply (leaf_siblings merged have hs c m o).
Qed.

(** *** Deriving the lift *)

(** The subtree-root layer the header commits to, with the final root lifted
    [k] times. *)
Definition liftedLayer (hs : list Hash) (k : nat) : list Hash :=
  removelast hs ++ option_list (Nat.iter k (fun a => parent a a) <$> last hs).

Lemma layer_is_level hs : hashes_ok hs -> liftedLayer hs lift = merkleLevel parent leaves h.
Proof.
  intros Hhs. pose proof Hhs as [Hlen Hfull _]. pose proof (bs_two _ _ _ _ Hshape) as H2.
  destruct (exists_last (l := hs)) as (pre & x & E); [by intros ->; simpl in Hlen; lia|]. subst hs.
  rewrite length_app in Hlen. simpl in Hlen. unfold liftedLayer. rewrite removelast_last, last_snoc. simpl.
  assert (∀ i, (i < n)%nat -> merkleLevel parent leaves h !! i = T h (Z.of_nat i)) as Hlev.
  { intros i Hi. unfold nodeAt. rewrite (proj2 (Z.ltb_ge _ _)) by lia. by rewrite Nat2Z.id. }
  assert (length (merkleLevel parent leaves h) = n) as El.
  { apply (counts_inj T h); [|apply shape_counts]. intros o. split.
    - intros Ho. unfold nodeAt in Ho. destruct (Z.ltb_spec o 0); [by destruct Ho|].
      apply lookup_lt_is_Some in Ho. lia.
    - intros Ho. unfold nodeAt. rewrite (proj2 (Z.ltb_ge _ _)) by lia. apply lookup_lt_is_Some. lia. }
  apply list_eq. intros i. destruct (decide (i < n)%nat) as [Hi|Hi].
  - rewrite Hlev by done. destruct (decide (i = n - 1)%nat) as [->|Hne].
    + assert (n - 1 = length pre)%nat as En by lia.
      rewrite (lifted_root _ x Hhs), En; [by rewrite list_lookup_middle|]. rewrite En. by rewrite list_lookup_middle.
    + rewrite <-Hfull by lia. by rewrite !lookup_app_l by lia.
  - rewrite !lookup_ge_None_2; [done|lia|rewrite length_app; simpl; lia].
Qed.

Lemma topTreeRoot_layer hs : hashes_ok hs -> topTreeRoot parent (liftedLayer hs lift) = merkleRoot parent leaves.
Proof.
  intros Hhs. rewrite layer_is_level by done. pose proof (bs_two _ _ _ _ Hshape) as H2.
  assert (length (merkleLevel parent leaves h) = n) as El.
  { rewrite <-(layer_is_level hs Hhs). unfold liftedLayer. destruct Hhs as [Hlen _ _].
    destruct (exists_last (l := hs)) as (pre & x & ->); [by intros ->; simpl in Hlen; lia|].
    rewrite removelast_last, last_snoc. simpl. by rewrite !length_app in *. }
  rewrite topTreeRoot_merkle by (intros E; rewrite E in El; simpl in El; lia).
  rewrite root_node, merkleRoot_node, El. by rewrite nodeAt_shift.
Qed.

Lemma liftLoop_ok pre x root k j :
  (k <= j)%nat -> topTreeRoot parent (pre ++ [Nat.iter j (fun a => parent a a) x]) = Some root ->
  (∀ i, (k <= i < j)%nat -> topTreeRoot parent (pre ++ [Nat.iter i (fun a => parent a a) x]) ≠ Some root) ->
  ∀ fuel, (j < k + fuel)%nat -> liftLoop parent pre (Nat.iter k (fun a => parent a a) x) root fuel k = j.
Proof.
  intros Hk Hj Hlt fuel. revert k Hk Hlt. induction fuel as [|fuel IH]; intros k Hk Hlt Hf; [lia|]. cbn [liftLoop].
  destruct (decide (k = j)) as [->|Hne]; [by rewrite bool_decide_eq_true_2|].
  rewrite bool_decide_eq_false_2 by (apply Hlt; lia).
  apply (IH (S k)); [lia|intros i Hi; apply Hlt; lia|lia].
Qed.

(** The header the caller passes: none for a block without a lift, or the
    block's root, no smaller lift of whose final subtree gives the same root. *)
Definition header_ok (hs : list Hash) (header : option Hash) : Prop :=
  match header with
  | None => lift = 0%nat
  | Some root => merkleRoot parent leaves = Some root ∧
                 ∀ k, (k < lift)%nat -> topTreeRoot parent (liftedLayer hs k) ≠ Some root
  end.

Lemma deriveFinalSubtreeLift_ok hs header :
  hashes_ok hs -> header_ok hs header -> deriveFinalSubtreeLift parent hs h header = lift.
Proof.
  intros Hhs Hh. unfold deriveFinalSubtreeLift. destruct header as [root|]; [|by rewrite Hh].
  pose proof (topTreeRoot_layer hs Hhs) as Htop. destruct Hh as [Hr Hno]. rewrite Hr in Htop.
  destruct Hhs as [Hlen _ _]. pose proof Hshape as [H2 Hl _ _ _]. unfold liftedLayer in *.
  destruct (last hs) as [x|] eqn:El; [|apply last_None in El; subst hs; simpl in Hlen; lia].
  rewrite (proj2 (Nat.ltb_ge _ _)) by lia. simpl in Htop, Hno.
  apply (liftLoop_ok _ x root 0 lift); [lia|done|intros i Hi; apply Hno; lia|lia].
Qed.
End Compound.

(** ** Leaves survive the coinbase substitution *)

Lemma apply_proj {A} (f : PathElement -> A) parse parent p t cb :
  (∀ x e, f (setHash x e) = f e) -> f <$> lev (applyCoinbaseToSTUMP parse parent p t cb) 0 = f <$> lev p 0.
Proof.
  intros Hf. unfold applyCoinbaseToSTUMP. destruct (mp_Path p) as [|level0 rest] eqn:Ep; [done|].
  destruct (existsb _ level0).
  - unfold lev. rewrite Ep. by apply (updateFirst_proj f).
  - destruct (parse cb) as [cbPath|]; [|done]. by apply replaceSpine_proj.
Qed.

Lemma apply_leaves parse parent p t cb o : has p 0 o -> has (applyCoinbaseToSTUMP parse parent p t cb) 0 o.
Proof. unfold has. by rewrite apply_proj. Qed.

(** ** The whole function *)
Section Main.
Context (parse : list byte -> Res MerklePath) (Bytes : MerklePath -> list byte).
Context (parent : Hash -> Hash -> Hash) (ComputeRoot : MerklePath -> Hash -> Res Hash) (HashString : Hash -> string).
Context `{SortFunc}.
Context (leaves : list Hash) (h n lift : nat) (over : Z -> nat -> Z -> Hash).
Abbreviation T := (nodeAt parent leaves).
Abbreviation req := (requiredHeight h n lift).

(** The block data the caller passes: without a coinbase BUMP the subtree
    hashes are those of the block and the first STUMP tells their height;
    with one, the first subtree hash and the STUMPs of subtree 0 are computed
    over a placeholder in place of the coinbase.  The last two arguments are
    the leaves the STUMPs were computed over and the corrected hashes. *)
Inductive inputs_ok (stumps : list Stump) (hs : list Hash) (cb : list byte) : list Hash -> list Hash -> Prop :=
| inputs_plain e :
    cb = [] -> parse [] = Err e -> hashes_ok parent leaves h n lift hs ->
    (∀ st p, head stumps = Some st -> parse (stump_StumpData st) = Ok p -> height p = h) ->
    inputs_ok stumps hs cb leaves hs
| inputs_coinbase cbPath placeholder root0 :
    cb ≠ [] -> parse cb = Ok cbPath -> coinbase_ok parent leaves h n cbPath -> T h 0 = Some root0 ->
    hashes_ok parent leaves h n lift (<[0%nat := root0]> hs) ->
    inputs_ok stumps hs cb (<[0%nat := placeholder]> leaves) (<[0%nat := root0]> hs).

Definition stumps_ok (stumps : list Stump) (leaves0 : list Hash) : Prop :=
  ∀ st, st ∈ stumps -> (0 <= stump_SubtreeIndex st < Z.of_nat n)%Z ∧ (0 < req (stump_SubtreeIndex st))%nat ∧
    ∃ p, parse (stump_StumpData st) = Ok p ∧
         stump_ok h n lift (nodeAt parent leaves0) over (stump_SubtreeIndex st) p.

(** The STUMPs the variant filter keeps. *)
Definition kept (stumps : list Stump) (hs' : list Hash) (cb : list byte) : list Stump :=
  dropVariantsOffSubtreeRoot parse parent ComputeRoot stumps hs' req (extractCoinbaseTxID parse cb) cb.

Lemma kept_sub stumps hs' cb st : st ∈ kept stumps hs' cb -> st ∈ stumps.
Proof. unfold kept, dropVariantsOffSubtreeRoot. rewrite !list_elem_of_In. by intros [? _]%List.filter_In. Qed.

Context (Hshape : block_shape leaves h n lift).

Lemma stumps_height stumps leaves0 : stumps ≠ [] -> stumps_ok stumps leaves0 -> (0 < h)%nat.
Proof.
  intros Hne Hs. destruct stumps as [|st ss]; [done|]. destruct (Hs st) as (_ & Hr & _); [by left|].
  pose proof (req_le h n lift (stump_SubtreeIndex st)). lia.
Qed.

(** What the prologue of [BuildCompoundBUMP] works out. *)
Lemma inputs_prologue stumps hs cb leaves0 hs' st p :
  inputs_ok stumps hs cb leaves0 hs' -> (0 < h)%nat -> head stumps = Some st -> parse (stump_StumpData st) = Ok p ->
  length hs' = n ∧ hashes_ok parent leaves h n lift hs' ∧
  (match extractCoinbaseTxID parse cb with
   | Some _ => match correctedSubtree0Root parse parent cb (length hs) with
               | Some root => <[0%nat := root]> hs | None => hs end
   | None => hs end) = hs' ∧
  (match parse cb with
   | Ok cbPath => if (Nat.log2_up n <? length (mp_Path cbPath))%nat
                  then (length (mp_Path cbPath) - Nat.log2_up n)%nat else length (mp_Path p)
   | Err _ => length (mp_Path p) end) = h.
Proof.
  intros Hin Hh Hhead Hp. destruct Hin as [e -> Ee Hhs Hfirst|cbPath ph root0 Hcb Ecb Hok Er Hhs].
  - unfold extractCoinbaseTxID. rewrite Ee. split_and!; [apply Hhs|done|done|]. by apply (Hfirst st p).
  - pose proof (cb_tall _ _ _ _ _ Hok) as Ht. unfold height in Ht.
    assert (length hs = n) as Elen by (rewrite <-(ha_length _ _ _ _ _ _ Hhs); by rewrite length_insert).
    split_and!; [apply Hhs|done| |].
    + assert (extractCoinbaseTxID parse cb = T 0 0) as ->.
      { unfold extractCoinbaseTxID. destruct cb; [done|]. rewrite Ecb. by apply (coinbaseLeaf_ok _ _ h n). }
      destruct (shape_leaf parent leaves h n lift Hshape 0 0) as [t Et];
        [lia|lia|apply Z.mul_pos_pos; [lia|destruct Hshape; lia]|].
      rewrite Et. unfold correctedSubtree0Root, ceilLog2. rewrite Ecb, Ht, Elen.
      rewrite (proj2 (Nat.eqb_neq _ _)) by lia. rewrite (proj2 (Z.leb_gt _ _)) by lia.
      replace (Z.to_nat _) with h by lia. unfold subtree0RootFromCoinbaseBUMP. destruct cb; [done|].
      rewrite (proj2 (Nat.eqb_neq _ _)), Ecb, Ht, (proj2 (Nat.ltb_ge _ _)) by lia.
      rewrite (coinbaseLeaf_ok parent leaves h n cbPath Hok), Et.
      rewrite (foldSpine_ok parent leaves h n lift Hshape cbPath Hok h 0 t Et (le_n _)). simpl. by rewrite Er.
    + rewrite Ecb, Ht. rewrite (proj2 (Nat.ltb_lt _ _)) by lia. lia.
Qed.

(** The txids of a path: what its leaves hash to, each once. *)
Lemma level0TxIDs_elem (path : MerklePath) id :
  id ∈ level0TxIDs HashString path ↔ ∃ e x, e ∈ lev path 0 ∧ pe_Hash e = Some x ∧ HashString x = id.
Proof.
  transitivity (id ∈ (HashString <$> omap pe_Hash (lev path 0))).
  2: { rewrite list_elem_of_fmap. setoid_rewrite list_elem_of_omap. split; [intros (x & -> & e & ? & ?); by exists e, x|intros (e & x & ? & ? & <-); eauto]. }
  unfold level0TxIDs, lev. destruct (mp_Path path) as [|level0 rest]; [done|]. cbn [lookup list_lookup default].
  assert (∀ hs seen out, (∀ y, y ∈ seen ↔ y ∈ out) -> id ∈ (foldl (fun '(seen, out) h => let id := HashString h in
      if bool_decide (id ∈ (seen : gset string)) then (seen, out) else ({[id]} ∪ seen, out ++ [id])) (seen, out) hs).2 ↔ id ∈ out ∨ id ∈ HashString <$> hs) as Hf.
  { induction hs as [|x hs IH]; intros seen out Hs; cbn [foldl fmap list_fmap]; [split; [by left|by intros [?|?%elem_of_nil]]|].
    cbv zeta. case_bool_decide as Hd.
    - rewrite IH by done. rewrite elem_of_cons. split; [intros [?|?]; auto|]. intros [?|[->|?]]; auto. left. by apply Hs.
    - rewrite IH by (intros y; rewrite elem_of_union, elem_of_app, Hs, elem_of_singleton, list_elem_of_singleton; tauto).
      rewrite elem_of_app, list_elem_of_singleton, elem_of_cons. tauto. }
  rewrite Hf by set_solver. split; [by intros [?%elem_of_nil|?]|by right].
Qed.

(** ... which for a correct path are the leaves at its offsets. *)
Lemma stump_txids T0 i p id :
  stump_ok h n lift T0 over i p -> (0 < req i)%nat ->
  id ∈ level0TxIDs HashString p ↔ ∃ o x, has p 0 o ∧ T0 0%nat (globalOffset h i 0 o) = Some x ∧ HashString x = id.
Proof.
  intros Hok Hr. rewrite level0TxIDs_elem. split.
  - intros (e & x & He & Ex & <-). destruct (stump_node _ _ _ _ _ _ _ _ _ Hok He) as (Hn & _). destruct (Hn Hr) as [_ Hel].
    destruct (elem_ok_hashed _ _ (globalElem h i 0 e) x Hel Ex) as [_ Et]. exists (pe_Offset e), x. split_and!; [|exact Et|done].
    unfold has. apply list_elem_of_fmap. by exists e.
  - intros (o & x & (e & -> & He)%list_elem_of_fmap & Et & <-). destruct (stump_node _ _ _ _ _ _ _ _ _ Hok He) as (Hn & _). destruct (Hn Hr) as [_ Hel].
    exists e, x. split_and!; [done| |done]. unfold elem_ok in Hel. change (pe_Offset (globalElem h i 0 e)) with (globalOffset h i 0 (pe_Offset e)) in Hel. rewrite Et in Hel.
    destruct (isDuplicate _); [by destruct Hel as (_ & _ & _ & ?)|]. destruct Hel as (y & Ey & [= ->]). exact Ey.
Qed.

(** *** The variant filter *)

Definition variantOk (stumps : list Stump) (hs' : list Hash) (cb : list byte) (st : Stump) : bool :=
  variantMatches parse parent ComputeRoot stumps hs' req (extractCoinbaseTxID parse cb) cb st.

Lemma kept_iff stumps hs' cb st : st ∈ kept stumps hs' cb ↔ st ∈ stumps
  ∧ ((∀ s, s ∈ stumps -> stump_SubtreeIndex s = stump_SubtreeIndex st -> variantOk stumps hs' cb s = false) ∨ variantOk stumps hs' cb st = true).
Proof.
  unfold kept, dropVariantsOffSubtreeRoot. fold (variantOk stumps hs' cb). rewrite list_elem_of_In, List.filter_In, <-list_elem_of_In.
  apply and_iff_compat_l. rewrite negb_true_iff, andb_false_iff, negb_false_iff, andb_false_iff.
  assert (existsb (fun s => sameIndex st s && variantOk stumps hs' cb s) stumps = false ↔
    ∀ s, s ∈ stumps -> stump_SubtreeIndex s = stump_SubtreeIndex st -> variantOk stumps hs' cb s = false) as He.
  { rewrite <-not_true_iff_false, existsb_exists. split.
    - intros Hn s Hs Ei. apply not_true_is_false. intros Hv. apply Hn. exists s. split; [by apply list_elem_of_In|]. unfold sameIndex. by rewrite Ei, Z.eqb_refl.
    - intros Hn (s & Hs & [Ei%Z.eqb_eq Hv]%andb_true_iff). rewrite (Hn s) in Hv; [done|by apply list_elem_of_In|done]. }
  rewrite He. split; [|intros [?|?]; auto]. intros [[Hlen|?]|?]; [left|by left|by right]. intros s Hs Ei. unfold variantOk, variantMatches.
  assert (List.filter (sameIndex s) stumps = List.filter (sameIndex st) stumps) as ->.
  { apply List.filter_ext. intros x. unfold sameIndex. by rewrite Ei. }
  apply Nat.leb_gt in Hlen. by rewrite (proj2 (Nat.ltb_lt _ 2) Hlen).
Qed.

Lemma kept_each stumps hs' cb st : st ∈ stumps -> ∃ s, s ∈ kept stumps hs' cb ∧ stump_SubtreeIndex s = stump_SubtreeIndex st.
Proof.
  intros Hst. destruct (List.find (fun s => sameIndex st s && variantOk stumps hs' cb s) stumps) as [s|] eqn:E.
  - apply find_some in E as [Hs [Ei%Z.eqb_eq Hv]%andb_true_iff]. exists s. split; [|done]. apply kept_iff. split; [by apply list_elem_of_In|by right].
  - exists st. split; [|done]. apply kept_iff. split; [done|]. left. intros s Hs Ei. apply list_elem_of_In in Hs.
    pose proof (find_none _ _ E s Hs) as Hn. cbn in Hn. unfold sameIndex in Hn. by rewrite Ei, Z.eqb_refl in Hn.
Qed.

(** Every union of kept STUMPs is placed correctly. *)
Lemma merged_placed stumps hs cb leaves0 hs' sub m :
  inputs_ok stumps hs cb leaves0 hs' -> (0 < h)%nat -> stumps_ok sub leaves0 ->
  union_of parse (node_ok h n lift (nodeAt parent leaves0) over) sub (ms_index m) (ms_path m) ->
  merged_ok parent leaves h n lift parse (extractCoinbaseTxID parse cb) cb m ∧ (0 < req (ms_index m))%nat.
Proof.
  intros Hin Hh Hs Hu. destruct (uo_some _ _ _ _ _ Hu) as (q & st & Hst & Ei & Eq).
  destruct (Hs st Hst) as (Hi & Hr & _). rewrite Ei in Hi, Hr. split; [|done].
  assert (stump_ok h n lift (nodeAt parent leaves0) over (ms_index m) (ms_path m)) as Hok.
  { apply (union_stump_ok h n lift _ _ parse sub); [|done]. intros p (s & Hin' & Es & Ep).
    destruct (Hs s Hin') as (_ & _ & p' & Ep' & Hp'). rewrite Ep in Ep'. injection Ep' as <-. by rewrite <-Es. }
  split; [done|apply Hok|]. unfold applied. destruct Hin as [e -> Ee _ _|cbPath ph root0 Hcb Ecb Hcok Er _].
  - simpl. by eapply stump_placed.
  - assert (extractCoinbaseTxID parse cb = T 0 0) as ->.
    { unfold extractCoinbaseTxID. destruct cb; [done|]. rewrite Ecb. by apply (coinbaseLeaf_ok _ _ h n). }
    destruct (shape_leaf parent leaves h n lift Hshape 0 0) as [t Et];
      [lia|lia|apply Z.mul_pos_pos; [lia|destruct Hshape; lia]|].
    rewrite Et. destruct (Z.eqb_spec (ms_index m) 0) as [E0|Hne].
    + rewrite E0 in *. by eapply (apply_placed parent leaves h n lift Hshape cbPath Hcok ph t Et over).
    + eapply stump_placed; [|done]. intros l e Hl He. apply elem_ok_off_spine. unfold globalElem, globalOffset. simpl.
      destruct (stump_node _ _ _ _ _ _ _ _ _ Hok He) as (Hn & _). destruct (Hn Hl) as [Hb _].
      assert (0 < 2 ^ Z.of_nat (h - l))%Z by lia. nia.
Qed.

Lemma leaf_node ls g : (0 <= g)%Z -> nodeAt parent ls 0 g = ls !! Z.to_nat g.
Proof. intros Hg. unfold nodeAt. by rewrite (proj2 (Z.ltb_ge _ _) Hg). Qed.

Lemma kept_offset stumps leaves0 hs' cb st p o :
  stumps_ok (kept stumps hs' cb) leaves0 -> st ∈ kept stumps hs' cb -> parse (stump_StumpData st) = Ok p -> has p 0 o ->
  (0 <= globalOffset h (stump_SubtreeIndex st) 0 o)%Z.
Proof.
  intros Hks Hst Ep Ho. destruct (Hks st Hst) as (Hi & Hr & p' & Ep' & Hok). rewrite Ep in Ep'. injection Ep' as <-.
  apply list_elem_of_fmap in Ho as (e & -> & He). destruct (stump_node _ _ _ _ _ _ _ _ _ Hok He) as (Hn & _). destruct (Hn Hr) as [Hb _].
  unfold globalOffset. assert (0 < 2 ^ Z.of_nat (h - 0))%Z by lia. nia.
Qed.

(** The txids of the merged STUMPs are those of the kept ones. *)
Lemma merged_txids stumps hs' cb leaves0 (merged : list mergedStump) id :
  stumps_ok (kept stumps hs' cb) leaves0 ->
  (∀ m, m ∈ merged -> union_of parse (node_ok h n lift (nodeAt parent leaves0) over) (kept stumps hs' cb) (ms_index m) (ms_path m)
     ∧ ms_txids m = level0TxIDs HashString (ms_path m)) ->
  (∀ st, st ∈ kept stumps hs' cb -> ∃ m, m ∈ merged ∧ ms_index m = stump_SubtreeIndex st) ->
  id ∈ concat (ms_txids <$> merged) ↔ ∃ st p o x, st ∈ kept stumps hs' cb ∧ parse (stump_StumpData st) = Ok p ∧ has p 0 o
    ∧ leaves0 !! Z.to_nat (globalOffset h (stump_SubtreeIndex st) 0 o) = Some x ∧ id = HashString x.
Proof.
  intros Hks Hmu Hma. set (Q := fun m o x => has (ms_path m) 0 o ∧ nodeAt parent leaves0 0 (globalOffset h (ms_index m) 0 o) = Some x ∧ HashString x = id).
  assert (∀ m, m ∈ merged -> id ∈ ms_txids m ↔ ∃ o x, Q m o x) as Hids.
  { intros m Hm. destruct (Hmu m Hm) as [Hu ->]. destruct (uo_some _ _ _ _ _ Hu) as (q & s & Hs & Es & _). destruct (Hks s Hs) as (_ & Hr & _). rewrite Es in Hr.
    apply stump_txids; [|done]. apply (union_stump_ok h n lift _ _ parse (kept stumps hs' cb)); [|done]. intros p (s' & Hin' & Es' & Ep).
    destruct (Hks s' Hin') as (_ & _ & p' & Ep' & Hp'). rewrite Ep in Ep'. injection Ep' as <-. by rewrite <-Es'. }
  rewrite list_elem_of_In, in_concat. split.
  - intros (l & Hl & Hid). apply list_elem_of_In, list_elem_of_fmap in Hl as (m & -> & Hm). apply list_elem_of_In, (Hids m Hm) in Hid as (o & x & Ho & Ex & <-).
    destruct (Hmu m Hm) as [Hu _]. destruct (uo_from _ _ _ _ _ Hu 0%nat o Ho) as (p & (s & Hs & Es & Ep) & Hpo). exists s, p, o, x. rewrite <-Es in Ex.
    split_and!; try done. rewrite <-leaf_node; [done|by eapply kept_offset].
  - intros (s & p & o & x & Hs & Ep & Ho & Ex & ->). destruct (Hma s Hs) as (m & Hm & Ei). exists (ms_txids m).
    split; [by apply list_elem_of_In, list_elem_of_fmap_2|]. apply list_elem_of_In, (Hids m Hm). destruct (Hmu m Hm) as [Hu _]. exists o, x. unfold Q. rewrite Ei.
    split_and!; [apply (uo_in _ _ _ _ _ Hu p); [by exists s|done]| |done]. rewrite leaf_node; [done|by eapply kept_offset].
Qed.

Lemma leaf_of_block stumps hs cb leaves0 hs' k x :
  inputs_ok stumps hs cb leaves0 hs' -> leaves0 !! k = Some x -> ∃ tx, leaves !! k = Some tx ∧ (tx = x ∨ cb ≠ [] ∧ k = 0%nat).
Proof.
  intros [e _ _ _ _|cbPath ph root0 Hcb _ _ _ _] Ex; [exists x; auto|]. destruct (decide (k = 0%nat)) as [->|Hne].
  - destruct leaves as [|a ls]; [done|]. exists a. auto.
  - rewrite list_lookup_insert_ne in Ex by done. exists x. auto.
Qed.

(** C23: the compound BUMP is a proof.  Take any block of at least two subtrees
    (all full but the last, which may be lifted) and any STUMPs of subtrees of
    a height above zero that are correct paths of them (several variants per
    subtree included, over-tall ones included; a final subtree of a single
    transaction is of height zero, so a block that has a STUMP for it is
    excluded), with or without a coinbase BUMP.  Then [BuildCompoundBUMP]
    succeeds; the txids it returns are exactly those of the leaves of the
    STUMPs the variant filter keeps; each of these leaves is that of the block
    (but for the placeholder of the coinbase) and verifies in the compound to
    the canonical merkle root of the block.  The filter keeps a STUMP of every
    subtree that has one, and drops one only where another of the same subtree
    folds to the subtree's root and it does not. *)
Theorem BuildCompoundBUMP_root (stumps : list Stump) (hs : list Hash) (cb : list byte) (header : option Hash)
    (leaves0 hs' : list Hash) :
  stumps ≠ [] -> inputs_ok stumps hs cb leaves0 hs' -> header_ok parent leaves lift hs' header ->
  stumps_ok stumps leaves0 ->
  ∃ compound txids,
    BuildCompoundBUMP parse Bytes parent ComputeRoot HashString stumps hs cb header = (Ok (compound, txids), hs') ∧
    (∀ id, id ∈ txids ↔ ∃ st p o x, st ∈ kept stumps hs' cb ∧ parse (stump_StumpData st) = Ok p ∧ has p 0 o
       ∧ leaves0 !! Z.to_nat (globalOffset h (stump_SubtreeIndex st) 0 o) = Some x ∧ id = HashString x) ∧
    (∀ st p o x, st ∈ kept stumps hs' cb -> parse (stump_StumpData st) = Ok p -> has p 0 o ->
      let g := globalOffset h (stump_SubtreeIndex st) 0 o in
      leaves0 !! Z.to_nat g = Some x ->
      ∃ tx, leaves !! Z.to_nat g = Some tx ∧ (tx = x ∨ cb ≠ [] ∧ g = 0%Z) ∧ rootOf parent compound g tx = merkleRoot parent leaves) ∧
    (∀ st, st ∈ stumps -> ∃ s, s ∈ kept stumps hs' cb ∧ stump_SubtreeIndex s = stump_SubtreeIndex st) ∧
    (∀ st, st ∈ stumps -> st ∉ kept stumps hs' cb ->
       variantOk stumps hs' cb st = false ∧ ∃ s, s ∈ stumps ∧ stump_SubtreeIndex s = stump_SubtreeIndex st ∧ variantOk stumps hs' cb s = true).
Proof.
  intros Hne Hin Hhd Hs. pose proof (stumps_height _ _ Hne Hs) as Hh.
  destruct stumps as [|st0 ss] eqn:Est; [done|]. rewrite <-Est in *.
  destruct (Hs st0) as (_ & _ & p0 & Ep0 & _); [rewrite Est; by left|].
  destruct (inputs_prologue stumps hs cb leaves0 hs' st0 p0) as (Elen & Hhs & Ehs & Eh); [done|done|by rewrite Est|done|].
  assert (stumps_ok (kept stumps hs' cb) leaves0) as Hks by (intros st Hst; by apply Hs, (kept_sub _ hs' cb)).
  destruct (mergeStumpVariants_ok parse Bytes HashString (node_ok h n lift (nodeAt parent leaves0) over)
    (node_ok_mergeable h n lift _ over) (kept stumps hs' cb)) as (merged & Em & _ & Hmu & Hma).
  { intros st Hst. destruct (Hks st Hst) as (_ & _ & p & Ep & Hp). exists p. split; [done|apply Hp]. }
  assert (∀ m, m ∈ merged -> merged_ok parent leaves h n lift parse (extractCoinbaseTxID parse cb) cb m ∧
    (0 < req (ms_index m))%nat) as Hmok by (intros m Hm; eapply merged_placed; [done|done|done|by apply Hmu]).
  destruct (placeAll_ok parent leaves h n lift Hshape parse (extractCoinbaseTxID parse cb) cb merged
    (mp_BlockHeight p0)) as (c & have & Epl & Hpl); [intros m Hm; by apply Hmok|].
  assert (∀ st p o, st ∈ kept stumps hs' cb -> parse (stump_StumpData st) = Ok p -> has p 0 o ->
    ∃ m, m ∈ merged ∧ ms_index m = stump_SubtreeIndex st ∧ has (ms_path m) 0 o ∧ (0 <= globalOffset h (stump_SubtreeIndex st) 0 o)%Z) as Hat.
  { intros st p o Hst Ep Ho. destruct (Hma st Hst) as (m & Hm & Ei). destruct (Hmu m Hm) as [Hu _]. exists m. split_and!; [done|done| |].
    - apply (uo_in _ _ _ _ _ Hu p); [by exists st|done].
    - by eapply kept_offset. }
  exists (compoundOf parent h n lift have hs' c), (concat (ms_txids <$> merged)). split_and!.
  - unfold BuildCompoundBUMP. rewrite Est, <-Est. rewrite Ehs, Ep0. unfold ceilLog2. rewrite Elen, Eh.
    rewrite (proj2 (Nat.leb_gt _ _)) by (destruct Hshape; lia).
    rewrite (deriveFinalSubtreeLift_ok parent leaves h n lift Hshape hs' header Hhs Hhd).
    change (dropVariantsOffSubtreeRoot _ _ _ stumps hs' _ _ cb) with (kept stumps hs' cb).
    rewrite Em. change (fun index : Z => _) with req. rewrite Epl. done.
  - intros id. apply (merged_txids stumps hs' cb leaves0 merged id); [done|done|done].
  - intros st p o x Hst Ep Ho g Ex. destruct (Hat st p o Hst Ep Ho) as (m & Hm & Ei & Hmo & Hg). fold g in Hg.
    destruct (leaf_of_block stumps hs cb leaves0 hs' _ x Hin Ex) as (tx & Etx & Hor). exists tx. split_and!; [done| |].
    { destruct Hor as [->|[? ?]]; [by left|right]. split; [done|lia]. }
    assert (has (applied parent parse (extractCoinbaseTxID parse cb) cb m) 0 o) as Hao.
    { unfold applied. destruct (extractCoinbaseTxID parse cb); [|done]. destruct (_ =? _)%Z; [by apply apply_leaves|done]. }
    assert (T 0 g = Some tx) as Etx' by (rewrite leaf_node by done; done). unfold g in *. rewrite <-Ei in *. by eapply compoundOf_verifies.
  - intros st Hst. by apply kept_each.
  - intros st Hst Hn. rewrite kept_iff in Hn. destruct (variantOk stumps hs' cb st) eqn:Ev; [exfalso; apply Hn; auto|]. split; [done|].
    destruct (List.find (fun s => sameIndex st s && variantOk stumps hs' cb s) stumps) as [s'|] eqn:E.
    + apply find_some in E as [Hs' [Ei%Z.eqb_eq Hv]%andb_true_iff]. exists s'. split_and!; [by apply list_elem_of_In|done|done].
    + exfalso. apply Hn. split; [done|]. left. intros s' Hs' Ei. apply list_elem_of_In in Hs'. pose proof (find_none _ _ E s' Hs') as Hx. cbn in Hx.
      unfold sameIndex in Hx. by rewrite Ei, Z.eqb_refl in Hx.
Qed.
End Main.

(** Case analysis on the elements of a closed list. *)
Ltac enum_in H :=
  lazymatch type of H with
  | _ ∈ [] => by apply elem_of_nil in H
  | _ ∈ _ :: _ => apply elem_of_cons in H as [->|H]; [|enum_in H]
  end.
Ltac enum_level H :=
  try unfold has in H;
  lazymatch type of H with ?x ∈ ?l => let l' := eval vm_compute in l in change (x ∈ l') in H end; enum_in H.
Ltac ground_node :=
  split; [intros _; split; [cbn; lia|eexists; split; reflexivity]|split];
  let H := fresh in intros H; first [reflexivity | vm_compute in H; lia].
Ltac ground_forall t := repeat (apply Forall_cons; split; [t|]); apply Forall_nil; exact I.

(** ** A concrete block

    Six transactions in a full subtree of four and a lifted subtree of two,
    hashed by concatenation; STUMPs for one transaction of each subtree, the
    first computed over a placeholder coinbase. *)
Section Example.
Definition xParent (a b : Hash) : Hash := "(" +:+ a +:+ b +:+ ")".
Definition xLeaves : list Hash := ["a"; "b"; "c"; "d"; "e"; "f"].
Definition xStump0 : MerklePath :=
  mkMerklePath 9 [[mkPathElement 0 (Some "z") None None; mkPathElement 1 (Some "b") (Some true) None];
                  [mkPathElement 1 (Some "(cd)") None None]].
Definition xStump1 : MerklePath :=
  mkMerklePath 9 [[mkPathElement 0 (Some "e") (Some true) None; mkPathElement 1 (Some "f") None None]].
Definition xCoinbase : MerklePath :=
  mkMerklePath 9 [[mkPathElement 0 (Some "a") (Some true) None; mkPathElement 1 (Some "b") None None];
                  [mkPathElement 1 (Some "(cd)") None None]; [mkPathElement 1 (Some "((ef)(ef))") None None]].
Definition xParse (data : list byte) : Res MerklePath :=
  match data with
  | [x01] => Ok xStump0
  | [x02] => Ok xStump1
  | [x03] => Ok xCoinbase
  | _ => Err ErrDecode
  end.
Definition xStumps : list Stump := [mkStump "blk" 0 [x01] ""; mkStump "blk" 1 [x02] ""].
Definition xOver (i : Z) (l : nat) (o : Z) : Hash := "".
#[local] Existing Instance mergeSortFunc.

Lemma xStump_ok i p :
  (i = 0%Z ∧ p = xStump0) ∨ (i = 1%Z ∧ p = xStump1) ->
  stump_ok 2 2 1 (nodeAt xParent (<[0%nat := "z"]> xLeaves)) xOver i p.
Proof.
  intros [[-> ->]|[-> ->]]; split.
  - vm_compute. lia.
  - intros [|[|l]] elems El; [| |done]; injection El as <-; (split; [by apply (bool_decide_unpack _); vm_compute|]);
      ground_forall ground_node.
  - exists 0%Z. apply (bool_decide_unpack _). by vm_compute.
  - intros o Ho [|[|l]] Hl; [| |vm_compute in Hl; lia]; enum_level Ho; apply (bool_decide_unpack _); by vm_compute.
  - vm_compute. lia.
  - intros [|l] elems El; [|done]; injection El as <-; (split; [by apply (bool_decide_unpack _); vm_compute|]);
      ground_forall ground_node.
  - exists 0%Z. apply (bool_decide_unpack _). by vm_compute.
  - intros o Ho [|l] Hl; [|vm_compute in Hl; lia]; enum_level Ho; apply (bool_decide_unpack _); by vm_compute.
Qed.

Lemma xInputs_ok : inputs_ok xParse xParent xLeaves 2 2 1 xStumps ["zz"; "(ef)"] [x03]
  (<[0%nat := "z"]> xLeaves) (<[0%nat := "((ab)(cd))"]> ["zz"; "(ef)"]).
Proof.
  apply (inputs_coinbase _ _ _ _ _ _ _ _ _ xCoinbase); [done|done| |done|].
  - split; [done| | |].
    + intros [|[|[|l]]] e He; [enum_level He..|by apply elem_of_nil in He]; eexists; split; reflexivity.
    + apply (bool_decide_unpack _). by vm_compute.
    + intros [|[|l]] Hl; [| |lia]; apply (bool_decide_unpack _); by vm_compute.
  - split; [done| |done]. intros [|i] Hi; [done|lia].
Qed.

Lemma xShape : block_shape xLeaves 2 2 1.
Proof. split; vm_compute; lia || done. Qed.

Lemma BuildCompoundBUMP_root_witness :
  ∃ compound txids,
    BuildCompoundBUMP xParse (fun _ => []) xParent (fun _ _ => Err ErrDecode) id xStumps ["zz"; "(ef)"] [x03]
      (Some "(((ab)(cd))((ef)(ef)))") = (Ok (compound, txids), ["((ab)(cd))"; "(ef)"]) ∧
    "e" ∈ txids ∧ rootOf xParent compound 1 "b" = Some "(((ab)(cd))((ef)(ef)))" ∧
    rootOf xParent compound 4 "e" = Some "(((ab)(cd))((ef)(ef)))".
Proof.
  destruct (BuildCompoundBUMP_root xParse (fun _ => []) xParent (fun _ _ => Err ErrDecode) id xLeaves 2 2 1 xOver xShape
    xStumps ["zz"; "(ef)"] [x03] (Some "(((ab)(cd))((ef)(ef)))") _ _ ltac:(discriminate) xInputs_ok)
    as (compound & txids & E & Hids & Hv & _ & _).
  - split; [reflexivity|]. intros [|k] Hk; [vm_compute; discriminate|lia].
  - intros st Hst. unfold xStumps in Hst. enum_in Hst; (split; [vm_compute; split; congruence|]);
      (split; [vm_compute; lia|]); eexists; (split; [reflexivity|]); apply xStump_ok; auto.
  - exists compound, txids. split; [exact E|]. split; [|split].
    + apply Hids. exists (mkStump "blk" 1 [x02] ""), xStump1, 0%Z, "e".
      split; [apply list_elem_of_In; vm_compute; auto|]. split; [reflexivity|]. split; [apply (bool_decide_unpack _); by vm_compute|]. split; reflexivity.
    + destruct (Hv (mkStump "blk" 0 [x01] "") xStump0 1%Z "b"
        ltac:(apply list_elem_of_In; vm_compute; auto) eq_refl
        ltac:(apply (bool_decide_unpack _); by vm_compute) eq_refl) as (tx & Etx & _ & Hr). injection Etx as <-. exact Hr.
    + destruct (Hv (mkStump "blk" 1 [x02] "") xStump1 0%Z "e"
        ltac:(apply list_elem_of_In; vm_compute; auto) eq_refl
        ltac:(apply (bool_decide_unpack _); by vm_compute) eq_refl) as (tx & Etx & _ & Hr). injection Etx as <-. exact Hr.
Defined.

(** *** The one-transaction final subtree *)

Definition yLeaves : list Hash := ["a"; "b"; "c"].
Definition yParse (p1 : MerklePath) (data : list byte) : Res MerklePath :=
  match data with
  | [x01] => Ok (mkMerklePath 9 [[mkPathElement 0 (Some "a") None None; mkPathElement 1 (Some "b") (Some true) None]])
  | [x02] => Ok p1
  | _ => Err ErrDecode
  end.

(** A block whose final subtree holds a single transaction cannot be
    built once that transaction is tracked: the derived lift leaves a required
    height of zero, so nothing of the final subtree's STUMP is placed, whatever
    it contains, and its root is not seeded either because it has a STUMP.  The
    transactions of the other subtree then have no path to the root and the
    tracked leaf is not in the compound at all, though the root and subtree
    hashes passed in are those of the block. *)
Theorem single_leaf_final_unbuildable (p1 : MerklePath) :
  merkleRoot xParent yLeaves = Some "((ab)(cc))" ∧
  ∃ compound txids,
    BuildCompoundBUMP (yParse p1) (fun _ => []) xParent (fun _ _ => Err ErrDecode) id xStumps ["(ab)"; "c"] []
      (Some "((ab)(cc))") = (Ok (compound, txids), ["(ab)"; "c"]) ∧
    rootOf xParent compound 0 "a" = None ∧ rootOf xParent compound 1 "b" = None ∧
    ¬ has compound 0 2.
Proof.
  split; [reflexivity|]. eexists _, _. split; [vm_compute; reflexivity|].
  split_and!; [reflexivity..|]. apply (bool_decide_unpack _). by vm_compute.
Qed.
End Example.
