(* ===== verification/BumpAssembleProps.v ===== *)
(** * BumpAssembleProps: the minimal path of one STUMP

    [AssembleBUMP] of [bump/bump.go] for a block of several subtrees: the path
    it returns for the tracked transaction verifies to the block's merkle
    root.  The proof shares the tree, the passes and the placement lemmas of
    the compound. *)
From stdpp Require Import base gmap strings list.
From Stdlib Require Import ZArith Lia.
From Stdlib Require Import Strings.Byte.
From S2P Require Import Prelude Models Bump BumpBuild BumpTree BumpMerge BumpBuildProps.

Section Assemble.
Context (parse : list byte -> Res MerklePath) (parent : Hash -> Hash -> Hash).
Context (leaves : list Hash) (h n : nat) (Hshape : block_shape leaves h n 0).
Abbreviation T := (nodeAt parent leaves).
Abbreviation finalIdx := (Z.of_nat (n - 1)).

(** The path of [assembleFullPath] before its nodes are filled in. *)
Definition assembled (bh i : Z) (hs : list Hash) (p : MerklePath) : MerklePath :=
  foldl (fun mp '(j, subHash) =>
           if (Z.of_nat j =? i)%Z then mp else addLeaf mp h (hashElem (Z.of_nat j) subHash))
    (placeLevels (shiftLevels i h (mp_Path p)) (mkMerklePath bh (replicate (h + Nat.log2_up n) [])))
    (imap (fun j x => (j, x)) hs).

Lemma assembled_seed bh i hs p :
  assembled bh i hs p = seedRoots parent h 0 finalIdx {[i]} hs
    (placeLevels (shiftLevels i h (mp_Path p)) (mkMerklePath bh (replicate (h + Nat.log2_up n) []))).
Proof.
  unfold assembled, seedRoots. set (c := placeLevels _ _). clearbody c. revert c.
  induction (imap _ hs) as [|[j x] l IH]; intros c; cbn [foldl]; [done|]. rewrite IH. f_equal.
  destruct (Z.eqb_spec (Z.of_nat j) i) as [E|E].
  - by rewrite bool_decide_eq_true_2 by set_solver.
  - rewrite bool_decide_eq_false_2 by set_solver. by destruct (_ =? _)%Z.
Qed.

Lemma req_const i : requiredHeight h n 0 i = h.
Proof. unfold requiredHeight. rewrite Nat.sub_0_r. by destruct (_ =? _)%Z. Qed.

(** Every leaf of a placed STUMP verifies in the filled path. *)
Lemma assembled_verifies bh i hs p o tx :
  (0 < h)%nat -> (0 <= i < Z.of_nat n)%Z -> height p = h -> placed_ok h n 0 T i p ->
  seeds_ok parent leaves h n 0 {[i]} hs ->
  has p 0 o -> T 0 (globalOffset h i 0 o) = Some tx ->
  rootOf parent (padAndComputeBlockLevel parent (computeMissingHashes parent (assembled bh i hs p)) h n)
    (globalOffset h i 0 o) tx = merkleRoot parent leaves.
Proof.
  intros Hh Hi Ep Hp Hs Ho Etx. set (m := mkMergedStump i p [] []).
  assert (merged_ok parent leaves h n 0 parse None [] m) as Hm by (split; [done|rewrite req_const; simpl; lia|done]).
  destruct (placeAll_ok parent leaves h n 0 Hshape parse None [] [m] bh) as (c & have & Epl & Hpl).
  { by intros m' ->%list_elem_of_singleton. }
  assert (0 < Nat.log2_up n)%nat as Hr by (apply Nat.log2_up_pos; destruct Hshape; lia).
  cbn [foldl] in Epl. unfold placeStump in Epl. cbn [ms_index ms_path m] in Epl.
  rewrite (proj2 (Nat.ltb_ge _ _)), req_const, firstn_all2 in Epl by (rewrite ?req_const; unfold height in Ep; lia).
  injection Epl as Ec Ehave. rewrite assembled_seed, Ec.
  destruct (seedRoots_ok parent leaves h n 0 hs {[i]} c) as (S1 & S2 & S3 & S4);
    [rewrite (pl_height _ _ _ _ _ _ _ _ _ _ _ _ Hpl); lia|apply Hpl|done|].
  set (c2 := seedRoots _ _ _ _ _ _ c) in *. rewrite (pl_height _ _ _ _ _ _ _ _ _ _ _ _ Hpl) in S1.
  pose proof (missing_completed parent T (nodeAt_tree _ _) c2 (height c2) S2 (le_n _)) as Hc1.
  set (c3 := computeMissingHashes parent c2) in *.
  assert (completed T h c2 c3 h) as Hc1h.
  { destruct Hc1 as [K1 K2 K3 K4 K5]. split; [done|done|done|intros l Hl; apply K4; lia|intros; lia]. }
  pose proof (pad_completed parent T (nodeAt_tree _ _) h n c2 c3 Hc1h) as Hc.
  specialize (Hc ltac:(rewrite (c_height _ _ _ _ _ Hc1); lia) (shape_counts parent leaves h n 0 Hshape)).
  set (r := padAndComputeBlockLevel parent c3 h n) in *.
  assert (height r = h + Nat.log2_up n)%nat as Ehr by (rewrite (c_height _ _ _ _ _ Hc); lia).
  assert (∀ l x, (l < h)%nat -> has p l x -> has r l (globalOffset h i l x)) as Hg.
  { intros l x Hl Hx. apply (c_has _ _ _ _ _ Hc), S3. apply (pl_has _ _ _ _ _ _ _ _ _ _ _ _ Hpl m); [by left| |done].
    by rewrite req_const. }
  assert (0 <= o < 2 ^ Z.of_nat h)%Z as Hob.
  { pose proof Ho as (e & -> & He)%list_elem_of_fmap.
    destruct (po_elem _ _ _ _ _ _ Hp 0%nat e) as [Hb _]; [by rewrite req_const|done|]. by rewrite Nat.sub_0_r in Hb. }
  assert (∀ l, (l < h)%nat -> has r l (Z.lxor (Z.shiftr (globalOffset h i 0 o) (Z.of_nat l)) 1)) as Hsib.
  { intros l Hl. rewrite shiftr_global, lxor_global by (rewrite ?Z.shiftr_nonneg; lia).
    destruct (po_sib _ _ _ _ _ _ Hp o Ho l) as [Hx|(-> & -> & H00 & Hk)]; [by rewrite req_const|by apply Hg|].
    rewrite req_const in Hk. change (globalOffset h 0 l 0) with 0%Z. rewrite <-(Z.shiftr_0_l (Z.of_nat l)).
    apply (spine_present T h c2 r l 0 (completed_upto T h c2 r (height c2 - 1) l Hc ltac:(lia)) (Hg _ 0%Z Hh H00)); [|done].
    intros k Hkl. rewrite Z.shiftr_0_l. apply (Hg k 1%Z); [lia|]. apply Hk. lia. }
  rewrite (root_node parent leaves h n 0 Hshape).
  apply (completed_verifies parent T (nodeAt_tree _ _) h n c2);
    [replace (height r) with (height c2) by lia; done|done|apply Hshape|by eapply shape_counts| |done|done].
  intros j Hj%(shape_counts parent leaves h n 0 Hshape). destruct (decide (j = i)) as [->|Hne].
  - pose proof (spine_present T h c2 r h _ (completed_upto T h c2 r (height c2 - 1) h Hc ltac:(lia)) (Hg 0%nat o Hh Ho) Hsib h (le_n h))
      as Hsp.
    rewrite shiftr_global in Hsp by lia. unfold globalOffset in Hsp.
    rewrite Nat.sub_diag, Z.shiftr_div_pow2, Z.div_small, Z.mul_1_r, Z.add_0_r in Hsp by lia. done.
  - apply (c_has _ _ _ _ _ Hc), S4; [done|]. by rewrite elem_of_singleton.
Qed.

(** The coinbase BUMP the caller passes along with a STUMP of subtree [i]:
    none, or one that is correct if [i] is 0 (it is not read otherwise). *)
Inductive stump_inputs (i : Z) (cb : list byte) : list Hash -> Prop :=
| stump_plain : cb = [] -> stump_inputs i cb leaves
| stump_other : i ≠ 0%Z -> stump_inputs i cb leaves
| stump_coinbase cbPath placeholder :
    i = 0%Z -> cb ≠ [] -> parse cb = Ok cbPath -> coinbase_ok parent leaves h n cbPath ->
    stump_inputs i cb (<[0%nat := placeholder]> leaves).

(** The STUMP after the coinbase step of [assembleFullPath]. *)
Definition withCoinbase (i : Z) (cb : list byte) (p : MerklePath) : MerklePath :=
  if (i =? 0)%Z && (0 <? length cb)%nat then
    match extractCoinbaseTxID parse cb with
    | Some t => applyCoinbaseToSTUMP parse parent p t cb
    | None => p
    end
  else p.

Lemma apply_height p t cb : height (applyCoinbaseToSTUMP parse parent p t cb) = height p.
Proof.
  unfold height, applyCoinbaseToSTUMP. destruct (mp_Path p) as [|l0 rest] eqn:Ep; [by rewrite Ep|].
  destruct (existsb _ l0); [simpl; by rewrite length_map|]. destruct (parse cb) as [cbPath|]; [|by rewrite Ep].
  rewrite <-Ep. generalize (Nat.min (length (mp_Path p)) (length (mp_Path cbPath))) as k, 0%nat as l. clear Ep.
  intros k. revert t p. induction k as [|k IH]; intros t p l; cbn [replaceSpine]; [done|].
  destruct (findLeafByOffset cbPath l 1) as [s|]; [|simpl; by rewrite length_alter].
  destruct (pe_Hash s); [|simpl; by rewrite length_alter]. rewrite IH. simpl. by rewrite length_alter.
Qed.

Lemma withCoinbase_placed over i cb leaves0 p :
  (0 < h)%nat -> stump_inputs i cb leaves0 -> stump_ok h n 0 (nodeAt parent leaves0) over i p ->
  placed_ok h n 0 T i (withCoinbase i cb p) ∧ height (withCoinbase i cb p) = height p ∧
  (fun e => (pe_Offset e, isTracked e)) <$> lev (withCoinbase i cb p) 0 = (fun e => (pe_Offset e, isTracked e)) <$> lev p 0.
Proof.
  intros Hh Hin Hok. unfold withCoinbase. destruct Hin as [->|Hi|cbPath ph -> Hcb Ecb Hcok].
  - rewrite andb_false_r. split; [by eapply stump_placed|done].
  - rewrite (proj2 (Z.eqb_neq _ _) Hi). split; [by eapply stump_placed|done].
  - destruct cb as [|b cb]; [done|]. simpl. rewrite Ecb, (coinbaseLeaf_ok parent leaves h n cbPath Hcok).
    destruct (shape_leaf parent leaves h n 0 Hshape 0 0) as [t Et];
      [lia|lia|apply Z.mul_pos_pos; [lia|destruct Hshape; lia]|].
    rewrite Et. split; [|split; [apply apply_height|by apply apply_proj]].
    by eapply (apply_placed parent leaves h n 0 Hshape cbPath Hcok ph t Et over).
Qed.

(** The offset the code picks is the global offset of a tracked leaf. *)
Lemma trackedOffset_shifted bh i p :
  (0 < h)%nat -> (0 <= i < Z.of_nat n)%Z -> placed_ok h n 0 T i p -> height p = h -> (∃ e, e ∈ lev p 0 ∧ isTracked e = true) ->
  ∃ e, e ∈ lev p 0 ∧ isTracked e = true ∧
    trackedOffset h (mkMerklePath bh (shiftLevels i h (mp_Path p))) = globalOffset h i 0 (pe_Offset e).
Proof.
  intros Hh Hi Hp Ep Hex. unfold trackedOffset. rewrite (proj2 (Nat.ltb_lt _ _) Hh). cbn [mp_Path].
  rewrite shiftLevels_lookup. unfold lev in *. destruct (mp_Path p !! 0%nat) as [l0|] eqn:E0; cbn [default from_option] in *.
  2:{ destruct Hex as (e & He & _). by apply elem_of_nil in He. }
  cbn [fmap option_fmap option_map from_option]. unfold id in *.
  assert (∀ e, e ∈ l0 -> pe_Offset (shiftElem (shl64 i (h - 0)) e) = globalOffset h i 0 (pe_Offset e)) as Hsh.
  { intros e He. rewrite (shiftElem_global h n); [done|apply Hshape|done|].
    apply (po_elem _ _ _ _ _ _ Hp 0%nat e); [by rewrite req_const|]. unfold lev. by rewrite E0. }
  clear E0. induction l0 as [|x l0 IH]; [destruct Hex as (e & He & _); by apply elem_of_nil in He|]. cbn [List.map List.find].
  change (isTracked (shiftElem _ x)) with (isTracked x). destruct (isTracked x) eqn:Ex.
  - exists x. split; [by left|]. split; [done|]. apply Hsh. by left.
  - destruct IH as (e & He & Et & Eo).
    + destruct Hex as (e & [->|He]%elem_of_cons & Et); [congruence|]. by exists e.
    + intros e He. apply Hsh. by right.
    + exists e. split; [by right|done].
Qed.

(** The path [AssembleBUMP] returns is a proof: for a correct STUMP of
    any subtree of a block of several full subtrees, with the coinbase still a
    placeholder if it is subtree 0's, the call succeeds, the offset it returns
    is that of a tracked leaf of the STUMP, and the minimal path it returns
    verifies the transaction there to the block's merkle root. *)
Theorem AssembleBUMP_root (over : Z -> nat -> Z -> Hash) (data cb : list byte) (i : Z) (hs leaves0 : list Hash)
    (p : MerklePath) :
  (0 < h)%nat -> (0 <= i < Z.of_nat n)%Z -> parse data = Ok p -> height p = h ->
  stump_inputs i cb leaves0 -> stump_ok h n 0 (nodeAt parent leaves0) over i p ->
  (∃ e, e ∈ lev p 0 ∧ isTracked e = true) -> seeds_ok parent leaves h n 0 {[i]} hs ->
  ∃ mp o, AssembleBUMP parse parent data i hs cb = Ok (mp, globalOffset h i 0 o) ∧
    (o, true) ∈ (fun e => (pe_Offset e, isTracked e)) <$> lev p 0 ∧
    ∀ tx, T 0 (globalOffset h i 0 o) = Some tx ->
      rootOf parent mp (globalOffset h i 0 o) tx = merkleRoot parent leaves.
Proof.
  intros Hh Hi Ep Hhp Hin Hok (e & He & Ht) Hs.
  destruct (withCoinbase_placed over i cb leaves0 p Hh Hin Hok) as (Hpl & Hht & Hpr).
  assert (∀ x b, (x, b) ∈ (fun e => (pe_Offset e, isTracked e)) <$> lev (withCoinbase i cb p) 0 ->
    ∃ e', e' ∈ lev (withCoinbase i cb p) 0 ∧ pe_Offset e' = x ∧ isTracked e' = b) as Hback.
  { intros x b (e' & E' & He')%list_elem_of_fmap. injection E' as -> ->. eauto. }
  destruct (trackedOffset_shifted (mp_BlockHeight (withCoinbase i cb p)) i (withCoinbase i cb p) Hh Hi Hpl ltac:(lia)) as (e1 & He1 & Ht1 & Eo).
  { destruct (Hback (pe_Offset e) true) as (e' & He' & _ & Et'); [|eauto]. rewrite Hpr, <-Ht. apply list_elem_of_fmap. eauto. }
  exists (ExtractMinimalPath (padAndComputeBlockLevel parent (computeMissingHashes parent
    (assembled (mp_BlockHeight (withCoinbase i cb p)) i hs (withCoinbase i cb p))) h n) (globalOffset h i 0 (pe_Offset e1))), (pe_Offset e1).
  split_and!.
  - unfold AssembleBUMP, assembleFullPath, validateSubtreeIndex. rewrite (proj1 Hs).
    rewrite (proj2 (Z.ltb_ge _ _)), (proj2 (Z.leb_gt _ _)) by lia. cbn [orb]. rewrite Ep.
    fold (withCoinbase i cb p). rewrite (proj2 (Nat.leb_gt _ _)) by (destruct Hshape; lia).
    change (length (mp_Path p)) with (height p). rewrite Hhp. cbn [mp_Path]. rewrite Eo. done.
  - rewrite <-Hpr, <-Ht1. apply list_elem_of_fmap. eauto.
  - intros tx Etx. rewrite Extract_rootOf. apply assembled_verifies; [done|done|lia|done|done|by apply has_elem|done].
Qed.
End Assemble.

(** Two subtrees of two transactions; the STUMP of the first, over a
    placeholder coinbase, tracks its second transaction. *)
Section AssembleExample.
Definition vLeaves : list Hash := ["a"; "b"; "c"; "d"].
Definition vStump : MerklePath :=
  mkMerklePath 9 [[mkPathElement 0 (Some "z") None None; mkPathElement 1 (Some "b") (Some true) None]].
Definition vCoinbase : MerklePath :=
  mkMerklePath 9 [[mkPathElement 0 (Some "a") (Some true) None; mkPathElement 1 (Some "b") None None];
                  [mkPathElement 1 (Some "(cd)") None None]].
Definition vParse (data : list byte) : Res MerklePath :=
  match data with [x01] => Ok vStump | [x03] => Ok vCoinbase | _ => Err ErrDecode end.

Lemma vShape : block_shape vLeaves 1 2 0.
Proof. split; vm_compute; lia || done. Qed.

Lemma vStump_ok : stump_ok 1 2 0 (nodeAt xParent (<[0%nat := "z"]> vLeaves)) xOver 0 vStump.
Proof.
  split.
  - vm_compute. lia.
  - intros [|l] elems El; [|done]. injection El as <-. split; [by apply (bool_decide_unpack _); vm_compute|].
    ground_forall ground_node.
  - exists 0%Z. apply (bool_decide_unpack _). by vm_compute.
  - intros o Ho [|l] Hl; [|vm_compute in Hl; lia]. enum_level Ho; apply (bool_decide_unpack _); by vm_compute.
Qed.

Lemma vCoinbase_ok : coinbase_ok xParent vLeaves 1 2 vCoinbase.
Proof.
  split; [done| | |].
  - intros [|[|l]] e He; [enum_level He..|by apply elem_of_nil in He]; eexists; split; reflexivity.
  - apply (bool_decide_unpack _). by vm_compute.
  - intros [|l] Hl; [|lia]. apply (bool_decide_unpack _). by vm_compute.
Qed.

Lemma AssembleBUMP_root_witness :
  ∃ mp, AssembleBUMP vParse xParent [x01] 0 ["zz"; "(cd)"] [x03] = Ok (mp, 1%Z) ∧
    rootOf xParent mp 1 "b" = Some "((ab)(cd))".
Proof.
  destruct (AssembleBUMP_root vParse xParent vLeaves 1 2 vShape xOver [x01] [x03] 0 ["zz"; "(cd)"]
    (<[0%nat := "z"]> vLeaves) vStump) as (mp & o & E & Ho & Hv).
  - lia.
  - lia.
  - reflexivity.
  - reflexivity.
  - exact (stump_coinbase vParse xParent vLeaves 1 2 0 [x03] vCoinbase "z" eq_refl ltac:(discriminate) eq_refl vCoinbase_ok).
  - exact vStump_ok.
  - exists (mkPathElement 1 (Some "b") (Some true) None). split; [|reflexivity]. apply list_elem_of_In. vm_compute. auto.
  - split; [reflexivity|]. intros [|[|i]] x Ei Hni; [|injection Ei as <-; reflexivity|done].
    destruct Hni. by apply elem_of_singleton.
  - assert (o = 1%Z) as ->.
    { apply list_elem_of_In in Ho. simpl in Ho. destruct Ho as [[=]|[[=]|[]]]. done. }
    exists mp. split; [exact E|]. exact (Hv "b" eq_refl).
Defined.
End AssembleExample.
