(* ===== verification/Datahub.v ===== *)
(** * Datahub: fetching and parsing a block's subtree data

    Models [bump/datahub.go]: the binary block format ([parseBlockBinary]),
    the capped HTTP read ([fetchBlockBinary]) and the loop over the DataHub
    endpoints ([FetchBlockDataForBUMPWithOptions]).  The varint reader, the
    transaction parser and [ComputeRoot] of go-sdk are section variables, and
    so is the HTTP exchange, of which the code sees the status, the
    advertised length and the body. *)
From stdpp Require Import base gmap strings list.
From Stdlib Require Import ZArith Lia.
From Stdlib Require Import Strings.Byte.
From coqutil Require Word.LittleEndianList.
From S2P Require Import Prelude Models Bump BumpBuild.

Definition DefaultMaxBlockBytes : Z := 1 * 1024 * 1024 * 1024.
Definition maxSubtreeCount : Z := 10000000.
Definition maxTxCount : Z := 1000000000.
Definition maxBlockSizeBytes : Z := 2 ^ 40.

(** [chainhash.NewHash] of a 32-byte slice: the bytes themselves. *)
Definition hashOfBytes (bs : list byte) : Hash := String.string_of_list_byte bs.
Definition bytesOfHash (h : Hash) : list byte := String.list_byte_of_string h.

(** What the client sees of a response: [r_end] is the error the body ends
    with, if it does not end cleanly; [r_contentLength] is -1 when absent. *)
Record response : Type := mkResponse {
  r_status : Z;
  r_contentLength : Z;
  r_body : list byte;
  r_end : option error
}.

(** Subtree hashes, coinbase BUMP ([nil] when there is none) and the header's
    merkle root. *)
Definition blockData : Type := list Hash * list byte * Hash.

Definition BlockDataValidator : Type := list Hash -> Hash -> Res unit.

Definition SubtreeCountValidator (minSubtrees : Z) : option BlockDataValidator :=
  if (minSubtrees <=? 0)%Z then None
  else Some (fun subtreeHashes _ =>
    if (Z.of_nat (length subtreeHashes) <? minSubtrees)%Z then Err (ErrMsg "subtree_count < required") else Ok tt).

Section Datahub.
Context (NewMerklePathFromBinary : list byte -> Res MerklePath).
Context (ComputeRoot : MerklePath -> Hash -> Res Hash).
(** [util.VarInt.ReadFrom]: the value and what is left of the reader. *)
Context (readVarInt : list byte -> Res (Z * list byte)).
(** [transaction.NewTransactionFromStream]: the number of bytes used. *)
Context (NewTransactionFromStream : list byte -> Res nat).

(** The loop over [subtreeCount] 32-byte hashes. *)
Fixpoint readHashes (n : nat) (r : list byte) : Res (list Hash * list byte) :=
  match n with
  | O => Ok ([], r)
  | S n =>
      if (length r <? 32)%nat then Err (ErrMsg "failed to read subtree hash")
      else match readHashes n (drop 32 r) with
           | Err e => Err e
           | Ok (hs, r') => Ok (hashOfBytes (take 32 r) :: hs, r')
           end
  end.

(** The best-effort tail: the coinbase BUMP, or nothing. *)
Definition parseCoinbaseTail (remaining : list byte) : list byte :=
  match NewTransactionFromStream remaining with
  | Err _ => []
  | Ok used =>
      match readVarInt (drop used remaining) with
      | Err _ => []
      | Ok (_, r) =>
          match readVarInt r with
          | Err _ => []
          | Ok (cbBUMPLen, r) =>
              if (cbBUMPLen =? 0)%Z then []
              else if (Z.of_nat (length r) <? cbBUMPLen)%Z then []
              else take (Z.to_nat cbBUMPLen) r
          end
      end
  end.

Definition parseBlockBinary (data : list byte) : Res blockData :=
  if (length data <? 80)%nat then Err (ErrMsg "block data too short for header")
  else
    let headerMerkleRoot := hashOfBytes (take 32 (drop 36 data)) in
    match readVarInt (drop 80 data) with
    | Err e => Err e
    | Ok (txCount, r) =>
        if (maxTxCount <? txCount)%Z then Err (ErrMsg "tx count exceeds maximum")
        else match readVarInt r with
        | Err e => Err e
        | Ok (sizeBytes, r) =>
            if (maxBlockSizeBytes <? sizeBytes)%Z then Err (ErrMsg "block size exceeds maximum")
            else match readVarInt r with
            | Err e => Err e
            | Ok (subtreeCount, r) =>
                if (maxSubtreeCount <? subtreeCount)%Z then Err (ErrMsg "subtree count exceeds maximum")
                else if (Z.of_nat (length r / 32) <? subtreeCount)%Z
                then Err (ErrMsg "subtree count exceeds remaining body capacity")
                else match readHashes (Z.to_nat subtreeCount) r with
                     | Err e => Err e
                     | Ok (hashes, remaining) => Ok (hashes, parseCoinbaseTail remaining, headerMerkleRoot)
                     end
            end
        end
    end.

(** [fetchBlockBinary], from the outcome of the exchange; the status is only
    logged by the caller. *)
Definition fetchBlockBinary (exchange : Res response) (maxBlockBytes : Z) : Res blockData :=
  match exchange with
  | Err e => Err e
  | Ok resp =>
      if negb (r_status resp =? 200)%Z then Err (ErrMsg "status")
      else if (0 <=? r_contentLength resp)%Z && (maxBlockBytes <? r_contentLength resp)%Z
      then Err (ErrMsg "Content-Length exceeds cap")
      else if (maxBlockBytes <? Z.of_nat (length (r_body resp)))%Z
      then Err (ErrMsg "response body exceeds cap")
      else match r_end resp with
           | Some e => Err e
           | None => parseBlockBinary (r_body resp)
           end
  end.

Definition coinbaseBUMPReconciles (coinbaseBUMP : list byte) (headerMerkleRoot : Hash) : Res unit :=
  match coinbaseBUMP with
  | [] => Ok tt
  | _ =>
      match NewMerklePathFromBinary coinbaseBUMP with
      | Err e => Err e
      | Ok cbPath =>
          match extractCoinbaseTxID NewMerklePathFromBinary coinbaseBUMP with
          | None => Err (ErrMsg "coinbase BUMP has no coinbase txid at level 0 offset 0")
          | Some cbTxID =>
              match ComputeRoot cbPath cbTxID with
              | Err e => Err e
              | Ok got => if String.eqb got headerMerkleRoot then Ok tt
                          else Err (ErrMsg "coinbase BUMP root != header merkle root")
              end
          end
      end
  end.

(** One URL of the loop: [Some] when its response is returned. *)
Definition tryURL (exchange : Res response) (maxBlockBytes : Z) (validator : option BlockDataValidator)
  : option blockData :=
  match fetchBlockBinary exchange maxBlockBytes with
  | Err _ => None
  | Ok (hashes, cbBUMP, root) =>
      if match validator with None => true | Some v => is_ok (v hashes root) end
         && is_ok (coinbaseBUMPReconciles cbBUMP root)
      then Some (hashes, cbBUMP, root) else None
  end.

Fixpoint fetchLoop (get : string -> Res response) (datahubURLs : list string) (maxBlockBytes : Z)
    (validator : option BlockDataValidator) : Res blockData :=
  match datahubURLs with
  | [] => Err (ErrMsg "all DataHub URLs failed")
  | dataHubURL :: rest =>
      match tryURL (get dataHubURL) maxBlockBytes validator with
      | Some d => Ok d
      | None => fetchLoop get rest maxBlockBytes validator
      end
  end.

(** [get] is the exchange with [<url>/block/<blockHash>]. *)
Definition FetchBlockDataForBUMPWithOptions (get : string -> Res response) (datahubURLs : list string)
    (maxBlockBytes : Z) (validator : option BlockDataValidator) : Res blockData :=
  let maxBlockBytes := if (maxBlockBytes <=? 0)%Z then DefaultMaxBlockBytes else maxBlockBytes in
  match datahubURLs with
  | [] => Err (ErrMsg "no DataHub URLs configured")
  | _ => fetchLoop get datahubURLs maxBlockBytes validator
  end.

Definition FetchBlockDataForBUMPWithCap (get : string -> Res response) (datahubURLs : list string)
    (maxBlockBytes : Z) : Res blockData :=
  FetchBlockDataForBUMPWithOptions get datahubURLs maxBlockBytes None.

Definition FetchBlockDataForBUMP (get : string -> Res response) (datahubURLs : list string) : Res blockData :=
  FetchBlockDataForBUMPWithOptions get datahubURLs DefaultMaxBlockBytes None.
End Datahub.

(** ** The format *)

(** What the parser relies on: the varint and transaction codecs of go-sdk,
    each decoding its own encoding and consuming no more than it was given. *)
Class BlockCodec (readVarInt : list byte -> Res (Z * list byte)) (NewTransactionFromStream : list byte -> Res nat)
    (putVarInt : Z -> list byte) (isTx : list byte -> Prop) : Prop := {
  varint_roundtrip z rest : is_u64 z -> readVarInt (putVarInt z ++ rest) = Ok (z, rest);
  varint_consumes r z rest : readVarInt r = Ok (z, rest) -> (length rest < length r)%nat ∧ (0 <= z)%Z;
  tx_roundtrip tx rest : isTx tx -> NewTransactionFromStream (tx ++ rest) = Ok (length tx)
}.

Section Format.
Context (readVarInt : list byte -> Res (Z * list byte)) (NewTransactionFromStream : list byte -> Res nat).
Context (putVarInt : Z -> list byte) (isTx : list byte -> Prop).
Context `{Codec : !BlockCodec readVarInt NewTransactionFromStream putVarInt isTx}.

(** The binary block: header, counts, subtree hashes, coinbase transaction,
    height, coinbase BUMP. *)
Definition encodeBlock (before root after : list byte) (txCount size height : Z) (hashes : list Hash)
    (tx cb : list byte) : list byte :=
  before ++ root ++ after ++ putVarInt txCount ++ putVarInt size ++ putVarInt (Z.of_nat (length hashes)) ++
  concat (bytesOfHash <$> hashes) ++ tx ++ putVarInt height ++ putVarInt (Z.of_nat (length cb)) ++ cb.

Lemma hash_bytes h : hashOfBytes (bytesOfHash h) = h.
Proof. apply String.string_of_list_byte_of_string. Qed.

Lemma readHashes_encoded hashes rest :
  Forall (fun h => length (bytesOfHash h) = 32%nat) hashes ->
  readHashes (length hashes) (concat (bytesOfHash <$> hashes) ++ rest) = Ok (hashes, rest).
Proof.
  induction 1 as [|h hashes Hh _ IH]; [done|]. cbn [length readHashes fmap list_fmap concat]. rewrite <-app_assoc.
  rewrite (proj2 (Nat.ltb_ge _ _)) by (rewrite length_app; lia).
  rewrite drop_app_length', IH, take_app_length' by done. by rewrite hash_bytes.
Qed.

Lemma concat_hashes_length hashes :
  Forall (fun h => length (bytesOfHash h) = 32%nat) hashes ->
  length (concat (bytesOfHash <$> hashes)) = (32 * length hashes)%nat.
Proof. induction 1 as [|h hashes Hh _ IH]; [done|]. rewrite fmap_cons. cbn [concat length]. rewrite length_app, IH, Hh. lia. Qed.

(** C30: The parser inverts the documented block format: for every block whose
    counts are within the limits, the parsed subtree hashes, coinbase BUMP and
    header root are those that were encoded. *)
Theorem parseBlockBinary_roundtrip (before root after tx cb : list byte) (txCount size height : Z) (hashes : list Hash) :
  length before = 36%nat -> length root = 32%nat -> length after = 12%nat ->
  (0 <= txCount <= maxTxCount)%Z -> (0 <= size <= maxBlockSizeBytes)%Z -> is_u64 height ->
  (Z.of_nat (length hashes) <= maxSubtreeCount)%Z -> (Z.of_nat (length cb) < 2 ^ 64)%Z ->
  Forall (fun h => length (bytesOfHash h) = 32%nat) hashes -> isTx tx ->
  parseBlockBinary readVarInt NewTransactionFromStream
    (encodeBlock before root after txCount size height hashes tx cb) = Ok (hashes, cb, hashOfBytes root).
Proof.
  intros Lb Lr La Htc Hsz Hht Hn Hcb Hh Htx. unfold parseBlockBinary, encodeBlock.
  assert (is_u64 txCount) as Ut by (unfold is_u64, maxTxCount in *; lia).
  assert (is_u64 size) as Us by (unfold is_u64, maxBlockSizeBytes in *; lia).
  assert (is_u64 (Z.of_nat (length hashes))) as Un by (unfold is_u64, maxSubtreeCount in *; lia).
  rewrite (proj2 (Nat.ltb_ge _ _)) by (rewrite !length_app; lia).
  rewrite (drop_app_length' before _ 36), take_app_length' by done.
  replace (drop 80 _) with (putVarInt txCount ++ putVarInt size ++ putVarInt (Z.of_nat (length hashes)) ++
    concat (bytesOfHash <$> hashes) ++ tx ++ putVarInt height ++ putVarInt (Z.of_nat (length cb)) ++ cb).
  2:{ rewrite (app_assoc before root), (app_assoc (before ++ root) after). symmetry. apply drop_app_length'.
      rewrite !length_app. lia. }
  rewrite varint_roundtrip, (proj2 (Z.ltb_ge _ _)) by lia || done.
  rewrite varint_roundtrip, (proj2 (Z.ltb_ge _ _)) by lia || done.
  rewrite varint_roundtrip, (proj2 (Z.ltb_ge _ _)) by lia || done.
  rewrite (proj2 (Z.ltb_ge _ _)).
  2:{ rewrite length_app, concat_hashes_length by done. apply inj_le. apply Nat.div_le_lower_bound; lia. }
  rewrite Nat2Z.id, readHashes_encoded by done. do 3 f_equal. unfold parseCoinbaseTail.
  rewrite tx_roundtrip, drop_app_length by done. rewrite varint_roundtrip, varint_roundtrip by (done || unfold is_u64; lia).
  destruct (Z.eqb_spec (Z.of_nat (length cb)) 0) as [E|E]; [by destruct cb|].
  by rewrite Z.ltb_irrefl, Nat2Z.id, firstn_all.
Qed.

Lemma readHashes_length n r hs rest :
  readHashes n r = Ok (hs, rest) -> length hs = n ∧ length r = (32 * n + length rest)%nat.
Proof.
  revert r hs. induction n as [|n IH]; intros r hs; cbn [readHashes]; [intros [= <- <-]; simpl; lia|].
  destruct (Nat.ltb_spec (length r) 32); [done|]. destruct (readHashes n (drop 32 r)) as [[hs' r']|] eqn:E; [|done].
  intros [= <- <-]. destruct (IH _ _ E) as [H1 H2]. rewrite length_drop in H2. simpl. lia.
Qed.

Lemma parseCoinbaseTail_length r : (length (parseCoinbaseTail readVarInt NewTransactionFromStream r) <= length r)%nat.
Proof.
  unfold parseCoinbaseTail. destruct (NewTransactionFromStream r) as [used|]; [|simpl; lia].
  destruct (readVarInt (drop used r)) as [[z1 r1]|] eqn:E1; [|simpl; lia].
  destruct (readVarInt r1) as [[z2 r2]|] eqn:E2; [|simpl; lia].
  apply varint_consumes in E1 as [E1 _], E2 as [E2 _]. rewrite length_drop in E1.
  destruct (z2 =? 0)%Z; [simpl; lia|]. destruct (_ <? z2)%Z; [simpl; lia|]. rewrite length_take. lia.
Qed.

(** What a response can make the parser hold is bounded by the response:
    the parsed hashes and coinbase BUMP together are no longer than the body,
    and the number of hashes respects the limit whatever the counts in the
    body say. *)
Theorem parseBlockBinary_bounds (data : list byte) (hashes : list Hash) (cb : list byte) (root : Hash) :
  parseBlockBinary readVarInt NewTransactionFromStream data = Ok (hashes, cb, root) ->
  (Z.of_nat (length hashes) <= maxSubtreeCount)%Z ∧ (80 + 32 * length hashes + length cb <= length data)%nat.
Proof.
  unfold parseBlockBinary. destruct (Nat.ltb_spec (length data) 80); [done|].
  destruct (readVarInt (drop 80 data)) as [[z1 r1]|] eqn:E1; [|done]. destruct (maxTxCount <? z1)%Z; [done|].
  destruct (readVarInt r1) as [[z2 r2]|] eqn:E2; [|done]. destruct (maxBlockSizeBytes <? z2)%Z; [done|].
  destruct (readVarInt r2) as [[z3 r3]|] eqn:E3; [|done]. destruct (Z.ltb_spec maxSubtreeCount z3); [done|].
  destruct (_ <? z3)%Z; [done|]. destruct (readHashes _ r3) as [[hs r4]|] eqn:E4; [|done]. intros [= <- <- _].
  apply varint_consumes in E1 as [E1 _], E2 as [E2 _], E3 as [E3 Hz]. rewrite length_drop in E1.
  destruct (readHashes_length _ _ _ _ E4) as [H1 H2]. pose proof (parseCoinbaseTail_length r4). lia.
Qed.
End Format.

(** ** The endpoint loop *)
Section Fetch.
Context (parse : list byte -> Res MerklePath) (ComputeRoot : MerklePath -> Hash -> Res Hash).
Context (readVarInt : list byte -> Res (Z * list byte)) (NewTransactionFromStream : list byte -> Res nat).

(** A response that may be used: within the cap, accepted by the validator,
    and with a coinbase BUMP, if any, that computes the served header root. *)
Definition acceptable (exchange : Res response) (cap : Z) (validator : option BlockDataValidator) (d : blockData) : Prop :=
  let '(hashes, cb, root) := d in
  ∃ resp, exchange = Ok resp ∧ r_status resp = 200%Z ∧ r_end resp = None ∧
    (r_contentLength resp <= cap ∨ r_contentLength resp < 0)%Z ∧ (Z.of_nat (length (r_body resp)) <= cap)%Z ∧
    parseBlockBinary readVarInt NewTransactionFromStream (r_body resp) = Ok d ∧
    (∀ v, validator = Some v -> v hashes root = Ok tt) ∧
    (cb ≠ [] -> ∃ cbPath t, parse cb = Ok cbPath ∧ extractCoinbaseTxID parse cb = Some t ∧ ComputeRoot cbPath t = Ok root).

Lemma reconciles_spec cb root :
  is_ok (coinbaseBUMPReconciles parse ComputeRoot cb root) = true ↔
  (cb ≠ [] -> ∃ cbPath t, parse cb = Ok cbPath ∧ extractCoinbaseTxID parse cb = Some t ∧ ComputeRoot cbPath t = Ok root).
Proof.
  unfold coinbaseBUMPReconciles. destruct cb as [|b cb]; [by split|]. set (c := b :: cb).
  destruct (parse c) as [p|] eqn:Ep; [|split; [done|]; intros Hx; by destruct Hx as (? & ? & ? & _)].
  destruct (extractCoinbaseTxID parse c) as [t|] eqn:Et; [|split; [done|]; intros Hx; by destruct Hx as (? & ? & ? & ? & _)].
  destruct (ComputeRoot p t) as [g|] eqn:Eg.
  - destruct (String.eqb_spec g root) as [->|Hne]; [by split; [eauto 10|]|]. split; [done|].
    intros Hx. destruct Hx as (p' & t' & E1 & E2 & E3); [done|]. congruence.
  - split; [done|]. intros Hx. destruct Hx as (p' & t' & E1 & E2 & E3); [done|]. congruence.
Qed.

Lemma tryURL_spec exchange cap validator d :
  tryURL parse ComputeRoot readVarInt NewTransactionFromStream exchange cap validator = Some d ↔
  acceptable exchange cap validator d.
Proof.
  unfold tryURL, fetchBlockBinary, acceptable. destruct d as [[hashes cb] root].
  destruct exchange as [resp|e]; [|split; [done|]; by intros (? & ? & _)].
  destruct (Z.eqb_spec (r_status resp) 200) as [Es|Es]; cbn [negb];
    [|split; [done|]; intros (r & [= <-] & ? & _); done].
  destruct (Z.leb_spec 0 (r_contentLength resp)), (Z.ltb_spec cap (r_contentLength resp)); cbn [andb];
    try (split; [done|]; intros (r & [= <-] & _ & _ & ? & _); lia);
  (destruct (Z.ltb_spec cap (Z.of_nat (length (r_body resp)))); [split; [done|]; intros (r & [= <-] & _ & _ & _ & ? & _); lia|];
   destruct (r_end resp) as [e|] eqn:Ee; [split; [done|]; intros (r & [= <-] & _ & ? & _); congruence|];
   destruct (parseBlockBinary _ _ (r_body resp)) as [[[hs c] rt]|] eqn:Ep;
     [|split; [done|]; intros (r & [= <-] & _ & _ & _ & _ & ? & _); congruence];
   split;
   [intros E; exists resp;
    destruct (match validator with None => true | Some v => is_ok (v hs rt) end) eqn:Ev; [|done]; cbn [andb] in E;
    destruct (is_ok (coinbaseBUMPReconciles parse ComputeRoot c rt)) eqn:Ec; [|done]; injection E as <- <- <-;
    split_and!; [done|done|done|lia|lia|done| |by apply reconciles_spec];
    intros v ->; by destruct (v hs rt) as [[]|]
   |intros (r & [= <-] & _ & _ & _ & _ & E & Hv & Hc); rewrite Ep in E; injection E as -> -> ->;
    apply reconciles_spec in Hc; rewrite Hc, andb_true_r; destruct validator as [v|]; [by rewrite (Hv v eq_refl)|done]]).
Qed.

(** The loop returns the response of the first endpoint that is
    acceptable, whatever the ones before it answered, and fails only when no
    endpoint is; so one good endpoint is enough, and a returned block is within
    the cap, passed the validator and has a coinbase BUMP that reconciles. *)
Theorem FetchBlockData_first_acceptable (get : string -> Res response) (urls : list string) (maxBytes : Z)
    (validator : option BlockDataValidator) :
  let cap := if (maxBytes <=? 0)%Z then DefaultMaxBlockBytes else maxBytes in
  let r := FetchBlockDataForBUMPWithOptions parse ComputeRoot readVarInt NewTransactionFromStream get urls maxBytes validator in
  (∀ d, r = Ok d ↔ ∃ pre url post, urls = pre ++ url :: post ∧ acceptable (get url) cap validator d ∧
                     ∀ u, u ∈ pre -> ∀ d', ¬ acceptable (get u) cap validator d') ∧
  (is_ok r = false ↔ ∀ u, u ∈ urls -> ∀ d', ¬ acceptable (get u) cap validator d').
Proof.
  intros cap r.
  assert (r = match urls with [] => Err (ErrMsg "no DataHub URLs configured") | _ =>
    fetchLoop parse ComputeRoot readVarInt NewTransactionFromStream get urls cap validator end) as Er by done.
  assert (∀ us, (∀ d, fetchLoop parse ComputeRoot readVarInt NewTransactionFromStream get us cap validator = Ok d ↔
      ∃ pre url post, us = pre ++ url :: post ∧ acceptable (get url) cap validator d ∧
        ∀ u, u ∈ pre -> ∀ d', ¬ acceptable (get u) cap validator d') ∧
    (is_ok (fetchLoop parse ComputeRoot readVarInt NewTransactionFromStream get us cap validator) = false ↔
      ∀ u, u ∈ us -> ∀ d', ¬ acceptable (get u) cap validator d')) as Hloop.
  { induction us as [|u us [IH1 IH2]]; cbn [fetchLoop].
    - split; [|split; [by intros _ u ?%elem_of_nil|done]]. intros d. split; [done|]. intros (pre & url & post & E & _). by destruct pre.
    - destruct (tryURL _ _ _ _ (get u) cap validator) as [d0|] eqn:Et.
      + apply tryURL_spec in Et as Ha. split; [|split; [done|]; intros Hn; by destruct (Hn u (list_elem_of_here _ _) d0)].
        intros d. split; [intros [= <-]; exists [], u, us; split_and!; [done|done|by intros x ?%elem_of_nil]|].
        intros ([|x pre] & url & post & E & Hd & Hpre); injection E as -> E.
        * apply tryURL_spec in Hd. congruence.
        * by destruct (Hpre x (list_elem_of_here _ _) d0).
      + assert (∀ d, ¬ acceptable (get u) cap validator d) as Hno by (intros d Hd%tryURL_spec; congruence). split.
        * intros d. rewrite IH1. split.
          -- intros (pre & url & post & -> & Hd & Hpre). exists (u :: pre), url, post. split_and!; [done|done|].
             intros x [->|Hx]%elem_of_cons; [done|by apply Hpre].
          -- intros ([|x pre] & url & post & E & Hd & Hpre); injection E as -> E; [by destruct (Hno d)|].
             exists pre, url, post. split_and!; [done|done|]. intros y Hy. apply Hpre. by right.
        * rewrite IH2. split; [intros Hn x [->|Hx]%elem_of_cons; auto|]. intros Hn x Hx. apply Hn. by right. }
  rewrite Er. destruct urls as [|u us]; [|apply Hloop]. split; [|split; [by intros _ x ?%elem_of_nil|done]].
  intros d. split; [done|]. intros (pre & url & post & E & _). by destruct pre.
Qed.
End Fetch.

(** ** A concrete codec: nine-byte varints and four-byte transactions *)
Section CodecExample.
Import coqutil.Word.LittleEndianList.

Definition zReadVarInt (r : list byte) : Res (Z * list byte) :=
  match r with
  | xff :: r => if (length r <? 8)%nat then Err ErrIO else Ok (le_combine (take 8 r), drop 8 r)
  | _ => Err ErrIO
  end.
Definition zPutVarInt (z : Z) : list byte := xff :: le_split 8 z.
Definition zTx (r : list byte) : Res nat := if (length r <? 4)%nat then Err ErrIO else Ok 4%nat.

#[export] Instance zCodec : BlockCodec zReadVarInt zTx zPutVarInt (fun tx => length tx = 4%nat).
Proof.
  split.
  - intros z rest Hz. change (zPutVarInt z ++ rest) with (xff :: (le_split 8 z ++ rest)). cbn [zReadVarInt].
    assert (length (le_split 8 z) = 8%nat) as E by apply length_le_split.
    rewrite (proj2 (Nat.ltb_ge _ _)) by (rewrite length_app; lia).
    rewrite take_app_length', drop_app_length', le_combine_split by done. do 2 f_equal. by apply Z.mod_small.
  - intros r z rest. unfold zReadVarInt. destruct r as [|b r]; [done|]. destruct b; try discriminate.
    destruct (Nat.ltb_spec (length r) 8); [done|]. intros [= <- <-]. rewrite length_drop. split; [simpl; lia|].
    apply le_combine_bound.
  - intros tx rest Htx. unfold zTx. rewrite (proj2 (Nat.ltb_ge _ _)); [by rewrite Htx|]. rewrite length_app. lia.
Qed.

Definition zBlock : list byte :=
  encodeBlock zPutVarInt (replicate 36 x00) (replicate 32 x07) (replicate 12 x00) 5 900 100
    [hashOfBytes (replicate 32 x01); hashOfBytes (replicate 32 x02)] [x00; x00; x00; x00] [x0a; x0b].

Lemma parseBlockBinary_roundtrip_witness :
  parseBlockBinary zReadVarInt zTx zBlock
  = Ok ([hashOfBytes (replicate 32 x01); hashOfBytes (replicate 32 x02)], [x0a; x0b], hashOfBytes (replicate 32 x07)).
Proof.
  apply (parseBlockBinary_roundtrip zReadVarInt zTx zPutVarInt (fun tx => length tx = 4%nat));
    try reflexivity; try (vm_compute; split; congruence); try (vm_compute; congruence).
  repeat (apply Forall_cons; split; [reflexivity|]). apply Forall_nil. exact I.
Defined.

Lemma parseBlockBinary_bounds_witness : (2 <= maxSubtreeCount)%Z ∧ (80 + 32 * 2 + 2 <= length zBlock)%nat.
Proof.
  exact (parseBlockBinary_bounds zReadVarInt zTx zPutVarInt (fun tx => length tx = 4%nat) zBlock
    [hashOfBytes (replicate 32 x01); hashOfBytes (replicate 32 x02)] [x0a; x0b] (hashOfBytes (replicate 32 x07)) eq_refl).
Defined.
End CodecExample.
