(* ===== verification/Effects.v ===== *)
(** * Effects: programs that call stores, header sources and clients

    The services are sequential programs whose every interaction with the
    store, the chain-header source, the clock, the context and other services
    is a call with an answer.  A program is a tree of calls; an execution is
    the list of its calls with the answers they got.  Nothing is assumed of
    the answers, so a statement about all executions covers every
    interleaving with other replicas and services, every failure and, because
    executions may be cut short, a crash at any point.

    [wp] is the weakest-precondition calculus the service proofs use: a
    guarantee that must hold whenever a call is made, a rely on the answers,
    and a postcondition.  [run] executes a program against a stateful
    handler. *)
From stdpp Require Import base list.

Section Effects.
Context {call : Type} {answer : call -> Type}.

Inductive prog (A : Type) : Type :=
| Ret (a : A)
| Call (c : call) (k : answer c -> prog A).
Arguments Ret {A} a.
Arguments Call {A} c k.

#[export] Instance prog_ret : MRet prog := @Ret.
#[export] Instance prog_bind : MBind prog := fun A B f =>
  fix bind (p : prog A) : prog B :=
    match p with
    | Ret a => f a
    | Call c k => Call c (fun x => bind (k x))
    end.

(** One call. *)
Definition perform (c : call) : prog (answer c) := Call c Ret.

(** ** Executions *)

Record event : Type := Event { ev_call : call; ev_answer : answer ev_call }.
Definition trace : Type := list event.

(** [steps p tr q]: after the calls of [tr], [q] is left of [p]. *)
Inductive steps {A} : prog A -> trace -> prog A -> Prop :=
| steps_nil p : steps p [] p
| steps_cons c k x tr q : steps (k x) tr q -> steps (Call c k) (Event c x :: tr) q.

(** A complete execution, and one that may have been cut short. *)
Definition ends {A} (p : prog A) (tr : trace) (a : A) : Prop := steps p tr (Ret a).
Definition begins {A} (p : prog A) (tr : trace) : Prop := ∃ q, steps p tr q.

Lemma ends_begins {A} (p : prog A) tr a : ends p tr a -> begins p tr.
Proof. intros ?. by eexists. Qed.

Lemma steps_prefix {A} (p q : prog A) tr1 tr2 : steps p (tr1 ++ tr2) q -> begins p tr1.
Proof.
  revert p. induction tr1 as [|e tr1 IH]; intros p H; [eexists; constructor|].
  simpl in H. inversion H; subst. destruct (IH (k x)) as [r Hr]; [done|].
  eexists. by constructor.
Qed.

(** ** Weakest preconditions *)

Section Wp.
(** What the program promises when it makes a call, and what it may assume of
    an answer, both given the calls so far. *)
Context (guar : trace -> call -> Prop) (rely : trace -> event -> Prop).

Fixpoint wp {A} (p : prog A) (tr : trace) (Q : A -> trace -> Prop) : Prop :=
  match p with
  | Ret a => Q a tr
  | Call c k => guar tr c ∧ ∀ x, rely tr (Event c x) -> wp (k x) (tr ++ [Event c x]) Q
  end.

(** The rely holds of every answer of [tr], after [tr0]. *)
Definition honoured (tr0 tr : trace) : Prop :=
  ∀ tr1 e tr2, tr = tr1 ++ e :: tr2 -> rely (tr0 ++ tr1) e.

Lemma honoured_nil tr0 : honoured tr0 [].
Proof. intros [|??] ??; done. Qed.

Lemma honoured_cons tr0 e tr : honoured tr0 (e :: tr) -> rely tr0 e ∧ honoured (tr0 ++ [e]) tr.
Proof.
  intros H. split.
  - specialize (H [] e tr eq_refl). by rewrite app_nil_r in H.
  - intros tr1 e' tr2 ->. specialize (H (e :: tr1) e' tr2 eq_refl). by rewrite <-app_assoc.
Qed.

Lemma wp_mono {A} (p : prog A) tr (Q Q' : A -> trace -> Prop) :
  wp p tr Q -> (∀ a tr', Q a tr' -> Q' a tr') -> wp p tr Q'.
Proof.
  revert tr. induction p as [a|c k IH]; intros tr H HQ; [by apply HQ|].
  destruct H as [Hg H]. split; [done|]. intros x Hx. eauto.
Qed.

Lemma wp_bind {A B} (p : prog A) (f : A -> prog B) tr Q :
  wp p tr (fun a tr' => wp (f a) tr' Q) -> wp (p ≫= f) tr Q.
Proof.
  revert tr. induction p as [a|c k IH]; intros tr H; [done|].
  destruct H as [Hg H]. split; [done|]. intros x Hx. apply IH. auto.
Qed.

Lemma wp_ret {A} (a : A) tr (Q : A -> trace -> Prop) : Q a tr -> wp (Ret a) tr Q.
Proof. done. Qed.

Lemma wp_perform c tr (Q : answer c -> trace -> Prop) :
  guar tr c -> (∀ x, rely tr (Event c x) -> Q x (tr ++ [Event c x])) -> wp (perform c) tr Q.
Proof. done. Qed.

(** Two facts about one program. *)
Lemma wp_and {A} (p : prog A) tr (Q Q' : A -> trace -> Prop) :
  wp p tr Q -> wp p tr Q' -> wp p tr (fun a tr' => Q a tr' ∧ Q' a tr').
Proof.
  revert tr. induction p as [a|c k IH]; intros tr H H'; [done|].
  destruct H as [Hg H], H' as [_ H']. split; [done|]. auto.
Qed.

(** The calculus is sound for executions: the guarantee held at every call,
    of executions cut short too, and the postcondition holds at the end. *)
Lemma wp_steps {A} (p q : prog A) tr0 tr Q :
  wp p tr0 Q -> steps p tr q -> honoured tr0 tr -> wp q (tr0 ++ tr) Q.
Proof.
  intros H Hs. revert tr0 H. induction Hs as [p|c k x tr q Hs IH]; intros tr0 H Hr.
  - by rewrite app_nil_r.
  - apply honoured_cons in Hr as [Hx Hr]. destruct H as [_ H].
    specialize (IH _ (H x Hx) Hr). by rewrite <-app_assoc in IH.
Qed.

Lemma wp_begins {A} (p : prog A) tr Q tr1 e tr2 :
  wp p [] Q -> begins p tr -> honoured [] tr -> tr = tr1 ++ e :: tr2 -> guar tr1 (ev_call e).
Proof.
  intros H [q Hs] Hr ->. revert Hs H Hr. change tr1 with ([] ++ tr1) at 3. generalize (@nil event) as tr0.
  revert p. induction tr1 as [|e' tr1 IH]; intros p tr0 Hs H Hr.
  - simpl in Hs. inversion Hs; subst. rewrite app_nil_r. apply H.
  - simpl in Hs. inversion Hs; subst. apply honoured_cons in Hr as [Hx Hr]. destruct H as [_ H].
    specialize (IH (k x) (tr0 ++ [Event c x]) ltac:(done) (H x Hx) Hr). by rewrite <-app_assoc in IH.
Qed.

Lemma wp_ends {A} (p : prog A) tr a Q :
  wp p [] Q -> ends p tr a -> honoured [] tr -> Q a tr.
Proof. intros H Hs Hr. apply (wp_steps _ _ _ _ _ H Hs Hr). Qed.
End Wp.

(** Weakening the rely and strengthening the guarantee. *)
Lemma wp_weaken (g g' : trace -> call -> Prop) (r r' : trace -> event -> Prop) {A} (p : prog A) tr Q :
  (∀ t c, g t c -> g' t c) -> (∀ t e, r' t e -> r t e) -> wp g r p tr Q -> wp g' r' p tr Q.
Proof.
  intros Hg Hr. revert tr. induction p as [a|c k IH]; intros tr H; [done|].
  destruct H as [H1 H2]. split; [by apply Hg|]. intros x Hx. apply IH, H2, Hr, Hx.
Qed.

(** ** Which calls a program makes *)

(** Every call of [p], on every answer, is in [K]. *)
Fixpoint makes {A} (K : call -> bool) (p : prog A) : Prop :=
  match p with
  | Ret _ => True
  | Call c k => K c = true ∧ ∀ x, makes K (k x)
  end.

Lemma makes_ret {A} K (a : A) : makes K (mret a).
Proof. done. Qed.
Lemma makes_perform K c : K c = true -> makes K (perform c).
Proof. done. Qed.
Lemma makes_bind {A B} K (p : prog A) (f : A -> prog B) :
  makes K p -> (∀ a, makes K (f a)) -> makes K (p ≫= f).
Proof. intros Hp Hf. induction p as [a|c k IH]; [apply Hf|]. destruct Hp as [Hc Hk]. split; [done|]. auto. Qed.

Lemma makes_mono {A} (K K' : call -> bool) (p : prog A) :
  makes K p -> (∀ c, K c = true -> K' c = true) -> makes K' p.
Proof. intros Hp HK. induction p as [a|c k IH]; [done|]. destruct Hp as [Hc Hk]. split; [by apply HK|]. auto. Qed.

Lemma makes_begins {A} K (p : prog A) tr e : makes K p -> begins p tr -> e ∈ tr -> K (ev_call e) = true.
Proof.
  intros Hp [q Hs]. revert Hp. induction Hs as [p|c k x tr q Hs IH]; intros Hp He; [by apply elem_of_nil in He|].
  destruct Hp as [Hc Hk]. apply elem_of_cons in He as [->|He]; [done|]. by apply IH.
Qed.

(** The events of a trace whose call is selected. *)
Definition project (sel : call -> bool) (tr : trace) : trace := List.filter (fun e => sel (ev_call e)) tr.

Lemma project_app sel tr1 tr2 : project sel (tr1 ++ tr2) = project sel tr1 ++ project sel tr2.
Proof. apply List.filter_app. Qed.

Lemma elem_of_project sel tr e : e ∈ project sel tr ↔ e ∈ tr ∧ sel (ev_call e) = true.
Proof.
  unfold project. rewrite !list_elem_of_In, List.filter_In. done.
Qed.

(** A program that makes no selected call leaves the projection as it was. *)
Lemma makes_frame {A} g r sel (p : prog A) tr Q :
  makes (fun c => negb (sel c)) p -> wp g r p tr Q ->
  wp g r p tr (fun a tr' => Q a tr' ∧ project sel tr' = project sel tr).
Proof.
  revert tr. induction p as [a|c k IH]; intros tr Hm H; [done|].
  destruct Hm as [Hc Hk], H as [Hg H]. split; [done|]. intros x Hx.
  eapply wp_mono; [apply IH; auto|]. intros a tr' [HQ E]. split; [done|].
  rewrite E, project_app. simpl. by rewrite (proj1 (negb_true_iff _) Hc), app_nil_r.
Qed.

(** A rule for programs without a selected call, with the trivial guarantee. *)
Lemma quiet_wp {A} sel (p : prog A) tr (Q : A -> trace -> Prop) :
  makes (fun c => negb (sel c)) p -> (∀ a tr', project sel tr' = project sel tr -> Q a tr') ->
  wp (fun _ _ => True) (fun _ _ => True) p tr Q.
Proof.
  intros Hm HQ. eapply wp_mono; [apply (makes_frame _ _ _ _ _ (fun _ _ => True) Hm)|].
  - clear Hm HQ. revert tr. induction p as [a|c k IH]; intros tr; [done|]. split; [done|]. auto.
  - intros a tr' [_ E]. by apply HQ.
Qed.

Lemma wp_total {A} (p : prog A) tr : wp (fun _ _ => True) (fun _ _ => True) p tr (fun _ _ => True).
Proof. revert tr. induction p as [a|c k IH]; intros tr; [done|]. split; [done|]. auto. Qed.

(** A trace only grows. *)
Lemma wp_grows {A} g r (p : prog A) tr Q :
  wp g r p tr Q -> wp g r p tr (fun a tr' => Q a tr' ∧ tr ⊆ tr').
Proof.
  revert tr. induction p as [a|c k IH]; intros tr H; [done|].
  destruct H as [Hg H]. split; [done|]. intros x Hx.
  eapply wp_mono; [apply IH; auto|]. intros a tr' [HQ E]. split; [done|].
  etrans; [|apply E]. intros e He. apply elem_of_app. by left.
Qed.

(** A guarantee that follows from which calls the program makes. *)
Lemma wp_upgrade {A} (K : call -> bool) (g : trace -> call -> Prop) (r : trace -> event -> Prop) (p : prog A) tr Q :
  makes K p -> (∀ tr' c, tr ⊆ tr' -> K c = true -> g tr' c) ->
  wp (fun _ _ => True) (fun _ _ => True) p tr Q -> wp g r p tr Q.
Proof.
  revert tr. induction p as [a|c k IH]; intros tr Hm Hg H; [done|].
  destruct Hm as [Hc Hk], H as [_ H]. split; [by apply Hg|]. intros x _. apply IH; [done| |by apply H].
  intros tr' c' Hs. apply Hg. intros e He. apply Hs, elem_of_app. by left.
Qed.

(** Weakening the guarantee after what was already done. *)
Lemma wp_from {A} (g g' : trace -> call -> Prop) (r : trace -> event -> Prop) (p : prog A) tr Q :
  (∀ t c, tr ⊆ t -> g t c -> g' t c) -> wp g r p tr Q -> wp g' r p tr Q.
Proof.
  revert tr. induction p as [a|c k IH]; intros tr Hg H; [done|].
  destruct H as [Hc H]. split; [by apply Hg|]. intros x Hx. apply IH; [|by apply H].
  intros t c' Hs. apply Hg. intros e He. apply Hs, elem_of_app. by left.
Qed.

(** While no selected call is made the projection stays. *)
Lemma wp_framed {A} sel (g : trace -> call -> Prop) (r : trace -> event -> Prop) (p : prog A) tr Q :
  makes (fun c => negb (sel c)) p -> wp g r p tr Q -> wp (fun t c => g t c ∧ project sel t = project sel tr) r p tr Q.
Proof.
  intros Hm H. assert (∀ tr0, project sel tr0 = project sel tr -> wp g r p tr0 Q ->
    wp (fun t c => g t c ∧ project sel t = project sel tr) r p tr0 Q) as Hgen; [|by apply Hgen].
  clear H. induction p as [a|c k IH]; intros tr0 E H; [done|]. destruct Hm as [Hc Hk], H as [Hg H]. split; [done|].
  intros x Hx. apply IH; [done| |by apply H]. rewrite project_app, E. cbn. by rewrite (proj1 (negb_true_iff _) Hc), app_nil_r.
Qed.

(** ** Running against a handler *)

Section Run.
Context {S : Type} (handle : ∀ c : call, S -> answer c * S).

Fixpoint run {A} (p : prog A) (s : S) : A * S :=
  match p with
  | Ret a => (a, s)
  | Call c k => let '(x, s) := handle c s in run (k x) s
  end.

Lemma run_bind {A B} (p : prog A) (f : A -> prog B) s :
  run (p ≫= f) s = (let '(a, s) := run p s in run (f a) s).
Proof.
  revert s. induction p as [a|c k IH]; intros s; [done|]. simpl.
  destruct (handle c s) as [x s']. apply IH.
Qed.

(** The calls of a run, with their answers. *)
Fixpoint run_trace {A} (p : prog A) (s : S) : trace :=
  match p with
  | Ret _ => []
  | Call c k => let '(x, s) := handle c s in Event c x :: run_trace (k x) s
  end.

Lemma run_trace_bind {A B} (p : prog A) (f : A -> prog B) s :
  run_trace (p ≫= f) s = run_trace p s ++ (let '(a, s) := run p s in run_trace (f a) s).
Proof.
  revert s. induction p as [a|c k IH]; intros s; [done|]. simpl.
  destruct (handle c s) as [x s']. simpl. f_equal. apply IH.
Qed.

Lemma run_ends {A} (p : prog A) s : ends p (run_trace p s) (run p s).1.
Proof.
  revert s. induction p as [a|c k IH]; intros s; [constructor|]. simpl.
  destruct (handle c s) as [x s'] eqn:E. constructor. apply IH.
Qed.

Lemma run_begins {A} (p : prog A) s : begins p (run_trace p s).
Proof. eexists. apply run_ends. Qed.

(** A handler whose answers keep the rely. *)
Lemma run_honoured {A} (rely : trace -> event -> Prop) (p : prog A) s tr0 :
  (∀ tr c s, rely tr (Event c (handle c s).1)) -> honoured rely tr0 (run_trace p s).
Proof.
  intros Hr. revert s tr0. induction p as [a|c k IH]; intros s tr0; [apply honoured_nil|]. cbn [run_trace].
  specialize (Hr tr0 c s). destruct (handle c s) as [x s']. intros [|e0 tr1] e tr2 E; injection E as <- E; [by rewrite app_nil_r|].
  specialize (IH x s' (tr0 ++ [Event c x]) tr1 e tr2 E). by rewrite <-app_assoc in IH.
Qed.
End Run.

(** ** Programs with a local state *)

(** The mutable fields of the service's own object. *)
Definition eff (St A : Type) : Type := St -> prog (A * St).

#[export] Instance eff_ret St : MRet (eff St) := fun A a s => Ret (a, s).
#[export] Instance eff_bind St : MBind (eff St) := fun A B f m s =>
  '(a, s) ← m s; f a s.

Definition lift {St A} (p : prog A) : eff St A := fun s => a ← p; Ret (a, s).
Definition get {St} : eff St St := fun s => Ret (s, s).
Definition modify {St} (f : St -> St) : eff St unit := fun s => Ret (tt, f s).

(** The calls of a program with a local state. *)
Definition emakes {St A} (K : call -> bool) (m : eff St A) : Prop := ∀ s, makes K (m s).

Lemma emakes_ret {St A} K (a : A) : emakes (St := St) K (mret a).
Proof. done. Qed.
Lemma emakes_get {St} K : emakes (St := St) K get.
Proof. done. Qed.
Lemma emakes_modify {St} K (f : St -> St) : emakes K (modify f).
Proof. done. Qed.
Lemma emakes_lift {St A} K (p : prog A) : makes K p -> emakes (St := St) K (lift p).
Proof. intros Hp s. by apply makes_bind. Qed.
Lemma emakes_bind {St A B} K (m : eff St A) (f : A -> eff St B) :
  emakes K m -> (∀ a, emakes K (f a)) -> emakes K (m ≫= f).
Proof. intros Hm Hf s. apply makes_bind; [apply Hm|]. intros [a s']. apply Hf. Qed.

Section WpEff.
Context (guar : trace -> call -> Prop) (rely : trace -> event -> Prop).

Definition ewp {St A} (m : eff St A) (s : St) (tr : trace) (Q : A -> St -> trace -> Prop) : Prop :=
  wp guar rely (m s) tr (fun '(a, s') tr' => Q a s' tr').

Lemma ewp_bind {St A B} (m : eff St A) (f : A -> eff St B) s tr Q :
  ewp m s tr (fun a s' tr' => ewp (f a) s' tr' Q) -> ewp (m ≫= f) s tr Q.
Proof. intros H. apply wp_bind. eapply wp_mono; [apply H|]. by intros [a s'] tr'. Qed.

Lemma ewp_ret {St A} (a : A) (s : St) tr (Q : A -> St -> trace -> Prop) :
  Q a s tr -> ewp (mret a) s tr Q.
Proof. done. Qed.

Lemma ewp_lift {St A} (p : prog A) (s : St) tr (Q : A -> St -> trace -> Prop) :
  wp guar rely p tr (fun a tr' => Q a s tr') -> ewp (lift p) s tr Q.
Proof. intros H. apply wp_bind. exact H. Qed.

Lemma ewp_get {St} (s : St) tr (Q : St -> St -> trace -> Prop) : Q s s tr -> ewp get s tr Q.
Proof. done. Qed.

Lemma ewp_modify {St} (f : St -> St) s tr (Q : unit -> St -> trace -> Prop) :
  Q tt (f s) tr -> ewp (modify f) s tr Q.
Proof. done. Qed.

Lemma ewp_mono {St A} (m : eff St A) s tr (Q Q' : A -> St -> trace -> Prop) :
  ewp m s tr Q -> (∀ a s' tr', Q a s' tr' -> Q' a s' tr') -> ewp m s tr Q'.
Proof. intros H HQ. eapply wp_mono; [apply H|]. intros [a s'] tr'. apply HQ. Qed.
End WpEff.

(** ** Invariants of the local state and the trace *)

Let T : trace -> call -> Prop := fun _ _ => True.
Let R : trace -> event -> Prop := fun _ _ => True.

Definition preserves {A} (I : trace -> Prop) (p : prog A) : Prop :=
  ∀ tr, I tr -> wp T R p tr (fun _ tr' => I tr').
Definition epreserves {St A} (I : St -> trace -> Prop) (m : eff St A) : Prop :=
  ∀ s tr, I s tr -> ewp T R m s tr (fun _ s' tr' => I s' tr').

Lemma preserves_ret {A} I (a : A) : preserves I (mret a).
Proof. by intros tr. Qed.
Lemma preserves_perform I c : (∀ tr x, I tr -> I (tr ++ [Event c x])) -> preserves I (perform c).
Proof. intros HI tr Ht. split; [done|]. intros x _. by apply HI. Qed.
Lemma preserves_bind {A B} I (p : prog A) (f : A -> prog B) :
  preserves I p -> (∀ a, preserves I (f a)) -> preserves I (p ≫= f).
Proof. intros Hp Hf tr Ht. apply wp_bind. eapply wp_mono; [by apply Hp|]. intros a tr'. apply Hf. Qed.

Lemma epreserves_ret {St A} I (a : A) : epreserves (St := St) I (mret a).
Proof. by intros s tr. Qed.
Lemma epreserves_get {St} I : epreserves (St := St) I get.
Proof. by intros s tr. Qed.
Lemma epreserves_modify {St} I (f : St -> St) : (∀ s tr, I s tr -> I (f s) tr) -> epreserves I (modify f).
Proof. intros HI s tr Ht. apply (HI s tr Ht). Qed.
Lemma epreserves_lift {St A} I (p : prog A) : (∀ s, preserves (I s) p) -> epreserves (St := St) I (lift p).
Proof. intros Hp s tr Ht. apply ewp_lift. by apply Hp. Qed.
Lemma epreserves_bind {St A B} I (m : eff St A) (f : A -> eff St B) :
  epreserves I m -> (∀ a, epreserves I (f a)) -> epreserves I (m ≫= f).
Proof. intros Hm Hf s tr Ht. apply ewp_bind. eapply ewp_mono; [by apply Hm|]. intros a s' tr'. apply Hf. Qed.

Lemma epreserves_ends {St A} (I : St -> trace -> Prop) (m : eff St A) s tr a s' :
  epreserves I m -> I s [] -> ends (m s) tr (a, s') -> I s' tr.
Proof.
  intros Hm Hs He. apply (wp_ends T R (m s) tr (a, s') (fun r tr' => I r.2 tr')); [|done|done].
  eapply wp_mono; [by apply (Hm s [])|]. by intros [??].
Qed.
End Effects.

Arguments prog {call} answer A.
Arguments eff {call} answer St A.
Arguments event {call} answer.
Arguments trace {call} answer.
Arguments Event {call answer} ev_call ev_answer.
Arguments Ret {call answer A} a.
Arguments Call {call answer A} c k.

(** Walks through a program and leaves the functions it calls. *)
Ltac makes_step :=
  lazymatch goal with
  | |- emakes _ (_ ≫= _) => apply emakes_bind; [|intros ?]
  | |- emakes _ (mret _) => apply emakes_ret
  | |- emakes _ get => apply emakes_get
  | |- emakes _ (modify _) => apply emakes_modify
  | |- emakes _ (lift _) => apply emakes_lift
  | |- makes _ (_ ≫= _) => apply makes_bind; [|intros ?]
  | |- makes _ (mret _) => apply makes_ret
  | |- makes _ (perform _) => apply makes_perform; reflexivity
  | |- emakes _ (match ?x with _ => _ end) => destruct x
  | |- makes _ (match ?x with _ => _ end) => destruct x
  end.
(** The same for [preserves]; calls are left to the second tactic. *)
Ltac keeps_step tac :=
  lazymatch goal with
  | |- epreserves _ (_ ≫= _) => apply epreserves_bind; [|intros ?]
  | |- epreserves _ (mret _) => apply epreserves_ret
  | |- epreserves _ get => apply epreserves_get
  | |- epreserves _ (lift _) => apply epreserves_lift; intros ?
  | |- preserves _ (_ ≫= _) => apply preserves_bind; [|intros ?]
  | |- preserves _ (mret _) => apply preserves_ret
  | |- preserves ?I (perform ?c) => apply (preserves_perform I c); tac
  | |- epreserves _ (match ?x with _ => _ end) => destruct x
  | |- preserves _ (match ?x with _ => _ end) => destruct x
  end.
Create HintDb effects.
Ltac makes_auto := repeat makes_step; eauto with effects nocore.

(** ** Walking through a program *)

Ltac wp_one :=
  lazymatch goal with
  | |- ewp _ _ (_ ≫= _) _ _ _ => apply ewp_bind
  | |- ewp _ _ (mret _) _ _ _ => apply ewp_ret
  | |- ewp _ _ (lift _) _ _ _ => apply ewp_lift
  | |- ewp _ _ get _ _ _ => apply ewp_get
  | |- ewp _ _ (modify _) _ _ _ => apply ewp_modify
  | |- wp _ _ (_ ≫= _) _ _ => apply wp_bind
  | |- wp _ _ (mret _) _ _ => apply wp_ret
  end.

(** Everything up to the next call, match or function. *)
Ltac wp_go := repeat (wp_one; cbv beta).

(** One call with answer [x]; [tac] shows its guarantee. *)
Ltac wp_ask x tac :=
  lazymatch goal with |- wp ?g ?r (perform ?c) ?tr ?Q => apply (wp_perform g r c tr Q) end;
  [first [done|solve [tac]]|intros x _; let T := type of x in let T' := eval hnf in T in change T' in x; cbv beta].

(** ** Growing traces *)

Lemma snoc_grows {A} (tr tr' : list A) e : tr ++ [e] ⊆ tr' -> tr ⊆ tr' ∧ e ∈ tr'.
Proof. intros Hs. split; [intros x Hx|]; apply Hs, elem_of_app; [by left|right; by apply list_elem_of_singleton]. Qed.
Lemma snoc_here {A} (tr : list A) e : e ∈ tr ++ [e].
Proof. apply elem_of_app. right. by apply list_elem_of_singleton. Qed.
Lemma grows_snoc {A} (tr : list A) e : tr ⊆ tr ++ [e].
Proof. intros x Hx. apply elem_of_app. by left. Qed.

