(* ===== verification/BumpCalls.v ===== *)
(** * BumpCalls: what the BUMP builder and the reconciler call

    The calls of [src/services/bump_builder] to the store, the chain-header
    source, merkle-service, Teranode and the event publisher, with the types
    of their answers, and [setMinedAndPublish], the core both services share.
    A call may be answered by anything of its type: failures, and whatever
    other services did to the store in between. *)
From stdpp Require Import base gmap strings list.
From Stdlib Require Import ZArith Lia.
From Stdlib Require Import Strings.Byte.
From S2P Require Import Prelude Models Bump BumpBuild Datahub Effects.

(** The fields of [chaintracks.BlockHeader] the code reads. *)
Record BlockHeader : Type := mkBlockHeader {
  hdr_Hash : Hash;
  hdr_MerkleRoot : Hash
}.

Inductive call : Type :=
(* the context, the clock, the scheduler *)
| cCtxErr
| cWait (ns : Z)
| cNow
| cMapOrder (keys : list string)
(* the store *)
| cGetBUMP (blockHash : string)
| cInsertBUMP (blockHash : string) (blockHeight : Z) (bumpData : list byte)
| cGetTxIDsByBlockHash (blockHash : string)
| cSetMinedByTxIDs (blockHash : string) (blockHeight : Z) (txids : list string)
| cSetStatusByBlockHash (blockHash : string) (newStatus : Status)
| cGetStumpsByBlockHash (blockHash : string)
| cDeleteStumpsByBlockHash (blockHash : string)
| cGetBlockProcessingStatus (blockHash : string)
| cListBlockProcessingStatus (beforeHeight limit : Z)
| cListOrphanedBlocksToReconcile (limit : Z)
| cGetActiveTipBlockHeight
| cMarkBlockProcessed (blockHash : string) (blockHeight : Z) (processedAt : Time)
| cClearBlockProcessed (blockHash : string)
| cMarkBlockBUMPBuilt (blockHash : string) (blockHeight : Z) (builtAt : Time)
| cMarkBlocksOrphaned (blockHashes : list string) (orphanedAt : Time)
| cMarkBlockReconciled (blockHash : string) (orphanedAt at_ : Time)
| cRequeueOrphanedBlock (blockHash : string) (orphanedAt : Time)
| cReactivateBlock (blockHash : string) (blockHeight : Z) (orphanedAt : Time)
| cAddBlockExpectedSubtrees (blockHash : string) (indices : list Z)
| cGetBlockExpectedSubtrees (blockHash : string)
| cClearBlockExpectedSubtrees (blockHash : string)
| cTryAcquireOrRenew (name holder : string) (ttl : Z)
| cRelease (name holder : string)
(* the chain-header source, merkle-service, Teranode, the publisher *)
| cGetHeaderByHeight (height : Z)
| cGetHeaderByHash (hash : Hash)
| cReprocess (blockHash callbackURL callbackToken : string)
| cGetHealthyEndpoints
| cGetEndpoints
| cGetBlock (baseURL blockHash : string)
| cPublishBulk (template : TransactionStatus).

(** [cCtxErr] answers whether the context is done; [cWait] whether it ended
    the wait before the timer did; [cMapOrder] the order in which a range
    over a map with these keys visits them. *)
Definition answer (c : call) : Type :=
  match c with
  | cCtxErr | cWait _ => bool
  | cNow => Time
  | cMapOrder keys => { l : list string | l ≡ₚ keys }
  | cGetBUMP _ => Res (Z * list byte)
  | cGetTxIDsByBlockHash _ | cSetStatusByBlockHash _ _ => list string * option error
  | cSetMinedByTxIDs _ _ _ => list (option TransactionStatus) * list TransactionStatus * option error
  | cGetStumpsByBlockHash _ => Res (list Stump)
  | cGetBlockProcessingStatus _ => Res BlockProcessingStatus
  | cListBlockProcessingStatus _ _ | cListOrphanedBlocksToReconcile _ => Res (list BlockProcessingStatus)
  | cGetActiveTipBlockHeight => Res Z
  | cInsertBUMP _ _ _ | cDeleteStumpsByBlockHash _ | cMarkBlockProcessed _ _ _ | cClearBlockProcessed _
  | cMarkBlockBUMPBuilt _ _ _ | cAddBlockExpectedSubtrees _ _ | cClearBlockExpectedSubtrees _
  | cRelease _ _ | cReprocess _ _ _ | cPublishBulk _ => option error
  | cMarkBlocksOrphaned _ _ => Z * option error
  | cMarkBlockReconciled _ _ _ | cRequeueOrphanedBlock _ _ | cReactivateBlock _ _ _ => Res bool
  | cGetBlockExpectedSubtrees _ => Res (list Z)
  | cTryAcquireOrRenew _ _ _ => Res Time
  | cGetHeaderByHeight _ | cGetHeaderByHash _ => Res (option BlockHeader)
  | cGetHealthyEndpoints | cGetEndpoints => list string
  | cGetBlock _ _ => Res response
  end.

Abbreviation Prog := (prog answer).
Abbreviation Trace := (trace answer).

Definition failed (e : option error) : bool := match e with Some _ => true | None => false end.

(** [for start := 0; start < len(l); start += n]: the slices
    [l[start:min(start+n, len(l))]], for a positive [n]. *)
Fixpoint sliceLoop {A} (fuel n : nat) (l : list A) : list (list A) :=
  match fuel, l with
  | S fuel, _ :: _ => take n l :: sliceLoop fuel n (drop n l)
  | _, _ => []
  end.
Definition slicesOf {A} (n : nat) (l : list A) : list (list A) := sliceLoop (length l) n l.

Lemma sliceLoop_concat {A} fuel n (l : list A) :
  (0 < n)%nat -> (length l <= fuel)%nat -> concat (sliceLoop fuel n l) = l.
Proof.
  intros Hn. revert l. induction fuel as [|fuel IH]; intros [|x l] Hl; simpl in *; try done; [lia|].
  rewrite IH; [by rewrite take_drop|]. rewrite length_drop. simpl. lia.
Qed.

Lemma slicesOf_concat {A} n (l : list A) : (0 < n)%nat -> concat (slicesOf n l) = l.
Proof. intros ?. by apply sliceLoop_concat. Qed.

Lemma slicesOf_sized {A} n (l : list A) ch :
  (0 < n)%nat -> ch ∈ slicesOf n l -> ch ≠ [] ∧ (length ch <= n)%nat.
Proof.
  intros Hn. unfold slicesOf. generalize (length l) as fuel. intros fuel. revert l.
  induction fuel as [|fuel IH]; intros [|x l]; simpl; try (intros H; by apply elem_of_nil in H).
  intros [->|H]%elem_of_cons; [|eauto]. destruct n as [|n]; [lia|]. split; [done|]. rewrite length_take. lia.
Qed.

(** ** [setMinedAndPublish] *)

Definition maxTxIDsPerBulkEvent : nat := 5000.
Definition ExtraInfoReorgReanchor : string := "reorg_reanchor".
Definition ExtraInfoReorgUnmined : string := "reorg_unmined".

Definition bulkTemplate (status : Status) (blockHash : string) (blockHeight : Z) (timestamp : Time)
    (txids : list string) (extraInfo : string) : TransactionStatus :=
  mkTransactionStatus "" status 0 timestamp txids blockHash blockHeight [] extraInfo [] [] 0 None None [] None.

(** The [onlyChanged] filter, over the parallel slices. *)
Definition changedOnly (blockHash : string) (prevs : list (option TransactionStatus))
    (mined : list TransactionStatus) : list TransactionStatus :=
  List.map snd (List.filter (fun '(prev, _) =>
    negb (match prev with
          | Some p => String.eqb (ts_Status p) StatusMined && String.eqb (ts_BlockHash p) blockHash
          | None => false
          end)) (zip prevs mined)).

(** The timestamp of a bulk event: the store's transition time of its first
    row, or the clock when that is zero. *)
Definition eventTime (chunk : list TransactionStatus) : Prog Time :=
  match head chunk with
  | Some m => match ts_Timestamp m with
              | Some t => mret (Some t)
              | None => perform cNow
              end
  | None => perform cNow
  end.

(** The publish loop; the answer says whether any publish failed, which the
    builder's [publishFailureRecorder] notes. *)
Fixpoint publishMined (blockHash : string) (blockHeight : Z) (extraInfo : string)
    (chunks : list (list TransactionStatus)) : Prog bool :=
  match chunks with
  | [] => mret false
  | chunk :: rest =>
      ts ← eventTime chunk;
      pubErr ← perform (cPublishBulk (bulkTemplate StatusMined blockHash blockHeight ts
                                        (List.map ts_TxID chunk) extraInfo));
      more ← publishMined blockHash blockHeight extraInfo rest;
      mret (failed pubErr || more)
  end.

(** [publisher] is whether one is wired.  The result is the count and the
    error the code returns, and whether a publish failed. *)
Definition setMinedAndPublish (publisher : bool) (blockHash : string) (blockHeight : Z) (txids : list string)
    (extraInfo : string) (onlyChanged : bool) : Prog (Z * option error * bool) :=
  '(prevs, mined, err) ← perform (cSetMinedByTxIDs blockHash blockHeight txids);
  if failed err && (length mined =? 0)%nat then mret (0%Z, err, false)
  else
    let mined := if onlyChanged then changedOnly blockHash prevs mined else mined in
    if onlyChanged && (length mined =? 0)%nat then mret (0%Z, err, false)
    else if (length mined =? 0)%nat || negb publisher then mret (Z.of_nat (length mined), err, false)
    else
      pubFailed ← publishMined blockHash blockHeight extraInfo (slicesOf maxTxIDsPerBulkEvent mined);
      mret (Z.of_nat (length mined), err, pubFailed).

Section Leaves.
Context (NewMerklePathFromBinary : list byte -> Res MerklePath) (HashString : Hash -> string).

Definition levelZeroTxidsFromBUMP (bumpData : list byte) : Res (list string) :=
  match NewMerklePathFromBinary bumpData with
  | Err e => Err e
  | Ok mp =>
      match mp_Path mp with
      | [] => Ok []
      | level0 :: _ => Ok (HashString <$> omap pe_Hash level0)
      end
  end.
End Leaves.
