(* ===== verification/BumpTrace.v ===== *)
(** * BumpTrace: reasoning about the calls of the BUMP services

    A tactic for calls, the evidence a trace of answers
    gives about headers and stored compounds, and the rule for programs that
    only read, wait and notify. *)
From stdpp Require Import base gmap strings list.
From Stdlib Require Import ZArith Lia.
From Stdlib Require Import Strings.Byte.
From S2P Require Import Prelude Models Bump Effects BumpCalls.

(** ** Tactics *)

(** One call; its guarantee is left as a goal when it is not [auto]. *)
Ltac wp_call x :=
  lazymatch goal with |- wp ?g ?r (perform ?c) ?tr ?Q => apply (wp_perform g r c tr Q) end;
  [auto; try done|intros x _; cbn [answer] in x; cbv beta].

(** ** Evidence *)

Section Evidence.
Context (HashString : Hash -> string).

(** The header source answered that [hash] is the active block at [h]. *)
Definition headerAt (tr : Trace) (h : Z) (hash : string) : Prop :=
  ∃ hd, Event (cGetHeaderByHeight h) (Ok (Some hd)) ∈ tr ∧ HashString (hdr_Hash hd) = hash.

(** There is no header at [h]: out of range, or the source said so. *)
Definition noHeader (tr : Trace) (h : Z) : Prop :=
  h = 0%Z ∨ (maxUint32 < h)%Z ∨ Event (cGetHeaderByHeight h) (Ok None) ∈ tr ∨
  Event (cGetHeaderByHeight h) (Err ErrHeaderNotFound) ∈ tr.

Definition bumpRead (tr : Trace) (b : string) (h : Z) (bytes : list byte) : Prop :=
  Event (cGetBUMP b) (Ok (h, bytes)) ∈ tr.
Definition noBump (tr : Trace) (b : string) : Prop := Event (cGetBUMP b) (Err ErrNotFound) ∈ tr.

(** Evidence stays. *)
Lemma headerAt_mono tr tr' h b : headerAt tr h b -> tr ⊆ tr' -> headerAt tr' h b.
Proof. intros (hd & ? & ?) Hs; exists hd; auto. Qed.
Lemma noHeader_mono tr tr' h : noHeader tr h -> tr ⊆ tr' -> noHeader tr' h.
Proof. unfold noHeader. intros [?|[?|[?|?]]] Hs; auto. Qed.
End Evidence.

(** ** Free calls: they only read, wait or notify *)

Definition free (c : call) : bool :=
  match c with
  | cCtxErr | cWait _ | cNow | cMapOrder _ | cGetBUMP _ | cGetTxIDsByBlockHash _ | cGetStumpsByBlockHash _
  | cGetBlockProcessingStatus _ | cListBlockProcessingStatus _ _ | cListOrphanedBlocksToReconcile _
  | cGetActiveTipBlockHeight | cGetBlockExpectedSubtrees _ | cGetHeaderByHeight _ | cGetHeaderByHash _
  | cGetHealthyEndpoints | cGetEndpoints | cGetBlock _ _ | cPublishBulk _ => true
  | _ => false
  end.

(** A guarantee that admits every free call. *)
Section Free.
Context (G : Trace -> call -> Prop) (Gfree : ∀ tr c, free c = true -> G tr c).
Let R : Trace -> event answer -> Prop := fun _ _ => True.

(** A program of free calls only grows the trace. *)
Definition harmless {A} (p : Prog A) : Prop := makes free p.

Lemma harmless_wp {A} (p : Prog A) tr (Q : A -> Trace -> Prop) :
  harmless p -> (∀ a tr', tr ⊆ tr' -> Q a tr') -> wp G R p tr Q.
Proof.
  revert tr. induction p as [a|c k IH]; intros tr Hp HQ; [by apply HQ|].
  destruct Hp as [Hc Hk]. split; [by apply Gfree|]. intros x _. apply IH; [apply Hk|].
  intros a tr' Hs. apply HQ. by apply snoc_grows in Hs as [? _].
Qed.

Lemma publishMined_harmless b h info chunks : harmless (publishMined b h info chunks).
Proof.
  induction chunks as [|chunk rest IH]; [done|]. cbn [publishMined]. apply makes_bind.
  - unfold eventTime. destruct (head chunk) as [m|]; [|done]. by destruct (ts_Timestamp m).
  - intros ts. apply makes_bind; [done|]. intros e. by apply makes_bind.
Qed.

End Free.
