(* ===== verification/Reconciler.v ===== *)
(** * Reconciler: healing the transactions of orphaned blocks

    Models [src/services/bump_builder/reconciler.go]: the tick, the
    reconciliation of one orphaned block, the resurrection of a block that is
    canonical again, the hand-off of failed re-mines, and the startup
    full-scan.  Every store call, header lookup, wait and poll of the context
    is a call of [BumpCalls]; the fields of the object the code mutates are
    [RState].  Logging and metrics are left out.  Theorems are in
    [ReconcilerProps]. *)
From stdpp Require Import base gmap strings list.
From Stdlib Require Import ZArith Lia.
From Stdlib Require Import Strings.Byte.
From S2P Require Import Prelude Models Bump BumpBuild Effects BumpCalls.

(** ** Configuration and state *)

Record ReconcilerConfig : Type := mkReconcilerConfig {
  rc_IntervalMs : Z;
  rc_BlocksPerTick : Z;
  rc_BatchSize : Z;
  rc_MaxDeferAttempts : Z;
  rc_NeighborhoodDepth : Z;
  rc_RevertWhenUnreconcilable : bool;
  rc_StartupFullScan : bool;
  rc_FullScanDepth : Z;
  rc_FullScanMinHeight : Z;
  rc_FullScanMaxHeight : Z;
  rc_ReadyTimeoutMs : Z;
  rc_CallbackURL : string;
  rc_CallbackToken : string;
  (* which of the optional collaborators are wired *)
  rc_merkle : bool;
  rc_publisher : bool;
  rc_leaser : bool;
  rc_holderID : string
}.

Record RState : Type := mkRState {
  defers : gmap string Z;
  pendingRemine : gmap string Z;
  startupScanDone : bool;
  startupScanAttempts : Z
}.

(** What [NewReconciler] starts from. *)
Definition initialState : RState := mkRState ∅ ∅ false 0.

Definition setDefers (f : gmap string Z -> gmap string Z) (s : RState) : RState :=
  mkRState (f (defers s)) (pendingRemine s) (startupScanDone s) (startupScanAttempts s).
Definition setPending (f : gmap string Z -> gmap string Z) (s : RState) : RState :=
  mkRState (defers s) (f (pendingRemine s)) (startupScanDone s) (startupScanAttempts s).
Definition setScan (done : bool) (attempts : Z) (s : RState) : RState :=
  mkRState (defers s) (pendingRemine s) done attempts.

Abbreviation Eff := (eff answer RState).

Definition ReconcilerLeaseName : string := "anchor-reconciler".
Definition defaultFullScanDepth : Z := 144.
Definition defaultFullScanChaintracksReadyTimeout : Z := 120000000000.
Definition initialBackoff : Z := 250000000.
Definition maxBackoff : Z := 5000000000.
Definition maxStartupFullScanAttempts : Z := 5.
Definition remineRetryAttempts : nat := 3.
Definition remineRetryBackoff : Z := 50000000.
Definition handOffAttempts : nat := 3.
Definition handOffBackoff : Z := 50000000.
Definition maxPendingRemines : nat := 256.

(** [models.ReconcileOutcome] values: the labels of the outcome metric. *)
Inductive outcome : Type :=
| outcomeError
| outcomeDeferred
| outcomeResurrected
| outcomeStale
| outcomeParked
| outcomeMixed
| outcomeReanchored
| outcomeReverted
| outcomeEmpty.

#[export] Instance outcome_eq_dec : EqDecision outcome.
Proof. solve_decision. Defined.

(** [errors.Is]. *)
Definition errorIs (e target : error) : bool := bool_decide (e = target).

Section Reconciler.
Context (NewMerklePathFromBinary : list byte -> Res MerklePath).
Context (NewHashFromHex : string -> Res Hash) (HashString : Hash -> string).
Context `{SortFunc}.
Context (cfg : ReconcilerConfig).

Definition batchSize : nat :=
  if (rc_BatchSize cfg <=? 0)%Z then maxTxIDsPerBulkEvent else Z.to_nat (rc_BatchSize cfg).

(** ** The lease *)

(** [leaseTTL], in nanoseconds; the test override is left out. *)
Definition leaseTTL : Z :=
  let ttl := (3 * (rc_IntervalMs cfg * 1000000))%Z in
  if (ttl <? 60 * 1000000000)%Z then (60 * 1000000000)%Z else ttl.

Definition tryLease : Prog (Time * bool) :=
  if negb (rc_leaser cfg) then mret (None, true)
  else
    r ← perform (cTryAcquireOrRenew ReconcilerLeaseName (rc_holderID cfg) leaseTTL);
    match r with
    | Err _ => mret (None, false)
    | Ok heldUntil => mret (heldUntil, negb (IsZero heldUntil))
    end.

(** ** Headers *)

(** [Ok None]: no header at this height; [Err]: the lookup failed. *)
Definition activeHashAt (height : Z) : Prog (Res (option string)) :=
  if (height =? 0)%Z || (maxUint32 <? height)%Z then mret (Ok None)
  else
    r ← perform (cGetHeaderByHeight height);
    match r with
    | Err e => if errorIs e ErrHeaderNotFound then mret (Ok None) else mret (Err e)
    | Ok None => mret (Ok None)
    | Ok (Some active) => mret (Ok (Some (HashString (hdr_Hash active))))
    end.

(** ** Asking for a rebuild *)

Definition requestRebuild (blockHash : string) : Prog unit :=
  if negb (rc_merkle cfg) || String.eqb (rc_CallbackURL cfg) "" then mret tt
  else
    _ ← perform (cReprocess blockHash (rc_CallbackURL cfg) (rc_CallbackToken cfg));
    mret tt.

Definition maxDefer : Z := if (rc_MaxDeferAttempts cfg <=? 0)%Z then 10 else rc_MaxDeferAttempts cfg.

Definition deferForCanonicalBUMP (orphan canonicalHash : string) : Eff bool :=
  s ← get;
  let n := default 0%Z (defers s !! orphan) in
  if (maxDefer <=? n)%Z then mret false
  else
    _ ← modify (setDefers (insert orphan (n + 1)%Z));
    _ ← lift (requestRebuild canonicalHash);
    mret true.

(** ** Re-mining *)

(** The batch loop of [remineFromStoredBUMP] and [reanchorNeighborhood]. *)
Fixpoint mineBatches (blockHash : string) (blockHeight : Z) (batches : list (list string)) (changed : Z)
  : Prog (Z * option error) :=
  match batches with
  | [] => mret (changed, None)
  | batch :: rest =>
      '(n, mineErr, _) ← setMinedAndPublish (rc_publisher cfg) blockHash blockHeight batch ExtraInfoReorgReanchor true;
      match mineErr with
      | Some e => mret ((changed + n)%Z, Some e)
      | None => mineBatches blockHash blockHeight rest (changed + n)%Z
      end
  end.

(** The count, whether a usable BUMP was stored, and the error. *)
Definition remineFromStoredBUMP (blockHash : string) : Prog (Z * bool * option error) :=
  r ← perform (cGetBUMP blockHash);
  match r with
  | Err e => if errorIs e ErrNotFound then mret (0%Z, false, None) else mret (0%Z, false, Some e)
  | Ok (bumpHeight, bumpBytes) =>
      if (length bumpBytes =? 0)%nat then mret (0%Z, false, Some ErrMalformedBUMP)
      else match levelZeroTxidsFromBUMP NewMerklePathFromBinary HashString bumpBytes with
           | Err _ => mret (0%Z, false, Some ErrMalformedBUMP)
           | Ok txids =>
               '(changed, mineErr) ← mineBatches blockHash bumpHeight (slicesOf batchSize txids) 0;
               mret (changed, true, mineErr)
           end
  end.

(** [attempts] is how many tries are left. *)
Fixpoint remineRetryLoop (attempts : nat) (blockHash : string) (total : Z) : Prog (Z * bool * option error) :=
  '(n, ok, err) ← remineFromStoredBUMP blockHash;
  match err, attempts with
  | Some e, S attempts =>
      if negb ok || errorIs e ErrMalformedBUMP || (attempts =? 0)%nat then mret ((total + n)%Z, ok, err)
      else
        stop ← perform cCtxErr;
        if (stop : bool) then mret ((total + n)%Z, ok, err)
        else
          stop ← perform (cWait remineRetryBackoff);
          if (stop : bool) then mret ((total + n)%Z, ok, err)
          else remineRetryLoop attempts blockHash (total + n)
  | _, _ => mret ((total + n)%Z, ok, err)
  end.

Definition remineWithRetry (blockHash : string) : Prog (Z * bool * option error) :=
  remineRetryLoop remineRetryAttempts blockHash 0.

(** The heights of [reanchorNeighborhood], from [h], [n] of them. *)
Fixpoint neighborLoop (n : nat) (h : Z) (affected : list string) (reanchored : Z) : Prog (Z * option error) :=
  match n with
  | O => mret (reanchored, None)
  | S n =>
      if (length affected =? 0)%nat then mret (reanchored, None)
      else
        hdr ← activeHashAt h;
        match hdr with
        | Err e => mret (reanchored, Some e)
        | Ok None => mret (reanchored, None)
        | Ok (Some neighbor) =>
            r ← perform (cGetBUMP neighbor);
            match r with
            | Err e => if errorIs e ErrNotFound then neighborLoop n (h + 1) affected reanchored
                       else mret (reanchored, Some e)
            | Ok (_, bumpBytes) =>
                if (length bumpBytes =? 0)%nat then mret (reanchored, Some ErrMalformedBUMP)
                else match IndexCompound NewMerklePathFromBinary bumpBytes with
                     | Err _ => mret (reanchored, Some ErrMalformedBUMP)
                     | Ok idx =>
                         let contained := List.filter (Bump.Contains NewHashFromHex idx) affected in
                         let rest := List.filter (fun txid => negb (Bump.Contains NewHashFromHex idx txid)) affected in
                         '(reanchored, mineErr) ← mineBatches neighbor h (slicesOf batchSize contained) reanchored;
                         match mineErr with
                         | Some e => mret (reanchored, Some e)
                         | None => neighborLoop n (h + 1) rest reanchored
                         end
                     end
            end
        end
  end.

Definition reanchorNeighborhood (affected : list string) (height : Z) : Prog (Z * option error) :=
  if (length affected =? 0)%nat then mret (0%Z, None)
  else if (height =? 0)%Z then mret (0%Z, None)
  else neighborLoop (Z.to_nat (rc_NeighborhoodDepth cfg)) (height + 1) affected 0.

(** ** Handing off failed re-mines *)

Definition handOffPartialRemine (hash : string) (orphanedAt : Time) : Prog (Res bool) :=
  r ← perform (cRequeueOrphanedBlock hash orphanedAt);
  match r with
  | Err e => mret (Err e)
  | Ok true => mret (Ok true)
  | Ok false =>
      r ← perform (cGetBlockProcessingStatus hash);
      match r with
      | Err e => if errorIs e ErrNotFound then mret (Ok true) else mret (Err e)
      | Ok row =>
          if String.eqb (bp_Status row) BlockStatusOrphaned then mret (Ok true)
          else if negb (String.eqb (bp_Status row) BlockStatusActive) then mret (Ok true)
          else
            _ ← requestRebuild hash;
            now ← perform cNow;
            '(_, err) ← perform (cMarkBlocksOrphaned [hash] now);
            match err with
            | Some e => mret (Err e)
            | None => mret (Ok true)
            end
      end
  end.

(** [attempts] is how many tries are left. *)
Fixpoint keepPartialLoop (attempts : nat) (hash : string) (orphanedAt : Time) : Prog bool :=
  r ← handOffPartialRemine hash orphanedAt;
  match r, attempts with
  | Ok done, _ => mret done
  | Err _, S attempts =>
      if (attempts =? 0)%nat then mret false
      else
        stop ← perform cCtxErr;
        if (stop : bool) then mret false
        else
          stop ← perform (cWait handOffBackoff);
          if (stop : bool) then mret false else keepPartialLoop attempts hash orphanedAt
  | Err _, O => mret false
  end.

Definition keepPartialRemineQueued (hash : string) (orphanedAt : Time) : Prog bool :=
  keepPartialLoop handOffAttempts hash orphanedAt.

Definition holdPendingRemine (hash : string) (height : Z) : Eff unit :=
  _ ← lift (requestRebuild hash);
  s ← get;
  match pendingRemine s !! hash with
  | None => if (maxPendingRemines <=? size (pendingRemine s))%nat then mret tt
            else modify (setPending (insert hash height))
  | Some _ => modify (setPending (insert hash height))
  end.

(** One attempt of [keepRemineRetried]: [Some] when the code returns. *)
Definition keepRemineAttempt (hash : string) (height : Z) (orphanedAt : Time) : Eff (option bool) :=
  r ← lift (perform (cRequeueOrphanedBlock hash orphanedAt));
  match r with
  | Err _ => mret None
  | Ok true => mret (Some true)
  | Ok false =>
      r ← lift (perform (cGetBlockProcessingStatus hash));
      match r with
      | Err e => if errorIs e ErrNotFound then mret (Some true) else mret None
      | Ok row =>
          if String.eqb (bp_Status row) BlockStatusOrphaned then mret (Some true)
          else if String.eqb (bp_Status row) BlockStatusActive then
            _ ← holdPendingRemine hash height;
            mret (Some true)
          else mret (Some true)
      end
  end.

Fixpoint keepRemineLoop (attempts : nat) (hash : string) (height : Z) (orphanedAt : Time) : Eff bool :=
  r ← keepRemineAttempt hash height orphanedAt;
  match r, attempts with
  | Some b, _ => mret b
  | None, S attempts =>
      if (attempts =? 0)%nat then mret false
      else
        stop ← lift (perform cCtxErr);
        if (stop : bool) then mret false
        else
          stop ← lift (perform (cWait handOffBackoff));
          if (stop : bool) then mret false else keepRemineLoop attempts hash height orphanedAt
  | None, O => mret false
  end.

Definition keepRemineRetried (hash : string) (height : Z) (orphanedAt : Time) : Eff bool :=
  keepRemineLoop handOffAttempts hash height orphanedAt.

(** ** Reconciling one block *)

Fixpoint publishChunks (chunks : list (list string)) : Prog unit :=
  match chunks with
  | [] => mret tt
  | chunk :: rest =>
      now ← perform cNow;
      _ ← perform (cPublishBulk (bulkTemplate StatusSeenOnNetwork "" 0 now chunk ExtraInfoReorgUnmined));
      publishChunks rest
  end.

Definition publishReverted (txids : list string) : Prog unit :=
  if (length txids =? 0)%nat || negb (rc_publisher cfg) then mret tt
  else publishChunks (slicesOf maxTxIDsPerBulkEvent txids).

Definition parkBlock (orphan : string) (orphanedAt : Time) : Eff outcome :=
  _ ← lift (perform (cGetTxIDsByBlockHash orphan));
  _ ← lift (perform (cDeleteStumpsByBlockHash orphan));
  now ← lift (perform cNow);
  r ← lift (perform (cMarkBlockReconciled orphan orphanedAt now));
  match r with
  | Err _ => mret outcomeError
  | Ok stamped =>
      _ ← modify (setDefers (delete orphan));
      mret (if (stamped : bool) then outcomeParked else outcomeStale)
  end.

(** The write at the end of [resurrect]. *)
Definition reactivate (orphan : string) (height : Z) (orphanedAt : Time) : Eff outcome :=
  r ← lift (perform (cReactivateBlock orphan height orphanedAt));
  match r with
  | Err _ => mret outcomeError
  | Ok false => mret outcomeStale
  | Ok true =>
      _ ← modify (setDefers (delete orphan));
      mret outcomeResurrected
  end.

Definition resurrect (orphan : string) (height : Z) (orphanedAt : Time) : Eff outcome :=
  '(n, ok, remineErr) ← lift (remineWithRetry orphan);
  match remineErr with
  | Some e =>
      if errorIs e ErrMalformedBUMP then
        deferred ← deferForCanonicalBUMP orphan orphan;
        if (deferred : bool) then mret outcomeDeferred else reactivate orphan height orphanedAt
      else if (ok : bool) then
        queued ← lift (keepPartialRemineQueued orphan orphanedAt);
        _ ← (if (queued : bool) then mret tt else holdPendingRemine orphan height);
        mret outcomeError
      else mret outcomeError
  | None => reactivate orphan height orphanedAt
  end.

(** The end of [reconcileBlock]: revert what is left, prune and stamp. *)
Definition revertAndStamp (orphan : string) (orphanedAt : Time) (reanchored : Z) : Eff outcome :=
  '(reverted, err) ← lift (perform (cSetStatusByBlockHash orphan StatusSeenOnNetwork));
  _ ← lift (publishReverted reverted);
  match err with
  | Some _ => mret outcomeError
  | None =>
      _ ← lift (perform (cDeleteStumpsByBlockHash orphan));
      now ← lift (perform cNow);
      r ← lift (perform (cMarkBlockReconciled orphan orphanedAt now));
      match r with
      | Err _ => mret outcomeError
      | Ok stamped =>
          _ ← modify (setDefers (delete orphan));
          mret (if negb stamped then outcomeStale
                else if (0 <? reanchored)%Z && (0 <? length reverted)%nat then outcomeMixed
                else if (0 <? reanchored)%Z then outcomeReanchored
                else if (0 <? length reverted)%nat then outcomeReverted
                else outcomeEmpty)
      end
  end.

(** After the canonical block's own re-mine: the neighborhood, then park or
    revert. *)
Definition settleRemainder (orphan : string) (height : Z) (orphanedAt : Time) (canonicalReady : bool)
    (reanchored : Z) : Eff outcome :=
  '(affected, err) ← lift (perform (cGetTxIDsByBlockHash orphan));
  match err with
  | Some _ => mret outcomeError
  | None =>
      '(n, neighborErr) ← lift (reanchorNeighborhood affected height);
      match neighborErr with
      | Some _ => mret outcomeError
      | None =>
          if negb canonicalReady && negb (rc_RevertWhenUnreconcilable cfg)
          then parkBlock orphan orphanedAt
          else revertAndStamp orphan orphanedAt (reanchored + n)
      end
  end.

(** The height of the row, or of the stored BUMP for a placeholder row. *)
Definition resolveHeight (row : BlockProcessingStatus) : Prog (Res Z) :=
  if negb (bp_BlockHeight row =? 0)%Z then mret (Ok (bp_BlockHeight row))
  else
    r ← perform (cGetBUMP (bp_BlockHash row));
    match r with
    | Ok (h, _) => mret (Ok h)
    | Err e => if errorIs e ErrNotFound then mret (Ok (bp_BlockHeight row)) else mret (Err e)
    end.

(** The canonical BUMP is missing or corrupt: wait for it, up to the cap. *)
Definition deferOrSettle (orphan : string) (height : Z) (orphanedAt : Time) (canonicalHash : string)
    (reanchored : Z) : Eff outcome :=
  if String.eqb canonicalHash "" then settleRemainder orphan height orphanedAt false reanchored
  else
    deferred ← deferForCanonicalBUMP orphan canonicalHash;
    if (deferred : bool) then mret outcomeDeferred
    else settleRemainder orphan height orphanedAt false reanchored.

(** The canonical block is known and is another one; [canonical] is its hash,
    [None] when the source has no header at the height. *)
Definition reanchorCanonical (orphan : string) (height : Z) (orphanedAt : Time) (canonical : option string)
  : Eff outcome :=
  match canonical with
  | None => settleRemainder orphan height orphanedAt false 0
  | Some canonicalHash =>
      '(n, bumpOK, remineErr) ← lift (remineFromStoredBUMP canonicalHash);
      match remineErr with
      | Some e => if errorIs e ErrMalformedBUMP then deferOrSettle orphan height orphanedAt canonicalHash n
                  else mret outcomeError
      | None => if (bumpOK : bool) then settleRemainder orphan height orphanedAt true n
                else deferOrSettle orphan height orphanedAt canonicalHash n
      end
  end.

Definition reconcileBlock (row : BlockProcessingStatus) : Eff outcome :=
  let orphan := bp_BlockHash row in
  let orphanedAt := OrphanGeneration (Some row) in
  r ← lift (resolveHeight row);
  match r with
  | Err _ => mret outcomeError
  | Ok height =>
      hdr ← lift (activeHashAt height);
      match hdr with
      | Err _ => mret outcomeError
      | Ok canonical =>
          if bool_decide (canonical = Some orphan) then resurrect orphan height orphanedAt
          else reanchorCanonical orphan height orphanedAt canonical
      end
  end.

(** ** The pending set *)

(** One block of [drainPendingRemines]. *)
Definition drainOne (hash : string) : Eff unit :=
  s ← get;
  let height := default 0%Z (pendingRemine s !! hash) in
  hdr ← lift (activeHashAt height);
  match hdr with
  | Err _ | Ok None => mret tt
  | Ok (Some canonical) =>
      if negb (String.eqb canonical hash) then
        r ← lift (perform (cGetBlockProcessingStatus hash));
        match r with
        | Ok row => if String.eqb (bp_Status row) BlockStatusOrphaned
                    then modify (setPending (delete hash)) else mret tt
        | Err _ => mret tt
        end
      else
        '(_, _, err) ← lift (remineWithRetry hash);
        match err with
        | None =>
            _ ← modify (setDefers (delete hash));
            modify (setPending (delete hash))
        | Some e =>
            if errorIs e ErrMalformedBUMP then
              deferred ← deferForCanonicalBUMP hash hash;
              if (deferred : bool) then mret tt
              else
                _ ← modify (setDefers (delete hash));
                modify (setPending (delete hash))
            else
              queued ← lift (keepPartialRemineQueued hash None);
              if (queued : bool) then modify (setPending (delete hash)) else mret tt
        end
  end.

Fixpoint drainLoop (hashes : list string) : Eff unit :=
  match hashes with
  | [] => mret tt
  | hash :: rest =>
      stop ← lift (perform cCtxErr);
      if (stop : bool) then mret tt
      else
        _ ← drainOne hash;
        drainLoop rest
  end.

Definition keysOf {A} (m : gmap string A) : list string := List.map fst (map_to_list m).

Definition drainPendingRemines : Eff unit :=
  s ← get;
  if (size (pendingRemine s) =? 0)%nat then mret tt
  else
    order ← lift (perform (cMapOrder (keysOf (pendingRemine s))));
    drainLoop (proj1_sig order).

(** ** The startup full-scan *)

Definition fullScanBounds : Prog (Z * Z) :=
  if (0 <? rc_FullScanMinHeight cfg)%Z || (0 <? rc_FullScanMaxHeight cfg)%Z
  then mret (rc_FullScanMinHeight cfg, rc_FullScanMaxHeight cfg)
  else
    let depth := if (rc_FullScanDepth cfg <=? 0)%Z then defaultFullScanDepth else rc_FullScanDepth cfg in
    r ← perform cGetActiveTipBlockHeight;
    match r with
    | Err _ => mret (0%Z, 0%Z)
    | Ok tip => if (tip =? 0)%Z || (tip <=? depth)%Z then mret (0%Z, 0%Z) else mret ((tip - depth)%Z, 0%Z)
    end.

(** [store.ForEachBlockProcessing] with a visitor that makes calls of its
    own.  [None] when the fuel runs out. *)
Section Pager.
Context {St : Type} (fn : St -> BlockProcessingStatus -> Prog St).

(** The inner loop: the state, and whether a row below the floor ended it. *)
Fixpoint visitPage (minHeight : Z) (st : St) (rows : list BlockProcessingStatus) : Prog (St * bool) :=
  match rows with
  | [] => mret (st, false)
  | row :: rest =>
      if (bp_BlockHeight row <? minHeight)%Z then mret (st, true)
      else
        st ← fn st row;
        visitPage minHeight st rest
  end.

Fixpoint pagesLoop (fuel : nat) (minHeight before limit : Z) (st : St) : Prog (option (St * option error)) :=
  match fuel with
  | O => mret None
  | S fuel =>
      stop ← perform cCtxErr;
      if (stop : bool) then mret (Some (st, Some ErrCanceled))
      else
        r ← perform (cListBlockProcessingStatus before limit);
        match r with
        | Err e => mret (Some (st, Some e))
        | Ok [] => mret (Some (st, None))
        | Ok (first :: more) =>
            '(st, below) ← visitPage minHeight st (first :: more);
            if (below : bool) || (Z.of_nat (length (first :: more)) <? limit)%Z then mret (Some (st, None))
            else
              let last := bp_BlockHeight (List.last (first :: more) first) in
              if (bp_BlockHeight first =? last)%Z then
                if (65536 <=? limit)%Z then mret (Some (st, Some ErrArgument))
                else pagesLoop fuel minHeight before (limit * 2) st
              else if (last =? 0)%Z then mret (Some (st, None))
              else pagesLoop fuel minHeight (uint64 (last + 1)) limit st
        end
  end.
End Pager.

Record scanState : Type := mkScanState {
  markedSet : gmap string Z;
  resurrectSet : gmap string BlockProcessingStatus;
  unjudged : Z
}.

(** The visitor of [fullScan]. *)
Definition judgeRow (maxHeight : Z) (sc : scanState) (row : BlockProcessingStatus) : Prog scanState :=
  let active := String.eqb (bp_Status row) BlockStatusActive in
  let orphaned := String.eqb (bp_Status row) BlockStatusOrphaned in
  if negb (active || orphaned) || (bp_BlockHeight row =? 0)%Z || (maxUint32 <? bp_BlockHeight row)%Z then mret sc
  else if (0 <? maxHeight)%Z && (maxHeight <? bp_BlockHeight row)%Z then mret sc
  else if bool_decide (is_Some (markedSet sc !! bp_BlockHash row))
          || bool_decide (is_Some (resurrectSet sc !! bp_BlockHash row)) then mret sc
  else
    hdr ← activeHashAt (bp_BlockHeight row);
    match hdr with
    | Err _ | Ok None => mret (mkScanState (markedSet sc) (resurrectSet sc) (unjudged sc + 1))
    | Ok (Some canonical) =>
        let matches := String.eqb canonical (bp_BlockHash row) in
        if active && negb matches
        then mret (mkScanState (<[bp_BlockHash row := bp_BlockHeight row]> (markedSet sc)) (resurrectSet sc) (unjudged sc))
        else if orphaned && matches
        then mret (mkScanState (markedSet sc) (<[bp_BlockHash row := row]> (resurrectSet sc)) (unjudged sc))
        else mret sc
    end.

(** The candidates still off-chain right before the write, and whether every
    one could be judged. *)
Fixpoint recheckMarked (hashes : list string) (set : gmap string Z) (marked : list string) (complete : bool)
  : Prog (list string * bool) :=
  match hashes with
  | [] => mret (marked, complete)
  | hash :: rest =>
      hdr ← activeHashAt (default 0%Z (set !! hash));
      match hdr with
      | Err _ | Ok None => recheckMarked rest set marked false
      | Ok (Some canonical) =>
          if String.eqb canonical hash then recheckMarked rest set marked complete
          else recheckMarked rest set (marked ++ [hash]) complete
      end
  end.

Definition fullScanMarkOrphaned (set : gmap string Z) : Prog bool :=
  if (size set =? 0)%nat then mret true
  else
    order ← perform (cMapOrder (keysOf set));
    '(marked, complete) ← recheckMarked (proj1_sig order) set [] true;
    if (length marked =? 0)%nat then mret complete
    else
      now ← perform cNow;
      '(_, err) ← perform (cMarkBlocksOrphaned marked now);
      mret (if failed err then false else complete).

Definition requeueForTick (row : BlockProcessingStatus) : Prog bool :=
  r ← perform (cRequeueOrphanedBlock (bp_BlockHash row) (OrphanGeneration (Some row)));
  mret (is_ok r).

(** One row of [fullScanResurrect]; the answer is false when it leaves the
    scan incomplete. *)
Definition resurrectRow (hash : string) (row : BlockProcessingStatus) : Eff bool :=
  let height := bp_BlockHeight row in
  let orphanedAt := OrphanGeneration (Some row) in
  '(_, ok, remineErr) ← lift (remineWithRetry hash);
  match remineErr with
  | Some e =>
      if errorIs e ErrMalformedBUMP then
        kept ← keepRemineRetried hash height orphanedAt;
        if (kept : bool) then mret true
        else
          _ ← holdPendingRemine hash height;
          mret false
      else if (ok : bool) then
        queued ← lift (keepPartialRemineQueued hash orphanedAt);
        if (queued : bool) then mret true
        else
          _ ← holdPendingRemine hash height;
          mret false
      else
        kept ← keepRemineRetried hash height orphanedAt;
        _ ← (if (kept : bool) then mret tt else holdPendingRemine hash height);
        mret false
  | None =>
      hdr ← lift (activeHashAt height);
      match hdr with
      | Err _ | Ok None => mret false
      | Ok (Some canonical) =>
          if negb (String.eqb canonical hash) then lift (requeueForTick row)
          else
            r ← lift (perform (cReactivateBlock hash height orphanedAt));
            match r with
            | Err _ => mret false
            | Ok false => mret true
            | Ok true =>
                _ ← modify (setDefers (delete hash));
                mret true
            end
      end
  end.

Fixpoint resurrectLoop (hashes : list string) (set : gmap string BlockProcessingStatus) (complete : bool) : Eff bool :=
  match hashes with
  | [] => mret complete
  | hash :: rest =>
      match set !! hash with
      | None => resurrectLoop rest set complete
      | Some row =>
          ok ← resurrectRow hash row;
          resurrectLoop rest set (complete && ok)
      end
  end.

Definition fullScanResurrect (set : gmap string BlockProcessingStatus) : Eff bool :=
  if (size set =? 0)%nat then mret true
  else
    order ← lift (perform (cMapOrder (keysOf set)));
    resurrectLoop (proj1_sig order) set true.

(** [pageFuel] bounds the pages of one scan. *)
Context (pageFuel : nat).

Definition fullScan : Eff bool :=
  '(minHeight, maxHeight) ← lift fullScanBounds;
  r ← lift (pagesLoop (judgeRow maxHeight) pageFuel minHeight 0 1000 (mkScanState ∅ ∅ 0));
  match r with
  | None => mret false
  | Some (sc, err) =>
      let complete := negb (failed err) && (unjudged sc <=? 0)%Z in
      if (size (markedSet sc) =? 0)%nat && (size (resurrectSet sc) =? 0)%nat then mret complete
      else
        markedOK ← lift (fullScanMarkOrphaned (markedSet sc));
        resurrectedOK ← fullScanResurrect (resurrectSet sc);
        mret (complete && markedOK && resurrectedOK)
  end.

Definition runStartupFullScan : Eff unit :=
  done ← fullScan;
  s ← get;
  if (done : bool) then modify (setScan true (startupScanAttempts s))
  else
    stop ← lift (perform cCtxErr);
    if (stop : bool) then mret tt
    else
      let attempts := (startupScanAttempts s + 1)%Z in
      modify (setScan ((maxStartupFullScanAttempts <=? attempts)%Z || startupScanDone s) attempts).

Definition chaintracksReady : Prog bool :=
  r ← perform cGetActiveTipBlockHeight;
  match r with
  | Err _ =>
      stop ← perform cCtxErr;
      mret (negb stop)
  | Ok tip =>
      if (tip =? 0)%Z || (maxUint32 <? tip)%Z then mret true
      else
        r ← perform (cGetHeaderByHeight tip);
        mret (match r with Ok (Some _) => true | _ => false end)
  end.

(** ** The tick *)

Fixpoint reconcileRows (rows : list BlockProcessingStatus) : Eff unit :=
  match rows with
  | [] => mret tt
  | row :: rest =>
      stop ← lift (perform cCtxErr);
      if (stop : bool) then mret tt
      else
        _ ← reconcileBlock row;
        reconcileRows rest
  end.

(** The pass after the lease is held. *)
Definition tickPass : Eff unit :=
  _ ← drainPendingRemines;
  stop ← lift (perform cCtxErr);
  if (stop : bool) then mret tt
  else
    let blocksPerTick := if (rc_BlocksPerTick cfg <=? 0)%Z then 4%Z else rc_BlocksPerTick cfg in
    r ← lift (perform (cListOrphanedBlocksToReconcile blocksPerTick));
    match r with
    | Err _ => mret tt
    | Ok rows => reconcileRows rows
    end.

(** The heartbeat of [holdLease] runs beside the pass; what the pass sees of
    it is the answers of [cCtxErr] and the errors of its calls. *)
Definition tick : Eff unit :=
  stop ← lift (perform cCtxErr);
  if (stop : bool) then mret tt
  else
    '(_, ok) ← lift tryLease;
    if negb ok then mret tt
    else
      s ← get;
      if rc_StartupFullScan cfg && negb (startupScanDone s) then
        ready ← lift chaintracksReady;
        if (ready : bool) then
          _ ← runStartupFullScan;
          stop ← lift (perform cCtxErr);
          if (stop : bool) then mret tt else tickPass
        else tickPass
      else tickPass.

(** ** The service *)

(** The loop of [waitForChaintracksReady]; running out of fuel is a timeout. *)
Fixpoint waitReadyLoop (fuel : nat) (deadline backoff : Z) : Prog bool :=
  match fuel with
  | O => mret false
  | S fuel =>
      stop ← perform cCtxErr;
      if (stop : bool) then mret false
      else
        ready ← chaintracksReady;
        if (ready : bool) then mret true
        else
          now ← perform cNow;
          let remaining := (deadline - UnixNano now)%Z in
          if (remaining <=? 0)%Z then mret false
          else
            let wait := if (remaining <? backoff)%Z then remaining else backoff in
            stop ← perform (cWait wait);
            if (stop : bool) then mret false
            else
              let backoff := if (backoff <? maxBackoff)%Z
                             then (if (maxBackoff <? backoff * 2)%Z then maxBackoff else backoff * 2)%Z
                             else backoff in
              waitReadyLoop fuel deadline backoff
  end.

Definition waitForChaintracksReady (fuel : nat) : Prog bool :=
  let timeout := if (rc_ReadyTimeoutMs cfg * 1000000 <=? 0)%Z then defaultFullScanChaintracksReadyTimeout
                 else (rc_ReadyTimeoutMs cfg * 1000000)%Z in
  now ← perform cNow;
  waitReadyLoop fuel (UnixNano now + timeout) initialBackoff.

Definition startupScanUnderLease : Eff unit :=
  '(_, ok) ← lift tryLease;
  if negb ok then mret tt else runStartupFullScan.

(** The ticker loop, for at most [fuel] ticks. *)
Fixpoint serveLoop (fuel : nat) (interval : Z) : Eff unit :=
  match fuel with
  | O => mret tt
  | S fuel =>
      stop ← lift (perform (cWait interval));
      if (stop : bool) then
        if rc_leaser cfg then
          _ ← lift (perform (cRelease ReconcilerLeaseName (rc_holderID cfg)));
          mret tt
        else mret tt
      else
        _ ← tick;
        serveLoop fuel interval
  end.

(** The scan before the first tick: when this replica leads and the header
    source is ready in time. *)
Definition startupScan (waitFuel : nat) : Eff unit :=
  if rc_StartupFullScan cfg then
    '(_, ok) ← lift tryLease;
    if (ok : bool) then
      ready ← lift (waitForChaintracksReady waitFuel);
      if (ready : bool) then startupScanUnderLease else mret tt
    else mret tt
  else mret tt.

(** The life of the service: the startup scan, the first tick, and [ticks]
    more at most. *)
Definition Start (waitFuel ticks : nat) : Eff unit :=
  let interval := if (rc_IntervalMs cfg * 1000000 <=? 0)%Z then 30000000000%Z else (rc_IntervalMs cfg * 1000000)%Z in
  _ ← startupScan waitFuel;
  _ ← tick;
  serveLoop ticks interval.
End Reconciler.
