(* ===== verification/ReconcilerProps.v ===== *)
(** * ReconcilerProps: what the reconciler may do to the store

    The theorems are about every execution of the reconciler's operations,
    also those cut short by a crash: whatever the store, the header source
    and the clock answer, the dangerous writes (reverting, stamping,
    reactivating, orphaning) are only made on the evidence the answers gave
    before. *)
From stdpp Require Import base gmap strings list.
From Stdlib Require Import ZArith Lia.
From Stdlib Require Import Strings.Byte.
From S2P Require Import Prelude Models Bump BumpBuild Effects BumpCalls BumpTrace Reconciler.

(** ** Evidence *)

Section Evidence.
Context (NewMerklePathFromBinary : list byte -> Res MerklePath).
Context (NewHashFromHex : string -> Res Hash) (HashString : Hash -> string).
Context `{Hsort : SortFunc}.
Abbreviation headerAt := (headerAt HashString).

(** A batch with [t] was marked mined in [b] without an error. *)
Definition minedTo (tr : Trace) (b : string) (h : Z) (t : string) : Prop :=
  ∃ batch prevs mined, t ∈ batch ∧ Event (cSetMinedByTxIDs b h batch) (prevs, mined, None) ∈ tr.

(** [t] is a leaf of a compound. *)
Definition leafOf (bytes : list byte) (t : string) : Prop :=
  (∃ txids, levelZeroTxidsFromBUMP NewMerklePathFromBinary HashString bytes = Ok txids ∧ t ∈ txids) ∨
  (∃ idx, IndexCompound NewMerklePathFromBinary bytes = Ok idx ∧ Bump.Contains NewHashFromHex idx t = true).

(** The whole stored compound of [b] was re-mined. *)
Definition remined (tr : Trace) (b : string) : Prop :=
  ∃ h bytes txids, bumpRead tr b h bytes ∧
    levelZeroTxidsFromBUMP NewMerklePathFromBinary HashString bytes = Ok txids ∧
    ∀ t, t ∈ txids -> minedTo tr b h t.

(** No active block from [h] on, [n] heights up or to the tip, has a stored
    compound with [t]. *)
Definition unclaimed (tr : Trace) (t : string) (h : Z) (n : nat) : Prop :=
  ∀ i, (i < n)%nat ->
    (∃ j, (j <= i)%nat ∧ noHeader tr (h + Z.of_nat j)) ∨
    (∃ nb, headerAt tr (h + Z.of_nat i) nb ∧
       (noBump tr nb ∨
        ∃ bh bytes idx, bumpRead tr nb bh bytes ∧ IndexCompound NewMerklePathFromBinary bytes = Ok idx ∧
                        Bump.Contains NewHashFromHex idx t = false)).

(** Evidence stays. *)
Lemma minedTo_mono tr tr' b h t : minedTo tr b h t -> tr ⊆ tr' -> minedTo tr' b h t.
Proof. intros (? & ? & ? & ? & ?) Hs. do 3 eexists. eauto. Qed.
Lemma unclaimed_mono tr tr' t h n : unclaimed tr t h n -> tr ⊆ tr' -> unclaimed tr' t h n.
Proof.
  intros H Hs i Hi. destruct (H i Hi) as [(j & ? & Hj)|(nb & Hnb & Hb)].
  - left. exists j. split; [done|]. by eapply noHeader_mono.
  - right. exists nb. split; [by eapply headerAt_mono|]. destruct Hb as [Hb|(bh & bytes & idx & Hb & ?)].
    + left. by apply Hs.
    + right. exists bh, bytes, idx. split; [by apply Hs|done].
Qed.
Lemma remined_mono tr tr' b : remined tr b -> tr ⊆ tr' -> remined tr' b.
Proof.
  intros (h & bytes & txids & Hb & E & Ht) Hs. exists h, bytes, txids.
  split; [by apply Hs|]. split; [done|]. intros t ?. eapply minedTo_mono; eauto.
Qed.

(** ** Specifications of the shared parts, for a guarantee [G] *)

Section Shared.
Context (G : Trace -> call -> Prop) (Gfree : ∀ tr c, free c = true -> G tr c).
Context (cfg : ReconcilerConfig).
Let R : Trace -> event answer -> Prop := fun _ _ => True.

Lemma setMinedAndPublish_wp pub b h txids info only tr (Q : Z * option error * bool -> Trace -> Prop) :
  G tr (cSetMinedByTxIDs b h txids) ->
  (∀ n err pf tr', tr ⊆ tr' -> (err = None -> ∀ t, t ∈ txids -> minedTo tr' b h t) -> Q (n, err, pf) tr') ->
  wp G R (setMinedAndPublish pub b h txids info only) tr Q.
Proof.
  intros HG HQ. unfold setMinedAndPublish. wp_go. wp_call x. destruct x as [[prevs mined] err].
  set (tr1 := tr ++ [Event (cSetMinedByTxIDs b h txids) (prevs, mined, err)]).
  assert (∀ n pf tr', tr1 ⊆ tr' -> Q (n, err, pf) tr') as Hend.
  { intros n pf tr' Hs. apply snoc_grows in Hs as [Hs He]. apply HQ; [done|]. intros -> t Ht.
    exists txids, prevs, mined. done. }
  destruct (failed err && _); [wp_go; by apply Hend|].
  destruct (only && _); [wp_go; by apply Hend|].
  destruct (_ || negb pub); [wp_go; by apply Hend|].
  wp_go. apply harmless_wp; [done|apply publishMined_harmless|]. intros pf tr' Hs. wp_go. by apply Hend.
Qed.

Lemma mineBatches_wp b h batches changed tr (Q : Z * option error -> Trace -> Prop) :
  (∀ tr' batch, tr ⊆ tr' -> batch ∈ batches -> G tr' (cSetMinedByTxIDs b h batch)) ->
  (∀ n err tr', tr ⊆ tr' -> (err = None -> ∀ t, t ∈ concat batches -> minedTo tr' b h t) -> Q (n, err) tr') ->
  wp G R (mineBatches cfg b h batches changed) tr Q.
Proof.
  revert changed tr Q. induction batches as [|batch rest IH]; intros changed tr Q HG HQ; cbn [mineBatches].
  - wp_go. apply HQ; [done|]. intros _ t Ht. by apply elem_of_nil in Ht.
  - wp_go. apply setMinedAndPublish_wp; [apply HG; set_solver|]. intros n err pf tr1 Hs1 Hm.
    destruct err as [e|]; [wp_go; by apply HQ|].
    apply IH; [intros tr2 b' Hs2 Hb'; apply HG; set_solver|]. intros n' err tr2 Hs2 Hm2.
    apply HQ; [by etrans|]. intros -> t Ht. apply elem_of_app in Ht as [Ht|Ht]; [|by apply Hm2].
    eapply minedTo_mono; eauto.
Qed.

Lemma batchSize_pos : (0 < batchSize cfg)%nat.
Proof. unfold batchSize, maxTxIDsPerBulkEvent. case (Z.leb_spec (rc_BatchSize cfg) 0); lia. Qed.

Lemma slices_sub {A} (n : nat) (l batch : list A) : (0 < n)%nat -> batch ∈ slicesOf n l -> batch ⊆ l.
Proof.
  intros Hn Hb x Hx. rewrite <-(slicesOf_concat n l) by done. rewrite list_elem_of_In in *.
  apply in_concat. exists batch. by rewrite <-list_elem_of_In.
Qed.

Lemma activeHashAt_wp height tr (Q : Res (option string) -> Trace -> Prop) :
  (∀ e tr', tr ⊆ tr' -> Q (Err e) tr') ->
  (∀ tr', tr ⊆ tr' -> noHeader tr' height -> Q (Ok None) tr') ->
  (∀ b tr', tr ⊆ tr' -> height ≠ 0%Z -> headerAt tr' height b -> Q (Ok (Some b)) tr') ->
  wp G R (activeHashAt HashString height) tr Q.
Proof.
  intros He Hn Hs. unfold activeHashAt. destruct ((height =? 0)%Z || (maxUint32 <? height)%Z) eqn:E.
  { wp_go. apply Hn; [done|]. unfold noHeader. apply orb_true_iff in E as [E|E]; [left|right; left]; lia. }
  apply orb_false_iff in E as [E _]. apply Z.eqb_neq in E.
  wp_go. wp_call x. pose proof (grows_snoc tr (Event (cGetHeaderByHeight height) x)) as Hg.
  destruct x as [[hd|]|e].
  - wp_go. apply Hs; [done..|]. exists hd. split; [apply snoc_here|done].
  - wp_go. apply Hn; [done|]. do 2 right. left. apply snoc_here.
  - unfold errorIs. case_bool_decide as Ee; wp_go; [|by apply He]. subst e.
    apply Hn; [done|]. do 3 right. apply snoc_here.
Qed.

(** The precondition of re-mining [b]: the guarantee admits its leaves. *)
Definition admits (tr : Trace) (b : string) : Prop :=
  ∀ tr' h hh bytes batch, tr ⊆ tr' -> bumpRead tr' b h bytes -> (∀ t, t ∈ batch -> leafOf bytes t) ->
    G tr' (cSetMinedByTxIDs b hh batch).

Lemma admits_mono tr tr' b : tr ⊆ tr' -> admits tr b -> admits tr' b.
Proof. intros Hs H tr2 h hh bytes batch Hs2. apply H. by etrans. Qed.

Lemma remineFromStoredBUMP_wp b tr (Q : Z * bool * option error -> Trace -> Prop) :
  admits tr b ->
  (∀ n (ok : bool) err tr', tr ⊆ tr' -> (err = None -> if ok then remined tr' b else noBump tr' b) -> Q (n, ok, err) tr') ->
  wp G R (remineFromStoredBUMP NewMerklePathFromBinary HashString cfg b) tr Q.
Proof.
  intros HG HQ. unfold remineFromStoredBUMP. wp_go. wp_call x.
  pose proof (grows_snoc tr (Event (cGetBUMP b) x)) as Hg.
  destruct x as [[h bytes]|e].
  - destruct (length bytes =? 0)%nat; [wp_go; by apply HQ|].
    destruct (levelZeroTxidsFromBUMP _ _ bytes) as [txids|e] eqn:El; [|wp_go; by apply HQ].
    wp_go. apply mineBatches_wp.
    + intros tr' batch Hs Hb. apply snoc_grows in Hs as [Hs He]. apply (HG tr' h h bytes); [done..|].
      intros t Ht. left. exists txids. split; [done|]. by apply (slices_sub _ _ _ batchSize_pos Hb).
    + intros n err tr' Hs Hm. wp_go. apply snoc_grows in Hs as [Hs He]. apply HQ; [done|]. intros ->.
      exists h, bytes, txids. split; [done|]. split; [done|].
      rewrite slicesOf_concat in Hm by apply batchSize_pos. auto.
  - unfold errorIs. case_bool_decide as E; wp_go; apply HQ; try done. intros _. subst e. apply snoc_here.
Qed.

Lemma remineWithRetry_wp b tr (Q : Z * bool * option error -> Trace -> Prop) :
  admits tr b ->
  (∀ n (ok : bool) err tr', tr ⊆ tr' -> (err = None -> if ok then remined tr' b else noBump tr' b) -> Q (n, ok, err) tr') ->
  wp G R (remineWithRetry NewMerklePathFromBinary HashString cfg b) tr Q.
Proof.
  unfold remineWithRetry. generalize remineRetryAttempts as attempts, 0%Z as total. intros attempts.
  revert tr Q. induction attempts as [|attempts IH]; intros tr Q total HG HQ; cbn [remineRetryLoop].
  - wp_go. apply remineFromStoredBUMP_wp; [done|]. intros n ok [e|] tr1 Hs1 H1; wp_go; by apply HQ.
  - wp_go. apply remineFromStoredBUMP_wp; [done|]. intros n ok [e|] tr1 Hs1 H1; [|wp_go; by apply HQ].
    destruct (_ || _); [wp_go; by apply HQ|]. wp_go. wp_call stop.
    pose proof (grows_snoc tr1 (Event cCtxErr stop)).
    destruct stop; [wp_go; apply HQ; [by etrans|done]|]. wp_go. wp_call stop.
    match goal with |- context [Event (cWait _) stop] =>
      pose proof (grows_snoc (tr1 ++ [Event cCtxErr false]) (Event (cWait remineRetryBackoff) stop)) end.
    assert (tr ⊆ (tr1 ++ [Event cCtxErr false]) ++ [Event (cWait remineRetryBackoff) stop])
      by (etrans; [|done]; by etrans).
    destruct stop; [wp_go; apply HQ; done|].
    apply IH; [by eapply admits_mono|]. intros. apply HQ; [by etrans|done].
Qed.

(** ** The neighborhood *)

Lemma unclaimed_tip tr t h n : noHeader tr h -> unclaimed tr t h n.
Proof. intros Hn i _. left. exists 0%nat. rewrite Z.add_0_r. split; [lia|done]. Qed.

Lemma unclaimed_step tr t h n nb :
  headerAt tr h nb ->
  (noBump tr nb ∨ ∃ bh bytes idx, bumpRead tr nb bh bytes ∧ IndexCompound NewMerklePathFromBinary bytes = Ok idx ∧
                                  Bump.Contains NewHashFromHex idx t = false) ->
  unclaimed tr t (h + 1) n -> unclaimed tr t h (S n).
Proof.
  intros Hh Hb Hu [|i] Hi.
  - right. exists nb. by rewrite Z.add_0_r.
  - destruct (Hu i ltac:(lia)) as [(j & Hj & Hn)|(nb' & Hnb & Hb')].
    + left. exists (S j). split; [lia|]. by replace (h + Z.of_nat (S j))%Z with (h + 1 + Z.of_nat j)%Z by lia.
    + right. exists nb'. by replace (h + Z.of_nat (S i))%Z with (h + 1 + Z.of_nat i)%Z by lia.
Qed.

(** [t] was moved to an active block, or no neighbor claims it. *)
Definition accounted (tr : Trace) (t : string) (h : Z) (n : nat) : Prop :=
  (∃ nb h', headerAt tr h' nb ∧ minedTo tr nb h' t) ∨ unclaimed tr t h n.

Lemma neighborLoop_wp n h affected reanchored tr (Q : Z * option error -> Trace -> Prop) :
  (∀ tr' h' nb, tr ⊆ tr' -> headerAt tr' h' nb -> admits tr' nb) ->
  (∀ m err tr', tr ⊆ tr' -> (err = None -> ∀ t, t ∈ affected -> accounted tr' t h n) -> Q (m, err) tr') ->
  wp G R (neighborLoop NewMerklePathFromBinary NewHashFromHex HashString cfg n h affected reanchored) tr Q.
Proof.
  revert h affected reanchored tr Q. induction n as [|n IH]; intros h affected reanchored tr Q HG HQ;
    cbn [neighborLoop].
  { wp_go. apply HQ; [done|]. intros _ t _. right. intros i Hi. lia. }
  destruct affected as [|a0 affected0].
  { simpl. wp_go. apply HQ; [done|]. intros _ t Ht. by apply elem_of_nil in Ht. }
  cbn [length Nat.eqb]. remember (a0 :: affected0) as affected eqn:Eaff. clear Eaff a0 affected0.
  wp_go. apply activeHashAt_wp.
  - intros e tr1 Hs1. wp_go. by apply HQ.
  - intros tr1 Hs1 Hn. wp_go. apply HQ; [done|]. intros _ t _. right. by apply unclaimed_tip.
  - intros nb tr1 Hs1 _ Hnb. wp_go. wp_call x. set (tr2 := tr1 ++ [Event (cGetBUMP nb) x]).
    assert (tr1 ⊆ tr2) as Hs12 by apply grows_snoc. assert (tr ⊆ tr2) as Hs2 by (by etrans).
    assert (headerAt tr2 h nb) as Hnb2 by (by eapply headerAt_mono).
    destruct x as [[bh bytes]|e].
    + destruct (length bytes =? 0)%nat; [wp_go; by apply HQ|].
      destruct (IndexCompound NewMerklePathFromBinary bytes) as [idx|e] eqn:Ei; [|wp_go; by apply HQ].
      assert (bumpRead tr2 nb bh bytes) as Hst by apply snoc_here.
      wp_go. apply mineBatches_wp.
      * intros tr' batch Hs' Hb.
        assert (admits tr' nb) as Hadm by (apply (HG tr' h nb); [by etrans|by eapply headerAt_mono]).
        apply (Hadm tr' bh h bytes); [done|by apply Hs'|].
        -- intros t Ht. right. exists idx. split; [done|].
           apply (slices_sub _ _ _ batchSize_pos Hb) in Ht. apply list_elem_of_In, List.filter_In in Ht. naive_solver.
      * intros m err tr3 Hs3 Hm. destruct err as [e|].
        { wp_go. apply HQ; [by etrans|done]. }
        apply IH; [intros tr' h' nb' Hs' Hh'; apply (HG tr' h' nb'); [|done]; by do 2 (etrans; [done|])|].
        intros m' err tr4 Hs4 Hacc. apply HQ; [by do 2 (etrans; [done|])|]. intros -> t Ht.
        destruct (Bump.Contains NewHashFromHex idx t) eqn:Ec.
        -- left. exists nb, h. split; [eapply headerAt_mono; [apply Hnb2|by etrans]|].
           eapply minedTo_mono; [apply Hm; [done|]|done]. rewrite slicesOf_concat by apply batchSize_pos.
           apply list_elem_of_In, List.filter_In. by rewrite <-list_elem_of_In.
        -- assert (t ∈ List.filter (fun txid => negb (Bump.Contains NewHashFromHex idx txid)) affected) as Hrest.
           { apply list_elem_of_In, List.filter_In. rewrite <-list_elem_of_In, Ec. done. }
           destruct (Hacc eq_refl t Hrest) as [?|Hu]; [by left|].
           right. eapply unclaimed_step; [eapply headerAt_mono; [apply Hnb2|by etrans]| |done].
           right. exists bh, bytes, idx. split; [|done]. apply Hs4, Hs3, Hst.
    + unfold errorIs. case_bool_decide as E; [|wp_go; by apply HQ]. subst e.
      apply IH; [intros tr' h' nb' Hs' Hh'; apply (HG tr' h' nb'); [by etrans|done]|].
      intros m err tr3 Hs3 Hacc. apply HQ; [by etrans|]. intros -> t Ht.
      destruct (Hacc eq_refl t Ht) as [?|Hu]; [by left|]. right.
      eapply unclaimed_step; [by eapply headerAt_mono| |done]. left. apply Hs3, snoc_here.
Qed.

Lemma reanchorNeighborhood_wp affected height tr (Q : Z * option error -> Trace -> Prop) :
  (∀ tr' h' nb, tr ⊆ tr' -> headerAt tr' h' nb -> admits tr' nb) ->
  (∀ m err tr', tr ⊆ tr' ->
     (err = None -> height ≠ 0%Z -> ∀ t, t ∈ affected ->
        accounted tr' t (height + 1) (Z.to_nat (rc_NeighborhoodDepth cfg))) -> Q (m, err) tr') ->
  wp G R (reanchorNeighborhood NewMerklePathFromBinary NewHashFromHex HashString cfg affected height) tr Q.
Proof.
  intros HG HQ. unfold reanchorNeighborhood. destruct affected as [|a affected].
  { simpl. wp_go. apply HQ; [done|]. intros _ _ t Ht. by apply elem_of_nil in Ht. }
  cbn [length Nat.eqb]. case (Z.eqb_spec height 0) as [->|Hh]; [wp_go; by apply HQ|].
  apply neighborLoop_wp; [done|]. intros m err tr' Hs Hacc. apply HQ; [done|]. intros He _. by apply Hacc.
Qed.

(** ** Handing off *)

Lemma requestRebuild_wp b tr (Q : unit -> Trace -> Prop) :
  (∀ url tok, G tr (cReprocess b url tok)) -> (∀ tr', tr ⊆ tr' -> Q tt tr') ->
  wp G R (requestRebuild cfg b) tr Q.
Proof.
  intros HG HQ. unfold requestRebuild. destruct (_ || _); [wp_go; by apply HQ|].
  wp_go. wp_call x. wp_go. apply HQ, grows_snoc.
Qed.

Lemma deferForCanonicalBUMP_wp orphan b s tr (Q : bool -> RState -> Trace -> Prop) :
  (∀ url tok, G tr (cReprocess b url tok)) -> (∀ d s' tr', tr ⊆ tr' -> Q d s' tr') ->
  ewp G R (deferForCanonicalBUMP cfg orphan b) s tr Q.
Proof.
  intros HG HQ. unfold deferForCanonicalBUMP. wp_go. destruct (_ <=? _)%Z; [wp_go; by apply HQ|].
  wp_go. apply requestRebuild_wp; [done|]. intros tr' Hs. wp_go. by apply HQ.
Qed.

Lemma holdPendingRemine_wp hash height s tr (Q : unit -> RState -> Trace -> Prop) :
  (∀ url tok, G tr (cReprocess hash url tok)) -> (∀ s' tr', tr ⊆ tr' -> Q tt s' tr') ->
  ewp G R (holdPendingRemine cfg hash height) s tr Q.
Proof.
  intros HG HQ. unfold holdPendingRemine. wp_go. apply requestRebuild_wp; [done|]. intros tr' Hs. wp_go.
  destruct (pendingRemine s !! hash); [wp_go; by apply HQ|]. destruct (_ <=? _)%nat; wp_go; by apply HQ.
Qed.

(** The hand-off of [hash] at generation [gen]: requeue it, and re-orphan it
    only after reading that it is active. *)
Definition admitsHandOff (tr : Trace) (hash : string) (gen : Time) : Prop :=
  ∀ tr', tr ⊆ tr' ->
    G tr' (cRequeueOrphanedBlock hash gen) ∧ (∀ url tok, G tr' (cReprocess hash url tok)) ∧
    (∀ row' t, Event (cGetBlockProcessingStatus hash) (Ok row') ∈ tr' -> bp_Status row' = BlockStatusActive ->
       G tr' (cMarkBlocksOrphaned [hash] t)).

Lemma admitsHandOff_mono tr tr' hash gen : admitsHandOff tr hash gen -> tr ⊆ tr' -> admitsHandOff tr' hash gen.
Proof. intros H Hs tr2 Hs2. apply H. by etrans. Qed.

Lemma handOffPartialRemine_wp hash gen tr (Q : Res bool -> Trace -> Prop) :
  admitsHandOff tr hash gen -> (∀ r tr', tr ⊆ tr' -> Q r tr') ->
  wp G R (handOffPartialRemine cfg hash gen) tr Q.
Proof.
  intros HG HQ. unfold handOffPartialRemine. wp_go.
  pose proof (HG tr ltac:(done)) as [Hrq _]. wp_call x. set (tr1 := tr ++ _).
  assert (tr ⊆ tr1) as Hs1 by apply grows_snoc.
  destruct x as [[|]|e]; [wp_go; by apply HQ| |wp_go; by apply HQ].
  wp_go. wp_call x. set (tr2 := tr1 ++ _). assert (tr1 ⊆ tr2) as Hs2 by apply grows_snoc.
  assert (tr ⊆ tr2) as Hs02 by (by etrans).
  destruct x as [row'|e]; [|unfold errorIs; case_bool_decide; wp_go; by apply HQ].
  destruct (String.eqb_spec (bp_Status row') BlockStatusOrphaned); [wp_go; by apply HQ|].
  destruct (String.eqb_spec (bp_Status row') BlockStatusActive) as [Ea|]; cbn [negb]; [|wp_go; by apply HQ].
  wp_go. apply requestRebuild_wp; [by apply HG|]. intros tr3 Hs3. wp_go. wp_call now. set (tr4 := tr3 ++ _).
  assert (tr2 ⊆ tr4) as Hs24 by (etrans; [done|apply grows_snoc]).
  assert (G tr4 (cMarkBlocksOrphaned [hash] now)) as Hmo.
  { apply (HG tr4) with (row' := row'); [by etrans| |done]. apply Hs24, snoc_here. }
  wp_go. wp_call x. destruct x as [z [e|]]; wp_go; apply HQ; (etrans; [done|]); (etrans; [done|]); apply grows_snoc.
Qed.

Lemma keepPartialRemineQueued_wp hash gen tr (Q : bool -> Trace -> Prop) :
  admitsHandOff tr hash gen -> (∀ b tr', tr ⊆ tr' -> Q b tr') ->
  wp G R (keepPartialRemineQueued cfg hash gen) tr Q.
Proof.
  unfold keepPartialRemineQueued. generalize handOffAttempts as attempts. intros attempts. revert tr Q.
  induction attempts as [|attempts IH]; intros tr Q HG HQ; cbn [keepPartialLoop].
  - wp_go. apply handOffPartialRemine_wp; [done|]. intros [b|e] tr1 Hs1; wp_go; by apply HQ.
  - wp_go. apply handOffPartialRemine_wp; [done|]. intros [b|e] tr1 Hs1; [wp_go; by apply HQ|].
    destruct (attempts =? 0)%nat; [wp_go; by apply HQ|]. wp_go. wp_call stop. set (tr2 := tr1 ++ _).
    assert (tr ⊆ tr2) as Hs2 by (etrans; [done|apply grows_snoc]).
    destruct stop; [wp_go; by apply HQ|]. wp_go. wp_call stop. set (tr3 := tr2 ++ _).
    assert (tr ⊆ tr3) as Hs3 by (etrans; [done|apply grows_snoc]).
    destruct stop; [wp_go; by apply HQ|].
    apply IH; [by eapply admitsHandOff_mono|]. intros. apply HQ. by etrans.
Qed.
Lemma keepRemineRetried_wp hash height gen s tr (Q : bool -> RState -> Trace -> Prop) :
  admitsHandOff tr hash gen -> (∀ b s' tr', tr ⊆ tr' -> Q b s' tr') ->
  ewp G R (keepRemineRetried cfg hash height gen) s tr Q.
Proof.
  unfold keepRemineRetried. generalize handOffAttempts as attempts. intros attempts. revert s tr Q.
  assert (∀ s tr (Q : option bool -> RState -> Trace -> Prop), admitsHandOff tr hash gen ->
    (∀ b s' tr', tr ⊆ tr' -> Q b s' tr') -> ewp G R (keepRemineAttempt cfg hash height gen) s tr Q) as Hone.
  { intros s tr Q HG HQ. unfold keepRemineAttempt. wp_go. pose proof (HG tr ltac:(done)) as [Hrq _]. wp_call x.
    set (tr1 := tr ++ _). assert (tr ⊆ tr1) as Hs1 by apply grows_snoc.
    destruct x as [[|]|e]; [wp_go; by apply HQ| |wp_go; by apply HQ]. wp_go. wp_call x. set (tr2 := tr1 ++ _).
    assert (tr ⊆ tr2) as Hs2 by (etrans; [done|apply grows_snoc]).
    destruct x as [row'|e]; [|unfold errorIs; case_bool_decide; wp_go; by apply HQ].
    destruct (String.eqb _ _); [wp_go; by apply HQ|]. destruct (String.eqb _ _); [|wp_go; by apply HQ].
    wp_go. apply holdPendingRemine_wp; [by apply HG|]. intros s' tr3 Hs3. wp_go. apply HQ. by etrans. }
  induction attempts as [|attempts IH]; intros s tr Q HG HQ; cbn [keepRemineLoop].
  - wp_go. apply Hone; [done|]. intros [b|] s1 tr1 Hs1; wp_go; by apply HQ.
  - wp_go. apply Hone; [done|]. intros [b|] s1 tr1 Hs1; [wp_go; by apply HQ|].
    destruct (attempts =? 0)%nat; [wp_go; by apply HQ|]. wp_go. wp_call stop. set (tr2 := tr1 ++ _).
    assert (tr ⊆ tr2) as Hs2 by (etrans; [done|apply grows_snoc]).
    destruct stop; [wp_go; by apply HQ|]. wp_go. wp_call stop. set (tr3 := tr2 ++ _).
    assert (tr ⊆ tr3) as Hs3 by (etrans; [done|apply grows_snoc]).
    destruct stop; [wp_go; by apply HQ|].
    apply IH; [by eapply admitsHandOff_mono|]. intros. apply HQ. by etrans.
Qed.
End Shared.

(** ** What reconciling one block may write *)

Section OneBlock.
Context (cfg : ReconcilerConfig) (row : BlockProcessingStatus).
Let orphan := bp_BlockHash row.
Let gen := OrphanGeneration (Some row).
Let R : Trace -> event answer -> Prop := fun _ _ => True.

(** The height the pass works with: the row's, or the stored BUMP's for a
    placeholder row, or none. *)
Definition resolved (tr : Trace) (height : Z) : Prop :=
  (bp_BlockHeight row ≠ 0%Z ∧ height = bp_BlockHeight row) ∨
  (bp_BlockHeight row = 0%Z ∧ ∃ bytes, bumpRead tr orphan height bytes) ∨
  (bp_BlockHeight row = 0%Z ∧ height = 0%Z ∧ noBump tr orphan).

Lemma resolved_mono tr tr' height : resolved tr height -> tr ⊆ tr' -> resolved tr' height.
Proof.
  intros [?|[(? & bytes & ?)|(? & ? & Hn)]] Hs; [by left|right; left|right; right].
  - split; [done|]. exists bytes. by apply Hs.
  - split; [done|]. split; [done|]. apply Hs, Hn.
Qed.

(** The case for reverting: the transactions of the orphan were read, every
    one of them is re-mined or claimed by no later block, and (unless the
    operator opted out) the active block at the orphan's height is another
    one whose whole stored compound was re-mined. *)
Definition revertProof (tr : Trace) : Prop :=
  ∃ height affected, resolved tr height ∧ Event (cGetTxIDsByBlockHash orphan) (affected, None) ∈ tr ∧
    (height ≠ 0%Z -> ∀ t, t ∈ affected -> accounted tr t (height + 1) (Z.to_nat (rc_NeighborhoodDepth cfg))) ∧
    (rc_RevertWhenUnreconcilable cfg = false ->
       height ≠ 0%Z ∧ ∃ c, c ≠ orphan ∧ headerAt tr height c ∧ remined tr c).

Definition allowed (tr : Trace) (c : call) : Prop :=
  match c with
  | cSetMinedByTxIDs b _ batch =>
      (∃ h, headerAt tr h b) ∧ ∃ bh bytes, bumpRead tr b bh bytes ∧ ∀ t, t ∈ batch -> leafOf bytes t
  | cSetStatusByBlockHash b st => b = orphan ∧ st = StatusSeenOnNetwork ∧ revertProof tr
  | cMarkBlockReconciled b g _ => b = orphan ∧ g = gen
  | cReactivateBlock b h g => b = orphan ∧ g = gen ∧ headerAt tr h orphan
  | cRequeueOrphanedBlock b g => b = orphan ∧ g = gen
  | cMarkBlocksOrphaned bs _ =>
      bs = [orphan] ∧ (∃ h, headerAt tr h orphan) ∧
      ∃ row', Event (cGetBlockProcessingStatus orphan) (Ok row') ∈ tr ∧ bp_Status row' = BlockStatusActive
  | cDeleteStumpsByBlockHash b => b = orphan
  | cReprocess b _ _ => ∃ h, headerAt tr h b
  | _ => free c = true
  end.

Lemma allowed_free tr c : free c = true -> allowed tr c.
Proof. by destruct c. Qed.
Hint Resolve allowed_free : core.

Lemma allowed_admits tr h b : headerAt tr h b -> admits allowed tr b.
Proof.
  intros Hh tr' bh hh bytes batch Hs Hst Hl. split; [exists h; by eapply headerAt_mono|]. by exists bh, bytes.
Qed.

Lemma allowed_handOff tr h : headerAt tr h orphan -> admitsHandOff allowed tr orphan gen.
Proof.
  intros Hh tr' Hs. split; [done|]. split; [intros ??; exists h; by eapply headerAt_mono|].
  intros row' t He Ha. split; [done|]. split; [exists h; by eapply headerAt_mono|]. by exists row'.
Qed.

Lemma reactivate_wp h s tr (Q : outcome -> RState -> Trace -> Prop) :
  headerAt tr h orphan -> (∀ o s' tr', Q o s' tr') ->
  ewp allowed R (reactivate orphan h gen) s tr Q.
Proof.
  intros Hh HQ. unfold reactivate. wp_go. assert (allowed tr (cReactivateBlock orphan h gen)) by done.
  wp_call x. destruct x as [[|]|e]; wp_go; apply HQ.
Qed.

Lemma resurrect_wp h s tr (Q : outcome -> RState -> Trace -> Prop) :
  headerAt tr h orphan -> (∀ o s' tr', Q o s' tr') ->
  ewp allowed R (resurrect NewMerklePathFromBinary HashString cfg orphan h gen) s tr Q.
Proof.
  intros Hh HQ. unfold resurrect. wp_go.
  apply remineWithRetry_wp; [auto|by eapply allowed_admits|]. intros n ok err tr1 Hs1 _.
  assert (headerAt tr1 h orphan) as Hh1 by (by eapply headerAt_mono).
  destruct err as [e|]; [|by apply reactivate_wp].
  destruct (errorIs e ErrMalformedBUMP).
  { wp_go. apply deferForCanonicalBUMP_wp; [intros; by exists h|]. intros d s' tr2 Hs2.
    destruct d; [wp_go; apply HQ|]. apply reactivate_wp; [by eapply headerAt_mono|done]. }
  destruct ok; [|wp_go; apply HQ].
  wp_go. apply keepPartialRemineQueued_wp; [auto|by eapply allowed_handOff|]. intros q tr2 Hs2.
  destruct q; wp_go; [apply HQ|]. apply holdPendingRemine_wp; [intros; exists h; by eapply headerAt_mono|].
  intros. wp_go. apply HQ.
Qed.

Lemma parkBlock_wp s tr (Q : outcome -> RState -> Trace -> Prop) :
  (∀ o s' tr', Q o s' tr') -> ewp allowed R (parkBlock orphan gen) s tr Q.
Proof.
  intros HQ. unfold parkBlock. wp_go. wp_call x. wp_go. wp_call y. wp_go. wp_call now. wp_go.
  wp_call r. destruct r as [st|e]; wp_go; apply HQ.
Qed.

Lemma publishReverted_harmless txids : harmless (publishReverted cfg txids).
Proof.
  unfold publishReverted. destruct (_ || _); [done|].
  induction (slicesOf _ txids) as [|ch rest IH]; [done|]. cbn [publishChunks].
  apply makes_bind; [done|]. intros now. by apply makes_bind.
Qed.

Lemma revertAndStamp_wp n s tr (Q : outcome -> RState -> Trace -> Prop) :
  revertProof tr -> (∀ o s' tr', Q o s' tr') -> ewp allowed R (revertAndStamp cfg orphan gen n) s tr Q.
Proof.
  intros Hp HQ. unfold revertAndStamp. wp_go.
  assert (allowed tr (cSetStatusByBlockHash orphan StatusSeenOnNetwork)) by done. wp_call x.
  destruct x as [reverted err]. wp_go. apply harmless_wp; [auto|apply publishReverted_harmless|].
  intros _ tr2 Hs2. destruct err as [e|]; [wp_go; apply HQ|]. wp_go. wp_call y. wp_go. wp_call now.
  wp_go. wp_call r. destruct r as [st|e]; wp_go; apply HQ.
Qed.

(** [ready]: the canonical block's own compound has been re-mined. *)
Definition canonicalDone (tr : Trace) (height : Z) : Prop :=
  height ≠ 0%Z ∧ ∃ c, c ≠ orphan ∧ headerAt tr height c ∧ remined tr c.

Lemma settleRemainder_wp height ready n s tr (Q : outcome -> RState -> Trace -> Prop) :
  resolved tr height -> (ready = true -> canonicalDone tr height) -> (∀ o s' tr', Q o s' tr') ->
  ewp allowed R (settleRemainder NewMerklePathFromBinary NewHashFromHex HashString cfg orphan height gen ready n) s tr Q.
Proof.
  intros Hr Hc HQ. unfold settleRemainder. wp_go. wp_call x. destruct x as [affected [e|]]; [wp_go; apply HQ|].
  set (tr1 := tr ++ _). assert (tr ⊆ tr1) as Hs1 by apply grows_snoc.
  wp_go. apply reanchorNeighborhood_wp; [auto| |].
  { intros tr' h' nb Hs Hh. by eapply allowed_admits. }
  intros m err tr2 Hs2 Hacc. destruct err as [e|]; [wp_go; apply HQ|].
  destruct (negb ready && negb (rc_RevertWhenUnreconcilable cfg)) eqn:E; [by apply parkBlock_wp|].
  assert (tr ⊆ tr2) as Hs02 by (by etrans).
  apply revertAndStamp_wp; [|done]. exists height, affected. split_and!.
  - by eapply resolved_mono.
  - apply Hs2, snoc_here.
  - intros Hh t Ht. by apply Hacc.
  - intros Hf. rewrite Hf in E. destruct ready; [|done]. destruct (Hc eq_refl) as (Hh & c & Hne & Hhd & Hrm).
    split; [done|]. exists c. split_and!; [done|by eapply headerAt_mono|by eapply remined_mono].
Qed.

Lemma deferOrSettle_wp height c n s tr (Q : outcome -> RState -> Trace -> Prop) :
  resolved tr height -> headerAt tr height c -> (∀ o s' tr', Q o s' tr') ->
  ewp allowed R (deferOrSettle NewMerklePathFromBinary NewHashFromHex HashString cfg orphan height gen c n) s tr Q.
Proof.
  intros Hr Hh HQ. unfold deferOrSettle. destruct (String.eqb c ""); [by apply settleRemainder_wp|].
  wp_go. apply deferForCanonicalBUMP_wp; [intros; by exists height|]. intros d s' tr1 Hs1.
  destruct d; [wp_go; apply HQ|]. apply settleRemainder_wp; [by eapply resolved_mono|done..].
Qed.

Lemma reconcileBlock_wp s tr0 :
  ewp allowed R (reconcileBlock NewMerklePathFromBinary NewHashFromHex HashString cfg row) s tr0 (fun _ _ _ => True).
Proof.
  unfold reconcileBlock. wp_go.
  enough (∀ height tr, resolved tr height ->
    ewp allowed R (hdr ← lift (activeHashAt HashString height);
      match hdr with
      | Err _ => mret outcomeError
      | Ok canonical =>
          if bool_decide (canonical = Some orphan)
          then resurrect NewMerklePathFromBinary HashString cfg orphan height gen
          else reanchorCanonical NewMerklePathFromBinary NewHashFromHex HashString cfg orphan height gen canonical
      end) s tr (fun _ _ _ => True)) as Hrest.
  { unfold resolveHeight. destruct (Z.eqb_spec (bp_BlockHeight row) 0) as [E|E]; cbn [negb].
    - wp_go. wp_call x. destruct x as [[h bytes]|e].
      + apply wp_ret, Hrest. right; left. split; [done|]. exists bytes. apply snoc_here.
      + unfold errorIs. case_bool_decide as Ee; apply wp_ret; [|done]. apply Hrest. subst e.
        right; right. rewrite E. split_and!; [done..|]. apply snoc_here.
    - apply wp_ret, Hrest. by left. }
  intros height tr Hres. wp_go. apply activeHashAt_wp; [auto|done| |].
  - intros tr1 Hs1 Hn. case_bool_decide; [done|]. apply settleRemainder_wp; [by eapply resolved_mono|done..].
  - intros c tr1 Hs1 Hh0 Hh. case_bool_decide as Ec; [injection Ec as ->; by apply resurrect_wp|].
    assert (c ≠ orphan) as Hne by congruence.
    unfold reanchorCanonical. wp_go. apply remineFromStoredBUMP_wp; [auto|by eapply allowed_admits|].
    intros n ok err tr2 Hs2 Hrm. assert (headerAt tr2 height c) as Hh2 by (by eapply headerAt_mono).
    assert (tr ⊆ tr2) as Hs02 by (by etrans).
    assert (resolved tr2 height) as Hres2 by (by eapply resolved_mono).
    destruct err as [e|].
    { destruct (errorIs e ErrMalformedBUMP); [|done]. by eapply deferOrSettle_wp. }
    destruct ok; [|by eapply deferOrSettle_wp]. apply settleRemainder_wp; [done| |done].
    intros _. split; [done|]. exists c. split_and!; [done..|]. by apply Hrm.
Qed.

(** ** How a pass ends *)

(** The calls the helpers make; none of them decides the row's fate. *)
Definition auxiliary (c : call) : bool :=
  match c with
  | cSetMinedByTxIDs _ _ _ | cReprocess _ _ _ | cRequeueOrphanedBlock _ _ | cMarkBlocksOrphaned _ _ => true
  | _ => free c
  end.

Lemma publishMined_makes b h info chunks : makes auxiliary (publishMined b h info chunks).
Proof. eapply makes_mono; [apply publishMined_harmless|]. by intros []. Qed.
Lemma setMinedAndPublish_makes pub b h txids info only :
  makes auxiliary (setMinedAndPublish pub b h txids info only).
Proof. pose proof publishMined_makes. unfold setMinedAndPublish. makes_auto. Qed.
Lemma mineBatches_makes b h batches n : makes auxiliary (mineBatches cfg b h batches n).
Proof.
  pose proof setMinedAndPublish_makes. revert n. induction batches; intros n; cbn [mineBatches]; makes_auto.
Qed.
Lemma activeHashAt_makes h : makes auxiliary (activeHashAt HashString h).
Proof. unfold activeHashAt. makes_auto. Qed.
Lemma remineFromStoredBUMP_makes b :
  makes auxiliary (remineFromStoredBUMP NewMerklePathFromBinary HashString cfg b).
Proof. pose proof mineBatches_makes. unfold remineFromStoredBUMP. makes_auto. Qed.
Lemma remineWithRetry_makes b : makes auxiliary (remineWithRetry NewMerklePathFromBinary HashString cfg b).
Proof.
  pose proof remineFromStoredBUMP_makes. unfold remineWithRetry. generalize remineRetryAttempts, 0%Z. intros n.
  induction n; intros z; cbn [remineRetryLoop]; makes_auto.
Qed.
Lemma reanchorNeighborhood_makes affected h :
  makes auxiliary (reanchorNeighborhood NewMerklePathFromBinary NewHashFromHex HashString cfg affected h).
Proof.
  pose proof activeHashAt_makes. pose proof mineBatches_makes. unfold reanchorNeighborhood.
  destruct (_ =? _)%nat; [done|]. destruct (_ =? _)%Z; [done|]. generalize (h + 1)%Z, 0%Z.
  revert affected. induction (Z.to_nat _) as [|n IH]; intros affected z1 z2; cbn [neighborLoop]; makes_auto.
Qed.
Lemma requestRebuild_makes b : makes auxiliary (requestRebuild cfg b).
Proof. unfold requestRebuild. makes_auto. Qed.
Lemma deferForCanonicalBUMP_makes o b : emakes auxiliary (deferForCanonicalBUMP cfg o b).
Proof. pose proof requestRebuild_makes. unfold deferForCanonicalBUMP. makes_auto. Qed.
Lemma holdPendingRemine_makes b h : emakes auxiliary (holdPendingRemine cfg b h).
Proof. pose proof requestRebuild_makes. unfold holdPendingRemine. makes_auto. Qed.
Lemma keepPartialRemineQueued_makes b g : makes auxiliary (keepPartialRemineQueued cfg b g).
Proof.
  assert (makes auxiliary (handOffPartialRemine cfg b g)).
  { pose proof requestRebuild_makes. unfold handOffPartialRemine. makes_auto. }
  unfold keepPartialRemineQueued. induction handOffAttempts; cbn [keepPartialLoop]; makes_auto.
Qed.
Lemma publishReverted_makes txids : makes auxiliary (publishReverted cfg txids).
Proof. eapply makes_mono; [apply publishReverted_harmless|]. by intros []. Qed.
Lemma resolveHeight_makes : makes auxiliary (resolveHeight row).
Proof. unfold resolveHeight. makes_auto. Qed.

(** The writes that take a row off the queue or its transactions off the
    block. *)
Definition deciding (c : call) : bool :=
  match c with
  | cSetStatusByBlockHash _ _ | cMarkBlockReconciled _ _ _ | cReactivateBlock _ _ _ => true
  | _ => false
  end.

(** What an outcome says about the deciding calls of the pass, and about the
    defer counters before and after. *)
Definition decided (o : outcome) (l : Trace) (d d' : gmap string Z) : Prop :=
  let waited := default 0%Z (d !! orphan) in
  match o with
  | outcomeDeferred => l = [] ∧ (waited < maxDefer cfg)%Z ∧ d' = <[orphan := (waited + 1)%Z]> d
  | outcomeError =>
      d' = d ∧
      (l = [] ∨ (∃ h e, l = [Event (cReactivateBlock orphan h gen) (Err e)]) ∨
       (∃ t e, l = [Event (cMarkBlockReconciled orphan gen t) (Err e)]) ∨
       (∃ reverted e, l = [Event (cSetStatusByBlockHash orphan StatusSeenOnNetwork) (reverted, Some e)]) ∨
       (∃ reverted t e, l = [Event (cSetStatusByBlockHash orphan StatusSeenOnNetwork) (reverted, None);
                             Event (cMarkBlockReconciled orphan gen t) (Err e)]))
  | outcomeResurrected =>
      d' = delete orphan d ∧ ∃ h, l = [Event (cReactivateBlock orphan h gen) (Ok true)]
  | outcomeStale =>
      (d' = d ∧ ∃ h, l = [Event (cReactivateBlock orphan h gen) (Ok false)]) ∨
      (d' = delete orphan d ∧
       ((∃ t, l = [Event (cMarkBlockReconciled orphan gen t) (Ok false)]) ∨
        (∃ reverted t, l = [Event (cSetStatusByBlockHash orphan StatusSeenOnNetwork) (reverted, None);
                            Event (cMarkBlockReconciled orphan gen t) (Ok false)])))
  | outcomeParked =>
      d' = delete orphan d ∧ rc_RevertWhenUnreconcilable cfg = false ∧
      ∃ t, l = [Event (cMarkBlockReconciled orphan gen t) (Ok true)]
  | outcomeMixed | outcomeReanchored | outcomeReverted | outcomeEmpty =>
      d' = delete orphan d ∧
      ∃ reverted t, l = [Event (cSetStatusByBlockHash orphan StatusSeenOnNetwork) (reverted, None);
                         Event (cMarkBlockReconciled orphan gen t) (Ok true)] ∧
                    (reverted = [] ↔ o = outcomeReanchored ∨ o = outcomeEmpty)
  end.

Let T : Trace -> call -> Prop := fun _ _ => True.

Lemma aux_wp {A} (p : Prog A) tr (Q : A -> Trace -> Prop) :
  makes auxiliary p -> (∀ a tr', project deciding tr' = project deciding tr -> Q a tr') -> wp T R p tr Q.
Proof. intros Hp HQ. apply (quiet_wp deciding); [|done]. eapply makes_mono; [done|]. by intros []. Qed.

(** A deciding call, and a call that is not. *)
Lemma decide_snoc tr c (x : answer c) :
  project deciding (tr ++ [Event c x]) = project deciding tr ++ (if deciding c then [Event c x] else []).
Proof. rewrite project_app. simpl. by destruct (deciding c). Qed.

Lemma deferForCanonicalBUMP_counts b s tr (Q : bool -> RState -> Trace -> Prop) :
  let waited := default 0%Z (defers s !! orphan) in
  (∀ tr', project deciding tr' = project deciding tr -> (waited < maxDefer cfg)%Z ->
     Q true (setDefers (insert orphan (waited + 1)%Z) s) tr') ->
  Q false s tr ->
  ewp T R (deferForCanonicalBUMP cfg orphan b) s tr Q.
Proof.
  intros waited H1 H2. unfold deferForCanonicalBUMP. wp_go. fold waited.
  destruct (Z.leb_spec (maxDefer cfg) waited); [by wp_go|]. wp_go.
  apply aux_wp; [apply requestRebuild_makes|]. intros [] tr' E. wp_go. by apply H1.
Qed.

Lemma holdPendingRemine_keeps b h s tr (Q : unit -> RState -> Trace -> Prop) :
  (∀ s' tr', defers s' = defers s -> project deciding tr' = project deciding tr -> Q tt s' tr') ->
  ewp T R (holdPendingRemine cfg b h) s tr Q.
Proof.
  intros HQ. unfold holdPendingRemine. wp_go. apply aux_wp; [apply requestRebuild_makes|]. intros [] tr' E.
  wp_go. destruct (pendingRemine s !! b); [wp_go; by apply HQ|]. destruct (_ <=? _)%nat; wp_go; by apply HQ.
Qed.

Lemma reactivate_decides h s tr :
  project deciding tr = [] ->
  ewp T R (reactivate orphan h gen) s tr (fun o s' tr' => decided o (project deciding tr') (defers s) (defers s')).
Proof.
  intros E. unfold reactivate. wp_go. wp_call x.
  destruct x as [[|]|e]; wp_go; rewrite decide_snoc, E; cbn [deciding app decided]; eauto 8.
Qed.

Lemma resurrect_decides h s tr :
  project deciding tr = [] ->
  ewp T R (resurrect NewMerklePathFromBinary HashString cfg orphan h gen) s tr
    (fun o s' tr' => decided o (project deciding tr') (defers s) (defers s')).
Proof.
  intros E. unfold resurrect. wp_go. apply aux_wp; [apply remineWithRetry_makes|]. intros [[n ok] err] tr1 E1.
  rewrite E in E1. destruct err as [e|]; [|by apply reactivate_decides].
  destruct (errorIs e ErrMalformedBUMP).
  { wp_go. apply deferForCanonicalBUMP_counts.
    - intros tr2 E2 Hw. wp_go. cbn [decided]. rewrite E2, E1. done.
    - by apply reactivate_decides. }
  destruct ok; [|wp_go; cbn [decided]; rewrite E1; auto].
  wp_go. apply aux_wp; [apply keepPartialRemineQueued_makes|]. intros [|] tr2 E2; wp_go.
  - cbn [decided]. rewrite E2, E1. auto.
  - apply holdPendingRemine_keeps. intros s' tr3 Es E3. wp_go. cbn [decided]. rewrite E3, E2, E1. auto.
Qed.

Lemma parkBlock_decides s tr :
  project deciding tr = [] -> rc_RevertWhenUnreconcilable cfg = false ->
  ewp T R (parkBlock orphan gen) s tr (fun o s' tr' => decided o (project deciding tr') (defers s) (defers s')).
Proof.
  intros E Hf. unfold parkBlock. wp_go. wp_call x. wp_go. wp_call y. wp_go. wp_call now. wp_go. wp_call r.
  destruct r as [[|]|e]; wp_go; rewrite !decide_snoc, E; cbn [deciding app decided]; eauto 10.
Qed.

Lemma revertAndStamp_decides n s tr :
  project deciding tr = [] ->
  ewp T R (revertAndStamp cfg orphan gen n) s tr (fun o s' tr' => decided o (project deciding tr') (defers s) (defers s')).
Proof.
  intros E. unfold revertAndStamp. wp_go. wp_call x. destruct x as [reverted err]. wp_go.
  apply aux_wp; [apply publishReverted_makes|]. intros [] tr1 E1.
  rewrite decide_snoc, E in E1. cbn [deciding app] in E1.
  destruct err as [e|]; [wp_go; rewrite E1; cbn [decided]; eauto 10|].
  wp_go. wp_call y. wp_go. wp_call now. wp_go. wp_call r.
  destruct r as [[|]|e]; wp_go; rewrite !decide_snoc, E1; cbn [deciding app negb decided]; [|eauto 10..].
  destruct (0 <? n)%Z, reverted; cbn [andb length Nat.ltb Nat.leb]; cbn [decided];
    (split; [done|]); do 2 eexists; (split; [done|]); naive_solver.
Qed.

Lemma settleRemainder_decides height ready n s tr :
  project deciding tr = [] ->
  ewp T R (settleRemainder NewMerklePathFromBinary NewHashFromHex HashString cfg orphan height gen ready n) s tr
    (fun o s' tr' => decided o (project deciding tr') (defers s) (defers s')).
Proof.
  intros E. unfold settleRemainder. wp_go. wp_call x. destruct x as [affected [e|]].
  { wp_go. rewrite decide_snoc, E. cbn [decided deciding app]. auto. }
  wp_go. apply aux_wp; [apply reanchorNeighborhood_makes|]. intros [m err] tr1 E1.
  rewrite decide_snoc, E in E1. cbn [deciding app] in E1.
  destruct err as [e|]; [wp_go; cbn [decided]; auto|].
  destruct (rc_RevertWhenUnreconcilable cfg) eqn:Ef, ready; cbn [negb andb];
    [by apply revertAndStamp_decides..|by apply parkBlock_decides].
Qed.

Lemma deferOrSettle_decides height c n s tr :
  project deciding tr = [] ->
  ewp T R (deferOrSettle NewMerklePathFromBinary NewHashFromHex HashString cfg orphan height gen c n) s tr
    (fun o s' tr' => decided o (project deciding tr') (defers s) (defers s')).
Proof.
  intros E. unfold deferOrSettle. destruct (String.eqb c ""); [by apply settleRemainder_decides|].
  wp_go. apply deferForCanonicalBUMP_counts.
  - intros tr1 E1 Hw. wp_go. cbn [decided]. rewrite E1, E. done.
  - by apply settleRemainder_decides.
Qed.

Lemma reconcileBlock_decides s :
  ewp T R (reconcileBlock NewMerklePathFromBinary NewHashFromHex HashString cfg row) s []
    (fun o s' tr' => decided o (project deciding tr') (defers s) (defers s')).
Proof.
  unfold reconcileBlock. wp_go. apply aux_wp; [apply resolveHeight_makes|]. intros [height|e] tr E;
    [|wp_go; cbn [decided]; rewrite E; auto].
  wp_go. apply aux_wp; [apply activeHashAt_makes|]. intros [canonical|e] tr1 E1; rewrite E in E1;
    [|wp_go; cbn [decided]; rewrite E1; auto].
  case_bool_decide; [by apply resurrect_decides|]. unfold reanchorCanonical.
  destruct canonical as [c|]; [|by apply settleRemainder_decides].
  wp_go. apply aux_wp; [apply remineFromStoredBUMP_makes|]. intros [[n ok] err] tr2 E2. rewrite E1 in E2.
  destruct err as [e|]; [destruct (errorIs e ErrMalformedBUMP); [by apply deferOrSettle_decides|]|].
  - wp_go. cbn [decided]. rewrite E2. auto.
  - destruct ok; [by apply settleRemainder_decides|by apply deferOrSettle_decides].
Qed.
End OneBlock.
End Evidence.

(** ** Theorems *)

(** How one pass over an orphaned block ends, whatever was answered: a
    deferred pass made no deciding write and used up one of the allowed
    waits; a pass that reports an error stamped and reactivated nothing; at
    most one row stamp or reactivation is attempted, always at the
    generation the pass started from; and the healed outcomes report exactly
    whether transactions were reverted.  The defer counter of the block is
    dropped exactly when the row was stamped or reactivated. *)
Theorem reconcileBlock_outcome NewMerklePathFromBinary NewHashFromHex HashString `{Hsort : SortFunc} cfg row s tr o s' :
  ends (reconcileBlock NewMerklePathFromBinary NewHashFromHex HashString cfg row s) tr (o, s') ->
  decided cfg row o (project deciding tr) (defers s) (defers s').
Proof.
  intros He. apply (wp_ends (fun _ _ => True) (fun _ _ => True) _ _ _ (fun r tr' =>
    decided cfg row r.1 (project deciding tr') (defers s) (defers r.2))) in He; [done| |done].
  eapply wp_mono; [apply reconcileBlock_decides|]. by intros [??].
Qed.

(** *** A reorg of one block, for the examples below

    Block O at height 5 was orphaned by C; the compound of C holds t1, and t2
    is only anchored to O. *)
Definition wParse (data : list byte) : Res MerklePath :=
  match data with
  | [] => Err ErrDecode
  | _ => Ok (mkMerklePath 5 [[hashElem 0 "t1"]])
  end.
Definition wRow : BlockProcessingStatus :=
  mkBlockProcessingStatus "O" 5 None (Some 1%Z) (Some 1%Z) BlockStatusOrphaned (Some 7%Z) None.
Definition wTx (t b : string) : TransactionStatus :=
  mkTransactionStatus t StatusMined 0 (Some 3%Z) [] b 5 [] "" [] [] 0 None None [] None.

Definition wAnswer (c : call) : answer c :=
  match c with
  | cCtxErr => false
  | cWait _ => true
  | cNow => Some 9%Z
  | cMapOrder keys => exist _ keys (Permutation_refl keys)
  | cGetBUMP b => if String.eqb b "C" then Ok (5%Z, [x01]) else Err ErrNotFound
  | cInsertBUMP _ _ _ => None
  | cGetTxIDsByBlockHash _ => (["t2"], None)
  | cSetMinedByTxIDs b _ txids => (List.map (fun t => Some (wTx t "O")) txids, List.map (fun t => wTx t b) txids, None)
  | cSetStatusByBlockHash _ _ => (["t2"], None)
  | cGetStumpsByBlockHash _ => Ok []
  | cDeleteStumpsByBlockHash _ => None
  | cGetBlockProcessingStatus _ => Err ErrNotFound
  | cListBlockProcessingStatus _ _ => Ok []
  | cListOrphanedBlocksToReconcile _ => Ok [wRow]
  | cGetActiveTipBlockHeight => Ok 5%Z
  | cMarkBlockProcessed _ _ _ => None
  | cClearBlockProcessed _ => None
  | cMarkBlockBUMPBuilt _ _ _ => None
  | cMarkBlocksOrphaned _ _ => (0%Z, None)
  | cMarkBlockReconciled _ _ _ => Ok true
  | cRequeueOrphanedBlock _ _ => Ok false
  | cReactivateBlock _ _ _ => Ok true
  | cAddBlockExpectedSubtrees _ _ => None
  | cGetBlockExpectedSubtrees _ => Ok []
  | cClearBlockExpectedSubtrees _ => None
  | cTryAcquireOrRenew _ _ _ => Ok (Some 99%Z)
  | cRelease _ _ => None
  | cGetHeaderByHeight h => if (h =? 5)%Z then Ok (Some (mkBlockHeader "C" "root")) else Err ErrHeaderNotFound
  | cGetHeaderByHash _ => Err ErrHeaderNotFound
  | cReprocess _ _ _ => None
  | cGetHealthyEndpoints | cGetEndpoints => []
  | cGetBlock _ _ => Err ErrIO
  | cPublishBulk _ => None
  end.

Definition wHandle (c : call) (s : unit) : answer c * unit := (wAnswer c, s).
Definition wConfig : ReconcilerConfig :=
  mkReconcilerConfig 30000 4 0 0 6 false false 0 0 0 0 "http://arcade" "" true true true "me".
#[local] Existing Instance mergeSortFunc.

Lemma reconcileBlock_outcome_witness :
  let p := reconcileBlock wParse Ok id wConfig wRow initialState in
  (run wHandle p tt).1.1 = outcomeMixed ∧
  decided wConfig wRow outcomeMixed (project deciding (run_trace wHandle p tt)) ∅ (defers (run wHandle p tt).1.2).
Proof.
  split; [by vm_compute|].
  apply (reconcileBlock_outcome wParse Ok id wConfig wRow initialState
           (run_trace wHandle (reconcileBlock wParse Ok id wConfig wRow initialState) tt)).
  pose proof (run_ends wHandle (reconcileBlock wParse Ok id wConfig wRow initialState) tt) as He.
  destruct (run wHandle (reconcileBlock wParse Ok id wConfig wRow initialState) tt) as [[o s'] u] eqn:E.
  assert (o = outcomeMixed) as ->; [|exact He]. by vm_compute in E; injection E as <- _ _.
Defined.
