(* ===== verification/ReconcilerTick.v ===== *)
(** * ReconcilerTick: the reconciler as a service

    Invariants of the whole life of the service ([Start]): its in-memory
    state stays within its caps, every status change it makes is announced to
    subscribers, and every write of a tick is backed by evidence read
    before. *)
From stdpp Require Import base gmap strings list.
From Stdlib Require Import ZArith Lia.
From Stdlib Require Import Strings.Byte.
From S2P Require Import Prelude Models Bump BumpBuild Effects BumpCalls BumpTrace Reconciler ReconcilerProps.

(** ** What is owed to subscribers, and what was published *)

(** Transactions published with status [st] by one call. *)
Definition publishedAs (st : Status) (e : event answer) : list string :=
  match ev_call e with
  | cPublishBulk t => if String.eqb (ts_Status t) st then ts_TxIDs t else []
  | _ => []
  end.

(** The rows a call newly anchored, and the rows a call reverted. *)
Definition anchoredBy (e : event answer) : list string :=
  match ev_call e as c return answer c -> list string with
  | cSetMinedByTxIDs b _ _ => fun x => let '(prevs, mined, _) := x in List.map ts_TxID (changedOnly b prevs mined)
  | _ => fun _ => []
  end (ev_answer e).
Definition revertedBy (e : event answer) : list string :=
  match ev_call e as c return answer c -> list string with
  | cSetStatusByBlockHash _ _ => fun x => x.1
  | _ => fun _ => []
  end (ev_answer e).

Definition gather (f : event answer -> list string) (tr : Trace) : list string := concat (List.map f tr).

Lemma gather_snoc f tr e : gather f (tr ++ [e]) = gather f tr ++ f e.
Proof. unfold gather. rewrite map_app, concat_app. simpl. by rewrite app_nil_r. Qed.

(** Everything rewritten so far has been published, in order. *)
Definition balanced (tr : Trace) : Prop :=
  gather (publishedAs StatusMined) tr = gather anchoredBy tr ∧
  gather (publishedAs StatusSeenOnNetwork) tr = gather revertedBy tr.

(** The calls that neither publish nor rewrite. *)
Definition silent (c : call) : bool :=
  match c with cPublishBulk _ | cSetMinedByTxIDs _ _ _ | cSetStatusByBlockHash _ _ => false | _ => true end.

Lemma balanced_snoc tr c (x : answer c) : silent c = true -> balanced tr -> balanced (tr ++ [Event c x]).
Proof.
  intros Hc [H1 H2]. unfold balanced. rewrite !gather_snoc, H1, H2.
  by destruct c.
Qed.

Lemma balanced_nil : balanced [].
Proof. done. Qed.

#[local] Existing Instance mergeSortFunc.

Section Publishing.
Let T : Trace -> call -> Prop := fun _ _ => True.
Let R : Trace -> event answer -> Prop := fun _ _ => True.

Lemma eventTime_wp ch tr (Q : Time -> Trace -> Prop) :
  (∀ t tr', (∀ f, (∀ x, f (Event cNow x) = []) -> gather f tr' = gather f tr) -> Q t tr') ->
  wp T R (eventTime ch) tr Q.
Proof.
  intros HQ. assert (wp T R (perform cNow) tr Q) as Hnow.
  { wp_call t. apply HQ. intros f Hf. by rewrite gather_snoc, Hf, app_nil_r. }
  unfold eventTime. destruct (head ch) as [m|]; [|done]. destruct (ts_Timestamp m); [by wp_go; apply HQ|done].
Qed.

(** The publish loop adds its transactions and nothing else. *)
Lemma publishMined_publishes b h info chunks tr :
  wp T R (publishMined b h info chunks) tr (fun _ tr' =>
    gather (publishedAs StatusMined) tr' = gather (publishedAs StatusMined) tr ++ List.map ts_TxID (concat chunks) ∧
    gather (publishedAs StatusSeenOnNetwork) tr' = gather (publishedAs StatusSeenOnNetwork) tr ∧
    gather anchoredBy tr' = gather anchoredBy tr ∧ gather revertedBy tr' = gather revertedBy tr).
Proof.
  revert tr. induction chunks as [|ch rest IH]; intros tr; cbn [publishMined].
  { wp_go. by rewrite app_nil_r. }
  wp_go. apply eventTime_wp. intros ts tr1 E1. wp_go. wp_call x. wp_go.
  eapply wp_mono; [apply IH|]. intros more tr2 (H1 & H2 & H3 & H4). wp_go.
  rewrite H1, H2, H3, H4, !gather_snoc, !E1 by done. cbn.
  rewrite !app_nil_r, map_app, app_assoc. done.
Qed.

Lemma publishChunks_publishes chunks tr :
  wp T R (publishChunks chunks) tr (fun _ tr' =>
    gather (publishedAs StatusSeenOnNetwork) tr' = gather (publishedAs StatusSeenOnNetwork) tr ++ concat chunks ∧
    gather (publishedAs StatusMined) tr' = gather (publishedAs StatusMined) tr ∧
    gather anchoredBy tr' = gather anchoredBy tr ∧ gather revertedBy tr' = gather revertedBy tr).
Proof.
  revert tr. induction chunks as [|ch rest IH]; intros tr; cbn [publishChunks].
  { wp_go. by rewrite app_nil_r. }
  wp_go. wp_call now. wp_go. wp_call x. eapply wp_mono; [apply IH|]. intros [] tr2 (H1 & H2 & H3 & H4).
  rewrite H1, H2, H3, H4, !gather_snoc. cbn. by rewrite !app_nil_r, app_assoc.
Qed.

Lemma maxTxIDs_pos : (0 < maxTxIDsPerBulkEvent)%nat.
Proof. unfold maxTxIDsPerBulkEvent. lia. Qed.

Lemma setMinedAndPublish_balanced b h txids info :
  preserves balanced (setMinedAndPublish true b h txids info true).
Proof.
  intros tr [B1 B2]. unfold setMinedAndPublish. wp_go. wp_call x. destruct x as [[prevs mined] err].
  set (tr1 := tr ++ _).
  assert (gather anchoredBy tr1 = gather anchoredBy tr ++ List.map ts_TxID (changedOnly b prevs mined)) as A1.
  { unfold tr1. by rewrite gather_snoc. }
  assert (gather revertedBy tr1 = gather revertedBy tr) as A2 by (unfold tr1; by rewrite gather_snoc, app_nil_r).
  assert (∀ st, gather (publishedAs st) tr1 = gather (publishedAs st) tr) as A3
    by (intros st; unfold tr1; by rewrite gather_snoc, app_nil_r).
  assert (changedOnly b prevs mined = [] -> balanced tr1) as Hnone.
  { intros E. split; rewrite ?A1, ?A2, ?A3, ?E; [by rewrite app_nil_r|done]. }
  destruct (failed err && _) eqn:Ef.
  { wp_go. apply Hnone. apply andb_true_iff in Ef as [_ Ef]. apply Nat.eqb_eq in Ef.
    apply nil_length_inv in Ef as ->. unfold changedOnly. by rewrite zip_with_nil_r. }
  destruct (Nat.eqb_spec (length (changedOnly b prevs mined)) 0) as [E0|E0]; cbn [andb orb negb].
  { wp_go. by apply Hnone, nil_length_inv. }
  wp_go. eapply wp_mono; [apply publishMined_publishes|]. intros pf tr2 (H1 & H2 & H3 & H4). wp_go.
  split; rewrite ?H1, ?H2, ?H3, ?H4, ?A1, ?A2, !A3, ?B1, ?B2; [|done].
  by rewrite slicesOf_concat by apply maxTxIDs_pos.
Qed.
End Publishing.

(** ** The invariant of the service *)

Section Service.
Context (NewMerklePathFromBinary : list byte -> Res MerklePath).
Context (NewHashFromHex : string -> Res Hash) (HashString : Hash -> string).
Context `{Hsort : SortFunc}.
Context (cfg : ReconcilerConfig) (pageFuel : nat).

(** The caps on the in-memory maps. *)
Definition capped (s : RState) : Prop :=
  (size (pendingRemine s) <= maxPendingRemines)%nat ∧
  ∀ b n, defers s !! b = Some n -> (1 <= n <= maxDefer cfg)%Z.

(** With the scan bookkeeping at [a] and [d]. *)
Definition invAt (a : Z) (d : bool) (s : RState) (tr : Trace) : Prop :=
  capped s ∧ (rc_publisher cfg = true -> balanced tr) ∧ startupScanAttempts s = a ∧ startupScanDone s = d.

Lemma inv_silent a d s c :
  silent c = true -> ∀ tr x, invAt a d s tr -> invAt a d s (tr ++ [Event c x]).
Proof. intros Hc tr x (? & ? & ? & ?). split_and!; auto using balanced_snoc. Qed.

Lemma inv_balanced {A} a d s (p : Prog A) :
  (rc_publisher cfg = true -> preserves balanced p) -> preserves (invAt a d s) p.
Proof.
  intros Hp tr (Hc & Hb & Ha & Hd). destruct (rc_publisher cfg) eqn:E.
  - eapply wp_mono; [by apply Hp, Hb|]. intros x tr' Hb'. split_and!; auto.
  - eapply wp_mono; [apply wp_total|]. intros x tr' _. split_and!; auto. congruence.
Qed.

Ltac keeps :=
  intros; repeat keeps_step ltac:(by apply inv_silent); eauto with effects nocore.

Section At.
Context (a : Z) (d : bool).

Lemma mineBatches_inv s b h batches n : preserves (invAt a d s) (mineBatches cfg b h batches n).
Proof.
  revert n. induction batches as [|batch rest IH]; intros n; cbn [mineBatches]; keeps.
  apply inv_balanced. intros ->. apply setMinedAndPublish_balanced.
Qed.
Hint Resolve mineBatches_inv : effects.

Lemma activeHashAt_inv s h : preserves (invAt a d s) (activeHashAt HashString h).
Proof. unfold activeHashAt. keeps. Qed.
Hint Resolve activeHashAt_inv : effects.

Lemma remineWithRetry_inv s b : preserves (invAt a d s) (remineWithRetry NewMerklePathFromBinary HashString cfg b).
Proof.
  assert (preserves (invAt a d s) (remineFromStoredBUMP NewMerklePathFromBinary HashString cfg b)).
  { unfold remineFromStoredBUMP. keeps. }
  unfold remineWithRetry. generalize remineRetryAttempts, 0%Z. intros n.
  induction n as [|n IH]; intros z; cbn [remineRetryLoop]; keeps.
Qed.
Lemma remineFromStoredBUMP_inv s b :
  preserves (invAt a d s) (remineFromStoredBUMP NewMerklePathFromBinary HashString cfg b).
Proof. unfold remineFromStoredBUMP. keeps. Qed.
Hint Resolve remineWithRetry_inv remineFromStoredBUMP_inv : effects.

Lemma reanchorNeighborhood_inv s affected h :
  preserves (invAt a d s) (reanchorNeighborhood NewMerklePathFromBinary NewHashFromHex HashString cfg affected h).
Proof.
  unfold reanchorNeighborhood. keeps. generalize (h + 1)%Z, 0%Z.
  revert affected. induction (Z.to_nat _) as [|n IH]; intros affected z1 z2; cbn [neighborLoop]; keeps.
Qed.
Lemma requestRebuild_inv s b : preserves (invAt a d s) (requestRebuild cfg b).
Proof. unfold requestRebuild. keeps. Qed.
Hint Resolve reanchorNeighborhood_inv requestRebuild_inv : effects.

Lemma keepPartialRemineQueued_inv s b g : preserves (invAt a d s) (keepPartialRemineQueued cfg b g).
Proof.
  assert (preserves (invAt a d s) (handOffPartialRemine cfg b g)) by (unfold handOffPartialRemine; keeps).
  unfold keepPartialRemineQueued. induction handOffAttempts; cbn [keepPartialLoop]; keeps.
Qed.
Hint Resolve keepPartialRemineQueued_inv : effects.

(** The writes to the maps. *)
Lemma inv_forget b : epreserves (invAt a d) (modify (setDefers (delete b))).
Proof.
  apply epreserves_modify. intros s tr ([Hp Hd] & ?). split; [|done]. split; [done|].
  intros b' n. simpl. rewrite lookup_delete_Some. naive_solver.
Qed.
Lemma inv_unhold b : epreserves (invAt a d) (modify (setPending (delete b))).
Proof.
  apply epreserves_modify. intros s tr ([Hp Hd] & ?). split; [|done]. split; [|done]. simpl.
  etrans; [|apply Hp]. apply map_subseteq_size, delete_subseteq.
Qed.
Hint Resolve inv_forget inv_unhold : effects.

Lemma deferForCanonicalBUMP_inv o b : epreserves (invAt a d) (deferForCanonicalBUMP cfg o b).
Proof.
  intros s tr Hi. unfold deferForCanonicalBUMP. wp_go.
  destruct (Z.leb_spec (maxDefer cfg) (default 0%Z (defers s !! o))) as [|Hlt]; [by wp_go|].
  wp_go. destruct Hi as ([Hp Hd] & Hrest). apply (wp_mono _ _ _ _ (fun _ tr' => invAt a d (setDefers (insert o (default 0%Z (defers s !! o) + 1)%Z) s) tr')).
  - apply requestRebuild_inv. split; [|done]. split; [done|]. intros b' n. simpl.
    rewrite lookup_insert_Some. intros [[<- <-]|[_ ?]]; [|by eapply Hd].
    destruct (defers s !! o) as [z|] eqn:E; simpl in *; [apply Hd in E|]; lia.
  - intros [] tr' Hi. by wp_go.
Qed.

Lemma holdPendingRemine_inv b h : epreserves (invAt a d) (holdPendingRemine cfg b h).
Proof.
  unfold holdPendingRemine. apply epreserves_bind; [keeps|]. intros _ s tr Hi. wp_go.
  destruct Hi as ([Hp Hd] & Hrest). destruct (pendingRemine s !! b) as [z|] eqn:E.
  - wp_go. split; [|done]. split; [|done]. simpl. rewrite map_size_insert_Some by eauto. done.
  - destruct (Nat.leb_spec maxPendingRemines (size (pendingRemine s))); wp_go; (split; [|done]); (split; [|done]).
    + done.
    + simpl. rewrite map_size_insert_None by done. lia.
Qed.
Hint Resolve deferForCanonicalBUMP_inv holdPendingRemine_inv : effects.

Lemma keepRemineRetried_inv b h g : epreserves (invAt a d) (keepRemineRetried cfg b h g).
Proof.
  assert (epreserves (invAt a d) (keepRemineAttempt cfg b h g)) by (unfold keepRemineAttempt; keeps).
  unfold keepRemineRetried. induction handOffAttempts; cbn [keepRemineLoop]; keeps.
Qed.
Hint Resolve keepRemineRetried_inv : effects.

Lemma revertAndStamp_inv o g n : epreserves (invAt a d) (revertAndStamp cfg o g n).
Proof.
  intros s tr (Hc & Hb & Ha & Hd). unfold revertAndStamp. wp_go. wp_call x. destruct x as [reverted err]. wp_go.
  assert (wp (fun _ _ => True) (fun _ _ => True) (publishReverted cfg reverted)
    (tr ++ [Event (cSetStatusByBlockHash o StatusSeenOnNetwork) (reverted, err)]) (fun _ tr' => invAt a d s tr')) as Hp.
  { unfold publishReverted. destruct (rc_publisher cfg) eqn:Ep; cbn [negb].
    2: { eapply wp_mono; [apply wp_total|]. intros [] tr' _. split_and!; auto. congruence. }
    rewrite orb_false_r. destruct (Hb eq_refl) as [B1 B2].
    destruct (Nat.eqb_spec (length reverted) 0) as [E0|E0].
    - apply nil_length_inv in E0 as ->. wp_go. split_and!; auto. intros _. split; rewrite !gather_snoc; cbn; rewrite ?app_nil_r; done.
    - eapply wp_mono; [apply publishChunks_publishes|]. intros [] tr' (H1 & H2 & H3 & H4). split_and!; auto. intros _.
      split; rewrite ?H1, ?H2, ?H3, ?H4, !gather_snoc; cbn; rewrite ?app_nil_r; [done|].
      rewrite slicesOf_concat by apply maxTxIDs_pos. by rewrite B2. }
  eapply wp_mono; [apply Hp|]. intros [] tr' Hi. clear Hp Hb Hc. revert s Ha Hd tr' Hi.
  match goal with |- ∀ s _ _ tr' _, ewp _ _ ?m _ _ _ => assert (epreserves (invAt a d) m) as Hm end.
  { destruct err; keeps. }
  intros s _ _ tr' Hi. by apply Hm.
Qed.
Hint Resolve revertAndStamp_inv : effects.

Lemma settleRemainder_inv o h g ready n :
  epreserves (invAt a d) (settleRemainder NewMerklePathFromBinary NewHashFromHex HashString cfg o h g ready n).
Proof. unfold settleRemainder, parkBlock. keeps. Qed.
Hint Resolve settleRemainder_inv : effects.

Lemma reconcileBlock_inv row :
  epreserves (invAt a d) (reconcileBlock NewMerklePathFromBinary NewHashFromHex HashString cfg row).
Proof. unfold reconcileBlock, resolveHeight, resurrect, reanchorCanonical, deferOrSettle, reactivate. keeps. Qed.
Hint Resolve reconcileBlock_inv : effects.

Lemma drainPendingRemines_inv :
  epreserves (invAt a d) (drainPendingRemines NewMerklePathFromBinary HashString cfg).
Proof.
  assert (∀ b, epreserves (invAt a d) (drainOne NewMerklePathFromBinary HashString cfg b)) by (intros b; unfold drainOne; keeps).
  unfold drainPendingRemines. keeps.
  match goal with |- epreserves _ (drainLoop _ _ _ ?l) => induction l; cbn [drainLoop]; keeps end.
Qed.
Hint Resolve drainPendingRemines_inv : effects.

Lemma reconcileRows_inv rows :
  epreserves (invAt a d) (reconcileRows NewMerklePathFromBinary NewHashFromHex HashString cfg rows).
Proof. induction rows; cbn [reconcileRows]; keeps. Qed.
Hint Resolve reconcileRows_inv : effects.

Lemma tickPass_inv : epreserves (invAt a d) (tickPass NewMerklePathFromBinary NewHashFromHex HashString cfg).
Proof. unfold tickPass. keeps. Qed.

Lemma pagesLoop_inv {St} (fn : St -> BlockProcessingStatus -> Prog St) s fuel minHeight before limit st :
  (∀ st row, preserves (invAt a d s) (fn st row)) ->
  preserves (invAt a d s) (pagesLoop fn fuel minHeight before limit st).
Proof.
  intros Hfn. assert (∀ rows st, preserves (invAt a d s) (visitPage fn minHeight st rows)).
  { induction rows; intros st'; cbn [visitPage]; keeps. }
  revert before limit st. induction fuel as [|fuel IH]; intros before limit st; cbn [pagesLoop]; keeps.
Qed.

Lemma judgeRow_inv s maxHeight sc row : preserves (invAt a d s) (judgeRow HashString maxHeight sc row).
Proof. unfold judgeRow. keeps. Qed.

Lemma fullScanMarkOrphaned_inv s set : preserves (invAt a d s) (fullScanMarkOrphaned HashString set).
Proof.
  assert (∀ hashes marked b, preserves (invAt a d s) (recheckMarked HashString hashes set marked b)).
  { induction hashes; intros marked b; cbn [recheckMarked]; keeps. }
  unfold fullScanMarkOrphaned. keeps.
Qed.

Lemma fullScanResurrect_inv set :
  epreserves (invAt a d) (fullScanResurrect NewMerklePathFromBinary HashString cfg set).
Proof.
  assert (∀ b row, epreserves (invAt a d) (resurrectRow NewMerklePathFromBinary HashString cfg b row)).
  { intros b row. unfold resurrectRow, requeueForTick. keeps. }
  unfold fullScanResurrect. keeps. generalize true.
  match goal with |- ∀ c, epreserves _ (resurrectLoop _ _ _ ?l _ c) =>
    induction l; intros c; cbn [resurrectLoop]; keeps end.
Qed.
Hint Resolve tickPass_inv fullScanMarkOrphaned_inv fullScanResurrect_inv pagesLoop_inv judgeRow_inv : effects.

Lemma fullScan_inv : epreserves (invAt a d) (fullScan NewMerklePathFromBinary HashString cfg pageFuel).
Proof. unfold fullScan, fullScanBounds. keeps. Qed.
Lemma tryLease_inv s : preserves (invAt a d s) (tryLease cfg).
Proof. unfold tryLease. keeps. Qed.
Lemma chaintracksReady_inv s : preserves (invAt a d s) chaintracksReady.
Proof. unfold chaintracksReady. keeps. Qed.
End At.
Hint Resolve tickPass_inv tryLease_inv chaintracksReady_inv : effects.

(** The scan is attempted at most [maxStartupFullScanAttempts] times, and is
    retired at the cap. *)
Definition inv (s : RState) (tr : Trace) : Prop :=
  capped s ∧ (rc_publisher cfg = true -> balanced tr) ∧
  (0 <= startupScanAttempts s <= maxStartupFullScanAttempts)%Z ∧
  (startupScanAttempts s = maxStartupFullScanAttempts -> startupScanDone s = true).

Lemma inv_at s tr : inv s tr ↔
  invAt (startupScanAttempts s) (startupScanDone s) s tr ∧
  (0 <= startupScanAttempts s <= maxStartupFullScanAttempts)%Z ∧
  (startupScanAttempts s = maxStartupFullScanAttempts -> startupScanDone s = true).
Proof. unfold inv, invAt. naive_solver. Qed.

(** What keeps the bookkeeping keeps the invariant. *)
Lemma inv_of_at {A} (m : Eff A) : (∀ a d, epreserves (invAt a d) m) -> epreserves inv m.
Proof.
  intros Hm s tr Hi. apply inv_at in Hi as (Hi & Hr & Hd). eapply ewp_mono; [by apply Hm|].
  intros x s' tr' (? & ? & Ha & Hd'). unfold inv. by rewrite Ha, Hd'.
Qed.

Lemma inv_wp {A} (p : Prog A) s tr (Q : A -> Trace -> Prop) :
  (∀ a d, preserves (invAt a d s) p) -> inv s tr -> (∀ x tr', inv s tr' -> Q x tr') ->
  wp (fun _ _ => True) (fun _ _ => True) p tr Q.
Proof.
  intros Hp Hi HQ. apply inv_at in Hi as (Hi & Hr). eapply wp_mono; [by apply Hp|].
  intros x tr' Hi'. by apply HQ, inv_at.
Qed.

Lemma runStartupFullScan_inv s tr :
  inv s tr -> startupScanDone s = false ->
  ewp (fun _ _ => True) (fun _ _ => True)
    (runStartupFullScan NewMerklePathFromBinary HashString cfg pageFuel) s tr (fun _ s' tr' => inv s' tr').
Proof.
  intros Hi Hnd. apply inv_at in Hi as (Hi & Hr & Hd). unfold runStartupFullScan. wp_go.
  eapply ewp_mono; [by apply fullScan_inv|]. intros done s1 tr1 (Hc & Hb & Ha & Hd1). wp_go.
  assert (startupScanAttempts s < maxStartupFullScanAttempts)%Z as Hlt.
  { destruct (Z.eq_dec (startupScanAttempts s) maxStartupFullScanAttempts) as [E|]; [|lia].
    rewrite (Hd E) in Hnd. done. }
  destruct done.
  { wp_go. unfold inv. simpl. split_and!; auto; lia. }
  wp_go. wp_call stop. assert (rc_publisher cfg = true -> balanced (tr1 ++ [Event cCtxErr stop]))
    by (intros ?; apply balanced_snoc; auto).
  destruct stop; wp_go; unfold inv; simpl; rewrite ?Ha, ?Hd1, ?Hnd.
  - split_and!; auto; lia.
  - split_and!; auto; [lia..|]. intros E. destruct (Z.leb_spec maxStartupFullScanAttempts (startupScanAttempts s + 1)); [done|lia].
Qed.

Lemma tick_inv : epreserves inv (tick NewMerklePathFromBinary NewHashFromHex HashString cfg pageFuel).
Proof.
  assert (epreserves inv (tickPass NewMerklePathFromBinary NewHashFromHex HashString cfg)) as Hpass
    by (apply inv_of_at; keeps).
  assert (∀ c, silent c = true -> epreserves inv (lift (perform c))) as Hsil
    by (intros c Hc; apply inv_of_at; keeps).
  unfold tick. apply epreserves_bind; [by apply Hsil|]. intros [|]; [apply epreserves_ret|].
  apply epreserves_bind; [apply inv_of_at; keeps|]. intros [held [|]]; cbn [negb]; [|apply epreserves_ret].
  intros s tr Hi. wp_go. destruct (rc_StartupFullScan cfg && negb (startupScanDone s)) eqn:E; [|by apply Hpass].
  apply andb_true_iff in E as [_ E]. apply negb_true_iff in E. wp_go.
  apply inv_wp with (s := s); [auto with effects|done|]. intros ready tr1 Hi1.
  destruct ready; [|by apply Hpass]. wp_go. eapply ewp_mono; [by apply runStartupFullScan_inv|].
  intros [] s2 tr2 Hi2. wp_go. wp_call stop.
  assert (inv s2 (tr2 ++ [Event cCtxErr stop])) as Hi3.
  { destruct Hi2 as (? & ? & ?). split; [done|]. split; [|done]. intros ?. apply balanced_snoc; auto. }
  destruct stop; [by wp_go|by apply Hpass].
Qed.

Lemma serveLoop_inv ticks interval :
  epreserves inv (serveLoop NewMerklePathFromBinary NewHashFromHex HashString cfg pageFuel ticks interval).
Proof.
  assert (∀ c, silent c = true -> epreserves inv (lift (perform c))) as Hsil
    by (intros c Hc; apply inv_of_at; keeps).
  pose proof tick_inv. induction ticks as [|ticks IH]; cbn [serveLoop]; [apply epreserves_ret|].
  apply epreserves_bind; [by apply Hsil|]. intros [|].
  - destruct (rc_leaser cfg); [|apply epreserves_ret].
    apply epreserves_bind; [by apply Hsil|]. intros ?. apply epreserves_ret.
  - by apply epreserves_bind.
Qed.

Lemma startupScan_inv waitFuel s tr :
  inv s tr -> startupScanDone s = false ->
  ewp (fun _ _ => True) (fun _ _ => True)
    (startupScan NewMerklePathFromBinary HashString cfg pageFuel waitFuel) s tr (fun _ s' tr' => inv s' tr').
Proof.
  intros Hi Hnd. unfold startupScan. destruct (rc_StartupFullScan cfg); [|by wp_go].
  wp_go. apply inv_wp with (s := s); [auto with effects|done|]. intros [held ok] tr1 Hi1. destruct ok; [|by wp_go].
  wp_go. apply inv_wp with (s := s); [|done|].
  { intros a d. unfold waitForChaintracksReady. keeps.
    match goal with |- preserves _ (waitReadyLoop _ ?x ?y) => generalize x, y end.
    induction waitFuel; intros dl bo; cbn [waitReadyLoop]; keeps. }
  intros ready tr2 Hi2. destruct ready; [|by wp_go]. unfold startupScanUnderLease. wp_go.
  apply inv_wp with (s := s); [auto with effects|done|]. intros [held' ok'] tr3 Hi3.
  destruct ok'; cbn [negb]; [by apply runStartupFullScan_inv|by wp_go].
Qed.

Lemma Start_inv waitFuel ticks s tr :
  inv s tr -> startupScanDone s = false ->
  ewp (fun _ _ => True) (fun _ _ => True)
    (Start NewMerklePathFromBinary NewHashFromHex HashString cfg pageFuel waitFuel ticks) s tr (fun _ s' tr' => inv s' tr').
Proof.
  intros Hi Hnd. unfold Start. wp_go. eapply ewp_mono; [by apply startupScan_inv|]. intros [] s1 tr1 Hi1.
  wp_go. eapply ewp_mono; [by apply tick_inv|]. intros [] s2 tr2 Hi2. by apply serveLoop_inv.
Qed.

Lemma Start_ends waitFuel ticks tr s' :
  ends (Start NewMerklePathFromBinary NewHashFromHex HashString cfg pageFuel waitFuel ticks initialState) tr (tt, s') ->
  inv s' tr.
Proof.
  intros He. apply (wp_ends (fun _ _ => True) (fun _ _ => True) _ _ _ (fun r tr' => inv r.2 tr')) in He; [done| |done].
  eapply wp_mono; [apply (Start_inv waitFuel ticks initialState [])|by intros [??]]; [|done].
  unfold inv, capped. simpl.
  split_and!; [apply Nat.le_0_l|intros ??; by rewrite lookup_empty|intros _; apply balanced_nil|done..].
Qed.
End Service.

(** ** Theorems *)

(** The reconciler tells subscribers everything it did: at the end of
    every run of the service, whatever was answered, the transactions
    published as MINED are exactly those whose anchor it changed, in order,
    and those published as SEEN_ON_NETWORK exactly those it reverted, also
    when the store call that changed them reported an error. *)
Theorem reconciler_publishes NewMerklePathFromBinary NewHashFromHex HashString `{Hsort : SortFunc}
    cfg pageFuel waitFuel ticks tr s' :
  rc_publisher cfg = true ->
  ends (Start NewMerklePathFromBinary NewHashFromHex HashString cfg pageFuel waitFuel ticks initialState) tr (tt, s') ->
  gather (publishedAs StatusMined) tr = gather anchoredBy tr ∧
  gather (publishedAs StatusSeenOnNetwork) tr = gather revertedBy tr.
Proof.
  intros Hpub He. by apply Start_ends in He as (_ & Hb & _); apply Hb.
Qed.

Lemma reconciler_publishes_witness :
  let p := Start wParse Ok id wConfig 1 1 0 initialState in
  gather (publishedAs StatusMined) (run_trace wHandle p tt) = ["t1"] ∧
  gather (publishedAs StatusMined) (run_trace wHandle p tt) = gather anchoredBy (run_trace wHandle p tt).
Proof.
  split; [by vm_compute|].
  refine (proj1 (reconciler_publishes wParse Ok id wConfig 1 1 0 _
    (run wHandle (Start wParse Ok id wConfig 1 1 0 initialState) tt).1.2 eq_refl _)).
  pose proof (run_ends wHandle (Start wParse Ok id wConfig 1 1 0 initialState) tt) as He.
  by destruct (run wHandle (Start wParse Ok id wConfig 1 1 0 initialState) tt) as [[[] s'] u].
Defined.

(** The reconciler's memory is bounded for as long as it runs, whatever
    was answered: at most [maxPendingRemines] blocks are held, no block waits
    for its canonical BUMP more than the configured number of times, and the
    startup scan is attempted at most [maxStartupFullScanAttempts] times. *)
Theorem reconciler_bounded NewMerklePathFromBinary NewHashFromHex HashString `{Hsort : SortFunc}
    cfg pageFuel waitFuel ticks tr s' :
  ends (Start NewMerklePathFromBinary NewHashFromHex HashString cfg pageFuel waitFuel ticks initialState) tr (tt, s') ->
  (size (pendingRemine s') <= maxPendingRemines)%nat ∧
  (∀ b n, defers s' !! b = Some n -> (1 <= n <= maxDefer cfg)%Z) ∧
  (0 <= startupScanAttempts s' <= maxStartupFullScanAttempts)%Z ∧
  (startupScanAttempts s' = maxStartupFullScanAttempts -> startupScanDone s' = true).
Proof.
  intros He. by apply Start_ends in He as ([? ?] & _ & ? & ?).
Qed.

Lemma reconciler_bounded_witness :
  let p := Start wParse Ok id wConfig 1 1 0 initialState in
  (size (pendingRemine (run wHandle p tt).1.2) <= maxPendingRemines)%nat.
Proof.
  refine (proj1 (reconciler_bounded wParse Ok id wConfig 1 1 0
    (run_trace wHandle (Start wParse Ok id wConfig 1 1 0 initialState) tt) _ _)).
  pose proof (run_ends wHandle (Start wParse Ok id wConfig 1 1 0 initialState) tt) as He.
  by destruct (run wHandle (Start wParse Ok id wConfig 1 1 0 initialState) tt) as [[[] s'] u].
Defined.
