(* ===== verification/ReconcilerSafe.v ===== *)
(** * ReconcilerSafe: every write of the reconciler is backed by evidence

    The guarantee of the whole service: for every execution of [Start], cut
    short or not, and whatever the answers were, each write names a block the
    store listed, carries the generation that was read, and follows the header
    answer that justifies it. *)
From stdpp Require Import base gmap strings list.
From Stdlib Require Import ZArith Lia.
From Stdlib Require Import Strings.Byte.
From S2P Require Import Prelude Models Bump BumpBuild Effects BumpCalls BumpTrace Reconciler ReconcilerProps.

#[local] Existing Instance mergeSortFunc.

Section Safe.
Context (NewMerklePathFromBinary : list byte -> Res MerklePath).
Context (NewHashFromHex : string -> Res Hash) (HashString : Hash -> string).
Context `{Hsort : SortFunc}.
Context (cfg : ReconcilerConfig) (pageFuel : nat).

Abbreviation headerAt := (headerAt HashString).
Abbreviation allowed := (allowed NewMerklePathFromBinary NewHashFromHex HashString cfg).

(** The store listed this row, on the queue or in the scan. *)
Definition listed (tr : Trace) (row : BlockProcessingStatus) : Prop :=
  (∃ limit rows, Event (cListOrphanedBlocksToReconcile limit) (Ok rows) ∈ tr ∧ row ∈ rows) ∨
  (∃ before limit rows, Event (cListBlockProcessingStatus before limit) (Ok rows) ∈ tr ∧ row ∈ rows).

(** The store was asked and answered that the block is active. *)
Definition readActive (tr : Trace) (b : string) : Prop :=
  ∃ row, Event (cGetBlockProcessingStatus b) (Ok row) ∈ tr ∧ bp_Status row = BlockStatusActive.

(** A row the scan saw active at a height where the active chain has another
    block. *)
Definition offChain (tr : Trace) (b : string) : Prop :=
  ∃ row c, listed tr row ∧ bp_BlockHash row = b ∧ bp_Status row = BlockStatusActive ∧
           headerAt tr (bp_BlockHeight row) c ∧ c ≠ b.

Definition serviceAllowed (tr : Trace) (c : call) : Prop :=
  match c with
  | cSetMinedByTxIDs b _ batch =>
      (∃ h, headerAt tr h b) ∧
      ∃ bh bytes, bumpRead tr b bh bytes ∧
        ∀ t, t ∈ batch -> leafOf NewMerklePathFromBinary NewHashFromHex HashString bytes t
  | cSetStatusByBlockHash b st =>
      st = StatusSeenOnNetwork ∧
      ∃ row, listed tr row ∧ b = bp_BlockHash row ∧
             revertProof NewMerklePathFromBinary NewHashFromHex HashString cfg row tr
  | cMarkBlockReconciled b g _ => ∃ row, listed tr row ∧ b = bp_BlockHash row ∧ g = bp_OrphanedAt row
  | cReactivateBlock b h g => headerAt tr h b ∧ ∃ row, listed tr row ∧ b = bp_BlockHash row ∧ g = bp_OrphanedAt row
  | cRequeueOrphanedBlock b g =>
      (∃ row, listed tr row ∧ b = bp_BlockHash row ∧ g = bp_OrphanedAt row) ∨ (g = None ∧ ∃ h, headerAt tr h b)
  | cMarkBlocksOrphaned bs _ =>
      (∀ b, b ∈ bs -> offChain tr b) ∨ (∃ b h, bs = [b] ∧ headerAt tr h b ∧ readActive tr b)
  | cDeleteStumpsByBlockHash b => ∃ row, listed tr row ∧ b = bp_BlockHash row
  | cReprocess b _ _ => ∃ h, headerAt tr h b
  | cTryAcquireOrRenew name holder _ | cRelease name holder =>
      name = ReconcilerLeaseName ∧ holder = rc_holderID cfg
  | _ => free c = true
  end.

Let R : Trace -> event answer -> Prop := fun _ _ => True.
Let G := serviceAllowed.

Lemma G_free tr c : free c = true -> G tr c.
Proof. by destruct c. Qed.
Hint Resolve G_free : core.

Lemma listed_mono tr tr' row : listed tr row -> tr ⊆ tr' -> listed tr' row.
Proof. intros [(l & rows & ? & ?)|(b & l & rows & ? & ?)] Hs; [left|right]; eauto 10. Qed.

(** What one block's pass may do, the service may do. *)
Lemma allowed_G row tr c : listed tr row -> allowed row tr c -> G tr c.
Proof.
  intros Hl. destruct c; simpl; try done.
  - naive_solver.
  - naive_solver.
  - intros (-> & [h Hh] & row' & ? & ?). right. exists (bp_BlockHash row), h. split_and!; [done..|]. by exists row'.
  - naive_solver.
  - naive_solver.
  - naive_solver.
Qed.

Lemma G_admits tr h b : headerAt tr h b -> admits NewMerklePathFromBinary NewHashFromHex HashString G tr b.
Proof.
  intros Hh tr' bh hh bytes batch Hs Hst Hl. split; [exists h; by eapply headerAt_mono|]. by exists bh, bytes.
Qed.

Lemma G_handOff tr h b g :
  headerAt tr h b -> (g = None ∨ ∃ row, listed tr row ∧ b = bp_BlockHash row ∧ g = bp_OrphanedAt row) ->
  admitsHandOff G tr b g.
Proof.
  intros Hh Hg tr' Hs. assert (headerAt tr' h b) as Hh' by (by eapply headerAt_mono). split_and!.
  - destruct Hg as [->|(row & ? & ? & ?)]; [right; eauto|left]. exists row. split_and!; [by eapply listed_mono|done..].
  - intros ??. by exists h.
  - intros row' t He Ha. right. exists b, h. split_and!; [done..|]. by exists row'.
Qed.

Lemma reconcileBlock_G row s tr (Q : outcome -> RState -> Trace -> Prop) :
  listed tr row -> (∀ o s' tr', tr ⊆ tr' -> Q o s' tr') ->
  ewp G R (reconcileBlock NewMerklePathFromBinary NewHashFromHex HashString cfg row) s tr Q.
Proof.
  intros Hl HQ. unfold ewp.
  assert (∀ A (p : Prog A) tr (P : A -> Trace -> Prop), listed tr row -> wp (allowed row) R p tr P -> wp G R p tr P) as Hlift.
  { clear. intros A p. induction p as [a|c k IH]; intros tr P Hl Hp; [done|]. destruct Hp as [Hc Hk].
    split; [by eapply allowed_G|]. intros x Hx. apply IH; [|by apply Hk]. eapply listed_mono; [done|apply grows_snoc]. }
  eapply wp_mono; [apply wp_grows, Hlift, reconcileBlock_wp; done|].
  intros [o s'] tr' [_ Hs]. by apply HQ.
Qed.

(** The shared specifications, at this guarantee. *)
Definition active_G := activeHashAt_wp HashString G G_free.
Definition remine_G := remineWithRetry_wp NewMerklePathFromBinary NewHashFromHex HashString G G_free cfg.
Definition keepPartial_G := keepPartialRemineQueued_wp G G_free cfg.
Definition keepRemine_G := keepRemineRetried_wp G G_free cfg.
Definition defer_G := deferForCanonicalBUMP_wp G cfg.
Definition hold_G := holdPendingRemine_wp G cfg.

(** ** The pending set *)

Lemma drainOne_G b s tr (Q : unit -> RState -> Trace -> Prop) :
  (∀ s' tr', tr ⊆ tr' -> Q tt s' tr') -> ewp G R (drainOne NewMerklePathFromBinary HashString cfg b) s tr Q.
Proof.
  intros HQ. unfold drainOne. wp_go. apply active_G.
  - intros e tr1 Hs1. wp_go. by apply HQ.
  - intros tr1 Hs1 _. wp_go. by apply HQ.
  - intros c tr1 Hs1 _ Hh. destruct (String.eqb_spec c b) as [->|]; cbn [negb].
    + wp_go. apply remine_G; [by eapply G_admits|]. intros n ok err tr2 Hs2 _.
      assert (tr ⊆ tr2) as Hs02 by (by etrans). assert (headerAt tr2 (default 0%Z (pendingRemine s !! b)) b) as Hh2
        by (by eapply headerAt_mono).
      destruct err as [e|]; [|wp_go; by apply HQ]. destruct (errorIs e ErrMalformedBUMP).
      * wp_go. apply defer_G; [intros; eexists; done|]. intros d s' tr3 Hs3.
        destruct d; wp_go; apply HQ; by etrans.
      * wp_go. apply keepPartial_G; [eapply G_handOff; [done|by left]|]. intros q tr3 Hs3.
        destruct q; wp_go; apply HQ; by etrans.
    + wp_go. wp_call x. assert (tr ⊆ tr1 ++ [Event (cGetBlockProcessingStatus b) x]) by (etrans; [done|apply grows_snoc]).
      destruct x as [row|e]; [destruct (String.eqb _ _)|]; wp_go; by apply HQ.
Qed.

Lemma drainLoop_G hashes s tr (Q : unit -> RState -> Trace -> Prop) :
  (∀ s' tr', tr ⊆ tr' -> Q tt s' tr') -> ewp G R (drainLoop NewMerklePathFromBinary HashString cfg hashes) s tr Q.
Proof.
  revert s tr. induction hashes as [|b rest IH]; intros s tr HQ; cbn [drainLoop]; [wp_go; by apply HQ|].
  wp_go. wp_call stop. assert (tr ⊆ tr ++ [Event cCtxErr stop]) by apply grows_snoc.
  destruct stop; [wp_go; by apply HQ|]. wp_go. apply drainOne_G. intros s1 tr1 Hs1.
  apply IH. intros s2 tr2 Hs2. apply HQ. etrans; [done|]. by etrans.
Qed.

Lemma drainPendingRemines_G s tr (Q : unit -> RState -> Trace -> Prop) :
  (∀ s' tr', tr ⊆ tr' -> Q tt s' tr') ->
  ewp G R (drainPendingRemines NewMerklePathFromBinary HashString cfg) s tr Q.
Proof.
  intros HQ. unfold drainPendingRemines. wp_go. destruct (_ =? _)%nat; [wp_go; by apply HQ|].
  wp_go. wp_call ord. apply drainLoop_G. intros s' tr' Hs. apply HQ. by apply snoc_grows in Hs as [? _].
Qed.

(** ** The full-scan *)

(** What the scan has found so far is backed by its answers. *)
Definition scanBacked (sc : scanState) (tr : Trace) : Prop :=
  (∀ b h, markedSet sc !! b = Some h ->
     ∃ row, listed tr row ∧ bp_BlockHash row = b ∧ bp_BlockHeight row = h ∧ bp_Status row = BlockStatusActive) ∧
  (∀ b row, resurrectSet sc !! b = Some row ->
     listed tr row ∧ bp_BlockHash row = b ∧ headerAt tr (bp_BlockHeight row) b).

Lemma scanBacked_mono sc tr tr' : scanBacked sc tr -> tr ⊆ tr' -> scanBacked sc tr'.
Proof.
  intros [H1 H2] Hs. split.
  - intros b h Hb. destruct (H1 b h Hb) as (row & ? & ?). exists row. split; [by eapply listed_mono|done].
  - intros b row Hb. destruct (H2 b row Hb) as (? & ? & ?). split_and!; [by eapply listed_mono|done|by eapply headerAt_mono].
Qed.

Lemma judgeRow_G maxHeight sc row tr (Q : scanState -> Trace -> Prop) :
  listed tr row -> scanBacked sc tr -> (∀ sc' tr', tr ⊆ tr' -> scanBacked sc' tr' -> Q sc' tr') ->
  wp G R (judgeRow HashString maxHeight sc row) tr Q.
Proof.
  intros Hl Hsc HQ. unfold judgeRow.
  destruct (_ || _); [wp_go; by apply HQ|]. destruct (_ && _); [wp_go; by apply HQ|].
  destruct (_ || _); [wp_go; by apply HQ|]. wp_go. apply active_G.
  - intros e tr1 Hs1. wp_go. apply HQ; [done|]. exact (scanBacked_mono _ _ _ Hsc Hs1).
  - intros tr1 Hs1 _. wp_go. apply HQ; [done|]. exact (scanBacked_mono _ _ _ Hsc Hs1).
  - intros c tr1 Hs1 _ Hh. pose proof (scanBacked_mono _ _ _ Hsc Hs1) as [M1 M2].
    assert (listed tr1 row) as Hl1 by (by eapply listed_mono).
    destruct (String.eqb_spec (bp_Status row) BlockStatusActive) as [Ea|];
      destruct (String.eqb_spec c (bp_BlockHash row)) as [Ec|]; cbn [andb negb];
      try (destruct (String.eqb (bp_Status row) BlockStatusOrphaned); cbn [andb]); wp_go; apply HQ;
      try done; split; simpl; try done.
    all: intros b x; rewrite lookup_insert_Some; intros [[<- <-]|[_ ?]]; eauto. all: subst c; done.
Qed.

Lemma pagesLoop_G {St} (fn : St -> BlockProcessingStatus -> Prog St) (P : St -> Trace -> Prop)
    fuel minHeight before limit st tr (Q : option (St * option error) -> Trace -> Prop) :
  (∀ st tr tr', P st tr -> tr ⊆ tr' -> P st tr') ->
  (∀ st row tr (Q : St -> Trace -> Prop), listed tr row -> P st tr ->
     (∀ st' tr', tr ⊆ tr' -> P st' tr' -> Q st' tr') -> wp G R (fn st row) tr Q) ->
  P st tr ->
  (∀ r tr', tr ⊆ tr' -> (∀ st' err, r = Some (st', err) -> P st' tr') -> Q r tr') ->
  wp G R (pagesLoop fn fuel minHeight before limit st) tr Q.
Proof.
  intros Hmono Hfn. assert (∀ rows st tr (Q : St * bool -> Trace -> Prop), (∀ row, row ∈ rows -> listed tr row) -> P st tr ->
    (∀ st' b tr', tr ⊆ tr' -> P st' tr' -> Q (st', b) tr') -> wp G R (visitPage fn minHeight st rows) tr Q) as Hvisit.
  { clear -Hmono Hfn. induction rows as [|row rest IH]; intros st tr Q Hl Hp HQ; cbn [visitPage]; [wp_go; by apply HQ|].
    destruct (_ <? _)%Z; [wp_go; by apply HQ|]. wp_go. apply Hfn; [apply Hl; set_solver|done|]. intros st1 tr1 Hs1 Hp1.
    apply IH; [intros r Hr; eapply listed_mono; [apply Hl; set_solver|done]|done|].
    intros. apply HQ; [by etrans|done]. }
  revert before limit st tr Q. induction fuel as [|fuel IH]; intros before limit st tr Q Hp HQ; cbn [pagesLoop].
  { wp_go. by apply HQ. }
  wp_go. wp_call stop. set (tr1 := tr ++ _). assert (tr ⊆ tr1) as Hs1 by apply grows_snoc.
  destruct stop. { wp_go. apply HQ; [done|]. intros ?? [= <- <-]. by eapply Hmono. }
  wp_go. wp_call x. set (tr2 := tr1 ++ _). assert (tr ⊆ tr2) as Hs2 by (etrans; [done|apply grows_snoc]).
  assert (P st tr2) as Hp2 by (by eapply Hmono).
  destruct x as [[|first more]|e]; [wp_go; apply HQ; naive_solver| |wp_go; apply HQ; naive_solver].
  wp_go. apply Hvisit; [|done|].
  { intros row Hr. right. exists before, limit, (first :: more). split; [apply snoc_here|done]. }
  intros st3 b tr3 Hs3 Hp3. assert (tr ⊆ tr3) as Hs03 by (by etrans).
  assert (∀ err, Q (Some (st3, err)) tr3) as Hend by (intros err; apply HQ; naive_solver).
  destruct (b || _); [wp_go; apply Hend|]. cbv zeta. destruct (_ =? _)%Z.
  - destruct (_ <=? _)%Z; [wp_go; apply Hend|]. apply IH; [done|]. intros r tr4 Hs4 Hr. apply HQ; [by etrans|done].
  - destruct (_ =? 0)%Z; [wp_go; apply Hend|]. apply IH; [done|]. intros r tr4 Hs4 Hr. apply HQ; [by etrans|done].
Qed.

Lemma recheckMarked_G hashes set marked complete tr (Q : list string * bool -> Trace -> Prop) :
  (∀ b, b ∈ hashes -> ∃ row, listed tr row ∧ bp_BlockHash row = b ∧ set !! b = Some (bp_BlockHeight row) ∧
                            bp_Status row = BlockStatusActive) ->
  (∀ b, b ∈ marked -> offChain tr b) ->
  (∀ l b tr', tr ⊆ tr' -> (∀ x, x ∈ l -> offChain tr' x) -> Q (l, b) tr') ->
  wp G R (recheckMarked HashString hashes set marked complete) tr Q.
Proof.
  assert (∀ tr tr' b, offChain tr b -> tr ⊆ tr' -> offChain tr' b) as Hoff.
  { intros ??? (row & c & ? & ? & ? & ? & ?) Hs. exists row, c.
    split_and!; [by eapply listed_mono|done..|by eapply headerAt_mono|done]. }
  revert marked complete tr Q. induction hashes as [|b rest IH]; intros marked complete tr Q Hb Hm HQ; cbn [recheckMarked].
  { wp_go. by apply HQ. }
  destruct (Hb b ltac:(set_solver)) as (row & Hl & Erow & Eset & Ea). rewrite Eset. cbn [default from_option id].
  assert (∀ tr' m k, tr ⊆ tr' -> (∀ x, x ∈ m -> offChain tr' x) -> wp G R (recheckMarked HashString rest set m k) tr' Q) as Hnext.
  { intros tr' m k Hs Hm'. apply IH; [|done|intros; apply HQ; [by etrans|done]].
    intros b' Hb'. destruct (Hb b' ltac:(set_solver)) as (row' & ? & ?). exists row'. split; [by eapply listed_mono|done]. }
  assert (∀ tr', tr ⊆ tr' -> ∀ x, x ∈ marked -> offChain tr' x) as Hm' by (intros tr' Hs x Hx; eapply Hoff; [by apply Hm|done]).
  wp_go. apply active_G.
  - intros e tr1 Hs1. apply Hnext; [done|by apply Hm'].
  - intros tr1 Hs1 _. apply Hnext; [done|by apply Hm'].
  - intros c tr1 Hs1 _ Hh. destruct (String.eqb_spec c b) as [->|Hne]; [apply Hnext; [done|by apply Hm']|].
    apply Hnext; [done|]. intros x [Hx|Hx]%elem_of_app; [by apply Hm'|]. apply list_elem_of_singleton in Hx as ->.
    exists row, c. split_and!; [by eapply listed_mono|done..].
Qed.

Lemma keysOf_elem {A} (m : gmap string A) b : b ∈ keysOf m -> ∃ x, m !! b = Some x.
Proof.
  unfold keysOf. rewrite list_elem_of_In, in_map_iff. intros ([b' x] & <- & Hin). exists x. simpl.
  by apply elem_of_map_to_list, list_elem_of_In.
Qed.

Lemma fullScanMarkOrphaned_G set tr (Q : bool -> Trace -> Prop) :
  (∀ b h, set !! b = Some h ->
     ∃ row, listed tr row ∧ bp_BlockHash row = b ∧ bp_BlockHeight row = h ∧ bp_Status row = BlockStatusActive) ->
  (∀ b tr', tr ⊆ tr' -> Q b tr') -> wp G R (fullScanMarkOrphaned HashString set) tr Q.
Proof.
  intros Hset HQ. unfold fullScanMarkOrphaned. destruct (_ =? _)%nat; [wp_go; by apply HQ|].
  wp_go. wp_call ord. set (tr1 := tr ++ _). assert (tr ⊆ tr1) as Hs1 by apply grows_snoc.
  wp_go. apply recheckMarked_G.
  - intros b Hb. destruct ord as [l Hl]. simpl in Hb. rewrite Hl in Hb. apply keysOf_elem in Hb as [h Hh].
    destruct (Hset b h Hh) as (row & ? & ? & ? & ?). exists row. split_and!; [by eapply listed_mono|done|congruence|done].
  - intros b Hb. by apply elem_of_nil in Hb.
  - intros marked complete tr2 Hs2 Hoff. assert (tr ⊆ tr2) as Hs02 by (by etrans).
    destruct (length marked =? 0)%nat; [wp_go; by apply HQ|]. wp_go. wp_call now. set (tr3 := tr2 ++ _).
    assert (tr2 ⊆ tr3) as Hs3 by apply grows_snoc.
    assert (G tr3 (cMarkBlocksOrphaned marked now)) as HG.
    { left. intros b Hb. destruct (Hoff b Hb) as (row & c & ? & ? & ? & ? & ?). exists row, c.
      split_and!; [by eapply listed_mono|done..|by eapply headerAt_mono|done]. }
    wp_go. wp_call x. destruct x as [n err]. wp_go. apply HQ. etrans; [done|]. etrans; [done|apply grows_snoc].
Qed.

Lemma resurrectRow_G b row s tr (Q : bool -> RState -> Trace -> Prop) :
  listed tr row -> bp_BlockHash row = b -> headerAt tr (bp_BlockHeight row) b ->
  (∀ ok s' tr', tr ⊆ tr' -> Q ok s' tr') ->
  ewp G R (resurrectRow NewMerklePathFromBinary HashString cfg b row) s tr Q.
Proof.
  intros Hl Hb Hh HQ. unfold resurrectRow. wp_go. apply remine_G; [by eapply G_admits|].
  intros n ok err tr1 Hs1 _. assert (headerAt tr1 (bp_BlockHeight row) b) as Hh1 by (by eapply headerAt_mono).
  assert (listed tr1 row) as Hl1 by (by eapply listed_mono).
  assert (admitsHandOff G tr1 b (OrphanGeneration (Some row))) as Hho.
  { eapply G_handOff; [done|]. right. exists row. done. }
  assert (∀ tr2 s2, tr1 ⊆ tr2 ->
    ewp G R (_ ← holdPendingRemine cfg b (bp_BlockHeight row); mret false) s2 tr2 Q) as Hhold.
  { intros tr2 s2 Hs2. wp_go. apply hold_G; [intros; eexists; by eapply headerAt_mono|]. intros s3 tr3 Hs3. wp_go.
    apply HQ. do 2 (etrans; [done|]). done. }
  destruct err as [e|].
  - destruct (errorIs e ErrMalformedBUMP); [|destruct ok].
    + wp_go. apply keepRemine_G; [done|]. intros [|] s2 tr2 Hs2; [wp_go; apply HQ; by etrans|by apply Hhold].
    + wp_go. apply keepPartial_G; [done|]. intros [|] tr2 Hs2; [wp_go; apply HQ; by etrans|by apply Hhold].
    + wp_go. apply keepRemine_G; [done|]. intros [|] s2 tr2 Hs2; [wp_go; apply HQ; by etrans|by apply Hhold].
  - wp_go. apply active_G.
    + intros e tr2 Hs2. wp_go. apply HQ. by etrans.
    + intros tr2 Hs2 _. wp_go. apply HQ. by etrans.
    + intros c tr2 Hs2 _ Hh2. assert (tr ⊆ tr2) as Hs02 by (by etrans). assert (listed tr2 row) as Hl2 by (by eapply listed_mono).
      destruct (String.eqb_spec c b) as [->|]; cbn [negb].
      * assert (G tr2 (cReactivateBlock b (bp_BlockHeight row) (OrphanGeneration (Some row)))) as HG.
        { split; [done|]. by exists row. }
        wp_go. wp_call x. assert (tr ⊆ tr2 ++ [Event (cReactivateBlock b (bp_BlockHeight row) (OrphanGeneration (Some row))) x])
          by (etrans; [done|apply grows_snoc]).
        destruct x as [[|]|e]; wp_go; by apply HQ.
      * unfold requeueForTick. assert (G tr2 (cRequeueOrphanedBlock (bp_BlockHash row) (OrphanGeneration (Some row)))) as HG.
        { left. by exists row. }
        wp_go. wp_call x. wp_go. apply HQ. etrans; [done|apply grows_snoc].
Qed.

Lemma fullScanResurrect_G set s tr (Q : bool -> RState -> Trace -> Prop) :
  (∀ b row, set !! b = Some row -> listed tr row ∧ bp_BlockHash row = b ∧ headerAt tr (bp_BlockHeight row) b) ->
  (∀ ok s' tr', tr ⊆ tr' -> Q ok s' tr') ->
  ewp G R (fullScanResurrect NewMerklePathFromBinary HashString cfg set) s tr Q.
Proof.
  intros Hset HQ. unfold fullScanResurrect. destruct (_ =? _)%nat; [wp_go; by apply HQ|]. wp_go. wp_call ord.
  assert (∀ hashes complete s1 tr1, tr ⊆ tr1 ->
    ewp G R (resurrectLoop NewMerklePathFromBinary HashString cfg hashes set complete) s1 tr1 Q) as Hloop.
  { induction hashes as [|b rest IH]; intros complete s1 tr1 Hs1; cbn [resurrectLoop]; [wp_go; by apply HQ|].
    destruct (set !! b) as [row|] eqn:Eb; [|by apply IH]. destruct (Hset b row Eb) as (? & ? & ?).
    wp_go. apply resurrectRow_G; [by eapply listed_mono|done|by eapply headerAt_mono|].
    intros ok s2 tr2 Hs2. apply IH. by etrans. }
  apply Hloop, grows_snoc.
Qed.

Lemma fullScan_G s tr (Q : bool -> RState -> Trace -> Prop) :
  (∀ ok s' tr', tr ⊆ tr' -> Q ok s' tr') ->
  ewp G R (fullScan NewMerklePathFromBinary HashString cfg pageFuel) s tr Q.
Proof.
  intros HQ. unfold fullScan. wp_go. apply (harmless_wp G G_free).
  { unfold fullScanBounds. destruct (_ || _); [done|]. apply makes_bind; [done|]. intros [tip|e]; [|done].
    by destruct (_ || _). }
  intros [minHeight maxHeight] tr1 Hs1. wp_go. eapply pagesLoop_G with (P := scanBacked).
  - apply scanBacked_mono.
  - intros. by apply judgeRow_G.
  - split; intros ??; simpl; by rewrite lookup_empty.
  - intros r tr2 Hs2 Hr. assert (tr ⊆ tr2) as Hs02 by (by etrans).
    destruct r as [[sc err]|]; [|wp_go; by apply HQ]. destruct (Hr sc err eq_refl) as [M1 M2].
    cbv zeta. destruct (_ && (size _ =? 0)%nat); [wp_go; by apply HQ|].
    wp_go. apply fullScanMarkOrphaned_G; [done|]. intros mok tr3 Hs3. wp_go.
    apply fullScanResurrect_G.
    + intros b row Hb. destruct (M2 b row Hb) as (? & ? & ?). split_and!; [by eapply listed_mono|done|by eapply headerAt_mono].
    + intros ok s' tr4 Hs4. wp_go. apply HQ. do 2 (etrans; [done|]). done.
Qed.

Lemma runStartupFullScan_G s tr (Q : unit -> RState -> Trace -> Prop) :
  (∀ s' tr', tr ⊆ tr' -> Q tt s' tr') ->
  ewp G R (runStartupFullScan NewMerklePathFromBinary HashString cfg pageFuel) s tr Q.
Proof.
  intros HQ. unfold runStartupFullScan. wp_go. apply fullScan_G. intros ok s1 tr1 Hs1. wp_go.
  destruct ok; [wp_go; by apply HQ|]. wp_go. wp_call stop.
  destruct stop; wp_go; apply HQ; (etrans; [done|apply grows_snoc]).
Qed.

(** ** The tick and the service *)

Lemma tryLease_G tr (Q : Time * bool -> Trace -> Prop) :
  (∀ r tr', tr ⊆ tr' -> Q r tr') -> wp G R (tryLease cfg) tr Q.
Proof.
  intros HQ. unfold tryLease. destruct (negb _); [wp_go; by apply HQ|]. wp_go. wp_call x.
  destruct x; wp_go; apply HQ, grows_snoc.
Qed.

Lemma tickPass_G s tr (Q : unit -> RState -> Trace -> Prop) :
  (∀ s' tr', tr ⊆ tr' -> Q tt s' tr') ->
  ewp G R (tickPass NewMerklePathFromBinary NewHashFromHex HashString cfg) s tr Q.
Proof.
  intros HQ. unfold tickPass. wp_go. apply drainPendingRemines_G. intros s1 tr1 Hs1. wp_go. wp_call stop.
  set (tr2 := tr1 ++ _). assert (tr ⊆ tr2) as Hs2 by (etrans; [done|apply grows_snoc]).
  destruct stop; [wp_go; by apply HQ|]. cbv zeta. wp_go. wp_call x. set (tr3 := tr2 ++ _).
  assert (tr ⊆ tr3) as Hs3 by (etrans; [done|apply grows_snoc]).
  destruct x as [rows|e]; [|wp_go; by apply HQ].
  assert (∀ row, row ∈ rows -> listed tr3 row) as Hl.
  { intros row Hr. left. eexists _, rows. split; [apply snoc_here|done]. }
  clearbody tr3. clear tr2 Hs2 Hs1. revert s1 tr3 Hs3 Hl.
  induction rows as [|row rest IH]; intros s3 tr3 Hs3 Hl; cbn [reconcileRows]; [wp_go; by apply HQ|].
  wp_go. wp_call stop. set (tr4 := tr3 ++ _). assert (tr3 ⊆ tr4) as Hs4 by apply grows_snoc.
  destruct stop; [wp_go; apply HQ; by etrans|]. wp_go. apply reconcileBlock_G; [eapply listed_mono; [apply Hl; set_solver|done]|].
  intros o s5 tr5 Hs5. apply IH; [do 2 (etrans; [done|]); done|].
  intros r Hr. eapply listed_mono; [apply Hl; set_solver|by etrans].
Qed.

Lemma chaintracksReady_G : harmless chaintracksReady.
Proof. unfold chaintracksReady, harmless. makes_auto. Qed.

Lemma tick_G s tr (Q : unit -> RState -> Trace -> Prop) :
  (∀ s' tr', tr ⊆ tr' -> Q tt s' tr') ->
  ewp G R (tick NewMerklePathFromBinary NewHashFromHex HashString cfg pageFuel) s tr Q.
Proof.
  intros HQ. unfold tick. wp_go. wp_call stop. set (tr1 := tr ++ _). assert (tr ⊆ tr1) as Hs1 by apply grows_snoc.
  destruct stop; [wp_go; by apply HQ|]. wp_go. apply tryLease_G. intros [held ok] tr2 Hs2.
  assert (tr ⊆ tr2) as Hs02 by (by etrans). destruct ok; cbn [negb]; [|wp_go; by apply HQ]. wp_go.
  destruct (_ && _); [|apply tickPass_G; intros; apply HQ; by etrans].
  wp_go. apply (harmless_wp G G_free); [apply chaintracksReady_G|]. intros ready tr3 Hs3. assert (tr ⊆ tr3) as Hs03 by (by etrans).
  destruct ready; [|apply tickPass_G; intros; apply HQ; by etrans].
  wp_go. apply runStartupFullScan_G. intros s4 tr4 Hs4. wp_go. wp_call stop. set (tr5 := tr4 ++ _).
  assert (tr ⊆ tr5) as Hs5 by (do 2 (etrans; [done|]); apply grows_snoc).
  destruct stop; [wp_go; by apply HQ|]. apply tickPass_G. intros. apply HQ. by etrans.
Qed.

Lemma Start_G waitFuel ticks s tr :
  ewp G R (Start NewMerklePathFromBinary NewHashFromHex HashString cfg pageFuel waitFuel ticks) s tr (fun _ _ _ => True).
Proof.
  assert (∀ n interval s tr, ewp G R (serveLoop NewMerklePathFromBinary NewHashFromHex HashString cfg pageFuel n interval)
    s tr (fun _ _ _ => True)) as Hserve.
  { induction n as [|n IH]; intros interval s' tr'; cbn [serveLoop]; [done|]. wp_go. wp_call stop. destruct stop.
    - destruct (rc_leaser cfg); [|done]. wp_go. wp_call x. done.
    - wp_go. apply tick_G. intros. apply IH. }
  unfold Start. wp_go.
  assert (∀ s' tr', ewp G R (startupScan NewMerklePathFromBinary HashString cfg pageFuel waitFuel) s' tr' (fun _ _ _ => True)) as Hscan.
  { intros s' tr'. unfold startupScan. destruct (rc_StartupFullScan cfg); [|done]. wp_go. apply tryLease_G.
    intros [held ok] tr1 _. destruct ok; [|done]. wp_go. apply (harmless_wp G G_free).
    { unfold waitForChaintracksReady, harmless. makes_auto.
      match goal with |- makes _ (waitReadyLoop _ ?x ?y) => generalize x, y end.
      pose proof chaintracksReady_G as Hr. unfold harmless in Hr.
      induction waitFuel; intros dl bo; cbn [waitReadyLoop]; makes_auto. }
    intros ready tr2 _. destruct ready; [|done]. unfold startupScanUnderLease. wp_go. apply tryLease_G.
    intros [held' ok'] tr3 _. destruct ok'; cbn [negb]; [by apply runStartupFullScan_G|done]. }
  eapply ewp_mono; [apply Hscan|]. intros [] s1 tr1 _. wp_go. apply tick_G. intros. apply Hserve.
Qed.
End Safe.


