(* ===== verification/BumpBuilder.v ===== *)
(** * BumpBuilder: from BLOCK_PROCESSED to mined transactions

    Models [src/services/bump_builder/builder.go]: the handler of one
    BLOCK_PROCESSED message with everything it calls, and the STUMP janitor.
    Store and network interactions are calls of [BumpCalls]; the compound is
    built by [BumpBuild] and block data is parsed by [Datahub].  Logging,
    metrics and debug dumps are left out.  Theorems are in
    [BumpBuilderProps]. *)
From stdpp Require Import base gmap strings list sorting.
From Stdlib Require Import ZArith Lia.
From Stdlib Require Import Strings.Byte.
From S2P Require Import Prelude Models Bump BumpBuild Datahub PebbleBlocks Effects BumpCalls.

Record BuilderConfig : Type := mkBuilderConfig {
  bc_AnchorGuardEnabled : bool;
  bc_GraceWindowMs : Z;
  bc_HeaderWaitMs : Z;
  bc_DataHubMaxBlockBytes : Z;
  bc_StumpRetentionMinutes : Z;
  bc_RecencyDepth : Z;
  (* which of the optional collaborators are wired *)
  bc_chainHeader : bool;
  bc_publisher : bool
}.

(** The part of [models.CallbackMessage] a BLOCK_PROCESSED carries. *)
Record CallbackMessage : Type := mkCallbackMessage {
  cm_BlockHash : string;
  cm_MerkleRoot : string;
  cm_SubtreeCount : Z;
  cm_SubtreeHashes : list string;
  cm_CoinbaseBUMP : list byte;
  cm_ExpectedSubtreeIndices : list Z
}.

Inductive anchorVerdict : Type := anchorAllow | anchorDeny.

Definition buildOutcomeStoreFailed : string := "store_failed".

(** A [bump.BlockDataValidator] that may make calls. *)
Definition Validator : Type := list Hash -> Hash -> Prog (Res unit).

Definition combineValidators (a b : option Validator) : option Validator :=
  match a, b with
  | None, _ => b
  | _, None => a
  | Some va, Some vb => Some (fun hashes root =>
      r ← va hashes root;
      match r with
      | Err e => mret (Err e)
      | Ok _ => vb hashes root
      end)
  end.

(** ** Sets of leaves and subtree indices *)

Definition missingStumpIndices (expected : list Z) (stumps : list Stump) : list Z :=
  List.filter (fun idx => negb (existsb (fun s => stump_SubtreeIndex s =? idx)%Z stumps)) expected.

Definition leavesNotIn (stored : gset string) (txids : list string) : nat := size (stored ∖ list_to_set txids).

(** [max(stump.SubtreeIndex)+1], at least zero. *)
Definition minSubtreesOf (stumps : list Stump) : Z :=
  foldl (fun m s => if (m <? stump_SubtreeIndex s + 1)%Z then (stump_SubtreeIndex s + 1)%Z else m) 0%Z stumps.

Section Builder.
Context (NewMerklePathFromBinary : list byte -> Res MerklePath) (Bytes : MerklePath -> list byte).
Context (merkleTreeParent : Hash -> Hash -> Hash) (ComputeRoot : MerklePath -> Hash -> Res Hash).
Context (NewHashFromHex : string -> Res Hash) (HashString : Hash -> string).
Context `{SortFunc}.
Context (readVarInt : list byte -> Res (Z * list byte)) (NewTransactionFromStream : list byte -> Res nat).
Context (cfg : BuilderConfig).

(** ** The anchor guard *)

Definition anchorDecision (blockHash : string) (blockHeight : Z) : Prog anchorVerdict :=
  if negb (bc_chainHeader cfg) || negb (bc_AnchorGuardEnabled cfg) then mret anchorAllow
  else if (blockHeight =? 0)%Z || (maxUint32 <? blockHeight)%Z then mret anchorAllow
  else
    r ← perform (cGetHeaderByHeight blockHeight);
    match r with
    | Err _ | Ok None => mret anchorAllow
    | Ok (Some active) => if String.eqb (HashString (hdr_Hash active)) blockHash then mret anchorAllow
                          else mret anchorDeny
    end.

Definition markBlockProcessed (blockHash : string) (blockHeight : Z) : Prog unit :=
  now ← perform cNow;
  err ← perform (cMarkBlockProcessed blockHash blockHeight now);
  match err with
  | Some _ => mret tt
  | None =>
      _ ← perform (cClearBlockExpectedSubtrees blockHash);
      mret tt
  end.

Definition handleAnchorDenied (blockHash : string) (blockHeight : Z) : Prog unit :=
  _ ← markBlockProcessed blockHash blockHeight;
  now ← perform cNow;
  _ ← perform (cMarkBlocksOrphaned [blockHash] now);
  _ ← perform (cDeleteStumpsByBlockHash blockHash);
  mret tt.

(** The store write landed in full and every event went out. *)
Definition markMinedAndPublish (blockHash : string) (blockHeight : Z) (txids : list string) (onlyChanged : bool)
  : Prog bool :=
  '(_, err, pubFailed) ← setMinedAndPublish (bc_publisher cfg) blockHash blockHeight txids "" onlyChanged;
  mret (negb (failed err) && negb pubFailed).

Definition blockFinalized (blockHash : string) : Prog bool :=
  r ← perform (cGetBlockProcessingStatus blockHash);
  mret (match r with
        | Ok row => match bp_ProcessedAt row with Some _ => true | None => false end
        | Err _ => false
        end).

(** ** Deferring a block to the watchdog *)

Definition deferStampedBlock (blockHash : string) : Prog (option error) :=
  r ← perform (cGetBlockProcessingStatus blockHash);
  match r with
  | Err e => mret (if bool_decide (e = ErrNotFound) then None else Some e)
  | Ok row =>
      match bp_ProcessedAt row with
      | None => mret None
      | Some _ => perform (cClearBlockProcessed blockHash)
      end
  end.

Definition deferIncompleteBlock (blockHash : string) (expected : list Z) : Prog (option error) :=
  err ← perform (cAddBlockExpectedSubtrees blockHash expected);
  match err with
  | Some e => mret (Some e)
  | None => deferStampedBlock blockHash
  end.

Definition finalizeEmptyBlock (blockHash : string) : Prog unit := markBlockProcessed blockHash 0.

Definition widenExpectedSubtrees (callback : CallbackMessage) : Prog (Res CallbackMessage) :=
  r ← perform (cGetBlockExpectedSubtrees (cm_BlockHash callback));
  match r with
  | Err e => mret (Err e)
  | Ok [] => mret (Ok callback)
  | Ok retained =>
      mret (Ok (mkCallbackMessage (cm_BlockHash callback) (cm_MerkleRoot callback) (cm_SubtreeCount callback)
                  (cm_SubtreeHashes callback) (cm_CoinbaseBUMP callback)
                  (compact (merge_sort Z.le (cm_ExpectedSubtreeIndices callback ++ retained)))))
  end.

(** ** Redelivery *)

Definition compoundLeaves (compound : MerklePath) : list string :=
  match mp_Path compound with
  | [] => []
  | level0 :: _ => HashString <$> omap pe_Hash level0
  end.

(** The leaves of one STUMP that count: all but the coinbase slot. *)
Definition stumpLeaves (st : Stump) (level0 : list PathElement) : list string :=
  omap (fun leaf => match pe_Hash leaf with
                    | None => None
                    | Some h => if (stump_SubtreeIndex st =? 0)%Z && (pe_Offset leaf =? 0)%Z then None
                                else Some (HashString h)
                    end) level0.

(** Appends what is neither stored nor seen yet. *)
Definition addUnseen (stored : list string) (missing : list string) (txid : string) : list string :=
  if bool_decide (txid ∈ stored) || bool_decide (txid ∈ missing) then missing else missing ++ [txid].

Fixpoint leavesBeyond (stumps : list Stump) (storedTxIDs missing : list string) : Res (list string) :=
  match stumps with
  | [] => Ok missing
  | st :: rest =>
      match NewMerklePathFromBinary (stump_StumpData st) with
      | Err e => Err e
      | Ok mp =>
          match mp_Path mp with
          | [] => Err (ErrMsg "empty merkle path")
          | level0 :: _ => leavesBeyond rest storedTxIDs (foldl (addUnseen storedTxIDs) missing (stumpLeaves st level0))
          end
      end
  end.

Definition leavesBeyondStoredBUMP (stumps : list Stump) (storedTxIDs : list string) : Res (list string) :=
  leavesBeyond stumps storedTxIDs [].

Definition loadStoredBUMP (blockHash : string) : Prog (Res (option (Z * list string))) :=
  r ← perform (cGetBUMP blockHash);
  match r with
  | Err e => mret (if bool_decide (e = ErrNotFound) then Ok None else Err e)
  | Ok (existingHeight, bumpBytes) =>
      if (length bumpBytes =? 0)%nat then mret (Ok None)
      else match levelZeroTxidsFromBUMP NewMerklePathFromBinary HashString bumpBytes with
           | Err _ => mret (Ok None)
           | Ok txids => mret (Ok (Some (existingHeight, txids)))
           end
  end.

(** [mineFailed] and the error. *)
Definition shortCircuit (blockHash : string) (existingHeight : Z) (txids : list string) : Prog (bool * option error) :=
  verdict ← anchorDecision blockHash existingHeight;
  match verdict with
  | anchorDeny =>
      _ ← handleAnchorDenied blockHash existingHeight;
      mret (false, None)
  | anchorAllow =>
      minedComplete ← (if (0 <? length txids)%nat then
                         finalized ← blockFinalized blockHash;
                         markMinedAndPublish blockHash existingHeight txids finalized
                       else mret true);
      if (minedComplete : bool) then
        _ ← markBlockProcessed blockHash existingHeight;
        mret (false, None)
      else
        err ← deferStampedBlock blockHash;
        mret (true, err)
  end.

(** The stored leaves when the block must be rebuilt, the outcome when the
    delivery is done, or an error. *)
Definition handleRedelivery (callback : CallbackMessage) : Prog (Res (option (gset string) * string)) :=
  let blockHash := cm_BlockHash callback in
  r ← loadStoredBUMP blockHash;
  match r with
  | Err e => mret (Err e)
  | Ok None => mret (Ok (None, ""))
  | Ok (Some (height, storedTxIDs)) =>
      r ← perform (cGetStumpsByBlockHash blockHash);
      match r with
      | Err e => mret (Err e)
      | Ok stumps =>
          match leavesBeyondStoredBUMP stumps storedTxIDs with
          | Err e => mret (Err e)
          | Ok newLeaves =>
              let missing := if (0 <? length stumps)%nat
                             then missingStumpIndices (cm_ExpectedSubtreeIndices callback) stumps else [] in
              if (length newLeaves =? 0)%nat && (length missing =? 0)%nat then
                '(mineFailed, err) ← shortCircuit blockHash height storedTxIDs;
                match err with
                | Some e => mret (Err e)
                | None => mret (Ok (None, if (mineFailed : bool) then buildOutcomeStoreFailed else "short_circuited"))
                end
              else mret (Ok (Some (list_to_set storedTxIDs), ""))
          end
      end
  end.

(** ** Resolving the STUMP set *)

(** What [resolveStumps] returns: the set to build from, or a disposition
    with which the message is done, or an error with its label. *)
Inductive resolution : Type :=
| Build (stumps : list Stump) (disposition : string)
| Done (disposition : string)
| Failed (disposition : string) (e : error).

(** After the grace window, or without one. *)
Definition resolveAfterGrace (blockHash : string) (expected : list Z) (stumps : list Stump) : Prog resolution :=
  if (0 <? length (missingStumpIndices expected stumps))%nat then
    err ← deferIncompleteBlock blockHash expected;
    match err with
    | Some e => mret (Failed buildOutcomeStoreFailed e)
    | None => mret (Done "deferred_incomplete")
    end
  else if (length stumps =? 0)%nat then
    _ ← finalizeEmptyBlock blockHash;
    mret (Done "no_stumps")
  else mret (Build stumps "grace_waited").

Definition resolveStumps (callback : CallbackMessage) (rebuild : bool) : Prog resolution :=
  let blockHash := cm_BlockHash callback in
  let expected := cm_ExpectedSubtreeIndices callback in
  r ← perform (cGetStumpsByBlockHash blockHash);
  match r with
  | Err e => mret (Failed buildOutcomeStoreFailed e)
  | Ok stumps =>
      if negb rebuild && (0 <? length expected)%nat && (length (missingStumpIndices expected stumps) =? 0)%nat
      then mret (Build stumps "finalized_complete_no_grace")
      else if negb rebuild && (length expected =? 0)%nat && (length stumps =? 0)%nat then
        _ ← finalizeEmptyBlock blockHash;
        mret (Done "no_stumps")
      else if (0 <? bc_GraceWindowMs cfg * 1000000)%Z then
        stop ← perform (cWait (bc_GraceWindowMs cfg * 1000000));
        if (stop : bool) then mret (Failed "context_canceled" ErrCanceled)
        else
          r ← perform (cGetStumpsByBlockHash blockHash);
          match r with
          | Err e => mret (Failed buildOutcomeStoreFailed e)
          | Ok stumps => resolveAfterGrace blockHash expected stumps
          end
      else resolveAfterGrace blockHash expected stumps
  end.

(** ** Block data *)

Definition headerWaitPollInterval : Z := 1000000000.

(** The poll loop of [lookupHeaderWithWait]: one poll per tick until the
    deadline, so one per second of the wait and two more are enough. *)
Fixpoint headerPollLoop (fuel : nat) (hash : Hash) (deadline : Time) (last : Res (option BlockHeader))
  : Prog (Res (option BlockHeader)) :=
  match fuel with
  | O => mret last
  | S fuel =>
      now ← perform cNow;
      if negb (timeBefore now deadline) then mret last
      else
        stop ← perform (cWait headerWaitPollInterval);
        if (stop : bool) then mret (Err ErrCanceled)
        else
          r ← perform (cGetHeaderByHash hash);
          match r with
          | Ok (Some _) | Err ErrCanceled => mret r
          | _ => headerPollLoop fuel hash deadline r
          end
  end.

Definition lookupHeaderWithWait (hash : Hash) (deadline : Time) : Prog (Res (option BlockHeader)) :=
  r ← perform (cGetHeaderByHash hash);
  match r with
  | Ok (Some _) | Err ErrCanceled => mret r
  | _ =>
      now ← perform cNow;
      if negb (timeBefore now deadline) then mret r
      else headerPollLoop (2 + Z.to_nat (bc_HeaderWaitMs cfg / 1000)) hash deadline r
  end.

Definition chainHeaderRootValidator (blockHash : string) : Prog (option Validator) :=
  if negb (bc_chainHeader cfg) then mret None
  else match NewHashFromHex blockHash with
       | Err _ => mret None
       | Ok hashObj =>
           deadline ← (if (0 <? bc_HeaderWaitMs cfg)%Z then
                         now ← perform cNow;
                         mret (Some (UnixNano now + bc_HeaderWaitMs cfg * 1000000)%Z : Time)
                       else mret (None : Time));
           mret (Some (fun _ fetchedRoot =>
             header ← lookupHeaderWithWait hashObj deadline;
             match header with
             | Ok (Some header) =>
                 if String.eqb (hdr_MerkleRoot header) fetchedRoot then mret (Ok tt)
                 else mret (Err (ErrMsg "merkle_root mismatch"))
             | _ => mret (Ok tt)
             end))
       end.

(** [bump.FetchBlockDataForBUMPWithOptions] with a validator that makes
    calls; [Datahub] has the version with a pure one. *)
Fixpoint fetchBlockLoop (datahubURLs : list string) (blockHash : string) (maxBlockBytes : Z)
    (validator : option Validator) : Prog (Res blockData) :=
  match datahubURLs with
  | [] => mret (Err (ErrMsg "all DataHub URLs failed"))
  | url :: rest =>
      exchange ← perform (cGetBlock url blockHash);
      match fetchBlockBinary readVarInt NewTransactionFromStream exchange maxBlockBytes with
      | Err _ => fetchBlockLoop rest blockHash maxBlockBytes validator
      | Ok (hashes, cbBUMP, root) =>
          vErr ← match validator with None => mret (Ok tt) | Some v => v hashes root end;
          if is_ok vErr && is_ok (coinbaseBUMPReconciles NewMerklePathFromBinary ComputeRoot cbBUMP root)
          then mret (Ok (hashes, cbBUMP, root))
          else fetchBlockLoop rest blockHash maxBlockBytes validator
      end
  end.

Definition fetchBlockDataFromDatahub (blockHash : string) (minSubtrees : Z) : Prog (Res blockData) :=
  healthy ← perform cGetHealthyEndpoints;
  endpoints ← (if (length healthy =? 0)%nat then perform cGetEndpoints else mret healthy);
  let counts := match SubtreeCountValidator minSubtrees with
                | None => None
                | Some v => Some (fun hashes root => mret (v hashes root))
                end in
  validator ← (if bc_chainHeader cfg then
                 roots ← chainHeaderRootValidator blockHash;
                 mret (combineValidators counts roots)
               else mret counts);
  let maxBlockBytes := if (bc_DataHubMaxBlockBytes cfg <=? 0)%Z then DefaultMaxBlockBytes
                       else bc_DataHubMaxBlockBytes cfg in
  match endpoints with
  | [] => mret (Err (ErrMsg "no DataHub URLs configured"))
  | _ => fetchBlockLoop endpoints blockHash maxBlockBytes validator
  end.

(** All hashes of the callback, or [None] when one is not valid hex. *)
Fixpoint decodeHashes (hs : list string) : option (list Hash) :=
  match hs with
  | [] => Some []
  | h :: rest =>
      match NewHashFromHex h, decodeHashes rest with
      | Ok x, Some xs => Some (x :: xs)
      | _, _ => None
      end
  end.

Definition callbackBlockData (callback : CallbackMessage) (minSubtrees : Z) : option blockData :=
  if String.eqb (cm_MerkleRoot callback) "" || (length (cm_SubtreeHashes callback) =? 0)%nat
     || (length (cm_CoinbaseBUMP callback) =? 0)%nat then None
  else if negb (cm_SubtreeCount callback =? 0)%Z
          && negb (cm_SubtreeCount callback =? Z.of_nat (length (cm_SubtreeHashes callback)))%Z then None
  else if (Z.of_nat (length (cm_SubtreeHashes callback)) <? minSubtrees)%Z then None
  else match NewHashFromHex (cm_MerkleRoot callback) with
       | Err _ => None
       | Ok root =>
           match decodeHashes (cm_SubtreeHashes callback) with
           | None => None
           | Some hashes => Some (hashes, cm_CoinbaseBUMP callback, root)
           end
       end.

(** ** The handler *)

(** The error the handler returns and the outcome label. *)
Definition handled : Type := option error * string.

(** From a validated compound to the stamp. *)
Definition persistAndMine (callback : CallbackMessage) (storedLeaves : option (gset string)) (finalized : bool)
    (disposition : string) (compound : MerklePath) (txids : list string) : Prog handled :=
  let blockHash := cm_BlockHash callback in
  let blockHeight := mp_BlockHeight compound in
  cleared ← (if bool_decide (is_Some storedLeaves) && finalized then perform (cClearBlockProcessed blockHash)
             else mret None);
  match cleared with
  | Some e => mret (Some e, buildOutcomeStoreFailed)
  | None =>
      now ← perform cNow;
      err ← perform (cMarkBlockBUMPBuilt blockHash blockHeight now);
      match err with
      | Some e => mret (Some e, buildOutcomeStoreFailed)
      | None =>
          err ← perform (cInsertBUMP blockHash blockHeight (Bytes compound));
          match err with
          | Some e => mret (Some e, buildOutcomeStoreFailed)
          | None =>
              verdict ← anchorDecision blockHash blockHeight;
              match verdict with
              | anchorDeny =>
                  _ ← handleAnchorDenied blockHash blockHeight;
                  mret (None, "skipped_inactive_chain")
              | anchorAllow =>
                  minedComplete ← (if (0 <? length txids)%nat
                                   then markMinedAndPublish blockHash blockHeight txids finalized else mret true);
                  if (minedComplete : bool) then
                    _ ← markBlockProcessed blockHash blockHeight;
                    mret (None, if bool_decide (is_Some storedLeaves) then "rebuilt" else disposition)
                  else mret (None, buildOutcomeStoreFailed)
              end
          end
      end
  end.

(** From the block data to a validated compound that drops no stored leaf. *)
Definition buildBlock (callback : CallbackMessage) (storedLeaves : option (gset string)) (finalized : bool)
    (disposition : string) (stumps : list Stump) (data : blockData) : Prog handled :=
  let '(subtreeHashes, coinbaseBUMP, headerMerkleRoot) := data in
  if (length subtreeHashes =? 0)%nat then mret (None, "no_subtrees")
  else
    match (BuildCompoundBUMP NewMerklePathFromBinary Bytes merkleTreeParent ComputeRoot HashString
             stumps subtreeHashes coinbaseBUMP (Some headerMerkleRoot)).1 with
    | Err e => mret (Some e, "build_failed")
    | Ok (compound, txids) =>
        match ValidateCompoundRoot ComputeRoot (Some compound) (Some headerMerkleRoot) with
        | Err e => mret (Some e, "validation_failed")
        | Ok _ =>
            let dropped := match storedLeaves with
                           | Some stored => leavesNotIn stored (compoundLeaves compound)
                           | None => 0%nat
                           end in
            if (0 <? dropped)%nat then
              err ← deferIncompleteBlock (cm_BlockHash callback) (cm_ExpectedSubtreeIndices callback);
              match err with
              | Some e => mret (Some e, buildOutcomeStoreFailed)
              | None => mret (None, "deferred_incomplete")
              end
            else persistAndMine callback storedLeaves finalized disposition compound txids
        end
    end.

Definition processBlock (callback : CallbackMessage) (storedLeaves : option (gset string)) : Prog handled :=
  finalized ← blockFinalized (cm_BlockHash callback);
  r ← resolveStumps callback (bool_decide (is_Some storedLeaves));
  match r with
  | Failed disposition e => mret (Some e, disposition)
  | Done disposition => mret (None, disposition)
  | Build stumps disposition =>
      let minSubtrees := minSubtreesOf stumps in
      match callbackBlockData callback minSubtrees with
      | Some data => buildBlock callback storedLeaves finalized disposition stumps data
      | None =>
          r ← fetchBlockDataFromDatahub (cm_BlockHash callback) minSubtrees;
          match r with
          | Err e => mret (Some e, "fetch_failed")
          | Ok data => buildBlock callback storedLeaves finalized disposition stumps data
          end
      end
  end.

(** [decode] is [json.Unmarshal] of the message value. *)
Definition handleMessage (decode : list byte -> Res CallbackMessage) (value : list byte) : Prog handled :=
  match decode value with
  | Err e => mret (Some e, "parse_failed")
  | Ok callback =>
      if String.eqb (cm_BlockHash callback) "" then mret (Some (ErrMsg "empty block hash"), "parse_failed")
      else
        r ← widenExpectedSubtrees callback;
        match r with
        | Err e => mret (Some e, buildOutcomeStoreFailed)
        | Ok callback =>
            r ← handleRedelivery callback;
            match r with
            | Err e => mret (Some e, buildOutcomeStoreFailed)
            | Ok (storedLeaves, handledOutcome) =>
                if negb (String.eqb handledOutcome "") then mret (None, handledOutcome)
                else processBlock callback storedLeaves
            end
        end
  end.

(** ** The STUMP janitor *)

Definition stumpRetention : Z :=
  if (0 <? bc_StumpRetentionMinutes cfg)%Z then (bc_StumpRetentionMinutes cfg * 60000000000)%Z
  else 3600000000000%Z.

(** [a.After(b)]. *)
Definition timeAfter (a : Time) (b : Z) : bool := timeBefore (Some b) a.

(** One row: whether the page may hold a retained block. *)
Definition pruneRow (now : Z) (mayHold : bool) (r : BlockProcessingStatus) : Prog bool :=
  let mayHold := mayHold || timeAfter (bp_HeaderSeenAt r) (now - stumpRetention - 3600000000000) in
  match bp_BUMPBuiltAt r, bp_ProcessedAt r with
  | Some built, Some _ =>
      if (now - built <? stumpRetention)%Z then mret true
      else
        _ ← perform (cDeleteStumpsByBlockHash (bp_BlockHash r));
        mret mayHold
  | _, _ => mret mayHold
  end.

Fixpoint pruneRows (now : Z) (mayHold : bool) (rows : list BlockProcessingStatus) : Prog bool :=
  match rows with
  | [] => mret mayHold
  | r :: rest =>
      mayHold ← pruneRow now mayHold r;
      pruneRows now mayHold rest
  end.

(** The page loop; false when the fuel runs out. *)
Fixpoint pruneLoop (fuel : nat) (now tip depth cursor : Z) : Prog bool :=
  match fuel with
  | O => mret false
  | S fuel =>
      stop ← perform cCtxErr;
      if (stop : bool) then mret true
      else
        r ← perform (cListBlockProcessingStatus cursor 200);
        match r with
        | Err _ | Ok [] => mret true
        | Ok (first :: more) =>
            mayHold ← pruneRows now false (first :: more);
            let oldest := bp_BlockHeight (List.last (first :: more) first) in
            if (depth <? tip)%Z && (oldest <=? tip - depth)%Z && negb mayHold then mret true
            else if (oldest =? 0)%Z then mret true
            else pruneLoop fuel now tip depth oldest
        end
  end.

Definition pruneOrphanStumps (fuel : nat) : Prog bool :=
  let depth := if (bc_RecencyDepth cfg <=? 0)%Z then 144%Z else bc_RecencyDepth cfg in
  r ← perform cGetActiveTipBlockHeight;
  match r with
  | Err _ => mret true
  | Ok tip =>
      if (tip =? 0)%Z then mret true
      else
        now ← perform cNow;
        pruneLoop fuel (UnixNano now) tip depth (tip + 1)
  end.
End Builder.
