(* ===== verification/BumpBuilderProps.v ===== *)
(** * BumpBuilderProps: what the builder writes, and when it stamps a block

    Every execution of [handleMessage], cut short or not and whatever was
    answered, makes only writes that earlier answers justify; a complete one
    asks for the stamp exactly under the outcomes that promise it. *)
From stdpp Require Import base gmap strings list sorting.
From Stdlib Require Import ZArith Lia.
From Stdlib Require Import Strings.Byte.
From S2P Require Import Prelude Models Bump BumpBuild Datahub PebbleBlocks PebbleBlocksProps BumpBuildProps Effects BumpCalls BumpTrace BumpBuilder.

(** ** Traces that grow without a stamp *)

Definition isStamp (c : call) : bool := match c with cMarkBlockProcessed _ _ _ => true | _ => false end.
Definition noStamp (tr : Trace) : Prop := Forall (fun e => isStamp (ev_call e) = false) tr.
Definition quiet (tr tr' : Trace) : Prop := tr ⊆ tr' ∧ (noStamp tr -> noStamp tr').

#[export] Instance quiet_preorder : PreOrder quiet.
Proof.
  split; [by intros tr; split|]. intros t1 t2 t3 [H1 H2] [H3 H4]. split; [by etrans|auto].
Qed.

Lemma quiet_grows tr tr' : quiet tr tr' -> tr ⊆ tr'.
Proof. by intros []. Qed.

Lemma quiet_snoc (tr : Trace) (e : event answer) : isStamp (ev_call e) = false -> quiet tr (tr ++ [e]).
Proof.
  intros He. split; [apply grows_snoc|]. intros Ht. apply Forall_app. split; [done|]. by apply Forall_singleton.
Qed.

(** A call whose guarantee is shown by [tac]. *)
Ltac wp_make x tac :=
  lazymatch goal with |- wp ?g ?r (perform ?c) ?tr ?Q => apply (wp_perform g r c tr Q) end;
  [solve [tac]|intros x _; cbn [answer] in x; cbv beta].

(** Closes [quiet] and [⊆] goals by the steps in the context. *)
Ltac grow :=
  repeat match goal with H : quiet ?a ?b |- _ => lazymatch goal with
    | _ : a ⊆ b |- _ => fail | _ => pose proof (quiet_grows _ _ H) end end;
  first [done | apply grows_snoc | by apply quiet_snoc
        | etrans; [|eassumption]; grow | etrans; [|apply grows_snoc]; grow | etrans; [|by apply quiet_snoc]; grow].

Section BuilderProps.
Context (NewMerklePathFromBinary : list byte -> Res MerklePath) (Bytes : MerklePath -> list byte).
Context (merkleTreeParent : Hash -> Hash -> Hash) (ComputeRoot : MerklePath -> Hash -> Res Hash).
Context (NewHashFromHex : string -> Res Hash) (HashString : Hash -> string).
Context `{Hsort : SortFunc}.
Context (readVarInt : list byte -> Res (Z * list byte)) (NewTransactionFromStream : list byte -> Res nat).
Context (cfg : BuilderConfig) (callback : CallbackMessage).

Abbreviation blockHash := (cm_BlockHash callback).
Abbreviation leavesOf := (levelZeroTxidsFromBUMP NewMerklePathFromBinary HashString).

(** ** Evidence *)

(** The expected set in force: what this delivery announces and what earlier
    deferred ones did. *)
Definition expectedSet (tr : Trace) (expected : list Z) : Prop :=
  ∃ retained, Event (cGetBlockExpectedSubtrees blockHash) (Ok retained) ∈ tr ∧
    ∀ i, i ∈ expected ↔ i ∈ cm_ExpectedSubtreeIndices callback ∨ i ∈ retained.

(** These STUMPs were read, and none of the expected set is missing. *)
Definition completeStumps (tr : Trace) (stumps : list Stump) : Prop :=
  Event (cGetStumpsByBlockHash blockHash) (Ok stumps) ∈ tr ∧
  ∃ expected, expectedSet tr expected ∧ ∀ i, i ∈ expected -> ∃ s, s ∈ stumps ∧ stump_SubtreeIndex s = i.

(** The header source was asked for this block and named no other root. *)
Definition rootAgrees (tr : Trace) (root : Hash) : Prop :=
  ∀ hash, NewHashFromHex blockHash = Ok hash ->
    ∃ r, Event (cGetHeaderByHash hash) r ∈ tr ∧
      match r with Ok (Some hd) => hdr_MerkleRoot hd = root | _ => True end.

(** Where block data comes from: the callback, or a DataHub response that
    parsed, passed the coinbase check, has a subtree for every STUMP and
    agrees with the header. *)
Definition dataFrom (tr : Trace) (stumps : list Stump) (data : blockData) : Prop :=
  callbackBlockData NewHashFromHex callback (minSubtreesOf stumps) = Some data ∨
  ∃ url exchange maxBytes,
    Event (cGetBlock url blockHash) exchange ∈ tr ∧
    fetchBlockBinary readVarInt NewTransactionFromStream exchange maxBytes = Ok data ∧
    is_ok (coinbaseBUMPReconciles NewMerklePathFromBinary ComputeRoot data.1.2 data.2) = true ∧
    (minSubtreesOf stumps <= Z.of_nat (length data.1.1))%Z ∧
    (bc_chainHeader cfg = true -> rootAgrees tr data.2).

(** The leaves of a stored compound the answer of [GetBUMP] holds. *)
Definition storedIn (r : Res (Z * list byte)) : option (Z * list string) :=
  match r with
  | Ok (h, bytes) =>
      if (length bytes =? 0)%nat then None
      else match leavesOf bytes with Ok leaves => Some (h, leaves) | Err _ => None end
  | Err _ => None
  end.

(** The stored compound was read, or is not there. *)
Definition readStored (tr : Trace) (stored : option (Z * list string)) : Prop :=
  ∃ r, Event (cGetBUMP blockHash) r ∈ tr ∧ (∀ e, r = Err e -> e = ErrNotFound) ∧ storedIn r = stored.

(** A compound built from a complete STUMP set, whose root is the block's and
    which drops no leaf of the stored one. *)
Definition validated (tr : Trace) (compound : MerklePath) (txids : list string) : Prop :=
  ∃ stumps hashes coinbase root,
    completeStumps tr stumps ∧ dataFrom tr stumps (hashes, coinbase, root) ∧
    (BuildCompoundBUMP NewMerklePathFromBinary Bytes merkleTreeParent ComputeRoot HashString
       stumps hashes coinbase (Some root)).1 = Ok (compound, txids) ∧
    ValidateCompoundRoot ComputeRoot (Some compound) (Some root) = Ok tt ∧
    ∃ stored, readStored tr stored ∧
      ∀ h leaves t, stored = Some (h, leaves) -> t ∈ leaves -> t ∈ compoundLeaves HashString compound.

(** The header at the height names another block, or names none. *)
Definition denied (tr : Trace) (h : Z) : Prop := ∃ other, headerAt HashString tr h other ∧ other ≠ blockHash.
Definition anchorOpen (tr : Trace) (h : Z) : Prop :=
  bc_chainHeader cfg = false ∨ bc_AnchorGuardEnabled cfg = false ∨ h = 0%Z ∨ (maxUint32 < h)%Z ∨
  ∃ r, Event (cGetHeaderByHeight h) r ∈ tr ∧
    ∀ hd, r = Ok (Some hd) -> HashString (hdr_Hash hd) = blockHash.

(** The transactions of the block: those of its stored compound, or of a
    compound that was just stored. *)
Definition provenLeaves (tr : Trace) (h : Z) (txids : list string) : Prop :=
  readStored tr (Some (h, txids)) ∨
  ∃ compound, validated tr compound txids ∧ h = mp_BlockHeight compound ∧
    Event (cInsertBUMP blockHash h (Bytes compound)) None ∈ tr.

(** An event that announced [m] as mined in the block went out. *)
Definition announced (tr : Trace) (h : Z) (m : TransactionStatus) : Prop :=
  ∃ ts chunk, m ∈ chunk ∧
    Event (cPublishBulk (bulkTemplate StatusMined blockHash h ts (List.map ts_TxID chunk) "")) None ∈ tr.

(** The row was mined in this block before, and the block was stamped. *)
Definition knownMined (tr : Trace) (prev : option TransactionStatus) : Prop :=
  (∃ row, Event (cGetBlockProcessingStatus blockHash) (Ok row) ∈ tr ∧ is_Some (bp_ProcessedAt row)) ∧
  ∃ p, prev = Some p ∧ ts_Status p = StatusMined ∧ ts_BlockHash p = blockHash.

(** The mine landed in full and was announced. *)
Definition minedInFull (tr : Trace) (h : Z) (txids : list string) : Prop :=
  txids = [] ∨
  ∃ prevs mined, Event (cSetMinedByTxIDs blockHash h txids) (prevs, mined, None) ∈ tr ∧
    (bc_publisher cfg = true -> ∀ prev m, (prev, m) ∈ zip prevs mined -> announced tr h m ∨ knownMined tr prev).

(** No STUMP is stored and none is expected. *)
Definition emptyBlock (tr : Trace) (h : Z) : Prop := h = 0%Z ∧ completeStumps tr [].

(** The stamp is off: it was cleared, or the row had none. *)
Definition leftUnstamped (tr : Trace) : Prop :=
  Event (cClearBlockProcessed blockHash) None ∈ tr ∨
  Event (cGetBlockProcessingStatus blockHash) (Err ErrNotFound) ∈ tr ∨
  ∃ row, Event (cGetBlockProcessingStatus blockHash) (Ok row) ∈ tr ∧ bp_ProcessedAt row = None.

(** The expected set was kept for the next delivery. *)
Definition expectedRetained (tr : Trace) : Prop :=
  ∃ expected, expectedSet tr expected ∧ Event (cAddBlockExpectedSubtrees blockHash expected) None ∈ tr.

(** What justifies each call. *)
Definition builderAllowed (tr : Trace) (c : call) : Prop :=
  match c with
  | cMarkBlockProcessed b h _ =>
      b = blockHash ∧ (denied tr h ∨ emptyBlock tr h ∨
        ∃ txids, provenLeaves tr h txids ∧ anchorOpen tr h ∧ minedInFull tr h txids)
  | cClearBlockExpectedSubtrees b => b = blockHash ∧ ∃ h t, Event (cMarkBlockProcessed b h t) None ∈ tr
  | cMarkBlocksOrphaned bs _ => bs = [blockHash] ∧ ∃ h, denied tr h
  | cDeleteStumpsByBlockHash b => b = blockHash ∧ ∃ h, denied tr h
  | cMarkBlockBUMPBuilt b h _ => b = blockHash ∧ ∃ compound txids, validated tr compound txids ∧ h = mp_BlockHeight compound
  | cInsertBUMP b h bytes =>
      b = blockHash ∧ (∃ compound txids, validated tr compound txids ∧ h = mp_BlockHeight compound ∧ bytes = Bytes compound) ∧
      ∃ t, Event (cMarkBlockBUMPBuilt b h t) None ∈ tr
  | cSetMinedByTxIDs b h txids => b = blockHash ∧ provenLeaves tr h txids ∧ anchorOpen tr h
  | cAddBlockExpectedSubtrees b expected => b = blockHash ∧ expectedSet tr expected
  | cClearBlockProcessed b =>
      b = blockHash ∧ ∃ row, Event (cGetBlockProcessingStatus b) (Ok row) ∈ tr ∧ is_Some (bp_ProcessedAt row)
  | _ => free c = true
  end.

(** What an outcome promises. *)
Definition stampOutcomes : list string :=
  ["short_circuited"; "no_stumps"; "finalized_complete_no_grace"; "grace_waited"; "rebuilt"; "skipped_inactive_chain"].

Definition stampAsked (tr : Trace) : Prop := ∃ h t a, Event (cMarkBlockProcessed blockHash h t) a ∈ tr.

Definition outcomeHolds (r : handled) (tr : Trace) : Prop :=
  match r with
  | (Some _, _) => noStamp tr
  | (None, outcome) =>
      (outcome ∈ stampOutcomes ∧ stampAsked tr) ∨
      (noStamp tr ∧
        (outcome = "store_failed" ∨ outcome = "no_subtrees" ∨
         (outcome = "deferred_incomplete" ∧ expectedRetained tr ∧ leftUnstamped tr)))
  end.

(** ** Evidence stays *)

Lemma expectedSet_mono tr tr' l : expectedSet tr l -> tr ⊆ tr' -> expectedSet tr' l.
Proof. intros (r & ? & ?) Hs. exists r. auto. Qed.
Lemma completeStumps_mono tr tr' l : completeStumps tr l -> tr ⊆ tr' -> completeStumps tr' l.
Proof. intros (? & x & ? & ?) Hs. split; [auto|]. exists x. split; [by eapply expectedSet_mono|done]. Qed.
Lemma rootAgrees_mono tr tr' root : rootAgrees tr root -> tr ⊆ tr' -> rootAgrees tr' root.
Proof. intros H Hs hash E. destruct (H hash E) as (r & ? & ?). exists r. auto. Qed.
Lemma dataFrom_mono tr tr' st d : dataFrom tr st d -> tr ⊆ tr' -> dataFrom tr' st d.
Proof.
  intros [?|(u & x & m & ? & ? & ? & ? & Hr)] Hs; [by left|right]. exists u, x, m.
  split_and!; auto. intros Hc. eapply rootAgrees_mono; eauto.
Qed.
Lemma readStored_mono tr tr' s : readStored tr s -> tr ⊆ tr' -> readStored tr' s.
Proof. intros (r & ? & ?) Hs. exists r. auto. Qed.
Lemma validated_mono tr tr' c t : validated tr c t -> tr ⊆ tr' -> validated tr' c t.
Proof.
  intros (st & hs & cb & root & ? & ? & ? & ? & s & ? & ?) Hs. exists st, hs, cb, root.
  split_and!; [by eapply completeStumps_mono|by eapply dataFrom_mono|done|done|].
  exists s. split; [by eapply readStored_mono|done].
Qed.
Lemma denied_mono tr tr' h : denied tr h -> tr ⊆ tr' -> denied tr' h.
Proof. intros (o & ? & ?) Hs. exists o. split; [by eapply headerAt_mono|done]. Qed.
Lemma anchorOpen_mono tr tr' h : anchorOpen tr h -> tr ⊆ tr' -> anchorOpen tr' h.
Proof.
  intros [?|[?|[?|[?|(r & ? & ?)]]]] Hs; [by left|right; by left|do 2 right; by left|do 3 right; by left|].
  do 4 right. exists r. auto.
Qed.
Lemma provenLeaves_mono tr tr' h l : provenLeaves tr h l -> tr ⊆ tr' -> provenLeaves tr' h l.
Proof.
  intros [?|(c & ? & ? & ?)] Hs; [left; by eapply readStored_mono|right]. exists c.
  split_and!; [by eapply validated_mono|done|auto].
Qed.
Lemma minedInFull_mono tr tr' h l : minedInFull tr h l -> tr ⊆ tr' -> minedInFull tr' h l.
Proof.
  intros [?|(prevs & mined & He & Ha)] Hs; [by left|right]. exists prevs, mined. split; [auto|].
  intros Hpub prev m Hz. destruct (Ha Hpub prev m Hz) as [(ts & ch & ? & ?)|((row & ? & ?) & ?)].
  - left. exists ts, ch. auto.
  - right. split; [exists row; auto|done].
Qed.
Lemma leftUnstamped_mono tr tr' : leftUnstamped tr -> tr ⊆ tr' -> leftUnstamped tr'.
Proof. intros [?|[?|(r & ? & ?)]] Hs; unfold leftUnstamped; eauto 10. Qed.

(** ** The parts of the handler *)

Let R : Trace -> event answer -> Prop := fun _ _ => True.
Let G := builderAllowed.

Lemma builder_free tr c : free c = true -> G tr c.
Proof. by destruct c. Qed.
Hint Resolve builder_free : core.

Lemma free_quiet {A} (p : Prog A) tr (Q : A -> Trace -> Prop) :
  harmless p -> (∀ a tr', quiet tr tr' -> Q a tr') -> wp G R p tr Q.
Proof.
  revert tr. induction p as [a|c k IH]; intros tr Hp HQ; [by apply HQ|].
  destruct Hp as [Hc Hk]. split; [by apply builder_free|]. intros x _. apply IH; [apply Hk|].
  intros a tr' Hs. apply HQ. etrans; [|done]. apply quiet_snoc. by destruct c.
Qed.

Lemma anchorDecision_wp h tr (Q : anchorVerdict -> Trace -> Prop) :
  (∀ tr', quiet tr tr' -> anchorOpen tr' h -> Q anchorAllow tr') ->
  (∀ tr', quiet tr tr' -> denied tr' h -> Q anchorDeny tr') ->
  wp G R (anchorDecision HashString cfg blockHash h) tr Q.
Proof.
  intros Ha Hd. unfold anchorDecision.
  destruct (bc_chainHeader cfg) eqn:E1; cbn [negb orb]; [|wp_go; apply Ha; [done|by left]].
  destruct (bc_AnchorGuardEnabled cfg) eqn:E2; cbn [negb]; [|wp_go; apply Ha; [done|right; by left]].
  destruct (Z.eqb_spec h 0) as [->|Hz]; cbn [orb]; [wp_go; apply Ha; [done|do 2 right; by left]|].
  destruct (Z.ltb_spec maxUint32 h); [wp_go; apply Ha; [done|do 3 right; by left]|].
  wp_go. wp_call r. assert (quiet tr (tr ++ [Event (cGetHeaderByHeight h) r])) by grow.
  assert ((∀ hd, r = Ok (Some hd) -> HashString (hdr_Hash hd) = blockHash) ->
          anchorOpen (tr ++ [Event (cGetHeaderByHeight h) r]) h) as Hopen.
  { intros Hr. do 4 right. exists r. split; [apply snoc_here|done]. }
  destruct r as [[hd|]|e]; [|wp_go; apply Ha; [done|by apply Hopen]..].
  destruct (String.eqb_spec (HashString (hdr_Hash hd)) blockHash) as [E|E]; wp_go.
  - apply Ha; [done|]. apply Hopen. by intros ? [= <-].
  - apply Hd; [done|]. exists (HashString (hdr_Hash hd)). split; [|done]. exists hd. split; [apply snoc_here|done].
Qed.

(** Asking for the stamp, with what justifies it. *)
Lemma markBlockProcessed_wp h tr (Q : unit -> Trace -> Prop) :
  (∀ tr', tr ⊆ tr' -> ∀ t, G tr' (cMarkBlockProcessed blockHash h t)) ->
  (∀ tr', tr ⊆ tr' -> stampAsked tr' -> Q tt tr') ->
  wp G R (markBlockProcessed blockHash h) tr Q.
Proof.
  intros HG HQ. unfold markBlockProcessed. wp_go. wp_call now. wp_go.
  wp_make err ltac:(apply HG, grows_snoc).
  set (tr2 := (tr ++ [_]) ++ [_]).
  assert (tr ⊆ tr2) as Hs by (etrans; apply grows_snoc).
  assert (Event (cMarkBlockProcessed blockHash h now) err ∈ tr2) as He by apply snoc_here. clearbody tr2.
  destruct err as [e|]; wp_go; [apply HQ; [done|by exists h, now, (Some e)]|].
  wp_make x ltac:(by split; [|exists h, now]). wp_go. apply HQ; [grow|].
  exists h, now, None. by apply grows_snoc.
Qed.

Lemma stampMined_wp h txids tr (Q : unit -> Trace -> Prop) :
  provenLeaves tr h txids -> anchorOpen tr h -> minedInFull tr h txids ->
  (∀ tr', tr ⊆ tr' -> stampAsked tr' -> Q tt tr') ->
  wp G R (markBlockProcessed blockHash h) tr Q.
Proof.
  intros Hp Ha Hm HQ. apply markBlockProcessed_wp; [|done]. intros tr' Hs t. split; [done|]. right; right.
  exists txids. split_and!; [by eapply provenLeaves_mono|by eapply anchorOpen_mono|by eapply minedInFull_mono].
Qed.

Lemma handleAnchorDenied_wp h tr (Q : unit -> Trace -> Prop) :
  denied tr h -> (∀ tr', tr ⊆ tr' -> stampAsked tr' -> Q tt tr') -> wp G R (handleAnchorDenied blockHash h) tr Q.
Proof.
  intros Hd HQ. unfold handleAnchorDenied. wp_go. apply markBlockProcessed_wp.
  { intros tr' Hs t. split; [done|]. left. by eapply denied_mono. }
  intros tr1 Hs1 (hh & t & a & He). wp_go. wp_call now. wp_go.
  wp_make x ltac:(split; [done|]; exists h; eapply denied_mono; [done|grow]). wp_go.
  wp_make y ltac:(split; [done|]; exists h; eapply denied_mono; [done|grow]). wp_go.
  apply HQ; [grow|]. exists hh, t, a. by do 3 apply grows_snoc.
Qed.

(** ** The mine *)

Lemma slicesOf_elem {A} n (l : list A) x : (0 < n)%nat -> x ∈ l -> ∃ ch, ch ∈ slicesOf n l ∧ x ∈ ch.
Proof.
  intros Hn Hx. rewrite <-(slicesOf_concat n l Hn) in Hx. apply list_elem_of_In, in_concat in Hx as (ch & ? & ?).
  exists ch. by rewrite !list_elem_of_In.
Qed.

Lemma publishMined_wp h chunks tr (Q : bool -> Trace -> Prop) :
  (∀ f tr', quiet tr tr' -> (f = false -> ∀ ch m, ch ∈ chunks -> m ∈ ch -> announced tr' h m) -> Q f tr') ->
  wp G R (publishMined blockHash h "" chunks) tr Q.
Proof.
  revert tr Q. induction chunks as [|ch rest IH]; intros tr Q HQ; cbn [publishMined].
  { wp_go. apply HQ; [done|]. intros _ ? ? Hc. by apply elem_of_nil in Hc. }
  wp_go. apply free_quiet.
  { unfold eventTime. destruct (head ch) as [m|]; [|done]. by destruct (ts_Timestamp m). }
  intros ts tr1 Hs1. wp_go. wp_call err. wp_go. apply IH. intros f tr2 Hs2 Hf. wp_go. apply HQ; [grow|].
  intros E ch' m Hc Hm. destruct err as [e|]; [done|]. simpl in E.
  apply elem_of_cons in Hc as [->|Hc]; [|by eapply Hf]. exists ts, ch. split; [done|].
  apply (quiet_grows _ _ Hs2), snoc_here.
Qed.

Lemma elem_of_changedOnly prevs mined prev m :
  (prev, m) ∈ zip prevs mined ->
  m ∈ changedOnly blockHash prevs mined ∨ ∃ p, prev = Some p ∧ ts_Status p = StatusMined ∧ ts_BlockHash p = blockHash.
Proof.
  intros Hz. unfold changedOnly. rewrite list_elem_of_In, in_map_iff.
  set (stale := match prev with Some p => String.eqb (ts_Status p) StatusMined && String.eqb (ts_BlockHash p) blockHash
                | None => false end).
  destruct stale eqn:E; unfold stale in E.
  - right. destruct prev as [p|]; [|done]. apply andb_true_iff in E as [E1 E2].
    exists p. split_and!; [done|by apply String.eqb_eq..].
  - left. exists (prev, m). split; [done|]. apply filter_In. split; [by apply list_elem_of_In|]. by rewrite E.
Qed.

Lemma elem_of_zip_snd {A B} (l : list A) (k : list B) x y : (x, y) ∈ zip l k -> y ∈ k.
Proof. intros H. by apply elem_of_zip_r in H. Qed.

(** [onlyChanged] is used only when the block was read as stamped. *)
Lemma markMinedAndPublish_wp h txids onlyChanged tr (Q : bool -> Trace -> Prop) :
  provenLeaves tr h txids -> anchorOpen tr h ->
  (onlyChanged = true -> ∃ row, Event (cGetBlockProcessingStatus blockHash) (Ok row) ∈ tr ∧ is_Some (bp_ProcessedAt row)) ->
  (∀ ok tr', quiet tr tr' -> (ok = true -> minedInFull tr' h txids) -> Q ok tr') ->
  wp G R (markMinedAndPublish cfg blockHash h txids onlyChanged) tr Q.
Proof.
  intros Hp Ha Hoc HQ. unfold markMinedAndPublish, setMinedAndPublish. wp_go.
  wp_make x ltac:(done). destruct x as [[prevs mined] err]. set (tr1 := tr ++ _).
  assert (Event (cSetMinedByTxIDs blockHash h txids) (prevs, mined, err) ∈ tr1) as He by apply snoc_here.
  assert (quiet tr tr1) as Hs1 by grow. clearbody tr1.
  destruct (failed err && _) eqn:Ef.
  { apply andb_true_iff in Ef as [Ef _]. wp_go. apply HQ; [done|]. by rewrite Ef. }
  cbv zeta. set (mined' := if onlyChanged then _ else _).
  assert (∀ tr2 f, quiet tr1 tr2 -> (bc_publisher cfg = true -> f = false -> ∀ m, m ∈ mined' -> announced tr2 h m) ->
          Q (negb (failed err) && negb f) tr2) as Hend.
  { intros tr2 f Hs2 Hann. apply HQ; [grow|]. intros E. apply andb_true_iff in E as [E1 E2%negb_true_iff].
    right. destruct err as [e|]; [done|]. exists prevs, mined. split; [by apply (quiet_grows _ _ Hs2)|].
    intros Hpub prev m Hz. specialize (Hann Hpub E2). unfold mined' in Hann. destruct onlyChanged.
    - destruct (elem_of_changedOnly _ _ _ _ Hz) as [?|?]; [left; by apply Hann|right]. split; [|done].
      destruct (Hoc eq_refl) as (row & ? & ?). exists row. split; [|done].
      apply (quiet_grows _ _ Hs2), (quiet_grows _ _ Hs1). done.
    - left. apply Hann. by eapply elem_of_zip_snd. }
  assert (length mined' = 0%nat -> ∀ m, m ∉ mined') as Hnil.
  { intros E%nil_length_inv m Hm. rewrite E in Hm. by apply elem_of_nil in Hm. }
  destruct (onlyChanged && _) eqn:E1.
  { apply andb_true_iff in E1 as [_ E1%Nat.eqb_eq]. wp_go. apply Hend; [done|]. intros _ _ m Hm. by destruct (Hnil E1 m). }
  destruct (_ || _) eqn:E2.
  { wp_go. apply Hend; [done|]. intros Hpub _ m Hm. rewrite Hpub, orb_false_r in E2. apply Nat.eqb_eq in E2.
    by destruct (Hnil E2 m). }
  wp_go. apply publishMined_wp. intros f tr2 Hs2 Hf. wp_go. apply Hend; [done|]. intros _ -> m Hm.
  destruct (slicesOf_elem maxTxIDsPerBulkEvent mined' m ltac:(unfold maxTxIDsPerBulkEvent; lia) Hm) as (ch & ? & ?).
  by eapply (Hf eq_refl).
Qed.

Lemma blockFinalized_wp tr (Q : bool -> Trace -> Prop) :
  (∀ f tr', quiet tr tr' ->
     (f = true -> ∃ row, Event (cGetBlockProcessingStatus blockHash) (Ok row) ∈ tr' ∧ is_Some (bp_ProcessedAt row)) ->
     Q f tr') -> wp G R (blockFinalized blockHash) tr Q.
Proof.
  intros HQ. unfold blockFinalized. wp_go. wp_call r. wp_go. apply HQ; [grow|]. destruct r as [row|]; [|done].
  destruct (bp_ProcessedAt row) eqn:E; [|done]. intros _. exists row. rewrite E. split; [apply snoc_here|done].
Qed.

(** ** Deferring *)

Lemma deferStampedBlock_wp tr (Q : option error -> Trace -> Prop) :
  (∀ err tr', quiet tr tr' -> (err = None -> leftUnstamped tr') -> Q err tr') ->
  wp G R (deferStampedBlock blockHash) tr Q.
Proof.
  intros HQ. unfold deferStampedBlock. wp_go. wp_call r. set (tr1 := tr ++ _).
  assert (quiet tr tr1) as Hs1 by grow.
  destruct r as [row|e].
  - destruct (bp_ProcessedAt row) as [t|] eqn:E.
    + wp_make err ltac:(split; [done|]; exists row; rewrite E; split; [apply snoc_here|done]).
      apply HQ; [grow|]. intros ->. left. apply snoc_here.
    + wp_go. apply HQ; [done|]. intros _. right; right. exists row. split; [apply snoc_here|done].
  - wp_go. apply HQ; [done|]. case_bool_decide as E; [|done]. intros _. right; left. rewrite <-E. apply snoc_here.
Qed.

Lemma deferIncompleteBlock_wp expected tr (Q : option error -> Trace -> Prop) :
  expectedSet tr expected ->
  (∀ err tr', quiet tr tr' -> (err = None -> expectedRetained tr' ∧ leftUnstamped tr') -> Q err tr') ->
  wp G R (deferIncompleteBlock blockHash expected) tr Q.
Proof.
  intros Hx HQ. unfold deferIncompleteBlock. wp_go. wp_make err ltac:(done). set (tr1 := tr ++ _).
  assert (quiet tr tr1) as Hs1 by grow. destruct err as [e|]; [wp_go; by apply HQ|].
  apply deferStampedBlock_wp. intros err tr2 Hs2 Hu. apply HQ; [grow|]. intros E. split; [|by apply Hu].
  exists expected. split; [eapply expectedSet_mono; [done|grow]|]. apply (quiet_grows _ _ Hs2), snoc_here.
Qed.

Definition withExpected (expected : list Z) : CallbackMessage :=
  mkCallbackMessage blockHash (cm_MerkleRoot callback) (cm_SubtreeCount callback) (cm_SubtreeHashes callback)
    (cm_CoinbaseBUMP callback) expected.

Lemma withExpected_self : withExpected (cm_ExpectedSubtreeIndices callback) = callback.
Proof. unfold withExpected. by destruct callback. Qed.

Lemma widenExpectedSubtrees_wp tr (Q : Res CallbackMessage -> Trace -> Prop) :
  (∀ e tr', quiet tr tr' -> Q (Err e) tr') ->
  (∀ expected tr', quiet tr tr' -> expectedSet tr' expected -> Q (Ok (withExpected expected)) tr') ->
  wp G R (widenExpectedSubtrees callback) tr Q.
Proof.
  intros He HQ. unfold widenExpectedSubtrees. wp_go. wp_call r. set (tr1 := tr ++ _).
  assert (quiet tr tr1) as Hs1 by grow. destruct r as [[|x l]|e].
  3: { wp_go. by apply He. }
  all: wp_go.
  - pose proof (HQ (cm_ExpectedSubtreeIndices callback) tr1) as HQ'. rewrite withExpected_self in HQ'.
    apply HQ'; [done|]. exists []. split; [apply snoc_here|]. set_solver.
  - apply HQ; [done|]. exists (x :: l). split; [apply snoc_here|]. intros i.
    rewrite (proj2 (sortCompact_spec _)). apply elem_of_app.
Qed.

(** ** Redelivery *)

Lemma loadStoredBUMP_wp tr (Q : Res (option (Z * list string)) -> Trace -> Prop) :
  (∀ e tr', quiet tr tr' -> Q (Err e) tr') ->
  (∀ stored tr', quiet tr tr' -> readStored tr' stored -> Q (Ok stored) tr') ->
  wp G R (loadStoredBUMP NewMerklePathFromBinary HashString blockHash) tr Q.
Proof.
  intros He HQ. unfold loadStoredBUMP. wp_go. wp_call r. set (tr1 := tr ++ _).
  assert (quiet tr tr1) as Hs1 by grow.
  assert ((∀ e, r = Err e -> e = ErrNotFound) -> readStored tr1 (storedIn r)) as Hread.
  { intros Hr. exists r. split_and!; [apply snoc_here|done|done]. }
  unfold storedIn in Hread. destruct r as [[h bytes]|e].
  - specialize (Hread ltac:(done)). destruct (length bytes =? 0)%nat; [wp_go; by apply HQ|].
    destruct (leavesOf bytes); wp_go; by apply HQ.
  - wp_go. case_bool_decide as E; [|by apply He]. apply HQ; [done|]. apply Hread. by intros ? [= <-].
Qed.

Lemma shortCircuit_wp h txids tr (Q : bool * option error -> Trace -> Prop) :
  readStored tr (Some (h, txids)) ->
  (∀ tr', tr ⊆ tr' -> stampAsked tr' -> Q (false, None) tr') ->
  (∀ err tr', quiet tr tr' -> (err = None -> leftUnstamped tr') -> Q (true, err) tr') ->
  wp G R (shortCircuit HashString cfg blockHash h txids) tr Q.
Proof.
  intros Hst Hok Hfail. unfold shortCircuit. wp_go. apply anchorDecision_wp; intros tr1 Hs1 Hd.
  2: { wp_go. apply handleAnchorDenied_wp; [done|]. intros. wp_go. apply Hok; [grow|done]. }
  wp_go. assert (provenLeaves tr1 h txids) as Hp by (left; eapply readStored_mono; [done|grow]).
  match goal with |- wp _ _ ?p _ ?Q0 => assert (∀ ok tr2, quiet tr1 tr2 -> (ok = true -> minedInFull tr2 h txids) -> Q0 ok tr2)
    as Hend end.
  { intros ok tr2 Hs2 Hm. destruct ok; wp_go.
    - apply stampMined_wp with txids; [eapply provenLeaves_mono; [done|grow]|eapply anchorOpen_mono; [done|grow]|auto|].
      intros. wp_go. apply Hok; [grow|done].
    - apply deferStampedBlock_wp. intros err tr3 Hs3 Hu. wp_go. apply Hfail; [grow|done]. }
  destruct (0 <? length txids)%nat eqn:El.
  - wp_go. apply blockFinalized_wp. intros f tr2 Hs2 Hf.
    apply markMinedAndPublish_wp; [eapply provenLeaves_mono; [done|grow]|eapply anchorOpen_mono; [done|grow]|done|].
    intros ok tr3 Hs3 Hm. apply Hend; [grow|done].
  - apply wp_ret, (Hend true); [done|]. intros _. left. apply Nat.ltb_ge in El. apply nil_length_inv. lia.
Qed.

Lemma handleRedelivery_wp expected tr (Q : Res (option (gset string) * string) -> Trace -> Prop) :
  (∀ e tr', quiet tr tr' -> Q (Err e) tr') ->
  (∀ stored sl tr', quiet tr tr' -> readStored tr' stored -> sl = (list_to_set ∘ snd) <$> stored -> Q (Ok (sl, "")) tr') ->
  (∀ tr', tr ⊆ tr' -> stampAsked tr' -> Q (Ok (None, "short_circuited")) tr') ->
  (∀ tr', quiet tr tr' -> leftUnstamped tr' -> Q (Ok (None, buildOutcomeStoreFailed)) tr') ->
  wp G R (handleRedelivery NewMerklePathFromBinary HashString cfg (withExpected expected)) tr Q.
Proof.
  intros He Hgo Hdone Hfail. unfold handleRedelivery. cbv zeta. cbn [cm_BlockHash withExpected cm_ExpectedSubtreeIndices].
  wp_go. apply loadStoredBUMP_wp; [intros; wp_go; by apply He|]. intros stored tr1 Hs1 Hst.
  destruct stored as [[h leaves]|]; [|wp_go; by eapply Hgo]. wp_go. wp_call r. set (tr2 := tr1 ++ _).
  assert (quiet tr1 tr2) as Hs2 by grow. destruct r as [stumps|e]; [|wp_go; apply He; grow].
  destruct (leavesBeyondStoredBUMP _ _ _ _) as [newLeaves|e]; [|wp_go; apply He; grow].
  assert (readStored tr2 (Some (h, leaves))) as Hst2 by (eapply readStored_mono; [done|grow]).
  cbv zeta. destruct (_ && _).
  - wp_go. apply shortCircuit_wp; [done|intros; wp_go; apply Hdone; [grow|done]|].
    intros err tr3 Hs3 Hu. destruct err as [e|]; wp_go; [apply He; grow|apply Hfail; [grow|by apply Hu]].
  - wp_go. eapply Hgo; [grow|done|done].
Qed.

(** ** The STUMP set *)

Lemma missing_complete expected stumps :
  missingStumpIndices expected stumps = [] -> ∀ i, i ∈ expected -> ∃ s, s ∈ stumps ∧ stump_SubtreeIndex s = i.
Proof.
  unfold missingStumpIndices. intros E i Hi.
  destruct (existsb (fun s => stump_SubtreeIndex s =? i)%Z stumps) eqn:Ex.
  - apply existsb_exists in Ex as (s & Hs & Es%Z.eqb_eq). exists s. by rewrite list_elem_of_In.
  - exfalso. apply list_elem_of_In in Hi.
    assert (In i (List.filter (fun idx => negb (existsb (fun s => stump_SubtreeIndex s =? idx)%Z stumps)) expected)) as Hin.
    { apply filter_In. by rewrite Ex. }
    by rewrite E in Hin.
Qed.

Definition buildDispositions : list string := ["finalized_complete_no_grace"; "grace_waited"].

(** How a resolved STUMP set ends the message or starts a build. *)
Definition resolved (r : resolution) (tr tr' : Trace) : Prop :=
  match r with
  | Build stumps disposition => quiet tr tr' ∧ completeStumps tr' stumps ∧ disposition ∈ buildDispositions
  | Done disposition =>
      tr ⊆ tr' ∧ ((disposition = "no_stumps" ∧ stampAsked tr') ∨
                  (disposition = "deferred_incomplete" ∧ quiet tr tr' ∧ expectedRetained tr' ∧ leftUnstamped tr'))
  | Failed _ _ => quiet tr tr'
  end.

Lemma finalizeEmptyBlock_wp tr (Q : unit -> Trace -> Prop) :
  completeStumps tr [] -> (∀ tr', tr ⊆ tr' -> stampAsked tr' -> Q tt tr') -> wp G R (finalizeEmptyBlock blockHash) tr Q.
Proof.
  intros He HQ. apply markBlockProcessed_wp; [|done]. intros tr' Hs t. split; [done|]. right; left.
  split; [done|]. by eapply completeStumps_mono.
Qed.

Lemma resolveAfterGrace_wp expected stumps tr (Q : resolution -> Trace -> Prop) :
  expectedSet tr expected -> Event (cGetStumpsByBlockHash blockHash) (Ok stumps) ∈ tr ->
  (∀ r tr', resolved r tr tr' -> Q r tr') -> wp G R (resolveAfterGrace blockHash expected stumps) tr Q.
Proof.
  intros Hx Hr HQ. unfold resolveAfterGrace. destruct (0 <? _)%nat eqn:Em.
  - wp_go. apply deferIncompleteBlock_wp; [done|]. intros err tr1 Hs1 Hd. destruct err as [e|]; wp_go; apply HQ; [done|].
    split; [grow|]. right. destruct (Hd eq_refl). done.
  - assert (completeStumps tr stumps) as Hc.
    { split; [done|]. exists expected. split; [done|]. apply missing_complete, nil_length_inv. apply Nat.ltb_ge in Em. lia. }
    destruct (length stumps =? 0)%nat eqn:El.
    + apply Nat.eqb_eq, nil_length_inv in El as ->. wp_go. apply finalizeEmptyBlock_wp; [done|].
      intros tr' Hs Ha. wp_go. apply HQ. split; [done|]. by left.
    + wp_go. apply HQ. split_and!; [done..|]. by apply list_elem_of_further, list_elem_of_here.
Qed.

Lemma resolved_later r tr tr1 tr2 : quiet tr tr1 -> resolved r tr1 tr2 -> resolved r tr tr2.
Proof.
  intros Hs. destruct r as [st d|d|d e]; cbn [resolved]; [intros (? & ? & ?)|intros (? & [?|(? & ? & ? & ?)])|intros ?].
  - split_and!; [by etrans|done..].
  - split; [grow|by left].
  - split; [grow|right]. split_and!; [done|by etrans|done..].
  - by etrans.
Qed.

Lemma resolveStumps_wp expected rebuild tr (Q : resolution -> Trace -> Prop) :
  expectedSet tr expected -> (∀ r tr', resolved r tr tr' -> Q r tr') ->
  wp G R (resolveStumps cfg (withExpected expected) rebuild) tr Q.
Proof.
  intros Hx HQ. unfold resolveStumps. cbv zeta. cbn [cm_BlockHash withExpected cm_ExpectedSubtreeIndices].
  wp_go. wp_call r. set (tr1 := tr ++ _). assert (quiet tr tr1) as Hs1 by grow.
  assert (expectedSet tr1 expected) as Hx1 by (eapply expectedSet_mono; [done|grow]).
  destruct r as [stumps|e]; [|wp_go; by apply HQ].
  assert (Event (cGetStumpsByBlockHash blockHash) (Ok stumps) ∈ tr1) as Hr by apply snoc_here. clearbody tr1.
  assert (∀ st tr2, quiet tr1 tr2 -> Event (cGetStumpsByBlockHash blockHash) (Ok st) ∈ tr2 ->
          wp G R (resolveAfterGrace blockHash expected st) tr2 Q) as Hgrace.
  { intros st tr2 Hs2 Hst. apply resolveAfterGrace_wp; [eapply expectedSet_mono; [done|grow]|done|].
    intros r tr3 Hr3. apply HQ. eapply resolved_later; [|done]. grow. }
  destruct (negb rebuild && (0 <? length expected)%nat && _) eqn:E1.
  { apply andb_true_iff in E1 as [_ E1%Nat.eqb_eq%nil_length_inv]. wp_go. apply HQ. split_and!; [done| |apply list_elem_of_here].
    split; [done|]. exists expected. split; [done|]. by apply missing_complete. }
  clear E1. destruct (negb rebuild && (length expected =? 0)%nat && (length stumps =? 0)%nat) eqn:E2.
  { apply andb_true_iff in E2 as [E2 E3%Nat.eqb_eq%nil_length_inv].
    apply andb_true_iff in E2 as [_ E2%Nat.eqb_eq%nil_length_inv]. subst stumps expected.
    wp_go. apply finalizeEmptyBlock_wp.
    { split; [done|]. exists []. split; [done|]. intros i Hi. by apply elem_of_nil in Hi. }
    intros tr2 Hs2 Ha. wp_go. apply HQ. split; [grow|]. by left. }
  destruct (0 <? _)%Z; [|by apply Hgrace].
  wp_go. wp_call stop. set (tr2 := tr1 ++ _). assert (quiet tr1 tr2) as Hs2 by grow.
  destruct stop; [wp_go; apply HQ; unfold resolved; grow|]. wp_go. wp_call r. set (tr3 := tr2 ++ _).
  assert (quiet tr2 tr3) as Hs3 by grow. destruct r as [st|e]; [|wp_go; apply HQ; unfold resolved; grow].
  apply Hgrace; [grow|apply snoc_here].
Qed.

(** ** Block data *)

(** The header source was asked for [hash]; its answer is [r], or no header. *)
Definition lookedUp (hash : Hash) (r : Res (option BlockHeader)) (tr : Trace) : Prop :=
  ∃ r', Event (cGetHeaderByHash hash) r' ∈ tr ∧
    match r with Ok (Some _) => r' = r | _ => ∀ hd, r' ≠ Ok (Some hd) end.

Lemma lookedUp_mono hash r tr tr' : lookedUp hash r tr -> tr ⊆ tr' -> lookedUp hash r tr'.
Proof. intros (r' & ? & ?) Hs. exists r'. auto. Qed.

Lemma headerPollLoop_wp fuel hash deadline last tr (Q : Res (option BlockHeader) -> Trace -> Prop) :
  lookedUp hash (Ok None) tr -> lookedUp hash last tr ->
  (∀ r tr', quiet tr tr' -> lookedUp hash r tr' -> Q r tr') ->
  wp G R (headerPollLoop fuel hash deadline last) tr Q.
Proof.
  revert last tr Q. induction fuel as [|fuel IH]; intros last tr Q Hn Hl HQ; cbn [headerPollLoop]; [wp_go; by apply HQ|].
  wp_go. wp_call now. set (tr1 := tr ++ _). assert (quiet tr tr1) as Hs1 by grow.
  destruct (negb _); [wp_go; apply HQ; [done|eapply lookedUp_mono; [done|grow]]|].
  wp_go. wp_call stop. set (tr2 := tr1 ++ _). assert (quiet tr1 tr2) as Hs2 by grow.
  destruct stop; [wp_go; apply HQ; [grow|]; eapply (lookedUp_mono hash (Ok None)); [done|grow]|].
  wp_go. wp_call r. set (tr3 := tr2 ++ _). assert (quiet tr2 tr3) as Hs3 by grow.
  assert (lookedUp hash r tr3) as Hr.
  { exists r. split; [apply snoc_here|]. by destruct r as [[hd|]|e]. }
  assert (wp G R (headerPollLoop fuel hash deadline r) tr3 Q) as Hloop.
  { apply IH; [eapply (lookedUp_mono hash (Ok None)); [done|grow]|done|]. intros. apply HQ; [grow|done]. }
  destruct r as [[hd|]|[]]; first [done|wp_go; apply HQ; [grow|done]].
Qed.

Lemma lookupHeaderWithWait_wp hash deadline tr (Q : Res (option BlockHeader) -> Trace -> Prop) :
  (∀ r tr', quiet tr tr' -> lookedUp hash r tr' -> Q r tr') ->
  wp G R (lookupHeaderWithWait cfg hash deadline) tr Q.
Proof.
  intros HQ. unfold lookupHeaderWithWait. wp_go. wp_call r. set (tr1 := tr ++ _). assert (quiet tr tr1) as Hs1 by grow.
  assert (lookedUp hash r tr1) as Hr. { exists r. split; [apply snoc_here|]. by destruct r as [[hd|]|e]. }
  assert ((∀ hd, r ≠ Ok (Some hd)) -> wp G R (now ← perform cNow;
      if negb (timeBefore now deadline) then mret r
      else headerPollLoop (2 + Z.to_nat (bc_HeaderWaitMs cfg / 1000)) hash deadline r) tr1 Q) as Hwait.
  { intros Hne. wp_go. wp_call now. set (tr2 := tr1 ++ _). assert (quiet tr1 tr2) as Hs2 by grow.
    assert (lookedUp hash r tr2) as Hr2 by (eapply lookedUp_mono; [done|grow]).
    destruct (negb _); [wp_go; apply HQ; [grow|done]|]. apply headerPollLoop_wp; [|done|intros; apply HQ; [grow|done]].
    exists r. split; [apply grows_snoc, snoc_here|done]. }
  destruct r as [[hd|]|[]]; first [by apply Hwait|wp_go; by apply HQ].
Qed.

(** What an accepting validator has shown. *)
Definition validates (P : list Hash -> Hash -> Trace -> Prop) (v : option Validator) : Prop :=
  ∀ hashes root tr (Q : Res unit -> Trace -> Prop),
    (∀ res tr', quiet tr tr' -> (is_ok res = true -> P hashes root tr') -> Q res tr') ->
    wp G R (match v with None => mret (Ok tt) | Some v => v hashes root end) tr Q.

Lemma combineValidators_spec (P P' : list Hash -> Hash -> Trace -> Prop) v v' :
  (∀ hs root tr tr', P hs root tr -> tr ⊆ tr' -> P hs root tr') ->
  validates P v -> validates P' v' ->
  validates (fun hs root tr => P hs root tr ∧ P' hs root tr) (combineValidators v v').
Proof.
  intros Hmono Hv Hv' hs root tr Q HQ. destruct v as [v|]; [destruct v' as [v'|]|]; cbn [combineValidators].
  - wp_go. apply (Hv hs root). intros res tr1 Hs1 H1. destruct res as [[]|e]; [|wp_go; by apply HQ].
    apply (Hv' hs root). intros res tr2 Hs2 H2. apply HQ; [grow|]. intros Eok. split; [|auto].
    eapply Hmono; [by apply H1|grow].
  - assert (∀ tr, P' hs root tr) as H2.
    { intros tr'. refine (Hv' hs root tr' (fun res t => is_ok res = true -> P' hs root t) _ eq_refl). auto. }
    apply (Hv hs root). intros res tr1 Hs1 H1. apply HQ; auto.
  - assert (∀ tr, P hs root tr) as H1.
    { intros tr'. refine (Hv hs root tr' (fun res t => is_ok res = true -> P hs root t) _ eq_refl). auto. }
    apply (Hv' hs root). intros res tr1 Hs1 H2. apply HQ; auto.
Qed.

Lemma SubtreeCountValidator_spec m :
  validates (fun hs _ _ => (m <= Z.of_nat (length hs))%Z)
    (match SubtreeCountValidator m with None => None | Some v => Some (fun hashes root => mret (v hashes root)) end).
Proof.
  intros hs root tr Q HQ. unfold SubtreeCountValidator. destruct (Z.leb_spec m 0).
  - wp_go. apply HQ; [done|]. lia.
  - wp_go. apply HQ; [done|]. destruct (Z.ltb_spec (Z.of_nat (length hs)) m); done.
Qed.

Lemma chainHeaderRootValidator_wp tr (Q : option Validator -> Trace -> Prop) :
  (∀ v tr', quiet tr tr' -> validates (fun _ root tr => bc_chainHeader cfg = true -> rootAgrees tr root) v -> Q v tr') ->
  wp G R (chainHeaderRootValidator NewHashFromHex cfg blockHash) tr Q.
Proof.
  intros HQ. unfold chainHeaderRootValidator.
  destruct (bc_chainHeader cfg) eqn:Ec; cbn [negb].
  2: { wp_go. apply HQ; [done|]. intros hs root tr' Q' HQ'. wp_go. by apply HQ'. }
  destruct (NewHashFromHex blockHash) as [hash|e] eqn:Eh.
  2: { wp_go. apply HQ; [done|]. intros hs root tr' Q' HQ'. wp_go. apply HQ'; [done|]. intros _ _ h'. by rewrite Eh. }
  wp_go. apply free_quiet; [by destruct (0 <? _)%Z|]. intros deadline tr1 Hs1. wp_go. apply HQ; [done|].
  intros hs root tr2 Q' HQ'. wp_go. apply lookupHeaderWithWait_wp. intros r tr3 Hs3 (r' & Hr' & Em).
  assert (match r' with Ok (Some hd) => hdr_MerkleRoot hd = root | _ => True end -> rootAgrees tr3 root) as Hagree.
  { intros Hm hash' E. rewrite Eh in E. injection E as <-. by exists r'. }
  destruct r as [[hd|]|e].
  - subst r'. destruct (String.eqb_spec (hdr_MerkleRoot hd) root); wp_go; apply HQ'; auto. done.
  - wp_go. apply HQ'; [done|]. intros _ _. apply Hagree. destruct r' as [[hd|]|]; [by destruct (Em hd)|done..].
  - wp_go. apply HQ'; [done|]. intros _ _. apply Hagree. destruct r' as [[hd|]|]; [by destruct (Em hd)|done..].
Qed.

Lemma fetchBlockLoop_wp P v urls maxBytes tr (Q : Res blockData -> Trace -> Prop) :
  validates P v ->
  (∀ e tr', quiet tr tr' -> Q (Err e) tr') ->
  (∀ hashes coinbase root tr', quiet tr tr' -> P hashes root tr' ->
     (∃ url exchange, Event (cGetBlock url blockHash) exchange ∈ tr' ∧
        fetchBlockBinary readVarInt NewTransactionFromStream exchange maxBytes = Ok (hashes, coinbase, root)) ->
     is_ok (coinbaseBUMPReconciles NewMerklePathFromBinary ComputeRoot coinbase root) = true ->
     Q (Ok (hashes, coinbase, root)) tr') ->
  wp G R (fetchBlockLoop NewMerklePathFromBinary ComputeRoot readVarInt NewTransactionFromStream urls blockHash maxBytes v) tr Q.
Proof.
  intros Hv He. revert tr He. induction urls as [|url rest IH]; intros tr He Hok; cbn [fetchBlockLoop]; [wp_go; by apply He|].
  assert (∀ tr', quiet tr tr' -> wp G R (fetchBlockLoop NewMerklePathFromBinary ComputeRoot readVarInt
            NewTransactionFromStream rest blockHash maxBytes v) tr' Q) as Hnext.
  { intros tr' Hs. apply IH; intros; [apply He; grow|apply Hok; [grow|done..]]. }
  wp_go. wp_call x. set (tr1 := tr ++ _). assert (quiet tr tr1) as Hs1 by grow.
  destruct (fetchBlockBinary _ _ _ _) as [[[hashes coinbase] root]|e] eqn:Ef; [|by apply Hnext].
  wp_go. apply (Hv hashes root). intros res tr2 Hs2 HP.
  destruct (is_ok res && _) eqn:Eok; [|apply Hnext; grow]. apply andb_true_iff in Eok as [E1 E2].
  wp_go. apply Hok; [grow|auto| |done]. exists url, x. split; [|done]. apply (quiet_grows _ _ Hs2), snoc_here.
Qed.

Lemma fetchBlockDataFromDatahub_wp stumps tr (Q : Res blockData -> Trace -> Prop) :
  (∀ e tr', quiet tr tr' -> Q (Err e) tr') ->
  (∀ data tr', quiet tr tr' -> dataFrom tr' stumps data -> Q (Ok data) tr') ->
  wp G R (fetchBlockDataFromDatahub NewMerklePathFromBinary ComputeRoot NewHashFromHex readVarInt NewTransactionFromStream
            cfg blockHash (minSubtreesOf stumps)) tr Q.
Proof.
  intros He Hok. unfold fetchBlockDataFromDatahub. wp_go. wp_call healthy. set (tr1 := tr ++ _).
  assert (quiet tr tr1) as Hs1 by grow. wp_go. apply free_quiet; [by destruct (_ =? _)%nat|]. intros endpoints tr2 Hs2.
  cbv zeta. wp_go.
  set (P := fun (hs : list Hash) (root : Hash) (tr : Trace) =>
    (minSubtreesOf stumps <= Z.of_nat (length hs))%Z ∧ (bc_chainHeader cfg = true -> rootAgrees tr root)).
  match goal with |- wp _ _ ?p _ ?Q0 => assert (∀ v tr3, quiet tr2 tr3 -> validates P v -> Q0 v tr3) as Hend end.
  { intros v tr3 Hs3 Hv. destruct endpoints as [|u us]; [wp_go; apply He; grow|].
    eapply fetchBlockLoop_wp; [done|intros; apply He; grow|].
    intros hashes coinbase root tr4 Hs4 [Hn Hr] (url & x & Hx & Ef) Hc. apply Hok; [grow|]. right.
    eexists url, x, _. split_and!; [done|exact Ef|done..]. }
  destruct (bc_chainHeader cfg) eqn:Ec.
  - wp_go. apply chainHeaderRootValidator_wp. intros v tr3 Hs3 Hv. wp_go. apply Hend; [done|].
    rewrite Ec in Hv. apply combineValidators_spec; [done|apply SubtreeCountValidator_spec|done].
  - wp_go. apply Hend; [done|]. intros hs root tr' Q' HQ'. eapply (SubtreeCountValidator_spec _ hs root).
    intros res tr4 Hs4 Hm. apply HQ'; [done|]. intros E. split; [auto|done].
Qed.

(** ** The build *)

Lemma leavesNotIn_zero (stored : gset string) txids :
  leavesNotIn stored txids = 0%nat -> ∀ t, t ∈ stored -> t ∈ txids.
Proof.
  unfold leavesNotIn. intros E%size_empty_inv t Ht. specialize (E t). rewrite elem_of_difference, elem_of_list_to_set in E.
  destruct (decide (t ∈ txids)); [done|]. exfalso. apply (not_elem_of_empty (C := gset string) t), E. done.
Qed.

(** What a successful build leads to. *)
Lemma persistAndMine_wp expected sl finalized disposition compound txids tr :
  validated tr compound txids -> noStamp tr -> disposition ∈ buildDispositions ->
  (finalized = true -> ∃ row, Event (cGetBlockProcessingStatus blockHash) (Ok row) ∈ tr ∧ is_Some (bp_ProcessedAt row)) ->
  wp G R (persistAndMine Bytes HashString cfg (withExpected expected) sl finalized disposition compound txids) tr outcomeHolds.
Proof.
  intros Hv Hns Hdisp Hf. unfold persistAndMine. cbv zeta. cbn [cm_BlockHash withExpected]. wp_go.
  match goal with |- wp _ _ ?p _ ?Q0 => assert (∀ err tr1, quiet tr tr1 -> Q0 err tr1) as Hend end.
  2: { destruct (bool_decide _ && finalized) eqn:E; [|wp_go; by apply (Hend None)].
       apply andb_true_iff in E as [_ E]. wp_make err ltac:(by split; [|apply Hf]). apply Hend. grow. }
  intros err tr1 Hs1. destruct err as [e|]; [wp_go; by apply Hs1|]. wp_go. wp_call now. set (tr2 := tr1 ++ _).
  assert (quiet tr1 tr2) as Hs2 by grow. wp_go.
  wp_make err ltac:(split; [done|]; exists compound, txids; split; [eapply validated_mono; [done|grow]|done]).
  set (tr3 := tr2 ++ _). assert (quiet tr tr3) as Hs3 by grow. destruct err as [e|]; [wp_go; by apply Hs3|]. wp_go.
  wp_make err ltac:(split; [done|]; split; [exists compound, txids; split; [eapply validated_mono; [done|grow]|done]|
                    exists now; apply snoc_here]).
  set (tr4 := tr3 ++ _). assert (quiet tr tr4) as Hs4 by grow. destruct err as [e|]; [wp_go; by apply Hs4|].
  assert (provenLeaves tr4 (mp_BlockHeight compound) txids) as Hp.
  { right. exists compound. split_and!; [eapply validated_mono; [done|grow]|done|apply snoc_here]. }
  clearbody tr4. clear Hs3 tr3 Hs2 tr2 Hs1 tr1. wp_go. apply anchorDecision_wp; intros tr5 Hs5 Hd.
  2: { wp_go. apply handleAnchorDenied_wp; [done|]. intros tr6 Hs6 Ha. wp_go. left. split; [|done].
       by apply list_elem_of_In; do 5 right; left. }
  wp_go. match goal with |- wp _ _ ?p _ ?Q0 => assert (∀ ok tr6, quiet tr5 tr6 ->
    (ok = true -> minedInFull tr6 (mp_BlockHeight compound) txids) -> Q0 ok tr6) as Hend end.
  { intros ok tr6 Hs6 Hm. destruct ok; wp_go.
    - apply stampMined_wp with txids; [eapply provenLeaves_mono; [done|grow]|eapply anchorOpen_mono; [done|grow]|auto|].
      intros tr7 Hs7 Ha. wp_go. left. split; [|done]. case_bool_decide; [by apply list_elem_of_In; do 4 right; left|].
      apply list_elem_of_In in Hdisp. apply list_elem_of_In. simpl in *. tauto.
    - right. split; [|by left]. apply Hs6, Hs5, Hs4, Hns. }
  destruct (0 <? length txids)%nat eqn:El.
  - apply markMinedAndPublish_wp; [eapply provenLeaves_mono; [done|grow]|done| |].
    + intros E. destruct (Hf E) as (row & ? & ?). exists row. split; [|done].
      assert (tr ⊆ tr5) as Hg by grow. by apply Hg.
    + intros ok tr6 Hs6 Hm. by apply Hend.
  - apply wp_ret, (Hend true); [done|]. intros _. left. apply Nat.ltb_ge in El. apply nil_length_inv. lia.
Qed.

Lemma buildBlock_wp expected stored finalized disposition stumps data tr :
  expectedSet tr expected -> completeStumps tr stumps -> dataFrom tr stumps data -> readStored tr stored ->
  noStamp tr -> disposition ∈ buildDispositions ->
  (finalized = true -> ∃ row, Event (cGetBlockProcessingStatus blockHash) (Ok row) ∈ tr ∧ is_Some (bp_ProcessedAt row)) ->
  wp G R (buildBlock NewMerklePathFromBinary Bytes merkleTreeParent ComputeRoot HashString cfg (withExpected expected)
            ((list_to_set ∘ snd) <$> stored) finalized disposition stumps data) tr outcomeHolds.
Proof.
  intros Hx Hc Hd Hst Hns Hdisp Hf. destruct data as [[hashes coinbase] root]. unfold buildBlock.
  destruct (_ =? _)%nat; [wp_go; right; split; [done|]; by right; left|].
  destruct (BuildCompoundBUMP _ _ _ _ _ _ _ _ _).1 as [[compound txids]|e] eqn:Eb; [|wp_go; done].
  destruct (ValidateCompoundRoot _ _ _) as [[]|e] eqn:Ev; [|wp_go; done]. cbv zeta.
  destruct (0 <? _)%nat eqn:Edrop.
  - wp_go. apply deferIncompleteBlock_wp; [done|]. intros err tr1 Hs1 Hr. destruct err as [e|]; wp_go; [by apply Hs1|].
    right. split; [by apply Hs1|]. right; right. destruct (Hr eq_refl). done.
  - apply persistAndMine_wp; [|done..]. exists stumps, hashes, coinbase, root. split_and!; [done..|].
    exists stored. split; [done|]. intros h leaves t -> Ht. apply Nat.ltb_ge in Edrop. simpl in Edrop.
    eapply leavesNotIn_zero; [by apply Nat.le_0_r, Edrop|]. by apply elem_of_list_to_set.
Qed.

Lemma callbackBlockData_widened expected m :
  callbackBlockData NewHashFromHex (withExpected expected) m = callbackBlockData NewHashFromHex callback m.
Proof. done. Qed.

Lemma processBlock_wp expected stored tr :
  expectedSet tr expected -> readStored tr stored -> noStamp tr ->
  wp G R (processBlock NewMerklePathFromBinary Bytes merkleTreeParent ComputeRoot NewHashFromHex HashString
            readVarInt NewTransactionFromStream cfg (withExpected expected) ((list_to_set ∘ snd) <$> stored)) tr outcomeHolds.
Proof.
  intros Hx Hst Hns. unfold processBlock. cbn [cm_BlockHash withExpected]. wp_go. apply blockFinalized_wp.
  intros finalized tr1 Hs1 Hf. wp_go. assert (expectedSet tr1 expected) as Hx1 by (eapply expectedSet_mono; [done|grow]).
  apply resolveStumps_wp; [done|]. intros r tr2 Hr. destruct r as [stumps disposition|disposition|disposition e]; cbn [resolved] in Hr.
  - destruct Hr as (Hs2 & Hc & Hdisp). cbv zeta. rewrite callbackBlockData_widened.
    assert (∀ tr3 data, quiet tr2 tr3 -> dataFrom tr3 stumps data ->
      wp G R (buildBlock NewMerklePathFromBinary Bytes merkleTreeParent ComputeRoot HashString cfg (withExpected expected)
            ((list_to_set ∘ snd) <$> stored) finalized disposition stumps data) tr3 outcomeHolds) as Hbuild.
    { intros tr3 data Hs3 Hd. apply buildBlock_wp; [eapply expectedSet_mono; [done|grow]|eapply completeStumps_mono; [done|grow]|
        done|eapply readStored_mono; [done|grow]|by apply Hs3, Hs2, Hs1|done|].
      intros E. destruct (Hf E) as (row & ? & ?). exists row. split; [|done]. assert (tr1 ⊆ tr3) as Hg by grow. by apply Hg. }
    destruct (callbackBlockData _ _ _) as [data|] eqn:Ed; [apply Hbuild; [done|by left]|].
    wp_go. apply fetchBlockDataFromDatahub_wp.
    + intros e tr3 Hs3. wp_go. by apply Hs3, Hs2, Hs1.
    + intros data tr3 Hs3 Hd. by apply Hbuild.
  - wp_go. destruct Hr as (Hg & [[-> Ha]|(-> & Hs2 & ? & ?)]).
    + left. split; [|done]. by apply list_elem_of_In; right; left.
    + right. split; [by apply Hs2, Hs1|]. by right; right.
  - wp_go. by apply Hr, Hs1.
Qed.

Lemma handleMessage_wp decode value :
  decode value = Ok callback ->
  wp G R (handleMessage NewMerklePathFromBinary Bytes merkleTreeParent ComputeRoot NewHashFromHex HashString
            readVarInt NewTransactionFromStream cfg decode value) [] outcomeHolds.
Proof.
  intros Ed. unfold handleMessage. rewrite Ed. assert (noStamp []) as Hns by constructor.
  destruct (String.eqb _ _); [done|]. wp_go. apply widenExpectedSubtrees_wp; [intros; wp_go; by apply H|].
  intros expected tr1 Hs1 Hx. wp_go. apply handleRedelivery_wp.
  - intros e tr2 Hs2. wp_go. by apply Hs2, Hs1.
  - intros stored sl tr2 Hs2 Hst ->. apply processBlock_wp; [eapply expectedSet_mono; [done|grow]|done|by apply Hs2, Hs1].
  - intros tr2 Hs2 Ha. wp_go. left. split; [|done]. by apply list_elem_of_here.
  - intros tr2 Hs2 Hu. wp_go. right. split; [by apply Hs2, Hs1|by left].
Qed.
End BuilderProps.

(** ** The STUMP janitor *)

Section Janitor.
Context (cfg : BuilderConfig).

(** STUMPs go only for a listed row that is stamped and was built long ago. *)
Definition janitorAllowed (tr : Trace) (c : call) : Prop :=
  match c with
  | cDeleteStumpsByBlockHash b =>
      ∃ before limit rows row, Event (cListBlockProcessingStatus before limit) (Ok rows) ∈ tr ∧ row ∈ rows ∧
        bp_BlockHash row = b ∧ is_Some (bp_ProcessedAt row) ∧
        ∃ built now, bp_BUMPBuiltAt row = Some built ∧ Event cNow now ∈ tr ∧ (stumpRetention cfg <= UnixNano now - built)%Z
  | _ => free c = true
  end.

(** A page lies strictly below its cursor. *)
Definition pageBelow (e : event answer) : Prop :=
  ∀ before limit rows row, e = Event (cListBlockProcessingStatus before limit) (Ok rows) -> row ∈ rows ->
    (0 <= bp_BlockHeight row < before)%Z.

Context (Rely : event answer -> Prop).
Let R : Trace -> event answer -> Prop := fun _ e => Rely e.

Lemma pruneRows_wp now before limit rows todo mayHold tr (Q : bool -> Trace -> Prop) :
  Event (cListBlockProcessingStatus before limit) (Ok rows) ∈ tr -> todo ⊆ rows ->
  (∃ t, Event cNow t ∈ tr ∧ UnixNano t = now) ->
  (∀ b tr', tr ⊆ tr' -> Q b tr') -> wp janitorAllowed R (pruneRows cfg now mayHold todo) tr Q.
Proof.
  intros Hl. revert mayHold tr Hl. induction todo as [|r rest IH]; intros mayHold tr Hl Hsub Hnow HQ; cbn [pruneRows].
  { wp_go. by apply HQ. }
  assert (∀ mh tr', tr ⊆ tr' -> wp janitorAllowed R (pruneRows cfg now mh rest) tr' Q) as Hnext.
  { intros mh tr' Hs. apply IH; [auto|set_solver| |intros; apply HQ; by etrans].
    destruct Hnow as (t & ? & ?). exists t. auto. }
  unfold pruneRow. cbv zeta. wp_go. destruct (bp_BUMPBuiltAt r) as [built|] eqn:Eb; [|wp_go; by apply Hnext].
  destruct (bp_ProcessedAt r) as [p|] eqn:Ep; [|wp_go; by apply Hnext].
  destruct (Z.ltb_spec (now - built) (stumpRetention cfg)); [wp_go; by apply Hnext|]. wp_go.
  lazymatch goal with |- wp ?g ?r (perform ?c) ?tr ?Q => apply (wp_perform g r c tr Q) end.
  - exists before, limit, rows, r. rewrite Ep. destruct Hnow as (t & ? & <-). split_and!; [done|set_solver|done..|].
    exists built, t. done.
  - intros x _. wp_go. apply Hnext, grows_snoc.
Qed.

Lemma page_last_elem {A} (l : list A) d x : List.last (x :: l) d ∈ x :: l.
Proof.
  revert x. induction l as [|y l IH]; intros x; [by apply list_elem_of_here|]. apply list_elem_of_further, IH.
Qed.

Lemma pruneLoop_wp fuel now tip depth cursor tr :
  (∃ t, Event cNow t ∈ tr ∧ UnixNano t = now) ->
  wp janitorAllowed R (pruneLoop cfg fuel now tip depth cursor) tr
    (fun ok _ => (∀ e, Rely e -> pageBelow e) -> (1 <= cursor <= Z.of_nat fuel)%Z -> ok = true).
Proof.
  revert cursor tr. induction fuel as [|fuel IH]; intros cursor tr Hnow; cbn [pruneLoop]; [wp_go; lia|].
  wp_go. wp_call stop. destruct stop; [by wp_go|]. wp_go.
  lazymatch goal with |- wp ?g ?r (perform ?c) ?tr ?Q => apply (wp_perform g r c tr Q) end; [done|].
  intros x Hx. cbn [answer] in x. destruct x as [[|first more]|e]; [by wp_go| |by wp_go]. wp_go.
  eapply pruneRows_wp; [apply snoc_here|done| |].
  { destruct Hnow as (t & ? & ?). exists t. split; [|done]. by do 2 apply grows_snoc. }
  intros mayHold tr1 Hs1. cbv zeta. destruct (_ && _); [by wp_go|]. destruct (Z.eqb_spec (bp_BlockHeight (List.last (first :: more) first)) 0); [by wp_go|].
  eapply wp_mono; [apply IH|].
  - destruct Hnow as (t & ? & ?). exists t. split; [|done]. by apply Hs1; do 2 apply grows_snoc.
  - intros ok tr2 Hok Hpage Hc. apply Hok; [done|].
    pose proof (Hpage _ Hx _ _ _ _ eq_refl (page_last_elem more first first)). lia.
Qed.

Lemma pruneOrphanStumps_wp fuel :
  wp janitorAllowed R (pruneOrphanStumps cfg fuel) []
    (fun ok tr => (∀ e, Rely e -> pageBelow e) ->
       (∀ tip, Event cGetActiveTipBlockHeight (Ok tip) ∈ tr -> (0 <= tip < Z.of_nat fuel)%Z) -> ok = true).
Proof.
  unfold pruneOrphanStumps. cbv zeta. wp_go. wp_call r. destruct r as [tip|e]; [|by wp_go].
  destruct (Z.eqb_spec tip 0); [by wp_go|]. wp_go. wp_call now.
  eapply wp_mono; [apply wp_grows, pruneLoop_wp; exists now; split; [apply snoc_here|done]|].
  intros ok tr [Hok Hs] Hpage Htip. apply Hok; [done|].
  assert (0 <= tip < Z.of_nat fuel)%Z by (apply Htip, Hs, grows_snoc, snoc_here). lia.
Qed.
End Janitor.

(** ** Theorems *)

(** C7: Every write of the BUMP builder is backed by what it read before, in
    every run of the message handler, cut short at any point and whatever was
    answered.  A compound is stored only if it was built from STUMPs that
    cover every announced and retained subtree index, its root is the block's,
    it keeps every leaf of the stored compound, and [bump_built_at] was
    recorded first; transactions are mined only from a stored compound and
    only while no header names another block at its height; the block is
    stamped only when it lost its height, when it has no STUMP and expects
    none, or after the mine of its leaves landed without an error and every
    mined row was announced or had been before an earlier stamp. *)
Theorem builder_writes_backed NewMerklePathFromBinary Bytes merkleTreeParent ComputeRoot NewHashFromHex HashString
    `{Hsort : SortFunc} readVarInt NewTransactionFromStream cfg decode value callback tr1 e tr2 :
  decode value = Ok callback ->
  begins (handleMessage NewMerklePathFromBinary Bytes merkleTreeParent ComputeRoot NewHashFromHex HashString
            readVarInt NewTransactionFromStream cfg decode value) (tr1 ++ e :: tr2) ->
  builderAllowed NewMerklePathFromBinary Bytes merkleTreeParent ComputeRoot NewHashFromHex HashString
    readVarInt NewTransactionFromStream cfg callback tr1 (ev_call e).
Proof.
  intros Hd Hb. eapply (wp_begins _ _ _ (tr1 ++ e :: tr2)); [by apply handleMessage_wp|done|done|done].
Qed.

(** What the outcome of a BLOCK_PROCESSED message promises.  A message
    that fails never asked for the stamp, so its redelivery finds the block
    open; one that ends without an error asked for it exactly under the
    outcomes that mean the block is finished; and a deferred block has its
    expected indices retained and its stamp off, so that the next delivery
    and the watchdog take it up again. *)
Theorem builder_outcome NewMerklePathFromBinary Bytes merkleTreeParent ComputeRoot NewHashFromHex HashString
    `{Hsort : SortFunc} readVarInt NewTransactionFromStream cfg decode value callback tr r :
  decode value = Ok callback ->
  ends (handleMessage NewMerklePathFromBinary Bytes merkleTreeParent ComputeRoot NewHashFromHex HashString
          readVarInt NewTransactionFromStream cfg decode value) tr r ->
  outcomeHolds callback r tr.
Proof.
  intros Hd He. eapply wp_ends; [exact (handleMessage_wp NewMerklePathFromBinary Bytes merkleTreeParent ComputeRoot
    NewHashFromHex HashString readVarInt NewTransactionFromStream cfg callback decode value Hd)|exact He|done].
Qed.

(** The STUMP janitor deletes the STUMPs of a block only when the store
    listed it as stamped and built at least the retention time ago, in every
    run, cut short or not; and its page walk ends for every tip when each
    page lies below its cursor, as [ListBlockProcessingStatus] promises. *)
Theorem janitor_safe_and_ends cfg fuel :
  (∀ tr1 e tr2, begins (pruneOrphanStumps cfg fuel) (tr1 ++ e :: tr2) -> janitorAllowed cfg tr1 (ev_call e)) ∧
  (∀ tr ok, ends (pruneOrphanStumps cfg fuel) tr ok -> (∀ e, e ∈ tr -> pageBelow e) ->
     (∀ tip, Event cGetActiveTipBlockHeight (Ok tip) ∈ tr -> (0 <= tip < Z.of_nat fuel)%Z) -> ok = true).
Proof.
  split.
  - intros tr1 e tr2 Hb. eapply (wp_begins _ _ _ (tr1 ++ e :: tr2));
      [apply (pruneOrphanStumps_wp cfg (fun _ => True))|done|done|done].
  - intros tr ok He Hpage Htip. eapply (wp_ends _ _ _ _ _ _ (pruneOrphanStumps_wp cfg pageBelow fuel) He); [|done|done].
    intros tr1 e tr2 ->. apply Hpage, elem_of_app. right. apply list_elem_of_here.
Qed.

(** *** A block of two subtrees, for the examples below

    The stamp of the block is the state; [landed] is whether the mine of its
    transactions lands. *)
Section Example.
#[local] Existing Instance mergeSortFunc.

Definition zRoot : Hash := "(((ab)(cd))((ef)(ef)))".
Definition zComputeRoot (mp : MerklePath) (tx : Hash) : Res Hash :=
  match List.find (fun e => bool_decide (pe_Hash e = Some tx)) (default [] (head (mp_Path mp))) with
  | Some e => match rootOf xParent mp (pe_Offset e) tx with Some r => Ok r | None => Err ErrDecode end
  | None => Err ErrDecode
  end.
Definition zCallback : CallbackMessage := mkCallbackMessage "blk" zRoot 2 ["zz"; "(ef)"] [x03] [0%Z; 1%Z].
Definition zConfig : BuilderConfig := mkBuilderConfig true 0 0 0 60 144 true true.
Definition zMined (t : string) : TransactionStatus :=
  mkTransactionStatus t StatusMined 0 (Some 3%Z) [] "blk" 9 [] "" [] [] 0 None None [] None.

Definition zHandle (landed : bool) (c : call) (stamped : bool) : answer c * bool :=
  match c with
  | cCtxErr | cWait _ => (false, stamped)
  | cNow => (Some 9%Z, stamped)
  | cMapOrder keys => (exist _ keys (Permutation_refl keys), stamped)
  | cGetBUMP _ => (Err ErrNotFound, stamped)
  | cGetTxIDsByBlockHash _ | cSetStatusByBlockHash _ _ => (([], None), stamped)
  | cSetMinedByTxIDs _ _ txids =>
      (if landed then (List.map (fun _ => None) txids, List.map zMined txids, None) else ([], [], Some ErrIO), stamped)
  | cGetStumpsByBlockHash _ => (Ok xStumps, stamped)
  | cGetBlockProcessingStatus _ =>
      (Ok (mkBlockProcessingStatus "blk" 9 (Some 1%Z) (if stamped then Some 2%Z else None) None BlockStatusActive None None),
       stamped)
  | cListBlockProcessingStatus _ _ | cListOrphanedBlocksToReconcile _ => (Ok [], stamped)
  | cGetActiveTipBlockHeight => (Ok 9%Z, stamped)
  | cMarkBlockProcessed _ _ _ => (None, true)
  | cClearBlockProcessed _ => (None, false)
  | cMarkBlocksOrphaned _ _ => ((0%Z, None), stamped)
  | cMarkBlockReconciled _ _ _ | cRequeueOrphanedBlock _ _ | cReactivateBlock _ _ _ => (Ok true, stamped)
  | cGetBlockExpectedSubtrees _ => (Ok [], stamped)
  | cTryAcquireOrRenew _ _ _ => (Ok (Some 99%Z), stamped)
  | cGetHeaderByHeight _ | cGetHeaderByHash _ => (Ok (Some (mkBlockHeader "blk" zRoot)), stamped)
  | cGetHealthyEndpoints | cGetEndpoints => ([], stamped)
  | cGetBlock _ _ => (Err ErrIO, stamped)
  | cInsertBUMP _ _ _ | cDeleteStumpsByBlockHash _ | cMarkBlockBUMPBuilt _ _ _ | cAddBlockExpectedSubtrees _ _
  | cClearBlockExpectedSubtrees _ | cRelease _ _ | cReprocess _ _ _ | cPublishBulk _ => (None, stamped)
  end.

Definition zProgram : Prog handled :=
  handleMessage xParse (fun _ => []) xParent zComputeRoot Ok id (fun _ => Err ErrDecode) (fun _ => Err ErrDecode)
    zConfig (fun _ => Ok zCallback) [].

(** The seventh call is the insert of the compound. *)
Lemma builder_writes_backed_witness :
  let tr := run_trace (zHandle true) zProgram false in
  ∃ h bytes, ev_call <$> tr !! 6%nat = Some (cInsertBUMP "blk" h bytes) ∧
    builderAllowed xParse (fun _ => []) xParent zComputeRoot Ok id (fun _ => Err ErrDecode) (fun _ => Err ErrDecode)
      zConfig zCallback (take 6 tr) (cInsertBUMP "blk" h bytes).
Proof.
  eexists _, _. split; [vm_compute; reflexivity|].
  match goal with |- builderAllowed _ _ _ _ _ _ _ _ _ _ _ ?c =>
    apply (builder_writes_backed xParse (fun _ => []) xParent zComputeRoot Ok id (fun _ => Err ErrDecode)
      (fun _ => Err ErrDecode) zConfig (fun _ => Ok zCallback) [] zCallback
      (take 6 (run_trace (zHandle true) zProgram false)) (Event c None)
      (drop 7 (run_trace (zHandle true) zProgram false)) eq_refl) end.
  exists (Ret (run (zHandle true) zProgram false).1). pose proof (run_ends (zHandle true) zProgram false) as He.
  rewrite <-(take_drop_middle (run_trace (zHandle true) zProgram false) 6 (Event (cInsertBUMP "blk" 9 []) None)) in He
    by (vm_compute; reflexivity).
  exact He.
Defined.

Lemma builder_outcome_witness :
  (run (zHandle true) zProgram false).1 = (None, "finalized_complete_no_grace") ∧
  outcomeHolds zCallback (None, "finalized_complete_no_grace") (run_trace (zHandle true) zProgram false).
Proof.
  split; [vm_compute; reflexivity|].
  apply (builder_outcome xParse (fun _ => []) xParent zComputeRoot Ok id (fun _ => Err ErrDecode)
    (fun _ => Err ErrDecode) zConfig (fun _ => Ok zCallback) [] zCallback); [reflexivity|].
  pose proof (run_ends (zHandle true) zProgram false) as He.
  assert ((run (zHandle true) zProgram false).1 = (None, "finalized_complete_no_grace")) as E by (vm_compute; reflexivity).
  rewrite E in He. exact He.
Defined.

(** A block that was stamped before it had a compound (an earlier delivery
    found it empty) keeps the stamp when the mine of a later delivery fails:
    the handler reports [store_failed] without an error, so the message is
    committed, and never takes the stamp off, so the watchdog's stale scan,
    which lists un-stamped blocks only, does not re-drive the block. *)
Theorem failed_mine_keeps_stamp :
  run (zHandle false) zProgram true = ((None, buildOutcomeStoreFailed), true) ∧
  run (zHandle false) zProgram false = ((None, buildOutcomeStoreFailed), false).
Proof. split; vm_compute; reflexivity. Qed.
End Example.
