(* ===== verification/Watchdog.v ===== *)
(** * Watchdog: re-driving blocks that were not processed

    Models [src/services/watchdog/watchdog.go] and the configuration of
    [service.go].  Every tick of the leader lists the stale blocks of the
    store, parks those that used up their attempts and asks merkle-service to
    reprocess the others, with a backoff per block kept in memory.  Store,
    lease, merkle-service, clock and random numbers are calls with arbitrary
    answers ([Effects]).  Durations are nanoseconds. *)
From stdpp Require Import base gmap strings list sorting.
From Stdlib Require Import ZArith Lia.
From S2P Require Import Prelude Models Effects.

(** ** Configuration *)

(** [config.WatchdogConfig], as read from YAML. *)
Record WatchdogConfig : Type := mkWatchdogConfig {
  y_IntervalMs : Z;
  y_StaleThresholdMs : Z;
  y_RecencyDepth : Z;
  y_BatchSize : Z;
  y_MaxConcurrent : Z;
  y_LeaseTTLMs : Z;
  y_InitialBackoffMs : Z;
  y_MaxBackoffMs : Z;
  y_TerminalBackoffMs : Z;
  y_MaxReprocessAttempts : Z;
  y_MaxStaleAgeMs : Z
}.

Record Config : Type := mkConfig {
  Interval : Z;
  StaleThreshold : Z;
  RecencyDepth : Z;
  BatchSize : Z;
  MaxConcurrent : Z;
  LeaseTTL : Z;
  InitialBackoff : Z;
  MaxBackoff : Z;
  TerminalBackoff : Z;
  MaxReprocessAttempts : Z;
  MaxStaleAge : Z
}.

Definition orDefault (v d : Z) : Z := if (v <=? 0)%Z then d else v.

Definition ResolveConfig (c : WatchdogConfig) : Config :=
  let interval := orDefault (y_IntervalMs c * 1000000) 30000000000 in
  mkConfig interval
    (orDefault (y_StaleThresholdMs c * 1000000) 120000000000)
    (if (0 <? y_RecencyDepth c)%Z then y_RecencyDepth c else 144%Z)
    (orDefault (y_BatchSize c) 100)
    (orDefault (y_MaxConcurrent c) 4)
    (orDefault (y_LeaseTTLMs c * 1000000) (3 * interval))
    (orDefault (y_InitialBackoffMs c * 1000000) 60000000000)
    (orDefault (y_MaxBackoffMs c * 1000000) 1800000000000)
    (orDefault (y_TerminalBackoffMs c * 1000000) 14400000000000)
    (y_MaxReprocessAttempts c)
    (y_MaxStaleAgeMs c * 1000000).

(** ** Calls *)

Definition LeaseName : string := "block-processing-watchdog".

(** How a [/reprocess] failed: [merkleservice.ReprocessError] with its status
    code, or before merkle-service was reached. *)
Inductive reprocessFailure : Type :=
| ReprocessError (StatusCode : Z)
| ReprocessUnreachable.

Inductive wcall : Type :=
| wTryAcquireOrRenew (name holder : string) (ttl : Z)
| wRelease (name holder : string)
| wNow
| wInt63n (n : positive)
| wSchedule (rows : list BlockProcessingStatus)
| wWait (ns : Z)
| wGetActiveTipBlockHeight
| wListStaleBlockProcessingStatus (olderThan : Time) (minHeight limit : Z)
| wMarkBlocksParked (hashes : list string)
| wReprocess (blockHash callbackURL callbackToken : string).

(** [wSchedule] answers the order in which the workers of [dispatch] finish;
    [wWait] whether the context ended the wait. *)
Definition wanswer (c : wcall) : Type :=
  match c with
  | wTryAcquireOrRenew _ _ _ => Res Time
  | wRelease _ _ | wMarkBlocksParked _ => option error
  | wNow => Time
  | wInt63n n => { z : Z | (0 <= z < Zpos n)%Z }
  | wSchedule rows => { l : list BlockProcessingStatus | l ≡ₚ rows }
  | wWait _ => bool
  | wGetActiveTipBlockHeight => Res Z
  | wListStaleBlockProcessingStatus _ _ _ => Res (list BlockProcessingStatus)
  | wReprocess _ _ _ => option reprocessFailure
  end.

Abbreviation WProg := (prog wanswer).
Abbreviation WTrace := (trace wanswer).

(** ** State *)

Record attemptState : Type := mkAttemptState {
  lastTriedAt : Time;
  failures : Z;
  nextEligibleAt : Time;
  total : Z;
  parked : bool
}.

Abbreviation Attempts := (gmap string attemptState).
Abbreviation WEff := (eff wanswer Attempts).

(** The entry of a block, created empty when there is none. *)
Definition fetch (hash : string) (a : Attempts) : attemptState :=
  default (mkAttemptState None 0 None 0 false) (a !! hash).

(** ** Backoff *)

(** The product with a power of two is exact in floating point, and beyond
    the range of a duration either conversion to [int64] is replaced by the
    cap. *)
Definition transientBackoff (initial maxBackoff failures : Z) : Z :=
  if (failures <=? 1)%Z then initial
  else
    let delay := (initial * 2 ^ (failures - 1))%Z in
    if (delay <=? 0)%Z || (maxBackoff <? delay)%Z then maxBackoff else delay.

(** [backoffJitterFraction] is a fifth; the product is exact for the
    durations a backoff can have. *)
Definition jitterSpread (d : Z) : Z := (d / 5)%Z.

Definition proportionalJitter (d : Z) : WProg Z :=
  if (d <=? 0)%Z then mret d
  else if (jitterSpread d <=? 0)%Z then mret d
  else
    n ← perform (wInt63n (Z.to_pos (2 * jitterSpread d + 1)));
    let out := (d + (`n - jitterSpread d))%Z in
    mret (if (out <=? 0)%Z then d else out).

Section Watchdog.
Context (cfg : Config) (leaser : bool) (holderID callbackURL callbackTok : string).

(** ** Recording an attempt *)

Definition recordSuccess (hash : string) (now : Time) : WEff unit :=
  modify (fun a =>
    let st := fetch hash a in
    <[hash := mkAttemptState now 0 (timeAdd now (StaleThreshold cfg)) (total st + 1) (parked st)]> a).

(** [recordFailure], [recordAuthFailure] and [recordTransientFailure] differ
    in the delay and in whether the attempt counts. *)
Definition recordDelay (hash : string) (now : Time) (counts : Z) (delay : Z) : WEff unit :=
  j ← lift (proportionalJitter delay);
  modify (fun a =>
    let st := fetch hash a in
    <[hash := mkAttemptState now (failures st + 1) (timeAdd now j) (total st + counts) (parked st)]> a).

Definition recordFailure (hash : string) (now : Time) (delay : Z) : WEff unit := recordDelay hash now 1 delay.

Definition recordAuthFailure (hash : string) (now : Time) : WEff unit := recordDelay hash now 0 (InitialBackoff cfg).

Definition recordTransientFailure (hash : string) (now : Time) : WEff unit :=
  a ← get;
  recordDelay hash now 1 (transientBackoff (InitialBackoff cfg) (MaxBackoff cfg) (failures (fetch hash a) + 1)).

Definition reprocessOne (row : BlockProcessingStatus) : WEff unit :=
  let hash := bp_BlockHash row in
  err ← lift (perform (wReprocess hash callbackURL callbackTok));
  now ← lift (perform wNow);
  match err with
  | None => recordSuccess hash now
  | Some (ReprocessError code) =>
      if (code =? 401)%Z || (code =? 403)%Z then recordAuthFailure hash now
      else if (400 <=? code)%Z && (code <? 500)%Z then recordFailure hash now (TerminalBackoff cfg)
      else recordTransientFailure hash now
  | Some ReprocessUnreachable => recordTransientFailure hash now
  end.

Fixpoint reprocessAll (rows : list BlockProcessingStatus) : WEff unit :=
  match rows with
  | [] => mret tt
  | r :: rest => _ ← reprocessOne r; reprocessAll rest
  end.

(** The workers overlap, but each touches only the entry of its own block
    and takes the mutex to do so: they run in the order they finish. *)
Definition dispatch (rows : list BlockProcessingStatus) : WEff unit :=
  order_ ← lift (perform (wSchedule rows));
  reprocessAll (`order_).

(** ** Parking *)

Definition parkReason (r : BlockProcessingStatus) (st : option attemptState) (now : Time) : string :=
  let attempts := match st with Some st => total st | None => 0%Z end in
  if (0 <? MaxStaleAge cfg)%Z && (0 <? attempts)%Z && (MaxStaleAge cfg <? timeSub now (bp_HeaderSeenAt r))%Z then "max_age"
  else if (0 <? MaxReprocessAttempts cfg)%Z && (MaxReprocessAttempts cfg <=? attempts)%Z then "max_attempts"
  else "".

(** One row: the attempts, and whether it is eligible or newly parked. *)
Definition filterRow (now : Time) (a : Attempts) (r : BlockProcessingStatus) : Attempts * bool * bool :=
  let st := a !! bp_BlockHash r in
  if negb (String.eqb (parkReason r st now) "") then
    let entry := default (mkAttemptState now 0 None 0 false) st in
    (<[bp_BlockHash r := mkAttemptState (lastTriedAt entry) (failures entry) (nextEligibleAt entry) (total entry) true]> a,
     false, negb (parked entry))
  else
    let waiting := match st with Some st => timeBefore now (nextEligibleAt st) | None => false end in
    (a, negb waiting, false).

Fixpoint filterEligible (now : Time) (a : Attempts) (rows : list BlockProcessingStatus)
  : Attempts * list BlockProcessingStatus * list string :=
  match rows with
  | [] => (a, [], [])
  | r :: rest =>
      let '(a, eligible, newly) := filterRow now a r in
      let '(a, out, newlyParked) := filterEligible now a rest in
      (a, (if (eligible : bool) then [r] else []) ++ out, (if (newly : bool) then [bp_BlockHash r] else []) ++ newlyParked)
  end.

(** ** The tick *)

Definition gcMaxAge : Z := 86400000000000.
Definition gc (now : Time) : WEff unit :=
  modify (fun a => filter (fun kv => (timeSub now (lastTriedAt kv.2) <= gcMaxAge)%Z) a).

Definition runOnce : WEff unit :=
  now ← lift (perform wNow);
  tip ← lift (perform wGetActiveTipBlockHeight);
  match tip with
  | Err _ => mret tt
  | Ok tip =>
      let minHeight := if (RecencyDepth cfg <? tip)%Z then (tip - RecencyDepth cfg)%Z else 0%Z in
      r ← lift (perform (wListStaleBlockProcessingStatus (timeAdd now (- StaleThreshold cfg)) minHeight (BatchSize cfg)));
      match r with
      | Err _ => mret tt
      | Ok [] => gc now
      | Ok candidates =>
          a ← get;
          let '(a, eligible, newlyParked) := filterEligible now a candidates in
          _ ← modify (fun _ => a);
          _ ← (if (0 <? length newlyParked)%nat then
                 _ ← lift (perform (wMarkBlocksParked newlyParked));
                 mret tt
               else mret tt);
          if (length eligible =? 0)%nat then gc now
          else
            _ ← dispatch eligible;
            gc now
      end
  end.

Definition tick : WEff unit :=
  if leaser then
    r ← lift (perform (wTryAcquireOrRenew LeaseName holderID (LeaseTTL cfg)));
    match r with
    | Err _ => mret tt
    | Ok heldUntil => if IsZero heldUntil then mret tt else runOnce
    end
  else runOnce.

(** The ticker loop; [fuel] bounds the number of ticks. *)
Fixpoint runLoop (fuel : nat) : WEff unit :=
  match fuel with
  | O => mret tt
  | S fuel =>
      stop ← lift (perform (wWait (Interval cfg)));
      if (stop : bool) then
        if leaser then _ ← lift (perform (wRelease LeaseName holderID)); mret tt else mret tt
      else
        _ ← tick;
        runLoop fuel
  end.

Definition Run (ticks : nat) : WEff unit :=
  _ ← tick;
  runLoop ticks.
End Watchdog.
