(* ===== verification/WatchdogProps.v ===== *)
(** * WatchdogProps: what the watchdog asks for, and when it gives up

    Every request names a block the store listed as stale, blocks are parked
    only after requests that counted, a tick treats every listed block in
    exactly one way, and the backoff keeps requests for a block apart. *)
From stdpp Require Import base gmap strings list sorting.
From Stdlib Require Import ZArith Lia.
From S2P Require Import Prelude Models Effects Watchdog.

(** ** Attempts in a trace *)

(** A [/reprocess] of [h] that counts: it was not refused for its token. *)
Definition counted (h : string) (e : event wanswer) : bool :=
  match ev_call e as c return wanswer c -> bool with
  | wReprocess h' _ _ => fun x =>
      String.eqb h h' && match x with
                         | Some (ReprocessError code) => negb ((code =? 401)%Z || (code =? 403)%Z)
                         | _ => true
                         end
  | _ => fun _ => false
  end (ev_answer e).

Definition attemptsOf (h : string) (tr : WTrace) : Z := Z.of_nat (length (List.filter (counted h) tr)).

Lemma attemptsOf_snoc h tr e : attemptsOf h (tr ++ [e]) = (attemptsOf h tr + if counted h e then 1 else 0)%Z.
Proof. unfold attemptsOf. rewrite List.filter_app, length_app. simpl. destruct (counted h e); simpl; lia. Qed.

Lemma attemptsOf_mono h tr e : (attemptsOf h tr <= attemptsOf h (tr ++ [e]))%Z.
Proof. rewrite attemptsOf_snoc. destruct (counted h e); lia. Qed.

Section Safe.
Context (cfg : Config) (leaser : bool) (holderID callbackURL callbackTok : string).

(** The store listed the row as stale, for a threshold taken from the clock. *)
Definition listedStale (tr : WTrace) (row : BlockProcessingStatus) : Prop :=
  ∃ now minHeight rows,
    Event wNow now ∈ tr ∧
    Event (wListStaleBlockProcessingStatus (timeAdd now (- StaleThreshold cfg)) minHeight (BatchSize cfg)) (Ok rows) ∈ tr ∧
    row ∈ rows.

(** The lease was granted. *)
Definition leads (tr : WTrace) : Prop :=
  leaser = true -> ∃ until, Event (wTryAcquireOrRenew LeaseName holderID (LeaseTTL cfg)) (Ok (Some until)) ∈ tr.

(** Why a block may be parked. *)
Definition spent (tr : WTrace) (row : BlockProcessingStatus) : Prop :=
  let n := attemptsOf (bp_BlockHash row) tr in
  (1 <= n)%Z ∧
  ((0 < MaxReprocessAttempts cfg <= n)%Z ∨
   (0 < MaxStaleAge cfg)%Z ∧ ∃ now, Event wNow now ∈ tr ∧ (MaxStaleAge cfg < timeSub now (bp_HeaderSeenAt row))%Z).

Definition watchAllowed (tr : WTrace) (c : wcall) : Prop :=
  match c with
  | wReprocess h url tok =>
      url = callbackURL ∧ tok = callbackTok ∧ leads tr ∧ ∃ row, listedStale tr row ∧ bp_BlockHash row = h
  | wMarkBlocksParked hs => leads tr ∧ ∀ h, h ∈ hs -> ∃ row, listedStale tr row ∧ bp_BlockHash row = h ∧ spent tr row
  | wTryAcquireOrRenew name holder _ | wRelease name holder => name = LeaseName ∧ holder = holderID
  | _ => True
  end.

(** No entry counts more attempts than were made. *)
Definition honest (a : Attempts) (tr : WTrace) : Prop :=
  ∀ h st, a !! h = Some st -> (0 <= total st <= attemptsOf h tr)%Z.

Let G := watchAllowed.
Let R : WTrace -> event wanswer -> Prop := fun _ _ => True.

Lemma listedStale_mono tr tr' row : listedStale tr row -> tr ⊆ tr' -> listedStale tr' row.
Proof. intros (now & m & rows & ? & ? & ?) Hs. exists now, m, rows. auto. Qed.
Lemma leads_mono tr tr' : leads tr -> tr ⊆ tr' -> leads tr'.
Proof. intros H Hs E. destruct (H E) as (u & ?). exists u. auto. Qed.

Lemma honest_snoc a tr e : honest a tr -> honest a (tr ++ [e]).
Proof. intros H h st Hs. pose proof (H h st Hs). pose proof (attemptsOf_mono h tr e). lia. Qed.

Lemma honest_fetch a tr h : honest a tr -> (0 <= total (fetch h a) <= attemptsOf h tr)%Z.
Proof. intros H. unfold fetch. destruct (a !! h) as [st|] eqn:E; simpl; [by apply H|]. unfold attemptsOf. lia. Qed.

Lemma honest_insert a tr h st : honest a tr -> (0 <= total st <= attemptsOf h tr)%Z -> honest (<[h := st]> a) tr.
Proof. intros H Hst h' st'. rewrite lookup_insert_Some. intros [[<- <-]|[_ ?]]; [done|by apply H]. Qed.

(** ** One request *)

Lemma jitter_wp d tr (Q : Z -> WTrace -> Prop) :
  (∀ j tr', tr ⊆ tr' -> (∀ h, attemptsOf h tr' = attemptsOf h tr) -> Q j tr') -> wp G R (proportionalJitter d) tr Q.
Proof.
  intros HQ. unfold proportionalJitter. destruct (d <=? 0)%Z; [wp_go; by apply HQ|].
  destruct (_ <=? 0)%Z; [wp_go; by apply HQ|]. wp_go. wp_ask n idtac. wp_go. apply HQ; [apply grows_snoc|].
  intros h. rewrite attemptsOf_snoc. simpl. lia.
Qed.

Lemma recordDelay_wp h now counts d a tr (Q : unit -> Attempts -> WTrace -> Prop) :
  (0 <= counts)%Z -> (∀ h' st, a !! h' = Some st -> (0 <= total st <= attemptsOf h' tr - if decide (h' = h) then counts else 0)%Z) ->
  (counts <= attemptsOf h tr)%Z ->
  (∀ a' tr', tr ⊆ tr' -> honest a' tr' -> Q tt a' tr') ->
  ewp G R (recordDelay h now counts d) a tr Q.
Proof.
  intros Hc Ha Hn HQ. unfold recordDelay. wp_go. apply jitter_wp. intros j tr' Hs E. wp_go. apply HQ; [done|].
  apply honest_insert.
  - intros h' st Hst. rewrite E. pose proof (Ha h' st Hst). destruct (decide (h' = h)); lia.
  - simpl. rewrite E. unfold fetch. destruct (a !! h) as [st|] eqn:El; simpl; [|lia].
    pose proof (Ha h st El) as Hst. rewrite decide_True in Hst by done. lia.
Qed.

Lemma reprocessOne_wp row a tr (Q : unit -> Attempts -> WTrace -> Prop) :
  listedStale tr row -> leads tr -> honest a tr ->
  (∀ a' tr', tr ⊆ tr' -> honest a' tr' -> Q tt a' tr') ->
  ewp G R (reprocessOne cfg callbackURL callbackTok row) a tr Q.
Proof.
  intros Hl Hld Ha HQ. unfold reprocessOne. cbv zeta. wp_go.
  wp_ask err ltac:(split_and!; [done..|by exists row]). wp_go. set (tr1 := tr ++ _).
  wp_ask now idtac. set (tr2 := tr1 ++ _).
  assert (tr ⊆ tr2) as Hs2 by (etrans; apply grows_snoc).
  set (c := match err with Some (ReprocessError code) => if (code =? 401)%Z || (code =? 403)%Z then 0%Z else 1%Z | _ => 1%Z end).
  assert (∀ h', attemptsOf h' tr2 = (attemptsOf h' tr + if decide (h' = bp_BlockHash row) then c else 0)%Z) as E2.
  { intros h'. unfold tr2, tr1. rewrite !attemptsOf_snoc. unfold counted, c. cbn [ev_call ev_answer].
    destruct (String.eqb_spec h' (bp_BlockHash row)), (decide (h' = bp_BlockHash row)); try done; cbn [andb]; [|lia].
    destruct err as [[code|]|]; try lia. destruct ((code =? 401)%Z || (code =? 403)%Z); cbn [negb]; lia. }
  assert (0 <= attemptsOf (bp_BlockHash row) tr)%Z as Hn0 by (unfold attemptsOf; lia).
  assert (∀ counts d, counts = c -> ewp G R (recordDelay (bp_BlockHash row) now counts d) a tr2 Q) as Hrec.
  { intros counts d ->. apply recordDelay_wp.
    - unfold c. destruct err as [[code|]|]; try lia. destruct (_ || _); lia.
    - intros h' st Hst. rewrite E2. pose proof (Ha h' st Hst). destruct (decide _); lia.
    - rewrite E2, decide_True by done. lia.
    - intros a' tr' Hs Hh. apply HQ; [by etrans|done]. }
  destruct err as [[code|]|]; unfold c in Hrec.
  - destruct (_ || _); [by apply Hrec|]. destruct (_ && _); [by apply Hrec|].
    unfold recordTransientFailure. wp_go. by apply Hrec.
  - unfold recordTransientFailure. wp_go. by apply Hrec.
  - unfold recordSuccess. wp_go. apply HQ; [done|]. pose proof (honest_fetch a tr (bp_BlockHash row) Ha).
    apply honest_insert.
    + intros h' st Hst. rewrite E2. pose proof (Ha h' st Hst). unfold c. destruct (decide _); lia.
    + simpl. rewrite E2, decide_True by done. unfold c. lia.
Qed.

Lemma reprocessAll_wp rows a tr (Q : unit -> Attempts -> WTrace -> Prop) :
  (∀ row, row ∈ rows -> listedStale tr row) -> leads tr -> honest a tr ->
  (∀ a' tr', tr ⊆ tr' -> honest a' tr' -> Q tt a' tr') ->
  ewp G R (reprocessAll cfg callbackURL callbackTok rows) a tr Q.
Proof.
  revert a tr. induction rows as [|r rest IH]; intros a tr Hl Hld Ha HQ; cbn [reprocessAll]; [wp_go; by apply HQ|].
  wp_go. apply reprocessOne_wp; [apply Hl, list_elem_of_here|done|done|]. intros a1 tr1 Hs1 Ha1.
  apply IH; [|by eapply leads_mono|done|intros; apply HQ; [by etrans|done]].
  intros row Hr. eapply listedStale_mono; [apply Hl, list_elem_of_further, Hr|done].
Qed.

(** ** The filter *)

Lemma parkReason_spent row st now tr n :
  parkReason cfg row st now ≠ "" -> match st with Some st => total st | None => 0%Z end = n ->
  (0 <= n <= attemptsOf (bp_BlockHash row) tr)%Z -> Event wNow now ∈ tr -> spent tr row.
Proof.
  unfold parkReason, spent. intros Hr <- Hn Hnow. set (n := match st with Some _ => _ | None => _ end) in *.
  destruct (Z.ltb_spec 0 (MaxStaleAge cfg)); cbn [andb] in Hr;
    [destruct (Z.ltb_spec 0 n); cbn [andb] in Hr; [destruct (Z.ltb_spec (MaxStaleAge cfg) (timeSub now (bp_HeaderSeenAt row)))|]|].
  1: { split; [lia|]. right. split; [done|]. by exists now. }
  all: destruct (Z.ltb_spec 0 (MaxReprocessAttempts cfg)); cbn [andb] in Hr; [|done];
    destruct (Z.leb_spec (MaxReprocessAttempts cfg) n); [|done]; split; [lia|]; left; lia.
Qed.

Lemma filterEligible_wp now rows a tr a' eligible newly :
  filterEligible cfg now a rows = (a', eligible, newly) -> honest a tr -> Event wNow now ∈ tr ->
  honest a' tr ∧ (∀ r, r ∈ eligible -> r ∈ rows) ∧
  (∀ h, h ∈ newly -> ∃ r, r ∈ rows ∧ bp_BlockHash r = h ∧ spent tr r).
Proof.
  revert a a' eligible newly. induction rows as [|r rest IH]; intros a a' eligible newly E Ha Hnow; cbn [filterEligible] in E.
  { injection E as <- <- <-. split_and!; [done|done|]. intros h Hh. by apply elem_of_nil in Hh. }
  destruct (filterRow cfg now a r) as [[a1 el] nw] eqn:Er.
  destruct (filterEligible cfg now a1 rest) as [[a2 out] np] eqn:Eo. injection E as <- <- <-.
  assert (honest a1 tr ∧ (nw = true -> spent tr r)) as [Ha1 Hnw].
  { unfold filterRow in Er. destruct (String.eqb_spec (parkReason cfg r (a !! bp_BlockHash r) now) "") as [Ep|Ep];
      cbn [negb] in Er; injection Er as <- <- <-; [done|].
    assert (spent tr r) as Hsp.
    { eapply parkReason_spent; [done|done| |done]. destruct (a !! bp_BlockHash r) as [st|] eqn:Est; [by apply Ha|].
      unfold attemptsOf. lia. }
    split; [|done]. apply honest_insert; [done|]. simpl. destruct (a !! bp_BlockHash r) as [st|] eqn:Est; simpl; [by apply Ha|].
    unfold attemptsOf. lia. }
  destruct (IH a1 _ _ _ Eo Ha1 Hnow) as (Ha2 & Hel & Hnp). split_and!; [done| |].
  - intros x [Hx|Hx]%elem_of_app; [|apply list_elem_of_further; auto]. destruct el; [|by apply elem_of_nil in Hx].
    apply list_elem_of_singleton in Hx as ->. apply list_elem_of_here.
  - intros h [Hh|Hh]%elem_of_app.
    + destruct nw; [|by apply elem_of_nil in Hh]. apply list_elem_of_singleton in Hh as ->.
      exists r. split_and!; [apply list_elem_of_here|done|auto].
    + destruct (Hnp h Hh) as (x & ? & ? & ?). exists x. split_and!; [by apply list_elem_of_further|done..].
Qed.

Lemma gc_honest now a tr : honest a tr -> honest (filter (fun kv => (timeSub now (lastTriedAt kv.2) <= gcMaxAge)%Z) a) tr.
Proof. intros Ha h st [Hst _]%map_lookup_filter_Some. by apply Ha. Qed.

(** ** The service *)

Lemma runOnce_wp a tr (Q : unit -> Attempts -> WTrace -> Prop) :
  leads tr -> honest a tr -> (∀ a' tr', tr ⊆ tr' -> honest a' tr' -> Q tt a' tr') ->
  ewp G R (runOnce cfg callbackURL callbackTok) a tr Q.
Proof.
  intros Hld Ha HQ. unfold runOnce. wp_go. wp_ask now idtac. set (tr1 := tr ++ _).
  assert (tr ⊆ tr1) as Hs1 by apply grows_snoc. assert (honest a tr1) as Ha1 by (by apply honest_snoc).
  assert (Event wNow now ∈ tr1) as Hn1 by apply snoc_here. clearbody tr1. wp_go.
  wp_ask tip idtac. set (tr2 := tr1 ++ _). assert (tr1 ⊆ tr2) as Hs2 by apply grows_snoc.
  assert (honest a tr2) as Ha2 by (by apply honest_snoc). clearbody tr2.
  destruct tip as [tip|e]; [|wp_go; apply HQ; [by etrans|done]]. cbv zeta. wp_go.
  wp_ask r idtac. set (tr3 := tr2 ++ _). assert (tr2 ⊆ tr3) as Hs3 by apply grows_snoc.
  assert (honest a tr3) as Ha3 by (by apply honest_snoc).
  assert (tr ⊆ tr3) as Hs03 by (do 2 (etrans; [done|]); done).
  destruct r as [[|first more]|e]; [wp_go; apply HQ; [done|by apply gc_honest]| |wp_go; by apply HQ].
  assert (∀ row, row ∈ first :: more -> listedStale tr3 row) as Hl.
  { intros row Hr. eexists now, _, (first :: more). split_and!; [by apply Hs3, Hs2|apply snoc_here|done]. }
  assert (Event wNow now ∈ tr3) as Hn3 by (by apply Hs3, Hs2). clearbody tr3. wp_go.
  destruct (filterEligible cfg now a (first :: more)) as [[a1 eligible] newly] eqn:Ef.
  destruct (filterEligible_wp _ _ _ _ _ _ _ Ef Ha3 Hn3) as (Ha1' & Hel & Hnp). wp_go.
  assert (∀ tr4, tr3 ⊆ tr4 -> honest a1 tr4 -> ewp G R
    (if (length eligible =? 0)%nat then gc now else _ ← dispatch cfg callbackURL callbackTok eligible; gc now) a1 tr4 Q) as Hend.
  { intros tr4 Hs4 Ha4. destruct (_ =? _)%nat; [unfold gc; wp_go; apply HQ; [by etrans|by apply gc_honest]|].
    unfold dispatch. wp_go. wp_ask ord idtac. destruct ord as [l Hp]. set (tr5 := tr4 ++ _).
    assert (tr4 ⊆ tr5) as Hs5 by apply grows_snoc. apply reprocessAll_wp.
    - intros row Hr. eapply listedStale_mono; [apply Hl, Hel; by rewrite <-Hp|by etrans].
    - eapply leads_mono; [done|]. etrans; [done|by etrans].
    - by apply honest_snoc.
    - intros a6 tr6 Hs6 Ha6. wp_go. unfold gc. wp_go. apply HQ; [|by apply gc_honest].
      etrans; [done|]. etrans; [done|by etrans]. }
  destruct (0 <? length newly)%nat; [|wp_go; by apply Hend]. wp_go.
  wp_ask x ltac:(split; [by eapply leads_mono|]; intros h Hh; destruct (Hnp h Hh) as (r & ? & ? & ?); exists r; auto).
  wp_go. apply Hend; [apply grows_snoc|by apply honest_snoc].
Qed.

Lemma tick_wp a tr (Q : unit -> Attempts -> WTrace -> Prop) :
  honest a tr -> (∀ a' tr', tr ⊆ tr' -> honest a' tr' -> Q tt a' tr') ->
  ewp G R (tick cfg leaser holderID callbackURL callbackTok) a tr Q.
Proof.
  intros Ha HQ. unfold tick. destruct leaser eqn:El; [|apply runOnce_wp; [intros E; congruence|done|done]].
  wp_go. wp_ask r ltac:(done). set (tr1 := tr ++ _). assert (honest a tr1) as Ha1 by (by apply honest_snoc).
  destruct r as [[until|]|e]; cbn [IsZero].
  - apply runOnce_wp; [|done|intros; apply HQ; [|done]; etrans; [apply grows_snoc|done]].
    intros _. exists until. apply snoc_here.
  - wp_go. apply HQ; [apply grows_snoc|done].
  - wp_go. apply HQ; [apply grows_snoc|done].
Qed.

Lemma Run_wp ticks a tr :
  honest a tr -> ewp G R (Run cfg leaser holderID callbackURL callbackTok ticks) a tr (fun _ a' tr' => honest a' tr').
Proof.
  intros Ha. unfold Run. wp_go. apply tick_wp; [done|]. intros a1 tr1 _ Ha1. clear a tr Ha. revert a1 tr1 Ha1.
  induction ticks as [|n IH]; intros a tr Ha; cbn [runLoop]; [wp_go; done|].
  wp_go. wp_ask stop idtac. assert (honest a (tr ++ [Event (wWait (Interval cfg)) stop])) as Ha1 by (by apply honest_snoc).
  destruct stop.
  - destruct leaser; [|wp_go; done]. wp_go. wp_ask x ltac:(done). wp_go. by apply honest_snoc.
  - wp_go. apply tick_wp; [done|]. auto.
Qed.
End Safe.

(** ** What one tick does *)

Section Tick.
Context (cfg : Config) (callbackURL callbackTok : string).
Let G : WTrace -> wcall -> Prop := fun _ _ => True.
Let R : WTrace -> event wanswer -> Prop := fun _ _ => True.

(** The blocks requested, and the blocks parked. *)
Definition requested (tr : WTrace) : list string :=
  omap (fun e => match ev_call e with wReprocess h _ _ => Some h | _ => None end) tr.
Definition parkedBy (tr : WTrace) : list string :=
  concat (List.map (fun e => match ev_call e with wMarkBlocksParked hs => hs | _ => [] end) tr).

Lemma requested_app tr tr' : requested (tr ++ tr') = requested tr ++ requested tr'.
Proof. apply omap_app. Qed.
Lemma parkedBy_app tr tr' : parkedBy (tr ++ tr') = parkedBy tr ++ parkedBy tr'.
Proof. unfold parkedBy. by rewrite map_app, concat_app. Qed.

(** The block used up its attempts; its backoff has not run out; neither. *)
Definition capped (now : Time) (a : Attempts) (r : BlockProcessingStatus) : bool :=
  negb (String.eqb (parkReason cfg r (a !! bp_BlockHash r) now) "").
Definition waiting (now : Time) (a : Attempts) (r : BlockProcessingStatus) : bool :=
  timeBefore now (nextEligibleAt (fetch (bp_BlockHash r) a)).
Definition due (now : Time) (a : Attempts) (r : BlockProcessingStatus) : bool :=
  negb (capped now a r) && negb (waiting now a r).

(** Parking changes neither. *)
Definition alike (a a1 : Attempts) : Prop :=
  ∀ h, total (fetch h a) = total (fetch h a1) ∧ nextEligibleAt (fetch h a) = nextEligibleAt (fetch h a1).

Lemma parkReason_fetch now a r : parkReason cfg r (a !! bp_BlockHash r) now = parkReason cfg r (Some (fetch (bp_BlockHash r) a)) now.
Proof. unfold parkReason, fetch. by destruct (a !! bp_BlockHash r). Qed.

Lemma due_alike now a a1 r : alike a a1 -> due now a r = due now a1 r ∧ capped now a r = capped now a1 r.
Proof.
  intros H. destruct (H (bp_BlockHash r)) as [Et En]. unfold due, capped, waiting. rewrite !parkReason_fetch, En.
  unfold parkReason. by rewrite Et.
Qed.

Lemma filterRow_spec now a r a1 el nw :
  filterRow cfg now a r = (a1, el, nw) ->
  el = due now a r ∧ nw = capped now a r && negb (parked (fetch (bp_BlockHash r) a)) ∧ alike a a1 ∧
  ∀ h, parked (fetch h a1) = parked (fetch h a) || (capped now a r && String.eqb h (bp_BlockHash r)).
Proof.
  unfold filterRow, due. fold (capped now a r). destruct (capped now a r) eqn:Ec; intros E; injection E as <- <- <-; cbn [negb andb].
  - split_and!; [done|unfold fetch; by destruct (a !! bp_BlockHash r)| |].
    + intros h. unfold fetch. destruct (decide (h = bp_BlockHash r)) as [->|Hne];
        [rewrite lookup_insert_eq; by destruct (a !! bp_BlockHash r)|by rewrite lookup_insert_ne].
    + intros h. unfold fetch. destruct (String.eqb_spec h (bp_BlockHash r)) as [->|Hne];
        [rewrite lookup_insert_eq; by rewrite orb_true_r|]. rewrite lookup_insert_ne by done. by rewrite orb_false_r.
  - split_and!; [unfold waiting, fetch; destruct (a !! bp_BlockHash r); [done|by destruct now]|done|done|]. intros h. by rewrite orb_false_r.
Qed.

Lemma filterEligible_exact now rows a a' el np :
  filterEligible cfg now a rows = (a', el, np) ->
  el = List.filter (due now a) rows ∧
  ∀ h, h ∈ np ↔ ∃ r, r ∈ rows ∧ bp_BlockHash r = h ∧ capped now a r = true ∧ parked (fetch h a) = false.
Proof.
  revert a a' el np. induction rows as [|r rest IH]; intros a a' el np E; cbn [filterEligible] in E.
  { injection E as <- <- <-. split; [done|]. intros h. split; [intros Hh; by apply elem_of_nil in Hh|].
    intros (r & Hr & _). by apply elem_of_nil in Hr. }
  destruct (filterRow cfg now a r) as [[a1 e1] nw] eqn:Er.
  destruct (filterEligible cfg now a1 rest) as [[a2 out] np'] eqn:Eo. injection E as <- <- <-.
  destruct (filterRow_spec _ _ _ _ _ _ Er) as (-> & -> & Hal & Hpk). destruct (IH _ _ _ _ Eo) as (-> & Hnp). split.
  - cbn [List.filter]. rewrite (List.filter_ext (due now a1) (due now a)); [by destruct (due now a r)|].
    intros x. symmetry. by apply due_alike.
  - intros h. rewrite elem_of_app, Hnp. split.
    + intros [Hh|(x & Hx & <- & Hc & Hp)].
      * destruct (capped now a r) eqn:Ec, (parked (fetch (bp_BlockHash r) a)) eqn:Ep; cbn in Hh;
          try (by apply elem_of_nil in Hh). apply list_elem_of_singleton in Hh as ->.
        exists r. split_and!; [apply list_elem_of_here|done..].
      * rewrite Hpk in Hp. apply orb_false_iff in Hp as [Hp _]. exists x.
        split_and!; [by apply list_elem_of_further|done| |done]. by rewrite (proj2 (due_alike now a a1 x Hal)).
    + intros (x & Hx & <- & Hc & Hp).
      destruct (String.eqb_spec (bp_BlockHash x) (bp_BlockHash r)) as [Eh|Hne].
      * destruct (capped now a r) eqn:Ec.
        -- left. cbn [andb]. rewrite <-Eh, Hp. cbn. rewrite Eh. apply list_elem_of_here.
        -- right. apply elem_of_cons in Hx as [->|Hx]; [congruence|]. exists x.
           split_and!; [done|done|by rewrite <-(proj2 (due_alike now a a1 x Hal))|]. by rewrite Hpk, Hp.
      * right. apply elem_of_cons in Hx as [->|Hx]; [done|]. exists x.
        split_and!; [done|done|by rewrite <-(proj2 (due_alike now a a1 x Hal))|].
        rewrite Hpk, Hp. rewrite (proj2 (String.eqb_neq _ _)) by done. by rewrite andb_false_r.
Qed.

(** ** The calls of a tick *)

Definition extends (tr tr' : WTrace) (reqs parks : list string) : Prop :=
  tr `prefix_of` tr' ∧ requested tr' = requested tr ++ reqs ∧ parkedBy tr' = parkedBy tr ++ parks.

Lemma extends_refl tr : extends tr tr [] [].
Proof. split_and!; [done|by rewrite app_nil_r..]. Qed.
Lemma extends_trans t1 t2 t3 r1 r2 p1 p2 : extends t1 t2 r1 p1 -> extends t2 t3 r2 p2 -> extends t1 t3 (r1 ++ r2) (p1 ++ p2).
Proof. intros (H1 & E1 & F1) (H2 & E2 & F2). split_and!; [by etrans|by rewrite E2, E1, app_assoc|by rewrite F2, F1, app_assoc]. Qed.
Lemma extends_snoc tr e : extends tr (tr ++ [e]) (requested [e]) (parkedBy [e]).
Proof. split_and!; [by apply prefix_app_r|apply requested_app|apply parkedBy_app]. Qed.

Lemma reprocessOne_calls row a tr (Q : unit -> Attempts -> WTrace -> Prop) :
  (∀ a' tr', extends tr tr' [bp_BlockHash row] [] -> Q tt a' tr') ->
  ewp G R (reprocessOne cfg callbackURL callbackTok row) a tr Q.
Proof.
  intros HQ. unfold reprocessOne. cbv zeta. wp_go. wp_ask err idtac. wp_go. wp_ask now idtac.
  set (tr2 := (tr ++ [_]) ++ [_]).
  assert (extends tr tr2 [bp_BlockHash row] []) as H2.
  { exact (extends_trans _ _ _ _ _ _ _ (extends_snoc tr _) (extends_snoc _ _)). }
  clearbody tr2.
  assert (∀ c d a0, ewp G R (recordDelay (bp_BlockHash row) now c d) a0 tr2 Q) as Hrec.
  { intros c d a0. unfold recordDelay, proportionalJitter. wp_go.
    destruct (d <=? 0)%Z; [wp_go; by apply HQ|]. destruct (_ <=? 0)%Z; [wp_go; by apply HQ|].
    wp_go. wp_ask n idtac. wp_go. apply HQ. exact (extends_trans _ _ _ _ _ _ _ H2 (extends_snoc _ _)). }
  destruct err as [[code|]|].
  - destruct (_ || _); [apply Hrec|]. destruct (_ && _); [apply Hrec|]. unfold recordTransientFailure. wp_go. apply Hrec.
  - unfold recordTransientFailure. wp_go. apply Hrec.
  - unfold recordSuccess. wp_go. by apply HQ.
Qed.

Lemma reprocessAll_calls rows a tr (Q : unit -> Attempts -> WTrace -> Prop) :
  (∀ a' tr', extends tr tr' (List.map bp_BlockHash rows) [] -> Q tt a' tr') ->
  ewp G R (reprocessAll cfg callbackURL callbackTok rows) a tr Q.
Proof.
  revert a tr. induction rows as [|r rest IH]; intros a tr HQ; cbn [reprocessAll].
  { wp_go. apply HQ, extends_refl. }
  wp_go. apply reprocessOne_calls. intros a1 tr1 H1. apply IH. intros a2 tr2 H2. apply HQ.
  exact (extends_trans _ _ _ _ _ _ _ H1 H2).
Qed.

Definition listing (e : event wanswer) : option (Time * Z * Z * Res (list BlockProcessingStatus)) :=
  match ev_call e as c return wanswer c -> option (Time * Z * Z * Res (list BlockProcessingStatus)) with
  | wListStaleBlockProcessingStatus o m l => fun x => Some (o, m, l, x)
  | _ => fun _ => None
  end (ev_answer e).

(** The requests and parks of a tick, from what it listed. *)
Definition tickExact (a : Attempts) (tr : WTrace) : Prop :=
  ∀ olderThan minHeight limit rows,
    tr !! 2%nat = Some (Event (wListStaleBlockProcessingStatus olderThan minHeight limit) (Ok rows)) ->
    ∃ now, tr !! 0%nat = Some (Event wNow now) ∧ olderThan = timeAdd now (- StaleThreshold cfg) ∧ limit = BatchSize cfg ∧
      requested tr ≡ₚ List.map bp_BlockHash (List.filter (due now a) rows) ∧
      ∀ h, h ∈ parkedBy tr ↔ ∃ r, r ∈ rows ∧ bp_BlockHash r = h ∧ capped now a r = true ∧ parked (fetch h a) = false.

Lemma runOnce_exact a : ewp G R (runOnce cfg callbackURL callbackTok) a [] (fun _ _ tr => tickExact a tr).
Proof.
  unfold runOnce. wp_go. wp_ask now idtac. wp_go. wp_ask tip idtac. destruct tip as [tip|e]; [|wp_go; by intros ????].
  cbv zeta. wp_go. wp_ask r idtac. cbn [app]. set (m := if (_ <? tip)%Z then _ else _).
  set (ls := wListStaleBlockProcessingStatus _ _ _).
  set (tr3 := [Event wNow now; Event wGetActiveTipBlockHeight (Ok tip); Event ls r]).
  assert (∀ rows tr' reqs parks, r = Ok rows -> extends tr3 tr' reqs parks ->
    reqs ≡ₚ List.map bp_BlockHash (List.filter (due now a) rows) ->
    (∀ h, h ∈ parks ↔ ∃ r, r ∈ rows ∧ bp_BlockHash r = h ∧ capped now a r = true ∧ parked (fetch h a) = false) ->
    tickExact a tr') as Hend.
  { intros rows tr' reqs parks -> ([k ->] & Er & Ep) Hreq Hpk o m' l rows' E.
    apply (f_equal (fun x => x ≫= listing)) in E. cbn in E. injection E as <- <- <- <-.
    exists now. rewrite Er, Ep. by split_and!. }
  destruct r as [[|first more]|e].
  - unfold gc. wp_go. eapply (Hend [] _ [] []); [done|apply extends_refl|done|].
    intros h. split; [intros Hh; by apply elem_of_nil in Hh|]. intros (x & Hx & _). by apply elem_of_nil in Hx.
  - wp_go. destruct (filterEligible cfg now a (first :: more)) as [[a1 el] np] eqn:Ef.
    destruct (filterEligible_exact _ _ _ _ _ _ Ef) as (Eel & Hnp). wp_go.
    assert (∀ tr4, extends tr3 tr4 [] np -> ewp G R
      (if (length el =? 0)%nat then gc now else _ ← dispatch cfg callbackURL callbackTok el; gc now) a1 tr4
      (fun _ _ tr => tickExact a tr)) as Hgo.
    { intros tr4 H4. destruct (Nat.eqb_spec (length el) 0) as [E0%nil_length_inv|_].
      - unfold gc. wp_go. eapply Hend; [done|exact H4| |exact Hnp]. by rewrite <-Eel, E0.
      - unfold dispatch. wp_go. wp_ask ord idtac. destruct ord as [l Hp]. apply reprocessAll_calls. intros a5 tr5 H5.
        unfold gc. wp_go. eapply Hend; [done|exact (extends_trans _ _ _ _ _ _ _ H4 (extends_trans _ _ _ _ _ _ _ (extends_snoc tr4 _) H5))| |].
        + transitivity (List.map bp_BlockHash l); [done|]. by rewrite Hp, Eel.
        + intros h. cbn. by rewrite app_nil_r. }
    destruct (Nat.ltb_spec 0 (length np)).
    + wp_go. wp_ask x idtac. wp_go. apply Hgo. pose proof (extends_snoc tr3 (Event (wMarkBlocksParked np) x)) as H4.
      cbn in H4. by rewrite app_nil_r in H4.
    + wp_go. assert (np = []) as -> by (apply nil_length_inv; lia). apply Hgo, extends_refl.
  - wp_go. intros o m' l rows E. apply (f_equal (fun x => x ≫= listing)) in E. cbn in E. discriminate.
Qed.
End Tick.

(** ** Backoff *)

Section Backoff.
Context (cfg : Config) (callbackURL callbackTok : string).
Let G : WTrace -> wcall -> Prop := fun _ _ => True.
Let R : WTrace -> event wanswer -> Prop := fun _ _ => True.

Lemma transientBackoff_bounds initial maxB f :
  (0 < initial <= maxB)%Z -> (1 <= f)%Z ->
  (initial <= transientBackoff initial maxB f <= maxB)%Z ∧
  (transientBackoff initial maxB f <= transientBackoff initial maxB (f + 1))%Z.
Proof.
  intros Hi Hf. assert (∀ k, (0 <= k)%Z -> (initial <= initial * 2 ^ k)%Z) as Hpow.
  { intros k Hk. pose proof (Z.pow_pos_nonneg 2 k ltac:(lia) Hk). nia. }
  assert (∀ g, (1 < g)%Z -> transientBackoff initial maxB g = Z.min maxB (initial * 2 ^ (g - 1)))%Z as Hgt.
  { intros g Hg. unfold transientBackoff. rewrite (proj2 (Z.leb_gt _ _)) by lia.
    pose proof (Hpow (g - 1)%Z ltac:(lia)). rewrite (proj2 (Z.leb_gt _ _)) by lia. cbn [orb].
    destruct (Z.ltb_spec maxB (initial * 2 ^ (g - 1))); lia. }
  assert (transientBackoff initial maxB 1 = initial) as H1 by done.
  destruct (Z.eq_dec f 1) as [->|Hne].
  - rewrite H1, Hgt by lia. pose proof (Hpow 1%Z ltac:(lia)). change (1 + 1 - 1)%Z with 1%Z. lia.
  - rewrite !Hgt by lia. pose proof (Hpow (f - 1)%Z ltac:(lia)).
    replace (f + 1 - 1)%Z with (Z.succ (f - 1))%Z by lia. rewrite Z.pow_succ_r by lia. nia.
Qed.

(** The delay of an outcome before jitter. *)
Definition baseDelay (err : option reprocessFailure) (failuresSoFar : Z) : Z :=
  match err with
  | None => StaleThreshold cfg
  | Some (ReprocessError code) =>
      if (code =? 401)%Z || (code =? 403)%Z then InitialBackoff cfg
      else if (400 <=? code)%Z && (code <? 500)%Z then TerminalBackoff cfg
      else transientBackoff (InitialBackoff cfg) (MaxBackoff cfg) (failuresSoFar + 1)
  | Some ReprocessUnreachable => transientBackoff (InitialBackoff cfg) (MaxBackoff cfg) (failuresSoFar + 1)
  end.

Definition counts (err : option reprocessFailure) : Z :=
  match err with
  | Some (ReprocessError code) => if (code =? 401)%Z || (code =? 403)%Z then 0 else 1
  | _ => 1
  end.

(** What one attempt leaves in memory. *)
Definition attempted (h : string) (a a' : Attempts) (err : option reprocessFailure) (now : Time) : Prop :=
  let st := fetch h a in
  let base := baseDelay err (failures st) in
  ∃ j, a' = <[h := mkAttemptState now (match err with None => 0 | Some _ => failures st + 1 end)%Z
                     (timeAdd now j) (total st + counts err) (parked st)]> a ∧
    (j = base ∨ err ≠ None ∧ (base - base / 5 <= j <= base + base / 5)%Z).

Lemma jitter_bounds d tr (Q : Z -> WTrace -> Prop) :
  (∀ j tr', tr `prefix_of` tr' -> j = d ∨ (d - d / 5 <= j <= d + d / 5)%Z -> Q j tr') ->
  wp G R (proportionalJitter d) tr Q.
Proof.
  intros HQ. unfold proportionalJitter, jitterSpread. destruct (Z.leb_spec d 0); [wp_go; apply HQ; auto|].
  destruct (Z.leb_spec (d / 5) 0); [wp_go; apply HQ; auto|]. wp_go. wp_ask n idtac. destruct n as [n Hn]. wp_go. cbn [proj1_sig].
  pose proof Hn as Hn'. rewrite Z2Pos.id in Hn' by lia. apply HQ; [by apply prefix_app_r|]. destruct (Z.leb_spec (d + (n - d / 5)) 0); [auto|]. right. lia.
Qed.

Lemma reprocessOne_attempted row a :
  ewp G R (reprocessOne cfg callbackURL callbackTok row) a [] (fun _ a' tr =>
    ∃ err now, tr !! 0%nat = Some (Event (wReprocess (bp_BlockHash row) callbackURL callbackTok) err) ∧
               tr !! 1%nat = Some (Event wNow now) ∧ attempted (bp_BlockHash row) a a' err now).
Proof.
  unfold reprocessOne. cbv zeta. wp_go. wp_ask err idtac. wp_go. wp_ask now idtac. cbn [app].
  assert (∀ c d, err ≠ None -> c = counts err -> d = baseDelay err (failures (fetch (bp_BlockHash row) a)) ->
    ewp G R (recordDelay (bp_BlockHash row) now c d) a
      [Event (wReprocess (bp_BlockHash row) callbackURL callbackTok) err; Event wNow now] (fun _ a' tr =>
      ∃ err now, tr !! 0%nat = Some (Event (wReprocess (bp_BlockHash row) callbackURL callbackTok) err) ∧
               tr !! 1%nat = Some (Event wNow now) ∧ attempted (bp_BlockHash row) a a' err now)) as Hrec.
  { intros c d Hne -> ->. unfold recordDelay. wp_go. apply jitter_bounds. intros j tr' [k ->] Hj. wp_go.
    exists err, now. split_and!; [done|done|]. exists j. split; [|by destruct Hj; auto]. by destruct err. }
  destruct err as [[code|]|].
  - unfold counts, baseDelay in Hrec. destruct (_ || _); [by apply Hrec|]. destruct (_ && _); [by apply Hrec|].
    unfold recordTransientFailure. wp_go. by apply Hrec.
  - unfold recordTransientFailure. wp_go. by apply Hrec.
  - unfold recordSuccess. wp_go. exists None, now. split_and!; [done|done|]. exists (StaleThreshold cfg). auto.
Qed.
End Backoff.

(** ** Theorems *)

(** Whatever was answered and however often the service ran, in every
    run of the watchdog, cut short or not: a block is re-driven only after the
    store listed it as stale for a threshold taken from the clock, and only
    while the lease was granted; and a block is parked only after at least
    one request for it that was not refused for its token, and then because
    as many requests as allowed were made or its header is too old. *)
Theorem watchdog_requests_backed cfg leaser holderID callbackURL callbackTok ticks tr1 e tr2 :
  begins (Run cfg leaser holderID callbackURL callbackTok ticks ∅) (tr1 ++ e :: tr2) ->
  watchAllowed cfg leaser holderID callbackURL callbackTok tr1 (ev_call e).
Proof.
  intros Hb. eapply (wp_begins _ _ _ (tr1 ++ e :: tr2)); [apply Run_wp|done|done|done].
  intros h st. by rewrite lookup_empty.
Qed.

(** A tick of the leader treats every block the store listed in exactly
    one way: it is asked for again if it has attempts left and its backoff
    has run out, it is parked if it has none left and was not parked yet, and
    it is left alone otherwise; and nothing else is asked for or parked. *)
Theorem watchdog_tick_exact cfg callbackURL callbackTok a tr a' :
  ends (runOnce cfg callbackURL callbackTok a) tr (tt, a') -> tickExact cfg a tr.
Proof.
  intros He. apply (wp_ends (fun _ _ => True) (fun _ _ => True) _ _ _ (fun _ tr => tickExact cfg a tr)) in He; [done| |done].
  eapply wp_mono; [apply runOnce_exact|]. by intros [??].
Qed.

(** What one request leaves behind, on every outcome: the entry of that
    block alone, with the attempt counted unless the token was refused, and a
    backoff of the configured length give or take a fifth; until that time
    less a fifth the block is not due again, and the transient backoff lies
    between its two bounds and grows with the failures. *)
Theorem watchdog_backoff cfg callbackURL callbackTok row a tr a' :
  (0 < InitialBackoff cfg <= MaxBackoff cfg)%Z -> (0 < StaleThreshold cfg)%Z -> (0 < TerminalBackoff cfg)%Z ->
  (0 <= failures (fetch (bp_BlockHash row) a))%Z ->
  ends (reprocessOne cfg callbackURL callbackTok row a) tr (tt, a') ->
  ∃ err now, attempted cfg (bp_BlockHash row) a a' err now ∧
    (Z.min (Z.min (InitialBackoff cfg) (StaleThreshold cfg)) (TerminalBackoff cfg) <= baseDelay cfg err (failures (fetch (bp_BlockHash row) a)))%Z ∧
    ∀ t, (UnixNano now <= t)%Z ->
      (t < UnixNano now + baseDelay cfg err (failures (fetch (bp_BlockHash row) a)) -
           baseDelay cfg err (failures (fetch (bp_BlockHash row) a)) / 5)%Z ->
      waiting (Some t) a' row = true.
Proof.
  intros HI HS HT Hf He.
  apply (wp_ends (fun _ _ => True) (fun _ _ => True) _ _ _ (fun r tr => ∃ err now,
    tr !! 0%nat = Some (Event (wReprocess (bp_BlockHash row) callbackURL callbackTok) err) ∧
    tr !! 1%nat = Some (Event wNow now) ∧ attempted cfg (bp_BlockHash row) a r.2 err now)) in He; [|
    eapply wp_mono; [apply reprocessOne_attempted|]; by intros [??]|done].
  destruct He as (err & now & _ & _ & Ha). exists err, now.
  assert (Z.min (Z.min (InitialBackoff cfg) (StaleThreshold cfg)) (TerminalBackoff cfg)
          <= baseDelay cfg err (failures (fetch (bp_BlockHash row) a)))%Z as Hb.
  { unfold baseDelay. pose proof (transientBackoff_bounds _ _ (failures (fetch (bp_BlockHash row) a) + 1) HI ltac:(lia)).
    destruct err as [[code|]|]; [|lia..]. destruct (_ || _); [lia|]. destruct (_ && _); lia. }
  split_and!; [done|done|]. intros t Ht1 Ht2. destruct Ha as (j & Ea & Hj). simpl in Ea. subst a'. unfold waiting, fetch.
  rewrite lookup_insert_eq. cbn. apply Z.ltb_lt. set (b := baseDelay cfg err _) in *.
  assert (0 <= b / 5)%Z by (apply Z.div_pos; lia). destruct Hj as [->|[_ Hj]]; lia.
Qed.

(** *** One stale block, for the examples below *)

Definition wdRow : BlockProcessingStatus :=
  mkBlockProcessingStatus "blk" 9 (Some 1%Z) None None BlockStatusActive None None.
Definition wdEnv (c : wcall) : wanswer c :=
  match c with
  | wTryAcquireOrRenew _ _ _ => Ok (Some 99%Z)
  | wRelease _ _ => None
  | wNow => Some 1000000000000%Z
  | wInt63n n => exist _ 0%Z (conj (Z.le_refl 0) (Pos2Z.is_pos n))
  | wSchedule rows => exist _ rows (Permutation_refl rows)
  | wWait _ => true
  | wGetActiveTipBlockHeight => Ok 9%Z
  | wListStaleBlockProcessingStatus _ _ _ => Ok [wdRow]
  | wMarkBlocksParked _ => None
  | wReprocess _ _ _ => Some (ReprocessError 404)
  end.
Definition wdHandle (c : wcall) (s : unit) : wanswer c * unit := (wdEnv c, s).
Definition wdConfig : Config := ResolveConfig (mkWatchdogConfig 0 0 0 0 0 0 0 0 0 10 0).

Lemma watchdog_requests_backed_witness :
  let tr := run_trace wdHandle (Run wdConfig true "me" "u" "t" 1 ∅) tt in
  ev_call <$> tr !! 5%nat = Some (wReprocess "blk" "u" "t") ∧
  watchAllowed wdConfig true "me" "u" "t" (take 5 tr) (wReprocess "blk" "u" "t").
Proof.
  split; [vm_compute; reflexivity|].
  apply (watchdog_requests_backed wdConfig true "me" "u" "t" 1
    (take 5 (run_trace wdHandle (Run wdConfig true "me" "u" "t" 1 ∅) tt))
    (Event (wReprocess "blk" "u" "t") (Some (ReprocessError 404)))
    (drop 6 (run_trace wdHandle (Run wdConfig true "me" "u" "t" 1 ∅) tt))).
  exists (Ret (run wdHandle (Run wdConfig true "me" "u" "t" 1 ∅) tt).1).
  pose proof (run_ends wdHandle (Run wdConfig true "me" "u" "t" 1 ∅) tt) as He.
  rewrite <-(take_drop_middle (run_trace wdHandle (Run wdConfig true "me" "u" "t" 1 ∅) tt) 5
    (Event (wReprocess "blk" "u" "t") (Some (ReprocessError 404)))) in He by (vm_compute; reflexivity).
  exact He.
Defined.

Lemma watchdog_tick_exact_witness :
  let tr := run_trace wdHandle (runOnce wdConfig "u" "t" ∅) tt in
  requested tr = ["blk"] ∧ tickExact wdConfig ∅ tr.
Proof.
  split; [vm_compute; reflexivity|].
  apply (watchdog_tick_exact wdConfig "u" "t" ∅ _ (run wdHandle (runOnce wdConfig "u" "t" ∅) tt).1.2).
  pose proof (run_ends wdHandle (runOnce wdConfig "u" "t" ∅) tt) as He.
  by destruct (run wdHandle (runOnce wdConfig "u" "t" ∅) tt) as [[[] s'] u].
Defined.

Lemma watchdog_backoff_witness :
  ∃ err now, attempted wdConfig "blk" ∅ (run wdHandle (reprocessOne wdConfig "u" "t" wdRow ∅) tt).1.2 err now.
Proof.
  destruct (watchdog_backoff wdConfig "u" "t" wdRow ∅ (run_trace wdHandle (reprocessOne wdConfig "u" "t" wdRow ∅) tt)
    (run wdHandle (reprocessOne wdConfig "u" "t" wdRow ∅) tt).1.2) as (err & now & Ha & _).
  - vm_compute. split; congruence.
  - reflexivity.
  - reflexivity.
  - vm_compute. congruence.
  - pose proof (run_ends wdHandle (reprocessOne wdConfig "u" "t" wdRow ∅) tt) as He.
    by destruct (run wdHandle (reprocessOne wdConfig "u" "t" wdRow ∅) tt) as [[[] s'] u].
  - exists err, now. exact Ha.
Defined.
