(* ===== verification/WatchdogStore.v ===== *)
(** * WatchdogStore: the watchdog over the Pebble store

    The watchdog's tick with its store calls answered by the Pebble backend:
    what [ListStaleBlockProcessingStatus] lists, and that a block the builder
    left un-stamped is asked for again. *)
From stdpp Require Import base gmap strings list sorting.
From Stdlib Require Import ZArith Lia.
From S2P Require Import Prelude Models Keys Engine PebbleBlocks PebbleBlocksInv PebbleBlocksProps Effects Watchdog WatchdogProps.

Section Store.
Context {DB : Type} `{EngineReliable DB}.
Context (sortSlice : (storedBlockProcessing -> storedBlockProcessing -> bool) ->
                     list storedBlockProcessing -> list storedBlockProcessing).
(** What [sort.Slice] promises: a permutation in order. *)
Context (sortSlice_perm : ∀ less l, sortSlice less l ≡ₚ l).

Lemma staleLoop_walk d t m l bs out :
  blk_ok (view d) -> Forall2 (blk_walk d) l.*1 bs ->
  staleLoop d None t m out l = Ok (out ++ List.filter (isStale t m) bs).
Proof.
  intros Hok Hw. remember l.*1 as ks eqn:Ek. revert l out Ek.
  induction Hw as [|k b ks bs Hk _ IH]; intros [|[k' v] l] out Ek; try done.
  { cbn [staleLoop List.filter]. by rewrite app_nil_r. }
  rewrite fmap_cons in Ek. injection Ek as -> Ek. cbn [fst] in *.
  cbn [staleLoop ctx_err ctx_tick List.filter]. rewrite (blk_walk_read d _ b) by done. rewrite IH by done.
  destruct (isStale t m b); [by rewrite <-app_assoc|done].
Qed.

(** The listing: the stale rows, oldest header first, cut at the limit. *)
Lemma ListStale_spec t m limit d :
  blk_ok (view d) -> (0 < limit)%Z ->
  ∃ bs, ListStaleBlockProcessingStatus sortSlice background t m limit d =
          Ok (storedBlockProcessing_toModel <$> take (Z.to_nat limit)
                (sortSlice (fun a b => sp_HeaderSeenUnixNs a <? sp_HeaderSeenUnixNs b)%Z
                   (List.filter (isStale (UnixNano t) m) bs))) ∧ listed d 0 bs.
Proof.
  intros Hok Hl. unfold ListStaleBlockProcessingStatus, background. cbn [ctx_err ctx_tick].
  rewrite (proj2 (Z.leb_gt limit 0)) by lia.
  destruct (iter_total d idxBlockProcHeightPrefix (endOfPrefix idxBlockProcHeightPrefix)) as [l El]. rewrite El.
  destruct (height_scan d 0 l Hok) as (bs & Hw & Hlisted); [unfold is_u64; lia|by apply iter_sound in El|].
  exists bs. split; [|done]. by rewrite (staleLoop_walk d _ _ l bs [] Hok Hw).
Qed.

(** The store's calls answered by the store, the others by [env]. *)
Definition storeHandle (env : ∀ c, wanswer c) (c : wcall) (d : DB) : wanswer c * DB :=
  match c with
  | wGetActiveTipBlockHeight => (GetActiveTipBlockHeight background d, d)
  | wListStaleBlockProcessingStatus t m l => (ListStaleBlockProcessingStatus sortSlice background t m l d, d)
  | wMarkBlocksParked hs =>
      let '(r, d) := MarkBlocksParked background hs d in
      (match r with Ok _ => None | Err e => Some e end, d)
  | c => (env c, d)
  end.

Context (cfg : Config) (callbackURL callbackTok : string) (env : ∀ c, wanswer c).

Lemma runOnce_listing a d tip :
  GetActiveTipBlockHeight background d = Ok tip ->
  let t := timeAdd (env wNow) (- StaleThreshold cfg) in
  let m := if (RecencyDepth cfg <? tip)%Z then (tip - RecencyDepth cfg)%Z else 0%Z in
  run_trace (storeHandle env) (runOnce cfg callbackURL callbackTok a) d !! 2%nat
  = Some (Event (wListStaleBlockProcessingStatus t m (BatchSize cfg))
            (ListStaleBlockProcessingStatus sortSlice background t m (BatchSize cfg) d)) ∧
  run_trace (storeHandle env) (runOnce cfg callbackURL callbackTok a) d !! 0%nat = Some (Event wNow (env wNow)).
Proof.
  intros Et t m. unfold runOnce, mbind, eff_bind, lift. cbn -[GetActiveTipBlockHeight ListStaleBlockProcessingStatus filterEligible dispatch Z.ltb Z.sub Z.opp timeAdd].
  rewrite Et. cbn -[ListStaleBlockProcessingStatus filterEligible dispatch Z.ltb Z.sub Z.opp timeAdd]. fold m t.
  destruct (ListStaleBlockProcessingStatus _ _ _ _ _ _); done.
Qed.

(** The row is stale for the watchdog at time [now]. *)
Definition overdue (now : Time) (tip : Z) (b : storedBlockProcessing) : Prop :=
  sp_Status b = BlockStatusActive ∧ sp_ProcessedUnixNs b = 0%Z ∧ sp_HeaderSeenUnixNs b ≠ 0%Z ∧
  (sp_HeaderSeenUnixNs b < UnixNano now - StaleThreshold cfg)%Z ∧ (tip - RecencyDepth cfg <= sp_BlockHeight b)%Z.

Lemma overdue_stale now tip b :
  overdue now tip b -> (0 <= sp_BlockHeight b)%Z ->
  isStale (UnixNano (timeAdd now (- StaleThreshold cfg))) (if (RecencyDepth cfg <? tip)%Z then (tip - RecencyDepth cfg)%Z else 0%Z) b
  = true.
Proof.
  intros (E1 & E2 & E3 & E4 & E5) Hh. unfold isStale, timeAdd. cbn [UnixNano].
  rewrite E1, E2, (proj2 (Z.eqb_neq _ _) E3), (proj2 (Z.leb_gt _ _)) by lia. cbn.
  rewrite (proj2 (Z.ltb_ge _ _)); [done|]. destruct (Z.ltb_spec (RecencyDepth cfg) tip); lia.
Qed.
End Store.

(** ** Theorems *)

(** C28: a block that stays un-stamped comes back: over the Pebble store, a
    tick of the leader asks merkle-service again for every stored active
    block that has no [processed_at], whose header was seen longer ago than
    the threshold and which lies within the recency depth of the tip, if it
    has attempts left, its backoff has run out and one tick takes
    as many rows as there are un-stamped ones. *)
Theorem watchdog_redrives_unstamped {DB : Type} `{EngineReliable DB} sortSlice cfg callbackURL callbackTok
    (env : ∀ c, wanswer c) (d : DB) a h b tip :
  (∀ less l, sortSlice less l ≡ₚ l) -> blk_ok (view d) -> (0 < BatchSize cfg)%Z ->
  GetActiveTipBlockHeight background d = Ok tip ->
  view d !! blockProcKey h = Some (PBlockProc b) -> overdue cfg (env wNow) tip b ->
  (∀ l, NoDup l -> (∀ x, x ∈ l -> ∃ k, view d !! blockProcKey k = Some (PBlockProc x) ∧ sp_ProcessedUnixNs x = 0%Z) ->
     (Z.of_nat (length l) <= BatchSize cfg)%Z) ->
  due cfg (env wNow) a (storedBlockProcessing_toModel b) = true ->
  h ∈ requested (run_trace (storeHandle sortSlice env) (runOnce cfg callbackURL callbackTok a) d).
Proof.
  intros Hsort Hok Hb Ht Hrow Hover Hfew Hdue.
  set (tr := run_trace _ _ d). set (t := timeAdd (env wNow) (- StaleThreshold cfg)).
  set (m := if (RecencyDepth cfg <? tip)%Z then (tip - RecencyDepth cfg)%Z else 0%Z).
  destruct (runOnce_listing sortSlice cfg callbackURL callbackTok env a d tip Ht) as [El E0]. fold m t tr in El, E0.
  destruct (ListStale_spec sortSlice t m (BatchSize cfg) d Hok Hb) as (bs & Els & Hs & Hnd & Hin). rewrite Els in El.
  pose proof (run_ends (storeHandle sortSlice env) (runOnce cfg callbackURL callbackTok a) d) as He. fold tr in He.
  apply (wp_ends (fun _ _ => True) (fun _ _ => True) _ _ _ (fun _ tr => tickExact cfg a tr)) in He;
    [|eapply wp_mono; [apply runOnce_exact|]; by intros [??]|done].
  destruct (He _ _ _ _ El) as (now & Enow & _ & _ & Hreq & _).
  assert (now = env wNow) as ->.
  { rewrite E0 in Enow. apply (f_equal (fun x => x ≫= fun e => match ev_call e as c return wanswer c -> option Time with
      wNow => fun x => Some x | _ => fun _ => None end (ev_answer e))) in Enow. cbn in Enow. by injection Enow. }
  destruct (blk_row _ _ _ Hok Hrow) as (<- & _ & Hu). rewrite Hreq, list_elem_of_In, in_map_iff.
  exists (storedBlockProcessing_toModel b). split; [done|]. apply filter_In. split; [|done].
  apply list_elem_of_In, list_elem_of_fmap. exists b. split; [done|].
  assert (b ∈ bs) as Hbs by (apply Hin; auto).
  set (stale := List.filter (isStale (UnixNano t) m) bs).
  assert (b ∈ stale) as Hst.
  { apply list_elem_of_In, filter_In. split; [by apply list_elem_of_In|]. apply overdue_stale; [done|]. destruct Hu. lia. }
  rewrite take_ge; [by rewrite Hsort|]. rewrite Hsort. fold stale.
  enough (Z.of_nat (length stale) <= BatchSize cfg)%Z by lia. apply Hfew.
  - apply NoDup_ListNoDup. apply List.NoDup_filter. by apply NoDup_ListNoDup.
  - intros x Hx%list_elem_of_In. apply filter_In in Hx as [Hx Es]. apply list_elem_of_In, Hin in Hx as [Hx _].
    exists (sp_BlockHash x). split; [done|]. unfold isStale in Es. apply andb_true_iff in Es as [Es _].
    apply andb_true_iff in Es as [Es _]. apply andb_true_iff in Es as [_ Es]. by apply Z.eqb_eq.
Qed.

Lemma rows_bounded (m : gmap string payload) (l : list storedBlockProcessing) :
  NoDup l -> (∀ x, x ∈ l -> ∃ k, m !! k = Some (PBlockProc x)) ->
  (length l <= length (omap (fun kv => asBlockProc kv.2) (map_to_list m)))%nat.
Proof.
  intros Hnd Hl. apply NoDup_incl_length; [by apply NoDup_ListNoDup|]. intros x Hx%list_elem_of_In.
  destruct (Hl x Hx) as [k Hk]. apply list_elem_of_In, list_elem_of_omap.
  exists (k, PBlockProc x). split; [by apply elem_of_map_to_list|done].
Qed.

(** The block at height nine of the sample store, seen at time 12. *)
Lemma watchdog_redrives_unstamped_witness :
  "cc" ∈ requested (run_trace (storeHandle stableSort wdEnv) (runOnce wdConfig "u" "t" ∅) wBlocks).
Proof.
  apply (watchdog_redrives_unstamped (DB := MemDB) (fun less l => stableSort less l) wdConfig "u" "t" wdEnv wBlocks ∅ "cc"
    (mkStoredBlockProcessing "cc" 9 12 0 0 BlockStatusActive 0 0) 9).
  - intros less l. apply stableSort_perm.
  - exact wBlocks_ok.
  - reflexivity.
  - vm_compute. reflexivity.
  - vm_compute. reflexivity.
  - repeat split; try (vm_compute; congruence).
  - intros l Hnd Hl.
    assert (length (omap (fun kv => asBlockProc kv.2) (map_to_list (view wBlocks))) = 3%nat) as E by (vm_compute; reflexivity).
    assert (length l <= 3)%nat as Hlen; [|cbn; lia]. rewrite <-E. apply rows_bounded; [done|].
    intros x Hx. destruct (Hl x Hx) as (k & Hk & _). by exists (blockProcKey k).
  - vm_compute. reflexivity.
Defined.
