(* ===== verification/GoStrings.v ===== *)
(** * GoStrings: the parts of [strings] and [regexp] the services use

    A Go string is its bytes.  [strings.ToLower] is written for the ASCII
    letters, which is all it is applied to (hexadecimal ids).  A regular
    expression is a matcher that, at a position, gives the text it matches
    there; the expressions of the code match in one way only at a position
    (no repetition is followed by something it could itself match), so that
    leftmost-first matching needs no backtracking. *)
From stdpp Require Import base strings list.
From Stdlib Require Import Ascii ZArith Lia.
From S2P Require Import Prelude.

(** ** [strings] *)

Definition HasPrefix (s p : string) : bool := has_prefix p s.

Fixpoint Contains (s sub : string) : bool :=
  HasPrefix s sub || match s with EmptyString => false | String _ s' => Contains s' sub end.

(** [strings.Cut]: the text before and after the first [sep], and whether
    there is one. *)
Fixpoint Cut (s sep : string) : string * string * bool :=
  if HasPrefix s sep then ("", String.substring (String.length sep) (String.length s) s, true)
  else match s with
       | EmptyString => ("", "", false)
       | String c s' => let '(b, a, found) := Cut s' sep in (String c b, a, found)
       end.

Definition isUpper (c : ascii) : bool := let n := nat_of_ascii c in (65 <=? n)%nat && (n <=? 90)%nat.
Definition isLower (c : ascii) : bool := let n := nat_of_ascii c in (97 <=? n)%nat && (n <=? 122)%nat.
Definition isDigit (c : ascii) : bool := let n := nat_of_ascii c in (48 <=? n)%nat && (n <=? 57)%nat.
Definition isHex (c : ascii) : bool :=
  let n := nat_of_ascii c in isDigit c || ((65 <=? n)%nat && (n <=? 70)%nat) || ((97 <=? n)%nat && (n <=? 102)%nat).

Definition lowerAscii (c : ascii) : ascii := if isUpper c then ascii_of_nat (nat_of_ascii c + 32) else c.

Fixpoint ToLower (s : string) : string :=
  match s with
  | EmptyString => EmptyString
  | String c s' => String (lowerAscii c) (ToLower s')
  end.

(** [strings.Split(s, "\n")]. *)
Definition newline : ascii := "010"%char.
Fixpoint SplitLines (s : string) : list string :=
  match s with
  | EmptyString => [""]
  | String c s' =>
      if Ascii.eqb c newline then "" :: SplitLines s'
      else match SplitLines s' with
           | [] => [String c ""]
           | l :: ls => String c l :: ls
           end
  end.

(** [strings.TrimRight(s, "\n")]. *)
Fixpoint TrimRightNewlines (s : string) : string :=
  match s with
  | EmptyString => EmptyString
  | String c s' =>
      let t := TrimRightNewlines s' in
      if String.eqb t "" && Ascii.eqb c newline then "" else String c t
  end.

(** The UTF-8 encodings of the white space of [unicode.IsSpace]. *)
Definition bytesOf (l : list nat) : string := fold_right (fun n s => String (ascii_of_nat n) s) "" l.
Definition spaces : list string :=
  List.map bytesOf
    ([[9]; [10]; [11]; [12]; [13]; [32]; [194; 133]; [194; 160]; [225; 154; 128];
      [226; 128; 168]; [226; 128; 169]; [226; 128; 175]; [226; 129; 159]; [227; 128; 128]]
       ++ List.map (fun n => [226; 128; 128 + n]) (seq 0 11))%nat.

Fixpoint reverseString (s acc : string) : string :=
  match s with EmptyString => acc | String c s' => reverseString s' (String c acc) end.

(** Drops white space, given as encodings, from the front; every round drops
    a byte at least. *)
Fixpoint trimFront (fuel : nat) (sp : list string) (s : string) : string :=
  match fuel with
  | O => s
  | S fuel =>
      match List.find (HasPrefix s) sp with
      | None => s
      | Some p => trimFront fuel sp (String.substring (String.length p) (String.length s) s)
      end
  end.

Definition TrimSpace (s : string) : string :=
  let s := trimFront (String.length s) spaces s in
  let r := trimFront (String.length s) (List.map (fun p => reverseString p "") spaces) (reverseString s "") in
  reverseString r "".

(** ** [regexp] *)

(** The text matched at the start of the string and what follows it. *)
Definition Matcher : Type := string -> option (string * string).

Definition mClass (p : ascii -> bool) : Matcher := fun s =>
  match s with
  | String c s' => if p c then Some (String c "", s') else None
  | EmptyString => None
  end.

Definition mSeq (m1 m2 : Matcher) : Matcher := fun s =>
  match m1 s with
  | None => None
  | Some (a, s) => match m2 s with None => None | Some (b, s) => Some ((a ++ b)%string, s) end
  end.

Fixpoint mLit (lit : string) : Matcher := fun s =>
  match lit with
  | EmptyString => Some ("", s)
  | String c lit => mSeq (mClass (Ascii.eqb c)) (mLit lit) s
  end.

(** [m{n}] and the greedy [p{0,n}] and [p*] of a class. *)
Fixpoint mTimes (n : nat) (m : Matcher) : Matcher := fun s =>
  match n with
  | O => Some ("", s)
  | S n => mSeq m (mTimes n m) s
  end.

Fixpoint mUpTo (n : nat) (p : ascii -> bool) : Matcher := fun s =>
  match n, s with
  | S n, String c s' => if p c then mSeq (mClass p) (mUpTo n p) s else Some ("", s)
  | _, _ => Some ("", s)
  end.

Definition mStar (p : ascii -> bool) : Matcher := fun s => mUpTo (String.length s) p s.

(** [FindAllString(s, -1)]: the matches from left to right; after one the
    search goes on behind it.  [skip] bytes are still to be passed over. *)
Fixpoint findFrom (m : Matcher) (skip : nat) (s : string) : list string :=
  match s with
  | EmptyString => []
  | String c s' =>
      match skip with
      | S skip => findFrom m skip s'
      | O => match m s with
             | None => findFrom m 0 s'
             | Some (x, _) => x :: findFrom m (String.length x - 1) s'
             end
      end
  end.
Definition FindAllString (m : Matcher) (s : string) : list string := findFrom m 0 s.

Definition FindString (m : Matcher) (s : string) : string :=
  match FindAllString m s with [] => "" | x :: _ => x end.

(** [sort.Strings]. *)
Fixpoint insertString (x : string) (l : list string) : list string :=
  match l with
  | [] => [x]
  | y :: l' => if str_ltb y x then y :: insertString x l' else x :: l
  end.
Definition sortStrings (l : list string) : list string := foldr insertString [] l.

(** ** Lemmas *)

(** [p ++ rest = s] for a match, and every match occurs in the text. *)
Definition Splits (m : Matcher) : Prop := ∀ s x r, m s = Some (x, r) -> s = (x ++ r)%string.

Lemma mClass_splits p : Splits (mClass p).
Proof. intros [|c s] x r; simpl; [done|]. destruct (p c); [|done]. by intros [= <- <-]. Qed.

Lemma mSeq_splits m1 m2 : Splits m1 -> Splits m2 -> Splits (mSeq m1 m2).
Proof.
  intros H1 H2 s x r. unfold mSeq. destruct (m1 s) as [[a s1]|] eqn:E1; [|done].
  destruct (m2 s1) as [[b s2]|] eqn:E2; [|done]. intros [= <- <-].
  by rewrite (H1 _ _ _ E1), (H2 _ _ _ E2), string_app_assoc.
Qed.

Lemma mLit_splits lit : Splits (mLit lit).
Proof.
  induction lit as [|c lit IH]; [by intros s x r [= <- <-]|].
  intros s x r E. apply (mSeq_splits (mClass (Ascii.eqb c)) (mLit lit)); [apply mClass_splits|apply IH|exact E].
Qed.

Lemma mTimes_splits n m : Splits m -> Splits (mTimes n m).
Proof.
  intros Hm. induction n as [|n IH]; [by intros s x r [= <- <-]|].
  intros s x r E. apply (mSeq_splits m (mTimes n m)); [apply Hm|apply IH|exact E].
Qed.

Lemma mUpTo_splits n p : Splits (mUpTo n p).
Proof.
  induction n as [|n IH]; [by intros s x r [= <- <-]|]. intros [|c s] x r; cbn [mUpTo]; [by intros [= <- <-]|].
  destruct (p c); [|by intros [= <- <-]].
  intros E. apply (mSeq_splits (mClass p) (mUpTo n p)); [apply mClass_splits|apply IH|exact E].
Qed.

Lemma mStar_splits p : Splits (mStar p).
Proof. intros s x r. apply mUpTo_splits. Qed.

Lemma insertString_perm x l : insertString x l ≡ₚ x :: l.
Proof.
  induction l as [|y l IH]; [done|]. cbn. destruct (str_ltb y x); [|done]. rewrite IH. constructor.
Qed.
Lemma sortStrings_perm l : sortStrings l ≡ₚ l.
Proof. induction l as [|x l IH]; [done|]. cbn. by rewrite insertString_perm, IH. Qed.
