(* ===== verification/Teranode.v ===== *)
(** * Teranode: the client of the nodes transactions are broadcast to

    Models [src/teranode/client.go]: the endpoint list with its
    circuit breaker ([Module Breaker]) and the reading of a [/txs] response
    ([Module Txs]).  What the HTTP exchange gave is an argument.  A method
    that holds the client's mutex is one step, so that theorems over
    sequences of steps cover every interleaving of broadcasts, probes and
    refreshes.  Log lines and metrics are left out. *)
From stdpp Require Import base gmap strings list pretty.
From Stdlib Require Import Ascii ZArith Lia.
From S2P Require Import Prelude GoStrings.

Module Breaker.

Inductive healthState : Type := stateHealthy | stateUnhealthy.
Inductive healthSource : Type := sourceConfigured | sourceDiscovered.

#[export] Instance healthState_eq_dec : EqDecision healthState.
Proof. solve_decision. Defined.

Record endpointHealth : Type := mkEndpointHealth {
  consecutiveFailures : Z;
  consecutiveBroadcastFailures : Z;
  consecutiveProbeFailures : Z;
  lastFailure : Time;
  state : healthState;
  source : healthSource
}.

Record EndpointStatus : Type := mkEndpointStatus {
  es_URL : string;
  es_Source : string;
  es_Healthy : bool
}.

Record HealthConfig : Type := mkHealthConfig {
  hc_FailureThreshold : Z;
  hc_BroadcastFailureThreshold : Z;
  hc_MinHealthyEndpoints : Z
}.

(** The mutable fields of [Client] and the thresholds they are judged by. *)
Record Client : Type := mkClient {
  endpoints : list string;
  seen : gset string;
  health : gmap string endpointHealth;
  failureThreshold : Z;
  broadcastFailureThreshold : Z;
  minHealthyEndpoints : Z;
  belowThreshold : bool
}.

Definition defaultFailureThreshold : Z := 3.
Definition defaultBroadcastFailureThreshold : Z := 10.

(** [strings.TrimSuffix(u, "/")]. *)
Fixpoint normalizeURL (u : string) : string :=
  match u with
  | EmptyString => EmptyString
  | String c EmptyString => if Ascii.eqb c "/" then EmptyString else u
  | String c u' => String c (normalizeURL u')
  end.

Definition freshHealth (src : healthSource) : endpointHealth := mkEndpointHealth 0 0 0 None stateHealthy src.

(** One round of the loops of [NewClient] and [AddEndpoints]. *)
Definition register (src : healthSource) (c : Client) (u : string) : Client * bool :=
  let n := normalizeURL u in
  if String.eqb n "" then (c, false)
  else if bool_decide (n ∈ seen c) then (c, false)
  else (mkClient (endpoints c ++ [n]) ({[n]} ∪ seen c) (<[n := freshHealth src]> (health c))
          (failureThreshold c) (broadcastFailureThreshold c) (minHealthyEndpoints c) (belowThreshold c), true).

Definition positiveOr (v d : Z) : Z := if (v <=? 0)%Z then d else v.

Definition NewClient (eps : list string) (hc : HealthConfig) : Client :=
  foldl (fun c u => (register sourceConfigured c u).1)
    (mkClient [] ∅ ∅ (positiveOr (hc_FailureThreshold hc) defaultFailureThreshold)
       (positiveOr (hc_BroadcastFailureThreshold hc) defaultBroadcastFailureThreshold)
       (if (hc_MinHealthyEndpoints hc <? 0)%Z then 0%Z else hc_MinHealthyEndpoints hc) false) eps.

Fixpoint AddEndpoints (urls : list string) (c : Client) : nat * Client :=
  match urls with
  | [] => (0%nat, c)
  | u :: urls =>
      let '(c, added) := register sourceDiscovered c u in
      let '(n, c) := AddEndpoints urls c in
      ((if added : bool then S n else n), c)
  end.

Definition isHealthy (c : Client) (ep : string) : bool :=
  match health c !! ep with
  | Some h => bool_decide (state h = stateHealthy)
  | None => false
  end.

Definition GetEndpoints (c : Client) : list string := endpoints c.
Definition GetHealthyEndpoints (c : Client) : list string := List.filter (isHealthy c) (endpoints c).

Definition sourceLabel (s : healthSource) : string :=
  match s with sourceDiscovered => "discovered" | sourceConfigured => "configured" end.

Definition GetEndpointStatuses (c : Client) : list EndpointStatus :=
  omap (fun ep => match health c !! ep with
                  | None => None
                  | Some h => Some (mkEndpointStatus ep (sourceLabel (source h)) (bool_decide (state h = stateHealthy)))
                  end) (endpoints c).

Definition withHealth (n : string) (h : endpointHealth) (c : Client) : Client :=
  mkClient (endpoints c) (seen c) (<[n := h]> (health c)) (failureThreshold c)
    (broadcastFailureThreshold c) (minHealthyEndpoints c) (belowThreshold c).

Definition recomputeBelowThresholdLocked (c : Client) : Client :=
  if (minHealthyEndpoints c <=? 0)%Z then c
  else
    let healthyCount := Z.of_nat (length (GetHealthyEndpoints c)) in
    mkClient (endpoints c) (seen c) (health c) (failureThreshold c) (broadcastFailureThreshold c)
      (minHealthyEndpoints c) (healthyCount <? minHealthyEndpoints c)%Z.

Definition recovered (h : endpointHealth) : endpointHealth :=
  mkEndpointHealth 0 0 0 (lastFailure h) stateHealthy (source h).

(** The state after a counter went to [n]. *)
Definition trip (threshold n : Z) (s : healthState) : healthState :=
  match s with
  | stateHealthy => if (threshold <=? n)%Z then stateUnhealthy else stateHealthy
  | stateUnhealthy => stateUnhealthy
  end.

Definition RecordSuccess (url : string) (c : Client) : Client :=
  let n := normalizeURL url in
  match health c !! n with
  | None => c
  | Some h => recomputeBelowThresholdLocked (withHealth n (recovered h) c)
  end.

Definition RecordFailure (now : Time) (url : string) (c : Client) : Client :=
  let n := normalizeURL url in
  match health c !! n with
  | None => c
  | Some h =>
      let k := (consecutiveFailures h + 1)%Z in
      recomputeBelowThresholdLocked
        (withHealth n (mkEndpointHealth k (consecutiveBroadcastFailures h) (consecutiveProbeFailures h) now
                         (trip (failureThreshold c) k (state h)) (source h)) c)
  end.

Definition RecordBroadcastFailure (now : Time) (url : string) (c : Client) : Client :=
  let n := normalizeURL url in
  match health c !! n with
  | None => c
  | Some h =>
      let k := (consecutiveBroadcastFailures h + 1)%Z in
      recomputeBelowThresholdLocked
        (withHealth n (mkEndpointHealth (consecutiveFailures h) k (consecutiveProbeFailures h) now
                         (trip (broadcastFailureThreshold c) k (state h)) (source h)) c)
  end.

Definition recordProbeFailure (now : Time) (url : string) (c : Client) : Client :=
  let n := normalizeURL url in
  match health c !! n with
  | None => c
  | Some h =>
      let k := (consecutiveProbeFailures h + 1)%Z in
      recomputeBelowThresholdLocked
        (withHealth n (mkEndpointHealth (consecutiveFailures h) (consecutiveBroadcastFailures h) k now
                         (trip (failureThreshold c) k (state h)) (source h)) c)
  end.

Definition recordProbeSuccess (url : string) (c : Client) : Client :=
  let n := normalizeURL url in
  match health c !! n with
  | None => c
  | Some h =>
      match state h with
      | stateUnhealthy => recomputeBelowThresholdLocked (withHealth n (recovered h) c)
      | stateHealthy =>
          withHealth n (mkEndpointHealth (consecutiveFailures h) (consecutiveBroadcastFailures h) 0
                          (lastFailure h) stateHealthy (source h)) c
      end
  end.

(** [probeEndpoint]: whether a response came back, of any status. *)
Definition probeEndpoint (now : Time) (responded : bool) (url : string) (c : Client) : Client :=
  if responded then recordProbeSuccess url c else recordProbeFailure now url c.

(** [refreshOnce] on the answer of the endpoint source. *)
Definition refreshOnce (listed : Res (list string)) (c : Client) : Client :=
  match listed with
  | Err _ => c
  | Ok urls => (AddEndpoints urls c).2
  end.

(** ** Steps

    Everything that happens to a client, one critical section at a time:
    [probeOnce] and the broadcasts are sequences of these. *)
Inductive op : Type :=
| opSuccess (url : string)
| opFailure (now : Time) (url : string)
| opBroadcastFailure (now : Time) (url : string)
| opProbe (now : Time) (responded : bool) (url : string)
| opRefresh (listed : Res (list string)).

Definition apply (c : Client) (o : op) : Client :=
  match o with
  | opSuccess u => RecordSuccess u c
  | opFailure t u => RecordFailure t u c
  | opBroadcastFailure t u => RecordBroadcastFailure t u c
  | opProbe t r u => probeEndpoint t r u c
  | opRefresh l => refreshOnce l c
  end.
End Breaker.

Module Txs.

Record TxsFailures : Type := mkTxsFailures {
  ByKey : gmap string string;
  Unkeyed : list string
}.

Definition Len (f : option TxsFailures) : nat :=
  match f with
  | None => 0
  | Some f => size (ByKey f) + length (Unkeyed f)
  end.

Definition Keyed (f : option TxsFailures) : gmap string string :=
  match f with None => ∅ | Some f => ByKey f end.

Definition txsFailureHeader : string := "Failed to process transactions:".

(** [[0-9a-fA-F]{64}] and [\[ProcessTransaction\]\[([0-9a-fA-F]{64})\]]. *)
Definition txsTxidPattern : Matcher := mTimes 64 (mClass isHex).
Definition wrapperOpen : string := "[ProcessTransaction][".
Definition txsWrappedTxidPattern : Matcher := mSeq (mLit wrapperOpen) (mSeq txsTxidPattern (mLit "]")).

(** The hash a failure line is filed under. *)
Definition lineKey (line : string) : string :=
  match FindAllString txsWrappedTxidPattern line with
  | m :: _ => String.substring (String.length wrapperOpen) 64 m
  | [] => FindString txsTxidPattern line
  end.

Definition addFailureLine (out : TxsFailures) (line : string) : TxsFailures :=
  if String.eqb line "" then out
  else let txid := lineKey line in
       if String.eqb txid "" then mkTxsFailures (ByKey out) (Unkeyed out ++ [line])
       else mkTxsFailures (<[ToLower txid := line]> (ByKey out)) (Unkeyed out).

Definition parseTxsFailures (body : string) : option TxsFailures :=
  let text := TrimRightNewlines body in
  if String.eqb text "" then None
  else match SplitLines text with
       | [] => None
       | l :: lines =>
           if negb (String.eqb l txsFailureHeader) then None
           else let out := foldl addFailureLine (mkTxsFailures ∅ []) lines in
                if (Len (Some out) =? 0)%nat then None else Some out
       end.

Definition txsBatchLimitBodies : list string :=
  ["Invalid request body: too many transactions"; "Invalid request body: too much data";
   "Invalid request body: too many submissions"].

Definition isTxsBatchLimitBody (body : string) : bool :=
  existsb (String.eqb (TrimSpace body)) txsBatchLimitBodies.

(** What the exchange gave: an error before any response, or a response whose
    body may have been cut off.  The booleans say whether the error is a
    cancelled context. *)
Inductive exchange : Type :=
| xRequestErr (text : string)
| xDoErr (canceled : bool) (text : string)
| xResponse (status : Z) (body : string) (readErr : option (bool * string)).

(** The error: whether it is [ErrBatchTooLarge], whether it wraps
    [context.Canceled], and its text. *)
Record submitErr : Type := mkSubmitErr {
  se_tooLarge : bool;
  se_canceled : bool;
  se_text : string
}.

Definition statusText (status : Z) : string := ("unexpected status code " ++ pretty status)%string.

Definition SubmitTransactions (x : exchange) : Z * option TxsFailures * option submitErr :=
  match x with
  | xRequestErr t => (0%Z, None, Some (mkSubmitErr false false ("failed to create request: " ++ t)))
  | xDoErr canceled t => (0%Z, None, Some (mkSubmitErr false canceled ("failed to submit transactions: " ++ t)))
  | xResponse status body readErr =>
      if (status =? 200)%Z then (status, None, None)
      else if (status =? 413)%Z then
        (status, None, Some (mkSubmitErr true false ("batch too large: " ++ statusText status ++ ": " ++ body)))
      else match readErr with
           | Some (canceled, t) =>
               (status, None, Some (mkSubmitErr false canceled (statusText status ++ ": reading response body: " ++ t)))
           | None =>
               match parseTxsFailures body with
               | Some f => (status, Some f, Some (mkSubmitErr false false (statusText status)))
               | None =>
                   if (status =? 400)%Z && isTxsBatchLimitBody body
                   then (status, None, Some (mkSubmitErr true false ("batch too large: " ++ statusText status ++ ": " ++ body)))
                   else (status, None, Some (mkSubmitErr false false (statusText status ++ ": " ++ body)))
               end
           end
  end.
End Txs.
