(* ===== verification/TeranodeProps.v ===== *)
(** * TeranodeProps: the circuit breaker and the reading of responses *)
From stdpp Require Import base gmap strings list pretty.
From Stdlib Require Import Ascii ZArith Lia.
From S2P Require Import Prelude GoStrings Teranode.
Import Breaker Txs.

(** ** The invariant of the client *)

(** The breaker of one endpoint is open exactly when a counter has reached
    its threshold. *)
Definition health_ok (c : Client) (h : endpointHealth) : Prop :=
  (0 <= consecutiveFailures h)%Z ∧ (0 <= consecutiveBroadcastFailures h)%Z ∧ (0 <= consecutiveProbeFailures h)%Z
  ∧ (state h = stateHealthy ↔
      (consecutiveFailures h < failureThreshold c)%Z ∧ (consecutiveBroadcastFailures h < broadcastFailureThreshold c)%Z
      ∧ (consecutiveProbeFailures h < failureThreshold c)%Z).

Record client_ok (c : Client) : Prop := ClientOk {
  ok_thresholds : (0 < failureThreshold c)%Z ∧ (0 < broadcastFailureThreshold c)%Z;
  ok_nodup : NoDup (endpoints c);
  ok_nonempty : "" ∉ endpoints c;
  ok_seen n : n ∈ seen c ↔ n ∈ endpoints c;
  ok_known n : is_Some (health c !! n) ↔ n ∈ endpoints c;
  ok_health n h : health c !! n = Some h -> health_ok c h
}.

Lemma register_ok src c u : client_ok c -> client_ok (register src c u).1.
Proof.
  intros Hc. unfold register. destruct (String.eqb_spec (normalizeURL u) "") as [|Hn]; [done|].
  case_bool_decide as Hs; [done|]. destruct Hc as [Ht Hnd Hne Hse Hkn Hh].
  split; cbn; [done| | | | |].
  - apply NoDup_app. split_and!; [done| |apply NoDup_singleton]. intros x Hx ->%list_elem_of_singleton. by apply Hs, Hse.
  - rewrite elem_of_app, list_elem_of_singleton. intros [?|?]; [done|]. by apply Hn.
  - intros n. rewrite elem_of_app, list_elem_of_singleton, elem_of_union, elem_of_singleton, Hse. tauto.
  - intros n. rewrite elem_of_app, list_elem_of_singleton, <-Hkn. destruct (decide (n = normalizeURL u)) as [->|Hd].
    + rewrite lookup_insert_eq. split; [by right|done].
    + rewrite lookup_insert_ne by done. split; [by left|]. by intros [?|?].
  - intros n h. destruct (decide (n = normalizeURL u)) as [->|Hd].
    + rewrite lookup_insert_eq. intros [= <-]. unfold health_ok; cbn. split_and!; [lia..|]. split; [lia|done].
    + rewrite lookup_insert_ne by done. apply Hh.
Qed.

Lemma AddEndpoints_ok urls c : client_ok c -> client_ok (AddEndpoints urls c).2.
Proof.
  revert c. induction urls as [|u urls IH]; intros c Hc; cbn [AddEndpoints]; [done|].
  pose proof (register_ok sourceDiscovered c u Hc) as Hr. destruct (register sourceDiscovered c u) as [c' b].
  specialize (IH c' Hr). by destruct (AddEndpoints urls c') as [n c''].
Qed.

Lemma NewClient_ok eps hc : client_ok (NewClient eps hc).
Proof.
  unfold NewClient. match goal with |- client_ok (foldl _ ?c0 _) => assert (client_ok c0) as H0; [|revert H0; generalize c0] end.
  - split; cbn.
    + unfold positiveOr, defaultFailureThreshold, defaultBroadcastFailureThreshold.
      destruct (Z.leb_spec (hc_FailureThreshold hc) 0), (Z.leb_spec (hc_BroadcastFailureThreshold hc) 0); lia.
    + constructor.
    + apply not_elem_of_nil.
    + intros n. rewrite elem_of_nil. set_solver.
    + intros n. rewrite lookup_empty, elem_of_nil. split; [by intros [??]|done].
    + done.
  - induction eps as [|u eps IH]; intros c Hc; [done|]. cbn [foldl]. apply IH, register_ok, Hc.
Qed.

Lemma withHealth_ok n h' c :
  client_ok c -> is_Some (health c !! n) -> health_ok c h' -> client_ok (withHealth n h' c).
Proof.
  intros [Ht Hnd Hne Hse Hkn Hh] Hs Hok. split; cbn; [done|done|done|done| |].
  - intros k. rewrite <-Hkn. destruct (decide (k = n)) as [->|Hd]; [|by rewrite lookup_insert_ne].
    rewrite lookup_insert_eq. done.
  - intros k h. destruct (decide (k = n)) as [->|Hd]; [|rewrite lookup_insert_ne by done; apply Hh].
    rewrite lookup_insert_eq. by intros [= <-].
Qed.

Lemma recompute_same c :
  let c' := recomputeBelowThresholdLocked c in
  endpoints c' = endpoints c ∧ seen c' = seen c ∧ health c' = health c ∧ failureThreshold c' = failureThreshold c
  ∧ broadcastFailureThreshold c' = broadcastFailureThreshold c.
Proof. unfold recomputeBelowThresholdLocked. by destruct (minHealthyEndpoints c <=? 0)%Z. Qed.

Lemma recompute_ok c : client_ok c -> client_ok (recomputeBelowThresholdLocked c).
Proof.
  intros [Ht Hnd Hne Hse Hkn Hh]. destruct (recompute_same c) as (E1 & E2 & E3 & E4 & E5). unfold health_ok in *.
  split; unfold health_ok; rewrite ?E1, ?E2, ?E3, ?E4, ?E5; done.
Qed.

Lemma trip_healthy threshold n s :
  trip threshold n s = stateHealthy ↔ s = stateHealthy ∧ (n < threshold)%Z.
Proof. destruct s; cbn; [|split; [done|by intros [? _]]]. destruct (Z.leb_spec threshold n); split; try done; lia. Qed.

Lemma recovered_ok c h : client_ok c -> health_ok c (recovered h).
Proof. intros Hc. pose proof (ok_thresholds _ Hc). unfold health_ok; cbn. split_and!; [lia..|]. split; [lia|done]. Qed.

Lemma apply_ok c o : client_ok c -> client_ok (apply c o).
Proof.
  intros Hc. pose proof (ok_thresholds _ Hc) as Ht.
  destruct o as [u|t u|t u|t [] u|[urls|]]; cbn [apply probeEndpoint refreshOnce]; [| | | | |by apply AddEndpoints_ok|done].
  all: unfold RecordSuccess, RecordFailure, RecordBroadcastFailure, recordProbeSuccess, recordProbeFailure;
    destruct (health c !! normalizeURL u) as [h|] eqn:E; [|done]; pose proof (ok_health _ Hc _ _ E) as (? & ? & ? & Hst).
  4: destruct (state h) eqn:Es.
  all: try apply recompute_ok; apply withHealth_ok; [done|by eexists|]; try by apply recovered_ok.
  all: unfold health_ok; cbn; rewrite ?trip_healthy, ?Hst; try lia.
  pose proof (proj1 Hst eq_refl). lia.
Qed.

Lemma applies_ok c ops : client_ok c -> client_ok (foldl apply c ops).
Proof. revert c. induction ops as [|o ops IH]; intros c Hc; [done|]. cbn [foldl]. by apply IH, apply_ok. Qed.

(** ** What the counters count *)

(** The endpoint an outcome is recorded for. *)
Definition opTarget (o : op) : option string :=
  match o with
  | opSuccess u | opFailure _ u | opBroadcastFailure _ u | opProbe _ _ u => Some (normalizeURL u)
  | opRefresh _ => None
  end.

Definition isSuccessOf (n : string) (o : op) : bool :=
  match o with opSuccess u => String.eqb (normalizeURL u) n | _ => false end.
Definition isFailureOf (n : string) (o : op) : bool :=
  match o with opFailure _ u => String.eqb (normalizeURL u) n | _ => false end.
Definition isBroadcastFailureOf (n : string) (o : op) : bool :=
  match o with opBroadcastFailure _ u => String.eqb (normalizeURL u) n | _ => false end.
Definition isProbeFailureOf (n : string) (o : op) : bool :=
  match o with opProbe _ false u => String.eqb (normalizeURL u) n | _ => false end.

Definition countIf (p : op -> bool) (ops : list op) : Z := Z.of_nat (length (List.filter p ops)).

Lemma countIf_snoc p ops o : countIf p (ops ++ [o]) = (countIf p ops + (if p o then 1 else 0))%Z.
Proof. unfold countIf. rewrite List.filter_app, length_app. cbn. destruct (p o); cbn; lia. Qed.
Lemma countIf_nonneg p ops : (0 <= countIf p ops)%Z.
Proof. unfold countIf. lia. Qed.

(** The outcomes since the last 2xx response of [n]. *)
Definition sinceSuccess (n : string) (ops : list op) : list op :=
  foldl (fun acc o => if isSuccessOf n o then [] else acc ++ [o]) [] ops.

Lemma sinceSuccess_snoc n ops o :
  sinceSuccess n (ops ++ [o]) = if isSuccessOf n o then [] else sinceSuccess n ops ++ [o].
Proof. unfold sinceSuccess. by rewrite foldl_app. Qed.

Lemma register_keeps src c u n h :
  client_ok c -> health c !! n = Some h -> health (register src c u).1 !! n = Some h.
Proof.
  intros Hc Hn. unfold register. destruct (String.eqb _ ""); [done|]. case_bool_decide as Hs; [done|]. cbn.
  rewrite lookup_insert_ne; [done|]. intros <-. apply Hs, (ok_seen _ Hc), (ok_known _ Hc). by eexists.
Qed.

Lemma register_new src c u n h :
  health (register src c u).1 !! n = Some h -> health c !! n = Some h ∨ h = freshHealth src.
Proof.
  unfold register. destruct (String.eqb _ ""); [by left|]. case_bool_decide as Hs; [by left|]. cbn.
  destruct (decide (n = normalizeURL u)) as [->|Hd]; [|rewrite lookup_insert_ne by done; by left].
  rewrite lookup_insert_eq. intros [= <-]. by right.
Qed.

Lemma AddEndpoints_keeps urls c n h :
  client_ok c -> health c !! n = Some h -> health (AddEndpoints urls c).2 !! n = Some h.
Proof.
  revert c. induction urls as [|u urls IH]; intros c Hc Hn; cbn [AddEndpoints]; [done|].
  pose proof (register_keeps sourceDiscovered c u n h Hc Hn) as H1. pose proof (register_ok sourceDiscovered c u Hc) as H2.
  destruct (register sourceDiscovered c u) as [c' b]. specialize (IH c' H2 H1). by destruct (AddEndpoints urls c').
Qed.

Lemma AddEndpoints_new urls c n h :
  health (AddEndpoints urls c).2 !! n = Some h -> health c !! n = Some h ∨ h = freshHealth sourceDiscovered.
Proof.
  revert c. induction urls as [|u urls IH]; intros c; cbn [AddEndpoints]; [by left|].
  pose proof (register_new sourceDiscovered c u n h) as H1. destruct (register sourceDiscovered c u) as [c' b].
  specialize (IH c'). destruct (AddEndpoints urls c') as [k c'']. intros [Hn|Hn]%IH; [|by right]. by apply H1.
Qed.

Lemma NewClient_fresh eps hc n h : health (NewClient eps hc) !! n = Some h -> h = freshHealth sourceConfigured.
Proof.
  unfold NewClient. match goal with |- health (foldl _ ?c0 _) !! _ = _ -> _ =>
    assert (∀ h, health c0 !! n = Some h -> h = freshHealth sourceConfigured) as H0 by done; revert H0; generalize c0 end.
  induction eps as [|u eps IH]; intros c Hc; cbn [foldl]; [apply Hc|].
  apply IH. intros h' [H|H]%register_new; [by apply Hc|done].
Qed.

(** One outcome, for one endpoint. *)
Definition after (c : Client) (h : endpointHealth) (o : op) : endpointHealth :=
  match o with
  | opSuccess _ => recovered h
  | opFailure t _ =>
      mkEndpointHealth (consecutiveFailures h + 1) (consecutiveBroadcastFailures h) (consecutiveProbeFailures h) t
        (trip (failureThreshold c) (consecutiveFailures h + 1) (state h)) (source h)
  | opBroadcastFailure t _ =>
      mkEndpointHealth (consecutiveFailures h) (consecutiveBroadcastFailures h + 1) (consecutiveProbeFailures h) t
        (trip (broadcastFailureThreshold c) (consecutiveBroadcastFailures h + 1) (state h)) (source h)
  | opProbe t false _ =>
      mkEndpointHealth (consecutiveFailures h) (consecutiveBroadcastFailures h) (consecutiveProbeFailures h + 1) t
        (trip (failureThreshold c) (consecutiveProbeFailures h + 1) (state h)) (source h)
  | opProbe _ true _ =>
      match state h with
      | stateUnhealthy => recovered h
      | stateHealthy => mkEndpointHealth (consecutiveFailures h) (consecutiveBroadcastFailures h) 0 (lastFailure h) stateHealthy (source h)
      end
  | opRefresh _ => h
  end.

Lemma apply_health c o n h :
  client_ok c -> health c !! n = Some h ->
  health (apply c o) !! n = Some (if decide (opTarget o = Some n) then after c h o else h).
Proof.
  intros Hc Hn.
  destruct o as [u|t u|t u|t [] u|[urls|]]; cbn [apply probeEndpoint refreshOnce opTarget after]; [| | | | |by apply AddEndpoints_keeps|done].
  all: unfold RecordSuccess, RecordFailure, RecordBroadcastFailure, recordProbeSuccess, recordProbeFailure;
    destruct (decide (Some (normalizeURL u) = Some n)) as [[= E]|E].
  all: try (rewrite E, Hn; try (destruct (state h) eqn:Es);
    match goal with |- context [recomputeBelowThresholdLocked ?x] => destruct (recompute_same x) as (_ & _ & -> & _) | _ => idtac end;
    cbn; by rewrite lookup_insert_eq).
  all: destruct (health c !! normalizeURL u) as [h'|]; [|done].
  all: try (destruct (state h') eqn:Es);
    match goal with |- context [recomputeBelowThresholdLocked ?x] => destruct (recompute_same x) as (_ & _ & -> & _) | _ => idtac end;
    cbn; by rewrite lookup_insert_ne by congruence.
Qed.

Lemma apply_thresholds c o :
  failureThreshold (apply c o) = failureThreshold c ∧ broadcastFailureThreshold (apply c o) = broadcastFailureThreshold c.
Proof.
  assert (∀ urls c, failureThreshold (AddEndpoints urls c).2 = failureThreshold c
    ∧ broadcastFailureThreshold (AddEndpoints urls c).2 = broadcastFailureThreshold c) as HA.
  { intros urls. induction urls as [|u urls IH]; intros c0; cbn [AddEndpoints]; [done|].
    unfold register. destruct (String.eqb _ ""); [|case_bool_decide];
      match goal with |- context [AddEndpoints urls ?x] => specialize (IH x); by destruct (AddEndpoints urls x) end. }
  destruct o as [u|t u|t u|t [] u|[urls|]]; cbn [apply probeEndpoint refreshOnce]; [| | | | |apply HA|done].
  all: unfold RecordSuccess, RecordFailure, RecordBroadcastFailure, recordProbeSuccess, recordProbeFailure;
    destruct (health c !! normalizeURL u) as [h|]; [|done].
  4: destruct (state h); [done|].
  all: try match goal with |- context [recomputeBelowThresholdLocked ?x] => destruct (recompute_same x) as (_ & _ & _ & -> & ->) end; done.
Qed.

Lemma applies_thresholds c ops :
  failureThreshold (foldl apply c ops) = failureThreshold c
  ∧ broadcastFailureThreshold (foldl apply c ops) = broadcastFailureThreshold c.
Proof.
  revert c. induction ops as [|o ops IH]; intros c; [done|]. cbn [foldl].
  destruct (IH (apply c o)) as [-> ->], (apply_thresholds c o) as [-> ->]. done.
Qed.

Lemma apply_new c o n h :
  health c !! n = None -> health (apply c o) !! n = Some h -> h = freshHealth sourceDiscovered.
Proof.
  intros Hn. destruct o as [u|t u|t u|t [] u|[urls|]]; cbn [apply probeEndpoint refreshOnce].
  6: { intros [H|H]%AddEndpoints_new; [congruence|done]. }
  6: congruence.
  all: unfold RecordSuccess, RecordFailure, RecordBroadcastFailure, recordProbeSuccess, recordProbeFailure;
    destruct (health c !! normalizeURL u) as [h'|] eqn:E; [|congruence].
  all: try (destruct (state h') eqn:Es);
    match goal with |- context [recomputeBelowThresholdLocked ?x] => destruct (recompute_same x) as (_ & _ & -> & _) | _ => idtac end;
    cbn; rewrite lookup_insert_ne by congruence; congruence.
Qed.

(** The counters never exceed the failures since the last success. *)
Definition counted (n : string) (h : endpointHealth) (ops : list op) : Prop :=
  let s := sinceSuccess n ops in
  (consecutiveFailures h <= countIf (isFailureOf n) s)%Z
  ∧ (consecutiveBroadcastFailures h <= countIf (isBroadcastFailureOf n) s)%Z
  ∧ (consecutiveProbeFailures h <= countIf (isProbeFailureOf n) s)%Z.

Lemma fresh_counted n src ops : counted n (freshHealth src) ops.
Proof. unfold counted; cbn. split_and!; apply countIf_nonneg. Qed.

Lemma after_counted c n h ops o :
  counted n h ops -> counted n (if decide (opTarget o = Some n) then after c h o else h) (ops ++ [o]).
Proof.
  unfold counted. intros (H1 & H2 & H3). rewrite sinceSuccess_snoc.
  pose proof (countIf_nonneg (isFailureOf n) (sinceSuccess n ops)).
  pose proof (countIf_nonneg (isBroadcastFailureOf n) (sinceSuccess n ops)).
  pose proof (countIf_nonneg (isProbeFailureOf n) (sinceSuccess n ops)).
  destruct o as [u|t u|t u|t [] u|l]; cbn [opTarget after isSuccessOf].
  1: { destruct (String.eqb_spec (normalizeURL u) n) as [E|E].
       - rewrite decide_True by congruence. unfold countIf; cbn; lia.
       - rewrite decide_False by congruence. rewrite !countIf_snoc. cbn. lia. }
  all: rewrite !countIf_snoc; cbn [isFailureOf isBroadcastFailureOf isProbeFailureOf]; try (rewrite decide_False by done; lia).
  all: destruct (String.eqb_spec (normalizeURL u) n) as [E|E];
    [rewrite decide_True by congruence|rewrite decide_False by congruence; lia]; cbn; try lia.
  destruct (state h); cbn; lia.
Qed.

Lemma counted_run eps hc ops n h :
  health (foldl apply (NewClient eps hc) ops) !! n = Some h -> counted n h ops.
Proof.
  revert h. induction ops as [|o ops IH] using rev_ind; intros h.
  - intros ->%NewClient_fresh. apply fresh_counted.
  - rewrite foldl_app. cbn [foldl]. pose proof (applies_ok _ ops (NewClient_ok eps hc)) as Hok.
    destruct (health (foldl apply (NewClient eps hc) ops) !! n) as [h0|] eqn:E.
    + rewrite (apply_health _ o n h0 Hok E). intros [= <-]. by apply after_counted, IH.
    + intros ->%apply_new; [|done]. apply fresh_counted.
Qed.

Lemma healthy_lookup c n :
  client_ok c -> n ∈ endpoints c -> n ∉ GetHealthyEndpoints c -> ∃ h, health c !! n = Some h ∧ state h = stateUnhealthy.
Proof.
  intros Hc Hn Hu. destruct (proj2 (ok_known _ Hc n) Hn) as [h Hh]. exists h. split; [done|].
  destruct (state h) eqn:E; [|done]. destruct Hu. apply list_elem_of_In, List.filter_In. split; [by apply list_elem_of_In|].
  unfold isHealthy. rewrite Hh. by apply bool_decide_eq_true.
Qed.

Lemma healthy_elem c n h : health c !! n = Some h -> n ∈ GetHealthyEndpoints c -> state h = stateHealthy.
Proof.
  intros Hh [_ H]%list_elem_of_In%List.filter_In. unfold isHealthy in H. rewrite Hh in H. by apply bool_decide_eq_true in H.
Qed.

(** Without a success and while the endpoint stays healthy, the two broadcast
    counters count every failure. *)
Lemma slow_track_counts c n h ops :
  client_ok c -> health c !! n = Some h -> (∀ o, o ∈ ops -> isSuccessOf n o = false) ->
  (∃ pre suf, ops = pre ++ suf ∧ n ∉ GetHealthyEndpoints (foldl apply c pre)) ∨
  ∃ h', health (foldl apply c ops) !! n = Some h'
    ∧ consecutiveFailures h' = (consecutiveFailures h + countIf (isFailureOf n) ops)%Z
    ∧ consecutiveBroadcastFailures h' = (consecutiveBroadcastFailures h + countIf (isBroadcastFailureOf n) ops)%Z.
Proof.
  intros Hc Hh. induction ops as [|o ops IH] using rev_ind; intros Hs.
  - right. exists h. unfold countIf; cbn. split_and!; [done|lia..].
  - destruct IH as [(pre & suf & -> & Hu)|(h' & Hh' & E1 & E2)].
    { intros o' Ho'. apply Hs, elem_of_app. by left. }
    { left. exists pre, (suf ++ [o]). by rewrite app_assoc. }
    destruct (decide (n ∈ GetHealthyEndpoints (foldl apply c ops))) as [Hy|Hy]; [|left; by exists ops, [o]].
    right. pose proof (healthy_elem _ _ _ Hh' Hy) as Est. rewrite foldl_app. cbn [foldl].
    rewrite (apply_health _ o n h' (applies_ok _ ops Hc) Hh'), !countIf_snoc. eexists. split; [done|].
    specialize (Hs o ltac:(apply elem_of_app; right; by apply list_elem_of_singleton)). revert Hs.
    destruct o as [u|t u|t u|t [] u|l]; cbn [opTarget after isSuccessOf isFailureOf isBroadcastFailureOf];
      try destruct (String.eqb_spec (normalizeURL u) n) as [E|E]; try done; intros _.
    all: first [rewrite decide_True by congruence|rewrite decide_False by congruence]; rewrite ?Est; cbn; lia.
Qed.

(** ** Lines *)

Definition hasNewline (s : string) : bool := List.existsb (Ascii.eqb newline) (String.list_ascii_of_string s).
Definition joinLines (ls : list string) : string :=
  match ls with
  | [] => ""
  | l :: ls => (l ++ fold_right (fun x acc => String newline (x ++ acc)) "" ls)%string
  end.

Lemma hasNewline_cons c s : hasNewline (String c s) = Ascii.eqb newline c || hasNewline s.
Proof. done. Qed.

Lemma SplitLines_line l s : hasNewline l = false -> SplitLines (l ++ String newline s) = l :: SplitLines s.
Proof.
  induction l as [|c l IH]; intros Hl; [done|]. rewrite hasNewline_cons in Hl. apply orb_false_iff in Hl as [Hc Hl].
  cbn [SplitLines String.append]. rewrite Ascii.eqb_sym, Hc. by rewrite IH.
Qed.

Lemma SplitLines_last l : hasNewline l = false -> SplitLines l = [l].
Proof.
  induction l as [|c l IH]; intros Hl; [done|]. rewrite hasNewline_cons in Hl. apply orb_false_iff in Hl as [Hc Hl].
  cbn [SplitLines]. rewrite Ascii.eqb_sym, Hc. by rewrite IH.
Qed.

Lemma SplitLines_join l ls : Forall (fun x => hasNewline x = false) (l :: ls) -> SplitLines (joinLines (l :: ls)) = l :: ls.
Proof.
  revert l. induction ls as [|x ls IH]; intros l H; inversion H as [|?? Hl Hls]; subst; cbn [joinLines fold_right].
  - rewrite string_app_nil_r. by apply SplitLines_last.
  - rewrite SplitLines_line by done. f_equal. by apply IH.
Qed.

Lemma TrimRight_cons c s : TrimRightNewlines s ≠ "" -> TrimRightNewlines (String c s) = String c (TrimRightNewlines s).
Proof. intros H. cbn. by destruct (String.eqb_spec (TrimRightNewlines s) ""). Qed.

Lemma TrimRight_line s : s ≠ "" -> hasNewline s = false -> ∀ n, TrimRightNewlines (s ++ n) = (s ++ TrimRightNewlines n)%string.
Proof.
  induction s as [|c s IH]; [done|]. intros _ Hs n. rewrite hasNewline_cons in Hs. apply orb_false_iff in Hs as [Hc Hs].
  destruct s as [|c' s]; cbn [String.append].
  - cbn [TrimRightNewlines]. rewrite Ascii.eqb_sym, Hc, andb_false_r. done.
  - change (String c' (s ++ n)) with (String c' s ++ n)%string. specialize (IH ltac:(done) Hs n).
    rewrite TrimRight_cons; by rewrite IH.
Qed.

Lemma TrimRight_join l ls :
  Forall (fun x => x ≠ "" ∧ hasNewline x = false) (l :: ls) ->
  TrimRightNewlines (joinLines (l :: ls) ++ String newline "") = joinLines (l :: ls).
Proof.
  revert l. induction ls as [|x ls IH]; intros l H; inversion H as [|?? [Hne Hnl] Hls]; subst; cbn [joinLines fold_right].
  - rewrite string_app_nil_r, TrimRight_line by done. cbn. apply string_app_nil_r.
  - rewrite string_app_assoc, TrimRight_line by done. cbn [String.append]. specialize (IH x Hls). cbn [joinLines] in IH.
    rewrite TrimRight_cons; [by rewrite IH|]. rewrite IH. inversion Hls as [|?? [Hx _] ?]; subst. by destruct x.
Qed.

(** A response of Teranode: the header and one line per failed transaction. *)
Definition failureBody (lines : list string) : string := (joinLines (txsFailureHeader :: lines) ++ String newline "")%string.

Definition keyOf (l : string) : option string := if String.eqb (lineKey l) "" then None else Some (ToLower (lineKey l)).

Lemma addFailureLine_key f l :
  l ≠ "" -> addFailureLine f l = match keyOf l with
                                | None => mkTxsFailures (ByKey f) (Unkeyed f ++ [l])
                                | Some k => mkTxsFailures (<[k := l]> (ByKey f)) (Unkeyed f)
                                end.
Proof. intros Hl. unfold addFailureLine, keyOf. rewrite (proj2 (String.eqb_neq _ _) Hl). by destruct (String.eqb (lineKey l) ""). Qed.

Lemma addFailureLines_spec lines f0 :
  Forall (fun x => x ≠ "") lines ->
  let f := foldl addFailureLine f0 lines in
  Unkeyed f = Unkeyed f0 ++ List.filter (fun l => bool_decide (keyOf l = None)) lines
  ∧ ∀ k, ByKey f !! k = match last (List.filter (fun l => bool_decide (keyOf l = Some k)) lines) with
                        | Some l => Some l
                        | None => ByKey f0 !! k
                        end.
Proof.
  induction lines as [|l lines IH] using rev_ind; intros H; cbn zeta; [cbn; split; [by rewrite app_nil_r|done]|].
  apply Forall_app in H as [Hls [Hl _]%Forall_cons]. destruct (IH Hls) as [E1 E2]. rewrite foldl_app. cbn [foldl].
  rewrite addFailureLine_key by done. rewrite !List.filter_app. cbn [List.filter]. destruct (keyOf l) as [k0|] eqn:Ek.
  - cbn [Unkeyed ByKey]. rewrite E1, (bool_decide_false (Some k0 = None)), app_nil_r by done. split; [done|]. intros k.
    rewrite List.filter_app. cbn [List.filter]. rewrite Ek. destruct (decide (k0 = k)) as [->|Hd].
    + by rewrite bool_decide_true, lookup_insert_eq, last_snoc.
    + rewrite bool_decide_false, app_nil_r, lookup_insert_ne by congruence. apply E2.
  - cbn [Unkeyed ByKey]. rewrite E1, bool_decide_true by done. split; [by rewrite app_assoc|]. intros k.
    rewrite List.filter_app. cbn [List.filter]. rewrite Ek, bool_decide_false, app_nil_r by done. apply E2.
Qed.

Lemma parse_body lines :
  Forall (fun x => x ≠ "" ∧ hasNewline x = false) lines ->
  parseTxsFailures (failureBody lines) =
    let f := foldl addFailureLine (mkTxsFailures ∅ []) lines in
    if (Len (Some f) =? 0)%nat then None else Some f.
Proof.
  intros H. unfold parseTxsFailures, failureBody. rewrite TrimRight_join by (constructor; [done|exact H]).
  rewrite (proj2 (String.eqb_neq _ "")) by done. rewrite SplitLines_join; [by rewrite String.eqb_refl|].
  constructor; [done|]. eapply Forall_impl; [exact H|]. by intros x [_ ?].
Qed.

Lemma some_line_counts lines f :
  Forall (fun x => x ≠ "") lines -> lines ≠ [] -> f = foldl addFailureLine (mkTxsFailures ∅ []) lines -> Len (Some f) ≠ 0%nat.
Proof.
  intros Hf Hn ->. destruct lines as [|l lines] using rev_ind; [done|]. clear IHlines.
  apply Forall_app in Hf as [_ [Hl _]%Forall_cons]. rewrite foldl_app. cbn [foldl]. rewrite addFailureLine_key by done.
  destruct (keyOf l) as [k|]; cbn [Len ByKey Unkeyed]; [|rewrite length_app; cbn; lia].
  intros E. assert (size (<[k:=l]> (ByKey (foldl addFailureLine (mkTxsFailures ∅ []) lines))) = 0%nat) as E0 by lia.
  apply map_size_empty_inv in E0. by apply (insert_non_empty (M := gmap string)) in E0.
Qed.

(** ** Theorems *)

(** C20: The circuit breaker, under any interleaving of broadcasts, probes and
    refreshes.  An endpoint is left out of the broadcast list only after as
    many reachability failures, refused broadcasts or failed probes as the
    threshold of that kind since its last recorded success; and as many failed or
    refused broadcasts as the threshold, without a success between them,
    do take it out of the list, whatever its probes answer meanwhile.  A
    success is a call of [RecordSuccess]: a 2xx response, or a refusal that
    all peers share and that carries verdicts. *)
Theorem breaker_correct eps hc ops1 ops2 n :
  let c0 := NewClient eps hc in
  let c1 := foldl apply c0 ops1 in
  n ∈ GetEndpoints c1 ->
  (n ∉ GetHealthyEndpoints c1 ->
     (failureThreshold c0 <= countIf (isFailureOf n) (sinceSuccess n ops1))%Z
     ∨ (broadcastFailureThreshold c0 <= countIf (isBroadcastFailureOf n) (sinceSuccess n ops1))%Z
     ∨ (failureThreshold c0 <= countIf (isProbeFailureOf n) (sinceSuccess n ops1))%Z)
  ∧ ((∀ o, o ∈ ops2 -> isSuccessOf n o = false) ->
     (failureThreshold c0 <= countIf (isFailureOf n) ops2)%Z
     ∨ (broadcastFailureThreshold c0 <= countIf (isBroadcastFailureOf n) ops2)%Z ->
     ∃ pre suf, ops2 = pre ++ suf ∧ n ∉ GetHealthyEndpoints (foldl apply c1 pre)).
Proof.
  intros c0 c1 Hn. pose proof (NewClient_ok eps hc) as H0. pose proof (applies_ok c0 ops1 H0) as H1.
  destruct (applies_thresholds c0 ops1) as [Ef Eb]. fold c1 in H1, Ef, Eb. split.
  - intros Hu. destruct (healthy_lookup c1 n H1 Hn Hu) as (h & Hh & Hs).
    destruct (counted_run eps hc ops1 n h Hh) as (C1 & C2 & C3). destruct (ok_health _ H1 n h Hh) as (_ & _ & _ & Hst).
    destruct (Z.lt_ge_cases (consecutiveFailures h) (failureThreshold c1)); [|left; lia].
    destruct (Z.lt_ge_cases (consecutiveBroadcastFailures h) (broadcastFailureThreshold c1)); [|right; left; lia].
    destruct (Z.lt_ge_cases (consecutiveProbeFailures h) (failureThreshold c1)); [|right; right; lia].
    rewrite (proj2 Hst) in Hs by lia. done.
  - intros Hns Hcount. destruct (proj2 (ok_known _ H1 n) Hn) as [h Hh].
    destruct (slow_track_counts c1 n h ops2 H1 Hh Hns) as [?|(h' & Hh' & E1 & E2)]; [done|].
    exists ops2, []. rewrite app_nil_r. split; [done|]. intros Hy. pose proof (healthy_elem _ _ _ Hh' Hy) as Hst.
    destruct (ok_health _ (applies_ok _ ops2 H1) n h' Hh') as (_ & _ & _ & Hiff). apply Hiff in Hst.
    destruct (applies_thresholds c1 ops2) as [Ef2 Eb2], (ok_health _ H1 n h Hh) as (P1 & P2 & _). lia.
Qed.

(** [normalizeURL] takes one slash off the end and is applied to a name
    when it is registered and again when an outcome is recorded for it, so an
    endpoint announced with two slashes at its end is never sidelined: whatever
    is recorded for it, it stays in the broadcast list. *)
Theorem doubled_slash_never_sidelined hc (outcomes : list (string -> op)) :
  let c := NewClient ["http://n//"] hc in
  (∀ f, f ∈ outcomes -> opTarget (f "http://n/") = Some (normalizeURL "http://n/")) ->
  GetHealthyEndpoints (foldl apply c (List.map (fun f => f "http://n/") outcomes)) = ["http://n/"].
Proof.
  intros c Hf. assert (foldl apply c (List.map (fun f => f "http://n/") outcomes) = c) as ->; [|reflexivity].
  induction outcomes as [|f outcomes IH]; [done|]. cbn [List.map foldl].
  assert (apply c (f "http://n/") = c) as ->; [|apply IH; intros g Hg; apply Hf; by right].
  specialize (Hf f (list_elem_of_here _ _)). destruct (f "http://n/") as [u|t u|t u|t [] u|l]; cbn [opTarget] in Hf; [| | | | |done].
  all: injection Hf as Hf; cbn [apply probeEndpoint];
    unfold RecordSuccess, RecordFailure, RecordBroadcastFailure, recordProbeSuccess, recordProbeFailure; rewrite Hf; reflexivity.
Qed.

(** Reading a failure list gives back what it says, up to lines that are
    filed under the same hash: the lines that name no hash in their order, and
    for each hash the last line that names it. *)
Theorem parseTxsFailures_lines lines :
  Forall (fun x => x ≠ "" ∧ hasNewline x = false) lines -> lines ≠ [] ->
  ∃ f, parseTxsFailures (failureBody lines) = Some f
    ∧ Unkeyed f = List.filter (fun l => bool_decide (keyOf l = None)) lines
    ∧ ∀ k, ByKey f !! k = last (List.filter (fun l => bool_decide (keyOf l = Some k)) lines).
Proof.
  intros H Hn. assert (Forall (fun x => x ≠ "") lines) as Hne by (eapply Forall_impl; [exact H|]; by intros x [? _]).
  exists (foldl addFailureLine (mkTxsFailures ∅ []) lines). rewrite parse_body by done. cbn zeta.
  rewrite (proj2 (Nat.eqb_neq _ _) (some_line_counts lines _ Hne Hn eq_refl)). split; [done|].
  destruct (addFailureLines_spec lines (mkTxsFailures ∅ []) Hne) as [E1 E2]. split; [done|]. intros k. rewrite E2.
  by destruct (last _).
Qed.

(** ** Witnesses *)

Lemma breaker_correct_witness :
  ∃ pre suf, replicate 3 (opBroadcastFailure (Some 1%Z) "http://n/") = pre ++ suf
    ∧ "http://n" ∉ GetHealthyEndpoints (foldl apply (foldl apply (NewClient ["http://n"] (mkHealthConfig 0 3 0)) []) pre).
Proof.
  apply (breaker_correct ["http://n"] (mkHealthConfig 0 3 0) [] (replicate 3 (opBroadcastFailure (Some 1%Z) "http://n/")) "http://n").
  - by left.
  - intros o Ho. apply list_elem_of_In in Ho. cbn in Ho. by destruct Ho as [<-|[<-|[<-|[]]]].
  - right. vm_compute. by intros ?.
Defined.

Lemma doubled_slash_never_sidelined_witness :
  GetHealthyEndpoints (foldl apply (NewClient ["http://n//"] (mkHealthConfig 3 10 0))
     (List.map (fun f => f "http://n/") (replicate 5 (opFailure (Some 1%Z))))) = ["http://n/"].
Proof.
  apply doubled_slash_never_sidelined. intros f Hf. apply list_elem_of_In in Hf. cbn in Hf.
  by destruct Hf as [<-|[<-|[<-|[<-|[<-|[]]]]]].
Defined.

Lemma parseTxsFailures_lines_witness :
  ∃ f, parseTxsFailures (failureBody ["TX_INVALID (31): bad-txns"; "PROCESSING (4): failed"]) = Some f
    ∧ Unkeyed f = ["TX_INVALID (31): bad-txns"; "PROCESSING (4): failed"].
Proof.
  destruct (parseTxsFailures_lines ["TX_INVALID (31): bad-txns"; "PROCESSING (4): failed"]) as (f & E & U & _).
  - repeat constructor; done.
  - done.
  - exists f. split; [exact E|]. rewrite U. reflexivity.
Defined.
