(* ===== verification/BumpCache.v ===== *)
(** * BumpCache: the parsed-BUMP cache behind merkle-path enrichment

    Models [store/bumpcache/bumpcache.go].  The LRU list
    ([hashicorp/golang-lru/v2/simplelru]) is third-party: [LRU] is the class
    of its operations with their documented behaviour, and an association
    list is an instance.  The compound index ([bump.CompoundIndex]) enters
    through the three functions the cache calls on it.  The critical sections under
    [mu] are the atomic steps; [proto_step] interleaves them with the store
    writes and reads they race with. *)
From stdpp Require Import base gmap strings list relations.
From Stdlib Require Import ZArith Lia.
From Stdlib Require Import Strings.Byte.
From S2P Require Import Prelude Models.

(** ** The LRU interface *)

(** [lru_entries] lists the entries, most recently used first. *)
Class LRU (L V : Type) : Type := {
  lru_entries : L -> list (string * V);
  lru_size : L -> nat;
  lru_get : L -> string -> option V * L;
  lru_contains : L -> string -> bool;
  lru_add : L -> string -> V -> L * option V;
  lru_remove : L -> string -> L * option V;
  lru_removeOldest : L -> L * option V
}.

Definition entry_of {V} (l : list (string * V)) (k : string) : option V :=
  snd <$> List.find (fun e => String.eqb e.1 k) l.

Definition without {V} (l : list (string * V)) (k : string) : list (string * V) :=
  List.filter (fun e => negb (String.eqb e.1 k)) l.

(** Documented behaviour; the second component of a mutation is what the
    evict callback is called with. *)
Class LRULaws (L V : Type) `{LRU L V} : Prop := {
  get_entries l k : (lru_get l k).1 = entry_of (lru_entries l) k;
  get_moves l k : lru_entries (lru_get l k).2 =
    match entry_of (lru_entries l) k with
    | Some v => (k, v) :: without (lru_entries l) k
    | None => lru_entries l
    end;
  contains_entries l k : lru_contains l k = bool_decide (is_Some (entry_of (lru_entries l) k));
  add_absent l k v : entry_of (lru_entries l) k = None ->
    lru_entries (lru_add l k v).1 = take (lru_size l) ((k, v) :: lru_entries l) ∧
    (lru_add l k v).2 = snd <$> ((k, v) :: lru_entries l) !! lru_size l;
  remove_entries l k : lru_entries (lru_remove l k).1 = without (lru_entries l) k ∧
    (lru_remove l k).2 = entry_of (lru_entries l) k;
  oldest_entries l : lru_entries (lru_removeOldest l).1 = removelast (lru_entries l) ∧
    (lru_removeOldest l).2 = snd <$> last (lru_entries l);
  size_get l k : lru_size (lru_get l k).2 = lru_size l;
  size_add l k v : lru_size (lru_add l k v).1 = lru_size l;
  size_remove l k : lru_size (lru_remove l k).1 = lru_size l;
  size_oldest l : lru_size (lru_removeOldest l).1 = lru_size l;
  within_size l : (length (lru_entries l) <= lru_size l)%nat;
  keys_unique l : NoDup (lru_entries l).*1
}.

Definition maxTotalLeaves : Z := 512 * 1024.
Definition refreshInterval : Z := 5 * 1000000000.

Section Cache.
Context {Idx : Type} (Leaves : Idx -> Z) (MinimalPathBytes : Idx -> string -> option (list byte)).
Context (IndexCompound : list byte -> Res Idx).
Context {L LT : Type} {LruL : LRU L Idx} {LruT : LRU LT Z}.

(** [Cache]: the mutable fields; the singleflight group has no state between
    flights. *)
Record Cache : Type := mkCache {
  maxLeaves : Z;
  lru : L;
  totalLeaves : Z;
  gen : gmap string Z;
  inflight : gmap string Z;
  refreshed : LT
}.

(** Reading a missing map key yields zero. *)
Definition counter (m : gmap string Z) (k : string) : Z := default 0%Z (m !! k).

(** The evict callback. *)
Definition evicted (total : Z) (v : option Idx) : Z :=
  match v with Some i => (total - Leaves i)%Z | None => total end.

Definition lookup_ (c : Cache) (blockHash : string) : option Idx * Cache :=
  let '(r, l) := lru_get (lru c) blockHash in
  (r, mkCache (maxLeaves c) l (totalLeaves c) (gen c) (inflight c) (refreshed c)).

Definition Contains (c : Cache) (blockHash : string) : bool := lru_contains (lru c) blockHash.

Definition beginFill (c : Cache) (blockHash : string) : Z * Cache :=
  (counter (gen c) blockHash,
   mkCache (maxLeaves c) (lru c) (totalLeaves c) (gen c)
     (<[blockHash := (counter (inflight c) blockHash + 1)%Z]> (inflight c)) (refreshed c)).

(** [for c.totalLeaves > c.maxLeaves && c.lru.Len() > 1]: each round drops an
    entry, so as many rounds as entries are enough. *)
Fixpoint evictLoop (fuel : nat) (maxL : Z) (l : L) (total : Z) : L * Z :=
  match fuel with
  | O => (l, total)
  | S fuel =>
      if (maxL <? total)%Z && (1 <? length (lru_entries l))%nat
      then let '(l', v) := lru_removeOldest l in evictLoop fuel maxL l' (evicted total v)
      else (l, total)
  end.

Definition endFill (c : Cache) (blockHash : string) (idx : option Idx) (token : Z) : Cache :=
  let stale := negb (counter (gen c) blockHash =? token)%Z in
  let n := (counter (inflight c) blockHash - 1)%Z in
  let inflight' := if (n <=? 0)%Z then delete blockHash (inflight c) else <[blockHash := n]> (inflight c) in
  let gen' := if (n <=? 0)%Z then delete blockHash (gen c) else gen c in
  match idx with
  | Some i =>
      if stale then mkCache (maxLeaves c) (lru c) (totalLeaves c) gen' inflight' (refreshed c)
      else
        let '(l1, v1) := lru_remove (lru c) blockHash in
        let '(l2, v2) := lru_add l1 blockHash i in
        let total := (evicted (evicted (totalLeaves c) v1) v2 + Leaves i)%Z in
        let '(l3, total') := evictLoop (length (lru_entries l2)) (maxLeaves c) l2 total in
        mkCache (maxLeaves c) l3 total' gen' inflight' (refreshed c)
  | None => mkCache (maxLeaves c) (lru c) (totalLeaves c) gen' inflight' (refreshed c)
  end.

(** [c.gen[blockHash]++] on a [uint64]. *)
Definition Remove (c : Cache) (blockHash : string) : Cache :=
  let '(l, v) := lru_remove (lru c) blockHash in
  mkCache (maxLeaves c) l (evicted (totalLeaves c) v)
    (if (0 <? counter (inflight c) blockHash)%Z
     then <[blockHash := uint64 (counter (gen c) blockHash + 1)]> (gen c) else gen c)
    (inflight c) (refreshed c).

Definition claimRefresh (c : Cache) (blockHash : string) (now : Z) : bool * Cache :=
  let '(last, r) := lru_get (refreshed c) blockHash in
  if match last with Some t => (now - t <? refreshInterval)%Z | None => false end
  then (false, mkCache (maxLeaves c) (lru c) (totalLeaves c) (gen c) (inflight c) r)
  else (true, mkCache (maxLeaves c) (lru c) (totalLeaves c) (gen c) (inflight c)
                (lru_add r blockHash now).1).

(** What the fill makes of the bytes it fetched. *)
Definition buildIndex (fetched : Res (list byte)) : option Idx :=
  match fetched with
  | Err _ => None
  | Ok [] => None
  | Ok data => match IndexCompound data with Ok i => Some i | Err _ => None end
  end.

(** [index] without a concurrent flight: the leader's run, [fetched] being
    what its fetch returned. *)
Definition index (c : Cache) (blockHash : string) (fetched : Res (list byte)) : option Idx * Cache :=
  match lookup_ c blockHash with
  | (Some i, c1) => (Some i, c1)
  | (None, c1) =>
      match lookup_ c1 blockHash with
      | (Some i, c2) => (Some i, c2)
      | (None, c2) =>
          let '(token, c3) := beginFill c2 blockHash in
          let built := buildIndex fetched in
          (built, endFill c3 blockHash built token)
      end
  end.

Definition pathFor (c : Cache) (blockHash txid : string) (now : Z) (fetched : Res (list byte))
  : option (list byte) * Cache :=
  let '(idx, c1) := lookup_ c blockHash in
  let cached := match idx with Some _ => true | None => false end in
  let '(idx, c1) := match idx with Some i => (Some i, c1) | None => index c1 blockHash fetched end in
  match idx with
  | None => (None, c1)
  | Some i =>
      match MinimalPathBytes i txid with
      | Some p => (Some p, c1)
      | None =>
          if negb cached then (None, c1)
          else match claimRefresh c1 blockHash now with
               | (false, c2) => (None, c2)
               | (true, c2) =>
                   match index (Remove c2 blockHash) blockHash fetched with
                   | (None, c3) => (None, c3)
                   | (Some i', c3) => (MinimalPathBytes i' txid, c3)
                   end
               end
      end
  end.

Definition MinimalPath (c : Cache) (blockHash txid : string) (now : Z) (fetched : Res (list byte))
  : option (list byte) * Cache :=
  if String.eqb blockHash "" || String.eqb txid "" then (None, c)
  else pathFor c blockHash txid now fetched.

(** [Enrich]: the status with its path filled in; a nil path is empty. *)
Definition Enrich (c : Cache) (status : TransactionStatus) (now : Z) (fetched : Res (list byte))
  : TransactionStatus * Cache :=
  if negb (match ts_MerklePath status with [] => true | _ => false end) || String.eqb (ts_BlockHash status) ""
  then (status, c)
  else if negb (String.eqb (ts_Status status) StatusMined)
          && negb (String.eqb (ts_Status status) StatusImmutable) then (status, c)
  else
    let '(p, c') := pathFor c (ts_BlockHash status) (ts_TxID status) now fetched in
    (mkTransactionStatus (ts_TxID status) (ts_Status status) (ts_StatusCode status) (ts_Timestamp status)
       (ts_TxIDs status) (ts_BlockHash status) (ts_BlockHeight status) (default [] p) (ts_ExtraInfo status)
       (ts_CompetingTxs status) (ts_RawTx status) (ts_RetryCount status) (ts_NextRetryAt status)
       (ts_CreatedAt status) (ts_OrphanedProofs status) (ts_MerkleRegisteredAt status), c').
End Cache.
Arguments Cache L LT : clear implicits.

(** ** Entry lists *)
Section Entries.
Context {V : Type}.
Implicit Types l : list (string * V).

Lemma entry_of_elem l k v : entry_of l k = Some v -> (k, v) ∈ l.
Proof.
  unfold entry_of. intros ([k' v'] & Hf & [= ->])%fmap_Some. apply List.find_some in Hf as [Hin Hk].
  simpl in Hk. apply String.eqb_eq in Hk as ->. by apply list_elem_of_In.
Qed.

Lemma elem_entry_of l k v : NoDup l.*1 -> (k, v) ∈ l -> entry_of l k = Some v.
Proof.
  induction l as [|[k' v'] l IH]; [set_solver|]. rewrite fmap_cons. intros [Hk Hnd]%NoDup_cons Hin.
  unfold entry_of in *. simpl. destruct (String.eqb_spec k' k) as [->|Hne].
  - apply elem_of_cons in Hin as [[= ->]|Hin]; [done|]. destruct Hk. by apply (list_elem_of_fmap_2 fst) in Hin.
  - apply IH; [done|]. set_solver.
Qed.

Lemma entry_of_None l k : entry_of l k = None ↔ ∀ v, (k, v) ∉ l.
Proof.
  unfold entry_of. rewrite fmap_None. split.
  - intros Hf v Hin%list_elem_of_In. apply (List.find_none _ _ Hf) in Hin. simpl in Hin.
    by rewrite String.eqb_refl in Hin.
  - intros Hni. destruct (List.find _ l) as [[k' v]|] eqn:E; [|done].
    apply List.find_some in E as [Hin Hk]. simpl in Hk. apply String.eqb_eq in Hk as ->.
    apply list_elem_of_In in Hin. by destruct (Hni v).
Qed.

Lemma without_elem l k k' v : (k', v) ∈ without l k ↔ (k', v) ∈ l ∧ k' ≠ k.
Proof.
  unfold without. rewrite list_elem_of_In, List.filter_In, <-list_elem_of_In. simpl.
  rewrite negb_true_iff, String.eqb_neq. done.
Qed.

Lemma removelast_sublist (l : list (string * V)) : removelast l `sublist_of` l.
Proof.
  induction l as [|x l IH]; [constructor|]. destruct l as [|y l]; [apply sublist_nil_l|].
  change (removelast (x :: y :: l)) with (x :: removelast (y :: l)). by constructor.
Qed.

Lemma removelast_length (l : list (string * V)) : length (removelast l) = (length l - 1)%nat.
Proof.
  induction l as [|x l IH]; [done|]. destruct l as [|y l]; [done|].
  change (removelast (x :: y :: l)) with (x :: removelast (y :: l)). simpl in *. lia.
Qed.

(** The leaves an entry list accounts for. *)
Definition total_of (f : V -> Z) l : Z := foldr (fun e n => f e.2 + n)%Z 0%Z l.

Lemma total_of_app f l l' : total_of f (l ++ l') = (total_of f l + total_of f l')%Z.
Proof. induction l as [|e l IH]; simpl; [done|]. unfold total_of in *. simpl. lia. Qed.

Lemma total_of_without f l k :
  NoDup l.*1 -> total_of f (without l k) = (total_of f l - match entry_of l k with Some v => f v | None => 0 end)%Z.
Proof.
  induction l as [|[k' v] l IH]; [done|]. rewrite fmap_cons. intros [Hk Hnd]%NoDup_cons.
  unfold without, entry_of in *. simpl. destruct (String.eqb_spec k' k) as [->|Hne]; simpl.
  - rewrite (IH Hnd). destruct (List.find _ l) as [[k' v']|] eqn:E; simpl; [|lia].
    apply List.find_some in E as [Hin Hk']. simpl in Hk'. apply String.eqb_eq in Hk' as ->.
    destruct Hk. apply list_elem_of_In in Hin. by apply (list_elem_of_fmap_2 fst) in Hin.
  - rewrite (IH Hnd). lia.
Qed.

Lemma total_of_removelast f l :
  total_of f (removelast l) = (total_of f l - match last l with Some e => f e.2 | None => 0 end)%Z.
Proof.
  induction l as [|x l IH]; [done|]. destruct l as [|y l]; [simpl; lia|].
  change (removelast (x :: y :: l)) with (x :: removelast (y :: l)).
  change (last (x :: y :: l)) with (last (y :: l)). unfold total_of in *. simpl in *. lia.
Qed.

Lemma without_absent l k : entry_of l k = None -> without l k = l.
Proof.
  rewrite entry_of_None. intros Hni. induction l as [|[k' v] l IH]; [done|]. unfold without in *. simpl.
  destruct (String.eqb_spec k' k) as [->|]; simpl; [destruct (Hni v); set_solver|].
  rewrite IH; [done|]. set_solver.
Qed.

Lemma without_length l k : (length (without l k) <= length l)%nat.
Proof. apply List.filter_length_le. Qed.
End Entries.

(** ** The fill protocol *)
Section Protocol.
Context {Idx : Type} (Leaves : Idx -> Z) (IndexCompound : list byte -> Res Idx).
Context {L LT : Type} {LruL : LRU L Idx} {LawsL : LRULaws L Idx} {LruT : LRU LT Z}.

(** A fill in flight: its block, its token, and what it fetched so far. *)
Record fill : Type := mkFill {
  f_block : string;
  f_token : Z;
  f_data : option (Res (list byte))
}.

(** The cache, the stored compound of each block, the blocks written whose
    writer has not yet invalidated the cache, and the fills in flight. *)
Record proto : Type := mkProto {
  p_cache : Cache L LT;
  p_stored : gmap string (list byte);
  p_pending : list string;
  p_fills : list fill
}.

(** What [GetBUMP] gives a fill now. *)
Definition fetchOf (p : proto) (b : string) : Res (list byte) :=
  match p_stored p !! b with Some data => Ok data | None => Err ErrNotFound end.

Definition currentIndex (p : proto) (b : string) : option Idx := buildIndex IndexCompound (fetchOf p b).

Definition withCache (p : proto) (c : Cache L LT) : proto := mkProto c (p_stored p) (p_pending p) (p_fills p).

Inductive proto_step (p : proto) : proto -> Prop :=
| st_lookup b : proto_step p (withCache p (lookup_ (p_cache p) b).2)
| st_begin b :
    proto_step p (mkProto (beginFill (p_cache p) b).2 (p_stored p) (p_pending p)
                    (mkFill b (beginFill (p_cache p) b).1 None :: p_fills p))
| st_fetch fs1 f fs2 r :
    p_fills p = fs1 ++ f :: fs2 -> r = fetchOf p (f_block f) ∨ (∃ e, r = Err e) ->
    proto_step p (mkProto (p_cache p) (p_stored p) (p_pending p)
                    (fs1 ++ mkFill (f_block f) (f_token f) (Some r) :: fs2))
| st_end fs1 f fs2 :
    p_fills p = fs1 ++ f :: fs2 ->
    proto_step p (mkProto (endFill Leaves (p_cache p) (f_block f)
                             (match f_data f with Some r => buildIndex IndexCompound r | None => None end) (f_token f))
                    (p_stored p) (p_pending p) (fs1 ++ fs2))
| st_write b data :
    proto_step p (mkProto (p_cache p) (<[b := data]> (p_stored p)) (b :: p_pending p) (p_fills p))
| st_delete b :
    proto_step p (mkProto (p_cache p) (delete b (p_stored p)) (b :: p_pending p) (p_fills p))
| st_remove ps1 b ps2 :
    p_pending p = ps1 ++ b :: ps2 ->
    proto_step p (mkProto (Remove Leaves (p_cache p) b) (p_stored p) (ps1 ++ ps2) (p_fills p))
| st_invalidate b : proto_step p (withCache p (Remove Leaves (p_cache p) b)).

Definition fillsOn (b : string) (fs : list fill) : nat :=
  length (List.filter (fun f => String.eqb (f_block f) b) fs).

Definition current (p : proto) (b : string) (i : Idx) : Prop :=
  b ∈ p_pending p ∨ currentIndex p b = Some i.

Record proto_ok (n : nat) (p : proto) : Prop := {
  ok_cached b i : (b, i) ∈ lru_entries (lru (p_cache p)) -> current p b i;
  ok_fills f r i : f ∈ p_fills p -> f_token f = counter (gen (p_cache p)) (f_block f) ->
    f_data f = Some r -> buildIndex IndexCompound r = Some i -> current p (f_block f) i;
  ok_inflight b : counter (inflight (p_cache p)) b = Z.of_nat (fillsOn b (p_fills p));
  ok_tokens f : f ∈ p_fills p -> (f_token f <= counter (gen (p_cache p)) (f_block f))%Z;
  ok_gen b : (0 <= counter (gen (p_cache p)) b <= Z.of_nat n)%Z
}.

Lemma counter_insert m b k v : counter (<[b := v]> m) k = if decide (k = b) then v else counter m k.
Proof.
  unfold counter. case_decide as Hd; [subst; by rewrite lookup_insert_eq|by rewrite lookup_insert_ne].
Qed.

Lemma counter_delete m b k : counter (delete b m) k = if decide (k = b) then 0%Z else counter m k.
Proof.
  unfold counter. case_decide as Hd; [subst; by rewrite lookup_delete_eq|by rewrite lookup_delete_ne].
Qed.

Lemma fillsOn_app b fs1 fs2 : fillsOn b (fs1 ++ fs2) = (fillsOn b fs1 + fillsOn b fs2)%nat.
Proof. unfold fillsOn. by rewrite List.filter_app, length_app. Qed.

Lemma fillsOn_cons b f fs :
  fillsOn b (f :: fs) = ((if String.eqb (f_block f) b then 1 else 0) + fillsOn b fs)%nat.
Proof. unfold fillsOn. simpl. by destruct (String.eqb (f_block f) b). Qed.

Lemma fillsOn_zero b fs f : fillsOn b fs = 0%nat -> f ∈ fs -> f_block f ≠ b.
Proof.
  intros Hz Hin <-. induction fs as [|g fs IH]; [set_solver|]. rewrite fillsOn_cons in Hz.
  apply elem_of_cons in Hin as [->|Hin]; [by rewrite String.eqb_refl in Hz|]. apply IH; [lia|done].
Qed.

(** Entries an eviction leaves were there before. *)
Lemma evictLoop_sub fuel maxL l total :
  lru_entries (evictLoop Leaves fuel maxL l total).1 `sublist_of` lru_entries l.
Proof.
  revert l total. induction fuel as [|fuel IH]; intros l total; [done|]. cbn [evictLoop].
  destruct (_ && _); [|done]. destruct (oldest_entries l) as [He _].
  destruct (lru_removeOldest l) as [l' v]. simpl in He. etrans; [apply IH|]. rewrite He. apply removelast_sublist.
Qed.

(** What an install leaves cached. *)
Lemma endFill_entries (c : Cache L LT) b idx token b' i :
  (b', i) ∈ lru_entries (lru (endFill Leaves c b idx token)) ->
  (b', i) ∈ lru_entries (lru c) ∨ (b' = b ∧ idx = Some i ∧ token = counter (gen c) b).
Proof.
  unfold endFill. destruct idx as [j|]; [|by left].
  destruct (Z.eqb_spec (counter (gen c) b) token) as [<-|]; simpl; [|by left].
  destruct (remove_entries (lru c) b) as [Hr _]. destruct (lru_remove (lru c) b) as [l1 v1]. simpl in Hr.
  assert (entry_of (lru_entries l1) b = None) as Habs.
  { apply entry_of_None. intros v. rewrite Hr, without_elem. tauto. }
  destruct (add_absent l1 b j Habs) as [Ha _]. destruct (lru_add l1 b j) as [l2 v2]. simpl in Ha.
  pose proof (evictLoop_sub (length (lru_entries l2)) (maxLeaves c) l2
    (evicted Leaves (evicted Leaves (totalLeaves c) v1) v2 + Leaves j)) as He.
  destruct (evictLoop _ _ _ _ _) as [l3 total']. simpl in *. intros Hin.
  assert ((b', i) ∈ lru_entries l2) as Hin2 by (by eapply elem_of_sublist).
  rewrite Ha in Hin2. apply elem_of_take in Hin2 as (k & Hk & _). apply list_elem_of_lookup_2 in Hk.
  apply elem_of_cons in Hk as [[= -> ->]|Hk]; [auto|]. left. rewrite Hr in Hk. by apply without_elem in Hk as [? _].
Qed.

Lemma lookup_entries (c : Cache L LT) b e : e ∈ lru_entries (lru (lookup_ c b).2) ↔ e ∈ lru_entries (lru c).
Proof.
  unfold lookup_. pose proof (get_moves (lru c) b) as Hm. destruct (lru_get (lru c) b) as [r l]. simpl in *.
  rewrite Hm. destruct (entry_of (lru_entries (lru c)) b) as [v|] eqn:E; [|done].
  apply entry_of_elem in E. destruct e as [k w]. rewrite elem_of_cons, without_elem. split.
  - intros [[= -> ->]|[? _]]; done.
  - intros Hin. destruct (decide (k = b)) as [->|]; [|auto].
    pose proof (keys_unique (lru c)) as Hnd. left. f_equal.
    apply (elem_entry_of _ _ _ Hnd) in E, Hin. congruence.
Qed.

Lemma elem_mid {A} (x y : A) l1 l2 : x ∈ l1 ++ l2 -> x ∈ l1 ++ y :: l2.
Proof. rewrite !elem_of_app, elem_of_cons. tauto. Qed.

Lemma Remove_entries (c : Cache L LT) b b' i :
  (b', i) ∈ lru_entries (lru (Remove Leaves c b)) ↔ (b', i) ∈ lru_entries (lru c) ∧ b' ≠ b.
Proof.
  unfold Remove. destruct (remove_entries (lru c) b) as [Hr _]. destruct (lru_remove (lru c) b) as [l v].
  simpl in *. rewrite Hr. apply without_elem.
Qed.

Lemma Remove_gen (c : Cache L LT) b :
  gen (Remove Leaves c b) = (if (0 <? counter (inflight c) b)%Z
    then <[b := uint64 (counter (gen c) b + 1)]> (gen c) else gen c) ∧
  inflight (Remove Leaves c b) = inflight c.
Proof. unfold Remove. by destruct (lru_remove (lru c) b). Qed.

Lemma endFill_counters (c : Cache L LT) b idx token :
  inflight (endFill Leaves c b idx token) =
    (if (counter (inflight c) b - 1 <=? 0)%Z then delete b (inflight c)
     else <[b := (counter (inflight c) b - 1)%Z]> (inflight c)) ∧
  gen (endFill Leaves c b idx token) =
    (if (counter (inflight c) b - 1 <=? 0)%Z then delete b (gen c) else gen c).
Proof.
  unfold endFill. destruct idx as [j|]; [|done]. destruct (negb _); [done|].
  destruct (lru_remove _ _) as [l1 v1], (lru_add _ _ _) as [l2 v2].
  by destruct (evictLoop _ _ _ _ _).
Qed.

(** Invalidating a block keeps the invariant, whatever is in flight: the
    entry is gone and every registered fill's token is stale. *)
Lemma ok_remove n p b pend :
  proto_ok n p -> (Z.of_nat n + 1 < 2 ^ 64)%Z -> (∀ x, x ≠ b -> x ∈ p_pending p -> x ∈ pend) ->
  proto_ok (S n) (mkProto (Remove Leaves (p_cache p) b) (p_stored p) pend (p_fills p)).
Proof.
  intros [H1 H2 H3 H4 H5] Hn Hpend. destruct (Remove_gen (p_cache p) b) as [Eg Ei].
  pose proof (H5 b) as H5b. pose proof (H3 b) as H3b.
  assert (∀ x i, x ≠ b -> current p x i -> current (mkProto (Remove Leaves (p_cache p) b) (p_stored p) pend (p_fills p)) x i)
    as Hcur by (unfold current; simpl; naive_solver).
  assert (∀ k, counter (gen (Remove Leaves (p_cache p) b)) k =
    if decide (k = b ∧ (0 < counter (inflight (p_cache p)) b)%Z) then (counter (gen (p_cache p)) b + 1)%Z
    else counter (gen (p_cache p)) k) as Hg.
  { intros k. rewrite Eg. destruct (Z.ltb_spec 0 (counter (inflight (p_cache p)) b)).
    - rewrite counter_insert. destruct (decide (k = b)) as [->|Hk].
      + rewrite decide_True by done. apply uint64_id. unfold is_u64. lia.
      + rewrite decide_False; [done|]. tauto.
    - rewrite decide_False; [done|]. lia. }
  split; simpl.
  - intros x i [Hin Hne]%Remove_entries. apply Hcur; auto.
  - intros f r i Hf Htok Hd Hb. rewrite Hg in Htok. case_decide as Hdec.
    + destruct Hdec as [Eb _]. specialize (H4 f Hf). rewrite Eb in *. lia.
    + destruct (decide (f_block f = b)) as [Eb|Hne]; [|by eapply Hcur, H2].
      exfalso. assert (¬ (0 < counter (inflight (p_cache p)) b)%Z) as Hno by tauto.
      assert (fillsOn b (p_fills p) = 0%nat) as Hz by lia.
      by apply (fillsOn_zero b _ f Hz Hf).
  - intros k. by rewrite Ei.
  - intros f Hf. rewrite Hg. specialize (H4 f Hf).
    destruct (decide (f_block f = b ∧ _)) as [[Eb _]|]; [rewrite Eb in H4; lia|done].
  - intros k. rewrite Hg. specialize (H5 k). destruct (decide (k = b ∧ _)); lia.
Qed.

Lemma ok_end n p fs1 f fs2 :
  proto_ok n p -> p_fills p = fs1 ++ f :: fs2 ->
  proto_ok n (mkProto (endFill Leaves (p_cache p) (f_block f)
      (match f_data f with Some r => buildIndex IndexCompound r | None => None end) (f_token f))
    (p_stored p) (p_pending p) (fs1 ++ fs2)).
Proof.
  intros [H1 H2 H3 H4 H5] Hfs. set (idx := match f_data f with Some r => _ | None => None end).
  destruct (endFill_counters (p_cache p) (f_block f) idx (f_token f)) as [Ei Eg].
  assert (counter (inflight (p_cache p)) (f_block f) = Z.of_nat (S (fillsOn (f_block f) (fs1 ++ fs2)))) as Hcnt.
  { rewrite H3, Hfs, !fillsOn_app, fillsOn_cons, String.eqb_refl. lia. }
  assert (∀ g, g ∈ fs1 ++ fs2 -> g ∈ p_fills p) as Hsub by (intros g Hg; rewrite Hfs; by apply elem_mid).
  assert (∀ g, g ∈ fs1 ++ fs2 -> counter (gen (endFill Leaves (p_cache p) (f_block f) idx (f_token f))) (f_block g)
    = counter (gen (p_cache p)) (f_block g)) as Hg.
  { intros g Hin. rewrite Eg. destruct (Z.leb_spec (counter (inflight (p_cache p)) (f_block f) - 1) 0); [|done].
    rewrite counter_delete, decide_False; [done|]. apply (fillsOn_zero _ (fs1 ++ fs2)); [lia|done]. }
  split; simpl.
  - intros b i [Hin|(-> & Hi & Ht)]%endFill_entries; [by apply H1|]. unfold idx in Hi.
    destruct (f_data f) as [r|] eqn:Ed; [|done]. eapply (H2 f r i); [|done|done|done].
    rewrite Hfs. set_solver.
  - intros g r i Hin Ht Hd Hb. rewrite Hg in Ht by done. eapply (H2 g r i); auto.
  - intros b. rewrite Ei, fillsOn_app. specialize (H3 b). rewrite Hfs, fillsOn_app, fillsOn_cons in H3.
    rewrite fillsOn_app in Hcnt.
    destruct (Z.leb_spec (counter (inflight (p_cache p)) (f_block f) - 1) 0).
    + rewrite counter_delete. case_decide as Hd; [subst b; lia|].
      destruct (String.eqb_spec (f_block f) b); [by subst|]. lia.
    + rewrite counter_insert. case_decide as Hd; [subst b; lia|].
      destruct (String.eqb_spec (f_block f) b); [by subst|]. lia.
  - intros g Hin. rewrite Hg by done. auto.
  - intros b. rewrite Eg. specialize (H5 b). destruct (_ <=? _)%Z; [|lia].
    rewrite counter_delete. case_decide; lia.
Qed.

Lemma ok_step n p p' :
  proto_ok n p -> (Z.of_nat n + 1 < 2 ^ 64)%Z -> proto_step p p' -> proto_ok (S n) p'.
Proof.
  assert (∀ q, proto_ok n q -> proto_ok (S n) q) as Hmono.
  { intros q [H1 H2 H3 H4 H5]. split; auto. intros b. specialize (H5 b). lia. }
  intros Hok Hn [b|b|fs1 f fs2 r Hfs Hr|fs1 f fs2 Hfs|b data|b|ps1 b ps2 Hps|b].
  - apply Hmono. destruct Hok as [H1 H2 H3 H4 H5].
    assert (gen (lookup_ (p_cache p) b).2 = gen (p_cache p) ∧
            inflight (lookup_ (p_cache p) b).2 = inflight (p_cache p)) as [Eg Ei]
      by (unfold lookup_; by destruct (lru_get _ _)).
    split; simpl; rewrite ?Eg, ?Ei; auto. intros b' i Hin%lookup_entries. by apply H1.
  - apply Hmono. destruct Hok as [H1 H2 H3 H4 H5]. split; simpl; auto.
    + intros f r i [->|Hf]%elem_of_cons Ht Hd; [done|]. by apply H2.
    + intros b'. rewrite counter_insert, fillsOn_cons. simpl. rewrite !H3.
      case_decide as Hd; [subst; rewrite String.eqb_refl; lia|].
      destruct (String.eqb_spec b b'); [by subst|lia].
    + intros f [->|Hf]%elem_of_cons; [simpl; lia|auto].
  - apply Hmono. destruct Hok as [H1 H2 H3 H4 H5]. rewrite Hfs in *. split; simpl; auto.
    + intros g r' i [Hin|[->|Hin]%elem_of_cons]%elem_of_app Ht Hd Hb.
      * eapply H2; eauto. rewrite elem_of_app. auto.
      * simpl in *. injection Hd as <-. destruct Hr as [->|[e ->]]; [|done]. by right.
      * eapply H2; eauto. rewrite elem_of_app, elem_of_cons. auto.
    + intros b. rewrite H3, !fillsOn_app, !fillsOn_cons. done.
    + intros g [Hin|[->|Hin]%elem_of_cons]%elem_of_app; [apply H4|simpl; apply (H4 f)|apply H4]; set_solver.
  - by apply Hmono, ok_end.
  - apply Hmono. destruct Hok as [H1 H2 H3 H4 H5]. split; simpl; auto.
    + intros b' i Hin. unfold current, currentIndex, fetchOf; simpl. destruct (decide (b' = b)) as [->|]; [set_solver|].
      rewrite lookup_insert_ne by done. destruct (H1 b' i Hin); [set_solver|auto].
    + intros f r i Hf Ht Hd Hb. unfold current, currentIndex, fetchOf; simpl.
      destruct (decide (f_block f = b)) as [->|]; [set_solver|].
      rewrite lookup_insert_ne by done. destruct (H2 f r i Hf Ht Hd Hb); [set_solver|auto].
  - apply Hmono. destruct Hok as [H1 H2 H3 H4 H5]. split; simpl; auto.
    + intros b' i Hin. unfold current, currentIndex, fetchOf; simpl. destruct (decide (b' = b)) as [->|]; [set_solver|].
      rewrite lookup_delete_ne by done. destruct (H1 b' i Hin); [set_solver|auto].
    + intros f r i Hf Ht Hd Hb. unfold current, currentIndex, fetchOf; simpl.
      destruct (decide (f_block f = b)) as [->|]; [set_solver|].
      rewrite lookup_delete_ne by done. destruct (H2 f r i Hf Ht Hd Hb); [set_solver|auto].
  - apply ok_remove; [done|done|]. rewrite Hps. set_solver.
  - apply ok_remove; [done|done|]. auto.
Qed.

(** C13: a cached compound is never stale once its writer is done: in any
    interleaving of lookups, overlapping fills, store writes, deletes and
    invalidations, an entry for a block none of whose writers is between its
    write and its invalidation is the index of the compound now stored.  The
    bound keeps the [uint64] generation from wrapping within one run. *)
Theorem no_stale_install (n : nat) (p p' : proto) (b : string) (i : Idx) :
  lru_entries (lru (p_cache p)) = [] -> gen (p_cache p) = ∅ -> inflight (p_cache p) = ∅ ->
  p_fills p = [] -> (Z.of_nat n < 2 ^ 64)%Z ->
  nsteps proto_step n p p' ->
  b ∉ p_pending p' -> (lookup_ (p_cache p') b).1 = Some i -> currentIndex p' b = Some i.
Proof.
  intros El Eg Ei Ef Hn Hs Hb Hl.
  assert (proto_ok 0 p) as Hok.
  { split; rewrite ?El, ?Eg, ?Ei, ?Ef; try set_solver; try done. }
  assert (∀ m q q' k, nsteps proto_step k q q' -> proto_ok m q -> (Z.of_nat (m + k) < 2 ^ 64)%Z ->
    ∃ m', proto_ok m' q') as Hrun.
  { intros m q q' k Hs'. revert m. induction Hs' as [q|k q q1 q' Hst _ IH]; intros m Hok' Hn'; [eauto|].
    apply (IH (S m)); [|lia]. eapply ok_step; [done| |done]. lia. }
  destruct (Hrun 0%nat p p' n Hs Hok) as [m Hok']; [lia|].
  unfold lookup_ in Hl. pose proof (get_entries (lru (p_cache p')) b) as Hg.
  destruct (lru_get (lru (p_cache p')) b) as [r l]. simpl in *. rewrite Hl in Hg.
  symmetry in Hg. apply entry_of_elem in Hg. destruct (ok_cached _ _ Hok' b i Hg); [done|done].
Qed.

(** ** The leaf budget *)

(** [totalLeaves] is exact, and over budget only with a single entry. *)
Definition within_budget (c : Cache L LT) : Prop :=
  totalLeaves c = total_of Leaves (lru_entries (lru c)) ∧
  ((totalLeaves c <= maxLeaves c)%Z ∨ (length (lru_entries (lru c)) <= 1)%nat).

Lemma evictLoop_budget fuel maxL (l : L) total :
  total = total_of Leaves (lru_entries l) -> (length (lru_entries l) <= fuel)%nat ->
  let r := evictLoop Leaves fuel maxL l total in
  r.2 = total_of Leaves (lru_entries r.1) ∧ ((r.2 <= maxL)%Z ∨ (length (lru_entries r.1) <= 1)%nat).
Proof.
  revert l total. induction fuel as [|fuel IH]; intros l total Ht Hlen; [simpl; auto with lia|]. cbn [evictLoop].
  destruct (Z.ltb_spec maxL total), (Nat.ltb_spec 1 (length (lru_entries l))); cbn [andb fst snd]; auto with lia.
  destruct (oldest_entries l) as [He Hv]. destruct (lru_removeOldest l) as [l' v]. cbn [fst snd] in *.
  apply IH; rewrite He; [|rewrite removelast_length; lia].
  rewrite total_of_removelast, Hv, Ht. destruct (last (lru_entries l)); simpl; lia.
Qed.

Lemma endFill_budget (c : Cache L LT) b idx token : within_budget c -> within_budget (endFill Leaves c b idx token).
Proof.
  intros [Ht Hb]. unfold endFill. destruct idx as [j|]; [|done]. destruct (negb _); [done|].
  destruct (remove_entries (lru c) b) as [Hr Hrv]. pose proof (keys_unique (lru c)) as Hnd.
  destruct (lru_remove (lru c) b) as [l1 v1]. simpl in Hr, Hrv.
  assert (entry_of (lru_entries l1) b = None) as Habs.
  { apply entry_of_None. intros v. rewrite Hr, without_elem. tauto. }
  destruct (add_absent l1 b j Habs) as [Ha Hav]. pose proof (within_size l1) as Hw.
  destruct (lru_add l1 b j) as [l2 v2]. simpl in Ha, Hav.
  assert (evicted Leaves (evicted Leaves (totalLeaves c) v1) v2 + Leaves j
    = total_of Leaves (lru_entries l2))%Z as Htot.
  { assert (evicted Leaves (totalLeaves c) v1 = total_of Leaves (lru_entries l1)) as E1.
    { rewrite Hr, total_of_without, Ht, Hrv by done. destruct (entry_of _ _); simpl; lia. }
    rewrite E1. rewrite Hav, Ha. set (es := (b, j) :: lru_entries l1) in *.
    assert (total_of Leaves es = Leaves j + total_of Leaves (lru_entries l1))%Z as E2 by done.
    rewrite <-(take_drop (lru_size l1) es) in E2 at 1. rewrite total_of_app in E2.
    assert (length (drop (lru_size l1) es) <= 1)%nat as Hd by (rewrite length_drop; simpl; lia).
    assert (es !! lru_size l1 = drop (lru_size l1) es !! 0%nat) as -> by (rewrite lookup_drop; f_equal; lia).
    destruct (drop (lru_size l1) es) as [|e [|e' r]]; simpl in *; lia. }
  pose proof (evictLoop_budget (length (lru_entries l2)) (maxLeaves c) l2 _ Htot (le_n _)) as He.
  destruct (evictLoop _ _ _ _ _) as [l3 total']. done.
Qed.

Lemma Remove_budget (c : Cache L LT) b :
  (∀ i, (0 <= Leaves i)%Z) -> within_budget c -> within_budget (Remove Leaves c b).
Proof.
  intros Hpos [Ht Hb]. unfold Remove. destruct (remove_entries (lru c) b) as [Hr Hrv].
  pose proof (keys_unique (lru c)) as Hnd. destruct (lru_remove (lru c) b) as [l v]. simpl in Hr, Hrv.
  unfold within_budget. simpl. rewrite Hr, total_of_without, Hrv, <-Ht by done.
  pose proof (without_length (lru_entries (lru c)) b).
  destruct (entry_of (lru_entries (lru c)) b) as [i|]; simpl; [specialize (Hpos i)|]; split; lia.
Qed.

Lemma lookup_budget (c : Cache L LT) b : within_budget c -> within_budget (lookup_ c b).2.
Proof.
  intros [Ht Hb]. unfold lookup_. pose proof (get_moves (lru c) b) as Hm. pose proof (keys_unique (lru c)) as Hnd.
  destruct (lru_get (lru c) b) as [r l]. unfold within_budget. simpl in *. rewrite Hm.
  destruct (entry_of (lru_entries (lru c)) b) as [v|] eqn:E; [|done].
  assert (total_of Leaves ((b, v) :: without (lru_entries (lru c)) b) = total_of Leaves (lru_entries (lru c))) as ->.
  { change (total_of Leaves ((b, v) :: ?x)) with (Leaves v + total_of Leaves x)%Z.
    rewrite total_of_without, E by done. lia. }
  split; [done|]. destruct Hb as [|Hlen]; [auto|]. right. simpl.
  destruct (lru_entries (lru c)) as [|[k w] [|]]; simpl in *; [done| |lia].
  unfold entry_of in E. simpl in E. destruct (String.eqb_spec k b); [|done].
  unfold without. simpl. subst. rewrite ?String.eqb_refl. simpl. lia.
Qed.

(** The cache's leaf counter is exact through every interleaving of
    fills, evictions and invalidations, and the budget is exceeded only while
    a single compound is resident. *)
Theorem leaf_budget (p p' : proto) :
  (∀ i, (0 <= Leaves i)%Z) -> within_budget (p_cache p) -> rtc proto_step p p' -> within_budget (p_cache p').
Proof.
  intros Hpos Hb Hs. induction Hs as [|x y z Hst _ IH]; [done|]. apply IH. clear IH.
  destruct Hst; simpl; auto using endFill_budget, Remove_budget, lookup_budget.
Qed.
End Protocol.

(** ** The association-list instance *)

Record assocLRU (V : Type) : Type := mkAssocLRU {
  al_size : nat;
  al_entries : list (string * V);
  al_ok : (length al_entries <= al_size)%nat ∧ NoDup al_entries.*1
}.
Arguments mkAssocLRU {V} _ _ _.
Arguments al_size {V} _.
Arguments al_entries {V} _.
Arguments al_ok {V} _.

Section AssocLRU.
Context {V : Type}.

Lemma without_ok (l : list (string * V)) k n :
  (length l <= n)%nat ∧ NoDup l.*1 -> (length (without l k) <= n)%nat ∧ NoDup (without l k).*1.
Proof.
  intros [Hl Hn]. split; [pose proof (without_length l k); lia|]. eapply sublist_NoDup; [exact Hn|].
  clear. induction l as [|[k' v] l IH]; [done|]. unfold without in *. simpl.
  destruct (String.eqb k' k); simpl; by constructor.
Qed.

Lemma front_ok (l : list (string * V)) k v n :
  entry_of l k = Some v -> (length l <= n)%nat ∧ NoDup l.*1 ->
  (length ((k, v) :: without l k) <= n)%nat ∧ NoDup ((k, v) :: without l k).*1.
Proof.
  intros He Hok. destruct (without_ok l k n Hok) as [_ Hnd]. destruct Hok as [Hl Hn]. split.
  - simpl. enough (length (without l k) < length l)%nat by lia. apply entry_of_elem in He. clear -He.
    induction l as [|[k' w] l IH]; [set_solver|]. unfold without in *. simpl.
    destruct (String.eqb_spec k' k) as [->|Hne]; simpl.
    + pose proof (List.filter_length_le (fun e : string * V => negb (String.eqb e.1 k)) l). lia.
    + apply elem_of_cons in He as [[= -> _]|He]; [done|]. specialize (IH He). lia.
  - rewrite fmap_cons. constructor; [|done]. intros ([k' w] & Ek & Hin)%list_elem_of_fmap. simpl in Ek. subst.
    apply without_elem in Hin as [_ ?]. done.
Qed.

Lemma add_ok (l : list (string * V)) k v n :
  (length l <= n)%nat ∧ NoDup l.*1 ->
  (length (take n ((k, v) :: without l k)) <= n)%nat ∧ NoDup (take n ((k, v) :: without l k)).*1.
Proof.
  intros Hok. destruct (without_ok l k n Hok) as [_ Hnd]. split; [rewrite length_take; lia|].
  eapply sublist_NoDup; [|rewrite fmap_take; apply sublist_take]. rewrite fmap_cons. constructor; [|done].
  intros ([k' w] & Ek & Hin)%list_elem_of_fmap. simpl in Ek. subst. apply without_elem in Hin as [_ ?]. done.
Qed.

Lemma removelast_ok (l : list (string * V)) n :
  (length l <= n)%nat ∧ NoDup l.*1 -> (length (removelast l) <= n)%nat ∧ NoDup (removelast l).*1.
Proof.
  intros [Hl Hn]. rewrite removelast_length. split; [lia|]. eapply sublist_NoDup; [exact Hn|].
  apply fmap_sublist, removelast_sublist.
Qed.

Lemma get_ok (l : list (string * V)) k n :
  (length l <= n)%nat ∧ NoDup l.*1 ->
  let l' := match entry_of l k with Some v => (k, v) :: without l k | None => l end in
  (length l' <= n)%nat ∧ NoDup l'.*1.
Proof. intros Hok. simpl. destruct (entry_of l k) eqn:E; [by apply front_ok|done]. Qed.

#[export] Instance assoc_LRU : LRU (assocLRU V) V := {
  lru_entries l := al_entries l;
  lru_size l := al_size l;
  lru_get l k := (entry_of (al_entries l) k, mkAssocLRU (al_size l) _ (get_ok _ k _ (al_ok l)));
  lru_contains l k := bool_decide (is_Some (entry_of (al_entries l) k));
  lru_add l k v :=
    (mkAssocLRU (al_size l) _ (add_ok (al_entries l) k v _ (al_ok l)),
     snd <$> ((k, v) :: without (al_entries l) k) !! al_size l);
  lru_remove l k := (mkAssocLRU (al_size l) _ (without_ok _ k _ (al_ok l)), entry_of (al_entries l) k);
  lru_removeOldest l := (mkAssocLRU (al_size l) _ (removelast_ok _ _ (al_ok l)), snd <$> last (al_entries l))
}.

#[export] Instance assoc_LRULaws : LRULaws (assocLRU V) V.
Proof.
  split; intros; simpl; try done.
  - by rewrite without_absent.
  - apply (al_ok l).
  - apply (al_ok l).
Qed.

Definition al_empty (n : nat) : assocLRU V := mkAssocLRU n [] (conj (Nat.le_0_l n) (NoDup_nil_2)).
End AssocLRU.

(** ** Concrete runs *)
Section CacheWitnesses.

Definition wIndex (data : list byte) : Res (list byte) := Ok data.
Definition wLeaves (i : list byte) : Z := Z.of_nat (length i).

Definition wCache : Cache (assocLRU (list byte)) (assocLRU Z) :=
  mkCache 1 (al_empty 2) 0 ∅ ∅ (al_empty 2).
Definition wProto : proto := mkProto wCache ∅ [] [].

(** A compound is written, its writer invalidates, and a fill installs it. *)
Definition wFilled : proto :=
  mkProto (endFill wLeaves (beginFill (Remove wLeaves wCache "b") "b").2 "b" (Some [x01]) 0)
    (<["b" := [x01]]> ∅) [] [].

Lemma wFilled_run : nsteps (proto_step wLeaves wIndex) 5 wProto wFilled.
Proof.
  eapply nsteps_l; [apply (st_write _ _ _ "b" [x01])|].
  eapply nsteps_l; [apply (st_remove _ _ _ [] "b" []); reflexivity|].
  eapply nsteps_l; [apply (st_begin _ _ _ "b")|].
  eapply nsteps_l; [eapply (st_fetch _ _ _ [] _ []); [reflexivity|by left]|].
  eapply nsteps_l; [eapply (st_end _ _ _ [] _ []); reflexivity|].
  apply nsteps_O.
Qed.

Lemma no_stale_install_witness :
  (lookup_ (p_cache wFilled) "b").1 = Some [x01] ∧ currentIndex wIndex wFilled "b" = Some [x01].
Proof.
  split; [vm_compute; reflexivity|].
  apply (no_stale_install wLeaves wIndex 5 wProto wFilled "b" [x01]).
  - reflexivity.
  - reflexivity.
  - reflexivity.
  - reflexivity.
  - lia.
  - exact wFilled_run.
  - apply not_elem_of_nil.
  - vm_compute. reflexivity.
Defined.

Lemma leaf_budget_witness : within_budget wLeaves (p_cache wFilled).
Proof.
  apply (leaf_budget wLeaves wIndex wProto wFilled).
  - intros i. unfold wLeaves. lia.
  - split; [reflexivity|]. right. cbn. lia.
  - apply rtc_nsteps. exists 5%nat. exact wFilled_run.
Defined.
End CacheWitnesses.
