(* ===== verification/PebbleBumps.v ===== *)
(** * PebbleBumps: compound BUMP rows and merkle-path enrichment

    The BUMP rows of [store/pebble/pebble.go] and the reads that go through
    the cache of [BumpCache]: every write drops the block's cached index, and
    [GetStatus] fills in the paths of the current and the historical anchors
    from the stored compounds, extracted by the index of [Bump]. *)
From stdpp Require Import base gmap strings list.
From Stdlib Require Import ZArith Lia.
From Stdlib Require Import Strings.Byte.
From S2P Require Import Prelude Models Keys Engine PebbleTx Bump BumpCache.

Section Bumps.
Context {DB : Type} `{Engine DB}.
Context {Idx : Type} (Leaves : Idx -> Z) (MinimalPathBytes : Idx -> string -> option (list byte)).
Context (IndexCompound : list byte -> Res Idx).
Context {L LT : Type} {LruL : LRU L Idx} {LruT : LRU LT Z}.

Definition InsertBUMP (c : Ctx) (blockHash : string) (blockHeight : Z) (bumpData : list byte)
    (d : DB) (cache : Cache L LT) : Res unit * DB * Cache L LT :=
  if ctx_err c then (Err ErrCanceled, d, cache)
  else match commitTo d [BSet (bumpKey blockHash) (PBump (mkStoredBump blockHeight bumpData))] tt with
       | (Err e, d') => (Err e, d', cache)
       | (Ok _, d') => (Ok tt, d', Remove Leaves cache blockHash)
       end.

Definition GetBUMP (c : Ctx) (blockHash : string) (d : DB) : Res (Z * list byte) :=
  if ctx_err c then Err ErrCanceled
  else match eng_get d (bumpKey blockHash) with
       | Err e => Err e
       | Ok None => Err ErrNotFound
       | Ok (Some v) => match asBump v with
                        | Some b => Ok (bu_BlockHeight b, bu_BumpData b)
                        | None => Err ErrDecode
                        end
       end.

Definition DeleteBUMPByBlockHash (c : Ctx) (blockHash : string) (d : DB) (cache : Cache L LT)
  : Res unit * DB * Cache L LT :=
  if ctx_err c then (Err ErrCanceled, d, cache)
  else match commitTo d [BDel (bumpKey blockHash)] tt with
       | (Err e, d') => (Err e, d', cache)
       | (Ok _, d') => (Ok tt, d', Remove Leaves cache blockHash)
       end.

(** The fetch callback of the enrichment. *)
Definition fetchBUMP (c : Ctx) (blockHash : string) (d : DB) : Res (list byte) :=
  match GetBUMP c blockHash d with Ok (_, data) => Ok data | Err e => Err e end.

Definition enrichMerklePath (c : Ctx) (now : Z) (status : TransactionStatus) (d : DB) (cache : Cache L LT)
  : TransactionStatus * Cache L LT :=
  Enrich Leaves MinimalPathBytes IndexCompound cache status now (fetchBUMP c (ts_BlockHash status) d).

Definition EnrichMerklePath (c : Ctx) (now : Z) (status : TransactionStatus) (d : DB) (cache : Cache L LT)
  : TransactionStatus * Cache L LT := enrichMerklePath c now status d cache.

Fixpoint enrichAnchors (c : Ctx) (now : Z) (txid : string) (d : DB) (entries : list OrphanedAnchor)
    (cache : Cache L LT) : list OrphanedAnchor * Cache L LT :=
  match entries with
  | [] => ([], cache)
  | entry :: rest =>
      if negb (match oa_MerklePath entry with [] => true | _ => false end) || String.eqb (oa_BlockHash entry) ""
      then let '(rest', cache') := enrichAnchors c now txid d rest cache in (entry :: rest', cache')
      else
        let hash := oa_BlockHash entry in
        let '(p, cache1) := MinimalPath Leaves MinimalPathBytes IndexCompound cache hash txid now
                              (fetchBUMP c hash d) in
        let '(rest', cache2) := enrichAnchors c now txid d rest cache1 in
        (mkOrphanedAnchor (oa_BlockHash entry) (oa_BlockHeight entry) (oa_OrphanedAt entry) (default [] p)
           :: rest', cache2)
  end.

Definition enrichOrphanedProofs (c : Ctx) (now : Z) (s : TransactionStatus) (d : DB) (cache : Cache L LT)
  : TransactionStatus * Cache L LT :=
  let '(proofs, cache') := enrichAnchors c now (ts_TxID s) d (ts_OrphanedProofs s) cache in
  (mkTransactionStatus (ts_TxID s) (ts_Status s) (ts_StatusCode s) (ts_Timestamp s) (ts_TxIDs s)
     (ts_BlockHash s) (ts_BlockHeight s) (ts_MerklePath s) (ts_ExtraInfo s) (ts_CompetingTxs s) (ts_RawTx s)
     (ts_RetryCount s) (ts_NextRetryAt s) (ts_CreatedAt s) proofs (ts_MerkleRegisteredAt s), cache').

(** A missing row is a nil status without an error. *)
Definition GetStatus (c : Ctx) (now : Z) (txid : string) (d : DB) (cache : Cache L LT)
  : Res (option TransactionStatus) * Cache L LT :=
  if ctx_err c then (Err ErrCanceled, cache)
  else match readStatus d txid with
       | Err e => (Err e, cache)
       | Ok None => (Ok None, cache)
       | Ok (Some st) =>
           let '(st, cache) := enrichMerklePath c now st d cache in
           let '(st, cache) := enrichOrphanedProofs c now st d cache in
           (Ok (Some st), cache)
       end.
End Bumps.

(** ** Writes are seen by the next enrichment *)
Section Fresh.
Context {DB : Type} `{EngineReliable DB}.
Context {Idx : Type} (Leaves : Idx -> Z) (MinimalPathBytes : Idx -> string -> option (list byte)).
Context (IndexCompound : list byte -> Res Idx).
Context {L LT : Type} {LruL : LRU L Idx} {LawsL : LRULaws L Idx} {LruT : LRU LT Z}.

Lemma lookup_absent (c : Cache L LT) b :
  entry_of (lru_entries (lru c)) b = None ->
  (lookup_ c b).1 = None ∧ entry_of (lru_entries (lru (lookup_ c b).2)) b = None.
Proof.
  intros He. unfold lookup_. pose proof (get_entries (lru c) b) as Hg. pose proof (get_moves (lru c) b) as Hm.
  destruct (lru_get (lru c) b) as [r l]. simpl in *. rewrite He in *. subst. by rewrite Hm.
Qed.

Lemma index_absent (c : Cache L LT) b data :
  entry_of (lru_entries (lru c)) b = None ->
  (index Leaves IndexCompound c b data).1 = buildIndex IndexCompound data.
Proof.
  intros He. unfold index. destruct (lookup_absent c b He) as [E1 E2].
  destruct (lookup_ c b) as [r c1]. simpl in *. subst r.
  destruct (lookup_absent c1 b E2) as [E3 _]. destruct (lookup_ c1 b) as [r c2]. simpl in *. subst r.
  by destruct (beginFill c2 b).
Qed.

Lemma insert_enrich_path (bh : string) (ht now : Z) (data : list byte) (i : Idx)
    (st : TransactionStatus) (d : DB) (cache : Cache L LT) :
  data ≠ [] -> IndexCompound data = Ok i ->
  bh ≠ "" -> ts_BlockHash st = bh -> ts_Status st = StatusMined -> ts_MerklePath st = [] ->
  ∃ d' cache', InsertBUMP Leaves background bh ht data d cache = (Ok tt, d', cache') ∧
  ts_MerklePath (enrichMerklePath Leaves MinimalPathBytes IndexCompound background now st d' cache').1
  = default [] (MinimalPathBytes i (ts_TxID st)).
Proof.
  intros Hd Hi Hbh Hb Hs Hp. unfold InsertBUMP, background. cbn [ctx_err]. unfold commitTo.
  destruct (commit_total d [BSet (bumpKey bh) (PBump (mkStoredBump ht data))]) as [d' Ed]. rewrite Ed.
  do 2 eexists. split; [done|]. apply commit_sound in Ed.
  assert (entry_of (lru_entries (lru (Remove Leaves cache bh))) bh = None) as Habs.
  { apply entry_of_None. intros v Hin. by destruct (proj1 (Remove_entries Leaves cache bh bh v) Hin). }
  assert (fetchBUMP None bh d' = Ok data) as Hf.
  { unfold fetchBUMP, GetBUMP. cbn [ctx_err]. rewrite get_total, Ed. simpl. by rewrite lookup_insert_eq. }
  unfold enrichMerklePath, Enrich. rewrite Hp, Hb, Hs, Hf. rewrite (proj2 (String.eqb_neq bh "") Hbh).
  rewrite String.eqb_refl. cbn [negb orb andb]. unfold pathFor.
  destruct (lookup_absent _ _ Habs) as [E1 E2]. destruct (lookup_ (Remove Leaves cache bh) bh) as [r c1].
  simpl in E1, E2. subst r. pose proof (index_absent c1 bh (Ok data) E2) as Hidx.
  destruct (index Leaves IndexCompound c1 bh (Ok data)) as [r c2]. simpl in Hidx.
  destruct data as [|x data]; [done|]. rewrite Hi in Hidx. subst r.
  by destruct (MinimalPathBytes i (ts_TxID st)).
Qed.
End Fresh.

(** ** The cache over the compound index of [Bump] *)
Section Served.
Context {DB : Type} `{EngineReliable DB} `{SortFunc}.
Context (NewMerklePathFromBinary : list byte -> Res MerklePath) (Bytes : MerklePath -> list byte).
Context (NewHashFromHex : string -> Res Hash).
Context {L LT : Type} {LruL : LRU L CompoundIndex} {LawsL : LRULaws L CompoundIndex} {LruT : LRU LT Z}.

(** Once [InsertBUMP] has returned, the next enrichment of a mined
    transaction of that block, through the cache, serves exactly the minimal
    path a scan of the compound just written would give (or none when the
    transaction is not in it), whatever compound the cache held for the block
    before. *)
Theorem InsertBUMP_then_enrich (bh : string) (ht now : Z) (data : list byte) (mp : MerklePath)
    (st : TransactionStatus) (d : DB) (cache : Cache L LT) :
  data ≠ [] -> NewMerklePathFromBinary data = Ok mp -> compound_ok mp ->
  bh ≠ "" -> ts_BlockHash st = bh -> ts_Status st = StatusMined -> ts_MerklePath st = [] ->
  ∃ d' cache', InsertBUMP Bump.Leaves background bh ht data d cache = (Ok tt, d', cache') ∧
  ts_MerklePath (enrichMerklePath Bump.Leaves (MinimalPathBytes Bytes NewHashFromHex)
                   (IndexCompound NewMerklePathFromBinary) background now st d' cache').1
  = default [] (ExtractMinimalPathForTx NewMerklePathFromBinary Bytes NewHashFromHex data (ts_TxID st)).
Proof.
  intros Hd Hp Hok Hbh Hb Hs Hm.
  rewrite <-(proj1 (indexed_as_scanned NewMerklePathFromBinary Bytes NewHashFromHex data mp (ts_TxID st) Hp Hok)).
  apply insert_enrich_path; try done. unfold IndexCompound. by rewrite Hp.
Qed.
End Served.

Section BumpWitnesses.
#[local] Existing Instance mergeSortFunc.

Definition wMinedRow : TransactionStatus :=
  mkTransactionStatus "c" StatusMined 0 None [] "b" 7 [] "" [] [] 0 None None [] None.

Definition wStaleCache : Cache (assocLRU CompoundIndex) (assocLRU Z) :=
  mkCache 8 (lru_add (al_empty 4) "b" (mkCompoundIndex 6 ∅ [] 0)).1 0 ∅ ∅ (al_empty 4).

Lemma InsertBUMP_then_enrich_witness :
  ∃ d' cache', InsertBUMP Bump.Leaves background "b" 7 [x02] (∅ : MemDB) wStaleCache = (Ok tt, d', cache') ∧
  ts_MerklePath (enrichMerklePath Bump.Leaves (MinimalPathBytes offsetBytes Ok)
                   (IndexCompound (fun _ => Ok sampleCompound)) background 0 wMinedRow d' cache').1 = [x02; x03; x00].
Proof.
  destruct (InsertBUMP_then_enrich (DB := MemDB) (fun _ => Ok sampleCompound) offsetBytes Ok "b" 7 0 [x02]
    sampleCompound wMinedRow ∅ wStaleCache) as (d' & cache' & E & Ep).
  - discriminate.
  - reflexivity.
  - exact sampleCompound_ok.
  - discriminate.
  - reflexivity.
  - reflexivity.
  - reflexivity.
  - exists d', cache'. split; [exact E|exact Ep].
Defined.
End BumpWitnesses.
