(* ===== verification/Paging.v ===== *)
(** * Paging: the boundary-safe block_processing scan

    Models [store/paging.go].  [ForEachBlockProcessing] is written against
    the [Store] interface, so it is modelled and proved against a class,
    [BlockLister], that states what [ListBlockProcessingStatus] promises; the
    Pebble store is an instance.  The loop is unbounded in the code; here it
    takes fuel and returns [None] when it runs out, and the theorem gives an
    amount of fuel that is always enough. *)
From stdpp Require Import base gmap strings list sorting.
From Stdlib Require Import ZArith Lia.
From S2P Require Import Prelude Models Keys Engine PebbleBlocks PebbleBlocksInv PebbleBlocksProps.

(** ** The interface *)

Definition below (before : Z) (r : BlockProcessingStatus) : Prop :=
  before = 0%Z ∨ (bp_BlockHeight r < before)%Z.

Definition desc (a b : BlockProcessingStatus) : Prop := (bp_BlockHeight b <= bp_BlockHeight a)%Z.

(** A page is the first [limit] rows, in descending height, among the rows
    below the cursor. *)
Class BlockLister (S : Type) : Type := {
  bl_list : S -> Ctx -> Z -> Z -> list BlockProcessingStatus * option error;
  bl_has : S -> BlockProcessingStatus -> Prop;
  bl_height s r : bl_has s r -> (0 <= bp_BlockHeight r < 2 ^ 64 - 1)%Z;
  bl_spec s before limit : is_u64 before -> (0 < limit)%Z ->
    ∃ q, bl_list s background before limit = (take (Z.to_nat limit) q, None) ∧
         StronglySorted desc q ∧ NoDup q ∧ (∀ r, r ∈ q ↔ bl_has s r ∧ below before r)
}.

(** ** The scan *)

Definition forEachBlockProcessingMaxPage : Z := 65536.

Inductive visit_result : Type :=
| VNext
| VStop
| VErr (e : error).

Section Scan.
Context {S : Type} `{BlockLister S}.
Context {St : Type} (fn : St -> BlockProcessingStatus -> St * option error).

(** The inner loop over one page. *)
Fixpoint visitRows (minHeight : Z) (st : St) (rows : list BlockProcessingStatus) : St * visit_result :=
  match rows with
  | [] => (st, VNext)
  | row :: rest =>
      if (bp_BlockHeight row <? minHeight)%Z then (st, VStop)
      else match fn st row with
           | (st', Some e) => (st', VErr e)
           | (st', None) => visitRows minHeight st' rest
           end
  end.

Fixpoint pageLoop (fuel : nat) (c : Ctx) (s : S) (minHeight before limit : Z) (st : St)
  : option (St * option error) :=
  match fuel with
  | O => None
  | Datatypes.S fuel =>
      if ctx_err c then Some (st, Some ErrCanceled)
      else match bl_list s (ctx_tick c) before limit with
           | (_, Some e) => Some (st, Some e)
           | (rows, None) =>
               match rows with
               | [] => Some (st, None)
               | first :: _ =>
                   match visitRows minHeight st rows with
                   | (st, VStop) => Some (st, None)
                   | (st, VErr e) => Some (st, Some e)
                   | (st, VNext) =>
                       if (Z.of_nat (length rows) <? limit)%Z then Some (st, None)
                       else
                         let last := bp_BlockHeight (List.last rows first) in
                         if (bp_BlockHeight first =? last)%Z then
                           if (forEachBlockProcessingMaxPage <=? limit)%Z then Some (st, Some ErrArgument)
                           else pageLoop fuel (ctx_tick c) s minHeight before (limit * 2) st
                         else if (last =? 0)%Z then Some (st, None)
                         else pageLoop fuel (ctx_tick c) s minHeight (uint64 (last + 1)) limit st
                   end
               end
           end
  end.

Definition ForEachBlockProcessing (fuel : nat) (c : Ctx) (s : S) (minHeight pageSize : Z) (st : St)
  : option (St * option error) :=
  if (pageSize <=? 0)%Z then Some (st, Some ErrArgument)
  else pageLoop fuel c s minHeight 0 pageSize st.
End Scan.

(** ** Descending lists *)

Lemma sorted_split (q : list BlockProcessingStatus) n x y :
  StronglySorted desc q -> x ∈ take n q -> y ∈ drop n q -> desc x y.
Proof.
  intros Hs. rewrite <-(take_drop n q) in Hs. revert Hs. generalize (take n q), (drop n q). intros a b Hs.
  induction a as [|z a IH]; [set_solver|]. simpl in Hs. apply StronglySorted_inv in Hs as [Hs Hf].
  rewrite Forall_forall in Hf. intros [->|Hx]%elem_of_cons Hy; [apply Hf; set_solver|auto].
Qed.

Lemma sorted_take (q : list BlockProcessingStatus) n : StronglySorted desc q -> StronglySorted desc (take n q).
Proof.
  revert n. induction q as [|x q IH]; intros [|n] Hs; simpl; try constructor.
  - apply IH. by apply StronglySorted_inv in Hs as [? _].
  - apply StronglySorted_inv in Hs as [_ Hf]. by apply Forall_take.
Qed.

Lemma last_elem (x d : BlockProcessingStatus) l : List.last (x :: l) d ∈ x :: l.
Proof.
  revert x. induction l as [|y l IH]; intros x; [set_solver|].
  change (List.last (x :: y :: l) d) with (List.last (y :: l) d). specialize (IH y). set_solver.
Qed.

Lemma sorted_last (l : list BlockProcessingStatus) d x :
  StronglySorted desc l -> x ∈ l -> (bp_BlockHeight (List.last l d) <= bp_BlockHeight x)%Z.
Proof.
  induction 1 as [|y l Hs IH Hf]; [set_solver|]. intros Hx. rewrite Forall_forall in Hf.
  destruct l as [|z l]; [apply list_elem_of_singleton in Hx as ->; simpl; lia|].
  change (List.last (y :: z :: l) d) with (List.last (z :: l) d).
  apply elem_of_cons in Hx as [->|Hx]; [apply Hf, last_elem|auto].
Qed.

Lemma sorted_first x (l : list BlockProcessingStatus) r :
  StronglySorted desc (x :: l) -> r ∈ x :: l -> (bp_BlockHeight r <= bp_BlockHeight x)%Z.
Proof.
  intros [_ Hf]%StronglySorted_inv. rewrite Forall_forall in Hf.
  intros [->|Hr]%elem_of_cons; [lia|by apply Hf].
Qed.

(** Everything at or above the floor precedes the first row below it. *)
Lemma stop_covers (q : list BlockProcessingStatus) n pre r0 rest minHeight r :
  StronglySorted desc q -> take n q = pre ++ r0 :: rest -> (bp_BlockHeight r0 < minHeight)%Z ->
  r ∈ q -> (minHeight <= bp_BlockHeight r)%Z -> r ∈ pre.
Proof.
  intros Hs Et Hlt Hr Hmin. rewrite <-(take_drop n q), Et, <-app_assoc in Hr.
  apply elem_of_app in Hr as [|Hr]; [done|]. exfalso.
  rewrite <-(take_drop n q), Et, <-app_assoc in Hs.
  assert (StronglySorted desc ((r0 :: rest) ++ drop n q)) as Hs'.
  { clear -Hs. induction pre; [done|]. apply StronglySorted_inv in Hs as [? _]. auto. }
  pose proof (sorted_first r0 (rest ++ drop n q) r Hs' Hr). lia.
Qed.

(** ** Completeness *)
Section Complete.
Context {S : Type} `{BlockLister S}.
Context {St : Type} (f : St -> BlockProcessingStatus -> St).

(** A callback that does not fail. *)
Definition total_fn (st : St) (r : BlockProcessingStatus) : St * option error := (f st r, None).

Lemma visitRows_spec minHeight st rows :
  ∃ pre post, rows = pre ++ post ∧ Forall (fun r => minHeight <= bp_BlockHeight r)%Z pre ∧
    ((post = [] ∧ visitRows total_fn minHeight st rows = (foldl f st pre, VNext)) ∨
     (∃ r rest, post = r :: rest ∧ (bp_BlockHeight r < minHeight)%Z ∧
                visitRows total_fn minHeight st rows = (foldl f st pre, VStop))).
Proof.
  revert st. induction rows as [|r rows IH]; intros st.
  { exists [], []. split_and!; [done|constructor|]. by left. }
  cbn [visitRows]. destruct (Z.ltb_spec (bp_BlockHeight r) minHeight) as [Hlt|Hge].
  { exists [], (r :: rows). split_and!; [done|constructor|]. right. eauto 10. }
  simpl. destruct (IH (f st r)) as (pre & post & -> & Hpre & Hres). exists (r :: pre), post.
  split_and!; [done|by constructor|]. done.
Qed.

(** The rows a scan must deliver: at or above the floor, and not at height
    zero. *)
Definition due_row (s : S) (minHeight : Z) (r : BlockProcessingStatus) : Prop :=
  bl_has s r ∧ (minHeight <= bp_BlockHeight r)%Z ∧ (0 < bp_BlockHeight r)%Z.

(** [vs] holds every due row at or above the cursor. *)
Definition covered (s : S) (minHeight before : Z) (vs : list BlockProcessingStatus) : Prop :=
  ∀ r, due_row s minHeight r -> before ≠ 0%Z -> (before <= bp_BlockHeight r)%Z -> r ∈ vs.

Definition sound (s : S) (minHeight : Z) (vs : list BlockProcessingStatus) : Prop :=
  ∀ r, r ∈ vs -> bl_has s r ∧ (minHeight <= bp_BlockHeight r)%Z.

(** How a scan may end: every due row was delivered, or one height holds at
    least [forEachBlockProcessingMaxPage] rows and the scan says so. *)
Definition scan_done (s : S) (minHeight : Z) (st0 : St) (res : option (St * option error)) : Prop :=
  ∃ vs, sound s minHeight vs ∧
    ((res = Some (foldl f st0 vs, None) ∧ ∀ r, due_row s minHeight r -> r ∈ vs) ∨
     (res = Some (foldl f st0 vs, Some ErrArgument) ∧
      ∃ h l, NoDup l ∧ Forall (fun r => bl_has s r ∧ bp_BlockHeight r = h) l ∧
             (forEachBlockProcessingMaxPage <= Z.of_nat (length l))%Z)).

(** The number of rows still below the cursor bounds the rounds that move
    it; between two of those the page can only double until the cap. *)
Definition growth (limit : Z) : nat := Z.to_nat (17 - Z.log2 limit).

Lemma growth_double limit :
  (0 < limit < forEachBlockProcessingMaxPage)%Z -> (growth (limit * 2) < growth limit)%nat ∧ (growth limit <= 17)%nat.
Proof.
  intros Hl. unfold growth, forEachBlockProcessingMaxPage in *.
  rewrite Z.mul_comm, Z.log2_double by lia.
  assert (Z.log2 limit <= 16)%Z by (change 16%Z with (Z.log2 65536); apply Z.log2_le_mono; lia).
  pose proof (Z.log2_nonneg limit). lia.
Qed.

Lemma growth_le limit : (growth limit <= 17)%nat.
Proof. unfold growth. pose proof (Z.log2_nonneg limit). lia. Qed.

(** What [ListBlockProcessingStatus] returned, before the page cut. *)
Definition page_of (s : S) (before : Z) (q : list BlockProcessingStatus) : Prop :=
  StronglySorted desc q ∧ NoDup q ∧ (∀ r, r ∈ q ↔ bl_has s r ∧ below before r).

(** A due row that is not below the cursor has been delivered. *)
Lemma delivered_above s minHeight before vs q r :
  covered s minHeight before vs -> page_of s before q -> due_row s minHeight r -> r ∉ q -> r ∈ vs.
Proof.
  intros Hcov (_ & _ & Hq) Hr Hnq. destruct (decide (before = 0%Z)) as [E|E].
  - destruct Hnq. apply Hq. split; [apply Hr|by left].
  - apply Hcov; [done|done|]. destruct (Z.le_gt_cases before (bp_BlockHeight r)); [done|].
    destruct Hnq. apply Hq. split; [apply Hr|]. right. lia.
Qed.

(** After a page, the due rows not delivered are past the page's end. *)
Lemma delivered_page s minHeight before vs q n r :
  covered s minHeight before vs -> page_of s before q -> due_row s minHeight r ->
  r ∉ drop n q -> r ∈ vs ++ take n q.
Proof.
  intros Hcov Hp Hr Hnd. apply elem_of_app. destruct (decide (r ∈ q)) as [Hin|Hni].
  - rewrite <-(take_drop n q) in Hin. apply elem_of_app in Hin as [?|?]; [auto|done].
  - left. by eapply delivered_above.
Qed.

Lemma sound_page s minHeight before vs q n pre post :
  page_of s before q -> sound s minHeight vs -> take n q = pre ++ post ->
  Forall (fun r => minHeight <= bp_BlockHeight r)%Z pre -> sound s minHeight (vs ++ pre).
Proof.
  intros (_ & _ & Hq) Hs Et Hpre r [Hr|Hr]%elem_of_app; [auto|]. rewrite Forall_forall in Hpre. split; [|auto].
  apply Hq. rewrite <-(take_drop n q), Et, !elem_of_app. auto.
Qed.

(** Moving the cursor to just above the page's last height leaves fewer rows
    below it. *)
Lemma fewer_below s before lst first n :
  (∀ q, NoDup q -> (∀ r, r ∈ q -> bl_has s r ∧ below before r) -> (length q <= n)%nat) ->
  bl_has s first -> below before first -> (0 <= lst < bp_BlockHeight first)%Z ->
  ∀ q, NoDup q -> (∀ r, r ∈ q -> bl_has s r ∧ below (lst + 1) r) -> (length q <= n - 1)%nat.
Proof.
  intros Hn Hf Hb Hl q Hnd Hq. assert (first ∉ q) as Hnf by (intros [_ [?|?]]%Hq; lia).
  specialize (Hn (first :: q)). simpl in Hn. enough (Datatypes.S (length q) <= n)%nat by lia.
  apply Hn; [by constructor|]. intros r [->|Hr]%elem_of_cons; [done|].
  destruct (Hq r Hr) as [? [?|Hlt]]; [lia|]. split; [done|].
  destruct Hb as [|Hb]; [by left|right; lia].
Qed.

(** What a non-empty page tells. *)
Lemma page_facts s minHeight before vs q n :
  page_of s before q -> covered s minHeight before vs ->
  (∀ r, r ∈ take n q -> bl_has s r ∧ below before r) ∧ StronglySorted desc (take n q) ∧ NoDup (take n q) ∧
  (∀ r, due_row s minHeight r -> r ∉ drop n q -> r ∈ vs ++ take n q) ∧
  (∀ x y, x ∈ take n q -> y ∈ drop n q -> desc x y).
Proof.
  intros Hpg Hcov. pose proof Hpg as (Hs & Hnd & Hq). split_and!.
  - intros r (i & Hi & _)%elem_of_take. by eapply Hq, list_elem_of_lookup_2.
  - by apply sorted_take.
  - eapply sublist_NoDup; [exact Hnd|apply sublist_take].
  - intros r. by apply delivered_page with before.
  - intros x y. by apply sorted_split.
Qed.

(** A page whose first and last heights agree lies at one height. *)
Lemma one_height (first : BlockProcessingStatus) rows :
  StronglySorted desc (first :: rows) ->
  bp_BlockHeight first = bp_BlockHeight (List.last (first :: rows) first) ->
  ∀ r, r ∈ first :: rows -> bp_BlockHeight r = bp_BlockHeight first.
Proof.
  intros Hs E r Hr. pose proof (sorted_last _ first r Hs Hr). pose proof (sorted_first _ _ r Hs Hr). lia.
Qed.

Lemma pageLoop_done fuel s minHeight before limit st0 vs n :
  is_u64 before -> (0 < limit)%Z -> sound s minHeight vs -> covered s minHeight before vs ->
  (∀ q, NoDup q -> (∀ r, r ∈ q -> bl_has s r ∧ below before r) -> (length q <= n)%nat) ->
  (n * 18 + growth limit < fuel)%nat ->
  scan_done s minHeight st0 (pageLoop total_fn fuel None s minHeight before limit (foldl f st0 vs)).
Proof.
  revert before limit vs n. induction fuel as [|fuel IH]; intros before limit vs n Hb Hlim Hsound Hcov Hn Hfuel; [lia|].
  cbn [pageLoop ctx_err ctx_tick]. destruct (bl_spec s before limit Hb Hlim) as (q & Eq & Hs & Hnd & Hq).
  unfold background in Eq. rewrite Eq. clear Eq.
  assert (page_of s before q) as Hpg by done.
  destruct (visitRows_spec minHeight (foldl f st0 vs) (take (Z.to_nat limit) q)) as (pre & post & Et & Hpre & Hres).
  pose proof (sound_page _ _ _ _ _ _ _ _ Hpg Hsound Et Hpre) as Hsound'.
  destruct (page_facts s minHeight before vs q (Z.to_nat limit) Hpg Hcov) as (Hrows & Hsr & Hndr & Hvis & Hrest).
  destruct (take (Z.to_nat limit) q) as [|first rows'] eqn:Er.
  { exists vs. split; [done|]. left. split; [done|]. intros r Hr. eapply delivered_above; [done|done|done|].
    destruct q; [set_solver|]. by destruct (Z.to_nat limit) eqn:E; [lia|]. }
  destruct Hres as [[-> ->]|(r0 & rest & -> & Hlt & ->)]; rewrite <-foldl_app.
  2:{ exists (vs ++ pre). split; [done|]. left. split; [done|]. intros r Hr. apply elem_of_app.
      destruct (decide (r ∈ q)); [right|left; by eapply delivered_above].
      eapply (stop_covers q (Z.to_nat limit)); [done|rewrite Er; exact Et|done|done|apply Hr]. }
  rewrite app_nil_r in Et. rewrite <-Et in *. clear Et pre.
  destruct (Z.ltb_spec (Z.of_nat (length (first :: rows'))) limit) as [Hshort|Hfull].
  { exists (vs ++ first :: rows'). split; [done|]. left. split; [done|]. intros r Hr. apply Hvis; [done|].
    rewrite <-Er, length_take in Hshort. rewrite drop_ge by lia. set_solver. }
  set (lst := bp_BlockHeight (List.last (first :: rows') first)).
  pose proof (last_elem first first rows') as Hle.
  pose proof (sorted_last (first :: rows') first first Hsr ltac:(set_solver)) as Hlast. fold lst in Hlast.
  destruct (Z.eqb_spec (bp_BlockHeight first) lst) as [Eone|Hdiff].
  { destruct (Z.leb_spec forEachBlockProcessingMaxPage limit) as [Hcap|Hgrow].
    - exists (vs ++ first :: rows'). split; [done|]. right. split; [done|]. exists (bp_BlockHeight first), (first :: rows').
      split_and!; [done| |lia]. apply Forall_forall. intros r Hr. split; [by apply Hrows|by apply (one_height first rows')].
    - destruct (growth_double limit) as [Hg1 Hg2]; [lia|].
      apply (IH before (limit * 2)%Z (vs ++ first :: rows') n); [done|lia|done| |done|lia].
      intros r Hr Hz Hle'. apply elem_of_app. left. by apply Hcov. }
  assert (∀ r, r ∈ drop (Z.to_nat limit) q -> (bp_BlockHeight r <= lst)%Z) as Hend by (intros r; by apply Hrest).
  destruct (Z.eqb_spec lst 0) as [Ez|Hnz].
  { exists (vs ++ first :: rows'). split; [done|]. left. split; [done|]. intros r Hr. apply Hvis; [done|].
    intros Hin%Hend. destruct Hr as (_ & _ & ?). lia. }
  destruct (Hrows first) as [Hhf Hbf]; [set_solver|]. destruct (Hrows _ Hle) as [Hhl _].
  pose proof (bl_height s first Hhf) as Hhb. pose proof (bl_height s _ Hhl) as Hhlb. fold lst in Hhlb.
  rewrite uint64_id by (unfold is_u64; lia).
  assert (1 <= n)%nat as Hn1 by (specialize (Hn (first :: rows') Hndr Hrows); simpl in Hn; lia).
  apply (IH (lst + 1)%Z limit (vs ++ first :: rows') (n - 1)%nat); [unfold is_u64; lia|done|done| | |].
  - intros r Hr _ Hle'. apply Hvis; [done|]. intros Hin%Hend. lia.
  - apply (fewer_below s before lst first n); [exact Hn|exact Hhf|exact Hbf|lia].
  - pose proof (growth_le limit). lia.
Qed.

(** C14: the scan terminates and misses nothing: with the stated fuel it
    visits only stored rows at or above the floor, and either delivers every
    such row of positive height, across page boundaries and same-height runs
    of any length below the cap, or reports that one height holds at least
    [forEachBlockProcessingMaxPage] rows. *)
Theorem ForEachBlockProcessing_complete (s : S) (minHeight pageSize : Z) (st0 : St) (n fuel : nat) :
  (0 < pageSize)%Z ->
  (∀ q, NoDup q -> (∀ r, r ∈ q -> bl_has s r) -> (length q <= n)%nat) ->
  (n * 18 + 17 < fuel)%nat ->
  scan_done s minHeight st0 (ForEachBlockProcessing total_fn fuel background s minHeight pageSize st0).
Proof.
  intros Hp Hn Hfuel. unfold ForEachBlockProcessing, background. rewrite (proj2 (Z.leb_gt pageSize 0)) by lia.
  apply (pageLoop_done fuel s minHeight 0 pageSize st0 [] n); [unfold is_u64; lia|done|intros r; set_solver| | |].
  - intros r _ Hz. done.
  - intros q Hnd Hq. apply Hn; [done|]. intros r Hr. by apply Hq.
  - pose proof (growth_le pageSize). lia.
Qed.
End Complete.


(** ** The Pebble store as a lister *)
Section PebbleLister.
Context {DB : Type} `{EngineReliable DB}.

(** A database whose block rows are consistent and whose heights leave room
    for the cursor [last + 1]. *)
Definition listable (d : DB) : Prop :=
  blk_ok (view d) ∧
  ∀ h b, view d !! blockProcKey h = Some (PBlockProc b) -> (sp_BlockHeight b < 2 ^ 64 - 1)%Z.

Definition stored (d : DB) (r : BlockProcessingStatus) : Prop :=
  ∃ b, r = storedBlockProcessing_toModel b ∧ view d !! blockProcKey (sp_BlockHash b) = Some (PBlockProc b).

Lemma listed_page (d : DB) before bs :
  listed d before bs ->
  StronglySorted desc (storedBlockProcessing_toModel <$> bs) ∧
  NoDup (storedBlockProcessing_toModel <$> bs) ∧
  ∀ r, r ∈ storedBlockProcessing_toModel <$> bs ↔ stored d r ∧ below before r.
Proof.
  intros (Hs & Hnd & Hin). split_and!.
  - clear -Hs. induction Hs as [|b bs Hs IH Hf]; [constructor|]. rewrite fmap_cons. constructor; [done|].
    rewrite Forall_fmap. exact Hf.
  - apply NoDup_fmap_2_strong; [|done]. intros a b [Ha _]%Hin [Hb _]%Hin E. apply (f_equal bp_BlockHash) in E.
    simpl in E. rewrite <-E, Ha in Hb. by injection Hb.
  - intros r. rewrite list_elem_of_fmap. split.
    + intros (b & -> & [Hb Hlt]%Hin). split; [by exists b|done].
    + intros [(b & -> & Hb) Hlt]. exists b. split; [done|]. by apply Hin.
Qed.

#[export] Program Instance pebble_lister : BlockLister {d : DB | listable d} := {|
  bl_list s c before limit := ListBlockProcessingStatus c before limit (`s);
  bl_has s := stored (`s)
|}.
Next Obligation.
  intros [d [Hok Hh]] r (b & -> & Hb). simpl in *. specialize (Hh _ _ Hb).
  destruct (blk_row _ _ _ Hok Hb) as (_ & _ & Hu). unfold is_u64 in Hu. lia.
Qed.
Next Obligation.
  intros [d [Hok Hh]] before limit Hb Hl. simpl.
  destruct (list_page before limit d Hok Hb Hl) as (bs & -> & Hlisted).
  exists (storedBlockProcessing_toModel <$> bs). rewrite fmap_take. split; [done|]. by apply listed_page.
Qed.
End PebbleLister.

(** A page shorter than its limit from the unbounded cursor shows how many
    rows are stored. *)
Lemma rows_bound {S : Type} `{BlockLister S} s limit rows :
  (0 < limit)%Z -> bl_list s background 0 limit = (rows, None) -> (Z.of_nat (length rows) < limit)%Z ->
  ∀ q, NoDup q -> (∀ r, r ∈ q -> bl_has s r) -> (length q <= length rows)%nat.
Proof.
  intros Hl El Hlen q Hnd Hq. destruct (bl_spec s 0 limit) as (q' & E' & _ & _ & Hq'); [unfold is_u64; lia|done|].
  rewrite El in E'. injection E' as ->. rewrite length_take in *. rewrite Nat.min_r by lia.
  apply submseteq_length, NoDup_submseteq; [done|]. intros r Hr. apply Hq'. split; [by apply Hq|by left].
Qed.

Section PagingWitness.

Lemma wBlocks_listable : listable wBlocks.
Proof.
  split; [exact wBlocks_ok|].
  intros h b Hb.
  assert (forallb (fun e => match e.2 with PBlockProc b => sp_BlockHeight b <? 2 ^ 64 - 1 | _ => true end)%Z
            (map_to_list wBlocks) = true) as Hc by (vm_compute; reflexivity).
  pose proof (entries_checked _ _ _ _ Hc Hb) as Hl. simpl in Hl. lia.
Qed.

Definition wLister : {d : MemDB | listable d} := wBlocks ↾ wBlocks_listable.
Definition collect (acc : list string) (r : BlockProcessingStatus) : list string := acc ++ [bp_BlockHash r].

(** Pages of one row over a height with two rows. *)
Lemma ForEachBlockProcessing_complete_witness :
  scan_done collect wLister 7 [] (ForEachBlockProcessing (total_fn collect) 80 background wLister 7 1 []).
Proof.
  refine (ForEachBlockProcessing_complete collect wLister 7 1 [] 3 80 _ _ _); [lia| |lia].
  refine (rows_bound wLister 10 (fst (bl_list wLister background 0 10)) _ _ _); [lia|vm_compute; reflexivity|].
  vm_compute. reflexivity.
Defined.

(** Three blocks, two of them at height zero. *)
Definition wZero : MemDB :=
  run_blks [BHeader background "aa" 0 (Some 10%Z); BHeader background "bb" 0 (Some 11%Z);
            BHeader background "cc" 5 (Some 12%Z)] (∅ : MemDB).

Lemma wZero_listable : listable wZero.
Proof.
  split.
  - apply (run_blks_ok (DB := MemDB)); [|apply blk_ok_empty].
    constructor; [by apply wArgs|]. constructor; [by apply wArgs|]. constructor; [by apply wArgs|constructor].
  - intros h b Hb.
    assert (forallb (fun e => match e.2 with PBlockProc b => sp_BlockHeight b <? 2 ^ 64 - 1 | _ => true end)%Z
              (map_to_list wZero) = true) as Hc by (vm_compute; reflexivity).
    pose proof (entries_checked _ _ _ _ Hc Hb) as Hl. simpl in Hl. lia.
Qed.

(** The positive-height restriction of the completeness theorem is
    needed: when a full page ends at height zero the scan stops there, so a
    second row at height zero is never delivered although it is at or above
    the floor and the scan returns no error. *)
Theorem height_zero_row_skipped :
  ∃ (s : {d : MemDB | listable d}) r vs,
    bl_has s r ∧ (0 <= bp_BlockHeight r)%Z ∧
    ForEachBlockProcessing (total_fn collect) 80 background s 0 2 [] = Some (vs, None) ∧
    bp_BlockHash r ∉ vs.
Proof.
  exists (wZero ↾ wZero_listable),
    (storedBlockProcessing_toModel (mkStoredBlockProcessing "bb" 0 11 0 0 BlockStatusActive 0 0)), ["cc"; "aa"].
  split; [by eexists|]. split; [done|]. split; [vm_compute; reflexivity|]. simpl. set_solver.
Qed.

End PagingWitness.
