(* ===== verification/Offsets.v ===== *)
(** * Offsets: the commit watermark of the propagation dispatcher

    Models [services/propagation/offset_tracker.go] and
    [services/propagation/mark_queue.go]: the min-heap with lazy deletion
    that knows the lowest in-flight Kafka offset, and the queue of consumed
    messages waiting to be marked.  [container/heap] of Go's standard library
    is modelled as it is written: [up] and [down] sift in place over the
    slice. *)
From stdpp Require Import base gmap strings list sorting.
From Stdlib Require Import ZArith Lia.
From Stdlib Require Import Strings.Byte.
From S2P Require Import Prelude.

(** ** container/heap over a slice of offsets *)
Module Heap.

Definition Less (h : list Z) (i j : nat) : bool := (h !!! i <? h !!! j)%Z.

Definition Swap (h : list Z) (i j : nat) : list Z := <[i := h !!! j]> (<[j := h !!! i]> h).

(** The loops of [heap.up] and [heap.down]; the index strictly decreases in
    the first and strictly increases in the second, so the slice's length is
    enough fuel. *)
Fixpoint up (fuel : nat) (h : list Z) (j : nat) : list Z :=
  match fuel with
  | O => h
  | S fuel =>
      let i := ((j - 1) / 2)%nat in
      if (i =? j)%nat || negb (Less h j i) then h else up fuel (Swap h i j) i
  end.

Fixpoint down (fuel : nat) (h : list Z) (i n : nat) : list Z :=
  match fuel with
  | O => h
  | S fuel =>
      let j1 := (2 * i + 1)%nat in
      if (n <=? j1)%nat then h
      else
        let j2 := (j1 + 1)%nat in
        let j := if (j2 <? n)%nat && Less h j2 j1 then j2 else j1 in
        if negb (Less h j i) then h else down fuel (Swap h i j) j n
  end.

Definition Push (h : list Z) (x : Z) : list Z := up (S (length h)) (h ++ [x]) (length h).

(** [heap.Pop] on a non-empty heap: the top, and the rest. *)
Definition Pop (h : list Z) : Z * list Z :=
  let n := (length h - 1)%nat in
  let h' := down (length h) (Swap h 0 n) 0 n in
  (h' !!! n, take n h').

(** *** The heap order *)

Definition par (k : nat) : nat := ((k - 1) / 2)%nat.

Definition heap_below (n : nat) (h : list Z) : Prop :=
  ∀ k, (0 < k < n)%nat -> (h !!! par k <= h !!! k)%Z.
Definition heap_ok (h : list Z) : Prop := heap_below (length h) h.

Lemma par_lt k : (0 < k)%nat -> (par k < k)%nat.
Proof. intros. unfold par. apply Nat.Div0.div_lt_upper_bound. lia. Qed.

Lemma par_iff k i : (0 < k)%nat -> par k = i ↔ k = (2 * i + 1)%nat ∨ k = (2 * i + 2)%nat.
Proof.
  intros Hk. unfold par. pose proof (Nat.div_mod_eq (k - 1) 2). pose proof (Nat.mod_upper_bound (k - 1) 2). lia.
Qed.

Lemma length_Swap h i j : length (Swap h i j) = length h.
Proof. unfold Swap. by rewrite !length_insert. Qed.

Lemma Swap_lookup h i j k :
  (i < length h)%nat -> (j < length h)%nat ->
  Swap h i j !!! k = if decide (k = i) then h !!! j else if decide (k = j) then h !!! i else h !!! k.
Proof.
  intros Hi Hj. unfold Swap. case_decide as Ei; [subst k; rewrite list_lookup_total_insert_eq; [done|by rewrite length_insert]|].
  rewrite list_lookup_total_insert_ne by done. case_decide as Ej; [subst k; by rewrite list_lookup_total_insert_eq|].
  by rewrite list_lookup_total_insert_ne.
Qed.

Lemma Swap_perm h i j : (i < length h)%nat -> (j < length h)%nat -> Swap h i j ≡ₚ h.
Proof.
  intros Hi Hj. apply Permutation_insert_swap; by apply list_lookup_lookup_total_lt.
Qed.

(** [h] is a heap but for the slot [j], which may be too small for its
    parent. *)
Definition small_at (h : list Z) (j : nat) : Prop :=
  (∀ k, (0 < k < length h)%nat -> k ≠ j -> (h !!! par k <= h !!! k)%Z) ∧
  (∀ k, (0 < k < length h)%nat -> par k = j -> (0 < j)%nat -> (h !!! par j <= h !!! k)%Z).

Lemma small_swap h j :
  (0 < j < length h)%nat -> small_at h j -> (h !!! j < h !!! par j)%Z -> small_at (Swap h (par j) j) (par j).
Proof.
  intros Hj [H1 H2] Hlt. pose proof (par_lt j ltac:(lia)) as Hp. split; rewrite length_Swap.
  - intros k Hk Hne. pose proof (par_lt k ltac:(lia)) as Hpk. rewrite !Swap_lookup by lia.
    destruct (decide (k = par j)); [done|]. destruct (decide (k = j)) as [->|Hkj].
    { rewrite decide_True by done. lia. }
    destruct (decide (par k = par j)) as [E|E].
    { specialize (H1 k Hk Hkj). rewrite E in H1. lia. }
    destruct (decide (par k = j)) as [Ej|Ej]; [apply H2; [done|done|lia]|by apply H1].
  - intros k Hk Ek H0. pose proof (par_lt (par j) H0) as Hpp. rewrite !Swap_lookup by lia.
    rewrite (decide_False (P := par (par j) = par j)) by lia. rewrite (decide_False (P := par (par j) = j)) by lia.
    pose proof (par_lt k ltac:(lia)). rewrite (decide_False (P := k = par j)) by lia.
    assert (h !!! par (par j) <= h !!! par j)%Z as Hgp by (apply H1; lia).
    destruct (decide (k = j)) as [->|Hkj]; [lia|]. specialize (H1 k Hk Hkj). rewrite Ek in H1. lia.
Qed.

Lemma up_spec fuel h j :
  (j < length h)%nat -> (j < fuel)%nat -> small_at h j -> heap_ok (up fuel h j) ∧ up fuel h j ≡ₚ h.
Proof.
  revert h j. induction fuel as [|fuel IH]; intros h j Hj Hf Hs; [lia|]. cbn [up]. fold (par j).
  destruct (Nat.eqb_spec (par j) j) as [E|E]; simpl.
  { assert (j = 0%nat) as -> by (destruct j; [done|pose proof (par_lt (S j)); lia]).
    split; [|done]. intros k Hk. apply Hs; lia. }
  assert (0 < j)%nat as H0 by (destruct j; [by destruct E|lia]). pose proof (par_lt j H0).
  unfold Less. destruct (Z.ltb_spec (h !!! j) (h !!! par j)) as [Hlt|Hge]; simpl.
  - destruct (IH (Swap h (par j) j) (par j)) as [H1 H2]; [rewrite length_Swap; lia|lia|by apply small_swap|].
    split; [done|]. rewrite H2. apply Swap_perm; lia.
  - split; [|done]. intros k Hk. destruct (decide (k = j)) as [->|]; [lia|by apply Hs].
Qed.

(** [h] is a heap on its first [n] slots but for slot [i], which may be too
    large for its children. *)
Definition large_at (n : nat) (h : list Z) (i : nat) : Prop :=
  (∀ k, (0 < k < n)%nat -> par k ≠ i -> (h !!! par k <= h !!! k)%Z) ∧
  (∀ k, (0 < k < n)%nat -> par k = i -> (0 < i)%nat -> (h !!! par i <= h !!! k)%Z).

Lemma large_swap n h i j :
  (n <= length h)%nat -> (0 < j < n)%nat -> par j = i -> large_at n h i -> (h !!! j < h !!! i)%Z ->
  (∀ k, (0 < k < n)%nat -> par k = i -> (h !!! j <= h !!! k)%Z) ->
  large_at n (Swap h i j) j.
Proof.
  intros Hn Hj Ei [H1 H2] Hlt Hmin. pose proof (par_lt j ltac:(lia)) as Hp. split.
  - intros k Hk Hne. pose proof (par_lt k ltac:(lia)). rewrite !Swap_lookup by lia.
    destruct (decide (par k = i)) as [E|E].
    + destruct (decide (k = i)); [lia|]. destruct (decide (k = j)); [lia|by apply Hmin].
    + rewrite (decide_False (P := par k = j)) by done. destruct (decide (k = i)) as [->|Hki].
      { apply H2; [lia|done|lia]. }
      destruct (decide (k = j)) as [->|Hkj]; [done|by apply H1].
  - intros k Hk Ek H0. pose proof (par_lt k ltac:(lia)). rewrite !Swap_lookup by lia. rewrite Ei.
    rewrite (decide_True (P := i = i)) by done. rewrite (decide_False (P := k = i)) by lia.
    rewrite (decide_False (P := k = j)) by lia. rewrite <-Ek. apply H1; lia.
Qed.

Lemma down_spec fuel h i n :
  (n <= length h)%nat -> (n - i < fuel)%nat -> large_at n h i ->
  heap_below n (down fuel h i n) ∧ down fuel h i n ≡ₚ h ∧
  ∀ k, (n <= k)%nat -> (i < n)%nat -> down fuel h i n !!! k = h !!! k.
Proof.
  revert h i. induction fuel as [|fuel IH]; intros h i Hn Hf Hs; [lia|]. cbn [down].
  assert (∀ k, (0 < k < n)%nat -> par k = i -> k = (2 * i + 1)%nat ∨ k = (2 * i + 1 + 1)%nat) as Hch
    by (intros k Hk Ek; apply par_iff in Ek; lia).
  destruct (Nat.leb_spec n (2 * i + 1)) as [Hleaf|Hin].
  { split; [|done]. intros k Hk. apply Hs; [done|]. intros E%Hch; lia. }
  set (j := if (2 * i + 1 + 1 <? n)%nat && Less h (2 * i + 1 + 1) (2 * i + 1) then (2 * i + 1 + 1)%nat else (2 * i + 1)%nat).
  assert ((0 < j < n)%nat ∧ (i < j)%nat ∧ par j = i ∧ ∀ k, (0 < k < n)%nat -> par k = i -> (h !!! j <= h !!! k)%Z)
    as (Hj & Hij & Ej & Hmin).
  { unfold j, Less. destruct (Nat.ltb_spec (2 * i + 1 + 1) n); cbn [andb];
      [destruct (Z.ltb_spec (h !!! (2 * i + 1 + 1)%nat) (h !!! (2 * i + 1)%nat))|];
      cbn iota; (split_and!; [lia|lia|lia|apply par_iff; lia|]); intros k Hk Ek; destruct (Hch k Hk Ek) as [->| ->]; lia. }
  clearbody j. unfold Less. destruct (Z.ltb_spec (h !!! j) (h !!! i)) as [Hlt|Hge]; simpl.
  - destruct (IH (Swap h i j) j) as (H1 & H2 & H3);
      [by rewrite length_Swap|lia|by apply large_swap|].
    split; [done|]. split; [rewrite H2; apply Swap_perm; lia|]. intros k Hk Hi. rewrite H3 by lia.
    rewrite Swap_lookup, !decide_False by lia. done.
  - split; [|done]. intros k Hk. destruct (decide (par k = i)) as [E|E]; [rewrite E; specialize (Hmin k Hk E); lia|].
    by apply Hs.
Qed.

Lemma heap_top h k : heap_ok h -> (k < length h)%nat -> (h !!! 0%nat <= h !!! k)%Z.
Proof.
  intros Hh. induction (lt_wf k) as [k _ IH]. intros Hk. destruct (decide (k = 0%nat)) as [->|Hne]; [lia|].
  pose proof (par_lt k ltac:(lia)). specialize (IH (par k) ltac:(lia) ltac:(lia)).
  specialize (Hh k ltac:(lia)). lia.
Qed.

Lemma Push_spec h x : heap_ok h -> heap_ok (Push h x) ∧ Push h x ≡ₚ x :: h.
Proof.
  intros Hh. unfold Push. destruct (up_spec (S (length h)) (h ++ [x]) (length h)) as [H1 H2].
  - rewrite length_app. simpl. lia.
  - lia.
  - split; rewrite length_app; simpl.
    + intros k Hk Hne. pose proof (par_lt k ltac:(lia)). rewrite !lookup_total_app_l by lia. apply Hh. lia.
    + intros k Hk Ek. pose proof (par_lt k ltac:(lia)). lia.
  - split; [done|]. rewrite H2. by rewrite Permutation_app_comm.
Qed.

Lemma Pop_spec h :
  heap_ok h -> (0 < length h)%nat ->
  (Pop h).1 = h !!! 0%nat ∧ heap_ok (Pop h).2 ∧ h ≡ₚ h !!! 0%nat :: (Pop h).2.
Proof.
  intros Hh Hl. unfold Pop. set (n := (length h - 1)%nat). set (h1 := Swap h 0 n).
  assert (length h1 = length h) as El by apply length_Swap.
  assert (h1 !!! n = h !!! 0%nat) as En.
  { unfold h1. rewrite Swap_lookup by lia. destruct (decide (n = 0%nat)) as [->|]; [done|]. by rewrite decide_True. }
  assert (h1 ≡ₚ h) as Hp1 by (apply Swap_perm; lia).
  destruct (down_spec (length h) h1 0 n) as (H1 & H2 & H3); [lia|lia| |].
  { split; [|lia]. intros k Hk Hne. pose proof (par_lt k ltac:(lia)). unfold h1.
    rewrite !Swap_lookup, !decide_False by lia. apply Hh. lia. }
  set (h2 := down (length h) h1 0 n) in *. assert (length h2 = length h) as El2 by (by rewrite H2, El).
  assert (h2 !!! n = h !!! 0%nat) as Ex.
  { destruct (decide (0 < n)%nat) as [Hn|Hn]; [by rewrite H3|]. unfold h2. assert (n = 0%nat) as E0 by lia.
    clearbody h1 h2. rewrite E0 in *. destruct (length h) as [|[|]] eqn:E; [lia| |lia]. done. }
  cbn [fst snd]. split; [done|]. split.
  - intros k Hk. rewrite length_take, El2 in Hk. pose proof (par_lt k ltac:(lia)).
    rewrite !lookup_total_take_lt by lia. apply H1. lia.
  - rewrite <-Ex. etrans; [symmetry; exact Hp1|]. rewrite <-H2. rewrite <-(take_drop n h2) at 1.
    rewrite (drop_S h2 (h2 !!! n) n) by (apply list_lookup_lookup_total_lt; lia).
    rewrite drop_ge by lia. by rewrite Permutation_app_comm.
Qed.
End Heap.

(** ** offset_tracker.go *)
Module OffsetTracker.

Record offsetTracker : Type := mkOffsetTracker {
  heap : list Z;
  done : gset Z
}.

Definition newOffsetTracker : offsetTracker := mkOffsetTracker [] ∅.

Definition Add (offset : Z) (t : offsetTracker) : offsetTracker :=
  mkOffsetTracker (Heap.Push (heap t) offset) (done t).

Definition Done (offset : Z) (t : offsetTracker) : offsetTracker :=
  mkOffsetTracker (heap t) ({[offset]} ∪ done t).

(** Each round pops one entry, so the heap's length is enough fuel. *)
Fixpoint cleanTop_ (fuel : nat) (t : offsetTracker) : offsetTracker :=
  match fuel with
  | O => t
  | S fuel =>
      if (0 <? length (heap t))%nat then
        let top := heap t !!! 0%nat in
        if negb (bool_decide (top ∈ done t)) then t
        else cleanTop_ fuel (mkOffsetTracker (Heap.Pop (heap t)).2 (done t ∖ {[top]}))
      else t
  end.

Definition cleanTop (t : offsetTracker) : offsetTracker := cleanTop_ (length (heap t)) t.

Definition LowestUnfinished (t : offsetTracker) : (Z * bool) * offsetTracker :=
  let t := cleanTop t in
  if (length (heap t) =? 0)%nat then ((0%Z, false), t) else ((heap t !!! 0%nat, true), t).

Definition Empty (t : offsetTracker) : bool * offsetTracker :=
  let t := cleanTop t in ((length (heap t) =? 0)%nat, t).

(** *** What the tracker tracks

    [unfinished t] are the offsets still in flight.  Offsets are added once
    (a claim delivers each offset once), so the heap has no duplicates;
    [seen] are the offsets ever added. *)

Definition unfinished (t : offsetTracker) : gset Z := list_to_set (heap t) ∖ done t.

Record tracker_ok (seen : gset Z) (t : offsetTracker) : Prop := {
  trk_heap : Heap.heap_ok (heap t);
  trk_nodup : NoDup (heap t);
  trk_seen : ∀ o, o ∈ heap t -> o ∈ seen;
  trk_done : done t ⊆ seen
}.

Lemma tracker_ok_new : tracker_ok ∅ newOffsetTracker.
Proof. split; simpl; [intros k Hk; simpl in Hk; lia|constructor|set_solver|set_solver]. Qed.

Lemma Add_ok seen o t :
  tracker_ok seen t -> o ∉ seen ->
  tracker_ok ({[o]} ∪ seen) (Add o t) ∧ unfinished (Add o t) = {[o]} ∪ unfinished t.
Proof.
  intros [Hh Hn Hs Hd] Ho. destruct (Heap.Push_spec (heap t) o Hh) as [H1 H2]. split.
  - split; simpl; [done| | |set_solver].
    + rewrite H2. constructor; [|done]. intros Hin. by apply Ho, Hs.
    + intros x. rewrite H2. set_solver.
  - unfold unfinished. simpl. apply set_eq. intros x. rewrite !elem_of_difference, elem_of_list_to_set, H2.
    rewrite elem_of_cons, elem_of_union, elem_of_difference, elem_of_list_to_set, elem_of_singleton.
    assert (x = o -> x ∉ done t) by (intros -> Hx; by apply Ho, Hd). naive_solver.
Qed.

Lemma Done_ok seen o t :
  tracker_ok seen t -> o ∈ seen ->
  tracker_ok seen (Done o t) ∧ unfinished (Done o t) = unfinished t ∖ {[o]}.
Proof.
  intros [Hh Hn Hs Hd] Ho. split; [split; simpl; [done|done|done|set_solver]|].
  unfold unfinished. simpl. set_solver.
Qed.

Lemma pop_ok seen t :
  tracker_ok seen t -> (0 < length (heap t))%nat -> heap t !!! 0%nat ∈ done t ->
  let t' := mkOffsetTracker (Heap.Pop (heap t)).2 (done t ∖ {[heap t !!! 0%nat]}) in
  tracker_ok seen t' ∧ unfinished t' = unfinished t ∧ (length (heap t') < length (heap t))%nat.
Proof.
  intros [Hh Hn Hs Hd] Hl Htop. destruct (Heap.Pop_spec (heap t) Hh Hl) as (_ & H2 & H3).
  pose proof Hn as Hn'. rewrite H3 in Hn'. apply NoDup_cons in Hn' as [Hni Hn']. cbn [heap done]. split_and!.
  - split; cbn [heap done]; [done|done| |set_solver]. intros x Hx. apply Hs. rewrite H3. set_solver.
  - unfold unfinished. cbn [heap done]. apply set_eq. intros x.
    rewrite !elem_of_difference, !elem_of_list_to_set, elem_of_singleton. 
    assert (x ∈ heap t ↔ x ∈ heap t !!! 0%nat :: (Heap.Pop (heap t)).2) as ->
      by (split; intros Hx; [by rewrite <-H3|by rewrite H3]).
    rewrite elem_of_cons. destruct (decide (x = heap t !!! 0%nat)) as [->|]; naive_solver.
  - apply Permutation_length in H3. cbn [length] in H3. lia.
Qed.

Lemma cleanTop_fuel seen fuel t :
  (length (heap t) <= fuel)%nat -> tracker_ok seen t ->
  tracker_ok seen (cleanTop_ fuel t) ∧ unfinished (cleanTop_ fuel t) = unfinished t ∧
  (heap (cleanTop_ fuel t) = [] ∨ heap (cleanTop_ fuel t) !!! 0%nat ∉ done (cleanTop_ fuel t)).
Proof.
  revert t.
  induction fuel as [|fuel IH]; intros t Hf Hok; cbn [cleanTop_].
  { split_and!; [done|done|]. left. apply nil_length_inv. lia. }
  destruct (Nat.ltb_spec 0 (length (heap t))) as [Hl|Hl].
  2:{ split_and!; [done|done|]. left. apply nil_length_inv. lia. }
  destruct (bool_decide_reflect (heap t !!! 0%nat ∈ done t)) as [Hd|Hd]; cbn [negb].
  2:{ split_and!; [done|done|]. by right. }
  destruct (pop_ok seen t Hok Hl Hd) as (H1 & H2 & H3). rewrite <-H2. apply IH; [lia|done].
Qed.

Lemma cleanTop_ok seen t :
  tracker_ok seen t ->
  tracker_ok seen (cleanTop t) ∧ unfinished (cleanTop t) = unfinished t ∧
  (heap (cleanTop t) = [] ∨ heap (cleanTop t) !!! 0%nat ∉ done (cleanTop t)).
Proof. by apply cleanTop_fuel. Qed.

(** [LowestUnfinished] returns the least offset in flight, and only says
    "none" when there is none. *)
Lemma LowestUnfinished_spec seen t :
  tracker_ok seen t ->
  let '((lowest, has), t') := LowestUnfinished t in
  tracker_ok seen t' ∧ unfinished t' = unfinished t ∧
  (if has then lowest ∈ unfinished t ∧ ∀ o, o ∈ unfinished t -> (lowest <= o)%Z
   else lowest = 0%Z ∧ unfinished t = ∅).
Proof.
  intros Hok. destruct (cleanTop_ok seen t Hok) as (H1 & H2 & H3). unfold LowestUnfinished.
  destruct (Nat.eqb_spec (length (heap (cleanTop t))) 0) as [E|E]; (split; [exact H1|]); (split; [exact H2|]).
  - split; [done|]. rewrite <-H2. unfold unfinished. rewrite (nil_length_inv _ E). set_solver.
  - destruct H3 as [H3|H3]; [by rewrite H3 in E|]. rewrite <-H2.
    assert (heap (cleanTop t) !! 0%nat = Some (heap (cleanTop t) !!! 0%nat)) as E0
      by (apply list_lookup_lookup_total_lt; lia).
    unfold unfinished. split.
    + apply elem_of_difference. split; [|done]. apply elem_of_list_to_set. by eapply list_elem_of_lookup_2.
    + intros o [Ho _]%elem_of_difference. apply elem_of_list_to_set, list_elem_of_lookup in Ho as [k Hk].
      rewrite <-(list_lookup_total_correct _ _ _ Hk). apply Heap.heap_top; [apply H1|]. by eapply lookup_lt_Some.
Qed.

(** *** The tracker against its reference *)

Inductive trk_op : Type :=
| TAdd (o : Z)
| TDone (o : Z)
| TLowest
| TEmpty.

Definition trk_run1 (op : trk_op) (t : offsetTracker) : offsetTracker :=
  match op with
  | TAdd o => Add o t
  | TDone o => Done o t
  | TLowest => (LowestUnfinished t).2
  | TEmpty => (Empty t).2
  end.

Definition trk_run (ops : list trk_op) : offsetTracker := foldl (fun t op => trk_run1 op t) newOffsetTracker ops.

(** The reference: the offsets added, and those in flight. *)
Definition ref_run1 (op : trk_op) (s : gset Z * gset Z) : gset Z * gset Z :=
  match op with
  | TAdd o => ({[o]} ∪ s.1, {[o]} ∪ s.2)
  | TDone o => (s.1, s.2 ∖ {[o]})
  | _ => s
  end.

Definition ref_run (ops : list trk_op) : gset Z * gset Z := foldl (fun s op => ref_run1 op s) (∅, ∅) ops.

(** Every offset is added once, and finished only after it was added. *)
Fixpoint ops_ok (seen : gset Z) (ops : list trk_op) : bool :=
  match ops with
  | [] => true
  | TAdd o :: rest => negb (bool_decide (o ∈ seen)) && ops_ok ({[o]} ∪ seen) rest
  | TDone o :: rest => bool_decide (o ∈ seen) && ops_ok seen rest
  | _ :: rest => ops_ok seen rest
  end.

Lemma trk_run_ref ops t s :
  tracker_ok s.1 t -> unfinished t = s.2 -> ops_ok s.1 ops = true ->
  let t' := foldl (fun t op => trk_run1 op t) t ops in
  let s' := foldl (fun s op => ref_run1 op s) s ops in
  tracker_ok s'.1 t' ∧ unfinished t' = s'.2.
Proof.
  revert t s. induction ops as [|op ops IH]; intros t s Ht Hu Hok; [done|]. cbn [foldl].
  destruct op as [o|o| |]; cbn [ops_ok trk_run1 ref_run1] in *.
  - apply andb_true_iff in Hok as [Ho%negb_true_iff%bool_decide_eq_false Hok].
    destruct (Add_ok _ o t Ht Ho) as [H1 H2]. apply IH; [done|by rewrite H2, Hu|done].
  - apply andb_true_iff in Hok as [Ho%bool_decide_eq_true Hok].
    destruct (Done_ok _ o t Ht Ho) as [H1 H2]. apply IH; [done|by rewrite H2, Hu|done].
  - pose proof (LowestUnfinished_spec _ _ Ht) as Hl. destruct (LowestUnfinished t) as [[lo has] t'] eqn:E.
    destruct Hl as (H1 & H2 & _). apply IH; [done|by cbn [snd]; rewrite H2|done].
  - destruct (cleanTop_ok _ _ Ht) as (H1 & H2 & _). apply IH; [done|by simpl; rewrite H2|done].
Qed.

(** C29: after any sequence of [Add], [Done], [LowestUnfinished] and [Empty]
    calls in which each offset is added once and finished only after that,
    the lazily cleaned min-heap answers as the plain set of in-flight
    offsets: [LowestUnfinished] returns its least element, or says that there
    is none, and [Empty] says whether the set is empty. *)
Theorem offsetTracker_refines_set (ops : list trk_op) :
  ops_ok ∅ ops = true ->
  let inflight := (ref_run ops).2 in
  (∀ o, (LowestUnfinished (trk_run ops)).1 = (o, true) ↔
        o ∈ inflight ∧ ∀ o', o' ∈ inflight -> (o <= o')%Z) ∧
  ((LowestUnfinished (trk_run ops)).1 = (0%Z, false) ↔ inflight = ∅) ∧
  (Empty (trk_run ops)).1 = bool_decide (inflight = ∅).
Proof.
  intros Hok. destruct (trk_run_ref ops newOffsetTracker (∅, ∅) tracker_ok_new) as [Ht Hu]; [set_solver|done|].
  fold (trk_run ops) (ref_run ops) in Ht, Hu. cbn zeta. rewrite <-Hu.
  destruct (cleanTop_ok _ _ Ht) as (_ & Ec & _).
  pose proof (LowestUnfinished_spec _ _ Ht) as Hl. unfold Empty. unfold LowestUnfinished in *.
  destruct (Nat.eqb_spec (length (heap (cleanTop (trk_run ops)))) 0) as [E|E]; destruct Hl as (_ & _ & Hl); cbn [fst].
  - destruct Hl as [_ Hl]. split_and!; [intros o; split; [done|rewrite Hl; set_solver]|done|].
    symmetry. by apply bool_decide_eq_true.
  - destruct Hl as [Hin Hmin]. split_and!.
    + intros o. split; [by injection 1 as <-|]. intros [Ho Hle]. f_equal. specialize (Hmin o Ho). specialize (Hle _ Hin). lia.
    + split; [done|]. intros Hem. rewrite Hem in Hin. set_solver.
    + symmetry. apply bool_decide_eq_false. intros Hem. rewrite Hem in Hin. set_solver.
Qed.

Lemma offsetTracker_refines_set_witness :
  (LowestUnfinished (trk_run [TAdd 7; TAdd 3; TAdd 5; TDone 3; TLowest; TAdd 4; TDone 4; TDone 3])).1 = (5%Z, true).
Proof.
  apply (offsetTracker_refines_set [TAdd 7; TAdd 3; TAdd 5; TDone 3; TLowest; TAdd 4; TDone 4; TDone 3]);
    [vm_compute; reflexivity|].
  assert ((ref_run [TAdd 7; TAdd 3; TAdd 5; TDone 3; TLowest; TAdd 4; TDone 4; TDone 3]).2 = {[7%Z; 5%Z]}) as ->
    by (vm_compute; reflexivity).
  split; [set_solver|]. intros o' Ho'. set_unfold. lia.
Defined.
End OffsetTracker.

(** ** mark_queue.go *)
Module MarkQueue.
Import OffsetTracker.

Record Message : Type := mkMessage {
  Offset : Z;
  Value : list byte
}.

(** A slot is [None] once its message was marked (the code sets it to nil so
    it can be collected). *)
Record markQueue : Type := mkMarkQueue {
  msgs : list (option Message);
  head : nat
}.

Definition newMarkQueue : markQueue := mkMarkQueue [] 0.

Definition push (m : Message) (q : markQueue) : markQueue := mkMarkQueue (msgs q ++ [Some m]) (head q).

Definition pending (q : markQueue) : nat := (length (msgs q) - head q)%nat.

(** The marking loop; [None] is the nil-pointer panic of [msg.Offset].  The
    marked messages are the trace of [claim.MarkMessage] calls. *)
Fixpoint advanceLoop (fuel : nat) (lowest : Z) (hasUnfinished : bool) (q : markQueue) (marked : list Message)
  : option (markQueue * list Message) :=
  match fuel with
  | O => Some (q, marked)
  | S fuel =>
      if (head q <? length (msgs q))%nat then
        match msgs q !! head q with
        | Some (Some msg) =>
            if hasUnfinished && (lowest <=? Offset msg)%Z then Some (q, marked)
            else advanceLoop fuel lowest hasUnfinished
                   (mkMarkQueue (<[head q := None]> (msgs q)) (S (head q))) (marked ++ [msg])
        | _ => None
        end
      else Some (q, marked)
  end.

Definition compactQueue (q : markQueue) : markQueue :=
  if (0 <? head q)%nat && (length (msgs q) / 2 <=? head q)%nat
  then mkMarkQueue (drop (head q) (msgs q)) 0
  else q.

(** [claim] says whether there is a claim (there is none in test mode). *)
Definition advance (claim : bool) (t : offsetTracker) (q : markQueue)
  : option (markQueue * offsetTracker * list Message) :=
  if negb claim then Some (q, t, [])
  else
    let '((lowest, hasUnfinished), t) := LowestUnfinished t in
    match advanceLoop (length (msgs q)) lowest hasUnfinished q [] with
    | None => None
    | Some (q, marked) => Some (compactQueue q, t, marked)
    end.

(** The messages still waiting. *)
Definition queue_is (q : markQueue) (l : list Message) : Prop :=
  (head q <= length (msgs q))%nat ∧ drop (head q) (msgs q) = Some <$> l.

Definition markable (lowest : Z) (has : bool) (m : Message) : bool :=
  negb (has && (lowest <=? Offset m)%Z).

Fixpoint take_while {A} (f : A -> bool) (l : list A) : list A :=
  match l with [] => [] | x :: r => if f x then x :: take_while f r else [] end.
Fixpoint drop_while {A} (f : A -> bool) (l : list A) : list A :=
  match l with [] => [] | x :: r => if f x then drop_while f r else l end.

Lemma take_drop_while {A} (f : A -> bool) l : take_while f l ++ drop_while f l = l.
Proof. induction l as [|x l IH]; simpl; [done|]. destruct (f x); simpl; [by rewrite IH|done]. Qed.

Lemma take_while_Forall {A} (f : A -> bool) l : Forall (fun x => f x = true) (take_while f l).
Proof. induction l as [|x l IH]; simpl; [done|]. destruct (f x) eqn:E; constructor; done. Qed.

Lemma push_queue m q l : queue_is q l -> queue_is (push m q) (l ++ [m]).
Proof.
  intros [Hl Hd]. split; simpl; rewrite ?length_app; [simpl; lia|].
  rewrite drop_app_le by done. by rewrite Hd, fmap_app.
Qed.

Lemma advanceLoop_spec fuel lowest has q l marked :
  queue_is q l -> (length l <= fuel)%nat ->
  ∃ q', advanceLoop fuel lowest has q marked = Some (q', marked ++ take_while (markable lowest has) l) ∧
        queue_is q' (drop_while (markable lowest has) l).
Proof.
  revert q l marked. induction fuel as [|fuel IH]; intros q l marked [Hl Hd] Hf; cbn [advanceLoop].
  { destruct l; [|simpl in Hf; lia]. exists q. rewrite app_nil_r. done. }
  pose proof (f_equal length Hd) as Elen. rewrite length_drop, length_fmap in Elen.
  destruct l as [|m l]; simpl in Elen.
  { rewrite (proj2 (Nat.ltb_ge _ _)) by lia. exists q. rewrite app_nil_r. done. }
  rewrite (proj2 (Nat.ltb_lt _ _)) by lia.
  assert (msgs q !! head q = Some (Some m)) as Em.
  { rewrite <-(Nat.add_0_r (head q)), <-lookup_drop, Hd. done. }
  rewrite Em. cbn [take_while drop_while]. unfold markable at 1 3.
  destruct (has && (lowest <=? Offset m)%Z); cbn [negb].
  { exists q. rewrite app_nil_r. done. }
  destruct (IH (mkMarkQueue (<[head q := None]> (msgs q)) (S (head q))) l (marked ++ [m])) as (q' & E & Hq').
  - split; simpl; rewrite ?length_insert; [lia|]. rewrite drop_insert_lt by lia.
    rewrite (drop_S _ _ _ Em), fmap_cons in Hd. by injection Hd.
  - simpl in Hf. lia.
  - exists q'. rewrite E, <-app_assoc. done.
Qed.

Lemma compactQueue_spec q l : queue_is q l -> queue_is (compactQueue q) l.
Proof.
  intros [Hl Hd]. unfold compactQueue. destruct (_ && _); [|done]. split; simpl; [lia|]. done.
Qed.

(** [advance] never panics, marks the longest prefix of messages below the
    watermark and keeps the rest. *)
Lemma advance_spec seen t q l :
  tracker_ok seen t -> queue_is q l ->
  ∃ q' t' marked rest, advance true t q = Some (q', t', marked) ∧ l = marked ++ rest ∧ queue_is q' rest ∧
    tracker_ok seen t' ∧ unfinished t' = unfinished t ∧
    (∀ m o, m ∈ marked -> o ∈ unfinished t -> (Offset m < o)%Z) ∧
    match rest with [] => True | m :: _ => ∃ o, o ∈ unfinished t ∧ (o <= Offset m)%Z end.
Proof.
  intros Ht Hq. unfold advance. cbn [negb]. pose proof (LowestUnfinished_spec seen t Ht) as Hlow.
  destruct (LowestUnfinished t) as [[lowest has] t']. destruct Hlow as (Ht' & Eu & Hlow).
  destruct (advanceLoop_spec (length (msgs q)) lowest has q l [] Hq) as (q' & -> & Hq').
  { destruct Hq as [_ E]. apply (f_equal length) in E. rewrite length_drop, length_fmap in E. lia. }
  exists (compactQueue q'), t', (take_while (markable lowest has) l), (drop_while (markable lowest has) l).
  split_and!; [done|by rewrite take_drop_while|by apply compactQueue_spec|done|done| |].
  - intros m o Hm Ho. pose proof (take_while_Forall (markable lowest has) l) as Hf. rewrite Forall_forall in Hf.
    specialize (Hf m Hm). unfold markable in Hf. destruct has; [|destruct Hlow as [_ E]; set_solver].
    destruct Hlow as [_ Hle]. specialize (Hle o Ho). simpl in Hf. lia.
  - clear -Hlow. induction l as [|m l IH]; cbn [drop_while]; [done|].
    destruct (markable lowest has m) eqn:E; [done|]. unfold markable in E. destruct has; [|done].
    exists lowest. split; [apply Hlow|]. simpl in E. lia.
Qed.
End MarkQueue.
