(* ===== verification/Dispatcher.v ===== *)
(** * Dispatcher: the dependency-aware propagation loop

    Models [services/propagation/dispatcher.go]: the single goroutine that
    owns the in-flight set, the waiter graph, the held and pending messages,
    the offset tracker and the mark queue of one partition claim.  Each
    handler is a function on the loop's state; the loop itself is [step], one
    round of the [select] for each event that can arrive, so an interleaving
    is a list of events.

    A Go [range] over a set visits it in an unspecified order that may differ
    from loop to loop; [Order] gives the visiting order of each parent's
    children and every theorem holds for any of them. *)
From stdpp Require Import base gmap strings list sorting.
From Stdlib Require Import ZArith Lia.
From Stdlib Require Import Strings.Byte.
From S2P Require Import Prelude Models Offsets.
Import Offsets.OffsetTracker Offsets.MarkQueue.

(** The message, but for [spanCtx], which only tracing reads. *)
Record propagationMsg : Type := mkPropagationMsg {
  TXID : string;
  RawTx : list byte;
  InputTXIDs : list string;
  retryCount : Z;
  merkleRetryCount : Z;
  merkleFailureReason : string;
  retryReason : string
}.

Inductive admitResult : Type :=
| admitted
| held
| duplicate.

Record cascadedTx : Type := mkCascadedTx {
  ct_txid : string;
  ct_rawTx : list byte
}.

(** The dep-aware local variables of [runDispatcher]. *)
Record Graph : Type := mkGraph {
  inFlight : gmap string Z;
  waiters : gmap string (gset string);
  heldMsgs : gmap string propagationMsg;
  pendingMsgs : list propagationMsg;
  tracker : offsetTracker
}.

Definition newGraph : Graph := mkGraph ∅ ∅ ∅ [] newOffsetTracker.

(** ** Admission *)

(** The inputs of [msg] that are in flight. *)
Definition blocking (flight : gmap string Z) (msg : propagationMsg) : gset string :=
  foldl (fun acc parent =>
           if String.eqb parent "" || String.eqb parent (TXID msg) then acc
           else match flight !! parent with
                | None => acc
                | Some _ => {[parent]} ∪ acc
                end) ∅ (InputTXIDs msg).

(** [for parent := range blocking]: each round touches its own parent's set. *)
Definition registerWaiter (txid : string) (w : gmap string (gset string)) (parent : string)
  : gmap string (gset string) :=
  <[parent := {[txid]} ∪ default ∅ (w !! parent)]> w.

Definition holdMsg (msg : propagationMsg) (block : gset string) (g : Graph) : Graph :=
  mkGraph (inFlight g) (foldl (registerWaiter (TXID msg)) (waiters g) (elements block))
    (<[TXID msg := msg]> (heldMsgs g)) (pendingMsgs g) (tracker g).

Definition enqueue (msg : propagationMsg) (g : Graph) : Graph :=
  mkGraph (inFlight g) (waiters g) (heldMsgs g) (pendingMsgs g ++ [msg]) (tracker g).

Definition withTracker (g : Graph) (t : offsetTracker) : Graph :=
  mkGraph (inFlight g) (waiters g) (heldMsgs g) (pendingMsgs g) t.

Definition handleAdmit (msg : propagationMsg) (offset : Z) (g : Graph) : admitResult * Graph :=
  match inFlight g !! TXID msg with
  | Some _ => (duplicate, withTracker g (Done offset (Add offset (tracker g))))
  | None =>
      let block := blocking (inFlight g) msg in
      let g := mkGraph (<[TXID msg := offset]> (inFlight g)) (waiters g) (heldMsgs g) (pendingMsgs g)
                 (Add offset (tracker g)) in
      if negb (bool_decide (block = ∅)) then (held, holdMsg msg block g)
      else (admitted, enqueue msg g)
  end.

Definition handleRequeue (msg : propagationMsg) (g : Graph) : Graph :=
  match inFlight g !! TXID msg with
  | None => g
  | Some _ =>
      let block := blocking (inFlight g) msg in
      if negb (bool_decide (block = ∅)) then holdMsg msg block g else enqueue msg g
  end.

(** ** Terminal events *)

(** [cleanupWaiterEntries], for one other parent. *)
Definition dropWaiter (child : string) (w : gmap string (gset string)) (otherParent : string)
  : gmap string (gset string) :=
  match w !! otherParent with
  | None => w
  | Some set =>
      let set := set ∖ {[child]} in
      if bool_decide (set = ∅) then delete otherParent w else <[otherParent := set]> w
  end.

Definition cleanupWaiterEntries (child skipParent : string) (w : gmap string (gset string))
    (heldM : gmap string propagationMsg) : gmap string (gset string) :=
  match heldM !! child with
  | None => w
  | Some msg =>
      foldl (fun w otherParent =>
               if String.eqb otherParent "" || String.eqb otherParent child || String.eqb otherParent skipParent
               then w else dropWaiter child w otherParent) w (InputTXIDs msg)
  end.

Definition canRelease (child : string) (g : Graph) : option propagationMsg :=
  match heldMsgs g !! child with
  | None => None
  | Some msg =>
      if forallb (fun parent =>
                    String.eqb parent "" || String.eqb parent child ||
                    bool_decide (inFlight g !! parent = None)) (InputTXIDs msg)
      then Some msg else None
  end.

(** The visiting order of a [range] over the children of a parent. *)
Class Order : Type := {
  range : string -> gset string -> list string;
  range_perm p s : range p s ≡ₚ elements s
}.

Definition releaseChild (parentTxID : string) (g : Graph) (child : string) : Graph :=
  match canRelease child g with
  | None => g
  | Some msg =>
      mkGraph (inFlight g) (cleanupWaiterEntries child parentTxID (waiters g) (heldMsgs g))
        (delete child (heldMsgs g)) (pendingMsgs g ++ [msg]) (tracker g)
  end.

Definition releaseWaiters `{Order} (parentTxID : string) (g : Graph) : Graph :=
  match waiters g !! parentTxID with
  | None => g
  | Some children =>
      foldl (releaseChild parentTxID)
        (mkGraph (inFlight g) (delete parentTxID (waiters g)) (heldMsgs g) (pendingMsgs g) (tracker g))
        (range parentTxID children)
  end.

(** The two lines every terminalized transaction goes through. *)
Definition finish (txid : string) (g : Graph) : Graph :=
  mkGraph (delete txid (inFlight g)) (waiters g) (heldMsgs g) (pendingMsgs g)
    (match inFlight g !! txid with Some offset => Done offset (tracker g) | None => tracker g end).

(** One child of the cascade. *)
Definition cascadeChild (parent : string) (s : Graph * list cascadedTx) (child : string)
  : Graph * list cascadedTx :=
  let '(g, cascaded) := s in
  let w := cleanupWaiterEntries child parent (waiters g) (heldMsgs g) in
  let rawTx := match heldMsgs g !! child with Some m => RawTx m | None => [] end in
  let g := mkGraph (inFlight g) w (delete child (heldMsgs g)) (pendingMsgs g) (tracker g) in
  (finish child g, cascaded ++ [mkCascadedTx child rawTx]).

(** The breadth-first walk; [None] means that the fuel ran out. *)
Fixpoint cascadeLoop `{Order} (fuel : nat) (queue : list string) (g : Graph) (cascaded : list cascadedTx)
  : option (Graph * list cascadedTx) :=
  match queue with
  | [] => Some (g, cascaded)
  | parent :: queue =>
      match fuel with
      | O => None
      | S fuel =>
          match waiters g !! parent with
          | None => cascadeLoop fuel queue g cascaded
          | Some children =>
              let visited := range parent children in
              let g := mkGraph (inFlight g) (delete parent (waiters g)) (heldMsgs g) (pendingMsgs g) (tracker g) in
              let '(g, cascaded) := foldl (cascadeChild parent) (g, cascaded) visited in
              cascadeLoop fuel (queue ++ visited) g cascaded
          end
      end
  end.

(** Every round takes one entry off the queue and every entry but the first
    comes from one waiter registration, so one more than the number of
    registrations is enough fuel. *)
Definition registrations (w : gmap string (gset string)) : nat :=
  map_fold (fun _ s n => (size s + n)%nat) 0%nat w.

Definition cascadeReject `{Order} (rejectedTxID : string) (g : Graph) : option (Graph * list cascadedTx) :=
  cascadeLoop (1 + registrations (waiters g)) [rejectedTxID] g [].

Definition handleTerminal `{Order} (txid : string) (status : string) (g : Graph)
  : option (Graph * list cascadedTx) :=
  if String.eqb status StatusAcceptedByNetwork then Some (releaseWaiters txid (finish txid g), [])
  else if String.eqb status StatusRejected || String.eqb status StatusPendingRetry
  then cascadeReject txid (finish txid g)
  else Some (g, []).

(** ** The loop *)

Record dispatcherConfig : Type := mkDispatcherConfig {
  maxPending : Z;
  semCapacity : nat
}.

(** The loop's locals beside the graph. *)
Record Loop : Type := mkLoop {
  graph : Graph;
  marks : markQueue;
  prevPending : Z;
  prevInflight : Z
}.

Definition newLoop : Loop := mkLoop newGraph newMarkQueue 0 0.

(** What the loops of one process share: the depth mirrors and the batch
    slots. *)
Record Shared : Type := mkShared {
  pendingDepth : Z;
  inflightDepth : Z;
  semUsed : nat;
  inflightBatches : nat
}.

Inductive event : Type :=
| EvCtxDone
| EvClaim (msg : option Message)
| EvAdmit (msg : propagationMsg) (offset : Z)
| EvRequeue (msg : propagationMsg)
| EvTerminal (txid status : string)
| EvDrain
| EvTick.

(** What one round does besides changing the state: the messages marked
    through the queue, the malformed message marked on the spot, the replies
    and the batch handed to [processBatch] or to the drain caller. *)
Record output : Type := mkOutput {
  o_marked : list Message;
  o_dropped : list Message;
  o_admit : option admitResult;
  o_cascaded : list cascadedTx;
  o_batch : list propagationMsg
}.

Definition quiet : output := mkOutput [] [] None [] [].

(** [Blocked]: the event's channel is not selectable.  [Panic]: a nil
    dereference, or a cascade that ran out of fuel. *)
Inductive outcome : Type :=
| Blocked
| Panic
| Continue (l : Loop) (s : Shared) (o : output)
| Exit (s : Shared) (o : output).

(** The depth accounting at the top of every iteration. *)
Definition observe (l : Loop) (s : Shared) : Loop * Shared :=
  let p := Z.of_nat (length (pendingMsgs (graph l))) in
  let f := Z.of_nat (size (inFlight (graph l))) in
  (mkLoop (graph l) (marks l) p f,
   mkShared (pendingDepth s + (p - prevPending l)) (inflightDepth s + (f - prevInflight l))
     (semUsed s) (inflightBatches s)).

(** The deferred removal of the loop's contribution. *)
Definition unobserve (l : Loop) (s : Shared) : Shared :=
  mkShared (pendingDepth s - prevPending l) (inflightDepth s - prevInflight l) (semUsed s) (inflightBatches s).

Definition setGraph (l : Loop) (g : Graph) : Loop := mkLoop g (marks l) (prevPending l) (prevInflight l).

Definition clearPending (g : Graph) : Graph :=
  mkGraph (inFlight g) (waiters g) (heldMsgs g) [] (tracker g).

Section Step.
Context `{Order}.
(** [json.Unmarshal] of a Kafka value into a [propagationMsg]. *)
Context (decode : list byte -> option propagationMsg).

Definition hasRoom (cfg : dispatcherConfig) (g : Graph) : bool :=
  (maxPending cfg <=? 0)%Z || (Z.of_nat (length (pendingMsgs g)) <? maxPending cfg)%Z.

(** [marks.advance] on the loop's state. *)
Definition advanceMarks (claim : bool) (l : Loop) : option (Loop * list Message) :=
  match advance claim (tracker (graph l)) (marks l) with
  | None => None
  | Some (q, t, marked) =>
      Some (mkLoop (withTracker (graph l) t) q (prevPending l) (prevInflight l), marked)
  end.

Definition exitLoop (claim : bool) (l : Loop) (s : Shared) : outcome :=
  match advanceMarks claim l with
  | None => Panic
  | Some (l, marked) => Exit (unobserve l s) (mkOutput marked [] None [] [])
  end.

Definition claimMessage (msg : Message) (l : Loop) (s : Shared) : outcome :=
  match decode (Value msg) with
  | None => Continue l s (mkOutput [] [msg] None [] [])
  | Some propMsg =>
      if (length (RawTx propMsg) =? 0)%nat then Continue l s (mkOutput [] [msg] None [] [])
      else
        let '(_, g) := handleAdmit propMsg (Offset msg) (graph l) in
        Continue (mkLoop g (push msg (marks l)) (prevPending l) (prevInflight l)) s quiet
  end.

Definition flushTick (cfg : dispatcherConfig) (l : Loop) (s : Shared) : outcome :=
  match advanceMarks true l with
  | None => Panic
  | Some (l, marked) =>
      if (length (pendingMsgs (graph l)) =? 0)%nat then Continue l s (mkOutput marked [] None [] [])
      else if (semUsed s <? semCapacity cfg)%nat then
        Continue (setGraph l (clearPending (graph l)))
          (mkShared (pendingDepth s) (inflightDepth s) (S (semUsed s)) (S (inflightBatches s)))
          (mkOutput marked [] None [] (pendingMsgs (graph l)))
      else Continue l s (mkOutput marked [] None [] [])
  end.

(** One round: the top of the loop body, then the chosen case.  The claim's
    channel and [admitCh] are not selectable without room, the claim's channel
    and the ticker not without a claim. *)
Definition step (claim : bool) (cfg : dispatcherConfig) (ev : event) (l : Loop) (s : Shared) : outcome :=
  let '(l, s) := observe l s in
  match ev with
  | EvCtxDone => exitLoop claim l s
  | EvClaim m =>
      if negb claim || negb (hasRoom cfg (graph l)) then Blocked
      else match m with
           | None => exitLoop claim l s
           | Some msg => claimMessage msg l s
           end
  | EvAdmit msg offset =>
      if negb (hasRoom cfg (graph l)) then Blocked
      else
        let '(res, g) := handleAdmit msg offset (graph l) in
        Continue (setGraph l g) s (mkOutput [] [] (Some res) [] [])
  | EvRequeue msg => Continue (setGraph l (handleRequeue msg (graph l))) s quiet
  | EvTerminal txid status =>
      match handleTerminal txid status (graph l) with
      | None => Panic
      | Some (g, cascaded) => Continue (setGraph l g) s (mkOutput [] [] None cascaded [])
      end
  | EvDrain =>
      Continue (setGraph l (clearPending (graph l))) s (mkOutput [] [] None [] (pendingMsgs (graph l)))
  | EvTick => if negb claim then Blocked else flushTick cfg l s
  end.
End Step.
