(* ===== verification/DispatcherInv.v ===== *)
(** * DispatcherInv: the waiter graph's invariant

    What the handlers of [Dispatcher] keep: the tracker's unfinished offsets
    are exactly those of the in-flight transactions, a registration always
    leads from an in-flight parent to a held child that spends it, and a
    terminal event finishes exactly the transactions it should. *)
From stdpp Require Import base gmap strings list sorting relations.
From Stdlib Require Import ZArith Lia.
From S2P Require Import Prelude Models Offsets Dispatcher.
Import Offsets.OffsetTracker Offsets.MarkQueue.

(** ** Registrations *)

Definition waits (w : gmap string (gset string)) (p c : string) : Prop := c ∈ default ∅ (w !! p).
Definition tidy (w : gmap string (gset string)) : Prop := ∀ p ws, w !! p = Some ws -> ws ≠ ∅.

Lemma waits_insert w p s p' c : waits (<[p := s]> w) p' c ↔ if decide (p' = p) then c ∈ s else waits w p' c.
Proof.
  unfold waits. destruct (decide (p' = p)) as [->|Hne]; [by rewrite lookup_insert_eq|].
  by rewrite lookup_insert_ne.
Qed.

Lemma waits_delete w p p' c : waits (delete p w) p' c ↔ p' ≠ p ∧ waits w p' c.
Proof.
  unfold waits. destruct (decide (p' = p)) as [->|Hne]; [rewrite lookup_delete_eq; set_solver|].
  rewrite lookup_delete_ne by done. naive_solver.
Qed.

Lemma tidy_delete w p : tidy w -> tidy (delete p w).
Proof. intros Hw p' ws [_ Hl]%lookup_delete_Some. by eapply Hw. Qed.

Lemma tidy_insert w p s : tidy w -> s ≠ ∅ -> tidy (<[p := s]> w).
Proof. intros Hw Hs p' ws [[_ <-]|[_ Hl]]%lookup_insert_Some; [done|by eapply Hw]. Qed.

Lemma dropWaiter_waits child w p p' c :
  waits (dropWaiter child w p) p' c ↔ waits w p' c ∧ ¬ (p' = p ∧ c = child).
Proof.
  unfold dropWaiter. destruct (w !! p) as [s|] eqn:E.
  - case_bool_decide as Hs.
    + rewrite waits_delete. unfold waits. destruct (decide (p' = p)) as [->|Hne]; [|naive_solver].
      rewrite E. simpl. set_solver.
    + rewrite waits_insert. unfold waits. destruct (decide (p' = p)) as [->|Hne]; [|naive_solver].
      rewrite E. simpl. set_solver.
  - unfold waits. destruct (decide (p' = p)) as [->|Hne]; [|naive_solver]. rewrite E. simpl. set_solver.
Qed.

Lemma dropWaiter_tidy child w p : tidy w -> tidy (dropWaiter child w p).
Proof.
  intros Hw. unfold dropWaiter. destruct (w !! p) as [s|] eqn:E; [|done].
  case_bool_decide; [by apply tidy_delete|by apply tidy_insert].
Qed.

(** The parents [cleanupWaiterEntries] visits. *)
Definition other (child skip p : string) : Prop := p ≠ "" ∧ p ≠ child ∧ p ≠ skip.

Lemma cleanup_waits child skip w h msg p c :
  h !! child = Some msg ->
  waits (cleanupWaiterEntries child skip w h) p c ↔
  waits w p c ∧ ¬ (c = child ∧ p ∈ InputTXIDs msg ∧ other child skip p).
Proof.
  intros Hm. unfold cleanupWaiterEntries. rewrite Hm. generalize (InputTXIDs msg). intros l. clear Hm.
  revert w. induction l as [|q l IH]; intros w; cbn [foldl]; [set_solver|]. rewrite IH.
  rewrite elem_of_cons. unfold other.
  destruct (decide (p = q)) as [->|Hne].
  - destruct (String.eqb_spec q "") as [|H1]; cbn [orb]; [tauto|].
    destruct (String.eqb_spec q child) as [|H2]; cbn [orb]; [tauto|].
    destruct (String.eqb_spec q skip) as [|H3]; [tauto|]. rewrite dropWaiter_waits. tauto.
  - destruct (_ || _ || _); rewrite ?dropWaiter_waits; tauto.
Qed.

Lemma cleanup_tidy child skip w h : tidy w -> tidy (cleanupWaiterEntries child skip w h).
Proof.
  unfold cleanupWaiterEntries. destruct (h !! child) as [m|]; [|done]. generalize (InputTXIDs m). intros l.
  revert w. induction l as [|q l IH]; intros w Hw; cbn [foldl]; [done|]. apply IH.
  destruct (_ || _ || _); [done|by apply dropWaiter_tidy].
Qed.

Lemma register_waits x w l p c :
  waits (foldl (registerWaiter x) w l) p c ↔ waits w p c ∨ (c = x ∧ p ∈ l).
Proof.
  revert w. induction l as [|q l IH]; intros w; cbn [foldl]; [set_solver|]. rewrite IH. unfold registerWaiter at 1.
  rewrite waits_insert. unfold waits. destruct (decide (p = q)) as [->|Hne]; set_solver.
Qed.

Lemma register_tidy x w l : tidy w -> tidy (foldl (registerWaiter x) w l).
Proof.
  revert w. induction l as [|q l IH]; intros w Hw; cbn [foldl]; [done|]. apply IH. apply tidy_insert; [done|set_solver].
Qed.

Lemma blocking_spec fl m p :
  p ∈ blocking fl m ↔ p ∈ InputTXIDs m ∧ p ≠ "" ∧ p ≠ TXID m ∧ is_Some (fl !! p).
Proof.
  unfold blocking. set (f := fun acc parent => _).
  assert (∀ l acc, p ∈ foldl f acc l ↔ p ∈ acc ∨ (p ∈ l ∧ p ≠ "" ∧ p ≠ TXID m ∧ is_Some (fl !! p))) as Hf.
  { induction l as [|q l IH]; intros acc; cbn [foldl]; [set_solver|]. rewrite IH. unfold f at 1.
    rewrite elem_of_cons. destruct (decide (p = q)) as [->|Hne].
    - destruct (String.eqb_spec q "") as [|Hq]; cbn [orb]; [tauto|].
      destruct (String.eqb_spec q (TXID m)) as [|Hm]; [tauto|].
      destruct (fl !! q) eqn:E; [set_solver|]. assert (¬ is_Some (None (A := Z))) by (by intros [? ?]). tauto.
    - destruct (_ || _); [tauto|]. destruct (fl !! q); [|tauto]. rewrite elem_of_union, elem_of_singleton. tauto. }
  rewrite Hf. set_solver.
Qed.

(** ** The number of registrations *)

Lemma registrations_delete w p s :
  w !! p = Some s -> registrations w = (size s + registrations (delete p w))%nat.
Proof. intros Hp. unfold registrations. apply (map_fold_delete_L (fun _ s n => (size s + n)%nat) 0%nat p s w); [intros; lia|done]. Qed.

Lemma registrations_drop child w p : (registrations (dropWaiter child w p) <= registrations w)%nat.
Proof.
  unfold dropWaiter. destruct (w !! p) as [s|] eqn:E; [|lia]. rewrite (registrations_delete w p s E).
  case_bool_decide; [lia|]. rewrite (registrations_delete _ p (s ∖ {[child]})) by apply lookup_insert_eq.
  rewrite delete_insert_eq. pose proof (subseteq_size (s ∖ {[child]}) s ltac:(set_solver)). lia.
Qed.

Lemma registrations_cleanup child skip w h :
  (registrations (cleanupWaiterEntries child skip w h) <= registrations w)%nat.
Proof.
  unfold cleanupWaiterEntries. destruct (h !! child) as [m|]; [|lia]. generalize (InputTXIDs m). intros l.
  revert w. induction l as [|q l IH]; intros w; cbn [foldl]; [lia|]. etrans; [apply IH|].
  destruct (_ || _ || _); [lia|apply registrations_drop].
Qed.

(** ** The invariant *)
Section Inv.
(** The inputs of a transaction are a function of its txid. *)
Context (inputsOf : string -> list string).

Definition parent_of (p c : string) : Prop := p ∈ inputsOf c ∧ p ≠ "" ∧ p ≠ c.
Definition msg_ok (m : propagationMsg) : Prop := InputTXIDs m = inputsOf (TXID m).

(** The tracker pins exactly the in-flight offsets. *)
Record pins (seen : gset Z) (fl : gmap string Z) (t : offsetTracker) : Prop := {
  pin_trk : tracker_ok seen t;
  pin_unf : ∀ o, o ∈ unfinished t ↔ ∃ x, fl !! x = Some o;
  pin_inj : ∀ x y o, fl !! x = Some o -> fl !! y = Some o -> x = y
}.

(** What also holds in the middle of a cascade. *)
Record core_ok (seen : gset Z) (g : Graph) : Prop := {
  core_pins : pins seen (inFlight g) (tracker g);
  core_held : ∀ c m, heldMsgs g !! c = Some m -> TXID m = c ∧ msg_ok m;
  core_wait : ∀ p c, waits (waiters g) p c -> is_Some (heldMsgs g !! c) ∧ parent_of p c;
  core_tidy : tidy (waiters g)
}.

Record graph_ok (seen : gset Z) (g : Graph) : Prop := {
  graph_core : core_ok seen g;
  graph_parent : ∀ p c, waits (waiters g) p c -> is_Some (inFlight g !! p)
}.

Lemma graph_ok_new : graph_ok ∅ newGraph.
Proof.
  split; [split; [split| | |]|]; simpl.
  - apply tracker_ok_new.
  - intros o. split; [set_solver|]. intros [x Hx]. by rewrite lookup_empty in Hx.
  - intros x y o Hx. by rewrite lookup_empty in Hx.
  - intros c m Hc. by rewrite lookup_empty in Hc.
  - intros p c Hw. unfold waits in Hw. rewrite lookup_empty in Hw. simpl in Hw. set_solver.
  - intros p ws Hp. by rewrite lookup_empty in Hp.
  - intros p c Hw. unfold waits in Hw. rewrite lookup_empty in Hw. simpl in Hw. set_solver.
Qed.

Lemma pins_seen seen fl t x o : pins seen fl t -> fl !! x = Some o -> o ∈ seen.
Proof.
  intros [Ht Hu _] Hx. assert (o ∈ unfinished t) as Ho by (apply Hu; eauto).
  apply elem_of_difference in Ho as [Ho _]. apply elem_of_list_to_set in Ho. by eapply trk_seen.
Qed.

Lemma pins_add seen fl t x o :
  pins seen fl t -> o ∉ seen -> fl !! x = None -> pins ({[o]} ∪ seen) (<[x := o]> fl) (Add o t).
Proof.
  intros Hp Ho Hx. destruct (Add_ok seen o t (pin_trk _ _ _ Hp) Ho) as [H1 H2]. split; [done| |].
  - intros o'. rewrite H2, elem_of_union, elem_of_singleton, (pin_unf _ _ _ Hp). split.
    + intros [->|[y Hy]]; [exists x; by rewrite lookup_insert_eq|]. exists y. rewrite lookup_insert_ne; [done|congruence].
    + intros [y [[-> ->]|[_ Hy]]%lookup_insert_Some]; eauto.
  - intros y z o' Hy Hz. apply lookup_insert_Some in Hy, Hz.
    destruct Hy as [[<- <-]|[_ Hy]], Hz as [[<- Ez]|[_ Hz]]; [done| | |by eapply pin_inj].
    + destruct Ho. by eapply pins_seen.
    + subst. destruct Ho. by eapply pins_seen.
Qed.

Lemma pins_dup seen fl t o :
  pins seen fl t -> o ∉ seen -> pins ({[o]} ∪ seen) fl (Done o (Add o t)).
Proof.
  intros Hp Ho. destruct (Add_ok seen o t (pin_trk _ _ _ Hp) Ho) as [H1 H2].
  destruct (Done_ok _ o _ H1 ltac:(set_solver)) as [H3 H4]. split; [done| |apply Hp].
  intros o'. rewrite H4, H2, <-(pin_unf _ _ _ Hp). assert (o ∉ unfinished t); [|set_solver].
  intros [x Hx]%(pin_unf _ _ _ Hp). destruct Ho. by eapply pins_seen.
Qed.

Lemma pins_finish seen fl t x :
  pins seen fl t ->
  pins seen (delete x fl) (match fl !! x with Some o => Done o t | None => t end).
Proof.
  intros Hp. destruct (fl !! x) as [o|] eqn:E; [|by rewrite delete_id].
  destruct (Done_ok seen o t (pin_trk _ _ _ Hp)) as [H1 H2]; [by eapply pins_seen|]. split; [done| |].
  - intros o'. rewrite H2, elem_of_difference, elem_of_singleton, (pin_unf _ _ _ Hp). split.
    + intros [[y Hy] Hne]. exists y. rewrite lookup_delete_ne; [done|congruence].
    + intros [y [Hne Hy]%lookup_delete_Some]. split; [eauto|]. intros ->. apply Hne. by eapply pin_inj.
  - intros y z o' [_ Hy]%lookup_delete_Some [_ Hz]%lookup_delete_Some. by eapply pin_inj.
Qed.

Lemma finish_core seen x g : core_ok seen g -> core_ok seen (finish x g).
Proof. intros [H1 H2 H3 H4]. split; simpl; [by apply pins_finish|done|done|done]. Qed.

(** *** Admission *)

Lemma holdMsg_ok seen msg g :
  msg_ok msg -> graph_ok seen g -> graph_ok seen (holdMsg msg (blocking (inFlight g) msg) g).
Proof.
  intros Hm [[H1 H2 H3 H4] H5]. split; [split|]; simpl.
  - done.
  - intros c m [[<- <-]|[_ Hc]]%lookup_insert_Some; [done|by apply H2].
  - intros p c [Hw|[-> Hb]]%register_waits.
    + destruct (H3 p c Hw) as [Hh Hp]. split; [|done]. destruct (decide (c = TXID msg)) as [->|];
        [rewrite lookup_insert_eq; eauto|by rewrite lookup_insert_ne].
    + apply elem_of_elements, blocking_spec in Hb as (Hi & He & Hs & _).
      split; [rewrite lookup_insert_eq; eauto|]. split; [by rewrite <-Hm|done].
  - by apply register_tidy.
  - intros p c [Hw|[-> Hb]]%register_waits; [by eapply H5|].
    by apply elem_of_elements, blocking_spec in Hb as (_ & _ & _ & ?).
Qed.

Lemma handleAdmit_ok seen msg o g :
  msg_ok msg -> o ∉ seen -> graph_ok seen g -> graph_ok ({[o]} ∪ seen) (handleAdmit msg o g).2.
Proof.
  intros Hm Ho [[H1 H2 H3 H4] H5]. unfold handleAdmit. destruct (inFlight g !! TXID msg) as [o'|] eqn:E.
  { split; [split|]; simpl; [by apply pins_dup|done|done|done|done]. }
  assert (graph_ok ({[o]} ∪ seen) (mkGraph (<[TXID msg := o]> (inFlight g)) (waiters g) (heldMsgs g) (pendingMsgs g)
    (Add o (tracker g)))) as Hg.
  { split; [split|]; simpl; [by apply pins_add|done|done|done|]. intros p c Hw%H5.
    destruct (decide (p = TXID msg)) as [->|]; [rewrite lookup_insert_eq; eauto|by rewrite lookup_insert_ne]. }
  assert (blocking (inFlight g) msg = blocking (<[TXID msg := o]> (inFlight g)) msg) as Eb.
  { apply set_eq. intros p. rewrite !blocking_spec. destruct (decide (p = TXID msg)); [naive_solver|].
    by rewrite lookup_insert_ne. }
  case_bool_decide; simpl; [by split; [split|]; apply Hg|]. rewrite Eb. by apply (holdMsg_ok _ msg _ Hm Hg).
Qed.

Lemma handleRequeue_ok seen msg g : msg_ok msg -> graph_ok seen g -> graph_ok seen (handleRequeue msg g).
Proof.
  intros Hm Hg. unfold handleRequeue. destruct (inFlight g !! TXID msg); [|done].
  case_bool_decide; simpl; [|by apply holdMsg_ok]. destruct Hg as [[H1 H2 H3 H4] H5]. by split; [split|].
Qed.

(** *** The cascade *)

Definition txids (l : list cascadedTx) : list string := ct_txid <$> l.

(** The walk from [r] over the graph [g0], with the parents [P] expanded. *)
Record casc (seen : gset Z) (g0 : Graph) (r : string) (P : gset string) (g : Graph) (cas : list cascadedTx) : Prop := {
  casc_core : core_ok seen g;
  casc_waits : ∀ p c, waits (waiters g) p c ↔ waits (waiters g0) p c ∧ (p ∉ P) ∧ c ∉ txids cas;
  casc_held : ∀ c, heldMsgs g !! c = (if decide (c ∈ txids cas) then None else heldMsgs g0 !! c);
  casc_flight : ∀ c, inFlight g !! c = (if decide (c ∈ txids cas) then None else inFlight g0 !! c);
  casc_pending : pendingMsgs g = pendingMsgs g0;
  casc_nodup : NoDup (txids cas);
  casc_reach : ∀ c, c ∈ txids cas -> tc (waits (waiters g0)) r c;
  casc_raw : ∀ t, t ∈ cas -> ∃ m, heldMsgs g0 !! ct_txid t = Some m ∧ ct_rawTx t = RawTx m
}.

Lemma lookup_delete_if {A} (m : gmap string A) (l : list string) c x v :
  v = (if decide (c ∈ l) then None else m !! c) ->
  (if decide (c = x) then None else v) = (if decide (c ∈ l ++ [x]) then None else m !! c).
Proof. intros ->. repeat case_decide; set_solver. Qed.

Lemma cascadeChild_casc seen g0 r P g cas p child :
  core_ok seen g0 -> casc seen g0 r P g cas -> p ∈ P -> (p = r ∨ tc (waits (waiters g0)) r p) ->
  waits (waiters g0) p child -> child ∉ txids cas ->
  ∃ g' raw, cascadeChild p (g, cas) child = (g', cas ++ [mkCascadedTx child raw]) ∧
    casc seen g0 r P g' (cas ++ [mkCascadedTx child raw]) ∧
    (registrations (waiters g') <= registrations (waiters g))%nat.
Proof.
  intros Hc0 [Hc Hw Hh Hf Hp Hnd Hr Hraw] HpP Hpr Hchild Hni. unfold cascadeChild.
  destruct (core_wait _ _ Hc0 p child Hchild) as [[m Hm] _].
  assert (heldMsgs g !! child = Some m) as Hmg by (by rewrite Hh, decide_False).
  rewrite Hmg. eexists _, (RawTx m). split; [reflexivity|]. split; [|apply registrations_cleanup].
  assert (∀ p' c, waits (cleanupWaiterEntries child p (waiters g) (heldMsgs g)) p' c ↔
            waits (waiters g) p' c ∧ c ≠ child) as Hclean.
  { intros p' c. rewrite (cleanup_waits _ _ _ _ m) by done. split; [|naive_solver].
    intros [Hwc Hno]. split; [done|]. intros ->. apply Hno. split; [done|].
    destruct (core_wait _ _ Hc _ _ Hwc) as [_ (H1 & H2 & H3)].
    destruct (core_held _ _ Hc child m Hmg) as [E Hmok]. unfold msg_ok in Hmok. rewrite E in Hmok.
    split; [by rewrite Hmok|]. split_and!; [done|done|]. apply Hw in Hwc as (_ & ? & _). by intros ->. }
  assert (txids (cas ++ [mkCascadedTx child (RawTx m)]) = txids cas ++ [child]) as Et by (unfold txids; by rewrite fmap_app).
  split; rewrite ?Et; simpl.
  - apply (finish_core seen child (mkGraph (inFlight g) _ _ _ _)). split; simpl; [apply Hc| | |apply cleanup_tidy, Hc].
    + intros c mc [_ H]%lookup_delete_Some. by apply (core_held _ _ Hc).
    + intros p' c [H1 H2]%Hclean. rewrite lookup_delete_ne by done. by apply (core_wait _ _ Hc).
  - intros p' c. rewrite Hclean, Hw. set_solver.
  - intros c. rewrite <-(lookup_delete_if _ _ _ _ _ (Hh c)), lookup_delete. repeat case_decide; congruence.
  - intros c. rewrite <-(lookup_delete_if _ _ _ _ _ (Hf c)), lookup_delete. repeat case_decide; congruence.
  - done.
  - apply NoDup_app. split_and!; [done| |apply NoDup_singleton]. set_solver.
  - intros c [H|H%list_elem_of_singleton]%elem_of_app; [by apply Hr|subst c].
    destruct Hpr as [->|Hpr]; [by apply tc_once|by eapply tc_r].
  - intros t [H|H%list_elem_of_singleton]%elem_of_app; [by apply Hraw|subst t]. simpl. eauto.
Qed.

Lemma cascadeChildren_casc seen g0 r P p todo g cas :
  core_ok seen g0 -> casc seen g0 r P g cas -> p ∈ P -> (p = r ∨ tc (waits (waiters g0)) r p) ->
  NoDup todo -> (∀ c, c ∈ todo -> waits (waiters g0) p c ∧ c ∉ txids cas) ->
  ∃ g' cas', foldl (cascadeChild p) (g, cas) todo = (g', cas') ∧ txids cas' = txids cas ++ todo ∧
    casc seen g0 r P g' cas' ∧ (registrations (waiters g') <= registrations (waiters g))%nat.
Proof.
  intros Hc0 Hc Hp Hpr. revert g cas Hc. induction todo as [|c todo IH]; intros g cas Hc Hnd Htodo.
  { exists g, cas. rewrite app_nil_r. done. }
  apply NoDup_cons in Hnd as [Hni Hnd]. cbn [foldl].
  destruct (Htodo c ltac:(set_solver)) as [Hw Hnc].
  destruct (cascadeChild_casc seen g0 r P g cas p c) as (g1 & raw & -> & Hc1 & Hr1); [done..|].
  destruct (IH g1 _ Hc1 Hnd) as (g2 & cas2 & -> & Et & Hc2 & Hr2).
  { intros c' Hc'. destruct (Htodo c' ltac:(set_solver)) as [? ?]. split; [done|].
    unfold txids. rewrite fmap_app. simpl. set_solver. }
  exists g2, cas2. split_and!; [done| |done|lia]. rewrite Et. unfold txids. rewrite fmap_app. simpl. by rewrite <-app_assoc.
Qed.

Lemma casc_expand seen g0 r P g cas p :
  casc seen g0 r P g cas ->
  casc seen g0 r ({[p]} ∪ P)
    (mkGraph (inFlight g) (delete p (waiters g)) (heldMsgs g) (pendingMsgs g) (tracker g)) cas.
Proof.
  intros [[H1 H2 H3 H4] Hw Hh Hf Hp Hnd Hr Hraw]. split; simpl; try done.
  - split; simpl; [done|done| |by apply tidy_delete]. intros p' c [_ H]%waits_delete. by apply H3.
  - intros p' c. rewrite waits_delete, Hw. set_solver.
Qed.

Lemma cascadeLoop_casc `{Order} seen g0 r fuel queue P g cas :
  core_ok seen g0 -> casc seen g0 r P g cas ->
  (∀ x, x ∈ P ∨ x ∈ queue ↔ x = r ∨ x ∈ txids cas) ->
  (∀ p c, p ∈ P -> waits (waiters g0) p c -> c ∈ txids cas) ->
  (length queue + registrations (waiters g) <= fuel)%nat ->
  ∃ P' g' cas', cascadeLoop fuel queue g cas = Some (g', cas') ∧ casc seen g0 r P' g' cas' ∧
    (∀ x, x ∈ P' ↔ x = r ∨ x ∈ txids cas') ∧
    (∀ p c, p ∈ P' -> waits (waiters g0) p c -> c ∈ txids cas').
Proof.
  intros Hc0. revert queue P g cas. induction fuel as [|fuel IH]; intros queue P g cas Hc Hpq Hcl Hfuel.
  { destruct queue; [|simpl in Hfuel; lia]. exists P, g, cas. split_and!; [done|done| |done].
    intros x. rewrite <-Hpq. set_solver. }
  destruct queue as [|p queue]; cbn [cascadeLoop].
  { exists P, g, cas. split_and!; [done|done| |done]. intros x. rewrite <-Hpq. set_solver. }
  assert (p = r ∨ p ∈ txids cas) as Hp by (apply Hpq; set_solver).
  pose proof (casc_expand _ _ _ _ _ _ p Hc) as Hc1.
  destruct (waiters g !! p) as [ws|] eqn:Ew.
  - set (g1 := mkGraph _ _ _ _ _) in *.
    destruct (cascadeChildren_casc seen g0 r ({[p]} ∪ P) p (range p ws) g1 cas) as (g2 & cas2 & -> & Et & Hc2 & Hr2);
      [done|done|set_solver| | | |].
    + destruct Hp as [->|Hp]; [by left|right; by eapply casc_reach].
    + rewrite range_perm. apply NoDup_elements.
    + intros c. rewrite range_perm, elem_of_elements. intros Hin.
      assert (waits (waiters g) p c) as Hw by (unfold waits; by rewrite Ew).
      apply (casc_waits _ _ _ _ _ _ Hc) in Hw. naive_solver.
    + apply (IH _ ({[p]} ∪ P)); [done| | |].
      * intros x. rewrite Et, elem_of_union, elem_of_singleton, !elem_of_app. specialize (Hpq x). rewrite elem_of_cons in Hpq. tauto.
      * intros q c [Eq%elem_of_singleton|Hq]%elem_of_union Hwq; rewrite Et, elem_of_app; [subst q|left; by eapply Hcl].
        destruct (decide (c ∈ txids cas)); [by left|right]. rewrite range_perm, elem_of_elements.
        destruct (decide (p ∈ P)) as [HqP|HqP]; [exfalso; eauto|].
        assert (waits (waiters g) p c) as Hw by (by apply (casc_waits _ _ _ _ _ _ Hc)).
        unfold waits in Hw. by rewrite Ew in Hw.
      * rewrite length_app, range_perm. change (waiters g1) with (delete p (waiters g)) in Hr2.
        rewrite (registrations_delete _ p ws Ew) in Hfuel. simpl in Hfuel. unfold size, set_size in Hfuel. simpl in *. lia.
  - assert (∀ c, ¬ waits (waiters g) p c) as Hnone by (intros c Hw; unfold waits in Hw; rewrite Ew in Hw; set_solver).
    assert (casc seen g0 r ({[p]} ∪ P) g cas) as Hc2.
    { destruct Hc1 as [_ Hw1 ? ? ? ? ? ?]. split; try done; [apply Hc|]. intros p' c. rewrite <-Hw1. simpl.
      rewrite waits_delete. split; [|naive_solver]. intros Hw. split; [|done]. intros ->. by apply (Hnone c). }
    apply (IH queue ({[p]} ∪ P)); [done| | |simpl in Hfuel; lia].
    + intros x. specialize (Hpq x). set_solver.
    + intros q c [Eq%elem_of_singleton|Hq]%elem_of_union Hwq; [subst q|by eapply Hcl].
      destruct (decide (c ∈ txids cas)); [done|]. destruct (decide (p ∈ P)) as [HqP|HqP]; [eauto|].
      destruct (Hnone c). by apply (casc_waits _ _ _ _ _ _ Hc).
Qed.

(** The cascade from a terminalized transaction: it ends, takes exactly the
    transactions that transitively wait on it, once each, and leaves the rest
    of the graph as it was. *)
Lemma casc_start seen g : core_ok seen g -> ∀ r, casc seen g r ∅ g [].
Proof.
  intros Hc r. split; simpl; try done.
  - set_solver.
  - constructor.
  - set_solver.
  - set_solver.
Qed.

Lemma cascadeReject_spec `{Order} seen r g :
  graph_ok seen g ->
  ∃ g' cas, cascadeReject r (finish r g) = Some (g', cas) ∧ graph_ok seen g' ∧
    NoDup (txids cas) ∧ (∀ c, c ∈ txids cas ↔ tc (waits (waiters g)) r c) ∧
    (∀ t, t ∈ cas -> ∃ m, heldMsgs g !! ct_txid t = Some m ∧ ct_rawTx t = RawTx m) ∧
    (∀ c, heldMsgs g' !! c = (if decide (c ∈ txids cas) then None else heldMsgs g !! c)) ∧
    (∀ c, inFlight g' !! c = (if decide (c = r ∨ c ∈ txids cas) then None else inFlight g !! c)) ∧
    pendingMsgs g' = pendingMsgs g ∧
    (∀ p c, waits (waiters g') p c ↔ waits (waiters g) p c ∧ p ≠ r ∧ (p ∉ txids cas) ∧ c ∉ txids cas).
Proof.
  intros [Hc Hpar]. pose proof (finish_core seen r g Hc) as Hc0. unfold cascadeReject.
  destruct (cascadeLoop_casc seen (finish r g) r (1 + registrations (waiters (finish r g))) [r] ∅ (finish r g) [])
    as (P & g' & cas & -> & [Hc' Hw Hh Hf Hp Hnd Hr Hraw] & HP & Hcl);
    [done|by apply casc_start|set_solver|set_solver|simpl; lia|].
  change (waiters (finish r g)) with (waiters g) in *. change (heldMsgs (finish r g)) with (heldMsgs g) in *.
  exists g', cas. split; [done|].
  assert (∀ c, inFlight g' !! c = (if decide (c = r ∨ c ∈ txids cas) then None else inFlight g !! c)) as Hf'.
  { intros c. rewrite Hf. simpl. destruct (decide (c ∈ txids cas)); [by rewrite decide_True by auto|].
    destruct (decide (c = r)) as [->|]; [by rewrite lookup_delete_eq, decide_True by auto|].
    rewrite lookup_delete_ne, decide_False by naive_solver. done. }
  assert (∀ p c, waits (waiters g') p c ↔ waits (waiters g) p c ∧ p ≠ r ∧ (p ∉ txids cas) ∧ c ∉ txids cas) as Hw'.
  { intros p c. rewrite Hw, HP. tauto. }
  split_and!; try done.
  - split; [done|]. intros p c (Hwp & Hne & Hnp & _)%Hw'. rewrite Hf', decide_False by naive_solver. by eapply Hpar.
  - intros c. split; [by apply Hr|]. intros Hreach.
    assert (∀ q, q = r ∨ q ∈ txids cas -> waits (waiters g) q c -> c ∈ txids cas) as Hlast
      by (intros q Hq; apply Hcl; by apply HP).
    assert (∀ q c', tc (waits (waiters g)) q c' -> q = r ∨ q ∈ txids cas -> c' ∈ txids cas) as Hcl'; [|eauto].
    induction 1 as [q c' Hq|q q' c' Hq _ IH]; intros Hqr; [eapply Hcl; [by apply HP|done]|].
    apply IH. right. eapply Hcl; [by apply HP|done].
Qed.

(** *** The release *)

Lemma canRelease_spec seen g c m :
  core_ok seen g ->
  canRelease c g = Some m ↔ heldMsgs g !! c = Some m ∧ ∀ p, parent_of p c -> inFlight g !! p = None.
Proof.
  intros Hc. unfold canRelease. destruct (heldMsgs g !! c) as [m'|] eqn:Em; [|naive_solver].
  destruct (core_held _ _ Hc c m' Em) as [E Hm]. unfold msg_ok in Hm. rewrite E in Hm. rewrite Hm.
  destruct (forallb _ (inputsOf c)) eqn:Ef.
  - rewrite forallb_forall in Ef. split; [|naive_solver]. intros [= <-]. split; [done|].
    intros p (Hp & He & Hs). specialize (Ef p (proj1 (list_elem_of_In _ _) Hp)).
    rewrite !orb_true_iff in Ef. destruct Ef as [[Ef%String.eqb_eq|Ef%String.eqb_eq]|Ef%bool_decide_eq_true]; done.
  - split; [done|]. intros [_ Hall]. apply not_true_iff_false in Ef. destruct Ef. apply forallb_forall.
    intros p Hp%list_elem_of_In. destruct (String.eqb_spec p ""); [done|]. destruct (String.eqb_spec p c); [done|].
    simpl. apply bool_decide_eq_true. by apply Hall.
Qed.

Definition ready (g0 : Graph) (l : list string) (c : string) : Prop := c ∈ l ∧ is_Some (canRelease c g0).

Record rel (seen : gset Z) (g0 : Graph) (l : list string) (g : Graph) : Prop := {
  rel_core : core_ok seen g;
  rel_flight : inFlight g = inFlight g0;
  rel_pending : pendingMsgs g = pendingMsgs g0 ++ omap (fun c => canRelease c g0) l;
  rel_held : ∀ c, ¬ ready g0 l c -> heldMsgs g !! c = heldMsgs g0 !! c;
  rel_gone : ∀ c, ready g0 l c -> heldMsgs g !! c = None;
  rel_waits : ∀ p c, waits (waiters g) p c ↔ waits (waiters g0) p c ∧ ¬ ready g0 l c
}.

Lemma canRelease_same g g' c :
  heldMsgs g' !! c = heldMsgs g !! c -> inFlight g' = inFlight g -> canRelease c g' = canRelease c g.
Proof. intros E1 E2. unfold canRelease. by rewrite E1, E2. Qed.

Lemma releaseChild_rel seen g0 r l g c :
  core_ok seen g0 -> (∀ c', ¬ waits (waiters g0) r c') -> rel seen g0 l g -> c ∉ l ->
  rel seen g0 (l ++ [c]) (releaseChild r g c).
Proof.
  intros Hc0 Hr [Hc Hf Hp Hh Hg Hw] Hni. unfold releaseChild.
  assert (heldMsgs g !! c = heldMsgs g0 !! c) as Ec by (apply Hh; by intros [? _]).
  rewrite (canRelease_same g0 g c Ec Hf). destruct (canRelease c g0) as [m|] eqn:Em.
  - assert (∀ c', ready g0 (l ++ [c]) c' ↔ ready g0 l c' ∨ c' = c) as Hready.
    { intros c'. unfold ready. rewrite elem_of_app, list_elem_of_singleton. split; [tauto|].
      intros [[? ?]| ->]; [tauto|rewrite Em; eauto]. }
    pose proof (proj1 (canRelease_spec seen g0 c m Hc0) Em) as [Hm _]. rewrite <-Ec in Hm.
    assert (∀ p' c', waits (cleanupWaiterEntries c r (waiters g) (heldMsgs g)) p' c' ↔
              waits (waiters g) p' c' ∧ c' ≠ c) as Hclean.
    { intros p' c'. rewrite (cleanup_waits _ _ _ _ m) by done. split; [|naive_solver].
      intros [Hwc Hno]. split; [done|]. intros ->. apply Hno. split; [done|].
      destruct (core_wait _ _ Hc _ _ Hwc) as [_ (H1 & H2 & H3)].
      destruct (core_held _ _ Hc c m Hm) as [E Hmok]. unfold msg_ok in Hmok. rewrite E in Hmok.
      split; [by rewrite Hmok|]. split_and!; [done|done|]. apply Hw in Hwc as [Hwc _]. intros ->. by eapply Hr. }
    split; simpl.
    + split; simpl; [apply Hc| | |apply cleanup_tidy, Hc].
      * intros c' m' [_ H]%lookup_delete_Some. by apply (core_held _ _ Hc).
      * intros p' c' [H1 H2]%Hclean. rewrite lookup_delete_ne by done. by apply (core_wait _ _ Hc).
    + done.
    + by rewrite Hp, omap_app, <-app_assoc; simpl; rewrite Em.
    + intros c' Hn. rewrite Hready in Hn. rewrite lookup_delete_ne by naive_solver. apply Hh. naive_solver.
    + intros c' [Hn|Hn]%Hready; [|subst; apply lookup_delete_eq]. apply lookup_delete_None. right. by apply Hg.
    + intros p' c'. rewrite Hclean, Hw, Hready. tauto.
  - assert (∀ c', ready g0 (l ++ [c]) c' ↔ ready g0 l c') as Hready.
    { intros c'. unfold ready. rewrite elem_of_app, list_elem_of_singleton. split; [|tauto].
      intros [[?|E'] Hs]; [tauto|subst c']. rewrite Em in Hs. by destruct Hs. }
    split; try done.
    + by rewrite Hp, omap_app; simpl; rewrite Em, app_nil_r.
    + intros c' Hn. apply Hh. by rewrite <-Hready.
    + intros c' Hn. apply Hg. by rewrite <-Hready.
    + intros p' c'. by rewrite Hw, Hready.
Qed.

Lemma releaseChildren_rel seen g0 r todo l g :
  core_ok seen g0 -> (∀ c', ¬ waits (waiters g0) r c') -> rel seen g0 l g -> NoDup (l ++ todo) ->
  rel seen g0 (l ++ todo) (foldl (releaseChild r) g todo).
Proof.
  intros Hc0 Hr. revert l g. induction todo as [|c todo IH]; intros l g Hg Hnd; cbn [foldl].
  { by rewrite app_nil_r. }
  rewrite (cons_middle c), app_assoc in Hnd |- *. apply IH; [|done]. apply releaseChild_rel; [done|done|done|].
  apply NoDup_app in Hnd as [Hnd _]. apply NoDup_app in Hnd as (_ & Hnd & _). intros Hc. apply (Hnd c Hc). set_solver.
Qed.

(** Acceptance: the waiting children with no parent left in flight become
    pending, the other children stay held, and nothing else changes. *)
Lemma releaseWaiters_spec `{Order} seen r g :
  graph_ok seen g ->
  ∃ l, l ≡ₚ elements (default ∅ (waiters g !! r)) ∧
    let g0 := finish r g in let g' := releaseWaiters r g0 in
    graph_ok seen g' ∧ inFlight g' = delete r (inFlight g) ∧
    pendingMsgs g' = pendingMsgs g ++ omap (fun c => canRelease c g0) l ∧
    (∀ c, ready g0 l c -> heldMsgs g' !! c = None) ∧
    (∀ c, ¬ ready g0 l c -> heldMsgs g' !! c = heldMsgs g !! c) ∧
    (∀ p c, waits (waiters g') p c ↔ waits (waiters g) p c ∧ p ≠ r ∧ ¬ ready g0 l c).
Proof.
  intros [Hc Hpar]. pose proof (finish_core seen r g Hc) as Hc0. unfold releaseWaiters.
  change (waiters (finish r g)) with (waiters g). destruct (waiters g !! r) as [ws|] eqn:Ew.
  - exists (range r ws). split; [apply range_perm|]. cbn zeta.
    set (g1 := mkGraph (inFlight (finish r g)) (delete r (waiters g)) _ _ _).
    assert (core_ok seen g1) as Hc1.
    { split; simpl; [apply Hc0|apply Hc| |apply tidy_delete, Hc]. intros p c [_ Hw]%waits_delete. by apply (core_wait _ _ Hc). }
    destruct (releaseChildren_rel seen g1 r (range r ws) [] g1) as [H1 H2 H3 H4 H5 H6]; [done| | | |].
    + intros c [Hn _]%waits_delete. done.
    + split; try done; try (intros c [Hin _]; set_solver); [by rewrite app_nil_r|].
      intros p c. split; [|tauto]. intros Hw. split; [done|]. intros [Hin _]. set_solver.
    + simpl. rewrite range_perm. apply NoDup_elements.
    + simpl app in *. rewrite H2. split_and!; try done.
      * split; [done|]. intros p c [[Hn Hw]%waits_delete _]%H6. rewrite H2. simpl. rewrite lookup_delete_ne by done.
        by eapply Hpar.
      * intros p c. rewrite H6. simpl. rewrite waits_delete. unfold ready. tauto.
  - exists []. split; [done|]. cbn zeta. split_and!.
    + split; [done|]. intros p c Hw. simpl in *. rewrite lookup_delete_ne; [by eapply Hpar|]. intros ->.
      unfold waits in Hw. rewrite Ew in Hw. set_solver.
    + done.
    + by rewrite app_nil_r.
    + intros c [Hin _]. set_solver.
    + done.
    + intros p c. split; [|tauto]. intros Hw. split; [done|]. split; [|intros [Hin _]; set_solver].
      intros ->. simpl in Hw. unfold waits in Hw. rewrite Ew in Hw. set_solver.
Qed.

Lemma handleTerminal_ok `{Order} seen x st g :
  graph_ok seen g -> ∃ g' cas, handleTerminal x st g = Some (g', cas) ∧ graph_ok seen g'.
Proof.
  intros Hg. unfold handleTerminal. destruct (String.eqb st StatusAcceptedByNetwork).
  - destruct (releaseWaiters_spec seen x g Hg) as (l & _ & Hok & _). eauto.
  - destruct (_ || _); [|eauto]. destruct (cascadeReject_spec seen x g Hg) as (g' & cas & E & Hok & _). eauto.
Qed.
End Inv.
