(* ===== verification/DispatcherProps.v ===== *)
(** * DispatcherProps: what the dispatcher guarantees

    Reachable states of the loop under any interleaving of events, the commit
    watermark's safety and progress, the exact effect of a terminal event, and
    the condition under which no held transaction is forgotten. *)
From stdpp Require Import base gmap strings list sorting relations.
From Stdlib Require Import ZArith Lia.
From Stdlib Require Import Strings.Byte.
From S2P Require Import Prelude Models Offsets Dispatcher DispatcherInv.
Import Offsets.OffsetTracker Offsets.MarkQueue.

Section Reach.
Context (decode : list byte -> option propagationMsg) (inputsOf : string -> list string).

(** *** Events a claim can produce

    A claim delivers offsets in increasing order, and every message of a
    transaction lists the same inputs. *)
Definition ev_ok (seen : gset Z) (ev : event) : Prop :=
  match ev with
  | EvClaim (Some m) =>
      (∀ o, o ∈ seen -> (o < Offset m)%Z) ∧ ∀ pm, decode (Value m) = Some pm -> msg_ok inputsOf pm
  | EvAdmit msg o => (o ∉ seen) ∧ msg_ok inputsOf msg
  | EvRequeue msg => msg_ok inputsOf msg
  | _ => True
  end.

Definition seen_after (seen : gset Z) (ev : event) : gset Z :=
  match ev with
  | EvClaim (Some m) => {[Offset m]} ∪ seen
  | EvAdmit _ o => {[o]} ∪ seen
  | _ => seen
  end.

(** The states of the loop, with the offsets consumed so far; every round may
    visit children in its own order and sees its own shared state.  [guard]
    restricts the events further. *)
Inductive reachable (guard : Loop -> event -> Prop) (claim : bool) : gset Z -> Loop -> Prop :=
| reach_new : reachable guard claim ∅ newLoop
| reach_step seen l (ord : Order) cfg ev s l' s' o :
    reachable guard claim seen l -> ev_ok seen ev -> guard l ev ->
    step decode claim cfg ev l s = Continue l' s' o -> reachable guard claim (seen_after seen ev) l'.

Definition any_event : Loop -> event -> Prop := fun _ _ => True.

(** The messages waiting in the queue, in offset order. *)
Definition ascending (q : list Message) : Prop := StronglySorted (fun a b => Offset a < Offset b)%Z q.

Record loop_ok (seen : gset Z) (q : list Message) (l : Loop) : Prop := {
  loop_graph : graph_ok inputsOf seen (graph l);
  loop_queue : queue_is (marks l) q;
  loop_seen : ∀ m, m ∈ q -> Offset m ∈ seen;
  loop_asc : ascending q
}.

Lemma pins_mono seen seen' fl t : seen ⊆ seen' -> pins seen fl t -> pins seen' fl t.
Proof.
  intros Hs [[H1 H2 H3 H4] H5 H6]. split; [split; [done|done|set_solver|set_solver]|done|done].
Qed.

Lemma graph_ok_mono seen seen' g : seen ⊆ seen' -> graph_ok inputsOf seen g -> graph_ok inputsOf seen' g.
Proof. intros Hs [[H1 H2 H3 H4] H5]. split; [split|]; try done. by eapply pins_mono. Qed.

Lemma ascending_app q m : ascending q -> (∀ x, x ∈ q -> (Offset x < Offset m)%Z) -> ascending (q ++ [m]).
Proof.
  intros Hq Hm. induction Hq as [|x q Hq IH Hf]; simpl; [repeat constructor|].
  constructor; [apply IH; set_solver|]. apply Forall_app. split; [done|]. constructor; [apply Hm; set_solver|done].
Qed.

Lemma ascending_suffix a b : ascending (a ++ b) -> ascending b.
Proof. induction a as [|x a IH]; [done|]. intros [H _]%StronglySorted_inv. auto. Qed.

(** [marks.advance] on the loop. *)
Lemma advanceMarks_ok seen q l :
  loop_ok seen q l ->
  ∃ l' marked rest, advanceMarks true l = Some (l', marked) ∧ q = marked ++ rest ∧ loop_ok seen rest l' ∧
    inFlight (graph l') = inFlight (graph l) ∧
    (∀ m x o, m ∈ marked -> inFlight (graph l) !! x = Some o -> (Offset m < o)%Z) ∧
    match rest with [] => True | m :: _ => ∃ x o, inFlight (graph l) !! x = Some o ∧ (o <= Offset m)%Z end.
Proof.
  intros [[[[Ht Hu Hi] Hh Hw Hti] Hp] Hq Hs Ha]. unfold advanceMarks.
  destruct (advance_spec seen (tracker (graph l)) (marks l) q Ht Hq)
    as (q' & t' & marked & rest & -> & -> & Hq' & Ht' & Eu & Hm & Hr).
  eexists _, marked, rest. split; [done|]. split; [done|]. split_and!; [|done| |].
  - split; simpl; [|done|intros m Hin; apply Hs; set_solver|by eapply ascending_suffix].
    split; [|done]. split; simpl; try done. split; [done| |done]. intros o. by rewrite Eu.
  - intros m x o Hin Hx. apply Hm; [done|]. apply Hu. eauto.
  - destruct rest as [|m rest]; [done|]. destruct Hr as (o & [x Hx]%Hu & Hle). eauto.
Qed.

Lemma observe_ok seen q l s : loop_ok seen q l -> loop_ok seen q (observe l s).1.
Proof. intros [H1 H2 H3 H4]. by split. Qed.

Lemma advanceMarks_noclaim l : advanceMarks false l = Some (mkLoop (withTracker (graph l) (tracker (graph l))) (marks l) (prevPending l) (prevInflight l), []).
Proof. done. Qed.

(** What a round does to a good state. *)
Definition round_ok (claim : bool) (seen : gset Z) (ev : event) (l : Loop) (r : outcome) : Prop :=
  match r with
  | Blocked => True
  | Panic => False
  | Continue l' _ o =>
      (∃ q', loop_ok (seen_after seen ev) q' l') ∧
      ∀ m x off, m ∈ o_marked o -> inFlight (graph l) !! x = Some off -> (Offset m < off)%Z
  | Exit _ o =>
      ∀ m x off, m ∈ o_marked o -> inFlight (graph l) !! x = Some off -> (Offset m < off)%Z
  end.

Lemma claimMessage_ok claim seen q msg l s :
  loop_ok seen q l -> ev_ok seen (EvClaim (Some msg)) ->
  round_ok claim seen (EvClaim (Some msg)) l (claimMessage decode msg l s).
Proof.
  intros [Hg Hq Hs Ha] [Hlt Hd]. unfold claimMessage.
  assert (∃ q', loop_ok ({[Offset msg]} ∪ seen) q' l) as Hdrop.
  { exists q. split; [eapply graph_ok_mono; [|done]; set_solver|done|intros m Hm%Hs; set_solver|done]. }
  destruct (decode (Value msg)) as [pm|] eqn:Ed; [|split; [done|set_solver]].
  destruct (length (RawTx pm) =? 0)%nat; [split; [done|set_solver]|].
  pose proof (handleAdmit_ok inputsOf seen pm (Offset msg) (graph l) (Hd pm eq_refl)) as Hadm.
  destruct (handleAdmit pm (Offset msg) (graph l)) as [res g]. split; [|set_solver]. exists (q ++ [msg]). split; simpl.
  - apply Hadm; [|done]. intros Hin%Hlt. lia.
  - by apply push_queue.
  - intros m [Hm|Hm]%elem_of_app; [specialize (Hs m Hm)|]; set_solver.
  - apply ascending_app; [done|]. intros x Hx. by apply Hlt, Hs.
Qed.

Lemma flushTick_ok seen q cfg l s : loop_ok seen q l -> round_ok true seen EvTick l (flushTick cfg l s).
Proof.
  intros Hl. unfold flushTick.
  destruct (advanceMarks_ok seen q l Hl) as (l' & marked & rest & -> & _ & Hl' & _ & Hm & _).
  destruct (_ =? 0)%nat; [by split; [eauto|]|]. destruct (_ <? _)%nat; [|by split; [eauto|]]. split; [|done].
  exists rest. destruct Hl' as [[[H1 H2 H3 H4] H5] Hq Hs Ha]. split; simpl; [|done|done|done]. by split; [split|].
Qed.

Lemma exitLoop_ok claim seen q ev l s : loop_ok seen q l -> round_ok claim seen ev l (exitLoop claim l s).
Proof.
  intros Hl. unfold exitLoop. destruct claim; [|simpl; set_solver].
  destruct (advanceMarks_ok seen q l Hl) as (l' & marked & rest & -> & _ & _ & _ & Hm & _). done.
Qed.

Lemma step_round_ok (ord : Order) claim cfg ev seen q l s :
  loop_ok seen q l -> ev_ok seen ev -> round_ok claim seen ev l (step decode claim cfg ev l s).
Proof.
  intros Hl0 Hev. pose proof (observe_ok seen q l s Hl0) as Hl. unfold step.
  destruct (observe l s) as [l1 s1] eqn:Eo. cbn [fst] in Hl.
  assert (graph l = graph l1) as Eg by (by injection Eo as <- <-). unfold round_ok. rewrite Eg.
  match goal with |- match ?r with _ => _ end => change (round_ok claim seen ev l1 r) end. clear Hl0 Eo Eg.
  pose proof Hl as [Hg Hq Hs Ha]. destruct ev as [|[msg|]|msg o|msg|x st| |].
  - by eapply exitLoop_ok.
  - destruct (_ || _); [done|]. by eapply claimMessage_ok.
  - destruct (_ || _); [done|]. by eapply exitLoop_ok.
  - destruct (negb _); [done|]. destruct Hev as [Ho Hm].
    pose proof (handleAdmit_ok inputsOf seen msg o (graph l1) Hm Ho Hg) as Hadm.
    destruct (handleAdmit msg o (graph l1)) as [res g]. split; [|simpl; set_solver]. exists q.
    split; simpl; [done|done|intros m Hin%Hs; set_solver|done].
  - split; [|simpl; set_solver]. exists q. split; simpl; [by apply handleRequeue_ok|done|done|done].
  - destruct (handleTerminal_ok inputsOf seen x st (graph l1) Hg) as (g' & cas & -> & Hg').
    split; [|simpl; set_solver]. exists q. by split.
  - split; [|simpl; set_solver]. exists q. destruct Hg as [[H1 H2 H3 H4] H5].
    split; simpl; [by split; [split|]|done|done|done].
  - destruct claim; simpl; [|done]. by eapply flushTick_ok.
Qed.

Lemma loop_ok_new : loop_ok ∅ [] newLoop.
Proof. split; [apply graph_ok_new|by split|set_solver|constructor]. Qed.

Lemma reachable_ok guard claim seen l : reachable guard claim seen l -> ∃ q, loop_ok seen q l.
Proof.
  induction 1 as [|seen l ord cfg ev s l' s' o _ [q Hl] Hev _ E]; [eauto using loop_ok_new|].
  pose proof (step_round_ok ord claim cfg ev seen q l s Hl Hev) as Hr. rewrite E in Hr. apply Hr.
Qed.

Lemma reachable_graph guard claim seen l : reachable guard claim seen l -> graph_ok inputsOf seen (graph l).
Proof. intros [q Hl]%reachable_ok. apply Hl. Qed.

(** C2: the commit watermark is safe: in every reachable state of the loop,
    whatever event comes next, the round does not panic and does not run out
    of fuel, every message it marks through the queue lies below every offset
    in flight, and the offsets the tracker still counts are exactly those of
    the in-flight transactions. *)
Theorem watermark_safe (ord : Order) claim cfg ev seen l s :
  reachable any_event claim seen l -> ev_ok seen ev ->
  (∀ off, off ∈ unfinished (tracker (graph l)) ↔ ∃ x, inFlight (graph l) !! x = Some off) ∧
  match step decode claim cfg ev l s with
  | Blocked => True
  | Panic => False
  | Continue _ _ o | Exit _ o =>
      ∀ m x off, m ∈ o_marked o -> inFlight (graph l) !! x = Some off -> (Offset m < off)%Z
  end.
Proof.
  intros [q Hl]%reachable_ok Hev. split; [apply (loop_graph _ _ _ Hl)|].
  pose proof (step_round_ok ord claim cfg ev seen q l s Hl Hev) as Hr. unfold round_ok in Hr.
  destruct (step decode claim cfg ev l s); try done. apply Hr.
Qed.

(** The commit watermark makes progress: a flush tick marks exactly the
    waiting messages below every in-flight offset, all of them when nothing
    is in flight, and the others keep waiting in order. *)
Theorem tick_marks_exactly (ord : Order) cfg seen l s q :
  reachable any_event true seen l -> queue_is (marks l) q ->
  ∃ l' s' o rest, step decode true cfg EvTick l s = Continue l' s' o ∧
    q = o_marked o ++ rest ∧ queue_is (marks l') rest ∧
    ∀ m, m ∈ o_marked o ↔ m ∈ q ∧ ∀ x off, inFlight (graph l) !! x = Some off -> (Offset m < off)%Z.
Proof.
  intros [q' Hl]%reachable_ok Hq.
  assert (q' = q) as ->.
  { destruct (loop_queue _ _ _ Hl) as [_ E1], Hq as [_ E2]. rewrite E1 in E2.
    by apply (inj (fmap Some)) in E2. }
  apply (observe_ok seen q l s) in Hl. unfold step. destruct (observe l s) as [l1 s1] eqn:Eo. cbn [fst negb] in *.
  assert (graph l = graph l1) as -> by (by injection Eo as <- <-). unfold flushTick.
  destruct (advanceMarks_ok seen q l1 Hl) as (l' & marked & rest & -> & -> & Hl' & _ & Hm & Hr).
  assert (∀ m, m ∈ marked ↔ m ∈ marked ++ rest ∧
    ∀ x off, inFlight (graph l1) !! x = Some off -> (Offset m < off)%Z) as Hiff.
  { intros m. split; [intros Hin; split; [set_solver|eauto]|]. intros [[?|Hin]%elem_of_app Hlow]; [done|].
    destruct rest as [|m0 rest]; [set_solver|]. destruct Hr as (x & o & Hx & Hle). specialize (Hlow x o Hx).
    apply loop_asc, ascending_suffix, StronglySorted_inv in Hl as [_ Hf]. rewrite Forall_forall in Hf.
    apply elem_of_cons in Hin as [->|Hin]; [lia|]. specialize (Hf m Hin). lia. }
  destruct (_ =? 0)%nat; [|destruct (_ <? _)%nat]; (eexists _, _, _, rest; split; [done|]; split; [done|]; split; [apply Hl'|done]).
Qed.

(** C12: a rejected or parked transaction takes down exactly the transactions
    that transitively wait on it: each of them is reported once with the bytes
    of its held message, leaves the in-flight and held sets and finishes its
    offset; every other transaction keeps its place, and no registration that
    names a finished transaction remains. *)
Theorem cascade_exact (ord : Order) claim seen l txid status :
  reachable any_event claim seen l -> status = StatusRejected ∨ status = StatusPendingRetry ->
  let g := graph l in
  ∃ g' cas, handleTerminal txid status g = Some (g', cas) ∧
    NoDup (txids cas) ∧ (∀ c, c ∈ txids cas ↔ tc (waits (waiters g)) txid c) ∧
    (∀ t, t ∈ cas -> ∃ m, heldMsgs g !! ct_txid t = Some m ∧ ct_rawTx t = RawTx m) ∧
    (∀ c, heldMsgs g' !! c = (if decide (c ∈ txids cas) then None else heldMsgs g !! c)) ∧
    (∀ c, inFlight g' !! c = (if decide (c = txid ∨ c ∈ txids cas) then None else inFlight g !! c)) ∧
    (∀ off, off ∈ unfinished (tracker g') ↔ ∃ x, inFlight g' !! x = Some off) ∧
    pendingMsgs g' = pendingMsgs g ∧
    (∀ p c, waits (waiters g') p c ↔ waits (waiters g) p c ∧ p ≠ txid ∧ (p ∉ txids cas) ∧ c ∉ txids cas).
Proof.
  intros Hl%reachable_graph Hst. cbn zeta.
  destruct (cascadeReject_spec inputsOf seen txid (graph l) Hl) as (g' & cas & E & Hg' & H1 & H2 & H3 & H4 & H5 & H6 & H7).
  exists g', cas. split; [|split_and!; try done; apply Hg'].
  unfold handleTerminal. destruct Hst as [-> | ->]; exact E.
Qed.

(** An accepted transaction releases exactly the waiting children that
    have no parent left in flight: they become pending, with the message they
    were held with; every other held transaction, registration and in-flight
    entry stays. *)
Theorem release_exact (ord : Order) claim seen l txid :
  reachable any_event claim seen l ->
  let g := graph l in
  ∃ g' released, handleTerminal txid StatusAcceptedByNetwork g = Some (g', []) ∧
    NoDup (TXID <$> released) ∧
    (∀ c m, m ∈ released ∧ TXID m = c ↔
       waits (waiters g) txid c ∧ heldMsgs g !! c = Some m ∧
       ∀ p, parent_of inputsOf p c -> p ≠ txid -> inFlight g !! p = None) ∧
    pendingMsgs g' = pendingMsgs g ++ released ∧
    (∀ c, heldMsgs g' !! c = (if decide (c ∈ TXID <$> released) then None else heldMsgs g !! c)) ∧
    inFlight g' = delete txid (inFlight g) ∧
    (∀ p c, waits (waiters g') p c ↔ waits (waiters g) p c ∧ p ≠ txid ∧ c ∉ TXID <$> released).
Proof.
  intros Hl%reachable_graph. cbn zeta. set (g := graph l) in *. clearbody g.
  destruct (releaseWaiters_spec inputsOf seen txid g Hl) as (cs & Ecs & Hg' & Hf & Hp & Hgone & Hheld & Hw).
  cbn zeta in *. set (g0 := finish txid g) in *. destruct Hl as [Hc Hpar].
  pose proof (finish_core inputsOf seen txid g Hc) as Hc0. fold g0 in Hc0.
  assert (∀ c m, canRelease c g0 = Some m ↔ heldMsgs g !! c = Some m ∧
            ∀ p, parent_of inputsOf p c -> p ≠ txid -> inFlight g !! p = None) as Hrel.
  { intros c m. rewrite (canRelease_spec inputsOf seen g0 c m Hc0). simpl. apply and_iff_compat_l.
    split; intros Hall p Hpc; [intros Hne; specialize (Hall p Hpc); by rewrite lookup_delete_ne in Hall|].
    apply lookup_delete_None. destruct (decide (txid = p)); [by left|right]. by apply Hall. }
  assert (∀ c, c ∈ cs ↔ waits (waiters g) txid c) as Hcs by (intros c; by rewrite Ecs, elem_of_elements).
  assert (∀ c m, canRelease c g0 = Some m -> TXID m = c) as Htx
    by (intros c m [Hm _]%Hrel; by apply (core_held _ _ _ Hc c m)).
  assert (NoDup cs) as Hnd by (rewrite Ecs; apply NoDup_elements).
  exists (releaseWaiters txid g0), (omap (fun c => canRelease c g0) cs).
  assert (∀ c, c ∈ TXID <$> omap (fun c => canRelease c g0) cs ↔ ready g0 cs c) as Hin.
  { intros c. rewrite list_elem_of_fmap. unfold ready. split.
    - intros (m & -> & (c' & Hcin & Hm)%list_elem_of_omap). rewrite (Htx _ _ Hm). eauto.
    - intros [Hcin [m Hm]]. exists m. rewrite (Htx _ _ Hm). split; [done|]. apply list_elem_of_omap. eauto. }
  split; [done|]. split_and!; try done.
  - clear -Hnd Htx. induction cs as [|c cs IH]; simpl; [constructor|]. apply NoDup_cons in Hnd as [Hni Hnd].
    destruct (canRelease c g0) as [m|] eqn:Em; [|auto]. rewrite fmap_cons. constructor; [|auto].
    rewrite (Htx c m Em). intros (m' & Ec & (c' & Hc' & Hm')%list_elem_of_omap)%list_elem_of_fmap.
    rewrite (Htx _ _ Hm') in Ec. by subst.
  - intros c m. rewrite list_elem_of_omap. split.
    + intros [(c' & Hin'%Hcs & Hm) <-]. rewrite (Htx _ _ Hm). split; [done|]. by apply Hrel.
    + intros (Hwc & Hm). apply Hrel in Hm. split; [|by eapply Htx]. exists c. split; [by apply Hcs|done].
  - intros c. case_decide as Hd; rewrite Hin in Hd; [by apply Hgone|by apply Hheld].
  - intros p c. by rewrite Hw, Hin.
Qed.

(** *** No forgotten child *)

(** A held transaction is registered on all of its in-flight parents, and on
    one at least. *)
Definition registered (g : Graph) : Prop :=
  ∀ c, is_Some (heldMsgs g !! c) ->
    (∃ p, waits (waiters g) p c) ∧
    ∀ p, parent_of inputsOf p c -> is_Some (inFlight g !! p) -> waits (waiters g) p c.

(** The transaction an event admits. *)
Definition admits (ev : event) (x : string) : Prop :=
  match ev with
  | EvClaim (Some m) => ∃ pm, decode (Value m) = Some pm ∧ TXID pm = x
  | EvAdmit pm _ => TXID pm = x
  | _ => False
  end.

(** Parents arrive before the children that wait for something. *)
Definition parents_first (l : Loop) (ev : event) : Prop :=
  ∀ x c, admits ev x -> is_Some (heldMsgs (graph l) !! c) -> ¬ parent_of inputsOf x c.

Lemma holdMsg_registered msg g :
  msg_ok inputsOf msg -> blocking (inFlight g) msg ≠ ∅ -> registered g ->
  registered (holdMsg msg (blocking (inFlight g) msg) g).
Proof.
  intros Hm Hb Hr c Hc. simpl in *. destruct (decide (c = TXID msg)) as [->|Hne].
  - apply set_choose_L in Hb as [p Hp]. split.
    + exists p. apply register_waits. right. by rewrite elem_of_elements.
    + intros q (H1 & H2 & H3) Hf. apply register_waits. right. split; [done|].
      rewrite elem_of_elements, blocking_spec, (Hm : InputTXIDs msg = _). done.
  - rewrite lookup_insert_ne in Hc by done. destruct (Hr c Hc) as [[p Hp] Hall]. split.
    + exists p. apply register_waits. by left.
    + intros q Hq Hf. apply register_waits. left. by apply Hall.
Qed.

Lemma handleAdmit_registered msg o g :
  msg_ok inputsOf msg -> (∀ c, is_Some (heldMsgs g !! c) -> ¬ parent_of inputsOf (TXID msg) c) ->
  registered g -> registered (handleAdmit msg o g).2.
Proof.
  intros Hm Hpf Hr. unfold handleAdmit. destruct (inFlight g !! TXID msg); [done|].
  set (g1 := mkGraph (<[TXID msg := o]> (inFlight g)) _ _ _ _).
  assert (registered g1) as Hr1.
  { intros c Hc. destruct (Hr c Hc) as [H1 H2]. split; [done|]. intros p Hp Hf. simpl in *.
    rewrite lookup_insert_ne in Hf; [by apply H2|]. intros <-. by eapply Hpf. }
  assert (blocking (inFlight g) msg = blocking (inFlight g1) msg) as ->.
  { apply set_eq. intros p. rewrite !blocking_spec. simpl. destruct (decide (p = TXID msg)); [naive_solver|].
    by rewrite lookup_insert_ne. }
  case_bool_decide; simpl; [done|]. by apply holdMsg_registered.
Qed.

Lemma handleRequeue_registered msg g :
  msg_ok inputsOf msg -> registered g -> registered (handleRequeue msg g).
Proof.
  intros Hm Hr. unfold handleRequeue. destruct (inFlight g !! TXID msg); [|done].
  case_bool_decide; simpl; [done|]. by apply holdMsg_registered.
Qed.

Lemma handleTerminal_registered (ord : Order) seen x st g g' cas :
  graph_ok inputsOf seen g -> registered g -> handleTerminal x st g = Some (g', cas) -> registered g'.
Proof.
  intros Hg Hr. unfold handleTerminal. destruct (String.eqb st StatusAcceptedByNetwork).
  - intros [= <- <-]. destruct (releaseWaiters_spec inputsOf seen x g Hg) as (cs & Ecs & Hg' & Hf & _ & Hgone & Hheld & Hw).
    cbn zeta in *. intros c [m Hm].
    assert (¬ ready (finish x g) cs c) as Hn by (intros Hready; rewrite (Hgone c Hready) in Hm; done).
    rewrite (Hheld c Hn) in Hm. destruct (Hr c (ex_intro _ m Hm)) as [[p Hp] Hall].
    assert (∀ q, parent_of inputsOf q c -> is_Some (inFlight (releaseWaiters x (finish x g)) !! q) ->
              waits (waiters (releaseWaiters x (finish x g))) q c) as Hall'.
    { intros q Hq Hfq. rewrite Hf in Hfq. destruct (decide (q = x)) as [->|Hne].
      - rewrite lookup_delete_eq in Hfq. by destruct Hfq.
      - rewrite lookup_delete_ne in Hfq by done. apply Hw. auto. }
    split; [|done]. destruct (decide (p = x)) as [->|Hne]; [|exists p; by apply Hw].
    assert (¬ ∀ q, parent_of inputsOf q c -> inFlight (finish x g) !! q = None) as Hsome.
    { intros Hnone. apply Hn. split; [rewrite Ecs; by apply elem_of_elements|].
      exists m. apply (canRelease_spec inputsOf seen); [apply finish_core, Hg|done]. }
    destruct (decide (Exists (fun q => (q ≠ "" ∧ q ≠ c) ∧ is_Some (inFlight (finish x g) !! q)) (inputsOf c)))
      as [(q & Hq & [? ?] & Hfq)%Exists_exists|Hno].
    + exists q. apply Hall'; [by split|by rewrite Hf].
    + destruct Hsome. intros q (Hq & ? & ?). destruct (inFlight (finish x g) !! q) eqn:E; [|done].
      destruct Hno. apply Exists_exists. exists q. rewrite E. eauto 10.
  - destruct (_ || _); [|by intros [= <- <-]]. intros E.
    destruct (cascadeReject_spec inputsOf seen x g Hg) as (g1 & cas1 & E1 & _ & _ & Hin & _ & Hh & Hf & _ & Hw).
    rewrite E in E1. injection E1 as <- <-. intros c Hc. rewrite Hh in Hc. case_decide as Hnc; [by destruct Hc|].
    destruct (Hr c Hc) as [[p Hp] Hall]. split.
    + exists p. apply Hw. split_and!; [done| | |done].
      * intros ->. apply Hnc, Hin. by apply tc_once.
      * intros Hpc%Hin. apply Hnc, Hin. by eapply tc_r.
    + intros q Hq Hfq. rewrite Hf in Hfq. case_decide as Hd; [by destruct Hfq|]. apply Hw.
      split_and!; [by apply Hall|naive_solver|naive_solver|done].
Qed.

Lemma step_registered (ord : Order) claim cfg ev seen q l s l' s' o :
  loop_ok seen q l -> ev_ok seen ev -> parents_first l ev -> registered (graph l) ->
  step decode claim cfg ev l s = Continue l' s' o -> registered (graph l').
Proof.
  intros Hl Hev Hpf Hr. apply (observe_ok seen q l s) in Hl. unfold step.
  destruct (observe l s) as [l1 s1] eqn:Eo. cbn [fst] in Hl.
  assert (graph l = graph l1) as Eg by (by injection Eo as <- <-). unfold parents_first in Hpf. rewrite Eg in *. clear Eo Eg.
  assert (∀ b l2 mk, advanceMarks b l1 = Some (l2, mk) -> registered (graph l2)) as Hadv.
  { unfold advanceMarks. intros b l2 mk. destruct (advance _ _ _) as [[[q2 t2] mk2]|]; [|done]. by intros [= <- _]. }
  destruct ev as [|[msg|]|msg off|msg|x st| |]; cbn beta iota.
  - unfold exitLoop. by destruct (advanceMarks claim l1) as [[? ?]|].
  - destruct (_ || _); [done|]. unfold claimMessage. destruct (decode (Value msg)) as [pm|] eqn:Ed; [|by intros [= <- _ _]].
    destruct (_ =? 0)%nat; [by intros [= <- _ _]|].
    pose proof (handleAdmit_registered pm (Offset msg) (graph l1)) as Ha. destruct (handleAdmit _ _ _) as [res g].
    intros [= <- _ _]. apply Ha; [by apply Hev| |done]. intros c Hc. apply (Hpf (TXID pm) c); [simpl; eauto|done].
  - destruct (_ || _); [done|]. unfold exitLoop. by destruct (advanceMarks claim l1) as [[? ?]|].
  - destruct (negb _); [done|]. pose proof (handleAdmit_registered msg off (graph l1)) as Ha.
    destruct (handleAdmit _ _ _) as [res g]. intros [= <- _ _]. apply Ha; [by apply Hev| |done].
    intros c Hc. by apply (Hpf (TXID msg) c).
  - intros [= <- _ _]. by apply handleRequeue_registered.
  - destruct (handleTerminal x st (graph l1)) as [[g' cas]|] eqn:Et; [|done]. intros [= <- _ _]. simpl.
    eapply handleTerminal_registered; [apply Hl|done|exact Et].
  - by intros [= <- _ _].
  - destruct claim; simpl; [|done]. unfold flushTick. destruct (advanceMarks true l1) as [[l2 mk]|] eqn:Ea; [|done].
    apply Hadv in Ea. destruct (_ =? 0)%nat; [by intros [= <- _ _]|]. destruct (_ <? _)%nat; by intros [= <- _ _].
Qed.

(** C24: when parents are admitted before the children that wait on
    something, no held transaction is forgotten: it is registered on every one
    of its in-flight parents; and since spending is acyclic, behind every held
    transaction there is one in flight that is not held itself, whose terminal
    event reaches it through the registrations. *)
Theorem no_lost_wakeup (rank : string -> nat) claim seen l c :
  (∀ p x, parent_of inputsOf p x -> (rank p < rank x)%nat) ->
  reachable parents_first claim seen l -> is_Some (heldMsgs (graph l) !! c) ->
  (∀ p, parent_of inputsOf p c -> is_Some (inFlight (graph l) !! p) -> waits (waiters (graph l)) p c) ∧
  ∃ x, tc (waits (waiters (graph l))) x c ∧ is_Some (inFlight (graph l) !! x) ∧ heldMsgs (graph l) !! x = None.
Proof.
  intros Hrank Hreach.
  assert (registered (graph l)) as Hr.
  { clear c. induction Hreach as [|seen l ord cfg ev s l' s' o Hre IH Hev Hg E].
    - intros c [m Hm]. by destruct (lookup_empty_Some (M := gmap string) c m).
    - destruct (reachable_ok _ _ _ _ Hre) as [q Hl]. eapply step_registered; [exact Hl|exact Hev|exact Hg|exact IH|exact E]. }
  apply reachable_graph in Hreach as [Hc Hpar]. intros Hh. split; [by apply (Hr c Hh)|].
  induction (Wf_nat.well_founded_ltof _ rank c) as [c _ IH]. unfold Wf_nat.ltof in IH.
  destruct (Hr c Hh) as [[p Hp] _]. pose proof (Hpar p c Hp) as Hfp.
  destruct (core_wait _ _ _ Hc p c Hp) as [_ Hpc]. destruct (heldMsgs (graph l) !! p) as [m|] eqn:Ep.
  - destruct (IH p (Hrank p c Hpc)) as (x & Hx & Hfx & Hnx); [by eauto|]. exists x. split; [by eapply tc_r|done].
  - exists p. split; [by apply tc_once|done].
Qed.

(** *** A forgotten child *)

(** Rounds that name [c] in no requeue and no terminal event. *)
Definition ignores (c : string) (ev : event) : Prop :=
  match ev with
  | EvRequeue m => TXID m ≠ c
  | EvTerminal x _ => x ≠ c
  | _ => True
  end.

Inductive later (c : string) (claim : bool) : gset Z -> Loop -> gset Z -> Loop -> Prop :=
| later_refl seen l : later c claim seen l seen l
| later_step seen l seen1 l1 (ord : Order) cfg ev s l2 s2 o :
    later c claim seen l seen1 l1 -> ev_ok seen1 ev -> ignores c ev ->
    step decode claim cfg ev l1 s = Continue l2 s2 o -> later c claim seen l (seen_after seen1 ev) l2.

(** Held, and registered on no parent. *)
Record forgotten (c : string) (off : Z) (g : Graph) : Prop := {
  fg_held : is_Some (heldMsgs g !! c);
  fg_flight : inFlight g !! c = Some off;
  fg_none : ∀ p, ¬ waits (waiters g) p c;
  fg_pending : ∀ m, m ∈ pendingMsgs g -> TXID m ≠ c
}.

Lemma forgotten_bare c off m g :
  heldMsgs g !! c = Some m -> inFlight g !! c = Some off -> waiters g = ∅ -> pendingMsgs g = [] -> forgotten c off g.
Proof.
  intros Hh Hf Hw Hp. split; [eauto|done| |rewrite Hp; set_solver].
  intros p. unfold waits. rewrite Hw, lookup_empty. apply not_elem_of_empty.
Qed.

Lemma forgotten_hold c off msg b g : TXID msg ≠ c -> forgotten c off g -> forgotten c off (holdMsg msg b g).
Proof.
  intros Hne [H1 H2 H3 H4]. split; simpl; [by rewrite lookup_insert_ne|done| |done].
  intros p [Hw|[E _]]%register_waits; [by eapply H3|by subst].
Qed.

Lemma forgotten_enqueue c off msg g : TXID msg ≠ c -> forgotten c off g -> forgotten c off (enqueue msg g).
Proof. intros Hne [H1 H2 H3 H4]. split; simpl; [done|done|done|]. intros m [Hm|Hm%list_elem_of_singleton]%elem_of_app; [auto|by subst]. Qed.

Lemma forgotten_admit c off msg o g : forgotten c off g -> forgotten c off (handleAdmit msg o g).2.
Proof.
  intros Hf. unfold handleAdmit. destruct (inFlight g !! TXID msg) eqn:E; [by destruct Hf; split|].
  assert (TXID msg ≠ c) as Hne by (intros <-; rewrite (fg_flight _ _ _ Hf) in E; done).
  assert (forgotten c off (mkGraph (<[TXID msg := o]> (inFlight g)) (waiters g) (heldMsgs g) (pendingMsgs g)
    (Add o (tracker g)))) as Hf1 by (destruct Hf; split; simpl; [done|by rewrite lookup_insert_ne|done|done]).
  destruct (negb _); [by apply forgotten_hold|by apply forgotten_enqueue].
Qed.

Lemma forgotten_terminal (ord : Order) seen c off x st g g' cas :
  graph_ok inputsOf seen g -> x ≠ c -> forgotten c off g -> handleTerminal x st g = Some (g', cas) -> forgotten c off g'.
Proof.
  intros Hg Hne Hf. pose proof Hf as [H1 H2 H3 H4]. unfold handleTerminal. destruct (String.eqb st StatusAcceptedByNetwork).
  - intros [= <- <-].
    destruct (releaseWaiters_spec inputsOf seen x g Hg) as (cs & Ecs & _ & Efl & Hp & _ & Hheld & Hw). cbn zeta in *.
    assert (c ∉ cs) as Hnc by (rewrite Ecs, elem_of_elements; apply H3). split.
    + rewrite Hheld; [done|]. by intros [? _].
    + by rewrite Efl, lookup_delete_ne.
    + intros p [Hwp _]%Hw. by eapply H3.
    + intros m. rewrite Hp. intros [Hm|(c' & Hc' & Hm)%list_elem_of_omap]%elem_of_app; [auto|].
      apply (canRelease_spec inputsOf seen) in Hm as [Hm _]; [|apply finish_core, Hg].
      destruct Hg as [[_ Hh _ _] _]. destruct (Hh c' m Hm) as [-> _]. by intros ->.
  - destruct (_ || _); [|by intros [= <- <-]]. intros E.
    destruct (cascadeReject_spec inputsOf seen x g Hg) as (g1 & cas1 & E1 & _ & _ & Hin & _ & Hh & Hfl & Hp & Hw).
    rewrite E in E1. injection E1 as <- <-.
    assert (c ∉ txids cas) as Hnc. { intros Hreach%Hin. clear -Hreach H3. induction Hreach as [? ? Hw|]; [by eapply H3|auto]. }
    split; [by rewrite Hh, decide_False|rewrite Hfl, decide_False by naive_solver; done| |by rewrite Hp].
    intros p (Hwp & _)%Hw. by eapply H3.
Qed.

Lemma forgotten_step (ord : Order) claim cfg ev seen q c off l s l' s' o :
  loop_ok seen q l -> ev_ok seen ev -> ignores c ev -> forgotten c off (graph l) ->
  step decode claim cfg ev l s = Continue l' s' o -> forgotten c off (graph l') ∧ ∀ m, m ∈ o_batch o -> TXID m ≠ c.
Proof.
  intros Hl Hev Hig Hf. apply (observe_ok seen q l s) in Hl. unfold step.
  destruct (observe l s) as [l1 s1] eqn:Eo. cbn [fst] in Hl.
  assert (graph l = graph l1) as Eg by (by injection Eo as <- <-). rewrite Eg in *. clear Eo Eg.
  assert (∀ g, forgotten c off g -> forgotten c off (clearPending g)) as Hclear
    by (intros g [? ? ? ?]; split; simpl; [done|done|done|set_solver]).
  assert (∀ b l2 mk, advanceMarks b l1 = Some (l2, mk) -> forgotten c off (graph l2)) as Hadv.
  { unfold advanceMarks. intros b l2 mk. destruct (advance _ _ _) as [[[q2 t2] mk2]|]; [|done].
    intros [= <- _]. by destruct Hf; split. }
  destruct ev as [|[msg|]|msg o'|msg|x st| |]; cbn beta iota.
  - unfold exitLoop. by destruct (advanceMarks claim l1) as [[? ?]|].
  - destruct (_ || _); [done|]. unfold claimMessage. destruct (decode (Value msg)) as [pm|]; [|intros [= <- _ <-]; set_solver].
    destruct (_ =? 0)%nat; [intros [= <- _ <-]; set_solver|]. pose proof (forgotten_admit c off pm (Offset msg) (graph l1) Hf) as Ha.
    destruct (handleAdmit _ _ _) as [res g]. intros [= <- _ <-]. simpl. set_solver.
  - destruct (_ || _); [done|]. unfold exitLoop. by destruct (advanceMarks claim l1) as [[? ?]|].
  - destruct (negb _); [done|]. pose proof (forgotten_admit c off msg o' (graph l1) Hf) as Ha.
    destruct (handleAdmit _ _ _) as [res g]. intros [= <- _ <-]. simpl. set_solver.
  - intros [= <- _ <-]. split; [|simpl; set_solver]. unfold handleRequeue. simpl. destruct (inFlight (graph l1) !! TXID msg); [|done].
    destruct (negb _); [by apply forgotten_hold|by apply forgotten_enqueue].
  - destruct (handleTerminal x st (graph l1)) as [[g' cas]|] eqn:Et; [|done]. intros [= <- _ <-]. split; [|simpl; set_solver].
    eapply forgotten_terminal; [apply Hl|exact Hig|done|exact Et].
  - intros [= <- _ <-]. split; [by apply Hclear|]. apply Hf.
  - destruct claim; simpl; [|done]. unfold flushTick. destruct (advanceMarks true l1) as [[l2 mk]|] eqn:Ea; [|done].
    apply Hadv in Ea. destruct (_ =? 0)%nat; [intros [= <- _ <-]; set_solver|].
    destruct (_ <? _)%nat; intros [= <- _ <-]; [|set_solver]. split; [by apply Hclear|apply Ea].
Qed.

Lemma forgotten_later claim c off seen q l seen' l' :
  loop_ok seen q l -> forgotten c off (graph l) -> later c claim seen l seen' l' ->
  (∃ q', loop_ok seen' q' l') ∧ forgotten c off (graph l').
Proof.
  intros Hl Hf Hlater. induction Hlater as [|seen l seen1 l1 ord cfg ev s l2 s2 o _ IH Hev Hig E]; [eauto|].
  destruct (IH Hl Hf) as [[q1 Hl1] Hf1]. split.
  - pose proof (step_round_ok ord claim cfg ev seen1 q1 l1 s Hl1 Hev) as Hr. rewrite E in Hr. apply Hr.
  - eapply forgotten_step; [exact Hl1|exact Hev|exact Hig|exact Hf1|exact E].
Qed.
End Reach.

(** ** Runs on concrete messages *)
Section Traces.

(** A child spending [p] and [q]; one value byte stands for each message. *)
Definition wInputs (x : string) : list string := if String.eqb x "c" then ["p"; "q"] else [].
Definition wMsg (x : string) : propagationMsg := mkPropagationMsg x [x00] (wInputs x) 0 0 "" "".
Definition wDecode (v : list byte) : option propagationMsg :=
  match v with
  | [x01] => Some (wMsg "p")
  | [x02] => Some (wMsg "q")
  | [x03] => Some (wMsg "c")
  | _ => None
  end.
#[local] Instance wOrder : Order :=
  {| range _ s := elements s; range_perm _ s := Permutation_refl (elements s) |}.
Definition wCfg : dispatcherConfig := mkDispatcherConfig 0 4.
Definition wShared : Shared := mkShared 0 0 0 0.

Lemma wDecode_ok v pm : wDecode v = Some pm -> msg_ok wInputs pm.
Proof.
  unfold wDecode. intros E. repeat (case_match; try discriminate); injection E as <-; reflexivity.
Qed.

(** Claim, terminal and tick events, fed in order; the offsets must grow. *)
Definition feedable (seen : gset Z) (ev : event) : bool :=
  match ev with
  | EvClaim (Some m) => forallb (fun o => o <? Offset m)%Z (elements seen)
  | EvTerminal _ _ | EvTick => true
  | _ => false
  end.

Fixpoint feed (evs : list event) (seen : gset Z) (l : Loop) : option (gset Z * Loop) :=
  match evs with
  | [] => Some (seen, l)
  | ev :: evs =>
      if feedable seen ev then
        match step wDecode true wCfg ev l wShared with
        | Continue l' _ _ => feed evs (seen_after seen ev) l'
        | _ => None
        end
      else None
  end.

Lemma feedable_ok seen ev : feedable seen ev = true -> ev_ok wDecode wInputs seen ev.
Proof.
  destruct ev as [|[m|]| | | | |]; simpl; try done. intros Hf. split; [|apply wDecode_ok].
  rewrite forallb_forall in Hf. intros o Ho. specialize (Hf o). rewrite <-list_elem_of_In, elem_of_elements in Hf.
  specialize (Hf Ho). lia.
Qed.

Lemma feed_reachable evs seen l seen' l' :
  reachable wDecode wInputs any_event true seen l -> feed evs seen l = Some (seen', l') ->
  reachable wDecode wInputs any_event true seen' l'.
Proof.
  revert seen l. induction evs as [|ev evs IH]; intros seen l Hr; cbn [feed]; [by intros [= <- <-]|].
  destruct (feedable seen ev) eqn:Ef; [|done].
  destruct (step wDecode true wCfg ev l wShared) eqn:Es; try done. apply IH.
  eapply reach_step; [exact Hr|by apply feedable_ok|exact I|exact Es].
Qed.

(** The parent [p] arrives after the child that already waits on [q]. *)
Definition wLate : list event :=
  [EvClaim (Some (mkMessage 10 [x02])); EvClaim (Some (mkMessage 11 [x03]));
   EvClaim (Some (mkMessage 12 [x01])); EvTick;
   EvTerminal "q" StatusAcceptedByNetwork; EvTerminal "p" StatusAcceptedByNetwork].

Definition wLateLoop : Loop := default newLoop (snd <$> feed wLate ∅ newLoop).
Definition wLateSeen : gset Z := default ∅ (fst <$> feed wLate ∅ newLoop).

(** The arrival order of the previous theorem is needed: a child held on
    one parent while another parent is admitted later is dropped from the
    waiter graph when the first is accepted.  Both parents are then accepted,
    nothing else is in flight, and still the child is never broadcast and its
    offset holds the watermark back, through every continuation that does not
    requeue or terminalize the child itself. *)
Theorem child_forgotten :
  ∃ decode inputsOf seen l c off,
    reachable decode inputsOf any_event true seen l ∧
    inFlight (graph l) = {[c := off]} ∧
    ∀ seen' l', later decode inputsOf c true seen l seen' l' ->
      is_Some (heldMsgs (graph l') !! c) ∧ (∀ m, m ∈ pendingMsgs (graph l') -> TXID m ≠ c) ∧
      inFlight (graph l') !! c = Some off ∧ off ∈ unfinished (tracker (graph l')).
Proof.
  exists wDecode, wInputs, wLateSeen, wLateLoop, "c", 11%Z.
  assert (reachable wDecode wInputs any_event true wLateSeen wLateLoop) as Hreach.
  { apply (feed_reachable wLate ∅ newLoop); [constructor|vm_compute; reflexivity]. }
  assert (forgotten "c" 11 (graph wLateLoop)) as Hf.
  { apply (forgotten_bare _ _ (wMsg "c")); vm_compute; reflexivity. }
  split; [exact Hreach|]. split; [vm_compute; reflexivity|]. intros seen' l' Hlater.
  destruct (reachable_ok _ _ _ _ _ _ Hreach) as [q Hl].
  destruct (forgotten_later _ _ _ _ _ _ _ _ _ _ Hl Hf Hlater) as [[q' Hl'] [H1 H2 H3 H4]].
  split_and!; [done|done|done|]. apply (loop_graph _ _ _ _ Hl'). eauto.
Qed.

(** A message the loop cannot decode is marked at once, past the offset
    of a transaction that is still in flight, which the queue would never do:
    the watermark check of the queue does not cover this call. *)
Theorem malformed_marked_past_in_flight :
  ∃ decode inputsOf cfg seen l m s l' s' o off,
    reachable decode inputsOf any_event true seen l ∧ ev_ok decode inputsOf seen (EvClaim (Some m)) ∧
    step decode true cfg (EvClaim (Some m)) l s = Continue l' s' o ∧ o_dropped o = [m] ∧
    (∃ x, inFlight (graph l') !! x = Some off) ∧ off ∈ unfinished (tracker (graph l')) ∧ (off < Offset m)%Z.
Proof.
  set (evs := [EvClaim (Some (mkMessage 10 [x02]))]). set (bad := mkMessage 11 [x00]).
  set (l1 := default newLoop (snd <$> feed evs ∅ newLoop)).
  set (l2 := match step wDecode true wCfg (EvClaim (Some bad)) l1 wShared with Continue l' _ _ => l' | _ => newLoop end).
  set (s2 := match step wDecode true wCfg (EvClaim (Some bad)) l1 wShared with Continue _ s' _ => s' | _ => wShared end).
  exists wDecode, wInputs, wCfg, ({[10%Z]} ∪ ∅), l1, bad, wShared, l2, s2, (mkOutput [] [bad] None [] []), 10%Z.
  assert (reachable wDecode wInputs any_event true ({[10%Z]} ∪ ∅) l1) as Hreach
    by (apply (feed_reachable evs ∅ newLoop); [constructor|vm_compute; reflexivity]).
  assert (ev_ok wDecode wInputs ({[10%Z]} ∪ ∅) (EvClaim (Some bad))) as Hev
    by (apply feedable_ok; vm_compute; reflexivity).
  assert (step wDecode true wCfg (EvClaim (Some bad)) l1 wShared = Continue l2 s2 (mkOutput [] [bad] None [] [])) as Es
    by (vm_compute; reflexivity).
  assert (inFlight (graph l2) !! "q" = Some 10%Z) as Hq by (vm_compute; reflexivity).
  split_and!; [done|done|done|done|eauto| |vm_compute; reflexivity].
  assert (reachable wDecode wInputs any_event true (seen_after ({[10%Z]} ∪ ∅) (EvClaim (Some bad))) l2) as Hreach2
    by (eapply reach_step; [exact Hreach|exact Hev|exact I|exact Es]).
  apply reachable_graph in Hreach2. apply Hreach2. eauto.
Qed.

(** The child waits on [q], which is in flight; [p] was never seen. *)
Definition wHeld : list event :=
  [EvClaim (Some (mkMessage 10 [x02])); EvClaim (Some (mkMessage 11 [x03]))].
Definition wHeldLoop : Loop := default newLoop (snd <$> feed wHeld ∅ newLoop).
Definition wHeldSeen : gset Z := {[11%Z]} ∪ ({[10%Z]} ∪ ∅).

Lemma wHeld_reachable : reachable wDecode wInputs any_event true wHeldSeen wHeldLoop.
Proof. apply (feed_reachable wHeld ∅ newLoop); [constructor|vm_compute; reflexivity]. Qed.

Lemma wHeld_waits : waits (waiters (graph wHeldLoop)) "q" "c".
Proof.
  assert (waiters (graph wHeldLoop) = {["q" := {["c"]}]}) as E by (vm_compute; reflexivity).
  unfold waits. rewrite E, lookup_singleton_eq. by apply elem_of_singleton.
Qed.

Lemma watermark_safe_witness :
  (∀ off, off ∈ unfinished (tracker (graph wHeldLoop)) ↔ ∃ x, inFlight (graph wHeldLoop) !! x = Some off) ∧
  step wDecode true wCfg (EvTerminal "q" StatusRejected) wHeldLoop wShared ≠ Panic.
Proof.
  pose proof (watermark_safe wDecode wInputs wOrder true wCfg (EvTerminal "q" StatusRejected)
    wHeldSeen wHeldLoop wShared wHeld_reachable I) as [H1 H2].
  split; [exact H1|]. intros E. rewrite E in H2. exact H2.
Defined.

Lemma tick_marks_exactly_witness :
  ∃ l' s' o, step wDecode true wCfg EvTick wHeldLoop wShared = Continue l' s' o ∧
    ¬ (mkMessage 10 [x02] ∈ o_marked o).
Proof.
  destruct (tick_marks_exactly wDecode wInputs wOrder wCfg wHeldSeen wHeldLoop wShared
    [mkMessage 10 [x02]; mkMessage 11 [x03]] wHeld_reachable) as (l' & s' & o & rest & E & _ & _ & Hm).
  - split; [vm_compute; lia|vm_compute; reflexivity].
  - exists l', s', o. split; [exact E|]. intros Hin. apply Hm in Hin as [_ Hlow].
    assert (inFlight (graph wHeldLoop) !! "q" = Some 10%Z) as Eq by (vm_compute; reflexivity).
    specialize (Hlow "q" 10%Z Eq). cbn in Hlow. lia.
Defined.

Lemma cascade_exact_witness :
  ∃ g' cas, handleTerminal "q" StatusRejected (graph wHeldLoop) = Some (g', cas) ∧ "c" ∈ txids cas.
Proof.
  destruct (cascade_exact wDecode wInputs wOrder true wHeldSeen wHeldLoop "q" StatusRejected wHeld_reachable
    (or_introl eq_refl)) as (g' & cas & E & _ & Hin & _).
  exists g', cas. split; [exact E|]. apply Hin. apply tc_once. exact wHeld_waits.
Defined.

Lemma release_exact_witness :
  ∃ g' released, handleTerminal "q" StatusAcceptedByNetwork (graph wHeldLoop) = Some (g', []) ∧
    wMsg "c" ∈ released ∧ pendingMsgs g' = pendingMsgs (graph wHeldLoop) ++ released.
Proof.
  destruct (release_exact wDecode wInputs wOrder true wHeldSeen wHeldLoop "q" wHeld_reachable)
    as (g' & released & E & _ & Hrel & Hp & _).
  exists g', released. split; [exact E|]. split; [|exact Hp]. apply (Hrel "c" (wMsg "c")).
  split; [exact wHeld_waits|]. split; [vm_compute; reflexivity|].
  intros p (Hp1 & _ & _) Hne. cbn in Hp1. apply elem_of_cons in Hp1 as [->|Hp1]; [vm_compute; reflexivity|].
  apply list_elem_of_singleton in Hp1. contradiction.
Defined.

Lemma wHeld_reachable_ordered :
  reachable wDecode wInputs (parents_first wDecode wInputs) true wHeldSeen wHeldLoop.
Proof.
  assert (∀ l ev, heldMsgs (graph l) = ∅ -> parents_first wDecode wInputs l ev) as Hpf.
  { intros l ev E x c _ [m Hm]. rewrite E in Hm. by apply lookup_empty_Some in Hm. }
  eapply (reach_step _ _ _ _ ({[10%Z]} ∪ ∅) (default newLoop (snd <$> feed (take 1 wHeld) ∅ newLoop)) wOrder wCfg
    (EvClaim (Some (mkMessage 11 [x03]))) wShared); [|apply feedable_ok; vm_compute; reflexivity| |vm_compute; reflexivity].
  - eapply (reach_step _ _ _ _ ∅ newLoop wOrder wCfg (EvClaim (Some (mkMessage 10 [x02]))) wShared);
      [constructor|apply feedable_ok; vm_compute; reflexivity|by apply Hpf|vm_compute; reflexivity].
  - apply Hpf. vm_compute. reflexivity.
Qed.

Lemma no_lost_wakeup_witness :
  ∃ x, tc (waits (waiters (graph wHeldLoop))) x "c" ∧ heldMsgs (graph wHeldLoop) !! x = None.
Proof.
  destruct (no_lost_wakeup wDecode wInputs (fun x => if String.eqb x "c" then 1%nat else 0%nat) true
    wHeldSeen wHeldLoop "c") as [_ Hx].
  - intros p y (Hp & _ & Hne). unfold wInputs in Hp. destruct (String.eqb_spec y "c") as [Ey|Ey];
      [|by apply not_elem_of_nil in Hp]. destruct (String.eqb_spec p "c"); [congruence|lia].
  - exact wHeld_reachable_ordered.
  - exists (wMsg "c"). vm_compute. reflexivity.
  - destruct Hx as (x & Hx & _ & Hn). exists x. split; [exact Hx|exact Hn].
Defined.
End Traces.
