(* ===== verification/Chunking.v ===== *)
(** * Chunking: slicing a broadcast batch into spans

    Models [services/propagation/chunking.go].  Go's [int] holds any index
    and any total of the lengths of slices that fit in memory, so lengths are
    natural numbers and totals integers without wrap-around. *)
From stdpp Require Import base list.
From Stdlib Require Import ZArith Lia.
From Stdlib Require Import Strings.Byte.
From S2P Require Import Prelude.

Record chunkSpan : Type := mkChunkSpan {
  start : nat;
  end_ : nat
}.

Definition spanFull (count bytes next maxCount maxBytes : Z) : bool :=
  ((0 <? maxCount) && (maxCount <=? count))%Z || ((0 <? maxBytes) && (maxBytes <? bytes + next))%Z.

(** [for i, tx := range rawTxs], with the loop's locals. *)
Fixpoint chunkLoop (i : nat) (rawTxs : list (list byte)) (maxCount maxBytes : Z)
    (spans : list chunkSpan) (st : nat) (bytes : Z) : list chunkSpan * nat :=
  match rawTxs with
  | [] => (spans, st)
  | tx :: rest =>
      let n := Z.of_nat (length tx) in
      let count := (Z.of_nat i - Z.of_nat st)%Z in
      if (0 <? count)%Z && spanFull count bytes n maxCount maxBytes
      then chunkLoop (S i) rest maxCount maxBytes (spans ++ [mkChunkSpan st i]) i (0 + n)
      else chunkLoop (S i) rest maxCount maxBytes spans st (bytes + n)
  end.

Definition planChunks (rawTxs : list (list byte)) (maxCount maxBytes : Z) : list chunkSpan :=
  match rawTxs with
  | [] => []
  | _ =>
      let '(spans, st) := chunkLoop 0 rawTxs maxCount maxBytes [] 0 0 in
      spans ++ [mkChunkSpan st (length rawTxs)]
  end.

Definition rawTxsBytes (rawTxs : list (list byte)) : Z :=
  foldl (fun total tx => total + Z.of_nat (length tx))%Z 0%Z rawTxs.

(** ** Sizes *)

(** The transactions of a span. *)
Definition slice {A} (l : list A) (a b : nat) : list A := take (b - a) (drop a l).

Lemma rawTxsBytes_acc l a : foldl (fun total (tx : list byte) => total + Z.of_nat (length tx))%Z a l = (a + rawTxsBytes l)%Z.
Proof.
  revert a. induction l as [|x l IH]; intros a; unfold rawTxsBytes; cbn [foldl]; [lia|]. rewrite IH.
  rewrite (IH (0 + _)%Z). lia.
Qed.

Lemma rawTxsBytes_app l1 l2 : rawTxsBytes (l1 ++ l2) = (rawTxsBytes l1 + rawTxsBytes l2)%Z.
Proof. unfold rawTxsBytes at 1. rewrite foldl_app. apply rawTxsBytes_acc. Qed.

Lemma slice_snoc {A} (l : list A) a b x :
  (a <= b)%nat -> l !! b = Some x -> slice l a (S b) = slice l a b ++ [x].
Proof.
  intros Hab Hx. unfold slice. replace (S b - a)%nat with (S (b - a)) by lia. apply take_S_r.
  rewrite lookup_drop. by replace (a + (b - a))%nat with b by lia.
Qed.

Lemma slice_empty {A} (l : list A) a : slice l a a = [].
Proof. unfold slice. by rewrite Nat.sub_diag. Qed.

(** ** What a plan is *)

(** Consecutive non-empty spans from [a] to [b]. *)
Inductive tiles : nat -> nat -> list chunkSpan -> Prop :=
| tiles_nil a : tiles a a []
| tiles_snoc a m b spans : tiles a m spans -> (m < b)%nat -> tiles a b (spans ++ [mkChunkSpan m b]).

(** A span keeps both caps, or holds a single transaction. *)
Definition fits (l : list (list byte)) (maxCount maxBytes : Z) (s : chunkSpan) : Prop :=
  ((0 < maxCount)%Z -> (Z.of_nat (end_ s - start s) <= maxCount)%Z) ∧
  ((0 < maxBytes)%Z -> (rawTxsBytes (slice l (start s) (end_ s)) <= maxBytes)%Z ∨ end_ s = S (start s)).

(** A span could not have taken the next transaction. *)
Definition maximal (l : list (list byte)) (maxCount maxBytes : Z) (s : chunkSpan) : Prop :=
  (length l <= end_ s)%nat ∨
  ((0 < maxCount)%Z ∧ (Z.of_nat (end_ s - start s) = maxCount)%Z) ∨
  ((0 < maxBytes)%Z ∧ (maxBytes < rawTxsBytes (slice l (start s) (S (end_ s))))%Z).

Lemma spanFull_false count bytes n maxCount maxBytes :
  spanFull count bytes n maxCount maxBytes = false ->
  ((0 < maxCount)%Z -> (count < maxCount)%Z) ∧ ((0 < maxBytes)%Z -> (bytes + n <= maxBytes)%Z).
Proof. unfold spanFull. intros [H1 H2]%orb_false_iff. split; intros Hp; [clear H2|clear H1]; lia. Qed.

Lemma spanFull_true count bytes n maxCount maxBytes :
  spanFull count bytes n maxCount maxBytes = true ->
  ((0 < maxCount)%Z ∧ (maxCount <= count)%Z) ∨ ((0 < maxBytes)%Z ∧ (maxBytes < bytes + n)%Z).
Proof. unfold spanFull. intros [H1|H2]%orb_true_iff; [left|right]; lia. Qed.

Section Plan.
Context (l : list (list byte)) (maxCount maxBytes : Z).

Record plan_inv (i st : nat) (bytes : Z) (spans : list chunkSpan) : Prop := {
  pi_tiles : tiles 0 st spans;
  pi_start : (st <= i)%nat ∧ (0 < i -> st < i)%nat;
  pi_bytes : bytes = rawTxsBytes (slice l st i);
  pi_open : fits l maxCount maxBytes (mkChunkSpan st i) ∨ i = 0%nat;
  pi_fits : Forall (fits l maxCount maxBytes) spans;
  pi_max : Forall (maximal l maxCount maxBytes) spans
}.

Lemma snoc_bytes st i tx : (st <= i)%nat -> l !! i = Some tx ->
  rawTxsBytes (slice l st (S i)) = (rawTxsBytes (slice l st i) + Z.of_nat (length tx))%Z.
Proof. intros Hle Hx. rewrite (slice_snoc l st i tx), rawTxsBytes_app by done. done. Qed.

Lemma chunkLoop_inv rest i st bytes spans :
  plan_inv i st bytes spans -> drop i l = rest ->
  ∃ spans' st' bytes', chunkLoop i rest maxCount maxBytes spans st bytes = (spans', st') ∧
    plan_inv (i + length rest) st' bytes' spans'.
Proof.
  revert i st bytes spans. induction rest as [|tx rest IH]; intros i st bytes spans Hinv Hd.
  { exists spans, st, bytes. by rewrite Nat.add_0_r. }
  assert (l !! i = Some tx) as Hx by (rewrite <-(Nat.add_0_r i), <-lookup_drop, Hd; done).
  assert (drop (S i) l = rest) as Hd' by (rewrite (drop_S _ _ _ Hx) in Hd; by injection Hd).
  destruct Hinv as [Ht [Hs1 Hs2] Hb Ho Hf Hm]. pose proof (snoc_bytes st i tx Hs1 Hx) as Hbn.
  cbn [chunkLoop length]. replace (i + S (length rest))%nat with (S i + length rest)%nat by lia.
  destruct (_ && _) eqn:Efull; apply IH; try done.
  - apply andb_true_iff in Efull as [Hc%Z.ltb_lt Hfull%spanFull_true].
    split; [apply tiles_snoc with (m := st); [done|lia]|lia| | | |].
    + rewrite (snoc_bytes i i tx), slice_empty by (lia || done). done.
    + left. split; simpl; [lia|]. intros _. right. done.
    + apply Forall_app. split; [done|]. constructor; [|done]. destruct Ho; [done|lia].
    + apply Forall_app. split; [done|]. constructor; [|done]. right. destruct Hfull as [[? ?]|[? ?]].
      * left. split; [done|]. simpl. destruct Ho as [[Ho _]|]; [simpl in Ho; lia|lia].
      * right. split; [done|]. simpl. rewrite Hbn. lia.
  - split; [done|lia|by rewrite Hbn, Hb| |done|done]. left.
    destruct (decide (i = st)) as [->|Hne].
    { split; simpl; [lia|]. by right. }
    apply andb_false_iff in Efull as [Hc|Hnf]; [lia|]. apply spanFull_false in Hnf as [H1 H2].
    split; simpl; [lia|]. intros Hp. left. rewrite Hbn. specialize (H2 Hp). lia.
Qed.
End Plan.

(** A plan tiles the batch: its spans are non-empty, consecutive and
    disjoint and cover every index exactly once; each span keeps the count cap
    and the byte cap, except that a single transaction over the byte cap goes
    alone; and no span but the last could have taken the next transaction. *)
Theorem planChunks_tiles (rawTxs : list (list byte)) (maxCount maxBytes : Z) :
  tiles 0 (length rawTxs) (planChunks rawTxs maxCount maxBytes) ∧
  Forall (fits rawTxs maxCount maxBytes) (planChunks rawTxs maxCount maxBytes) ∧
  Forall (maximal rawTxs maxCount maxBytes) (planChunks rawTxs maxCount maxBytes).
Proof.
  destruct (decide (rawTxs = [])) as [->|Hne].
  { split_and!; constructor. }
  destruct (chunkLoop_inv rawTxs maxCount maxBytes rawTxs 0 0 0 []) as (spans & st & bytes & E & Hinv).
  { split; [constructor|lia|done|by right|constructor|constructor]. }
  { done. }
  simpl in Hinv. destruct Hinv as [Ht [_ Hs] _ Ho Hf Hm].
  assert (0 < length rawTxs)%nat as Hl by (destruct rawTxs; [done|simpl; lia]).
  assert (planChunks rawTxs maxCount maxBytes = spans ++ [mkChunkSpan st (length rawTxs)]) as ->.
  { unfold planChunks. destruct rawTxs; [done|]. by rewrite E. }
  split_and!; [by apply tiles_snoc; [|apply Hs]| |]; apply Forall_app; (split; [done|]); constructor; try done.
  - destruct Ho; [done|lia].
  - by left.
Qed.
