(* ===== verification/Finality.v ===== *)
(** * Finality: the nLockTime pre-check and its chain-state cache

    Models [finality/finality.go] and [finality/mtp.go].  Chaintracks and the
    height source are outside the program: what they answer during one call is
    a [Chain] value, an argument of every call.  Message texts are not
    modelled, except the waits and the durations they quote. *)
From stdpp Require Import base gmap strings list sorting pretty.
From Stdlib Require Import ZArith Lia.
From S2P Require Import Prelude.

(** ** finality.go *)

(** The fields of [sdkTx.Transaction] the check reads. *)
Record Transaction : Type := mkTransaction {
  Inputs : list Z;
  LockTime : Z
}.

(** [sdkTx.DefaultSequenceNumber], 0xffffffff. *)
Definition DefaultSequenceNumber : Z := 4294967295.
Definition lockTimeThreshold : Z := 500000000.
Definition targetBlockSeconds : Z := 600.

Record NotFinalError : Type := mkNotFinalError {
  nf_LockTime : Z;
  nf_HeightBased : bool;
  nf_NextBlockHeight : Z;
  nf_MedianTimePast : Z
}.

Inductive final_error : Type :=
| ErrNoInputs
| ErrNotFinal (e : NotFinalError).

Definition IsTransactionFinal (tx : Transaction) (nextBlockHeight medianTimePast : Z) : option final_error :=
  if (length (Inputs tx) =? 0)%nat then Some ErrNoInputs
  else if foldl (fun acc seq => acc && (seq =? DefaultSequenceNumber)%Z) true (Inputs tx) then None
  else if (LockTime tx =? 0)%Z then None
  else if (LockTime tx <? lockTimeThreshold)%Z then
    if (LockTime tx <? nextBlockHeight)%Z then None
    else Some (ErrNotFinal (mkNotFinalError (LockTime tx) true nextBlockHeight medianTimePast))
  else if (LockTime tx <? medianTimePast)%Z then None
  else Some (ErrNotFinal (mkNotFinalError (LockTime tx) false nextBlockHeight medianTimePast)).

(** The [uint64] differences the error message quotes: blocks for a height
    lock, seconds for a timestamp lock. *)
Definition remaining (e : NotFinalError) : Z :=
  if nf_HeightBased e then uint64 (uint64 (nf_LockTime e + 1) - nf_NextBlockHeight e)
  else uint64 (uint64 (nf_LockTime e + 1) - nf_MedianTimePast e).

Definition etaSeconds (e : NotFinalError) : Z :=
  if nf_HeightBased e then uint64 (remaining e * targetBlockSeconds) else remaining e.

Definition humanizeSeconds (seconds : Z) : string :=
  let minutes := (uint64 (seconds + 59) / 60)%Z in
  if (minutes <? 60)%Z then pretty minutes +:+ "m"
  else if (minutes <? 24 * 60)%Z then
    if (minutes mod 60 =? 0)%Z then pretty (minutes / 60)%Z +:+ "h"
    else pretty (minutes / 60)%Z +:+ "h" +:+ pretty (minutes mod 60)%Z +:+ "m"
  else
    let days := (minutes / (24 * 60))%Z in
    let hours := ((minutes mod (24 * 60)) / 60)%Z in
    if (hours =? 0)%Z then pretty days +:+ "d" else pretty days +:+ "d" +:+ pretty hours +:+ "h".

(** ** mtp.go *)

Definition mtpWindow : Z := 11.

Record snapshot : Type := mkSnapshot {
  tipHash : string;
  tipHeight : Z;
  mtp : Z;
  fetchedAt : Time
}.

Definition emptySnapshot : snapshot := mkSnapshot "" 0 0 None.

(** [hasReader] and [hasHeight] say which sources are configured; [degraded]
    counts the [onUnavailable] calls. *)
Record Checker : Type := mkChecker {
  hasReader : bool;
  hasHeight : bool;
  ttl : Z;
  snap : snapshot;
  degraded : nat
}.

Definition NewChecker (hasReader hasHeight : bool) (ttl : Z) : option Checker :=
  if negb hasReader && negb hasHeight then None
  else Some (mkChecker hasReader hasHeight ttl emptySnapshot 0).

(** What the outside answers during one call: the clock at the freshness
    test and at the refresh, [GetTip] (hash and height), [GetHeaders] (an
    entry is [None] when the header is nil), [GetActiveTipBlockHeight]. *)
Record Chain : Type := mkChain {
  nowBefore : Z;
  nowAfter : Z;
  GetTip : option (string * Z);
  GetHeaders : Z -> Z -> Res (list (option Z));
  GetActiveTipBlockHeight : Res Z
}.

Definition withSnap (c : Checker) (s : snapshot) : Checker :=
  mkChecker (hasReader c) (hasHeight c) (ttl c) s (degraded c).

Definition noteUnavailable (c : Checker) : Checker :=
  mkChecker (hasReader c) (hasHeight c) (ttl c) (snap c) (S (degraded c)).

(** The header window below the tip. *)
Definition headerWindow (height : Z) : Z * Z :=
  if (mtpWindow - 1 <=? height)%Z then ((height - (mtpWindow - 1))%Z, mtpWindow)
  else (0%Z, uint32 (height + 1)).

Definition medianOf (timestamps : list Z) : Z :=
  (merge_sort Z.le timestamps) !!! (length timestamps / 2)%nat.

Definition isFresh (w : Chain) (c : Checker) : bool :=
  match fetchedAt (snap c) with
  | None => false
  | Some t => (nowBefore w - t <? ttl c)%Z
  end.

Definition chainState (w : Chain) (c : Checker) : option (Z * Z) * Checker :=
  if isFresh w c then (Some (tipHeight (snap c), mtp (snap c)), c)
  else
    match GetTip w with
    | None => (None, noteUnavailable c)
    | Some (hash, height) =>
        if String.eqb hash (tipHash (snap c)) && negb (IsZero (fetchedAt (snap c))) then
          let s := mkSnapshot (tipHash (snap c)) (tipHeight (snap c)) (mtp (snap c)) (Some (nowAfter w)) in
          (Some (tipHeight s, mtp s), withSnap c s)
        else
          let '(start, count) := headerWindow height in
          match GetHeaders w start count with
          | Err _ => (None, noteUnavailable c)
          | Ok headers =>
              if (length headers =? 0)%nat then (None, noteUnavailable c)
              else
                let timestamps := omap id headers in
                if (length timestamps =? 0)%nat then (None, noteUnavailable c)
                else
                  let median := medianOf timestamps in
                  if (median =? 0)%Z then (None, noteUnavailable c)
                  else
                    let s := mkSnapshot hash height median (Some (nowAfter w)) in
                    (Some (tipHeight s, mtp s), withSnap c s)
          end
    end.

Definition lockTimeIrrelevant (tx : Transaction) : bool :=
  (LockTime tx =? 0)%Z || forallb (fun seq => seq =? DefaultSequenceNumber)%Z (Inputs tx).

Definition nextHeightU32 (height : Z) : Z :=
  if (maxUint32 <=? height)%Z then maxUint32 else uint32 (uint32 height + 1).

Definition checkHeightOnly (w : Chain) (tx : Transaction) (c : Checker) : option final_error * Checker :=
  if negb (hasHeight c) then (None, c)
  else if (lockTimeThreshold <=? LockTime tx)%Z then (None, if hasReader c then c else noteUnavailable c)
  else match GetActiveTipBlockHeight w with
       | Err _ => (None, noteUnavailable c)
       | Ok height =>
           if (height =? 0)%Z then (None, noteUnavailable c)
           else (IsTransactionFinal tx (nextHeightU32 height) 0, c)
       end.

(** [c] is [None] for the nil receiver. *)
Definition Check (w : Chain) (tx : Transaction) (c : option Checker) : option final_error * option Checker :=
  match c with
  | None => (None, None)
  | Some c =>
      if lockTimeIrrelevant tx then (None, Some c)
      else
        let '(state, c') := if hasReader c then chainState w c else (None, c) in
        match state with
        | Some (height, m) => (IsTransactionFinal tx (uint32 (height + 1)) m, Some c')
        | None => let '(r, c'') := checkHeightOnly w tx c' in (r, Some c'')
        end
  end.

(** ** The rule *)

(** BIP113 finality, stated directly. *)
Definition final_at (tx : Transaction) (nextHeight medianTime : Z) : Prop :=
  Forall (fun seq => seq = DefaultSequenceNumber) (Inputs tx) ∨ LockTime tx = 0%Z ∨
  ((LockTime tx < lockTimeThreshold)%Z ∧ (LockTime tx < nextHeight)%Z) ∨
  ((lockTimeThreshold <= LockTime tx)%Z ∧ (LockTime tx < medianTime)%Z).

Lemma sequences_fold l b :
  foldl (fun acc seq => acc && (seq =? DefaultSequenceNumber)%Z) b l = b && forallb (fun seq => seq =? DefaultSequenceNumber)%Z l.
Proof.
  revert b. induction l as [|x l IH]; intros b; cbn [foldl forallb]; [by rewrite andb_true_r|].
  by rewrite IH, andb_assoc.
Qed.

Lemma sequences_spec l :
  forallb (fun seq => seq =? DefaultSequenceNumber)%Z l = true ↔ Forall (fun seq => seq = DefaultSequenceNumber) l.
Proof.
  rewrite forallb_forall, Forall_forall. split; intros H x Hx.
  - apply Z.eqb_eq, H. by apply list_elem_of_In.
  - apply Z.eqb_eq, H. by apply list_elem_of_In.
Qed.

Lemma final_None tx h m :
  Inputs tx ≠ [] -> IsTransactionFinal tx h m = None ↔ final_at tx h m.
Proof.
  intros Hi. unfold IsTransactionFinal, final_at.
  destruct (Nat.eqb_spec (length (Inputs tx)) 0) as [E|_]; [by apply nil_length_inv in E|].
  rewrite sequences_fold. simpl andb. rewrite <-sequences_spec.
  destruct (forallb _ (Inputs tx)); [naive_solver|].
  destruct (Z.eqb_spec (LockTime tx) 0); [naive_solver|].
  destruct (Z.ltb_spec (LockTime tx) lockTimeThreshold).
  - destruct (Z.ltb_spec (LockTime tx) h); [naive_solver|]. split; [done|]. intros [?|[?|[?|?]]]; [done|lia..].
  - destruct (Z.ltb_spec (LockTime tx) m); [naive_solver|]. split; [done|]. intros [?|[?|[?|?]]]; [done|lia..].
Qed.

Lemma final_Some tx h m r :
  IsTransactionFinal tx h m = Some r -> Inputs tx ≠ [] ->
  ¬ final_at tx h m ∧ LockTime tx ≠ 0%Z ∧
  r = ErrNotFinal (mkNotFinalError (LockTime tx) (LockTime tx <? lockTimeThreshold)%Z h m).
Proof.
  intros E Hi. split; [rewrite <-final_None by done; congruence|]. revert E. unfold IsTransactionFinal.
  destruct (Nat.eqb_spec (length (Inputs tx)) 0) as [El|_]; [by apply nil_length_inv in El|].
  destruct (foldl _ _ _); [done|]. destruct (Z.eqb_spec (LockTime tx) 0); [done|].
  destruct (LockTime tx <? lockTimeThreshold)%Z.
  - destruct (_ <? _)%Z; [done|]. by intros [= <-].
  - destruct (_ <? _)%Z; [done|]. by intros [= <-].
Qed.

(** [IsTransactionFinal] accepts a transaction exactly when it has an
    input and BIP113 calls it final, finality is never lost as the chain
    grows, and the wait an error quotes is right: the subtraction does not
    wrap, the transaction is final once that many more blocks (seconds of
    median time) have passed, and not one earlier. *)
Theorem IsTransactionFinal_exact (tx : Transaction) (h m : Z) :
  is_u32 (LockTime tx) -> is_u32 h -> is_u32 m ->
  (IsTransactionFinal tx h m = None ↔ Inputs tx ≠ [] ∧ final_at tx h m) ∧
  (∀ h' m', (h <= h')%Z -> (m <= m')%Z -> final_at tx h m -> final_at tx h' m') ∧
  (∀ e, IsTransactionFinal tx h m = Some (ErrNotFinal e) ->
     (0 < remaining e)%Z ∧
     ∀ n, (0 <= n)%Z ->
       (final_at tx (if nf_HeightBased e then h + n else h) (if nf_HeightBased e then m else m + n) ↔
        (remaining e <= n)%Z)).
Proof.
  intros Hl Hh Hm. unfold is_u32 in *. split_and!.
  - destruct (Inputs tx) as [|i l] eqn:Ei; [|rewrite final_None; [|by rewrite Ei]].
    + unfold IsTransactionFinal. rewrite Ei. simpl. naive_solver.
    + naive_solver.
  - unfold final_at. intros h' m' ? ? [?|[?|[?|?]]]; [by left|by right; left|right; right; left; lia|right; right; right; lia].
  - intros e E. assert (Inputs tx ≠ []) as Hi by (intros Hn; unfold IsTransactionFinal in E; rewrite Hn in E; done).
    destruct (final_Some _ _ _ _ E Hi) as (Hn & H0 & [= ->]). unfold remaining, final_at in *. simpl.
    destruct (Z.ltb_spec (LockTime tx) lockTimeThreshold) as [Hlt|Hge]; simpl.
    + rewrite !uint64_id by (unfold is_u64; rewrite ?uint64_id by (unfold is_u64; lia); lia).
      assert (h <= LockTime tx)%Z by (apply Z.nlt_ge; naive_solver).
      split; [lia|]. intros n Hn0. split; [|intros; right; right; left; lia].
      intros [?|[?|[?|?]]]; [naive_solver|done|lia|lia].
    + assert (m <= LockTime tx)%Z by (apply Z.nlt_ge; naive_solver).
      rewrite !uint64_id by (unfold is_u64; rewrite ?uint64_id by (unfold is_u64; lia); lia).
      split; [lia|]. intros n Hn0. split; [|intros; right; right; right; lia].
      intros [?|[?|[?|?]]]; [naive_solver|done|lia|lia].
Qed.

(** ** The cache *)
Section Cache.
(** What a tip hash stands for: its height and its median-time-past. *)
Context (facts : string -> Z * Z).

(** The chain source answers for the tip it reports. *)
Definition consistent (w : Chain) : Prop :=
  ∀ hash height, GetTip w = Some (hash, height) ->
    height = (facts hash).1 ∧
    ∀ headers, GetHeaders w (headerWindow height).1 (headerWindow height).2 = Ok headers ->
      omap id headers ≠ [] -> medianOf (omap id headers) = (facts hash).2.

Definition snap_ok (c : Checker) : Prop :=
  fetchedAt (snap c) ≠ None -> (tipHeight (snap c), mtp (snap c)) = facts (tipHash (snap c)).

(** The tip a verdict was computed from: the one the source reports now, or
    one fetched less than [ttl] ago. *)
Definition usable (w : Chain) (c : Checker) (hash : string) : Prop :=
  (∃ height, GetTip w = Some (hash, height)) ∨ (isFresh w c = true ∧ hash = tipHash (snap c)).

Lemma chainState_ok w c :
  consistent w -> snap_ok c ->
  snap_ok (chainState w c).2 ∧ hasHeight (chainState w c).2 = hasHeight c ∧
  hasReader (chainState w c).2 = hasReader c ∧
  match (chainState w c).1 with
  | None => GetTip w = None ∨ ∃ hash height, GetTip w = Some (hash, height)
  | Some hm => ∃ hash, usable w c hash ∧ hm = facts hash
  end.
Proof.
  intros Hw Hc. unfold chainState, snap_ok in *. destruct (isFresh w c) eqn:Ef; simpl.
  { split_and!; [done|done|done|]. exists (tipHash (snap c)). split; [by right|]. apply Hc.
    unfold isFresh in Ef. by destruct (fetchedAt (snap c)). }
  destruct (GetTip w) as [[hash height]|] eqn:Et; simpl; [|auto].
  destruct (Hw hash height Et) as [Hh Hmed].
  destruct (String.eqb hash (tipHash (snap c)) && negb (IsZero (fetchedAt (snap c)))) eqn:Ec; simpl.
  { apply andb_true_iff in Ec as [Eh%String.eqb_eq Ez]. subst hash.
    assert (fetchedAt (snap c) ≠ None) as Hn by (by destruct (fetchedAt (snap c))).
    split_and!; [intros _; by apply Hc|done|done|]. exists (tipHash (snap c)). split; [left; eauto|by apply Hc]. }
  clear Ec. destruct (headerWindow height) as [st cnt]. simpl in Hmed.
  destruct (GetHeaders w st cnt) as [headers|]; simpl; [|eauto 10].
  destruct (length headers =? 0)%nat; simpl; [eauto 10|].
  destruct (Nat.eqb_spec (length (omap id headers)) 0) as [|Hl]; simpl; [eauto 10|].
  destruct (medianOf (omap id headers) =? 0)%Z; simpl; [eauto 10|].
  assert ((height, medianOf (omap id headers)) = facts hash) as Ef2.
  { rewrite (Hmed headers eq_refl) by (intros E; by rewrite E in Hl). rewrite Hh. by destruct (facts hash). }
  split_and!; [done|done|done|]. exists hash. split; [left; eauto|done].
Qed.

Lemma checkHeightOnly_ok w tx c :
  snap_ok c -> lockTimeIrrelevant tx = false ->
  let '(r, c') := checkHeightOnly w tx c in
  snap_ok c' ∧ hasReader c' = hasReader c ∧ hasHeight c' = hasHeight c ∧
  (r = None ∨ (LockTime tx < lockTimeThreshold)%Z ∧
     ∃ height, GetActiveTipBlockHeight w = Ok height ∧ height ≠ 0%Z ∧ r = IsTransactionFinal tx (nextHeightU32 height) 0).
Proof.
  intros Hc Hr. unfold checkHeightOnly. destruct (hasHeight c) eqn:Eh; simpl; [|auto].
  destruct (Z.leb_spec lockTimeThreshold (LockTime tx)); [destruct (hasReader c) eqn:Er; simpl; auto 6|].
  destruct (GetActiveTipBlockHeight w) as [height|]; simpl; [|auto 6].
  destruct (Z.eqb_spec height 0); simpl; [auto 6|]. split_and!; [done|done|done|]. right. eauto 10.
Qed.

Lemma irrelevant_false tx : lockTimeIrrelevant tx = false -> Inputs tx ≠ [].
Proof.
  unfold lockTimeIrrelevant. intros [_ H]%orb_false_iff E. by rewrite E in H.
Qed.

Lemma irrelevant_true tx h m : lockTimeIrrelevant tx = true -> final_at tx h m.
Proof.
  unfold lockTimeIrrelevant, final_at. intros [H%Z.eqb_eq|H%sequences_spec]%orb_true_iff; auto.
Qed.

(** The verdict of one call, and the state after it. *)
Lemma Check_ok w tx c :
  consistent w -> snap_ok c ->
  ∃ c', (Check w tx (Some c)).2 = Some c' ∧ snap_ok c' ∧
    ∀ r, (Check w tx (Some c)).1 = Some r ->
      (∃ e, r = ErrNotFinal e) ∧
      ((∃ hash, usable w c hash ∧ ¬ final_at tx (uint32 ((facts hash).1 + 1)) (facts hash).2) ∨
       (∃ height, GetActiveTipBlockHeight w = Ok height ∧ height ≠ 0%Z ∧
          (LockTime tx < lockTimeThreshold)%Z ∧ ¬ final_at tx (nextHeightU32 height) 0)).
Proof.
  intros Hw Hc. unfold Check. destruct (lockTimeIrrelevant tx) eqn:Ei; simpl; [by exists c|].
  pose proof (irrelevant_false tx Ei) as Hi.
  pose proof (chainState_ok w c Hw Hc) as (Hc' & _ & _ & Hst).
  assert (∀ c1, snap_ok c1 -> ∃ c', (let '(r, c'') := checkHeightOnly w tx c1 in (r, Some c'')).2 = Some c' ∧ snap_ok c' ∧
    ∀ r, (let '(r, c'') := checkHeightOnly w tx c1 in (r, Some c'')).1 = Some r ->
      (∃ e, r = ErrNotFinal e) ∧ ((∃ hash, usable w c hash ∧ ¬ final_at tx (uint32 ((facts hash).1 + 1)) (facts hash).2) ∨
       (∃ height, GetActiveTipBlockHeight w = Ok height ∧ height ≠ 0%Z ∧
          (LockTime tx < lockTimeThreshold)%Z ∧ ¬ final_at tx (nextHeightU32 height) 0))) as Hho.
  { intros c1 Hc1. pose proof (checkHeightOnly_ok w tx c1 Hc1 Ei) as Hh. destruct (checkHeightOnly w tx c1) as [r c2].
    destruct Hh as (Hc2 & _ & _ & Hr). exists c2. split; [done|]. split; [done|]. simpl. intros r' ->.
    destruct Hr as [|(Hlt & height & Eg & Hnz & Er)]; [done|].
    destruct (final_Some _ _ _ _ (eq_sym Er) Hi) as (Hn & _ & ->). eauto 10. }
  destruct (hasReader c); [|by apply Hho]. destruct (chainState w c) as [[[height m]|] c1]; simpl in *; [|by apply Hho].
  exists c1. split; [done|]. split; [done|]. intros r Er. destruct Hst as (hash & Hu & Ef).
  destruct (final_Some _ _ _ _ Er Hi) as (Hn & _ & ->). split; [eauto|]. left. exists hash. rewrite <-Ef. done.
Qed.

Definition run_checks (calls : list (Chain * Transaction)) (c : option Checker) : option Checker :=
  foldl (fun c call => (Check call.1 call.2 c).2) c calls.

Lemma run_checks_ok calls c :
  Forall (fun call => consistent call.1) calls -> snap_ok c -> ∃ c', run_checks calls (Some c) = Some c' ∧ snap_ok c'.
Proof.
  intros Hw. revert c. induction Hw as [|call calls Hcall _ IH]; intros c Hc; [by exists c|].
  unfold run_checks. cbn [foldl]. destruct (Check_ok call.1 call.2 c Hcall Hc) as (c' & -> & Hc' & _). by apply IH.
Qed.

(** The pre-check rejects only what the chain rejects.  After any
    sequence of checks over a chain source that answers for the tips it
    reports, with any of its calls failing, a transaction is refused only when
    it is not final under BIP113: either at the height and median-time-past of
    one and the same tip, reported now or fetched less than the cache's
    lifetime ago, or, for a height lock, at the height source's tip; and with
    no source at all nothing is refused.  *)
Theorem Check_rejects_only_nonfinal (calls : list (Chain * Transaction)) w tx hasR hasH lifetime r :
  Forall (fun call => consistent call.1) calls -> consistent w ->
  (Check w tx (run_checks calls (NewChecker hasR hasH lifetime))).1 = Some r ->
  ∃ c, run_checks calls (NewChecker hasR hasH lifetime) = Some c ∧ (∃ e, r = ErrNotFinal e) ∧
    ((∃ hash, usable w c hash ∧ ¬ final_at tx (uint32 ((facts hash).1 + 1)) (facts hash).2) ∨
     (∃ height, GetActiveTipBlockHeight w = Ok height ∧ height ≠ 0%Z ∧
        (LockTime tx < lockTimeThreshold)%Z ∧ ¬ final_at tx (nextHeightU32 height) 0)).
Proof.
  intros Hcalls Hw Er. unfold NewChecker in *. destruct (negb hasR && negb hasH).
  { exfalso. assert (run_checks calls None = None) as E by (clear; induction calls; [done|by cbn]).
    rewrite E in Er. done. }
  destruct (run_checks_ok calls (mkChecker hasR hasH lifetime emptySnapshot 0) Hcalls) as (c & Ec & Hc); [by intros []|].
  rewrite Ec in Er. exists c. split; [done|]. destruct (Check_ok w tx c Hw Hc) as (_ & _ & _ & Hr). by apply Hr.
Qed.

(** When the chain source is reachable the shortcut and the cache do not
    change the verdict: on a stale cache, a transaction with an input gets
    exactly what [IsTransactionFinal] says at the reported tip. *)
Theorem Check_equiv_direct w tx c hash height headers :
  consistent w -> snap_ok c -> hasReader c = true -> Inputs tx ≠ [] -> isFresh w c = false ->
  GetTip w = Some (hash, height) ->
  GetHeaders w (headerWindow height).1 (headerWindow height).2 = Ok headers ->
  omap id headers ≠ [] -> (facts hash).2 ≠ 0%Z ->
  (Check w tx (Some c)).1 = IsTransactionFinal tx (uint32 ((facts hash).1 + 1)) (facts hash).2.
Proof.
  intros Hw Hc Hr Hi Hf Ht Hg Hn Hz. unfold Check. destruct (lockTimeIrrelevant tx) eqn:Ei.
  { symmetry. apply final_None; [done|]. by apply irrelevant_true. }
  rewrite Hr. destruct (Hw hash height Ht) as [Hh Hmed]. specialize (Hmed headers Hg Hn).
  unfold chainState. rewrite Hf, Ht.
  destruct (String.eqb hash (tipHash (snap c)) && negb (IsZero (fetchedAt (snap c)))) eqn:Ec.
  - apply andb_true_iff in Ec as [Eh%String.eqb_eq Ez]. subst hash.
    assert (fetchedAt (snap c) ≠ None) as Hs by (by destruct (fetchedAt (snap c))).
    specialize (Hc Hs). by rewrite <-Hc.
  - destruct (headerWindow height) as [st cnt]. simpl in Hg. rewrite Hg.
    destruct headers as [|x headers]; [done|]. cbn [length Nat.eqb].
    destruct (Nat.eqb_spec (length (omap id (x :: headers))) 0) as [E|_]; [by apply nil_length_inv in E|].
    rewrite Hmed, (proj2 (Z.eqb_neq _ _) Hz). by rewrite Hh.
Qed.
End Cache.

Section FinalityWitnesses.

Definition wTx : Transaction := mkTransaction [0%Z; 4294967295%Z] 150.
Definition wFacts (hash : string) : Z * Z := if String.eqb hash "tip" then (100%Z, 2000%Z) else (0%Z, 0%Z).
Definition wChain : Chain :=
  mkChain 50 60 (Some ("tip", 100%Z)) (fun _ _ => Ok [Some 1990%Z; None; Some 2010%Z; Some 2000%Z]) (Err ErrIO).

Lemma wChain_ok : consistent wFacts wChain.
Proof.
  intros hash height [= <- <-]. split; [reflexivity|]. intros headers [= <-] _. vm_compute. reflexivity.
Qed.

Lemma IsTransactionFinal_exact_witness :
  IsTransactionFinal wTx 101 2000 = Some (ErrNotFinal (mkNotFinalError 150 true 101 2000)) ∧
  final_at wTx (101 + 50) 2000 ∧ ¬ final_at wTx (101 + 49) 2000.
Proof.
  assert (IsTransactionFinal wTx 101 2000 = Some (ErrNotFinal (mkNotFinalError 150 true 101 2000))) as E
    by (vm_compute; reflexivity).
  destruct (IsTransactionFinal_exact wTx 101 2000) as (_ & _ & H); [unfold is_u32; cbn; lia..|].
  destruct (H _ E) as [_ Hn]. split; [exact E|]. split.
  - apply (Hn 50%Z); [lia|]. vm_compute. discriminate.
  - intros Hf. apply (Hn 49%Z) in Hf; [|lia]. vm_compute in Hf. apply Hf. reflexivity.
Defined.

(** Two checks against the same tip, the second from the cache. *)
Lemma Check_rejects_only_nonfinal_witness :
  ∃ c, run_checks [(wChain, wTx)] (NewChecker true false 1000) = Some c ∧
    ∃ hash, usable wChain c hash ∧ ¬ final_at wTx (uint32 ((wFacts hash).1 + 1)) (wFacts hash).2.
Proof.
  destruct (Check_rejects_only_nonfinal wFacts [(wChain, wTx)] wChain wTx true false 1000
    (ErrNotFinal (mkNotFinalError 150 true 101 2000))) as (c & Ec & _ & H).
  - constructor; [exact wChain_ok|constructor].
  - exact wChain_ok.
  - vm_compute. reflexivity.
  - exists c. split; [exact Ec|]. destruct H as [H|(height & E & _)]; [exact H|discriminate E].
Defined.

Lemma Check_equiv_direct_witness :
  (Check wChain wTx (NewChecker true false 1000)).1 = IsTransactionFinal wTx 101 2000.
Proof.
  apply (Check_equiv_direct wFacts wChain wTx (mkChecker true false 1000 emptySnapshot 0) "tip" 100
    [Some 1990%Z; None; Some 2010%Z; Some 2000%Z]);
    [exact wChain_ok|intros H; contradiction|reflexivity|discriminate|reflexivity|reflexivity|reflexivity
    |discriminate|discriminate].
Defined.
End FinalityWitnesses.
