(* ===== verification/Verdicts.v ===== *)
(** * Verdicts: what the peers' answers say about each transaction

    Models the reading of Teranode failure lines and the aggregation of the
    peers' responses in [src/services/propagation/propagator.go]: everything
    of [broadcastBatchToEndpoints] that is not a call.  The responses are a
    list in their order of arrival.  Scores and status codes are small, so
    integers are plain.  The parser of raw transactions is that of go-sdk and
    is a parameter ([TxParser]); a Go [range] over a map visits it in an
    unspecified order, which [MapOrder] gives. *)
From stdpp Require Import base gmap strings list pretty.
From Stdlib Require Import Ascii ZArith Lia.
From Stdlib Require Import Strings.Byte.
From S2P Require Import Prelude Models GoStrings Teranode Offsets Dispatcher Chunking.
Import Txs.

(** [sdkTx.NewTransactionFromBytes]: the source txid (as its string) and the
    output index of each input; [None] for an input without a source, and for
    bytes that do not parse. *)
Class TxParser : Type := txInputs : list byte -> option (list (option (string * Z))).

Class MapOrder : Type := {
  mapRange {K V} `{Countable K} : gmap K V -> list (K * V);
  mapRange_perm {K V} `{Countable K} (m : gmap K V) : mapRange m ≡ₚ map_to_list m
}.

(** ** Reading one failure line *)

Definition isCodeStart (c : ascii) : bool := isUpper c.
Definition isCodeChar (c : ascii) : bool := isUpper c || isDigit c || Ascii.eqb c "_".

(** [[A-Z][A-Z0-9_]* \(\d+\)] *)
Definition teranodeNamedCode : Matcher :=
  mSeq (mClass isCodeStart) (mSeq (mStar isCodeChar) (mSeq (mLit " (") (mSeq (mClass isDigit) (mSeq (mStar isDigit) (mLit ")"))))).

(** [[0-9a-fA-F]{64}:[0-9]{1,10}] *)
Definition outpointRefPattern : Matcher :=
  mSeq (mTimes 64 (mClass isHex)) (mSeq (mLit ":") (mSeq (mClass isDigit) (mUpTo 9 isDigit))).

(** A letter under [(?i)]; the fold of s has a third member, U+017F. *)
Definition mFold (c : ascii) : Matcher := fun s =>
  match mClass (fun d => Ascii.eqb (lowerAscii d) c) s with
  | Some r => Some r
  | None => if Ascii.eqb c "s" then mLit (bytesOf [197; 191]%nat) s else None
  end.
Fixpoint mLitFold (lit : string) : Matcher := fun s =>
  match lit with
  | EmptyString => Some ("", s)
  | String c lit => mSeq (mFold c) (mLitFold lit) s
  end.

(** [(?i)already spent by tx ([0-9a-f]{64})] *)
Definition competingSpenderPattern : Matcher := mSeq (mLitFold "already spent by tx ") (mTimes 64 (mClass isHex)).

Definition before (sep s : string) : string := (Cut s sep).1.1.
Definition found (sep s : string) : bool := (Cut s sep).2.

Definition namedCodes (line : string) : list string := List.map (before " (") (FindAllString teranodeNamedCode line).

Definition lineIsMissingParentCondition (line : string) : bool :=
  Contains line "TX_MISSING_PARENT (" || Contains line "TX_NOT_FOUND (".

Definition lineHasNestedTeranodeVerdict (line : string) : bool :=
  existsb (fun name => negb (String.eqb name "PROCESSING")) (namedCodes line).

Definition lineIsOpaqueProcessing (line : string) : bool :=
  Contains line "PROCESSING (" && negb (lineHasNestedTeranodeVerdict line).

Definition lineIsInfraCondition (line : string) : bool :=
  if found " (" line
  then existsb (String.eqb (before " (" line)) ["STORAGE_ERROR"; "SERVICE_ERROR"; "ERROR"]
  else false.

Definition oneOf (name : string) (l : list string) : bool := existsb (String.eqb name) l.

Definition codeNameScore (name : string) : Z :=
  if oneOf name ["UTXO_SPENT"; "TX_INVALID_DOUBLE_SPEND"; "TX_CONFLICTING"] then 40
  else if oneOf name ["TX_INVALID"; "TX_POLICY"; "TX_LOCK_TIME"; "TX_MISSING_PARENT"; "TX_LOCKED";
                      "TX_COINBASE_IMMATURE"; "UTXO_FROZEN"; "UTXO_NON_FINAL"; "UTXO_INVALID_SIZE"; "INVALID_ARGUMENT"] then 30
  else if oneOf name ["PROCESSING"] then 20
  else 25.

Definition rejectionLineScore (line : string) : Z :=
  let best := foldl (fun best name => Z.max best (codeNameScore name)) (-1)%Z (namedCodes line) in
  if (0 <=? best)%Z then best
  else if found " (" line then codeNameScore (before " (" line) else 0.

Definition verdictSpecificity (name : string) : Z :=
  if oneOf name ["UTXO_SPENT"; "TX_INVALID_DOUBLE_SPEND"; "TX_CONFLICTING"] then 50
  else if oneOf name ["TX_LOCKED"; "UTXO_FROZEN"; "TX_LOCK_TIME"; "UTXO_NON_FINAL"] then 40
  else if oneOf name ["TX_INVALID"] then 30
  else if oneOf name ["PROCESSING"] then 10
  else if (codeNameScore name =? 30)%Z then 20 else 15.

Definition verdictCodeName (line : string) : option string :=
  let '(name, best) :=
    foldl (fun '(name, best) candidate =>
             let rank := verdictSpecificity candidate in
             if (best <? rank)%Z then (candidate, rank) else (name, best)) ("", (-1)%Z) (namedCodes line) in
  if (0 <=? best)%Z then Some name
  else if found " (" line then Some (before " (" line) else None.

Definition StatusConflict : Z := 466.
Definition StatusGeneric : Z := 467.
Definition StatusFrozenPolicy : Z := 471.
Definition StatusNotFinal : Z := 476.

Definition retryableSuffix : string :=
  " — retryable: the transaction is not final against this peer's chain view; resubmit after the locktime expires".
Definition forbiddenSuffix : string :=
  (" — the peer answered HTTP 403 (forbidden): the transaction spends a frozen or " ++
   "administratively blocked utxo. The peer's error boundary does not surface the frozen-utxo " ++
   "code itself, so this status is the whole of the available detail.")%string.

Definition classifyFailureLine (line : string) (httpStatus : Z) : string * Z :=
  match verdictCodeName line with
  | None => (line, 0%Z)
  | Some name =>
      if oneOf name ["TX_LOCK_TIME"; "UTXO_NON_FINAL"] then ((line ++ retryableSuffix)%string, StatusNotFinal)
      else if oneOf name ["TX_CONFLICTING"; "UTXO_SPENT"; "TX_INVALID_DOUBLE_SPEND"; "TX_LOCKED"] then (line, StatusConflict)
      else if oneOf name ["TX_INVALID"] then (line, StatusGeneric)
      else if oneOf name ["UTXO_FROZEN"] then (line, StatusFrozenPolicy)
      else if oneOf name ["PROCESSING"] then
        if (httpStatus =? 403)%Z then ((line ++ forbiddenSuffix)%string, StatusFrozenPolicy) else (line, 0%Z)
      else (line, 0%Z)
  end.

Definition competingSpenders (line : string) : list string :=
  foldl (fun out m =>
           let txid := ToLower (String.substring (String.length m - 64) 64 m) in
           if oneOf txid out then out else out ++ [txid]) [] (FindAllString competingSpenderPattern line).

Definition preferRejectionLine (current candidate : string) : string :=
  if String.eqb candidate "" then current
  else if String.eqb current "" then candidate
  else
    let cand := rejectionLineScore candidate in
    let cur := rejectionLineScore current in
    if (cur <? cand)%Z then candidate
    else if (cand =? cur)%Z && (0 <? length (competingSpenders candidate))%nat
              && (length (competingSpenders current) =? 0)%nat then candidate
    else current.

(** ** Placing lines on transactions *)

Definition lowerTxids (batch : list propagationMsg) : list string := List.map (fun m => ToLower (TXID m)) batch.
Definition inBatch (batch : list propagationMsg) (key : string) : bool := bool_decide (key ∈ lowerTxids batch).

Section Placing.
Context `{TxParser} `{MapOrder}.

Definition alienFailureLines (failures : gmap string string) (batch : list propagationMsg) : nat * string :=
  foldl (fun '(count, best) '(key, line) =>
           if negb (inBatch batch key) then (S count, preferRejectionLine best line) else (count, best))
    (0%nat, "") (mapRange failures).

Definition outpointOwnerAmbiguous : Z := -1.

Definition outpointKey (txid : string) (vout : Z) : string := (ToLower txid ++ ":" ++ pretty vout)%string.

(** The inputs of the transaction at index [i]. *)
Definition ownInput (i : nat) (owners : gmap string Z) (input : option (string * Z)) : gmap string Z :=
  match input with
  | None => owners
  | Some (txid, vout) =>
      let key := outpointKey txid vout in
      match owners !! key with
      | Some prev => if (prev =? Z.of_nat i)%Z then <[key := Z.of_nat i]> owners else <[key := outpointOwnerAmbiguous]> owners
      | None => <[key := Z.of_nat i]> owners
      end
  end.

Definition ownMsg (owners : gmap string Z) (im : nat * propagationMsg) : gmap string Z :=
  match txInputs (RawTx im.2) with
  | None => owners
  | Some ins => foldl (ownInput im.1) owners ins
  end.

Definition buildSubmittedOutpointIndex (batch : list propagationMsg) : gmap string Z :=
  foldl ownMsg ∅ (imap pair batch).

(** The references of the line, one after the other; [found] is [-1] until one
    belongs to a submitted transaction, and [None] is the refusal to choose
    between two. *)
Definition attributeRef (owners : gmap string Z) (found : option Z) (ref : string) : option Z :=
  match found with
  | None => None
  | Some found =>
      match owners !! ToLower ref with
      | None => Some found
      | Some idx =>
          if (idx =? outpointOwnerAmbiguous)%Z then Some found
          else if (0 <=? found)%Z && negb (found =? idx)%Z then None
          else Some idx
      end
  end.

Definition attributeOneConflictLine (line : string) (owners : gmap string Z) : option nat :=
  match foldl (attributeRef owners) (Some (-1)%Z) (FindAllString outpointRefPattern line) with
  | None => None
  | Some found => if (found <? 0)%Z then None else Some (Z.to_nat found)
  end.

Definition attributeKey (failures : gmap string string) (owners : gmap string Z) (attributed : gmap nat string) (key : string)
  : gmap nat string :=
  let line := default "" (failures !! key) in
  match attributeOneConflictLine line owners with
  | None => attributed
  | Some idx => <[idx := preferRejectionLine (default "" (attributed !! idx)) line]> attributed
  end.

Definition attributeConflictLines (failures : gmap string string) (batch : list propagationMsg) (owners : gmap string Z)
  : gmap nat string :=
  if (size failures =? 0)%nat || (size owners =? 0)%nat then ∅
  else
    let keys := List.map fst (List.filter (fun kl => negb (inBatch batch kl.1)) (mapRange failures)) in
    foldl (attributeKey failures owners) ∅ (sortStrings keys).

Definition bestUnplaceableLine (bestAlien : string) (unkeyed : list string) : string :=
  foldl preferRejectionLine bestAlien unkeyed.
End Placing.

(** ** Votes *)

(** One entry of the parallel slices [acceptedByAny], [rejectionLine],
    [rejectionStatus], [missingParentLine] and [infraLine]. *)
Record vote : Type := mkVote {
  acceptedByAny : bool;
  rejectionLine : string;
  rejectionStatus : Z;
  missingParentLine : string;
  infraLine : string
}.
Definition noVote : vote := mkVote false "" 0 "" "".

Definition accept (v : vote) : vote :=
  mkVote true (rejectionLine v) (rejectionStatus v) (missingParentLine v) (infraLine v).

Inductive bucket : Type := bMissingParent | bInfra | bRejection.

(** The [switch] of [route]. *)
Definition bucketOf (line : string) (statusHint : Z) : bucket :=
  if lineIsMissingParentCondition line || ((statusHint =? 422)%Z && lineIsOpaqueProcessing line) then bMissingParent
  else if lineIsInfraCondition line || ((500 <=? statusHint)%Z && lineIsOpaqueProcessing line)
            || ((statusHint =? 0)%Z && lineIsOpaqueProcessing line) then bInfra
  else bRejection.

Definition routeVote (line : string) (statusHint : Z) (v : vote) : vote :=
  match bucketOf line statusHint with
  | bMissingParent =>
      mkVote (acceptedByAny v) (rejectionLine v) (rejectionStatus v) (preferRejectionLine (missingParentLine v) line) (infraLine v)
  | bInfra =>
      mkVote (acceptedByAny v) (rejectionLine v) (rejectionStatus v) (missingParentLine v) (preferRejectionLine (infraLine v) line)
  | bRejection =>
      let kept := preferRejectionLine (rejectionLine v) line in
      mkVote (acceptedByAny v) kept (if String.eqb kept line then statusHint else rejectionStatus v)
        (missingParentLine v) (infraLine v)
  end.

Definition route (idx : nat) (line : string) (statusHint : Z) (votes : list vote) : list vote :=
  alter (routeVote line statusHint) idx votes.

Record endpointOutcome : Type := mkEndpointOutcome {
  eo_endpoint : string;
  eo_statusCode : Z;
  eo_shapeRejected : bool
}.

Record broadcastJobResult : Type := mkBroadcastJobResult {
  jr_endpoint : string;
  jr_statusCode : Z;
  jr_failures : option TxsFailures;
  jr_err : option submitErr
}.

(** A result, and whether the broadcast context was done when it was taken
    from the channel. *)
Record arrival : Type := mkArrival {
  ar_result : broadcastJobResult;
  ar_ctxDone : bool
}.

Definition isCanceledByBroadcast (ctxDone : bool) (err : option submitErr) : bool :=
  match err with
  | None => false
  | Some e => ctxDone && se_canceled e
  end.

(** The locals of [broadcastBatchToEndpoints] the responses are gathered in. *)
Record tally : Type := mkTally {
  votes : list vote;
  needsNarrowing : bool;
  anySuccess : bool;
  successEndpoint : string;
  sizeRejected : bool;
  sizeReason : string;
  outcomes : list endpointOutcome
}.

Definition emptyTally (batch : list propagationMsg) : tally :=
  mkTally (replicate (length batch) noVote) false false "" false "" [].

Section Counting.
Context `{TxParser} `{MapOrder}.
Variable batch : list propagationMsg.
Variable chunkBytes : Z.

Definition statusHintOf (r : broadcastJobResult) : Z :=
  if (Len (jr_failures r) =? 1)%nat then jr_statusCode r else 0%Z.

Definition attributedOf (failures : gmap string string) : gmap nat string :=
  if (0 <? (alienFailureLines failures batch).1)%nat
  then attributeConflictLines failures batch (buildSubmittedOutpointIndex batch) else ∅.

Definition unplaceableOf (f : option TxsFailures) : nat :=
  ((alienFailureLines (Keyed f) batch).1 - size (attributedOf (Keyed f)) +
   length (match f with None => [] | Some f => Unkeyed f end))%nat.

(** [for j, lower := range lowerTxids] *)
Definition voteKeyed (keyed : gmap string string) (attributed : gmap nat string) (unplaceable : nat) (statusHint : Z)
    (votes : list vote) (jl : nat * string) : list vote :=
  match keyed !! jl.2 with
  | Some line => route jl.1 line statusHint votes
  | None =>
      if bool_decide (attributed !! jl.1 = None) && (unplaceable =? 0)%nat then alter accept jl.1 votes else votes
  end.

Definition voteFailures (r : broadcastJobResult) (vs : list vote) : list vote :=
  let keyed := Keyed (jr_failures r) in
  let unkeyed := match jr_failures r with None => [] | Some f => Unkeyed f end in
  let hint := statusHintOf r in
  let attributed := attributedOf keyed in
  let unplaceable := unplaceableOf (jr_failures r) in
  let vs := foldl (voteKeyed keyed attributed unplaceable hint) vs (imap pair (lowerTxids batch)) in
  let vs := foldl (fun vs '(idx, line) => route idx line hint vs) vs (mapRange attributed) in
  if (0 <? unplaceable)%nat && (length batch =? 1)%nat
  then route 0 (bestUnplaceableLine (alienFailureLines keyed batch).2 unkeyed) hint vs else vs.

(** One round of [for i := 0; i < submitted; i++]. *)
Definition collect (t : tally) (a : arrival) : tally :=
  let r := ar_result a in
  if isCanceledByBroadcast (ar_ctxDone a) (jr_err r) then t
  else
    let shapeRejected := match jr_err r with Some e => se_tooLarge e | None => false end in
    let outs := outcomes t ++ [mkEndpointOutcome (jr_endpoint r) (jr_statusCode r) shapeRejected] in
    match jr_err r with
    | None =>
        mkTally (List.map accept (votes t)) (needsNarrowing t) true
          (if anySuccess t then successEndpoint t else jr_endpoint r) (sizeRejected t) (sizeReason t) outs
    | Some e =>
        if shapeRejected then
          mkTally (votes t) (needsNarrowing t) (anySuccess t) (successEndpoint t) true
            ("teranode rejected the batch as submitted (" ++ pretty (Z.of_nat (length batch)) ++ " txs, " ++
             pretty chunkBytes ++ " bytes): " ++ se_text e) outs
        else if (Len (jr_failures r) =? 0)%nat then
          mkTally (votes t) (needsNarrowing t) (anySuccess t) (successEndpoint t) (sizeRejected t) (sizeReason t) outs
        else
          mkTally (voteFailures r (votes t)) (needsNarrowing t || (0 <? unplaceableOf (jr_failures r))%nat)
            (anySuccess t) (successEndpoint t) (sizeRejected t) (sizeReason t) outs
    end.

(** [if sizeRejected], after the loop. *)
Definition unvoted (v : vote) : bool :=
  negb (acceptedByAny v || negb (String.eqb (rejectionLine v) "") || negb (String.eqb (missingParentLine v) "")
        || negb (String.eqb (infraLine v) "")).
Definition settleSize (t : tally) : tally :=
  if sizeRejected t then
    mkTally (List.map (fun v => if unvoted v
                                then mkVote (acceptedByAny v) (rejectionLine v) (rejectionStatus v) (missingParentLine v) (sizeReason t)
                                else v) (votes t))
      (needsNarrowing t || existsb unvoted (votes t)) (anySuccess t) (successEndpoint t) (sizeRejected t) (sizeReason t) (outcomes t)
  else t.

Inductive txResultClass : Type :=
| txResultClassUnknown
| txResultClassAccepted
| txResultClassRejected
| txResultClassRequeue
| txResultClassMissingParent.

Record txResult : Type := mkTxResult {
  class : txResultClass;
  status : option TransactionStatus;
  errMsg : string;
  rawTx : list byte;
  tr_successEndpoint : string
}.

(** [&models.TransactionStatus] with these fields set. *)
Definition statusRow (txid : string) (st : Status) (code : Z) (ts : Time) (info : string) (competing : list string)
  : TransactionStatus :=
  mkTransactionStatus txid st code ts [] "" 0 [] info competing [] 0 None None [] None.

Definition resultOf (now : Time) (success : string) (msg : propagationMsg) (v : vote) : txResult :=
  if acceptedByAny v then
    mkTxResult txResultClassAccepted (Some (statusRow (TXID msg) StatusAcceptedByNetwork 0 now "" [])) "" (RawTx msg) success
  else if negb (String.eqb (rejectionLine v) "") then
    let '(errMsg, arcCode) := classifyFailureLine (rejectionLine v) (rejectionStatus v) in
    let competing := if (arcCode =? StatusConflict)%Z then competingSpenders (rejectionLine v) else [] in
    mkTxResult txResultClassRejected (Some (statusRow (TXID msg) StatusRejected arcCode now errMsg competing)) errMsg (RawTx msg) ""
  else if negb (String.eqb (missingParentLine v) "") then
    mkTxResult txResultClassMissingParent None (missingParentLine v) (RawTx msg) ""
  else if negb (String.eqb (infraLine v) "") then
    mkTxResult txResultClassRequeue None (infraLine v) (RawTx msg) ""
  else mkTxResult txResultClassRequeue None "" (RawTx msg) "".

Definition makeRequeueResults : list txResult :=
  List.map (fun msg => mkTxResult txResultClassRequeue None "" (RawTx msg) "") batch.

(** The tally after all responses, and the results. *)
Definition tallyOf (arrivals : list arrival) : tally := settleSize (foldl collect (emptyTally batch) arrivals).
Definition resultsOf (now : Time) (arrivals : list arrival) : list txResult :=
  let t := tallyOf arrivals in zip_with (resultOf now (successEndpoint t)) batch (votes t).
End Counting.
