(* ===== verification/VerdictsProps.v ===== *)
(** * VerdictsProps: the verdict of a chunk, against a reference definition

    [broadcastBatchToEndpoints] gathers the responses in mutable slices as
    they arrive.  The reference says, for one transaction and one response,
    whether the response vouches for the transaction ([accepts]) and which
    lines it puts on it ([linesFor]); the verdict is a function of these. *)
From stdpp Require Import base gmap strings list pretty.
From Stdlib Require Import Ascii ZArith Lia.
From Stdlib Require Import Strings.Byte.
From S2P Require Import Prelude Models GoStrings Teranode Offsets Dispatcher Chunking Verdicts.
Import Txs.

(** ** Updates by index *)

Section Alters.
Context {A B : Type} (g : nat * B -> A -> A).

Definition alters (vs : list A) (ps : list (nat * B)) : list A := foldl (fun vs p => alter (g p) p.1 vs) vs ps.

Lemma alters_lookup vs ps i :
  alters vs ps !! i = (fun v => foldl (fun v p => if decide (p.1 = i) then g p v else v) v ps) <$> vs !! i.
Proof.
  revert vs. induction ps as [|p ps IH]; intros vs; [unfold alters; cbn; by destruct (vs !! i)|].
  unfold alters in *. cbn [foldl]. rewrite IH. destruct (decide (p.1 = i)) as [<-|Hd].
  - rewrite list_lookup_alter_eq. by destruct (vs !! p.1).
  - by rewrite list_lookup_alter_ne.
Qed.

Lemma alters_other v ps i : (∀ x, (i, x) ∉ ps) -> foldl (fun v p => if decide (p.1 = i) then g p v else v) v ps = v.
Proof.
  revert v. induction ps as [|[j x] ps IH]; intros v Hn; [done|]. cbn [foldl]. rewrite decide_False.
  - apply IH. intros y Hy. eapply Hn. right. exact Hy.
  - cbn. intros ->. eapply Hn. by left.
Qed.

Lemma alters_once v ps i x :
  NoDup ps.*1 -> (i, x) ∈ ps -> foldl (fun v p => if decide (p.1 = i) then g p v else v) v ps = g (i, x) v.
Proof.
  revert v. induction ps as [|[j y] ps IH]; intros v Hnd Hx; [by apply elem_of_nil in Hx|].
  apply NoDup_cons in Hnd as [Hj Hnd]. cbn [foldl]. apply elem_of_cons in Hx as [[= <- <-]|Hx].
  - rewrite decide_True by done. apply alters_other. intros z Hz. apply Hj, list_elem_of_fmap. by exists (i, z).
  - rewrite decide_False; [by apply IH|]. cbn. intros ->. apply Hj, list_elem_of_fmap. by exists (i, x).
Qed.

Lemma alters_length vs ps : length (alters vs ps) = length vs.
Proof. revert vs. induction ps as [|p ps IH]; intros vs; [done|]. unfold alters in *. cbn [foldl]. by rewrite IH, length_alter. Qed.
End Alters.

Lemma imap_pair_fst {A} (l : list A) : (imap pair l).*1 = seq 0 (length l).
Proof.
  apply list_eq. intros i. rewrite list_lookup_fmap, list_lookup_imap.
  destruct (l !! i) as [x|] eqn:E; cbn.
  - symmetry. apply lookup_seq. split; [lia|]. by apply lookup_lt_Some in E.
  - symmetry. apply lookup_seq_ge. by apply lookup_ge_None in E.
Qed.

Lemma imap_pair_elem {A} (l : list A) i x : (i, x) ∈ imap pair l ↔ l !! i = Some x.
Proof. rewrite elem_of_lookup_imap. split; [by intros (j & y & [= -> ->] & ?)|]. intros H. by exists i, x. Qed.

(** ** The better line *)

Lemma prefer_cases c l : preferRejectionLine c l = c ∨ preferRejectionLine c l = l.
Proof. unfold preferRejectionLine. repeat case_match; auto. Qed.

Lemma prefer_empty c l : preferRejectionLine c l = "" ↔ c = "" ∧ l = "".
Proof.
  unfold preferRejectionLine. destruct (String.eqb_spec l "") as [->|Hl]; [split; [done|by intros [??]]|].
  destruct (String.eqb_spec c "") as [->|Hc]; [split; [done|by intros [??]]|].
  split; [|by intros [??]]. repeat case_match; done.
Qed.

(** The line kept from a list. *)
Definition best (ls : list string) : string := foldl preferRejectionLine "" ls.

Lemma best_snoc ls l : best (ls ++ [l]) = preferRejectionLine (best ls) l.
Proof. unfold best. by rewrite foldl_app. Qed.

Lemma best_empty ls : best ls = "" ↔ ∀ l, l ∈ ls -> l = "".
Proof.
  induction ls as [|l ls IH] using rev_ind; [split; [by intros _ l ?%elem_of_nil|done]|].
  rewrite best_snoc, prefer_empty, IH. split.
  - intros [H ->] x [Hx| ->%list_elem_of_singleton]%elem_of_app; auto.
  - intros H. split; [intros x Hx|]; apply H, elem_of_app; [by left|right; by apply list_elem_of_singleton].
Qed.

Lemma best_in ls : best ls ≠ "" -> best ls ∈ ls.
Proof.
  induction ls as [|l ls IH] using rev_ind; [done|]. rewrite best_snoc, elem_of_app, list_elem_of_singleton.
  destruct (prefer_cases (best ls) l) as [->| ->]; [|by right]. intros Hn. left. auto.
Qed.

Lemma prefer_score c l :
  (c = "" ∨ (rejectionLineScore c <= rejectionLineScore (preferRejectionLine c l))%Z)
  ∧ (l = "" ∨ (rejectionLineScore l <= rejectionLineScore (preferRejectionLine c l))%Z).
Proof.
  unfold preferRejectionLine. destruct (String.eqb_spec l "") as [->|Hl]; [split; [right; lia|by left]|].
  destruct (String.eqb_spec c "") as [->|Hc]; [split; [by left|right; lia]|].
  destruct (Z.ltb_spec (rejectionLineScore c) (rejectionLineScore l)); [split; right; lia|].
  destruct (Z.eqb_spec (rejectionLineScore l) (rejectionLineScore c)); cbn; [|split; right; lia].
  repeat case_match; split; right; lia.
Qed.

Lemma best_score ls l : l ∈ ls -> l ≠ "" -> (rejectionLineScore l <= rejectionLineScore (best ls))%Z.
Proof.
  induction ls as [|x ls IH] using rev_ind; intros Hl Hn; [by apply elem_of_nil in Hl|].
  rewrite best_snoc. destruct (prefer_score (best ls) x) as [H1 H2].
  apply elem_of_app in Hl as [Hl| ->%list_elem_of_singleton]; [|by destruct H2].
  specialize (IH Hl Hn). destruct H1 as [H1|H1]; [|lia]. exfalso. apply Hn. by apply (proj1 (best_empty ls) H1).
Qed.

(** ** The reference *)

Section Reference.
Context `{TxParser} `{MapOrder}.
Variable batch : list propagationMsg.
Variable chunkBytes : Z.

Definition live (a : arrival) : bool := negb (isCanceledByBroadcast (ar_ctxDone a) (jr_err (ar_result a))).
Definition shaped (a : arrival) : bool := match jr_err (ar_result a) with Some e => se_tooLarge e | None => false end.

(** The response carries a failure list. *)
Definition lists (a : arrival) : bool :=
  live a && bool_decide (jr_err (ar_result a) ≠ None) && negb (shaped a) && negb (Len (jr_failures (ar_result a)) =? 0)%nat.

Definition keyedLine (a : arrival) (i : nat) : option string :=
  lowerTxids batch !! i ≫= fun lower => Keyed (jr_failures (ar_result a)) !! lower.
Definition attributedLine (a : arrival) (i : nat) : option string := attributedOf batch (Keyed (jr_failures (ar_result a))) !! i.
Definition unplaced (a : arrival) : nat := unplaceableOf batch (jr_failures (ar_result a)).
Definition unplacedLine (a : arrival) : string :=
  bestUnplaceableLine (alienFailureLines (Keyed (jr_failures (ar_result a))) batch).2
    (match jr_failures (ar_result a) with None => [] | Some f => Unkeyed f end).

(** The response vouches for the transaction. *)
Definition accepts (i : nat) (a : arrival) : bool :=
  live a && (bool_decide (jr_err (ar_result a) = None)
             || (lists a && bool_decide (keyedLine a i = None) && bool_decide (attributedLine a i = None) && (unplaced a =? 0)%nat)).

(** The lines of the response that are about the transaction. *)
Definition linesFor (i : nat) (a : arrival) : list string :=
  if lists a then
    option_list (keyedLine a i) ++ option_list (attributedLine a i) ++
    (if (0 <? unplaced a)%nat && (length batch =? 1)%nat && (i =? 0)%nat then [unplacedLine a] else [])
  else [].

Definition hintOf (a : arrival) : Z := statusHintOf (ar_result a).

(** All lines about the transaction that go to one bucket. *)
Definition evidence (b : bucket) (i : nat) (as_ : list arrival) : list string :=
  as_ ≫= fun a => List.filter (fun l => match bucketOf l (hintOf a), b with
                                        | bMissingParent, bMissingParent | bInfra, bInfra | bRejection, bRejection => true
                                        | _, _ => false
                                        end) (linesFor i a).

(** What one response does to the vote of a transaction. *)
Definition respond (i : nat) (v : vote) (a : arrival) : vote :=
  foldl (fun v l => routeVote l (hintOf a) v) (if accepts i a then accept v else v) (linesFor i a).

Lemma voteKeyed_alters keyed attributed unplaceable hint vs jl :
  voteKeyed keyed attributed unplaceable hint vs jl =
    alter (fun v => match keyed !! jl.2 with
                    | Some line => routeVote line hint v
                    | None => if bool_decide (attributed !! jl.1 = None) && (unplaceable =? 0)%nat then accept v else v
                    end) jl.1 vs.
Proof.
  unfold voteKeyed, route. destruct (keyed !! jl.2); [done|].
  destruct (bool_decide _ && _); [done|]. symmetry. by apply list_alter_id.
Qed.

Lemma foldl_ext_eq {A B} (f g : A -> B -> A) a l : (∀ a b, f a b = g a b) -> foldl f a l = foldl g a l.
Proof. intros Hfg. revert a. induction l as [|x l IH]; intros a; cbn [foldl]; [done|]. by rewrite Hfg, IH. Qed.

Lemma voteFailures_lookup a vs i v :
  lists a = true -> (i < length batch)%nat -> vs !! i = Some v ->
  voteFailures batch (ar_result a) vs !! i = Some (respond i v a).
Proof.
  intros Hl Hi Hv. unfold voteFailures. destruct (lookup_lt_is_Some_2 (lowerTxids batch) i) as [lower Elow].
  { unfold lowerTxids. by rewrite length_map. }
  set (keyed := Keyed _). set (hint := statusHintOf _). set (attributed := attributedOf batch keyed). set (un := unplaceableOf batch _).
  assert (foldl (voteKeyed keyed attributed un hint) vs (imap pair (lowerTxids batch)) !! i
    = Some (match keyed !! lower with Some line => routeVote line hint v
            | None => if bool_decide (attributed !! i = None) && (un =? 0)%nat then accept v else v end)) as E1.
  { rewrite (foldl_ext_eq _ _ _ _ (voteKeyed_alters keyed attributed un hint)).
    set (g := fun (jl : nat * string) v => match keyed !! jl.2 with Some line => routeVote line hint v
            | None => if bool_decide (attributed !! jl.1 = None) && (un =? 0)%nat then accept v else v end).
    change (alters g vs (imap pair (lowerTxids batch)) !! i = Some (g (i, lower) v)).
    rewrite alters_lookup, Hv. cbn. f_equal. apply alters_once; [rewrite imap_pair_fst; apply NoDup_seq|by apply imap_pair_elem]. }
  set (vs1 := foldl (voteKeyed _ _ _ _) vs _) in *. set (v1 := match keyed !! lower with Some _ => _ | None => _ end) in E1.
  assert (foldl (fun vs '(idx, line) => route idx line hint vs) vs1 (mapRange attributed) !! i
    = Some (match attributed !! i with Some line => routeVote line hint v1 | None => v1 end)) as E2.
  { rewrite (foldl_ext_eq _ (fun vs (p : nat * string) => alter (routeVote p.2 hint) p.1 vs)) by (by intros ? [??]).
    change (alters (fun p => routeVote p.2 hint) vs1 (mapRange attributed) !! i
      = Some (match attributed !! i with Some line => routeVote line hint v1 | None => v1 end)).
    rewrite alters_lookup, E1. cbn [fmap option_fmap option_map]. f_equal.
    pose proof (mapRange_perm attributed) as Hp. destruct (attributed !! i) as [line|] eqn:Ea.
    - apply (alters_once (fun p => routeVote p.2 hint) v1 _ i line).
      + rewrite Hp. apply NoDup_fst_map_to_list.
      + rewrite Hp. by apply elem_of_map_to_list.
    - apply alters_other. intros x. rewrite Hp, elem_of_map_to_list. congruence. }
  set (vs2 := foldl _ vs1 _) in *.
  unfold respond, linesFor, accepts, hintOf. rewrite Hl. fold hint.
  assert (live a = true ∧ bool_decide (jr_err (ar_result a) = None) = false) as [Hlive Herr].
  { unfold lists in Hl. rewrite !andb_true_iff in Hl. destruct Hl as [[[? He] _] _]. split; [done|].
    apply bool_decide_eq_true in He. by apply bool_decide_eq_false. }
  rewrite Hlive, Herr. cbn [andb orb]. unfold keyedLine, attributedLine, unplaced. rewrite Elow. cbn [mbind option_bind].
  fold keyed attributed un. rewrite !foldl_app.
  replace (foldl (fun v l => routeVote l hint v)
     (if bool_decide (keyed !! lower = None) && bool_decide (attributed !! i = None) && (un =? 0)%nat then accept v else v)
     (option_list (keyed !! lower))) with v1
    by (unfold v1; destruct (keyed !! lower); cbn; [done|]; by destruct (bool_decide _ && _)).
  replace (foldl (fun v l => routeVote l hint v) v1 (option_list (attributed !! i)))
    with (match attributed !! i with Some line => routeVote line hint v1 | None => v1 end) by (by destruct (attributed !! i)).
  destruct ((0 <? un)%nat && (length batch =? 1)%nat); cbn [andb]; [|exact E2].
  unfold route. destruct (Nat.eqb_spec i 0) as [->|Hne].
  - rewrite list_lookup_alter_eq, E2. done.
  - rewrite list_lookup_alter_ne by done. exact E2.
Qed.

Lemma silent_respond i v a :
  lists a = false -> live a = false ∨ jr_err (ar_result a) ≠ None -> respond i v a = v.
Proof.
  intros Hl Hs. unfold respond, linesFor, accepts. rewrite Hl. cbn [foldl andb orb].
  destruct Hs as [->|Hs]; [done|]. rewrite bool_decide_false by done. by rewrite andb_false_r.
Qed.

Lemma success_respond i v a : live a = true -> jr_err (ar_result a) = None -> respond i v a = accept v.
Proof. intros Hl He. unfold respond, linesFor, accepts, lists. by rewrite Hl, He. Qed.

Lemma voteFailures_length r vs : length (voteFailures batch r vs) = length vs.
Proof.
  unfold voteFailures.
  assert (∀ keyed attributed un hint vs, length (foldl (voteKeyed keyed attributed un hint) vs (imap pair (lowerTxids batch))) = length vs) as E1.
  { intros keyed attributed un hint vs0. rewrite (foldl_ext_eq _ _ _ _ (voteKeyed_alters keyed attributed un hint)).
    apply (alters_length (fun jl v => match keyed !! jl.2 with Some line => routeVote line hint v
            | None => if bool_decide (attributed !! jl.1 = None) && (un =? 0)%nat then accept v else v end)). }
  assert (∀ hint vs (l : list (nat * string)), length (foldl (fun vs '(idx, line) => route idx line hint vs) vs l) = length vs) as E2.
  { intros hint vs0 l. revert vs0. induction l as [|[idx line] l IH]; intros vs0; [done|]. cbn [foldl]. rewrite IH. apply length_alter. }
  match goal with |- context [if ?b then route _ _ _ _ else _] => destruct b end;
    [unfold route at 1; rewrite length_alter|]; by rewrite E2, E1.
Qed.

Lemma collect_votes t a :
  length (votes t) = length batch ->
  length (votes (collect batch chunkBytes t a)) = length batch
  ∧ ∀ i v, votes t !! i = Some v -> votes (collect batch chunkBytes t a) !! i = Some (respond i v a).
Proof.
  intros Hlen. unfold collect. destruct (isCanceledByBroadcast _ _) eqn:Ec.
  { assert (live a = false) as El by (unfold live; by rewrite Ec).
    split; [done|]. intros i v Hv. rewrite silent_respond; [done| |by left]. unfold lists. by rewrite El. }
  assert (live a = true) as El by (unfold live; by rewrite Ec).
  destruct (jr_err (ar_result a)) as [e|] eqn:Ee.
  - assert (jr_err (ar_result a) ≠ None) as He by congruence.
    destruct (se_tooLarge e) eqn:Et; [|destruct (Len (jr_failures (ar_result a)) =? 0)%nat eqn:E0]; cbn [votes].
    + split; [done|]. intros i v Hv. rewrite silent_respond; [done| |by right]. unfold lists, shaped. rewrite Ee, Et. cbn. by rewrite andb_false_r.
    + split; [done|]. intros i v Hv. rewrite silent_respond; [done| |by right]. unfold lists. by rewrite E0, andb_false_r.
    + split; [by rewrite voteFailures_length|]. intros i v Hv. apply voteFailures_lookup; [|rewrite <-Hlen; by apply lookup_lt_Some in Hv|done].
      unfold lists, shaped. by rewrite El, Ee, Et, E0.
  - cbn [votes]. split; [by rewrite length_map|]. intros i v Hv. rewrite success_respond by done.
    by rewrite list_lookup_fmap, Hv.
Qed.

Definition voteOn (i : nat) (as_ : list arrival) : vote := foldl (respond i) noVote as_.

Lemma collected_votes as_ :
  length (votes (foldl (collect batch chunkBytes) (emptyTally batch) as_)) = length batch
  ∧ ∀ i, (i < length batch)%nat -> votes (foldl (collect batch chunkBytes) (emptyTally batch) as_) !! i = Some (voteOn i as_).
Proof.
  induction as_ as [|a as_ [IH1 IH2]] using rev_ind.
  - cbn. split; [apply length_replicate|]. intros i Hi. by apply lookup_replicate_2.
  - rewrite foldl_app. cbn [foldl]. destruct (collect_votes _ a IH1) as [E1 E2]. split; [done|].
    intros i Hi. rewrite (E2 i _ (IH2 i Hi)). unfold voteOn. by rewrite foldl_app.
Qed.

(** The parts of a vote after some lines. *)
Definition inBucket (b : bucket) (h : Z) (l : string) : bool :=
  match bucketOf l h, b with
  | bMissingParent, bMissingParent | bInfra, bInfra | bRejection, bRejection => true
  | _, _ => false
  end.
Definition field (b : bucket) (v : vote) : string :=
  match b with bMissingParent => missingParentLine v | bInfra => infraLine v | bRejection => rejectionLine v end.

Lemma routes_field b h ls v :
  field b (foldl (fun v l => routeVote l h v) v ls) = foldl preferRejectionLine (field b v) (List.filter (inBucket b h) ls).
Proof.
  revert v. induction ls as [|l ls IH]; intros v; [done|]. cbn [foldl List.filter]. rewrite IH.
  unfold inBucket at 2, routeVote. destruct (bucketOf l h), b; done.
Qed.

Lemma routes_accepted h ls v : acceptedByAny (foldl (fun v l => routeVote l h v) v ls) = acceptedByAny v.
Proof.
  revert v. induction ls as [|l ls IH]; intros v; [done|]. cbn [foldl]. rewrite IH. unfold routeVote. by destruct (bucketOf l h).
Qed.

Lemma voteOn_accepted i as_ : acceptedByAny (voteOn i as_) = existsb (accepts i) as_.
Proof.
  induction as_ as [|a as_ IH] using rev_ind; [done|]. unfold voteOn. rewrite foldl_app, existsb_app. cbn [foldl existsb].
  unfold respond at 1. rewrite routes_accepted. fold (voteOn i as_). destruct (accepts i a); cbn; [by rewrite orb_true_r|].
  by rewrite IH, !orb_false_r.
Qed.

Lemma evidence_snoc b i as_ a : evidence b i (as_ ++ [a]) = evidence b i as_ ++ List.filter (inBucket b (hintOf a)) (linesFor i a).
Proof. unfold evidence. rewrite bind_app. cbn. by rewrite app_nil_r. Qed.

Lemma voteOn_field b i as_ : field b (voteOn i as_) = best (evidence b i as_).
Proof.
  induction as_ as [|a as_ IH] using rev_ind; [by destruct b|]. unfold voteOn. rewrite foldl_app. cbn [foldl]. fold (voteOn i as_).
  unfold respond at 1. rewrite routes_field, evidence_snoc. unfold best. rewrite foldl_app. fold (best (evidence b i as_)). rewrite <-IH.
  f_equal. by destruct (accepts i a), b.
Qed.

(** The status kept beside the rejection line came with that line. *)
Definition rejectedBy (i : nat) (l : string) (h : Z) (as_ : list arrival) : Prop :=
  ∃ a, a ∈ as_ ∧ hintOf a = h ∧ l ∈ linesFor i a ∧ bucketOf l h = bRejection.

Lemma routes_status h ls v (P : string -> Z -> Prop) :
  (∀ l, l ∈ ls -> bucketOf l h = bRejection -> P l h) -> (rejectionLine v ≠ "" -> P (rejectionLine v) (rejectionStatus v)) ->
  let v' := foldl (fun v l => routeVote l h v) v ls in rejectionLine v' ≠ "" -> P (rejectionLine v') (rejectionStatus v').
Proof.
  revert v. induction ls as [|l ls IH]; intros v Hls Hv; cbn zeta; cbn [foldl]; [done|].
  apply IH; [intros x Hx; apply Hls; by right|]. unfold routeVote. destruct (bucketOf l h) eqn:Eb; cbn; [done|done|].
  destruct (String.eqb_spec (preferRejectionLine (rejectionLine v) l) l) as [E|E].
  - rewrite E. intros _. apply Hls; [by left|done].
  - destruct (prefer_cases (rejectionLine v) l) as [->|?]; [|done]. done.
Qed.

Lemma voteOn_status i as_ :
  rejectionLine (voteOn i as_) ≠ "" -> rejectedBy i (rejectionLine (voteOn i as_)) (rejectionStatus (voteOn i as_)) as_.
Proof.
  induction as_ as [|a as_ IH] using rev_ind; [done|]. unfold voteOn. rewrite foldl_app. cbn [foldl]. fold (voteOn i as_).
  apply (routes_status (hintOf a) (linesFor i a) _ (fun l h => rejectedBy i l h (as_ ++ [a]))).
  - intros l Hl Hb. exists a. split_and!; [apply elem_of_app; right; by apply list_elem_of_singleton|done|done|done].
  - intros Hn. assert (rejectionLine (voteOn i as_) ≠ "") as Hn' by (by destruct (accepts i a)).
    destruct (IH Hn') as (a' & Ha' & Eh & Hl & Hb). exists a'.
    split_and!; [apply elem_of_app; by left| | |]; by destruct (accepts i a).
Qed.
End Reference.

(** ** Placing lines *)

Section Placing.
Context `{TxParser} `{MapOrder}.
Variable batch : list propagationMsg.

(** The transaction at index [i] spends the outpoint. *)
Definition spends (i : nat) (k : string) : Prop :=
  ∃ m ins t v, batch !! i = Some m ∧ txInputs (RawTx m) = Some ins ∧ Some (t, v) ∈ ins ∧ outpointKey t v = k.

Definition ownKey (owners : gmap string Z) (p : nat * string) : gmap string Z :=
  <[p.2 := match owners !! p.2 with
           | Some prev => if (prev =? Z.of_nat p.1)%Z then Z.of_nat p.1 else outpointOwnerAmbiguous
           | None => Z.of_nat p.1
           end]> owners.

Definition inputKeys (ins : list (option (string * Z))) : list string :=
  omap (fun o => match o with None => None | Some (t, v) => Some (outpointKey t v) end) ins.
Definition spentKeys (im : nat * propagationMsg) : list (nat * string) :=
  match txInputs (RawTx im.2) with
  | None => []
  | Some ins => List.map (pair im.1) (inputKeys ins)
  end.

Lemma ownMsg_keys owners im : ownMsg owners im = foldl ownKey owners (spentKeys im).
Proof.
  unfold ownMsg, spentKeys. destruct (txInputs (RawTx im.2)) as [ins|]; [|done].
  revert owners. induction ins as [|o ins IH]; intros owners; [done|]. cbn [foldl]. rewrite IH.
  destruct o as [[t v]|]; [|done]. unfold inputKeys. cbn [omap list_omap List.map foldl]. f_equal.
  unfold ownInput, ownKey. cbn [fst snd]. destruct (owners !! outpointKey t v) as [prev|]; [|done].
  by destruct (prev =? Z.of_nat im.1)%Z.
Qed.

Definition owned (pairs : list (nat * string)) (owners : gmap string Z) : Prop :=
  ∀ k, match owners !! k with
       | None => ∀ i, (i, k) ∉ pairs
       | Some z => (∃ i, z = Z.of_nat i ∧ (i, k) ∈ pairs ∧ ∀ j, (j, k) ∈ pairs -> j = i)
                   ∨ (z = outpointOwnerAmbiguous ∧ ∃ i j, i ≠ j ∧ (i, k) ∈ pairs ∧ (j, k) ∈ pairs)
       end.

Lemma ownKey_owned pairs owners p : owned pairs owners -> owned (pairs ++ [p]) (ownKey owners p).
Proof.
  intros Ho k. destruct p as [i k0]. specialize (Ho k). unfold ownKey. cbn [fst snd].
  assert (∀ j x, (j, x) ∈ pairs ++ [(i, k0)] ↔ (j, x) ∈ pairs ∨ (j = i ∧ x = k0)) as Hin.
  { intros j x. rewrite elem_of_app, list_elem_of_singleton. split; (intros [?|E]; [by left|right]); [by inversion E|by destruct E; subst]. }
  destruct (decide (k0 = k)) as [->|Hd].
  - rewrite lookup_insert_eq. destruct (owners !! k) as [z|].
    + destruct Ho as [(i0 & -> & Hi0 & Hu)|(-> & a & b & Hab & Ha & Hb)].
      * destruct (Z.eqb_spec (Z.of_nat i0) (Z.of_nat i)) as [E|E].
        -- left. exists i. split_and!; [done|apply Hin; by right|]. intros j [Hj|[-> _]]%Hin; [|done].
           rewrite (Hu j Hj). lia.
        -- right. split; [done|]. exists i0, i. split_and!; [lia|apply Hin; by left|apply Hin; by right].
      * right. split; [by destruct (_ =? _)%Z eqn:E; [apply Z.eqb_eq in E; unfold outpointOwnerAmbiguous in E; lia|]|].
        exists a, b. split_and!; [done|apply Hin; by left|apply Hin; by left].
    + left. exists i. split_and!; [done|apply Hin; by right|]. intros j [Hj|[-> _]]%Hin; [|done]. by apply Ho in Hj.
  - rewrite lookup_insert_ne by done. destruct (owners !! k) as [z|].
    + destruct Ho as [(i0 & -> & Hi0 & Hu)|(-> & a & b & Hab & Ha & Hb)].
      * left. exists i0. split_and!; [done|apply Hin; by left|]. intros j [Hj|[_ E]]%Hin; [by apply Hu|by destruct Hd].
      * right. split; [done|]. exists a, b. split_and!; [done|apply Hin; by left|apply Hin; by left].
    + intros j [Hj|[_ E]]%Hin; [by apply Ho in Hj|by destruct Hd].
Qed.

Lemma owned_fold pairs owners more : owned pairs owners -> owned (pairs ++ more) (foldl ownKey owners more).
Proof.
  revert pairs owners. induction more as [|p more IH]; intros pairs owners Ho; [by rewrite app_nil_r|].
  cbn [foldl]. rewrite cons_middle, app_assoc. by apply IH, ownKey_owned.
Qed.

Definition allKeys : list (nat * string) := imap pair batch ≫= spentKeys.

Lemma index_owned : owned allKeys (buildSubmittedOutpointIndex batch).
Proof.
  unfold buildSubmittedOutpointIndex, allKeys.
  assert (∀ l pairs owners, owned pairs owners -> owned (pairs ++ (l ≫= spentKeys)) (foldl ownMsg owners l)) as Hf.
  { induction l as [|im l IH]; intros pairs owners Ho; [by rewrite app_nil_r|]. cbn [foldl]. rewrite bind_cons, app_assoc.
    apply IH. rewrite ownMsg_keys. by apply owned_fold. }
  apply (Hf _ [] ∅). intros k. rewrite lookup_empty. intros i. apply not_elem_of_nil.
Qed.

Lemma allKeys_spends i k : (i, k) ∈ allKeys ↔ spends i k.
Proof.
  unfold allKeys, spends. rewrite list_elem_of_bind. split.
  - intros ([j m] & Hk & Hm). apply imap_pair_elem in Hm. unfold spentKeys in Hk. cbn [fst snd] in Hk.
    destruct (txInputs (RawTx m)) as [ins|] eqn:E; [|by apply elem_of_nil in Hk].
    apply list_elem_of_In, in_map_iff in Hk as (x & [= <- <-] & Hx). apply list_elem_of_In in Hx. unfold inputKeys in Hx.
    apply list_elem_of_omap in Hx as ([[t v]|] & Ho & Hx); [|done]. injection Hx as <-. by exists m, ins, t, v.
  - intros (m & ins & t & v & Hm & Ei & Ho & <-). exists (i, m). split; [|by apply imap_pair_elem].
    unfold spentKeys. cbn [fst snd]. rewrite Ei. apply list_elem_of_In, in_map_iff. eexists. split; [done|].
    apply list_elem_of_In. unfold inputKeys. apply list_elem_of_omap. by exists (Some (t, v)).
Qed.

Lemma index_sole k i :
  buildSubmittedOutpointIndex batch !! k = Some (Z.of_nat i) -> spends i k ∧ ∀ j, spends j k -> j = i.
Proof.
  intros E. pose proof (index_owned k) as Ho. rewrite E in Ho.
  destruct Ho as [(i0 & Ez & Hi & Hu)|(Ez & _)]; [|unfold outpointOwnerAmbiguous in Ez; lia].
  apply Nat2Z.inj in Ez as <-. split; [by apply allKeys_spends|]. intros j Hj. by apply Hu, allKeys_spends.
Qed.

Lemma index_values k z : buildSubmittedOutpointIndex batch !! k = Some z -> z = outpointOwnerAmbiguous ∨ ∃ i, z = Z.of_nat i.
Proof. intros E. pose proof (index_owned k) as Ho. rewrite E in Ho. destruct Ho as [(i & -> & _)|(-> & _)]; [right; by eexists|by left]. Qed.

(** A line is handed to the only transaction that spends an outpoint it names. *)
Lemma attributeRefs_sound owners refs z0 z :
  foldl (attributeRef owners) (Some z0) refs = Some z ->
  z = z0 ∨ (∃ ref, ref ∈ refs ∧ owners !! ToLower ref = Some z ∧ z ≠ outpointOwnerAmbiguous).
Proof.
  revert z0. induction refs as [|ref refs IH]; intros z0; cbn [foldl]; [intros [= <-]; by left|].
  assert (foldl (attributeRef owners) None refs = None) as En by (clear; by induction refs).
  unfold attributeRef at 2. destruct (owners !! ToLower ref) as [idx|] eqn:Eo.
  - destruct (Z.eqb_spec idx outpointOwnerAmbiguous) as [->|Hne].
    + intros [->|(r & Hr & H1)]%IH; [by left|]. right. exists r. split; [by right|done].
    + destruct (_ && _); [by rewrite En|]. intros [->|(r & Hr & H1)]%IH; right; [exists ref; split; [by left|done]|].
      exists r. split; [by right|done].
  - intros [->|(r & Hr & H1)]%IH; [by left|]. right. exists r. split; [by right|done].
Qed.

Lemma attributeOne_sound line j :
  attributeOneConflictLine line (buildSubmittedOutpointIndex batch) = Some j ->
  ∃ ref, ref ∈ FindAllString outpointRefPattern line ∧ spends j (ToLower ref) ∧ ∀ k, spends k (ToLower ref) -> k = j.
Proof.
  unfold attributeOneConflictLine. destruct (foldl _ _ _) as [z|] eqn:E; [|done].
  destruct (Z.ltb_spec z 0); [done|]. intros [= <-]. apply attributeRefs_sound in E as [->|(ref & Hr & Eo & Hne)]; [lia|].
  exists ref. split; [done|]. destruct (index_values _ _ Eo) as [?|[i ->]]; [done|]. rewrite Nat2Z.id. by apply index_sole.
Qed.
End Placing.

Section Placed.
Context `{TxParser} `{MapOrder}.
Variable batch : list propagationMsg.

Definition alienKeys (m : gmap string string) : list string :=
  List.map fst (List.filter (fun kl => negb (inBatch batch kl.1)) (mapRange m)).

Lemma alien_count m : (alienFailureLines m batch).1 = length (alienKeys m).
Proof.
  unfold alienFailureLines, alienKeys. rewrite length_map.
  assert (∀ l n b, (foldl (fun '(count, best) '(key, line) =>
      if negb (inBatch batch key) then (S count, preferRejectionLine best line) else (count, best)) (n, b) l).1
      = (n + length (List.filter (fun kl : string * string => negb (inBatch batch kl.1)) l))%nat) as Hf.
  { induction l as [|[k l0] l IH]; intros n b; cbn [foldl List.filter fst]; [cbn; lia|].
    destruct (negb (inBatch batch k)); rewrite IH; cbn; lia. }
  by rewrite Hf.
Qed.

Lemma alienKeys_elem m k : k ∈ alienKeys m ↔ is_Some (m !! k) ∧ inBatch batch k = false.
Proof.
  unfold alienKeys. rewrite list_elem_of_In, in_map_iff. setoid_rewrite List.filter_In.
  setoid_rewrite <-list_elem_of_In. setoid_rewrite mapRange_perm. split.
  - intros ([k' l] & <- & Hm & Hb). apply elem_of_map_to_list in Hm. cbn in *. split; [by eexists|]. by apply negb_true_iff.
  - intros [[l Hm] Hb]. exists (k, l). cbn. split_and!; [done|by apply elem_of_map_to_list|by rewrite Hb].
Qed.

Lemma alienKeys_nodup m : NoDup (alienKeys m).
Proof.
  unfold alienKeys. assert (NoDup (List.map fst (mapRange m))) as Hn.
  { change (NoDup ((mapRange m).*1)). rewrite mapRange_perm. apply NoDup_fst_map_to_list. }
  revert Hn. induction (mapRange m) as [|[k l] ps IH]; [constructor|]. cbn [List.map fst]. intros [Hk Hn]%NoDup_cons.
  cbn [List.filter fst]. destruct (negb (inBatch batch k)); [|by apply IH]. cbn [List.map fst]. constructor; [|by apply IH].
  rewrite list_elem_of_In, in_map_iff. intros (x & <- & [Hx _]%List.filter_In). apply Hk, list_elem_of_In, in_map_iff. by exists x.
Qed.

Section Attribute.
Variable (m : gmap string string) (owners : gmap string Z).
Let owner (k : string) : option nat := attributeOneConflictLine (default "" (m !! k)) owners.

Lemma attributed_spec keys acc :
  (∀ i, is_Some (acc !! i) -> is_Some (foldl (attributeKey m owners) acc keys !! i))
  ∧ (∀ k i, k ∈ keys -> owner k = Some i -> is_Some (foldl (attributeKey m owners) acc keys !! i))
  ∧ (size (foldl (attributeKey m owners) acc keys) <= size acc + length (List.filter (fun k => bool_decide (is_Some (owner k))) keys))%nat.
Proof.
  revert acc. induction keys as [|k keys IH]; intros acc; cbn [foldl List.filter].
  - split_and!; [done|by intros ?? ?%elem_of_nil|cbn; lia].
  - destruct (IH (attributeKey m owners acc k)) as (H1 & H2 & H3).
    assert (owner k = attributeOneConflictLine (default "" (m !! k)) owners) as Eo by done.
    unfold attributeKey in H1, H2, H3 |- *. rewrite <-Eo in *. destruct (owner k) as [i0|] eqn:Ek.
    + rewrite bool_decide_true by (by eexists). cbn [length]. split_and!.
      * intros i Hi. apply H1. destruct (decide (i0 = i)) as [->|Hd]; [by rewrite lookup_insert_eq|by rewrite lookup_insert_ne].
      * intros x i [->|Hx]%elem_of_cons Ei; [|by apply (H2 x i)]. apply H1. rewrite Ek in Ei. injection Ei as ->. by rewrite lookup_insert_eq.
      * etrans; [exact H3|]. rewrite map_size_insert. destruct (acc !! i0); cbn; lia.
    + rewrite bool_decide_false by (by intros [??]). split_and!; [done| |done].
      intros x i [->|Hx]%elem_of_cons Ei; [congruence|by apply (H2 x i)].
Qed.
End Attribute.

Lemma attributedOf_some m i l :
  attributedOf batch m !! i = Some l ->
  attributedOf batch m = foldl (attributeKey m (buildSubmittedOutpointIndex batch)) ∅ (sortStrings (alienKeys m)).
Proof.
  unfold attributedOf. destruct (_ <? _)%nat; [|by rewrite lookup_empty]. unfold attributeConflictLines.
  destruct (_ || _); [by rewrite lookup_empty|]. done.
Qed.

(** If nothing is left unplaced, every line names a submitted transaction or
    was handed to the transaction that spends an outpoint it names. *)
Lemma nothing_unplaced f :
  unplaceableOf batch (Some f) = 0%nat ->
  Unkeyed f = [] ∧ ∀ k l, ByKey f !! k = Some l -> inBatch batch k = false ->
    ∃ j, attributeOneConflictLine l (buildSubmittedOutpointIndex batch) = Some j ∧ is_Some (attributedOf batch (ByKey f) !! j).
Proof.
  unfold unplaceableOf. cbn [Keyed]. rewrite alien_count. intros E. split; [destruct (Unkeyed f); [done|cbn in E; lia]|].
  intros k l Hk Hb. assert (k ∈ alienKeys (ByKey f)) as Ha by (apply alienKeys_elem; split; [by eexists|done]).
  assert (0 < length (alienKeys (ByKey f)))%nat as Hpos by (destruct (alienKeys (ByKey f)); [by apply elem_of_nil in Ha|cbn; lia]).
  assert (length (alienKeys (ByKey f)) <= size (attributedOf batch (ByKey f)))%nat as Hsz by lia. clear E.
  unfold attributedOf in Hsz |- *. rewrite alien_count, (proj2 (Nat.ltb_lt _ _) Hpos) in Hsz |- *.
  unfold attributeConflictLines in Hsz |- *. destruct (_ || _) eqn:Eo; [rewrite map_size_empty in Hsz; lia|].
  change (List.map fst _) with (alienKeys (ByKey f)) in Hsz |- *.
  set (owners := buildSubmittedOutpointIndex batch) in *.
  destruct (attributed_spec (ByKey f) owners (sortStrings (alienKeys (ByKey f))) ∅) as (_ & H2 & H3). rewrite map_size_empty in H3.
  assert (k ∈ sortStrings (alienKeys (ByKey f))) as Hks by (by rewrite sortStrings_perm).
  set (own := fun k => attributeOneConflictLine (default "" (ByKey f !! k)) owners) in *.
  assert (own k ≠ None) as Hown.
  { intros En. assert (length (List.filter (fun k => bool_decide (is_Some (own k))) (sortStrings (alienKeys (ByKey f))))
      < length (sortStrings (alienKeys (ByKey f))))%nat as Hlt.
    { clear -Hks En. induction (sortStrings (alienKeys (ByKey f))) as [|x xs IH]; [by apply elem_of_nil in Hks|].
      cbn [List.filter]. apply elem_of_cons in Hks as [<-|Hks].
      - rewrite bool_decide_false by (rewrite En; by intros [??]). pose proof (filter_length_le (fun k => bool_decide (is_Some (own k))) xs). cbn. lia.
      - specialize (IH Hks). destruct (bool_decide _); cbn; lia. }
    assert (length (sortStrings (alienKeys (ByKey f))) = length (alienKeys (ByKey f))) as El by (by rewrite sortStrings_perm).
    rewrite El in Hlt. apply (Nat.lt_irrefl (length (alienKeys (ByKey f)))). eapply Nat.le_lt_trans; [exact Hsz|].
    eapply Nat.le_lt_trans; [exact H3|]. exact Hlt. }
  destruct (own k) as [j|] eqn:Ej; [|done]. exists j. split; [|by apply (H2 k j)].
  unfold own in Ej. by rewrite Hk in Ej.
Qed.
End Placed.

(** ** Where the kept lines come from *)

Section Sources.
Context `{TxParser} `{MapOrder}.
Variable batch : list propagationMsg.

Lemma attributed_from m owners i l keys acc :
  (∀ k, k ∈ keys -> is_Some (m !! k)) ->
  foldl (attributeKey m owners) acc keys !! i = Some l ->
  l = "" ∨ acc !! i = Some l ∨ ∃ k, m !! k = Some l ∧ attributeOneConflictLine l owners = Some i.
Proof.
  revert acc. induction keys as [|k keys IH]; intros acc Hk; cbn [foldl]; [by right; left|].
  intros [->|[Hacc|Hx]]%IH; [by left| |by right; right|intros x Hx; apply Hk; by right].
  destruct (Hk k) as [l0 El0]; [by left|]. revert Hacc. unfold attributeKey. rewrite El0. change (default "" (Some l0)) with l0. cbv zeta.
  destruct (attributeOneConflictLine l0 owners) as [j|] eqn:Ej; [|intros Hacc; by right; left].
  destruct (decide (j = i)) as [->|Hd]; [|rewrite lookup_insert_ne by done; intros Hacc; by right; left].
  rewrite lookup_insert_eq. intros [= <-].
  destruct (prefer_cases (default "" (acc !! i)) l0) as [->| ->]; [|right; right; by exists k].
  destruct (acc !! i) as [l1|]; cbn; [by right; left|by left].
Qed.

Lemma attributedOf_from m i l :
  attributedOf batch m !! i = Some l -> l ≠ "" ->
  ∃ k, m !! k = Some l ∧ attributeOneConflictLine l (buildSubmittedOutpointIndex batch) = Some i.
Proof.
  intros E Hl. pose proof E as E'. rewrite (attributedOf_some batch m i l E) in E.
  apply attributed_from in E as [?|[E0|?]]; [done|by rewrite lookup_empty in E0|done|].
  intros k Hk. rewrite sortStrings_perm in Hk. by apply alienKeys_elem in Hk as [? _].
Qed.

Lemma bestUnplaceable_from b ls l : bestUnplaceableLine b ls = l -> l = b ∨ l ∈ ls.
Proof.
  intros <-. unfold bestUnplaceableLine. revert b. induction ls as [|x ls IH]; intros b; cbn [foldl]; [by left|].
  destruct (IH (preferRejectionLine b x)) as [->|?]; [|right; by right].
  destruct (prefer_cases b x) as [->| ->]; [by left|right; by left].
Qed.

Lemma bestAlien_from m : (alienFailureLines m batch).2 = "" ∨ ∃ k, m !! k = Some (alienFailureLines m batch).2.
Proof.
  unfold alienFailureLines.
  assert (∀ ps n b, (∀ k l, (k, l) ∈ ps -> m !! k = Some l) -> (b = "" ∨ ∃ k, m !! k = Some b) ->
    let r := (foldl (fun '(count, best) '(key, line) =>
      if negb (inBatch batch key) then (S count, preferRejectionLine best line) else (count, best)) (n, b) ps).2 in
    r = "" ∨ ∃ k, m !! k = Some r) as Hf.
  { induction ps as [|[k l] ps IH]; intros n b Hps Hb; cbn zeta; cbn [foldl]; [done|].
    destruct (negb (inBatch batch k)); (apply IH; [intros x y Hxy; apply Hps; by right|]); [|done].
    destruct (prefer_cases b l) as [->| ->]; [done|]. right. exists k. apply Hps. by left. }
  apply Hf; [|by left]. intros k l. rewrite mapRange_perm. by rewrite elem_of_map_to_list.
Qed.

(** The response contains the line. *)
Definition says (a : arrival) (l : string) : Prop :=
  ∃ f, jr_failures (ar_result a) = Some f ∧ (l ∈ Unkeyed f ∨ ∃ k, ByKey f !! k = Some l).

(** The line is about the transaction: it is filed under its txid, it names an
    outpoint that this transaction alone spends, or nothing else was sent. *)
Definition about (i : nat) (msg : propagationMsg) (a : arrival) (l : string) : Prop :=
  (∃ f, jr_failures (ar_result a) = Some f ∧ ByKey f !! ToLower (TXID msg) = Some l)
  ∨ (∃ ref, ref ∈ FindAllString outpointRefPattern l ∧ spends batch i (ToLower ref) ∧ ∀ j, spends batch j (ToLower ref) -> j = i)
  ∨ batch = [msg].

Lemma linesFor_about i msg a l :
  batch !! i = Some msg -> l ∈ linesFor batch i a -> l ≠ "" -> lists a = true ∧ says a l ∧ about i msg a l.
Proof.
  intros Hm Hl Hn. unfold linesFor in Hl. destruct (lists a) eqn:Ea; [|by apply elem_of_nil in Hl]. split; [done|].
  destruct (jr_failures (ar_result a)) as [f|] eqn:Ef.
  2: { unfold lists in Ea. rewrite Ef in Ea. cbn in Ea. by rewrite andb_false_r in Ea. }
  rewrite !elem_of_app in Hl. destruct Hl as [Hl|[Hl|Hl]].
  - unfold keyedLine in Hl. rewrite Ef in Hl. unfold lowerTxids in Hl. rewrite list_lookup_fmap, Hm in Hl. cbn in Hl.
    destruct (ByKey f !! ToLower (TXID msg)) as [l'|] eqn:Ek; [|by apply elem_of_nil in Hl].
    apply list_elem_of_singleton in Hl as ->. split; [exists f; split; [done|right; by eexists]|left; by exists f].
  - unfold attributedLine in Hl. rewrite Ef in Hl. cbn [Keyed] in Hl.
    destruct (attributedOf batch (ByKey f) !! i) as [l'|] eqn:Ek; [|by apply elem_of_nil in Hl].
    apply list_elem_of_singleton in Hl as ->. destruct (attributedOf_from _ _ _ Ek Hn) as (k & Hk & Ho).
    split; [exists f; split; [done|right; by eexists]|]. right. left. by apply attributeOne_sound.
  - destruct (_ && _) eqn:Ec; [|by apply elem_of_nil in Hl]. apply list_elem_of_singleton in Hl.
    rewrite !andb_true_iff in Ec. destruct Ec as [[_ E1] _]. apply Nat.eqb_eq in E1. split.
    + exists f. split; [done|]. unfold unplacedLine in Hl. rewrite Ef in Hl. cbn [Keyed] in Hl. symmetry in Hl.
      apply bestUnplaceable_from in Hl as [->|?]; [|by left]. destruct (bestAlien_from (ByKey f)) as [?|?]; [done|by right].
    + right. right. destruct batch as [|m0 [|]]; try done. by destruct i; [injection Hm as ->|].
Qed.

(** The response vouches for the transaction: it accepted the whole chunk, or
    it listed failures and each of them is about another transaction. *)
Definition vouches (i : nat) (msg : propagationMsg) (a : arrival) : Prop :=
  jr_err (ar_result a) = None
  ∨ ∃ f, jr_failures (ar_result a) = Some f ∧ Unkeyed f = []
      ∧ ∀ k l, ByKey f !! k = Some l ->
          k ≠ ToLower (TXID msg)
          ∧ (k ∈ lowerTxids batch
             ∨ ∃ j ref, j ≠ i ∧ ref ∈ FindAllString outpointRefPattern l ∧ spends batch j (ToLower ref) ∧ ∀ x, spends batch x (ToLower ref) -> x = j).

Lemma accepts_vouches i msg a : batch !! i = Some msg -> accepts batch i a = true -> live a = true ∧ vouches i msg a.
Proof.
  intros Hm. unfold accepts. rewrite !andb_true_iff, orb_true_iff. intros [Hl [He|Ha]]; (split; [done|]).
  - left. by apply bool_decide_eq_true in He.
  - right. rewrite !andb_true_iff in Ha. destruct Ha as [[[Hls Hk] Hat] Hu]. apply Nat.eqb_eq in Hu.
    apply bool_decide_eq_true in Hk, Hat. unfold unplaced in Hu.
    destruct (jr_failures (ar_result a)) as [f|] eqn:Ef.
    2: { unfold lists in Hls. rewrite Ef in Hls. cbn in Hls. by rewrite andb_false_r in Hls. }
    destruct (nothing_unplaced batch f Hu) as [Eu Hp]. exists f. split_and!; [done|done|]. intros k l Hkl. split.
    + intros ->. unfold keyedLine, lowerTxids in Hk. rewrite Ef, list_lookup_fmap, Hm in Hk. cbn in Hk. congruence.
    + destruct (decide (k ∈ lowerTxids batch)) as [?|Hin]; [by left|]. right.
      destruct (Hp k l Hkl) as (j & Ho & Hs); [unfold inBatch; by apply bool_decide_eq_false|].
      destruct (attributeOne_sound batch l j Ho) as (ref & Hr & Hsp & Hun). exists j, ref. split_and!; [|done|done|done].
      intros ->. unfold attributedLine in Hat. rewrite Ef in Hat. cbn [Keyed] in Hat. rewrite Hat in Hs. by destruct Hs.
Qed.
End Sources.

(** ** The verdict *)

Section Verdict.
Context `{TxParser} `{MapOrder}.
Variable batch : list propagationMsg.
Variable chunkBytes : Z.

Definition spoken (ls : list string) : bool := existsb (fun l => negb (String.eqb l "")) ls.

Definition verdict (i : nat) (as_ : list arrival) : txResultClass :=
  if existsb (accepts batch i) as_ then txResultClassAccepted
  else if spoken (evidence batch bRejection i as_) then txResultClassRejected
  else if spoken (evidence batch bMissingParent i as_) then txResultClassMissingParent
  else txResultClassRequeue.

Lemma spoken_best ls : spoken ls = negb (String.eqb (best ls) "").
Proof.
  destruct (String.eqb_spec (best ls) "") as [E|E]; cbn.
  - pose proof (proj1 (best_empty ls) E) as Hall. clear E. induction ls as [|l ls IH]; [done|]. cbn.
    rewrite (Hall l (list_elem_of_here _ _)). cbn. apply IH. intros x Hx. apply Hall. by right.
  - apply existsb_exists. exists (best ls). split; [by apply list_elem_of_In, best_in|].
    by apply negb_true_iff, String.eqb_neq.
Qed.

Lemma existsb_perm {A} (p : A -> bool) l l' : l ≡ₚ l' -> existsb p l = existsb p l'.
Proof.
  induction 1 as [|x l l' _ IH|x y l|l1 l2 l3 _ IH1 _ IH2]; cbn; [done|by rewrite IH| |congruence].
  by destruct (p x), (p y).
Qed.

Lemma evidence_perm b i as_ as' : as_ ≡ₚ as' -> evidence batch b i as_ ≡ₚ evidence batch b i as'.
Proof. intros Hp. unfold evidence. by rewrite Hp. Qed.

Lemma verdict_perm i as_ as' : as_ ≡ₚ as' -> verdict i as_ = verdict i as'.
Proof.
  intros Hp. unfold verdict, spoken. rewrite (existsb_perm _ _ _ Hp).
  by rewrite (existsb_perm _ _ _ (evidence_perm bRejection i _ _ Hp)), (existsb_perm _ _ _ (evidence_perm bMissingParent i _ _ Hp)).
Qed.

Lemma settled_vote as_ i :
  (i < length batch)%nat ->
  ∃ v, votes (tallyOf batch chunkBytes as_) !! i = Some v
    ∧ (v = voteOn batch i as_ ∨ unvoted (voteOn batch i as_) = true ∧ ∃ l, v = mkVote false "" (rejectionStatus v) "" l).
Proof.
  intros Hi. destruct (collected_votes batch chunkBytes as_) as [_ Hv]. specialize (Hv i Hi). unfold tallyOf, settleSize.
  destruct (sizeRejected _); [|eexists; split; [exact Hv|by left]]. cbn [votes].
  rewrite list_lookup_fmap, Hv. cbn. eexists. split; [done|]. destruct (unvoted (voteOn batch i as_)) eqn:Eu; [|by left].
  right. split; [done|]. eexists. unfold unvoted in Eu. apply negb_true_iff in Eu. rewrite !orb_false_iff, !negb_false_iff in Eu.
  destruct Eu as [[[E1 E2] E3] E4]. apply String.eqb_eq in E2, E3. by rewrite E1, E2, E3.
Qed.

Lemma resultsOf_lookup now as_ i msg :
  batch !! i = Some msg ->
  ∃ v, resultsOf batch chunkBytes now as_ !! i = Some (resultOf now (successEndpoint (tallyOf batch chunkBytes as_)) msg v)
    ∧ (v = voteOn batch i as_ ∨ unvoted (voteOn batch i as_) = true ∧ ∃ l, v = mkVote false "" (rejectionStatus v) "" l).
Proof.
  intros Hm. destruct (settled_vote as_ i) as (v & Hv & Hd); [by apply lookup_lt_Some in Hm|]. exists v. split; [|done].
  unfold resultsOf. by rewrite lookup_zip_with, Hm, Hv.
Qed.

Lemma resultOf_class now s msg v :
  class (resultOf now s msg v) =
    if acceptedByAny v then txResultClassAccepted
    else if negb (String.eqb (rejectionLine v) "") then txResultClassRejected
    else if negb (String.eqb (missingParentLine v) "") then txResultClassMissingParent
    else txResultClassRequeue.
Proof.
  unfold resultOf. destruct (acceptedByAny v); [done|]. destruct (negb (String.eqb (rejectionLine v) "")).
  { by destruct (classifyFailureLine _ _). }
  destruct (negb _); [done|]. by destruct (negb _).
Qed.

Lemma voteOn_verdict i as_ now s msg : class (resultOf now s msg (voteOn batch i as_)) = verdict i as_.
Proof.
  rewrite resultOf_class, voteOn_accepted. unfold verdict. rewrite !spoken_best.
  pose proof (voteOn_field batch bRejection i as_) as E1. pose proof (voteOn_field batch bMissingParent i as_) as E2. cbn in E1, E2.
  by rewrite E1, E2.
Qed.

Lemma result_class now as_ i msg r :
  batch !! i = Some msg -> resultsOf batch chunkBytes now as_ !! i = Some r -> class r = verdict i as_.
Proof.
  intros Hm Hr. destruct (resultsOf_lookup now as_ i msg Hm) as (v & E & Hv). rewrite E in Hr. injection Hr as <-.
  destruct Hv as [->|(Hu & l & Ev)]; [apply voteOn_verdict|].
  rewrite <-(voteOn_verdict i as_ now "" msg), !resultOf_class. rewrite Ev. cbn.
  unfold unvoted in Hu. apply negb_true_iff in Hu. rewrite !orb_false_iff, !negb_false_iff in Hu.
  destruct Hu as [[[E1 E2] E3] E4]. by rewrite E1, E2, E3.
Qed.

Lemma class_accepted now as_ i msg r :
  batch !! i = Some msg -> resultsOf batch chunkBytes now as_ !! i = Some r -> class r = txResultClassAccepted ->
  ∃ a, a ∈ as_ ∧ accepts batch i a = true.
Proof.
  intros Hm Hr Hc. rewrite (result_class now as_ i msg r Hm Hr) in Hc. unfold verdict in Hc.
  destruct (existsb _ _) eqn:E.
  - apply existsb_exists in E as (a & Ha & He). exists a. split; [by apply list_elem_of_In|done].
  - by repeat case_match.
Qed.

Lemma class_rejected now as_ i msg r :
  batch !! i = Some msg -> resultsOf batch chunkBytes now as_ !! i = Some r -> class r = txResultClassRejected ->
  (∀ a, a ∈ as_ -> accepts batch i a = false)
  ∧ ∃ l h, l ≠ "" ∧ rejectedBy batch i l h as_ ∧ l = best (evidence batch bRejection i as_)
      ∧ r = resultOf now "" msg (mkVote false l h "" "").
Proof.
  intros Hm Hr Hc. destruct (resultsOf_lookup now as_ i msg Hm) as (v & E & Hv). rewrite E in Hr. injection Hr as <-.
  rewrite resultOf_class in Hc. destruct (acceptedByAny v) eqn:Ea; [done|].
  destruct (String.eqb_spec (rejectionLine v) "") as [El|El]; cbn in Hc; [by destruct (negb _)|].
  destruct Hv as [->|(_ & l & Ev)]; [|rewrite Ev in El; by cbn in El]. rewrite voteOn_accepted in Ea. split.
  - intros a Ha. apply not_true_is_false. intros Hacc. apply not_true_iff_false in Ea. apply Ea, existsb_exists.
    exists a. split; [by apply list_elem_of_In|done].
  - exists (rejectionLine (voteOn batch i as_)), (rejectionStatus (voteOn batch i as_)).
    split_and!; [done|by apply voteOn_status|apply (voteOn_field batch bRejection)|].
    unfold resultOf. rewrite voteOn_accepted, Ea. cbn [acceptedByAny rejectionLine rejectionStatus].
    by rewrite (proj2 (String.eqb_neq _ _) El).
Qed.
End Verdict.

(** ** Theorems *)

(** C3: no verdict without a reason.  A transaction is accepted only if a peer
    accepted the whole chunk, or listed failures every one of which is about
    another submitted transaction.  It is rejected only if no peer vouched for
    it and some peer returned a line that is about it and that is neither a
    missing parent, nor a fault of the node, nor an opaque line without a
    status of its own; the reason kept is that line, and none of the others
    has a better score. *)
Theorem verdict_sound `{TxParser} `{MapOrder} batch chunkBytes now as_ i msg r :
  batch !! i = Some msg -> resultsOf batch chunkBytes now as_ !! i = Some r ->
  (class r = txResultClassAccepted -> ∃ a, a ∈ as_ ∧ live a = true ∧ vouches batch i msg a)
  ∧ (class r = txResultClassRejected ->
       (∀ a, a ∈ as_ -> accepts batch i a = false)
       ∧ ∃ a l, a ∈ as_ ∧ says a l ∧ about batch i msg a l ∧ bucketOf l (statusHintOf (ar_result a)) = bRejection
           ∧ errMsg r = (classifyFailureLine l (statusHintOf (ar_result a))).1
           ∧ ∀ l', l' ∈ evidence batch bRejection i as_ -> l' ≠ "" -> (rejectionLineScore l' <= rejectionLineScore l)%Z).
Proof.
  intros Hm Hr. split; intros Hc.
  - destruct (class_accepted _ _ _ _ _ _ _ Hm Hr Hc) as (a & Ha & Hacc). exists a.
    destruct (accepts_vouches batch i msg a Hm Hacc). done.
  - destruct (class_rejected _ _ _ _ _ _ _ Hm Hr Hc) as (Hno & l & h & Hl & (a & Ha & Eh & Hls & Hb) & Ebest & Er).
    split; [done|]. destruct (linesFor_about batch i msg a l Hm Hls Hl) as (_ & Hs & Hab). exists a, l.
    unfold hintOf in Eh. rewrite <-Eh in Hb. split_and!; [done|done|done|done| |].
    + rewrite Er. unfold resultOf. cbn. rewrite (proj2 (String.eqb_neq _ _) Hl). cbn. rewrite Eh. by destruct (classifyFailureLine l h).
    + rewrite Ebest. intros l' Hl' Hn. by apply best_score.
Qed.

Definition spentTx : string := "aaaaaaaaaaaaaaaaaaaaaaaaaaaaaaaaaaaaaaaaaaaaaaaaaaaaaaaaaaaaaaaa".
Definition spenderTx : string := "bbbbbbbbbbbbbbbbbbbbbbbbbbbbbbbbbbbbbbbbbbbbbbbbbbbbbbbbbbbbbbbb".
Definition conflictLine (vout : string) : string :=
  ("UTXO_SPENT (70): " ++ spentTx ++ ":" ++ vout ++ " utxo already spent by tx " ++ spenderTx ++ "[0]")%string.
Definition conflictBody : string :=
  ("Failed to process transactions:" ++ String newline (conflictLine "0" ++ String newline (conflictLine "1" ++ String newline "")))%string.
Definition conflictArrival : arrival :=
  let '(code, f, e) := SubmitTransactions (xResponse 409 conflictBody None) in
  mkArrival (mkBroadcastJobResult "http://n" code f e) false.
Definition rawMsg (txid : string) (raw : list byte) : propagationMsg := mkPropagationMsg txid raw [] 0 0 "" "".

(** Two conflict lines that name the same spent transaction are filed
    under one key and the second replaces the first.  Of two double spends of
    different outputs of one transaction, in one chunk, the first is then
    reported ACCEPTED_BY_NETWORK, although the peer said its input is spent
    and no peer accepted it. *)
Theorem shadowed_conflict_accepted `{TxParser} `{MapOrder} rawA rawB now :
  txInputs rawA = Some [Some (spentTx, 0%Z)] -> txInputs rawB = Some [Some (spentTx, 1%Z)] ->
  List.map class (resultsOf [rawMsg "c1" rawA; rawMsg "c2" rawB] 100 now [conflictArrival])
    = [txResultClassAccepted; txResultClassRejected]
  ∧ In (conflictLine "0") (SplitLines conflictBody).
Proof.
  intros HA HB. split; [|vm_compute; right; by left].
  set (batch := [rawMsg "c1" rawA; rawMsg "c2" rawB]).
  set (f := mkTxsFailures {[spentTx := conflictLine "1"]} []).
  assert (parseTxsFailures conflictBody = Some f) as Ef by (vm_compute; reflexivity).
  assert (ByKey f = {[spentTx := conflictLine "1"]}) as Ek by done. assert (Unkeyed f = []) as Eu by done. clearbody f.
  assert (conflictArrival = mkArrival (mkBroadcastJobResult "http://n" 409 (Some f) (Some (mkSubmitErr false false (statusText 409)))) false) as ->.
  { unfold conflictArrival, SubmitTransactions. by rewrite Ef. }
  assert (mapRange (ByKey f) = [(spentTx, conflictLine "1")]) as Er.
  { apply Permutation_singleton_r. rewrite mapRange_perm, Ek. by rewrite map_to_list_singleton. }
  assert (buildSubmittedOutpointIndex batch = <[outpointKey spentTx 1 := 1%Z]> {[outpointKey spentTx 0 := 0%Z]}) as Eo.
  { unfold buildSubmittedOutpointIndex, batch. cbn [imap foldl]. unfold ownMsg. cbn. by rewrite HA, HB. }
  assert (alienFailureLines (ByKey f) batch = (1%nat, conflictLine "1")) as Ea by (unfold alienFailureLines; rewrite Er; by vm_compute).
  assert (attributedOf batch (ByKey f) = {[1%nat := conflictLine "1"]}) as Eat.
  { unfold attributedOf, attributeConflictLines. rewrite Ea, Eo, Er, Ek. by vm_compute. }
  assert (mapRange ({[1%nat := conflictLine "1"]} : gmap nat string) = [(1%nat, conflictLine "1")]) as Em.
  { apply Permutation_singleton_r. by rewrite mapRange_perm, map_to_list_singleton. }
  assert (unplaceableOf batch (Some f) = 0%nat) as Eun by (unfold unplaceableOf; cbn [Keyed]; by rewrite Ea, Eat, Eu).
  unfold resultsOf, tallyOf. cbn [foldl]. unfold collect, settleSize. cbn [ar_result ar_ctxDone jr_err isCanceledByBroadcast se_canceled andb se_tooLarge jr_failures].
  assert (Len (Some f) = 1%nat) as El by (cbn [Len]; by rewrite Ek, Eu, map_size_singleton).
  rewrite El. cbn [Nat.eqb]. unfold voteFailures. cbn [jr_failures Keyed]. unfold statusHintOf. cbn [jr_failures]. rewrite El, Eat, Eun, Em, Ek.
  by vm_compute.
Qed.

(** ** Witnesses *)

#[local] Instance wOrder : MapOrder := {| mapRange := fun K V _ _ m => map_to_list m; mapRange_perm := fun K V _ _ m => Permutation_refl _ |}.
#[local] Instance wParser : TxParser := fun raw =>
  match raw with
  | [x00] => Some [Some (spentTx, 0%Z)]
  | [x01] => Some [Some (spentTx, 1%Z)]
  | _ => None
  end.

Definition wBatch : list propagationMsg := [rawMsg "c1" [x00]; rawMsg "c2" [x01]].
Definition okArrival : arrival := mkArrival (mkBroadcastJobResult "http://n" 200 None None) false.

Lemma verdict_sound_witness :
  ∃ a, a ∈ [okArrival] ∧ live a = true ∧ vouches wBatch 1 (rawMsg "c2" [x01]) a.
Proof.
  destruct (resultsOf wBatch 2 None [okArrival] !! 1%nat) as [r|] eqn:E; [|vm_compute in E; discriminate E].
  apply (verdict_sound wBatch 2 None [okArrival] 1 (rawMsg "c2" [x01]) r); [reflexivity|exact E|].
  vm_compute in E. injection E as <-. reflexivity.
Defined.

Lemma shadowed_conflict_accepted_witness :
  List.map class (resultsOf [rawMsg "c1" [x00]; rawMsg "c2" [x01]] 100 None [conflictArrival])
    = [txResultClassAccepted; txResultClassRejected].
Proof. exact (proj1 (shadowed_conflict_accepted [x00] [x01] None eq_refl eq_refl)). Defined.
