(* ===== verification/VerdictsExact.v ===== *)
(** * VerdictsExact: the verdict on a transaction, line by line

    A reference for [broadcastBatchToEndpoints] that uses none of its helpers
    for placing and ranking lines: which response vouches for a transaction,
    which lines of a response are about it, and which of two lines says more.
    The verdict is proved to be the one the reference gives. *)
From stdpp Require Import base gmap strings list pretty sorting.
From Stdlib Require Import Ascii ZArith Lia.
From Stdlib Require Import Strings.Byte.
From S2P Require Import Prelude Models GoStrings Teranode Offsets Dispatcher Chunking Verdicts VerdictsProps.
Import Txs.

(** ** Which line says more *)

(** The Teranode codes a line names: those with a number, or what stands
    before the first parenthesis. *)
Definition codesOf (line : string) : list string :=
  match namedCodes line with
  | [] => if found " (" line then [before " (" line] else []
  | cs => cs
  end.

Definition conflictCodes : list string := ["UTXO_SPENT"; "TX_INVALID_DOUBLE_SPEND"; "TX_CONFLICTING"].
Definition validatorCodes : list string :=
  ["TX_INVALID"; "TX_POLICY"; "TX_LOCK_TIME"; "TX_MISSING_PARENT"; "TX_LOCKED"; "TX_COINBASE_IMMATURE"; "UTXO_FROZEN";
   "UTXO_NON_FINAL"; "UTXO_INVALID_SIZE"; "INVALID_ARGUMENT"].

(** A double spend says most, then another verdict of the validator, then any
    other code, then the catch-all, then free text. *)
Definition tier (line : string) : nat :=
  if existsb (fun c => bool_decide (c ∈ conflictCodes)) (codesOf line) then 4
  else if existsb (fun c => bool_decide (c ∈ validatorCodes)) (codesOf line) then 3
  else if existsb (fun c => bool_decide (c ≠ "PROCESSING")) (codesOf line) then 2
  else if bool_decide (codesOf line = []) then 0 else 1.

Definition namesSpender (line : string) : bool := bool_decide (FindAllString competingSpenderPattern line ≠ []).

(** Among lines of one tier, one that names the competing spender. *)
Definition rank (line : string) : nat := (2 * tier line + if namesSpender line then 1 else 0)%nat.

Definition tierScore (n : nat) : Z := match n with 0%nat => 0 | 1%nat => 20 | 2%nat => 25 | 3%nat => 30 | _ => 40 end.

Lemma oneOf_elem name l : oneOf name l = bool_decide (name ∈ l).
Proof.
  unfold oneOf. symmetry. destruct (existsb _ l) eqn:E.
  - apply existsb_exists in E as (x & Hx & ->%String.eqb_eq). by apply bool_decide_eq_true, list_elem_of_In.
  - apply bool_decide_eq_false. intros Hx. apply not_true_iff_false in E. apply E, existsb_exists. exists name.
    split; [by apply list_elem_of_In|apply String.eqb_refl].
Qed.

Definition codeTier (name : string) : nat :=
  if bool_decide (name ∈ conflictCodes) then 4
  else if bool_decide (name ∈ validatorCodes) then 3 else if bool_decide (name ≠ "PROCESSING") then 2 else 1.

Lemma codeNameScore_tier name : codeNameScore name = tierScore (codeTier name).
Proof.
  unfold codeNameScore, codeTier. rewrite !oneOf_elem. fold conflictCodes validatorCodes.
  case_bool_decide; [done|]. case_bool_decide; [done|]. rewrite (bool_decide_ext (name ∈ ["PROCESSING"]) (name = "PROCESSING")) by apply list_elem_of_singleton.
  by do 2 case_bool_decide.
Qed.

Lemma tierScore_lt a b : (a <= 4)%nat -> (b <= 4)%nat -> (tierScore a < tierScore b)%Z ↔ (a < b)%nat.
Proof. intros Ha Hb. do 5 (destruct a as [|a]; [do 5 (destruct b as [|b]; [cbv [tierScore]; lia|]); lia|]). lia. Qed.

Lemma tierScore_nonneg n : (0 <= tierScore n)%Z.
Proof. do 4 (destruct n as [|n]; [cbv [tierScore]; lia|]). cbv [tierScore]. lia. Qed.

Definition topTier (cs : list string) : nat := foldr (fun c n => Nat.max (codeTier c) n) 0%nat cs.

Lemma codeTier_range c : (1 <= codeTier c <= 4)%nat.
Proof. unfold codeTier. repeat case_bool_decide; lia. Qed.
Lemma topTier_range cs : (topTier cs <= 4)%nat.
Proof. induction cs as [|c cs IH]; cbn [topTier foldr]; [lia|]. fold (topTier cs). pose proof (codeTier_range c). lia. Qed.

Lemma tier_top line : tier line = topTier (codesOf line).
Proof.
  unfold tier. induction (codesOf line) as [|c cs IH]; [done|]. cbn [existsb topTier foldr]. fold (topTier cs). rewrite <-IH.
  rewrite (bool_decide_false (c :: cs = [])) by done. unfold codeTier. clear IH.
  repeat case_bool_decide; cbn [orb]; repeat (destruct (existsb _ cs); cbn [orb]); subst; try done.
Qed.

Lemma score_fold cs best0 :
  foldl (fun best name => Z.max best (codeNameScore name)) best0 cs
    = match cs with [] => best0 | _ => Z.max best0 (tierScore (topTier cs)) end.
Proof.
  revert best0. induction cs as [|c cs IH]; intros best0; [done|]. cbn [foldl]. rewrite IH, codeNameScore_tier. cbn [topTier foldr].
  fold (topTier cs). pose proof (codeTier_range c). pose proof (topTier_range cs).
  assert (tierScore (Nat.max (codeTier c) (topTier cs)) = Z.max (tierScore (codeTier c)) (tierScore (topTier cs))) as E.
  { destruct (Nat.max_spec (codeTier c) (topTier cs)) as [[Hl ->]|[Hl ->]].
    - apply tierScore_lt in Hl; lia.
    - destruct (decide (topTier cs = codeTier c)) as [->|]; [lia|]. assert (topTier cs < codeTier c)%nat as Hx by lia. apply tierScore_lt in Hx; lia. }
  destruct cs as [|c' cs]; [cbn in E |- *; rewrite Nat.max_0_r in *; lia|]. rewrite E. lia.
Qed.

Lemma score_tier line : rejectionLineScore line = tierScore (tier line).
Proof.
  rewrite tier_top. unfold rejectionLineScore, codesOf. rewrite score_fold. destruct (namedCodes line) as [|c cs].
  - cbn [Z.leb Z.compare]. destruct (found " (" line); [|done]. rewrite codeNameScore_tier. cbn. by rewrite Nat.max_0_r.
  - pose proof (tierScore_nonneg (topTier (c :: cs))).
    rewrite (proj2 (Z.leb_le _ _)) by lia. lia.
Qed.

Lemma spenders_named line : (0 <? length (competingSpenders line))%nat = namesSpender line.
Proof.
  unfold competingSpenders, namesSpender.
  assert (∀ ms out, out ≠ [] -> foldl (fun out m => let txid := ToLower (String.substring (String.length m - 64) 64 m) in
    if oneOf txid out then out else out ++ [txid]) out ms ≠ []) as Hf.
  { induction ms as [|m ms IH]; intros out Hn; [done|]. cbn [foldl]. apply IH. destruct (oneOf _ _); [done|]. by destruct out. }
  destruct (FindAllString competingSpenderPattern line) as [|m ms]; [done|]. rewrite bool_decide_true by done. cbn [foldl]. apply Nat.ltb_lt.
  match goal with |- (0 < length (foldl ?f ?o ms))%nat => specialize (Hf ms o) end. destruct (foldl _ _ ms); [|cbn; lia]. exfalso. by apply Hf.
Qed.

Lemma prefer_rank c l : c ≠ "" -> l ≠ "" -> preferRejectionLine c l = if (rank c <? rank l)%nat then l else c.
Proof.
  intros Hc Hl. unfold preferRejectionLine. rewrite (proj2 (String.eqb_neq l "") Hl), (proj2 (String.eqb_neq c "") Hc). cbv zeta.
  rewrite spenders_named, !score_tier. assert ((length (competingSpenders c) =? 0)%nat = negb (namesSpender c)) as ->.
  { rewrite <-spenders_named. by destruct (length _). }
  assert (∀ x, (tier x <= 4)%nat) as Ht by (intros x; rewrite tier_top; apply topTier_range).
  pose proof (tierScore_lt (tier c) (tier l) (Ht c) (Ht l)). pose proof (tierScore_lt (tier l) (tier c) (Ht l) (Ht c)).
  unfold rank. destruct (Z.ltb_spec (tierScore (tier c)) (tierScore (tier l))) as [Hlt|Hge].
  - destruct (Nat.ltb_spec (2 * tier c + if namesSpender c then 1 else 0) (2 * tier l + if namesSpender l then 1 else 0)) as [|Hx]; [done|].
    exfalso. destruct (namesSpender c), (namesSpender l); lia.
  - destruct (Z.eqb_spec (tierScore (tier l)) (tierScore (tier c))) as [E|E].
    + assert (tier l = tier c) as -> by lia. destruct (namesSpender c), (namesSpender l); cbn [andb negb];
        match goal with |- context [(?a <? ?b)%nat] => destruct (Nat.ltb_spec a b) end; try done; lia.
    + cbn [andb]. match goal with |- context [(?a <? ?b)%nat] => destruct (Nat.ltb_spec a b) as [Hx|] end; [|done].
      exfalso. destruct (namesSpender c), (namesSpender l); lia.
Qed.

(** ** The first of the best lines *)

Definition firstBest (ls : list string) (l : string) : Prop :=
  ∃ pre suf, ls = pre ++ l :: suf ∧ l ≠ "" ∧ (∀ x, x ∈ pre -> x ≠ "" -> (rank x < rank l)%nat) ∧ (∀ x, x ∈ suf -> x ≠ "" -> (rank x <= rank l)%nat).

Lemma prefer_nil_l l : preferRejectionLine "" l = l.
Proof. unfold preferRejectionLine. destruct (String.eqb_spec l ""); [by subst|done]. Qed.
Lemma prefer_nil_r c : preferRejectionLine c "" = c.
Proof. done. Qed.

Lemma firstBest_best ls l : firstBest ls l -> best ls = l.
Proof.
  intros (pre & suf & -> & Hl & Hp & Hs). rewrite cons_middle, app_assoc. unfold best. rewrite foldl_app. fold (best (pre ++ [l])).
  rewrite best_snoc. assert (preferRejectionLine (best pre) l = l) as ->.
  { destruct (decide (best pre = "")) as [->|Hn]; [apply prefer_nil_l|]. rewrite prefer_rank by done.
    specialize (Hp _ (best_in _ Hn) Hn). by destruct (Nat.ltb_spec (rank (best pre)) (rank l)); [|lia]. }
  induction suf as [|x suf IH]; [done|]. cbn [foldl]. assert (preferRejectionLine l x = l) as ->.
  { destruct (decide (x = "")) as [->|Hx]; [done|]. rewrite prefer_rank by done. specialize (Hs x (list_elem_of_here _ _) Hx).
    by destruct (Nat.ltb_spec (rank l) (rank x)); [lia|]. }
  apply IH. intros y Hy. apply Hs. by right.
Qed.

Lemma best_firstBest ls : best ls ≠ "" -> firstBest ls (best ls).
Proof.
  induction ls as [|x ls IH] using rev_ind; [done|]. rewrite best_snoc. intros Hn.
  destruct (decide (best ls = "")) as [E|Hb].
  - rewrite E, prefer_nil_l in *. exists ls, []. split_and!; [done|done| |by intros y ?%elem_of_nil].
    intros y Hy Hny. exfalso. by apply Hny, (proj1 (best_empty ls) E).
  - destruct (IH Hb) as (pre & suf & E & _ & Hp & Hs). destruct (decide (x = "")) as [->|Hx].
    { rewrite prefer_nil_r. exists pre, (suf ++ [""]). split_and!; [by rewrite E at 1; rewrite <-app_assoc|done|done|].
      intros y [Hy| ->%list_elem_of_singleton]%elem_of_app Hny; [by apply Hs|done]. }
    rewrite prefer_rank by done. destruct (Nat.ltb_spec (rank (best ls)) (rank x)) as [Hlt|Hle].
    + exists ls, []. split_and!; [done|done| |by intros y ?%elem_of_nil]. intros y Hy Hny. eapply Nat.le_lt_trans; [|exact Hlt].
      rewrite E in Hy. apply elem_of_app in Hy as [Hy|[->|Hy]%elem_of_cons]; [|done|by apply Hs]. specialize (Hp y Hy Hny). lia.
    + exists pre, (suf ++ [x]). split_and!; [by rewrite E at 1; rewrite <-app_assoc|done|done|].
      intros y [Hy| ->%list_elem_of_singleton]%elem_of_app Hny; [by apply Hs|done].
Qed.

(** ** Sorted keys *)

Lemma str_leb_trans a b c : str_leb a b = true -> str_leb b c = true -> str_leb a c = true.
Proof.
  unfold str_leb. rewrite !negb_true_iff. intros H1 H2. destruct (str_ltb c a) eqn:E; [|done]. exfalso.
  destruct (str_ltb_total a b) as [Hab|[->|Hab]]; [|congruence..]. pose proof (str_ltb_trans c a b E Hab). congruence.
Qed.
Lemma str_leb_antisym a b : str_leb a b = true -> str_leb b a = true -> a = b.
Proof. unfold str_leb. rewrite !negb_true_iff. intros H1 H2. destruct (str_ltb_total a b) as [?|[?|?]]; congruence. Qed.

Lemma insertString_sorted x l :
  StronglySorted (fun a b => str_leb a b = true) l -> StronglySorted (fun a b => str_leb a b = true) (insertString x l).
Proof.
  induction 1 as [|y l Hs IH Hy]; cbn [insertString]; [by repeat constructor|].
  destruct (str_ltb y x) eqn:E.
  - constructor; [done|]. rewrite insertString_perm. constructor; [|done]. unfold str_leb. by rewrite (str_ltb_asym _ _ E).
  - assert (str_leb x y = true) as Hxy by (unfold str_leb; by rewrite E). constructor; [by constructor|]. constructor; [done|].
    eapply Forall_impl; [exact Hy|]. intros z Hz. by eapply str_leb_trans.
Qed.
Lemma sortStrings_sorted l : StronglySorted (fun a b => str_leb a b = true) (sortStrings l).
Proof. induction l as [|x l IH]; [constructor|]. by apply insertString_sorted. Qed.

Lemma omap_split {A B} (f : A -> option B) l pre x suf :
  omap f l = pre ++ x :: suf -> ∃ l1 a l2, l = l1 ++ a :: l2 ∧ f a = Some x ∧ omap f l1 = pre ∧ omap f l2 = suf.
Proof.
  revert pre. induction l as [|a l IH]; intros pre; cbn [omap list_omap]; [by destruct pre|].
  destruct (f a) as [y|] eqn:Ea.
  - destruct pre as [|z pre]; cbn [app]; intros [= -> E].
    + by exists [], a, l.
    + destruct (IH pre E) as (l1 & b & l2 & -> & ? & <- & <-). exists (a :: l1), b, l2. cbn [omap list_omap]. by rewrite Ea.
  - intros E. destruct (IH pre E) as (l1 & b & l2 & -> & ? & <- & <-). exists (a :: l1), b, l2. cbn [omap list_omap]. by rewrite Ea.
Qed.

(** As many images as elements: the function is defined and injective there. *)
Lemma image_size {A} (f : A -> option nat) l :
  NoDup l -> (size (list_to_set (omap f l) : gset nat) <= length l)%nat
  ∧ ((length l <= size (list_to_set (omap f l) : gset nat))%nat ↔ (∀ k, k ∈ l -> f k ≠ None) ∧ ∀ k k', k ∈ l -> k' ∈ l -> f k = f k' -> k = k').
Proof.
  induction 1 as [|k l Hk _ [IH1 IH2]]; [split; [done|]; split; [|done]; intros _; split; [by intros k ?%elem_of_nil|by intros k k' ?%elem_of_nil]|].
  cbn [omap list_omap length]. destruct (f k) as [j|] eqn:Ej.
  2: { split; [lia|]. split; [lia|]. intros [Hd _]. by destruct (Hd k (list_elem_of_here _ _)). }
  cbn [list_to_set]. set (X := list_to_set (omap f l) : gset nat) in *. assert (∀ j', j' ∈ X ↔ ∃ k', k' ∈ l ∧ f k' = Some j') as HX.
  { intros j'. unfold X. by rewrite elem_of_list_to_set, list_elem_of_omap. }
  destruct (decide (j ∈ X)) as [Hj|Hj].
  - assert ({[j]} ∪ X = X) as -> by set_solver. split; [lia|]. split; [lia|]. intros [_ Hi]. exfalso. apply HX in Hj as (k' & Hk' & Ek').
    apply Hk. rewrite (Hi k k'); [done|left|by right|congruence].
  - rewrite size_union, size_singleton by set_solver. split; [lia|]. transitivity (length l <= size X)%nat; [lia|]. rewrite IH2. split.
    + intros [Hd Hi]. split; [intros x [->|Hx]%elem_of_cons; [congruence|by apply Hd]|].
      intros x y [->|Hx]%elem_of_cons [->|Hy]%elem_of_cons E; [done| | |by apply Hi]; exfalso; apply Hj, HX; [exists y|exists x]; split; congruence.
    + intros [Hd Hi]. split; [intros x Hx; apply Hd; by right|]. intros x y Hx Hy. apply Hi; by right.
Qed.

(** ** Whose line it is *)

Section Exact.
Context `{TxParser} `{MapOrder}.
Variable batch : list propagationMsg.

(** The transaction at [i] is the only one of the chunk that spends it. *)
Definition sole (i : nat) (outpoint : string) : Prop := spends batch i outpoint ∧ ∀ j, spends batch j outpoint -> j = i.

(** The line names an outpoint that [i] alone spends, and none that another
    transaction alone spends. *)
Definition placedOn (i : nat) (line : string) : Prop :=
  (∃ ref, ref ∈ FindAllString outpointRefPattern line ∧ sole i (ToLower ref))
  ∧ ∀ j ref, ref ∈ FindAllString outpointRefPattern line -> sole j (ToLower ref) -> j = i.

Lemma index_sole_iff k i : buildSubmittedOutpointIndex batch !! k = Some (Z.of_nat i) ↔ sole i k.
Proof.
  split; [apply index_sole|]. intros [Hs Hu]. pose proof (index_owned batch k) as Ho.
  destruct (buildSubmittedOutpointIndex batch !! k) as [z|].
  - destruct Ho as [(j & -> & Hj%allKeys_spends & _)|(_ & a & b & Hab & Ha%allKeys_spends & Hb%allKeys_spends)].
    + by rewrite (Hu j Hj).
    + exfalso. apply Hab. by rewrite (Hu a Ha), (Hu b Hb).
  - exfalso. apply (Ho i). by apply allKeys_spends.
Qed.

Lemma attributeRefs_none owners refs : foldl (attributeRef owners) None refs = None.
Proof. by induction refs. Qed.

Lemma attributeRefs_kept owners refs z0 z :
  foldl (attributeRef owners) (Some z0) refs = Some z ->
  ((0 <= z0)%Z -> z = z0) ∧ ∀ ref idx, ref ∈ refs -> owners !! ToLower ref = Some idx -> (0 <= idx)%Z -> z = idx.
Proof.
  revert z0. induction refs as [|ref refs IH]; intros z0; cbn [foldl]; [intros [= <-]; split; [done|by intros ?? ?%elem_of_nil]|].
  unfold attributeRef at 2. destruct (owners !! ToLower ref) as [idx|] eqn:Eo.
  - destruct (Z.eqb_spec idx outpointOwnerAmbiguous) as [->|Hne].
    + intros [H1 H2]%IH. split; [done|]. intros r x [->|Hr]%elem_of_cons Ex Hx; [|by eapply H2]. rewrite Eo in Ex. injection Ex as <-.
      unfold outpointOwnerAmbiguous in Hx. lia.
    + destruct (Z.leb_spec 0 z0) as [Hz|Hz]; cbn [andb].
      * destruct (Z.eqb_spec z0 idx) as [->|Hd]; cbn [negb]; [|by rewrite attributeRefs_none]. intros [H1 H2]%IH. split; [done|].
        intros r x [->|Hr]%elem_of_cons Ex Hx; [|by eapply H2]. rewrite Eo in Ex. injection Ex as <-. by apply H1.
      * intros [H1 H2]%IH. split; [lia|]. intros r x [->|Hr]%elem_of_cons Ex Hx; [|by eapply H2]. rewrite Eo in Ex. injection Ex as <-. by apply H1.
  - intros [H1 H2]%IH. split; [done|]. intros r x [->|Hr]%elem_of_cons Ex Hx; [congruence|by eapply H2].
Qed.

Lemma attributeRefs_all owners refs z0 i :
  (z0 = (-1)%Z ∨ z0 = Z.of_nat i) ->
  (∀ ref idx, ref ∈ refs -> owners !! ToLower ref = Some idx -> idx = outpointOwnerAmbiguous ∨ idx = Z.of_nat i) ->
  foldl (attributeRef owners) (Some z0) refs ≠ None.
Proof.
  revert z0. induction refs as [|ref refs IH]; intros z0 Hz Hr; cbn [foldl]; [done|].
  assert (∀ r x, r ∈ refs -> owners !! ToLower r = Some x -> x = outpointOwnerAmbiguous ∨ x = Z.of_nat i) as Hr' by (intros r x ?; apply Hr; by right).
  unfold attributeRef at 2. destruct (owners !! ToLower ref) as [idx|] eqn:Eo; [|by apply IH].
  destruct (Hr ref idx (list_elem_of_here _ _) Eo) as [->| ->]; [by apply IH|].
  destruct (Z.eqb_spec (Z.of_nat i) outpointOwnerAmbiguous) as [?|_]; [by apply IH|].
  destruct Hz as [->| ->]; cbn [Z.leb Z.compare andb]; [apply IH; auto|]. rewrite Z.eqb_refl, andb_false_r. apply IH; auto.
Qed.

Lemma attributeOne_iff line i : attributeOneConflictLine line (buildSubmittedOutpointIndex batch) = Some i ↔ placedOn i line.
Proof.
  unfold attributeOneConflictLine. destruct (foldl _ _ _) as [z|] eqn:E; split.
  - destruct (Z.ltb_spec z 0) as [|Hz]; [done|]. intros [= <-]. destruct (attributeRefs_kept _ _ _ _ E) as [_ Hk].
    destruct (attributeRefs_sound _ _ _ _ E) as [->|(ref & Hr & Eo & Hne)]; [lia|]. destruct (index_values _ _ _ Eo) as [?|[i ->]]; [done|].
    rewrite Nat2Z.id. split; [exists ref; split; [done|by apply index_sole_iff]|]. intros j r Hr' Hs%index_sole_iff.
    specialize (Hk r _ Hr' Hs ltac:(lia)). lia.
  - intros [(ref & Hr & Hs%index_sole_iff) _]. destruct (attributeRefs_kept _ _ _ _ E) as [_ Hk]. rewrite (Hk ref _ Hr Hs ltac:(lia)).
    destruct (Z.ltb_spec (Z.of_nat i) 0); [lia|]. by rewrite Nat2Z.id.
  - done.
  - intros [_ Hu]. exfalso. apply (attributeRefs_all (buildSubmittedOutpointIndex batch) (FindAllString outpointRefPattern line) (-1) i); [by left| |exact E].
    intros ref idx Hr Eo. destruct (index_values _ _ _ Eo) as [?|[j ->]]; [by left|right]. f_equal. eapply Hu; [exact Hr|by apply index_sole_iff].
Qed.

(** ** The line an attributed transaction gets *)

Definition alien (m : gmap string string) (k line : string) : Prop := m !! k = Some line ∧ k ∉ lowerTxids batch.

(** Of the lines placed on [i], the best; of equally good ones, the first by
    its key. *)
Definition attributedTo (m : gmap string string) (i : nat) (line : string) : Prop :=
  ∃ k, alien m k line ∧ placedOn i line
    ∧ ∀ k' line', alien m k' line' -> placedOn i line' -> (rank line' < rank line)%nat ∨ (rank line' = rank line ∧ str_leb k k' = true).

Lemma placedOn_nonempty i line : placedOn i line -> line ≠ "".
Proof. intros [(ref & Hr & _) _] ->. vm_compute in Hr. by apply elem_of_nil in Hr. Qed.

Lemma attributedOf_fold m :
  attributedOf batch m = foldl (attributeKey m (buildSubmittedOutpointIndex batch)) ∅ (sortStrings (alienKeys batch m)).
Proof.
  unfold attributedOf. rewrite alien_count. destruct (alienKeys batch m) as [|k0 ks] eqn:Ek; [done|]. cbn [length]. rewrite (proj2 (Nat.ltb_lt 0 (S _))) by lia.
  unfold attributeConflictLines. change (List.map fst _) with (alienKeys batch m). rewrite Ek.
  destruct (size m =? 0)%nat eqn:Em; [|cbn [orb]; destruct (size (buildSubmittedOutpointIndex batch) =? 0)%nat eqn:Eo; [|done]].
  - exfalso. apply Nat.eqb_eq, map_size_empty_inv in Em. assert (k0 ∈ alienKeys batch m) as Hk by (rewrite Ek; by left).
    apply alienKeys_elem in Hk as [[l Hl] _]. by rewrite Em, lookup_empty in Hl.
  - apply Nat.eqb_eq, map_size_empty_inv in Eo. rewrite Eo. generalize (sortStrings (k0 :: ks)) as keys. induction keys as [|k keys IH]; [done|].
    cbn [foldl]. rewrite IH at 1. f_equal. unfold attributeKey. cbv zeta. assert (∀ line, attributeOneConflictLine line ∅ = None) as ->; [|done].
    intros line. unfold attributeOneConflictLine. assert (∀ refs, foldl (attributeRef ∅) (Some (-1)%Z) refs = Some (-1)%Z) as ->; [|done].
    induction refs as [|r refs IHr]; [done|]. cbn [foldl]. unfold attributeRef at 2. by rewrite lookup_empty.
Qed.

Definition linesOn (m : gmap string string) (owners : gmap string Z) (i : nat) (keys : list string) : list string :=
  omap (fun k => let line := default "" (m !! k) in
                 match attributeOneConflictLine line owners with Some j => if (j =? i)%nat then Some line else None | None => None end) keys.

Lemma attributeKeys_lookup m owners i keys acc :
  foldl (attributeKey m owners) acc keys !! i =
    match linesOn m owners i keys with [] => acc !! i | ls => Some (foldl preferRejectionLine (default "" (acc !! i)) ls) end.
Proof.
  revert acc. induction keys as [|k keys IH]; intros acc; [done|]. cbn [foldl]. rewrite IH. unfold linesOn. cbn [omap list_omap]. fold (linesOn m owners i keys).
  unfold attributeKey. cbv zeta. destruct (attributeOneConflictLine (default "" (m !! k)) owners) as [j|]; [|done].
  destruct (Nat.eqb_spec j i) as [->|Hd].
  - rewrite lookup_insert_eq. cbn [foldl]. by destruct (linesOn m owners i keys).
  - by rewrite lookup_insert_ne.
Qed.

Lemma linesOn_elem m i keys line :
  line ∈ linesOn m (buildSubmittedOutpointIndex batch) i keys ↔ ∃ k, k ∈ keys ∧ default "" (m !! k) = line ∧ placedOn i line.
Proof.
  unfold linesOn. rewrite list_elem_of_omap. cbv zeta. split.
  - intros (k & Hk & E). destruct (attributeOneConflictLine _ _) as [j|] eqn:Ej; [|done]. destruct (Nat.eqb_spec j i) as [->|]; [|done].
    injection E as <-. exists k. split_and!; [done|done|by apply attributeOne_iff].
  - intros (k & Hk & <- & Hp%attributeOne_iff). exists k. split; [done|]. by rewrite Hp, Nat.eqb_refl.
Qed.

Lemma alienKeys_alien m k : k ∈ alienKeys batch m ↔ ∃ line, alien m k line.
Proof.
  rewrite alienKeys_elem. unfold alien, inBatch. rewrite bool_decide_eq_false. split; [intros [[l ?] ?]; by exists l|].
  intros (l & ? & ?). split; [by eexists|done].
Qed.

Lemma attributedTo_unique m i l l' : attributedTo m i l -> attributedTo m i l' -> l = l'.
Proof.
  intros (k & Ha & Hp & Hb) (k' & Ha' & Hp' & Hb'). destruct (Hb k' l' Ha' Hp') as [?|[? Hk]], (Hb' k l Ha Hp) as [?|[? Hk']]; try lia.
  rewrite (str_leb_antisym k k' Hk Hk') in Ha. destruct Ha as [Ha _], Ha' as [Ha' _]. congruence.
Qed.

Lemma attributedOf_exists m i k line : alien m k line -> placedOn i line ->
  ∃ l, attributedOf batch m !! i = Some l ∧ l = best (linesOn m (buildSubmittedOutpointIndex batch) i (sortStrings (alienKeys batch m))) ∧ l ≠ "".
Proof.
  intros Ha Hp. rewrite attributedOf_fold, attributeKeys_lookup, lookup_empty.
  assert (line ∈ linesOn m (buildSubmittedOutpointIndex batch) i (sortStrings (alienKeys batch m))) as Hin.
  { apply linesOn_elem. exists k. split_and!; [rewrite sortStrings_perm; apply alienKeys_alien; by exists line|by rewrite (proj1 Ha)|done]. }
  destruct (linesOn _ _ _ _) as [|x ls] eqn:El; [by apply elem_of_nil in Hin|]. rewrite <-El in *. eexists. split; [done|]. split; [done|].
  intros E. apply (placedOn_nonempty _ _ Hp). by apply (proj1 (best_empty _) E).
Qed.

Lemma attributedOf_to m i l : attributedOf batch m !! i = Some l -> attributedTo m i l.
Proof.
  intros E. assert (∃ k line, alien m k line ∧ placedOn i line) as (k0 & line0 & Ha0 & Hp0).
  { rewrite attributedOf_fold, attributeKeys_lookup, lookup_empty in E. destruct (linesOn _ _ _ _) as [|x ls] eqn:El; [done|].
    assert (x ∈ linesOn m (buildSubmittedOutpointIndex batch) i (sortStrings (alienKeys batch m))) as Hx by (rewrite El; by left).
    apply linesOn_elem in Hx as (k & Hk & Ed & Hp). rewrite sortStrings_perm in Hk. apply alienKeys_alien in Hk as [line Ha].
    rewrite (proj1 Ha) in Ed. cbn in Ed. subst x. by exists k, line. }
  destruct (attributedOf_exists m i k0 line0 Ha0 Hp0) as (l' & E' & El & Hn). rewrite E in E'. injection E' as <-.
  rewrite El in Hn. destruct (best_firstBest _ Hn) as (pre & suf & Els & _ & Hpre & Hsuf). rewrite <-El in Els, Hpre, Hsuf.
  pose proof (sortStrings_sorted (alienKeys batch m)) as Hsort. unfold linesOn in Els. apply omap_split in Els as (k1 & k & k2 & Ek & Ef & E1 & E2).
  fold (linesOn m (buildSubmittedOutpointIndex batch) i k1) in E1. fold (linesOn m (buildSubmittedOutpointIndex batch) i k2) in E2.
  assert (k ∈ alienKeys batch m) as Hk by (rewrite <-(sortStrings_perm (alienKeys batch m)), Ek; apply elem_of_app; right; by left).
  apply alienKeys_alien in Hk as [line Ha]. cbv zeta in Ef. rewrite (proj1 Ha) in Ef. change (default "" (Some line)) with line in Ef.
  destruct (attributeOneConflictLine line _) as [j|] eqn:Ej; [|done]. destruct (Nat.eqb_spec j i) as [->|]; [|done]. injection Ef as ->.
  exists k. split_and!; [done|by apply attributeOne_iff|]. intros k' line' Ha' Hp'.
  assert (k' ∈ k1 ++ k :: k2) as Hin by (rewrite <-Ek, sortStrings_perm; apply alienKeys_alien; by exists line').
  pose proof (placedOn_nonempty _ _ Hp') as Hn'. apply elem_of_app in Hin as [Hin|[->|Hin]%elem_of_cons].
  - left. apply Hpre; [|done]. rewrite <-E1. apply linesOn_elem. exists k'. by rewrite (proj1 Ha').
  - assert (line' = l) as -> by (destruct Ha as [Ha _], Ha' as [Ha' _]; congruence). right. split; [done|]. unfold str_leb. by rewrite str_ltb_irrefl.
  - assert (rank line' <= rank l)%nat as Hr by (apply Hsuf; [rewrite <-E2; apply linesOn_elem; exists k'; by rewrite (proj1 Ha')|done]).
    assert (str_leb k k' = true) as Hle.
    { rewrite Ek, cons_middle, app_assoc in Hsort. eapply (StronglySorted_app_1_elem_of _ _ _ k k' Hsort); [apply elem_of_app; right; by left|done]. }
    destruct (decide (rank line' = rank l)); [by right|left; lia].
Qed.

Lemma attributedOf_iff m i l : attributedOf batch m !! i = Some l ↔ attributedTo m i l.
Proof.
  split; [apply attributedOf_to|]. intros Ha. pose proof Ha as (k & Hk & Hp & _). destruct (attributedOf_exists m i k l Hk Hp) as (l' & E & _).
  by rewrite E, (attributedTo_unique m i l l' Ha (attributedOf_to _ _ _ E)).
Qed.

Lemma attributedOf_none m i : attributedOf batch m !! i = None ↔ ∀ k line, alien m k line -> ¬ placedOn i line.
Proof.
  split.
  - intros E k line Ha Hp. destruct (attributedOf_exists m i k line Ha Hp) as (l & E' & _). congruence.
  - intros Hn. destruct (attributedOf batch m !! i) as [l|] eqn:E; [|done]. destruct (attributedOf_to _ _ _ E) as (k & Ha & Hp & _). by destruct (Hn k l Ha).
Qed.

(** ** Nothing is left unplaced *)

(** Every line is filed under a submitted txid or placed on a transaction, no
    two on the same one. *)
Definition fullyPlaced (f : TxsFailures) : Prop :=
  Unkeyed f = [] ∧ (∀ k line, alien (ByKey f) k line -> ∃ j, placedOn j line)
  ∧ ∀ k k' line line' j, alien (ByKey f) k line -> alien (ByKey f) k' line' -> placedOn j line -> placedOn j line' -> k = k'.

Definition ownerOf (m : gmap string string) (k : string) : option nat :=
  attributeOneConflictLine (default "" (m !! k)) (buildSubmittedOutpointIndex batch).

Lemma attributedOf_size m : size (attributedOf batch m) = size (list_to_set (omap (ownerOf m) (alienKeys batch m)) : gset nat).
Proof.
  rewrite <-size_dom. f_equal. apply set_eq. intros i. rewrite elem_of_dom, elem_of_list_to_set, list_elem_of_omap. split.
  - intros [l (k & Ha & Hp & _)%attributedOf_to]. exists k. split; [apply alienKeys_alien; by exists l|].
    unfold ownerOf. rewrite (proj1 Ha). by apply attributeOne_iff.
  - intros (k & [line Ha]%alienKeys_alien & E). unfold ownerOf in E. rewrite (proj1 Ha) in E. apply attributeOne_iff in E.
    destruct (attributedOf_exists m i k line Ha E) as (l & -> & _). by eexists.
Qed.

Lemma unplaceable_zero f : unplaceableOf batch (Some f) = 0%nat ↔ fullyPlaced f.
Proof.
  unfold unplaceableOf, fullyPlaced. cbn [Keyed]. rewrite alien_count, attributedOf_size.
  destruct (image_size (ownerOf (ByKey f)) _ (alienKeys_nodup batch (ByKey f))) as [Hle Hiff].
  transitivity (Unkeyed f = [] ∧ (length (alienKeys batch (ByKey f)) <= size (list_to_set (omap (ownerOf (ByKey f)) (alienKeys batch (ByKey f))) : gset nat))%nat).
  { destruct (Unkeyed f); cbn [length]; [intuition lia|]. split; [lia|by intros [? _]]. }
  rewrite Hiff. assert (∀ k line, alien (ByKey f) k line -> ∀ j, ownerOf (ByKey f) k = Some j ↔ placedOn j line) as Ho.
  { intros k line [Ha _] j. unfold ownerOf. rewrite Ha. apply attributeOne_iff. }
  apply and_iff_compat_l. split; intros [H1 H2]; split.
  - intros k line Ha. destruct (ownerOf (ByKey f) k) as [j|] eqn:E; [exists j; by eapply Ho|]. exfalso. apply (H1 k); [|done]. apply alienKeys_alien. by exists line.
  - intros k k' line line' j Ha Ha' Hp%(Ho k line Ha) Hp'%(Ho k' line' Ha'). apply H2; [apply alienKeys_alien; by eexists..|congruence].
  - intros k [line Ha]%alienKeys_alien. destruct (H1 k line Ha) as [j Hj%(Ho k line Ha)]. congruence.
  - intros k k' [line Ha]%alienKeys_alien [line' Ha']%alienKeys_alien E. destruct (H1 k line Ha) as [j Hj]. apply (H2 k k' line line' j Ha Ha' Hj).
    apply (Ho k' line' Ha'). rewrite <-E. by apply (Ho k line Ha).
Qed.

(** ** One response *)

(** It accepted the chunk, or listed failures all of which are placed, none of
    them on the transaction. *)
Definition vouchesFor (i : nat) (msg : propagationMsg) (a : arrival) : Prop :=
  live a = true
  ∧ (jr_err (ar_result a) = None
     ∨ lists a = true ∧ ∃ f, jr_failures (ar_result a) = Some f ∧ ByKey f !! ToLower (TXID msg) = None ∧ fullyPlaced f
         ∧ ∀ k line, alien (ByKey f) k line -> ¬ placedOn i line).

Definition alienLines (m : gmap string string) : list string :=
  List.map snd (List.filter (fun kl => negb (inBatch batch kl.1)) (mapRange m)).

(** The line is filed under the transaction, or it is the one placed on it,
    or nothing else was submitted and it is the best of those without a place. *)
Definition lineOn (i : nat) (msg : propagationMsg) (a : arrival) (line : string) : Prop :=
  line ≠ "" ∧ lists a = true ∧ ∃ f, jr_failures (ar_result a) = Some f
  ∧ (ByKey f !! ToLower (TXID msg) = Some line ∨ attributedTo (ByKey f) i line
     ∨ (batch = [msg] ∧ ¬ fullyPlaced f ∧ firstBest (alienLines (ByKey f) ++ Unkeyed f) line)).

Lemma lists_failures a : lists a = true -> ∃ f, jr_failures (ar_result a) = Some f.
Proof.
  unfold lists. destruct (jr_failures (ar_result a)) as [f|]; [by exists f|]. cbn. by rewrite andb_false_r.
Qed.

Lemma keyedLine_filed i msg a f : batch !! i = Some msg -> jr_failures (ar_result a) = Some f -> keyedLine batch a i = ByKey f !! ToLower (TXID msg).
Proof. intros Hm Ef. unfold keyedLine, lowerTxids. by rewrite Ef, list_lookup_fmap, Hm. Qed.

Lemma accepts_iff i msg a : batch !! i = Some msg -> accepts batch i a = true ↔ vouchesFor i msg a.
Proof.
  intros Hm. unfold accepts, vouchesFor. rewrite andb_true_iff, orb_true_iff, bool_decide_eq_true. apply and_iff_compat_l, or_iff_compat_l.
  rewrite !andb_true_iff, !bool_decide_eq_true, Nat.eqb_eq. split.
  - intros [[[Hl Hk] Hat] Hu]. split; [done|]. destruct (lists_failures a Hl) as [f Ef]. exists f. rewrite (keyedLine_filed i msg a f Hm Ef) in Hk.
    unfold attributedLine in Hat. unfold unplaced in Hu. rewrite Ef in Hat, Hu. split_and!; [done|done|by apply unplaceable_zero|by apply attributedOf_none].
  - intros [Hl (f & Ef & Hk & Hu & Hat)]. rewrite (keyedLine_filed i msg a f Hm Ef). unfold attributedLine, unplaced. rewrite Ef.
    split_and!; [done|done|by apply attributedOf_none|by apply unplaceable_zero].
Qed.

Lemma bestAlien_best m : (alienFailureLines m batch).2 = best (alienLines m).
Proof.
  unfold alienFailureLines, alienLines, best. generalize "" as b, 0%nat as n. induction (mapRange m) as [|[k l] ps IH]; intros b n; [done|].
  cbn [foldl List.filter fst]. destruct (negb (inBatch batch k)); [|apply IH]. cbn [List.map foldl snd]. apply IH.
Qed.

Lemma single_chunk i msg : batch !! i = Some msg -> (length batch =? 1)%nat && (i =? 0)%nat = true ↔ batch = [msg].
Proof.
  intros Hm. rewrite andb_true_iff, !Nat.eqb_eq. split.
  - intros [El ->]. destruct batch as [|m0 [|? ?]]; try done. by injection Hm as ->.
  - intros E. rewrite E in Hm |- *. split; [done|]. by destruct i as [|[|i]].
Qed.

Lemma option_list_elem {A} (o : option A) x : x ∈ option_list o ↔ o = Some x.
Proof. destruct o as [y|]; cbn; [rewrite list_elem_of_singleton; split; congruence|split; [by intros ?%elem_of_nil|done]]. Qed.

Lemma linesFor_iff i msg a line : batch !! i = Some msg -> line ≠ "" -> line ∈ linesFor batch i a ↔ lineOn i msg a line.
Proof.
  intros Hm Hn. unfold linesFor, lineOn. destruct (lists a) eqn:Hl; [|split; [by intros ?%elem_of_nil|by intros (_ & ? & _)]].
  destruct (lists_failures a Hl) as [f Ef]. rewrite (keyedLine_filed i msg a f Hm Ef). unfold attributedLine, unplaced, unplacedLine. rewrite Ef. cbn [Keyed].
  transitivity (ByKey f !! ToLower (TXID msg) = Some line ∨ attributedTo (ByKey f) i line
     ∨ (batch = [msg] ∧ ¬ fullyPlaced f ∧ firstBest (alienLines (ByKey f) ++ Unkeyed f) line)).
  2: { split; [intros Hx; split_and!; [done|done|by exists f]|]. intros (_ & _ & f' & Ef' & Hx). by injection Ef' as <-. }
  rewrite !elem_of_app, !option_list_elem, <-attributedOf_iff. do 2 apply or_iff_compat_l.
  rewrite <-(single_chunk i msg Hm), <-unplaceable_zero, <-andb_assoc. destruct (_ && (i =? 0)%nat); [|rewrite andb_false_r; split; [by intros ?%elem_of_nil|by intros [? _]]].
  rewrite andb_true_r. destruct (Nat.ltb_spec 0 (unplaceableOf batch (Some f))) as [Hu|Hu].
  2: { split; [by intros ?%elem_of_nil|]. intros (_ & Hx & _). lia. }
  rewrite list_elem_of_singleton. assert (bestUnplaceableLine (alienFailureLines (ByKey f) batch).2 (Unkeyed f) = best (alienLines (ByKey f) ++ Unkeyed f)) as ->.
  { rewrite bestAlien_best. unfold bestUnplaceableLine, best. by rewrite foldl_app. }
  split.
  - intros ->. split_and!; [done|lia|by apply best_firstBest].
  - intros (_ & _ & Hb). symmetry. by apply firstBest_best.
Qed.

(** ** All responses *)

(** Some response has the line on the transaction, and with the response's
    status [h] it belongs to the bucket. *)
Definition heard (b : bucket) (i : nat) (msg : propagationMsg) (as_ : list arrival) (line : string) (h : Z) : Prop :=
  ∃ a, a ∈ as_ ∧ lineOn i msg a line ∧ statusHintOf (ar_result a) = h ∧ bucketOf line h = b.
Definition bestHeard (b : bucket) (i : nat) (msg : propagationMsg) (as_ : list arrival) (line : string) (h : Z) : Prop :=
  heard b i msg as_ line h ∧ ∀ line' h', heard b i msg as_ line' h' -> (rank line' <= rank line)%nat.
Definition vouched (i : nat) (msg : propagationMsg) (as_ : list arrival) : Prop := ∃ a, a ∈ as_ ∧ vouchesFor i msg a.
Definition nothingHeard (b : bucket) (i : nat) (msg : propagationMsg) (as_ : list arrival) : Prop := ∀ line h, ¬ heard b i msg as_ line h.

(** The verdict the responses call for. *)
Definition calledFor (now : Time) (i : nat) (msg : propagationMsg) (as_ : list arrival) (r : txResult) : Prop :=
  match class r with
  | txResultClassAccepted =>
      vouched i msg as_ ∧ status r = Some (statusRow (TXID msg) StatusAcceptedByNetwork 0 now "" [])
  | txResultClassRejected =>
      ¬ vouched i msg as_ ∧ ∃ line h, bestHeard bRejection i msg as_ line h
        ∧ let '(text, code) := classifyFailureLine line h in
          errMsg r = text ∧ status r = Some (statusRow (TXID msg) StatusRejected code now text (if (code =? StatusConflict)%Z then competingSpenders line else []))
  | txResultClassMissingParent =>
      ¬ vouched i msg as_ ∧ nothingHeard bRejection i msg as_ ∧ status r = None ∧ ∃ h, bestHeard bMissingParent i msg as_ (errMsg r) h
  | txResultClassRequeue =>
      ¬ vouched i msg as_ ∧ nothingHeard bRejection i msg as_ ∧ nothingHeard bMissingParent i msg as_ ∧ status r = None
      ∧ (nothingHeard bInfra i msg as_ ∨ ∃ h, bestHeard bInfra i msg as_ (errMsg r) h)
  | txResultClassUnknown => False
  end.

Lemma evidence_heard b i msg as_ line : batch !! i = Some msg -> line ≠ "" -> line ∈ evidence batch b i as_ ↔ ∃ h, heard b i msg as_ line h.
Proof.
  intros Hm Hn. unfold evidence, heard. rewrite list_elem_of_bind. split.
  - intros (a & Hl & Ha). apply list_elem_of_In, List.filter_In in Hl as [Hl%list_elem_of_In Hb].
    exists (hintOf a), a. split_and!; [done|by apply linesFor_iff|done|]. by destruct (bucketOf line (hintOf a)), b.
  - intros (h & a & Ha & Hl & <- & Hb). exists a. split; [|done]. apply list_elem_of_In, List.filter_In. split; [by apply list_elem_of_In, (linesFor_iff i msg)|].
    unfold hintOf. rewrite Hb. by destruct b.
Qed.

Lemma best_nothing b i msg as_ : batch !! i = Some msg -> best (evidence batch b i as_) = "" -> nothingHeard b i msg as_.
Proof.
  intros Hm E line h Hh. assert (line ≠ "") as Hn by (destruct Hh as (a & _ & [? _] & _); done).
  apply Hn, (proj1 (best_empty _) E), (evidence_heard b i msg); [done|done|by exists h].
Qed.

Lemma best_outranks b i msg as_ line h :
  batch !! i = Some msg -> best (evidence batch b i as_) ≠ "" -> heard b i msg as_ line h -> (rank line <= rank (best (evidence batch b i as_)))%nat.
Proof.
  intros Hm Hn Hh. assert (line ≠ "") as Hl by (destruct Hh as (a & _ & [? _] & _); done).
  assert (line ∈ evidence batch b i as_) as Hin by (apply (evidence_heard b i msg); [done|done|by exists h]).
  destruct (best_firstBest _ Hn) as (pre & suf & E & _ & Hp & Hs). rewrite E in Hin.
  apply elem_of_app in Hin as [Hin|[->|Hin]%elem_of_cons]; [specialize (Hp _ Hin Hl); lia|lia|by apply Hs].
Qed.

Lemma best_heard b i msg as_ :
  batch !! i = Some msg -> best (evidence batch b i as_) ≠ "" -> ∃ h, bestHeard b i msg as_ (best (evidence batch b i as_)) h.
Proof.
  intros Hm Hn. destruct (proj1 (evidence_heard b i msg as_ _ Hm Hn) (best_in _ Hn)) as [h Hh]. exists h. split; [done|].
  intros line' h'. by apply best_outranks.
Qed.

Lemma vouched_iff i msg as_ : batch !! i = Some msg -> existsb (accepts batch i) as_ = true ↔ vouched i msg as_.
Proof.
  intros Hm. rewrite existsb_exists. unfold vouched. setoid_rewrite (accepts_iff i msg _ Hm). by setoid_rewrite list_elem_of_In.
Qed.

Lemma vote_calledFor now s i msg as_ : batch !! i = Some msg -> calledFor now i msg as_ (resultOf now s msg (voteOn batch i as_)).
Proof.
  intros Hm. pose proof (voteOn_field batch bRejection i as_) as E1. pose proof (voteOn_field batch bMissingParent i as_) as E2.
  pose proof (voteOn_field batch bInfra i as_) as E3. cbn in E1, E2, E3. pose proof (vouched_iff i msg as_ Hm) as Hv. rewrite <-voteOn_accepted in Hv.
  pose proof (voteOn_status batch i as_) as Hs. unfold calledFor, resultOf. destruct (acceptedByAny (voteOn batch i as_)); cbn [class status]; [by rewrite <-Hv|].
  assert (¬ vouched i msg as_) as Hno by (by rewrite <-Hv). clear Hv.
  destruct (String.eqb_spec (rejectionLine (voteOn batch i as_)) "") as [El|El]; cbn [negb].
  - rewrite E1 in El. pose proof (best_nothing _ i msg as_ Hm El). destruct (String.eqb_spec (missingParentLine (voteOn batch i as_)) "") as [Em|Em]; cbn [negb class status errMsg].
    + rewrite E2 in Em. pose proof (best_nothing _ i msg as_ Hm Em). destruct (String.eqb_spec (infraLine (voteOn batch i as_)) "") as [Ei|Ei]; cbn [negb class status errMsg].
      * rewrite E3 in Ei. split_and!; [done..|]. left. by apply best_nothing.
      * rewrite E3 in *. split_and!; [done..|]. right. by apply best_heard.
    + rewrite E2 in *. split_and!; [done..|]. by apply best_heard.
  - destruct (classifyFailureLine _ _) as [text code] eqn:Ec. cbn [class status errMsg]. split; [done|].
    exists (rejectionLine (voteOn batch i as_)), (rejectionStatus (voteOn batch i as_)). rewrite Ec. split; [|done].
    destruct (Hs El) as (a & Ha & <- & Hl & Hb). split; [exists a; split_and!; [done|by apply linesFor_iff|done|done]|].
    rewrite E1 in *. intros line' h'. by apply best_outranks.
Qed.

Lemma silent_calledFor now s i msg as_ v l :
  batch !! i = Some msg -> unvoted (voteOn batch i as_) = true -> v = mkVote false "" (rejectionStatus v) "" l ->
  calledFor now i msg as_ (resultOf now s msg v).
Proof.
  intros Hm Hu ->. unfold unvoted in Hu. rewrite negb_true_iff, !orb_false_iff, !negb_false_iff, !String.eqb_eq in Hu. destruct Hu as [[[Ea E1] E2] E3].
  pose proof (voteOn_field batch bRejection i as_) as F1. pose proof (voteOn_field batch bMissingParent i as_) as F2.
  pose proof (voteOn_field batch bInfra i as_) as F3. cbn in F1, F2, F3. rewrite voteOn_accepted in Ea.
  assert (¬ vouched i msg as_) as Hno by (rewrite <-(vouched_iff i msg as_ Hm); congruence).
  assert (nothingHeard bRejection i msg as_ ∧ nothingHeard bMissingParent i msg as_ ∧ nothingHeard bInfra i msg as_) as (H1 & H2 & H3).
  { split_and!; apply best_nothing; congruence. }
  unfold calledFor, resultOf. cbn. destruct (negb (String.eqb l "")); cbn; split_and!; auto.
Qed.
End Exact.

(** ** Theorem *)

(** C16: for every chunk and every list of responses the result at a position
    is that of the transaction at that position, and the verdict is the one
    the responses call for.  It is accepted exactly if a response vouches for
    it: the peer took the whole chunk, or listed failures every one of which
    is filed under a submitted txid or names an outpoint only one submitted
    transaction spends, no two on the same transaction and none on this one.
    Otherwise it is rejected if some line about it is a verdict, with the line
    that says most (double spends, then the validator's other codes, then any
    code, then the catch-all, then free text; among equals one that names the
    competing spender) as reason; otherwise it misses a parent if some line
    says so, reported with the best of those lines; otherwise it is requeued,
    with the best line about a fault of a node if there is one.  The order in
    which the responses arrive does not change the class. *)
Theorem verdict_exact `{TxParser} `{MapOrder} batch chunkBytes now as_ i msg :
  batch !! i = Some msg ->
  ∃ r, resultsOf batch chunkBytes now as_ !! i = Some r ∧ rawTx r = RawTx msg ∧ calledFor batch now i msg as_ r
    ∧ ∀ as' r', as_ ≡ₚ as' -> resultsOf batch chunkBytes now as' !! i = Some r' -> class r' = class r.
Proof.
  intros Hm. destruct (resultsOf_lookup batch chunkBytes now as_ i msg Hm) as (v & E & Hv). eexists. split; [exact E|]. split_and!.
  - unfold resultOf. repeat case_match; done.
  - destruct Hv as [->|(Hu & l & Ev)]; [by apply vote_calledFor|by eapply silent_calledFor].
  - intros as' r' Hp Hr'. rewrite (result_class batch chunkBytes now as' i msg r' Hm Hr').
    rewrite (result_class batch chunkBytes now as_ i msg _ Hm E). symmetry. by apply verdict_perm.
Qed.

(** ** A run *)

#[local] Instance vOrder : MapOrder := {| mapRange := fun K V _ _ m => map_to_list m; mapRange_perm := fun K V _ _ m => Permutation_refl _ |}.
#[local] Instance vParser : TxParser := fun _ => None.

(** Two peers reject a transaction, one with the catch-all and one with the
    double spend: the latter is the reason, whichever answers first. *)
Definition rejecting (line : string) : arrival :=
  mkArrival (mkBroadcastJobResult "http://n" 400 (Some (mkTxsFailures {["c1" := line]} [])) (Some (mkSubmitErr false false "400"))) false.
Definition vBatch : list propagationMsg := [rawMsg "c1" [x00]; rawMsg "c2" [x01]].
Definition vResponses : list arrival := [rejecting "PROCESSING (4): failed"; rejecting (conflictLine "0")].

Lemma verdict_exact_witness :
  ∃ r, resultsOf vBatch 2 None vResponses !! 0%nat = Some r ∧ calledFor vBatch None 0 (rawMsg "c1" [x00]) vResponses r
    ∧ class r = txResultClassRejected ∧ errMsg r = conflictLine "0" ∧ option_map ts_CompetingTxs (status r) = Some [spenderTx].
Proof.
  destruct (verdict_exact vBatch 2 None vResponses 0 (rawMsg "c1" [x00])) as (r & E & _ & Hc & _); [reflexivity|].
  exists r. split; [exact E|]. split; [exact Hc|]. clear Hc. vm_compute in E. injection E as <-. vm_compute. split; [|split]; reflexivity.
Defined.
