(* ===== verification/Broadcast.v ===== *)
(** * Broadcast: one batch to every healthy peer

    Models the broadcast half of [src/services/propagation/propagator.go]: the
    fan-out of a chunk to the healthy endpoints, the accounting of its
    outcomes on the circuit breaker, the halving of a chunk with a line that
    cannot be placed, and the chunks of a batch.  It also declares the calls
    of the propagation service ([pcall]) and its configuration.

    One fan-out is one call: its answer is what the workers put on the result
    channel, in the order it was taken from it, each with whether the
    broadcast context was done by then.  The chunks of a batch run in
    parallel in the code and one after the other here; they write disjoint
    parts of the result slice and share only the circuit breaker. *)
From stdpp Require Import base gmap strings list pretty.
From Stdlib Require Import Ascii ZArith Lia.
From Stdlib Require Import Strings.Byte.
From S2P Require Import Prelude Models GoStrings Teranode Offsets Dispatcher Chunking Effects Verdicts.
Import Txs.

(** ** Calls *)

(** A merkle-service [/watch] request and how it can fail: a cancelled
    context, a response with a status ([RegisterError]), a deadline, a
    network timeout, anything else. *)
Record Registration : Type := mkRegistration {
  rg_TxID : string;
  rg_CallbackURL : string;
  rg_CallbackToken : string
}.
Record registerErr : Type := mkRegisterErr {
  re_canceled : bool;
  re_status : option Z;
  re_deadline : bool;
  re_timeout : bool;
  re_text : string
}.

(** The dispatchers an event is for: that of the claim, or all of them. *)
Inductive ioTarget : Type := ioClaim | ioAll.

(** Where a registration goes: the whole pool or one of its endpoints. *)
Inductive watchTarget : Type := toPool | toEndpoint (endpoint : string).

Inductive pcall : Type :=
| pNow
| pCtxDone
| pHealthy
| pFanOut (endpoints : list string) (rawTxs : list (list byte))
| pRecordFailure (endpoint : string)
| pRecordSuccess (endpoint : string)
| pRecordBroadcastFailure (endpoint : string)
| pRegister (target : watchTarget) (regs : list Registration)
| pMarkRegistered (txids : list string)
| pBatchUpdate (statuses : list TransactionStatus)
| pGetStatus (txid : string)
| pPublish (event : TransactionStatus)
| pTargets (io : ioTarget)
| pNotify (dispatcher : nat) (txid : string) (st : Status)
| pSpawnRequeue (msgs : list propagationMsg)
| pRequeueDelay
| pRequeueSend (msg : propagationMsg)
| pBumpRetry (txid : string)
| pClearRetry (txid : string) (st : Status) (reason : string)
| pSetPending (txid : string) (raw : list byte) (next : Time) (reason : string)
| pRandom
| pLease
| pReleaseLease
| pTick
| pIterate (since : Time)
| pCensus (since deadline : Time) (statuses : list Status)
| pReadyRetries (now : Time) (limit : Z)
| pSubmissions (txid : string)
| pRetain (regs : list Registration) (errs : list (option registerErr))
| pSleep (d : Z).

Definition panswer (c : pcall) : Type :=
  match c with
  | pNow => Time
  | pCtxDone | pRequeueDelay | pRequeueSend _ | pTick => bool
  | pHealthy => list string
  | pFanOut _ _ => list (string * exchange * bool)
  | pRecordFailure _ | pRecordSuccess _ | pRecordBroadcastFailure _ | pSpawnRequeue _ | pReleaseLease | pRetain _ _ => unit
  | pRegister _ _ => list (option registerErr)
  | pMarkRegistered _ | pPublish _ | pClearRetry _ _ _ | pSetPending _ _ _ _ => option error
  | pBatchUpdate _ => list (option TransactionStatus) * option error
  | pGetStatus _ => Res (option TransactionStatus)
  | pTargets _ => list nat
  | pNotify _ _ _ => option (list cascadedTx)
  | pBumpRetry _ => Res Z
  | pRandom => option Z
  | pLease => Res Time
  | pIterate _ => list TransactionStatus * option error
  | pCensus _ _ _ => Res (list (Status * Z * Time))
  | pReadyRetries _ _ => Res (list (string * list byte * string))
  | pSubmissions _ => Res (list Submission)
  | pSleep _ => bool
  end.

Abbreviation PProg := (prog panswer).
Abbreviation PTrace := (trace panswer).

(** The settings of [Propagator] the modelled code reads. *)
Record PConfig : Type := mkPConfig {
  retryMaxAttempts : Z;
  merkleRetryMaxAttempts : Z;
  pendingRetryMaxAttempts : Z;
  pendingRetryBackoff : Z;
  pendingRetryMaxBackoff : Z;
  teranodeBatchCap : Z;
  teranodeBatchBytesCap : Z;
  hasMerkleClient : bool;
  CallbackURL : string;
  CallbackToken : string;
  hasPublisher : bool;
  hasLeaser : bool;
  rebroadcastBatch : Z
}.

Fixpoint forEach {A} (f : A -> PProg unit) (l : list A) : PProg unit :=
  match l with
  | [] => mret tt
  | x :: l => f x ;; forEach f l
  end.

Section Broadcast.
Context `{TxParser} `{MapOrder}.
Variable cfg : PConfig.

(** ** The circuit breaker *)

Definition is2xx (o : endpointOutcome) : bool := (200 <=? eo_statusCode o)%Z && (eo_statusCode o <? 300)%Z.

Definition recordOutcome (unanimousReject : bool) (o : endpointOutcome) : PProg unit :=
  if (eo_statusCode o =? 0)%Z then perform (pRecordFailure (eo_endpoint o))
  else if is2xx o then perform (pRecordSuccess (eo_endpoint o))
  else if eo_shapeRejected o then mret tt
  else if unanimousReject then perform (pRecordSuccess (eo_endpoint o))
  else perform (pRecordBroadcastFailure (eo_endpoint o)).

Definition unanimousRejectOf (outs : list endpointOutcome) : bool :=
  let voting := List.filter (fun o => negb (eo_shapeRejected o)) outs in
  negb (existsb is2xx voting) && existsb (fun o => negb (eo_statusCode o =? 0)%Z) voting.

Definition recordBroadcastOutcomes (outs : list endpointOutcome) : PProg unit :=
  forEach (recordOutcome (unanimousRejectOf outs)) outs.

(** ** One chunk *)

(** The worker: [SubmitTransactions] and the result it sends. *)
Definition runBroadcastWorker (r : string * exchange * bool) : arrival :=
  let '(endpoint, x, ctxDone) := r in
  let '(code, failures, err) := SubmitTransactions x in
  mkArrival (mkBroadcastJobResult endpoint code failures err) ctxDone.

Definition broadcastBatchToEndpoints (batch : list propagationMsg) (rawTxs : list (list byte)) (chunkBytes : Z)
  : PProg (list txResult * bool) :=
  now ← perform pNow;
  endpoints ← perform pHealthy;
  match endpoints with
  | [] => mret (makeRequeueResults batch, false)
  | _ =>
      results ← perform (pFanOut endpoints rawTxs);
      let arrivals := List.map runBroadcastWorker results in
      let t := tallyOf batch chunkBytes arrivals in
      recordBroadcastOutcomes (outcomes t) ;;
      mret (resultsOf batch chunkBytes now arrivals, needsNarrowing t)
  end.

(** [broadcastChunk] and [narrowChunk].  Every halving shortens the chunk, so
    the length of the chunk is fuel enough; [None] is the end of the fuel. *)
Fixpoint broadcastChunk (fuel : nat) (chunk : list propagationMsg) (rawTxs : list (list byte)) : PProg (option (list txResult)) :=
  '(results, narrowing) ← broadcastBatchToEndpoints chunk rawTxs (rawTxsBytes rawTxs);
  if (narrowing : bool) && (1 <? length chunk)%nat then
    match fuel with
    | O => mret None
    | S fuel =>
        let mid := (length chunk / 2)%nat in
        left ← broadcastChunk fuel (take mid chunk) (take mid rawTxs);
        right ← broadcastChunk fuel (drop mid chunk) (drop mid rawTxs);
        mret (match left, right with
              | Some l, Some r => Some (l ++ r)
              | _, _ => None
              end)
    end
  else mret (Some results).

(** ** The chunks of a batch *)

Fixpoint broadcastSpans (batch : list propagationMsg) (rawTxs : list (list byte)) (spans : list chunkSpan)
  : PProg (option (list txResult)) :=
  match spans with
  | [] => mret (Some [])
  | c :: spans =>
      let chunk := slice batch (start c) (end_ c) in
      here ← broadcastChunk (length chunk) chunk (slice rawTxs (start c) (end_ c));
      rest ← broadcastSpans batch rawTxs spans;
      mret (match here, rest with
            | Some l, Some r => Some (l ++ r)
            | _, _ => None
            end)
  end.

Definition broadcastInChunks (batch : list propagationMsg) : PProg (option (list txResult)) :=
  let rawTxs := List.map RawTx batch in
  broadcastSpans batch rawTxs (planChunks rawTxs (teranodeBatchCap cfg) (teranodeBatchBytesCap cfg)).
End Broadcast.
