(* ===== verification/BroadcastProps.v ===== *)
(** * BroadcastProps: every transaction of a batch gets exactly one result *)
From stdpp Require Import base gmap strings list pretty.
From Stdlib Require Import Ascii ZArith Lia.
From Stdlib Require Import Strings.Byte.
From S2P Require Import Prelude Models GoStrings Teranode Offsets Dispatcher Chunking Effects Verdicts VerdictsProps Broadcast.
Import Txs.

#[local] Instance byte_eq_decision : EqDecision byte := Byte.byte_eq_dec.

Abbreviation pwp := (wp (answer := panswer) (fun _ _ => True) (fun _ _ => True)).

(** ** Fan-outs *)

Definition isFanOut (c : pcall) : bool := match c with pFanOut _ _ => true | _ => false end.
Definition fanOuts (tr : PTrace) : nat := length (project isFanOut tr).

Lemma fanOuts_snoc tr e : fanOuts (tr ++ [e]) = (fanOuts tr + if isFanOut (ev_call e) then 1 else 0)%nat.
Proof. unfold fanOuts. rewrite project_app, length_app. cbn. by destruct (isFanOut (ev_call e)). Qed.

Lemma forEach_quiet {A} (f : A -> PProg unit) l K : (∀ x, makes K (f x)) -> makes K (forEach f l).
Proof. intros Hf. induction l as [|x l IH]; [done|]. cbn [forEach]. apply makes_bind; [apply Hf|by intros ?]. Qed.

Lemma record_quiet outs : makes (fun c => negb (isFanOut c)) (recordBroadcastOutcomes outs).
Proof.
  apply forEach_quiet. intros o. unfold recordOutcome. repeat case_match; try apply makes_ret; by apply makes_perform.
Qed.

(** ** Results *)

Section Results.
Context `{TxParser} `{MapOrder}.
Variable cfg : PConfig.

Definition requeueResult (msg : propagationMsg) : txResult := mkTxResult txResultClassRequeue None "" (RawTx msg) "".

(** How the result of a transaction came about: it is the verdict on it of a
    fan-out of a part of the batch, every line of which was placed if the part
    is longer than one; or there was no healthy endpoint. *)
Definition settled (batch : list propagationMsg) (tr : PTrace) (msg : propagationMsg) (r : txResult) : Prop :=
  (∃ pre sub post j now eps res, batch = pre ++ sub ++ post ∧ sub !! j = Some msg
     ∧ Event (pFanOut eps (List.map RawTx sub)) res ∈ tr
     ∧ (let as_ := List.map runBroadcastWorker res in
        resultsOf sub (rawTxsBytes (List.map RawTx sub)) now as_ !! j = Some r
        ∧ (length sub = 1%nat ∨ needsNarrowing (tallyOf sub (rawTxsBytes (List.map RawTx sub)) as_) = false)))
  ∨ (r = requeueResult msg ∧ Event pHealthy [] ∈ tr).

Lemma settled_grows batch tr tr' msg r : settled batch tr msg r -> tr ⊆ tr' -> settled batch tr' msg r.
Proof.
  intros [(pre & sub & post & j & now & eps & res & E & Hj & He & Hr)|[-> He]] Hs; [left|right; auto].
  exists pre, sub, post, j, now, eps, res. auto.
Qed.

Lemma settled_within pre sub post tr msg r : settled sub tr msg r -> settled (pre ++ sub ++ post) tr msg r.
Proof.
  intros [(pre' & sub' & post' & j & now & eps & res & -> & Hr)|?]; [left|by right].
  exists (pre ++ pre'), sub', (post' ++ post), j, now, eps, res. split; [by rewrite <-!app_assoc|done].
Qed.

Definition allSettled (batch : list propagationMsg) (tr : PTrace) (chunk : list propagationMsg) (rs : list txResult) : Prop :=
  length rs = length chunk ∧ ∀ i msg, chunk !! i = Some msg -> ∃ r, rs !! i = Some r ∧ settled batch tr msg r.

Lemma allSettled_app batch tr l1 l2 r1 r2 :
  allSettled batch tr l1 r1 -> allSettled batch tr l2 r2 -> allSettled batch tr (l1 ++ l2) (r1 ++ r2).
Proof.
  intros [E1 H1] [E2 H2]. split; [rewrite !length_app; lia|]. intros i msg Hi.
  apply lookup_app_Some in Hi as [Hi|[Hle Hi]].
  - destruct (H1 i msg Hi) as (r & Hr & Hs). exists r. split; [by apply lookup_app_l_Some|done].
  - destruct (H2 _ msg Hi) as (r & Hr & Hs). exists r. split; [|done]. rewrite lookup_app_r by lia. by rewrite E1.
Qed.

Lemma resultsOf_length batch cb now as_ : length (resultsOf batch cb now as_) = length batch.
Proof.
  unfold resultsOf. rewrite length_zip_with. unfold tallyOf, settleSize.
  destruct (collected_votes batch cb as_) as [E _]. destruct (sizeRejected _); cbn [votes]; rewrite ?length_map, E; lia.
Qed.

Lemma allSettled_grows batch tr tr' l rs : allSettled batch tr l rs -> tr ⊆ tr' -> allSettled batch tr' l rs.
Proof. intros [E Hr] Hs. split; [done|]. intros i msg Hi. destruct (Hr i msg Hi) as (r & ? & ?). eauto using settled_grows. Qed.

Lemma allSettled_within pre sub post tr l rs : allSettled sub tr l rs -> allSettled (pre ++ sub ++ post) tr l rs.
Proof. intros [E Hr]. split; [done|]. intros i msg Hi. destruct (Hr i msg Hi) as (r & ? & ?). eauto using settled_within. Qed.

(** One fan-out settles a chunk if it needs no narrowing or cannot be narrowed. *)
Lemma fanOut_wp chunk tr :
  pwp (broadcastBatchToEndpoints chunk (List.map RawTx chunk) (rawTxsBytes (List.map RawTx chunk))) tr
    (fun '(rs, narrowing) tr' => tr ⊆ tr' ∧ (fanOuts tr' <= S (fanOuts tr))%nat
       ∧ (narrowing = false ∨ length chunk = 1%nat -> allSettled chunk tr' chunk rs)).
Proof.
  unfold broadcastBatchToEndpoints. wp_go. wp_ask now idtac. wp_go. wp_ask eps idtac.
  destruct eps as [|ep eps].
  - wp_go. rewrite !fanOuts_snoc. cbn. split_and!; [intros x Hx; apply elem_of_app; left; by apply elem_of_app; left|lia|].
    intros _. unfold makeRequeueResults. split; [apply length_map|]. intros i msg Hi. rewrite list_lookup_fmap, Hi. cbn.
    eexists. split; [done|]. right. split; [done|]. apply snoc_here.
  - set (eps' := ep :: eps). wp_go. wp_ask res idtac. wp_go. eapply wp_mono.
    { eapply wp_grows. eapply makes_frame; [apply record_quiet|apply wp_total]. }
    intros [] tr' [[_ Ef] Hs]. wp_go.
    assert (tr ⊆ tr' ∧ Event (pFanOut eps' (List.map RawTx chunk)) res ∈ tr') as [Hg He].
    { apply snoc_grows in Hs as [Hs ?]. split; [|done]. intros x Hx. apply Hs. apply elem_of_app; left. by apply elem_of_app; left. }
    split_and!; [done| |].
    + assert (fanOuts tr' = fanOuts (((tr ++ [Event pNow now]) ++ [Event pHealthy eps']) ++ [Event (pFanOut eps' (List.map RawTx chunk)) res])) as ->
        by (unfold fanOuts; by rewrite Ef). rewrite !fanOuts_snoc. cbn. lia.
    + intros Hn. split; [apply resultsOf_length|]. intros i msg Hi.
      destruct (resultsOf_lookup chunk (rawTxsBytes (List.map RawTx chunk)) now (List.map runBroadcastWorker res) i msg Hi) as (v & Ev & _).
      eexists. split; [exact Ev|]. left. exists [], chunk, [], i, now, eps', res. rewrite app_nil_r.
      split_and!; [done|done|done|]. cbv zeta. split; [exact Ev|]. destruct Hn; [by right|by left].
Qed.

Lemma chunk_wp fuel chunk tr :
  (length chunk <= fuel)%nat -> chunk ≠ [] ->
  pwp (broadcastChunk fuel chunk (List.map RawTx chunk)) tr
    (fun o tr' => tr ⊆ tr' ∧ (fanOuts tr' <= fanOuts tr + (2 * length chunk - 1))%nat
       ∧ ∃ rs, o = Some rs ∧ allSettled chunk tr' chunk rs).
Proof.
  revert chunk tr. induction fuel as [|fuel IH]; intros chunk tr Hf Hne; [by destruct chunk; [|cbn in Hf; lia]|].
  assert (0 < length chunk)%nat as Hpos by (destruct chunk; [done|cbn; lia]).
  cbn [broadcastChunk]. wp_go. eapply wp_mono; [apply fanOut_wp|]. intros [rs narrowing] tr1 (Hg1 & Hc1 & Hs1).
  destruct (narrowing && (1 <? length chunk)%nat) eqn:En.
  - apply andb_true_iff in En as [-> Hl%Nat.ltb_lt]. set (mid := (length chunk / 2)%nat).
    assert (0 < mid < length chunk)%nat as Hm.
    { unfold mid. split; [apply Nat.div_str_pos; lia|apply Nat.div_lt; lia]. }
    wp_go. rewrite firstn_map, skipn_map.
    eapply wp_mono; [apply (IH (take mid chunk)); [rewrite length_take; lia|]|].
    { intros E. apply (f_equal length) in E. rewrite length_take in E. change (length (@nil propagationMsg)) with 0%nat in E. lia. }
    intros o2 tr2 (Hg2 & Hc2 & rs2 & -> & Hs2). wp_go. eapply wp_mono; [apply (IH (drop mid chunk)); [rewrite length_drop; lia|]|].
    { intros E. apply (f_equal length) in E. rewrite length_drop in E. change (length (@nil propagationMsg)) with 0%nat in E. lia. }
    intros o3 tr3 (Hg3 & Hc3 & rs3 & -> & Hs3). wp_go. rewrite length_take in Hc2. rewrite length_drop in Hc3.
    split_and!; [set_solver|lia|]. exists (rs2 ++ rs3). split; [done|].
    rewrite <-(take_drop mid chunk) at 2. apply allSettled_app.
    + apply (allSettled_grows _ tr2); [|done]. rewrite <-(take_drop mid chunk) at 1.
      by apply (allSettled_within [] (take mid chunk) (drop mid chunk)).
    + rewrite <-(take_drop mid chunk) at 1. rewrite <-(app_nil_r (drop mid chunk)) at 1.
      by apply (allSettled_within (take mid chunk) (drop mid chunk) []).
  - wp_go. split_and!; [done|lia|]. exists rs. split; [done|]. apply Hs1.
    apply andb_false_iff in En as [->|Hl%Nat.ltb_ge]; [by left|right; lia].
Qed.

Lemma tiles_cons_inv a b c spans : tiles a b (c :: spans) -> start c = a ∧ (a < end_ c)%nat ∧ tiles (end_ c) b spans.
Proof.
  revert b. induction spans as [|x spans IH] using rev_ind; intros b Ht.
  - inversion Ht as [|x1 m x2 l Ht' Hlt Ea Eb E]; subst. change [c] with ([] ++ [c]) in E. apply app_inj_tail in E as [-> <-].
    inversion Ht' as [|x1 x2 x3 l' H1 H2 H3 H4 E']; subst; [|by destruct l']. split_and!; [done|done|constructor].
  - inversion Ht as [|x1 m x2 l Ht' Hlt Ea Eb E]; subst. rewrite app_comm_cons in E. apply app_inj_tail in E as [-> <-].
    destruct (IH _ Ht') as (? & ? & ?). split_and!; [done|done|by constructor].
Qed.

Lemma tiles_le a b spans : tiles a b spans -> (a <= b)%nat.
Proof. induction 1; lia. Qed.

Lemma slice_length {A} (l : list A) a b : (a <= b <= length l)%nat -> length (slice l a b) = (b - a)%nat.
Proof. intros Hab. unfold slice. rewrite length_take, length_drop. lia. Qed.

Lemma slice_app {A} (l : list A) a m b : (a <= m <= b)%nat -> slice l a m ++ slice l m b = slice l a b.
Proof.
  intros Hab. unfold slice. replace (b - a)%nat with ((m - a) + (b - m))%nat by lia. rewrite <-take_take_drop, drop_drop.
  by replace (a + (m - a))%nat with m by lia.
Qed.

Lemma slice_whole {A} (l : list A) a b : (a <= b)%nat -> l = take a l ++ slice l a b ++ drop b l.
Proof.
  intros Hab. unfold slice. rewrite <-(take_drop a l) at 1. f_equal. rewrite <-(take_drop (b - a) (drop a l)) at 1. f_equal.
  rewrite drop_drop. f_equal. lia.
Qed.

Lemma spans_wp batch spans a tr :
  tiles a (length batch) spans ->
  pwp (broadcastSpans batch (List.map RawTx batch) spans) tr
    (fun o tr' => tr ⊆ tr' ∧ (fanOuts tr' + length spans <= fanOuts tr + 2 * (length batch - a))%nat
       ∧ ∃ rs, o = Some rs ∧ allSettled batch tr' (slice batch a (length batch)) rs).
Proof.
  revert a tr. induction spans as [|c spans IH]; intros a tr Ht; cbn [broadcastSpans].
  - inversion Ht as [|x1 x2 x3 l H1 H2 H3 H4 E]; subst; [|by destruct l]. wp_go. split_and!; [done|cbn; lia|]. exists []. split; [done|].
    rewrite slice_empty. split; [done|]. intros i msg Hi. by rewrite lookup_nil in Hi.
  - destruct (tiles_cons_inv _ _ _ _ Ht) as (<- & Hlt & Ht'). pose proof (tiles_le _ _ _ Ht') as Hle.
    assert (slice (List.map RawTx batch) (start c) (end_ c) = List.map RawTx (slice batch (start c) (end_ c))) as ->.
    { unfold slice. by rewrite skipn_map, firstn_map. }
    assert (length (slice batch (start c) (end_ c)) = (end_ c - start c)%nat) as El by (apply slice_length; lia).
    wp_go. eapply wp_mono; [apply chunk_wp; [done|]|].
    { intros E. apply (f_equal length) in E. rewrite El in E. change (length (@nil propagationMsg)) with 0%nat in E. lia. }
    intros o1 tr1 (Hg1 & Hc1 & rs1 & -> & Hs1). wp_go. eapply wp_mono; [by apply IH|].
    intros o2 tr2 (Hg2 & Hc2 & rs2 & -> & Hs2). wp_go. rewrite El in Hc1. cbn [length].
    split_and!; [set_solver|lia|]. exists (rs1 ++ rs2). split; [done|].
    rewrite <-(slice_app batch (start c) (end_ c) (length batch)) by lia. apply allSettled_app; [|done].
    apply (allSettled_grows _ tr1); [|done]. rewrite (slice_whole batch (start c) (end_ c)) at 1 by lia.
    by apply allSettled_within.
Qed.

Lemma batch_wp batch tr :
  pwp (broadcastInChunks cfg batch) tr
    (fun o tr' => tr ⊆ tr' ∧ (fanOuts tr' <= fanOuts tr + 2 * length batch)%nat
       ∧ ∃ rs, o = Some rs ∧ allSettled batch tr' batch rs).
Proof.
  unfold broadcastInChunks. destruct (planChunks_tiles (List.map RawTx batch) (teranodeBatchCap cfg) (teranodeBatchBytesCap cfg)) as [Ht _].
  rewrite length_map in Ht. eapply wp_mono; [by apply (spans_wp _ _ 0)|]. intros o tr' (Hg & Hc & rs & -> & Hs).
  split_and!; [done|lia|]. exists rs. split; [done|]. assert (slice batch 0 (length batch) = batch) as E.
  { unfold slice. rewrite drop_0. apply take_ge. lia. }
  by rewrite E in Hs.
Qed.

(** ** Which chunks are sent *)

(** The only fan-outs are of chunks with a property that parts inherit. *)
Section Sent.
Variable P : list (list byte) -> bool.
Hypothesis P_sub : ∀ pre raw post, (0 < length raw)%nat -> P (pre ++ raw ++ post) = true -> P raw = true.

Definition sends (c : pcall) : bool :=
  match c with
  | pFanOut _ raw => P raw
  | pNow | pHealthy | pRecordFailure _ | pRecordSuccess _ | pRecordBroadcastFailure _ => true
  | _ => false
  end.

Lemma record_sends outs : makes sends (recordBroadcastOutcomes outs).
Proof. apply forEach_quiet. intros o. unfold recordOutcome. repeat case_match; try apply makes_ret; by apply makes_perform. Qed.

Lemma chunk_sends fuel chunk raw :
  length raw = length chunk -> chunk ≠ [] -> P raw = true -> makes sends (broadcastChunk fuel chunk raw).
Proof.
  revert chunk raw. induction fuel as [|fuel IH]; intros chunk raw Hlen Hne Hf; cbn [broadcastChunk];
    (apply makes_bind; [|intros [rs narrowing]; destruct (narrowing && _) eqn:En; [|apply makes_ret]]).
  1,3: unfold broadcastBatchToEndpoints; makes_auto; try (by apply makes_perform); apply record_sends.
  - apply makes_ret.
  - apply andb_true_iff in En as [_ Hl%Nat.ltb_lt]. set (mid := (length chunk / 2)%nat).
    assert (0 < mid < length chunk)%nat as Hm.
    { unfold mid. split; [apply Nat.div_str_pos; lia|apply Nat.div_lt; lia]. }
    assert (∀ x : list propagationMsg, (0 < length x)%nat -> x ≠ []) as Hnil by (intros [|??] ?; [cbn in *; lia|done]).
    apply makes_bind; [apply IH|intros o1; apply makes_bind; [apply IH|intros o2; apply makes_ret]].
    + rewrite !length_take. lia.
    + apply Hnil. rewrite length_take. lia.
    + apply (P_sub [] (take mid raw) (drop mid raw)); [rewrite length_take; lia|]. cbn [app]. by rewrite take_drop.
    + rewrite !length_drop. lia.
    + apply Hnil. rewrite length_drop. lia.
    + apply (P_sub (take mid raw) (drop mid raw) []); [rewrite length_drop; lia|]. by rewrite app_nil_r, take_drop.
Qed.

Lemma spans_send batch spans a :
  tiles a (length batch) spans -> Forall (fun c => P (slice (List.map RawTx batch) (start c) (end_ c)) = true) spans ->
  makes sends (broadcastSpans batch (List.map RawTx batch) spans).
Proof.
  revert a. induction spans as [|c spans IH]; intros a Ht Hf; cbn [broadcastSpans]; [done|].
  destruct (tiles_cons_inv _ _ _ _ Ht) as (<- & Hlt & Ht'). pose proof (tiles_le _ _ _ Ht') as Hle.
  apply Forall_cons in Hf as [Hc Hf]. apply makes_bind; [|intros o; apply makes_bind; [by eapply IH|intros o'; apply makes_ret]].
  assert (length (slice batch (start c) (end_ c)) = (end_ c - start c)%nat) as El by (apply slice_length; lia).
  apply chunk_sends; [|intros E; rewrite E in El; change (length (@nil propagationMsg)) with 0%nat in El; lia|done].
  rewrite El. apply slice_length. rewrite length_map. lia.
Qed.
End Sent.

(** The chunk keeps both caps, or is a single transaction. *)
Definition withinCaps (raw : list (list byte)) : bool :=
  ((teranodeBatchCap cfg <=? 0)%Z || (Z.of_nat (length raw) <=? teranodeBatchCap cfg)%Z)
  && ((teranodeBatchBytesCap cfg <=? 0)%Z || (rawTxsBytes raw <=? teranodeBatchBytesCap cfg)%Z || (length raw =? 1)%nat).

Lemma rawTxsBytes_nonneg l : (0 <= rawTxsBytes l)%Z.
Proof.
  induction l as [|x l IH] using rev_ind; [done|]. rewrite rawTxsBytes_app. unfold rawTxsBytes at 2. cbn. lia.
Qed.

Lemma withinCaps_sub pre raw post : (0 < length raw)%nat -> withinCaps (pre ++ raw ++ post) = true -> withinCaps raw = true.
Proof.
  unfold withinCaps. rewrite !length_app, !rawTxsBytes_app. pose proof (rawTxsBytes_nonneg pre). pose proof (rawTxsBytes_nonneg post).
  intros Hpos. rewrite !andb_true_iff, !orb_true_iff, !Z.leb_le, !Nat.eqb_eq. lia.
Qed.

Lemma batch_within_caps batch : makes (sends withinCaps) (broadcastInChunks cfg batch).
Proof.
  unfold broadcastInChunks. destruct (planChunks_tiles (List.map RawTx batch) (teranodeBatchCap cfg) (teranodeBatchBytesCap cfg)) as (Ht & Hf & _).
  pose proof Ht as Ht'. rewrite length_map in Ht. apply (spans_send _ withinCaps_sub batch _ 0); [done|].
  assert (∀ a spans, tiles a (length (List.map RawTx batch)) spans ->
    Forall (fits (List.map RawTx batch) (teranodeBatchCap cfg) (teranodeBatchBytesCap cfg)) spans ->
    Forall (fun c => withinCaps (slice (List.map RawTx batch) (start c) (end_ c)) = true) spans) as Hall; [|by eapply Hall].
  clear. intros a spans. revert a. induction spans as [|c spans IH]; intros a Ht Hf; [done|].
  destruct (tiles_cons_inv _ _ _ _ Ht) as (<- & Hlt & Ht'). pose proof (tiles_le _ _ _ Ht') as Hle.
  apply Forall_cons in Hf as [[Hcount Hbytes] Hf]. constructor; [|by eapply IH].
  unfold withinCaps. rewrite slice_length by lia. rewrite andb_true_iff, !orb_true_iff, !Z.leb_le, Nat.eqb_eq. split.
  + destruct (Z.le_gt_cases (teranodeBatchCap cfg) 0); [by left|right; apply Hcount; lia].
  + destruct (Z.le_gt_cases (teranodeBatchBytesCap cfg) 0); [by left; left|]. destruct (Hbytes ltac:(lia)); [by left; right|right; lia].
Qed.

(** Only transactions of the batch are sent. *)
Definition ofBatch (batch : list propagationMsg) (raw : list (list byte)) : bool :=
  forallb (fun r => bool_decide (r ∈ List.map RawTx batch)) raw.

Lemma batch_sends_own batch : makes (sends (ofBatch batch)) (broadcastInChunks cfg batch).
Proof.
  unfold broadcastInChunks. destruct (planChunks_tiles (List.map RawTx batch) (teranodeBatchCap cfg) (teranodeBatchBytesCap cfg)) as [Ht _].
  rewrite length_map in Ht. apply (spans_send (ofBatch batch)) with (a := 0%nat); [|done|].
  - intros pre raw post _. unfold ofBatch. rewrite !forallb_app, !andb_true_iff. tauto.
  - apply Forall_forall. intros c _. apply forallb_forall. intros r Hr. apply bool_decide_eq_true. unfold slice in Hr.
    apply list_elem_of_In in Hr. apply elem_of_take in Hr as (i & Hr & _). rewrite lookup_drop in Hr. by eapply list_elem_of_lookup_2.
Qed.
End Results.

(** ** Theorems *)

(** C19: the broadcast of a batch ends with one result per transaction, in
    order; each is the verdict of a fan-out of a part of the batch that
    contains the transaction, of which every line was placed or which holds
    nothing else (or there was no healthy endpoint); it takes at most two
    fan-outs per transaction; and no fan-out, of a broadcast cut short either,
    exceeds a cap unless it is of a single transaction. *)
Theorem broadcast_settles `{TxParser} `{MapOrder} cfg batch tr o :
  (ends (broadcastInChunks cfg batch) tr o ->
     ∃ rs, o = Some rs ∧ length rs = length batch ∧ (fanOuts tr <= 2 * length batch)%nat
       ∧ ∀ i msg, batch !! i = Some msg -> ∃ r, rs !! i = Some r ∧ settled batch tr msg r)
  ∧ (begins (broadcastInChunks cfg batch) tr -> ∀ eps raw res, Event (pFanOut eps raw) res ∈ tr ->
       ((0 < teranodeBatchCap cfg)%Z -> (Z.of_nat (length raw) <= teranodeBatchCap cfg)%Z)
       ∧ ((0 < teranodeBatchBytesCap cfg)%Z -> (rawTxsBytes raw <= teranodeBatchBytesCap cfg)%Z ∨ length raw = 1%nat)).
Proof.
  split.
  - intros He. apply (wp_ends (fun _ _ => True) (fun _ _ => True) _ _ _ _ (batch_wp cfg batch [])) in He; [|done].
    destruct He as (_ & Hc & rs & -> & El & Hs). exists rs. split_and!; [done|done|exact Hc|done].
  - intros Hb eps raw res Hin. pose proof (makes_begins _ _ _ _ (batch_within_caps cfg batch) Hb Hin) as Hf. cbn [ev_call sends] in Hf.
    unfold withinCaps in Hf. rewrite andb_true_iff, !orb_true_iff, !Z.leb_le, Nat.eqb_eq in Hf. lia.
Qed.

(** ** A run *)

#[local] Instance bOrder : MapOrder := {| mapRange := fun K V _ _ m => map_to_list m; mapRange_perm := fun K V _ _ m => Permutation_refl _ |}.
#[local] Instance bParser : TxParser := fun _ => None.

(** A peer that refuses every chunk with a line that names nobody. *)
Definition mutePeer (c : pcall) : panswer c :=
  match c with
  | pHealthy => ["http://n"]
  | pFanOut _ _ => [("http://n", xResponse 400 (Txs.txsFailureHeader ++ String newline "TX_INVALID (31): bad-txns") None, false)]
  | pNow => Some 1%Z
  | pCtxDone | pRequeueDelay | pRequeueSend _ | pTick | pSleep _ => false
  | pRecordFailure _ | pRecordSuccess _ | pRecordBroadcastFailure _ | pSpawnRequeue _ | pReleaseLease | pRetain _ _ => tt
  | pRegister _ regs => List.map (fun _ => None) regs
  | pMarkRegistered _ | pPublish _ | pClearRetry _ _ _ | pSetPending _ _ _ _ | pNotify _ _ _ | pRandom => None
  | pBatchUpdate _ => ([], None)
  | pGetStatus _ => Err ErrNotFound
  | pTargets _ => []
  | pBumpRetry _ => Ok 1%Z
  | pLease => Ok None
  | pIterate _ => ([], None)
  | pCensus _ _ _ | pReadyRetries _ _ | pSubmissions _ => Ok []
  end.

Definition bConfig : PConfig := mkPConfig 5 16 288 5 300 0 0 true "http://cb" "t" true true 200.
Definition bBatch : list propagationMsg := List.map (fun b => rawMsg "t" [b]) [x00; x01; x02; x03; x04; x05; x06; x07].
Definition bHandle (c : pcall) (s : unit) : panswer c * unit := (mutePeer c, s).

(** Halving a chunk in which everything fails takes a fan-out per node of the
    binary tree over it: fifteen for eight transactions. *)
Lemma narrowing_worst : fanOuts (run_trace bHandle (broadcastInChunks bConfig bBatch) tt) = 15%nat.
Proof. vm_compute. reflexivity. Qed.

Lemma broadcast_settles_witness :
  ∃ rs, (run bHandle (broadcastInChunks bConfig bBatch) tt).1 = Some rs ∧ length rs = 8%nat.
Proof.
  destruct (proj1 (broadcast_settles bConfig bBatch _ _) (run_ends bHandle (broadcastInChunks bConfig bBatch) tt)) as (rs & E & El & _).
  exists rs. split; [exact E|exact El].
Defined.
