(* ===== verification/Propagator.v ===== *)
(** * Propagator: a batch from registration to its terminal statuses

    Models the pipeline of [src/services/propagation/propagator.go]:
    [processBatch] with the merkle registration, the broadcast, the settling
    of missing parents, the terminal writes with their notifications and
    events, and the two requeue budgets.  A goroutine that is only started
    here ([pSpawnRequeue]) is a program of its own ([requeueRoutine]).  Counts
    of retries are far from the end of [int], and durations are nanoseconds
    without wrap-around; the jitter is computed exactly where the code uses
    floating point. *)
From stdpp Require Import base gmap strings list pretty.
From Stdlib Require Import Ascii ZArith Lia.
From Stdlib Require Import Strings.Byte.
From S2P Require Import Prelude Models GoStrings Teranode Offsets Dispatcher Chunking Effects Verdicts Broadcast.

(** [fmt.Sprintf("%d", n)]. *)
Definition fmtD (n : Z) : string := pretty n.

Section Pipeline.
Context `{TxParser} `{MapOrder}.
Variable cfg : PConfig.

(** ** Registration *)

Definition clipRetryReason (s : string) : string :=
  if (String.length s <=? 240)%nat then s else String.substring 0 240 s.

Definition merkleRegisterFailureReason (e : registerErr) : PProg string :=
  done ← (if re_canceled e then mret true else perform pCtxDone);
  mret (if (done : bool) then "claim_revoked"
        else match re_status e with
             | Some code =>
                 if (code =? 401)%Z || (code =? 403)%Z then "auth_error"
                 else if (500 <=? code)%Z then "http_5xx" else "register_error"
             | None => if re_deadline e || re_timeout e then "timeout" else "transport"
             end).

Definition withMerkle (count : Z) (reason : string) (m : propagationMsg) : propagationMsg :=
  mkPropagationMsg (TXID m) (RawTx m) (InputTXIDs m) (retryCount m) count reason (retryReason m).

(** [for i, err := range errs]. *)
Fixpoint splitRegistered (batch : list propagationMsg) (errs : list (option registerErr))
  : PProg (list propagationMsg * list propagationMsg) :=
  match batch, errs with
  | m :: batch, None :: errs =>
      '(registered, failed) ← splitRegistered batch errs;
      mret (withMerkle 0 "" m :: registered, failed)
  | m :: batch, Some e :: errs =>
      reason ← merkleRegisterFailureReason e;
      let m := if String.eqb reason "claim_revoked" then m
               else withMerkle (merkleRetryCount m) (clipRetryReason (re_text e)) m in
      '(registered, failed) ← splitRegistered batch errs;
      mret (registered, m :: failed)
  | _, _ => mret ([], [])
  end.

Definition merkleDisabled : bool := negb (hasMerkleClient cfg) || String.eqb (CallbackURL cfg) "".

Definition registrationOf (txid : string) : Registration := mkRegistration txid (CallbackURL cfg) (CallbackToken cfg).

Definition registerBatch (batch : list propagationMsg) : PProg (list propagationMsg * list propagationMsg) :=
  if merkleDisabled then mret (batch, [])
  else
    errs ← perform (pRegister toPool (List.map (fun m => registrationOf (TXID m)) batch));
    '(registered, failed) ← splitRegistered batch errs;
    (if (0 <? length registered)%nat then perform (pMarkRegistered (List.map TXID registered)) ≫= fun _ => mret tt else mret tt) ;;
    mret (registered, failed).

(** ** Events *)

Definition publishBulk (template : TransactionStatus) : PProg unit :=
  perform (pPublish template) ≫= fun _ => mret tt.

Definition bulkEvent (st : Status) (code : Z) (ts : Time) (info : string) (competing txids : list string) : TransactionStatus :=
  mkTransactionStatus "" st code ts txids "" 0 [] info competing [] 0 None None [] None.

Definition publishBulkStatus (st : Status) (txids : list string) (ts : Time) : PProg unit :=
  if negb (hasPublisher cfg) || (length txids =? 0)%nat then mret tt
  else publishBulk (bulkEvent st 0 ts "" [] txids).

Definition joinComma (l : list string) : string :=
  match l with
  | [] => ""
  | x :: l => fold_left (fun acc y => (acc ++ "," ++ y)%string) l x
  end.

(** The local [reason] and the group of events it keys. *)
Definition reasonOf (st : TransactionStatus) : string * Z * string :=
  (ts_ExtraInfo st, ts_StatusCode st, joinComma (ts_CompetingTxs st)).

Definition addTxID (txid : string) (g : TransactionStatus) : TransactionStatus :=
  bulkEvent (ts_Status g) (ts_StatusCode g) (ts_Timestamp g) (ts_ExtraInfo g) (ts_CompetingTxs g) (ts_TxIDs g ++ [txid]).

(** One round of the grouping loop: [index] maps a reason to its position. *)
Definition groupRejection (ts : Time) (acc : gmap (string * Z * string) nat * list TransactionStatus) (st : TransactionStatus)
  : gmap (string * Z * string) nat * list TransactionStatus :=
  let '(index, groups) := acc in
  let key := reasonOf st in
  match index !! key with
  | Some i => (index, alter (addTxID (ts_TxID st)) i groups)
  | None =>
      (<[key := length groups]> index,
       groups ++ [bulkEvent StatusRejected (ts_StatusCode st) ts (ts_ExtraInfo st) (ts_CompetingTxs st) [ts_TxID st]])
  end.

Definition groupRejections (ts : Time) (rejected : list TransactionStatus) : list TransactionStatus :=
  (foldl (groupRejection ts) (∅, []) rejected).2.

Definition publishRejections (rejected : list TransactionStatus) (ts : Time) : PProg unit :=
  if negb (hasPublisher cfg) || (length rejected =? 0)%nat then mret tt
  else forEach publishBulk (groupRejections ts rejected).

(** ** Durable retry *)

(** [for i := 1; i < retryCount && delay < maxBackoff; i++ { delay *= 2 }] *)
Fixpoint doubleDelay (rounds : nat) (delay maxBackoff : Z) : Z :=
  match rounds with
  | O => delay
  | S rounds => if (delay <? maxBackoff)%Z then doubleDelay rounds (delay * 2)%Z maxBackoff else delay
  end.

Definition defaultPendingRetryBackoff : Z := 5000000000.

Definition nominalRetryDelay (count : Z) : Z :=
  let base := if (pendingRetryBackoff cfg <=? 0)%Z then defaultPendingRetryBackoff else pendingRetryBackoff cfg in
  let maxBackoff := Z.max (pendingRetryMaxBackoff cfg) base in
  Z.min (doubleDelay (Z.to_nat (count - 1)) base maxBackoff) maxBackoff.

(** The two random bytes are one number below 2^16, or reading them failed. *)
Definition nextPendingRetryDelay (count : Z) : PProg Z :=
  let delay := nominalRetryDelay count in
  r ← perform pRandom;
  let delay := match (r : option Z) with
               | Some b => (delay + Z.quot ((4 * b - 131070) * delay) 655350)%Z
               | None => delay
               end in
  mret (if (delay <? 1000000)%Z then 1000000%Z else delay).

Definition giveUpReason (maxAttempts : Z) (lastReason : string) : string :=
  let head := ("no network verdict after " ++ fmtD maxAttempts ++ " durable retry attempts: giving up")%string in
  if String.eqb lastReason "" then (head ++ " — no peer ever answered for this transaction")%string
  else if lineIsMissingParentCondition lastReason
  then (head ++ " — a parent this transaction spends has never reached the network; last network response: " ++ lastReason)%string
  else (head ++ "; last network response: " ++ lastReason)%string.

Definition schedulePendingRetry (txid : string) (raw : list byte) (lastReason : string) : PProg unit :=
  if (length raw =? 0)%nat then mret tt
  else
    count ← perform (pBumpRetry txid);
    match (count : Res Z) with
    | Err _ => mret tt
    | Ok count =>
        if (pendingRetryMaxAttempts cfg <? count)%Z then
          let reason := giveUpReason (pendingRetryMaxAttempts cfg) lastReason in
          err ← perform (pClearRetry txid StatusRejected reason);
          match (err : option error) with
          | Some _ => mret tt
          | None =>
              now ← perform pNow;
              publishRejections [statusRow txid StatusRejected 0 None reason []] now
          end
        else
          now ← perform pNow;
          delay ← nextPendingRetryDelay count;
          _ ← perform (pSetPending txid raw (timeAdd now delay) lastReason);
          mret tt
    end.

(** ** Cascades *)

Record cascadeRejection : Type := mkCascadeRejection {
  cr_txid : string;
  cr_rawTx : list byte;
  cr_ancestor : string
}.

Definition cascadeReason (st : Status) (ancestor : string) : string :=
  if bool_decide (st = StatusPendingRetry)
  then ("parent parked for durable retry (ancestor " ++ ancestor ++
        "): retryable — the ancestor got no network verdict; both are rebroadcast by the reaper")%string
  else ("parent rejected (ancestor " ++ ancestor ++ "): retryable — resubmit after the ancestor is accepted")%string.

Definition cascadeRow (st : Status) (now : Time) (cr : cascadeRejection) : TransactionStatus :=
  statusRow (cr_txid cr) st 0 now (cascadeReason st (cr_ancestor cr)) [].

Definition persistCascade (cascaded : list cascadeRejection) (st : Status) (now : Time) : PProg unit :=
  let statuses := List.map (cascadeRow st now) cascaded in
  _ ← perform (pBatchUpdate statuses);
  (if bool_decide (st = StatusPendingRetry)
   then forEach (fun cr => schedulePendingRetry (cr_txid cr) (cr_rawTx cr) (cascadeReason st (cr_ancestor cr))) cascaded
   else mret tt) ;;
  if bool_decide (st = StatusRejected) then publishRejections statuses now
  else publishBulkStatus st (List.map cr_txid cascaded) now.

(** ** Terminal statuses *)

(** [for _, target := range p.dispatcherTargets(io)]; a target that does not
    answer before the context is done ends the loop. *)
Fixpoint notifyTargets (targets : list nat) (txid : string) (st : Status) : PProg (list cascadedTx) :=
  match targets with
  | [] => mret []
  | d :: targets =>
      r ← perform (pNotify d txid st);
      match (r : option (list cascadedTx)) with
      | None => mret []
      | Some cascaded =>
          rest ← notifyTargets targets txid st;
          mret (cascaded ++ rest)
      end
  end.

Definition notifyTerminalToDispatcher (io : ioTarget) (txid : string) (st : Status) : PProg (list cascadedTx) :=
  targets ← perform (pTargets io);
  notifyTargets targets txid st.

(** [for _, txid := range terminal...] with the cascade of each. *)
Fixpoint notifyAll (io : ioTarget) (st : Status) (txids : list string) : PProg (list cascadeRejection) :=
  match txids with
  | [] => mret []
  | txid :: txids =>
      cascaded ← notifyTerminalToDispatcher io txid st;
      rest ← notifyAll io st txids;
      mret (List.map (fun c => mkCascadeRejection (ct_txid c) (ct_rawTx c) txid) cascaded ++ rest)
  end.

Definition withStatus (st : Status) (rows : list TransactionStatus) : list TransactionStatus :=
  List.filter (fun r => bool_decide (ts_Status r = st)) rows.

(** The rows the store moved: it returned a previous row with another status. *)
Definition transitioned (prevs : list (option TransactionStatus)) (rows : list TransactionStatus) : list TransactionStatus :=
  List.concat (imap (fun i st => match prevs !! i with
                                 | Some (Some prev) => if bool_decide (ts_Status prev = ts_Status st) then [] else [st]
                                 | _ => []
                                 end) rows).

Definition applyTerminalStatuses (terminal : list TransactionStatus) (io : ioTarget) : PProg unit :=
  if (length terminal =? 0)%nat then mret tt
  else
    '(prevs, err) ← perform (pBatchUpdate terminal);
    now ← perform pNow;
    let moved := transitioned prevs terminal in
    publishBulkStatus StatusAcceptedByNetwork (List.map ts_TxID (withStatus StatusAcceptedByNetwork moved)) now ;;
    publishRejections (withStatus StatusRejected moved) now ;;
    publishBulkStatus StatusPendingRetry (List.map ts_TxID (withStatus StatusPendingRetry moved)) now ;;
    match (err : option error) with
    | Some _ => mret tt
    | None =>
        _ ← notifyAll io StatusAcceptedByNetwork (List.map ts_TxID (withStatus StatusAcceptedByNetwork terminal));
        rejectCascaded ← notifyAll io StatusRejected (List.map ts_TxID (withStatus StatusRejected terminal));
        parkCascaded ← notifyAll io StatusPendingRetry (List.map ts_TxID (withStatus StatusPendingRetry terminal));
        (if (0 <? length rejectCascaded)%nat then persistCascade rejectCascaded StatusRejected now else mret tt) ;;
        (if (0 <? length parkCascaded)%nat then persistCascade parkCascaded StatusPendingRetry now else mret tt)
    end.

(** ** Missing parents *)

Definition parsedParents (raw : list byte) : list string :=
  match txInputs raw with
  | None => []
  | Some ins => omap (fun i => match i with None => None | Some (txid, _) => Some txid end) ins
  end.

Definition parentTxIDsOf (msg : propagationMsg) : list string :=
  if (0 <? length (InputTXIDs msg))%nat then InputTXIDs msg else parsedParents (RawTx msg).

Definition maxAncestorWalkDepth : nat := 8.

(** One level of the climb: a rejected ancestor, or the next frontier. *)
Fixpoint climb (visited : gset string) (frontier next : list string) : PProg (string + gset string * list string) :=
  match frontier with
  | [] => mret (inr (visited, next))
  | ancestor :: frontier =>
      if String.eqb ancestor "" || bool_decide (ancestor ∈ visited) then climb visited frontier next
      else
        let visited := {[ancestor]} ∪ visited in
        row ← perform (pGetStatus ancestor);
        match (row : Res (option TransactionStatus)) with
        | Ok (Some row) =>
            if bool_decide (ts_Status row = StatusRejected) then mret (inl ancestor)
            else if negb (bool_decide (ts_Status row = StatusPendingRetry)) && negb (bool_decide (ts_Status row = StatusReceived))
            then climb visited frontier next
            else if (length (ts_RawTx row) =? 0)%nat then climb visited frontier next
            else climb visited frontier (next ++ parentTxIDsOf (mkPropagationMsg ancestor (ts_RawTx row) [] 0 0 "" ""))
        | _ => climb visited frontier next
        end
  end.

Fixpoint climbLevels (depth : nat) (visited : gset string) (frontier : list string) : PProg (option string) :=
  match depth, frontier with
  | S depth, _ :: _ =>
      r ← climb visited frontier [];
      match (r : string + gset string * list string) with
      | inl ancestor => mret (Some ancestor)
      | inr (visited, next) => climbLevels depth visited next
      end
  | _, _ => mret None
  end.

Definition rejectedAncestor (msg : propagationMsg) : PProg (option string) :=
  climbLevels maxAncestorWalkDepth {[TXID msg]} (parentTxIDsOf msg).

Definition withRetryReason (reason : string) (m : propagationMsg) : propagationMsg :=
  mkPropagationMsg (TXID m) (RawTx m) (InputTXIDs m) (retryCount m) (merkleRetryCount m) (merkleFailureReason m) reason.

Fixpoint resolveLoop (now : Time) (msgs : list (propagationMsg * string)) : PProg (list TransactionStatus * list propagationMsg) :=
  match msgs with
  | [] => mret ([], [])
  | (msg, line) :: msgs =>
      ancestor ← rejectedAncestor msg;
      '(cascaded, requeue) ← resolveLoop now msgs;
      mret (match (ancestor : option string) with
            | Some a => (statusRow (TXID msg) StatusRejected 0 now (cascadeReason StatusRejected a) [] :: cascaded, requeue)
            | None => (cascaded, withRetryReason line msg :: requeue)
            end)
  end.

Definition resolveMissingParents (msgs : list (propagationMsg * string)) : PProg (list TransactionStatus * list propagationMsg) :=
  now ← perform pNow;
  resolveLoop now msgs.

(** ** Requeueing *)

Inductive retryStage : Type := retryStageNetwork | retryStageMerkle.

Definition withRetryCount (n : Z) (m : propagationMsg) : propagationMsg :=
  mkPropagationMsg (TXID m) (RawTx m) (InputTXIDs m) n (merkleRetryCount m) (merkleFailureReason m) (retryReason m).

Definition chargeRetryBudget (msgs : list propagationMsg) : list propagationMsg * list propagationMsg :=
  let charged := List.map (fun m => withRetryCount (retryCount m + 1) m) msgs in
  (List.filter (fun m => negb (retryMaxAttempts cfg <? retryCount m)%Z) charged,
   List.filter (fun m => (retryMaxAttempts cfg <? retryCount m)%Z) charged).

Definition chargeMerkleRetryBudget (msgs : list propagationMsg) : list propagationMsg * list propagationMsg :=
  let charged := List.map (fun m => withMerkle (merkleRetryCount m + 1) (merkleFailureReason m) m) msgs in
  (List.filter (fun m => negb (merkleRetryMaxAttempts cfg <? merkleRetryCount m)%Z) charged,
   List.filter (fun m => (merkleRetryMaxAttempts cfg <? merkleRetryCount m)%Z) charged).

Definition merkleParkReason (m : propagationMsg) : string :=
  let base := ("merkle-service /watch failed after " ++ fmtD (merkleRetryMaxAttempts cfg) ++
               " registration attempts: retryable — parked for durable rebroadcast by the propagation reaper; network propagation budget was not consumed")%string in
  if String.eqb (merkleFailureReason m) "" then base
  else (base ++ "; last registration error: " ++ merkleFailureReason m)%string.

Definition parkExhaustedMerkleRegistrations (msgs : list propagationMsg) (io : ioTarget) : PProg unit :=
  now ← perform pNow;
  applyTerminalStatuses (List.map (fun m => statusRow (TXID m) StatusPendingRetry 0 now (merkleParkReason m) []) msgs) io ;;
  forEach (fun m => schedulePendingRetry (TXID m) (RawTx m) (merkleFailureReason m)) msgs.

Definition networkParkReason (m : propagationMsg) : string :=
  let generic := ("no network verdict after " ++ fmtD (retryMaxAttempts cfg) ++
                  " propagation attempts: retryable — parked for durable rebroadcast by the propagation reaper")%string in
  if String.eqb (retryReason m) "" then generic
  else if lineIsMissingParentCondition (retryReason m)
  then ("parent not yet accepted by the network after " ++ fmtD (retryMaxAttempts cfg) ++
        " propagation attempts: retryable — parked for durable rebroadcast by the propagation reaper; last error: " ++ retryReason m)%string
  else (generic ++ "; last network response: " ++ retryReason m)%string.

Definition parkExhaustedRequeues (msgs : list propagationMsg) (io : ioTarget) : PProg unit :=
  now ← perform pNow;
  applyTerminalStatuses (List.map (fun m => statusRow (TXID m) StatusPendingRetry 0 now (networkParkReason m) []) msgs) io ;;
  forEach (fun m => schedulePendingRetry (TXID m) (RawTx m) (retryReason m)) msgs.

Definition requeueAfterDelayStaged (msgs : list propagationMsg) (io : ioTarget) (stage : retryStage) : PProg unit :=
  if (length msgs =? 0)%nat then mret tt
  else
    done ← perform pCtxDone;
    if (done : bool) then mret tt
    else
      let '(retry, exhausted) :=
        match stage with
        | retryStageMerkle => chargeMerkleRetryBudget msgs
        | retryStageNetwork => chargeRetryBudget msgs
        end in
      (if (0 <? length exhausted)%nat
       then match stage with
            | retryStageMerkle => parkExhaustedMerkleRegistrations exhausted io
            | retryStageNetwork => parkExhaustedRequeues exhausted io
            end
       else mret tt) ;;
      if (length retry =? 0)%nat then mret tt else perform (pSpawnRequeue retry).

Definition requeueAfterDelay (msgs : list propagationMsg) (io : ioTarget) : PProg unit :=
  requeueAfterDelayStaged msgs io retryStageNetwork.
Definition requeueMerkleRegistration (msgs : list propagationMsg) (io : ioTarget) : PProg unit :=
  requeueAfterDelayStaged msgs io retryStageMerkle.

(** The goroutine: the delay, then the messages until one is refused. *)
Fixpoint requeueSends (msgs : list propagationMsg) : PProg unit :=
  match msgs with
  | [] => mret tt
  | m :: msgs =>
      sent ← perform (pRequeueSend m);
      if (sent : bool) then requeueSends msgs else mret tt
  end.
Definition requeueRoutine (msgs : list propagationMsg) : PProg unit :=
  elapsed ← perform pRequeueDelay;
  if (elapsed : bool) then requeueSends msgs else mret tt.

(** ** A batch *)

Definition abortBatchOnRevokedClaim : PProg bool := perform pCtxDone.

(** What the loop over the results collects. *)
Record sorted : Type := mkSorted {
  so_terminal : list TransactionStatus;
  so_requeue : list propagationMsg;
  so_missing : list (propagationMsg * string)
}.

Definition sortResult (acc : sorted) (mr : propagationMsg * txResult) : sorted :=
  let '(msg, res) := mr in
  match class res with
  | txResultClassAccepted | txResultClassRejected =>
      mkSorted (so_terminal acc ++ option_list (status res)) (so_requeue acc) (so_missing acc)
  | txResultClassMissingParent =>
      mkSorted (so_terminal acc) (so_requeue acc) (so_missing acc ++ [(msg, errMsg res)])
  | _ =>
      let msg := if String.eqb (errMsg res) "" then msg else withRetryReason (errMsg res) msg in
      mkSorted (so_terminal acc) (so_requeue acc ++ [msg]) (so_missing acc)
  end.

Definition sortResults (batch : list propagationMsg) (results : list txResult) : sorted :=
  foldl sortResult (mkSorted [] [] []) (zip batch results).

(** [processBatch] from the broadcast on. *)
Definition settleRegistered (registered : list propagationMsg) (io : ioTarget) : PProg unit :=
  results ← broadcastInChunks cfg registered;
  let so := sortResults registered (default [] results) in
  '(cascaded, requeue) ← (if (0 <? length (so_missing so))%nat then resolveMissingParents (so_missing so) else mret ([], []));
  applyTerminalStatuses (so_terminal so ++ cascaded) io ;;
  let toRequeue := so_requeue so ++ requeue in
  if (0 <? length toRequeue)%nat then
    revoked ← abortBatchOnRevokedClaim;
    if (revoked : bool) then mret tt else requeueAfterDelay toRequeue io
  else mret tt.

Definition processBatch (batch : list propagationMsg) (io : ioTarget) : PProg unit :=
  revoked ← abortBatchOnRevokedClaim;
  if (revoked : bool) then mret tt
  else
    '(registered, failedRegister) ← registerBatch batch;
    revoked ← abortBatchOnRevokedClaim;
    if (revoked : bool) then mret tt
    else
      (if (0 <? length failedRegister)%nat then requeueMerkleRegistration failedRegister io else mret tt) ;;
      if (length registered =? 0)%nat then mret tt else settleRegistered registered io.
End Pipeline.
