(* ===== verification/PropagatorProps.v ===== *)
(** * PropagatorProps: what the pipeline writes, announces and requeues *)
From stdpp Require Import base gmap strings list pretty.
From Stdlib Require Import Ascii ZArith Lia.
From Stdlib Require Import Strings.Byte.
From S2P Require Import Prelude Models GoStrings Teranode Offsets Dispatcher Chunking Effects Verdicts VerdictsProps Broadcast BroadcastProps Propagator.

(** ** Evidence in a trace *)

Definition registeredIn (tr : PTrace) (txid : string) : Prop :=
  ∃ regs errs i rg, Event (pRegister toPool regs) errs ∈ tr ∧ regs !! i = Some rg ∧ rg_TxID rg = txid ∧ errs !! i = Some None.
Definition refusedIn (tr : PTrace) (txid : string) : Prop :=
  ∃ regs errs i rg e, Event (pRegister toPool regs) errs ∈ tr ∧ regs !! i = Some rg ∧ rg_TxID rg = txid ∧ errs !! i = Some (Some e).

(** The store took a batch with this row. *)
Definition wrote (tr : PTrace) (txid : string) (st : Status) : Prop :=
  ∃ rows prevs row, Event (pBatchUpdate rows) (prevs, None) ∈ tr ∧ row ∈ rows ∧ ts_TxID row = txid ∧ ts_Status row = st.

(** The store reported a transition of the row. *)
Definition movedIn (tr : PTrace) (row : TransactionStatus) : Prop :=
  ∃ rows prevs err i prev, Event (pBatchUpdate rows) (prevs, err) ∈ tr ∧ rows !! i = Some row ∧ prevs !! i = Some (Some prev)
    ∧ ts_Status prev ≠ ts_Status row.

(** A dispatcher named the transaction when its ancestor ended this way. *)
Definition cascadedBy (tr : PTrace) (st : Status) (txid : string) : Prop :=
  ∃ d anc cs c, Event (pNotify d anc st) (Some cs) ∈ tr ∧ c ∈ cs ∧ ct_txid c = txid.

Definition gaveUp (tr : PTrace) (txid : string) : Prop := ∃ reason, Event (pClearRetry txid StatusRejected reason) None ∈ tr.

Definition readRejected (tr : PTrace) : Prop :=
  ∃ a row, Event (pGetStatus a) (Ok (Some row)) ∈ tr ∧ ts_Status row = StatusRejected.

Section Evidence.
Context `{TxParser} `{MapOrder}.

Definition verdictFor (tr : PTrace) (msg : propagationMsg) (r : txResult) : Prop := ∃ part, settled part tr msg r.

(** A message of the batch, with whatever the pipeline noted on it. *)
Definition sameTx (m m0 : propagationMsg) : Prop :=
  TXID m = TXID m0 ∧ RawTx m = RawTx m0 ∧ InputTXIDs m = InputTXIDs m0 ∧ retryCount m = retryCount m0.
Definition fromBatch (batch : list propagationMsg) (m : propagationMsg) : Prop := ∃ m0, m0 ∈ batch ∧ sameTx m m0.
(** ... which also kept its count of registration attempts. *)
Definition fromFailed (batch : list propagationMsg) (m : propagationMsg) : Prop :=
  ∃ m0, m0 ∈ batch ∧ sameTx m m0 ∧ merkleRetryCount m = merkleRetryCount m0.

Definition unresolved (r : txResult) : Prop := class r = txResultClassRequeue ∨ class r = txResultClassMissingParent.

(** Why a terminal row may be written. *)
Definition rowBacked (cfg : PConfig) (batch : list propagationMsg) (tr : PTrace) (row : TransactionStatus) : Prop :=
  (∃ msg r, fromBatch batch msg ∧ verdictFor tr msg r ∧ status r = Some row ∧ ts_TxID row = TXID msg
     ∧ (class r = txResultClassAccepted ∧ ts_Status row = StatusAcceptedByNetwork
        ∨ class r = txResultClassRejected ∧ ts_Status row = StatusRejected))
  ∨ (∃ msg r, fromBatch batch msg ∧ verdictFor tr msg r ∧ class r = txResultClassMissingParent ∧ readRejected tr
       ∧ ts_TxID row = TXID msg ∧ ts_Status row = StatusRejected)
  ∨ (ts_Status row = StatusPendingRetry ∧ ∃ msg r, fromBatch batch msg ∧ verdictFor tr msg r ∧ unresolved r
       ∧ ts_TxID row = TXID msg ∧ (retryMaxAttempts cfg < retryCount msg + 1)%Z)
  ∨ (ts_Status row = StatusPendingRetry ∧ ∃ msg, fromFailed batch msg ∧ refusedIn tr (TXID msg)
       ∧ ts_TxID row = TXID msg ∧ (merkleRetryMaxAttempts cfg < merkleRetryCount msg + 1)%Z)
  ∨ ((ts_Status row = StatusRejected ∨ ts_Status row = StatusPendingRetry) ∧ cascadedBy tr (ts_Status row) (ts_TxID row)).

Definition requeueBacked (cfg : PConfig) (batch : list propagationMsg) (tr : PTrace) (m : propagationMsg) : Prop :=
  (∃ m0 r, fromBatch batch m0 ∧ verdictFor tr m0 r ∧ unresolved r ∧ TXID m = TXID m0 ∧ RawTx m = RawTx m0
     ∧ retryCount m = (retryCount m0 + 1)%Z ∧ (retryCount m <= retryMaxAttempts cfg)%Z)
  ∨ (∃ m0, fromFailed batch m0 ∧ refusedIn tr (TXID m0) ∧ sameTx m m0
       ∧ merkleRetryCount m = (merkleRetryCount m0 + 1)%Z ∧ (merkleRetryCount m <= merkleRetryMaxAttempts cfg)%Z).

(** The wait before attempt [n + 1] of a parked transaction: the base doubled
    with every attempt up to the cap, give or take a fifth, and a millisecond
    at least. *)
Definition retryBase (cfg : PConfig) : Z := if (pendingRetryBackoff cfg <=? 0)%Z then defaultPendingRetryBackoff else pendingRetryBackoff cfg.
Definition retryCap (cfg : PConfig) : Z := Z.max (pendingRetryMaxBackoff cfg) (retryBase cfg).
Definition backoff (cfg : PConfig) (n : Z) : Z := Z.min (retryBase cfg * 2 ^ Z.max 0 (n - 1)) (retryCap cfg).
Definition delayOK (cfg : PConfig) (n d : Z) : Prop :=
  (1000000 <= d)%Z ∧ (4 * backoff cfg n <= 5 * d)%Z ∧ (5 * d <= Z.max 5000000 (6 * backoff cfg n))%Z.

(** The transaction's row was sent to the store as parked. *)
Definition parkedIn (tr : PTrace) (txid : string) : Prop :=
  ∃ rows ans row, Event (pBatchUpdate rows) ans ∈ tr ∧ row ∈ rows ∧ ts_TxID row = txid ∧ ts_Status row = StatusPendingRetry.

(** What the pipeline may call, given the calls so far; [again] says of a
    transaction that it was parked before. *)
Definition pAllowed (cfg : PConfig) (batch : list propagationMsg) (again : string -> Prop) (tr : PTrace) (c : pcall) : Prop :=
  match c with
  | pFanOut _ raws => ∀ raw, raw ∈ raws -> ∃ m, fromBatch batch m ∧ RawTx m = raw ∧ (merkleDisabled cfg = true ∨ registeredIn tr (TXID m))
  | pBatchUpdate rows => ∀ row, row ∈ rows -> rowBacked cfg batch tr row
  | pNotify _ txid st => wrote tr txid st
  | pPublish ev => ∀ txid, txid ∈ ts_TxIDs ev ->
      (∃ row, movedIn tr row ∧ ts_TxID row = txid ∧ ts_Status row = ts_Status ev)
      ∨ cascadedBy tr (ts_Status ev) txid
      ∨ (ts_Status ev = StatusRejected ∧ gaveUp tr txid)
  | pSpawnRequeue msgs => ∀ m, m ∈ msgs -> requeueBacked cfg batch tr m
  | pBumpRetry txid => parkedIn tr txid ∨ again txid
  | pClearRetry txid st _ => st = StatusRejected ∧ ∃ n, Event (pBumpRetry txid) (Ok n) ∈ tr ∧ (pendingRetryMaxAttempts cfg < n)%Z
  | pSetPending txid raw next _ => raw ≠ [] ∧ ∃ n now d, Event (pBumpRetry txid) (Ok n) ∈ tr ∧ (n <= pendingRetryMaxAttempts cfg)%Z
      ∧ Event pNow now ∈ tr ∧ next = timeAdd now d ∧ delayOK cfg n d
  | _ => True
  end.

(** Documented of merkle-service's client: one answer per registration; two
    random bytes are a number below 2^16. *)
Definition pRely (tr : PTrace) (e : event panswer) : Prop :=
  match e with
  | Event (pRegister _ regs) errs => length errs = length regs
  | Event pRandom (Some b) => (0 <= b < 65536)%Z
  | _ => True
  end.

(** *** Evidence is kept *)

Lemma registeredIn_grows tr tr' x : registeredIn tr x -> tr ⊆ tr' -> registeredIn tr' x.
Proof. intros (a & b & i & r & ? & ?) Hs. exists a, b, i, r. auto. Qed.
Lemma refusedIn_grows tr tr' x : refusedIn tr x -> tr ⊆ tr' -> refusedIn tr' x.
Proof. intros (a & b & i & r & e & ? & ?) Hs. exists a, b, i, r, e. auto. Qed.
Lemma wrote_grows tr tr' x st : wrote tr x st -> tr ⊆ tr' -> wrote tr' x st.
Proof. intros (a & b & r & ? & ?) Hs. exists a, b, r. auto. Qed.
Lemma movedIn_grows tr tr' row : movedIn tr row -> tr ⊆ tr' -> movedIn tr' row.
Proof. intros (a & b & e & i & p & ? & ?) Hs. exists a, b, e, i, p. auto. Qed.
Lemma cascadedBy_grows tr tr' st x : cascadedBy tr st x -> tr ⊆ tr' -> cascadedBy tr' st x.
Proof. intros (a & b & cs & c & ? & ?) Hs. exists a, b, cs, c. auto. Qed.
Lemma gaveUp_grows tr tr' x : gaveUp tr x -> tr ⊆ tr' -> gaveUp tr' x.
Proof. intros (r & ?) Hs. exists r. auto. Qed.
Lemma parkedIn_grows tr tr' x : parkedIn tr x -> tr ⊆ tr' -> parkedIn tr' x.
Proof. intros (a & b & r & ? & ?) Hs. exists a, b, r. auto. Qed.
Lemma readRejected_grows tr tr' : readRejected tr -> tr ⊆ tr' -> readRejected tr'.
Proof. intros (a & r & ? & ?) Hs. exists a, r. auto. Qed.
Lemma verdictFor_grows tr tr' m r : verdictFor tr m r -> tr ⊆ tr' -> verdictFor tr' m r.
Proof. intros (p & ?) Hs. exists p. by eapply settled_grows. Qed.

Lemma rowBacked_grows cfg batch tr tr' row : rowBacked cfg batch tr row -> tr ⊆ tr' -> rowBacked cfg batch tr' row.
Proof.
  intros [(m & r & ? & Hv & ?)|[(m & r & ? & Hv & ? & Hr & ?)|[(? & m & r & ? & Hv & ?)|[(? & m & ? & Hf & ?)|(? & Hc)]]]] Hs.
  - left. exists m, r. eauto using verdictFor_grows.
  - right. left. exists m, r. split_and!; [done|by eapply verdictFor_grows|done|by eapply readRejected_grows|by destruct_and!..].
  - right. right. left. split; [done|]. exists m, r. eauto using verdictFor_grows.
  - right. right. right. left. split; [done|]. exists m. eauto using refusedIn_grows.
  - right. right. right. right. eauto using cascadedBy_grows.
Qed.
End Evidence.

(** ** The retry delay *)

Lemma doubleDelay_min k d m : (0 < d)%Z -> Z.min (doubleDelay k d m) m = Z.min (d * 2 ^ Z.of_nat k) m.
Proof.
  revert d. induction k as [|k IH]; intros d Hd; cbn [doubleDelay]; [by rewrite Z.mul_1_r|].
  rewrite Nat2Z.inj_succ, Z.pow_succ_r by lia. destruct (Z.ltb_spec d m) as [Hlt|Hge].
  - rewrite IH by lia. f_equal. ring.
  - assert (1 <= 2 ^ Z.of_nat k)%Z by (apply (Z.pow_le_mono_r 2 0); lia). nia.
Qed.

Lemma retryBase_pos cfg : (0 < retryBase cfg)%Z.
Proof. unfold retryBase, defaultPendingRetryBackoff. destruct (Z.leb_spec (pendingRetryBackoff cfg) 0); lia. Qed.

Lemma nominal_backoff cfg n : nominalRetryDelay cfg n = backoff cfg n.
Proof.
  unfold nominalRetryDelay, backoff, retryCap. fold (retryBase cfg). rewrite doubleDelay_min by apply retryBase_pos.
  do 3 f_equal. lia.
Qed.

Lemma backoff_pos cfg n : (0 < backoff cfg n)%Z.
Proof.
  unfold backoff, retryCap. pose proof (retryBase_pos cfg). assert (1 <= 2 ^ Z.max 0 (n - 1))%Z by (apply (Z.pow_le_mono_r 2 0); lia). nia.
Qed.

(** A fifth either way, rounded towards zero. *)
Lemma delay_jitter_bounds b n : (0 <= b < 65536)%Z -> (0 < n)%Z -> (- n <= 5 * Z.quot ((4 * b - 131070) * n) 655350 <= n)%Z.
Proof.
  intros Hb Hn. assert (Z.abs ((4 * b - 131070) * n) <= 131070 * n)%Z as Ha by (apply Z.abs_le; nia).
  pose proof (Z.quot_rem' ((4 * b - 131070) * n) 655350). pose proof (Z.rem_bound_abs ((4 * b - 131070) * n) 655350 ltac:(lia)).
  destruct (Z.le_gt_cases 0 ((4 * b - 131070) * n)).
  - pose proof (Z.rem_nonneg ((4 * b - 131070) * n) 655350 ltac:(lia) ltac:(lia)). lia.
  - pose proof (Z.rem_nonpos ((4 * b - 131070) * n) 655350 ltac:(lia) ltac:(lia)). lia.
Qed.

(** ** The functions, one after the other *)

Section Pipeline.
Context `{TxParser} `{MapOrder}.
Variable (cfg : PConfig) (batch : list propagationMsg) (again : string -> Prop).

Local Abbreviation pw := (wp (answer := panswer) (pAllowed cfg batch again) pRely).

Lemma pw_grows {A} (p : PProg A) tr Q : pw p tr Q -> pw p tr (fun a tr' => Q a tr' ∧ tr ⊆ tr').
Proof. apply wp_grows. Qed.

Lemma forEach_wp {A} (f : A -> PProg unit) l tr (I : PTrace -> Prop) :
  I tr -> (∀ x tr, x ∈ l -> I tr -> pw (f x) tr (fun _ tr' => I tr')) -> pw (forEach f l) tr (fun _ tr' => I tr').
Proof.
  revert tr. induction l as [|x l IH]; intros tr Hi Hf; cbn [forEach]; [done|]. apply wp_bind.
  eapply wp_mono; [apply Hf; [by left|done]|]. intros [] tr' Hi'. apply IH; [done|]. intros y t Hy. apply Hf. by right.
Qed.

(** *** Events *)

Definition publishable (tr : PTrace) (st : Status) (txid : string) : Prop :=
  (∃ row, movedIn tr row ∧ ts_TxID row = txid ∧ ts_Status row = st) ∨ cascadedBy tr st txid ∨ (st = StatusRejected ∧ gaveUp tr txid).

Lemma publishable_grows tr tr' st x : publishable tr st x -> tr ⊆ tr' -> publishable tr' st x.
Proof.
  intros [(row & Hm & ?)|[Hc|[? Hg]]] Hs; [left; exists row; eauto using movedIn_grows|right; left; by eapply cascadedBy_grows|].
  right. right. eauto using gaveUp_grows.
Qed.

Lemma publishBulk_wp ev tr : (∀ x, x ∈ ts_TxIDs ev -> publishable tr (ts_Status ev) x) -> pw (publishBulk ev) tr (fun _ tr' => tr ⊆ tr').
Proof. intros Hx. unfold publishBulk. wp_go. wp_ask e ltac:(exact Hx). wp_go. apply grows_snoc. Qed.

Lemma publishBulkStatus_wp st txids ts tr :
  (∀ x, x ∈ txids -> publishable tr st x) -> pw (publishBulkStatus cfg st txids ts) tr (fun _ tr' => tr ⊆ tr').
Proof. intros Hx. unfold publishBulkStatus. destruct (_ || _); [by apply wp_ret|]. by apply publishBulk_wp. Qed.

(** A group announces rejections only, each of a given row. *)
Definition group_ok (rows : list TransactionStatus) (g : TransactionStatus) : Prop :=
  ts_Status g = StatusRejected ∧ ∀ x, x ∈ ts_TxIDs g -> ∃ row, row ∈ rows ∧ ts_TxID row = x.

Lemma groups_ok ts rows : Forall (group_ok rows) (groupRejections ts rows).
Proof.
  unfold groupRejections. assert (∀ l acc, Forall (group_ok rows) acc.2 -> (∀ r, r ∈ l -> r ∈ rows) ->
    Forall (group_ok rows) (foldl (groupRejection ts) acc l).2) as Hf.
  { induction l as [|row l IH]; intros [index groups] Hacc Hl; cbn [foldl]; [done|]. apply IH; [|intros r Hr; apply Hl; by right].
    unfold groupRejection. assert (row ∈ rows) as Hrow by (apply Hl; by left). destruct (index !! reasonOf row) as [i|]; cbn [snd] in *.
    - apply Forall_alter; [done|]. intros g _ [Hs Hx]. split; [done|]. cbn. intros x [Hin| ->%list_elem_of_singleton]%elem_of_app; [by apply Hx|].
      by exists row.
    - apply Forall_app. split; [done|]. constructor; [|done]. split; [done|]. cbn. intros x ->%list_elem_of_singleton. by exists row. }
  by apply Hf.
Qed.

Lemma publishRejections_wp rows ts tr :
  (∀ row, row ∈ rows -> publishable tr StatusRejected (ts_TxID row)) -> pw (publishRejections cfg rows ts) tr (fun _ tr' => tr ⊆ tr').
Proof.
  intros Hr. unfold publishRejections. destruct (_ || _); [by apply wp_ret|].
  apply (forEach_wp _ _ _ (fun tr' => tr ⊆ tr')); [done|]. intros g t Hg Ht.
  pose proof (proj1 (Forall_forall _ _) (groups_ok ts rows) g Hg) as [Hs Hx].
  eapply wp_mono; [apply publishBulk_wp|]; [|intros [] t' Ht'; by etrans].
  intros x Hin. destruct (Hx x Hin) as (row & Hrow & <-). rewrite Hs. eapply publishable_grows; [by apply Hr|done].
Qed.

(** *** Durable retry *)

Lemma delay_wp n tr : pw (nextPendingRetryDelay cfg n) tr (fun d tr' => tr ⊆ tr' ∧ delayOK cfg n d).
Proof.
  unfold nextPendingRetryDelay. rewrite nominal_backoff. pose proof (backoff_pos cfg n) as Hpos. wp_go.
  apply (wp_perform (pAllowed cfg batch again) pRely); [done|]. intros r Hr. wp_go. split; [apply grows_snoc|]. unfold delayOK.
  cbn in r, Hr. destruct r as [b|]; [pose proof (delay_jitter_bounds b (backoff cfg n) Hr Hpos)|]; match goal with |- context [(?x <? 1000000)%Z] => destruct (Z.ltb_spec x 1000000) end; lia.
Qed.

Lemma schedule_wp txid raw reason tr :
  parkedIn tr txid ∨ again txid -> pw (schedulePendingRetry cfg txid raw reason) tr
    (fun _ tr' => tr ⊆ tr' ∧ (raw ≠ [] -> ∃ ans, Event (pBumpRetry txid) ans ∈ tr')).
Proof.
  intros Hp. unfold schedulePendingRetry. destruct (Nat.eqb_spec (length raw) 0) as [El|El].
  { apply wp_ret. split; [done|]. by destruct raw. }
  wp_go. wp_ask count ltac:(exact Hp). set (e := Event (answer := panswer) (pBumpRetry txid) count).
  assert (∀ t, tr ++ [e] ⊆ t -> tr ⊆ t ∧ (raw ≠ [] -> ∃ ans, Event (pBumpRetry txid) ans ∈ t)) as Hfin.
  { intros t [Hg He]%snoc_grows. split; [done|]. intros _. by exists count. }
  destruct count as [count|err]; [|by apply wp_ret, Hfin].
  destruct (Z.ltb_spec (pendingRetryMaxAttempts cfg) count) as [Hlt|Hle].
  - wp_go. wp_ask err ltac:(split; [done|]; exists count; split; [apply snoc_here|done]). destruct err as [err|]; [apply wp_ret, Hfin, grows_snoc|].
    wp_go. wp_ask now idtac. eapply wp_mono; [apply publishRejections_wp|intros [] t' Ht; apply Hfin; etrans; [|exact Ht]].
    + intros row ->%list_elem_of_singleton. right. right. split; [done|]. cbn. eexists. apply elem_of_app. left. apply snoc_here.
    + intros x Hx; do 2 (apply elem_of_app; left); done.
  - wp_go. wp_ask now idtac. set (e2 := Event (answer := panswer) pNow now). wp_go. eapply wp_mono; [apply delay_wp|]. intros d t [Hg Hd].
    apply snoc_grows in Hg as [Hg He2]. wp_go. eapply (wp_perform (pAllowed cfg batch again) pRely).
    + cbn. split; [by destruct raw|]. exists count, now, d. split_and!; try done; try apply Hd. apply Hg, snoc_here.
    + intros err _. wp_go. apply Hfin. etrans; [exact Hg|apply grows_snoc].
Qed.

(** *** Cascades *)

Lemma persistCascade_wp cascaded st now tr :
  st = StatusRejected ∨ st = StatusPendingRetry -> (∀ cr, cr ∈ cascaded -> cascadedBy tr st (cr_txid cr)) ->
  pw (persistCascade cfg cascaded st now) tr (fun _ tr' => tr ⊆ tr').
Proof.
  intros Hst Hc. unfold persistCascade. wp_go. apply (wp_perform (pAllowed cfg batch again) pRely).
  { cbn. intros row Hrow. apply list_elem_of_In, in_map_iff in Hrow as (cr & <- & Hcr%list_elem_of_In).
    right. right. right. right. split; [done|]. by apply Hc. }
  intros ans _. set (e := Event _ _). apply wp_bind.
  eapply (wp_mono _ _ _ _ (fun _ tr' => tr ++ [e] ⊆ tr')).
  { case_bool_decide as Es; [|by apply wp_ret].
    apply (forEach_wp _ _ _ (fun tr' => tr ++ [e] ⊆ tr')); [done|]. intros cr t Hcr Ht.
    eapply wp_mono; [apply schedule_wp|intros [] t' [Ht' _]; by etrans]. left. eexists _, _, (cascadeRow st now cr).
    split; [apply Ht, snoc_here|]. split; [by apply list_elem_of_In, in_map, list_elem_of_In|done]. }
  intros [] t Ht. assert (tr ⊆ t) as Hg by (etrans; [apply grows_snoc|exact Ht]).
  destruct (bool_decide (st = StatusRejected)) eqn:Es.
  - eapply wp_mono; [apply publishRejections_wp|intros [] t' ?; by etrans].
    apply bool_decide_eq_true in Es as ->. intros row Hrow. apply list_elem_of_In, in_map_iff in Hrow as (cr & <- & Hcr%list_elem_of_In).
    right. left. eapply cascadedBy_grows; [by apply Hc|done].
  - eapply wp_mono; [apply publishBulkStatus_wp|intros [] t' ?; by etrans].
    intros x Hx. apply list_elem_of_In, in_map_iff in Hx as (cr & <- & Hcr%list_elem_of_In). right. left.
    eapply cascadedBy_grows; [by apply Hc|done].
Qed.

(** Every one of the dispatchers was told, or one of them did not answer before
    the context was done. *)
Definition toldAll (tr : PTrace) (targets : list nat) (txid : string) (st : Status) : Prop :=
  (∃ d, Event (pNotify d txid st) None ∈ tr) ∨ ∀ d, d ∈ targets -> ∃ ans, Event (pNotify d txid st) ans ∈ tr.

(** The dispatchers [io] stands for were told how the transaction ended. *)
Definition toldOf (io : ioTarget) (tr : PTrace) (txid : string) (st : Status) : Prop :=
  ∃ targets, Event (pTargets io) targets ∈ tr ∧ toldAll tr targets txid st.

Lemma toldOf_grows io tr tr' txid st : toldOf io tr txid st -> tr ⊆ tr' -> toldOf io tr' txid st.
Proof.
  intros (targets & ? & [(d & ?)|Ht]) Hs; exists targets; (split; [auto|]); [left; exists d; auto|right].
  intros d Hd. destruct (Ht d Hd) as [ans ?]. exists ans. auto.
Qed.

Lemma notifyTargets_wp targets txid st tr :
  wrote tr txid st -> pw (notifyTargets targets txid st) tr
    (fun cs tr' => tr ⊆ tr' ∧ (∀ c, c ∈ cs -> cascadedBy tr' st (ct_txid c)) ∧ toldAll tr' targets txid st).
Proof.
  revert tr. induction targets as [|d targets IH]; intros tr Hw; cbn [notifyTargets].
  { apply wp_ret. split_and!; [done|by intros c ?%elem_of_nil|right; by intros d ?%elem_of_nil]. }
  wp_go. wp_ask r ltac:(exact Hw). destruct r as [cs|].
  2: { apply wp_ret. split_and!; [apply grows_snoc|by intros c ?%elem_of_nil|left; exists d; apply snoc_here]. }
  set (e := Event (answer := panswer) (pNotify d txid st) (Some cs)). apply wp_bind.
  eapply wp_mono; [apply IH; eapply wrote_grows; [exact Hw|apply grows_snoc]|]. intros rest tr' (Hg & Hr & Ht). apply wp_ret.
  apply snoc_grows in Hg as [Hg He]. split_and!; [done| |].
  - intros c [Hin|Hin]%elem_of_app; [|by apply Hr]. by exists d, txid, cs, c.
  - destruct Ht as [Ht|Ht]; [by left|right]. intros d' [->|Hd]%elem_of_cons; [by exists (Some cs)|by apply Ht].
Qed.

Lemma notifyAll_wp io st txids tr :
  (∀ x, x ∈ txids -> wrote tr x st) -> pw (notifyAll io st txids) tr
    (fun crs tr' => tr ⊆ tr' ∧ (∀ cr, cr ∈ crs -> cascadedBy tr' st (cr_txid cr)) ∧ ∀ x, x ∈ txids -> toldOf io tr' x st).
Proof.
  revert tr. induction txids as [|x txids IH]; intros tr Hw; cbn [notifyAll].
  { apply wp_ret. split_and!; [done|by intros c ?%elem_of_nil..]. }
  unfold notifyTerminalToDispatcher. wp_go. wp_ask targets idtac.
  eapply wp_mono; [apply notifyTargets_wp; eapply wrote_grows; [apply Hw; by left|apply grows_snoc]|].
  intros cs t1 (Hg1 & Hc1 & Ht1). assert (toldOf io t1 x st) as Hx by (exists targets; split; [apply Hg1, snoc_here|done]).
  assert (tr ⊆ t1) as Hg by (etrans; [apply grows_snoc|exact Hg1]). apply wp_bind.
  eapply wp_mono; [apply IH; intros y Hy; eapply wrote_grows; [apply Hw; by right|done]|]. intros rest t2 (Hg2 & Hr2 & Ht2). apply wp_ret.
  split_and!; [by etrans| |intros y [->|Hy]%elem_of_cons; [by eapply toldOf_grows|by apply Ht2]].
  intros cr [Hin|Hin]%elem_of_app; [|by apply Hr2].
  apply list_elem_of_In, in_map_iff in Hin as (c & <- & Hin%list_elem_of_In). cbn. eapply cascadedBy_grows; [by apply Hc1|done].
Qed.

(** *** Terminal statuses *)

Definition terminalStatus (st : Status) : Prop := st = StatusAcceptedByNetwork ∨ st = StatusRejected ∨ st = StatusPendingRetry.

(** The store took the batch with the row and the dispatchers were told of it. *)
Definition committed (io : ioTarget) (tr : PTrace) (row : TransactionStatus) : Prop :=
  (∃ rows prevs, Event (pBatchUpdate rows) (prevs, None) ∈ tr ∧ row ∈ rows) ∧ toldOf io tr (ts_TxID row) (ts_Status row).
(** The store answered the batch with the row with an error. *)
Definition unwritten (tr : PTrace) (row : TransactionStatus) : Prop :=
  ∃ rows prevs err, Event (pBatchUpdate rows) (prevs, Some err) ∈ tr ∧ row ∈ rows.
Definition written (io : ioTarget) (tr : PTrace) (row : TransactionStatus) : Prop :=
  terminalStatus (ts_Status row) ∧ (committed io tr row ∨ unwritten tr row).

Lemma committed_grows io tr tr' row : committed io tr row -> tr ⊆ tr' -> committed io tr' row.
Proof. intros [(rows & prevs & ? & ?) Ht] Hs. split; [exists rows, prevs; auto|by eapply toldOf_grows]. Qed.
Lemma unwritten_grows tr tr' row : unwritten tr row -> tr ⊆ tr' -> unwritten tr' row.
Proof. intros (rows & prevs & err & ? & ?) Hs. exists rows, prevs, err. auto. Qed.
Lemma written_grows io tr tr' row : written io tr row -> tr ⊆ tr' -> written io tr' row.
Proof. intros [? [?|?]] Hs; (split; [done|]); [left; by eapply committed_grows|right; by eapply unwritten_grows]. Qed.

Lemma rowBacked_terminal tr row : rowBacked cfg batch tr row -> terminalStatus (ts_Status row).
Proof.
  unfold terminalStatus. intros [(? & ? & _ & _ & _ & _ & [[_ ?]|[_ ?]])|[(? & ? & _ & _ & _ & _ & _ & ?)|[[? _]|[[? _]|[[?|?] _]]]]]; auto.
Qed.

Lemma withStatus_elem st rows row : row ∈ withStatus st rows ↔ row ∈ rows ∧ ts_Status row = st.
Proof.
  unfold withStatus. rewrite list_elem_of_In, List.filter_In, <-list_elem_of_In. by rewrite bool_decide_eq_true.
Qed.

Lemma transitioned_moved rows prevs err tr row :
  Event (pBatchUpdate rows) (prevs, err) ∈ tr -> row ∈ transitioned prevs rows -> movedIn tr row.
Proof.
  intros He Hr. unfold transitioned in Hr. apply list_elem_of_In, in_concat in Hr as (l & Hl & Hr).
  apply list_elem_of_In, elem_of_lookup_imap in Hl as (i & st & -> & Hi). apply list_elem_of_In in Hr.
  destruct (prevs !! i) as [[prev|]|] eqn:Ep; [|by apply elem_of_nil in Hr..]. case_bool_decide as Hd; [by apply elem_of_nil in Hr|].
  apply list_elem_of_singleton in Hr as ->. by exists rows, prevs, err, i, prev.
Qed.

Lemma applyTerminal_wp rows io tr :
  (∀ row, row ∈ rows -> rowBacked cfg batch tr row) ->
  pw (applyTerminalStatuses cfg rows io) tr (fun _ tr' => tr ⊆ tr' ∧ ∀ row, row ∈ rows -> written io tr' row).
Proof.
  intros Hb. unfold applyTerminalStatuses. destruct (Nat.eqb_spec (length rows) 0) as [El|El].
  { apply wp_ret. split; [done|]. destruct rows; [|done]. by intros r ?%elem_of_nil. }
  wp_go. wp_ask ans ltac:(exact Hb). destruct ans as [prevs err]. set (e := Event (answer := panswer) (pBatchUpdate rows) (prevs, err)).
  wp_go. wp_ask now idtac. set (t0 := (tr ++ [e]) ++ [_]). assert (e ∈ t0 ∧ tr ⊆ t0) as [He Hg0].
  { split; [apply elem_of_app; left; apply snoc_here|intros x Hx; do 2 (apply elem_of_app; left); done]. }
  assert (∀ st row, row ∈ withStatus st (transitioned prevs rows) -> publishable t0 st (ts_TxID row)) as Hpub.
  { intros st row [Hr Hs]%withStatus_elem. left. exists row. split; [by eapply transitioned_moved|done]. }
  wp_go. eapply wp_mono; [apply publishBulkStatus_wp|].
  { intros x Hx. apply list_elem_of_In, in_map_iff in Hx as (row & <- & Hr%list_elem_of_In). by apply Hpub. }
  intros [] t1 Hg1. wp_go. eapply wp_mono; [apply publishRejections_wp|].
  { intros row Hr. eapply publishable_grows; [by apply Hpub|done]. }
  intros [] t2 Hg2. wp_go. eapply wp_mono; [apply publishBulkStatus_wp|].
  { intros x Hx. apply list_elem_of_In, in_map_iff in Hx as (row & <- & Hr%list_elem_of_In). eapply publishable_grows; [by apply Hpub|by etrans]. }
  intros [] t3 Hg3. assert (t0 ⊆ t3) as Hg by (do 2 (etrans; [eassumption|]); done).
  assert (∀ t, t3 ⊆ t -> tr ⊆ t ∧ e ∈ t) as Hfin.
  { intros t Ht. split; [do 2 (etrans; [eassumption|]); done|by apply Ht, Hg]. }
  destruct err as [err|].
  { apply wp_ret. split; [by apply Hfin|]. intros row Hr. split; [by eapply rowBacked_terminal, Hb|]. right. exists rows, prevs, err. split; [by apply Hfin|done]. }
  assert (∀ st x t, t3 ⊆ t -> x ∈ List.map ts_TxID (withStatus st rows) -> wrote t x st) as Hw.
  { intros st x t Ht Hx. apply list_elem_of_In, in_map_iff in Hx as (row & <- & [Hr Hs]%list_elem_of_In%withStatus_elem).
    exists rows, prevs, row. split_and!; [by apply Ht, Hg|done|done|done]. }
  wp_go. eapply wp_mono; [apply notifyAll_wp; intros x Hx; by apply Hw|]. intros cs4 t4 (Hg4 & _ & Hn4).
  wp_go. eapply wp_mono; [apply notifyAll_wp; intros x Hx; by apply Hw|]. intros cs5 t5 (Hg5 & Hc5 & Hn5).
  wp_go. eapply wp_mono; [apply notifyAll_wp; intros x Hx; apply Hw; [by etrans|done]|]. intros cs6 t6 (Hg6 & Hc6 & Hn6).
  assert (t3 ⊆ t6) as Hg36 by (do 2 (etrans; [eassumption|]); done).
  assert (∀ row, row ∈ rows -> written io t6 row) as Hrows.
  { intros row Hr. pose proof (rowBacked_terminal _ _ (Hb row Hr)) as Hst. split; [done|]. left. split; [exists rows, prevs; split; [by apply Hg36, Hg|done]|].
    assert (∀ st, ts_Status row = st -> ts_TxID row ∈ List.map ts_TxID (withStatus st rows)) as Hin.
    { intros st Hs. apply list_elem_of_In, in_map, list_elem_of_In, withStatus_elem. done. }
    destruct Hst as [E|[E|E]]; rewrite E; [eapply toldOf_grows; [by apply Hn4, Hin|by etrans]|eapply toldOf_grows; [by apply Hn5, Hin|done]|by apply Hn6, Hin]. }
  wp_go. eapply (wp_mono _ _ _ _ (fun _ t => t6 ⊆ t)).
  { destruct (_ <? _)%nat; [|by apply wp_ret]. apply persistCascade_wp; [by left|]. intros cr Hcr. eapply cascadedBy_grows; [by apply Hc5|done]. }
  intros [] t7 Hg7. eapply (wp_mono _ _ _ _ (fun _ t => t7 ⊆ t)).
  { destruct (_ <? _)%nat; [|by apply wp_ret]. apply persistCascade_wp; [by right|]. intros cr Hcr. eapply cascadedBy_grows; [by apply Hc6|done]. }
  intros [] t8 Hg8. assert (t6 ⊆ t8) as Hg68 by by etrans. split; [apply Hfin; by etrans|]. intros row Hr. eapply written_grows; [by apply Hrows|done].
Qed.

(** *** Missing parents *)

Lemma climb_wp visited frontier next tr :
  pw (climb visited frontier next) tr (fun r tr' => tr ⊆ tr' ∧ ∀ a, r = inl a -> readRejected tr').
Proof.
  revert visited next tr. induction frontier as [|a frontier IH]; intros visited next tr; cbn [climb]; [by apply wp_ret|].
  destruct (_ || _); [apply IH|]. wp_go. wp_ask row idtac.
  assert (∀ v n, pw (climb v frontier n) (tr ++ [Event (pGetStatus a) row]) (fun r tr' => tr ⊆ tr' ∧ ∀ a, r = inl a -> readRejected tr')) as Hrest.
  { intros v n. eapply wp_mono; [apply IH|]. intros r t' [Hg Hr]. split; [|done]. etrans; [apply grows_snoc|exact Hg]. }
  destruct row as [[row|]|]; try apply Hrest. case_bool_decide as Hs.
  - apply wp_ret. split; [apply grows_snoc|]. intros _ _. exists a, row. split; [apply snoc_here|done].
  - destruct (_ && _); [apply Hrest|]. destruct (_ =? _)%nat; apply Hrest.
Qed.

Lemma rejectedAncestor_wp msg tr :
  pw (rejectedAncestor msg) tr (fun r tr' => tr ⊆ tr' ∧ ∀ a, r = Some a -> readRejected tr').
Proof.
  unfold rejectedAncestor. generalize ({[TXID msg]} : gset string) as visited, (parentTxIDsOf msg) as frontier.
  revert tr. induction maxAncestorWalkDepth as [|depth IH]; intros tr visited frontier; cbn [climbLevels]; [by apply wp_ret|].
  destruct frontier as [|x frontier]; [by apply wp_ret|]. wp_go. eapply wp_mono; [apply climb_wp|]. intros [a|[v n]] t [Hg Hr].
  - apply wp_ret. split; [done|]. intros _ _. by eapply Hr.
  - eapply wp_mono; [apply IH|]. intros r t' [Hg' Hr']. split; [by etrans|done].
Qed.

Lemma resolve_wp now msgs tr :
  (∀ m l, (m, l) ∈ msgs -> fromBatch batch m ∧ ∃ r, verdictFor tr m r ∧ class r = txResultClassMissingParent) ->
  pw (resolveLoop now msgs) tr (fun '(cascaded, requeue) tr' => tr ⊆ tr'
    ∧ (∀ row, row ∈ cascaded -> rowBacked cfg batch tr' row ∧ ∃ m l, (m, l) ∈ msgs ∧ ts_TxID row = TXID m)
    ∧ (∀ m, m ∈ requeue -> fromBatch batch m ∧ ∃ m0 r, sameTx m m0 ∧ fromBatch batch m0 ∧ verdictFor tr' m0 r ∧ unresolved r)
    ∧ ∀ m l, (m, l) ∈ msgs -> (∃ row, row ∈ cascaded ∧ ts_TxID row = TXID m) ∨ (∃ m', m' ∈ requeue ∧ sameTx m' m)).
Proof.
  revert tr. induction msgs as [|[m l] msgs IH]; intros tr Hm; cbn [resolveLoop].
  { apply wp_ret. split_and!; [done|..]; by intros ? ?%elem_of_nil || intros ?? ?%elem_of_nil. }
  destruct (Hm m l) as (Hfb & r & Hv & Hr); [by left|]. wp_go. eapply wp_mono; [apply rejectedAncestor_wp|]. intros anc t1 [Hg1 Ha].
  wp_go. eapply wp_mono.
  { apply IH. intros m' l' Hin. destruct (Hm m' l') as (? & r' & Hv' & ?); [by right|]. split; [done|]. exists r'. split; [by eapply verdictFor_grows|done]. }
  intros [cascaded requeue] t2 (Hg2 & Hc & Hq & Hall). assert (tr ⊆ t2) as Hg by (by etrans).
  pose proof (verdictFor_grows _ _ _ _ Hv Hg) as Hv2. wp_go. destruct anc as [a|].
  - split_and!; [done| |done|].
    + intros row [->|Hrow]%elem_of_cons.
      * split; [|by exists m, l; split; [left|]]. right. left. exists m, r. split_and!; [done|done|done| |done|done].
        eapply readRejected_grows; [by eapply Ha|done].
      * destruct (Hc row Hrow) as (? & m1 & l1 & ? & ?). split; [done|]. exists m1, l1. split; [by right|done].
    + intros m' l' [[= -> ->]|Hin]%elem_of_cons; [left; eexists; split; [by left|done]|].
      destruct (Hall m' l' Hin) as [(row & ? & ?)|?]; [left; exists row; split; [by right|done]|by right].
  - split_and!; [done| | |].
    + intros row Hrow. destruct (Hc row Hrow) as (? & m1 & l1 & ? & ?). split; [done|]. exists m1, l1. split; [by right|done].
    + intros m' [->|?]%elem_of_cons; [|by apply Hq]. split; [destruct Hfb as (m0 & ? & ?); by exists m0|].
      exists m, r. split_and!; [done|done|done|by right].
    + intros m' l' [[= -> ->]|Hin]%elem_of_cons; [right; eexists; split; [by left|done]|].
      destruct (Hall m' l' Hin) as [?|(x & ? & ?)]; [by left|right; exists x; split; [by right|done]].
Qed.

(** *** Registration *)

Definition registeredOr (tr : PTrace) (m : propagationMsg) : Prop :=
  fromBatch batch m ∧ (merkleDisabled cfg = true ∨ registeredIn tr (TXID m)).
Definition refusedFor (tr : PTrace) (m : propagationMsg) : Prop := fromFailed batch m ∧ refusedIn tr (TXID m).

Lemma reason_wp e tr : pw (merkleRegisterFailureReason e) tr (fun _ tr' => tr ⊆ tr').
Proof.
  unfold merkleRegisterFailureReason. apply wp_bind. destruct (re_canceled e); [wp_go; done|]. wp_ask d idtac. wp_go. apply grows_snoc.
Qed.

(** Where a message stands in the answer to its registration. *)
Definition answeredAt (l : list propagationMsg) (errs : list (option registerErr)) (m : propagationMsg) (good : bool) : Prop :=
  ∃ i m0 o, l !! i = Some m0 ∧ errs !! i = Some o ∧ sameTx m m0
    ∧ (if good then o = None else (∃ e, o = Some e) ∧ merkleRetryCount m = merkleRetryCount m0).

Lemma answeredAt_further l errs m good m1 o1 : answeredAt l errs m good -> answeredAt (m1 :: l) (o1 :: errs) m good.
Proof. intros (i & m0 & o & ?). by exists (S i), m0, o. Qed.

Lemma split_wp l errs tr :
  length errs = length l ->
  pw (splitRegistered l errs) tr (fun '(registered, failed) tr' => tr ⊆ tr'
    ∧ (∀ m, m ∈ registered -> answeredAt l errs m true) ∧ (∀ m, m ∈ failed -> answeredAt l errs m false)
    ∧ ∀ m0, m0 ∈ l -> ∃ m, m ∈ registered ++ failed ∧ sameTx m m0).
Proof.
  revert errs tr. induction l as [|m l IH]; intros [|o errs] tr El; cbn [splitRegistered]; try done.
  { wp_go. split_and!; [done|..]; by intros ? ?%elem_of_nil. }
  injection El as El. destruct o as [e|]; wp_go.
  - eapply wp_mono; [apply reason_wp|]. intros reason t1 Hg1. wp_go. eapply wp_mono; [by apply IH|].
    intros [registered failed] t2 (Hg2 & Hr & Hf & Hall). wp_go. split_and!; [exact (transitivity Hg1 Hg2)| | |].
    + intros x Hx. by apply answeredAt_further, Hr.
    + intros x [->|Hx]%elem_of_cons; [|by apply answeredAt_further, Hf].
      exists 0%nat, m, (Some e). do 2 (split; [done|]). split; [by destruct (String.eqb _ _)|]. split; [by exists e|]. by destruct (String.eqb _ _).
    + intros m0 [->|Hin]%elem_of_cons.
      * eexists. split; [apply elem_of_app; right; by left|]. by destruct (String.eqb _ _).
      * destruct (Hall m0 Hin) as (x & Hx & ?). exists x. split; [|done]. apply elem_of_app in Hx as [?|?]; apply elem_of_app; [by left|].
        right. by right.
  - eapply wp_mono; [by apply IH|]. intros [registered failed] t2 (Hg2 & Hr & Hf & Hall). wp_go. split_and!; [done| | |].
    + intros x [->|Hx]%elem_of_cons; [|by apply answeredAt_further, Hr]. by exists 0%nat, m, None.
    + intros x Hx. by apply answeredAt_further, Hf.
    + intros m0 [->|Hin]%elem_of_cons; [eexists; split; [by left|done]|]. destruct (Hall m0 Hin) as (x & Hx & ?). exists x. split; [|done]. by right.
Qed.

Lemma answered_evidence tr errs m good :
  Event (answer := panswer) (pRegister toPool (List.map (fun m => registrationOf cfg (TXID m)) batch)) errs ∈ tr ->
  answeredAt batch errs m good -> if good then registeredOr tr m else refusedFor tr m.
Proof.
  intros He (i & m0 & o & Hi & Ho & Hs & Hg). pose proof Hs as (Ht & _).
  assert (List.map (fun m => registrationOf cfg (TXID m)) batch !! i = Some (registrationOf cfg (TXID m0))) as Hrg by (by rewrite list_lookup_fmap, Hi).
  pose proof (list_elem_of_lookup_2 _ _ _ Hi) as Hin. destruct good.
  - subst o. split; [by exists m0|]. right. eexists _, errs, i, _. split_and!; [exact He|exact Hrg|by rewrite Ht|done].
  - destruct Hg as [[e ->] Hc]. split; [by exists m0|]. eexists _, errs, i, _, e. split_and!; [exact He|exact Hrg|by rewrite Ht|done].
Qed.

Lemma registerBatch_wp tr :
  pw (registerBatch cfg batch) tr (fun '(registered, failed) tr' => tr ⊆ tr'
    ∧ (∀ m, m ∈ registered -> registeredOr tr' m) ∧ (∀ m, m ∈ failed -> refusedFor tr' m)
    ∧ ∀ m0, m0 ∈ batch -> ∃ m, m ∈ registered ++ failed ∧ sameTx m m0).
Proof.
  unfold registerBatch. destruct (merkleDisabled cfg) eqn:Ed.
  { wp_go. split_and!; [done| | |].
    - intros m Hm. split; [by exists m|by left].
    - by intros m ?%elem_of_nil.
    - intros m Hm. exists m. by rewrite app_nil_r. }
  wp_go. apply (wp_perform (pAllowed cfg batch again) pRely); [done|]. intros errs El. cbn in El. rewrite length_map in El. set (e := Event _ _).
  wp_go. eapply wp_mono; [by apply split_wp|]. intros [registered failed] t1 (Hg1 & Hr & Hf & Hall).
  apply snoc_grows in Hg1 as [Hg1 He].
  assert (∀ t, t1 ⊆ t -> tr ⊆ t ∧ (∀ m, m ∈ registered -> registeredOr t m) ∧ (∀ m, m ∈ failed -> refusedFor t m)
    ∧ ∀ m0, m0 ∈ batch -> ∃ m, m ∈ registered ++ failed ∧ sameTx m m0) as Hfin.
  { intros t Ht. split_and!; [by etrans| | |done]; intros m Hm.
    - apply (answered_evidence t errs m true); [by apply Ht|by apply Hr].
    - apply (answered_evidence t errs m false); [by apply Ht|by apply Hf]. }
  wp_go. destruct (0 <? length registered)%nat; wp_go; [wp_ask u idtac; wp_go; apply Hfin, grows_snoc|by apply Hfin].
Qed.

(** *** The broadcast under the guarantee *)

Lemma broadcast_wp registered tr :
  (∀ m, m ∈ registered -> registeredOr tr m) ->
  pw (broadcastInChunks cfg registered) tr (fun o tr' => tr ⊆ tr' ∧ ∃ rs, o = Some rs ∧ allSettled registered tr' registered rs).
Proof.
  intros Hr. eapply wp_mono; [eapply wp_upgrade; [apply batch_sends_own| |apply batch_wp]|by intros o t (Hg & _ & Hs)].
  intros t c Ht Hc. destruct c; try done. cbn in Hc. cbn.
  intros raw Hraw. unfold ofBatch in Hc. rewrite forallb_forall in Hc. apply list_elem_of_In, Hc, bool_decide_eq_true in Hraw.
  apply list_elem_of_In, in_map_iff in Hraw as (m & <- & Hm%list_elem_of_In). destruct (Hr m Hm) as [? Hreg]. exists m.
  split_and!; [done|done|]. destruct Hreg; [by left|right; by eapply registeredIn_grows].
Qed.

(** The shapes of a result. *)
Lemma settled_shape part tr m r :
  settled part tr m r ->
  (∃ row, status r = Some row ∧ ts_TxID row = TXID m
     ∧ (class r = txResultClassAccepted ∧ ts_Status row = StatusAcceptedByNetwork
        ∨ class r = txResultClassRejected ∧ ts_Status row = StatusRejected))
  ∨ unresolved r.
Proof.
  intros [(pre & sub & post & j & now & eps & res & _ & Hj & _ & Hr & _)|[-> _]]; [|right; by left].
  destruct (resultsOf_lookup sub (rawTxsBytes (List.map RawTx sub)) now (List.map runBroadcastWorker res) j m Hj) as (v & Ev & _).
  rewrite Ev in Hr. injection Hr as <-. unfold resultOf. destruct (acceptedByAny v); [left; eexists; split_and!; [done|done|by left]|].
  destruct (negb _); [destruct (classifyFailureLine _ _); left; eexists; split_and!; [done|done|by right]|].
  destruct (negb _); [right; by right|]. destruct (negb _); right; by left.
Qed.

(** *** Sorting the results *)

Definition terminalOf (mr : propagationMsg * txResult) : option TransactionStatus :=
  match class mr.2 with txResultClassAccepted | txResultClassRejected => status mr.2 | _ => None end.
Definition missingOf (mr : propagationMsg * txResult) : option (propagationMsg * string) :=
  match class mr.2 with txResultClassMissingParent => Some (mr.1, errMsg mr.2) | _ => None end.
Definition requeueOf (mr : propagationMsg * txResult) : option propagationMsg :=
  match class mr.2 with
  | txResultClassUnknown | txResultClassRequeue => Some (if String.eqb (errMsg mr.2) "" then mr.1 else withRetryReason (errMsg mr.2) mr.1)
  | _ => None
  end.

Lemma sortResults_lists l rs :
  let so := sortResults l rs in
  so_terminal so = omap terminalOf (zip l rs) ∧ so_requeue so = omap requeueOf (zip l rs) ∧ so_missing so = omap missingOf (zip l rs).
Proof.
  unfold sortResults. cbn zeta. induction (zip l rs) as [|[m r] z IH] using rev_ind; [done|].
  rewrite foldl_app, !omap_app. destruct IH as (<- & <- & <-). cbn [foldl omap list_omap]. unfold sortResult, terminalOf, requeueOf, missingOf. cbn [fst snd].
  destruct (class r); cbn [so_terminal so_requeue so_missing]; rewrite ?app_nil_r; split_and!; try done; by destruct (status r).
Qed.

Lemma requeueOf_same mr m : requeueOf mr = Some m -> sameTx m mr.1 ∧ class mr.2 ≠ txResultClassAccepted ∧ class mr.2 ≠ txResultClassRejected.
Proof. unfold requeueOf. destruct (class mr.2); try done; intros [= <-]; by destruct (String.eqb _ _). Qed.

(** *** Requeueing *)

(** The transaction is accounted for: a row of it was sent to the store, or it
    was handed to the requeue goroutine. *)
Definition accounted (io : ioTarget) (tr : PTrace) (m : propagationMsg) : Prop :=
  (∃ row, written io tr row ∧ ts_TxID row = TXID m)
  ∨ (∃ ms m', Event (pSpawnRequeue ms) tt ∈ tr ∧ m' ∈ ms ∧ TXID m' = TXID m ∧ RawTx m' = RawTx m).

Lemma accounted_grows io tr tr' m : accounted io tr m -> tr ⊆ tr' -> accounted io tr' m.
Proof.
  intros [(row & ? & ?)|(ms & m' & ? & ?)] Hs; [left; exists row; eauto using written_grows|right]. exists ms, m'. auto.
Qed.
Lemma accounted_same io tr m m0 : accounted io tr m -> TXID m = TXID m0 -> RawTx m = RawTx m0 -> accounted io tr m0.
Proof. intros Ha Ht Hr. unfold accounted in *. by rewrite <-Ht, <-Hr. Qed.

Definition revokedIn (tr : PTrace) : Prop := Event pCtxDone true ∈ tr.

Lemma park_wp (reason last : propagationMsg -> string) msgs io now tr :
  (∀ m, m ∈ msgs -> rowBacked cfg batch tr (statusRow (TXID m) StatusPendingRetry 0 now (reason m) [])) ->
  pw (applyTerminalStatuses cfg (List.map (fun m => statusRow (TXID m) StatusPendingRetry 0 now (reason m) []) msgs) io ;;
      forEach (fun m => schedulePendingRetry cfg (TXID m) (RawTx m) (last m)) msgs) tr
    (fun _ tr' => tr ⊆ tr' ∧ ∀ m, m ∈ msgs -> accounted io tr' m).
Proof.
  intros Hb. wp_go. eapply wp_mono; [apply applyTerminal_wp|].
  { intros row Hrow. apply list_elem_of_In, in_map_iff in Hrow as (m & <- & Hm%list_elem_of_In). by apply Hb. }
  intros [] t1 [Hg1 Hw]. assert (∀ m, m ∈ msgs -> written io t1 (statusRow (TXID m) StatusPendingRetry 0 now (reason m) [])) as Hw1.
  { intros m Hm. apply Hw, list_elem_of_In.
    apply (in_map (fun m => statusRow (TXID m) StatusPendingRetry 0 now (reason m) [])). by apply list_elem_of_In. }
  assert (∀ m, m ∈ msgs -> accounted io t1 m) as Ha by (intros m Hm; left; eexists; split; [by apply Hw1|done]).
  assert (∀ m, m ∈ msgs -> parkedIn t1 (TXID m)) as Hpk.
  { intros m Hm. destruct (Hw1 m Hm) as [_ [[(rows & prevs & ? & ?) _]|(rows & prevs & err & ? & ?)]]; by eexists rows, _, _. }
  eapply wp_mono; [apply (forEach_wp _ _ _ (fun t => t1 ⊆ t)); [done|]|].
  - intros m t Hm Ht. eapply wp_mono; [apply schedule_wp|intros [] t' [Ht' _]; by etrans].
    left. eapply parkedIn_grows; [by apply Hpk|done].
  - intros [] t2 Hg2. split; [by etrans|]. intros m Hm. eapply accounted_grows; [by apply Ha|done].
Qed.

Lemma requeueBacked_grows tr tr' m : requeueBacked cfg batch tr m -> tr ⊆ tr' -> requeueBacked cfg batch tr' m.
Proof.
  intros [(m0 & r & ? & Hv & ?)|(m0 & ? & Hf & ?)] Hs; [left; exists m0, r; eauto using verdictFor_grows|].
  right. exists m0. eauto using refusedIn_grows.
Qed.

(** Parking what is exhausted and handing over the rest. *)
Lemma charged_wp io retry exhausted (park : PProg unit) tr :
  ((0 < length exhausted)%nat -> pw park tr (fun _ tr' => tr ⊆ tr' ∧ ∀ m, m ∈ exhausted -> accounted io tr' m)) ->
  (∀ m, m ∈ retry -> requeueBacked cfg batch tr m) ->
  pw ((if (0 <? length exhausted)%nat then park else mret tt) ;; if (length retry =? 0)%nat then mret tt else perform (pSpawnRequeue retry)) tr
    (fun _ tr' => tr ⊆ tr' ∧ ∀ m, m ∈ retry ∨ m ∈ exhausted -> accounted io tr' m).
Proof.
  intros Hp Hr. apply wp_bind. eapply (wp_mono _ _ _ _ (fun _ t => tr ⊆ t ∧ ∀ m, m ∈ exhausted -> accounted io t m)).
  { destruct (Nat.ltb_spec 0 (length exhausted)) as [?|Hl]; [by apply Hp|]. wp_go. split; [done|].
    destruct exhausted; [by intros m ?%elem_of_nil|cbn in Hl; lia]. }
  intros [] t1 [Hg1 Ha]. destruct (Nat.eqb_spec (length retry) 0) as [El|El].
  - wp_go. split; [done|]. intros m [Hm|Hm]; [|by apply Ha]. destruct retry; [by apply elem_of_nil in Hm|done].
  - wp_ask u ltac:(intros m Hm; eapply requeueBacked_grows; [by apply Hr|done]).
    split; [etrans; [exact Hg1|apply grows_snoc]|]. destruct u. intros m [Hm|Hm].
    + right. exists retry, m. split; [apply snoc_here|done].
    + eapply accounted_grows; [by apply Ha|apply grows_snoc].
Qed.

Lemma split_filter {A} (f : A -> bool) (l : list A) x : x ∈ l -> x ∈ List.filter (fun y => negb (f y)) l ∨ x ∈ List.filter f l.
Proof. rewrite !list_elem_of_In, !List.filter_In. destruct (f x); auto. Qed.

Definition stageBacked (stage : retryStage) (tr : PTrace) (m : propagationMsg) : Prop :=
  match stage with
  | retryStageNetwork => ∃ m0 r, sameTx m m0 ∧ fromBatch batch m0 ∧ verdictFor tr m0 r ∧ unresolved r
  | retryStageMerkle => refusedFor tr m
  end.

Lemma stageBacked_grows stage tr tr' m : stageBacked stage tr m -> tr ⊆ tr' -> stageBacked stage tr' m.
Proof.
  destruct stage; [intros (m0 & r & ? & ? & Hv & ?) Hs; exists m0, r; eauto using verdictFor_grows|].
  intros [? ?] Hs. split; [done|by eapply refusedIn_grows].
Qed.

Lemma requeueStaged_wp stage msgs io tr :
  (∀ m, m ∈ msgs -> stageBacked stage tr m) ->
  pw (requeueAfterDelayStaged cfg msgs io stage) tr (fun _ tr' => tr ⊆ tr' ∧ (revokedIn tr' ∨ ∀ m, m ∈ msgs -> accounted io tr' m)).
Proof.
  intros Hs. unfold requeueAfterDelayStaged. destruct (Nat.eqb_spec (length msgs) 0) as [El|El].
  { wp_go. split; [done|]. right. destruct msgs; [by intros m ?%elem_of_nil|done]. }
  wp_go. wp_ask dn idtac. destruct dn; [wp_go; split; [apply grows_snoc|left; apply snoc_here]|]. set (t0 := tr ++ [_]).
  assert (tr ⊆ t0) as Hg0 by apply grows_snoc. assert (∀ m, m ∈ msgs -> stageBacked stage t0 m) as Hs0.
  { intros m Hm. eapply stageBacked_grows; [by apply Hs|done]. }
  destruct stage; cbn [chargeRetryBudget chargeMerkleRetryBudget].
  - set (f := fun m => (retryMaxAttempts cfg <? retryCount m)%Z). set (g := fun m => withRetryCount (retryCount m + 1) m).
    eapply wp_mono; [apply (charged_wp io (List.filter (fun m => negb (f m)) (List.map g msgs)) (List.filter f (List.map g msgs)))|].
    + intros _. unfold parkExhaustedRequeues. wp_go. wp_ask now idtac.
      eapply wp_mono; [apply park_wp|intros [] t [Hg Ha]; split; [etrans; [apply grows_snoc|exact Hg]|done]].
      intros m Hm. apply list_elem_of_In, List.filter_In in Hm as [Hm Hf%Z.ltb_lt]. apply in_map_iff in Hm as (m1 & <- & Hm%list_elem_of_In).
      destruct (Hs0 m1 Hm) as (m0 & r & (Ht & _ & _ & Hc) & Hb & Hv & Hu). right. right. left. split; [done|]. exists m0, r. cbn in Hf |- *. rewrite <-Ht, <-Hc.
      split_and!; [done|eapply verdictFor_grows; [exact Hv|apply grows_snoc]|done|done|lia].
    + intros m Hm. apply list_elem_of_In, List.filter_In in Hm as [Hm Hf%negb_true_iff%Z.ltb_ge]. apply in_map_iff in Hm as (m1 & <- & Hm%list_elem_of_In).
      destruct (Hs0 m1 Hm) as (m0 & r & (Ht & Hr & _ & Hc) & Hb & Hv & Hu). left. exists m0, r. cbn in Hf |- *. rewrite <-Ht, <-Hr, <-Hc. by split_and!.
    + intros [] t [Hg Ha]. split; [by etrans|]. right. intros m Hm. apply (accounted_same io t (g m) m); [|done|done].
      apply Ha, split_filter. apply list_elem_of_In, in_map. by apply list_elem_of_In.
  - set (f := fun m => (merkleRetryMaxAttempts cfg <? merkleRetryCount m)%Z).
    set (g := fun m => withMerkle (merkleRetryCount m + 1) (merkleFailureReason m) m).
    eapply wp_mono; [apply (charged_wp io (List.filter (fun m => negb (f m)) (List.map g msgs)) (List.filter f (List.map g msgs)))|].
    + intros _. unfold parkExhaustedMerkleRegistrations. wp_go. wp_ask now idtac.
      eapply wp_mono; [apply park_wp|intros [] t [Hg Ha]; split; [etrans; [apply grows_snoc|exact Hg]|done]].
      intros m Hm. apply list_elem_of_In, List.filter_In in Hm as [Hm Hf%Z.ltb_lt]. apply in_map_iff in Hm as (m1 & <- & Hm%list_elem_of_In).
      destruct (Hs0 m1 Hm) as (Hb & Hv). right. right. right. left. split; [done|]. exists m1. cbn in Hf |- *.
      split_and!; [done|eapply refusedIn_grows; [exact Hv|apply grows_snoc]|done|lia].
    + intros m Hm. apply list_elem_of_In, List.filter_In in Hm as [Hm Hf%negb_true_iff%Z.ltb_ge]. apply in_map_iff in Hm as (m1 & <- & Hm%list_elem_of_In).
      destruct (Hs0 m1 Hm) as (Hb & Hv). right. exists m1. by split_and!.
    + intros [] t [Hg Ha]. split; [by etrans|]. right. intros m Hm. apply (accounted_same io t (g m) m); [|done|done].
      apply Ha, split_filter. apply list_elem_of_In, in_map. by apply list_elem_of_In.
Qed.

(** *** A batch *)

Lemma resolveMissing_wp msgs tr :
  (∀ m l, (m, l) ∈ msgs -> fromBatch batch m ∧ ∃ r, verdictFor tr m r ∧ class r = txResultClassMissingParent) ->
  pw (if (0 <? length msgs)%nat then resolveMissingParents msgs else mret ([], [])) tr (fun '(cascaded, requeue) tr' => tr ⊆ tr'
    ∧ (∀ row, row ∈ cascaded -> rowBacked cfg batch tr' row ∧ ∃ m l, (m, l) ∈ msgs ∧ ts_TxID row = TXID m)
    ∧ (∀ m, m ∈ requeue -> stageBacked retryStageNetwork tr' m)
    ∧ ∀ m l, (m, l) ∈ msgs -> (∃ row, row ∈ cascaded ∧ ts_TxID row = TXID m) ∨ (∃ m', m' ∈ requeue ∧ sameTx m' m)).
Proof.
  intros Hm. destruct (Nat.ltb_spec 0 (length msgs)) as [_|El].
  2: { destruct msgs; [|cbn in El; lia]. wp_go. split_and!; [done|intros ? []%elem_of_nil|intros ? []%elem_of_nil|intros ?? []%elem_of_nil]. }
  unfold resolveMissingParents. wp_go. wp_ask now idtac. eapply wp_mono; [apply resolve_wp|].
  - intros m l Hin. destruct (Hm m l Hin) as (? & r & Hv & ?). split; [done|]. exists r. split; [|done]. eapply verdictFor_grows; [exact Hv|apply grows_snoc].
  - intros [cascaded requeue] t (Hg & Hc & Hq & Hall). split; [etrans; [apply grows_snoc|exact Hg]|]. split; [done|]. split; [|done].
    intros m Hin. by destruct (Hq m Hin) as (_ & ?).
Qed.

(** The results of a broadcast of messages of the batch. *)
Definition goodResults (registered : list propagationMsg) (rs : list txResult) (tr : PTrace) : Prop :=
  ∀ m r, (m, r) ∈ zip registered rs -> fromBatch batch m ∧ settled registered tr m r.

Lemma terminal_backed registered rs tr row :
  goodResults registered rs tr -> row ∈ so_terminal (sortResults registered rs) -> rowBacked cfg batch tr row.
Proof.
  intros Hz Hin. destruct (sortResults_lists registered rs) as (Et & _). rewrite Et in Hin. apply list_elem_of_omap in Hin as ([m r] & Hin & E).
  destruct (Hz m r Hin) as [Hb Hset]. left. exists m, r. split; [done|]. split; [by exists registered|].
  unfold terminalOf in E. cbn in E. destruct (settled_shape _ _ _ _ Hset) as [(row' & E' & Hx & Hcl)|[Ec|Ec]]; [|by rewrite Ec in E..].
  assert (row' = row) as -> by (destruct Hcl as [[Ec _]|[Ec _]]; rewrite Ec in E; congruence). done.
Qed.

Lemma requeue_backed registered rs tr m :
  goodResults registered rs tr -> m ∈ so_requeue (sortResults registered rs) -> stageBacked retryStageNetwork tr m.
Proof.
  intros Hz Hin. destruct (sortResults_lists registered rs) as (_ & Eq & _). rewrite Eq in Hin.
  apply list_elem_of_omap in Hin as ([m0 r] & Hin & [Hsame [Hn1 Hn2]]%requeueOf_same). destruct (Hz m0 r Hin) as [Hb Hset]. exists m0, r.
  split; [done|]. split; [done|]. split; [by exists registered|].
  destruct (settled_shape _ _ _ _ Hset) as [(_ & _ & _ & [[? _]|[? _]])|?]; done.
Qed.

Lemma missing_backed registered rs tr m l :
  goodResults registered rs tr -> (m, l) ∈ so_missing (sortResults registered rs) ->
  fromBatch batch m ∧ ∃ r, verdictFor tr m r ∧ class r = txResultClassMissingParent.
Proof.
  intros Hz Hin. destruct (sortResults_lists registered rs) as (_ & _ & Em). rewrite Em in Hin.
  apply list_elem_of_omap in Hin as ([m' r] & Hin & E). destruct (Hz m' r Hin). unfold missingOf in E. cbn in E.
  destruct (class r) eqn:Ec; try done. injection E as -> _. split; [done|]. exists r. split; [by exists registered|done].
Qed.

Lemma sorted_covers registered rs tr m :
  length rs = length registered -> goodResults registered rs tr -> m ∈ registered ->
  (∃ row, row ∈ so_terminal (sortResults registered rs) ∧ ts_TxID row = TXID m)
  ∨ (∃ m', m' ∈ so_requeue (sortResults registered rs) ∧ sameTx m' m) ∨ (∃ l, (m, l) ∈ so_missing (sortResults registered rs)).
Proof.
  intros El Hz Hm. destruct (sortResults_lists registered rs) as (-> & -> & ->).
  apply list_elem_of_lookup_1 in Hm as [i Hi]. destruct (lookup_lt_is_Some_2 rs i) as [r Hr]; [rewrite El; by eapply lookup_lt_Some|].
  assert ((m, r) ∈ zip registered rs) as Hin by (apply (list_elem_of_lookup_2 _ i), lookup_zip_Some; done).
  destruct (settled_shape _ _ _ _ (proj2 (Hz m r Hin))) as [(row & E & Hx & Hcl)|[Ec|Ec]].
  - left. exists row. split; [|done]. apply list_elem_of_omap. exists (m, r). split; [done|]. unfold terminalOf. cbn. by destruct Hcl as [[-> _]|[-> _]].
  - right. left. destruct (requeueOf (m, r)) as [m'|] eqn:E; [|by unfold requeueOf in E; cbn in E; rewrite Ec in E].
    destruct (requeueOf_same _ _ E) as [? _]. exists m'. split; [|done]. apply list_elem_of_omap. by exists (m, r).
  - right. right. exists (errMsg r). apply list_elem_of_omap. exists (m, r). split; [done|]. unfold missingOf. cbn. by rewrite Ec.
Qed.

Lemma settleRegistered_wp registered io tr :
  (∀ m, m ∈ registered -> registeredOr tr m) ->
  pw (settleRegistered cfg registered io) tr (fun _ tr' => tr ⊆ tr' ∧ (revokedIn tr' ∨ ∀ m, m ∈ registered -> accounted io tr' m)).
Proof.
  intros Hr. unfold settleRegistered. wp_go. eapply wp_mono; [by apply broadcast_wp|]. intros o t1 (Hg1 & rs & -> & El & Hs).
  change (default [] (Some rs)) with rs.
  assert (goodResults registered rs t1) as Hz.
  { intros m r (i & Hi)%list_elem_of_lookup_1. apply lookup_zip_Some in Hi as [Hi Hri]. destruct (Hs i m Hi) as (r' & Hr' & ?). simplify_eq.
    split; [|done]. by apply Hr, (list_elem_of_lookup_2 _ i). }
  wp_go. eapply wp_mono; [apply resolveMissing_wp; intros m l; by apply missing_backed|].
  intros [cascaded requeue] t2 (Hg2 & Hc & Hq & Hmiss). wp_go. eapply wp_mono; [apply applyTerminal_wp|].
  { intros row [Hin|Hin]%elem_of_app; [|by apply Hc]. eapply rowBacked_grows; [by eapply terminal_backed|done]. }
  intros [] t3 [Hg3 Hw]. set (toRequeue := so_requeue _ ++ requeue).
  assert (∀ m, m ∈ toRequeue -> stageBacked retryStageNetwork t3 m) as Hq3.
  { intros m [Hin|Hin]%elem_of_app; (eapply stageBacked_grows; [|exact Hg3]); [|by apply Hq].
    eapply stageBacked_grows; [by eapply requeue_backed|done]. }
  assert (∀ t, t3 ⊆ t -> (∀ m, m ∈ toRequeue -> accounted io t m) -> ∀ m, m ∈ registered -> accounted io t m) as Hall.
  { intros t Ht Ha m Hm. assert (∀ row, row ∈ so_terminal (sortResults registered rs) ++ cascaded -> ts_TxID row = TXID m -> accounted io t m) as Hrow.
    { intros row Hin' E. apply (accounted_grows io t3); [|done]. left. exists row. split; [by apply Hw|done]. }
    assert (∀ m', m' ∈ toRequeue -> sameTx m' m -> accounted io t m) as Hre.
    { intros m' Hin' (? & ? & _). apply (accounted_same io t m'); auto. }
    destruct (sorted_covers registered rs t1 m El Hz Hm) as [(row & ? & ?)|[(m' & ? & ?)|(l & Hin)]].
    - apply (Hrow row); [apply elem_of_app; by left|done].
    - apply (Hre m'); [apply elem_of_app; by left|done].
    - destruct (Hmiss m l Hin) as [(row & ? & ?)|(m' & ? & ?)]; [apply (Hrow row)|apply (Hre m')]; try done; apply elem_of_app; by right. }
  assert (tr ⊆ t3) as Hg by (do 2 (etrans; [eassumption|]); done).
  destruct (Nat.ltb_spec 0 (length toRequeue)) as [_|El0].
  2: { wp_go. split; [done|]. right. apply Hall; [done|]. destruct toRequeue; [by intros m ?%elem_of_nil|cbn in El0; lia]. }
  unfold abortBatchOnRevokedClaim. wp_go. wp_ask rv idtac. destruct rv; [wp_go; split; [etrans; [exact Hg|apply grows_snoc]|left; apply snoc_here]|].
  eapply wp_mono; [apply requeueStaged_wp; intros m Hm; eapply stageBacked_grows; [by apply Hq3|apply grows_snoc]|].
  intros [] t4 [Hg4 Ha]. assert (t3 ⊆ t4) as Hg34 by (etrans; [apply grows_snoc|exact Hg4]). split; [by etrans|].
  destruct Ha as [?|Ha]; [by left|right; by apply Hall].
Qed.

Lemma processBatch_wp io tr :
  pw (processBatch cfg batch io) tr (fun _ tr' => tr ⊆ tr' ∧ (revokedIn tr' ∨ ∀ m, m ∈ batch -> accounted io tr' m)).
Proof.
  unfold processBatch, abortBatchOnRevokedClaim. wp_go. wp_ask rv idtac. destruct rv; [wp_go; split; [apply grows_snoc|left; apply snoc_here]|].
  wp_go. eapply wp_mono; [apply registerBatch_wp|]. intros [registered failed] t1 (Hg1 & Hr & Hf & Hall).
  assert (tr ⊆ t1) as Hg by (etrans; [apply grows_snoc|exact Hg1]).
  wp_go. wp_ask rv idtac. destruct rv; [wp_go; split; [etrans; [exact Hg|apply grows_snoc]|left; apply snoc_here]|]. set (t2 := t1 ++ [_]).
  assert (t1 ⊆ t2) as Hg2 by apply grows_snoc.
  wp_go. eapply (wp_mono _ _ _ _ (fun _ t => t2 ⊆ t ∧ (revokedIn t ∨ ∀ m, m ∈ failed -> accounted io t m))).
  { destruct (Nat.ltb_spec 0 (length failed)) as [_|El].
    - apply requeueStaged_wp. intros m Hm. cbn. destruct (Hf m Hm) as [? Hx]. split; [done|]. by eapply refusedIn_grows.
    - wp_go. split; [done|]. right. destruct failed; [by intros m ?%elem_of_nil|cbn in El; lia]. }
  intros [] t3 [Hg3 Ha3]. assert (tr ⊆ t3) as Hg03 by (do 2 (etrans; [eassumption|]); done).
  assert (∀ t, t3 ⊆ t -> (revokedIn t ∨ ∀ m, m ∈ registered -> accounted io t m) -> tr ⊆ t ∧ (revokedIn t ∨ ∀ m, m ∈ batch -> accounted io t m)) as Hfin.
  { intros t Ht Har. split; [by etrans|]. destruct Har as [?|Har]; [by left|]. destruct Ha3 as [Hx|Ha3]; [left; by apply Ht|right].
    intros m0 Hm0. destruct (Hall m0 Hm0) as (m & [Hm|Hm]%elem_of_app & ? & ? & _); apply (accounted_same io t m); try done; [by apply Har|].
    eapply accounted_grows; [by apply Ha3|done]. }
  destruct (Nat.eqb_spec (length registered) 0) as [El|El].
  - wp_go. apply Hfin; [done|]. right. destruct registered; [by intros m ?%elem_of_nil|done].
  - eapply wp_mono; [apply settleRegistered_wp|intros [] t [Ht Har]; by apply Hfin].
    intros m Hm. destruct (Hr m Hm) as [? [?|Hx]]; (split; [done|]); [by left|right]. eapply registeredIn_grows; [exact Hx|by etrans].
Qed.
End Pipeline.

(** ** Theorems *)

(** C4: in every run of [processBatch], cut short or not, each call is
    justified by what was answered before it.  A transaction is broadcast only
    after its own registration was acknowledged (or with registration turned
    off); a terminal row is written only for a verdict of the network on that
    transaction, for a missing parent with a rejected ancestor, for a spent
    budget, or for a cascade a dispatcher reported; a dispatcher is notified
    only of rows in a batch the store took without an error; an event names
    only rows the store moved, cascades and given-up retries; a requeued
    transaction has no verdict, carries its bytes, and is within its budget;
    a durable retry is booked only within its attempts and at the jittered
    exponential delay of its count, and given up only beyond them. *)
Theorem pipeline_backed `{TxParser} `{MapOrder} cfg batch io tr tr1 e tr2 :
  begins (processBatch cfg batch io) tr -> honoured pRely [] tr -> tr = tr1 ++ e :: tr2 -> pAllowed cfg batch (fun _ => False) tr1 (ev_call e).
Proof. intros Hb Hr ->. eapply (wp_begins (pAllowed cfg batch (fun _ => False)) pRely); [apply processBatch_wp|exact Hb|exact Hr|done]. Qed.

(** C15: no transaction is lost: when [processBatch] ends and the claim was not
    revoked, every transaction of the batch is in one of three cases.  The
    store took, without an error, a batch of rows with an accepted, rejected or
    parked row of it, and every dispatcher [io] stands for was then told that
    status (or one of them did not answer before the context was done).  Or it
    was handed to the requeue goroutine with its bytes.  Or the store answered
    the batch with its row with an error: then a dispatcher is told of the
    transaction only where another write of that status was taken, so that
    otherwise the transaction stays in flight and its offset is not released. *)
Theorem pipeline_accounts `{TxParser} `{MapOrder} cfg batch io tr :
  ends (processBatch cfg batch io) tr tt -> honoured pRely [] tr ->
  Event pCtxDone true ∈ tr ∨ ∀ m, m ∈ batch ->
    (∃ rows prevs row, Event (pBatchUpdate rows) (prevs, None) ∈ tr ∧ row ∈ rows ∧ ts_TxID row = TXID m
       ∧ terminalStatus (ts_Status row) ∧ toldOf io tr (TXID m) (ts_Status row))
    ∨ (∃ ms m', Event (pSpawnRequeue ms) tt ∈ tr ∧ m' ∈ ms ∧ TXID m' = TXID m ∧ RawTx m' = RawTx m)
    ∨ (∃ rows prevs err row, Event (pBatchUpdate rows) (prevs, Some err) ∈ tr ∧ row ∈ rows ∧ ts_TxID row = TXID m
       ∧ terminalStatus (ts_Status row) ∧ ∀ d st ans, Event (pNotify d (TXID m) st) ans ∈ tr -> wrote tr (TXID m) st).
Proof.
  intros He Hr. pose proof (processBatch_wp cfg batch (fun _ => False) io []) as Hwp.
  destruct (wp_ends (pAllowed cfg batch (fun _ => False)) pRely _ _ _ _ Hwp He Hr) as [_ [Hx|Ha]]; [by left|].
  right. intros m Hm. destruct (Ha m Hm) as [(row & (Hst & [[(rows & prevs & ? & ?) Ht]|(rows & prevs & err & ? & ?)]) & E)|?]; [left|right; right|right; by left].
  - rewrite <-E. by exists rows, prevs, row.
  - exists rows, prevs, err, row. split_and!; try done. intros d st ans (tr1 & tr2 & Etr)%list_elem_of_split.
    pose proof (ends_begins _ _ _ He) as Hb. rewrite Etr in Hb, Hr |- *.
    eapply wrote_grows; [exact (wp_begins (pAllowed cfg batch (fun _ => False)) pRely _ _ _ _ _ _ Hwp Hb Hr eq_refl)|]. intros x Hx'. apply elem_of_app. by left.
Qed.

(** ** A run *)

#[local] Instance qOrder : MapOrder := {| mapRange := fun K V _ _ m => map_to_list m; mapRange_perm := fun K V _ _ m => Permutation_refl _ |}.
#[local] Instance qParser : TxParser := fun _ => None.

(** One transaction is not registered, one is refused, one is taken. *)
Definition wTxid (c : ascii) : string := String.string_of_list_ascii (repeat c 64).
Definition mixedPeer (c : pcall) : panswer c :=
  match c with
  | pFanOut _ _ => [("http://n", Txs.xResponse 400 (Txs.txsFailureHeader ++ String newline ("TX_INVALID (31): " ++ wTxid "1" ++ " bad")) None, false)]
  | pRegister _ regs => List.map (fun r => if String.eqb (rg_TxID r) (wTxid "0") then Some (mkRegisterErr false (Some 503%Z) false false "down") else None) regs
  | pBatchUpdate rows => (List.map (fun r => Some (statusRow (ts_TxID r) StatusReceived 0 None "" [])) rows, None)
  | c => mutePeer c
  end.
Definition mHandle (c : pcall) (s : unit) : panswer c * unit := (mixedPeer c, s).
Definition mBatch : list propagationMsg := [rawMsg (wTxid "0") [x00]; rawMsg (wTxid "1") [x01]; rawMsg (wTxid "2") [x02]].
Definition mRun : PProg unit := processBatch bConfig mBatch ioClaim.

Lemma mHandle_honoured {A} (p : PProg A) : honoured pRely [] (run_trace mHandle p tt).
Proof. apply run_honoured. intros tr c []. destruct c; try done. cbn. apply length_map. Qed.

Definition mRows : list TransactionStatus :=
  [statusRow (wTxid "1") StatusRejected 467 (Some 1%Z) ("TX_INVALID (31): " ++ wTxid "1" ++ " bad") [];
   statusRow (wTxid "2") StatusAcceptedByNetwork 0 (Some 1%Z) "" []].
Definition mWrite : event panswer :=
  Event (answer := panswer) (pBatchUpdate mRows) (List.map (fun r => Some (statusRow (ts_TxID r) StatusReceived 0 None "" [])) mRows, None).

Lemma pipeline_backed_witness :
  run_trace mHandle mRun tt !! 11%nat = Some mWrite ∧ pAllowed bConfig mBatch (fun _ => False) (take 11 (run_trace mHandle mRun tt)) (pBatchUpdate mRows).
Proof.
  assert (run_trace mHandle mRun tt !! 11%nat = Some mWrite) as E by (vm_compute; reflexivity). split; [exact E|].
  exact (pipeline_backed bConfig mBatch ioClaim _ _ mWrite _ (run_begins mHandle mRun tt) (mHandle_honoured mRun) (eq_sym (take_drop_middle _ _ _ E))).
Defined.

Definition accountedAt (tr : PTrace) (txid : string) (raw : list byte) : Prop :=
  (∃ rows prevs row, Event (pBatchUpdate rows) (prevs, None) ∈ tr ∧ row ∈ rows ∧ ts_TxID row = txid
     ∧ terminalStatus (ts_Status row) ∧ toldOf ioClaim tr txid (ts_Status row))
  ∨ (∃ ms m', Event (pSpawnRequeue ms) tt ∈ tr ∧ m' ∈ ms ∧ TXID m' = txid ∧ RawTx m' = raw)
  ∨ (∃ rows prevs err row, Event (pBatchUpdate rows) (prevs, Some err) ∈ tr ∧ row ∈ rows ∧ ts_TxID row = txid
     ∧ terminalStatus (ts_Status row) ∧ ∀ d st ans, Event (pNotify d txid st) ans ∈ tr -> wrote tr txid st).

Lemma pipeline_accounts_witness :
  accountedAt (run_trace mHandle mRun tt) (wTxid "0") [x00] ∧ accountedAt (run_trace mHandle mRun tt) (wTxid "1") [x01]
  ∧ List.existsb (fun e => match e with Event (pBatchUpdate _) (_, Some _) => true | _ => false end) (run_trace mHandle mRun tt) = false.
Proof.
  pose proof (run_ends mHandle mRun tt) as He. destruct (run mHandle mRun tt) as [[] ?].
  destruct (pipeline_accounts bConfig mBatch ioClaim _ He (mHandle_honoured mRun)) as [Hx|Ha].
  - exfalso. assert (List.existsb (fun e => match e with Event pCtxDone b => b | _ => false end) (run_trace mHandle mRun tt) = false) as E by (vm_compute; reflexivity).
    apply list_elem_of_In in Hx. apply not_true_iff_false in E. apply E. apply existsb_exists. by exists (Event (answer := panswer) pCtxDone true).
  - split; [exact (Ha (rawMsg (wTxid "0") [x00]) ltac:(left))|]. split; [exact (Ha (rawMsg (wTxid "1") [x01]) ltac:(right; left))|]. vm_compute. reflexivity.
Defined.
