(* ===== verification/Reaper.v ===== *)
(** * Reaper: rebroadcasting what is stuck

    Models [src/services/propagation/reaper.go]: the leader's tick, the walk
    over recent rows that selects what is stuck and adopts parked rows without
    a schedule, the drain of the durable retry queue, and the rebroadcast by
    dependency layers.  The gauges and log lines are left out; the look-ups
    they make are not.  Durations are nanoseconds. *)
From stdpp Require Import base gmap strings list pretty.
From Stdlib Require Import Ascii ZArith Lia.
From Stdlib Require Import Strings.Byte.
From S2P Require Import Prelude Models GoStrings Teranode Offsets Dispatcher Chunking Effects Verdicts Broadcast Propagator.

Definition hour : Z := 3600000000000.
Definition staleSeenOnNetworkAge : Z := hour.
Definition staleReceivedAge : Z := hour.
Definition staleAcceptedByNetworkAge : Z := hour.
Definition staleScanLookback : Z := 24 * hour.
Definition stuckTransientAge : Z := hour.
Definition stuckAttributionCap : nat := 500.
Definition stuckTransientStatuses : list Status := [StatusReceived; StatusAcceptedByNetwork].

(** ** Dependency layers *)

Section Layers.
Variable msgs : list propagationMsg.

(** [index]: the first position of each txid. *)
Definition indexOf : gmap string nat :=
  foldl (fun index (im : nat * propagationMsg) =>
           match index !! TXID im.2 with Some _ => index | None => <[TXID im.2 := im.1]> index end) ∅ (imap pair msgs).

(** The arrays [depth] and [state] the closure [resolve] shares. *)
Record memo : Type := mkMemo { depth : list Z; state : list Z }.

(** [resolve] and its loop over the parents of [i].  A call on a position
    that was visited makes no further call, so the number of positions is
    fuel enough; [None] is the end of the fuel or an index out of range. *)
Fixpoint resolve (fuel : nat) (i : nat) (m : memo) : option (Z * memo) :=
  match state m !! i with
  | None => None
  | Some 2%Z => d ← depth m !! i; Some (d, m)
  | Some 1%Z => Some (0%Z, m)
  | Some _ =>
      match fuel with
      | O => None
      | S fuel =>
          msg ← msgs !! i;
          '(best, m) ← foldl (fun acc parent =>
              '(best, m) ← acc;
              match indexOf !! parent with
              | None => Some (best, m)
              | Some j =>
                  if (j =? i)%nat then Some (best, m)
                  else
                    '(d, m) ← resolve fuel j m;
                    Some (if (best <? d + 1)%Z then (d + 1)%Z else best, m)
              end) (Some (0%Z, mkMemo (depth m) (<[i := 1%Z]> (state m)))) (InputTXIDs msg);
          Some (best, mkMemo (<[i := best]> (depth m)) (<[i := 2%Z]> (state m)))
      end
  end.

(** [for i := range msgs { if d := resolve(i); d > maxDepth ... }] *)
Fixpoint resolveAll (idx : list nat) (maxDepth : Z) (m : memo) : option (Z * memo) :=
  match idx with
  | [] => Some (maxDepth, m)
  | i :: idx =>
      '(d, m) ← resolve (length msgs) i m;
      resolveAll idx (if (maxDepth <? d)%Z then d else maxDepth) m
  end.

Definition emptyMemo : memo := mkMemo (replicate (length msgs) 0%Z) (replicate (length msgs) 0%Z).

(** [layers[depth[i]] = append(layers[depth[i]], m)]; [None] is a panic. *)
Fixpoint place (l : list propagationMsg) (depths : list Z) (layers : list (list propagationMsg)) : option (list (list propagationMsg)) :=
  match l, depths with
  | m :: l, d :: depths =>
      if (0 <=? d)%Z && (Z.to_nat d <? length layers)%nat
      then place l depths (alter (fun layer => layer ++ [m]) (Z.to_nat d) layers)
      else None
  | _, _ => Some layers
  end.

Definition layerByDependency : option (list (list propagationMsg)) :=
  if (length msgs <? 2)%nat then Some [msgs]
  else
    '(maxDepth, m) ← resolveAll (seq 0 (length msgs)) 0 emptyMemo;
    place msgs (depth m) (replicate (Z.to_nat (maxDepth + 1)) []).
End Layers.

Section Reaper.
Context `{TxParser} `{MapOrder}.
Variable cfg : PConfig.

(** ** Rebroadcast *)

(** The loop over the results of one layer. *)
Fixpoint reapResults (l : list (propagationMsg * txResult)) (terminal : list TransactionStatus) (unresolved : list propagationMsg)
  : PProg (list TransactionStatus * list propagationMsg) :=
  match l with
  | [] => mret (terminal, unresolved)
  | (msg, res) :: l =>
      match class res with
      | txResultClassAccepted | txResultClassRejected => reapResults l (terminal ++ option_list (status res)) unresolved
      | txResultClassMissingParent =>
          '(cascaded, requeue) ← resolveMissingParents [(msg, errMsg res)];
          if (0 <? length (cascaded : list TransactionStatus))%nat then reapResults l (terminal ++ cascaded) unresolved
          else reapResults l terminal (unresolved ++ requeue)
      | txResultClassUnknown | txResultClassRequeue =>
          reapResults l terminal (unresolved ++ [if String.eqb (errMsg res) "" then msg else withRetryReason (errMsg res) msg])
      end
  end.

Fixpoint reapLayers (layers : list (list propagationMsg)) (terminal : list TransactionStatus) (unresolved : list propagationMsg)
  : PProg (list TransactionStatus * list propagationMsg) :=
  match layers with
  | [] => mret (terminal, unresolved)
  | layer :: layers =>
      results ← broadcastInChunks cfg layer;
      '(terminal, unresolved) ← reapResults (zip layer (default [] results)) terminal unresolved;
      reapLayers layers terminal unresolved
  end.

Definition rebroadcastStuck (msgs : list propagationMsg) (parked : bool) : PProg unit :=
  '(registered, _) ← registerBatch cfg msgs;
  if (length (registered : list propagationMsg) =? 0)%nat then mret tt
  else
    '(terminal, unresolved) ← reapLayers (default [] (layerByDependency registered)) [] [];
    applyTerminalStatuses cfg terminal ioAll ;;
    if parked then forEach (fun m => schedulePendingRetry cfg (TXID m) (RawTx m) (retryReason m)) unresolved else mret tt.

(** ** The walk *)

Record walkState : Type := mkWalk {
  wk_attrib : list string;
  wk_stuck : list propagationMsg;
  wk_adopt : list propagationMsg
}.

Definition bareMsg (st : TransactionStatus) : propagationMsg := mkPropagationMsg (ts_TxID st) (ts_RawTx st) [] 0 0 "" "".

(** Whether a row is past the deadline of its status. *)
Definition isStuck (now : Time) (st : TransactionStatus) : bool :=
  let past age := timeBefore (ts_Timestamp st) (timeAdd now (- age)) in
  if bool_decide (ts_Status st = StatusSeenOnNetwork) || bool_decide (ts_Status st = StatusSeenMultipleNodes) then past staleSeenOnNetworkAge
  else if bool_decide (ts_Status st = StatusReceived) then past staleReceivedAge
  else if bool_decide (ts_Status st = StatusAcceptedByNetwork) then past staleAcceptedByNetworkAge
  else false.

(** The callback of [IterateStatusesSince]; [None] stops the walk. *)
Definition walkRow (now : Time) (w : walkState) (st : TransactionStatus) : walkState * bool :=
  let attrib :=
    if bool_decide (ts_Status st ∈ stuckTransientStatuses) && timeBefore (ts_Timestamp st) (timeAdd now (- stuckTransientAge))
       && (length (wk_attrib w) <? stuckAttributionCap)%nat
    then wk_attrib w ++ [ts_TxID st] else wk_attrib w in
  if (rebroadcastBatch cfg <=? Z.of_nat (length (wk_stuck w)))%Z then (mkWalk attrib (wk_stuck w) (wk_adopt w), false)
  else if (length (ts_RawTx st) =? 0)%nat then (mkWalk attrib (wk_stuck w) (wk_adopt w), true)
  else if bool_decide (ts_Status st = StatusPendingRetry) then
    (mkWalk attrib (wk_stuck w) (if IsZero (ts_NextRetryAt st) then wk_adopt w ++ [bareMsg st] else wk_adopt w), true)
  else if isStuck now st then (mkWalk attrib (wk_stuck w ++ [bareMsg st]) (wk_adopt w), true)
  else (mkWalk attrib (wk_stuck w) (wk_adopt w), true).

(** The rows in turn; whether the walk was stopped. *)
Fixpoint walk (now : Time) (rows : list TransactionStatus) (w : walkState) : walkState * bool :=
  match rows with
  | [] => (w, false)
  | st :: rows =>
      let '(w, more) := walkRow now w st in
      if more then walk now rows w else (w, true)
  end.

(** ** The tick *)

(** The submission look-ups of the per-callback breakdown. *)
Fixpoint attribute (txids : list string) : PProg unit :=
  match txids with
  | [] => mret tt
  | txid :: txids =>
      done ← perform pCtxDone;
      if (done : bool) then mret tt else perform (pSubmissions txid) ≫= fun _ => attribute txids
  end.

Definition retryMsg (r : string * list byte * string) : propagationMsg :=
  let '(txid, raw, lastReason) := r in
  mkPropagationMsg txid raw (parentTxIDsOf (mkPropagationMsg txid raw [] 0 0 "" "")) 0 0 "" lastReason.

Definition drainParkedRetries (now since : Time) : PProg unit :=
  _ ← perform (pCensus since now [StatusPendingRetry]);
  ready ← perform (pReadyRetries now (rebroadcastBatch cfg));
  match (ready : Res (list (string * list byte * string))) with
  | Err _ => mret tt
  | Ok ready => if (length ready =? 0)%nat then mret tt else rebroadcastStuck (List.map retryMsg ready) true
  end.

Definition reapOnce : PProg unit :=
  now ← perform pNow;
  let since := timeAdd now (- staleScanLookback) in
  '(rows, err) ← perform (pIterate since);
  let '(w, stopped) := walk now rows (mkWalk [] [] []) in
  let err := if (stopped : bool) then None else (err : option error) in
  if match err with Some e => negb (bool_decide (e = ErrCanceled)) | None => false end then mret tt
  else
    _ ← perform (pCensus since (timeAdd now (- stuckTransientAge)) stuckTransientStatuses);
    attribute (wk_attrib w) ;;
    (if (0 <? length (wk_stuck w))%nat then rebroadcastStuck (wk_stuck w) false else mret tt) ;;
    (if (0 <? length (wk_adopt w))%nat
     then forEach (fun m => schedulePendingRetry cfg (TXID m) (RawTx m) (retryReason m)) (wk_adopt w) else mret tt) ;;
    drainParkedRetries now since.

Definition tryReap : PProg unit :=
  if hasLeaser cfg then
    held ← perform pLease;
    match (held : Res Time) with
    | Err _ => mret tt
    | Ok heldUntil => if IsZero heldUntil then mret tt else reapOnce
    end
  else reapOnce.

(** [runReaper], for any number of ticks. *)
Fixpoint reapLoop (ticks : nat) : PProg unit :=
  match ticks with
  | O => mret tt
  | S ticks =>
      tick ← perform pTick;
      if (tick : bool) then tryReap ;; reapLoop ticks
      else if hasLeaser cfg then perform pReleaseLease else mret tt
  end.
Definition runReaper (ticks : nat) : PProg unit := tryReap ;; reapLoop ticks.
End Reaper.
