(* ===== verification/ReaperLayers.v ===== *)
(** * ReaperLayers: the dependency layers of a rebroadcast *)
From stdpp Require Import base gmap strings list pretty.
From Stdlib Require Import Ascii ZArith Lia.
From S2P Require Import Prelude Models GoStrings Teranode Offsets Dispatcher Chunking Effects Verdicts Broadcast Propagator Reaper.

(** ** The index *)

Lemma imap_pair_snoc {A} (l : list A) x : imap pair (l ++ [x]) = imap pair l ++ [(length l, x)].
Proof. rewrite imap_app. cbn. by rewrite Nat.add_0_r. Qed.

Lemma indexOf_snoc l x :
  indexOf (l ++ [x]) = match indexOf l !! TXID x with Some _ => indexOf l | None => <[TXID x := length l]> (indexOf l) end.
Proof. unfold indexOf. by rewrite imap_pair_snoc, foldl_app. Qed.

Lemma indexOf_sound msgs t j : indexOf msgs !! t = Some j -> ∃ m, msgs !! j = Some m ∧ TXID m = t.
Proof.
  induction msgs as [|x msgs IH] using rev_ind; [done|]. rewrite indexOf_snoc. intros Hj.
  assert (indexOf msgs !! t = Some j ∨ t = TXID x ∧ j = length msgs) as [Ho|[-> ->]].
  { destruct (indexOf msgs !! TXID x); [by left|]. apply lookup_insert_Some in Hj as [[<- <-]|[_ ?]]; [by right|by left]. }
  - destruct (IH Ho) as (m & ? & ?). exists m. split; [by apply lookup_app_l_Some|done].
  - exists x. split; [|done]. by apply list_lookup_middle.
Qed.

Lemma indexOf_complete msgs i m : msgs !! i = Some m -> is_Some (indexOf msgs !! TXID m).
Proof.
  revert i. induction msgs as [|x msgs IH] using rev_ind; intros i Hi; [done|]. rewrite indexOf_snoc.
  apply lookup_app_Some in Hi as [Hi|[_ Hi]].
  - pose proof (IH i Hi) as [j Hj]. destruct (indexOf msgs !! TXID x); [by exists j|]. apply lookup_insert_is_Some'. right. by exists j.
  - apply list_lookup_singleton_Some in Hi as [_ ->]. destruct (indexOf msgs !! TXID m) eqn:E; [by rewrite E|]. apply lookup_insert_is_Some'. by left.
Qed.

(** ** The memoised depths *)

Section Depths.
Variable msgs : list propagationMsg.
Let n : nat := length msgs.

Definition fresh (m : memo) : nat := length (List.filter (fun s => (s =? 0)%Z) (state m)).
Definition wf (m : memo) : Prop :=
  length (depth m) = n ∧ length (state m) = n ∧ Forall (fun s => s = 0 ∨ s = 1 ∨ s = 2)%Z (state m) ∧ Forall (fun d => 0 <= d)%Z (depth m).

(** What a call leaves alone: the finished positions keep their depth, and
    the ones in progress are the same. *)
Definition keeps (m m' : memo) : Prop :=
  (∀ k, state m !! k = Some 2%Z -> state m' !! k = Some 2%Z ∧ depth m' !! k = depth m !! k)
  ∧ (∀ k, state m !! k = Some 1%Z ↔ state m' !! k = Some 1%Z)
  ∧ (fresh m' <= fresh m)%nat.

#[local] Instance keeps_refl : Reflexive keeps.
Proof. intros m. unfold keeps. split_and!; [done|done|lia]. Qed.
#[local] Instance keeps_trans : Transitive keeps.
Proof.
  intros m1 m2 m3 (A1 & B1 & C1) (A2 & B2 & C2). split_and!; [| |lia].
  - intros k Hk. destruct (A1 k Hk) as [Hk2 E2]. destruct (A2 k Hk2) as [? E3]. split; [done|]. by rewrite E3.
  - intros k. by rewrite B1.
Qed.

Lemma fresh_mark m i s : state m !! i = Some 0%Z -> s ≠ 0%Z -> fresh m = S (fresh (mkMemo (depth m) (<[i := s]> (state m)))).
Proof.
  unfold fresh. cbn. generalize (state m) as l. intros l. revert i. induction l as [|x l IH]; intros [|i] Hi Hs; [done|done| |].
  - injection Hi as ->. cbn. by rewrite (proj2 (Z.eqb_neq s 0) Hs).
  - cbn in Hi |- *. destruct (x =? 0)%Z; cbn; [f_equal|]; by apply IH.
Qed.

Lemma wf_mark m i s d : wf m -> (s = 1 ∨ s = 2)%Z -> (0 <= d)%Z -> wf (mkMemo (<[i := d]> (depth m)) (<[i := s]> (state m))).
Proof.
  intros (E1 & E2 & Hs & Hd) Hs' Hd'. unfold wf. cbn. rewrite !length_insert. split_and!; [done|done| |].
  - apply Forall_insert; [done|]. destruct Hs'; auto.
  - by apply Forall_insert.
Qed.
Lemma wf_begin m i : wf m -> wf (mkMemo (depth m) (<[i := 1%Z]> (state m))).
Proof. intros (E1 & E2 & Hs & Hd). unfold wf. cbn. rewrite !length_insert. split_and!; [done|done| |done]. apply Forall_insert; auto. Qed.

(** The parents of a position inside the batch. *)
Definition parentOf (i j : nat) : Prop :=
  ∃ msg p, msgs !! i = Some msg ∧ p ∈ InputTXIDs msg ∧ indexOf msgs !! p = Some j ∧ j ≠ i.

Definition acyclic (rank : nat -> nat) : Prop := ∀ i j, parentOf i j -> (rank j < rank i)%nat.

(** A finished position lies above all its parents, which are finished. *)
Definition above (m : memo) : Prop :=
  ∀ k j, state m !! k = Some 2%Z -> parentOf k j ->
    ∃ dj dk, state m !! j = Some 2%Z ∧ depth m !! j = Some dj ∧ depth m !! k = Some dk ∧ (dj < dk)%Z.
Definition below (rank : nat -> nat) (i : nat) (m : memo) : Prop := ∀ k, state m !! k = Some 1%Z -> (rank i < rank k)%nat.

(** The answer of a call on [i]. *)
Definition answered (rank : nat -> nat) (i : nat) (m : memo) (d : Z) (m' : memo) : Prop :=
  wf m' ∧ keeps m m' ∧ (0 <= d)%Z
  ∧ (state m !! i ≠ Some 1%Z -> state m' !! i = Some 2%Z ∧ depth m' !! i = Some d)
  ∧ (acyclic rank -> below rank i m -> above m -> above m').

(** The loop over the parents, given the calls it makes. *)
Definition visitParent (fuel i : nat) (acc : option (Z * memo)) (parent : string) : option (Z * memo) :=
  '(best, m) ← acc;
  match indexOf msgs !! parent with
  | None => Some (best, m)
  | Some j =>
      if (j =? i)%nat then Some (best, m)
      else
        '(d, m) ← resolve msgs fuel j m;
        Some (if (best <? d + 1)%Z then (d + 1)%Z else best, m)
  end.

Lemma resolve_unfold fuel i m :
  state m !! i = Some 0%Z ->
  resolve msgs (S fuel) i m =
    (msg ← msgs !! i;
     '(best, m) ← foldl (visitParent fuel i) (Some (0%Z, mkMemo (depth m) (<[i := 1%Z]> (state m)))) (InputTXIDs msg);
     Some (best, mkMemo (<[i := best]> (depth m)) (<[i := 2%Z]> (state m)))).
Proof. intros E. cbn [resolve]. by rewrite E. Qed.

(** Acyclic, and every position in progress is [i] or above it. *)
Definition climbing (rank : nat -> nat) (i : nat) (m : memo) (ps : list string) : Prop :=
  acyclic rank ∧ (∀ k, state m !! k = Some 1%Z -> k = i ∨ (rank i < rank k)%nat)
  ∧ ∀ p j, p ∈ ps -> indexOf msgs !! p = Some j -> j ≠ i -> (rank j < rank i)%nat.

(** The parents in [ps] are finished, below [best]. *)
Definition parentsDone (i : nat) (ps : list string) (m : memo) (best : Z) : Prop :=
  ∀ p j, p ∈ ps -> indexOf msgs !! p = Some j -> j ≠ i -> ∃ dj, state m !! j = Some 2%Z ∧ depth m !! j = Some dj ∧ (dj < best)%Z.

Lemma parentsDone_keeps i ps m m' best best' : parentsDone i ps m best -> keeps m m' -> (best <= best')%Z -> parentsDone i ps m' best'.
Proof.
  intros Hp (Hk & _) Hb p j Hin Hj Hne. destruct (Hp p j Hin Hj Hne) as (dj & Hs & Hd & Hlt). destruct (Hk j Hs) as [? Hd'].
  exists dj. split_and!; [done|by rewrite Hd'|lia].
Qed.

(** What the loop over [ps] achieves. *)
Definition visited (rank : nat -> nat) (i : nat) (ps : list string) (best : Z) (m : memo) (r : option (Z * memo)) : Prop :=
  ∃ best' m', r = Some (best', m') ∧ wf m' ∧ keeps m m' ∧ (best <= best')%Z
    ∧ (climbing rank i m ps -> above m -> above m' ∧ parentsDone i ps m' best').

(** One parent. *)
Lemma visit_one rank fuel i p best m :
  (∀ j m, wf m -> (j < n)%nat -> (fresh m <= fuel)%nat -> ∃ d m', resolve msgs fuel j m = Some (d, m') ∧ answered rank j m d m') ->
  wf m -> (fresh m <= fuel)%nat -> visited rank i [p] best m (visitParent fuel i (Some (best, m)) p).
Proof.
  intros IH Hwf Hfr. unfold visitParent. cbn [mbind option_bind]. destruct (indexOf msgs !! p) as [j|] eqn:Ej.
  2: { exists best, m. split_and!; [done|done|done|lia|]. intros _ Ha. split; [done|]. intros p' j ->%list_elem_of_singleton. congruence. }
  destruct (Nat.eqb_spec j i) as [->|Hne].
  { exists best, m. split_and!; [done|done|done|lia|]. intros _ Ha. split; [done|]. intros p' j ->%list_elem_of_singleton. congruence. }
  destruct (indexOf_sound _ _ _ Ej) as (mj & Hmj & _). apply lookup_lt_Some in Hmj as Hjn.
  destruct (IH j m Hwf Hjn Hfr) as (d & m1 & -> & Hwf1 & Hk1 & Hd & Hdone & Ha1). cbn.
  eexists _, m1. split_and!; [done|done|done|destruct (Z.ltb_spec best (d + 1)); lia|]. intros (Hac & H1 & H2) Ha.
  assert (rank j < rank i)%nat as Hlt by (apply (H2 p j); [by left|done|done]).
  assert (below rank j m) as Hbel by (intros k Hk; destruct (H1 k Hk) as [->|?]; lia).
  split; [by apply Ha1|]. intros p' j' ->%list_elem_of_singleton Ej' _. simplify_eq.
  destruct Hdone as [Hs Hdj]; [intros Hk; specialize (Hbel j Hk); lia|].
  exists d. split_and!; [done|done|]. destruct (Z.ltb_spec best (d + 1)); lia.
Qed.

Lemma visit_parents rank fuel i ps best m :
  (∀ j m, wf m -> (j < n)%nat -> (fresh m <= fuel)%nat -> ∃ d m', resolve msgs fuel j m = Some (d, m') ∧ answered rank j m d m') ->
  wf m -> (fresh m <= fuel)%nat -> visited rank i ps best m (foldl (visitParent fuel i) (Some (best, m)) ps).
Proof.
  intros IH. revert best m. induction ps as [|p ps IHps]; intros best m Hwf Hfr; cbn [foldl].
  { exists best, m. split_and!; [done|done|done|lia|]. intros _ Ha. split; [done|]. by intros p j ?%elem_of_nil. }
  destruct (visit_one rank fuel i p best m IH Hwf Hfr) as (best1 & m1 & -> & Hwf1 & Hk1 & Hb1 & Ha1).
  assert (fresh m1 <= fuel)%nat as Hfr1 by (destruct Hk1 as (_ & _ & ?); lia).
  destruct (IHps best1 m1 Hwf1 Hfr1) as (best2 & m2 & -> & Hwf2 & Hk2 & Hb2 & Ha2).
  exists best2, m2. split_and!; [done|done|by etrans|lia|]. intros (Hac & H1 & H2) Ha.
  destruct Ha1 as [Ha1 Hp1]; [|done|].
  { split_and!; [done|done|]. intros p' j ->%list_elem_of_singleton. apply H2. by left. }
  destruct Ha2 as [Ha2 Hp2]; [|done|].
  { split_and!; [done| |intros p' j Hin; apply H2; by right]. intros k Hk. apply H1. by apply Hk1. }
  split; [done|]. intros p' j [->|Hin]%elem_of_cons; [|by apply Hp2].
  apply (parentsDone_keeps i [p] m1 m2 best1 best2 Hp1 Hk2 Hb2). by left.
Qed.

Lemma memo_state m i : wf m -> (i < n)%nat -> state m !! i = Some 0%Z ∨ state m !! i = Some 1%Z ∨ state m !! i = Some 2%Z.
Proof.
  intros (_ & El & Hf & _) Hi. rewrite <-El in Hi. apply lookup_lt_is_Some in Hi as [s Hs]. rewrite Hs.
  destruct (Forall_lookup_1 _ _ _ _ Hf Hs) as [E|[E|E]]; rewrite E; auto.
Qed.

Lemma fresh_same l i : l !! i = Some 1%Z ->
  length (List.filter (fun s => (s =? 0)%Z) (<[i:=2%Z]> l)) = length (List.filter (fun s => (s =? 0)%Z) l).
Proof.
  revert i. induction l as [|x l IH]; intros [|i] Hl; [done|done| |]; cbn in Hl |- *; [by injection Hl as ->|].
  destruct (x =? 0)%Z; cbn; [f_equal|]; by apply IH.
Qed.

(** Marking [i] in progress, and finishing it. *)
Section Finish.
Variables (i : nat) (m m1 : memo) (best : Z).
Hypotheses (Hwf : wf m) (Hi : (i < n)%nat) (H0 : state m !! i = Some 0%Z) (Hwf1 : wf m1).
Let begun : memo := mkMemo (depth m) (<[i := 1%Z]> (state m)).
Let finished : memo := mkMemo (<[i := best]> (depth m1)) (<[i := 2%Z]> (state m1)).
Hypothesis (Hk : keeps begun m1).

Lemma begun_in_progress : state begun !! i = Some 1%Z.
Proof. cbn. apply list_lookup_insert_eq. destruct Hwf as (_ & -> & _). done. Qed.
Lemma begun_other k : k ≠ i -> state begun !! k = state m !! k.
Proof. intros Hki. cbn. by apply list_lookup_insert_ne. Qed.

Lemma finish_keeps : keeps m finished.
Proof.
  destruct Hk as (Hk2 & Hk1 & Hkf). pose proof Hwf1 as (Ld1 & Ls1 & _). split_and!.
  - intros k Hs. assert (k ≠ i) as Hki by (intros ->; congruence). destruct (Hk2 k) as [Hs1 Hd]; [by rewrite begun_other|].
    cbn in *. by rewrite !list_lookup_insert_ne.
  - intros k. destruct (decide (k = i)) as [->|Hki]; cbn.
    + rewrite H0, list_lookup_insert_eq by lia. by split; intros [=].
    + rewrite list_lookup_insert_ne by done. by rewrite <-Hk1, begun_other.
  - rewrite (fresh_mark m i 1 H0) by done. unfold fresh in Hkf |- *. cbn in Hkf |- *.
    rewrite fresh_same by (apply Hk1, begun_in_progress). lia.
Qed.

Lemma begun_above : above m -> above begun.
Proof.
  intros Hab k j Hs Hp. assert (k ≠ i) as Hki by (intros ->; rewrite begun_in_progress in Hs; congruence).
  rewrite begun_other in Hs by done. destruct (Hab k j Hs Hp) as (dj & dk & Hj & Hr). exists dj, dk. split; [|done].
  rewrite begun_other; [done|]. intros ->. congruence.
Qed.

Lemma finish_above ps msg :
  msgs !! i = Some msg -> InputTXIDs msg = ps -> above m1 -> parentsDone i ps m1 best -> above finished.
Proof.
  intros Em Eps Ha Hpar k j Hs Hp. pose proof Hwf1 as (Ld1 & Ls1 & _).
  assert (state m1 !! i = Some 1%Z) as Hi1 by (destruct Hk as (_ & Hk1 & _); apply Hk1, begun_in_progress).
  destruct (decide (k = i)) as [->|Hki]; cbn in Hs |- *.
  - destruct Hp as (msg' & p & Em' & Hin & Hj & Hne). simplify_eq. destruct (Hpar p j Hin Hj Hne) as (dj & Hsj & Hdj & Hlt).
    exists dj, best. rewrite !list_lookup_insert_eq by lia. by rewrite !list_lookup_insert_ne by done.
  - rewrite list_lookup_insert_ne in Hs by done. destruct (Ha k j Hs Hp) as (dj & dk & Hj & Hdj & Hdk & Hlt). exists dj, dk.
    assert (j ≠ i) as Hji by (intros ->; congruence). by rewrite !list_lookup_insert_ne by done.
Qed.
End Finish.

Lemma resolve_ok rank fuel i m :
  wf m -> (i < n)%nat -> (fresh m <= fuel)%nat -> ∃ d m', resolve msgs fuel i m = Some (d, m') ∧ answered rank i m d m'.
Proof.
  revert i m. induction fuel as [|fuel IH]; intros i m Hwf Hi Hfr; destruct (memo_state m i Hwf Hi) as [E|[E|E]].
  1: { rewrite (fresh_mark m i 1 E) in Hfr by done. lia. }
  1,4: exists 0%Z, m; split; [cbn [resolve]; by rewrite E|]; unfold answered; split_and!; try done.
  1,3: pose proof Hwf as (Ld & _ & _ & Hnn); destruct (lookup_lt_is_Some_2 (depth m) i) as [d Ed]; [lia|]; exists d, m;
    (split; [cbn [resolve]; by rewrite E, Ed|]); unfold answered; split_and!; try done; by eapply (Forall_lookup_1 _ _ _ _ Hnn).
  rewrite resolve_unfold by done. destruct (lookup_lt_is_Some_2 msgs i Hi) as [msg Em]. rewrite Em. cbn [mbind option_bind].
  destruct (visit_parents rank fuel i (InputTXIDs msg) 0 (mkMemo (depth m) (<[i := 1%Z]> (state m))) IH) as (best & m1 & -> & Hwf1 & Hk1 & Hb & Ha).
  { by apply wf_begin. }
  { rewrite (fresh_mark m i 1 E) in Hfr by done. lia. }
  cbn [mbind option_bind]. eexists best, _. split; [done|]. unfold answered. split_and!.
  - apply wf_mark; auto.
  - by apply finish_keeps.
  - done.
  - intros _. pose proof Hwf1 as (? & ? & _). cbn. by rewrite !list_lookup_insert_eq by lia.
  - intros Hac Hbel Hab. destruct Ha as [Ha Hp]; [|by apply begun_above|by apply (finish_above i m m1 best Hwf Hi Hwf1 Hk1 (InputTXIDs msg) msg)].
    split_and!; [done| |].
    + intros k Hk. destruct (decide (k = i)) as [->|Hki]; [by left|right]. rewrite begun_other in Hk by done. by apply Hbel.
    + intros p j Hin Hj Hne. apply Hac. by exists msg, p.
Qed.

Lemma fresh_le m : wf m -> (fresh m <= n)%nat.
Proof. intros (_ & <- & _). unfold fresh. apply List.filter_length_le. Qed.

Lemma resolveAll_ok rank idx maxDepth m :
  wf m -> (∀ k, state m !! k ≠ Some 1%Z) -> (∀ i, i ∈ idx -> (i < n)%nat) ->
  ∃ top m', resolveAll msgs idx maxDepth m = Some (top, m') ∧ wf m' ∧ keeps m m' ∧ (maxDepth <= top)%Z
    ∧ (∀ i, i ∈ idx -> ∃ d, state m' !! i = Some 2%Z ∧ depth m' !! i = Some d ∧ (d <= top)%Z)
    ∧ (acyclic rank -> above m -> above m').
Proof.
  revert maxDepth m. induction idx as [|i idx IH]; intros maxDepth m Hwf H1 Hi; cbn [resolveAll].
  { exists maxDepth, m. split_and!; [done|done|done|lia|by intros i ?%elem_of_nil|done]. }
  destruct (resolve_ok rank (length msgs) i m Hwf) as (d & m1 & -> & Hwf1 & Hk1 & Hd & Hdone & Ha1); [apply Hi; by left|by apply fresh_le|].
  cbn [mbind option_bind]. destruct (Hdone (H1 i)) as [Hs Hdi].
  destruct (IH (if (maxDepth <? d)%Z then d else maxDepth) m1) as (top & m2 & -> & Hwf2 & Hk2 & Htop & Hall & Ha2); [done| | |].
  - intros k Hk. by apply (H1 k), Hk1.
  - intros k Hk. apply Hi. by right.
  - assert (maxDepth <= top ∧ d <= top)%Z as [Hm Hdt] by (destruct (Z.ltb_spec maxDepth d); lia).
    exists top, m2. split_and!; [done|done|by etrans|done| |].
    + intros k [->|Hk]%elem_of_cons; [|by apply Hall]. destruct (proj1 Hk2 i Hs) as [? E]. exists d. split_and!; [done|by rewrite E|done].
    + intros Hac Ha. apply Ha2; [done|]. apply Ha1; [done| |done]. intros k Hk. by apply H1 in Hk.
Qed.

Lemma empty_wf : wf (emptyMemo msgs).
Proof. unfold wf, emptyMemo. cbn. rewrite !length_replicate. split_and!; [done|done|apply Forall_replicate; auto|by apply Forall_replicate]. Qed.

Lemma depths_ok rank :
  ∃ top m, resolveAll msgs (seq 0 n) 0 (emptyMemo msgs) = Some (top, m) ∧ (0 <= top)%Z ∧ length (depth m) = n
    ∧ (∀ i d, depth m !! i = Some d -> (0 <= d <= top)%Z)
    ∧ (acyclic rank -> ∀ i j di dj, parentOf i j -> depth m !! i = Some di -> depth m !! j = Some dj -> (dj < di)%Z).
Proof.
  assert (∀ k s, state (emptyMemo msgs) !! k = Some s -> s = 0%Z) as Hz by (by intros k s [-> _]%lookup_replicate).
  destruct (resolveAll_ok rank (seq 0 n) 0 (emptyMemo msgs)) as (top & m & E & Hwf & _ & Htop & Hall & Ha).
  - apply empty_wf.
  - intros k Hk. by apply Hz in Hk.
  - intros i Hi%elem_of_seq. lia.
  - pose proof Hwf as (Ld & _ & _ & Hnn). exists top, m. split_and!; [done|done|done| |].
    + intros i d Hd. destruct (Hall i) as (d' & _ & Hd' & ?); [apply elem_of_seq; apply lookup_lt_Some in Hd; lia|]. simplify_eq.
      split; [by eapply (Forall_lookup_1 _ _ _ _ Hnn)|done].
    + intros Hac i j di dj Hp Hdi Hdj. destruct (Hall i) as (d' & Hs & Hd' & _); [apply elem_of_seq; apply lookup_lt_Some in Hdi; lia|].
      destruct (Ha Hac) with (k := i) (j := j) as (dj' & di' & _ & ? & ? & ?); [|done|done|by simplify_eq].
      intros k j' Hk. by apply Hz in Hk.
Qed.
End Depths.

(** ** The layers *)

Lemma place_ok l ds layers :
  length ds = length l -> (∀ d, d ∈ ds -> (0 <= d)%Z ∧ (Z.to_nat d < length layers)%nat) ->
  ∃ layers', place l ds layers = Some layers' ∧ length layers' = length layers ∧ concat layers' ≡ₚ concat layers ++ l
    ∧ ∀ k x layer', layers' !! k = Some layer' -> x ∈ layer' ->
        (∃ layer, layers !! k = Some layer ∧ x ∈ layer) ∨ ∃ i d, l !! i = Some x ∧ ds !! i = Some d ∧ Z.to_nat d = k.
Proof.
  revert ds layers. induction l as [|m l IH]; intros [|d ds] layers El Hd; try done; cbn [place].
  { exists layers. split_and!; [done|done|by rewrite app_nil_r|]. intros k x layer' Hk Hx. left. by exists layer'. }
  destruct (Hd d) as [Hd0 Hdl]; [by left|]. rewrite (proj2 (Z.leb_le 0 d) Hd0), (proj2 (Nat.ltb_lt _ _) Hdl). cbn [andb].
  destruct (IH ds (alter (fun layer => layer ++ [m]) (Z.to_nat d) layers)) as (layers' & E & Ell & Hp & Hin).
  { by injection El. }
  { intros d' Hd'. rewrite length_alter. apply Hd. by right. }
  exists layers'. rewrite length_alter in Ell. split_and!; [done|done| |].
  - rewrite Hp. destruct (lookup_lt_is_Some_2 layers (Z.to_nat d) Hdl) as [layer Hl].
    assert (concat (alter (fun layer => layer ++ [m]) (Z.to_nat d) layers) ≡ₚ m :: concat layers) as ->; [|apply Permutation_middle].
    clear - Hl. revert layers Hl. induction (Z.to_nat d) as [|k IHk]; intros [|x layers] Hl; [done| |done|]; cbn in Hl |- *.
    + injection Hl as ->. rewrite <-app_assoc. symmetry. apply Permutation_middle.
    + rewrite (IHk _ Hl). symmetry. apply Permutation_middle.
  - intros k x layer' Hk Hx. destruct (Hin k x layer' Hk Hx) as [(layer & Hl & Hxl)|(i & d' & ? & ? & ?)]; [|right; by exists (S i), d'].
    destruct (decide (k = Z.to_nat d)) as [->|Hne]; [|left; exists layer; by rewrite list_lookup_alter_ne in Hl].
    rewrite list_lookup_alter_eq in Hl. apply fmap_Some in Hl as (layer0 & Hl0 & ->). apply elem_of_app in Hxl as [?| ->%list_elem_of_singleton].
    + left. by exists layer0.
    + right. by exists 0%nat, d.
Qed.

(** A chain of spends has a start: the parents of a transaction come first in
    some order of the txids. *)
Definition wellFounded (msgs : list propagationMsg) : Prop :=
  ∃ rank : string -> nat, ∀ child parent, child ∈ msgs -> parent ∈ msgs ->
    TXID parent ∈ InputTXIDs child -> TXID parent ≠ TXID child -> (rank (TXID parent) < rank (TXID child))%nat.

(** The layers of a batch hold its messages, each once, and (for distinct
    transactions that do not spend each other in a circle) every spender lies
    in a later layer than what it spends. *)
Definition layered (msgs : list propagationMsg) (layers : list (list propagationMsg)) : Prop :=
  concat layers ≡ₚ msgs
  ∧ (NoDup (List.map TXID msgs) -> wellFounded msgs ->
     ∀ a b la lb child parent, layers !! a = Some la -> child ∈ la -> layers !! b = Some lb -> parent ∈ lb ->
       TXID parent ∈ InputTXIDs child -> TXID parent ≠ TXID child -> (b < a)%nat).

Lemma indexOf_distinct msgs i m : NoDup (List.map TXID msgs) -> msgs !! i = Some m -> indexOf msgs !! TXID m = Some i.
Proof.
  intros Hnd Hi. destruct (indexOf_complete msgs i m Hi) as [j Hj]. destruct (indexOf_sound _ _ _ Hj) as (m' & Hm' & E).
  rewrite Hj. f_equal. eapply (NoDup_lookup (List.map TXID msgs)); [done| |]; rewrite list_lookup_fmap.
  - by rewrite Hm'; cbn; rewrite E.
  - by rewrite Hi.
Qed.

Lemma rank_acyclic msgs (rank : string -> nat) :
  (∀ child parent, child ∈ msgs -> parent ∈ msgs -> TXID parent ∈ InputTXIDs child -> TXID parent ≠ TXID child ->
     (rank (TXID parent) < rank (TXID child))%nat) -> NoDup (List.map TXID msgs) ->
  acyclic msgs (fun i => match msgs !! i with Some m => rank (TXID m) | None => 0%nat end).
Proof.
  intros Hr Hnd i j (msg & p & Hi & Hp & Hj & Hne). destruct (indexOf_sound _ _ _ Hj) as (mj & Hmj & <-). rewrite Hi, Hmj.
  apply Hr; [by eapply list_elem_of_lookup_2..|done|]. intros E. apply Hne.
  pose proof (indexOf_distinct msgs i msg Hnd Hi) as Ei. rewrite E in Hj. congruence.
Qed.

Lemma layers_correct msgs : ∃ layers, layerByDependency msgs = Some layers ∧ layered msgs layers.
Proof.
  unfold layerByDependency. destruct (Nat.ltb_spec (length msgs) 2) as [Hl|Hl].
  { exists [msgs]. split; [done|]. split; [cbn; by rewrite app_nil_r|]. intros _ _ a b la lb child parent Ha Hc Hb Hp _ Hne.
    apply list_lookup_singleton_Some in Ha as [_ <-]. apply list_lookup_singleton_Some in Hb as [_ <-].
    destruct msgs as [|x [|y msgs]]; [by apply elem_of_nil in Hc| |cbn in Hl; lia].
    apply list_elem_of_singleton in Hc as ->. by apply list_elem_of_singleton in Hp as ->. }
  assert (∀ (top : Z) (ds : list Z), (0 <= top)%Z -> length ds = length msgs -> (∀ i d, ds !! i = Some d -> (0 <= d <= top)%Z) ->
    ∃ layers, place msgs ds (replicate (Z.to_nat (top + 1)) []) = Some layers ∧ concat layers ≡ₚ msgs
      ∧ ∀ k x layer, layers !! k = Some layer -> x ∈ layer -> ∃ i d, msgs !! i = Some x ∧ ds !! i = Some d ∧ Z.to_nat d = k) as Hplace.
  { intros top ds Htop El Hb. destruct (place_ok msgs ds (replicate (Z.to_nat (top + 1)) [])) as (layers & E & _ & Hp & Hin); [done| |].
    - intros d (i & Hd)%list_elem_of_lookup_1. rewrite length_replicate. specialize (Hb i d Hd). lia.
    - exists layers. split_and!; [done| |].
      + rewrite Hp. assert (∀ k, concat (replicate k (@nil propagationMsg)) = []) as -> by (by induction k). done.
      + intros k x layer Hk Hx. destruct (Hin k x layer Hk Hx) as [(layer0 & Hl0 & Hx0)|?]; [|done].
        apply lookup_replicate in Hl0 as [-> _]. by apply elem_of_nil in Hx0. }
  destruct (depths_ok msgs (fun _ => 0%nat)) as (top & m & E & Htop & El & Hb & _). rewrite E. cbn [mbind option_bind].
  destruct (Hplace top (depth m) Htop El Hb) as (layers & -> & Hp & Hin). exists layers. split; [done|]. split; [done|].
  intros Hnd [rank Hr] a b la lb child parent Ha Hc Hlb Hpa Hsp Hne.
  destruct (depths_ok msgs (fun i => match msgs !! i with Some m => rank (TXID m) | None => 0%nat end)) as (top' & m' & E' & _ & _ & _ & Hlt).
  rewrite E in E'. injection E' as <- <-.
  destruct (Hin a child la Ha Hc) as (i & di & Hi & Hdi & <-). destruct (Hin b parent lb Hlb Hpa) as (j & dj & Hj & Hdj & <-).
  assert (dj < di)%Z as Hd; [|pose proof (Hb i di Hdi); pose proof (Hb j dj Hdj); lia].
  apply (Hlt (rank_acyclic msgs rank Hr Hnd) i j di dj); [|done|done]. exists child, (TXID parent). split_and!; [done|done|by apply indexOf_distinct|].
  intros ->. congruence.
Qed.

(** Messages without noted parents share one layer. *)
Lemma resolve_bare msgs fuel i m :
  (∀ x, x ∈ msgs -> InputTXIDs x = []) -> (0 < fuel)%nat -> (i < length msgs)%nat -> length (depth m) = length msgs -> length (state m) = length msgs ->
  (∀ k s, state m !! k = Some s -> s = 0 ∨ s = 2)%Z -> (∀ k d, depth m !! k = Some d -> d = 0)%Z ->
  ∃ m', resolve msgs fuel i m = Some (0%Z, m') ∧ length (depth m') = length msgs ∧ length (state m') = length msgs
    ∧ (∀ k s, state m' !! k = Some s -> s = 0 ∨ s = 2)%Z ∧ (∀ k d, depth m' !! k = Some d -> d = 0)%Z.
Proof.
  intros Hb Hf Hi Ld Ls Hs Hd. destruct fuel as [|fuel]; [lia|]. destruct (lookup_lt_is_Some_2 (state m) i) as [s Es]; [lia|].
  destruct (Hs i s Es) as [-> | ->].
  - rewrite resolve_unfold by done. destruct (lookup_lt_is_Some_2 msgs i Hi) as [x Hx]. rewrite Hx. cbn [mbind option_bind].
    rewrite (Hb x) by (by eapply list_elem_of_lookup_2). cbn. eexists. split; [done|]. cbn. rewrite !length_insert. split_and!; [done|done| |].
    + intros k s' Hk. rewrite list_insert_insert_eq in Hk. apply list_lookup_insert_Some in Hk as [(_ & <- & _)|[_ ?]]; [by right|by eapply Hs].
    + intros k d Hk. apply list_lookup_insert_Some in Hk as [(_ & <- & _)|[_ ?]]; [done|by eapply Hd].
  - destruct (lookup_lt_is_Some_2 (depth m) i) as [d Ed]; [lia|]. exists m. cbn [resolve]. rewrite Es, Ed. cbn. by rewrite (Hd i d Ed).
Qed.

Lemma resolveAll_bare msgs idx m :
  (∀ x, x ∈ msgs -> InputTXIDs x = []) -> (∀ i, i ∈ idx -> (i < length msgs)%nat) -> length (depth m) = length msgs -> length (state m) = length msgs ->
  (∀ k s, state m !! k = Some s -> s = 0 ∨ s = 2)%Z -> (∀ k d, depth m !! k = Some d -> d = 0)%Z ->
  ∃ m', resolveAll msgs idx 0 m = Some (0%Z, m') ∧ length (depth m') = length msgs ∧ (∀ k d, depth m' !! k = Some d -> d = 0)%Z.
Proof.
  intros Hb. revert m. induction idx as [|i idx IH]; intros m Hi Ld Ls Hs Hd; cbn [resolveAll]; [by exists m|].
  assert (i < length msgs)%nat as Hlt by (apply Hi; by left).
  destruct (resolve_bare msgs (length msgs) i m Hb) as (m1 & -> & Ld1 & Ls1 & Hs1 & Hd1); [lia|done|done|done|done|done|].
  cbn [mbind option_bind]. apply IH; try done. intros k Hk. apply Hi. by right.
Qed.

Lemma place_first l ds layer : Forall (fun d => d = 0%Z) ds -> length ds = length l -> place l ds [layer] = Some [layer ++ l].
Proof.
  revert ds layer. induction l as [|m l IH]; intros [|d ds] layer Hf El; try done; cbn [place]; [by rewrite app_nil_r|].
  apply Forall_cons in Hf as [-> Hf]. injection El as El.
  change (place l ds [layer ++ [m]] = Some [layer ++ m :: l]). rewrite IH by done. by rewrite <-app_assoc.
Qed.

Lemma layers_bare msgs : (∀ x, x ∈ msgs -> InputTXIDs x = []) -> layerByDependency msgs = Some [msgs].
Proof.
  intros Hb. unfold layerByDependency. destruct (length msgs <? 2)%nat; [done|].
  destruct (resolveAll_bare msgs (seq 0 (length msgs)) (emptyMemo msgs) Hb) as (m & -> & Ld & Hd).
  - intros i Hi%elem_of_seq. lia.
  - apply length_replicate.
  - apply length_replicate.
  - intros k s [-> _]%lookup_replicate. by left.
  - by intros k d [-> _]%lookup_replicate.
  - cbn [mbind option_bind]. change (replicate (Z.to_nat (0 + 1)) (@nil propagationMsg)) with [@nil propagationMsg]. rewrite place_first; [done| |done].
    apply Forall_forall. intros d (k & Hk)%list_elem_of_lookup_1. by eapply Hd.
Qed.
