(* ===== verification/ReaperProps.v ===== *)
(** * ReaperProps: what the reaper rebroadcasts, writes and books *)
From stdpp Require Import base gmap strings list pretty.
From Stdlib Require Import Ascii ZArith Lia.
From Stdlib Require Import Strings.Byte.
From S2P Require Import Prelude Models GoStrings Teranode Offsets Dispatcher Chunking Effects Verdicts VerdictsProps Broadcast BroadcastProps Propagator PropagatorProps Reaper ReaperLayers.

(** ** One rebroadcast *)

Section Rebroadcast.
Context `{TxParser} `{MapOrder}.
Variable (cfg : PConfig) (batch : list propagationMsg) (again : string -> Prop).

Local Abbreviation pw := (wp (answer := panswer) (pAllowed cfg batch again) pRely).

(** A message has a row among the terminal ones or is among the unresolved. *)
Definition covered (terminal : list TransactionStatus) (unresolved : list propagationMsg) (m : propagationMsg) : Prop :=
  (∃ row, row ∈ terminal ∧ ts_TxID row = TXID m) ∨ (∃ m', m' ∈ unresolved ∧ sameTx m' m).

Lemma covered_more terminal terminal' unresolved unresolved' m :
  covered terminal unresolved m -> terminal ⊆ terminal' -> unresolved ⊆ unresolved' -> covered terminal' unresolved' m.
Proof. intros [(row & ? & ?)|(m' & ? & ?)] Ht Hu; [left; exists row|right; exists m']; auto. Qed.

(** What the loops over results and layers keep. *)
Definition collected (tr : PTrace) (terminal : list TransactionStatus) (unresolved : list propagationMsg) : Prop :=
  (∀ row, row ∈ terminal -> rowBacked cfg batch tr row) ∧ (∀ m, m ∈ unresolved -> stageBacked batch retryStageNetwork tr m).

Lemma collected_grows tr tr' terminal unresolved : collected tr terminal unresolved -> tr ⊆ tr' -> collected tr' terminal unresolved.
Proof.
  intros [Ht Hu] Hs. split; [intros row Hr; eapply rowBacked_grows; [by apply Ht|done]|].
  intros m Hm. eapply stageBacked_grows; [by apply Hu|done].
Qed.

Lemma collected_app tr terminal terminal' unresolved unresolved' :
  collected tr terminal unresolved -> (∀ row, row ∈ terminal' -> rowBacked cfg batch tr row) ->
  (∀ m, m ∈ unresolved' -> stageBacked batch retryStageNetwork tr m) -> collected tr (terminal ++ terminal') (unresolved ++ unresolved').
Proof. intros [Ht Hu] Ht' Hu'. split; intros x [?|?]%elem_of_app; auto. Qed.

(** The postcondition of both loops. *)
Definition collects (tr : PTrace) (terminal : list TransactionStatus) (unresolved : list propagationMsg) (over : propagationMsg -> Prop)
  (res : list TransactionStatus * list propagationMsg) (tr' : PTrace) : Prop :=
  tr ⊆ tr' ∧ collected tr' res.1 res.2 ∧ terminal ⊆ res.1 ∧ unresolved ⊆ res.2 ∧ ∀ m, over m -> covered res.1 res.2 m.

Lemma collects_more tr tr1 terminal terminal1 unresolved unresolved1 over over' res tr' :
  collects tr1 terminal1 unresolved1 over res tr' -> tr ⊆ tr1 -> terminal ⊆ terminal1 -> unresolved ⊆ unresolved1 ->
  (∀ m, over' m -> over m ∨ covered terminal1 unresolved1 m) -> collects tr terminal unresolved over' res tr'.
Proof.
  intros (Hg & Hc & Ht1 & Hu1 & Hall) Hs Ht Hu Hov. split_and!; [by etrans|done|by etrans|by etrans|]. intros m Hm.
  destruct (Hov m Hm); [by apply Hall|by eapply covered_more].
Qed.

Lemma reapResults_wp layer l terminal unresolved tr :
  (∀ m r, (m, r) ∈ l -> fromBatch batch m ∧ settled layer tr m r) -> collected tr terminal unresolved ->
  pw (reapResults l terminal unresolved) tr (collects tr terminal unresolved (fun m => ∃ r, (m, r) ∈ l)).
Proof.
  revert terminal unresolved tr. induction l as [|[m r] l IH]; intros terminal unresolved tr Hl Hc; cbn [reapResults].
  { wp_go. split_and!; [done|done|done|done|]. by intros m [r ?%elem_of_nil]. }
  destruct (Hl m r) as [Hb Hset]; [by left|].
  assert (∀ tr1 terminal' unresolved', tr ⊆ tr1 -> (∀ row, row ∈ terminal' -> rowBacked cfg batch tr1 row) ->
    (∀ m, m ∈ unresolved' -> stageBacked batch retryStageNetwork tr1 m) -> covered terminal' unresolved' m ->
    pw (reapResults l (terminal ++ terminal') (unresolved ++ unresolved')) tr1 (collects tr terminal unresolved (fun m' => ∃ r', (m', r') ∈ (m, r) :: l))) as Hgo.
  { intros tr1 terminal' unresolved' Hg Ht' Hu' Hcov. eapply wp_mono; [apply IH|].
    - intros m' r' Hin. destruct (Hl m' r') as [? Hx]; [by right|]. split; [done|by eapply settled_grows].
    - apply collected_app; [by eapply collected_grows|done|done].
    - intros res tr' Hres. eapply collects_more; [exact Hres|done|intros x Hx; apply elem_of_app; by left..|].
      intros m' [r' [[= -> ->]|Hin]%elem_of_cons]; [right|left; by exists r'].
      eapply covered_more; [exact Hcov|intros x Hx; apply elem_of_app; by right..]. }
  assert (verdictFor tr m r) as Hv by (by exists layer).
  assert (∀ u : list propagationMsg, u = u ++ []) as Eu by (intros u; by rewrite app_nil_r).
  assert (∀ u : list TransactionStatus, u = u ++ []) as Et by (intros u; by rewrite app_nil_r).
  assert (∀ s, sameTx (if String.eqb s "" then m else withRetryReason s m) m) as Hsame by (intros s; by destruct (String.eqb s "")).
  destruct (settled_shape _ _ _ _ Hset) as [(row & Es & Hx & Hcl)|Hu].
  - assert (∀ row', row' ∈ option_list (status r) -> rowBacked cfg batch tr row') as Hrow.
    { rewrite Es. intros row' ->%list_elem_of_singleton. left. by exists m, r. }
    destruct Hcl as [[-> _]|[-> _]].
    all: rewrite (Eu unresolved) at 1; apply Hgo; [done|done|by intros ? ?%elem_of_nil|]; left; exists row; rewrite Es; split; [by left|done].
  - destruct Hu as [Ec|Ec]; rewrite Ec.
    + rewrite (Et terminal) at 1. apply Hgo; [done|by intros ? ?%elem_of_nil| |right; eexists; split; [by left|apply Hsame]].
      intros m' ->%list_elem_of_singleton. exists m, r. split_and!; [apply Hsame..|done|done|by left].
    + wp_go. eapply wp_mono; [apply (resolveMissing_wp cfg batch again [(m, errMsg r)])|].
      { intros m' l' [= -> ->]%list_elem_of_singleton. split; [done|]. by exists r. }
      intros [cascaded requeue] tr1 (Hg & Hcas & Hreq & Hall).
      destruct (Nat.ltb_spec 0 (length cascaded)) as [Hlt|Hlt].
      * rewrite (Eu unresolved) at 1. apply Hgo; [done|by intros row [? _]%Hcas|by intros ? ?%elem_of_nil|].
        destruct cascaded as [|row cs]; [cbn in Hlt; lia|]. left. exists row. split; [by left|].
        destruct (Hcas row) as (_ & m' & l' & [= -> ->]%list_elem_of_singleton & E); [by left|done].
      * rewrite (Et terminal) at 1. apply Hgo; [done|by intros ? ?%elem_of_nil|done|]. right.
        destruct (Hall m (errMsg r)) as [(row & Hin & _)|?]; [by left| |done]. destruct cascaded; [by apply elem_of_nil in Hin|cbn in Hlt; lia].
Qed.

Lemma reapLayers_wp layers terminal unresolved tr :
  (∀ m, m ∈ concat layers -> registeredOr cfg batch tr m) -> collected tr terminal unresolved ->
  pw (reapLayers cfg layers terminal unresolved) tr (collects tr terminal unresolved (fun m => m ∈ concat layers)).
Proof.
  revert terminal unresolved tr. induction layers as [|layer layers IH]; intros terminal unresolved tr Hl Hc; cbn [reapLayers].
  { wp_go. split_and!; [done|done|done|done|]. by intros m ?%elem_of_nil. }
  wp_go. eapply wp_mono; [apply broadcast_wp; intros m Hm; apply Hl; cbn; apply elem_of_app; by left|].
  intros o t1 (Hg1 & rs & -> & El & Hs). change (default [] (Some rs)) with rs.
  assert (∀ m r, (m, r) ∈ zip layer rs -> fromBatch batch m ∧ settled layer t1 m r) as Hz.
  { intros m r (i & Hi)%list_elem_of_lookup_1. apply lookup_zip_Some in Hi as [Hi Hri]. destruct (Hs i m Hi) as (r' & Hr' & ?). simplify_eq.
    split; [|done]. apply Hl. cbn. apply elem_of_app. left. by eapply list_elem_of_lookup_2. }
  wp_go. eapply wp_mono; [apply (reapResults_wp layer); [done|by eapply collected_grows]|].
  intros [terminal1 unresolved1] t2 (Hg2 & Hc2 & Ht2 & Hu2 & Hall2). cbn [fst snd] in *.
  eapply wp_mono; [apply IH; [|exact Hc2]|].
  - intros m Hm. destruct (Hl m) as [? Hreg]; [cbn; apply elem_of_app; by right|]. split; [done|]. destruct Hreg; [by left|right].
    eapply registeredIn_grows; [done|by etrans].
  - intros res tr' Hres. eapply collects_more; [exact Hres|by etrans|done|done|].
    intros m Hm. cbn in Hm. apply elem_of_app in Hm as [Hm|Hm]; [right|by left]. apply Hall2.
    apply list_elem_of_lookup_1 in Hm as [i Hi]. destruct (lookup_lt_is_Some_2 rs i) as [r Hr]; [rewrite El; by eapply lookup_lt_Some|].
    exists r. apply (list_elem_of_lookup_2 _ i), lookup_zip_Some. done.
Qed.

(** The row was in a batch that was sent to the store. *)
Definition sentRow (tr : PTrace) (row : TransactionStatus) : Prop := ∃ rows ans, Event (pBatchUpdate rows) ans ∈ tr ∧ row ∈ rows.

Lemma written_sentRow io tr tr' row : written io tr row -> tr ⊆ tr' -> sentRow tr' row.
Proof. intros [_ [[(rows & prevs & ? & ?) _]|(rows & prevs & err & ? & ?)]] Hs; eexists rows, _; eauto. Qed.

(** The transaction was not registered, its row was sent to the store, or its
    next durable attempt was counted. *)
Definition reaped (parked : bool) (tr : PTrace) (m : propagationMsg) : Prop :=
  refusedIn tr (TXID m) ∨ (∃ row, sentRow tr row ∧ ts_TxID row = TXID m)
  ∨ (parked = true -> RawTx m ≠ [] -> ∃ ans, Event (pBumpRetry (TXID m)) ans ∈ tr).

Lemma bookAll_wp msgs tr :
  (∀ m, m ∈ msgs -> again (TXID m)) ->
  pw (forEach (fun m => schedulePendingRetry cfg (TXID m) (RawTx m) (retryReason m)) msgs) tr
    (fun _ tr' => tr ⊆ tr' ∧ ∀ m, m ∈ msgs -> RawTx m ≠ [] -> ∃ ans, Event (pBumpRetry (TXID m)) ans ∈ tr').
Proof.
  revert tr. induction msgs as [|m msgs IH]; intros tr Ha; cbn [forEach]; [wp_go; split; [done|by intros m ?%elem_of_nil]|].
  wp_go. eapply wp_mono; [apply schedule_wp; right; apply Ha; by left|]. intros [] t1 [Hg1 Hb1].
  eapply wp_mono; [apply IH; intros x Hx; apply Ha; by right|]. intros [] t2 [Hg2 Hb2]. split; [by etrans|].
  intros x [->|Hx]%elem_of_cons; [|by apply Hb2]. intros Hr. destruct (Hb1 Hr) as [ans ?]. exists ans. by apply Hg2.
Qed.

Lemma rebroadcastStuck_wp parked tr :
  (parked = true -> ∀ m, m ∈ batch -> again (TXID m)) ->
  pw (rebroadcastStuck cfg batch parked) tr (fun _ tr' => tr ⊆ tr' ∧ ∀ m, m ∈ batch -> reaped parked tr' m).
Proof.
  intros Hag. unfold rebroadcastStuck. wp_go. eapply wp_mono; [apply registerBatch_wp|]. intros [registered failed] t1 (Hg1 & Hr & Hf & Hall).
  assert (∀ t, t1 ⊆ t -> (∀ m, m ∈ registered -> (∃ row, sentRow t row ∧ ts_TxID row = TXID m)
      ∨ (parked = true -> RawTx m ≠ [] -> ∃ ans, Event (pBumpRetry (TXID m)) ans ∈ t)) ->
    tr ⊆ t ∧ ∀ m, m ∈ batch -> reaped parked t m) as Hfin.
  { intros t Ht Hreg. split; [by etrans|]. intros m0 Hm0. destruct (Hall m0 Hm0) as (m & [Hm|Hm]%elem_of_app & E1 & E2 & _); unfold reaped; rewrite <-E1, <-E2.
    - right. by apply Hreg.
    - left. destruct (Hf m Hm) as [_ Hx]. by eapply refusedIn_grows. }
  destruct (Nat.eqb_spec (length registered) 0) as [El|El].
  { wp_go. apply Hfin; [done|]. destruct registered; [by intros m ?%elem_of_nil|done]. }
  destruct (layers_correct registered) as (layers & -> & Hperm & _). change (default [] (Some layers)) with layers.
  wp_go. eapply wp_mono; [apply reapLayers_wp|].
  { intros m Hm. apply Hr. by rewrite <-Hperm. }
  { split; by intros x ?%elem_of_nil. }
  intros [terminal unresolved] t2 (Hg2 & [Hct Hcu] & _ & _ & Hcov). cbn [fst snd] in *.
  wp_go. eapply wp_mono; [by apply applyTerminal_wp|]. intros [] t3 [Hg3 Hw].
  assert (∀ t, t3 ⊆ t -> (parked = true -> ∀ m, m ∈ unresolved -> RawTx m ≠ [] -> ∃ ans, Event (pBumpRetry (TXID m)) ans ∈ t) ->
    tr ⊆ t ∧ ∀ m, m ∈ batch -> reaped parked t m) as Hend.
  { intros t Ht Hbook. apply Hfin; [by do 2 (etrans; [eassumption|])|]. intros m Hm. destruct (Hcov m) as [(row & Hrow & E)|(m' & Hm' & E1 & E2 & _)].
    - by rewrite Hperm.
    - left. exists row. split; [|done]. eapply written_sentRow; [by apply Hw|done].
    - right. rewrite <-E1, <-E2. intros Hp. by apply Hbook. }
  destruct parked; [|wp_go; by apply Hend].
  eapply wp_mono; [apply bookAll_wp|intros [] t [Ht Hbook]; apply Hend; auto].
  intros m Hm. destruct (Hcu m Hm) as (m0 & r & (E & _) & (m1 & Hm1 & (E1 & _)) & _). rewrite E, E1. by apply Hag.
Qed.
End Rebroadcast.

(** ** The calls of a rebroadcast *)

(** The calls only the ticks make themselves. *)
Definition tickCall (c : pcall) : bool :=
  match c with
  | pLease | pReleaseLease | pTick | pIterate _ | pCensus _ _ _ | pReadyRetries _ _ | pSubmissions _ => true
  | _ => false
  end.

Section Calls.
Context `{TxParser} `{MapOrder}.
Variable cfg : PConfig.

Local Abbreviation quiet := (makes (answer := panswer) (fun c => negb (tickCall c))).

Lemma quiet_forEach {A} (f : A -> PProg unit) l : (∀ x, quiet (f x)) -> quiet (forEach f l).
Proof. apply forEach_quiet. Qed.
Lemma quiet_publishBulk ev : quiet (publishBulk ev).
Proof. unfold publishBulk. makes_auto. Qed.
#[local] Hint Resolve quiet_forEach quiet_publishBulk : effects.
Lemma quiet_publishBulkStatus st txids ts : quiet (publishBulkStatus cfg st txids ts).
Proof. unfold publishBulkStatus. makes_auto. Qed.
Lemma quiet_publishRejections rows ts : quiet (publishRejections cfg rows ts).
Proof. unfold publishRejections. makes_auto. Qed.
#[local] Hint Resolve quiet_publishBulkStatus quiet_publishRejections : effects.
Lemma quiet_schedule txid raw reason : quiet (schedulePendingRetry cfg txid raw reason).
Proof. unfold schedulePendingRetry, nextPendingRetryDelay. makes_auto. Qed.
#[local] Hint Resolve quiet_schedule : effects.
Lemma quiet_persistCascade crs st now : quiet (persistCascade cfg crs st now).
Proof. unfold persistCascade. makes_auto. Qed.
Lemma quiet_notifyTargets targets txid st : quiet (notifyTargets targets txid st).
Proof. induction targets as [|d targets IH]; cbn [notifyTargets]; makes_auto. Qed.
#[local] Hint Resolve quiet_persistCascade quiet_notifyTargets : effects.
Lemma quiet_notifyAll io st txids : quiet (notifyAll io st txids).
Proof. induction txids as [|x txids IH]; cbn [notifyAll]; unfold notifyTerminalToDispatcher; makes_auto. Qed.
#[local] Hint Resolve quiet_notifyAll : effects.
Lemma quiet_applyTerminal rows io : quiet (applyTerminalStatuses cfg rows io).
Proof. unfold applyTerminalStatuses. makes_auto. Qed.
Lemma quiet_climb visited frontier next : quiet (climb visited frontier next).
Proof. revert visited next. induction frontier as [|a frontier IH]; intros visited next; cbn [climb]; makes_auto. Qed.
#[local] Hint Resolve quiet_applyTerminal quiet_climb : effects.
Lemma quiet_rejectedAncestor msg : quiet (rejectedAncestor msg).
Proof.
  unfold rejectedAncestor. generalize ({[TXID msg]} : gset string) as visited, (parentTxIDsOf msg) as frontier.
  induction maxAncestorWalkDepth as [|depth IH]; intros visited frontier; cbn [climbLevels]; makes_auto.
Qed.
#[local] Hint Resolve quiet_rejectedAncestor : effects.
Lemma quiet_resolveMissing msgs : quiet (resolveMissingParents msgs).
Proof.
  unfold resolveMissingParents. makes_auto. match goal with |- makes _ (resolveLoop ?t _) => generalize t end. intros now.
  induction msgs as [|[m l] msgs IH]; cbn [resolveLoop]; makes_auto.
Qed.
Lemma quiet_broadcast batch : quiet (broadcastInChunks cfg batch).
Proof. eapply makes_mono; [apply batch_sends_own|]. by intros []. Qed.
Lemma quiet_register batch : quiet (registerBatch cfg batch).
Proof.
  unfold registerBatch. makes_auto. match goal with |- makes _ (splitRegistered _ ?e) => generalize e end.
  clear. induction batch as [|m batch IH]; intros [|[e|] errs]; cbn [splitRegistered]; unfold merkleRegisterFailureReason; makes_auto.
Qed.
#[local] Hint Resolve quiet_resolveMissing quiet_broadcast quiet_register : effects.
Lemma quiet_reapResults l terminal unresolved : quiet (reapResults l terminal unresolved).
Proof. revert terminal unresolved. induction l as [|[m r] l IH]; intros terminal unresolved; cbn [reapResults]; makes_auto. Qed.
#[local] Hint Resolve quiet_reapResults : effects.
Lemma quiet_reapLayers layers terminal unresolved : quiet (reapLayers cfg layers terminal unresolved).
Proof. revert terminal unresolved. induction layers as [|l layers IH]; intros terminal unresolved; cbn [reapLayers]; makes_auto. Qed.
#[local] Hint Resolve quiet_reapLayers : effects.
Lemma quiet_rebroadcast msgs parked : quiet (rebroadcastStuck cfg msgs parked).
Proof. unfold rebroadcastStuck. makes_auto. Qed.
End Calls.

(** ** The walk *)

(** What the walk selects: [k] keeps what it already held. *)
Definition selected (cfg : PConfig) (now : Time) (rows : list TransactionStatus) (w : walkState) : Prop :=
  (∀ m, m ∈ wk_stuck w -> ∃ row, row ∈ rows ∧ isStuck now row = true ∧ ts_RawTx row ≠ [] ∧ m = bareMsg row)
  ∧ (∀ m, m ∈ wk_adopt w -> ∃ row, row ∈ rows ∧ ts_Status row = StatusPendingRetry ∧ IsZero (ts_NextRetryAt row) = true
       ∧ ts_RawTx row ≠ [] ∧ m = bareMsg row)
  ∧ (Z.of_nat (length (wk_stuck w)) <= Z.max 0 (rebroadcastBatch cfg))%Z.

Lemma isStuck_not_parked now row : isStuck now row = true -> ts_Status row ≠ StatusPendingRetry.
Proof. unfold isStuck. intros Hs E. rewrite E in Hs. vm_compute in Hs. discriminate. Qed.

Lemma walkRow_selected cfg now rows w row w' more :
  row ∈ rows -> selected cfg now rows w -> walkRow cfg now w row = (w', more) ->
  selected cfg now rows w' ∧ wk_stuck w ⊆ wk_stuck w' ∧ wk_adopt w ⊆ wk_adopt w'
  ∧ (more = true -> ts_RawTx row ≠ [] -> isStuck now row = true -> bareMsg row ∈ wk_stuck w')
  ∧ (more = false -> (rebroadcastBatch cfg <= Z.of_nat (length (wk_stuck w')))%Z).
Proof.
  intros Hrow (Hs & Ha & Hl) E. unfold walkRow in E. cbv zeta in E.
  match type of E with context [if ?b then wk_attrib w ++ _ else wk_attrib w] => set (attrib := if b then wk_attrib w ++ [ts_TxID row] else wk_attrib w) in E end.
  destruct (Z.leb_spec (rebroadcastBatch cfg) (Z.of_nat (length (wk_stuck w)))) as [Hfull|Hroom]; [injection E as <- <-; by split_and!|].
  destruct (Nat.eqb_spec (length (ts_RawTx row)) 0) as [Hr|Hr].
  { injection E as <- <-. split; [done|]. split; [done|]. split; [done|]. split; [|done]. by destruct (ts_RawTx row). }
  assert (ts_RawTx row ≠ []) as Hne by (by destruct (ts_RawTx row)).
  case_bool_decide as Hp.
  { injection E as <- <-. unfold selected. cbn [wk_stuck wk_adopt]. split; [split; [done|]; split; [|done]|].
    - destruct (IsZero (ts_NextRetryAt row)) eqn:Ez; [|done]. intros m [?| ->%list_elem_of_singleton]%elem_of_app; [by apply Ha|by exists row].
    - split; [done|]. split; [destruct (IsZero _); [apply grows_snoc|done]|]. split; [|done]. intros _ _ Hst. by apply isStuck_not_parked in Hst. }
  destruct (isStuck now row) eqn:Es; injection E as <- <-; [|done].
  unfold selected. cbn [wk_stuck wk_adopt]. split; [split; [|split; [done|]]|].
  - intros m [?| ->%list_elem_of_singleton]%elem_of_app; [by apply Hs|by exists row].
  - rewrite length_app. cbn. lia.
  - split; [apply grows_snoc|]. split; [done|]. split; [intros _ _ _; apply snoc_here|done].
Qed.

Lemma walk_selected cfg now all rows w w' stopped :
  (∀ row, row ∈ rows -> row ∈ all) -> selected cfg now all w -> walk cfg now rows w = (w', stopped) ->
  selected cfg now all w' ∧ wk_stuck w ⊆ wk_stuck w'
  ∧ (stopped = false -> ∀ row, row ∈ rows -> ts_RawTx row ≠ [] -> isStuck now row = true -> bareMsg row ∈ wk_stuck w')
  ∧ (stopped = true -> (rebroadcastBatch cfg <= Z.of_nat (length (wk_stuck w')))%Z).
Proof.
  revert w. induction rows as [|row rows IH]; intros w Hall Hsel E; cbn [walk] in E.
  { injection E as <- <-. split; [done|]. split; [done|]. split; [|done]. by intros _ row ?%elem_of_nil. }
  destruct (walkRow cfg now w row) as [w1 more] eqn:E1.
  destruct (walkRow_selected cfg now all w row w1 more) as (Hsel1 & Hs1 & _ & Hin & Hstop); [apply Hall; by left|done|done|].
  destruct more; [|injection E as <- <-; split; [done|]; split; [done|]; split; [done|]; intros _; by apply Hstop].
  destruct (IH w1) as (Hsel2 & Hs2 & Hin2 & Hstop2); [intros r Hr; apply Hall; by right|done|done|].
  split; [done|]. split; [by etrans|]. split; [|done].
  intros Hst r [->|Hr]%elem_of_cons Hraw Hstuck; [apply Hs2, Hin; done|by apply Hin2].
Qed.

(** ** The tick *)

Definition isLease (c : pcall) : bool := match c with pLease => true | _ => false end.

(** The last answer of the leaser granted the lease. *)
Definition leading (cfg : PConfig) (tr : PTrace) : Prop :=
  hasLeaser cfg = false ∨ ∃ t, last (project isLease tr) = Some (Event pLease (Ok (Some t))).

Section Tick.
Context `{TxParser} `{MapOrder}.
Variable cfg : PConfig.

(** The store named the transaction in this run: stuck, or due for a retry. *)
Definition listed (tr : PTrace) (m : propagationMsg) : Prop :=
  (∃ now rows err row, Event (pIterate (timeAdd now (- staleScanLookback))) (rows, err) ∈ tr ∧ row ∈ rows
     ∧ isStuck now row = true ∧ ts_RawTx row ≠ [] ∧ m = bareMsg row)
  ∨ (∃ now limit ready r, Event (pReadyRetries now limit) (Ok ready) ∈ tr ∧ r ∈ ready ∧ m = retryMsg r).

(** The store named it as parked: without a schedule, or due. *)
Definition parkedRow (tr : PTrace) (txid : string) : Prop :=
  (∃ since rows err row, Event (pIterate since) (rows, err) ∈ tr ∧ row ∈ rows ∧ ts_TxID row = txid
     ∧ ts_Status row = StatusPendingRetry ∧ IsZero (ts_NextRetryAt row) = true)
  ∨ (∃ now limit ready r, Event (pReadyRetries now limit) (Ok ready) ∈ tr ∧ r ∈ ready ∧ r.1.1 = txid).

(** What a tick may call: everything but the lease under the lease, and what
    the pipeline may call for the transactions the store named. *)
Definition rAllowed (tr : PTrace) (c : pcall) : Prop :=
  match c with
  | pLease | pTick | pReleaseLease => True
  | _ => leading cfg tr ∧ ∃ batch again, (∀ m, m ∈ batch -> listed tr m) ∧ (∀ x, again x -> parkedRow tr x) ∧ pAllowed cfg batch again tr c
  end.

Local Abbreviation rw := (wp (answer := panswer) rAllowed pRely).

Lemma listed_grows tr tr' m : listed tr m -> tr ⊆ tr' -> listed tr' m.
Proof. intros [(a & b & e & r & ? & ?)|(a & b & e & r & ? & ?)] Hs; [left|right]; exists a, b, e, r; auto. Qed.
Lemma parkedRow_grows tr tr' x : parkedRow tr x -> tr ⊆ tr' -> parkedRow tr' x.
Proof. intros [(a & b & e & r & ? & ?)|(a & b & e & r & ? & ?)] Hs; [left|right]; exists a, b, e, r; auto. Qed.

Lemma project_among sel (tr : PTrace) :
  (∀ c, sel c = true -> tickCall c = true) -> project sel tr = project sel (project tickCall tr).
Proof.
  intros Hs. unfold project. induction tr as [|[c ans] tr IH]; [done|]. cbn. destruct (tickCall c) eqn:Et; cbn.
  - by rewrite IH.
  - destruct (sel c) eqn:Es; [|done]. by rewrite (Hs c Es) in Et.
Qed.
Lemma project_same sel (tr tr' : PTrace) :
  (∀ c, sel c = true -> tickCall c = true) -> project tickCall tr' = project tickCall tr -> project sel tr' = project sel tr.
Proof. intros Hs E. by rewrite (project_among sel tr' Hs), (project_among sel tr Hs), E. Qed.

Lemma leading_same (tr tr' : PTrace) : project tickCall tr' = project tickCall tr -> leading cfg tr -> leading cfg tr'.
Proof. intros E. unfold leading. rewrite (project_same isLease tr tr'); [done|by intros []|done]. Qed.
Lemma leading_snoc (tr : PTrace) e : isLease (ev_call e) = false -> leading cfg tr -> leading cfg (tr ++ [e]).
Proof. intros E. unfold leading. rewrite project_app. cbn. by rewrite E, app_nil_r. Qed.

(** A part of the pipeline inside a tick. *)
Lemma part_wp {A} (p : PProg A) batch again tr Q :
  makes (fun c => negb (tickCall c)) p -> wp (pAllowed cfg batch again) pRely p tr Q -> leading cfg tr ->
  (∀ m, m ∈ batch -> listed tr m) -> (∀ x, again x -> parkedRow tr x) ->
  rw p tr (fun a tr' => Q a tr' ∧ leading cfg tr' ∧ project tickCall tr' = project tickCall tr ∧ tr ⊆ tr').
Proof.
  intros Hq Hp Hl Hb Ha. eapply wp_mono.
  - eapply (wp_from _ _ _ _ _ _); [|apply (wp_framed tickCall); [exact Hq|apply wp_grows, makes_frame; [exact Hq|exact Hp]]].
    intros t c Ht [Hc E]. assert (leading cfg t ∧ ∃ batch again, (∀ m, m ∈ batch -> listed t m) ∧ (∀ x, again x -> parkedRow t x) ∧ pAllowed cfg batch again t c) as Hall.
    { split; [by eapply leading_same|]. exists batch, again. split_and!; [|intros x Hx; eapply parkedRow_grows; [by apply Ha|done]|done].
      intros m Hm. eapply listed_grows; [by apply Hb|done]. }
    by destruct c.
  - intros a tr' [[HQ E] Hs]. split_and!; [done|by eapply leading_same|done|done].
Qed.

(** The tick's own calls. *)
Lemma own_wp c tr (Q : panswer c -> PTrace -> Prop) :
  isLease c = false -> pAllowed cfg [] (fun _ => False) tr c -> leading cfg tr ->
  (∀ x, pRely tr (Event c x) -> leading cfg (tr ++ [Event c x]) -> Q x (tr ++ [Event c x])) -> rw (perform c) tr Q.
Proof.
  intros E Hp Hl HQ. apply (wp_perform rAllowed pRely).
  - assert (leading cfg tr ∧ ∃ batch again, (∀ m, m ∈ batch -> listed tr m) ∧ (∀ x, again x -> parkedRow tr x) ∧ pAllowed cfg batch again tr c) as Hall; [|by destruct c].
    split; [done|]. exists [], (fun _ => False). split_and!; [by intros m ?%elem_of_nil|done|done].
  - intros x Hx. apply HQ; [done|]. by apply leading_snoc.
Qed.

(** Every retry the store reported due in [tr] and not in [tr0] was reaped. *)
Definition drained (tr0 tr : PTrace) : Prop :=
  ∀ now limit ready r, Event (pReadyRetries now limit) (Ok ready) ∈ tr -> Event (pReadyRetries now limit) (Ok ready) ∈ tr0
    ∨ (r ∈ ready -> reaped true tr (retryMsg r)).

Definition readyOf (e : event panswer) : option (Res (list (string * list byte * string))) :=
  match e with Event (pReadyRetries _ _) ready => Some ready | _ => None end.
Definition isReady (c : pcall) : bool := match c with pReadyRetries _ _ => true | _ => false end.

Lemma attribute_wp txids tr :
  leading cfg tr -> rw (attribute txids) tr (fun _ tr' => leading cfg tr' ∧ project isReady tr' = project isReady tr ∧ tr ⊆ tr').
Proof.
  revert tr. induction txids as [|x txids IH]; intros tr Hl; cbn [attribute]; [by wp_go|].
  wp_go. apply own_wp; [done|done|done|]. intros dn _ Hl1. cbn in dn. destruct dn.
  { wp_go. split_and!; [done|rewrite project_app; cbn; by rewrite app_nil_r|apply grows_snoc]. }
  wp_go. apply own_wp; [done|done|done|]. intros subs _ Hl2. eapply wp_mono; [by apply IH|]. intros [] t (Hl3 & E & Hg).
  split_and!; [done| |intros e He; apply Hg; do 2 (apply elem_of_app; left); done]. rewrite E, !project_app. cbn. by rewrite !app_nil_r.
Qed.

Lemma reaped_grows tr tr' m : reaped true tr m -> tr ⊆ tr' -> reaped true tr' m.
Proof.
  intros [Hr|[(row & (rows & ans & ? & ?) & ?)|Hb]] Hs; [left; by eapply refusedIn_grows|right; left|right; right].
  - exists row. split; [exists rows, ans; auto|done].
  - intros Hp Hraw. destruct (Hb Hp Hraw) as [ans ?]. exists ans. auto.
Qed.

Lemma drained_same tr0 tr tr' : drained tr0 tr -> tr ⊆ tr' -> project isReady tr' = project isReady tr -> drained tr0 tr'.
Proof.
  intros Hd Hs E now limit ready r Hin. assert (Event (pReadyRetries now limit) (Ok ready) ∈ tr) as Hin0.
  { apply (elem_of_project isReady tr). rewrite <-E. by apply elem_of_project. }
  destruct (Hd now limit ready r Hin0) as [?|Hr]; [by left|right]. intros Hrr. eapply reaped_grows; [by apply Hr|done].
Qed.
Lemma drained_snoc tr0 tr e : drained tr0 tr -> isReady (ev_call e) = false -> drained tr0 (tr ++ [e]).
Proof. intros Hd E. eapply drained_same; [exact Hd|apply grows_snoc|]. rewrite project_app. cbn. by rewrite E, app_nil_r. Qed.

(** What holds between the steps of a tick. *)
Definition tickInv (tr0 tr : PTrace) : Prop := leading cfg tr ∧ tr0 ⊆ tr ∧ drained tr0 tr.

Lemma tickInv_snoc tr0 tr e : tickInv tr0 tr -> leading cfg (tr ++ [e]) -> isReady (ev_call e) = false -> tickInv tr0 (tr ++ [e]).
Proof. intros (_ & Hg & Hd) Hl E. split_and!; [done|etrans; [exact Hg|apply grows_snoc]|by apply drained_snoc]. Qed.

(** A part of the pipeline keeps it. *)
Lemma part_inv {A} (p : PProg A) batch again tr0 tr Q :
  makes (fun c => negb (tickCall c)) p -> wp (pAllowed cfg batch again) pRely p tr Q -> tickInv tr0 tr ->
  (∀ m, m ∈ batch -> listed tr m) -> (∀ x, again x -> parkedRow tr x) -> rw p tr (fun a tr' => Q a tr' ∧ tickInv tr0 tr').
Proof.
  intros Hq Hp (Hl & Hg & Hd) Hb Ha. eapply wp_mono; [by eapply (part_wp p batch again)|]. intros a tr' (HQ & Hl' & E & Hs).
  split; [done|]. split_and!; [done|by etrans|]. eapply drained_same; [done|done|]. apply project_same; [by intros []|done].
Qed.

Lemma drain_wp now since tr0 tr : tickInv tr0 tr -> rw (drainParkedRetries cfg now since) tr (fun _ tr' => tickInv tr0 tr').
Proof.
  intros Hi. unfold drainParkedRetries. wp_go. apply own_wp; [done|done|apply Hi|]. intros census _ Hl1.
  pose proof (tickInv_snoc tr0 tr _ Hi Hl1 eq_refl) as Hi1. set (t1 := tr ++ [_]) in *. wp_go. apply own_wp; [done|done|done|].
  intros ready _ Hl2. cbn in ready. destruct ready as [ready|err].
  2: { wp_go. destruct Hi1 as (_ & Hg & Hd). split_and!; [done|etrans; [exact Hg|apply grows_snoc]|].
       intros n l rdy r [Hin|Heq%list_elem_of_singleton]%elem_of_app.
       2: { by apply (f_equal readyOf) in Heq. }
       destruct (Hd n l rdy r Hin) as [?|Hr]; [by left|right].
       intros Hrr. eapply reaped_grows; [by apply Hr|apply grows_snoc]. }
  set (e := Event (answer := panswer) (pReadyRetries now (rebroadcastBatch cfg)) (Ok ready)). destruct Hi1 as (_ & Hg & Hd).
  assert (∀ t, t1 ++ [e] ⊆ t -> leading cfg t -> project isReady t = project isReady (t1 ++ [e]) -> (∀ r, r ∈ ready -> reaped true t (retryMsg r)) -> tickInv tr0 t) as Hfin.
  { intros t Ht Hlt E Hr. split_and!; [done|etrans; [exact Hg|]; etrans; [apply grows_snoc|exact Ht]|]. intros n l rdy r Hin.
    assert (Event (pReadyRetries n l) (Ok rdy) ∈ t1 ++ [e]) as Hin0 by (apply (elem_of_project isReady); rewrite <-E; by apply elem_of_project).
    apply elem_of_app in Hin0 as [Hin0|Heq%list_elem_of_singleton].
    - destruct (Hd n l rdy r Hin0) as [?|Hr0]; [by left|right]. intros Hrr. eapply reaped_grows; [by apply Hr0|]. etrans; [apply grows_snoc|exact Ht].
    - right. apply (f_equal readyOf) in Heq. cbn in Heq. simplify_eq. apply Hr. }
  destruct (Nat.eqb_spec (length ready) 0) as [El|El].
  { wp_go. apply Hfin; [done|done|done|]. destruct ready; [by intros r ?%elem_of_nil|done]. }
  set (batch := List.map retryMsg ready). set (again := fun x => ∃ r, r ∈ ready ∧ r.1.1 = x).
  eapply wp_mono; [apply (part_wp (rebroadcastStuck cfg batch true) batch again)|].
  - apply quiet_rebroadcast.
  - apply rebroadcastStuck_wp. intros _ m Hm. apply list_elem_of_In, in_map_iff in Hm as ([[txid raw] lr] & <- & Hm%list_elem_of_In). by exists (txid, raw, lr).
  - done.
  - intros m Hm. apply list_elem_of_In, in_map_iff in Hm as (r & <- & Hm%list_elem_of_In). right. exists now, (rebroadcastBatch cfg), ready, r.
    split_and!; [apply snoc_here|done|done].
  - intros x (r & Hr & <-). right. exists now, (rebroadcastBatch cfg), ready, r. split_and!; [apply snoc_here|done|done].
  - intros [] t ((Ht & Hr) & Hlt & E & _). apply Hfin; [done|done|apply project_same; [by intros []|done]|].
    intros r Hrr. apply Hr. by apply list_elem_of_In, in_map, list_elem_of_In.
Qed.

Lemma reapOnce_wp tr : leading cfg tr -> rw (reapOnce cfg) tr (fun _ tr' => tickInv tr tr').
Proof.
  intros Hl. assert (tickInv tr tr) as Hi0 by (split_and!; [done|done|]; intros n l rdy r Hin; by left).
  unfold reapOnce. wp_go. apply own_wp; [done|done|done|]. intros now _ Hl1. pose proof (tickInv_snoc tr tr _ Hi0 Hl1 eq_refl) as Hi1. cbn in now.
  set (t1 := tr ++ [_]) in *. wp_go. apply own_wp; [done|done|done|]. intros [rows err] _ Hl2. pose proof (tickInv_snoc tr t1 _ Hi1 Hl2 eq_refl) as Hi2.
  set (it := Event (answer := panswer) (pIterate _) _) in *. set (t2 := t1 ++ [it]) in *. assert (it ∈ t2) as Hit by apply snoc_here. wp_go.
  destruct (walk cfg now rows (mkWalk [] [] [])) as [w stopped] eqn:Ew.
  destruct (walk_selected cfg now rows rows (mkWalk [] [] []) w stopped) as ((Hst & Had & _) & _); [done| |done|].
  { split; [|split; [|cbn; lia]]; by intros m ?%elem_of_nil. }
  destruct (match _ with Some _ => _ | None => _ end); [by wp_go|].
  wp_go. apply own_wp; [done|done|done|]. intros census _ Hl3. pose proof (tickInv_snoc tr t2 _ Hi2 Hl3 eq_refl) as Hi3. set (t3 := t2 ++ [_]) in *.
  wp_go. eapply wp_mono; [by apply attribute_wp|]. intros [] t4 (Hl4 & E4 & Hg4).
  assert (tickInv tr t4) as Hi4.
  { destruct Hi3 as (_ & Hg3 & Hd3). split_and!; [done|by etrans|]. by eapply drained_same. }
  assert (it ∈ t4) as Hit4 by (apply Hg4, elem_of_app; by left).
  wp_go. eapply (wp_mono _ _ _ _ (fun _ t => tickInv tr t ∧ t4 ⊆ t)).
  { destruct (0 <? length (wk_stuck w))%nat; [|by wp_go].
    eapply wp_mono; [apply (part_inv (rebroadcastStuck cfg (wk_stuck w) false) (wk_stuck w) (fun _ => False) tr)|].
    - apply quiet_rebroadcast.
    - by apply rebroadcastStuck_wp.
    - done.
    - intros m Hm. destruct (Hst m Hm) as (row & ? & ? & ? & ?). left. by exists now, rows, err, row.
    - done.
    - by intros [] t [[Hg _] Hi]. }
  intros [] t5 [Hi5 Hg5]. assert (it ∈ t5) as Hit5 by (by apply Hg5).
  wp_go. eapply (wp_mono _ _ _ _ (fun _ t => tickInv tr t)).
  { destruct (0 <? length (wk_adopt w))%nat; [|by wp_go]. set (again := fun x => ∃ m, m ∈ wk_adopt w ∧ TXID m = x).
    eapply wp_mono; [apply (part_inv _ [] again tr t5)|].
    - apply quiet_forEach. intros m. apply quiet_schedule.
    - apply bookAll_wp. intros m Hm. by exists m.
    - done.
    - by intros m ?%elem_of_nil.
    - intros x (m & Hm & <-). destruct (Had m Hm) as (row & ? & ? & ? & ? & ->). left. eexists _, rows, err, row. by split_and!.
    - by intros [] t [_ Hi]. }
  intros [] t6 Hi6. by apply drain_wp.
Qed.

Lemma drained_trans tr0 tr1 tr2 : drained tr0 tr1 -> drained tr1 tr2 -> tr1 ⊆ tr2 -> drained tr0 tr2.
Proof.
  intros H1 H2 Hs n l rdy r Hin. destruct (H2 n l rdy r Hin) as [Hin1|?]; [|by right].
  destruct (H1 n l rdy r Hin1) as [?|Hr]; [by left|right]. intros Hrr. eapply reaped_grows; [by apply Hr|done].
Qed.

Lemma tryReap_wp tr : rw (tryReap cfg) tr (fun _ tr' => tr ⊆ tr' ∧ drained tr tr').
Proof.
  assert (drained tr tr) as Hd by (intros n l rdy r Hin; by left). unfold tryReap. destruct (hasLeaser cfg) eqn:El.
  2: { eapply wp_mono; [apply reapOnce_wp; by left|]. by intros [] t (_ & ? & ?). }
  wp_go. wp_ask ans idtac. set (e := Event _ _). assert (drained tr (tr ++ [e])) as Hd1 by (by apply drained_snoc).
  destruct ans as [[until|]|err]; cbn [IsZero]; [|wp_go; split; [apply grows_snoc|done]..].
  eapply wp_mono; [apply reapOnce_wp; right; exists until; rewrite project_app; cbn; apply last_snoc|].
  intros [] t (_ & Hg & Hdt). split; [etrans; [apply grows_snoc|exact Hg]|by eapply drained_trans].
Qed.

Lemma runReaper_wp ticks tr : rw (runReaper cfg ticks) tr (fun _ tr' => tr ⊆ tr' ∧ drained tr tr').
Proof.
  unfold runReaper. wp_go. eapply wp_mono; [apply tryReap_wp|]. intros [] t1 [Hg1 Hd1].
  revert t1 Hg1 Hd1. induction ticks as [|ticks IH]; intros t1 Hg1 Hd1; cbn [reapLoop]; [by wp_go|].
  wp_go. wp_ask tick idtac. set (e := Event _ _). assert (drained tr (t1 ++ [e])) as Hd2 by (by apply drained_snoc).
  assert (tr ⊆ t1 ++ [e]) as Hg2 by (etrans; [exact Hg1|apply grows_snoc]). destruct tick.
  - wp_go. eapply wp_mono; [apply tryReap_wp|]. intros [] t2 [Hg3 Hd3]. apply IH; [by etrans|by eapply drained_trans].
  - destruct (hasLeaser cfg); [|by wp_go]. wp_ask u idtac. split; [etrans; [exact Hg2|apply grows_snoc]|by apply drained_snoc].
Qed.
End Tick.

(** ** Theorems *)

(** C40: In every run of the reaper, cut short or not, whatever is done is
    done under the lease granted last (without a leaser there is none to
    hold); a transaction is rebroadcast only if the
    store listed it with its bytes as stuck past the age of its status, or as
    a due retry, and only after its registration was acknowledged (or with
    registration turned off); rows are
    written only for verdicts, rejected ancestors and cascades; a durable
    attempt is counted only for a parked transaction, is booked at the
    backoff of its count, and is given up only beyond the attempts. *)
Theorem reaper_backed `{TxParser} `{MapOrder} cfg ticks tr tr1 e tr2 :
  begins (runReaper cfg ticks) tr -> honoured pRely [] tr -> tr = tr1 ++ e :: tr2 -> rAllowed cfg tr1 (ev_call e).
Proof. intros Hb Hr ->. eapply (wp_begins (rAllowed cfg) pRely); [apply runReaper_wp|exact Hb|exact Hr|done]. Qed.

(** No due retry is forgotten: when the reaper ends, every transaction
    the store reported due in any tick was refused by merkle-service, had a
    row sent to the store, or had its next attempt counted. *)
Theorem reaper_drains `{TxParser} `{MapOrder} cfg ticks tr now limit ready txid raw lastReason :
  ends (runReaper cfg ticks) tr tt -> honoured pRely [] tr ->
  Event (pReadyRetries now limit) (Ok ready) ∈ tr -> (txid, raw, lastReason) ∈ ready -> raw ≠ [] ->
  refusedIn tr txid ∨ (∃ rows ans row, Event (pBatchUpdate rows) ans ∈ tr ∧ row ∈ rows ∧ ts_TxID row = txid)
  ∨ ∃ ans, Event (pBumpRetry txid) ans ∈ tr.
Proof.
  intros He Hr Hin Hrdy Hraw. destruct (wp_ends (rAllowed cfg) pRely _ _ _ _ (runReaper_wp cfg ticks []) He Hr) as [_ Hd].
  destruct (Hd now limit ready (txid, raw, lastReason) Hin) as [Hx|Hreap]; [by apply elem_of_nil in Hx|].
  destruct (Hreap Hrdy) as [?|[(row & (rows & ans & ? & ?) & ?)|Hb]]; [by left|right; left; by exists rows, ans, row|right; right; by apply Hb].
Qed.

(** The dependency layers of the retries due.  The layers always exist,
    hold every retry once, and for distinct transactions that do not spend each
    other in a circle no layer holds a transaction together with one it
    spends: every parent is in an earlier layer. *)
Theorem retry_layers `{TxParser} (ready : list (string * list byte * string)) :
  let msgs := List.map retryMsg ready in
  ∃ layers, layerByDependency msgs = Some layers ∧ concat layers ≡ₚ msgs
    ∧ (NoDup (List.map TXID msgs) -> wellFounded msgs ->
       ∀ a b la lb child parent, layers !! a = Some la -> child ∈ la -> layers !! b = Some lb -> parent ∈ lb ->
         TXID parent ∈ parsedParents (RawTx child) -> TXID parent ≠ TXID child -> (b < a)%nat).
Proof.
  cbn zeta. set (msgs := List.map retryMsg ready). destruct (layers_correct msgs) as (layers & E & Hp & Hl). exists layers. split; [done|]. split; [done|].
  intros Hnd Hwf a b la lb child parent Ha Hc Hb Hpa Hsp Hne. eapply (Hl Hnd Hwf a b la lb child parent); try done.
  assert (child ∈ msgs) as Hin.
  { rewrite <-Hp. apply list_elem_of_In, in_concat. exists la. split; [apply list_elem_of_In; by eapply list_elem_of_lookup_2|by apply list_elem_of_In]. }
  apply list_elem_of_In, in_map_iff in Hin as ([[txid raw] lr] & <- & _). exact Hsp.
Qed.

(** Stuck rows are not layered.  The walk notes no parents on the
    messages it selects, so whatever it selected goes out as one layer, a
    transaction together with the one it spends. *)
Theorem stuck_not_layered cfg now rows msgs :
  (∀ m, m ∈ msgs -> ∃ m0, m0 ∈ wk_stuck (walk cfg now rows (mkWalk [] [] [])).1 ∧ sameTx m m0) -> layerByDependency msgs = Some [msgs].
Proof.
  intros Hm. apply layers_bare. intros x Hx. destruct (Hm x Hx) as (m0 & Hin & _ & _ & -> & _).
  destruct (walk cfg now rows (mkWalk [] [] [])) as [w stopped] eqn:Ew.
  destruct (walk_selected cfg now rows rows (mkWalk [] [] []) w stopped) as ((Hst & _) & _); [done| |done|].
  { split; [|split; [|cbn; lia]]; by intros m ?%elem_of_nil. }
  by destruct (Hst m0 Hin) as (row & _ & _ & _ & ->).
Qed.

(** ** A run *)

#[local] Instance rOrder : MapOrder := {| mapRange := fun K V _ _ m => map_to_list m; mapRange_perm := fun K V _ _ m => Permutation_refl _ |}.
(** The second transaction spends the first. *)
#[local] Instance rParser : TxParser := fun raw => match raw with [x02] => Some [Some ("parent", 0%Z)] | _ => Some [] end.

Definition oldRow (txid : string) (raw : list byte) : TransactionStatus :=
  mkTransactionStatus txid StatusReceived 0 (Some 1%Z) [] "" 0 [] "" [] raw 0 None None [] None.
Definition rNow : Time := Some (48 * hour)%Z.
Definition rRows : list TransactionStatus := [oldRow "child" [x02]; oldRow "parent" [x01]].

(** No peer is healthy, one retry is due. *)
Definition quietNet (c : pcall) : panswer c :=
  match c with
  | pNow => rNow
  | pHealthy => []
  | pLease => Ok (Some 1%Z)
  | pIterate _ => (rRows, None)
  | pReadyRetries _ _ => Ok [("due", [x01], "")]
  | c => mutePeer c
  end.
Definition rHandle (c : pcall) (s : unit) : panswer c * unit := (quietNet c, s).
Definition rRun : PProg unit := runReaper bConfig 1.

Lemma rHandle_honoured {A} (p : PProg A) : honoured pRely [] (run_trace rHandle p tt).
Proof. apply run_honoured. intros tr c []. destruct c; try done. cbn. apply length_map. Qed.

Lemma reaper_backed_witness :
  ∃ next, run_trace rHandle rRun tt !! 21%nat = Some (Event (pSetPending "due" [x01] next "") None)
    ∧ rAllowed bConfig (take 21 (run_trace rHandle rRun tt)) (pSetPending "due" [x01] next "").
Proof.
  exists (Some 172800001000000%Z).
  assert (run_trace rHandle rRun tt !! 21%nat = Some (Event (answer := panswer) (pSetPending "due" [x01] (Some 172800001000000%Z) "") None)) as E by (vm_compute; reflexivity).
  split; [exact E|].
  exact (reaper_backed bConfig 1 _ _ _ _ (run_begins rHandle rRun tt) (rHandle_honoured rRun) (eq_sym (take_drop_middle _ _ _ E))).
Defined.

Lemma reaper_drains_witness :
  refusedIn (run_trace rHandle rRun tt) "due"
  ∨ (∃ rows ans row, Event (pBatchUpdate rows) ans ∈ run_trace rHandle rRun tt ∧ row ∈ rows ∧ ts_TxID row = "due")
  ∨ ∃ ans, Event (pBumpRetry "due") ans ∈ run_trace rHandle rRun tt.
Proof.
  pose proof (run_ends rHandle rRun tt) as He. destruct (run rHandle rRun tt) as [[] ?].
  apply (reaper_drains bConfig 1 _ rNow 200 [("due", [x01], "")] "due" [x01] "" He (rHandle_honoured rRun)); [|by left|done].
  apply (list_elem_of_lookup_2 _ 13). vm_compute. reflexivity.
Defined.

Lemma stuck_not_layered_witness :
  parsedParents [x02] = ["parent"] ∧ layerByDependency (List.map bareMsg rRows) = Some [List.map bareMsg rRows].
Proof.
  split; [reflexivity|]. apply (stuck_not_layered bConfig rNow rRows). intros m Hm. exists m. split; [|done].
  assert (wk_stuck (walk bConfig rNow rRows (mkWalk [] [] [])).1 = List.map bareMsg rRows) as -> by (vm_compute; reflexivity). exact Hm.
Defined.
