(* ===== verification/Replay.v ===== *)
(** * Replay: registering again what merkle-service may have lost

    Models [src/services/propagation/replay.go]: the replay of in-flight
    transactions to the pool at startup and to one endpoint on a resync, and
    the coalescing of resync requests.  The rows of the scan are one answer;
    its callback, which flushes while it walks, is [replayRows].  The delay of
    the throttle is a quotient of small integers, so that the floating-point
    division is exact. *)
From stdpp Require Import base gmap strings list pretty.
From Stdlib Require Import Ascii ZArith Lia.
From Stdlib Require Import Strings.Byte.
From S2P Require Import Prelude Models GoStrings Teranode Offsets Dispatcher Chunking Effects Verdicts Broadcast Propagator Reaper.

Definition minute : Z := 60000000000.
Definition defaultReplayLookback : Z := 24 * hour.
Definition defaultReplaySkipRecent : Z := 30 * minute.
Definition resyncRetryBackoff : Z := 5000000000.
Definition resyncRetryMaxBackoff : Z := 5 * minute.
Definition defaultReplayRPS : Z := 50.
Definition batchSize : nat := 1000.

(** The settings the replay reads; [re_endpoints] is the number of endpoints
    of a merkle client that is [Recoverable]. *)
Record ReplayConfig : Type := mkReplayConfig {
  rp_pipeline : PConfig;
  RegisterReplayLookbackHours : Z;
  RegisterReplayOnStart : option bool;
  MerkleReplaySkipRecentMinutes : Z;
  MerkleReplayRPS : Z;
  re_endpoints : option nat
}.

Record replayParams : Type := mkReplayParams {
  rp_target : watchTarget;
  rp_since : Time;
  rp_skipRecent : Z;
  rp_endpoint : string
}.

Section Replay.
Variable cfg : ReplayConfig.

Definition replayLookback : Z :=
  let lookback := (RegisterReplayLookbackHours cfg * hour)%Z in
  if (0 <? lookback)%Z then lookback else defaultReplayLookback.

Definition rpsOf : Z := if (MerkleReplayRPS cfg <? 0)%Z then defaultReplayRPS else MerkleReplayRPS cfg.

Definition okTxIDs (batch : list Registration) (errs : list (option registerErr)) : list string :=
  omap (fun '(rg, err) => match (err : option registerErr) with Some _ => None | None => Some (rg_TxID rg) end) (zip batch errs).

(** The wait of the throttle in whole seconds. *)
Definition throttle (n : nat) : Z := if (0 <? rpsOf)%Z then (Z.quot (Z.of_nat n) rpsOf * 1000000000)%Z else 0%Z.

(** [flush]: the batch that is left. *)
Definition flush (rp : replayParams) (batch : list Registration) : PProg (list Registration) :=
  if (length batch =? 0)%nat then mret batch
  else
    go ← (if (0 <? throttle (length batch))%Z then perform (pSleep (throttle (length batch))) else mret true);
    if (go : bool) then
      errs ← perform (pRegister (rp_target rp) batch);
      (if String.eqb (rp_endpoint rp) "" && bool_decide (is_Some (re_endpoints cfg)) then perform (pRetain batch errs) else mret tt) ;;
      (if (0 <? length (okTxIDs batch errs))%nat then perform (pMarkRegistered (okTxIDs batch errs)) ≫= fun _ => mret tt else mret tt) ;;
      mret []
    else mret batch.

Definition replayReg (st : TransactionStatus) : Registration :=
  mkRegistration (ts_TxID st) (CallbackURL (rp_pipeline cfg)) (CallbackToken (rp_pipeline cfg)).

(** The rows the callback registers. *)
Definition replayed (rp : replayParams) (now : Time) (st : TransactionStatus) : bool :=
  negb (IsTerminal (ts_Status st))
  && negb (String.eqb (ts_TxID st) "")
  && negb (negb (IsZero (ts_Timestamp st)) && timeBefore (ts_Timestamp st) (rp_since rp))
  && negb ((0 <? rp_skipRecent rp)%Z && negb (IsZero (ts_MerkleRegisteredAt st))
           && (timeSub now (ts_MerkleRegisteredAt st) <? rp_skipRecent rp)%Z).

(** The callback on the rows in turn: the batch that is left and its error. *)
Fixpoint replayRows (rp : replayParams) (now : Time) (rows : list TransactionStatus) (batch : list Registration)
  : PProg (list Registration * option error) :=
  match rows with
  | [] => mret (batch, None)
  | st :: rows =>
      if replayed rp now st then
        let batch := batch ++ [replayReg st] in
        batch ← (if (batchSize <=? length batch)%nat then flush rp batch else mret batch);
        done ← perform pCtxDone;
        if (done : bool) then mret (batch, Some ErrCanceled) else replayRows rp now rows batch
      else replayRows rp now rows batch
  end.

Definition replayTo (rp : replayParams) : PProg (option error) :=
  now ← perform pNow;
  '(rows, scanErr) ← perform (pIterate (rp_since rp));
  '(batch, err) ← replayRows rp now rows [];
  flush rp batch ;;
  let err := match (err : option error) with Some e => Some e | None => (scanErr : option error) end in
  match err with
  | None => mret None
  | Some e =>
      done ← perform pCtxDone;
      mret (if (done : bool) then None else Some e)
  end.

Definition multiEndpoint : bool := match re_endpoints cfg with Some n => (1 <? n)%nat | None => false end.

Definition skipRecentOnStart : Z :=
  let m := MerkleReplaySkipRecentMinutes cfg in
  if (m <? 0)%Z && multiEndpoint then 0%Z
  else if (m <? 0)%Z then defaultReplaySkipRecent
  else if (m =? 0)%Z then 0%Z
  else (m * minute)%Z.

Definition runMerkleReplay : PProg unit :=
  if negb (hasMerkleClient (rp_pipeline cfg)) || String.eqb (CallbackURL (rp_pipeline cfg)) "" then mret tt
  else if bool_decide (RegisterReplayOnStart cfg = Some false) then mret tt
  else
    now ← perform pNow;
    _ ← replayTo (mkReplayParams toPool (timeAdd now (- replayLookback)) skipRecentOnStart "");
    mret tt.

(** [known]: whether the pool has the endpoint. *)
Definition runResyncReplay (known : string -> bool) (endpoint : string) : PProg (option error) :=
  if negb (known endpoint) || String.eqb (CallbackURL (rp_pipeline cfg)) "" then mret None
  else
    now ← perform pNow;
    replayTo (mkReplayParams (toEndpoint endpoint) (timeAdd now (- replayLookback)) 0 endpoint).
End Replay.

(** ** Resync requests *)

(** The state under [resyncMu] for one endpoint, with where its loops are. *)
Inductive phase : Type := atTop | inPass | afterFailure | atCheck.

Record resyncState : Type := mkResyncState {
  running : bool;
  again_ : bool;
  resyncStopped : bool;
  loops : list phase;
  backoffs : list Z
}.

(** [scheduleResync]; [ctxDone] is [ctx.Err() != nil]. *)
Definition scheduleResync (ctxDone : bool) (s : resyncState) : resyncState :=
  if resyncStopped s || ctxDone then s
  else if running s then mkResyncState (running s) true (resyncStopped s) (loops s) (backoffs s)
  else mkResyncState true (again_ s) (resyncStopped s) (loops s ++ [atTop]) (backoffs s ++ [resyncRetryBackoff]).

(** The steps of one iteration of [resyncLoop], between its critical
    sections; [None] is a loop that is not there. *)
Definition topStep (i : nat) (s : resyncState) : option resyncState :=
  match loops s !! i with
  | Some atTop => Some (mkResyncState (running s) false (resyncStopped s) (<[i := inPass]> (loops s)) (backoffs s))
  | _ => None
  end.
Definition passStep (i : nat) (failed : bool) (s : resyncState) : option resyncState :=
  match loops s !! i with
  | Some inPass =>
      Some (mkResyncState (running s) (again_ s) (resyncStopped s)
              (<[i := if failed then afterFailure else atCheck]> (loops s))
              (alter (fun b => if failed then Z.min (b * 2) resyncRetryMaxBackoff else resyncRetryBackoff) i (backoffs s)))
  | _ => None
  end.
Definition retryStep (i : nat) (s : resyncState) : option resyncState :=
  match loops s !! i with
  | Some afterFailure => Some (mkResyncState (running s) true (resyncStopped s) (<[i := atCheck]> (loops s)) (backoffs s))
  | _ => None
  end.
Definition checkStep (i : nat) (ctxDone : bool) (s : resyncState) : option resyncState :=
  match loops s !! i with
  | Some atCheck =>
      if negb (again_ s) || ctxDone || resyncStopped s
      then Some (mkResyncState false (again_ s) (resyncStopped s) (delete i (loops s)) (delete i (backoffs s)))
      else Some (mkResyncState (running s) (again_ s) (resyncStopped s) (<[i := atTop]> (loops s)) (backoffs s))
  | _ => None
  end.
Definition stopResync (s : resyncState) : resyncState := mkResyncState (running s) (again_ s) true (loops s) (backoffs s).
