(* ===== verification/ReplayProps.v ===== *)
(** * ReplayProps: the replay registers exactly what is in flight *)
From stdpp Require Import base gmap strings list pretty.
From Stdlib Require Import Ascii ZArith Lia.
From Stdlib Require Import Strings.Byte.
From S2P Require Import Prelude Models GoStrings Teranode Offsets Dispatcher Chunking Effects Verdicts Broadcast BroadcastProps Propagator PropagatorProps Reaper Replay.

(** ** The trace of a replay *)

Definition sentRegs (e : event panswer) : list (list Registration) := match e with Event (pRegister _ regs) _ => [regs] | _ => [] end.
(** The batches sent, and the registrations in them. *)
Definition batches (tr : PTrace) : list (list Registration) := concat (List.map sentRegs tr).
Definition sent (tr : PTrace) : list Registration := concat (batches tr).

Lemma batches_snoc tr e : batches (tr ++ [e]) = batches tr ++ sentRegs e.
Proof. unfold batches. rewrite List.map_app, concat_app. cbn. by rewrite app_nil_r. Qed.
Lemma sent_snoc tr e : sent (tr ++ [e]) = sent tr ++ concat (sentRegs e).
Proof. unfold sent. by rewrite batches_snoc, concat_app. Qed.

(** The context was not seen done. *)
Definition uninterrupted (tr : PTrace) : Prop := (Event pCtxDone true ∉ tr) ∧ (∀ d, Event (pSleep d) false ∉ tr).

Lemma uninterrupted_sub tr tr' : uninterrupted tr' -> tr ⊆ tr' -> uninterrupted tr.
Proof. intros [H1 H2] Hs. split; [intros Hx; by apply H1, Hs|intros d Hx; by apply (H2 d), Hs]. Qed.

(** The registration was acknowledged by its target. *)
Definition acknowledged (tr : PTrace) (tg : watchTarget) (txid : string) : Prop :=
  ∃ regs errs i rg, Event (pRegister tg regs) errs ∈ tr ∧ regs !! i = Some rg ∧ rg_TxID rg = txid ∧ errs !! i = Some None.

Section Replays.
Variable (cfg : ReplayConfig) (rp : replayParams).

Definition scanned (tr : PTrace) (now : Time) (rg : Registration) : Prop :=
  ∃ rows err row, Event (pIterate (rp_since rp)) (rows, err) ∈ tr ∧ row ∈ rows ∧ replayed rp now row = true ∧ rg = replayReg cfg row.

(** What a replay may call. *)
Definition replayAllowed (tr : PTrace) (c : pcall) : Prop :=
  match c with
  | pRegister tg regs => tg = rp_target rp ∧ ∃ now, Event pNow now ∈ tr ∧ ∀ rg, rg ∈ regs -> scanned tr now rg
  | pMarkRegistered txids => ∀ x, x ∈ txids -> acknowledged tr (rp_target rp) x
  | pRetain regs errs => rp_endpoint rp = "" ∧ Event (pRegister (rp_target rp) regs) errs ∈ tr
  | pIterate since => since = rp_since rp
  | pNow | pCtxDone | pSleep _ => True
  | _ => False
  end.

Local Abbreviation gw := (wp (answer := panswer) replayAllowed (fun _ _ => True)).

Lemma scanned_grows tr tr' now rg : scanned tr now rg -> tr ⊆ tr' -> scanned tr' now rg.
Proof. intros (rows & err & row & ? & ?) Hs. exists rows, err, row. auto. Qed.

Lemma okTxIDs_acknowledged tr batch errs x :
  Event (pRegister (rp_target rp) batch) errs ∈ tr -> x ∈ okTxIDs batch errs -> acknowledged tr (rp_target rp) x.
Proof.
  intros He Hx. unfold okTxIDs in Hx. apply list_elem_of_omap in Hx as ([rg err] & (i & Hi)%list_elem_of_lookup_1 & E). destruct err; [done|]. injection E as <-.
  apply lookup_zip_Some in Hi as [Hi He']. by exists batch, errs, i, rg.
Qed.

(** A flush sends the batch, unless it is interrupted. *)
Lemma flush_wp now batch tr :
  Event pNow now ∈ tr -> (∀ rg, rg ∈ batch -> scanned tr now rg) ->
  gw (flush cfg rp batch) tr (fun batch' tr' => tr ⊆ tr'
    ∧ (∀ rg, rg ∈ batch' -> rg ∈ batch)
    ∧ (uninterrupted tr' -> batch' = [] ∧ batches tr' = batches tr ++ (if (length batch =? 0)%nat then [] else [batch]))).
Proof.
  intros Hn Hb. unfold flush. destruct (Nat.eqb_spec (length batch) 0) as [El|El].
  { wp_go. split_and!; [done|done|]. intros _. rewrite app_nil_r. by destruct batch. }
  assert (∀ tr1, tr ⊆ tr1 -> batches tr1 = batches tr ->
    gw (errs ← perform (pRegister (rp_target rp) batch);
        (if String.eqb (rp_endpoint rp) "" && bool_decide (is_Some (re_endpoints cfg)) then perform (pRetain batch errs) else mret tt) ;;
        (if (0 <? length (okTxIDs batch errs))%nat then perform (pMarkRegistered (okTxIDs batch errs)) ≫= fun _ => mret tt else mret tt) ;;
        mret []) tr1 (fun batch' tr' => tr ⊆ tr' ∧ (∀ rg, rg ∈ batch' -> rg ∈ batch)
          ∧ (uninterrupted tr' -> batch' = [] ∧ batches tr' = batches tr ++ [batch]))) as Hsend.
  { intros tr1 Hg1 E1. wp_go. wp_ask errs ltac:(split; [done|]; exists now; split; [by apply Hg1|]; intros rg Hrg; eapply scanned_grows; [by apply Hb|done]).
    set (e := Event (answer := panswer) (pRegister (rp_target rp) batch) errs). wp_go.
    eapply (wp_mono _ _ _ _ (fun _ t => tr1 ++ [e] ⊆ t ∧ batches t = batches (tr1 ++ [e]))).
    { destruct (String.eqb_spec (rp_endpoint rp) "") as [Ee|]; cbn [andb]; [|by wp_go]. case_bool_decide; [|by wp_go].
      wp_ask u ltac:(split; [done|apply snoc_here]). split; [apply grows_snoc|]. rewrite batches_snoc. apply app_nil_r. }
    intros [] t2 [Hg2 E2]. wp_go. eapply (wp_mono _ _ _ _ (fun _ t => tr1 ++ [e] ⊆ t ∧ batches t = batches (tr1 ++ [e]))).
    { destruct (_ <? _)%nat; [|by wp_go]. wp_go. wp_ask u ltac:(intros x Hx; eapply okTxIDs_acknowledged; [apply Hg2, snoc_here|done]). wp_go.
      split; [etrans; [exact Hg2|apply grows_snoc]|]. rewrite batches_snoc, E2. apply app_nil_r. }
    intros [] t3 [Hg3 E3]. wp_go. apply snoc_grows in Hg3 as [Hg3 _]. split_and!; [by etrans|by intros rg ?%elem_of_nil|]. intros _. split; [done|].
    rewrite E3, batches_snoc, E1. done. }
  wp_go. destruct (0 <? throttle cfg (length batch))%Z; [|wp_go; by apply Hsend].
  wp_ask go idtac. destruct go; [apply Hsend; [apply grows_snoc|rewrite batches_snoc; apply app_nil_r]|].
  wp_go. split_and!; [apply grows_snoc|done|]. intros [_ Hs]. exfalso. eapply Hs. apply snoc_here.
Qed.

Definition chosen (now : Time) (rows : list TransactionStatus) : list Registration :=
  List.map (replayReg cfg) (List.filter (replayed rp now) rows).

Lemma rows_wp now all err rows batch tr :
  Event pNow now ∈ tr -> Event (pIterate (rp_since rp)) (all, err) ∈ tr -> (∀ row, row ∈ rows -> row ∈ all) ->
  (∀ rg, rg ∈ batch -> scanned tr now rg) -> (uninterrupted tr -> (length batch < batchSize)%nat) ->
  gw (replayRows cfg rp now rows batch) tr (fun '(batch', werr) tr' => tr ⊆ tr' ∧ (∀ rg, rg ∈ batch' -> scanned tr' now rg)
    ∧ (uninterrupted tr' -> werr = None ∧ (length batch' < batchSize)%nat ∧ sent tr' ++ batch' = sent tr ++ batch ++ chosen now rows
       ∧ ∃ new, batches tr' = batches tr ++ new ∧ Forall (fun b => length b = batchSize) new)).
Proof.
  revert batch tr. induction rows as [|row rows IH]; intros batch tr Hn Hit Hrows Hb Hl; cbn [replayRows].
  { wp_go. split_and!; [done|done|]. intros Hu. split_and!; [done|by apply Hl|by rewrite app_nil_r|]. exists []. by rewrite app_nil_r. }
  assert (∀ r, r ∈ rows -> r ∈ all) as Hrows' by (intros r Hr; apply Hrows; by right).
  destruct (replayed rp now row) eqn:Er.
  2: { eapply wp_mono; [by apply IH|]. intros [batch' werr] t (? & ? & Hx). split_and!; [done|done|]. unfold chosen. cbn. by rewrite Er. }
  set (batch1 := batch ++ [replayReg cfg row]).
  assert (∀ t, tr ⊆ t -> ∀ rg, rg ∈ batch1 -> scanned t now rg) as Hb1.
  { intros t Ht rg [Hin| ->%list_elem_of_singleton]%elem_of_app; [eapply scanned_grows; [by apply Hb|done]|].
    exists all, err, row. split_and!; [by apply Ht|apply Hrows; by left|done|done]. }
  wp_go. eapply (wp_mono _ _ _ _ (fun batch2 t => tr ⊆ t ∧ (∀ rg, rg ∈ batch2 -> rg ∈ batch1)
     ∧ (uninterrupted t -> (length batch2 < batchSize)%nat ∧ sent t ++ batch2 = sent tr ++ batch1
        ∧ ∃ new, batches t = batches tr ++ new ∧ Forall (fun b => length b = batchSize) new))).
  { destruct (Nat.leb_spec batchSize (length batch1)) as [Hge|Hlt].
    - eapply wp_mono; [apply (flush_wp now); [done|by apply Hb1]|]. intros batch2 t (Hg & Hin & Hu). split_and!; [done|done|]. intros Hun.
      destruct (Hu Hun) as [-> E]. assert (length batch1 = batchSize) as El.
      { specialize (Hl (uninterrupted_sub _ _ Hun Hg)). unfold batch1 in *. rewrite length_app in *. cbn in *. lia. }
      rewrite El in E. cbn [Nat.eqb] in E. split_and!; [cbn; unfold batchSize; lia| |exists [batch1]; split; [done|by constructor]].
      unfold sent. rewrite E, concat_app. cbn. by rewrite !app_nil_r.
    - wp_go. split_and!; [done|done|]. intros _. split_and!; [done|done|]. exists []. by rewrite app_nil_r. }
  intros batch2 t2 (Hg2 & Hin2 & Hu2). wp_go. wp_ask dn idtac. set (e := Event (answer := panswer) pCtxDone dn).
  assert (tr ⊆ t2 ++ [e]) as Hg3 by (etrans; [exact Hg2|apply grows_snoc]).
  assert (∀ rg, rg ∈ batch2 -> scanned (t2 ++ [e]) now rg) as Hb3 by (intros rg Hrg; by apply Hb1, Hin2).
  destruct dn; [wp_go; split_and!; [done|done|]; intros [Hc _]; exfalso; apply Hc, snoc_here|].
  assert (sent (t2 ++ [e]) = sent t2 ∧ batches (t2 ++ [e]) = batches t2) as [Es Eb].
  { rewrite sent_snoc, batches_snoc. cbn. by rewrite !app_nil_r. }
  eapply wp_mono; [apply IH; [by apply Hg3|by apply Hg3|done|done|]|].
  { intros Hu. apply Hu2. eapply uninterrupted_sub; [exact Hu|apply grows_snoc]. }
  intros [batch' werr] t (Hg & Hsc & Hu). split_and!; [by etrans|done|]. intros Hun.
  destruct (Hu Hun) as (-> & Hlt & E & new & En & Hnew). destruct Hu2 as (_ & E2 & new2 & En2 & Hnew2).
  { eapply uninterrupted_sub; [exact Hun|]. etrans; [apply grows_snoc|exact Hg]. }
  split_and!; [done|done| |].
  - rewrite E, Es, app_assoc, E2. unfold batch1, chosen. cbn. rewrite Er. cbn. by rewrite <-!app_assoc.
  - exists (new2 ++ new). rewrite En, Eb, En2, app_assoc. split; [done|by apply Forall_app].
Qed.

(** The scan of a replay. *)
Definition scanOf (e : event panswer) : option (list TransactionStatus * option error) :=
  match e with Event (pIterate _) r => Some r | _ => None end.

Lemma replayTo_wp tr :
  gw (replayTo cfg rp) tr (fun r tr' => tr ⊆ tr' ∧ (uninterrupted tr' -> ∃ now rows scanErr,
      Event pNow now ∈ tr' ∧ Event (pIterate (rp_since rp)) (rows, scanErr) ∈ tr'
      ∧ r = scanErr ∧ sent tr' = sent tr ++ chosen now rows
      ∧ ∃ new, batches tr' = batches tr ++ new ∧ Forall (fun b => length b <= batchSize)%nat new)).
Proof.
  unfold replayTo. wp_go. wp_ask now idtac. wp_go. wp_ask scan ltac:(done). destruct scan as [rows scanErr]. set (it := Event (answer := panswer) (pIterate _) _).
  set (t0 := (tr ++ [_]) ++ [it]). assert (Event pNow now ∈ t0 ∧ it ∈ t0 ∧ tr ⊆ t0) as (Hn & Hit & Hg0).
  { split_and!; [apply elem_of_app; left; apply snoc_here|apply snoc_here|intros x Hx; do 2 (apply elem_of_app; left); done]. }
  assert (batches t0 = batches tr) as E0 by (unfold t0; rewrite !batches_snoc; cbn; by rewrite !app_nil_r).
  wp_go. eapply wp_mono; [apply (rows_wp now rows scanErr); [done|done|done|by intros rg ?%elem_of_nil|intros _; cbn; unfold batchSize; lia]|].
  intros [batch werr] t1 (Hg1 & Hsc & Hu1). wp_go. eapply wp_mono; [apply (flush_wp now); [by apply Hg1|done]|].
  intros batch2 t2 (Hg2 & _ & Hu2).
  assert (∀ t, t2 ⊆ t -> batches t = batches t2 -> uninterrupted t -> werr = None ∧ sent t = sent tr ++ chosen now rows
    ∧ ∃ new, batches t = batches tr ++ new ∧ Forall (fun b => length b <= batchSize)%nat new) as Hfin.
  { intros t Ht Et Hun. destruct Hu2 as [-> E2]; [by eapply uninterrupted_sub|].
    destruct Hu1 as (-> & Hlt & E1 & new & En & Hnew); [eapply uninterrupted_sub; [exact Hun|by etrans]|]. split; [done|].
    set (last := if (length batch =? 0)%nat then [] else [batch]) in E2.
    assert (concat last = batch) as El by (unfold last; destruct batch; cbn; by rewrite ?app_nil_r). split.
    - unfold sent in E1 |- *. rewrite Et, E2, concat_app, El, E1, E0. done.
    - exists (new ++ last). rewrite Et, E2, En, E0, app_assoc. split; [done|]. apply Forall_app. split.
      + eapply Forall_impl; [exact Hnew|]. intros b ->. done.
      + unfold last. destruct (length batch =? 0)%nat; constructor; [lia|done]. }
  assert (tr ⊆ t2) as Hg by (do 2 (etrans; [eassumption|]); done). assert (t0 ⊆ t2) as Hg02 by (by etrans).
  destruct (match werr with Some e => Some e | None => scanErr end) as [e|] eqn:Ee.
  2: { wp_go. split; [done|]. intros Hun. destruct (Hfin t2 ltac:(done) eq_refl Hun) as (-> & Es & Hnew). exists now, rows, scanErr. split_and!; [by apply Hg02..|done|done|done]. }
  wp_go. wp_ask dn idtac. wp_go. split; [etrans; [exact Hg|apply grows_snoc]|]. intros Hun.
  destruct (Hfin (t2 ++ [Event (answer := panswer) pCtxDone dn])) as (-> & Es & Hnew); [apply grows_snoc|rewrite batches_snoc; apply app_nil_r|done|].
  exists now, rows, scanErr. split_and!; [apply elem_of_app; left; by apply Hg02..| |done|done].
  destruct dn; [exfalso; destruct Hun as [Hc _]; apply Hc, snoc_here|by rewrite Ee].
Qed.
End Replays.

(** ** Resync requests *)

(** A resync with its context and two facts kept on the side: whether a
    request came since a pass began, and whether the pass under way serves one. *)
Record resyncRun : Type := mkRun { rr_state : resyncState; rr_ctxDone : bool; owed : bool; serving : bool }.

Inductive resyncStep : resyncRun -> resyncRun -> Prop :=
| step_request s d o v :
    resyncStep (mkRun s d o v) (mkRun (scheduleResync d s) d (if resyncStopped s || d then o else true) v)
| step_top s d o v i s' : topStep i s = Some s' -> resyncStep (mkRun s d o v) (mkRun s' d false (v || o))
| step_pass s d o v i failed s' : passStep i failed s = Some s' -> resyncStep (mkRun s d o v) (mkRun s' d o (v && failed))
| step_retry s d o v i s' : retryStep i s = Some s' -> resyncStep (mkRun s d o v) (mkRun s' d (o || v) false)
| step_check s d o v i s' : checkStep i d s = Some s' -> resyncStep (mkRun s d o v) (mkRun s' d o v)
| step_stop s d o v : resyncStep (mkRun s d o v) (mkRun (stopResync s) d o v)
| step_cancel s o v : resyncStep (mkRun s false o v) (mkRun s true o v).

Definition noResync : resyncRun := mkRun (mkResyncState false false false [] []) false false false.

Definition resyncInv (r : resyncRun) : Prop :=
  let s := rr_state r in
  (loops s = [] ∧ backoffs s = [] ∧ running s = false ∧ (resyncStopped s || rr_ctxDone r = true ∨ owed r = false ∧ serving r = false))
  ∨ (∃ ph b, loops s = [ph] ∧ backoffs s = [b] ∧ (resyncRetryBackoff <= b <= resyncRetryMaxBackoff)%Z ∧ running s = true
      ∧ match ph with
        | atTop => serving r = false
        | inPass | afterFailure => owed r = true -> again_ s = true
        | atCheck => serving r = false ∧ (owed r = true -> again_ s = true)
        end).

Lemma resync_step_inv r r' : resyncInv r -> resyncStep r r' -> resyncInv r'.
Proof.
  assert (resyncRetryBackoff <= resyncRetryBackoff <= resyncRetryMaxBackoff)%Z as Hbase by (unfold resyncRetryBackoff, resyncRetryMaxBackoff, minute; lia).
  intros Hi Hs. destruct Hs as [s d o v|s d o v i s' E|s d o v i failed s' E|s d o v i s' E|s d o v i s' E|s d o v|s o v];
    destruct s as [run ag st lp bk]; destruct Hi as [(Hl & Hb & Hr & Hg)|(ph & b & Hl & Hb & Hbd & Hr & Hp)]; cbn in Hl, Hb, Hr; subst; cbn in *.
  - unfold scheduleResync, resyncInv. cbn. destruct (st || d) eqn:Esd; cbn; [left; rewrite ?Esd; split_and!; [done|done|done|by left]|]. right. exists atTop, resyncRetryBackoff.
    split_and!; try done; [apply Hbase..|]. by destruct Hg as [?|[_ ?]].
  - unfold scheduleResync, resyncInv. cbn. destruct (st || d) eqn:Esd; cbn; right; exists ph, b; (split_and!; [done|done|apply Hbd|apply Hbd|done|]); [done|].
    destruct ph; [done|done|done|]. split; [apply Hp|done].
  - by destruct i.
  - unfold topStep in E. destruct i as [|[|i]]; cbn in E; [|done|done]. destruct ph; try done. injection E as <-. right. exists inPass, b. split_and!; try done; apply Hbd.
  - by destruct i.
  - unfold passStep in E. destruct i as [|[|i]]; cbn in E; [|done|done]. destruct ph; try done. injection E as <-. right. cbn. destruct failed.
    + exists afterFailure, (Z.min (b * 2) resyncRetryMaxBackoff). split_and!; try done; unfold resyncRetryBackoff, resyncRetryMaxBackoff, minute in *; lia.
    + exists atCheck, resyncRetryBackoff. rewrite andb_false_r. split_and!; try done; apply Hbase.
  - by destruct i.
  - unfold retryStep in E. destruct i as [|[|i]]; cbn in E; [|done|done]. destruct ph; try done. injection E as <-. right. exists atCheck, b. split_and!; try done; apply Hbd.
  - by destruct i.
  - unfold checkStep in E. destruct i as [|[|i]]; cbn in E; [|done|done]. destruct ph; try done. destruct Hp as [Hv Ho].
    destruct (negb ag || d || st) eqn:Ec; injection E as <-; [left|right; exists atTop, b; split_and!; try done; apply Hbd].
    cbn. split_and!; try done. destruct st, d; cbn in *; try (by left). right. split; [|done]. destruct o; [|done]. rewrite Ho in Ec by done. done.
  - left. cbn. by split_and!; [..|left].
  - right. exists ph, b. split_and!; try done; apply Hbd.
  - left. cbn. split_and!; [done..|left]. by destruct st.
  - right. exists ph, b. split_and!; try done; apply Hbd.
Qed.

(** ** Theorems *)

(** A replay registers exactly what is in flight.  Every call of a
    replay, cut short or not, is backed: it registers with its target only
    rows of its own scan that are not terminal, in the window and not
    registered recently, stamps only what the target acknowledged, and hands
    back failures only on startup.  If the context stays alive the
    registrations sent are exactly the chosen rows, in order, in batches of
    at most a thousand, and the result is the error of the scan. *)
Theorem replay_exact cfg rp tr :
  (begins (replayTo cfg rp) tr -> ∀ tr1 e tr2, tr = tr1 ++ e :: tr2 -> replayAllowed cfg rp tr1 (ev_call e))
  ∧ (∀ r, ends (replayTo cfg rp) tr r -> uninterrupted tr ->
       ∃ now rows, Event pNow now ∈ tr ∧ Event (pIterate (rp_since rp)) (rows, r) ∈ tr
         ∧ sent tr = List.map (replayReg cfg) (List.filter (replayed rp now) rows)
         ∧ Forall (fun b => length b <= 1000)%nat (batches tr)).
Proof.
  split.
  - intros Hb tr1 e tr2 ->. eapply (wp_begins (replayAllowed cfg rp) (fun _ _ => True)); [apply replayTo_wp|exact Hb|done|done].
  - intros r He Hu. destruct (wp_ends (replayAllowed cfg rp) (fun _ _ => True) _ _ _ _ (replayTo_wp cfg rp []) He ltac:(done)) as [_ Hx].
    destruct (Hx Hu) as (now & rows & scanErr & ? & ? & -> & Es & new & En & Hn). exists now, rows. split_and!; [done|done|done|]. by rewrite En.
Qed.

(** Resync requests are never lost and never pile up: however requests,
    passes, failures, Stop and cancellation interleave, at most one loop runs
    per endpoint, its backoff stays within its bounds, and when no loop runs
    (and nothing was stopped) every accepted request was served by a pass that
    began after it and completed. *)
Theorem resync_serves r :
  rtc resyncStep noResync r ->
  (length (loops (rr_state r)) <= 1)%nat
  ∧ Forall (fun b => 5000000000 <= b <= 300000000000)%Z (backoffs (rr_state r))
  ∧ (loops (rr_state r) = [] -> resyncStopped (rr_state r) = false -> rr_ctxDone r = false -> owed r = false ∧ serving r = false).
Proof.
  intros Hr. assert (resyncInv r) as [(Hl & Hb & _ & Hg)|(ph & b & Hl & Hb & Hbd & _)].
  { assert (resyncInv noResync) as H0 by (left; by split_and!; [..|right]). revert H0. induction Hr as [|x y z Hxy _ IH]; [done|].
    intros Hx. apply IH. by eapply resync_step_inv. }
  - rewrite Hl, Hb. split_and!; [cbn; lia|done|]. intros _ Es Ec. rewrite Es, Ec in Hg. by destruct Hg.
  - rewrite Hl, Hb. split_and!; [done|repeat constructor; apply Hbd|done].
Qed.

(** A cap above the size of a batch does not slow the replay down at all. *)
Lemma high_cap_unthrottled cfg n : (Z.of_nat n < rpsOf cfg)%Z -> throttle cfg n = 0%Z.
Proof. intros Hn. unfold throttle. destruct (0 <? rpsOf cfg)%Z; [|done]. rewrite Z.quot_small; lia. Qed.

(** ** A run *)

Definition pRow (txid : string) (st : Status) : TransactionStatus :=
  mkTransactionStatus txid st 0 (Some 7%Z) [] "" 0 [] "" [] [x01] 0 None None [] None.
Definition replayNet (c : pcall) : panswer c :=
  match c with pIterate _ => ([pRow "a" StatusReceived; pRow "b" StatusMined; pRow "c" StatusSeenOnNetwork], None) | c => mutePeer c end.
Definition replayHandle (c : pcall) (s : unit) : panswer c * unit := (replayNet c, s).
Definition replayCfg : ReplayConfig := mkReplayConfig bConfig 0 None (-1) (-1) (Some 2%nat).
Definition replayRp : replayParams := mkReplayParams (toEndpoint "e") (Some 3%Z) 0 "e".

Lemma replay_exact_witness :
  let tr := run_trace replayHandle (replayTo replayCfg replayRp) tt in
  List.map rg_TxID (sent tr) = ["a"; "c"] ∧ Forall (fun b => length b <= 1000)%nat (batches tr).
Proof.
  cbn zeta. split; [vm_compute; reflexivity|].
  destruct (proj2 (replay_exact replayCfg replayRp _) _ (run_ends replayHandle (replayTo replayCfg replayRp) tt)) as (now & rows & _ & _ & _ & Hf); [|exact Hf].
  assert (∀ b, forallb (fun e => match e with Event pCtxDone true | Event (pSleep _) false => b | _ => true end) (run_trace replayHandle (replayTo replayCfg replayRp) tt) = true)
    as E by (intros b; vm_compute; reflexivity).
  specialize (E false). rewrite forallb_forall in E.
  split; [intros Hx|intros d Hx]; apply list_elem_of_In, E in Hx; discriminate Hx.
Defined.

Lemma resync_serves_witness :
  ∃ s, rtc resyncStep noResync (mkRun s false false false) ∧ loops s = [] ∧ (length (loops s) <= 1)%nat.
Proof.
  assert (rtc resyncStep noResync (mkRun (mkResyncState false false false [] []) false false false)) as Hr.
  { eapply rtc_l; [apply step_request|]. cbn. eapply rtc_l; [eapply (step_top _ _ _ _ 0); reflexivity|].
    eapply rtc_l; [eapply (step_pass _ _ _ _ 0 false); reflexivity|]. eapply rtc_l; [eapply (step_check _ _ _ _ 0); reflexivity|]. apply rtc_refl. }
  eexists. split; [exact Hr|]. split; [reflexivity|]. exact (proj1 (resync_serves _ Hr)).
Defined.
