(* ===== verification/MerklePool.v ===== *)
(** * MerklePool: the client pool of merkle-service

    Models [src/merkleservice/pool.go] and [client.go]: the bounded catch-up
    queue, the circuit breaker and the back-off of an endpoint as functions on
    its state, one per locked region ([epStep]), and the operations of the
    pool and of the client as programs over those regions and the HTTP
    exchanges.  The goroutines of one batch (one per endpoint, and up to
    [maxConcurrency] per endpoint) run one after the other; what they see of
    each other (a free slot, an open breaker, a context that is done) is an
    answer of the environment, which is arbitrary.  A JSON body is the record
    it encodes. *)
From stdpp Require Import base gmap strings list pretty.
From Stdlib Require Import Ascii ZArith Lia.
From S2P Require Import Prelude Models GoStrings Teranode Effects Verdicts Broadcast.

(** ** Errors *)

Inductive svcErr : Type :=
| RegisterError (StatusCode : Z) (Body : string)
| ReprocessErr (StatusCode : Z) (Body : string)
| probeError (StatusCode : Z)
| ErrNoHealthyEndpoints
| ErrContext
| ErrTransport (text : string).

#[export] Instance svcErr_eq_dec : EqDecision svcErr.
Proof. solve_decision. Defined.

Inductive callOutcome : Type := outcomeOK | outcomeAuth | outcome4xx | outcome5xx | outcomeNetwork | outcomeCanceled.

#[export] Instance callOutcome_eq_dec : EqDecision callOutcome.
Proof. solve_decision. Defined.

Definition statusCodeOf (err : svcErr) : option Z :=
  match err with
  | RegisterError code _ | ReprocessErr code _ | probeError code => Some code
  | _ => None
  end.

(** [ctxDone] is [ctx.Err() != nil]. *)
Definition classify (ctxDone : bool) (err : option svcErr) : callOutcome * bool :=
  match err with
  | None => (outcomeOK, false)
  | Some err =>
      if ctxDone then (outcomeCanceled, false)
      else match statusCodeOf err with
           | None => (outcomeNetwork, true)
           | Some code =>
               if (500 <=? code)%Z then (outcome5xx, true)
               else if (code =? 401)%Z || (code =? 403)%Z then (outcomeAuth, false)
               else (outcome4xx, false)
           end
  end.

(** A smaller rank is surfaced first. *)
Definition errRank (ctxDone : bool) (err : option svcErr) : Z :=
  match (classify ctxDone err).1 with
  | outcomeCanceled => 0
  | outcomeNetwork => 1
  | outcome5xx => 2
  | outcomeAuth => 3
  | _ => 4
  end.

Definition permanentRejection (err : svcErr) : bool :=
  match err with
  | RegisterError code _ =>
      if (code <? 400)%Z || (500 <=? code)%Z then false
      else if (code =? 401)%Z || (code =? 403)%Z || (code =? 408)%Z || (code =? 429)%Z then false
      else true
  | _ => false
  end.

(** ** The catch-up queue *)

Record catchupQueue : Type := mkQueue {
  q_max : Z;
  order : list string;
  byTxID : gmap string Registration;
  inflight : Z;
  dropped : Z;
  overflowed : bool
}.

Definition newCatchupQueue (capacity : Z) : catchupQueue := mkQueue capacity [] ∅ 0 0 false.

(** [for len(q.order) >= q.max && len(q.order) > 0]. *)
Fixpoint evict (ord : list string) (q : catchupQueue) : catchupQueue :=
  match ord with
  | [] => mkQueue (q_max q) [] (byTxID q) (inflight q) (dropped q) (overflowed q)
  | oldest :: rest =>
      if (q_max q <=? Z.of_nat (length ord))%Z
      then evict rest (mkQueue (q_max q) rest (delete oldest (byTxID q)) (inflight q) (dropped q + 1) true)
      else mkQueue (q_max q) ord (byTxID q) (inflight q) (dropped q) (overflowed q)
  end.

Definition add (reg : Registration) (q : catchupQueue) : catchupQueue :=
  match byTxID q !! rg_TxID reg with
  | Some _ => mkQueue (q_max q) (order q) (<[rg_TxID reg := reg]> (byTxID q)) (inflight q) (dropped q) (overflowed q)
  | None =>
      let q := evict (order q) q in
      mkQueue (q_max q) (order q ++ [rg_TxID reg]) (<[rg_TxID reg := reg]> (byTxID q)) (inflight q) (dropped q) (overflowed q)
  end.

(** A map lookup in Go gives the zero value for a key that is absent. *)
Definition zeroReg : Registration := mkRegistration "" "" "".

Definition take_ (n : nat) (q : catchupQueue) : list Registration * catchupQueue :=
  let front := take n (order q) in
  let out := List.map (fun txid => default zeroReg (byTxID q !! txid)) front in
  (out, mkQueue (q_max q) (drop n (order q)) (foldl (fun m txid => delete txid m) (byTxID q) front)
          (inflight q + Z.of_nat (length out)) (dropped q) (overflowed q)).

Definition settle (n : nat) (q : catchupQueue) : catchupQueue :=
  mkQueue (q_max q) (order q) (byTxID q) (inflight q - Z.of_nat n) (dropped q) (overflowed q).

Definition queueLen (q : catchupQueue) : Z := (Z.of_nat (length (order q)) + inflight q)%Z.

Definition drainedAfterOverflow (q : catchupQueue) : option Z * catchupQueue :=
  if negb (overflowed q) || (0 <? queueLen q)%Z then (None, q)
  else (Some (dropped q), mkQueue (q_max q) (order q) (byTxID q) (inflight q) 0 false).

(** ** An endpoint *)

Record endpoint : Type := mkEndpoint {
  ep_url : string;
  consecutiveFailures : Z;
  ep_open : bool;
  openedAt : Time;
  ep_lastFailureAt : Time;
  pending : catchupQueue;
  draining : bool;
  backoffTicks : Z;
  skipTicks : Z
}.

Definition withBreaker (failures : Z) (open : bool) (opened last : Time) (ep : endpoint) : endpoint :=
  mkEndpoint (ep_url ep) failures open opened last (pending ep) (draining ep) (backoffTicks ep) (skipTicks ep).
Definition withPending (q : catchupQueue) (ep : endpoint) : endpoint :=
  mkEndpoint (ep_url ep) (consecutiveFailures ep) (ep_open ep) (openedAt ep) (ep_lastFailureAt ep) q (draining ep) (backoffTicks ep) (skipTicks ep).
Definition withDrain (dr : bool) (bo sk : Z) (ep : endpoint) : endpoint :=
  mkEndpoint (ep_url ep) (consecutiveFailures ep) (ep_open ep) (openedAt ep) (ep_lastFailureAt ep) (pending ep) dr bo sk.

(** The locked part of [closeBreaker]. *)
Definition closeLocked (ep : endpoint) : endpoint :=
  if ep_open ep then withBreaker 0 false None (ep_lastFailureAt ep) ep else ep.

(** The locked parts of [record]: after an answer, and after a failure. *)
Definition resetFailures (ep : endpoint) : endpoint :=
  withBreaker 0 (ep_open ep) (openedAt ep) (ep_lastFailureAt ep) ep.

Definition countFailure (threshold : Z) (now : Time) (ep : endpoint) : endpoint :=
  let failures := (consecutiveFailures ep + 1)%Z in
  let trip := negb (ep_open ep) && (threshold <=? failures)%Z in
  withBreaker failures (ep_open ep || trip) (if trip then now else openedAt ep) now ep.

Definition catchupMaxBackoffTicks : Z := 12.

(** The switch of [catchupBatch] on its progress. *)
Definition adjustBackoff (progress : Z) (ctxDone : bool) (ep : endpoint) : endpoint :=
  if (progress =? 0)%Z && negb ctxDone then
    let bo := if (backoffTicks ep =? 0)%Z then 1%Z
              else if (backoffTicks ep <? catchupMaxBackoffTicks)%Z then (backoffTicks ep * 2)%Z else backoffTicks ep in
    withDrain (draining ep) bo bo ep
  else if (0 <? progress)%Z then withDrain (draining ep) 0 (skipTicks ep) ep
  else ep.

(** The locked part of [drainCatchup]: whether a drain starts. *)
Definition claimDrain (ep : endpoint) : bool * endpoint :=
  if ep_open ep || draining ep then (false, ep)
  else if (0 <? skipTicks ep)%Z then (false, withDrain (draining ep) (backoffTicks ep) (skipTicks ep - 1) ep)
  else (true, withDrain true (backoffTicks ep) (skipTicks ep) ep).

(** The locked regions of an endpoint and of its queue. *)
Inductive epOp : Type :=
| oIsOpen
| oReset
| oFail
| oClose
| oAdd (reg : Registration)
| oTake (n : nat)
| oSettle (n : nat)
| oDrained
| oClaim
| oRelease
| oBackoff (progress : Z) (ctxDone : bool).

Definition opAnswer (op : epOp) : Type :=
  match op with
  | oIsOpen | oReset | oClaim => bool
  | oTake _ => list Registration
  | oDrained => option Z
  | _ => unit
  end.

Definition epStep (threshold : Z) (now : Time) (op : epOp) (ep : endpoint) : opAnswer op * endpoint :=
  match op as o return opAnswer o * endpoint with
  | oIsOpen => (ep_open ep, ep)
  | oReset => (ep_open ep, resetFailures ep)
  | oFail => (tt, countFailure threshold now ep)
  | oClose => (tt, closeLocked ep)
  | oAdd reg => (tt, withPending (add reg (pending ep)) ep)
  | oTake n => let '(out, q) := take_ n (pending ep) in (out, withPending q ep)
  | oSettle n => (tt, withPending (settle n (pending ep)) ep)
  | oDrained => let '(r, q) := drainedAfterOverflow (pending ep) in (r, withPending q ep)
  | oClaim => claimDrain ep
  | oRelease => (tt, withDrain false (backoffTicks ep) (skipTicks ep) ep)
  | oBackoff progress ctxDone => (tt, adjustBackoff progress ctxDone ep)
  end.

(** ** Building a pool *)

Record Pool : Type := mkPool {
  endpoints : list endpoint;
  threshold : Z;
  queueSize : Z;
  authToken : string;
  resyncHooks : list nat
}.

Definition poolDefaultFailureThreshold : Z := 3.
Definition defaultCatchupQueueSize : Z := 200000.
Definition catchupBatchSize : nat := 500.

Definition WithFailureThreshold (n : Z) (p : Pool) : Pool :=
  if (0 <? n)%Z then mkPool (endpoints p) n (queueSize p) (authToken p) (resyncHooks p) else p.
Definition WithCatchupQueueSize (n : Z) (p : Pool) : Pool :=
  if (0 <? n)%Z then mkPool (endpoints p) (threshold p) n (authToken p) (resyncHooks p) else p.

Definition newEndpoint (size : Z) (u : string) : endpoint :=
  mkEndpoint u 0 false None None (newCatchupQueue size) false 0 0.

Definition trimURL (u : string) : string := Breaker.normalizeURL (TrimSpace u).

Fixpoint dedupURLs (seen : gset string) (baseURLs : list string) : list string :=
  match baseURLs with
  | [] => []
  | u :: rest =>
      let u := trimURL u in
      if String.eqb u "" then dedupURLs seen rest
      else if decide (u ∈ seen) then dedupURLs seen rest
      else u :: dedupURLs ({[ u ]} ∪ seen) rest
  end.

Definition NewPool (baseURLs : list string) (token : string) (opts : list (Pool -> Pool)) : Pool :=
  let p := foldl (fun p o => o p) (mkPool [] poolDefaultFailureThreshold defaultCatchupQueueSize token []) opts in
  mkPool (List.map (newEndpoint (queueSize p)) (dedupURLs ∅ baseURLs)) (threshold p) (queueSize p) token (resyncHooks p).

Definition Endpoints (p : Pool) : list string := List.map ep_url (endpoints p).

Definition Endpoint (p : Pool) (baseURL : string) : option string :=
  let u := trimURL baseURL in
  if existsb (fun ep => String.eqb (ep_url ep) u) (endpoints p) then Some u else None.

(** A hook is known by its number; a nil hook is [None]. *)
Definition OnResyncNeeded (fn : option nat) (p : Pool) : Pool :=
  match fn with
  | None => p
  | Some fn => mkPool (endpoints p) (threshold p) (queueSize p) (authToken p) (resyncHooks p ++ [fn])
  end.

Record EndpointStatus : Type := mkEndpointStatus {
  es_URL : string;
  es_Healthy : bool;
  es_ConsecutiveFailures : Z;
  es_LastFailureAt : option Time;
  es_OpenSince : option Time;
  es_CatchupPending : Z
}.

Definition endpointStatus (ep : endpoint) : EndpointStatus :=
  mkEndpointStatus (ep_url ep) (negb (ep_open ep)) (consecutiveFailures ep)
    (if IsZero (ep_lastFailureAt ep) then None else Some (ep_lastFailureAt ep))
    (if ep_open ep then Some (openedAt ep) else None) (queueLen (pending ep)).

Definition EndpointStatuses (p : Pool) : list EndpointStatus := List.map endpointStatus (endpoints p).

(** ** Calls *)

(** The context a request or a check uses: the caller's, that of the sends of
    one batch, that of a trial request. *)
Inductive ctxName : Type := ctxCaller | ctxSends | ctxTrial.

Inductive requestBody : Type :=
| watchRequest (TxID CallbackURL : string) (CallbackToken : option string)
| reprocessRequest (BlockHash CallbackURL : string) (CallbackToken : option string)
| noBody.

Record request : Type := mkRequest {
  rq_url : string;
  rq_bearer : option string;
  rq_body : requestBody
}.

(** What [http.Client.Do] gives: an error, or a status and a body. *)
Inductive httpAnswer : Type :=
| hFail (text : string)
| hResp (StatusCode : Z) (Body : string).

Inductive mcall : Type :=
| mDone (ctx : ctxName)
| mSlot (ctx : ctxName) (ep : string)
| mHTTP (ctx : ctxName) (ep : string) (rq : request)
| mOp (ep : string) (op : epOp)
| mGrace
| mCancelSends
| mHook (fn : nat) (url : string)
| mSpawnDrain (ep : string)
| mTick.

Definition manswer (c : mcall) : Type :=
  match c with
  | mDone _ | mSlot _ _ | mGrace | mTick => bool
  | mHTTP _ _ _ => httpAnswer
  | mOp _ op => opAnswer op
  | mCancelSends | mHook _ _ | mSpawnDrain _ => unit
  end.

Abbreviation MProg := (prog manswer).
Abbreviation MTrace := (trace manswer).

(** ** The client of one endpoint *)

(** [omitempty]. *)
Definition omitEmpty (s : string) : option string := if String.eqb s "" then None else Some s.

Definition watchOf (token url : string) (reg : Registration) : request :=
  mkRequest (Breaker.normalizeURL url ++ "/watch") (omitEmpty token)
    (watchRequest (rg_TxID reg) (rg_CallbackURL reg) (omitEmpty (rg_CallbackToken reg))).

Definition reprocessOf (token url blockHash callbackURL callbackToken : string) : request :=
  mkRequest (Breaker.normalizeURL url ++ "/reprocess") (omitEmpty token)
    (reprocessRequest blockHash callbackURL (omitEmpty callbackToken)).

Definition accepted2xx (code : Z) : bool := negb ((code <? 200)%Z || (300 <=? code)%Z).

Definition watchResult (resp : httpAnswer) : option svcErr :=
  match resp with
  | hFail text => Some (ErrTransport ("failed to register with merkle service: " ++ text))
  | hResp code body => if accepted2xx code then None else Some (RegisterError code (String.substring 0 512 body))
  end.

Definition reprocessResult (resp : httpAnswer) : option svcErr :=
  match resp with
  | hFail text => Some (ErrTransport ("post reprocess: " ++ text))
  | hResp code body => if accepted2xx code then None else Some (ReprocessErr code (String.substring 0 512 body))
  end.

Section Pool.
Variable token : string.

Definition ClientRegister (ctx : ctxName) (url : string) (reg : Registration) : MProg (option svcErr) :=
  resp ← perform (mHTTP ctx url (watchOf token url reg));
  mret (watchResult resp).

Definition ClientReprocess (ctx : ctxName) (url blockHash callbackURL callbackToken : string) : MProg (option svcErr) :=
  resp ← perform (mHTTP ctx url (reprocessOf token url blockHash callbackURL callbackToken));
  mret (reprocessResult resp).

(** [errgroup]: every request runs, the first error is returned. *)
Fixpoint ClientRegisterBatch (url : string) (regs : list Registration) : MProg (option svcErr) :=
  match regs with
  | [] => mret None
  | reg :: regs =>
      err ← ClientRegister ctxSends url reg;
      rest ← ClientRegisterBatch url regs;
      mret (match (err : option svcErr) with Some _ => err | None => rest end)
  end.

Fixpoint ClientRegisterBatchWithResults (url : string) (regs : list Registration) : MProg (list (option svcErr)) :=
  match regs with
  | [] => mret []
  | reg :: regs =>
      slot ← perform (mSlot ctxCaller url);
      err ← (if (slot : bool) then ClientRegister ctxCaller url reg else mret (Some ErrContext));
      rest ← ClientRegisterBatchWithResults url regs;
      mret (err :: rest)
  end.

(** ** The breaker around one call *)

(** [classify] reads the context only for an error. *)
Definition classifyIn (ctx : ctxName) (err : option svcErr) : MProg (callOutcome * bool) :=
  match err with
  | None => mret (outcomeOK, false)
  | Some _ => done ← perform (mDone ctx); mret (classify done err)
  end.

Definition record (ctx : ctxName) (url : string) (err : option svcErr) : MProg unit :=
  '(outcome, failure) ← classifyIn ctx err;
  if bool_decide (outcome = outcomeCanceled) then mret tt
  else if negb failure then
    wasOpen ← perform (mOp url oReset);
    if (wasOpen : bool) && bool_decide (err = None) then perform (mOp url oClose) else mret tt
  else perform (mOp url oFail).

(** ** One endpoint's part of a batch *)

(** Which context a result is judged by. *)
Definition classifyCtx (ctx sendCtx : ctxName) (acked : nat) (err : option svcErr) : MProg ctxName :=
  match err with
  | None => mret ctx
  | Some _ =>
      callerDone ← perform (mDone ctx);
      if (callerDone : bool) then mret ctx
      else sendDone ← perform (mDone sendCtx);
           mret (if (sendDone : bool) && (0 <? acked)%nat then sendCtx else ctx)
  end.

Fixpoint batchLoop (ctx sendCtx : ctxName) (url : string) (acked : nat) (regs : list Registration) : MProg (list (option svcErr)) :=
  match regs with
  | [] => mret []
  | reg :: regs =>
      slot ← perform (mSlot sendCtx url);
      if negb (slot : bool) then
        rest ← batchLoop ctx sendCtx url acked regs;
        mret (Some ErrContext :: rest)
      else
        isOpen ← perform (mOp url oIsOpen);
        if (isOpen : bool) then
          rest ← batchLoop ctx sendCtx url acked regs;
          mret (Some ErrNoHealthyEndpoints :: rest)
        else
          err ← ClientRegister sendCtx url reg;
          let acked := match err with None => S acked | Some _ => acked end in
          judge ← classifyCtx ctx sendCtx acked err;
          record judge url err ;;
          rest ← batchLoop ctx sendCtx url acked regs;
          mret (err :: rest)
  end.

Definition runEndpointBatch (ctx sendCtx : ctxName) (url : string) (regs : list Registration) : MProg (list (option svcErr)) :=
  batchLoop ctx sendCtx url 0 regs.

Fixpoint closedEndpoints (urls : list string) : MProg (list string) :=
  match urls with
  | [] => mret []
  | u :: urls =>
      isOpen ← perform (mOp u oIsOpen);
      rest ← closedEndpoints urls;
      mret (if (isOpen : bool) then rest else u :: rest)
  end.

(** ** Collecting the endpoints *)

Record collector : Type := mkCollector {
  perEndpoint : gmap string (list (option svcErr));
  cl_accepted : list bool;
  unaccepted : Z;
  grace : bool
}.

Definition newCollector (n : nat) : collector := mkCollector ∅ (replicate n false) (Z.of_nat n) false.

Inductive collectEvent : Type := cAck (j : nat) | cResult (ep : string) (res : list (option svcErr)).

(** An index is always that of a registration. *)
Definition accept (cl : collector) (j : nat) : collector :=
  if default true (cl_accepted cl !! j) then cl
  else mkCollector (perEndpoint cl) (<[j := true]> (cl_accepted cl)) (unaccepted cl - 1) (grace cl).

(** The indices of the nil entries. *)
Definition ackedAt (res : list (option svcErr)) : list nat :=
  omap (fun '(j, err) => match (err : option svcErr) with None => Some j | Some _ => None end) (imap pair res).

Definition collectEventStep (ev : collectEvent) (cl : collector) : collector :=
  match ev with
  | cAck j => accept cl j
  | cResult ep res =>
      foldl accept (mkCollector (<[ep := res]> (perEndpoint cl)) (cl_accepted cl) (unaccepted cl) (grace cl)) (ackedAt res)
  end.

(** One round of the loop after a receive: the timer is armed when every
    registration is accepted somewhere and some endpoint is still out. *)
Definition onEvent (targets : nat) (ev : collectEvent) (cl : collector) : MProg collector :=
  let cl := collectEventStep ev cl in
  if (unaccepted cl =? 0)%Z && negb (grace cl) && (size (perEndpoint cl) <? targets)%nat then
    sendDone ← perform (mDone ctxSends);
    mret (if (sendDone : bool) then cl else mkCollector (perEndpoint cl) (cl_accepted cl) (unaccepted cl) true)
  else mret cl.

Fixpoint onEvents (targets : nat) (evs : list collectEvent) (cl : collector) : MProg collector :=
  match evs with
  | [] => mret cl
  | ev :: evs => cl ← onEvent targets ev cl; onEvents targets evs cl
  end.

(** The receive from the timer, if it is armed. *)
Definition onGrace (cl : collector) : MProg collector :=
  if grace cl then
    fired ← perform mGrace;
    if (fired : bool) then perform mCancelSends ;; mret (mkCollector (perEndpoint cl) (cl_accepted cl) (unaccepted cl) false)
    else mret cl
  else mret cl.

Fixpoint collectTargets (n : nat) (targets : list string) (regs : list Registration) (cl : collector) : MProg collector :=
  match targets with
  | [] => mret cl
  | u :: targets =>
      cl ← onGrace cl;
      res ← runEndpointBatch ctxCaller ctxSends u regs;
      cl ← onEvents n (List.map cAck (ackedAt res) ++ [cResult u res]) cl;
      collectTargets n targets regs cl
  end.

Definition collectEndpointBatches (targets : list string) (regs : list Registration) : MProg (gmap string (list (option svcErr))) :=
  cl ← collectTargets (length targets) targets regs (newCollector (length regs));
  perform mCancelSends ;;
  mret (perEndpoint cl).

(** ** The pool's answer *)

Fixpoint mergeLoop (best : option svcErr) (bestRank : Z) (errs : list (option svcErr)) : MProg (option svcErr) :=
  match errs with
  | [] => mret best
  | None :: _ => mret None
  | Some err :: errs =>
      done ← perform (mDone ctxCaller);
      let r := errRank done (Some err) in
      if (r <? bestRank)%Z then mergeLoop (Some err) r errs else mergeLoop best bestRank errs
  end.

Definition mergeErrors (errs : list (option svcErr)) : MProg (option svcErr) := mergeLoop None maxInt64 errs.

(** The entries of one registration: what each target answered, and the
    endpoints skipped up front. *)
Definition candidatesAt (results : gmap string (list (option svcErr))) (targets : list string) (skipped : nat) (j : nat) : list (option svcErr) :=
  List.map (fun u => default None ((results !! u) ≫= (fun res => res !! j))) targets ++ replicate skipped (Some ErrNoHealthyEndpoints).

Fixpoint mergeAll (results : gmap string (list (option svcErr))) (targets : list string) (skipped : nat) (js : list nat) : MProg (list (option svcErr)) :=
  match js with
  | [] => mret []
  | j :: js =>
      err ← mergeErrors (candidatesAt results targets skipped j);
      rest ← mergeAll results targets skipped js;
      mret (err :: rest)
  end.

(** [res == nil || res[j] != nil]. *)
Definition missed (res : option (list (option svcErr))) (j : nat) : bool :=
  match res with None => true | Some res => match res !! j with Some None => false | _ => true end end.

Fixpoint queueMissed (url : string) (res : option (list (option svcErr))) (j : nat) (regs : list Registration) (out : list (option svcErr)) : MProg unit :=
  match regs, out with
  | reg :: regs, o :: out =>
      (match (o : option svcErr) with
       | Some _ => mret tt
       | None => if missed res j then perform (mOp url (oAdd reg)) else mret tt
       end) ;;
      queueMissed url res (S j) regs out
  | _, _ => mret tt
  end.

Fixpoint queueAll (results : gmap string (list (option svcErr))) (urls : list string) (regs : list Registration) (out : list (option svcErr)) : MProg unit :=
  match urls with
  | [] => mret tt
  | u :: urls => queueMissed u (results !! u) 0 regs out ;; queueAll results urls regs out
  end.

Definition RegisterBatchWithResults (urls : list string) (regs : list Registration) : MProg (list (option svcErr)) :=
  if (length regs =? 0)%nat then mret []
  else
    targets ← closedEndpoints urls;
    if (length targets =? 0)%nat then mret (replicate (length regs) (Some ErrNoHealthyEndpoints))
    else
      results ← collectEndpointBatches targets regs;
      out ← mergeAll results targets (length urls - length targets) (seq 0 (length regs));
      queueAll results urls regs out ;;
      mret out.

(** [errs[0]] of a batch of one. *)
Definition Register (urls : list string) (reg : Registration) : MProg (option svcErr) :=
  errs ← RegisterBatchWithResults urls [reg];
  mret (default None (head errs)).

Definition firstError (errs : list (option svcErr)) : option svcErr := head (omap id errs).

Definition RegisterBatch (urls : list string) (regs : list Registration) : MProg (option svcErr) :=
  errs ← RegisterBatchWithResults urls regs;
  mret (firstError errs).

Fixpoint reprocessTargets (targets : list string) (blockHash callbackURL callbackToken : string) : MProg (list (option svcErr)) :=
  match targets with
  | [] => mret []
  | u :: targets =>
      err ← ClientReprocess ctxCaller u blockHash callbackURL callbackToken;
      record ctxCaller u err ;;
      rest ← reprocessTargets targets blockHash callbackURL callbackToken;
      mret (err :: rest)
  end.

Definition Reprocess (urls : list string) (blockHash callbackURL callbackToken : string) : MProg (option svcErr) :=
  targets ← closedEndpoints urls;
  if (length targets =? 0)%nat then mret (Some ErrNoHealthyEndpoints)
  else
    errs ← reprocessTargets targets blockHash callbackURL callbackToken;
    mergeErrors (errs ++ replicate (length urls - length targets) (Some ErrNoHealthyEndpoints)).

(** [i >= len(errs) || errs[i] == nil || permanentRejection(errs[i])]. *)
Fixpoint retainOne (url : string) (regs : list Registration) (errs : list (option svcErr)) : MProg unit :=
  match regs, errs with
  | reg :: regs, err :: errs =>
      (match (err : option svcErr) with
       | None => mret tt
       | Some e => if permanentRejection e then mret tt else perform (mOp url (oAdd reg))
       end) ;;
      retainOne url regs errs
  | _, _ => mret tt
  end.

Fixpoint Retain (urls : list string) (regs : list Registration) (errs : list (option svcErr)) : MProg unit :=
  match urls with
  | [] => mret tt
  | u :: urls => retainOne u regs errs ;; Retain urls regs errs
  end.

(** ** One endpoint as a service *)

Definition endpointRegisterBatchWithResults (url : string) (regs : list Registration) : MProg (list (option svcErr)) :=
  if (length regs =? 0)%nat then mret []
  else
    out ← runEndpointBatch ctxCaller ctxCaller url regs;
    retainOne url regs out ;;
    mret out.

Definition endpointRegister (url : string) (reg : Registration) : MProg (option svcErr) :=
  errs ← endpointRegisterBatchWithResults url [reg];
  mret (default None (head errs)).

Definition endpointRegisterBatch (url : string) (regs : list Registration) : MProg (option svcErr) :=
  errs ← endpointRegisterBatchWithResults url regs;
  mret (firstError errs).

Definition endpointReprocess (url blockHash callbackURL callbackToken : string) : MProg (option svcErr) :=
  isOpen ← perform (mOp url oIsOpen);
  if (isOpen : bool) then mret (Some ErrNoHealthyEndpoints)
  else
    err ← ClientReprocess ctxCaller url blockHash callbackURL callbackToken;
    record ctxCaller url err ;;
    mret err.

(** ** The background loop *)

Definition probe (url : string) : MProg (option svcErr) :=
  resp ← perform (mHTTP ctxCaller url (mkRequest (url ++ "/health") None noBody));
  mret (match (resp : httpAnswer) with
        | hFail text => Some (ErrTransport text)
        | hResp code _ => if (500 <=? code)%Z then Some (probeError code) else None
        end).

Definition trialWatch (url : string) : MProg bool :=
  batch ← perform (mOp url (oTake 1));
  match (batch : list Registration) with
  | [] => mret true
  | reg :: _ =>
      err ← ClientRegister ctxTrial url reg;
      '(outcome, failure) ← classifyIn ctxCaller err;
      record ctxCaller url err ;;
      (match (err : option svcErr) with
       | Some e => if permanentRejection e then mret tt else perform (mOp url (oAdd reg))
       | None => mret tt
       end) ;;
      perform (mOp url (oSettle 1)) ;;
      mret (negb (bool_decide (outcome = outcomeCanceled) || failure))
  end.

Definition poolProbeEndpoint (url : string) : MProg unit :=
  err ← probe url;
  match (err : option svcErr) with
  | Some _ => mret tt
  | None =>
      answered ← trialWatch url;
      if (answered : bool) then perform (mOp url oClose) else mret tt
  end.

Fixpoint probeOpenEndpoints (urls : list string) : MProg unit :=
  match urls with
  | [] => mret tt
  | u :: urls =>
      isOpen ← perform (mOp u oIsOpen);
      (if (isOpen : bool) then poolProbeEndpoint u else mret tt) ;;
      probeOpenEndpoints urls
  end.

Record catchupResult : Type := mkCatchupResult {
  landed : Z;
  cr_dropped : Z
}.

Fixpoint requeueFailed (url : string) (batch : list Registration) (errs : list (option svcErr)) (r : catchupResult) : MProg catchupResult :=
  match batch, errs with
  | reg :: batch, err :: errs =>
      match (err : option svcErr) with
      | None => requeueFailed url batch errs (mkCatchupResult (landed r + 1) (cr_dropped r))
      | Some e =>
          if permanentRejection e then requeueFailed url batch errs (mkCatchupResult (landed r) (cr_dropped r + 1))
          else perform (mOp url (oAdd reg)) ;; requeueFailed url batch errs r
      end
  | _, _ => mret r
  end.

Definition sendCatchup (url : string) (batch : list Registration) : MProg catchupResult :=
  errs ← runEndpointBatch ctxCaller ctxCaller url batch;
  requeueFailed url batch errs (mkCatchupResult 0 0).

Definition catchupBatch (url : string) (batch : list Registration) : MProg unit :=
  r ← sendCatchup url batch;
  perform (mOp url (oSettle (length batch))) ;;
  done ← perform (mDone ctxCaller);
  perform (mOp url (oBackoff (landed r + cr_dropped r) (done : bool))) ;;
  mret tt.

Fixpoint fireHooks (hooks : list nat) (url : string) : MProg unit :=
  match hooks with
  | [] => mret tt
  | fn :: hooks => perform (mHook fn url) ;; fireHooks hooks url
  end.

Definition drainEndpoint (hooks : list nat) (url : string) : MProg unit :=
  batch ← perform (mOp url (oTake catchupBatchSize));
  (if (0 <? length (batch : list Registration))%nat then catchupBatch url batch else mret tt) ;;
  dropped ← perform (mOp url oDrained);
  match (dropped : option Z) with
  | Some _ => fireHooks hooks url
  | None => mret tt
  end.

(** The goroutine of one drain. *)
Definition drainRoutine (hooks : list nat) (url : string) : MProg unit :=
  drainEndpoint hooks url ;;
  perform (mOp url oRelease).

Fixpoint drainCatchup (urls : list string) : MProg unit :=
  match urls with
  | [] => mret tt
  | u :: urls =>
      done ← perform (mDone ctxCaller);
      if (done : bool) then mret tt
      else
        claimed ← perform (mOp u oClaim);
        (if (claimed : bool) then perform (mSpawnDrain u) else mret tt) ;;
        drainCatchup urls
  end.

Fixpoint loop (urls : list string) (ticks : nat) : MProg unit :=
  match ticks with
  | O => mret tt
  | S ticks =>
      go ← perform mTick;
      if (go : bool) then probeOpenEndpoints urls ;; drainCatchup urls ;; loop urls ticks else mret tt
  end.
End Pool.
