(* ===== verification/MerklePoolProps.v ===== *)
(** * MerklePoolProps: what the merkle-service pool promises

    The catch-up queue and the breaker under any interleaving of their locked
    regions, what each call of a batch is justified by, and how the background
    loop settles what is owed.  [MerklePoolPromise] says what the pool's answer
    to a batch means. *)
From stdpp Require Import base gmap strings list pretty.
From Stdlib Require Import Ascii ZArith Lia.
From S2P Require Import Prelude Models GoStrings Teranode Effects Verdicts Broadcast MerklePool.

(** ** The queue *)

Record queue_ok (capacity : Z) (q : catchupQueue) : Prop := {
  qo_max : q_max q = capacity;
  qo_nodup : NoDup (order q);
  qo_dom : ∀ t, t ∈ order q ↔ is_Some (byTxID q !! t);
  qo_keyed : ∀ t reg, byTxID q !! t = Some reg -> rg_TxID reg = t;
  qo_bound : (0 < capacity)%Z -> (Z.of_nat (length (order q)) <= capacity)%Z;
  qo_dropped : (0 <= dropped q)%Z ∧ (overflowed q = true ↔ (0 < dropped q)%Z)
}.

Lemma new_queue_ok capacity : queue_ok capacity (newCatchupQueue capacity).
Proof.
  constructor; cbn; try done; try lia.
  - constructor.
  - intros t. split; [by intros ?%elem_of_nil|]. by intros [? ?%lookup_empty_Some].
Qed.

(** What eviction leaves: a suffix of the order, and the flag if anything was
    dropped. *)
Lemma evict_spec capacity ord q :
  queue_ok capacity q -> order q = ord ->
  let q' := evict ord q in
  queue_ok capacity q' ∧ ((0 < capacity)%Z -> (Z.of_nat (length (order q')) < capacity)%Z)
  ∧ (∀ t, byTxID q' !! t = byTxID q !! t ∨ (overflowed q' = true ∧ byTxID q' !! t = None)) ∧ (overflowed q = true -> overflowed q' = true).
Proof.
  cbn zeta. revert q. induction ord as [|oldest rest IH]; intros q Hq E; cbn [evict].
  - destruct Hq as [? ? ? ? ? ?]. split_and!; [|cbn; lia|by left|done]. constructor; cbn; rewrite ?E in *; done.
  - destruct (Z.leb_spec (q_max q) (Z.of_nat (length (oldest :: rest)))).
    + set (q1 := mkQueue _ _ _ _ _ _). destruct Hq as [Hm Hn Hd Hk Hb [Hd0 Hdo]]. rewrite E in Hn, Hd, Hb. apply NoDup_cons in Hn as [Hni Hn].
      destruct (IH q1) as (H1 & H2 & H3 & H4); [|done|].
      { constructor; cbn; try done.
        - intros t. destruct (decide (t = oldest)) as [->|Hne].
          + rewrite lookup_delete_eq. split; [done|by intros [? ?]].
          + rewrite lookup_delete_ne by done. rewrite <-Hd, elem_of_cons. naive_solver.
        - intros t reg. destruct (decide (t = oldest)) as [->|Hne]; [by rewrite lookup_delete_eq|rewrite lookup_delete_ne by done; apply Hk].
        - intros Hc. specialize (Hb Hc). cbn in Hb. lia.
        - split; [lia|]. split; [lia|done]. }
      split_and!; [done|done| |intros _; by apply H4].
      intros t. destruct (H3 t) as [Et|?]; [|by right]. cbn in Et. destruct (decide (t = oldest)) as [->|Hne].
      * right. split; [by apply H4|]. rewrite Et. apply lookup_delete_eq.
      * left. rewrite Et. by apply lookup_delete_ne.
    + destruct Hq as [Hm ? ? ? ? ?]. split_and!; [|intros _; by rewrite <-Hm|by left|done]. constructor; cbn; rewrite ?E in *; done.
Qed.

(** After [add] the registration is queued; others stay, are replaced by it,
    or were dropped with the flag set. *)
Lemma add_spec capacity reg q :
  queue_ok capacity q ->
  queue_ok capacity (add reg q) ∧ byTxID (add reg q) !! rg_TxID reg = Some reg
  ∧ (∀ t, t ≠ rg_TxID reg -> byTxID (add reg q) !! t = byTxID q !! t ∨ overflowed (add reg q) = true)
  ∧ (overflowed q = true -> overflowed (add reg q) = true).
Proof.
  intros Hq. unfold add. destruct (byTxID q !! rg_TxID reg) as [old|] eqn:E.
  - destruct Hq as [? ? Hd Hk ? ?]. split_and!; cbn; [|by rewrite lookup_insert_eq|intros t Hne; left; by apply lookup_insert_ne|done].
    constructor; cbn; try done.
    + intros t. rewrite Hd. destruct (decide (t = rg_TxID reg)) as [->|Hne]; [rewrite lookup_insert_eq, E; naive_solver|by rewrite lookup_insert_ne].
    + intros t r. destruct (decide (t = rg_TxID reg)) as [->|Hne]; [rewrite lookup_insert_eq; by intros [= <-]|rewrite lookup_insert_ne by done; apply Hk].
  - destruct (evict_spec capacity (order q) q Hq eq_refl) as (Hok & Hlt & Hsame & Hov). set (q' := evict (order q) q) in *.
    assert (byTxID q' !! rg_TxID reg = None) as En by (destruct (Hsame (rg_TxID reg)) as [->|[_ ?]]; done).
    destruct Hok as [Hm Hn Hd Hk Hb Hdr]. split_and!; cbn; [|by rewrite lookup_insert_eq| |done].
    + constructor; cbn; try done.
      * apply NoDup_app. split_and!; [done| |apply NoDup_singleton].
        intros t Ht ?%list_elem_of_singleton. subst t. apply Hd in Ht. rewrite En in Ht. by destruct Ht.
      * intros t. rewrite elem_of_app, list_elem_of_singleton, Hd.
        destruct (decide (t = rg_TxID reg)) as [->|Hne]; [rewrite lookup_insert_eq; naive_solver|rewrite lookup_insert_ne by done; naive_solver].
      * intros t r. destruct (decide (t = rg_TxID reg)) as [->|Hne]; [rewrite lookup_insert_eq; by intros [= <-]|rewrite lookup_insert_ne by done; apply Hk].
      * intros Hc. specialize (Hlt Hc). rewrite length_app. cbn. lia.
    + intros t Hne. rewrite lookup_insert_ne by done. destruct (Hsame t) as [->|[? _]]; [by left|by right].
Qed.

Lemma foldl_delete_lookup (ks : list string) (m : gmap string Registration) t :
  foldl (fun m k => delete k m) m ks !! t = if decide (t ∈ ks) then None else m !! t.
Proof.
  revert m. induction ks as [|k ks IH]; intros m; cbn; [by destruct (decide _) as [?%elem_of_nil|]|].
  rewrite IH. destruct (decide (t = k)) as [->|Hne]; [rewrite lookup_delete_eq|rewrite lookup_delete_ne by done];
    repeat case_decide; set_solver.
Qed.

(** [take]: what is taken, and what stays. *)
Lemma take_spec capacity n q :
  queue_ok capacity q ->
  let '(out, q') := take_ n q in
  queue_ok capacity q' ∧ overflowed q' = overflowed q
  ∧ (∀ t reg, byTxID q !! t = Some reg -> byTxID q' !! t = Some reg ∨ reg ∈ out).
Proof.
  intros [Hm Hn Hd Hk Hb Hdr]. cbn. rewrite <-(take_drop n (order q)) in Hn. apply NoDup_app in Hn as (Hn1 & Hdis & Hn2).
  split_and!; [|done|].
  - constructor; cbn; try done.
    + intros t. rewrite foldl_delete_lookup. destruct (decide (t ∈ take n (order q))) as [Hi|Hni].
      * split; [intros ?; by destruct (Hdis t)|by intros [? ?]].
      * rewrite <-Hd. rewrite <-(take_drop n (order q)) at 2. rewrite elem_of_app. naive_solver.
    + intros t reg. rewrite foldl_delete_lookup. destruct (decide _); [done|apply Hk].
    + intros Hc. specialize (Hb Hc). rewrite length_drop. lia.
  - intros t reg E. rewrite foldl_delete_lookup. destruct (decide (t ∈ take n (order q))) as [Hi|]; [right|by left].
    apply list_elem_of_In, in_map_iff. exists t. split; [by rewrite E|by apply list_elem_of_In].
Qed.

(** ** Any interleaving of the locked regions of one endpoint *)

Record opEvent : Type := OpEvent { oe_op : epOp; oe_answer : opAnswer oe_op }.

Inductive epReach (threshold : Z) (ep0 : endpoint) : list opEvent -> endpoint -> Prop :=
| reach_start : epReach threshold ep0 [] ep0
| reach_step tr ep op now :
    epReach threshold ep0 tr ep ->
    epReach threshold ep0 (tr ++ [OpEvent op (epStep threshold now op ep).1]) (epStep threshold now op ep).2.

(** The waits of the back-off. *)
Definition backoffs : list Z := [0; 1; 2; 4; 8; 16]%Z.

Record endpoint_ok (threshold capacity : Z) (ep : endpoint) : Prop := {
  eo_queue : queue_ok capacity (pending ep);
  eo_failures : (0 <= consecutiveFailures ep)%Z;
  eo_closed : ep_open ep = false -> (0 < threshold)%Z -> (consecutiveFailures ep < threshold)%Z;
  eo_opened : ep_open ep = false -> openedAt ep = None;
  eo_backoff : backoffTicks ep ∈ backoffs;
  eo_skip : (0 <= skipTicks ep <= 16)%Z
}.

Lemma adjust_ok progress ctxDone ep :
  backoffTicks ep ∈ backoffs -> (0 <= skipTicks ep <= 16)%Z ->
  backoffTicks (adjustBackoff progress ctxDone ep) ∈ backoffs ∧ (0 <= skipTicks (adjustBackoff progress ctxDone ep) <= 16)%Z.
Proof.
  intros Hb Hs. unfold adjustBackoff. destruct ((progress =? 0)%Z && negb ctxDone); [|destruct (0 <? progress)%Z; [|done]; cbn; split; [|done]; by left].
  unfold backoffs in Hb. rewrite !elem_of_cons, elem_of_nil in Hb. unfold catchupMaxBackoffTicks.
  destruct Hb as [Hb|[Hb|[Hb|[Hb|[Hb|[Hb|[]]]]]]]; rewrite Hb; cbn; unfold backoffs; set_solver by lia.
Qed.

Lemma step_ok th capacity now op ep : endpoint_ok th capacity ep -> endpoint_ok th capacity (epStep th now op ep).2.
Proof.
  intros [Hq Hf Hc Ho Hb Hs]. destruct op; cbn [epStep].
  - by constructor.
  - constructor; cbn; try done; lia.
  - constructor; cbn; try done; [lia|..].
    + intros [Hop Ht]%orb_false_iff Hth. rewrite Hop in Ht. cbn in Ht. apply Z.leb_gt in Ht. lia.
    + intros [Hop Ht]%orb_false_iff. rewrite Ht. by apply Ho.
  - unfold closeLocked. destruct (ep_open ep) eqn:E; constructor; cbn; try done; try lia; auto.
  - destruct (add_spec capacity reg _ Hq) as (? & _). by constructor.
  - pose proof (take_spec capacity n _ Hq) as Ht. destruct (take_ n (pending ep)) as [out q']. destruct Ht as (? & _). by constructor.
  - constructor; cbn; try done. by destruct Hq; constructor.
  - unfold drainedAfterOverflow. destruct (negb _ || _); constructor; cbn; try done. destruct Hq; constructor; cbn; try done.
  - unfold claimDrain. destruct (ep_open ep || draining ep); [by constructor|]. destruct (Z.ltb_spec 0 (skipTicks ep)); constructor; cbn; try done; lia.
  - by constructor.
  - destruct (adjust_ok progress ctxDone ep Hb Hs) as [Hb' Hs'].
    unfold adjustBackoff in *. destruct ((progress =? 0)%Z && negb ctxDone); [by constructor|]. destruct (0 <? progress)%Z; by constructor.
Qed.

Lemma new_endpoint_ok th capacity url : endpoint_ok th capacity (newEndpoint capacity url).
Proof. constructor; cbn; try done; try lia; [apply new_queue_ok|by left]. Qed.

Lemma reach_ok th capacity url tr ep : epReach th (newEndpoint capacity url) tr ep -> endpoint_ok th capacity ep.
Proof. intros Hr. induction Hr; [apply new_endpoint_ok|by apply step_ok]. Qed.

(** What became of a registration that was added with [tr] done since. *)
Definition kept (tr : list opEvent) (reg : Registration) (ep : endpoint) : Prop :=
  (∃ reg', byTxID (pending ep) !! rg_TxID reg = Some reg' ∧ (reg' = reg ∨ OpEvent (oAdd reg') tt ∈ tr))
  ∨ (∃ n out reg', OpEvent (oTake n) out ∈ tr ∧ reg' ∈ out ∧ rg_TxID reg' = rg_TxID reg)
  ∨ overflowed (pending ep) = true
  ∨ ∃ n, OpEvent oDrained (Some n) ∈ tr.

Lemma kept_step th capacity now op tr reg ep :
  endpoint_ok th capacity ep -> kept tr reg ep ->
  kept (tr ++ [OpEvent op (epStep th now op ep).1]) reg (epStep th now op ep).2.
Proof.
  intros Hok [(reg' & E & Hr)|[(n & out & reg' & H1 & H2 & H3)|[Hov|[n Hn]]]].
  2: right; left; exists n, out, reg'; split_and!; [apply elem_of_app; by left|done..].
  3: right; right; right; exists n; apply elem_of_app; by left.
  - assert (∀ e ep', byTxID (pending ep') = byTxID (pending ep) -> kept (tr ++ [e]) reg ep') as Hsame.
    { intros e ep' E'. left. exists reg'. rewrite E'. split; [done|]. destruct Hr as [?|Hr]; [by left|right; apply elem_of_app; by left]. }
    destruct op; cbn [epStep]; try (by apply Hsame).
    + unfold closeLocked. apply Hsame. by destruct (ep_open ep).
    + destruct (add_spec capacity reg0 _ (eo_queue _ _ _ Hok)) as (_ & Hin & Hoth & _). destruct (decide (rg_TxID reg = rg_TxID reg0)) as [Eid|Hne].
      * left. exists reg0. cbn. rewrite Eid. split; [done|]. right. apply snoc_here.
      * destruct (Hoth _ Hne) as [Es|Ho]; [|right; right; by left]. left. exists reg'. cbn. rewrite Es. split; [done|].
        destruct Hr as [?|Hr]; [by left|right; apply elem_of_app; by left].
    + pose proof (take_spec capacity n _ (eo_queue _ _ _ Hok)) as Ht. destruct (take_ n (pending ep)) as [out q'] eqn:Et.
      destruct Ht as (_ & _ & Ht). destruct (Ht _ _ E) as [Es|Ho]; cbn.
      * left. exists reg'. split; [done|]. destruct Hr as [?|Hr]; [by left|right; apply elem_of_app; by left].
      * right. left. exists n, out, reg'. split_and!; [apply snoc_here|done|]. by apply (qo_keyed _ _ (eo_queue _ _ _ Hok)).
    + unfold drainedAfterOverflow. destruct (negb _ || _); cbn; by apply Hsame.
    + unfold claimDrain. destruct (ep_open ep || draining ep); [by apply Hsame|]. destruct (0 <? skipTicks ep)%Z; by apply Hsame.
    + unfold adjustBackoff. apply Hsame. destruct ((progress =? 0)%Z && negb ctxDone); [done|]. by destruct (0 <? progress)%Z.
  - assert (∀ e ep', overflowed (pending ep') = true -> kept (tr ++ [e]) reg ep') as Hsame by (intros e ep' ?; right; right; by left).
    destruct op; cbn [epStep]; try (by apply Hsame).
    + unfold closeLocked. apply Hsame. by destruct (ep_open ep).
    + apply Hsame. destruct (add_spec capacity reg0 _ (eo_queue _ _ _ Hok)) as (_ & _ & _ & Ho). by apply Ho.
    + unfold drainedAfterOverflow. destruct (negb _ || _); cbn; [by apply Hsame|]. right. right. right. eexists. apply snoc_here.
    + unfold claimDrain. destruct (ep_open ep || draining ep); [by apply Hsame|]. destruct (0 <? skipTicks ep)%Z; by apply Hsame.
    + unfold adjustBackoff. apply Hsame. destruct ((progress =? 0)%Z && negb ctxDone); [done|]. by destruct (0 <? progress)%Z.
Qed.

(** C39: A registration an endpoint owes is not lost.  However the hot path, the
    probes and the drains interleave on one endpoint: its queue never exceeds
    its size and holds one entry per transaction; a closed breaker has fewer
    failures in a row than the threshold; and a registration that was added
    is still queued (perhaps renewed), was taken for a send, or was dropped,
    and then the queue is marked as overflowed until a resync is requested. *)
Theorem catchup_owes th capacity url tr1 reg tr2 ep :
  epReach th (newEndpoint capacity url) (tr1 ++ OpEvent (oAdd reg) tt :: tr2) ep ->
  endpoint_ok th capacity ep ∧ kept tr2 reg ep.
Proof.
  intros Hr. split; [by eapply reach_ok|]. remember (tr1 ++ OpEvent (oAdd reg) tt :: tr2) as tr eqn:E. revert tr2 E.
  induction Hr as [|tr ep op now Hr IH]; intros tr2 E; [by destruct tr1|].
  destruct tr2 as [|e tr2] using rev_ind.
  - apply app_inj_tail in E as [_ E]. assert (op = oAdd reg) as -> by (by apply (f_equal oe_op) in E). cbn [epStep].
    destruct (add_spec capacity reg _ (eo_queue _ _ _ (reach_ok _ _ _ _ _ Hr))) as (_ & Hin & _). left. exists reg. by split; [|left].
  - rewrite app_comm_cons, app_assoc in E. apply app_inj_tail in E as [E1 <-]. eapply kept_step; [by eapply reach_ok|]. by apply IH.
Qed.

(** The back-off doubles past the cap it is documented to have. *)
Lemma backoff_exceeds_cap :
  let stuck := fun ep => adjustBackoff 0 false ep in
  backoffTicks (stuck (stuck (stuck (stuck (stuck (newEndpoint 10 "e")))))) = 16%Z ∧ (catchupMaxBackoffTicks < 16)%Z.
Proof. done. Qed.

(** ** What the pool does with a batch *)

Lemma grows_more {A} (tr mid : list A) : tr ⊆ tr ++ mid.
Proof. intros x Hx. apply elem_of_app. by left. Qed.

Section Programs.
Variable token : string.

Abbreviation Ev := (Event (answer := manswer)).

(** [tr] shows what the endpoint made of a registration. *)
Definition answeredWith (tr : MTrace) (url : string) (reg : Registration) (err : option svcErr) : Prop :=
  (∃ ctx resp, Ev (mHTTP ctx url (watchOf token url reg)) resp ∈ tr ∧ watchResult resp = err)
  ∨ (err = Some ErrContext ∧ ∃ ctx, Ev (mSlot ctx url) false ∈ tr)
  ∨ (err = Some ErrNoHealthyEndpoints ∧ Ev (mOp url oIsOpen) true ∈ tr).

(** The endpoint answered the request for the registration with an error. *)
Definition refused (tr : MTrace) (url : string) (reg : Registration) (err : svcErr) : Prop :=
  ∃ ctx resp, Ev (mHTTP ctx url (watchOf token url reg)) resp ∈ tr ∧ watchResult resp = Some err.

Definition acked (tr : MTrace) (url : string) (reg : Registration) : Prop :=
  ∃ ctx code body, Ev (mHTTP ctx url (watchOf token url reg)) (hResp code body) ∈ tr ∧ (200 <= code < 300)%Z.

Lemma answered_grows tr tr' url reg err : tr ⊆ tr' -> answeredWith tr url reg err -> answeredWith tr' url reg err.
Proof. intros Hs [(ctx & resp & ? & ?)|[(? & ctx & ?)|[? ?]]]; [left; by exists ctx, resp; auto|right; left; split; [done|]; exists ctx; auto|right; right; auto]. Qed.

Lemma answered_acked tr url reg : answeredWith tr url reg None -> acked tr url reg.
Proof.
  intros [(ctx & resp & Hin & E)|[[? _]|[? _]]]; try done. destruct resp as [|code body]; [done|]. cbn in E.
  unfold accepted2xx in E. destruct (code <? 200)%Z eqn:E1, (300 <=? code)%Z eqn:E2; try done. exists ctx, code, body. split; [done|lia].
Qed.

Lemma acked_grows tr tr' url reg : tr ⊆ tr' -> acked tr url reg -> acked tr' url reg.
Proof. intros Hs (ctx & code & body & ? & ?). exists ctx, code, body. auto. Qed.

Lemma answered_all_grows tr tr' url regs res :
  tr ⊆ tr' -> Forall2 (answeredWith tr url) regs res -> Forall2 (answeredWith tr' url) regs res.
Proof. intros Hs H. eapply Forall2_impl; [exact H|]. intros reg err. by apply answered_grows. Qed.

(** What one endpoint's part of a batch may do, given what was done in it. *)
Definition batchMay (url : string) (regs : list Registration) (tr : MTrace) (c : mcall) : Prop :=
  match c with
  | mDone _ | mSlot _ _ => True
  | mHTTP _ u rq => u = url ∧ Ev (mOp url oIsOpen) false ∈ tr ∧ ∃ reg, reg ∈ regs ∧ rq = watchOf token url reg
  | mOp u oIsOpen | mOp u oReset => u = url
  | mOp u oFail => u = url ∧ ∃ reg err, reg ∈ regs ∧ refused tr url reg err ∧ (classify false (Some err)).2 = true
  | mOp u oClose => u = url ∧ ∃ reg, reg ∈ regs ∧ acked tr url reg
  | _ => False
  end.

Abbreviation mwp g := (wp g (fun _ _ => True)).

Lemma mwp_weaken {A} (g g' : MTrace -> mcall -> Prop) (p : MProg A) tr Q : (∀ t c, g t c -> g' t c) -> mwp g p tr Q -> mwp g' p tr Q.
Proof. intros Hg. apply wp_weaken; done. Qed.

Lemma classify_failure d err o : classify d err = (o, true) -> (classify false err).2 = true.
Proof. destruct err as [e|]; [|done]. unfold classify. destruct d; [done|]. by intros ->. Qed.

Lemma record_wp (g : MTrace -> mcall -> Prop) ctx url err tr (Q : unit -> MTrace -> Prop) :
  (∀ mid, g (tr ++ mid) (mDone ctx)) -> (∀ mid, g (tr ++ mid) (mOp url oReset)) ->
  (err = None -> ∀ mid, g (tr ++ mid) (mOp url oClose)) ->
  (∀ e, err = Some e -> (classify false (Some e)).2 = true -> ∀ mid, g (tr ++ mid) (mOp url oFail)) ->
  (∀ mid, Q tt (tr ++ mid)) -> mwp g (record ctx url err) tr Q.
Proof.
  intros Hd Hr Hc Hf HQ. unfold record. wp_go.
  assert (∀ mid oc, (oc.2 = true -> ∃ e, err = Some e ∧ (classify false (Some e)).2 = true) -> mwp g
     (let '(outcome, failure) := oc in
      if bool_decide (outcome = outcomeCanceled) then mret tt
      else if negb failure then
        wasOpen ← perform (mOp url oReset);
        if (wasOpen : bool) && bool_decide (err = None) then perform (mOp url oClose) else mret tt
      else perform (mOp url oFail)) (tr ++ mid) Q) as Hgo.
  { intros mid [o f] Hfail. case_bool_decide; [wp_go; apply HQ|]. destruct f; cbn [negb].
    - destruct (Hfail eq_refl) as (e & Ee & He). wp_ask u ltac:(by apply (Hf e)); destruct u; rewrite <-app_assoc; apply HQ.
    - wp_go. wp_ask wasOpen ltac:(apply Hr). rewrite <-app_assoc. destruct (wasOpen && bool_decide (err = None)) eqn:E.
      + apply andb_true_iff in E as [_ E%bool_decide_eq_true_1].
        wp_ask u ltac:(by apply Hc). destruct u. rewrite <-app_assoc. apply HQ.
      + wp_go. apply HQ. }
  unfold classifyIn. destruct err as [e|].
  - wp_go. wp_ask d ltac:(specialize (Hd []); by rewrite app_nil_r in Hd). wp_go. apply Hgo. intros Hfl. exists e. split; [done|].
    eapply (classify_failure d _ (classify d (Some e)).1). by rewrite <-Hfl, <-surjective_pairing.
  - wp_go. specialize (Hgo [] (outcomeOK, false)). rewrite app_nil_r in Hgo. by apply Hgo.
Qed.

Lemma batchLoop_wp ctx sendCtx url n regs all base mid :
  regs ⊆ all ->
  mwp (fun t c => ∃ m, t = base ++ m ∧ batchMay url all m c) (batchLoop token ctx sendCtx url n regs) (base ++ mid)
    (fun res t => ∃ m, t = base ++ m ∧ mid ⊆ m ∧ Forall2 (answeredWith m url) regs res).
Proof.
  revert n mid. induction regs as [|reg regs IH]; intros n mid Hall; cbn [batchLoop].
  { wp_go. by exists mid. }
  assert (regs ⊆ all) as Hrest by (intros x Hx; apply Hall; by right).
  assert (reg ∈ all) as Hin by (apply Hall; by left).
  assert (∀ n e more err, answeredWith (mid ++ more) url reg err -> e = err -> mwp (fun t c => ∃ m, t = base ++ m ∧ batchMay url all m c)
      (rest ← batchLoop token ctx sendCtx url n regs; mret (e :: rest)) (base ++ mid ++ more)
      (fun res t => ∃ m, t = base ++ m ∧ mid ⊆ m ∧ Forall2 (answeredWith m url) (reg :: regs) res)) as Hgo.
  { intros k e more err Ha ->. wp_go. eapply wp_mono; [by apply IH|]. intros res t (m & -> & Hs & Hf). wp_go. exists m. split; [done|].
    split; [intros x Hx; apply Hs, elem_of_app; by left|]. constructor; [by eapply answered_grows|done]. }
  wp_go. wp_ask slot ltac:(by exists mid). rewrite <-app_assoc. destruct slot; cbn [negb].
  2:{ eapply Hgo; [|done]. right. left. split; [done|]. exists sendCtx. apply snoc_here. }
  wp_go. wp_ask isOpen ltac:(by eexists). rewrite <-!app_assoc. destruct isOpen.
  { eapply Hgo; [|done]. right. right. split; [done|]. rewrite app_assoc. apply snoc_here. }
  unfold ClientRegister. wp_go. wp_ask resp ltac:(eexists; split; [done|]; split; [done|]; split; [rewrite app_assoc; apply snoc_here|by exists reg]).
  rewrite <-!app_assoc. set (more := [_] ++ [_] ++ [_]). wp_go.
  assert (answeredWith (mid ++ more) url reg (watchResult resp)) as Ha.
  { left. exists sendCtx, resp. split; [|done]. unfold more. rewrite !app_assoc. apply snoc_here. }
  assert (∀ cc more', more ⊆ more' -> mwp (fun t c => ∃ m, t = base ++ m ∧ batchMay url all m c)
     (record cc url (watchResult resp) ;; rest ← batchLoop token ctx sendCtx url (match watchResult resp with None => S n | Some _ => n end) regs; mret (watchResult resp :: rest))
     (base ++ mid ++ more') (fun res t => ∃ m, t = base ++ m ∧ mid ⊆ m ∧ Forall2 (answeredWith m url) (reg :: regs) res)) as Hrec.
  { intros cc more' Hm. assert (∀ m, answeredWith (mid ++ more' ++ m) url reg (watchResult resp)) as Ha'.
    { intros m. eapply answered_grows; [|exact Ha]. intros x [?|?]%elem_of_app; apply elem_of_app; [by left|right]. apply elem_of_app. left. by apply Hm. }
    wp_go. apply record_wp.
    - intros m. eexists. rewrite <-!app_assoc. split; [done|]. done.
    - intros m. eexists. rewrite <-!app_assoc. split; [done|]. done.
    - intros E m. eexists. rewrite <-!app_assoc. split; [done|]. split; [done|]. exists reg. split; [done|]. apply answered_acked. rewrite <-E. apply Ha'.
    - intros e E He m. eexists. rewrite <-!app_assoc. split; [done|]. split; [done|]. exists reg, e. split_and!; [done| |done].
      exists sendCtx, resp. split; [|done]. apply elem_of_app. right. apply elem_of_app. left. apply Hm. unfold more. rewrite app_assoc. apply snoc_here.
    - intros m. rewrite <-!app_assoc. eapply Hgo; [|done]. apply Ha'. }
  unfold classifyCtx. destruct (watchResult resp) as [e|] eqn:Ee.
  - wp_go. wp_ask callerDone ltac:(by eexists). rewrite <-!app_assoc. destruct callerDone; [apply wp_ret, Hrec, grows_more|].
    apply wp_bind. wp_ask sendDone ltac:(by eexists). apply wp_ret. rewrite <-!app_assoc. apply Hrec, grows_more.
  - apply wp_ret. by apply Hrec.
Qed.

Lemma closed_wp urls tr :
  mwp (fun _ c => ∃ u, u ∈ urls ∧ c = mOp u oIsOpen) (closedEndpoints urls) tr
    (fun targets t => tr ⊆ t ∧ targets `sublist_of` urls ∧ (∀ u, u ∈ urls -> u ∈ targets ∨ Ev (mOp u oIsOpen) true ∈ t)).
Proof.
  revert tr. induction urls as [|u urls IH]; intros tr; cbn [closedEndpoints].
  { wp_go. split_and!; [done|constructor|by intros ? ?%elem_of_nil]. }
  wp_go. wp_ask isOpen ltac:(exists u; split; [by left|done]). wp_go.
  eapply wp_mono; [eapply mwp_weaken; [|apply IH]; intros t c (v & Hv & ->); exists v; split; [by right|done]|].
  intros rest t (Hs & Hsub & Hall). apply snoc_grows in Hs as [Hs Hin]. wp_go. destruct isOpen.
  - split_and!; [done|by constructor|]. intros v [->|Hv]%elem_of_cons; [by right|by apply Hall].
  - split_and!; [done|by constructor|]. intros v [->|Hv]%elem_of_cons; [left; by left|]. destruct (Hall v Hv); [left; by right|by right].
Qed.

(** The collector keeps the last result of each endpoint. *)
Lemma foldl_accept_results js cl : perEndpoint (foldl accept cl js) = perEndpoint cl.
Proof. revert cl. induction js as [|j js IH]; intros cl; cbn; [done|]. rewrite IH. unfold accept. by destruct (default true _). Qed.

Lemma onEvents_wp n evs cl tr :
  mwp (fun _ c => c = mDone ctxSends) (onEvents n evs cl) tr
    (fun cl' t => tr ⊆ t ∧ perEndpoint cl' = perEndpoint (foldl (fun cl ev => collectEventStep ev cl) cl evs)).
Proof.
  revert cl tr. induction evs as [|ev evs IH]; intros cl tr; cbn [onEvents]; [by wp_go|].
  assert (∀ (a b : collector), perEndpoint a = perEndpoint b ->
    perEndpoint (foldl (fun cl ev => collectEventStep ev cl) a evs) = perEndpoint (foldl (fun cl ev => collectEventStep ev cl) b evs)) as Hext.
  { clear. induction evs as [|ev evs IH]; intros a b E; cbn; [done|]. apply IH. destruct ev as [j|ep res]; cbn.
    - unfold accept. by destruct (default true (cl_accepted a !! j)), (default true (cl_accepted b !! j)).
    - rewrite !foldl_accept_results. cbn. by rewrite E. }
  unfold onEvent. wp_go. destruct (_ && _ && _); wp_go.
  - wp_ask sendDone idtac. wp_go. eapply wp_mono; [apply IH|]. intros cl' t [Hs E]. apply snoc_grows in Hs as [Hs _]. split; [done|]. rewrite E. cbn. apply Hext. by destruct sendDone.
  - eapply wp_mono; [apply IH|]. intros cl' t [Hs E]. split; [done|]. by rewrite E.
Qed.

Lemma acks_results js cl : perEndpoint (foldl (fun cl ev => collectEventStep ev cl) cl (List.map cAck js)) = perEndpoint cl.
Proof. revert cl. induction js as [|j js IH]; intros cl; cbn; [done|]. rewrite IH. unfold accept. by destruct (default true _). Qed.

(** What a batch may do. *)
Definition poolMay (urls : list string) (regs : list Registration) (tr : MTrace) (c : mcall) : Prop :=
  match c with
  | mDone _ | mSlot _ _ | mGrace | mCancelSends => True
  | mHTTP _ u rq => u ∈ urls ∧ Ev (mOp u oIsOpen) false ∈ tr ∧ ∃ reg, reg ∈ regs ∧ rq = watchOf token u reg
  | mOp u oIsOpen | mOp u oReset => u ∈ urls
  | mOp u oFail => u ∈ urls ∧ ∃ reg err, reg ∈ regs ∧ refused tr u reg err ∧ (classify false (Some err)).2 = true
  | mOp u oClose => u ∈ urls ∧ ∃ reg, reg ∈ regs ∧ acked tr u reg
  | mOp u (oAdd reg) => u ∈ urls ∧ reg ∈ regs ∧ ∃ u', u' ∈ urls ∧ acked tr u' reg
  | _ => False
  end.

Lemma batch_may u urls regs t c : u ∈ urls -> batchMay u regs t c -> poolMay urls regs t c.
Proof. intros Hu. destruct c as [| | |ep op| | | | |]; cbn; try done; [by intros (-> & ?)|]. destruct op; cbn; try done; solve [by intros ->|by intros [-> ?]]. Qed.

Lemma collectTargets_wp n urls targets regs cl tr :
  targets ⊆ urls -> NoDup targets ->
  mwp (poolMay urls regs) (collectTargets token n targets regs cl) tr
    (fun cl' t => tr ⊆ t ∧ (∀ u, u ∈ targets -> ∃ res, perEndpoint cl' !! u = Some res ∧ Forall2 (answeredWith t u) regs res)
       ∧ ∀ u, u ∉ targets -> perEndpoint cl' !! u = perEndpoint cl !! u).
Proof.
  revert cl tr. induction targets as [|u targets IH]; intros cl tr Hsub Hnd; cbn [collectTargets].
  { wp_go. split_and!; [done|by intros ? ?%elem_of_nil|done]. }
  apply NoDup_cons in Hnd as [Hni Hnd]. assert (u ∈ urls) as Hu by (apply Hsub; by left).
  assert (∀ cl1 t1, perEndpoint cl1 = perEndpoint cl -> tr ⊆ t1 -> mwp (poolMay urls regs)
     (res ← runEndpointBatch token ctxCaller ctxSends u regs;
      cl ← onEvents n (List.map cAck (ackedAt res) ++ [cResult u res]) cl1;
      collectTargets token n targets regs cl) t1
     (fun cl' t => tr ⊆ t ∧ (∀ v, v ∈ u :: targets -> ∃ res, perEndpoint cl' !! v = Some res ∧ Forall2 (answeredWith t v) regs res)
       ∧ ∀ v, v ∉ u :: targets -> perEndpoint cl' !! v = perEndpoint cl !! v)) as Hgo.
  { intros cl1 t1 E1 Hs1. wp_go. unfold runEndpointBatch.
    eapply wp_mono; [eapply mwp_weaken; [|apply (batchLoop_wp _ _ _ _ _ regs [] t1); done]|].
    { intros t c (m & -> & Hm). by eapply batch_may. }
    intros res t (m & -> & Hm & Hf). cbn. wp_go. eapply wp_mono; [eapply mwp_weaken; [|apply onEvents_wp]; by intros ? ? ->|].
    intros cl2 t2 [Hs2 E2]. wp_go. eapply wp_mono; [apply IH; [intros x Hx; apply Hsub; by right|done]|]. intros cl3 t3 (Hs3 & Hin & Hout).
    rewrite foldl_app in E2. cbn in E2. rewrite foldl_accept_results in E2. cbn in E2. rewrite acks_results, E1 in E2.
    split_and!; [by do 3 (etrans; [eassumption|])| |].
    - intros v [->|Hv]%elem_of_cons; [|by apply Hin]. exists res. rewrite Hout, E2, lookup_insert_eq by done. split; [done|].
      eapply answered_all_grows; [|exact Hf]. by etrans.
    - intros v [Hne Hv]%not_elem_of_cons. rewrite Hout, E2 by done. by apply lookup_insert_ne. }
  apply wp_bind. unfold onGrace. destruct (grace cl); [|by apply wp_ret, Hgo].
  apply wp_bind. wp_ask fired idtac. destruct fired; [|apply wp_ret, Hgo; [done|apply grows_snoc]].
  apply wp_bind. wp_ask u0 idtac. apply wp_ret, Hgo; [done|]. rewrite <-app_assoc. apply grows_more.
Qed.

(** ** The pool's answer *)

Definition uncancelled (tr : MTrace) : Prop := Ev (mDone ctxCaller) true ∉ tr.

Lemma uncancelled_before tr tr' : tr ⊆ tr' -> uncancelled tr' -> uncancelled tr.
Proof. intros Hs Hu Hin. by apply Hu, Hs. Qed.

(** [e] is one of [errs] and none of them is worth a retry more. *)
Definition mostRetryable (e : svcErr) (errs : list (option svcErr)) : Prop :=
  Some e ∈ errs ∧ ∀ e', Some e' ∈ errs -> (errRank false (Some e) <= errRank false (Some e'))%Z.

Lemma rank_range d e : (0 <= errRank d (Some e) <= 4)%Z.
Proof. unfold errRank. by destruct (classify d (Some e)).1. Qed.

Lemma mergeLoop_wp best bestRank seen errs tr :
  (match best with None => seen = [] ∧ bestRank = maxInt64
   | Some b => Some b ∈ seen ∧ (uncancelled tr -> bestRank = errRank false (Some b) ∧ mostRetryable b seen) end) -> None ∉ seen ->
  mwp (fun _ c => c = mDone ctxCaller) (mergeLoop best bestRank errs) tr
    (fun o t => tr ⊆ t ∧ match o with
       | None => None ∈ seen ++ errs ∨ seen ++ errs = []
       | Some e => (None ∉ seen ++ errs) ∧ Some e ∈ seen ++ errs ∧ (uncancelled t -> mostRetryable e (seen ++ errs)) end).
Proof.
  revert best bestRank seen tr. induction errs as [|[err|] errs IH]; intros best bestRank seen tr Hb Hn; cbn [mergeLoop].
  - wp_go. rewrite app_nil_r. split; [done|]. destruct best as [b|]; [|by right; apply Hb]. destruct Hb as [Hin Hb]. split_and!; [done|done|]. intros Hu. by apply Hb.
  - wp_go. wp_ask d idtac. rewrite (cons_middle (Some err)).
    assert (None ∉ seen ++ [Some err]) as Hn' by (rewrite elem_of_app, list_elem_of_singleton; naive_solver).
    assert (∀ b r, (Some b ∈ seen ++ [Some err] ∧ (uncancelled (tr ++ [Ev (mDone ctxCaller) d]) -> r = errRank false (Some b) ∧ mostRetryable b (seen ++ [Some err]))) ->
      mwp (fun _ c => c = mDone ctxCaller) (mergeLoop (Some b) r errs) (tr ++ [Ev (mDone ctxCaller) d])
        (fun o t => tr ⊆ t ∧ match o with
           | None => None ∈ seen ++ [Some err] ++ errs ∨ seen ++ [Some err] ++ errs = []
           | Some e => (None ∉ seen ++ [Some err] ++ errs) ∧ Some e ∈ seen ++ [Some err] ++ errs ∧ (uncancelled t -> mostRetryable e (seen ++ [Some err] ++ errs)) end)) as Hgo.
    { intros b r Hr. eapply wp_mono; [apply (IH (Some b) r (seen ++ [Some err])); [exact Hr|done]|]. intros o t [Hs Ho]. apply snoc_grows in Hs as [Hs _].
      rewrite <-app_assoc in Ho. by split. }
    assert (uncancelled (tr ++ [Ev (mDone ctxCaller) d]) -> d = false ∧ uncancelled tr) as Hd.
    { intros Hu. split; [|eapply uncancelled_before; [apply grows_snoc|done]]. destruct d; [|done]. destruct Hu. apply snoc_here. }
    assert (∀ x : option svcErr, x ∈ seen ++ [Some err] ↔ x ∈ seen ∨ x = Some err) as Hel by (intros x; by rewrite elem_of_app, list_elem_of_singleton).
    destruct (Z.ltb_spec (errRank d (Some err)) bestRank) as [Hlt|Hge].
    + apply Hgo. split; [apply Hel; by right|]. intros Hu. destruct (Hd Hu) as [-> Hu']. split; [done|]. split; [apply Hel; by right|].
      intros e' [He|[= ->]]%Hel; [|done]. destruct best as [b|]; [|destruct Hb as [-> _]; by apply elem_of_nil in He].
      destruct Hb as [_ Hb]. destruct (Hb Hu') as [-> [_ Hm]]. specialize (Hm e' He). lia.
    + destruct best as [b|]; [|destruct Hb as [_ ->]; pose proof (rank_range d err); unfold maxInt64 in Hge; lia].
      destruct Hb as [Hin Hb]. apply Hgo. split; [apply Hel; by left|]. intros Hu. destruct (Hd Hu) as [-> Hu']. destruct (Hb Hu') as [-> [Hi Hm]].
      split; [done|]. split; [apply Hel; by left|]. intros e' [He|[= ->]]%Hel; [by apply Hm|lia].
  - wp_go. split; [done|]. left. apply elem_of_app. right. by left.
Qed.

(** What the pool makes of the answers [col] to one registration. *)
Definition pooled (t : MTrace) (o : option svcErr) (col : list (option svcErr)) : Prop :=
  match o with
  | None => None ∈ col
  | Some e => (None ∉ col) ∧ Some e ∈ col ∧ (uncancelled t -> mostRetryable e col)
  end.

Lemma pooled_grows t t' o col : t ⊆ t' -> pooled t o col -> pooled t' o col.
Proof. intros Hs. destruct o as [e|]; [|done]. intros (? & ? & Hm). split_and!; [done|done|]. intros Hu. apply Hm. by eapply uncancelled_before. Qed.

Lemma mergeErrors_wp errs tr :
  errs ≠ [] -> mwp (fun _ c => c = mDone ctxCaller) (mergeErrors errs) tr (fun o t => tr ⊆ t ∧ pooled t o errs).
Proof.
  intros Hne. eapply wp_mono; [apply (mergeLoop_wp None maxInt64 []); [done|by intros ?%elem_of_nil]|].
  intros o t [Hs Ho]. split; [done|]. destruct o; [exact Ho|]. by destruct Ho.
Qed.

Lemma mergeAll_wp results targets skipped js tr :
  targets ≠ [] ->
  mwp (fun _ c => c = mDone ctxCaller) (mergeAll results targets skipped js) tr
    (fun out t => tr ⊆ t ∧ Forall2 (fun j o => pooled t o (candidatesAt results targets skipped j)) js out).
Proof.
  intros Hne. revert tr. induction js as [|j js IH]; intros tr; cbn [mergeAll]; [wp_go; by split|].
  wp_go. eapply wp_mono; [apply mergeErrors_wp; unfold candidatesAt; by destruct targets|]. intros o t [Hs Ho].
  wp_go. eapply wp_mono; [apply IH|]. intros out t' [Hs' Hf]. wp_go. split; [by etrans|]. constructor; [by eapply pooled_grows|done].
Qed.

(** ** What is left owed *)

Lemma queueMissed_wp (g : MTrace -> mcall -> Prop) url res k regs out tr :
  (∀ j reg t, regs !! j = Some reg -> out !! j = Some None -> tr ⊆ t -> g t (mOp url (oAdd reg))) ->
  mwp g (queueMissed url res k regs out) tr
    (fun _ t => tr ⊆ t ∧ ∀ j reg, regs !! j = Some reg -> out !! j = Some None -> missed res (k + j) = true -> Ev (mOp url (oAdd reg)) tt ∈ t).
Proof.
  revert k out tr. induction regs as [|reg regs IH]; intros k out tr Hg; cbn [queueMissed]; [wp_go; by split|].
  destruct out as [|o out]; [wp_go; by split|]. wp_go.
  assert (∀ t, tr ⊆ t -> (o = None -> missed res k = true -> Ev (mOp url (oAdd reg)) tt ∈ t) ->
    mwp g (queueMissed url res (S k) regs out) t
      (fun _ t => tr ⊆ t ∧ ∀ j reg', (reg :: regs) !! j = Some reg' -> (o :: out) !! j = Some None -> missed res (k + j) = true -> Ev (mOp url (oAdd reg')) tt ∈ t)) as Hgo.
  { intros t Hs H0. eapply wp_mono; [apply IH; intros j reg' t' Hj Ho Ht; apply (Hg (S j)); [done|done|by etrans]|].
    intros _ t' [Hs' Hrest]. split; [by etrans|]. intros [|j] reg' Hj Ho Hm; cbn in Hj, Ho.
    - injection Hj as <-. injection Ho as ->. rewrite Nat.add_0_r in Hm. apply Hs'. by apply H0.
    - apply (Hrest j); [done|done|]. by rewrite Nat.add_succ_r in Hm. }
  destruct o as [e|]; [wp_go; by apply Hgo|]. destruct (missed res k) eqn:Em; [|wp_go; by apply Hgo].
  wp_ask u ltac:(by apply (Hg 0%nat reg)). destruct u. apply Hgo; [apply grows_snoc|intros _ _; apply snoc_here].
Qed.

Lemma queueAll_wp (g : MTrace -> mcall -> Prop) results urls regs out tr :
  (∀ u j reg t, u ∈ urls -> regs !! j = Some reg -> out !! j = Some None -> tr ⊆ t -> g t (mOp u (oAdd reg))) ->
  mwp g (queueAll results urls regs out) tr
    (fun _ t => tr ⊆ t ∧ ∀ u j reg, u ∈ urls -> regs !! j = Some reg -> out !! j = Some None -> missed (results !! u) j = true -> Ev (mOp u (oAdd reg)) tt ∈ t).
Proof.
  revert tr. induction urls as [|u urls IH]; intros tr Hg; cbn [queueAll]; [wp_go; split; [done|]; by intros ? ? ? ?%elem_of_nil|].
  wp_go. eapply wp_mono; [apply queueMissed_wp; intros j reg t Hj Ho Ht; apply (Hg u j); [by left|done..]|]. intros [] t [Hs Hq].
  eapply wp_mono; [apply IH; intros v j reg t' Hv Hj Ho Ht; apply (Hg v j); [by right|done|done|by etrans]|]. intros [] t' [Hs' Hq'].
  split; [by etrans|]. intros v j reg [->|Hv]%elem_of_cons Hj Ho Hm; [|by eapply Hq']. apply Hs'. by eapply Hq.
Qed.

(** The answers of the endpoints, those skipped up front included. *)
Definition answersOf (results : gmap string (list (option svcErr))) (n : nat) (u : string) : list (option svcErr) :=
  default (replicate n (Some ErrNoHealthyEndpoints)) (results !! u).

Lemma candidates_perm results targets urls n j :
  NoDup urls -> targets `sublist_of` urls -> (j < n)%nat -> (∀ u, u ∈ targets ↔ is_Some (results !! u)) ->
  (∀ u res, results !! u = Some res -> length res = n) ->
  candidatesAt results targets (length urls - length targets) j ≡ₚ List.map (fun u => default None (answersOf results n u !! j)) urls.
Proof.
  intros Hnd Hsub Hj Hdom Hlen. unfold candidatesAt.
  assert (∃ others, urls ≡ₚ targets ++ others) as [others Hp] by (apply submseteq_Permutation, sublist_submseteq, Hsub).
  assert (length urls - length targets = length others)%nat as -> by (rewrite Hp, length_app; lia).
  rewrite (Permutation_map _ Hp), map_app. rewrite Hp in Hnd. apply NoDup_app in Hnd as (_ & Hdis & _).
  apply Permutation_app; apply Permutation_refl'.
  - apply map_ext_in. intros u Hu%list_elem_of_In. unfold answersOf. apply Hdom in Hu as [res E]. by rewrite E.
  - apply replicate_as_elem_of. split; [apply List.length_map|]. intros x (u & <- & Hu%list_elem_of_In)%list_elem_of_In%in_map_iff. unfold answersOf.
    destruct (results !! u) eqn:E; [exfalso; apply (Hdis u); [by apply Hdom; rewrite E|done]|]. cbn. by rewrite lookup_replicate_2.
Qed.

Lemma forall2_seq {B} (P : nat -> B -> Prop) n out j o :
  Forall2 P (seq 0 n) out -> out !! j = Some o -> P j o ∧ (j < n)%nat.
Proof.
  intros Hf Ho. destruct (Forall2_lookup_r _ _ _ _ _ Hf Ho) as (k & Hk & Hp). apply lookup_seq in Hk as [-> Hlt]. by rewrite Nat.add_0_l in Hp.
Qed.

Lemma pooled_perm t o col col' : col ≡ₚ col' -> pooled t o col -> pooled t o col'.
Proof. intros Hp. destruct o as [e|]; cbn; [|by rewrite Hp]. unfold mostRetryable. rewrite Hp. intros (? & ? & H). split_and!; [done|done|]. intros Hu. destruct (H Hu) as [? Hm]. split; [done|]. intros e'. rewrite <-Hp. apply Hm. Qed.

(** What the targets answered, and that the others were open. *)
Record gathered (urls : list string) (regs : list Registration) (targets : list string) (results : gmap string (list (option svcErr))) (t : MTrace) : Prop := {
  ga_sub : targets `sublist_of` urls;
  ga_open : ∀ u, u ∈ urls -> u ∈ targets ∨ Ev (mOp u oIsOpen) true ∈ t;
  ga_dom : ∀ u, u ∈ targets ↔ is_Some (results !! u);
  ga_answers : ∀ u res, results !! u = Some res -> Forall2 (answeredWith t u) regs res
}.

Lemma collect_wp urls regs targets t1 :
  NoDup urls -> targets `sublist_of` urls -> (∀ u, u ∈ urls -> u ∈ targets ∨ Ev (mOp u oIsOpen) true ∈ t1) ->
  mwp (poolMay urls regs) (collectEndpointBatches token targets regs) t1 (fun results t => gathered urls regs targets results t).
Proof.
  intros Hnd Hsub Hopen. unfold collectEndpointBatches. wp_go.
  eapply wp_mono; [apply (collectTargets_wp _ urls); [intros u Hu; by eapply elem_of_sublist|by eapply sublist_NoDup]|].
  intros cl t2 (Hs2 & Hin & Hout). wp_go. wp_ask u0 idtac. wp_go.
  assert (∀ u, u ∈ targets ↔ is_Some (perEndpoint cl !! u)) as Hdom.
  { intros u. split; [intros Hu; destruct (Hin u Hu) as (res & -> & _); done|]. intros [res E]. destruct (decide (u ∈ targets)) as [|Hni]; [done|].
    specialize (Hout u Hni). rewrite E in Hout. cbn in Hout. by rewrite lookup_empty in Hout. }
  constructor; [done| |done|].
  - intros u Hu. destruct (Hopen u Hu); [by left|right]. apply elem_of_app. left. by apply Hs2.
  - intros u res E. destruct (Hin u) as (res' & E' & Hf); [by apply Hdom|]. rewrite E in E'. injection E' as ->.
    eapply answered_all_grows; [apply grows_snoc|done].
Qed.

Lemma gathered_answered urls regs targets results t t' u :
  gathered urls regs targets results t -> t ⊆ t' -> u ∈ urls -> Forall2 (answeredWith t' u) regs (answersOf results (length regs) u).
Proof.
  intros [_ Hopen Hdom Hans] Hs Hu. unfold answersOf. destruct (results !! u) as [res|] eqn:E; cbn.
  - eapply answered_all_grows; [exact Hs|by apply Hans].
  - apply Forall2_replicate_r; [done|]. apply Forall_forall. intros reg _. right. right. split; [done|].
    destruct (Hopen u Hu) as [[? Hx]%Hdom|Ho]; [by rewrite E in Hx|by apply Hs].
Qed.

Lemma gathered_acked urls regs targets results t t' u j reg :
  gathered urls regs targets results t -> t ⊆ t' -> u ∈ urls -> regs !! j = Some reg ->
  answersOf results (length regs) u !! j = Some None ∨ default None (answersOf results (length regs) u !! j) = None -> acked t' u reg.
Proof.
  intros Hg Hs Hu Hj Ha. destruct (Forall2_lookup_l _ _ _ _ _ (gathered_answered _ _ _ _ _ _ _ Hg Hs Hu) Hj) as (a & Ea & Han).
  apply answered_acked. rewrite Ea in Ha. cbn in Ha. by destruct Ha as [[= ->]| ->].
Qed.

Lemma register_wp urls regs :
  NoDup urls -> mwp (poolMay urls regs) (RegisterBatchWithResults token urls regs) [] (fun _ _ => True).
Proof.
  intros Hnd. unfold RegisterBatchWithResults. destruct (Nat.eqb_spec (length regs) 0) as [E0|Hne0].
  { by wp_go. }
  wp_go. eapply wp_mono; [eapply mwp_weaken; [|apply closed_wp]; by intros t c (u & Hu & ->)|].
  intros targets t1 (_ & Hsub & Hopen). destruct (Nat.eqb_spec (length targets) 0) as [Et|Hnt].
  { by wp_go. }
  wp_go. eapply wp_mono; [by apply collect_wp|]. intros results t3 Hg.
  wp_go. eapply wp_mono; [eapply mwp_weaken; [|apply mergeAll_wp; by destruct targets]; by intros ? ? ->|].
  intros out t4 [Hs4 Hf]. 
  assert (∀ j o, out !! j = Some o -> pooled t4 o (List.map (fun u => default None (answersOf results (length regs) u !! j)) urls)) as Hpool.
  { intros j o Ho. destruct (forall2_seq _ _ _ _ _ Hf Ho) as [Hp Hlt]. eapply pooled_perm; [|exact Hp]. apply candidates_perm; try done; [apply Hg|].
    intros u res E. symmetry. by eapply Forall2_length, Hg. }
  wp_go. eapply wp_mono; [apply queueAll_wp|].
  { intros u j reg t Hu Hj Ho Ht. split; [done|]. split; [by eapply list_elem_of_lookup_2|]. specialize (Hpool _ _ Ho).
    apply list_elem_of_In, in_map_iff in Hpool as (u' & E & Hu'%list_elem_of_In). exists u'. split; [done|]. eapply gathered_acked; [done|by etrans|done|done|by right]. }
  intros [] t5 _. by wp_go.
Qed.

(** ** The background loop *)

(** [m] shows that the endpoint took or refused for good a registration, or
    that it is owed again. *)
Definition accounted (m : MTrace) (url : string) (reg : Registration) : Prop :=
  acked m url reg ∨ (∃ err, answeredWith m url reg (Some err) ∧ permanentRejection err = true) ∨ Ev (mOp url (oAdd reg)) tt ∈ m.

Lemma accounted_more m m' url reg : m ⊆ m' -> accounted m url reg -> accounted m' url reg.
Proof.
  intros Hs [Ha|[(err & Ha & Hp)|Ha]]; [left; by eapply acked_grows|right; left|right; right; auto].
  exists err. split; [by eapply answered_grows|done].
Qed.

(** The last [n] registrations taken are accounted for since. *)
Definition settledAll (tr : MTrace) (url : string) (n : nat) : Prop :=
  ∃ tr1 k (batch : list Registration) m,
    tr = tr1 ++ Ev (mOp url (oTake k)) batch :: m ∧ length batch = n ∧ ∀ reg, reg ∈ batch -> accounted m url reg.

Definition healthOf (url : string) : request := mkRequest (url ++ "/health") None noBody.

(** A breaker closes after an acknowledged registration, or after a health
    probe when nothing is owed or the endpoint answered a registration below
    500. *)
Definition closable (tr : MTrace) (url : string) : Prop :=
  (∃ reg, acked tr url reg)
  ∨ ((∃ code body, Ev (mHTTP ctxCaller url (healthOf url)) (hResp code body) ∈ tr ∧ (code < 500)%Z)
     ∧ (Ev (mOp url (oTake 1)) [] ∈ tr ∨ ∃ reg err, answeredWith tr url reg (Some err) ∧ (classify false (Some err)).2 = false)).

Definition loopMay (hooks : list nat) (tr : MTrace) (c : mcall) : Prop :=
  match c with
  | mOp u (oSettle n) => settledAll tr u n
  | mOp u oClose => closable tr u
  | mOp u (oAdd reg) => ∃ k (batch : list Registration), Ev (mOp u (oTake k)) batch ∈ tr ∧ reg ∈ batch
  | mHook fn u => fn ∈ hooks ∧ ∃ k : Z, Ev (mOp u oDrained) (Some k) ∈ tr
  | _ => True
  end.

(** A take returns at most what was asked for. *)
Definition takeRely (tr : MTrace) (e : event manswer) : Prop :=
  match ev_call e as c return manswer c -> Prop with
  | mOp u op => match op as o return opAnswer o -> Prop with oTake n => fun b => (length b <= n)%nat | _ => fun _ => True end
  | _ => fun _ => True
  end (ev_answer e).

Abbreviation lwp hooks := (wp (loopMay hooks) takeRely).

Lemma lwp_weaken {A} hooks (g : MTrace -> mcall -> Prop) (p : MProg A) tr Q :
  (∀ t c, g t c -> loopMay hooks t c) -> mwp g p tr Q -> lwp hooks p tr Q.
Proof. intros Hg. apply wp_weaken; done. Qed.

Lemma batch_loop_may hooks base m url regs c : batchMay url regs m c -> loopMay hooks (base ++ m) c.
Proof.
  destruct c as [| | |u op| | | | |]; cbn; try done. destruct op; cbn; try done.
  intros (-> & reg & _ & Ha). left. exists reg. eapply acked_grows; [|exact Ha]. intros x Hx. apply elem_of_app. by right.
Qed.

Lemma requeue_wp hooks base mid k url taken batch errs r :
  batch ⊆ taken -> Ev (mOp url (oTake k)) taken ∈ base ->
  lwp hooks (requeueFailed url batch errs r) (base ++ mid)
    (fun _ t => ∃ m, t = base ++ m ∧ mid ⊆ m
       ∧ ∀ j reg err, batch !! j = Some reg -> errs !! j = Some (Some err) -> permanentRejection err = true ∨ Ev (mOp url (oAdd reg)) tt ∈ m).
Proof.
  revert mid errs r. induction batch as [|reg batch IH]; intros mid errs r Hsub Hin; cbn [requeueFailed]; [wp_go; by exists mid|].
  destruct errs as [|err errs]; [wp_go; by exists mid|]. assert (batch ⊆ taken) as Hsub' by (intros x Hx; apply Hsub; by right).
  assert (∀ r' more, (∀ e, err = Some e -> permanentRejection e = true ∨ Ev (mOp url (oAdd reg)) tt ∈ mid ++ more) ->
    lwp hooks (requeueFailed url batch errs r') (base ++ mid ++ more)
    (fun _ t => ∃ m, t = base ++ m ∧ mid ⊆ m ∧ ∀ j reg' e, (reg :: batch) !! j = Some reg' -> (err :: errs) !! j = Some (Some e) ->
       permanentRejection e = true ∨ Ev (mOp url (oAdd reg')) tt ∈ m)) as Hgo.
  { intros r' more He. eapply wp_mono; [by apply IH|]. intros _ t (m & -> & Hs & Hrest). exists m. split; [done|].
    split; [intros x Hx; apply Hs, elem_of_app; by left|]. intros [|j] reg' e Hj Hej; cbn in Hj, Hej; [|by eapply Hrest].
    injection Hj as <-. injection Hej as ->. destruct (He e eq_refl); [by left|right; by apply Hs]. }
  pose proof (Hgo r []) as Hgo0. destruct err as [e|].
  - destruct (permanentRejection e) eqn:Ep.
    + specialize (Hgo (mkCatchupResult (landed r) (cr_dropped r + 1)) []). rewrite app_nil_r in Hgo. apply Hgo. intros e' [= <-]. by left.
    + wp_go. wp_ask u ltac:(exists k, taken; split; [apply elem_of_app; by left|apply Hsub; by left]). destruct u. rewrite <-app_assoc. apply Hgo.
      intros e' [= <-]. right. apply snoc_here.
  - specialize (Hgo (mkCatchupResult (landed r + 1) (cr_dropped r)) []). rewrite app_nil_r in Hgo. by apply Hgo.
Qed.

Lemma catchupBatch_wp hooks tr1 k url batch :
  lwp hooks (catchupBatch token url batch) (tr1 ++ [Ev (mOp url (oTake k)) batch])
    (fun _ t => ∃ m, t = tr1 ++ Ev (mOp url (oTake k)) batch :: m ∧ ∀ reg, reg ∈ batch -> accounted m url reg).
Proof.
  unfold catchupBatch, sendCatchup. set (base := tr1 ++ [_]). rewrite <-(app_nil_r base). wp_go.
  eapply wp_mono; [eapply lwp_weaken; [|by apply (batchLoop_wp ctxCaller ctxCaller url 0 batch batch base [])]|].
  { intros t c (m & -> & Hm). by eapply batch_loop_may. }
  intros errs t (m & -> & _ & Hf). wp_go. eapply wp_mono; [by apply (requeue_wp hooks base m k url batch); [|apply snoc_here]|].
  intros r t (m1 & -> & Hs1 & Hadd).
  assert (∀ reg, reg ∈ batch -> accounted m1 url reg) as Hacc.
  { intros reg [j Hj]%list_elem_of_lookup_1. destruct (Forall2_lookup_l _ _ _ _ _ Hf Hj) as ([err|] & Ej & Ha).
    - destruct (Hadd _ _ _ Hj Ej) as [Hp|?]; [right; left; exists err; split; [by eapply answered_grows|done]|by right; right].
    - left. apply answered_acked. by eapply answered_grows. }
  wp_go. wp_ask u ltac:(exists tr1, k, batch, m1; unfold base; rewrite <-app_assoc; done). wp_go. wp_ask d idtac. wp_go. wp_ask u' idtac. wp_go.
  eexists. unfold base. rewrite <-!app_assoc. split; [done|]. intros reg Hin. eapply accounted_more; [|by apply Hacc]. apply grows_more.
Qed.

Lemma fire_wp hooks all url tr (k : Z) :
  hooks ⊆ all -> Ev (mOp url oDrained) (Some k) ∈ tr -> lwp all (fireHooks hooks url) tr (fun _ t => ∃ m, t = tr ++ m).
Proof.
  revert tr. induction hooks as [|fn hooks IH]; intros tr Hsub Hin; cbn [fireHooks]; [wp_go; exists []; by rewrite app_nil_r|].
  wp_go. wp_ask u ltac:(split; [apply Hsub; by left|by exists k]). eapply wp_mono; [apply IH; [intros x Hx; apply Hsub; by right|apply elem_of_app; by left]|].
  intros _ t [m ->]. eexists. by rewrite <-app_assoc.
Qed.

Lemma drainRoutine_wp hooks url :
  lwp hooks (drainRoutine token hooks url) []
    (fun _ t => (∃ batch m, t = Ev (mOp url (oTake catchupBatchSize)) batch :: m ∧ (∀ reg, reg ∈ batch -> accounted m url reg)) ∧ Ev (mOp url oRelease) tt ∈ t).
Proof.
  unfold drainRoutine, drainEndpoint. wp_go. wp_ask batch idtac.
  assert (∀ m, (∀ reg, reg ∈ batch -> accounted m url reg) -> lwp hooks
    (dropped ← perform (mOp url oDrained); match (dropped : option Z) with Some _ => fireHooks hooks url | None => mret tt end)
    (Ev (mOp url (oTake catchupBatchSize)) batch :: m)
    (fun _ t => lwp hooks (perform (mOp url oRelease)) t (fun _ t => (∃ batch m, t = Ev (mOp url (oTake catchupBatchSize)) batch :: m ∧ (∀ reg, reg ∈ batch -> accounted m url reg)) ∧ Ev (mOp url oRelease) tt ∈ t))) as Hgo.
  { intros m Hm. wp_go. wp_ask lost idtac.
    assert (∀ m', lwp hooks (perform (mOp url oRelease)) ((Ev (mOp url (oTake catchupBatchSize)) batch :: m) ++ m')
       (fun _ t => (∃ batch m, t = Ev (mOp url (oTake catchupBatchSize)) batch :: m ∧ (∀ reg, reg ∈ batch -> accounted m url reg)) ∧ Ev (mOp url oRelease) tt ∈ t)) as Hrel.
    { intros m'. wp_ask u idtac. destruct u. split; [|apply snoc_here]. exists batch, (m ++ m' ++ [Ev (mOp url oRelease) tt]). split; [cbn; by rewrite <-app_assoc|].
      intros reg Hin. eapply accounted_more; [apply grows_more|by apply Hm]. }
    destruct lost as [k|]; [|wp_go; apply Hrel]. eapply wp_mono; [eapply (fire_wp hooks hooks url _ k); [done|apply snoc_here]|].
    intros _ t [m' ->]. rewrite <-app_assoc. apply Hrel. }
  destruct (Nat.ltb_spec 0 (length batch)) as [Hlt|Hz].
  - wp_go. eapply wp_mono; [apply (catchupBatch_wp hooks [] catchupBatchSize url batch)|]. intros _ t (m & -> & Hm). by apply Hgo.
  - wp_go. apply (Hgo []). intros reg Hin. destruct batch; [by apply elem_of_nil in Hin|cbn in Hz; lia].
Qed.

(** The trial from its answer on. *)
Lemma trialJudged_wp hooks url base mid reg err (oc : callOutcome * bool) :
  let take1 := Ev (mOp url (oTake 1)) [reg] in
  answeredWith mid url reg err ->
  (negb (bool_decide (oc.1 = outcomeCanceled) || oc.2) = true -> closable (base ++ take1 :: mid) url) ->
  lwp hooks
    (record ctxCaller url err ;;
     (match err with Some e => if permanentRejection e then mret tt else perform (mOp url (oAdd reg)) | None => mret tt end) ;;
     perform (mOp url (oSettle 1)) ;;
     mret (negb (bool_decide (oc.1 = outcomeCanceled) || oc.2))) (base ++ take1 :: mid)
    (fun b t => b = true -> closable t url).
Proof.
  intros take1 Ha Hcl. wp_go.
  assert (∀ m, accounted (mid ++ m) url reg -> lwp hooks (perform (mOp url (oSettle 1)) ;; mret (negb (bool_decide (oc.1 = outcomeCanceled) || oc.2)))
     (base ++ take1 :: mid ++ m) (fun b t => b = true -> closable t url)) as Hfin.
  { intros m Hacc. wp_go. wp_ask u ltac:(exists base, 1%nat, [reg], (mid ++ m); split_and!; [done|done|by intros ? ->%list_elem_of_singleton]). wp_go.
    intros Hb. destruct (Hcl Hb) as [[reg' Hk]|[(code & body & Hk & Hc) Hr]].
    - left. exists reg'. eapply acked_grows; [|exact Hk]. rewrite app_comm_cons, app_assoc, <-app_assoc. apply grows_more.
    - right. rewrite app_comm_cons, app_assoc, <-app_assoc. split; [exists code, body; split; [apply elem_of_app; by left|done]|].
      destruct Hr as [Hr|(reg' & e' & Hr & Hf)]; [left; apply elem_of_app; by left|right]. exists reg', e'. split; [eapply answered_grows; [apply grows_more|done]|done]. }
  apply (lwp_weaken hooks (loopMay hooks)); [done|]. apply record_wp; [done|done| |done|].
  - intros -> m. left. exists reg. eapply acked_grows; [|by apply answered_acked]. intros x Hx. apply elem_of_app. left. apply elem_of_app. right. by right.
  - intros m. cbv beta. rewrite <-app_assoc, <-app_comm_cons. destruct err as [e|].
    + destruct (permanentRejection e) eqn:Ep.
      * apply wp_bind, wp_ret, Hfin. right. left. exists e. split; [eapply answered_grows; [apply grows_more|done]|done].
      * apply wp_bind. wp_ask u ltac:(exists 1%nat, [reg]; split; [apply elem_of_app; right; by left|by left]). destruct u. rewrite <-app_assoc, <-app_comm_cons, <-app_assoc. apply Hfin.
        right. right. rewrite app_assoc. apply snoc_here.
    + apply wp_bind, wp_ret, Hfin. left. eapply acked_grows; [apply grows_more|by apply answered_acked].
Qed.

Lemma trialWatch_wp hooks url tr :
  (∃ code body, Ev (mHTTP ctxCaller url (healthOf url)) (hResp code body) ∈ tr ∧ (code < 500)%Z) ->
  lwp hooks (trialWatch token url) tr (fun b t => b = true -> closable t url).
Proof.
  intros (code & body & Hh & Hc). unfold trialWatch. wp_go.
  apply (wp_perform (loopMay hooks) takeRely); [done|]. intros batch Hlen. cbn in batch, Hlen.
  destruct batch as [|reg [|]]; [..|cbn in Hlen; lia]; [wp_go; intros _; right; split; [exists code, body; split; [apply elem_of_app; by left|done]|left; apply snoc_here]|].
  set (take1 := Ev (mOp url (oTake 1)) [reg]). unfold ClientRegister. wp_go. wp_ask resp idtac.
  set (sent1 := Ev (mHTTP ctxTrial url (watchOf token url reg)) resp). wp_go.
  assert (∀ mid, answeredWith (sent1 :: mid) url reg (watchResult resp)) as Hans by (intros mid; left; exists ctxTrial, resp; split; [by left|done]).
  assert (∀ mid, ∃ code body, Ev (mHTTP ctxCaller url (healthOf url)) (hResp code body) ∈ tr ++ take1 :: sent1 :: mid ∧ (code < 500)%Z) as Hhealth
    by (intros mid; exists code, body; split; [apply elem_of_app; by left|done]).
  rewrite <-app_assoc. unfold classifyIn. destruct (watchResult resp) as [e|] eqn:Ee.
  - apply wp_bind. wp_ask d idtac. apply wp_ret. rewrite <-!app_assoc. destruct (classify d (Some e)) as [o f] eqn:Ec.
    apply (trialJudged_wp hooks url tr [sent1; Ev (mDone ctxCaller) d] reg (Some e) (o, f)); [apply Hans|].
    intros Hb. right. split; [apply Hhealth|]. right. exists reg, e. split; [eapply answered_grows; [|apply (Hans [])]|].
    { intros x ->%list_elem_of_singleton. apply elem_of_app. right. right. by left. }
    destruct d; cbn in Ec; [by injection Ec as <- <-|]. unfold classify. rewrite Ec. by destruct f; rewrite ?orb_true_r in Hb.
  - apply wp_ret. apply (trialJudged_wp hooks url tr [sent1] reg None (outcomeOK, false)); [apply Hans|]. intros _. left. exists reg.
    eapply acked_grows; [|apply answered_acked, (Hans [])]. intros x Hx. apply elem_of_app. right. by right.
Qed.

Lemma loop_wp hooks urls ticks tr : lwp hooks (loop token urls ticks) tr (fun _ _ => True).
Proof.
  assert (∀ us t, lwp hooks (probeOpenEndpoints token us) t (fun _ _ => True)) as Hprobe.
  { induction us as [|u us IH]; intros t; cbn [probeOpenEndpoints]; [by wp_go|]. wp_go. wp_ask isOpen idtac. destruct isOpen; [|wp_go; apply IH].
    apply wp_bind, wp_mono with (Q := fun _ _ => True); [|intros [] t' _; apply IH]. unfold poolProbeEndpoint, probe. wp_go. wp_ask resp idtac. wp_go.
    destruct resp as [text|code body]; [by wp_go|]. destruct (Z.leb_spec 500 code); [by wp_go|]. wp_go.
    eapply wp_mono; [apply trialWatch_wp; exists code, body; split; [apply snoc_here|done]|].
    intros [] t' Ht'; [|by wp_go]. wp_ask u0 ltac:(by apply Ht'). done. }
  assert (∀ us t, lwp hooks (drainCatchup us) t (fun _ _ => True)) as Hdrain.
  { induction us as [|u us IH]; intros t; cbn [drainCatchup]; [by wp_go|]. wp_go. wp_ask d idtac. destruct d; [by wp_go|].
    wp_go. wp_ask claimed idtac. destruct claimed; wp_go; [wp_ask u0 idtac|]; apply IH. }
  revert tr. induction ticks as [|ticks IH]; intros tr; cbn [loop]; [by wp_go|]. wp_go. wp_ask go idtac. destruct go; [|by wp_go].
  wp_go. eapply wp_mono; [apply Hprobe|]. intros [] t _. wp_go. eapply wp_mono; [apply Hdrain|]. intros [] t' _. apply IH.
Qed.
End Programs.

(** ** A pool's endpoints are distinct *)

Lemma dedup_nodup seen us : NoDup (dedupURLs seen us) ∧ ∀ u, u ∈ dedupURLs seen us -> (u ∉ seen) ∧ u ≠ "".
Proof.
  revert seen. induction us as [|u us IH]; intros seen; cbn [dedupURLs]; [split; [constructor|by intros ? ?%elem_of_nil]|].
  destruct (String.eqb_spec (trimURL u) "") as [|Hne]; [apply IH|]. destruct (decide (trimURL u ∈ seen)) as [|Hni]; [apply IH|].
  destruct (IH ({[trimURL u]} ∪ seen)) as [Hn Ha]. split.
  - constructor; [intros Hin; apply Ha in Hin as [Hin _]; set_solver|done].
  - intros v [->|Hv]%elem_of_cons; [done|]. apply Ha in Hv as [? ?]. split; [set_solver|done].
Qed.

Lemma endpoints_nodup us token opts : NoDup (Endpoints (NewPool us token opts)).
Proof.
  unfold Endpoints, NewPool. cbn. rewrite List.map_map. cbn. rewrite List.map_id. apply dedup_nodup.
Qed.

(** ** Theorems *)

(** Catch-up settles only what is accounted for.  In every run of the
    background loop and of a drain, cut short or not: registrations taken from
    a queue are settled only when each of them was acknowledged by the
    endpoint, was refused for good, or is queued again; nothing else is put
    into the queue; resync hooks fire only after an overflowed queue drained;
    and a breaker closes only on an acknowledged registration, or on a
    healthy probe with nothing owed or a registration answered below 500.  A
    drain that ends has accounted for everything it took and is released. *)
Theorem catchup_settles token hooks urls ticks url tr :
  honoured takeRely [] tr ->
  (begins (loop token urls ticks) tr ∨ begins (drainRoutine token hooks url) tr ->
     ∀ tr1 e tr2, tr = tr1 ++ e :: tr2 -> loopMay token hooks tr1 (ev_call e))
  ∧ (ends (drainRoutine token hooks url) tr tt ->
     (∃ batch m, tr = Event (mOp url (oTake catchupBatchSize)) batch :: m ∧ ∀ reg, reg ∈ (batch : list Registration) -> accounted token m url reg)
     ∧ Event (mOp url oRelease) tt ∈ tr).
Proof.
  intros Hr. split.
  - intros Hb tr1 e tr2 E. destruct Hb as [Hb|Hb]; (eapply (wp_begins _ takeRely); [|exact Hb|exact Hr|exact E]); [apply loop_wp|apply drainRoutine_wp].
  - intros He. apply (wp_ends _ takeRely _ _ _ _ (drainRoutine_wp token hooks url) He Hr).
Qed.

(** ** A run *)

(** Two endpoints: the first takes everything, the second is down. *)
Definition poolState : Type := gmap string endpoint.
Definition poolHandle (c : mcall) (s : poolState) : manswer c * poolState :=
  match c as c return manswer c * poolState with
  | mDone _ | mGrace => (false, s)
  | mSlot _ _ | mTick => (true, s)
  | mHTTP _ u _ => (if String.eqb u "up" then hResp 200 "" else hResp 503 "busy", s)
  | mOp u op => let '(a, ep) := epStep 3 (Some 1%Z) op (default (newEndpoint 10 u) (s !! u)) in (a, <[u := ep]> s)
  | mCancelSends | mHook _ _ | mSpawnDrain _ => (tt, s)
  end.
Definition regOf (txid : string) : Registration := mkRegistration txid "http://cb" "".

Lemma take_bound n q : (length (take_ n q).1 <= n)%nat.
Proof. cbn. rewrite List.length_map, length_take. lia. Qed.

Lemma poolHandle_honoured tr c s : takeRely tr (Event c (poolHandle c s).1).
Proof.
  destruct c as [| | |u op| | | | |]; try done. destruct op; try done. unfold takeRely. cbn -[take_].
  pose proof (take_bound n (pending (default (newEndpoint 10 u) (s !! u)))) as Hb. by destruct (take_ n _).
Qed.

Definition owingState : poolState := {[ "up" := withPending (add (regOf "a") (newCatchupQueue 10)) (newEndpoint 10 "up") ]}.

Lemma catchup_settles_witness :
  let p := drainRoutine "secret" [7%nat] "up" in
  order (pending (default (newEndpoint 0 "") ((run poolHandle p owingState).2 !! "up"))) = []
  ∧ ∃ batch m, run_trace poolHandle p owingState = Event (mOp "up" (oTake catchupBatchSize)) batch :: m
      ∧ ∀ reg, reg ∈ (batch : list Registration) -> accounted "secret" m "up" reg.
Proof.
  cbn zeta. split; [vm_compute; reflexivity|].
  apply (proj2 (catchup_settles "secret" [7%nat] ["up"] 1 "up" _ (run_honoured poolHandle takeRely _ _ [] poolHandle_honoured))), run_ends.
Defined.

Lemma catchup_owes_witness :
  let ep := withPending (add (regOf "b") (add (regOf "a") (newCatchupQueue 1))) (newEndpoint 1 "up") in
  byTxID (pending ep) !! "a" = None ∧ overflowed (pending ep) = true ∧ kept [OpEvent (oAdd (regOf "b")) tt] (regOf "a") ep.
Proof.
  cbn zeta. split; [vm_compute; reflexivity|]. split; [vm_compute; reflexivity|].
  apply (catchup_owes 3 1 "up" [] (regOf "a") [OpEvent (oAdd (regOf "b")) tt]).
  apply (reach_step 3 (newEndpoint 1 "up") [OpEvent (oAdd (regOf "a")) tt]
    (withPending (add (regOf "a") (newCatchupQueue 1)) (newEndpoint 1 "up")) (oAdd (regOf "b")) None).
  apply (reach_step 3 (newEndpoint 1 "up") [] (newEndpoint 1 "up") (oAdd (regOf "a")) None). constructor.
Defined.
