(* ===== verification/MerklePoolPromise.v ===== *)
(** * MerklePoolPromise: what the pool's answer to a batch stands for

    The trace of a batch shows, endpoint by endpoint, one exchange for each
    registration, in order: the answer to its request, or why there was none.
    The pool's answer is proved to be what these exchanges call for, and what
    an endpoint missed to be queued. *)
From stdpp Require Import base gmap strings list pretty.
From Stdlib Require Import Ascii ZArith Lia.
From S2P Require Import Prelude Models GoStrings Teranode Effects Verdicts Broadcast MerklePool MerklePoolProps.

(** ** Exchanges *)

(** The calls that settle a registration at an endpoint. *)
Definition decisive (c : mcall) : bool :=
  match c with
  | mSlot _ _ | mHTTP _ _ _ => true
  | mOp _ op => match op with oIsOpen => true | _ => false end
  | _ => false
  end.

(** What an event says of a registration at [url]: the request and the
    endpoint's answer to it, or that none was made, because the context was
    done or the breaker was open. *)
Definition exchangeAt (url : string) (e : event manswer) : option (option request * option svcErr) :=
  match e with
  | Event (mSlot _ u) slot => if String.eqb u url && negb slot then Some (None, Some ErrContext) else None
  | Event (mOp u oIsOpen) isOpen => if String.eqb u url && isOpen then Some (None, Some ErrNoHealthyEndpoints) else None
  | Event (mHTTP _ u rq) resp => if String.eqb u url then Some (Some rq, watchResult resp) else None
  | _ => None
  end.
Definition exchanges (url : string) (tr : MTrace) : list (option request * option svcErr) := omap (exchangeAt url) tr.

Lemma exchanges_app url tr tr' : exchanges url (tr ++ tr') = exchanges url tr ++ exchanges url tr'.
Proof. apply omap_app. Qed.

Lemma exchanges_project url tr : exchanges url (project decisive tr) = exchanges url tr.
Proof.
  unfold exchanges. induction tr as [|[c x] tr IH]; [done|]. unfold project in *. cbn [List.filter ev_call]. destruct (decisive c) eqn:Ed; cbn [omap list_omap]; [by rewrite IH|].
  rewrite IH. destruct c as [| | |u op| | | | |]; try done. by destruct op.
Qed.

Lemma project_exchanges url tr tr' : project decisive tr' = project decisive tr -> exchanges url tr' = exchanges url tr.
Proof. intros E. by rewrite <-exchanges_project, E, exchanges_project. Qed.

Section Promise.
Variable token : string.

Abbreviation Ev := (Event (answer := manswer)).
Abbreviation mwp0 := (wp (fun _ _ => True) (fun _ _ => True)).
Abbreviation quiet := (makes (fun c => negb (decisive c))).

(** An exchange of the registration: its own request, or none. *)
Definition exchanged (url : string) (reg : Registration) (x : option request * option svcErr) : Prop :=
  x.1 = Some (watchOf token url reg) ∨ (x.1 = None ∧ (x.2 = Some ErrContext ∨ x.2 = Some ErrNoHealthyEndpoints)).

Lemma poolRecord_quiet ctx url err : quiet (record ctx url err).
Proof. unfold record, classifyIn. destruct err; makes_auto. Qed.

Lemma classifyCtx_quiet ctx sendCtx n err : quiet (classifyCtx ctx sendCtx n err).
Proof. unfold classifyCtx. destruct err; makes_auto. Qed.

Lemma onEvents_quiet n evs cl : quiet (onEvents n evs cl).
Proof. revert cl. induction evs as [|ev evs IH]; intros cl; cbn [onEvents]; [done|]. unfold onEvent. makes_auto. Qed.

Lemma mergeAll_quiet results targets skipped js : quiet (mergeAll results targets skipped js).
Proof.
  assert (∀ errs best r, quiet (mergeLoop best r errs)) as Hm.
  { induction errs as [|[e|] errs IH]; intros best r; cbn [mergeLoop]; makes_auto. }
  induction js as [|j js IH]; cbn [mergeAll]; [done|]. unfold mergeErrors. apply makes_bind; [apply Hm|]. intros err. by apply makes_bind.
Qed.

Lemma queueAll_quiet results urls regs out : quiet (queueAll results urls regs out).
Proof.
  assert (∀ u res regs j out, quiet (queueMissed u res j regs out)) as Hq.
  { intros u res. induction regs0 as [|reg regs0 IH]; intros j out0; cbn [queueMissed]; [done|]. destruct out0 as [|o out0]; [done|]. apply makes_bind; [|intros _; apply IH].
    destruct o; [done|]. by destruct (missed res j). }
  induction urls as [|u urls IH]; cbn [queueAll]; [done|]. apply makes_bind; [apply Hq|]. intros _. apply IH.
Qed.

Lemma exchanges_snoc url tr e : exchanges url (tr ++ [e]) = exchanges url tr ++ option_list (exchangeAt url e).
Proof. rewrite exchanges_app. f_equal. Qed.

Lemma batchLoop_ex ctx sendCtx url n regs tr :
  mwp0 (batchLoop token ctx sendCtx url n regs) tr
    (fun res t => (∃ xs, exchanges url t = exchanges url tr ++ xs ∧ Forall2 (exchanged url) regs xs ∧ res = xs.*2)
       ∧ ∀ v, v ≠ url -> exchanges v t = exchanges v tr).
Proof.
  revert n tr. induction regs as [|reg regs IH]; intros n tr; cbn [batchLoop].
  { apply wp_ret. split; [|done]. exists []. rewrite app_nil_r. by split_and!. }
  assert (∀ k x t, exchanges url t = exchanges url tr ++ [x] -> (∀ v, v ≠ url -> exchanges v t = exchanges v tr) -> exchanged url reg x ->
    mwp0 (rest ← batchLoop token ctx sendCtx url k regs; mret (x.2 :: rest)) t
      (fun res t => (∃ xs, exchanges url t = exchanges url tr ++ xs ∧ Forall2 (exchanged url) (reg :: regs) xs ∧ res = xs.*2)
         ∧ ∀ v, v ≠ url -> exchanges v t = exchanges v tr)) as Hgo.
  { intros k x t Et Ev Hx. apply wp_bind. eapply wp_mono; [apply IH|]. intros res t' [(xs & E & Hf & ->) Hv]. apply wp_ret. split.
    - exists (x :: xs). rewrite E, Et, <-app_assoc. split_and!; [done|by constructor|done].
    - intros v Hne. by rewrite Hv, Ev. }
  assert (∀ v, v ≠ url -> String.eqb url v = false) as Hneq by (intros v Hne; apply String.eqb_neq; congruence).
  wp_go. wp_ask slot idtac. destruct slot; cbn [negb].
  2: { apply (Hgo n (None, Some ErrContext)); [by rewrite exchanges_snoc; cbn; rewrite String.eqb_refl| |right; auto].
       intros v Hne. rewrite exchanges_snoc. cbn. by rewrite (Hneq v Hne), app_nil_r. }
  assert (∀ v, exchanges v (tr ++ [Ev (mSlot sendCtx url) true]) = exchanges v tr) as E0.
  { intros v. rewrite exchanges_snoc. cbn. by rewrite andb_false_r, app_nil_r. }
  wp_go. wp_ask isOpen idtac. destruct isOpen.
  { apply (Hgo n (None, Some ErrNoHealthyEndpoints)); [by rewrite exchanges_snoc, E0; cbn; rewrite String.eqb_refl| |right; auto].
    intros v Hne. rewrite exchanges_snoc, E0. cbn. by rewrite (Hneq v Hne), app_nil_r. }
  unfold ClientRegister. wp_go. wp_ask resp idtac. wp_go. set (t1 := (_ ++ _) ++ [_]).
  assert (exchanges url t1 = exchanges url tr ++ [(Some (watchOf token url reg), watchResult resp)] ∧ ∀ v, v ≠ url -> exchanges v t1 = exchanges v tr) as [E1 E1'].
  { unfold t1. split; [|intros v Hne]; rewrite 2 exchanges_snoc, E0; cbn [exchangeAt]; rewrite andb_false_r; cbn [option_list]; rewrite app_nil_r.
    - by rewrite String.eqb_refl.
    - by rewrite (Hneq v Hne), app_nil_r. }
  eapply (wp_mono _ _ _ _ (fun _ t => project decisive t = project decisive t1)); [apply (quiet_wp decisive); [apply classifyCtx_quiet|done]|].
  intros judge t2 E2. wp_go.
  eapply (wp_mono _ _ _ _ (fun _ t => project decisive t = project decisive t1)); [apply (quiet_wp decisive); [apply poolRecord_quiet|intros _ t3 E3; by rewrite E3]|].
  intros [] t3 E3. apply (Hgo _ (Some (watchOf token url reg), watchResult resp)); [| |by left].
  - by rewrite (project_exchanges url _ _ E3).
  - intros v Hne. rewrite (project_exchanges v _ _ E3). by apply E1'.
Qed.

(** *** All endpoints *)

Lemma closed_ex urls tr :
  NoDup urls ->
  mwp0 (closedEndpoints urls) tr (fun targets t => targets `sublist_of` urls
    ∧ ∀ v, exchanges v t = exchanges v tr ++ (if bool_decide (v ∈ urls ∧ v ∉ targets) then [(None, Some ErrNoHealthyEndpoints)] else [])).
Proof.
  revert tr. induction urls as [|u urls IH]; intros tr Hnd; cbn [closedEndpoints].
  { apply wp_ret. split; [constructor|]. intros v. rewrite bool_decide_false; [by rewrite app_nil_r|]. by intros [?%elem_of_nil _]. }
  apply NoDup_cons in Hnd as [Hni Hnd]. wp_go. wp_ask isOpen idtac. wp_go. eapply wp_mono; [by apply IH|]. intros rest t [Hsub He]. apply wp_ret.
  assert (u ∉ rest) as Hnr by (intros Hin; by eapply Hni, elem_of_sublist).
  split; [destruct isOpen; by constructor|]. intros v. rewrite He, exchanges_snoc, <-app_assoc. f_equal. cbn [exchangeAt].
  destruct (String.eqb_spec u v) as [<-|Hne]; cbn [andb].
  - rewrite (bool_decide_false (u ∈ urls ∧ _)) by tauto. destruct isOpen; cbn [option_list app].
    + rewrite bool_decide_true; [done|]. split; [by left|done].
    + rewrite bool_decide_false; [done|]. intros [_ Hx]. apply Hx. by left.
  - cbn [option_list app]. assert (∀ l, (v ∈ u :: l) ↔ v ∈ l) as Hc by (intros l; rewrite elem_of_cons; split; [intros [?|?]; [congruence|done]|by right]).
    erewrite bool_decide_ext; [done|]. destruct isOpen; by rewrite !Hc.
Qed.

Lemma collectTargets_ex n targets regs cl tr :
  NoDup targets ->
  mwp0 (collectTargets token n targets regs cl) tr
    (fun cl' t => (∀ u, u ∈ targets -> ∃ xs, exchanges u t = exchanges u tr ++ xs ∧ Forall2 (exchanged u) regs xs ∧ perEndpoint cl' !! u = Some xs.*2)
       ∧ ∀ u, u ∉ targets -> exchanges u t = exchanges u tr ∧ perEndpoint cl' !! u = perEndpoint cl !! u).
Proof.
  revert cl tr. induction targets as [|u targets IH]; intros cl tr Hnd; cbn [collectTargets].
  { apply wp_ret. split; [by intros ? ?%elem_of_nil|done]. }
  apply NoDup_cons in Hnd as [Hni Hnd]. apply wp_bind.
  eapply (wp_mono _ _ _ _ (fun cl1 t => perEndpoint cl1 = perEndpoint cl ∧ ∀ v, exchanges v t = exchanges v tr)).
  { unfold onGrace. destruct (grace cl); [|by apply wp_ret]. wp_go. wp_ask fired idtac. destruct fired.
    - wp_go. wp_ask x idtac. wp_go. split; [done|]. intros v. by rewrite !exchanges_snoc, !app_nil_r.
    - wp_go. split; [done|]. intros v. by rewrite exchanges_snoc, app_nil_r. }
  intros cl1 t1 [E1 X1]. wp_go. unfold runEndpointBatch. eapply wp_mono; [apply batchLoop_ex|]. intros res t2 [(xs & X2 & Hf & ->) X2'].
  wp_go. eapply wp_mono; [eapply (makes_frame _ _ decisive); [apply onEvents_quiet|eapply mwp_weaken; [|apply onEvents_wp]; done]|].
  intros cl2 t3 [[_ E3] X3]. rewrite foldl_app in E3. cbn in E3. rewrite foldl_accept_results in E3. cbn in E3. rewrite acks_results, E1 in E3.
  assert (∀ v, exchanges v t3 = exchanges v t2) as X3' by (intros v; by apply project_exchanges).
  eapply wp_mono; [by apply IH|]. intros cl3 t4 [Hin Hout]. split.
  - intros v [->|Hv]%elem_of_cons.
    + destruct (Hout u Hni) as [Eu Ec]. exists xs. split_and!; [|done|by rewrite Ec, E3, lookup_insert_eq]. by rewrite Eu, X3', X2, X1.
    + destruct (Hin v Hv) as (ys & Ey & Hy & Ec). assert (v ≠ u) as Hne by (intros ->; done). exists ys. split_and!; [|done|done].
      by rewrite Ey, X3', X2', X1.
  - intros v [Hne Hv]%not_elem_of_cons. destruct (Hout v Hv) as [Ev Ec]. rewrite Ev, Ec, X3', X2', X1, E3 by done. split; [done|]. by apply lookup_insert_ne.
Qed.

(** ** The promise *)

(** The answers of an endpoint to the registrations, as the trace shows them:
    skipped for its open breaker, or one exchange for each in order. *)
Definition answersFrom (url : string) (regs : list Registration) (tr : MTrace) (answers : list (option svcErr)) : Prop :=
  (exchanges url tr = [(None, Some ErrNoHealthyEndpoints)] ∧ answers = replicate (length regs) (Some ErrNoHealthyEndpoints))
  ∨ (Forall2 (exchanged url) regs (exchanges url tr) ∧ answers = (exchanges url tr).*2).

(** Which error is more worth a retry: no answer at all, then a fault of the
    server, then a refused credential, then a refused request. *)
Definition retryOrder (e : svcErr) : nat :=
  match e with
  | ErrTransport _ | ErrContext | ErrNoHealthyEndpoints => 0
  | RegisterError code _ | ReprocessErr code _ | probeError code =>
      if bool_decide (500 <= code)%Z then 1 else if bool_decide (code = 401%Z ∨ code = 403%Z) then 2 else 3
  end.

Lemma rank_order e : errRank false (Some e) = Z.of_nat (S (retryOrder e)).
Proof.
  assert (∀ code, (if (500 <=? code)%Z then (outcome5xx, true) else if (code =? 401)%Z || (code =? 403)%Z then (outcomeAuth, false) else (outcome4xx, false)) =
    (if bool_decide (500 <= code)%Z then (outcome5xx, true) else if bool_decide (code = 401%Z ∨ code = 403%Z) then (outcomeAuth, false) else (outcome4xx, false))) as Hc.
  { intros code. destruct (Z.leb_spec 500 code); [by rewrite bool_decide_true|]. rewrite (bool_decide_false (500 <= code)%Z) by lia.
    destruct (Z.eqb_spec code 401), (Z.eqb_spec code 403); cbn [orb]; [by rewrite bool_decide_true by auto..|by rewrite bool_decide_false by tauto]. }
  unfold errRank, classify, retryOrder. destruct e as [code ?|code ?|code| | |]; cbn [statusCodeOf]; try done; rewrite Hc; by repeat case_bool_decide.
Qed.

(** What an entry of the pool's answer is, given the answers of the endpoints. *)
Definition entryOf (t : MTrace) (o : option svcErr) (col : list (option svcErr)) : Prop :=
  match o with
  | None => None ∈ col
  | Some e => (None ∉ col) ∧ Some e ∈ col ∧ (uncancelled t -> ∀ e', Some e' ∈ col -> (retryOrder e <= retryOrder e')%nat)
  end.

Lemma pooled_entry t o col : pooled t o col -> entryOf t o col.
Proof.
  destruct o as [e|]; [|done]. intros (? & ? & Hm). split_and!; [done|done|]. intros Hu e' He'. destruct (Hm Hu) as [_ Hr]. specialize (Hr e' He'). rewrite !rank_order in Hr. lia.
Qed.

(** The endpoint acknowledged the request for the registration at [j]. *)
Definition taken (tr : MTrace) (url : string) (j : nat) (reg : Registration) : Prop :=
  exchanges url tr !! j = Some (Some (watchOf token url reg), None).

Definition promised (urls : list string) (regs : list Registration) (tr : MTrace) (out : list (option svcErr)) : Prop :=
  length out = length regs
  ∧ ∃ answers : string -> list (option svcErr),
      (∀ u, u ∈ urls -> answersFrom u regs tr (answers u))
      ∧ ∀ j reg o, regs !! j = Some reg -> out !! j = Some o ->
          (urls ≠ [] -> entryOf tr o (List.map (fun u => default None (answers u !! j)) urls))
          ∧ (o = None ↔ ∃ u, u ∈ urls ∧ taken tr u j reg)
          ∧ (NoDup regs -> o = None ↔ ∃ u, u ∈ urls ∧ acked token tr u reg)
          ∧ (o = None -> ∀ u, u ∈ urls -> taken tr u j reg ∨ Ev (mOp u (oAdd reg)) tt ∈ tr).

Lemma answer_taken url regs tr answers j reg :
  answersFrom url regs tr answers -> regs !! j = Some reg -> answers !! j = Some None ↔ taken tr url j reg.
Proof.
  unfold taken. intros [[Ex ->]|[Hf ->]] Hj.
  - rewrite Ex. split; [by intros [? _]%lookup_replicate|by destruct j].
  - rewrite list_lookup_fmap. destruct (Forall2_lookup_l _ _ _ _ _ Hf Hj) as ([rq err] & -> & Hx). cbn. split.
    + intros [= ->]. destruct Hx as [Hx|[_ [Hx|Hx]]]; cbn in Hx; [by rewrite Hx|done..].
    + by intros [= -> ->].
Qed.

Lemma answers_length url regs tr answers : answersFrom url regs tr answers -> length answers = length regs.
Proof. intros [[_ ->]|[Hf ->]]; [apply length_replicate|]. rewrite length_fmap. symmetry. by eapply Forall2_length. Qed.

Lemma watchOf_inj url reg reg' : watchOf token url reg = watchOf token url reg' -> reg = reg'.
Proof.
  destruct reg as [a b c], reg' as [a' b' c']. unfold watchOf, omitEmpty. cbn. destruct (String.eqb_spec c ""), (String.eqb_spec c' ""); intros [=]; congruence.
Qed.

Lemma taken_acked tr url j reg : taken tr url j reg -> acked token tr url reg.
Proof.
  intros Ht. apply list_elem_of_lookup_2, list_elem_of_omap in Ht as ([c x] & Hin & E).
  destruct c as [|ctx u|ctx u rq|u op| | | | |]; cbn in E; try done.
  - by destruct (_ && _).
  - destruct (String.eqb_spec u url) as [->|]; [|done]. injection E as -> E. destruct x as [|code body]; [done|]. cbn in E. unfold accepted2xx in E.
    exists ctx, code, body. split; [done|]. destruct (Z.ltb_spec code 200), (Z.leb_spec 300 code); try done; lia.
  - destruct op; try done. by destruct (_ && _).
Qed.

Lemma acked_exchanged tr url reg : acked token tr url reg -> (Some (watchOf token url reg), None) ∈ exchanges url tr.
Proof.
  intros (ctx & code & body & Hin & Hc). apply list_elem_of_omap. eexists. split; [exact Hin|]. cbn. rewrite String.eqb_refl. unfold accepted2xx.
  destruct (Z.ltb_spec code 200), (Z.leb_spec 300 code); try lia; done.
Qed.

Lemma acked_taken url regs tr answers j reg :
  answersFrom url regs tr answers -> NoDup regs -> regs !! j = Some reg -> acked token tr url reg -> taken tr url j reg.
Proof.
  intros Ha Hnd Hj Hac%acked_exchanged. unfold taken. destruct Ha as [[Ex _]|[Hf _]]; [rewrite Ex in Hac; by apply list_elem_of_singleton in Hac|].
  apply list_elem_of_lookup_1 in Hac as [k Hk]. destruct (Forall2_lookup_r _ _ _ _ _ Hf Hk) as (reg' & Hk' & [Hx|[Hx _]]); [|done]. cbn [fst] in Hx. assert (reg = reg') as <- by (apply (watchOf_inj url); congruence).
  by rewrite (NoDup_lookup _ _ _ _ Hnd Hj Hk').
Qed.

(** What the answers of the endpoints settle. *)
Lemma pooled_taken urls regs tr (answers : string -> list (option svcErr)) j reg o :
  (∀ u, u ∈ urls -> answersFrom u regs tr (answers u)) -> regs !! j = Some reg ->
  pooled tr o (List.map (fun u => default None (answers u !! j)) urls) -> o = None ↔ ∃ u, u ∈ urls ∧ taken tr u j reg.
Proof.
  intros Ha Hj Hp. assert (None ∈ List.map (fun u => default None (answers u !! j)) urls ↔ ∃ u, u ∈ urls ∧ taken tr u j reg) as Hn.
  { rewrite list_elem_of_In, in_map_iff. split.
    - intros (u & E & Hu%list_elem_of_In). exists u. split; [done|]. eapply (answer_taken u); [by apply Ha|done|].
      destruct (answers u !! j) as [a|] eqn:Ej; [cbn in E; by rewrite E|]. apply lookup_ge_None in Ej. apply lookup_lt_Some in Hj.
      rewrite (answers_length u regs tr) in Ej by (by apply Ha). lia.
    - intros (u & Hu & Ht). exists u. split; [|by apply list_elem_of_In]. eapply (answer_taken u) in Ht; [|by apply Ha|done]. by rewrite Ht. }
  rewrite <-Hn. destruct o as [e|]; [|by split]. destruct Hp as (Hno & _). by split.
Qed.

Lemma promise_parts urls regs tr out (answers : string -> list (option svcErr)) :
  length out = length regs -> (∀ u, u ∈ urls -> answersFrom u regs tr (answers u)) ->
  (∀ j reg o, regs !! j = Some reg -> out !! j = Some o ->
     (urls ≠ [] -> pooled tr o (List.map (fun u => default None (answers u !! j)) urls)) ∧ (urls = [] -> o ≠ None)
     ∧ (o = None -> ∀ u, u ∈ urls -> taken tr u j reg ∨ Ev (mOp u (oAdd reg)) tt ∈ tr)) ->
  promised urls regs tr out.
Proof.
  intros Hlen Ha Hrest. split; [done|]. exists answers. split; [done|]. intros j reg o Hj Ho. destruct (Hrest j reg o Hj Ho) as (Hp & Hnil & Hq).
  assert (o = None ↔ ∃ u, u ∈ urls ∧ taken tr u j reg) as Hiff.
  { destruct (decide (urls = [])) as [->|Hne]; [|by eapply pooled_taken; [done|done|apply Hp]]. split; [intros E; by destruct (Hnil eq_refl)|by intros (u & ?%elem_of_nil & _)]. }
  split_and!; [intros Hne; by apply pooled_entry, Hp|done| |done]. intros Hnd. rewrite Hiff. split; intros (u & Hu & Ht); exists u; (split; [done|]); [by eapply taken_acked|].
  by eapply acked_taken; [apply Ha| | |].
Qed.

Lemma all_open_pooled urls t j n :
  urls ≠ [] -> (j < n)%nat ->
  pooled t (Some ErrNoHealthyEndpoints) (List.map (fun _ : string => default None (replicate n (Some ErrNoHealthyEndpoints) !! j)) urls).
Proof.
  intros Hne Hj. rewrite lookup_replicate_2 by done. cbn [default].
  assert (∀ x : option svcErr, x ∈ List.map (fun _ : string => Some ErrNoHealthyEndpoints) urls -> x = Some ErrNoHealthyEndpoints) as Hx by by intros x (u & <- & _)%list_elem_of_In%in_map_iff.
  assert (Some ErrNoHealthyEndpoints ∈ List.map (fun _ : string => Some ErrNoHealthyEndpoints) urls) as Hin by (destruct urls; [done|by left]).
  split_and!; [by intros ?%Hx|done|]. intros _. split; [done|]. intros e' He'%Hx. by injection He' as ->.
Qed.

Lemma register_ex urls regs : NoDup urls -> mwp0 (RegisterBatchWithResults token urls regs) [] (fun out t => promised urls regs t out).
Proof.
  intros Hnd. unfold RegisterBatchWithResults. destruct (Nat.eqb_spec (length regs) 0) as [E0|Hne0].
  { apply nil_length_inv in E0 as ->. apply wp_ret. apply (promise_parts _ _ _ _ (fun _ => [])); [done|intros u _; by right|done]. }
  wp_go. eapply wp_mono; [by apply closed_ex|]. intros targets t1 [Hsub X1]. destruct (Nat.eqb_spec (length targets) 0) as [Et|Hnt].
  { apply nil_length_inv in Et as ->. wp_go. apply (promise_parts _ _ _ _ (fun _ => replicate (length regs) (Some ErrNoHealthyEndpoints))); [by rewrite length_replicate| |].
    - intros u Hu. left. rewrite X1, bool_decide_true; [done|]. split; [done|apply not_elem_of_nil].
    - intros j reg o Hj Ho. apply lookup_replicate in Ho as [-> Hlt]. split_and!; [|done|done]. intros Hne. by apply all_open_pooled. }
  unfold collectEndpointBatches. wp_go. eapply wp_mono; [apply collectTargets_ex; by eapply sublist_NoDup|]. intros cl t2 [Hin Hout].
  wp_go. wp_ask x idtac. wp_go. set (results := perEndpoint cl) in *. set (t3 := t2 ++ [_]).
  assert (∀ v, exchanges v t3 = exchanges v t2) as X3 by (intros v; unfold t3; by rewrite exchanges_snoc, app_nil_r).
  assert (∀ u, u ∈ targets -> Forall2 (exchanged u) regs (exchanges u t3) ∧ results !! u = Some (exchanges u t3).*2) as Htar.
  { intros u Hu. destruct (Hin u Hu) as (xs & E & Hf & Er). rewrite X1, bool_decide_false in E by (by intros [_ ?]). rewrite X3, E. by split. }
  assert (∀ u, u ∈ urls -> u ∉ targets -> exchanges u t3 = [(None, Some ErrNoHealthyEndpoints)] ∧ results !! u = None) as Hskip.
  { intros u Hu Hn. destruct (Hout u Hn) as [E Er]. rewrite X3, E, X1, bool_decide_true by done. split; [done|]. rewrite Er. apply lookup_empty. }
  assert (∀ u, u ∈ targets ↔ is_Some (results !! u)) as Hdom.
  { intros u. split; [intros Hu; destruct (Htar u Hu) as [_ ->]; done|]. intros [res E]. destruct (decide (u ∈ targets)) as [|Hni]; [done|].
    destruct (Hout u Hni) as [_ Er]. fold results in Er. rewrite E in Er. cbn in Er. by rewrite lookup_empty in Er. }
  assert (∀ u, u ∈ urls -> answersFrom u regs t3 (answersOf results (length regs) u)) as Hans.
  { intros u Hu. unfold answersOf. destruct (decide (u ∈ targets)) as [Ht|Ht].
    - destruct (Htar u Ht) as [Hf ->]. by right.
    - destruct (Hskip u Hu Ht) as [E ->]. by left. }
  eapply wp_mono; [eapply (makes_frame _ _ decisive); [apply mergeAll_quiet|eapply mwp_weaken; [|apply mergeAll_wp; by destruct targets]; done]|].
  intros out t4 [[_ Hf] P4]. assert (length out = length regs) as Hlen by (apply Forall2_length in Hf; by rewrite length_seq in Hf).
  wp_go. eapply wp_mono; [eapply (makes_frame _ _ decisive); [apply queueAll_quiet|apply (queueAll_wp (fun _ _ => True)); done]|].
  intros [] t5 [[Hs5 Hq] P5]. wp_go. assert (∀ v, exchanges v t5 = exchanges v t3) as X5 by (intros v; apply project_exchanges; by rewrite P5).
  assert (∀ u, u ∈ urls -> answersFrom u regs t5 (answersOf results (length regs) u)) as Hans5 by (intros u Hu; unfold answersFrom; rewrite X5; by apply Hans).
  apply (promise_parts _ _ _ _ (answersOf results (length regs))); [done|done|]. intros j reg o Hj Ho. destruct (forall2_seq _ _ _ _ _ Hf Ho) as [Hp Hlt]. split_and!.
  - intros _. eapply pooled_grows; [exact Hs5|]. eapply pooled_perm; [|exact Hp]. apply candidates_perm; try done.
    intros u res E. assert (u ∈ targets) as Hu by (by apply Hdom). pose proof (answers_length u regs t3 _ (Hans u (elem_of_sublist _ _ _ Hu Hsub))) as El.
    unfold answersOf in El. by rewrite E in El.
  - intros ->. apply sublist_nil_r in Hsub as ->. done.
  - intros -> u Hu. destruct (missed (results !! u) j) eqn:Em; [right; by eapply Hq|left]. eapply (answer_taken u); [by apply Hans5|done|].
    unfold missed, answersOf in *. destruct (results !! u) as [res|]; [|done]. cbn. by destruct (res !! j) as [[]|].
Qed.
End Promise.

(** ** Theorem *)

(** C38: The pool's answer to a batch can be relied on.  There is one entry per
    registration.  The trace has at each endpoint, unless the whole batch was
    skipped there for its open breaker, exactly one exchange for each
    registration, in order: its own request with the answer, or none because
    the context was done or the breaker had opened.  An entry is nil exactly
    when some endpoint answered the request of that registration with a 2xx
    status (for distinct registrations: exactly when such an answer is in the
    trace at all), and then every endpoint of the pool did so or has it put
    into its catch-up queue.  Otherwise the entry is one of the errors of the
    endpoints for that registration and, if the caller was not cancelled, no
    endpoint's error for it is more worth a retry.  In every run, cut short or
    not, nothing is sent to an endpoint without a closed breaker, no failure is
    counted without a failed answer to a request, and nothing is queued that
    no endpoint took. *)
Theorem pool_promise us token opts regs tr :
  let urls := Endpoints (NewPool us token opts) in
  (begins (RegisterBatchWithResults token urls regs) tr -> ∀ tr1 e tr2, tr = tr1 ++ e :: tr2 -> poolMay token urls regs tr1 (ev_call e))
  ∧ ∀ out, ends (RegisterBatchWithResults token urls regs) tr out -> promised token urls regs tr out.
Proof.
  cbn zeta. pose proof (endpoints_nodup us token opts) as Hnd. split.
  - intros Hb tr1 e tr2 ->. eapply (wp_begins _ (fun _ _ => True)); [by apply register_wp|exact Hb|done|done].
  - intros out He. by apply (wp_ends _ (fun _ _ => True) _ _ _ _ (register_ex token _ regs Hnd) He).
Qed.

Lemma pool_promise_witness :
  let urls := Endpoints (NewPool ["up/"; " down"; "up"] "secret" []) in
  let regs := [regOf "a"; regOf "b"] in
  let r := run poolHandle (RegisterBatchWithResults "secret" urls regs) ∅ in
  let tr := run_trace poolHandle (RegisterBatchWithResults "secret" urls regs) ∅ in
  urls = ["up"; "down"] ∧ r.1 = [None; None]
  ∧ (exchanges "down" tr).*2 = [Some (RegisterError 503 "busy"); Some (RegisterError 503 "busy")]
  ∧ (order ∘ pending <$> (r.2 !! "down")) = Some ["a"; "b"]
  ∧ promised "secret" urls regs tr r.1.
Proof.
  cbn zeta. split_and!; [vm_compute; reflexivity..|]. apply (proj2 (pool_promise _ _ _ _ _)), run_ends.
Defined.
