(* ===== verification/Webhook.v ===== *)
(** * Webhook: delivering status changes to callback URLs

    Models [src/services/webhook/service.go] and [reaper.go]: the intake loop
    with its bounded work queue, the fan-out of an update to the submissions
    of its transactions, the claim before a POST, the bookkeeping after it,
    and the leader's sweep of deliveries due for a retry.  Every interaction
    is a call ([wcall]) with an arbitrary answer.  The delivery workers run the
    same program ([handleUpdate]) side by side; a theorem about its calls is
    about each of them.  The body of a request is the status it encodes. *)
From stdpp Require Import base gmap strings list pretty.
From Stdlib Require Import Ascii ZArith Lia.
From Stdlib Require Import Strings.Byte.
From S2P Require Import Prelude Models Effects BumpCalls.

(** ** Calls *)

Record WebhookConfig : Type := mkWebhookConfig {
  MaxRetries : Z;
  InitialBackoffMs : Z;
  MaxBackoffMs : Z;
  MaxConcurrentDeliveries : Z;
  HTTPTimeoutMs : Z;
  ReaperIntervalMs : Z;
  LeaseTTLMs : Z;
  wh_hasLeaser : bool
}.

(** A callback request: where to, with which bearer token, and what. *)
Record callback : Type := mkCallback {
  cb_url : string;
  cb_bearer : option string;
  cb_body : TransactionStatus
}.

(** A URL no request can be built for, an error of the exchange, a status. *)
Inductive postAnswer : Type :=
| postUnbuildable
| postError (text : string)
| postStatus (StatusCode : Z).

Inductive wcall : Type :=
| hSubscribe
| hRecv
| hOffer (st : TransactionStatus)
| hSubmissions (txid : string)
| hEnrich (st : TransactionStatus)
| hCAS (id : string) (expected next : Status)
| hPost (id : string) (cb : callback)
| hRecordAttempt (id : string) (at_ : Time) (result : string)
| hUpdateDelivery (id : string) (lastStatus : Status) (retryCount : Z) (nextRetry : option Time)
| hNow
| hCtxDone
| hLease
| hRelease
| hTick
| hReady (now : Time) (limit : Z)
| hGetStatus (txid : string).

Definition wanswer (c : wcall) : Type :=
  match c with
  | hSubscribe | hRecordAttempt _ _ _ | hUpdateDelivery _ _ _ _ => option error
  | hRecv => option (option TransactionStatus)
  | hOffer _ | hCtxDone | hTick => bool
  | hSubmissions _ | hReady _ _ => Res (list Submission)
  | hEnrich _ => TransactionStatus
  | hCAS _ _ _ => Res bool
  | hPost _ _ => postAnswer
  | hNow => Time
  | hLease => Res Time
  | hRelease => unit
  | hGetStatus _ => Res (option TransactionStatus)
  end.

Abbreviation WHProg := (prog wanswer).
Abbreviation WHTrace := (trace wanswer).

Definition millisecond : Z := 1000000.
Definition second : Z := 1000000000.
Definition defaultMaxConcurrentDeliveries : Z := 32.
Definition webhookReaperBatch : Z := 200.
Definition deliveryResultDelivered : string := "delivered".

(** [New]: the timeout, the sweep interval and the lease time. *)
Definition resolvedTimes (cfg : WebhookConfig) : Z * Z * Z :=
  let timeout := int64 (HTTPTimeoutMs cfg * millisecond) in
  let timeout := if (timeout <=? 0)%Z then (10 * second)%Z else timeout in
  let reaperInterval := int64 (ReaperIntervalMs cfg * millisecond) in
  let reaperInterval := if (reaperInterval <=? 0)%Z then (30 * second)%Z else reaperInterval in
  let leaseTTL := int64 (LeaseTTLMs cfg * millisecond) in
  let leaseTTL := if (leaseTTL <=? 0)%Z then int64 (3 * reaperInterval) else leaseTTL in
  (timeout, reaperInterval, leaseTTL).

Definition workersOf (cfg : WebhookConfig) : Z :=
  if (MaxConcurrentDeliveries cfg <=? 0)%Z then defaultMaxConcurrentDeliveries else MaxConcurrentDeliveries cfg.

Section Webhook.
Variable cfg : WebhookConfig.

(** ** Back-off *)

Definition initialBackoff : Z :=
  let i := int64 (InitialBackoffMs cfg * millisecond) in if (i <=? 0)%Z then (5 * second)%Z else i.
Definition maxBackoffOf : Z :=
  let m := int64 (MaxBackoffMs cfg * millisecond) in if (m <=? 0)%Z then (300 * second)%Z else m.

(** The loop of [computeBackoff]; [None] goes on after it. *)
Fixpoint backoffLoop (n : nat) (d : Z) : Z + Z :=
  match n with
  | O => inl d
  | S n =>
      let d := int64 (d * 2) in
      if (maxBackoffOf <=? d)%Z then inr maxBackoffOf else backoffLoop n d
  end.

Definition computeBackoff (retryCount : Z) : Z :=
  match backoffLoop (Z.to_nat (retryCount - 1)) initialBackoff with
  | inr d => d
  | inl d => if (maxBackoffOf <? d)%Z then maxBackoffOf else d
  end.

Definition maxRetriesOf : Z := if (MaxRetries cfg <=? 0)%Z then 10%Z else MaxRetries cfg.

(** ** Bookkeeping *)

Definition recordAttempt (sub : Submission) (result : string) : WHProg unit :=
  now ← perform hNow;
  perform (hRecordAttempt (sb_SubmissionID sub) now result) ;;
  mret tt.

Definition addTime (t : Time) (d : Z) : Time := match t with Some ns => Some (ns + d)%Z | None => None end.

Definition recordFailure (sub : Submission) (status : TransactionStatus) : WHProg unit :=
  let nextCount := (sb_RetryCount sub + 1)%Z in
  if (maxRetriesOf <=? nextCount)%Z then
    perform (hUpdateDelivery (sb_SubmissionID sub) (ts_Status status) nextCount None) ;;
    mret tt
  else
    now ← perform hNow;
    perform (hUpdateDelivery (sb_SubmissionID sub) (ts_Status status) nextCount (Some (addTime now (computeBackoff nextCount)))) ;;
    mret tt.

(** ** One delivery *)

Definition callbackOf (sub : Submission) (status : TransactionStatus) : callback :=
  mkCallback (sb_CallbackURL sub) (if String.eqb (sb_CallbackToken sub) "" then None else Some (sb_CallbackToken sub)) status.

Definition delivered (code : Z) : bool := negb ((code <? 200)%Z || (300 <=? code)%Z).

Definition deliver (sub : Submission) (status : TransactionStatus) : WHProg unit :=
  claimed ← perform (hCAS (sb_SubmissionID sub) (sb_LastDeliveredStatus sub) (ts_Status status));
  match (claimed : Res bool) with
  | Err _ | Ok false => mret tt
  | Ok true =>
      resp ← perform (hPost (sb_SubmissionID sub) (callbackOf sub status));
      match (resp : postAnswer) with
      | postUnbuildable => mret tt
      | postError text =>
          recordAttempt sub text ;;
          recordFailure sub status
      | postStatus code =>
          if delivered code then recordAttempt sub deliveryResultDelivered
          else
            recordAttempt sub ("status " +:+ pretty code) ;;
            recordFailure sub status
      end
  end.

(** ** An update *)

Definition shouldDeliver (sub : Submission) (status : TransactionStatus) : bool :=
  if String.eqb (sb_LastDeliveredStatus sub) (ts_Status status)
  then String.eqb (ts_Status status) StatusMined && String.eqb (ts_ExtraInfo status) ExtraInfoReorgReanchor
  else if sb_FullStatusUpdates sub then true
  else existsb (String.eqb (ts_Status status)) [StatusMined; StatusRejected; StatusImmutable; StatusDoubleSpendAttempted].

(** The loop over the submissions; the status is enriched once, and shared. *)
Fixpoint dispatchSubs (enriched : bool) (status : TransactionStatus) (subs : list Submission) : WHProg unit :=
  match subs with
  | [] => mret tt
  | sub :: subs =>
      if String.eqb (sb_CallbackURL sub) "" || negb (shouldDeliver sub status) then dispatchSubs enriched status subs
      else
        status ← (if enriched then mret status else perform (hEnrich status));
        deliver sub status ;;
        dispatchSubs true status subs
  end.

Definition dispatchOne (status : TransactionStatus) : WHProg unit :=
  subs ← perform (hSubmissions (ts_TxID status));
  match (subs : Res (list Submission)) with
  | Err _ => mret tt
  | Ok subs => dispatchSubs false status subs
  end.

Definition perTxOf (status : TransactionStatus) (txid : string) : TransactionStatus :=
  mkTransactionStatus txid (ts_Status status) (ts_StatusCode status) (ts_Timestamp status) [] (ts_BlockHash status)
    (ts_BlockHeight status) (ts_MerklePath status) (ts_ExtraInfo status) (ts_CompetingTxs status) (ts_RawTx status)
    (ts_RetryCount status) (ts_NextRetryAt status) (ts_CreatedAt status) (ts_OrphanedProofs status) (ts_MerkleRegisteredAt status).

Fixpoint dispatchAll (status : TransactionStatus) (txids : list string) : WHProg unit :=
  match txids with
  | [] => mret tt
  | txid :: txids => dispatchOne (perTxOf status txid) ;; dispatchAll status txids
  end.

Definition handleUpdate (status : TransactionStatus) : WHProg unit :=
  match ts_TxIDs status with
  | [] => dispatchOne status
  | txids => dispatchAll status txids
  end.

(** ** The intake *)

(** The reader: what it receives goes to the bounded queue, or is dropped
    when the queue is full. *)
Fixpoint readLoop (n : nat) : WHProg unit :=
  match n with
  | O => mret tt
  | S n =>
      got ← perform hRecv;
      match (got : option (option TransactionStatus)) with
      | None => mret tt
      | Some None => readLoop n
      | Some (Some st) => perform (hOffer st) ;; readLoop n
      end
  end.

Definition Start (running : bool) (n : nat) : WHProg (option error) :=
  if running then mret (Some (ErrMsg "webhook service already running"))
  else
    err ← perform hSubscribe;
    match (err : option error) with
    | Some e => mret (Some e)
    | None => readLoop n ;; mret None
    end.

(** ** The retry sweep *)

Definition retryStatus (sub : Submission) (now : Time) : TransactionStatus :=
  mkTransactionStatus (sb_TxID sub) (sb_LastDeliveredStatus sub) 0 now [] "" 0 [] "" [] [] 0 None None [] None.

Definition graft (status full : TransactionStatus) : TransactionStatus :=
  mkTransactionStatus (ts_TxID status) (ts_Status status) (ts_StatusCode status) (ts_Timestamp status) (ts_TxIDs status) (ts_BlockHash full)
    (ts_BlockHeight full) (ts_MerklePath full) (ts_ExtraInfo status) (ts_CompetingTxs status) (ts_RawTx status)
    (ts_RetryCount status) (ts_NextRetryAt status) (ts_CreatedAt status) (ts_OrphanedProofs status) (ts_MerkleRegisteredAt status).

Definition isMinedStatus (st : Status) : bool := String.eqb st StatusMined || String.eqb st StatusImmutable.

Fixpoint retrySubs (subs : list Submission) : WHProg unit :=
  match subs with
  | [] => mret tt
  | sub :: subs =>
      done ← perform hCtxDone;
      if (done : bool) then mret tt
      else if String.eqb (sb_CallbackURL sub) "" then retrySubs subs
      else
        now ← perform hNow;
        let status := retryStatus sub now in
        status ← (if isMinedStatus (ts_Status status) then
                    full ← perform (hGetStatus (sb_TxID sub));
                    mret (match (full : Res (option TransactionStatus)) with Ok (Some full) => graft status full | _ => status end)
                  else mret status);
        deliver sub status ;;
        retrySubs subs
  end.

Definition reapOnce : WHProg unit :=
  now ← perform hNow;
  subs ← perform (hReady now webhookReaperBatch);
  match (subs : Res (list Submission)) with
  | Err _ => mret tt
  | Ok subs => retrySubs subs
  end.

Definition tryReap : WHProg unit :=
  if negb (wh_hasLeaser cfg) then mret tt
  else
    held ← perform hLease;
    match (held : Res Time) with
    | Ok (Some _) => reapOnce
    | _ => mret tt
    end.

Fixpoint reapLoop (ticks : nat) : WHProg unit :=
  match ticks with
  | O => mret tt
  | S ticks =>
      go ← perform hTick;
      if (go : bool) then tryReap ;; reapLoop ticks
      else if wh_hasLeaser cfg then perform hRelease ;; mret tt else mret tt
  end.

Definition runReaper (ticks : nat) : WHProg unit := tryReap ;; reapLoop ticks.
End Webhook.
