(* ===== verification/WebhookProps.v ===== *)
(** * WebhookProps: what webhook delivery promises

    Every callback is claimed first and claimed once, every outcome is
    recorded, no listed submission is skipped, and retries back off within
    their bounds; then how the claim behaves over the Pebble store. *)
From stdpp Require Import base gmap strings list pretty.
From Stdlib Require Import Ascii ZArith Lia.
From Stdlib Require Import Strings.Byte.
From S2P Require Import Prelude Models Keys Effects BumpCalls Engine PebbleSubs PebbleSubsProps Webhook.

(** ** Evidence *)

Definition isClaim (c : wcall) : bool := match c with hCAS _ _ _ | hPost _ _ => true | _ => false end.

(** The store listed the submission for the transaction of the status and it
    is to be told, or it is due for a retry of the status it has. *)
Definition due (tr : WHTrace) (sub : Submission) (status : TransactionStatus) : Prop :=
  (∃ subs, Event (hSubmissions (ts_TxID status)) (Ok subs) ∈ tr ∧ sub ∈ subs ∧ shouldDeliver sub status = true)
  ∨ (∃ now subs, Event (hReady now webhookReaperBatch) (Ok subs) ∈ tr ∧ sub ∈ subs
       ∧ ts_Status status = sb_LastDeliveredStatus sub ∧ ts_TxID status = sb_TxID sub).

Definition failedPost (resp : postAnswer) : bool :=
  match resp with postUnbuildable => false | postError _ => true | postStatus code => negb (delivered code) end.

Definition resultText (resp : postAnswer) : string :=
  match resp with
  | postUnbuildable => ""
  | postError text => text
  | postStatus code => if delivered code then deliveryResultDelivered else ("status " +:+ pretty code)
  end.

(** The last claim or POST is the POST of this callback. *)
Definition justPosted (tr : WHTrace) (id : string) (cb : callback) (resp : postAnswer) : Prop :=
  last (project isClaim tr) = Some (Event (hPost id cb) resp).

Definition whMay (cfg : WebhookConfig) (tr : WHTrace) (c : wcall) : Prop :=
  match c with
  | hCAS id expected next =>
      ∃ sub status, due tr sub status ∧ sb_CallbackURL sub ≠ "" ∧ id = sb_SubmissionID sub
        ∧ expected = sb_LastDeliveredStatus sub ∧ next = ts_Status status
  | hPost id cb =>
      ∃ sub, due tr sub (cb_body cb) ∧ sb_CallbackURL sub ≠ "" ∧ id = sb_SubmissionID sub ∧ cb = callbackOf sub (cb_body cb)
        ∧ last (project isClaim tr) = Some (Event (hCAS id (sb_LastDeliveredStatus sub) (ts_Status (cb_body cb))) (Ok true))
  | hRecordAttempt id at_ result => ∃ cb resp, justPosted tr id cb resp ∧ result = resultText resp ∧ Event hNow at_ ∈ tr
  | hUpdateDelivery id st n next =>
      ∃ sub cb resp, justPosted tr id cb resp ∧ failedPost resp = true ∧ due tr sub (cb_body cb) ∧ id = sb_SubmissionID sub
        ∧ st = ts_Status (cb_body cb) ∧ n = (sb_RetryCount sub + 1)%Z
        ∧ ((next = None ∧ (maxRetriesOf cfg <= n)%Z)
           ∨ ((n < maxRetriesOf cfg)%Z ∧ ∃ now, Event hNow now ∈ tr ∧ next = Some (addTime now (computeBackoff cfg n))))
  | hReady _ _ => ∃ until, Event hLease (Ok (Some until)) ∈ tr
  | _ => True
  end.

(** Enrichment attaches proofs and leaves what identifies the change. *)
Definition enrichRely (tr : WHTrace) (e : event wanswer) : Prop :=
  match ev_call e as c return wanswer c -> Prop with
  | hEnrich st => fun st' => ts_TxID st' = ts_TxID st ∧ ts_Status st' = ts_Status st ∧ ts_ExtraInfo st' = ts_ExtraInfo st
  | _ => fun _ => True
  end (ev_answer e).

Abbreviation whwp cfg := (wp (whMay cfg) enrichRely).

Lemma due_grows tr tr' sub status : tr ⊆ tr' -> due tr sub status -> due tr' sub status.
Proof. intros Hs [(subs & ? & ?)|(now & subs & ? & ?)]; [left; exists subs; auto|right; exists now, subs; auto]. Qed.

Lemma due_same tr sub st st' :
  ts_TxID st' = ts_TxID st -> ts_Status st' = ts_Status st -> ts_ExtraInfo st' = ts_ExtraInfo st -> due tr sub st -> due tr sub st'.
Proof.
  intros E1 E2 E3 [(subs & ? & ? & Hs)|(now & subs & ? & ? & ? & ?)]; [left; exists subs|right; exists now, subs].
  - rewrite E1. split_and!; [done|done|]. unfold shouldDeliver in *. by rewrite E2, E3.
  - by rewrite E1, E2.
Qed.

Lemma last_claim_snoc (tr : WHTrace) e : isClaim (ev_call e) = true -> last (project isClaim (tr ++ [e])) = Some e.
Proof. intros E. rewrite project_app. cbn. rewrite E. by rewrite last_snoc. Qed.

Lemma last_claim_skip (tr : WHTrace) e : isClaim (ev_call e) = false -> last (project isClaim (tr ++ [e])) = last (project isClaim tr).
Proof. intros E. rewrite project_app. cbn. rewrite E. by rewrite app_nil_r. Qed.

(** ** One delivery *)

(** What became of a delivery to [id] of [st]. *)
Definition handled (tr : WHTrace) (id : string) (st : Status) : Prop :=
  ∃ expected ans, Event (hCAS id expected st) ans ∈ tr
    ∧ (ans = Ok true -> ∃ cb resp, Event (hPost id cb) resp ∈ tr ∧ ts_Status (cb_body cb) = st
         ∧ (failedPost resp = true -> ∃ n next a, Event (hUpdateDelivery id st n next) a ∈ tr)).

Lemma handled_grows tr tr' id st : tr ⊆ tr' -> handled tr id st -> handled tr' id st.
Proof.
  intros Hs (expected & ans & Hin & H). exists expected, ans. split; [auto|]. intros Ha. destruct (H Ha) as (cb & resp & ? & ? & Hf).
  exists cb, resp. split_and!; [auto|done|]. intros Hx. destruct (Hf Hx) as (n & next & a & ?). exists n, next, a. auto.
Qed.

Section Delivery.
Variable cfg : WebhookConfig.

Lemma recordAttempt_wp sub result tr cb resp :
  justPosted tr (sb_SubmissionID sub) cb resp -> result = resultText resp ->
  whwp cfg (recordAttempt sub result) tr (fun _ t => tr ⊆ t ∧ justPosted t (sb_SubmissionID sub) cb resp).
Proof.
  intros Hj Hr. unfold recordAttempt. wp_go. wp_ask now idtac. wp_go.
  wp_ask e ltac:(exists cb, resp; split_and!; [by unfold justPosted; rewrite last_claim_skip|done|apply snoc_here]). wp_go.
  split; [rewrite <-app_assoc; intros x Hx; apply elem_of_app; by left|]. unfold justPosted. by rewrite !last_claim_skip.
Qed.

Lemma recordFailure_wp sub status tr cb resp :
  justPosted tr (sb_SubmissionID sub) cb resp -> failedPost resp = true -> due tr sub status -> cb_body cb = status ->
  whwp cfg (recordFailure cfg sub status) tr
    (fun _ t => tr ⊆ t ∧ ∃ n next a, Event (hUpdateDelivery (sb_SubmissionID sub) (ts_Status status) n next) a ∈ t).
Proof.
  intros Hj Hf Hd Hb. unfold recordFailure. destruct (Z.leb_spec (maxRetriesOf cfg) (sb_RetryCount sub + 1)).
  - wp_go. wp_ask e ltac:(exists sub, cb, resp; rewrite Hb; split_and!; try done; by left). wp_go.
    split; [apply grows_snoc|]. do 3 eexists. apply snoc_here.
  - wp_go. wp_ask now idtac. wp_go.
    wp_ask e ltac:(exists sub, cb, resp; rewrite Hb; split_and!; try done;
      [by unfold justPosted; rewrite last_claim_skip|eapply due_grows; [apply grows_snoc|done]|right; split; [done|]; exists now; split; [apply snoc_here|done]]).
    wp_go. split; [rewrite <-app_assoc; intros x Hx; apply elem_of_app; by left|]. do 3 eexists. apply snoc_here.
Qed.

Lemma deliver_wp sub status tr :
  due tr sub status -> sb_CallbackURL sub ≠ "" ->
  whwp cfg (deliver cfg sub status) tr (fun _ t => tr ⊆ t ∧ handled t (sb_SubmissionID sub) (ts_Status status)).
Proof.
  intros Hd Hu. unfold deliver. wp_go. wp_ask claimed ltac:(exists sub, status; by split_and!). set (cas := Event (answer := wanswer) (hCAS (sb_SubmissionID sub) (sb_LastDeliveredStatus sub) (ts_Status status)) claimed).
  assert (claimed ≠ Ok true -> handled (tr ++ [cas]) (sb_SubmissionID sub) (ts_Status status)) as Hno.
  { intros Hne. exists (sb_LastDeliveredStatus sub), claimed. split; [apply snoc_here|done]. }
  destruct claimed as [[]|e]; [|wp_go; split; [apply grows_snoc|by apply Hno]..].
  wp_go. wp_ask resp ltac:(exists sub; split_and!; try done; [eapply due_grows; [apply grows_snoc|done]|by apply last_claim_snoc]).
  set (cb := callbackOf sub status). set (post := Event (answer := wanswer) (hPost (sb_SubmissionID sub) cb) resp).
  assert (tr ⊆ (tr ++ [cas]) ++ [post]) as Hg by (rewrite <-app_assoc; intros x Hx; apply elem_of_app; by left).
  assert (justPosted ((tr ++ [cas]) ++ [post]) (sb_SubmissionID sub) cb resp) as Hj by (by apply last_claim_snoc).
  assert (∀ t, (tr ++ [cas]) ++ [post] ⊆ t -> (failedPost resp = true -> ∃ n next a, Event (hUpdateDelivery (sb_SubmissionID sub) (ts_Status status) n next) a ∈ t) ->
    tr ⊆ t ∧ handled t (sb_SubmissionID sub) (ts_Status status)) as Hfin.
  { intros t Ht Hf. split; [by etrans|]. exists (sb_LastDeliveredStatus sub), (Ok true). split; [apply Ht, elem_of_app; left; apply snoc_here|].
    intros _. exists cb, resp. split_and!; [apply Ht, snoc_here|done|done]. }
  assert (∀ result, result = resultText resp -> failedPost resp = true -> whwp cfg (recordAttempt sub result ;; recordFailure cfg sub status) ((tr ++ [cas]) ++ [post])
    (fun _ t => tr ⊆ t ∧ handled t (sb_SubmissionID sub) (ts_Status status))) as Hfail.
  { intros result Hr Hf. wp_go. eapply wp_mono; [by eapply recordAttempt_wp|]. intros [] t [Ht Hjt].
    eapply wp_mono; [by eapply recordFailure_wp; [| |eapply due_grows; [|exact Hd]; etrans|]|]. intros [] t' [Ht' Hup]. apply Hfin; [by etrans|done]. }
  destruct resp as [|text|code]; [wp_go; by apply Hfin|by apply Hfail|]. destruct (delivered code) eqn:Ed.
  - eapply wp_mono; [eapply recordAttempt_wp; [exact Hj|cbn; by rewrite Ed]|]. intros [] t [Ht _]. apply Hfin; [done|]. cbn. by rewrite Ed.
  - apply Hfail; cbn; by rewrite Ed.
Qed.

(** ** An update *)

(** Every submission listed that is to be told was dealt with. *)
Definition toldAll (t : WHTrace) (subs : list Submission) (status : TransactionStatus) : Prop :=
  ∀ sub, sub ∈ subs -> sb_CallbackURL sub ≠ "" -> shouldDeliver sub status = true -> handled t (sb_SubmissionID sub) (ts_Status status).

Lemma shouldDeliver_same sub st st' :
  ts_Status st' = ts_Status st -> ts_ExtraInfo st' = ts_ExtraInfo st -> shouldDeliver sub st' = shouldDeliver sub st.
Proof. intros E1 E2. unfold shouldDeliver. by rewrite E1, E2. Qed.

Lemma dispatchSubs_wp enriched status all subs tr :
  subs ⊆ all -> Event (hSubmissions (ts_TxID status)) (Ok all) ∈ tr ->
  whwp cfg (dispatchSubs cfg enriched status subs) tr (fun _ t => tr ⊆ t ∧ toldAll t subs status).
Proof.
  revert enriched status tr. induction subs as [|sub subs IH]; intros enriched status tr Hsub Hin; cbn [dispatchSubs].
  { wp_go. split; [done|]. by intros ? ?%elem_of_nil. }
  assert (subs ⊆ all) as Hsub' by (intros x Hx; apply Hsub; by right).
  destruct (String.eqb_spec (sb_CallbackURL sub) "") as [Eu|Hu]; cbn [orb].
  { eapply wp_mono; [by apply IH|]. intros _ t [Ht H]. split; [done|]. intros s [->|?]%elem_of_cons ??; [done|by apply H]. }
  destruct (shouldDeliver sub status) eqn:Es; cbn [negb].
  2:{ eapply wp_mono; [by apply IH|]. intros _ t [Ht H]. split; [done|]. intros s [->|?]%elem_of_cons ??; [congruence|by apply H]. }
  assert (∀ st' t0, tr ⊆ t0 -> ts_TxID st' = ts_TxID status -> ts_Status st' = ts_Status status -> ts_ExtraInfo st' = ts_ExtraInfo status ->
    whwp cfg (deliver cfg sub st' ;; dispatchSubs cfg true st' subs) t0 (fun _ t => tr ⊆ t ∧ toldAll t (sub :: subs) status)) as Hgo.
  { intros st' t0 Ht0 E1 E2 E3. wp_go. eapply wp_mono; [apply deliver_wp; [|done]|].
    - apply (due_same _ _ status); [done..|]. left. exists all. split_and!; [by apply Ht0|apply Hsub; by left|done].
    - intros [] t1 [Ht1 Hh]. eapply wp_mono; [apply IH; [done|rewrite E1; by apply Ht1, Ht0]|]. intros [] t2 [Ht2 Hall].
      split; [by etrans; [|etrans]|]. intros s [->|Hs]%elem_of_cons Hsu Hsd; [rewrite <-E2; by eapply handled_grows|].
      rewrite <-E2. apply Hall; [done|done|]. by rewrite (shouldDeliver_same _ status). }
  apply wp_bind. destruct enriched; [by apply wp_ret, Hgo|]. apply (wp_perform (whMay cfg) enrichRely); [done|].
  intros st' (E1 & E2 & E3). apply Hgo; [apply grows_snoc|done..].
Qed.

(** The lookup of a transaction was made and what it listed was told. *)
Definition toldTx (t : WHTrace) (status : TransactionStatus) (txid : string) : Prop :=
  ∃ ans, Event (hSubmissions txid) ans ∈ t ∧ ∀ subs, ans = Ok subs -> toldAll t subs (perTxOf status txid).

Lemma toldTx_grows t t' status txid : t ⊆ t' -> toldTx t status txid -> toldTx t' status txid.
Proof. intros Hs (ans & Hin & H). exists ans. split; [auto|]. intros subs E sub ? ? ?. eapply handled_grows; [exact Hs|]. by eapply H. Qed.

Lemma toldAll_per t subs status txid : toldAll t subs status -> toldAll t subs (perTxOf status txid).
Proof. intros H sub Hi Hu Hs. apply H; [done|done|]. by rewrite <-(shouldDeliver_same _ _ (perTxOf status txid)). Qed.

Lemma dispatchOne_wp status tr :
  whwp cfg (dispatchOne cfg status) tr (fun _ t => tr ⊆ t ∧ toldTx t status (ts_TxID status)).
Proof.
  unfold dispatchOne. wp_go. wp_ask subs idtac. destruct subs as [subs|e].
  - eapply wp_mono; [apply (dispatchSubs_wp _ _ subs); [done|apply snoc_here]|]. intros [] t [Ht H]. apply snoc_grows in Ht as [Ht Hin].
    split; [done|]. exists (Ok subs). split; [done|]. intros ? [= <-]. by apply toldAll_per.
  - wp_go. split; [apply grows_snoc|]. exists (Err e). split; [apply snoc_here|done].
Qed.

Definition txidsOf (status : TransactionStatus) : list string :=
  match ts_TxIDs status with [] => [ts_TxID status] | txids => txids end.

Lemma handleUpdate_wp status tr :
  whwp cfg (handleUpdate cfg status) tr (fun _ t => tr ⊆ t ∧ ∀ txid, txid ∈ txidsOf status -> toldTx t status txid).
Proof.
  assert (∀ txids tr, whwp cfg (dispatchAll cfg status txids) tr (fun _ t => tr ⊆ t ∧ ∀ txid, txid ∈ txids -> toldTx t status txid)) as Hall.
  { clear tr. induction txids as [|txid txids IH]; intros tr; cbn [dispatchAll]; [wp_go; split; [done|]; by intros ? ?%elem_of_nil|].
    wp_go. eapply wp_mono; [apply dispatchOne_wp|]. intros [] t [Ht (ans & Hin & Hd)]. eapply wp_mono; [apply IH|]. intros [] t' [Ht' Hr].
    split; [by etrans|]. intros x [->|Hx]%elem_of_cons; [|by apply Hr]. eapply toldTx_grows; [exact Ht'|]. exists ans. split; [done|].
    intros subs E sub Hi Hu Hs. apply (Hd subs E sub Hi Hu). by rewrite (shouldDeliver_same _ (perTxOf status txid)). }
  unfold handleUpdate, txidsOf. destruct (ts_TxIDs status); [|apply Hall].
  eapply wp_mono; [apply dispatchOne_wp|]. intros [] t [Ht H]. split; [done|]. by intros x ->%list_elem_of_singleton.
Qed.

(** ** The sweep *)

Lemma retrySubs_wp now all subs tr :
  subs ⊆ all -> Event (hReady now webhookReaperBatch) (Ok all) ∈ tr -> whwp cfg (retrySubs cfg subs) tr (fun _ t => tr ⊆ t).
Proof.
  revert tr. induction subs as [|sub subs IH]; intros tr Hsub Hin; cbn [retrySubs]; [by wp_go|].
  assert (subs ⊆ all) as Hsub' by (intros x Hx; apply Hsub; by right).
  wp_go. wp_ask d idtac. destruct d; [wp_go; apply grows_snoc|]. destruct (String.eqb_spec (sb_CallbackURL sub) "") as [Eu|Hu].
  { eapply wp_mono; [apply IH; [done|apply elem_of_app; by left]|]. intros [] t Ht. destruct (snoc_grows _ _ _ Ht); done. }
  wp_go. wp_ask now' idtac. set (t1 := (tr ++ _) ++ _). assert (tr ⊆ t1) as Hs1 by (unfold t1; rewrite <-app_assoc; intros x Hx; apply elem_of_app; by left).
  assert (∀ st t, t1 ⊆ t -> ts_Status st = sb_LastDeliveredStatus sub -> ts_TxID st = sb_TxID sub ->
    whwp cfg (deliver cfg sub st ;; retrySubs cfg subs) t (fun _ t => tr ⊆ t)) as Hgo.
  { intros st t Ht Es Ex. wp_go. eapply wp_mono; [apply deliver_wp; [|done]|].
    - right. exists now, all. split_and!; [by apply Ht, Hs1|apply Hsub; by left|done|done].
    - intros [] t2 [Ht2 _]. eapply wp_mono; [apply IH; [done|by apply Ht2, Ht, Hs1]|]. intros [] t3 Ht3. by do 3 (etrans; [eassumption|]). }
  apply wp_bind. destruct (isMinedStatus _); [|by apply wp_ret, Hgo]. apply wp_bind. wp_ask full idtac. apply wp_ret.
  apply Hgo; [apply grows_snoc|by destruct full as [[]|]..].
Qed.

Lemma sweep_wp ticks tr : whwp cfg (runReaper cfg ticks) tr (fun _ _ => True).
Proof.
  assert (∀ t, whwp cfg (tryReap cfg) t (fun _ _ => True)) as Htry.
  { intros t. unfold tryReap. destruct (wh_hasLeaser cfg); cbn [negb]; [|by wp_go]. wp_go. wp_ask got idtac.
    destruct got as [[until|]|e]; [|by wp_go..]. unfold reapOnce. wp_go. wp_ask now idtac. wp_go.
    wp_ask subs ltac:(exists until; apply elem_of_app; left; apply snoc_here). destruct subs as [subs|e]; [|by wp_go].
    eapply wp_mono; [apply (retrySubs_wp now subs); [done|apply snoc_here]|done]. }
  unfold runReaper. wp_go. eapply wp_mono; [apply Htry|]. intros [] t _. clear tr. revert t.
  induction ticks as [|ticks IH]; intros t; cbn [reapLoop]; [by wp_go|]. wp_go. wp_ask go idtac. destruct go.
  - wp_go. eapply wp_mono; [apply Htry|]. intros [] t' _. apply IH.
  - destruct (wh_hasLeaser cfg); [|by wp_go]. wp_go. wp_ask u idtac. by wp_go.
Qed.
End Delivery.

(** ** Back-off *)

(** The configured times fit in a [time.Duration]. *)
Definition backoffSane (cfg : WebhookConfig) : Prop :=
  (0 <= InitialBackoffMs cfg <= 2 ^ 40)%Z ∧ (0 <= MaxBackoffMs cfg <= 2 ^ 40)%Z.

Lemma backoff_base cfg : backoffSane cfg ->
  (0 < initialBackoff cfg < 2 ^ 61)%Z ∧ (0 < maxBackoffOf cfg < 2 ^ 61)%Z.
Proof.
  intros [Hi Hm]. unfold initialBackoff, maxBackoffOf, millisecond, second.
  assert (∀ z, (0 <= z <= 2 ^ 40)%Z -> int64 (z * 1000000) = (z * 1000000)%Z) as E.
  { intros z Hz. unfold int64. rewrite Z.mod_small by lia. lia. }
  rewrite !E by done. destruct (Z.leb_spec (InitialBackoffMs cfg * 1000000) 0), (Z.leb_spec (MaxBackoffMs cfg * 1000000) 0); lia.
Qed.

Lemma backoffLoop_spec cfg n d :
  backoffSane cfg -> (0 < d < maxBackoffOf cfg)%Z ->
  match backoffLoop cfg n d with
  | inl r => r = (d * 2 ^ Z.of_nat n)%Z ∧ (r < maxBackoffOf cfg)%Z
  | inr r => r = maxBackoffOf cfg ∧ (maxBackoffOf cfg <= d * 2 ^ Z.of_nat n)%Z
  end.
Proof.
  intros Hs. destruct (backoff_base cfg Hs) as [_ Hm]. revert d. induction n as [|n IH]; intros d Hd; cbn [backoffLoop].
  - change (2 ^ Z.of_nat 0)%Z with 1%Z. lia.
  - assert (int64 (d * 2) = d * 2)%Z as -> by (unfold int64; rewrite Z.mod_small; lia).
    rewrite Nat2Z.inj_succ, Z.pow_succ_r by lia. destruct (Z.leb_spec (maxBackoffOf cfg) (d * 2)) as [Hle|Hlt].
    + split; [done|]. pose proof (Z.pow_pos_nonneg 2 (Z.of_nat n)). nia.
    + specialize (IH (d * 2)%Z ltac:(lia)). destruct (backoffLoop cfg n (d * 2)); rewrite <-?Z.mul_assoc in *; lia.
Qed.

(** The back-off of the [n]-th retry is the initial one doubled [n-1] times,
    or the maximum if that is less. *)
Lemma computeBackoff_exact cfg n :
  backoffSane cfg -> (1 <= n)%Z -> computeBackoff cfg n = Z.min (initialBackoff cfg * 2 ^ (n - 1)) (maxBackoffOf cfg).
Proof.
  intros Hs Hn. destruct (backoff_base cfg Hs) as [Hi Hm]. unfold computeBackoff.
  destruct (Z.lt_ge_cases (initialBackoff cfg) (maxBackoffOf cfg)) as [Hlt|Hge].
  - pose proof (backoffLoop_spec cfg (Z.to_nat (n - 1)) (initialBackoff cfg) Hs ltac:(lia)) as Hl. rewrite Z2Nat.id in Hl by lia.
    destruct (backoffLoop _ _ _) as [r|r]; destruct Hl as [-> Hl]; [|lia]. destruct (Z.ltb_spec (maxBackoffOf cfg) (initialBackoff cfg * 2 ^ (n - 1))); lia.
  - assert (1 <= 2 ^ (n - 1))%Z by (change 1%Z with (2 ^ 0)%Z at 1; apply Z.pow_le_mono_r; lia).
    destruct (Z.to_nat (n - 1)) as [|k] eqn:Ek; cbn [backoffLoop].
    + assert (n = 1)%Z as -> by lia. change (2 ^ (1 - 1))%Z with 1%Z. destruct (Z.ltb_spec (maxBackoffOf cfg) (initialBackoff cfg)); lia.
    + assert (int64 (initialBackoff cfg * 2) = initialBackoff cfg * 2)%Z as -> by (unfold int64; rewrite Z.mod_small; lia).
      destruct (Z.leb_spec (maxBackoffOf cfg) (initialBackoff cfg * 2)); [nia|lia].
Qed.

(** ** Theorems *)

(** C35: Nothing is delivered that was not claimed.  In every run of an update
    and of the retry sweep, cut short or not: a claim is made only for a
    submission the store listed, with a callback URL, that is to be told of
    this status (or is due for a retry of the one it has, under the lease);
    each POST follows a won claim of exactly that submission and transition,
    with no claim or POST in between; an attempt is recorded only with the
    outcome of the POST just made; and retry state is written only after a
    failed POST, for the claimed status, with the next count and the exact
    back-off, or with no further retry once the retries are used up. *)
Theorem webhook_backed cfg tr :
  honoured enrichRely [] tr ->
  (∃ status, begins (handleUpdate cfg status) tr) ∨ (∃ ticks, begins (runReaper cfg ticks) tr) ->
  ∀ tr1 e tr2, tr = tr1 ++ e :: tr2 -> whMay cfg tr1 (ev_call e).
Proof.
  intros Hr Hb tr1 e tr2 E. destruct Hb as [[status Hb]|[ticks Hb]]; (eapply (wp_begins (whMay cfg) enrichRely); [|exact Hb|exact Hr|exact E]).
  - apply handleUpdate_wp.
  - apply sweep_wp.
Qed.

(** Nobody is forgotten.  When an update ends, the submissions of each of its
    transactions were looked up, and every submission listed with a callback
    URL that is to be told was claimed; if the claim was won the callback was
    posted, and if that failed a retry was booked. *)
Theorem webhook_tells_all cfg status tr :
  ends (handleUpdate cfg status) tr tt -> honoured enrichRely [] tr -> ∀ txid, txid ∈ txidsOf status -> toldTx tr status txid.
Proof. intros He Hr. apply (wp_ends (whMay cfg) enrichRely _ _ _ _ (handleUpdate_wp cfg status []) He Hr). Qed.

(** ** Over the Pebble store *)

Section Claims.
Context {DB : Type} `{EngineReliable DB}.

(** [n] replicas that got the same re-anchor event claim one after the other. *)
Fixpoint claimMined (n : nat) (id : string) (d : DB) : list (Res bool) :=
  match n with
  | O => []
  | S n => let '(r, d') := UpdateDeliveryStatusCAS background id StatusMined StatusMined d in r :: claimMined n id d'
  end.

(** A re-anchored transaction is announced by every replica.  The claim of a
    MINED status over a MINED one changes nothing a later claim could see:
    every one of any number of replicas wins it, and each of them is to
    deliver the event. *)
Theorem reanchor_claimed_by_all (id : string) (s : storedSubmission) (d : DB) (n : nat) (status : TransactionStatus) :
  view d !! subKey id = Some (PSubmission s) -> su_LastDeliveredStatus s = StatusMined ->
  ts_Status status = StatusMined -> ts_ExtraInfo status = ExtraInfoReorgReanchor ->
  shouldDeliver (storedSubmission_toModel s) status = true ∧ claimMined n id d = replicate n (Ok true).
Proof.
  intros Hl Hs E1 E2. split; [unfold shouldDeliver; cbn; by rewrite Hs, E1, E2|]. clear E1 E2. revert s d Hl Hs.
  induction n as [|n IH]; intros s d Hl Hs; cbn [claimMined replicate]; [done|].
  unfold UpdateDeliveryStatusCAS, background. cbn [ctx_err]. rewrite (readSubmission_row _ _ _ Hl), Hs. cbn [negb String.eqb].
  destruct (set_total (subKey id) (PSubmission (deliveredRow s StatusMined 0 0)) true d) as (d' & E & Hv).
  change (negb (String.eqb StatusMined StatusMined)) with false. cbv iota. rewrite E.
  f_equal. apply (IH (deliveredRow s StatusMined 0 0)); [by rewrite Hv, lookup_insert_eq|done].
Qed.
End Claims.

Definition resErr {A} (r : Res A) : option error := match r with Ok _ => None | Err e => Some e end.

(** A worker over the Pebble store: the answer to its POST, and what others
    do to the store while the POST is under way. *)
Definition storeHandle (resp : postAnswer) (meanwhile : MemDB -> MemDB) (c : wcall) (d : MemDB) : wanswer c * MemDB :=
  match c as c return wanswer c * MemDB with
  | hSubscribe => (None, d)
  | hRecv => (None, d)
  | hOffer _ | hCtxDone => (false, d)
  | hTick => (false, d)
  | hSubmissions txid => let '(subs, err) := GetSubmissionsByTxID background txid d in (match err with None => Ok subs | Some e => Err e end, d)
  | hEnrich st => (st, d)
  | hCAS id expected next => UpdateDeliveryStatusCAS background id expected next d
  | hPost _ _ => (resp, meanwhile d)
  | hRecordAttempt id at_ result => let '(r, d) := RecordDeliveryAttempt background id at_ result d in (resErr r, d)
  | hUpdateDelivery id st n next => let '(r, d) := UpdateDeliveryStatus background id st n (UnixNano <$> next) d in (resErr r, d)
  | hNow => (Some 1000%Z, d)
  | hLease => (Ok (Some 2000%Z), d)
  | hRelease => (tt, d)
  | hReady now limit => (ListSubmissionsReadyForRetry (fun _ l => l) background (Some (10 ^ 15)%Z) limit d, d)
  | hGetStatus _ => (Ok None, d)
  end.

Definition whCfg : WebhookConfig := mkWebhookConfig 3 100 1000 0 0 0 0 true.
Definition whSub : Submission := mkSubmission "s1" "aa" "http://cb" "" true "" 0 None 0 None "" None.
Definition whStore : MemDB := (InsertSubmission background whSub (∅ : MemDB)).2.
Definition statusOf (st : Status) : TransactionStatus :=
  mkTransactionStatus "aa" st 0 (Some 5%Z) [] "" 0 [] "" [] [] 0 None None [] None.

(** The row of the submission: its status, its retries, its next retry. *)
Definition deliveryRow (d : MemDB) : option (Status * Z * Z) :=
  match readSubmission d "s1" with
  | Ok (Some s) => Some (su_LastDeliveredStatus s, su_RetryCount s, su_NextRetryUnixNs s)
  | _ => None
  end.

(** Another worker handles the MINED update and delivers it. *)
Definition minedMeanwhile (d : MemDB) : MemDB :=
  (run (storeHandle (postStatus 200) id) (handleUpdate whCfg (statusOf StatusMined)) d).2.

Definition postedStatuses (tr : WHTrace) : list Status :=
  omap (fun e => match ev_call e with hPost _ cb => Some (ts_Status (cb_body cb)) | _ => None end) tr.

(** A failed POST takes back the claim of a later status.  While one worker
    waits for the answer to SEEN_ON_NETWORK another claims and delivers MINED;
    the first POST fails, and its retry is booked with an unconditional write
    of SEEN_ON_NETWORK over the MINED claim.  The retry sweep then posts
    SEEN_ON_NETWORK after MINED. *)
Theorem failed_post_rolls_back :
  let slow := run (storeHandle (postStatus 500) minedMeanwhile) (handleUpdate whCfg (statusOf StatusSeenOnNetwork)) whStore in
  (∃ claimed, deliveryRow (minedMeanwhile claimed) = Some (StatusMined, 0%Z, 0%Z)
     ∧ claimed = (UpdateDeliveryStatusCAS background "s1" "" StatusSeenOnNetwork whStore).2)
  ∧ deliveryRow slow.2 = Some (StatusSeenOnNetwork, 1%Z, 100001000%Z)
  ∧ postedStatuses (run_trace (storeHandle (postStatus 200) id) (runReaper whCfg 0) slow.2) = [StatusSeenOnNetwork].
Proof. cbv zeta. split; [eexists; split; [|reflexivity]; vm_compute; reflexivity|]. split; vm_compute; reflexivity. Qed.

(** The retries of one status are charged to the next.  After the retries of
    SEEN_ON_NETWORK are used up a single failed POST of MINED is the last: the
    claim reset the stored count, but the count of the listed row is used. *)
Lemma retries_carry_over :
  let usedUp := (UpdateDeliveryStatus background "s1" StatusSeenOnNetwork 3 None whStore).2 in
  deliveryRow (run (storeHandle (postStatus 503) id) (handleUpdate whCfg (statusOf StatusMined)) usedUp).2 = Some (StatusMined, 4%Z, 0%Z).
Proof. vm_compute. reflexivity. Qed.

(** ** Witnesses *)

Lemma storeHandle_honoured resp meanwhile tr c d : enrichRely tr (Event c (storeHandle resp meanwhile c d).1).
Proof. by destruct c. Qed.

Definition whHandle := storeHandle (postStatus 503) id.

Lemma webhook_backed_witness :
  let tr := run_trace whHandle (handleUpdate whCfg (statusOf StatusMined)) whStore in
  postedStatuses tr = [StatusMined] ∧ ∀ tr1 e tr2, tr = tr1 ++ e :: tr2 -> whMay whCfg tr1 (ev_call e).
Proof.
  cbn zeta. split; [vm_compute; reflexivity|].
  apply (webhook_backed whCfg _ (run_honoured whHandle enrichRely _ _ [] (storeHandle_honoured _ _))). left. exists (statusOf StatusMined). apply run_begins.
Defined.

Lemma webhook_tells_all_witness :
  let r := run whHandle (handleUpdate whCfg (statusOf StatusMined)) whStore in
  deliveryRow r.2 = Some (StatusMined, 1%Z, 100001000%Z)
  ∧ toldTx (run_trace whHandle (handleUpdate whCfg (statusOf StatusMined)) whStore) (statusOf StatusMined) "aa".
Proof.
  cbn zeta. split; [vm_compute; reflexivity|].
  apply (webhook_tells_all whCfg (statusOf StatusMined)); [|apply run_honoured, storeHandle_honoured|by left].
  pose proof (run_ends whHandle (handleUpdate whCfg (statusOf StatusMined)) whStore) as He. by destruct (run whHandle _ whStore) as [[] ?].
Defined.

Lemma reanchor_claimed_by_all_witness :
  claimMined 3 "s1" (UpdateDeliveryStatusCAS background "s1" "" StatusMined whStore).2 = [Ok true; Ok true; Ok true].
Proof.
  apply (reanchor_claimed_by_all (DB := MemDB) "s1" (deliveredRow (submissionRow whSub) StatusMined 0 0) _ 3
    (mkTransactionStatus "aa" StatusMined 0 None [] "" 0 [] ExtraInfoReorgReanchor [] [] 0 None None [] None)); vm_compute; reflexivity.
Defined.
