(* ===== verification/Sse.v ===== *)
(** * Sse: status events to connected clients

    Models [src/services/sse]: the cache of subscribed tokens
    ([tokenindex.go], over the LRU library as an interface), the registry of
    clients and the fan-out ([manager.go]) as functions on their state, and
    the goroutine of one connection, with its catch-up replays, as a program
    over the store, the socket and the atomics it shares with the fan-out.
    A frame is the record it encodes. *)
From stdpp Require Import base gmap strings list pretty.
From Stdlib Require Import Ascii ZArith Lia.
From Stdlib Require Import Strings.Byte.
From S2P Require Import Prelude Models BumpCache Effects Verdicts.

(** ** The token index *)

Definition maxTokenCacheEntries : nat := Z.to_nat 65536.
Definition maxTokenCacheBytes : Z := 16777216.
Definition tokenCacheTTL : Z := 120000000000.
Definition entryOverhead : Z := 160.
Definition tokenOverhead : Z := 16.

Abbreviation tokenSet := (list string).
Definition has (s : tokenSet) (token : string) : bool := existsb (String.eqb token) s.

Record cacheEntry : Type := mkCacheEntry {
  ce_tokens : tokenSet;
  ce_expiresAt : Z
}.

Definition entryCost (txid : string) (tokens : tokenSet) : Z :=
  foldl (fun cost t => cost + (tokenOverhead + Z.of_nat (String.length t)))%Z (entryOverhead + Z.of_nat (String.length txid))%Z tokens.

Section TokenIndex.
Context {L : Type} {LruL : LRU L cacheEntry}.

Record tokenIndex : Type := mkTokenIndex {
  ti_maxBytes : Z;
  ti_ttl : Z;
  ti_lru : L;
  ti_bytes : Z
}.

(** The evict callback, with the key the library calls it with. *)
Definition onEvict (bytes : Z) (evicted : option (string * cacheEntry)) : Z :=
  match evicted with Some (k, v) => (bytes - entryCost k (ce_tokens v))%Z | None => bytes end.

Definition removeKey (l : L) (k : string) (bytes : Z) : L * Z :=
  let '(l', v) := lru_remove l k in (l', onEvict bytes ((fun v => (k, v)) <$> v)).
Definition addKey (l : L) (k : string) (v : cacheEntry) (bytes : Z) : L * Z :=
  let '(l', _) := lru_add l k v in (l', onEvict bytes (((k, v) :: lru_entries l) !! lru_size l)).
Definition removeOldest (l : L) (bytes : Z) : L * Z :=
  let '(l', _) := lru_removeOldest l in (l', onEvict bytes (last (lru_entries l))).

(** The clock is in nanoseconds. *)
Definition cached (now : Z) (t : tokenIndex) (txid : string) : option tokenSet * tokenIndex :=
  let '(entry, l) := lru_get (ti_lru t) txid in
  match entry with
  | None => (None, mkTokenIndex (ti_maxBytes t) (ti_ttl t) l (ti_bytes t))
  | Some e =>
      if (ce_expiresAt e <? now)%Z
      then let '(l, bytes) := removeKey l txid (ti_bytes t) in (None, mkTokenIndex (ti_maxBytes t) (ti_ttl t) l bytes)
      else (Some (ce_tokens e), mkTokenIndex (ti_maxBytes t) (ti_ttl t) l (ti_bytes t))
  end.

(** [for t.bytes > t.maxBytes && t.lru.Len() > 1]: a round drops an entry. *)
Fixpoint trimLoop (fuel : nat) (maxBytes : Z) (l : L) (bytes : Z) : L * Z :=
  match fuel with
  | O => (l, bytes)
  | S fuel =>
      if (maxBytes <? bytes)%Z && (1 <? length (lru_entries l))%nat
      then let '(l, bytes) := removeOldest l bytes in trimLoop fuel maxBytes l bytes
      else (l, bytes)
  end.

Definition addTokens (now : Z) (t : tokenIndex) (txid : string) (tokens : tokenSet) : tokenIndex :=
  let '(l, bytes) := removeKey (ti_lru t) txid (ti_bytes t) in
  let '(l, bytes) := addKey l txid (mkCacheEntry tokens (now + ti_ttl t)) bytes in
  let bytes := (bytes + entryCost txid tokens)%Z in
  let '(l, bytes) := trimLoop (length (lru_entries l)) (ti_maxBytes t) l bytes in
  mkTokenIndex (ti_maxBytes t) (ti_ttl t) l bytes.

(** [query] is the store's [TokensForTxIDs]; [now1] and [now2] are the times
    of the look-up and of the insertion. *)
Definition lookupTokens (query : list string -> Res (gmap string tokenSet)) (now1 now2 : Z) (t : tokenIndex) (txid : string)
  : tokenSet * tokenIndex :=
  if String.eqb txid "" then ([], t)
  else
    let '(hit, t) := cached now1 t txid in
    match hit with
    | Some tokens => (tokens, t)
    | None =>
        match query [txid] with
        | Err _ => ([], t)
        | Ok resolved =>
            let tokens := default [] (resolved !! txid) in
            (tokens, if (0 <? length tokens)%nat then addTokens now2 t txid tokens else t)
        end
    end.

Definition resolveBatch (query : list string -> Res (gmap string tokenSet)) (txids : list string) : gmap string tokenSet :=
  match txids with
  | [] => ∅
  | _ => match query txids with Err _ => ∅ | Ok resolved => resolved end
  end.
End TokenIndex.

(** ** Clients and the fan-out *)

Record Client : Type := mkClient {
  ID : Z;
  Token : string;
  Ch : list TransactionStatus;
  chCap : nat;
  ctxDone : bool;
  lastDelivered : Z;
  cl_dropped : bool;
  droppedFloor : Z;
  dropsSinceLog : Z;
  lastDropLog : Z;
  drainRetryMS : Z
}.

Definition withCh (ch : list TransactionStatus) (c : Client) : Client :=
  mkClient (ID c) (Token c) ch (chCap c) (ctxDone c) (lastDelivered c) (cl_dropped c) (droppedFloor c) (dropsSinceLog c) (lastDropLog c) (drainRetryMS c).
Definition withDrop (dr : bool) (floor since last : Z) (c : Client) : Client :=
  mkClient (ID c) (Token c) (Ch c) (chCap c) (ctxDone c) (lastDelivered c) dr floor since last (drainRetryMS c).
Definition cancel (retry : Z) (c : Client) : Client :=
  mkClient (ID c) (Token c) (Ch c) (chCap c) true (lastDelivered c) (cl_dropped c) (droppedFloor c) (dropsSinceLog c) (lastDropLog c) retry.

Definition dropLogInterval : Z := 1000000000.
Definition defaultClientBuffer : nat := Z.to_nat 8192.

(** The flags are written in one step here; their order is that of
    [Race] below. *)
Definition recordDrop (now : Z) (status : TransactionStatus) (c : Client) : Client :=
  let ts := UnixNano (ts_Timestamp status) in
  let floor := if (droppedFloor c <=? ts)%Z then droppedFloor c else ts in
  let drops := (dropsSinceLog c + 1)%Z in
  if (now - lastDropLog c <? dropLogInterval)%Z then withDrop true floor drops (lastDropLog c) c
  else withDrop true floor 0 now c.

(** Whether a client is to get an event of a transaction with [tokens]. *)
Definition wants (tokens : tokenSet) (c : Client) : bool := negb (negb (String.eqb (Token c) "") && negb (has tokens (Token c))).

(** The non-blocking send. *)
Definition sendTo (now : Z) (status : TransactionStatus) (c : Client) : Client :=
  if (length (Ch c) <? chCap c)%nat then withCh (Ch c ++ [status]) c else recordDrop now status c.

(** The loop of [deliver]; the status is enriched once, before the first send. *)
Fixpoint deliverLoop (enrich : TransactionStatus -> TransactionStatus) (now : Z) (enriched : bool) (status : TransactionStatus)
    (tokens : tokenSet) (clients : list Client) : list Client :=
  match clients with
  | [] => []
  | c :: clients =>
      if ctxDone c || negb (wants tokens c) then c :: deliverLoop enrich now enriched status tokens clients
      else
        let status := if enriched then status else enrich status in
        sendTo now status c :: deliverLoop enrich now true status tokens clients
  end.

Definition deliver (enrich : TransactionStatus -> TransactionStatus) (now : Z) (status : TransactionStatus) (tokens : tokenSet)
    (clients : list Client) : list Client := deliverLoop enrich now false status tokens clients.

Definition tokenScoped (clients : list Client) : bool := existsb (fun c => negb (String.eqb (Token c) "")) clients.

Section Manager.
Context {L : Type} {LruL : LRU L cacheEntry} `{MapOrder}.

(** [nextClientID] is an atomic int64; it counts connections from zero and is
    not wrapped here. *)
Record Manager : Type := mkManager {
  tokens : tokenIndex (L := L);
  parentDone : bool;
  nextClientID : Z;
  clientBufferSize : Z;
  catchupOnDrop : bool;
  clients : gmap Z Client
}.

Definition withClients (cs : gmap Z Client) (m : Manager) : Manager :=
  mkManager (tokens m) (parentDone m) (nextClientID m) (clientBufferSize m) (catchupOnDrop m) cs.
Definition withTokens (ti : tokenIndex (L := L)) (m : Manager) : Manager :=
  mkManager ti (parentDone m) (nextClientID m) (clientBufferSize m) (catchupOnDrop m) (clients m).

Definition snapshot (m : Manager) : list Client := List.map snd (mapRange (clients m)).

(** The clients are shared by pointer: the registry sees the changes. *)
Definition putBack (cs : list Client) (m : Manager) : Manager :=
  withClients (foldl (fun r c => <[ID c := c]> r) (clients m) cs) m.

Definition fanOut (query : list string -> Res (gmap string tokenSet)) (enrich : TransactionStatus -> TransactionStatus) (now : Z)
    (status : TransactionStatus) (m : Manager) : Manager :=
  let cs := snapshot m in
  match cs with
  | [] => m
  | _ =>
      let '(toks, ti) := if tokenScoped cs then lookupTokens query now now (tokens m) (ts_TxID status) else ([], tokens m) in
      putBack (deliver enrich now status toks cs) (withTokens ti m)
  end.

Definition perTx (status : TransactionStatus) (txid : string) : TransactionStatus :=
  mkTransactionStatus txid (ts_Status status) (ts_StatusCode status) (ts_Timestamp status) [] (ts_BlockHash status)
    (ts_BlockHeight status) (ts_MerklePath status) (ts_ExtraInfo status) (ts_CompetingTxs status) (ts_RawTx status)
    (ts_RetryCount status) (ts_NextRetryAt status) (ts_CreatedAt status) (ts_OrphanedProofs status) (ts_MerkleRegisteredAt status).

Definition fanOutBulk (query : list string -> Res (gmap string tokenSet)) (enrich : TransactionStatus -> TransactionStatus) (now : Z)
    (status : TransactionStatus) (m : Manager) : Manager :=
  let cs := snapshot m in
  match cs with
  | [] => m
  | _ =>
      let resolved := if tokenScoped cs then resolveBatch query (ts_TxIDs status) else ∅ in
      putBack (foldl (fun cs txid => deliver enrich now (perTx status txid) (default [] (resolved !! txid)) cs) cs (ts_TxIDs status)) m
  end.

(** One event of the subscription. *)
Definition onUpdate (query : list string -> Res (gmap string tokenSet)) (enrich : TransactionStatus -> TransactionStatus) (now : Z)
    (status : option TransactionStatus) (m : Manager) : Manager :=
  match status with
  | None => m
  | Some st => match ts_TxIDs st with [] => fanOut query enrich now st m | _ => fanOutBulk query enrich now st m end
  end.

Definition NewClient (token : string) (m : Manager) : Client * Manager :=
  let id := (nextClientID m + 1)%Z in
  let size := if (clientBufferSize m <=? 0)%Z then defaultClientBuffer else Z.to_nat (clientBufferSize m) in
  (mkClient id token [] size (parentDone m) 0 false maxInt64 0 0 0,
   mkManager (tokens m) (parentDone m) id (clientBufferSize m) (catchupOnDrop m) (clients m)).

(** The context of a client is a child of the parent: a client made before
    the parent was cancelled is registered cancelled. *)
Definition underParent (m : Manager) (c : Client) : Client := if parentDone m then cancel (drainRetryMS c) c else c.

Definition Register (c : Client) (m : Manager) : Manager := withClients (<[ID c := underParent m c]> (clients m)) m.

(** The client that was removed, cancelled. *)
Definition Unregister (id : Z) (m : Manager) : option Client * Manager :=
  match clients m !! id with
  | Some c => (Some (cancel (drainRetryMS c) c), withClients (delete id (clients m)) m)
  | None => (None, m)
  end.

(** [draw] is [rand.Int64N]; cancelling the parent cancels every client.
    [Stop] passes a whole number of milliseconds. *)
Definition Drain (draw : Z -> Client -> Z) (retryMaxMs : Z) (m : Manager) : nat * Manager :=
  let cs := snapshot m in
  let release c := cancel (if (0 <? retryMaxMs)%Z then (1 + draw retryMaxMs c)%Z else drainRetryMS c) c in
  let m := putBack (List.map release cs) m in
  (length cs,
   mkManager (tokens m) true (nextClientID m) (clientBufferSize m) (catchupOnDrop m) ((fun c => cancel (drainRetryMS c) c) <$> clients m)).
End Manager.

(** ** One connection *)

Inductive gapReason : Type := gapReasonCatchupTruncated | gapReasonFirehoseDrop | gapReasonReplayUnavailable.

Inductive frame : Type :=
| fStatus (st : TransactionStatus)
| fGap (reason : gapReason) (from : option Z) (count : Z)
| fShutdown (retryMS : option Z)
| fKeepalive.

(** What the select of [handleEvents] received. *)
Inductive selected : Type :=
| selRequestDone
| selClientDone
| selStatus (st : option TransactionStatus)
| selKeepalive.

Inductive scall : Type :=
| sSelect
| sTryRecv
| sWrite (f : frame)
| sWriteNoFlush (f : frame)
| sFlush
| sIterate (token : string) (since : Time) (only : list Status)
| sEnrich (st : TransactionStatus)
| sDelivered (ts : Z)
| sLoadDropped
| sClearDropped
| sSwapDropped
| sSwapFloor
| sDrainRetry.

Definition sanswer (c : scall) : Type :=
  match c with
  | sSelect => selected
  | sTryRecv => option (option TransactionStatus)
  | sWrite _ | sWriteNoFlush _ => option error
  | sFlush | sDelivered _ | sClearDropped => unit                  (* [flush] never fails *)
  | sIterate _ _ _ => list TransactionStatus * option error
  | sEnrich _ => TransactionStatus
  | sLoadDropped | sSwapDropped => bool
  | sSwapFloor | sDrainRetry => Z
  end.

Abbreviation SProg := (prog sanswer).
Abbreviation STrace := (trace sanswer).

Definition catchupMaxFrames : Z := 10000.
Definition catchupBlockBudget : nat := 64.
Definition minMidstreamRoundFrames : Z := 256.
Definition midstreamCatchupSlack : Z := 2000000000.

Definition midstreamRoundFrames (chCap : nat) : Z :=
  let budget := Z.quot (Z.of_nat chCap) 2 in
  let budget := if (budget <? minMidstreamRoundFrames)%Z then minMidstreamRoundFrames else budget in
  Z.min budget catchupMaxFrames.

(** [from > 0] has a cursor. *)
Definition writeGap (reason : gapReason) (from count : Z) : SProg (option error) :=
  perform (sWrite (fGap reason (if (0 <? from)%Z then Some from else None) count)).

Definition writeShutdown : SProg unit :=
  retryMS ← perform sDrainRetry;
  perform (sWrite (fShutdown (if (0 <? (retryMS : Z))%Z then Some retryMS else None))) ;;
  mret tt.

Record catchupResult : Type := mkCatchupResult {
  frames : Z;
  lastTS : Z;
  capped : bool;
  cr_err : option error;
  writeFailed : bool
}.

(** ** Replay *)

Definition mined (st : TransactionStatus) : bool := String.eqb (ts_Status st) StatusMined || String.eqb (ts_Status st) StatusImmutable.

(** How the callback of the iteration ended: it was not stopped, it reached
    the cap, or a write failed. *)
Inductive stopped : Type := notStopped | stoppedCapped | stoppedWrite (e : error).

(** The callback over the rows the store streams. *)
Fixpoint replayLoop (maxFrames : Z) (enrichedBlocks : gset string) (res : catchupResult) (rows : list TransactionStatus)
  : SProg (catchupResult * stopped) :=
  match rows with
  | [] => mret (res, notStopped)
  | status :: rows =>
      let ts := UnixNano (ts_Timestamp status) in
      if (maxFrames <=? frames res)%Z && negb (ts =? lastTS res)%Z
      then mret (mkCatchupResult (frames res) (lastTS res) true (cr_err res) (writeFailed res), stoppedCapped)
      else
        let doEnrich := mined status && negb (String.eqb (ts_BlockHash status) "")
          && (bool_decide (ts_BlockHash status ∈ enrichedBlocks) || (size enrichedBlocks <? catchupBlockBudget)%nat) in
        let blocks := if doEnrich then {[ ts_BlockHash status ]} ∪ enrichedBlocks else enrichedBlocks in
        status ← (if doEnrich then perform (sEnrich status) else mret status);
        err ← perform (sWrite (fStatus status));
        match (err : option error) with
        | Some e => mret (mkCatchupResult (frames res) (lastTS res) (capped res) (cr_err res) true, stoppedWrite e)
        | None =>
            perform (sDelivered ts) ;;
            replayLoop maxFrames blocks (mkCatchupResult (frames res + 1) ts (capped res) (cr_err res) (writeFailed res)) rows
        end
  end.

Definition sendCatchup (token : string) (since : Time) (midstream : bool) (maxFrames : Z) : SProg catchupResult :=
  let only := if IsZero since then NonTerminalStatuses else [] in
  rowsErr ← perform (sIterate token since only);
  '(res, st) ← replayLoop maxFrames ∅ (mkCatchupResult 0 0 false None false) (rowsErr : list TransactionStatus * option error).1;
  match st with
  | notStopped => mret (mkCatchupResult (frames res) (lastTS res) (capped res) (rowsErr : list TransactionStatus * option error).2 (writeFailed res))
  | stoppedWrite e => mret (mkCatchupResult (frames res) (lastTS res) (capped res) (Some e) (writeFailed res))
  | stoppedCapped =>
      if midstream then mret res
      else
        gapErr ← writeGap gapReasonCatchupTruncated (lastTS res) (frames res);
        match (gapErr : option error) with
        | Some e => mret (mkCatchupResult (frames res) (lastTS res) (capped res) (Some e) true)
        | None => mret res
        end
  end.

(** [lastEventID] is the parsed header, absent when it is empty or malformed. *)
Definition connectCatchup (token : string) (lastEventID : option Z) : SProg bool :=
  let since : Time := lastEventID in
  res ← sendCatchup token since false catchupMaxFrames;
  if writeFailed res then mret false
  else
    match cr_err res with
    | None => mret true
    | Some _ =>
        e ← writeGap gapReasonReplayUnavailable (UnixNano since) 0;
        mret (bool_decide ((e : option error) = None))
    end.

Definition declareFirehoseGap : SProg bool :=
  was ← perform sSwapDropped;
  if negb (was : bool) then mret true
  else
    floor ← perform sSwapFloor;
    let from := if ((floor : Z) =? maxInt64)%Z then 0%Z else floor in
    e ← writeGap gapReasonFirehoseDrop from 0;
    mret (bool_decide ((e : option error) = None)).

(** Takes what is buffered, at most [n] entries; [None] is the end of the
    fuel. *)
Fixpoint drainLive (n : nat) (written : Z) : SProg (option (Z * option error)) :=
  match n with
  | O => mret None
  | S n =>
      got ← perform sTryRecv;
      match (got : option (option TransactionStatus)) with
      | None => mret (Some (written, None))
      | Some None => drainLive n written
      | Some (Some st) =>
          err ← perform (sWriteNoFlush (fStatus st));
          match (err : option error) with
          | Some e => mret (Some (written, Some e))
          | None =>
              perform (sDelivered (UnixNano (ts_Timestamp st))) ;;
              drainLive n (written + 1)
          end
      end
  end.

(** Where a round starts: a slack before the earliest drop, or where a capped
    round stopped; the largest time if there is neither. *)
Definition roundSince (floor resume : Z) : Z :=
  let sinceNS := if (floor =? maxInt64)%Z then maxInt64 else (floor - midstreamCatchupSlack)%Z in
  if (0 <=? resume)%Z && (resume <? sinceNS)%Z then resume else sinceNS.

(** The rounds of [midstreamCatchup]; [resume] is the last timestamp of a
    capped round, or -1.  [Some b] is its result, [None] the end of the fuel. *)
Fixpoint catchupRounds (fuel live : nat) (token : string) (roundFrames resume : Z) : SProg (option bool) :=
  match fuel with
  | O => mret None
  | S fuel =>
      flag ← perform sLoadDropped;
      if negb (flag : bool) && negb (0 <=? resume)%Z then mret (Some true)
      else
        perform sClearDropped ;;
        floor ← perform sSwapFloor;
        let sinceNS := roundSince floor resume in
        if (sinceNS =? maxInt64)%Z then mret (Some true)
        else
          res ← sendCatchup token (Some sinceNS) true roundFrames;
          match cr_err res with
          | Some ErrReplayUnavailable =>
              e ← writeGap gapReasonReplayUnavailable sinceNS 0;
              mret (Some (bool_decide ((e : option error) = None)))
          | Some _ => mret (Some false)
          | None =>
              drained ← drainLive live 0;
              match (drained : option (Z * option error)) with
              | None => mret None
              | Some (_, Some _) => mret (Some false)
              | Some (_, None) =>
                  perform sFlush ;;
                  catchupRounds fuel live token roundFrames (if capped res then lastTS res else (-1)%Z)
              end
          end
  end.

Definition midstreamCatchup (fuel live : nat) (catchupOn : bool) (token : string) (chCap : nat) : SProg (option bool) :=
  if String.eqb token "" then b ← declareFirehoseGap; mret (Some b)
  else if negb catchupOn then mret (Some true)
  else catchupRounds fuel live token (midstreamRoundFrames chCap) (-1).

(** How a connection ended. *)
Inductive outcome : Type := outClientClosed | outWriteError | outDrain.

Fixpoint serveLoop (fuel : nat) (catchupOn : bool) (token : string) (chCap : nat) : SProg (option outcome) :=
  match fuel with
  | O => mret None
  | S fuel =>
      let heal : SProg (option outcome) :=
        healed ← midstreamCatchup fuel fuel catchupOn token chCap;
        match (healed : option bool) with
        | None => mret None
        | Some false => mret (Some outWriteError)
        | Some true => serveLoop fuel catchupOn token chCap
        end in
      sel ← perform sSelect;
      match (sel : selected) with
      | selRequestDone => mret (Some outClientClosed)
      | selClientDone => writeShutdown ;; mret (Some outDrain)
      | selStatus st =>
          err ← (match (st : option TransactionStatus) with
                 | None => mret None
                 | Some st =>
                     err ← perform (sWriteNoFlush (fStatus st));
                     match (err : option error) with
                     | Some e => mret (Some e)
                     | None => perform (sDelivered (UnixNano (ts_Timestamp st))) ;; mret None
                     end
                 end);
          match (err : option error) with
          | Some _ => mret (Some outWriteError)
          | None =>
              drained ← drainLive fuel 0;
              match (drained : option (Z * option error)) with
              | None => mret None
              | Some (_, Some _) => mret (Some outWriteError)
              | Some (_, None) => perform sFlush ;; heal
              end
          end
      | selKeepalive =>
          err ← perform (sWrite fKeepalive);
          match (err : option error) with
          | Some _ => mret (Some outWriteError)
          | None => heal
          end
      end
  end.

(** [handleEvents] once the client is registered. *)
Definition handleEvents (fuel : nat) (catchupOn : bool) (token : string) (chCap : nat) (lastEventID : option Z) : SProg (option outcome) :=
  alive ← (if String.eqb token "" then mret true else connectCatchup token lastEventID);
  if negb (alive : bool) then mret (Some outWriteError)
  else serveLoop fuel catchupOn token chCap.

(** ** The drop flag and its floor

    The fan-out and the writer of a connection share two atomics.  The
    fan-out lowers the floor and then sets the flag; the writer clears the
    flag and then takes the floor.  Each access is a step, so that every
    interleaving is covered. *)
Inductive writerPhase : Type := wIdle | wCleared | wReplaying (since : Z).

Record race : Type := mkRace {
  r_flag : bool;
  r_floor : Z;
  r_fan : bool;                 (* the floor is lowered, the flag not yet set *)
  r_writer : writerPhase;
  r_resume : Z;
  r_owed : list Z;              (* timestamps of drops not replayed or declared *)
  r_round : list Z              (* of these, the drops before the round that is running read the store *)
}.

Definition quietRace : race := mkRace false maxInt64 false wIdle (-1) [] [].

(** [recordDrop]: the floor, then the flag. *)
Definition dropFloor (ts : Z) (r : race) : race :=
  mkRace (r_flag r) (if (r_floor r <=? ts)%Z then r_floor r else ts) true (r_writer r) (r_resume r) (ts :: r_owed r) (r_round r).
Definition dropFlag (r : race) : race := mkRace true (r_floor r) false (r_writer r) (r_resume r) (r_owed r) (r_round r).

(** [midstreamCatchup]: the flag, then the floor. *)
Definition roundClear (r : race) : race := mkRace false (r_floor r) (r_fan r) wCleared (r_resume r) (r_owed r) (r_round r).
Definition roundSwap (r : race) : race :=
  let since := roundSince (r_floor r) (r_resume r) in
  if (since =? maxInt64)%Z then mkRace (r_flag r) maxInt64 (r_fan r) wIdle (-1) (r_owed r) (r_round r)
  else mkRace (r_flag r) maxInt64 (r_fan r) (wReplaying since) (-1) [] (r_owed r ++ r_round r).

(** A round replayed, of the drops before it, those after [since], up to the
    boundary it stopped at if it was capped. *)
Definition roundDone (since : Z) (cap : option Z) (r : race) : race :=
  mkRace (r_flag r) (r_floor r) (r_fan r) wIdle (default (-1)%Z cap)
    (r_owed r ++ List.filter (fun ts => negb ((since <? ts)%Z && match cap with Some l => (ts <=? l)%Z | None => true end)) (r_round r)) [].

(** A round the store refused: a gap from [since] is declared. *)
Definition roundGap (since : Z) (r : race) : race :=
  mkRace (r_flag r) (r_floor r) (r_fan r) wIdle (-1) (r_owed r ++ List.filter (fun ts => negb (since <? ts)%Z) (r_round r)) [].

Inductive raceStep : race -> race -> Prop :=
| stepFloor ts r : r_fan r = false -> (0 <= ts < maxInt64)%Z -> raceStep r (dropFloor ts r)
| stepFlag r : r_fan r = true -> raceStep r (dropFlag r)
| stepClear r : r_writer r = wIdle -> r_flag r = true ∨ (0 <= r_resume r)%Z -> raceStep r (roundClear r)
| stepSwap r : r_writer r = wCleared -> raceStep r (roundSwap r)
| stepDone since cap r : r_writer r = wReplaying since -> match cap with Some l => (0 <= l)%Z | None => True end -> raceStep r (roundDone since cap r)
| stepGap since r : r_writer r = wReplaying since -> raceStep r (roundGap since r).
