(* ===== verification/SseProps.v ===== *)
(** * SseProps: what the event stream promises

    The fan-out reaches exactly the clients that are to get an event, a replay
    stops only where it can be resumed, no drop escapes the catch-up whatever
    the interleaving, and the token cache stays within its budget and never
    answers with anything but a recent answer of the store. *)
From stdpp Require Import base gmap strings list sorting pretty.
From Stdlib Require Import Ascii ZArith Lia.
From Stdlib Require Import Strings.Byte.
From S2P Require Import Prelude Models BumpCache Effects Verdicts Sse.

(** ** Drops and catch-up *)

Definition raceInv (r : race) : Prop :=
  (∀ ts, ts ∈ r_owed r -> (0 <= ts < maxInt64)%Z ∧ ((r_floor r <= ts)%Z ∨ (0 <= r_resume r < ts)%Z))
  ∧ (∀ ts, ts ∈ r_round r -> (0 <= ts < maxInt64)%Z ∧ ∃ since, r_writer r = wReplaying since ∧ (since < ts)%Z)
  ∧ (r_floor r = maxInt64 ∨ r_flag r = true ∨ r_fan r = true ∨ r_writer r = wCleared)
  ∧ (r_floor r <= maxInt64)%Z ∧ (∀ since, r_writer r = wReplaying since -> (r_resume r < 0)%Z).

Lemma roundSince_low floor resume ts :
  (floor <= ts < maxInt64)%Z ∨ (0 <= resume < ts)%Z -> (floor <= maxInt64)%Z -> (ts < maxInt64)%Z -> (roundSince floor resume < ts)%Z.
Proof.
  intros Hc Hf Ht. unfold roundSince, midstreamCatchupSlack.
  destruct (Z.eqb_spec floor maxInt64), (Z.leb_spec 0 resume); cbn [andb]; repeat match goal with |- context [(?a <? ?b)%Z] => destruct (Z.ltb_spec a b) end; lia.
Qed.

Lemma race_drop_inv r r' : raceInv r -> (∃ ts, r' = dropFloor ts r ∧ (0 <= ts < maxInt64)%Z) ∨ r' = dropFlag r -> raceInv r'.
Proof.
  intros (Ho & Hd & Hf & Hm & Hr) [(ts & -> & Hts)| ->]; unfold raceInv; cbn.
  - assert ((if (r_floor r <=? ts)%Z then r_floor r else ts) <= r_floor r ∧ (if (r_floor r <=? ts)%Z then r_floor r else ts) <= ts)%Z as [Hl Hl'] by (destruct (Z.leb_spec (r_floor r) ts); lia).
    split_and!; [|done|by right; right; left|lia|done].
    intros x [->|Hx]%elem_of_cons; [split; [done|by left]|]. destruct (Ho x Hx) as [? [?|?]]; (split; [done|]); [left; lia|by right].
  - split_and!; [done|done|by right; left|done|done].
Qed.

(** What a round leaves owed: what it had not to cover. *)
Lemma race_end_inv r since resume keep :
  raceInv r -> r_writer r = wReplaying since -> (∀ ts, ts ∈ r_round r -> (since < ts)%Z -> keep ts = true -> (0 <= resume < ts)%Z) ->
  raceInv (mkRace (r_flag r) (r_floor r) (r_fan r) wIdle resume (r_owed r ++ List.filter keep (r_round r)) []).
Proof.
  intros (Ho & Hd & Hf & Hm & Hr) Hw Hk. unfold raceInv; cbn.
  split_and!; [|by intros ? ?%elem_of_nil|destruct Hf as [?|[?|[?|?]]]; [by left|by right; left|by right; right; left|congruence]|done|done].
  intros x [Hx|[Hx Hkx]%list_elem_of_In%filter_In]%elem_of_app.
  - destruct (Ho x Hx) as [? [?|?]]; (split; [done|]); [by left|]. specialize (Hr _ Hw). lia.
  - apply list_elem_of_In in Hx. destruct (Hd x Hx) as [? (s & E & Hlt)]. rewrite Hw in E. injection E as ->. split; [done|]. right. by apply Hk.
Qed.

Lemma race_swap_inv r : raceInv r -> r_writer r = wCleared -> raceInv (roundSwap r).
Proof.
  intros (Ho & Hd & Hf & Hm & Hr) Hw. assert (∀ x, x ∈ r_owed r -> (0 <= x < maxInt64)%Z ∧ (roundSince (r_floor r) (r_resume r) < x)%Z) as Hl.
  { intros x Hx. destruct (Ho x Hx) as [Hx0 Hc]. split; [done|]. apply roundSince_low; [destruct Hc; [left; lia|by right]|done|lia]. }
  assert (∀ x, (x ∉ r_round r)) as Hn by (intros x Hx; destruct (Hd x Hx) as [_ (s & E & _)]; congruence).
  unfold roundSwap. destruct (Z.eqb_spec (roundSince (r_floor r) (r_resume r)) maxInt64) as [E|E]; unfold raceInv; cbn.
  - split_and!; [intros x Hx; specialize (Hl x Hx); lia|by intros x ?%Hn|by left|done|done].
  - split_and!; [by intros ? ?%elem_of_nil| |by left|done|done]. intros x [Hx|?%Hn]%elem_of_app; [|done].
    destruct (Hl x Hx). split; [done|]. by eexists.
Qed.

Lemma race_step_inv r r' : raceInv r -> raceStep r r' -> raceInv r'.
Proof.
  intros Hi Hs. destruct Hs as [ts r Hfan Hts|r Hfan|r Hw Hgo|r Hw|since cap r Hw Hcap|since r Hw].
  - apply (race_drop_inv _ _ Hi). left. by exists ts.
  - apply (race_drop_inv _ _ Hi). by right.
  - destruct Hi as (Ho & Hd & Hf & Hm & Hr). unfold raceInv; cbn. split_and!; [done| |by right; right; right|done|done].
    intros x Hx. destruct (Hd x Hx) as [_ (s & E & _)]. congruence.
  - by apply race_swap_inv.
  - eapply race_end_inv; [done..|]. intros ts _ Hlt Hk. apply negb_true_iff, andb_false_iff in Hk as [Hk|Hk]; [apply Z.ltb_ge in Hk; lia|].
    destruct cap as [l|]; [|done]. apply Z.leb_gt in Hk. cbn. lia.
  - eapply race_end_inv; [done..|]. intros ts _ Hlt Hk. apply negb_true_iff, Z.ltb_ge in Hk. lia.
Qed.

(** C32: No drop escapes the catch-up.  However the accesses of the fan-out and of
    the writer to the flag and to the floor interleave, drops in the middle of
    a round included: when the writer is idle with no round left to resume,
    the flag is clear and the fan-out is not between its two writes, every
    event that was ever dropped was replayed, or covered by a declared gap, by
    a round that read the store after the drop and from before its timestamp.
    A quiet connection owes nothing. *)
Theorem no_drop_missed r :
  rtc raceStep quietRace r -> r_writer r = wIdle -> r_flag r = false -> r_fan r = false -> (r_resume r < 0)%Z -> r_owed r ++ r_round r = [].
Proof.
  intros Hr Hw Hf Hn Hs. assert (raceInv r) as (Ho & Hd & Hl & _ & _).
  { assert (raceInv quietRace) as H0 by (split_and!; cbn; [by intros ? ?%elem_of_nil|by intros ? ?%elem_of_nil|by left|done|done]). revert H0.
    clear -Hr. induction Hr as [|x y z Hxy _ IH]; [done|]. intros Hx. apply IH. by eapply race_step_inv. }
  destruct (r_owed r) as [|ts owed]; [destruct (r_round r) as [|ts rnd]; [done|]|].
  - destruct (Hd ts ltac:(by left)) as [_ (s & E & _)]. congruence.
  - destruct (Ho ts ltac:(by left)) as [Hts [Hc|Hc]]; [|lia]. destruct Hl as [E|[E|[E|E]]]; [lia|congruence..].
Qed.

(** A drop, a round that starts, a second drop during it, and a second round. *)
Lemma no_drop_missed_witness :
  let r1 := roundClear (dropFlag (dropFloor 5000000000 quietRace)) in
  let r2 := dropFlag (dropFloor 6000000000 (roundSwap r1)) in
  let r3 := roundSwap (roundClear (roundDone 3000000000 None r2)) in
  let r4 := roundDone 4000000000 None r3 in
  r_owed r2 = [6000000000%Z] ∧ r_owed r4 ++ r_round r4 = [].
Proof.
  split; [reflexivity|]. apply no_drop_missed; [|reflexivity..].
  eapply rtc_l; [by apply (stepFloor 5000000000)|]. eapply rtc_l; [by apply stepFlag|]. eapply rtc_l; [apply stepClear; [done|by left]|]. eapply rtc_l; [by apply stepSwap|].
  eapply rtc_l; [by apply (stepFloor 6000000000)|]. eapply rtc_l; [by apply stepFlag|]. eapply rtc_l; [by apply (stepDone 3000000000 None)|].
  eapply rtc_l; [apply stepClear; [done|by left]|]. eapply rtc_l; [by apply stepSwap|]. eapply rtc_l; [by apply (stepDone 4000000000 None)|]. apply rtc_refl.
Defined.

(** ** A replay *)

Definition tsOf (st : TransactionStatus) : Z := UnixNano (ts_Timestamp st).
Definition rowKey (st : TransactionStatus) : string * Status * Z := (ts_TxID st, ts_Status st, tsOf st).

(** The status frames that reached the socket. *)
Definition writtenKey (e : event sanswer) : option (string * Status * Z) :=
  match ev_call e as c return sanswer c -> option (string * Status * Z) with
  | sWrite (fStatus st) => fun a => match (a : option error) with None => Some (rowKey st) | Some _ => None end
  | _ => fun _ => None
  end (ev_answer e).
Definition written (tr : STrace) : list (string * Status * Z) := omap writtenKey tr.

Lemma written_snoc tr e : written (tr ++ [e]) = written tr ++ option_list (writtenKey e).
Proof. unfold written. rewrite omap_app. cbn. by destruct (writtenKey e). Qed.

(** The store streams rows in the order of their timestamps, strictly after
    the cursor; enrichment leaves what identifies a row. *)
Definition replayRely (tr : STrace) (e : event sanswer) : Prop :=
  match ev_call e as c return sanswer c -> Prop with
  | sIterate _ since _ => fun r => StronglySorted Z.le (List.map tsOf r.1) ∧ match since with Some s => Forall (fun st => s < tsOf st)%Z r.1 | None => True end
  | sEnrich st => fun st' => rowKey st' = rowKey st
  | _ => fun _ => True
  end (ev_answer e).

Abbreviation swp := (wp (fun _ _ => True) replayRely).

(** What the callback leaves: the rows written and the rest. *)
Definition replayedTo (maxFrames : Z) (tr : STrace) (res : catchupResult) (rows : list TransactionStatus) (r : catchupResult) (st : stopped) (t : STrace) : Prop :=
  ∃ done rest, rows = done ++ rest ∧ written t = written tr ++ List.map rowKey done
    ∧ frames r = (frames res + Z.of_nat (length done))%Z ∧ lastTS r = default (lastTS res) (last (List.map tsOf done))
    ∧ cr_err r = cr_err res
    ∧ match st with
      | notStopped => rest = [] ∧ capped r = capped res ∧ writeFailed r = writeFailed res
      | stoppedCapped => capped r = true ∧ writeFailed r = writeFailed res ∧ (maxFrames <= frames r)%Z ∧ ∃ x rest', rest = x :: rest' ∧ tsOf x ≠ lastTS r
      | stoppedWrite _ => writeFailed r = true ∧ capped r = capped res
      end.

Lemma replayLoop_wp maxFrames blocks res rows tr :
  swp (replayLoop maxFrames blocks res rows) tr (fun p t => tr ⊆ t ∧ replayedTo maxFrames tr res rows p.1 p.2 t).
Proof.
  revert blocks res tr. induction rows as [|status rows IH]; intros blocks res tr; cbn [replayLoop].
  { wp_go. split; [done|]. exists [], []. cbn. rewrite app_nil_r. split_and!; try done; lia. }
  fold (tsOf status). destruct ((maxFrames <=? frames res)%Z && negb (tsOf status =? lastTS res)%Z) eqn:Ec.
  { apply andb_true_iff in Ec as [Hm%Z.leb_le Hts%negb_true_iff%Z.eqb_neq]. wp_go. split; [done|]. exists [], (status :: rows). cbn. rewrite app_nil_r.
    split_and!; try done; [lia|]. by exists status, rows. }
  apply wp_bind.
  assert (∀ st' bl t0, tr ⊆ t0 -> written t0 = written tr -> rowKey st' = rowKey status -> swp
    (err ← perform (sWrite (fStatus st'));
     match (err : option error) with
     | Some e => mret (mkCatchupResult (frames res) (lastTS res) (capped res) (cr_err res) true, stoppedWrite e)
     | None => perform (sDelivered (tsOf status)) ;;
               replayLoop maxFrames bl (mkCatchupResult (frames res + 1) (tsOf status) (capped res) (cr_err res) (writeFailed res)) rows
     end) t0 (fun p t => tr ⊆ t ∧ replayedTo maxFrames tr res (status :: rows) p.1 p.2 t)) as Hgo.
  { intros st' bl t0 Hs0 Hw0 Hk. wp_go. wp_ask err idtac. destruct err as [e|].
    - wp_go. split; [etrans; [exact Hs0|apply grows_snoc]|]. exists [], (status :: rows). cbn. rewrite written_snoc. cbn. rewrite !app_nil_r, Hw0.
      split_and!; try done; lia.
    - wp_go. wp_ask u idtac. eapply wp_mono; [apply IH|]. intros [r st] t [Hs (done & rest & -> & Hw & Hf & Hl & He & Hst)]. cbn in Hw, Hf, Hl, He, Hst |- *.
      split; [etrans; [exact Hs0|]; etrans; [|exact Hs]; rewrite <-app_assoc; intros x Hx; apply elem_of_app; by left|].
      exists (status :: done), rest. rewrite !written_snoc in Hw. cbn in Hw. rewrite app_nil_r, Hw0, Hk, <-app_assoc in Hw.
      split_and!; try done; [cbn [length]; lia|]. rewrite Hl. cbn [List.map]. rewrite last_cons. by destruct (last (List.map tsOf done)). }
  destruct (mined status && _ && _); [|by apply wp_ret, Hgo].
  apply (wp_perform (fun _ _ => True) replayRely); [done|]. intros st' Hk. apply Hgo; [apply grows_snoc|by rewrite written_snoc, app_nil_r|done].
Qed.

Lemma elem_of_mapped {A B} (f : A -> B) (l : list A) x : x ∈ l -> f x ∈ List.map f l.
Proof. intros Hx%list_elem_of_In. apply list_elem_of_In. by apply in_map. Qed.

Lemma filter_none_true {A} (p : A -> bool) (l : list A) : (∀ x, x ∈ l -> p x = false) -> List.filter p l = [].
Proof. induction l as [|x l IH]; intros Hp; cbn; [done|]. rewrite (Hp x) by (by left). apply IH. intros y Hy. apply Hp. by right. Qed.

Lemma filter_all_true {A} (p : A -> bool) (l : list A) : (∀ x, x ∈ l -> p x = true) -> List.filter p l = l.
Proof. induction l as [|x l IH]; intros Hp; cbn; [done|]. rewrite (Hp x) by (by left). f_equal. apply IH. intros y Hy. apply Hp. by right. Qed.

(** In sorted rows the rest after a boundary is what a cursor there selects. *)
Lemma rest_after done x rest l :
  StronglySorted Z.le (List.map tsOf (done ++ x :: rest)) -> last (List.map tsOf done) = Some l -> tsOf x ≠ l ->
  x :: rest = List.filter (fun st => (l <? tsOf st)%Z) (done ++ x :: rest).
Proof.
  intros Hs Hl Hne. rewrite map_app in Hs.
  assert (∀ a b, a ∈ List.map tsOf done -> b ∈ List.map tsOf (x :: rest) -> (a <= b)%Z) as Hab.
  { intros a b Ha Hb. by eapply (StronglySorted_app_1_elem_of Z.le). }
  assert (∀ a, a ∈ List.map tsOf done -> (a <= l)%Z) as Hle.
  { intros a Ha. apply StronglySorted_app_1_l in Hs. apply last_Some in Hl as [l' El]. rewrite El in Hs, Ha.
    apply elem_of_app in Ha as [Ha| ->%list_elem_of_singleton]; [|done]. eapply (StronglySorted_app_1_elem_of Z.le); [exact Hs|done|by left]. }
  assert (∀ b, b ∈ List.map tsOf (x :: rest) -> (l < b)%Z) as Hgt.
  { intros b Hb. assert (l <= tsOf x)%Z by (apply Hab; [by apply last_Some_elem_of|by left]).
    apply StronglySorted_app_1_r in Hs. cbn in Hb, Hs. apply elem_of_cons in Hb as [->|Hb]; [lia|].
    apply StronglySorted_inv in Hs as [_ Hf]. rewrite Forall_forall in Hf. specialize (Hf b Hb). lia. }
  rewrite List.filter_app. assert (List.filter (fun st => (l <? tsOf st)%Z) done = []) as ->.
  { apply filter_none_true. intros st Hst. apply Z.ltb_ge, Hle. by apply elem_of_mapped. }
  cbn [app]. symmetry. apply filter_all_true. intros st Hst. apply Z.ltb_lt, Hgt. by apply elem_of_mapped.
Qed.

Lemma sendCatchup_wp token since midstream maxFrames :
  (1 <= maxFrames)%Z ->
  swp (sendCatchup token since midstream maxFrames) [] (fun res t =>
    ∃ rows scanErr, Event (sIterate token since (if IsZero since then NonTerminalStatuses else [])) (rows, scanErr) ∈ t
    ∧ (capped res = false -> cr_err res = None -> scanErr = None ∧ written t = List.map rowKey rows)
    ∧ (capped res = true -> ∃ done, written t = List.map rowKey done ∧ (maxFrames <= Z.of_nat (length done))%Z
         ∧ List.filter (fun st => (lastTS res <? tsOf st)%Z) rows ≠ []
         ∧ rows = done ++ List.filter (fun st => (lastTS res <? tsOf st)%Z) rows ∧ match since with Some s => (s < lastTS res)%Z | None => True end
         ∧ (midstream = false -> ∃ from ans, Event (sWrite (fGap gapReasonCatchupTruncated from (Z.of_nat (length done)))) ans ∈ t))
    ∧ ∃ done rest, rows = done ++ rest ∧ written t = List.map rowKey done).
Proof.
  intros Hm. unfold sendCatchup. wp_go. apply (wp_perform (fun _ _ => True) replayRely); [done|]. intros [rows scanErr] [Hsort Hafter]. cbn in Hsort, Hafter. cbn [fst snd].
  wp_go. eapply wp_mono; [apply replayLoop_wp|]. intros [r st] t [Hs (done & rest & -> & Hw & Hf & Hl & He & Hst)]. cbn in Hw, Hf, Hl, He, Hst. cbv beta iota.
  assert (∀ t', t ⊆ t' -> Event (sIterate token since (if IsZero since then NonTerminalStatuses else [])) (done ++ rest, scanErr) ∈ t') as Hin by (intros t' Ht; apply Ht, Hs; by left).
  destruct st as [| |e].
  - destruct Hst as (-> & Ec & Ew). wp_go. exists (done ++ []), scanErr. split_and!; [by apply Hin|cbn|cbn; congruence|by exists done, []].
    intros _ E. rewrite app_nil_r. done.
  - destruct Hst as (Ec & Ew & Hmax & x & rest' & -> & Hne).
    assert (∃ l, last (List.map tsOf done) = Some l) as [l El].
    { destruct (last (List.map tsOf done)) as [l|] eqn:E; [by exists l|]. apply last_None in E. destruct done; [cbn in Hf; lia|done]. }
    rewrite El in Hl. cbn in Hl. subst l. pose proof (rest_after done x rest' _ Hsort El Hne) as Erest.
    assert (frames r = Z.of_nat (length done)) as Efr by lia.
    assert (match since with Some s => (s < lastTS r)%Z | None => True end) as Hpast.
    { destruct since as [s|]; [|done]. apply last_Some_elem_of, list_elem_of_In, in_map_iff in El as (y & Ey & Hy). rewrite <-Ey.
      rewrite Forall_forall in Hafter. apply Hafter, elem_of_app. left. by apply list_elem_of_In. }
    assert (∀ t' res', t ⊆ t' -> written t' = written t -> capped res' = true -> lastTS res' = lastTS r ->
      (midstream = false -> ∃ from ans, Event (sWrite (fGap gapReasonCatchupTruncated from (Z.of_nat (length done)))) ans ∈ t') ->
      ∃ rows scanErr, Event (sIterate token since (if IsZero since then NonTerminalStatuses else [])) (rows, scanErr) ∈ t'
      ∧ (capped res' = false -> cr_err res' = None -> scanErr = None ∧ written t' = List.map rowKey rows)
      ∧ (capped res' = true -> ∃ done, written t' = List.map rowKey done ∧ (maxFrames <= Z.of_nat (length done))%Z
           ∧ List.filter (fun st => (lastTS res' <? tsOf st)%Z) rows ≠ []
           ∧ rows = done ++ List.filter (fun st => (lastTS res' <? tsOf st)%Z) rows ∧ match since with Some s => (s < lastTS res')%Z | None => True end
           ∧ (midstream = false -> ∃ from ans, Event (sWrite (fGap gapReasonCatchupTruncated from (Z.of_nat (length done)))) ans ∈ t'))
      ∧ ∃ done rest, rows = done ++ rest ∧ written t' = List.map rowKey done) as Hfin.
    { intros t' res' Ht Hwt Ecr Elr Hgap. exists (done ++ x :: rest'), scanErr. rewrite Hwt, Elr. split_and!; [by apply Hin|congruence| |by exists done, (x :: rest')].
      intros _. exists done. rewrite <-Erest. split_and!; [done|lia|done|done| |done]. done. }
    destruct midstream; [wp_go; by apply Hfin|]. unfold writeGap. wp_go. wp_ask gapErr idtac.
    destruct gapErr as [e|]; wp_go; (apply Hfin; [apply grows_snoc|rewrite written_snoc; cbn; by rewrite app_nil_r|done|done|]);
      intros _; rewrite <-Efr; do 2 eexists; apply snoc_here.
  - destruct Hst as (Ew & Ec). wp_go. exists (done ++ rest), scanErr. cbn. split_and!; [by apply Hin|done|congruence|by exists done, rest].
Qed.

(** C33: A replay stops only where it can be resumed.  A replay that reports
    neither an error nor the cap wrote every row of the token after the cursor
    (on a fresh connection every row that is not terminal), in order.  A
    replay that stopped at the cap wrote at least as many frames as the cap
    and ended on a boundary: what it did not write is exactly what the store
    streams strictly after the timestamp it reports, so resuming there loses
    nothing even where many rows share a timestamp, and that timestamp is past
    the cursor, so that rounds make progress; and on connecting the client is
    told of the gap.  A replay that failed wrote the rows before
    the failure. *)
Theorem replay_resumable token since midstream maxFrames tr res :
  (1 <= maxFrames)%Z -> ends (sendCatchup token since midstream maxFrames) tr res -> honoured replayRely [] tr ->
  ∃ rows scanErr, Event (sIterate token since (if IsZero since then NonTerminalStatuses else [])) (rows, scanErr) ∈ tr
    ∧ (capped res = false -> cr_err res = None -> scanErr = None ∧ written tr = List.map rowKey rows)
    ∧ (capped res = true -> ∃ done, written tr = List.map rowKey done ∧ (maxFrames <= Z.of_nat (length done))%Z
         ∧ List.filter (fun st => (lastTS res <? tsOf st)%Z) rows ≠ []
         ∧ rows = done ++ List.filter (fun st => (lastTS res <? tsOf st)%Z) rows ∧ match since with Some s => (s < lastTS res)%Z | None => True end
         ∧ (midstream = false -> ∃ from ans, Event (sWrite (fGap gapReasonCatchupTruncated from (Z.of_nat (length done)))) ans ∈ tr))
    ∧ ∃ done rest, rows = done ++ rest ∧ written tr = List.map rowKey done.
Proof.
  intros Hm He Hr. apply (wp_ends (fun _ _ => True) replayRely _ _ _ _ (sendCatchup_wp token since midstream maxFrames Hm) He Hr).
Qed.

(** A replay of three rows with a cap of one: the tie is finished. *)
Definition rowAt (txid : string) (ts : Z) : TransactionStatus :=
  mkTransactionStatus txid StatusSeenOnNetwork 0 (Some ts) [] "" 0 [] "" [] [] 0 None None [] None.
Definition demoRows : list TransactionStatus := [rowAt "a" 7; rowAt "b" 7; rowAt "c" 9].

(** A store with three rows of the token, and a socket that takes writes. *)
Definition demoHandle (c : scall) (s : unit) : sanswer c * unit :=
  (match c as c return sanswer c with
   | sSelect => selRequestDone
   | sTryRecv => None
   | sWrite _ | sWriteNoFlush _ => None
   | sFlush | sDelivered _ | sClearDropped => tt
   | sIterate _ since _ => (List.filter (fun st => (UnixNano since <? tsOf st)%Z || IsZero since) demoRows, None)
   | sEnrich st => st
   | sLoadDropped | sSwapDropped => false
   | sSwapFloor => maxInt64
   | sDrainRetry => 0%Z
   end, s).

Lemma demoHandle_honoured tr c s : replayRely tr (Event c (demoHandle c s).1).
Proof.
  destruct c as [| | | | |token since only| | | | | | |]; try done. unfold replayRely. cbn [ev_call ev_answer demoHandle fst]. split.
  - cbn. repeat case_match; cbn; repeat constructor; vm_compute; discriminate.
  - destruct since as [s0|]; [|done]. apply Forall_forall. intros st [_ Hst]%list_elem_of_In%filter_In. cbn in Hst. rewrite orb_false_r in Hst. by apply Z.ltb_lt.
Qed.

Lemma replay_resumable_witness :
  let tr := run_trace demoHandle (sendCatchup "tok" (Some 5%Z) true 1) tt in
  let res := (run demoHandle (sendCatchup "tok" (Some 5%Z) true 1) tt).1 in
  written tr = List.map rowKey [rowAt "a" 7; rowAt "b" 7] ∧ (capped res, lastTS res) = (true, 7%Z)
  ∧ ∃ rows scanErr, Event (sIterate "tok" (Some 5%Z) []) (rows, scanErr) ∈ tr.
Proof.
  cbn zeta. split; [vm_compute; reflexivity|]. split; [vm_compute; reflexivity|].
  destruct (replay_resumable "tok" (Some 5%Z) true 1 (run_trace demoHandle (sendCatchup "tok" (Some 5%Z) true 1) tt)
    (run demoHandle (sendCatchup "tok" (Some 5%Z) true 1) tt).1) as (rows & e & Hin & _); [lia|apply run_ends|apply run_honoured, demoHandle_honoured|].
  by exists rows, e.
Defined.

(** ** Fan-out *)

(** The client after a list of events was sent to it. *)
Definition receive (now : Z) (events : list TransactionStatus) (c : Client) : Client := foldl (fun c st => sendTo now st c) c events.

Lemma sendTo_keeps now st c : ID (sendTo now st c) = ID c ∧ Token (sendTo now st c) = Token c ∧ ctxDone (sendTo now st c) = ctxDone c ∧ chCap (sendTo now st c) = chCap c.
Proof. unfold sendTo, recordDrop. by repeat case_match. Qed.

Lemma receive_keeps now events c :
  ID (receive now events c) = ID c ∧ Token (receive now events c) = Token c ∧ ctxDone (receive now events c) = ctxDone c ∧ chCap (receive now events c) = chCap c.
Proof.
  revert c. induction events as [|st events IH]; intros c; [done|]. change (receive now (st :: events) c) with (receive now events (sendTo now st c)).
  destruct (IH (sendTo now st c)) as (-> & -> & -> & ->). apply sendTo_keeps.
Qed.

(** What one send does to the queue and to the drop state. *)
Lemma sendTo_effect now st c :
  (length (Ch c) < chCap c)%nat ∧ Ch (sendTo now st c) = Ch c ++ [st] ∧ cl_dropped (sendTo now st c) = cl_dropped c ∧ droppedFloor (sendTo now st c) = droppedFloor c
  ∨ (chCap c <= length (Ch c))%nat ∧ Ch (sendTo now st c) = Ch c ∧ cl_dropped (sendTo now st c) = true ∧ (droppedFloor (sendTo now st c) <= tsOf st)%Z
    ∧ (droppedFloor (sendTo now st c) <= droppedFloor c)%Z.
Proof.
  unfold sendTo. destruct (Nat.ltb_spec (length (Ch c)) (chCap c)) as [Hl|Hl]; [left; done|right]. unfold recordDrop. fold (tsOf st).
  destruct (Z.leb_spec (droppedFloor c) (tsOf st)), (now - lastDropLog c <? dropLogInterval)%Z; cbn; split_and!; try done; lia.
Qed.

(** Every event is queued, or recorded as dropped with a floor below it; where
    all of them fit, nothing is recorded. *)
Definition accounted (events : list TransactionStatus) (c c' : Client) : Prop :=
  ∃ taken, Ch c' = Ch c ++ taken ∧ taken `sublist_of` events
    ∧ (cl_dropped c = true -> cl_dropped c' = true) ∧ (droppedFloor c' <= droppedFloor c)%Z
    ∧ (cl_dropped c' = false -> taken = events)
    ∧ (∀ st, st ∈ events -> st ∈ taken ∨ cl_dropped c' = true ∧ (droppedFloor c' <= tsOf st)%Z)
    ∧ ((length (Ch c) <= chCap c)%nat -> (length (Ch c') <= chCap c)%nat)
    ∧ ((length (Ch c) + length events <= chCap c)%nat -> taken = events ∧ cl_dropped c' = cl_dropped c ∧ droppedFloor c' = droppedFloor c).

Lemma receive_accounted now events c : accounted events c (receive now events c).
Proof.
  revert c. induction events as [|st events IH]; intros c.
  { exists []. cbn. rewrite app_nil_r. split_and!; try done. by intros ? ?%elem_of_nil. }
  change (receive now (st :: events) c) with (receive now events (sendTo now st c)).
  destruct (IH (sendTo now st c)) as (taken & Hch & Hsub & Hmono & Hfl & Hall & Hst & Hcap & Hfit). destruct (sendTo_keeps now st c) as (_ & _ & _ & Ecap). rewrite Ecap in Hcap, Hfit.
  destruct (sendTo_effect now st c) as [(Hl & E & Ed & Ef)|(Hl & E & Ed & Ets & Ef)]; rewrite E in Hch, Hcap, Hfit; rewrite Ed in Hmono, Hfit.
  - rewrite Ef in Hfl, Hfit. exists (st :: taken). rewrite Hch, <-app_assoc. split_and!; try done; [by apply sublist_skip|intros H; by rewrite Hall|..].
    + intros x [->|Hx]%elem_of_cons; [left; by left|]. destruct (Hst x Hx) as [?|?]; [left; by right|by right].
    + intros _. rewrite Hch, <-app_assoc in Hcap. apply Hcap. rewrite length_app. cbn. lia.
    + cbn [length]. rewrite length_app in Hfit. cbn [length] in Hfit. intros Hx. destruct Hfit as (-> & -> & ->); [lia|done].
  - exists taken. rewrite Hch. specialize (Hmono eq_refl). split_and!; try done; [by apply sublist_cons|lia|congruence| |intros H; rewrite <-Hch; by apply Hcap|cbn [length]; lia].
    intros x [->|Hx]%elem_of_cons; [right; split; [done|lia]|]. by apply Hst.
Qed.

Lemma deliver_map enrich now st toks cs :
  deliver enrich now st toks cs = List.map (fun c => if ctxDone c || negb (wants toks c) then c else sendTo now (enrich st) c) cs.
Proof.
  unfold deliver. enough (∀ enriched s, (s = if enriched : bool then enrich st else st) ->
    deliverLoop enrich now enriched s toks cs = List.map (fun c => if ctxDone c || negb (wants toks c) then c else sendTo now (enrich st) c) cs) as Hg by by apply Hg.
  induction cs as [|c cs IH]; intros enriched s ->; cbn; [done|]. destruct (ctxDone c || negb (wants toks c)); [f_equal; by apply IH|].
  destruct enriched; f_equal; by apply IH.
Qed.

Section Fanout.
Context {L : Type} {LruL : LRU L cacheEntry} `{MapOrder}.

(** A client is registered under its own ID. *)
Definition keyed (cs : gmap Z Client) : Prop := ∀ id c, cs !! id = Some c -> ID c = id.

Lemma keyed_insert cs id c : keyed cs -> ID c = id -> keyed (<[id := c]> cs).
Proof. intros Hk <- i x [[<- <-]|[_ Hx]]%lookup_insert_Some; [done|by apply Hk]. Qed.

Lemma snapshot_elem (m : Manager (L := L)) c : keyed (clients m) -> c ∈ snapshot m <-> clients m !! ID c = Some c.
Proof.
  intros Hk. unfold snapshot. rewrite list_elem_of_In, in_map_iff. split.
  - intros ([id c'] & <- & Hin%list_elem_of_In). rewrite mapRange_perm in Hin. apply elem_of_map_to_list in Hin. cbn. by rewrite (Hk _ _ Hin).
  - intros Hc. exists (ID c, c). split; [done|]. apply list_elem_of_In. rewrite mapRange_perm. by apply elem_of_map_to_list.
Qed.

Lemma putBack_map (f : Client -> Client) (m m' : Manager (L := L)) id :
  keyed (clients m) -> clients m' = clients m -> (∀ c, ID (f c) = ID c) ->
  clients (putBack (List.map f (snapshot m)) m') !! id = f <$> clients m !! id.
Proof.
  intros Hk Em Hf. unfold putBack. cbn [clients withClients]. rewrite Em.
  assert (∀ l (r : gmap Z Client), (∀ c, c ∈ l -> clients m !! ID c = Some c) ->
    foldl (fun r c => <[ID c := c]> r) r (List.map f l) !! id = if existsb (fun c => (ID c =? id)%Z) l then f <$> clients m !! id else r !! id) as Hg.
  { induction l as [|c l IH]; intros r Hl; cbn; [done|]. rewrite IH by (intros c' Hc'; apply Hl; by right).
    destruct (existsb _ l); [by rewrite orb_true_r|]. rewrite orb_false_r, Hf. destruct (Z.eqb_spec (ID c) id) as [<-|Hne]; [|by apply lookup_insert_ne].
    rewrite lookup_insert_eq, (Hl c) by by left. done. }
  rewrite Hg by (intros c; by apply snapshot_elem). destruct (existsb _ _) eqn:E; [done|]. destruct (clients m !! id) as [c|] eqn:Ec; [|done]. exfalso.
  pose proof (Hk _ _ Ec) as Eid. assert (c ∈ snapshot m) as Hin by (apply snapshot_elem; [done|by rewrite Eid]).
  apply list_elem_of_In in Hin. apply not_true_iff_false in E. apply E, existsb_exists. exists c. split; [done|by apply Z.eqb_eq].
Qed.

(** The events of an update the code sends to a client. *)
Definition wantedEvents (query : list string -> Res (gmap string tokenSet)) (enrich : TransactionStatus -> TransactionStatus) (now : Z)
    (m : Manager (L := L)) (st : TransactionStatus) (c : Client) : list TransactionStatus :=
  match ts_TxIDs st with
  | [] => if wants (lookupTokens query now now (tokens m) (ts_TxID st)).1 c then [enrich st] else []
  | txids => List.map (fun txid => enrich (perTx st txid)) (List.filter (fun txid => wants (default [] (resolveBatch query txids !! txid)) c) txids)
  end.

Lemma firehose_wants (cs : list Client) toks c : tokenScoped cs = false -> c ∈ cs -> wants toks c = true.
Proof.
  intros Ht Hc. unfold wants. destruct (String.eqb (Token c) "") eqn:E; [done|]. exfalso. apply not_true_iff_false in Ht. apply Ht.
  apply existsb_exists. exists c. split; [by apply list_elem_of_In|by rewrite E].
Qed.

Lemma map_eq_on {A B} (f g : A -> B) (l : list A) : (∀ x, x ∈ l -> f x = g x) -> List.map f l = List.map g l.
Proof. intros Hfg. apply map_ext_in. intros x Hx. apply Hfg. by apply list_elem_of_In. Qed.

(** A client that is gone is left alone, the others receive. *)
Definition served (now : Z) (events : Client -> list TransactionStatus) (c : Client) : Client := if ctxDone c then c else receive now (events c) c.

Lemma served_ID now events c : ID (served now events c) = ID c.
Proof. unfold served. destruct (ctxDone c); [done|]. apply receive_keeps. Qed.

Lemma bulk_served enrich now st (toks : string -> tokenSet) txids cs :
  foldl (fun cs txid => deliver enrich now (perTx st txid) (toks txid) cs) cs txids
  = List.map (served now (fun c => List.map (fun txid => enrich (perTx st txid)) (List.filter (fun txid => wants (toks txid) c) txids))) cs.
Proof.
  revert cs. induction txids as [|txid txids IH]; intros cs; cbn [foldl List.filter List.map].
  { rewrite <-(map_id cs) at 1. apply map_ext. intros c. unfold served. by destruct (ctxDone c). }
  rewrite IH, deliver_map, map_map. apply map_ext. intros c. unfold served.
  destruct (ctxDone c) eqn:Ed; cbn [orb]; [by rewrite Ed|]. destruct (wants (toks txid) c) eqn:Ew; cbn [negb]; [|by rewrite Ed].
  destruct (sendTo_keeps now (enrich (perTx st txid)) c) as (_ & Et & Edn & _). rewrite Edn, Ed. unfold wants. rewrite Et. done.
Qed.

Lemma onUpdate_served query enrich now st (m : Manager (L := L)) id :
  keyed (clients m) -> clients (onUpdate query enrich now (Some st) m) !! id = served now (wantedEvents query enrich now m st) <$> clients m !! id.
Proof.
  intros Hk. assert (snapshot m = [] -> clients m !! id = None) as Hnone.
  { intros E. destruct (clients m !! id) as [c|] eqn:Ec; [|done]. assert (c ∈ snapshot m) as Hc by (apply snapshot_elem; [done|by rewrite (Hk _ _ Ec)]).
    rewrite E in Hc. by apply elem_of_nil in Hc. }
  cbn [onUpdate]. unfold wantedEvents. destruct (ts_TxIDs st) as [|t0 txids] eqn:Etx.
  - unfold fanOut. destruct (snapshot m) as [|c0 cs0] eqn:Es; [by rewrite Hnone|]. rewrite <-Es. clear Hnone.
    destruct (lookupTokens query now now (tokens m) (ts_TxID st)) as [toks ti] eqn:El. cbn [fst].
    set (events := fun c => if wants toks c then [enrich st] else []).
    assert (∀ toks' ti', (tokenScoped (snapshot m) = true -> toks' = toks) ->
      clients (putBack (deliver enrich now st toks' (snapshot m)) (withTokens ti' m)) !! id = served now events <$> clients m !! id) as Hg.
    { intros toks' ti' Ht. rewrite <-(putBack_map (served now events) m (withTokens ti' m) id Hk eq_refl (served_ID now events)). do 3 f_equal. rewrite deliver_map.
      apply map_eq_on. intros c Hc. assert (wants toks' c = wants toks c) as -> by (destruct (tokenScoped (snapshot m)) eqn:Et; [by rewrite Ht|by rewrite !(firehose_wants _ _ _ Et Hc)]).
      unfold served, events. destruct (ctxDone c), (wants toks c); done. }
    destruct (tokenScoped (snapshot m)) eqn:Et; by apply Hg.
  - unfold fanOutBulk. destruct (snapshot m) as [|c0 cs0] eqn:Es; [by rewrite Hnone|]. rewrite <-Es, Etx. clear Hnone. rewrite bulk_served.
    rewrite <-(putBack_map _ m m id Hk eq_refl (served_ID now _)). do 3 f_equal. apply map_eq_on. intros c Hc. unfold served. destruct (ctxDone c); [done|]. do 2 f_equal.
    apply List.filter_ext. intros txid. destruct (tokenScoped (snapshot m)) eqn:Et; [done|]. by rewrite !(firehose_wants _ _ _ Et Hc).
Qed.

End Fanout.

(** ** The token cache *)

Definition costs (l : list (string * cacheEntry)) : Z := foldr (fun e n => entryCost e.1 (ce_tokens e.2) + n)%Z 0%Z l.

Lemma costs_cons e l : costs (e :: l) = (entryCost e.1 (ce_tokens e.2) + costs l)%Z.
Proof. done. Qed.

Lemma costs_app l l' : costs (l ++ l') = (costs l + costs l')%Z.
Proof. induction l as [|e l IH]; [done|]. cbn [app]. rewrite !costs_cons. lia. Qed.

Lemma costs_without l k : NoDup l.*1 -> costs (without l k) = onEvict (costs l) ((fun v => (k, v)) <$> entry_of l k).
Proof.
  induction l as [|[k' v] l IH]; [done|]. rewrite fmap_cons. intros [Hk Hnd]%NoDup_cons. specialize (IH Hnd).
  destruct (String.eqb_spec k' k) as [->|Hne].
  - assert (entry_of l k = None) as Eabs.
    { apply entry_of_None. intros w Hin. apply Hk. by apply (list_elem_of_fmap_2 fst) in Hin. }
    assert (entry_of ((k, v) :: l) k = Some v ∧ without ((k, v) :: l) k = l) as [-> ->].
    { unfold without, entry_of. cbn. rewrite String.eqb_refl. cbn. fold (without l k). by rewrite without_absent. }
    rewrite costs_cons. cbn. lia.
  - assert (entry_of ((k', v) :: l) k = entry_of l k ∧ without ((k', v) :: l) k = (k', v) :: without l k) as [-> ->].
    { unfold without, entry_of. cbn. apply String.eqb_neq in Hne. by rewrite Hne. }
    rewrite !costs_cons, IH. unfold onEvict. destruct (entry_of l k); cbn; lia.
Qed.

Lemma costs_removelast l : costs (removelast l) = onEvict (costs l) (last l).
Proof.
  induction l as [|x l IH]; [done|]. destruct l as [|y l]; [destruct x; cbn; lia|].
  change (removelast (x :: y :: l)) with (x :: removelast (y :: l)). change (last (x :: y :: l)) with (last (y :: l)).
  change (costs (x :: ?r)) with (entryCost x.1 (ce_tokens x.2) + costs r)%Z. rewrite IH. unfold onEvict. destruct (last (y :: l)) as [[k v]|]; lia.
Qed.

Section TokenCache.
Context {L : Type} {LruL : LRU L cacheEntry} {LawsL : LRULaws L cacheEntry}.

(** One lookup: what the store answers if it is asked, and the clock at the
    look-up and at the insertion. *)
Record tokenReq : Type := mkTokenReq {
  tr_answer : Res (gmap string tokenSet);
  tr_now1 : Z;
  tr_now2 : Z;
  tr_txid : string
}.

Definition lookupReq (r : tokenReq) (t : tokenIndex (L := L)) : tokenSet * tokenIndex (L := L) := lookupTokens (fun _ => tr_answer r) (tr_now1 r) (tr_now2 r) t (tr_txid r).
Definition lookupAll (rs : list tokenReq) (t : tokenIndex (L := L)) : tokenIndex (L := L) := foldl (fun t r => (lookupReq r t).2) t rs.

(** What the store itself answers. *)
Definition storeTokens (r : tokenReq) : tokenSet := match tr_answer r with Ok m => default [] (m !! tr_txid r) | Err _ => [] end.

(** The count is exact, the budget holds, and an entry is a non-empty answer
    of the store to an earlier request, until its time to live is over. *)
Definition cacheInv (past : list tokenReq) (t : tokenIndex (L := L)) : Prop :=
  ti_bytes t = costs (lru_entries (ti_lru t))
  ∧ ((ti_bytes t <= ti_maxBytes t)%Z ∨ (length (lru_entries (ti_lru t)) <= 1)%nat)
  ∧ ∀ k e, (k, e) ∈ lru_entries (ti_lru t) -> ∃ r, r ∈ past ∧ tr_txid r = k ∧ storeTokens r = ce_tokens e ∧ ce_tokens e ≠ [] ∧ ce_expiresAt e = (tr_now2 r + ti_ttl t)%Z.

Lemma removeKey_inv (l : L) k bytes :
  bytes = costs (lru_entries l) ->
  let r := removeKey l k bytes in r.2 = costs (lru_entries r.1) ∧ lru_entries r.1 = without (lru_entries l) k.
Proof.
  intros ->. unfold removeKey. destruct (remove_entries l k) as [Hr Hv]. destruct (lru_remove l k) as [l' v]. cbn in *. rewrite Hr, Hv. split; [|done].
  symmetry. by apply costs_without, keys_unique.
Qed.

Lemma addKey_inv (l : L) k v bytes :
  bytes = costs (lru_entries l) -> entry_of (lru_entries l) k = None ->
  let r := addKey l k v bytes in
  (r.2 + entryCost k (ce_tokens v))%Z = costs (lru_entries r.1) ∧ lru_entries r.1 = take (lru_size l) ((k, v) :: lru_entries l).
Proof.
  intros -> Habs. unfold addKey. destruct (add_absent l k v Habs) as [Ha _]. pose proof (within_size l) as Hw. destruct (lru_add l k v) as [l' o]. cbn in Ha. cbn zeta.
  cbn [fst snd]. split; [|done]. rewrite Ha. set (es := (k, v) :: lru_entries l) in *.
  assert (costs es = entryCost k (ce_tokens v) + costs (lru_entries l))%Z as E2 by done.
  rewrite <-(take_drop (lru_size l) es) in E2 at 1. rewrite costs_app in E2.
  assert (length (drop (lru_size l) es) <= 1)%nat as Hd by (rewrite length_drop; cbn; lia).
  assert (es !! lru_size l = drop (lru_size l) es !! 0%nat) as -> by (rewrite lookup_drop; f_equal; lia).
  destruct (drop (lru_size l) es) as [|[k0 v0] [|e' r]]; cbn in *; lia.
Qed.

Lemma trimLoop_inv fuel maxBytes (l : L) bytes :
  bytes = costs (lru_entries l) -> (length (lru_entries l) <= fuel)%nat ->
  let r := trimLoop fuel maxBytes l bytes in
  r.2 = costs (lru_entries r.1) ∧ ((r.2 <= maxBytes)%Z ∨ (length (lru_entries r.1) <= 1)%nat) ∧ lru_entries r.1 `sublist_of` lru_entries l.
Proof.
  revert l bytes. induction fuel as [|fuel IH]; intros l bytes Hb Hl; [cbn; split_and!; [done|right; lia|done]|]. cbn [trimLoop].
  destruct (Z.ltb_spec maxBytes bytes), (Nat.ltb_spec 1 (length (lru_entries l))); cbn [andb fst snd]; try (split_and!; [done|lia|done]).
  unfold removeOldest. destruct (oldest_entries l) as [He _]. destruct (lru_removeOldest l) as [l' v]. cbn [fst snd] in *.
  destruct (IH l' (onEvict bytes (last (lru_entries l)))) as (E1 & E2 & E3); [by rewrite He, costs_removelast, Hb|rewrite He, removelast_length; lia|].
  split_and!; [done|done|]. etrans; [exact E3|]. rewrite He. apply removelast_sublist.
Qed.

Lemma addTokens_inv past now (t : tokenIndex (L := L)) r :
  cacheInv past t -> r ∈ past -> tr_now2 r = now -> storeTokens r ≠ [] -> cacheInv past (addTokens now t (tr_txid r) (storeTokens r)).
Proof.
  intros (Hb & _ & He) Hr Hn Hne. unfold addTokens. destruct (removeKey_inv (ti_lru t) (tr_txid r) (ti_bytes t) Hb) as [E1 E1'].
  destruct (removeKey _ _ _) as [l1 b1]. cbn [fst snd] in *.
  destruct (addKey_inv l1 (tr_txid r) (mkCacheEntry (storeTokens r) (now + ti_ttl t)) b1 E1) as [E2 E2'].
  { apply entry_of_None. intros v. rewrite E1', without_elem. tauto. }
  destruct (addKey _ _ _ _) as [l2 b2]. cbn [fst snd ce_tokens] in *.
  destruct (trimLoop_inv (length (lru_entries l2)) (ti_maxBytes t) l2 _ E2 (le_n _)) as (E3 & Hbud & Hsub).
  destruct (trimLoop _ _ _ _) as [l3 b3]. cbn [fst snd] in *. unfold cacheInv. cbn. split_and!; [done|done|]. intros k e Hin.
  eapply sublist_subseteq in Hsub. apply Hsub in Hin. rewrite E2' in Hin. eapply subseteq_take in Hin. apply elem_of_cons in Hin as [[= -> ->]|Hin].
  - exists r. cbn. by rewrite Hn.
  - rewrite E1' in Hin. apply without_elem in Hin as [Hin _]. by apply He.
Qed.

Lemma addTokens_ttl now (t : tokenIndex (L := L)) k toks : ti_ttl (addTokens now t k toks) = ti_ttl t.
Proof. unfold addTokens. destruct (removeKey _ _ _). destruct (addKey _ _ _ _). by destruct (trimLoop _ _ _ _). Qed.

Lemma cacheInv_mono past past' (t : tokenIndex (L := L)) : past ⊆ past' -> cacheInv past t -> cacheInv past' t.
Proof. intros Hs (Hb & Hm & He). split_and!; [done..|]. intros k e Hin. destruct (He k e Hin) as (r & Hr & Hrest). exists r. split; [by apply Hs|done]. Qed.

(** Moving an entry to the front changes no count. *)
Lemma front_costs l k v : NoDup l.*1 -> entry_of l k = Some v -> costs ((k, v) :: without l k) = costs l ∧ length ((k, v) :: without l k) = length l.
Proof.
  intros Hnd He. rewrite costs_cons, costs_without, He by done. cbn. split; [lia|]. revert Hnd He. induction l as [|[k' w] l IH]; [done|].
  rewrite fmap_cons. intros [Hk Hnd]%NoDup_cons. unfold entry_of, without in *. cbn. destruct (String.eqb_spec k' k) as [->|Hne]; cbn; [|intros He; f_equal; by apply IH].
  intros _. apply (f_equal S), (f_equal (@length _)), (without_absent l k), entry_of_None. intros x Hin. apply Hk. by apply (list_elem_of_fmap_2 fst) in Hin.
Qed.

Lemma cached_inv past now (t : tokenIndex (L := L)) txid :
  cacheInv past t ->
  cacheInv past (cached now t txid).2 ∧ ti_ttl (cached now t txid).2 = ti_ttl t
  ∧ (∀ toks, (cached now t txid).1 = Some toks -> ∃ r, r ∈ past ∧ tr_txid r = txid ∧ toks = storeTokens r ∧ toks ≠ [] ∧ (now <= tr_now2 r + ti_ttl t)%Z).
Proof.
  intros (Hb & Hm & He). unfold cached. pose proof (get_entries (ti_lru t) txid) as Eg. pose proof (get_moves (ti_lru t) txid) as Em. pose proof (keys_unique (ti_lru t)) as Hnd.
  destruct (lru_get (ti_lru t) txid) as [o l]. cbn [fst snd] in Eg, Em. subst o. destruct (entry_of (lru_entries (ti_lru t)) txid) as [e|] eqn:Ee.
  2: { unfold cacheInv. cbn. rewrite Em. by split_and!. }
  destruct (front_costs _ _ _ Hnd Ee) as [Ec El]. pose proof (entry_of_elem _ _ _ Ee) as Hin.
  assert (∀ k e', (k, e') ∈ lru_entries l -> (k, e') ∈ lru_entries (ti_lru t)) as Hsub.
  { intros k e' Hx. rewrite Em in Hx. apply elem_of_cons in Hx as [[= -> ->]|Hx]; [done|]. by apply without_elem in Hx as [? _]. }
  destruct (Z.ltb_spec (ce_expiresAt e) now) as [Hx|Hx].
  - destruct (removeKey_inv l txid (ti_bytes t)) as [E1 E2]; [by rewrite Hb, Em|]. destruct (removeKey l txid (ti_bytes t)) as [l' b']. cbn [fst snd] in *.
    assert (b' <= ti_bytes t)%Z as Hle.
    { rewrite E1, E2, Hb, <-Ec, <-Em. rewrite costs_without by apply keys_unique. unfold onEvict. destruct (entry_of (lru_entries l) txid) as [v|]; [|cbn; lia].
      cbn. enough (0 <= entryCost txid (ce_tokens v))%Z by lia. unfold entryCost. enough (∀ n, (0 <= n)%Z -> (0 <= foldl (fun cost s => cost + (tokenOverhead + Z.of_nat (String.length s))) n (ce_tokens v))%Z) as Hg by (apply Hg; unfold entryOverhead; lia).
      induction (ce_tokens v) as [|s ss IH]; intros n Hn; [done|]. cbn [foldl]. apply IH. unfold tokenOverhead. lia. }
    unfold cacheInv. cbn. split_and!; [done| | |done|done].
    + destruct Hm as [Hm|Hm]; [left; lia|right]. rewrite E2. pose proof (without_length (lru_entries l) txid). rewrite Em in H. rewrite El in H. rewrite Em. lia.
    + intros k e' Hk. rewrite E2 in Hk. apply without_elem in Hk as [Hk _]. by apply He, Hsub.
  - unfold cacheInv. cbn. rewrite Em, Ec. rewrite El. split_and!; [done|done| |done|].
    + intros k e' Hk. apply He, Hsub. by rewrite Em.
    + intros toks [= <-]. destruct (He txid e Hin) as (r & Hr & Hk & Hs & Hne & Hexp). exists r. split_and!; try done. lia.
Qed.

Lemma lookupReq_inv past r (t : tokenIndex (L := L)) :
  cacheInv past t ->
  cacheInv (past ++ [r]) (lookupReq r t).2 ∧ ti_ttl (lookupReq r t).2 = ti_ttl t
  ∧ ((lookupReq r t).1 = (if String.eqb (tr_txid r) "" then [] else storeTokens r)
     ∨ ∃ r', r' ∈ past ∧ tr_txid r' = tr_txid r ∧ (lookupReq r t).1 = storeTokens r' ∧ storeTokens r' ≠ [] ∧ (tr_now1 r <= tr_now2 r' + ti_ttl t)%Z).
Proof.
  intros Hi. assert (past ⊆ past ++ [r]) as Hs by (intros x Hx; apply elem_of_app; by left). unfold lookupReq, lookupTokens.
  destruct (String.eqb (tr_txid r) ""); [split_and!; [by eapply cacheInv_mono|done|by left]|].
  destruct (cached_inv past (tr_now1 r) t (tr_txid r) Hi) as (Hi' & Ettl & Hhit). destruct (cached (tr_now1 r) t (tr_txid r)) as [[toks|] t']; cbn [fst snd] in *.
  { split_and!; [by eapply cacheInv_mono|done|]. right. destruct (Hhit toks eq_refl) as (r' & Hr' & Hk & -> & Hne & Hl). by exists r'. }
  apply (cacheInv_mono _ _ _ Hs) in Hi'. assert (storeTokens r = match tr_answer r with Ok m => default [] (m !! tr_txid r) | Err _ => [] end) as Est by done.
  destruct (tr_answer r) as [resolved|e]; [|by split_and!; try done; left]. rewrite <-Est. destruct (Nat.ltb_spec 0 (length (storeTokens r))) as [Hl|Hl]; cbn [fst snd]; [|by split_and!; try done; left].
  split_and!; [|by rewrite addTokens_ttl|by left]. apply addTokens_inv; [done|apply elem_of_app; right; by left|done|]. intros E. rewrite E in Hl. cbn in Hl. lia.
Qed.

Lemma lookupAll_inv rs past (t : tokenIndex (L := L)) : cacheInv past t -> cacheInv (past ++ rs) (lookupAll rs t) ∧ ti_ttl (lookupAll rs t) = ti_ttl t.
Proof.
  revert past t. induction rs as [|r rs IH]; intros past t Hi; [by rewrite app_nil_r|]. destruct (lookupReq_inv past r t Hi) as (H1 & E1 & _).
  destruct (IH _ _ H1) as [H2 E2]. rewrite <-app_assoc in H2. split; [done|]. cbn. etrans; [exact E2|exact E1].
Qed.

(** The token cache bounds both its memory and its staleness.  After any
    sequence of look-ups from an empty cache the byte count is the cost of
    the entries, the budget holds unless a single entry is left, and the
    number of entries is within the LRU's size; and a look-up answers what the
    store answers now, or what the store answered, not empty, for the same
    transaction at most one time to live ago: an entry never suppresses a
    delivery for longer, and an empty or failed answer is never kept. *)
Theorem token_cache_sound rs r (t0 : tokenIndex (L := L)) :
  lru_entries (ti_lru t0) = [] -> ti_bytes t0 = 0%Z ->
  let t := lookupAll rs t0 in
  let '(answer, t') := lookupReq r t in
  ti_bytes t' = costs (lru_entries (ti_lru t')) ∧ ((ti_bytes t' <= ti_maxBytes t')%Z ∨ (length (lru_entries (ti_lru t')) <= 1)%nat)
  ∧ (length (lru_entries (ti_lru t')) <= lru_size (ti_lru t'))%nat
  ∧ (answer = (if String.eqb (tr_txid r) "" then [] else storeTokens r)
     ∨ ∃ r', r' ∈ rs ∧ tr_txid r' = tr_txid r ∧ answer = storeTokens r' ∧ answer ≠ [] ∧ (tr_now1 r <= tr_now2 r' + ti_ttl t0)%Z).
Proof.
  intros El Eb. cbn zeta. assert (cacheInv [] t0) as H0.
  { unfold cacheInv. rewrite El, Eb. split_and!; [done|right; cbn; lia|by intros ? ? ?%elem_of_nil]. }
  destruct (lookupAll_inv rs [] t0 H0) as [H1 E1]. destruct (lookupReq_inv _ r _ H1) as ((Hb & Hm & _) & _ & Ha). destruct (lookupReq r (lookupAll rs t0)) as [answer t'].
  cbn [fst snd app] in *. split_and!; [done|done|apply within_size|]. rewrite E1 in Ha. destruct Ha as [?|(r' & ? & ? & -> & ? & ?)]; [by left|right; by exists r'].
Qed.
End TokenCache.

(** ** Who is told what *)

Section Told.
Context {L : Type} {LruL : LRU L cacheEntry} {LawsL : LRULaws L cacheEntry} `{MapOrder}.

(** The request for the tokens of an update of one transaction. *)
Definition asked (query : list string -> Res (gmap string tokenSet)) (now : Z) (st : option TransactionStatus) : list tokenReq :=
  match st with
  | Some st => match ts_TxIDs st with [] => [mkTokenReq (query [ts_TxID st]) now now (ts_TxID st)] | _ => [] end
  | None => []
  end.

(** The manager after any updates, from an empty token cache, with any
    changes of the registry in between; the requests the store answered. *)
Inductive sseRun : list tokenReq -> Manager (L := L) -> Prop :=
| sseStart m : lru_entries (ti_lru (tokens m)) = [] -> ti_bytes (tokens m) = 0%Z -> sseRun [] m
| sseUpdate past m query enrich now st : sseRun past m -> sseRun (past ++ asked query now st) (onUpdate query enrich now st m)
| sseClients past m m' : sseRun past m -> tokens m' = tokens m -> sseRun past m'.

(** The tokens the store has for the transaction; [None] when it failed. *)
Definition storeSays (answer : Res (gmap string tokenSet)) (txid : string) : option tokenSet :=
  match answer with Ok m => Some (default [] (m !! txid)) | Err _ => None end.

(** What the fan-out goes by for a transaction of the update: the store's
    answer now, or for an update of a single transaction an answer with
    subscribers it gave at most one time to live before. *)
Definition toldBy (past : list tokenReq) (ttl : Z) (query : list string -> Res (gmap string tokenSet)) (now : Z) (st : TransactionStatus) (txid : string)
    (told : option tokenSet) : Prop :=
  match ts_TxIDs st with
  | [] => if String.eqb txid "" then told = None
          else told = storeSays (query [txid]) txid
               ∨ ∃ r, r ∈ past ∧ tr_txid r = txid ∧ told = storeSays (tr_answer r) txid ∧ told ≠ None ∧ told ≠ Some [] ∧ (now <= tr_now2 r + ttl)%Z
  | txids => told = storeSays (query txids) txid
  end.

(** A client is entitled to a transaction if it has no token, or its token is
    among those told; nobody else is where the store failed. *)
Definition entitled (told : option tokenSet) (c : Client) : bool :=
  bool_decide (Token c = "") || match told with Some toks => bool_decide (Token c ∈ toks) | None => false end.

Definition dueEvents (enrich : TransactionStatus -> TransactionStatus) (told : string -> option tokenSet) (st : TransactionStatus) (c : Client) : list TransactionStatus :=
  match ts_TxIDs st with
  | [] => if entitled (told (ts_TxID st)) c then [enrich st] else []
  | txids => List.map (fun txid => enrich (perTx st txid)) (List.filter (fun txid => entitled (told txid) c) txids)
  end.

Lemma tokenHas_elem toks t : has toks t = bool_decide (t ∈ toks).
Proof.
  unfold has. symmetry. destruct (existsb _ toks) eqn:E.
  - apply existsb_exists in E as (x & Hx & ->%String.eqb_eq). by apply bool_decide_eq_true, list_elem_of_In.
  - apply bool_decide_eq_false. intros Hx. apply not_true_iff_false in E. apply E, existsb_exists. exists t. split; [by apply list_elem_of_In|apply String.eqb_refl].
Qed.

Lemma wants_entitled told c : wants (default [] told) c = entitled told c.
Proof.
  unfold wants, entitled. rewrite tokenHas_elem. destruct (String.eqb_spec (Token c) "") as [E|E]; [by rewrite (bool_decide_true (Token c = "")) by done|]. rewrite (bool_decide_false (Token c = "")) by done.
  cbn. rewrite negb_involutive. destruct told as [toks|]; [done|]. change (default [] None) with (@nil string). rewrite bool_decide_false by apply not_elem_of_nil. done.
Qed.

Lemma storeTokens_says r : storeTokens r = default [] (storeSays (tr_answer r) (tr_txid r)).
Proof. unfold storeTokens, storeSays. by destruct (tr_answer r). Qed.

Lemma putBack_tokens cs (m : Manager (L := L)) : tokens (putBack cs m) = tokens m.
Proof. done. Qed.

Lemma onUpdate_tokens query enrich now st (m : Manager (L := L)) :
  tokens (onUpdate query enrich now st m) = tokens m
  ∨ ∃ s, st = Some s ∧ ts_TxIDs s = [] ∧ tokens (onUpdate query enrich now st m) = (lookupTokens query now now (tokens m) (ts_TxID s)).2.
Proof.
  destruct st as [st|]; [|by left]. cbn [onUpdate]. destruct (ts_TxIDs st) as [|t0 ts] eqn:Et.
  - unfold fanOut. destruct (snapshot m) as [|c cs]; [by left|]. destruct (tokenScoped (c :: cs)); [|by left]. right. exists st. split_and!; try done.
    by destruct (lookupTokens _ _ _ _ _).
  - left. unfold fanOutBulk. by destruct (snapshot m).
Qed.

Lemma lookup_req query now (t : tokenIndex (L := L)) txid :
  lookupTokens query now now t txid = lookupReq (mkTokenReq (query [txid]) now now txid) t.
Proof. done. Qed.

Lemma sseRun_inv past (m : Manager (L := L)) : sseRun past m -> cacheInv past (tokens m).
Proof.
  induction 1 as [m E1 E2|past m query enrich now st _ IH|past m m' _ IH E]; [|..|by rewrite E].
  - unfold cacheInv. rewrite E1, E2. split_and!; [done|right; cbn; lia|by intros ? ? ?%elem_of_nil].
  - assert (past ⊆ past ++ asked query now st) as Hs by (intros x Hx; apply elem_of_app; by left).
    destruct (onUpdate_tokens query enrich now st m) as [->|(s & -> & Et & ->)]; [by eapply cacheInv_mono|].
    rewrite lookup_req. cbn [asked]. rewrite Et. by apply lookupReq_inv.
Qed.

(** The tokens the code goes by are those the store told. *)
Lemma lookup_told past query now st (m : Manager (L := L)) :
  sseRun past m -> ts_TxIDs st = [] ->
  ∃ told, toldBy past (ti_ttl (tokens m)) query now st (ts_TxID st) told ∧ (lookupTokens query now now (tokens m) (ts_TxID st)).1 = default [] told.
Proof.
  intros Hr Et. unfold toldBy. rewrite Et. destruct (String.eqb (ts_TxID st) "") eqn:E.
  { exists None. split; [done|]. unfold lookupTokens. by rewrite E. }
  destruct (lookupReq_inv past (mkTokenReq (query [ts_TxID st]) now now (ts_TxID st)) _ (sseRun_inv past m Hr)) as (_ & _ & Ha).
  rewrite <-lookup_req in Ha. cbn [tr_txid] in Ha. rewrite E in Ha. destruct Ha as [->|(r & Hin & Ht & -> & Hne & Hl)].
  - exists (storeSays (query [ts_TxID st]) (ts_TxID st)). split; [by left|]. apply storeTokens_says.
  - rewrite storeTokens_says, Ht in *. exists (storeSays (tr_answer r) (ts_TxID st)). split; [|done]. right. exists r.
    split_and!; try done; intros Ex; by rewrite Ex in Hne.
Qed.

(** C31: The fan-out loses nothing silently and tells nobody what it should not.
    After any run from an empty token cache, an update leaves a client that is
    gone unchanged, and sends every other client exactly the events of the
    update it is entitled to, in order, each with its proof attached.  A
    client without a token is entitled to all.  One with a token is entitled
    to a transaction if the store has its token among those of the
    transaction's submissions, as it answers now or, for an update of a single
    transaction, as it answered with some subscribers at most one time to live
    before.  Where the store answers with an error, or the transaction has no
    txid, nobody with a token is sent the event: it is withheld and not
    recorded as a drop.  What is sent and fits is appended to the client's
    queue, never beyond its capacity; what does not fit is recorded, the drop
    flag set and the floor at or below its timestamp; where all of it fits
    nothing is recorded. *)
Theorem fanout_accounts past query enrich now st (m : Manager (L := L)) id c :
  sseRun past m -> keyed (clients m) -> clients m !! id = Some c ->
  ∃ told, (∀ txid, txid ∈ (match ts_TxIDs st with [] => [ts_TxID st] | txids => txids end) -> toldBy past (ti_ttl (tokens m)) query now st txid (told txid))
  ∧ ∃ c', clients (onUpdate query enrich now (Some st) m) !! id = Some c' ∧ (if ctxDone c then c' = c else accounted (dueEvents enrich told st c) c c').
Proof.
  intros Hr Hk Hc. assert (∃ told, (∀ txid, txid ∈ (match ts_TxIDs st with [] => [ts_TxID st] | txids => txids end) -> toldBy past (ti_ttl (tokens m)) query now st txid (told txid))
    ∧ wantedEvents query enrich now m st c = dueEvents enrich told st c) as (told & Ht & Ew).
  { destruct (ts_TxIDs st) as [|t0 ts] eqn:Et.
    - destruct (lookup_told past query now st m Hr Et) as (o & Ho & El). exists (fun _ => o). split; [by intros txid ->%list_elem_of_singleton|].
      unfold wantedEvents, dueEvents. rewrite Et, El. by rewrite wants_entitled.
    - exists (storeSays (query (t0 :: ts))). split; [intros txid _; unfold toldBy; by rewrite Et|]. unfold wantedEvents, dueEvents. rewrite Et. f_equal.
      apply List.filter_ext. intros txid. rewrite <-wants_entitled. f_equal. unfold resolveBatch, storeSays. by destruct (query (t0 :: ts)). }
  exists told. split; [done|]. exists (served now (wantedEvents query enrich now m st) c). rewrite onUpdate_served, Hc by done. split; [done|].
  unfold served. destruct (ctxDone c); [done|]. rewrite Ew. apply receive_accounted.
Qed.
End Told.

(** ** The registry *)

Section Registry.
Context {L : Type} {LruL : LRU L cacheEntry} `{MapOrder}.

(** The manager, and the clients made by a handler that has not registered
    them yet. *)
Record registry : Type := mkRegistry {
  rg_manager : Manager (L := L);
  rg_pending : list Client
}.

(** What the goroutine of a connection does to its client: it takes from the
    queue and consumes the drop state. *)
Definition writerMoves (c c' : Client) : Prop :=
  ID c' = ID c ∧ Token c' = Token c ∧ chCap c' = chCap c ∧ ctxDone c' = ctxDone c ∧ ∃ n, Ch c' = drop n (Ch c).

Inductive registryStep : registry -> registry -> Prop :=
| rgUpdate query enrich now st m pend : registryStep (mkRegistry m pend) (mkRegistry (onUpdate query enrich now st m) pend)
| rgNew token m pend : registryStep (mkRegistry m pend) (mkRegistry (NewClient token m).2 ((NewClient token m).1 :: pend))
| rgRegister c m pend1 pend2 : registryStep (mkRegistry m (pend1 ++ c :: pend2)) (mkRegistry (Register c m) (pend1 ++ pend2))
| rgUnregister id m pend : registryStep (mkRegistry m pend) (mkRegistry (Unregister id m).2 pend)
| rgDrain draw retryMaxMs m pend : registryStep (mkRegistry m pend) (mkRegistry (Drain draw retryMaxMs m).2 pend)
| rgWriter c c' m pend : clients m !! ID c = Some c -> writerMoves c c' -> registryStep (mkRegistry m pend) (mkRegistry (withClients (<[ID c := c']> (clients m)) m) pend).

Definition clientOk (last : Z) (c : Client) : Prop := (1 <= ID c <= last)%Z ∧ (0 < chCap c)%nat ∧ (length (Ch c) <= chCap c)%nat.

Record registryOk (w : registry) : Prop := mkRegistryOk {
  ro_next : (0 <= nextClientID (rg_manager w))%Z;
  ro_keyed : keyed (clients (rg_manager w));
  ro_clients : map_Forall (fun _ => clientOk (nextClientID (rg_manager w))) (clients (rg_manager w));
  ro_pending : Forall (clientOk (nextClientID (rg_manager w))) (rg_pending w);
  ro_distinct : NoDup (ID <$> rg_pending w);
  ro_fresh : ∀ c, c ∈ rg_pending w -> clients (rg_manager w) !! ID c = None;
  ro_drained : parentDone (rg_manager w) = true -> map_Forall (fun _ c => ctxDone c = true) (clients (rg_manager w))
}.

(** A step that changes the registered clients one by one. *)
Lemma registryOk_clients (m m' : Manager (L := L)) pend f :
  registryOk (mkRegistry m pend) -> nextClientID m' = nextClientID m -> (∀ id, clients m' !! id = f <$> clients m !! id) ->
  (∀ c, clientOk (nextClientID m) c -> clientOk (nextClientID m) (f c) ∧ ID (f c) = ID c) ->
  (parentDone m' = true -> ∀ id c, clients m !! id = Some c -> ctxDone (f c) = true) -> registryOk (mkRegistry m' pend).
Proof.
  intros [Hn Hk Hc Hp Hd Hf Hdr] En Em Hok Hdone. cbn in *.
  split; cbn; rewrite ?En; try done; [intros id c Hl|intros id c Hl|intros c Hin; rewrite Em; by rewrite Hf|intros Hpd id c Hl]; rewrite Em in Hl; apply fmap_Some in Hl as (c0 & H0 & ->);
    specialize (Hc id c0 H0); cbn in Hc; [|apply Hok, Hc|by eapply Hdone]. destruct (Hok c0 Hc) as [_ ->]. by apply Hk.
Qed.

Lemma receive_ok last now events c : clientOk last c -> clientOk last (receive now events c).
Proof.
  intros (Hid & Hcap & Hlen). destruct (receive_keeps now events c) as (Ei & _ & _ & Ec). destruct (receive_accounted now events c) as (taken & _ & _ & _ & _ & _ & _ & Hl).
  unfold clientOk. rewrite Ei, Ec. split_and!; [lia|lia|done|by apply Hl].
Qed.

Lemma sseNewClient_ok token (m : Manager (L := L)) : (0 <= nextClientID m)%Z -> clientOk (nextClientID m + 1) (NewClient token m).1.
Proof. intros Hn. unfold NewClient, clientOk. cbn. split; [lia|]. destruct (Z.leb_spec (clientBufferSize m) 0); split; [vm_compute; lia|lia|lia|lia]. Qed.

Lemma clientOk_mono last c : clientOk last c -> clientOk (last + 1) c.
Proof. intros (? & ? & ?). split_and!; try done; lia. Qed.

Lemma onUpdate_ok query enrich now st (m : Manager (L := L)) pend : registryOk (mkRegistry m pend) -> registryOk (mkRegistry (onUpdate query enrich now st m) pend).
Proof.
  intros Hok. destruct st as [st|]; [|done]. pose proof (ro_keyed _ Hok) as Hk. cbn in Hk.
  assert (nextClientID (onUpdate query enrich now (Some st) m) = nextClientID m ∧ parentDone (onUpdate query enrich now (Some st) m) = parentDone m) as [En Ep].
  { cbn. unfold fanOut, fanOutBulk. destruct (ts_TxIDs st), (snapshot m); try done. destruct (tokenScoped _); [|done]. by destruct (lookupTokens _ _ _ _ _). }
  apply (registryOk_clients m _ _ (served now (wantedEvents query enrich now m st))); [done|done|intros id; by apply onUpdate_served| |].
  - intros c Hc. split; [|apply served_ID]. unfold served. destruct (ctxDone c); [done|by apply receive_ok].
  - rewrite Ep. intros Hp id c Hc. pose proof (ro_drained _ Hok Hp id c Hc) as Hd. cbn in Hd. unfold served. by rewrite Hd.
Qed.

Lemma Drain_lookup draw ms (m : Manager (L := L)) id :
  keyed (clients m) ->
  clients (Drain draw ms m).2 !! id = (fun c => cancel (if (0 <? ms)%Z then (1 + draw ms c)%Z else drainRetryMS c) c) <$> clients m !! id.
Proof.
  intros Hk. unfold Drain. cbn [snd clients]. rewrite lookup_fmap, (putBack_map _ m m id Hk eq_refl) by done. by destruct (clients m !! id).
Qed.

Lemma Register_ok c (m : Manager (L := L)) pend1 pend2 : registryOk (mkRegistry m (pend1 ++ c :: pend2)) -> registryOk (mkRegistry (Register c m) (pend1 ++ pend2)).
Proof.
  intros [Hn Hk Hc Hp Hd Hf Hdr]. cbn in *. apply Forall_app in Hp as [Hp1 [Hpc Hp2]%Forall_cons].
  assert (NoDup (ID c :: (ID <$> pend1 ++ pend2))) as Hd'. { revert Hd. rewrite !fmap_app, fmap_cons. by rewrite Permutation_middle. }
  apply NoDup_cons in Hd' as [Hni Hd']. assert (ID (underParent m c) = ID c ∧ clientOk (nextClientID m) (underParent m c)) as [Eu Hu] by (unfold underParent; by destruct (parentDone m)).
  split; cbn; try done.
  - by apply keyed_insert.
  - apply map_Forall_insert_2; done.
  - by apply Forall_app.
  - intros x Hx. rewrite lookup_insert_ne; [apply Hf; apply elem_of_app in Hx as [?|?]; apply elem_of_app; [by left|right; by right]|].
    intros E. apply Hni. rewrite E. by apply list_elem_of_fmap_2.
  - intros Hpd. apply map_Forall_insert_2; [unfold underParent; by rewrite Hpd|by apply Hdr].
Qed.

Lemma registryStep_ok w w' : registryOk w -> registryStep w w' -> registryOk w'.
Proof.
  intros Hok Hs. destruct Hs as [query enrich now st m pend|token m pend|c m pend1 pend2|id m pend|draw ms m pend|c c' m pend Hc Hm].
  - by apply onUpdate_ok.
  - pose proof (sseNewClient_ok token m (ro_next _ Hok)) as Hnew. destruct Hok as [Hn Hk Hc Hp Hd Hf Hdr]. cbn in *. split; cbn; try done; [lia| | | |].
    + eapply map_Forall_impl; [exact Hc|]. intros ? ? ?. by apply clientOk_mono.
    + constructor; [exact Hnew|]. eapply Forall_impl; [exact Hp|]. intros x. apply clientOk_mono.
    + constructor; [|done]. intros (x & Ex & Hx)%list_elem_of_fmap. rewrite Forall_forall in Hp. destruct (Hp x Hx) as [? _]. lia.
    + intros x [->|Hx]%elem_of_cons; [|by apply Hf]. cbn. destruct (clients m !! (nextClientID m + 1)%Z) as [y|] eqn:Ey; [|done].
      destruct (Hc _ _ Ey) as [Hy _]. rewrite (Hk _ _ Ey) in Hy. lia.
  - by apply Register_ok.
  - unfold Unregister. destruct (clients m !! id) as [c|] eqn:Ec; [|done]. destruct Hok as [Hn Hk Hc Hp Hd Hf Hdr]. cbn in *. split; cbn; try done.
    + intros i x [_ Hx]%lookup_delete_Some. by apply Hk.
    + by apply map_Forall_delete.
    + intros x Hx. destruct (decide (ID x = id)) as [->|Hne]; [apply lookup_delete_eq|]. rewrite lookup_delete_ne by done. by apply Hf.
    + intros Hpd. by apply map_Forall_delete, Hdr.
  - eapply registryOk_clients; [exact Hok|done|intros id; apply Drain_lookup, (ro_keyed _ Hok)|done|done].
  - destruct Hok as [Hn Hk Hcs Hp Hd Hf Hdr]. cbn in *. destruct Hm as (Ei & _ & Ecap & Edone & n & Ech). split; cbn; try done.
    + by apply keyed_insert.
    + apply map_Forall_insert_2; [|done]. destruct (Hcs _ _ Hc) as (H1 & H2 & H3). unfold clientOk. rewrite Ei, Ecap, Ech, length_drop. split_and!; try done; lia.
    + intros x Hx. rewrite lookup_insert_ne; [by apply Hf|]. intros E. specialize (Hf x Hx). congruence.
    + intros Hpd. apply map_Forall_insert_2; [rewrite Edone; by apply (Hdr Hpd (ID c))|by apply Hdr].
Qed.

(** C34: The registry stays well formed.  In any interleaving of updates, of
    handlers that make, register and unregister their clients, of drains and
    of the goroutines that consume the queues: every client is registered
    under its own ID, a client not yet registered displaces nobody, no queue
    is longer than its channel and none has no capacity, and once the manager
    was drained every registered client is cancelled, one that was made
    before the drain and registered after it included. *)
Theorem registry_well_formed w (m0 : Manager (L := L)) :
  clients m0 = ∅ -> nextClientID m0 = 0%Z -> rtc registryStep (mkRegistry m0 []) w -> registryOk w.
Proof.
  intros Ec En Hs. assert (registryOk (mkRegistry m0 [])) as H0.
  { split; cbn; rewrite ?Ec, ?En; try done; constructor. }
  revert H0. induction Hs as [|x y z Hxy _ IH]; [done|]. intros Hx. apply IH. by eapply registryStep_ok.
Qed.
End Registry.

(** ** Concrete runs *)

#[local] Instance sseOrder : MapOrder := {| mapRange := fun K V _ _ m => map_to_list m; mapRange_perm := fun K V _ _ m => Permutation_refl _ |}.

Definition demoIndex (size : nat) (budget : Z) : tokenIndex (L := assocLRU cacheEntry) := mkTokenIndex budget 100 (al_empty size) 0.
Definition demoManager : Manager (L := assocLRU cacheEntry) := mkManager (demoIndex 4 1000) false 0 1 true ∅.
Definition demoQuery (txids : list string) : Res (gmap string tokenSet) := Ok (<["aa" := ["tok"]]> ∅).

(** Two connections, one with a token, with room for one event each. *)
Definition twoClients : Manager (L := assocLRU cacheEntry) :=
  let '(c1, m) := NewClient "tok" demoManager in let '(c2, m) := NewClient "other" m in Register c2 (Register c1 m).
Definition bulkUpdate : TransactionStatus := mkTransactionStatus "" StatusMined 0 (Some 50%Z) ["aa"; "bb"; "aa"] "b1" 7 [] "" [] [] 0 None None [] None.

Lemma fanout_accounts_witness :
  let m' := onUpdate demoQuery id 10 (Some bulkUpdate) twoClients in
  (clients m' !! 1%Z ≫= fun c => Some (List.map ts_TxID (Ch c), cl_dropped c, droppedFloor c)) = Some (["aa"], true, 50%Z)
  ∧ ∃ c', clients m' !! 1%Z = Some c' ∧ accounted [perTx bulkUpdate "aa"; perTx bulkUpdate "aa"] (NewClient "tok" demoManager).1 c'.
Proof.
  cbn zeta. split; [vm_compute; reflexivity|].
  destruct (fanout_accounts [] demoQuery id 10 bulkUpdate twoClients 1 (NewClient "tok" demoManager).1) as (told & Ht & c' & Hc & Ha); [|..|vm_compute; reflexivity|].
  - apply sseStart; vm_compute; reflexivity.
  - unfold twoClients. cbn [NewClient Register withClients clients]. do 2 (apply keyed_insert; [|reflexivity]). intros i c Hc. discriminate.
  - exists c'. split; [exact Hc|]. unfold dueEvents in Ha. cbn [ts_TxIDs bulkUpdate List.filter] in Ha.
    rewrite (Ht "aa") in Ha by (left; reflexivity). rewrite (Ht "bb") in Ha by (right; left; reflexivity). exact Ha.
Defined.

Definition demoReq (txid : string) (toks : tokenSet) (now : Z) : tokenReq := mkTokenReq (Ok {[ txid := toks ]}) now now txid.

(** The second look-up of "aa" is answered by the cache, the third is after
    the time to live; the budget has room for two entries. *)
Lemma token_cache_sound_witness :
  let rs := [demoReq "aa" ["t1"] 0; demoReq "bb" ["t2"] 10; demoReq "cc" ["t3"] 20; demoReq "dd" [] 30] in
  let ask r := lookupReq r (lookupAll rs (demoIndex 8 400)) in
  (lru_entries (ti_lru (lookupAll rs (demoIndex 8 400)))).*1 = ["cc"; "bb"] ∧ (ask (demoReq "bb" ["t9"] 110)).1 = ["t2"] ∧ (ask (demoReq "bb" ["t9"] 111)).1 = ["t9"]
  ∧ ti_bytes (ask (demoReq "bb" ["t9"] 111)).2 = costs (lru_entries (ti_lru (ask (demoReq "bb" ["t9"] 111)).2)).
Proof.
  cbn zeta. split; [vm_compute; reflexivity|]. split; [vm_compute; reflexivity|]. split; [vm_compute; reflexivity|].
  pose proof (token_cache_sound [demoReq "aa" ["t1"] 0; demoReq "bb" ["t2"] 10; demoReq "cc" ["t3"] 20; demoReq "dd" [] 30] (demoReq "bb" ["t9"] 111) (demoIndex 8 400) eq_refl eq_refl) as Hs.
  cbv zeta in Hs. destruct (lookupReq _ _) as [answer t']. by destruct Hs.
Defined.

(** A client made before a drain and registered after it. *)
Lemma registry_well_formed_witness :
  let '(c, m) := NewClient "tok" demoManager in
  let m' := Register c (Drain (fun n _ => n) 500 m).2 in
  (ctxDone <$> clients m' !! 1%Z) = Some true ∧ registryOk (mkRegistry m' []).
Proof.
  cbn [NewClient demoManager]. split; [vm_compute; reflexivity|]. apply (registry_well_formed _ demoManager); [reflexivity|reflexivity|].
  eapply rtc_l; [apply (rgNew "tok")|]. eapply rtc_l; [apply (rgDrain (fun n _ => n) 500)|]. eapply rtc_l; [apply (rgRegister _ _ [] [])|]. apply rtc_refl.
Defined.
