(* ===== verification/FamilyKeysProps.v ===== *)
(** * FamilyKeysProps: one key per dependency family

    The union-find computes the connected components of the in-batch spends,
    and the key of a transaction is the smallest member of its family, however
    the submission is ordered. *)
From stdpp Require Import base gmap strings list relations.
From Stdlib Require Import Ascii ZArith Lia.
From Stdlib Require Import Strings.Byte.
From S2P Require Import Prelude FamilyKeys.

#[local] Arguments find : simpl never.
#[local] Arguments union : simpl never.

(** ** The forest *)

Definition szof (sz : list nat) (i : nat) : nat := default 0%nat (sz !! i).

(** [rep] gives every element its representative. *)
Definition forest (n : nat) (rep : nat -> nat) (par sz : list nat) : Prop :=
  length par = n ∧ length sz = n
  ∧ ∀ i p, par !! i = Some p -> (p < n)%nat ∧ rep p = rep i ∧ (rep i < n)%nat ∧ par !! rep i = Some (rep i)
      ∧ (p = i -> rep i = i) ∧ (p ≠ i -> (szof sz i < szof sz p)%nat).

Lemma szof_max sz i : (szof sz i <= max_list sz)%nat.
Proof. unfold szof. destruct (sz !! i) as [s|] eqn:E; cbn; [|lia]. apply max_list_elem_of_le. by eapply list_elem_of_lookup_2. Qed.

Lemma forest_at n rep par sz i : forest n rep par sz -> (i < n)%nat -> ∃ p, par !! i = Some p.
Proof. intros (<- & _ & _) Hi. apply lookup_lt_is_Some_2 in Hi as [p Hp]. by exists p. Qed.

Lemma halve_forest n rep par sz i p g :
  forest n rep par sz -> par !! i = Some p -> p ≠ i -> par !! p = Some g -> forest n rep (<[i := g]> par) sz.
Proof.
  intros (Hl & Hs & Hf) Hi Hne Hp. destruct (Hf i p Hi) as (Hpn & Erep & Hrn & Hroot & _ & Hlt). destruct (Hf p g Hp) as (Hgn & Eg & _ & _ & Hgp & Hlt').
  assert (i < length par)%nat as Hil by (by eapply lookup_lt_Some). assert (rep i ≠ i) as Hni by (intros E; rewrite E in Hroot; congruence).
  split_and!; [by rewrite length_insert|done|]. intros j q Hj. destruct (decide (j = i)) as [->|Hji].
  - rewrite list_lookup_insert_eq in Hj by done. injection Hj as <-. rewrite list_lookup_insert_ne by congruence.
    assert (szof sz i < szof sz g)%nat by (destruct (decide (g = p)) as [->|Hgp']; [by apply Hlt|specialize (Hlt Hne); specialize (Hlt' Hgp'); lia]).
    split_and!; try done; [congruence|intros ->; lia].
  - rewrite list_lookup_insert_ne in Hj by done. destruct (Hf j q Hj) as (H1 & H2 & H3 & H4 & H5 & H6). split_and!; try done.
    destruct (decide (rep j = i)) as [E|E]; [|by rewrite list_lookup_insert_ne]. rewrite E in H4. congruence.
Qed.

Lemma findLoop_ok n rep fuel par sz i :
  forest n rep par sz -> (i < n)%nat -> (max_list sz - szof sz i < fuel)%nat ->
  ∃ par', findLoop fuel par i = Some (rep i, par') ∧ forest n rep par' sz.
Proof.
  revert par i. induction fuel as [|fuel IH]; intros par i Hf Hi Hfuel; [lia|]. cbn.
  destruct (forest_at _ _ _ _ _ Hf Hi) as [p Hp]. rewrite Hp. cbn. destruct (proj2 (proj2 Hf) i p Hp) as (Hpn & Erep & Hrn & Hroot & Heq & Hlt).
  destruct (Nat.eqb_spec p i) as [->|Hne]; [rewrite (Heq eq_refl); by exists par|]. destruct (forest_at _ _ _ _ _ Hf Hpn) as [g Hg]. rewrite Hg. cbn.
  destruct (proj2 (proj2 Hf) p g Hg) as (Hgn & Eg & _ & _ & _ & Hlt'). specialize (Hlt Hne). pose proof (szof_max sz g) as Hm.
  assert (szof sz p <= szof sz g)%nat by (destruct (decide (g = p)) as [->|Hgp]; [lia|specialize (Hlt' Hgp); lia]).
  destruct (IH (<[i := g]> par) g) as (par' & E & Hf'); [by eapply halve_forest|done|lia|]. exists par'. rewrite E. split; [by rewrite Eg, Erep|done].
Qed.

Definition ufOk (n : nat) (rep : nat -> nat) (u : uf) : Prop := forest n rep (parent u) (sizes u) ∧ Forall (fun s => 1 <= s)%nat (sizes u).

Lemma find_ok n rep u i : ufOk n rep u -> (i < n)%nat -> ∃ u', find u i = Some (rep i, u') ∧ ufOk n rep u' ∧ sizes u' = sizes u.
Proof.
  intros [Hf Hs] Hi. unfold find. destruct (findLoop_ok n rep (S (max_list (sizes u))) (parent u) (sizes u) i Hf Hi) as (par' & E & Hf'); [lia|].
  rewrite E. cbn. by eexists.
Qed.

(** Joining the classes of two representatives. *)
Definition joinRep (ra rb : nat) (rep : nat -> nat) (i : nat) : nat := if (rep i =? rb)%nat then ra else rep i.

Lemma link_ok n rep u ra rb :
  ufOk n rep u -> (ra < n)%nat -> (rb < n)%nat -> ra ≠ rb -> rep ra = ra -> rep rb = rb -> (szof (sizes u) rb <= szof (sizes u) ra)%nat ->
  ufOk n (joinRep ra rb rep) (mkUF (<[rb := ra]> (parent u)) (<[ra := (szof (sizes u) ra + szof (sizes u) rb)%nat]> (sizes u))).
Proof.
  intros [Hf Hs] Ha Hb Hne Era Erb Hsz. assert (1 <= szof (sizes u) rb)%nat as Hpos.
  { destruct Hf as (_ & Hl & _). unfold szof. destruct (lookup_lt_is_Some_2 (sizes u) rb) as [s Es]; [lia|]. rewrite Es. cbn. rewrite Forall_forall in Hs. apply Hs. by eapply list_elem_of_lookup_2. }
  set (s' := (szof (sizes u) ra + szof (sizes u) rb)%nat). destruct Hf as (Hl & Hl' & Hf).
  assert (∀ i, szof (<[ra := s']> (sizes u)) i = if decide (i = ra) then s' else szof (sizes u) i) as Esz.
  { intros i. unfold szof. destruct (decide (i = ra)) as [->|Hia]; [rewrite list_lookup_insert_eq by lia; done|by rewrite list_lookup_insert_ne]. }
  assert (∀ r, r = ra ∨ r ≠ rb -> parent u !! r = Some r -> <[rb := ra]> (parent u) !! r = Some r) as Hkeep.
  { intros r Hr Er. rewrite list_lookup_insert_ne; [done|]. destruct Hr as [->|?]; congruence. }
  assert (parent u !! ra = Some ra) as Epa.
  { destruct (lookup_lt_is_Some_2 (parent u) ra) as [p Ep]; [lia|]. destruct (Hf _ _ Ep) as (_ & _ & _ & H4 & _). by rewrite Era in H4. }
  split; [|by apply Forall_insert; [|unfold s'; lia]]. cbn. split_and!; [by rewrite length_insert|by rewrite length_insert|].
  intros i p Hi. unfold joinRep. destruct (decide (i = rb)) as [->|Hib].
  - rewrite list_lookup_insert_eq in Hi by lia. injection Hi as <-. rewrite Era, Erb, Nat.eqb_refl. destruct (Nat.eqb_spec ra rb); [done|].
    rewrite !Esz. split_and!; try done; [by apply Hkeep; [left|]|]. intros _. destruct (decide (rb = ra)); [done|]. destruct (decide (ra = ra)); [unfold s'; lia|done].
  - rewrite list_lookup_insert_ne in Hi by done. destruct (Hf i p Hi) as (H1 & H2 & H3 & H4 & H5 & H6). rewrite H2. destruct (Nat.eqb_spec (rep i) rb) as [E|E].
    + split_and!; try done; [by apply Hkeep; [left|]|intros ->; specialize (H5 eq_refl); congruence|].
      intros Hp. specialize (H6 Hp). rewrite !Esz. destruct (decide (i = ra)) as [->|]; [congruence|]. destruct (decide (p = ra)) as [->|]; [congruence|done].
    + split_and!; try done; [by apply Hkeep; [right|]|]. intros Hp. specialize (H6 Hp). rewrite !Esz.
      destruct (decide (i = ra)) as [->|]; [congruence|]. destruct (decide (p = ra)) as [->|]; [unfold s'; lia|done].
Qed.

(** The classes after a union. *)
Definition joined (rep : nat -> nat) (a b i j : nat) : Prop :=
  rep i = rep j ∨ rep i = rep a ∧ rep j = rep b ∨ rep i = rep b ∧ rep j = rep a.

Lemma union_ok n rep u a b :
  ufOk n rep u -> (a < n)%nat -> (b < n)%nat ->
  ∃ u' rep', union a b u = Some u' ∧ ufOk n rep' u' ∧ ∀ i j, rep' i = rep' j <-> joined rep a b i j.
Proof.
  intros Hu Ha Hb. unfold union. destruct (find_ok n rep u a Hu Ha) as (u1 & E1 & Hu1 & _). rewrite E1. cbn [mbind option_bind].
  destruct (find_ok n rep u1 b Hu1 Hb) as (u2 & E2 & Hu2 & _). rewrite E2. cbn [mbind option_bind].
  destruct (Nat.eqb_spec (rep a) (rep b)) as [E|E]; [exists u2, rep; split_and!; try done; unfold joined; intros i j; split; [by left|intros [?|[[? ?]|[? ?]]]; congruence]|].
  assert (∀ x, (x < n)%nat -> (rep x < n)%nat ∧ rep (rep x) = rep x) as Hrep.
  { intros x Hx. destruct (proj1 Hu2) as (Hl & _ & Hf). destruct (lookup_lt_is_Some_2 (parent u2) x) as [p Hp]; [lia|].
    destruct (Hf _ _ Hp) as (_ & _ & H3 & H4 & _). split; [done|]. destruct (Hf _ _ H4) as (_ & _ & _ & _ & H5 & _). by apply H5. }
  destruct (Hrep a Ha) as [Ran Rar], (Hrep b Hb) as [Rbn Rbr]. destruct (proj1 Hu2) as (_ & Hl & _).
  assert (∀ r, (r < n)%nat -> sizes u2 !! r = Some (szof (sizes u2) r)) as Esz.
  { intros r Hr. unfold szof. destruct (lookup_lt_is_Some_2 (sizes u2) r) as [s Hs]; [lia|]. by rewrite Hs. }
  rewrite (Esz _ Ran), (Esz _ Rbn). cbn [mbind option_bind]. destruct (Nat.ltb_spec (szof (sizes u2) (rep a)) (szof (sizes u2) (rep b))) as [Hlt|Hle]; cbn.
  - rewrite Nat.add_comm. eexists _, (joinRep (rep b) (rep a) rep). split; [reflexivity|]. split; [apply link_ok; try done; lia|].
    intros i j. unfold joinRep, joined. destruct (Nat.eqb_spec (rep i) (rep a)), (Nat.eqb_spec (rep j) (rep a)); intuition congruence.
  - eexists _, (joinRep (rep a) (rep b) rep). split; [reflexivity|]. split; [by apply link_ok|].
    intros i j. unfold joinRep, joined. destruct (Nat.eqb_spec (rep i) (rep b)), (Nat.eqb_spec (rep j) (rep b)); intuition congruence.
Qed.

(** ** Sequences of unions *)

Fixpoint unions (es : list (nat * nat)) (u : uf) : option uf :=
  match es with
  | [] => Some u
  | (a, b) :: es => u ← union a b u; unions es u
  end.

Lemma unions_app es es' u : unions (es ++ es') u = (u ← unions es u; unions es' u).
Proof. revert u. induction es as [|[a b] es IH]; intros u; cbn; [done|]. destruct (union a b u); cbn; [apply IH|done]. Qed.

Definition edge (es : list (nat * nat)) (a b : nat) : Prop := (a, b) ∈ es.
Definition within (n : nat) (es : list (nat * nat)) : Prop := Forall (fun e => e.1 < n ∧ e.2 < n)%nat es.

Lemma joined_rtsc es a b (rep rep' : nat -> nat) :
  (∀ i j, rep i = rep j <-> rtsc (edge es) i j) -> (∀ i j, rep' i = rep' j <-> joined rep a b i j) ->
  ∀ i j, rep' i = rep' j <-> rtsc (edge (es ++ [(a, b)])) i j.
Proof.
  intros Hr Hr'. assert (∀ i j, rtsc (edge es) i j -> rtsc (edge (es ++ [(a, b)])) i j) as Hmono.
  { intros i j. apply rtc_subrel. intros x y [Hx|Hx]; [left|right]; apply elem_of_app; by left. }
  assert (rtsc (edge (es ++ [(a, b)])) a b) as Hab by (apply rtc_once; left; apply elem_of_app; right; by left).
  intros i j. split.
  - intros [H|[[H1 H2]|[H1 H2]]]%Hr'; [by apply Hmono, Hr| |]; apply Hr, Hmono in H1, H2; [|etrans; [exact H1|]; etrans; [symmetry; exact Hab|by symmetry]].
    etrans; [exact H1|]. etrans; [exact Hab|by symmetry].
  - induction 1 as [x|x y z Hxy _ IH]; [done|]. rewrite <-IH. apply Hr'. destruct Hxy as [Hxy|Hxy]; apply elem_of_app in Hxy as [Hxy|[= -> ->]%list_elem_of_singleton].
    + left. apply Hr, rtc_once. by left.
    + right. by left.
    + left. apply Hr, rtc_once. by right.
    + right. by right.
Qed.

Lemma unions_ok n es es0 u rep :
  ufOk n rep u -> within n es -> (∀ i j, rep i = rep j <-> rtsc (edge es0) i j) ->
  ∃ u' rep', unions es u = Some u' ∧ ufOk n rep' u' ∧ ∀ i j, rep' i = rep' j <-> rtsc (edge (es0 ++ es)) i j.
Proof.
  revert es0 u rep. induction es as [|[a b] es IH]; intros es0 u rep Hu Hw Hr; cbn; [exists u, rep; by rewrite app_nil_r|].
  apply Forall_cons in Hw as [[Ha Hb] Hw]. destruct (union_ok n rep u a b Hu Ha Hb) as (u1 & rep1 & E & Hu1 & Hj). rewrite E. cbn.
  destruct (IH (es0 ++ [(a, b)]) u1 rep1 Hu1 Hw (joined_rtsc es0 a b rep rep1 Hr Hj)) as (u' & rep' & E' & Hu' & Hr'). exists u', rep'. by rewrite <-app_assoc in Hr'.
Qed.

Lemma init_ok n : ufOk n id (mkUF (seq 0 n) (replicate n 1%nat)) ∧ ∀ i j : nat, id i = id j <-> rtsc (edge []) i j.
Proof.
  split; [split; [split_and!|]|].
  - apply length_seq.
  - apply length_replicate.
  - intros i p Hi. apply lookup_seq in Hi as [-> Hi]. cbn. split_and!; try done. by rewrite lookup_seq.
  - by apply Forall_replicate.
  - intros i j. split; [by intros [= ->]|]. induction 1 as [x|x y z [Hxy|Hxy] _ _]; [done| |]; by apply elem_of_nil in Hxy.
Qed.

(** ** The edges of a submission *)

Fixpoint inputEdges (index : gmap string nat) (i : nat) (id : string) (ins : list string) : list (nat * nat) :=
  match ins with
  | [] => []
  | src :: ins =>
      match (if String.eqb src "" || String.eqb src id then None else index !! src) with
      | Some j => (i, j) :: inputEdges index i id ins
      | None => inputEdges index i id ins
      end
  end.

Fixpoint spendEdges (index : gmap string nat) (i : nat) (txids : list string) (inputs : list (list string)) : list (nat * nat) :=
  match txids, inputs with
  | id :: txids, ins :: inputs => inputEdges index i id ins ++ spendEdges index (S i) txids inputs
  | _, _ => []
  end.

Fixpoint duplicateEdges (index : gmap string nat) (i : nat) (txids : list string) : list (nat * nat) :=
  match txids with
  | [] => []
  | id :: txids =>
      let first := default 0%nat (index !! id) in
      (if negb (first =? i)%nat then [(i, first)] else []) ++ duplicateEdges index (S i) txids
  end.

Lemma unionInputs_edges index i id ins u : unionInputs index i id ins u = unions (inputEdges index i id ins) u.
Proof.
  revert u. induction ins as [|src ins IH]; intros u; cbn; [done|]. destruct (String.eqb src "" || String.eqb src id); [apply IH|].
  destruct (index !! src); cbn; [|apply IH]. destruct (union i _ u); cbn; [apply IH|done].
Qed.

Lemma unionSpends_edges index i txids inputs u :
  length txids = length inputs -> unionSpends index i txids inputs u = unions (spendEdges index i txids inputs) u.
Proof.
  revert i txids u. induction inputs as [|ins inputs IH]; intros i [|id txids] u Hl; cbn; try done. rewrite unions_app, unionInputs_edges.
  destruct (unions (inputEdges index i id ins) u); cbn; [|done]. apply IH. cbn in Hl. lia.
Qed.

Lemma unionDuplicates_edges index i txids u : unionDuplicates index i txids u = unions (duplicateEdges index i txids) u.
Proof.
  revert i u. induction txids as [|id txids IH]; intros i u; cbn; [done|]. destruct (negb _); cbn; [destruct (union i _ u); cbn; [apply IH|done]|apply IH].
Qed.

(** [index] gives the first occurrence. *)
Lemma indexFrom_spec i index txids id j :
  indexFrom i index txids !! id = Some j <->
  index !! id = Some j ∨ index !! id = None ∧ ∃ k, j = (i + k)%nat ∧ txids !! k = Some id ∧ ∀ k', (k' < k)%nat -> txids !! k' ≠ Some id.
Proof.
  revert i index. induction txids as [|x txids IH]; intros i index; cbn.
  { split; [by left|intros [?|(_ & k & _ & Hk & _)]; [done|]]. by rewrite lookup_nil in Hk. }
  rewrite IH. destruct (decide (id = x)) as [->|Hne].
  - destruct (index !! x) as [j0|] eqn:Ex; [rewrite Ex; naive_solver|]. rewrite lookup_insert_eq. split.
    + intros [[= <-]|[? _]]; [|done]. right. split; [done|]. exists 0%nat. split_and!; [lia|done|lia].
    + intros [?|(_ & k & -> & Hk & Hmin)]; [done|]. left. f_equal. destruct k; [lia|]. by destruct (Hmin 0%nat ltac:(lia)).
  - assert (match index !! x with Some _ => index | None => <[x := i]> index end !! id = index !! id) as ->.
    { destruct (index !! x); [done|]. by rewrite lookup_insert_ne. }
    split; (intros [?|(Hn & k & -> & Hk & Hmin)]; [by left|right; split; [done|]]).
    + exists (S k). split_and!; [lia|done|]. intros [|k'] Hlt; cbn; [congruence|]. apply Hmin. lia.
    + destruct k as [|k]; [cbn in Hk; congruence|]. exists k. split_and!; [lia|done|]. intros k' Hlt. apply (Hmin (S k')). lia.
Qed.

Lemma index_spec txids id j :
  indexFrom 0 ∅ txids !! id = Some j <-> txids !! j = Some id ∧ ∀ k, (k < j)%nat -> txids !! k ≠ Some id.
Proof.
  rewrite indexFrom_spec, lookup_empty. split; [by intros [?|(_ & k & -> & ? & ?)]|]. intros [? ?]. right. split; [done|]. by exists j.
Qed.

Lemma index_total txids id i : txids !! i = Some id -> ∃ j, indexFrom 0 ∅ txids !! id = Some j.
Proof.
  intros Hi. destruct (indexFrom 0 ∅ txids !! id) as [j|] eqn:E; [by exists j|exfalso]. revert i Hi.
  enough (∀ i k, (k < i)%nat -> txids !! k ≠ Some id) as H by (intros i Hi; apply (H (S i) i); [lia|done]).
  induction i as [|i IH]; intros k Hk; [lia|]. destruct (decide (k = i)) as [->|]; [|apply IH; lia].
  intros Hi. assert (indexFrom 0 ∅ txids !! id = Some i) by (apply index_spec; by split). congruence.
Qed.

Lemma spendEdges_spec index i txids inputs a b :
  (a, b) ∈ spendEdges index i txids inputs <->
  ∃ k id ins src, a = (i + k)%nat ∧ txids !! k = Some id ∧ inputs !! k = Some ins ∧ src ∈ ins ∧ src ≠ "" ∧ src ≠ id ∧ index !! src = Some b.
Proof.
  assert (∀ a i id ins, (a, b) ∈ inputEdges index i id ins <-> a = i ∧ ∃ src, src ∈ ins ∧ src ≠ "" ∧ src ≠ id ∧ index !! src = Some b) as Hin.
  { intros a0 i0 id ins. induction ins as [|src ins IH]; cbn; [split; [by intros ?%elem_of_nil|by intros (_ & ? & ?%elem_of_nil & _)]|].
    destruct (String.eqb_spec src "") as [->|H0]; cbn; [rewrite IH; split; intros (-> & s & Hs & ?); (split; [done|]); exists s; (split; [|done]); [by right|]; apply elem_of_cons in Hs as [->|?]; naive_solver|].
    destruct (String.eqb_spec src id) as [->|H1]; [rewrite IH; split; intros (-> & s & Hs & ?); (split; [done|]); exists s; (split; [|done]); [by right|]; apply elem_of_cons in Hs as [->|?]; naive_solver|].
    destruct (index !! src) as [j|] eqn:E; [rewrite elem_of_cons, IH|rewrite IH]; split.
    - intros [[= -> ->]|(-> & s & Hs & ?)]; (split; [done|]); [exists src; split; [by left|done]|exists s; split; [by right|done]].
    - intros (-> & s & Hs & ? & ? & Es). apply elem_of_cons in Hs as [->|Hs]; [left; congruence|right; split; [done|by exists s]].
    - intros (-> & s & Hs & ?); (split; [done|]); exists s; split; [by right|done].
    - intros (-> & s & Hs & ? & ? & Es). apply elem_of_cons in Hs as [->|Hs]; [congruence|split; [done|by exists s]]. }
  revert i inputs. induction txids as [|id txids IH]; intros i inputs; cbn.
  { split; [by intros ?%elem_of_nil|]. intros (k & id & ins & src & _ & Hk & _). by rewrite lookup_nil in Hk. }
  destruct inputs as [|ins inputs]; cbn; [split; [by intros ?%elem_of_nil|]; intros (k & id' & ins & src & _ & _ & Hk & _); by rewrite lookup_nil in Hk|].
  rewrite elem_of_app, Hin, IH. split.
  - intros [(-> & src & ?)|(k & id' & ins' & src & -> & ?)]; [exists 0%nat, id, ins, src; split; [lia|done]|exists (S k), id', ins', src; split; [lia|done]].
  - intros ([|k] & id' & ins' & src & -> & Hk & Hk' & ?); cbn in Hk, Hk'; [injection Hk as <-; injection Hk' as <-; left; split; [lia|by exists src]|].
    right. exists k, id', ins', src. split; [lia|done].
Qed.

Lemma duplicateEdges_spec index i txids a b :
  (a, b) ∈ duplicateEdges index i txids <-> ∃ k id, a = (i + k)%nat ∧ txids !! k = Some id ∧ b = default 0%nat (index !! id) ∧ b ≠ a.
Proof.
  revert i. induction txids as [|id txids IH]; intros i; cbn.
  { split; [by intros ?%elem_of_nil|]. intros (k & id & _ & Hk & _). by rewrite lookup_nil in Hk. }
  rewrite elem_of_app, IH. split.
  - intros [H|(k & id' & -> & ?)]; [|exists (S k), id'; split; [lia|done]]. destruct (Nat.eqb_spec (default 0%nat (index !! id)) i); cbn in H; [by apply elem_of_nil in H|].
    apply list_elem_of_singleton in H as [= -> ->]. exists 0%nat, id. split; [lia|done].
  - intros ([|k] & id' & -> & Hk & -> & Hne); cbn in Hk; [|right; exists k, id'; split; [lia|done]]. injection Hk as <-. left.
    rewrite Nat.add_0_r in *. destruct (Nat.eqb_spec (default 0%nat (index !! id)) i); [done|]. cbn. by left.
Qed.

(** ** The keys *)

(** The smallest member seen so far of every class. *)
Definition minima (rep : nat -> nat) (txids : list string) (m : nat) (keyOf : gmap nat string) : Prop :=
  ∀ r, match keyOf !! r with
       | Some k => (∃ i, (i < m)%nat ∧ txids !! i = Some k ∧ rep i = r) ∧ ∀ i id, (i < m)%nat -> txids !! i = Some id -> rep i = r -> str_ltb id k = false
       | None => ∀ i id, (i < m)%nat -> txids !! i = Some id -> rep i ≠ r
       end.

Lemma minima_step rep txids m keyOf id :
  minima rep txids m keyOf -> txids !! m = Some id ->
  minima rep txids (S m) (if match keyOf !! rep m with Some cur => str_ltb id cur | None => true end then <[rep m := id]> keyOf else keyOf).
Proof.
  intros Hm Hid r. pose proof (Hm (rep m)) as Hr0. destruct (decide (r = rep m)) as [->|Hne].
  - destruct (keyOf !! rep m) as [cur|] eqn:E.
    + destruct Hr0 as [(i & Hi & Hk & Er) Hlow]. destruct (str_ltb id cur) eqn:Elt; [rewrite lookup_insert_eq|rewrite E].
      * split; [exists m; split_and!; [lia|done|done]|]. intros j id' Hj Hid' Erj. destruct (decide (j = m)) as [->|]; [rewrite Hid in Hid'; injection Hid' as <-; apply str_ltb_irrefl|].
        specialize (Hlow j id' ltac:(lia) Hid' Erj). destruct (str_ltb id' id) eqn:E'; [|done]. by rewrite (str_ltb_trans _ _ _ E' Elt) in Hlow.
      * split; [exists i; split_and!; [lia|done|done]|]. intros j id' Hj Hid' Erj. destruct (decide (j = m)) as [->|]; [congruence|]. apply (Hlow j); [lia|done|done].
    + rewrite lookup_insert_eq. split; [exists m; split_and!; [lia|done|done]|]. intros j id' Hj Hid' Erj. destruct (decide (j = m)) as [->|]; [rewrite Hid in Hid'; injection Hid' as <-; apply str_ltb_irrefl|].
      by destruct (Hr0 j id' ltac:(lia) Hid').
  - assert ((if match keyOf !! rep m with Some cur => str_ltb id cur | None => true end then <[rep m := id]> keyOf else keyOf) !! r = keyOf !! r) as ->.
    { destruct (match keyOf !! rep m with Some cur => str_ltb id cur | None => true end); [by rewrite lookup_insert_ne|done]. }
    specialize (Hm r). destruct (keyOf !! r) as [k|].
    + destruct Hm as [(i & Hi & Hk & Er) Hlow]. split; [exists i; split_and!; [lia|done|done]|]. intros j id' Hj Hid' Erj. destruct (decide (j = m)) as [->|]; [congruence|]. apply (Hlow j); [lia|done|done].
    + intros j id' Hj Hid'. destruct (decide (j = m)) as [->|]; [congruence|]. apply (Hm j id'); [lia|done].
Qed.

Lemma smallest_ok n rep txids m rest keyOf u :
  ufOk n rep u -> txids !! m = head rest -> (∀ k, txids !! (m + k)%nat = rest !! k) -> length txids = n -> minima rep txids m keyOf ->
  ∃ keyOf' u', smallest m rest keyOf u = Some (keyOf', u') ∧ ufOk n rep u' ∧ minima rep txids n keyOf'.
Proof.
  intros Hu _ Hrest Hn. revert m keyOf u Hu Hrest. induction rest as [|id rest IH]; intros m keyOf u Hu Hrest Hm; cbn.
  - exists keyOf, u. split_and!; try done. specialize (Hrest 0%nat). rewrite Nat.add_0_r in Hrest. cbn in Hrest. apply lookup_ge_None in Hrest.
    intros r. specialize (Hm r). destruct (keyOf !! r) as [k|].
    + destruct Hm as [(i & Hi & Hk & Er) Hlow]. split; [exists i; split_and!; try done; apply lookup_lt_Some in Hk; lia|]. intros j id Hj. apply Hlow. lia.
    + intros j id Hj. apply Hm. lia.
  - pose proof (Hrest 0%nat) as Hid. rewrite Nat.add_0_r in Hid. cbn in Hid. assert (m < n)%nat as Hlt by (apply lookup_lt_Some in Hid; lia).
    destruct (find_ok n rep u m Hu Hlt) as (u1 & E & Hu1 & _). rewrite E. cbn. apply IH; [done| |by apply minima_step].
    intros k. specialize (Hrest (S k)). by rewrite Nat.add_succ_r in Hrest.
Qed.

Lemma keysByRoot_ok n rep i m keyOf u :
  ufOk n rep u -> (i + m = n)%nat -> keysByRoot i m keyOf u = Some (List.map (fun k => default "" (keyOf !! rep k)) (seq i m)).
Proof.
  revert i u. induction m as [|m IH]; intros i u Hu Hn; cbn; [done|]. destruct (find_ok n rep u i Hu ltac:(lia)) as (u1 & E & Hu1 & _). rewrite E. cbn.
  rewrite IH by (done || lia). done.
Qed.

(** ** Families *)

(** [a] spends an output of [b], both in the submission. *)
Definition spends (txids : list string) (inputs : list (list string)) (a b : string) : Prop :=
  ∃ i ins, txids !! i = Some a ∧ inputs !! i = Some ins ∧ b ∈ ins ∧ b ≠ "" ∧ b ≠ a ∧ b ∈ txids.

(** Connected through spends in either direction. *)
Definition family (txids : list string) (inputs : list (list string)) : string -> string -> Prop := rtsc (spends txids inputs).

Definition allEdges (txids : list string) (inputs : list (list string)) : list (nat * nat) :=
  let index := indexFrom 0 ∅ txids in spendEdges index 0 txids inputs ++ duplicateEdges index 0 txids.

Lemma allEdges_within txids inputs : within (length txids) (allEdges txids inputs).
Proof.
  apply Forall_forall. intros [a b] [H|H]%elem_of_app.
  - apply spendEdges_spec in H as (k & id & ins & src & -> & Hk & _ & _ & _ & _ & Hj). apply index_spec in Hj as [Hj _]. cbn. split; by eapply lookup_lt_Some.
  - apply duplicateEdges_spec in H as (k & id & -> & Hk & -> & _). destruct (index_total _ _ _ Hk) as [j Hj]. rewrite Hj. apply index_spec in Hj as [Hj _].
    cbn. split; by eapply lookup_lt_Some.
Qed.

(** An edge stays in a family. *)
Lemma edge_family txids inputs i j a b :
  edge (allEdges txids inputs) i j -> txids !! i = Some a -> txids !! j = Some b -> family txids inputs a b.
Proof.
  intros [H|H]%elem_of_app Hi Hj.
  - apply spendEdges_spec in H as (k & id & ins & src & -> & Hk & Hins & Hsrc & H0 & H1 & Hidx). apply index_spec in Hidx as [Hidx _]. cbn in Hi.
    apply rtc_once. left. exists k, ins. assert (src = b) as -> by congruence. assert (id = a) as -> by congruence. split_and!; try done. by eapply list_elem_of_lookup_2.
  - apply duplicateEdges_spec in H as (k & id & -> & Hk & -> & _). destruct (index_total _ _ _ Hk) as [j' Hj']. rewrite Hj' in Hj. apply index_spec in Hj' as [Hj' _].
    cbn in Hi, Hj. assert (a = b) as -> by congruence. done.
Qed.

(** Two occurrences of one transaction are connected. *)
Lemma same_connected txids inputs i j a : txids !! i = Some a -> txids !! j = Some a -> rtsc (edge (allEdges txids inputs)) i j.
Proof.
  assert (∀ i, txids !! i = Some a -> rtsc (edge (allEdges txids inputs)) i (default 0%nat (indexFrom 0 ∅ txids !! a))) as Hfirst.
  { intros i0 Hi. destruct (decide (default 0%nat (indexFrom 0 ∅ txids !! a) = i0)) as [->|Hne]; [done|]. apply rtc_once. left. apply elem_of_app. right.
    apply duplicateEdges_spec. by exists i0, a. }
  intros Hi Hj. etrans; [by apply Hfirst|]. symmetry. by apply Hfirst.
Qed.

Lemma connected_family txids inputs i j a b :
  txids !! i = Some a -> txids !! j = Some b -> rtsc (edge (allEdges txids inputs)) i j <-> family txids inputs a b.
Proof.
  intros Hi Hj. split.
  - intros H. revert a Hi. induction H as [x|x y z Hxy Hyz IH]; intros a Hi; [by assert (a = b) as -> by congruence|].
    assert (y < length txids)%nat as [c Hc]%lookup_lt_is_Some_2.
    { pose proof (allEdges_within txids inputs) as Hw. unfold within in Hw. rewrite Forall_forall in Hw. destruct Hxy as [H|H]; apply Hw in H; by destruct H. }
    etrans; [|by apply IH]. destruct Hxy as [H|H]; [by eapply edge_family|]. symmetry. by eapply edge_family.
  - intros H. revert i Hi. induction H as [x|x y z Hxy Hyz IH]; intros i Hi; [by eapply same_connected|].
    assert (∀ x y i, spends txids inputs x y -> txids !! i = Some x -> ∃ j, txids !! j = Some y ∧ rtsc (edge (allEdges txids inputs)) i j) as Hstep.
    { intros x0 y0 i1 (i0 & ins & Hi0 & Hins & Hy & H0 & H1 & Hmem) Hi1. apply list_elem_of_lookup in Hmem as [jy Hjy]. destruct (index_total _ _ _ Hjy) as [j0 Hj0].
      exists j0. split; [by apply index_spec in Hj0 as [? _]|]. etrans; [by eapply (same_connected _ _ i1 i0)|]. apply rtc_once. left. apply elem_of_app. left.
      apply spendEdges_spec. by exists i0, x0, ins, y0. }
    destruct Hxy as [Hs|Hs].
    + destruct (Hstep x y i Hs Hi) as (j0 & Hj0 & Hc). etrans; [exact Hc|]. by apply IH.
    + pose proof Hs as (i0 & ins & Hi0 & _). destruct (Hstep y x i0 Hs Hi0) as (j0 & Hj0 & Hc). etrans; [by eapply (same_connected _ _ i j0)|]. etrans; [symmetry; exact Hc|]. by apply IH.
Qed.

(** [k] is the smallest member of the family of [id]. *)
Definition isKey (txids : list string) (inputs : list (list string)) (id k : string) : Prop :=
  k ∈ txids ∧ family txids inputs id k ∧ ∀ id', id' ∈ txids -> family txids inputs id id' -> str_ltb id' k = false.

Lemma isKey_unique txids inputs a b k k' : isKey txids inputs a k -> isKey txids inputs b k' -> family txids inputs a b -> k = k'.
Proof.
  intros (Hk & Hf & Hlow) (Hk' & Hf' & Hlow') Hab. destruct (str_ltb_total k k') as [H|[H|H]]; [|done|].
  - rewrite (Hlow' k Hk) in H; [done|]. etrans; [symmetry; exact Hab|done].
  - rewrite (Hlow k' Hk') in H; [done|]. by etrans.
Qed.

Lemma familyPartitionKeys_spec txids inputs :
  length txids = length inputs ->
  ∃ keys, familyPartitionKeys txids inputs = Some keys ∧ length keys = length txids
    ∧ ∀ i id, txids !! i = Some id -> ∃ k, keys !! i = Some k ∧ isKey txids inputs id k.
Proof.
  intros Hl. unfold familyPartitionKeys. destruct (Nat.eqb_spec (length txids) 0) as [E0|_]; [apply length_zero_iff_nil in E0 as ->; by exists []|].
  set (n := length txids). set (index := indexFrom 0 ∅ txids). destruct (init_ok n) as [Hu0 Hr0]. rewrite unionSpends_edges by done.
  pose proof (allEdges_within txids inputs) as Hw. apply Forall_app in Hw as [Hw1 Hw2]. fold index n in Hw1, Hw2.
  destruct (unions_ok n _ [] _ _ Hu0 Hw1 Hr0) as (u1 & rep1 & E1 & Hu1 & Hr1). rewrite E1. cbn [mbind option_bind]. rewrite unionDuplicates_edges.
  destruct (unions_ok n _ _ _ _ Hu1 Hw2 Hr1) as (u2 & rep & E2 & Hu2 & Hr2). rewrite E2. cbn [mbind option_bind].
  destruct (smallest_ok n rep txids 0 txids ∅ u2 Hu2) as (keyOf & u3 & E3 & Hu3 & Hmin); [by destruct txids|done|done|intros r; rewrite lookup_empty; lia|].
  rewrite E3. cbn [mbind option_bind]. rewrite (keysByRoot_ok n rep 0 n keyOf u3 Hu3 eq_refl). eexists. split; [reflexivity|]. split; [by rewrite List.length_map, length_seq|].
  intros i id Hid. assert (i < n)%nat as Hi by (by eapply lookup_lt_Some). exists (default "" (keyOf !! rep i)). split.
  { change (List.map (fun k => default "" (keyOf !! rep k)) (seq 0 n)) with ((fun k => default "" (keyOf !! rep k)) <$> seq 0 n). rewrite list_lookup_fmap, lookup_seq_lt by done. done. }
  specialize (Hmin (rep i)). cbn [app] in Hr2. destruct (keyOf !! rep i) as [k|]; [|by destruct (Hmin i id)]. cbn. destruct Hmin as [(j & Hj & Hkj & Erep) Hlow]. split_and!.
  - by eapply list_elem_of_lookup_2.
  - apply (connected_family txids inputs i j); [done|done|]. by apply Hr2.
  - intros id' Hin Hf. apply list_elem_of_lookup in Hin as [j' Hj']. apply (Hlow j'); [by eapply lookup_lt_Some|done|]. symmetry. apply Hr2. by apply (connected_family txids inputs i j' id id').
Qed.

(** C17: One key per family.  The union-find terminates, never indexes out of
    range, and gives every transaction of a submission the smallest member of
    its family, the transactions connected to it through spends inside the
    submission: two of them get the same key exactly when they are in one
    family.  Duplicates of one transaction share its key. *)
Theorem family_keys_exact txids inputs :
  length txids = length inputs ->
  ∃ keys, familyPartitionKeys txids inputs = Some keys ∧ length keys = length txids
    ∧ (∀ i id k, txids !! i = Some id -> keys !! i = Some k -> isKey txids inputs id k)
    ∧ (∀ i j a b, txids !! i = Some a -> txids !! j = Some b -> keys !! i = keys !! j <-> family txids inputs a b).
Proof.
  intros Hl. destruct (familyPartitionKeys_spec txids inputs Hl) as (keys & E & Hlen & Hk). exists keys. split_and!; try done.
  - intros i id k Hi Hki. destruct (Hk i id Hi) as (k' & Hk' & Hkey). by assert (k = k') as -> by congruence.
  - intros i j a b Hi Hj. destruct (Hk i a Hi) as (ka & Ha & Hka), (Hk j b Hj) as (kb & Hb & Hkb). rewrite Ha, Hb. split.
    + intros [= ->]. destruct Hka as (_ & Hfa & _), Hkb as (_ & Hfb & _). etrans; [exact Hfa|]. by symmetry.
    + intros Hf. f_equal. by eapply isKey_unique.
Qed.

(** The family depends on the submission as a set. *)
Lemma spends_perm txids inputs txids' inputs' a b :
  length txids = length inputs -> length txids' = length inputs' -> zip txids inputs ≡ₚ zip txids' inputs' ->
  spends txids inputs a b -> spends txids' inputs' a b.
Proof.
  intros Hl Hl' Hp (i & ins & Hi & Hins & Hb & H0 & H1 & Hin).
  assert ((a, ins) ∈ zip txids' inputs') as Hz. { rewrite <-Hp. apply list_elem_of_lookup. exists i. rewrite lookup_zip_with, Hi. cbn. by rewrite Hins. }
  apply list_elem_of_lookup in Hz as [i' Hz]. rewrite lookup_zip_with in Hz. destruct (txids' !! i') as [a'|] eqn:Ea; [|done]. cbn in Hz.
  destruct (inputs' !! i') as [ins'|] eqn:Ei; [|done]. cbn in Hz. injection Hz as -> ->. exists i', ins. split_and!; try done.
  assert (txids ≡ₚ txids') as <-; [|done]. rewrite <-(fst_zip txids inputs), <-(fst_zip txids' inputs') by lia. by rewrite Hp.
Qed.

(** The key is independent of the order of the submission: a client that
    retries a batch shuffled reaches the same partitions. *)
Theorem family_keys_order_independent txids inputs txids' inputs' keys keys' i j id :
  length txids = length inputs -> length txids' = length inputs' -> zip txids inputs ≡ₚ zip txids' inputs' ->
  familyPartitionKeys txids inputs = Some keys -> familyPartitionKeys txids' inputs' = Some keys' ->
  txids !! i = Some id -> txids' !! j = Some id -> keys !! i = keys' !! j.
Proof.
  intros Hl Hl' Hp E E' Hi Hj. destruct (familyPartitionKeys_spec txids inputs Hl) as (k0 & E0 & _ & Hk), (familyPartitionKeys_spec txids' inputs' Hl') as (k1 & E1 & _ & Hk').
  rewrite E in E0. injection E0 as <-. rewrite E' in E1. injection E1 as <-. destruct (Hk i id Hi) as (k & Ek & H1 & H2 & H3), (Hk' j id Hj) as (k' & Ek' & Hkey'). rewrite Ek, Ek'. f_equal.
  assert (∀ a b, spends txids inputs a b -> spends txids' inputs' a b) as Hs by (intros a b; by apply spends_perm).
  assert (∀ a b, spends txids' inputs' a b -> spends txids inputs a b) as Hs' by (intros a b; apply spends_perm; [done|done|by symmetry]).
  assert (∀ a b, family txids inputs a b -> family txids' inputs' a b) as Hf by (intros a b; apply rtc_subrel; intros ? ? [?|?]; [left|right]; by apply Hs).
  assert (∀ a b, family txids' inputs' a b -> family txids inputs a b) as Hf' by (intros a b; apply rtc_subrel; intros ? ? [?|?]; [left|right]; by apply Hs').
  assert (∀ x, x ∈ txids <-> x ∈ txids') as Hmem. { intros x. assert (txids ≡ₚ txids') as ->; [|done]. rewrite <-(fst_zip txids inputs), <-(fst_zip txids' inputs') by lia. by rewrite Hp. }
  eapply (isKey_unique txids' inputs' id id); [|exact Hkey'|done]. split_and!; [by apply Hmem|by apply Hf|]. intros id' Hid' Hfam. apply H3; [by apply Hmem|by apply Hf'].
Qed.

(** ** Messages *)

Lemma byTxid_spec parsed keys kbt ibt p i :
  length keys = length parsed -> parsed !! i = Some p -> kbt !! pi_txid p = None ->
  ∃ j q k, parsed !! j = Some q ∧ keys !! j = Some k ∧ pi_txid q = pi_txid p
    ∧ (byTxid parsed keys kbt ibt).1 !! pi_txid p = Some k ∧ (byTxid parsed keys kbt ibt).2 !! pi_txid p = Some (collectInputTXIDs (pi_inputs q)).
Proof.
  assert (∀ parsed keys kbt ibt id k ins, kbt !! id = Some k -> ibt !! id = ins -> (byTxid parsed keys kbt ibt).1 !! id = Some k ∧ (byTxid parsed keys kbt ibt).2 !! id = ins) as Hkeep.
  { induction parsed0 as [|q parsed0 IH]; intros [|k0 keys0] kbt0 ibt0 id k ins Hk Hi; cbn; try done. destruct (kbt0 !! pi_txid q) eqn:E; [by apply IH|].
    assert (id ≠ pi_txid q) by congruence. apply IH; by rewrite lookup_insert_ne. }
  revert keys kbt ibt i. induction parsed as [|q parsed IH]; intros [|k keys] kbt ibt i Hl Hi Hn; [done|done|done|]. cbn. destruct (decide (pi_txid q = pi_txid p)) as [E|E].
  - rewrite E, Hn. exists 0%nat, q, k. destruct (Hkeep parsed keys (<[pi_txid p := k]> kbt) (<[pi_txid p := collectInputTXIDs (pi_inputs q)]> ibt) (pi_txid p) k (Some (collectInputTXIDs (pi_inputs q)))) as [H1 H2];
      [apply lookup_insert_eq|apply lookup_insert_eq|]. by split_and!.
  - destruct i as [|i]; [cbn in Hi; congruence|]. cbn in Hi, Hl.
    destruct (kbt !! pi_txid q) eqn:Eq; [destruct (IH keys kbt ibt i ltac:(lia) Hi Hn) as (j & x & y & ?); by exists (S j), x, y|].
    destruct (IH keys (<[pi_txid q := k]> kbt) (<[pi_txid q := collectInputTXIDs (pi_inputs q)]> ibt) i ltac:(lia) Hi) as (j & x & y & ?); [by rewrite lookup_insert_ne|by exists (S j), x, y].
Qed.

Abbreviation txidsOf := (List.map pi_txid).
Abbreviation inputsOf := (List.map (fun p => collectInputTXIDs (pi_inputs p))).

(** A family shares a partition, whatever part of it is published.  For every
    submission the keys can be computed, and the messages of any part of it,
    as what is left after known transactions were dropped, keep the order,
    the transactions and their bytes; two messages have the same key exactly
    when their transactions are connected through spends inside the whole
    submission, published or not. *)
Theorem family_messages parsed toPublish :
  toPublish ⊆ parsed ->
  ∃ kbt ibt, familyKeysBySubmittedTxid parsed = Some (kbt, ibt)
    ∧ List.map (fun m => (kv_txid m, kv_raw_tx m)) (propagationMessages toPublish kbt ibt) = List.map (fun p => (pi_txid p, pi_raw p)) toPublish
    ∧ (∀ m, m ∈ propagationMessages toPublish kbt ibt -> ∃ q, q ∈ parsed ∧ pi_txid q = kv_txid m ∧ kv_input_txids m = collectInputTXIDs (pi_inputs q)
         ∧ isKey (txidsOf parsed) (inputsOf parsed) (kv_txid m) (kv_Key m))
    ∧ (∀ m m', m ∈ propagationMessages toPublish kbt ibt -> m' ∈ propagationMessages toPublish kbt ibt ->
         kv_Key m = kv_Key m' <-> family (txidsOf parsed) (inputsOf parsed) (kv_txid m) (kv_txid m')).
Proof.
  intros Hsub. unfold familyKeysBySubmittedTxid. destruct (familyPartitionKeys_spec (txidsOf parsed) (inputsOf parsed)) as (keys & E & Hl & Hk); [by rewrite !List.length_map|].
  rewrite E. cbn [mbind option_bind]. destruct (byTxid parsed keys ∅ ∅) as [kbt ibt] eqn:Eb. exists kbt, ibt. split; [done|].
  assert (∀ m, m ∈ propagationMessages toPublish kbt ibt -> ∃ q, q ∈ parsed ∧ pi_txid q = kv_txid m ∧ kv_input_txids m = collectInputTXIDs (pi_inputs q) ∧ isKey (txidsOf parsed) (inputsOf parsed) (kv_txid m) (kv_Key m)) as Hmsg.
  { intros m Hm. apply list_elem_of_In, in_map_iff in Hm as (p & <- & Hp). apply list_elem_of_In, Hsub, list_elem_of_lookup in Hp as [i Hi]. cbn.
    destruct (byTxid_spec parsed keys ∅ ∅ p i) as (j & q & k & Hj & Hkj & Eq & H1 & H2); [by rewrite Hl, List.length_map|done|done|]. rewrite Eb in H1, H2. cbn in H1, H2. rewrite H1, H2. cbn.
    exists q. split_and!; [by eapply list_elem_of_lookup_2|done|done|]. destruct (Hk j (pi_txid q)) as (k' & Hk' & Hkey).
    { change (txidsOf parsed) with (pi_txid <$> parsed). by rewrite list_lookup_fmap, Hj. }
    assert (k = k') as -> by congruence. by rewrite <-Eq. }
  split_and!; [unfold propagationMessages; by rewrite List.map_map|done|].
  intros m m' Hm Hm'. destruct (Hmsg m Hm) as (_ & _ & _ & _ & Hkm), (Hmsg m' Hm') as (_ & _ & _ & _ & Hkm'). split.
  - intros Ek. destruct Hkm as (_ & H1 & _), Hkm' as (_ & H2 & _). rewrite Ek in H1. etrans; [exact H1|]. by symmetry.
  - intros Hf. by eapply isKey_unique.
Qed.

(** ** Concrete runs *)

Definition demoTxids : list string := ["c"; "b"; "a"; "z"; "c"].
Definition demoInputs : list (list string) := [["b"]; ["a"]; []; ["q"]; ["b"]].

Lemma family_keys_exact_witness :
  familyPartitionKeys demoTxids demoInputs = Some ["a"; "a"; "a"; "z"; "a"] ∧ family demoTxids demoInputs "c" "a" ∧ ~ family demoTxids demoInputs "c" "z".
Proof.
  split; [vm_compute; reflexivity|]. destruct (family_keys_exact demoTxids demoInputs eq_refl) as (keys & E & _ & _ & Hk).
  assert (keys = ["a"; "a"; "a"; "z"; "a"]) as -> by (vm_compute in E; congruence). split; [by apply (Hk 0%nat 2%nat "c" "a")|].
  intros Hf. by apply (Hk 0%nat 3%nat "c" "z") in Hf.
Defined.

Lemma family_keys_order_independent_witness :
  familyPartitionKeys ["b"; "a"; "c"] [["a"]; []; ["b"]] = Some ["a"; "a"; "a"] ∧
  ["a"; "a"; "a"] !! 0%nat = ["a"; "a"; "a"] !! 1%nat.
Proof.
  split; [vm_compute; reflexivity|].
  apply (family_keys_order_independent ["b"; "a"; "c"] [["a"]; []; ["b"]] ["c"; "b"; "a"] [["b"]; ["a"]; []] ["a"; "a"; "a"] ["a"; "a"; "a"] 0 1 "b"); try reflexivity.
  cbn. apply (Permutation_app_comm [("b", ["a"]); ("a", [])] [("c", ["b"])]).
Defined.

Definition demoItem (txid : string) (srcs : list string) : parsedItem := mkParsedItem (List.map (fun s => Some (Some s)) srcs) [] txid.

(** The parent was dropped as known: its child still carries the key of the
    family. *)
Lemma family_messages_witness :
  ∃ kbt ibt, familyKeysBySubmittedTxid [demoItem "p" []; demoItem "s" ["p"]] = Some (kbt, ibt)
    ∧ List.map (fun m => (kv_txid m, kv_raw_tx m)) (propagationMessages [demoItem "s" ["p"]] kbt ibt) = [("s", [])].
Proof.
  destruct (family_messages [demoItem "p" []; demoItem "s" ["p"]] [demoItem "s" ["p"]]) as (kbt & ibt & E & Em & _).
  { intros x Hx. apply list_elem_of_singleton in Hx as ->. right. by left. }
  by exists kbt, ibt.
Defined.
