(* ===== verification/NetGuard.v ===== *)
(** * NetGuard: the guards against forged requests

    Models [src/callbackurl] and [src/ssrfguard]: the predicates that keep
    the service from dialing internal addresses, and the bounded cache of
    validated URLs.  The methods of [net.IP] and [net.IPNet] are written out
    over the bytes of an address; what [url.Parse], [net.ParseIP] and
    [net.SplitHostPort] make of a text is an interface, and the theorems hold
    for every instance. *)
From stdpp Require Import base gmap strings list.
From Stdlib Require Import Ascii ZArith Lia.
From S2P Require Import Prelude GoStrings Verdicts.

(** ** [net] *)

(** An address as its bytes, 4 or 16 of them. *)
Abbreviation IP := (list Z).

Definition byteAt (ip : IP) (i : nat) : Z := default 0%Z (ip !! i).
Definition v4InV6Prefix : list Z := [0; 0; 0; 0; 0; 0; 0; 0; 0; 0; 255; 255]%Z.
Definition ipEqb : IP -> IP -> bool := fun a b => bool_decide (a = b).

Definition IPv4 (a b c d : Z) : IP := v4InV6Prefix ++ [a; b; c; d].
Definition IPv6unspecified : IP := replicate 16 0%Z.
Definition IPv6loopback : IP := replicate 15 0%Z ++ [1%Z].

Definition To4 (ip : IP) : option IP :=
  if (length ip =? 4)%nat then Some ip
  else if (length ip =? 16)%nat && ipEqb (take 12 ip) v4InV6Prefix then Some (drop 12 ip)
  else None.

Definition Equal (ip x : IP) : bool :=
  if (length ip =? length x)%nat then ipEqb ip x
  else if (length ip =? 4)%nat && (length x =? 16)%nat then ipEqb (take 12 x) v4InV6Prefix && ipEqb ip (drop 12 x)
  else if (length ip =? 16)%nat && (length x =? 4)%nat then ipEqb (take 12 ip) v4InV6Prefix && ipEqb (drop 12 ip) x
  else false.

Definition IsUnspecified (ip : IP) : bool := Equal ip (IPv4 0 0 0 0) || Equal ip IPv6unspecified.
Definition IsLoopback (ip : IP) : bool :=
  match To4 ip with Some ip4 => (byteAt ip4 0 =? 127)%Z | None => Equal ip IPv6loopback end.
Definition IsPrivate (ip : IP) : bool :=
  match To4 ip with
  | Some ip4 =>
      (byteAt ip4 0 =? 10)%Z || ((byteAt ip4 0 =? 172)%Z && (Z.land (byteAt ip4 1) 0xf0 =? 16)%Z)
      || ((byteAt ip4 0 =? 192)%Z && (byteAt ip4 1 =? 168)%Z)
  | None => (length ip =? 16)%nat && (Z.land (byteAt ip 0) 0xfe =? 0xfc)%Z
  end.
Definition IsMulticast (ip : IP) : bool :=
  match To4 ip with
  | Some ip4 => (Z.land (byteAt ip4 0) 0xf0 =? 0xe0)%Z
  | None => (length ip =? 16)%nat && (byteAt ip 0 =? 0xff)%Z
  end.
Definition IsInterfaceLocalMulticast (ip : IP) : bool :=
  (length ip =? 16)%nat && (byteAt ip 0 =? 0xff)%Z && (Z.land (byteAt ip 1) 0x0f =? 1)%Z.
Definition IsLinkLocalMulticast (ip : IP) : bool :=
  match To4 ip with
  | Some ip4 => (byteAt ip4 0 =? 224)%Z && (byteAt ip4 1 =? 0)%Z && (byteAt ip4 2 =? 0)%Z
  | None => (length ip =? 16)%nat && (byteAt ip 0 =? 0xff)%Z && (Z.land (byteAt ip 1) 0x0f =? 2)%Z
  end.
Definition IsLinkLocalUnicast (ip : IP) : bool :=
  match To4 ip with
  | Some ip4 => (byteAt ip4 0 =? 169)%Z && (byteAt ip4 1 =? 254)%Z
  | None => (length ip =? 16)%nat && (byteAt ip 0 =? 0xfe)%Z && (Z.land (byteAt ip 1) 0xc0 =? 0x80)%Z
  end.

Record IPNet : Type := mkIPNet { net_IP : IP; net_Mask : list Z }.

(** [CIDRMask]: the first [ones] of [8 * n] bits. *)
Fixpoint CIDRMask (ones : nat) (n : nat) : list Z :=
  match n with
  | O => []
  | S n => (256 - 2 ^ (8 - Z.of_nat (min ones 8)))%Z :: CIDRMask (ones - 8) n
  end.

(** [Contains] for a network whose mask is as long as its address. *)
Definition Contains (n : IPNet) (ip : IP) : bool :=
  let nn := default (net_IP n) (To4 (net_IP n)) in
  let ip := default ip (To4 ip) in
  (length ip =? length nn)%nat
  && forallb (fun '(m, (a, b)) => Z.land a m =? Z.land b m)%Z (zip (net_Mask n) (zip nn ip)).

(** ** [callbackurl] *)

Module Callback.

Definition IsBlockedIP (ip : option IP) : bool :=
  match ip with
  | None => false
  | Some ip =>
      if IsLoopback ip || IsUnspecified ip || IsLinkLocalUnicast ip || IsLinkLocalMulticast ip || IsInterfaceLocalMulticast ip
         || IsMulticast ip || IsPrivate ip then true
      else
        match To4 ip with
        | Some v4 => negb (Equal v4 ip) && (IsLoopback v4 || IsUnspecified v4 || IsLinkLocalUnicast v4 || IsPrivate v4)
        | None => false
        end
  end.

End Callback.

(** ** [ssrfguard] *)

Definition cgnatNet : IPNet := mkIPNet (IPv4 100 64 0 0) (CIDRMask 10 4).

Definition IsBlockedIP (ip : option IP) (allowPrivate : bool) : bool :=
  match ip with
  | None => true
  | Some ip =>
      if IsUnspecified ip then true
      else if IsMulticast ip || IsInterfaceLocalMulticast ip || IsLinkLocalMulticast ip then true
      else if allowPrivate then false
      else if IsLoopback ip || IsLinkLocalUnicast ip || IsPrivate ip then true
      else if match To4 ip with Some v4 => Contains cgnatNet v4 | None => false end then true
      else bool_decide (To4 ip = None) && (length ip =? 16)%nat && (Z.land (byteAt ip 0) 0xfe =? 0xfc)%Z
  end.

Definition blockedHostnames : list string :=
  ["metadata.google.internal"; "metadata"; "metadata.goog"; "169.254.169.254"; "fd00:ec2::254"].

(** What the source reads of a parsed URL. *)
Record URL : Type := mkURL { u_Scheme : string; u_Hostname : string; u_User : bool }.

(** [url.Parse], [net.ParseIP] and the host of [net.SplitHostPort]. *)
Class NetLib : Type := {
  urlParse : string -> Res URL;
  ParseIP : string -> option IP;
  SplitHost : string -> Res string
}.

(** [strings.Trim(s, "[]")] *)
Definition isBracket (c : ascii) : bool := Ascii.eqb c "["%char || Ascii.eqb c "]"%char.
Fixpoint trimBrackets (s : string) : string :=
  match s with
  | String c s' => if isBracket c then trimBrackets s' else s
  | EmptyString => ""
  end.
Definition TrimBrackets (s : string) : string := reverseString (trimBrackets (reverseString (trimBrackets s) "")) "".

Inductive guardError : Type := ErrBlockedHost | ErrBlockedAddress | ErrInvalidURL | geOther (msg : string).

Section Guards.
Context `{NetLib}.

Definition IsBlockedHostname (host : string) : bool :=
  let host := ToLower (TrimSpace host) in
  if String.eqb host "" then false
  else
    let host := match SplitHost host with Ok h => h | Err _ => host end in
    existsb (String.eqb (TrimBrackets host)) blockedHostnames.

(** [lookup] is the resolver; an address it returns may be nil. *)
Definition ValidateURL (raw : string) (allowPrivate : bool) (lookup : string -> Res (list (option IP))) : option guardError :=
  if String.eqb raw "" then Some ErrInvalidURL
  else
    match urlParse raw with
    | Err _ => Some ErrInvalidURL
    | Ok u =>
        let scheme := ToLower (u_Scheme u) in
        if negb (String.eqb scheme "http") && negb (String.eqb scheme "https") then Some ErrInvalidURL
        else
          let host := u_Hostname u in
          if String.eqb host "" then Some ErrInvalidURL
          else if u_User u then Some ErrInvalidURL
          else if IsBlockedHostname host then Some ErrBlockedAddress
          else
            match ParseIP host with
            | Some ip => if IsBlockedIP (Some ip) allowPrivate then Some ErrBlockedAddress else None
            | None =>
                match lookup host with
                | Err _ => Some ErrInvalidURL
                | Ok [] => Some ErrInvalidURL
                | Ok ips => if existsb (fun ip => IsBlockedIP ip allowPrivate) ips then Some ErrBlockedAddress else None
                end
            end
    end.

Definition CheckDialAddress (address : string) (allowPrivate : bool) : option guardError :=
  match SplitHost address with
  | Err _ => Some ErrBlockedAddress
  | Ok host =>
      match ParseIP host with
      | None => Some ErrBlockedAddress
      | Some ip => if IsBlockedIP (Some ip) allowPrivate then Some ErrBlockedAddress else None
      end
  end.

(** [callbackurl.ValidateURL] *)
Definition ValidateCallbackURL (raw : string) (allowPrivate : bool) : option guardError :=
  let raw := TrimSpace raw in
  if String.eqb raw "" then Some (geOther "callback url is empty")
  else
    match urlParse raw with
    | Err _ => Some (geOther "parse callback url")
    | Ok u =>
        let scheme := ToLower (u_Scheme u) in
        if negb (String.eqb scheme "http") && negb (String.eqb scheme "https") then Some (geOther "callback url scheme not allowed")
        else
          let host := u_Hostname u in
          if String.eqb host "" then Some (geOther "callback url has no host")
          else if allowPrivate then None
          else
            match ParseIP host with
            | Some ip => if Callback.IsBlockedIP (Some ip) then Some ErrBlockedHost else None
            | None => None
            end
    end.

Definition DialControl (allowPrivate : bool) (address : string) : option guardError :=
  if allowPrivate then None
  else
    match SplitHost address with
    | Err _ => Some (geOther "dial: parsing address")
    | Ok host =>
        match ParseIP host with
        | None => Some ErrBlockedHost
        | Some ip => if Callback.IsBlockedIP (Some ip) then Some ErrBlockedHost else None
        end
    end.
End Guards.

(** ** The cache of successes *)

Record successEntry : Type := mkSuccessEntry { se_value : string; se_expiry : Z }.

Record SuccessCache : Type := mkSuccessCache {
  sc_ttl : Z;
  sc_max : Z;
  sc_entries : gmap string successEntry
}.

Definition NewSuccessCache (ttl maxEntries : Z) : SuccessCache := mkSuccessCache ttl maxEntries ∅.

Definition withEntries (es : gmap string successEntry) (c : SuccessCache) : SuccessCache := mkSuccessCache (sc_ttl c) (sc_max c) es.

Definition SuccessGet (now : Z) (c : SuccessCache) (key : string) : option string * SuccessCache :=
  match sc_entries c !! key with
  | None => (None, c)
  | Some e => if (se_expiry e <? now)%Z then (None, withEntries (delete key (sc_entries c)) c) else (Some (se_value e), c)
  end.

(** [now1] is the time of the sweep, [now2] of the insertion. *)
Definition SuccessPut (now1 now2 : Z) (c : SuccessCache) (key value : string) : SuccessCache :=
  let insert c := withEntries (<[key := mkSuccessEntry value (now2 + sc_ttl c)]> (sc_entries c)) c in
  if negb (bool_decide (is_Some (sc_entries c !! key))) && (sc_max c <=? Z.of_nat (size (sc_entries c)))%Z
  then
    let c := withEntries (filter (fun '(_, e) => (now1 <= se_expiry e)%Z) (sc_entries c)) c in
    if (sc_max c <=? Z.of_nat (size (sc_entries c)))%Z then c else insert c
  else insert c.
