(* ===== verification/NetGuardProps.v ===== *)
(** * NetGuardProps: what the guards refuse

    The predicates refuse exactly the addresses of a list of networks, in
    either form of an IPv4 address; an accepted URL leads to no refused
    address; and the cache of validated URLs is bounded and never older than
    its time to live. *)
From stdpp Require Import base gmap strings list.
From Stdlib Require Import Ascii ZArith Lia Btauto.
From S2P Require Import Prelude GoStrings Verdicts NetGuard.

(** ** Addresses *)

Definition isIP (ip : IP) : Prop := (length ip = 4 ∨ length ip = 16)%nat ∧ Forall (fun b => 0 <= b < 256)%Z ip.

Lemma isIP_four a b c d : isIP [a; b; c; d] -> (0 <= a < 256 ∧ 0 <= b < 256 ∧ 0 <= c < 256 ∧ 0 <= d < 256)%Z.
Proof. intros [_ H]. by repeat (apply Forall_cons in H as [? H]). Qed.

Lemma To4_form ip v4 : isIP ip -> To4 ip = Some v4 -> isIP v4 ∧ length v4 = 4%nat ∧ (ip = v4 ∨ ip = v4InV6Prefix ++ v4).
Proof.
  intros [Hl Hb]. unfold To4. destruct (Nat.eqb_spec (length ip) 4) as [E|E]; [intros [= <-]; split_and!; [by split; [left|]|done|by left]|].
  destruct (Nat.eqb_spec (length ip) 16) as [E'|E']; [|done]. cbn [andb]. unfold ipEqb. destruct (bool_decide (take 12 ip = v4InV6Prefix)) eqn:Ep; [|done].
  apply bool_decide_eq_true in Ep. intros [= <-]. assert (length (drop 12 ip) = 4%nat) as El by (rewrite length_drop; lia).
  split_and!; [split; [by left|by apply Forall_drop]|done|right]. rewrite <-Ep. symmetry. apply take_drop.
Qed.

Lemma To4_mapped v4 : length v4 = 4%nat -> To4 (v4InV6Prefix ++ v4) = Some v4.
Proof. destruct v4 as [|a [|b [|c [|d [|]]]]]; done. Qed.

Lemma four (v4 : IP) : length v4 = 4%nat -> ∃ a b c d, v4 = [a; b; c; d].
Proof. destruct v4 as [|a [|b [|c [|d [|]]]]]; try done. intros _. by exists a, b, c, d. Qed.

(** What the methods see of an IPv4 address is independent of its form. *)
Lemma v4_unspecified ip v4 : isIP ip -> To4 ip = Some v4 -> IsUnspecified ip = ipEqb v4 [0; 0; 0; 0]%Z.
Proof.
  intros Hip H4. destruct (To4_form _ _ Hip H4) as (Hb & Hl & [->| ->]); destruct (four v4 Hl) as (a & b & c & d & ->).
  - unfold IsUnspecified, Equal, ipEqb. cbn [length]. cbn. rewrite orb_false_r. done.
  - unfold IsUnspecified, Equal, ipEqb. cbn. rewrite (bool_decide_false ([0; 0; 0; 0; 0; 0; 0; 0; 0; 0; 255; 255; a; b; c; d]%Z = replicate 16 0%Z)) by done.
    rewrite orb_false_r. apply bool_decide_ext. unfold IPv4, v4InV6Prefix. cbn. split; [by intros [= -> -> -> ->]|by intros [= -> -> -> ->]].
Qed.

Lemma v4_interfaceLocal ip v4 : isIP ip -> To4 ip = Some v4 -> IsInterfaceLocalMulticast ip = false.
Proof.
  intros Hip H4. destruct (To4_form _ _ Hip H4) as (Hb & Hl & [->| ->]); destruct (four v4 Hl) as (a & b & c & d & ->); done.
Qed.

Lemma land_255 x : (0 <= x < 256)%Z -> Z.land x 255 = x.
Proof. intros Hx. change 255%Z with (Z.ones 8). rewrite Z.land_ones by lia. apply Z.mod_small. lia. Qed.

(** ** Networks *)

Definition net4 (a b c d : Z) (ones : nat) : IPNet := mkIPNet [a; b; c; d] (CIDRMask ones 4).
Definition net6 (a b : Z) (rest : list Z) (ones : nat) : IPNet := mkIPNet (a :: b :: rest) (CIDRMask ones 16).

(** Never a destination: 0.0.0.0, ::, 224.0.0.0/4 and ff00::/8. *)
Definition neverNets : list IPNet :=
  [net4 0 0 0 0 32; net6 0 0 (replicate 14 0%Z) 128; net4 224 0 0 0 4; net6 0xff 0 (replicate 14 0%Z) 8].
(** Loopback, link-local, private and unique-local. *)
Definition privateNets : list IPNet :=
  [net4 127 0 0 0 8; net6 0 0 (replicate 13 0%Z ++ [1%Z]) 128; net4 169 254 0 0 16; net6 0xfe 0x80 (replicate 14 0%Z) 10;
   net4 10 0 0 0 8; net4 172 16 0 0 12; net4 192 168 0 0 16; net6 0xfc 0 (replicate 14 0%Z) 7].
(** 100.64.0.0/10, shared between carriers. *)
Definition sharedNet : IPNet := net4 100 64 0 0 10.

Definition inNets (nets : list IPNet) (ip : IP) : bool := existsb (fun n => Contains n ip) nets.

(** Membership in an IPv4 network, and in an IPv6 network. *)
Lemma Contains4 a b c d ones ip w x y z :
  To4 ip = Some [w; x; y; z] ->
  Contains (net4 a b c d ones) ip
  = forallb (fun '(m, (p, q)) => Z.land p m =? Z.land q m)%Z (zip (CIDRMask ones 4) (zip [a; b; c; d] [w; x; y; z])).
Proof. intros E. unfold Contains. cbn [net_IP net4]. rewrite E. done. Qed.

Lemma Contains4_none a b c d ones ip : To4 ip = None -> length ip = 16%nat -> Contains (net4 a b c d ones) ip = false.
Proof. intros E Hl. unfold Contains. cbn [net_IP net4]. rewrite E. cbn [default]. by rewrite Hl. Qed.

Lemma Contains6_none a b rest ones ip v4 :
  length rest = 14%nat -> ipEqb (take 12 (a :: b :: rest)) v4InV6Prefix = false -> To4 ip = Some v4 -> length v4 = 4%nat -> Contains (net6 a b rest ones) ip = false.
Proof.
  intros Hr Hp E Hl. unfold Contains. cbn [net_IP net6]. rewrite E. cbn [default]. unfold To4. cbn [length]. rewrite Hr, Hp. cbn. by rewrite Hl, Hr.
Qed.

Lemma Contains6 a b rest ones ip :
  length rest = 14%nat -> ipEqb (take 12 (a :: b :: rest)) v4InV6Prefix = false -> To4 ip = None -> length ip = 16%nat ->
  Contains (net6 a b rest ones) ip = forallb (fun '(m, (p, q)) => Z.land p m =? Z.land q m)%Z (zip (CIDRMask ones 16) (zip (a :: b :: rest) ip)).
Proof.
  intros Hr Hp E Hl. unfold Contains. cbn [net_IP net6]. rewrite E. cbn [default]. unfold To4. cbn [length]. rewrite Hr, Hp. cbn. by rewrite Hl, Hr.
Qed.

Lemma full_mask n base ip :
  length ip = n -> length base = n -> Forall (fun b => 0 <= b < 256)%Z ip -> Forall (fun b => 0 <= b < 256)%Z base ->
  forallb (fun '(m, (p, q)) => Z.land p m =? Z.land q m)%Z (zip (replicate n 255%Z) (zip base ip)) = ipEqb ip base.
Proof.
  revert base ip. induction n as [|n IH]; intros [|p base] [|q ip] Hl Hl' Hb Hb'; try done. apply Forall_cons in Hb as [Hq Hb], Hb' as [Hp Hb']. cbn in Hl, Hl'.
  change (zip (replicate (S n) 255%Z) (zip (p :: base) (q :: ip))) with ((255%Z, (p, q)) :: zip (replicate n 255%Z) (zip base ip)). cbn [forallb].
  rewrite IH by (done || lia). rewrite !land_255 by done. unfold ipEqb. destruct (Z.eqb_spec p q) as [->|Hne]; cbn [andb].
  - apply bool_decide_ext. split; [by intros ->|by intros [= ->]].
  - symmetry. apply bool_decide_eq_false_2. intros [= -> ?]. done.
Qed.

Lemma mask_rest base ip : forallb (fun '(m, (p, q)) => Z.land p m =? Z.land q m)%Z (zip (replicate (length base) 0%Z) (zip base ip)) = true.
Proof.
  revert ip. induction base as [|p base IH]; intros [|q ip]; [done..|].
  change (zip (replicate (length (p :: base)) 0%Z) (zip (p :: base) (q :: ip))) with ((0%Z, (p, q)) :: zip (replicate (length base) 0%Z) (zip base ip)).
  cbn [forallb]. rewrite IH, !Z.land_0_r. done.
Qed.

(** ** IPv4 *)

Lemma nets_v4 ip w x y z :
  isIP ip -> To4 ip = Some [w; x; y; z] ->
  inNets neverNets ip = ipEqb [w; x; y; z] [0; 0; 0; 0]%Z || (Z.land w 0xf0 =? 0xe0)%Z
  ∧ inNets privateNets ip = (w =? 127)%Z || ((w =? 169)%Z && (x =? 254)%Z) || ((w =? 10)%Z || ((w =? 172)%Z && (Z.land x 0xf0 =? 16)%Z) || ((w =? 192)%Z && (x =? 168)%Z))
  ∧ Contains sharedNet ip = (w =? 100)%Z && (Z.land x 0xc0 =? 64)%Z.
Proof.
  intros Hip E. destruct (To4_form _ _ Hip E) as (H4 & _ & _). destruct (isIP_four _ _ _ _ H4) as (Hw & Hx & Hy & Hz).
  assert (∀ a b rest ones, length rest = 14%nat -> ipEqb (take 12 (a :: b :: rest)) v4InV6Prefix = false -> Contains (net6 a b rest ones) ip = false) as H6 by (intros; by eapply Contains6_none).
  unfold inNets, neverNets, privateNets, sharedNet. cbn [existsb]. rewrite !H6 by (vm_compute; reflexivity). rewrite !(Contains4 _ _ _ _ _ _ _ _ _ _ E).
  change (CIDRMask 32 4) with (replicate 4 255%Z). rewrite (full_mask 4 [0; 0; 0; 0]%Z [w; x; y; z]) by (done || apply H4 || (repeat constructor; lia)).
  change (CIDRMask 4 4) with [240; 0; 0; 0]%Z. change (CIDRMask 8 4) with [255; 0; 0; 0]%Z. change (CIDRMask 16 4) with [255; 255; 0; 0]%Z.
  change (CIDRMask 12 4) with [255; 240; 0; 0]%Z. change (CIDRMask 10 4) with [255; 192; 0; 0]%Z.
  cbn [zip zip_with forallb]. rewrite !Z.land_0_r, !(land_255 w), !(land_255 x) by done. cbn -[Z.land Z.eqb ipEqb].
  change (Z.land 224 240) with 224%Z. change (Z.land 16 240) with 16%Z. change (Z.land 64 192) with 64%Z. change (Z.land ?a 255) with a.
  rewrite !(Z.eqb_sym _ w), !(Z.eqb_sym _ x), !(Z.eqb_sym _ (Z.land _ _)). rewrite !Z.eqb_refl. split_and!; btauto.
Qed.

(** ** IPv6 *)

Lemma To4_none ip : isIP ip -> To4 ip = None -> length ip = 16%nat.
Proof. intros [[Hl|Hl] _]; [|done]. unfold To4. by rewrite Hl. Qed.

Lemma nets_v6 ip w x r :
  isIP ip -> To4 ip = None -> ip = w :: x :: r ->
  inNets neverNets ip = ipEqb ip IPv6unspecified || (w =? 0xff)%Z
  ∧ inNets privateNets ip = ipEqb ip IPv6loopback || ((w =? 0xfe)%Z && (Z.land x 0xc0 =? 0x80)%Z) || (Z.land w 0xfe =? 0xfc)%Z
  ∧ Contains sharedNet ip = false.
Proof.
  intros Hip E Eip. pose proof (To4_none _ Hip E) as Hl. destruct Hip as [_ Hb].
  assert (∀ a b c d ones, Contains (net4 a b c d ones) ip = false) as H4 by (intros; by apply Contains4_none).
  unfold inNets, neverNets, privateNets, sharedNet. cbn [existsb]. rewrite !H4. rewrite !Contains6 by (done || vm_compute; reflexivity).
  change (CIDRMask 128 16) with (replicate 16 255%Z). rewrite !full_mask by (done || (repeat constructor; lia)).
  subst ip. assert (0 <= w < 256 ∧ 0 <= x < 256)%Z as [Hw Hx] by (apply Forall_cons in Hb as [? Hb]; by apply Forall_cons in Hb as [? _]).
  change (CIDRMask 8 16) with (255 :: 0 :: replicate (length (replicate 14 0)) 0)%Z. change (CIDRMask 10 16) with (255 :: 192 :: replicate (length (replicate 14 0)) 0)%Z.
  change (CIDRMask 7 16) with (254 :: 0 :: replicate (length (replicate 14 0)) 0)%Z.
  change (zip (?m1 :: ?m2 :: ?ms) (zip (?a :: ?b :: ?rest) (w :: x :: r))) with ((m1, (a, w)) :: (m2, (b, x)) :: zip ms (zip rest r)).
  cbn [forallb]. rewrite !mask_rest, !Z.land_0_r, !(land_255 w) by done. change (Z.land 255 255) with 255%Z. change (Z.land 254 255) with 254%Z. change (Z.land 128 192) with 128%Z.
  change (Z.land 252 254) with 252%Z. rewrite !(Z.eqb_sym _ w), !(Z.eqb_sym _ (Z.land _ _)), !Z.eqb_refl.
  unfold IPv6unspecified, IPv6loopback. change (0%Z :: 0%Z :: replicate 14 0%Z) with (replicate 16 0%Z). change (0%Z :: 0%Z :: replicate 13 0%Z ++ [1%Z]) with (replicate 15 0%Z ++ [1%Z]).
  split_and!; btauto.
Qed.

(** What the methods of [net.IP] see of an IPv6 address. *)
Lemma v6_methods ip w x r :
  isIP ip -> To4 ip = None -> ip = w :: x :: r ->
  IsUnspecified ip = ipEqb ip IPv6unspecified ∧ IsLoopback ip = ipEqb ip IPv6loopback ∧ IsMulticast ip = (w =? 0xff)%Z
  ∧ IsLinkLocalUnicast ip = (w =? 0xfe)%Z && (Z.land x 0xc0 =? 0x80)%Z ∧ IsPrivate ip = (Z.land w 0xfe =? 0xfc)%Z
  ∧ (IsInterfaceLocalMulticast ip || IsLinkLocalMulticast ip) = (w =? 0xff)%Z && ((Z.land x 0x0f =? 1)%Z || (Z.land x 0x0f =? 2)%Z).
Proof.
  intros Hip E Eip. pose proof (To4_none _ Hip E) as Hl.
  unfold IsUnspecified, IsLoopback, IsMulticast, IsLinkLocalUnicast, IsPrivate, IsInterfaceLocalMulticast, IsLinkLocalMulticast. rewrite E, Hl. unfold Equal. rewrite Hl.
  change (length (IPv4 0 0 0 0)) with 16%nat. change (length IPv6unspecified) with 16%nat. change (length IPv6loopback) with 16%nat. cbn [Nat.eqb andb].
  assert (ipEqb ip (IPv4 0 0 0 0) = false) as ->. { apply bool_decide_eq_false_2. intros ->. discriminate E. }
  subst ip. cbn [byteAt]. unfold byteAt. cbn -[Z.land Z.eqb]. split_and!; try done. btauto.
Qed.

(** ** Deny lists *)

(** Multicast of a scope is multicast. *)
Lemma v4_methods ip w x y z :
  isIP ip -> To4 ip = Some [w; x; y; z] ->
  IsUnspecified ip = ipEqb [w; x; y; z] [0; 0; 0; 0]%Z ∧ IsLoopback ip = (w =? 127)%Z ∧ IsMulticast ip = (Z.land w 0xf0 =? 0xe0)%Z
  ∧ IsLinkLocalUnicast ip = (w =? 169)%Z && (x =? 254)%Z
  ∧ IsPrivate ip = (w =? 10)%Z || ((w =? 172)%Z && (Z.land x 0xf0 =? 16)%Z) || ((w =? 192)%Z && (x =? 168)%Z)
  ∧ IsInterfaceLocalMulticast ip = false ∧ (IsMulticast ip || IsLinkLocalMulticast ip) = IsMulticast ip.
Proof.
  intros Hip E. unfold IsLoopback, IsMulticast, IsLinkLocalUnicast, IsPrivate, IsLinkLocalMulticast. rewrite E. unfold byteAt. cbn -[Z.land Z.eqb IsUnspecified IsInterfaceLocalMulticast].
  split_and!; try done; [by apply v4_unspecified|by eapply v4_interfaceLocal|]. destruct (Z.eqb_spec w 224) as [->|]; [done|]. by rewrite orb_false_r.
Qed.

Lemma ssrf_deny_list ip allowPrivate :
  isIP ip -> IsBlockedIP (Some ip) allowPrivate = inNets neverNets ip || (negb allowPrivate && (inNets privateNets ip || Contains sharedNet ip)).
Proof.
  intros Hip. unfold IsBlockedIP. destruct (To4 ip) as [v4|] eqn:E.
  - destruct (To4_form _ _ Hip E) as (H4 & Hl & _). destruct (four v4 Hl) as (w & x & y & z & ->).
    destruct (nets_v4 _ _ _ _ _ Hip E) as (-> & -> & Es). destruct (v4_methods _ _ _ _ _ Hip E) as (-> & -> & Em & -> & -> & -> & Ell). rewrite orb_false_r, Ell, Em.
    assert (Contains cgnatNet [w; x; y; z] = Contains sharedNet ip) as ->. { unfold Contains. rewrite E. done. }
    rewrite Es. rewrite (bool_decide_eq_false_2 (Some [w; x; y; z] = None)) by done. cbn [andb]. destruct allowPrivate; cbn [negb andb];
      repeat match goal with |- context [if ?b then _ else _] => destruct b eqn:? end; cbn [orb]; try btauto; repeat match goal with H : _ = _ |- _ => rewrite ?H; clear H end; try btauto.
  - pose proof (To4_none _ Hip E) as Hl. destruct ip as [|w [|x r]] eqn:Eip; [done..|]. rewrite <-Eip in *.
    destruct (nets_v6 ip w x r Hip E Eip) as (-> & -> & ->). destruct (v6_methods ip w x r Hip E Eip) as (-> & -> & -> & -> & Ep & Em). rewrite Ep.
    rewrite bool_decide_eq_true_2 by done. rewrite Hl. cbn [Nat.eqb andb]. assert (byteAt ip 0 = w) as -> by by rewrite Eip. rewrite <-orb_assoc, Em.
    destruct (ipEqb ip IPv6unspecified), (w =? 255)%Z, allowPrivate; cbn [orb andb negb]; try done.
    all: destruct (ipEqb ip IPv6loopback), ((w =? 254)%Z && (Z.land x 192 =? 128)%Z), (Z.land w 254 =? 252)%Z; done.
Qed.

Lemma inNets_app l l' ip : inNets (l ++ l') ip = inNets l ip || inNets l' ip.
Proof. apply existsb_app. Qed.

Lemma callback_deny_list ip : isIP ip -> Callback.IsBlockedIP (Some ip) = inNets (neverNets ++ privateNets) ip.
Proof.
  intros Hip. rewrite inNets_app. unfold Callback.IsBlockedIP. destruct (To4 ip) as [v4|] eqn:E.
  - destruct (To4_form _ _ Hip E) as (H4 & Hl & _). destruct (four v4 Hl) as (w & x & y & z & ->).
    assert (To4 [w; x; y; z] = Some [w; x; y; z]) as E4 by done.
    destruct (nets_v4 _ _ _ _ _ Hip E) as (-> & -> & _). destruct (v4_methods _ _ _ _ _ Hip E) as (-> & -> & Em & -> & -> & -> & Ell).
    destruct (v4_methods _ _ _ _ _ H4 E4) as (-> & -> & _ & -> & -> & _ & _). rewrite orb_false_r.
    replace ((w =? 127)%Z || ipEqb [w; x; y; z] [0; 0; 0; 0]%Z || (w =? 169)%Z && (x =? 254)%Z || IsLinkLocalMulticast ip || IsMulticast ip)
      with ((w =? 127)%Z || ipEqb [w; x; y; z] [0; 0; 0; 0]%Z || (w =? 169)%Z && (x =? 254)%Z || (IsMulticast ip || IsLinkLocalMulticast ip)) by btauto.
    rewrite Ell, Em. repeat match goal with |- context [if ?b then _ else _] => destruct b eqn:? end; try btauto.
    all: destruct (w =? 127)%Z, (ipEqb [w; x; y; z] [0; 0; 0; 0]%Z), ((w =? 169)%Z && (x =? 254)%Z), (Z.land w 240 =? 224)%Z,
      ((w =? 10)%Z || (w =? 172)%Z && (Z.land x 240 =? 16)%Z || (w =? 192)%Z && (x =? 168)%Z); cbn in *; try done; by rewrite ?andb_false_r.
  - pose proof (To4_none _ Hip E) as Hl. destruct ip as [|w [|x r]] eqn:Eip; [done..|]. rewrite <-Eip in *.
    destruct (nets_v6 ip w x r Hip E Eip) as (-> & -> & _). destruct (v6_methods ip w x r Hip E Eip) as (-> & -> & -> & -> & -> & Em).
    replace (IsLinkLocalMulticast ip || IsInterfaceLocalMulticast ip) with (IsInterfaceLocalMulticast ip || IsLinkLocalMulticast ip) in * by btauto.
    destruct (IsInterfaceLocalMulticast ip), (IsLinkLocalMulticast ip), (ipEqb ip IPv6unspecified), (w =? 255)%Z, (ipEqb ip IPv6loopback), ((w =? 254)%Z && (Z.land x 192 =? 128)%Z), (Z.land w 254 =? 252)%Z; cbn in *; try done.
Qed.

(** A network does not distinguish the two forms of an IPv4 address. *)
Lemma Contains_form n v4 : length v4 = 4%nat -> Contains n (v4InV6Prefix ++ v4) = Contains n v4.
Proof. intros Hl. unfold Contains. rewrite To4_mapped by done. destruct (four v4 Hl) as (a & b & c & d & ->). done. Qed.

(** C18: The guards refuse exactly their networks.  For every address, in 4 or in
    16 bytes: the guard of discovered URLs refuses it when it is in one of
    [neverNets], whatever the operator allows, and unless private
    destinations are allowed when it is in one of [privateNets] or in the
    shared space of carriers; the guard of callbacks refuses the same
    networks but the last.  Both treat an IPv4 address and its IPv6 form
    alike. *)
Theorem guards_deny_exactly ip :
  isIP ip ->
  (∀ allowPrivate, IsBlockedIP (Some ip) allowPrivate = inNets neverNets ip || (negb allowPrivate && inNets (privateNets ++ [sharedNet]) ip))
  ∧ Callback.IsBlockedIP (Some ip) = inNets (neverNets ++ privateNets) ip
  ∧ (length ip = 4%nat -> ∀ allowPrivate, IsBlockedIP (Some (v4InV6Prefix ++ ip)) allowPrivate = IsBlockedIP (Some ip) allowPrivate
       ∧ Callback.IsBlockedIP (Some (v4InV6Prefix ++ ip)) = Callback.IsBlockedIP (Some ip)).
Proof.
  intros Hip. assert (∀ l i, inNets (l ++ [sharedNet]) i = inNets l i || Contains sharedNet i) as Happ by (intros l i; rewrite inNets_app; cbn [inNets existsb]; by rewrite orb_false_r).
  split_and!; [intros ap; by rewrite ssrf_deny_list, Happ|by apply callback_deny_list|]. intros Hl ap. assert (isIP (v4InV6Prefix ++ ip)) as Hm.
  { split; [right; rewrite length_app, Hl; done|]. apply Forall_app. split; [repeat constructor; lia|apply Hip]. }
  assert (∀ l, inNets l (v4InV6Prefix ++ ip) = inNets l ip) as Hin. { intros l. unfold inNets. induction l as [|n l IH]; cbn [existsb]; [done|]. by rewrite IH, Contains_form. }
  rewrite !ssrf_deny_list, !callback_deny_list, !Hin, Contains_form by done. done.
Qed.

(** ** URLs *)

Section Accepted.
Context `{NetLib}.

(** The addresses an accepted URL stands for at validation. *)
Definition reaches (lookup : string -> Res (list (option IP))) (host : string) (ip : option IP) : Prop :=
  match ParseIP host with
  | Some i => ip = Some i
  | None => ∃ ips, lookup host = Ok ips ∧ ip ∈ ips
  end.

(** A URL that passes the guard is an http or https URL without credentials
    whose host is on no deny list, and every address it stands for, a literal
    or any of those the resolver returned, is an address the guard allows; at
    least one there is.  Whatever a name resolves to later, the check of the
    dialed address refuses what the guard refuses. *)
Theorem accepted_url_safe raw allowPrivate lookup :
  ValidateURL raw allowPrivate lookup = None ->
  ∃ u, urlParse raw = Ok u ∧ (ToLower (u_Scheme u) = "http" ∨ ToLower (u_Scheme u) = "https") ∧ u_User u = false ∧ IsBlockedHostname (u_Hostname u) = false
    ∧ (∃ ip, reaches lookup (u_Hostname u) ip) ∧ (∀ ip, reaches lookup (u_Hostname u) ip -> ip ≠ None ∧ IsBlockedIP ip allowPrivate = false)
    ∧ ∀ address, CheckDialAddress address allowPrivate = None ->
        ∃ host ip, SplitHost address = Ok host ∧ ParseIP host = Some ip ∧ IsBlockedIP (Some ip) allowPrivate = false.
Proof.
  unfold ValidateURL. destruct (String.eqb raw ""); [done|]. destruct (urlParse raw) as [u|]; [|done].
  destruct (negb (String.eqb (ToLower (u_Scheme u)) "http") && negb (String.eqb (ToLower (u_Scheme u)) "https")) eqn:Es; [done|].
  destruct (String.eqb (u_Hostname u) ""); [done|]. destruct (u_User u) eqn:Eu; [done|]. destruct (IsBlockedHostname (u_Hostname u)) eqn:Eh; [done|]. intros Hv.
  exists u. split_and!; try done.
  - apply andb_false_iff in Es as [Es|Es]; apply negb_false_iff, String.eqb_eq in Es; [by left|by right].
  - unfold reaches. destruct (ParseIP (u_Hostname u)) as [i|]; [by eexists|]. destruct (lookup (u_Hostname u)) as [[|i ips]|]; [done| |done]. exists i, (i :: ips). split; [done|by left].
  - unfold reaches. destruct (ParseIP (u_Hostname u)) as [i|].
    + intros ip ->. destruct (IsBlockedIP (Some i) allowPrivate) eqn:E; done.
    + intros ip (ips & El & Hin). rewrite El in Hv. destruct ips as [|i0 ips]; [done|]. destruct (existsb _ (i0 :: ips)) eqn:E; [done|].
      assert (IsBlockedIP ip allowPrivate = false) as Hb. { apply not_true_iff_false. intros Hb. apply not_true_iff_false in E. apply E, existsb_exists. exists ip. by rewrite <-list_elem_of_In. }
      split; [|done]. intros ->. done.
  - intros address. unfold CheckDialAddress. destruct (SplitHost address) as [host|]; [|done]. destruct (ParseIP host) as [ip|] eqn:Ep; [|done].
    destruct (IsBlockedIP (Some ip) allowPrivate) eqn:E; [done|]. intros _. by exists host, ip.
Qed.

(** The callback guard: a literal that is refused at the registration is
    refused at the dial, and no dial reaches a refused address. *)
Theorem callback_dial_safe address :
  DialControl false address = None -> ∃ host ip, SplitHost address = Ok host ∧ ParseIP host = Some ip ∧ Callback.IsBlockedIP (Some ip) = false.
Proof.
  unfold DialControl. destruct (SplitHost address) as [host|]; [|done]. destruct (ParseIP host) as [ip|] eqn:Ep; [|done].
  destruct (Callback.IsBlockedIP (Some ip)) eqn:E; [done|]. intros _. by exists host, ip.
Qed.
End Accepted.

(** ** The cache *)

Inductive cacheOp : Type := coGet (now : Z) (key : string) | coPut (now1 now2 : Z) (key value : string).

Definition cacheStep (c : SuccessCache) (op : cacheOp) : SuccessCache :=
  match op with
  | coGet now key => (SuccessGet now c key).2
  | coPut now1 now2 key value => SuccessPut now1 now2 c key value
  end.

(** Bounded, and every entry stems from an insertion. *)
Definition successInv (past : list cacheOp) (c : SuccessCache) : Prop :=
  (Z.of_nat (size (sc_entries c)) <= sc_max c)%Z
  ∧ ∀ k e, sc_entries c !! k = Some e -> ∃ now1 now2, coPut now1 now2 k (se_value e) ∈ past ∧ se_expiry e = (now2 + sc_ttl c)%Z.

Lemma successStep_inv past c op : successInv past c -> (0 < sc_max c)%Z -> successInv (past ++ [op]) (cacheStep c op) ∧ sc_max (cacheStep c op) = sc_max c ∧ sc_ttl (cacheStep c op) = sc_ttl c.
Proof.
  intros [Hs He] Hm. assert (∀ k e, sc_entries c !! k = Some e -> ∃ now1 now2, coPut now1 now2 k (se_value e) ∈ past ++ [op] ∧ se_expiry e = (now2 + sc_ttl c)%Z) as He'.
  { intros k e Hk. destruct (He k e Hk) as (n1 & n2 & Hin & Ee). exists n1, n2. split; [apply elem_of_app; by left|done]. }
  assert (∀ es, (∀ k e, es !! k = Some e -> sc_entries c !! k = Some e) -> (Z.of_nat (size es) <= sc_max c)%Z -> successInv (past ++ [op]) (withEntries es c)) as Hsub.
  { intros es Hsub Hsz. split; [done|]. intros k e Hk. by apply He', Hsub. }
  destruct op as [now key|now1 now2 key value]; cbn [cacheStep].
  - unfold SuccessGet. destruct (sc_entries c !! key) as [e|] eqn:Ek; [|by repeat split]. destruct (se_expiry e <? now)%Z; [|by repeat split].
    cbn. split; [|done]. apply Hsub; [intros k e' Hk; by apply lookup_delete_Some in Hk as [_ ?]|]. rewrite map_size_delete_Some by by rewrite Ek. lia.
  - assert (∀ es, (∀ k e, es !! k = Some e -> sc_entries c !! k = Some e) -> is_Some (es !! key) ∧ (Z.of_nat (size es) <= sc_max c)%Z ∨ (Z.of_nat (size es) < sc_max c)%Z ->
      successInv (past ++ [coPut now1 now2 key value]) (withEntries (<[key := mkSuccessEntry value (now2 + sc_ttl c)]> es) c)) as Hins.
    { intros es Hes Hsz. split.
      - cbn. destruct Hsz as [[Hk Hsz]|Hsz]; [rewrite map_size_insert_Some by done; done|]. rewrite map_size_insert. destruct (es !! key); unfold id; cbn beta iota; lia.
      - cbn. intros k e [[<- <-]|[_ Hk]]%lookup_insert_Some; [exists now1, now2; split; [apply elem_of_app; right; by left|done]|by apply He', Hes]. }
    unfold SuccessPut. destruct (bool_decide (is_Some (sc_entries c !! key))) eqn:Ek; cbn [negb andb].
    { apply bool_decide_eq_true in Ek. split; [apply Hins; [done|by left]|done]. }
    destruct (Z.leb_spec (sc_max c) (Z.of_nat (size (sc_entries c)))) as [Hfull|Hroom]; [|split; [apply Hins; [done|right; lia]|done]].
    cbn [sc_entries sc_max withEntries]. set (es := filter _ (sc_entries c)). assert (∀ k e, es !! k = Some e -> sc_entries c !! k = Some e) as Hes by (intros k e Hk; by apply map_lookup_filter_Some in Hk as [? _]).
    destruct (Z.leb_spec (sc_max c) (Z.of_nat (size es))) as [Hf|Hf]; (split; [|done]); [apply Hsub; [done|]|by apply Hins; [|right]].
    assert (size es <= size (sc_entries c))%nat; [|lia]. apply map_subseteq_size, map_filter_subseteq.
Qed.

(** The cache of successes is bounded and fresh.  After any sequence of reads
    and insertions the cache holds at most its maximum of entries, and a read
    answers only a value that was inserted for the same key at most one time
    to live before. *)
Theorem success_cache_sound ops now key ttl maxEntries :
  (0 < maxEntries)%Z ->
  let c := foldl cacheStep (NewSuccessCache ttl maxEntries) ops in
  (Z.of_nat (size (sc_entries c)) <= maxEntries)%Z
  ∧ ∀ v, (SuccessGet now c key).1 = Some v -> ∃ now1 now2, coPut now1 now2 key v ∈ ops ∧ (now <= now2 + ttl)%Z.
Proof.
  intros Hm. cbn zeta. assert (∀ past c ops, successInv past c -> (0 < sc_max c)%Z ->
    successInv (past ++ ops) (foldl cacheStep c ops) ∧ sc_max (foldl cacheStep c ops) = sc_max c ∧ sc_ttl (foldl cacheStep c ops) = sc_ttl c) as Hrun.
  { intros past c ops0. revert past c. induction ops0 as [|op ops0 IH]; intros past c Hi Hc; cbn; [by rewrite app_nil_r|].
    destruct (successStep_inv past c op Hi Hc) as (H1 & E1 & E2). destruct (IH _ _ H1 ltac:(lia)) as (H2 & E3 & E4). rewrite <-app_assoc in H2. split_and!; [done|lia|lia]. }
  destruct (Hrun [] (NewSuccessCache ttl maxEntries) ops) as ([Hs He] & Em & Et); [split; cbn; [rewrite map_size_empty; lia|by intros ? ? ?%lookup_empty_Some]|done|].
  cbn [app sc_max sc_ttl NewSuccessCache] in *. rewrite Em in Hs. split; [done|]. intros v. unfold SuccessGet. destruct (sc_entries _ !! key) as [e|] eqn:Ek; [|done].
  destruct (Z.ltb_spec (se_expiry e) now) as [Hx|Hx]; [done|]. cbn. intros [= <-]. destruct (He key e Ek) as (n1 & n2 & Hin & Ee). exists n1, n2. rewrite Et in Ee. split; [done|lia].
Qed.

(** ** Concrete runs *)

(** The literals of the demonstration, and names. *)
#[local] Instance demoNet : NetLib := {
  urlParse s := if String.eqb s "https://node/" then Ok (mkURL "https" "node" false) else if String.eqb s "http://a" then Ok (mkURL "http" "8.8.8.8" false) else Err ErrDecode;
  ParseIP s := if String.eqb s "8.8.8.8" then Some [8; 8; 8; 8]%Z else None;
  SplitHost s := if String.eqb s "8.8.8.8:80" then Ok "8.8.8.8" else Err ErrDecode
}.

Lemma guards_deny_exactly_witness :
  IsBlockedIP (Some [100; 64; 0; 1]%Z) false = true ∧ Callback.IsBlockedIP (Some [100; 64; 0; 1]%Z) = false
  ∧ IsBlockedIP (Some [100; 64; 0; 1]%Z) true = inNets neverNets [100; 64; 0; 1]%Z.
Proof.
  split; [vm_compute; reflexivity|]. split; [vm_compute; reflexivity|].
  destruct (guards_deny_exactly [100; 64; 0; 1]%Z) as [Hs _]; [split; [by left|repeat constructor; lia]|]. rewrite (Hs true). vm_compute. reflexivity.
Defined.

Lemma accepted_url_safe_witness :
  ∃ u, urlParse "https://node/" = Ok u ∧ u_User u = false.
Proof.
  destruct (accepted_url_safe "https://node/" false (fun _ => Ok [Some [8; 8; 8; 8]%Z])) as (u & Hu & _ & Hn & _); [vm_compute; reflexivity|]. by exists u.
Defined.

Lemma callback_dial_safe_witness : ∃ host ip, SplitHost "8.8.8.8:80" = Ok host ∧ ParseIP host = Some ip ∧ Callback.IsBlockedIP (Some ip) = false.
Proof. apply (callback_dial_safe "8.8.8.8:80"). vm_compute. reflexivity. Defined.

Lemma success_cache_sound_witness :
  let ops := [coPut 0 0 "a" "va"; coPut 1 1 "b" "vb"; coPut 2 2 "c" "vc"; coPut 60 60 "c" "vc"] in
  let c := foldl cacheStep (NewSuccessCache 50 2) ops in
  (SuccessGet 61 c "c").1 = Some "vc" ∧ (SuccessGet 61 c "a").1 = None ∧ (Z.of_nat (size (sc_entries c)) <= 2)%Z.
Proof.
  cbn zeta. split; [vm_compute; reflexivity|]. split; [vm_compute; reflexivity|].
  apply (success_cache_sound [coPut 0 0 "a" "va"; coPut 1 1 "b" "vb"; coPut 2 2 "c" "vc"; coPut 60 60 "c" "vc"] 61 "c" 50 2). lia.
Defined.
