(* ===== verification/Discovery.v ===== *)
(** * Discovery: peer endpoints from announcement to broadcast

    Models [src/services/p2p_client]: the handling of a node_status
    announcement, and the endpoint source of [src/app/app.go] that lists the
    registry for the broadcast client.  The writes of a handler are returned
    in order with the answers given to them; the clock, the resolver and the
    store's answers are arguments. *)
From stdpp Require Import base gmap strings list.
From Stdlib Require Import Ascii ZArith Lia.
From S2P Require Import Prelude Models StoreCore GoStrings Verdicts Teranode NetGuard.
Import Policies.

Definition discoveryValidationTTL : Z := 300000000000.
Definition discoveryValidationCacheMax : Z := 512.
Definition endpointSourceValidationTTL : Z := 300000000000.
Definition endpointSourceValidationCacheMax : Z := 512.
Definition legacyMiningFeeBytesBasis : Z := 1000.
Definition DatahubEndpointSourceDiscovered : string := "discovered".

(** ** Announcements *)

(** The outcome of [math.Round(fee * 1e8)]. *)
Inductive rounded : Type := fNaN | fInf | fNum (v : Z).

Record FeePolicy : Type := mkFeePolicy {
  fp_Satoshis : Z;
  fp_Bytes : Z;
  fp_MaxTxSizePolicy : Z;
  fp_MaxScriptSizePolicy : Z;
  fp_MaxTxSigopsCountsPolicy : Z
}.

Record NodeStatusMessage : Type := mkNodeStatusMessage {
  PeerID : string;
  BaseURL : string;
  PropagationURL : string;
  ns_FeePolicy : option FeePolicy;
  MinMiningTxFee : option rounded
}.

Definition pickDatahubURL (m : NodeStatusMessage) : string :=
  if negb (String.eqb (TrimSpace (PropagationURL m)) "") then PropagationURL m else BaseURL m.

(** As a float the largest [int64] is [2 ^ 63]. *)
Definition legacyMiningFeeSatPerKB (fee : option rounded) : option Z :=
  match fee with
  | Some (fNum v) => if (v <? 0)%Z || (2 ^ 63 <? v)%Z then None else Some v
  | _ => None
  end.

Definition endpointPolicyFrom (m : NodeStatusMessage) : option EndpointPolicy :=
  let p :=
    match ns_FeePolicy m, MinMiningTxFee m with
    | Some f, _ => Some (mkEndpointPolicy (fp_Satoshis f) (fp_Bytes f) (fp_MaxTxSizePolicy f) (fp_MaxScriptSizePolicy f) (fp_MaxTxSigopsCountsPolicy f))
    | None, Some _ => (fun sats => mkEndpointPolicy sats legacyMiningFeeBytesBasis 0 0 0) <$> legacyMiningFeeSatPerKB (MinMiningTxFee m)
    | None, None => None
    end in
  match p with
  | Some p => match EndpointPolicy_Validate p with Some _ => None | None => Some p end
  | None => None
  end.

Section Discovery.
Context `{NetLib}.

Definition validateURL (raw : string) (allowPrivate : bool) (lookup : string -> Res (list (option IP))) : guardError + string :=
  let raw := TrimSpace raw in
  match ValidateURL raw allowPrivate lookup with
  | Some e => inl e
  | None => inr (Breaker.normalizeURL raw)
  end.

Record discoveryConfig : Type := mkDiscoveryConfig { dc_Network : string; dc_AllowPrivateURLs : bool }.

(** What surrounds the handling of one announcement. *)
Record around : Type := mkAround {
  ar_now : Z;
  ar_sweep : Z;
  ar_put : Z;
  ar_lookup : string -> Res (list (option IP));
  ar_seen : Time;
  ar_upsert : option error;
  ar_policy : option error
}.

Definition validateDatahubURL (cfg : discoveryConfig) (env : around) (raw : string) (validated : SuccessCache) : option string * SuccessCache :=
  let '(hit, validated) := SuccessGet (ar_now env) validated raw in
  match hit with
  | Some normalized => (Some normalized, validated)
  | None =>
      match validateURL raw (dc_AllowPrivateURLs cfg) (ar_lookup env) with
      | inl _ => (None, validated)
      | inr normalized => (Some normalized, SuccessPut (ar_sweep env) (ar_put env) validated raw normalized)
      end
  end.

(** A write to the store, with its answer. *)
Inductive write : Type :=
| wEndpoint (ep : DatahubEndpoint) (ans : option error)
| wPolicy (pp : PeerPolicy) (ans : option error).

(** The row to write, if the peer advertised a policy that can be used. *)
Definition peerPolicyOf (cfg : discoveryConfig) (seen : Time) (m : NodeStatusMessage) : option PeerPolicy :=
  let row sats byts maxTx maxScript :=
    (SanitizePolicySizes (mkPeerPolicy (PeerID m) (dc_Network cfg) sats byts maxTx maxScript seen)).1 in
  match ns_FeePolicy m with
  | Some f =>
      if (0 <? fp_Bytes f)%Z then Some (row (fp_Satoshis f) (fp_Bytes f) (fp_MaxTxSizePolicy f) (fp_MaxScriptSizePolicy f))
      else (fun sats => row sats legacyMiningFeeBytesBasis 0 0)%Z <$> legacyMiningFeeSatPerKB (MinMiningTxFee m)
  | None => (fun sats => row sats legacyMiningFeeBytesBasis 0 0)%Z <$> legacyMiningFeeSatPerKB (MinMiningTxFee m)
  end.

Definition recordPeerPolicy (cfg : discoveryConfig) (env : around) (m : NodeStatusMessage) : list write :=
  match peerPolicyOf cfg (ar_seen env) m with
  | None => []
  | Some pp => if String.eqb (PeerID m) "" then [] else [wPolicy pp (ar_policy env)]
  end.

Definition handleNodeStatus (cfg : discoveryConfig) (env : around) (m : NodeStatusMessage) (validated : SuccessCache) : list write * SuccessCache :=
  let raw := pickDatahubURL m in
  if String.eqb raw "" then ([], validated)
  else
    let '(ok, validated) := validateDatahubURL cfg env raw validated in
    match ok with
    | None => ([], validated)
    | Some normalized =>
        let w := wEndpoint (mkDatahubEndpoint normalized (dc_Network cfg) DatahubEndpointSourceDiscovered (endpointPolicyFrom m) (ar_seen env)) (ar_upsert env) in
        match ar_upsert env with
        | Some _ => ([w], validated)
        | None => (w :: recordPeerPolicy cfg env m, validated)
        end
    end.

(** [consume]: the announcements one after the other; the writes of each. *)
Fixpoint consume (cfg : discoveryConfig) (msgs : list (around * NodeStatusMessage)) (validated : SuccessCache) : list (list write) * SuccessCache :=
  match msgs with
  | [] => ([], validated)
  | (env, m) :: msgs =>
      let '(ws, validated) := handleNodeStatus cfg env m validated in
      let '(rest, validated) := consume cfg msgs validated in
      (ws :: rest, validated)
  end.

(** ** Listing *)

Record endpointSource : Type := mkEndpointSource {
  es_includeDiscovered : bool;
  es_allowPrivate : bool;
  es_validated : SuccessCache;
  es_warned : gset string;
  es_discoveredTTL : Z
}.

Definition withValidated (v : SuccessCache) (w : gset string) (a : endpointSource) : endpointSource :=
  mkEndpointSource (es_includeDiscovered a) (es_allowPrivate a) v w (es_discoveredTTL a).

Definition defaultDiscoveredTTL : Z := 3600000000000.

Definition newEndpointSource (includeDiscovered allowPrivate : bool) (discoveredTTL : Z) : endpointSource :=
  mkEndpointSource includeDiscovered allowPrivate (NewSuccessCache endpointSourceValidationTTL endpointSourceValidationCacheMax) ∅
    (if (discoveredTTL <=? 0)%Z then defaultDiscoveredTTL else discoveredTTL).

Definition logRejection (url : string) (a : endpointSource) : endpointSource := withValidated (es_validated a) ({[url]} ∪ es_warned a) a.

Definition validDiscoveredURL (env : around) (url : string) (a : endpointSource) : bool * endpointSource :=
  let '(hit, validated) := SuccessGet (ar_now env) (es_validated a) url in
  let a := withValidated validated (es_warned a) a in
  match hit with
  | Some _ => (true, a)
  | None =>
      match ValidateURL url (es_allowPrivate a) (ar_lookup env) with
      | Some _ => (false, logRejection url a)
      | None => (true, withValidated (SuccessPut (ar_sweep env) (ar_put env) (es_validated a) url "") (es_warned a ∖ {[url]}) a)
      end
  end.

Definition isDiscovered (ep : DatahubEndpoint) : bool := String.eqb (DE_Source ep) DatahubEndpointSourceDiscovered.
Definition stale (cutoff : Z) (ep : DatahubEndpoint) : bool :=
  isDiscovered ep && negb (IsZero (DE_LastSeen ep)) && (UnixNano (DE_LastSeen ep) <? cutoff)%Z.

(** The loop over the rows, each with what surrounds it. *)
Fixpoint listRows (cutoff : Z) (rows : list (around * DatahubEndpoint)) (current : gset string) (out : list string) (a : endpointSource)
  : list string * gset string * endpointSource :=
  match rows with
  | [] => (out, current, a)
  | (env, ep) :: rows =>
      if stale cutoff ep then listRows cutoff rows current out a
      else
        let current := {[DE_URL ep]} ∪ current in
        if isDiscovered ep then
          if negb (es_includeDiscovered a) then listRows cutoff rows current out a
          else
            let '(ok, a) := validDiscoveredURL env (DE_URL ep) a in
            if ok then listRows cutoff rows current (out ++ [DE_URL ep]) a else listRows cutoff rows current out a
        else listRows cutoff rows current (out ++ [DE_URL ep]) a
  end.

Definition pruneWarned (current : gset string) (a : endpointSource) : endpointSource := withValidated (es_validated a) (es_warned a ∩ current) a.

(** [rows] is what the registry lists, each row with what surrounds it. *)
Definition ListEndpointURLs (now : Z) (rows : Res (list (around * DatahubEndpoint))) (a : endpointSource) : Res (list string) * endpointSource :=
  match rows with
  | Err e => (Err e, a)
  | Ok rows =>
      let '(out, current, a) := listRows (now - es_discoveredTTL a) rows ∅ [] a in
      (Ok out, pruneWarned current a)
  end.
End Discovery.
