(* ===== verification/DiscoveryProps.v ===== *)
(** * DiscoveryProps: no unvalidated peer endpoint is ever used

    What an announcement writes, and what a listing hands to the broadcast
    client, was validated within one time to live; operator rows are never
    withheld. *)
From stdpp Require Import base gmap strings list.
From Stdlib Require Import Ascii ZArith Lia.
From S2P Require Import Prelude Models StoreCore GoStrings Verdicts Teranode NetGuard Discovery.
Import Policies.

(** ** The cache step by step *)

Lemma SuccessGet_entries now c key k e : sc_entries (SuccessGet now c key).2 !! k = Some e -> sc_entries c !! k = Some e.
Proof.
  unfold SuccessGet. destruct (sc_entries c !! key) as [e0|]; [|done]. destruct (se_expiry e0 <? now)%Z; [|done]. cbn. by intros [_ ?]%lookup_delete_Some.
Qed.

Lemma SuccessGet_hit now c key v : (SuccessGet now c key).1 = Some v -> ∃ e, sc_entries c !! key = Some e ∧ se_value e = v ∧ (now <= se_expiry e)%Z.
Proof.
  unfold SuccessGet. destruct (sc_entries c !! key) as [e|]; [|done]. destruct (Z.ltb_spec (se_expiry e) now); [done|]. intros [= <-]. by exists e.
Qed.

Lemma SuccessPut_entries now1 now2 c key v k e :
  sc_entries (SuccessPut now1 now2 c key v) !! k = Some e -> k = key ∧ e = mkSuccessEntry v (now2 + sc_ttl c) ∨ sc_entries c !! k = Some e.
Proof.
  unfold SuccessPut. destruct (negb _ && _); cbn; [|intros [[<- <-]|[_ ?]]%lookup_insert_Some; [by left|by right]].
  destruct (_ <=? _)%Z; cbn; [by intros [? _]%map_lookup_filter_Some; right|].
  intros [[<- <-]|[_ [? _]%map_lookup_filter_Some]]%lookup_insert_Some; [by left|by right].
Qed.

Lemma SuccessGet_ttl now c key : sc_ttl (SuccessGet now c key).2 = sc_ttl c.
Proof. unfold SuccessGet. by repeat case_match. Qed.
Lemma SuccessPut_ttl now1 now2 c key v : sc_ttl (SuccessPut now1 now2 c key v) = sc_ttl c.
Proof. unfold SuccessPut. destruct (negb _ && _); [|done]. by destruct (_ <=? _)%Z. Qed.

Section Announcements.
Context `{NetLib} (cfg : discoveryConfig).

(** [raw] passed validation amid [env]. *)
Definition passed (env : around) (raw : string) : Prop := ValidateURL (TrimSpace raw) (dc_AllowPrivateURLs cfg) (ar_lookup env) = None.

(** Every cached URL passed validation when an announcement was handled. *)
Definition discoveryInv (past : list (around * NodeStatusMessage)) (c : SuccessCache) : Prop :=
  sc_ttl c = discoveryValidationTTL
  ∧ ∀ raw e, sc_entries c !! raw = Some e -> se_value e = Breaker.normalizeURL (TrimSpace raw)
      ∧ ∃ env m, (env, m) ∈ past ∧ pickDatahubURL m = raw ∧ passed env raw ∧ se_expiry e = (ar_put env + discoveryValidationTTL)%Z.

(** [raw] is backed: it passes now, or passed at most one time to live ago. *)
Definition backed (past : list (around * NodeStatusMessage)) (env : around) (raw : string) : Prop :=
  passed env raw ∨ ∃ env' m', (env', m') ∈ past ∧ pickDatahubURL m' = raw ∧ passed env' raw ∧ (ar_now env <= ar_put env' + discoveryValidationTTL)%Z.

Lemma validateDatahubURL_spec past env m c :
  discoveryInv past c ->
  let r := validateDatahubURL cfg env (pickDatahubURL m) c in
  discoveryInv (past ++ [(env, m)]) r.2
  ∧ ∀ u, r.1 = Some u -> u = Breaker.normalizeURL (TrimSpace (pickDatahubURL m)) ∧ backed past env (pickDatahubURL m).
Proof.
  intros [Ht He]. set (raw := pickDatahubURL m). cbn zeta. unfold validateDatahubURL.
  assert (∀ c', (∀ k e, sc_entries c' !! k = Some e -> sc_entries c !! k = Some e) -> sc_ttl c' = sc_ttl c -> discoveryInv (past ++ [(env, m)]) c') as Hsub.
  { intros c' Hs E. split; [congruence|]. intros k e Hk. destruct (He k e (Hs k e Hk)) as (Hv & env' & m' & Hin & Hrest). split; [done|]. exists env', m'. split; [apply elem_of_app; by left|done]. }
  pose proof (SuccessGet_entries (ar_now env) c raw) as Hg. pose proof (SuccessGet_ttl (ar_now env) c raw) as Hgt. pose proof (SuccessGet_hit (ar_now env) c raw) as Hh.
  destruct (SuccessGet (ar_now env) c raw) as [hit c1]. cbn [fst snd] in *. destruct hit as [v|].
  { split; [by apply Hsub|]. intros u [= <-]. destruct (Hh v eq_refl) as (e & Ek & <- & Hx). destruct (He raw e Ek) as (Hv & env' & m' & Hin & Hp & Hok & Ee).
    split; [done|]. right. exists env', m'. split_and!; try done. lia. }
  unfold validateURL. destruct (ValidateURL (TrimSpace raw) (dc_AllowPrivateURLs cfg) (ar_lookup env)) eqn:Ev; cbn [fst snd]; [by split; [apply Hsub|]|].
  split; [|intros u [= <-]; by split; [|left]]. split; [rewrite SuccessPut_ttl; congruence|]. intros k e [[-> ->]|Hk]%SuccessPut_entries.
  - cbn. split; [done|]. exists env, m. split_and!; try done; [apply elem_of_app; right; by left|congruence].
  - destruct (He k e (Hg k e Hk)) as (Hv & env' & m' & Hin & Hrest). split; [done|]. exists env', m'. split; [apply elem_of_app; by left|done].
Qed.

(** A size limit as it is kept: none when it is too large to store. *)
Definition keptLimit (v : Z) : Z := if (v <=? maxStorablePolicyValue)%Z then v else 0.

(** The row has the policy the peer announced: its fee as announced with the
    size limits that can be stored, or the legacy fee per 1000 bytes where no
    usable fee policy was announced. *)
Definition announcedPolicy (m : NodeStatusMessage) (pp : PeerPolicy) : Prop :=
  (∃ f, ns_FeePolicy m = Some f ∧ (0 < fp_Bytes f)%Z ∧ PP_MiningFeeSatoshis pp = fp_Satoshis f ∧ PP_MiningFeeBytes pp = fp_Bytes f
     ∧ PP_MaxTxSizePolicy pp = keptLimit (fp_MaxTxSizePolicy f) ∧ PP_MaxScriptSizePolicy pp = keptLimit (fp_MaxScriptSizePolicy f))
  ∨ ((∀ f, ns_FeePolicy m = Some f -> (fp_Bytes f <= 0)%Z)
     ∧ ∃ v, MinMiningTxFee m = Some (fNum v) ∧ (0 <= v <= 2 ^ 63)%Z ∧ PP_MiningFeeSatoshis pp = v ∧ PP_MiningFeeBytes pp = 1000%Z
          ∧ PP_MaxTxSizePolicy pp = 0%Z ∧ PP_MaxScriptSizePolicy pp = 0%Z).

(** ... and it is refused by the store's validation exactly when its fee is
    too large to store. *)
Definition usable (m : NodeStatusMessage) (pp : PeerPolicy) : Prop :=
  announcedPolicy m pp
  ∧ (PeerPolicy_Validate pp = None ↔ (PP_MiningFeeSatoshis pp <= maxStorablePolicyValue)%Z ∧ (PP_MiningFeeBytes pp <= maxStorablePolicyValue)%Z).

Lemma keptLimit_storable v : (maxStorablePolicyValue <? keptLimit v)%Z = false.
Proof. unfold keptLimit. destruct (Z.leb_spec v maxStorablePolicyValue); [by apply Z.ltb_ge|by vm_compute]. Qed.

Lemma announced_validates m pp :
  PP_PeerID pp ≠ "" -> announcedPolicy m pp ->
  PeerPolicy_Validate pp = None ↔ (PP_MiningFeeSatoshis pp <= maxStorablePolicyValue)%Z ∧ (PP_MiningFeeBytes pp <= maxStorablePolicyValue)%Z.
Proof.
  intros Hid Ha. assert ((PP_MiningFeeBytes pp =? 0)%Z = false ∧ (maxStorablePolicyValue <? PP_MaxTxSizePolicy pp)%Z = false ∧ (maxStorablePolicyValue <? PP_MaxScriptSizePolicy pp)%Z = false) as (E1 & E2 & E3).
  { destruct Ha as [(f & _ & Hb & _ & -> & -> & ->)|(_ & v & _ & _ & _ & -> & -> & ->)]; [|by vm_compute].
    split_and!; [apply Z.eqb_neq; lia|apply keptLimit_storable..]. }
  unfold PeerPolicy_Validate. rewrite (proj2 (String.eqb_neq _ _) Hid), E1, E2, E3.
  destruct (Z.ltb_spec maxStorablePolicyValue (PP_MiningFeeSatoshis pp)), (Z.ltb_spec maxStorablePolicyValue (PP_MiningFeeBytes pp)); (split; [try done|intros [? ?]; try done; lia]); intros _; lia.
Qed.

Lemma peerPolicyOf_announced seen m pp : peerPolicyOf cfg seen m = Some pp -> announcedPolicy m pp ∧ PP_PeerID pp = PeerID m ∧ PP_Network pp = dc_Network cfg.
Proof.
  assert (∀ v, (if (maxStorablePolicyValue <? v)%Z then 0%Z else v) = keptLimit v) as Hk.
  { intros v. unfold keptLimit. destruct (Z.ltb_spec maxStorablePolicyValue v), (Z.leb_spec v maxStorablePolicyValue); try done; lia. }
  assert ((∀ f, ns_FeePolicy m = Some f -> (fp_Bytes f <= 0)%Z) ->
    (fun sats => (SanitizePolicySizes (mkPeerPolicy (PeerID m) (dc_Network cfg) sats legacyMiningFeeBytesBasis 0 0 seen)).1) <$> legacyMiningFeeSatPerKB (MinMiningTxFee m) = Some pp ->
    announcedPolicy m pp ∧ PP_PeerID pp = PeerID m ∧ PP_Network pp = dc_Network cfg) as Hleg.
  { intros Hno (sats & Hs & ->)%fmap_Some. split; [|done]. right. split; [done|]. unfold legacyMiningFeeSatPerKB in Hs.
    destruct (MinMiningTxFee m) as [[| |v]|]; try done. destruct (Z.ltb_spec v 0); [done|]. destruct (Z.ltb_spec (2 ^ 63) v); [done|]. injection Hs as <-. by exists v. }
  unfold peerPolicyOf. destruct (ns_FeePolicy m) as [f|] eqn:Ef; [destruct (Z.ltb_spec 0 (fp_Bytes f))|].
  - intros [= <-]. split; [|done]. left. exists f. unfold SanitizePolicySizes. cbn [fst PP_MiningFeeSatoshis PP_MiningFeeBytes PP_MaxTxSizePolicy PP_MaxScriptSizePolicy].
    by rewrite !Hk.
  - apply Hleg. by intros f' [= <-].
  - by apply Hleg.
Qed.

Lemma endpointPolicyFrom_valid m p : endpointPolicyFrom m = Some p -> EndpointPolicy_Validate p = None.
Proof.
  unfold endpointPolicyFrom. intros E. repeat case_match; simplify_eq; done.
Qed.

(** What one announcement may write. *)
Definition writesOk (past : list (around * NodeStatusMessage)) (env : around) (m : NodeStatusMessage) (ws : list write) : Prop :=
  (∀ ep ans, wEndpoint ep ans ∈ ws ->
     DE_URL ep = Breaker.normalizeURL (TrimSpace (pickDatahubURL m)) ∧ DE_Network ep = dc_Network cfg ∧ DE_Source ep = DatahubEndpointSourceDiscovered
     ∧ backed past env (pickDatahubURL m) ∧ (∀ p, DE_Policy ep = Some p -> EndpointPolicy_Validate p = None))
  ∧ (∀ pp ans, wPolicy pp ans ∈ ws -> (∃ ep, ws = [wEndpoint ep None; wPolicy pp ans]) ∧ PP_PeerID pp = PeerID m ∧ PeerID m ≠ "" ∧ PP_Network pp = dc_Network cfg ∧ usable m pp).

Lemma handleNodeStatus_spec past env m c :
  discoveryInv past c -> discoveryInv (past ++ [(env, m)]) (handleNodeStatus cfg env m c).2 ∧ writesOk past env m (handleNodeStatus cfg env m c).1.
Proof.
  intros Hi. unfold handleNodeStatus. destruct (String.eqb (pickDatahubURL m) ""); cbn [fst snd].
  { split; [|split; by intros ? ? ?%elem_of_nil]. destruct Hi as [Ht He]. split; [done|]. intros k e Hk. destruct (He k e Hk) as (Hv & env' & m' & Hin & Hrest). split; [done|]. exists env', m'. split; [apply elem_of_app; by left|done]. }
  destruct (validateDatahubURL_spec past env m c Hi) as [Hi' Hok]. destruct (validateDatahubURL cfg env (pickDatahubURL m) c) as [[u|] c']; cbn [fst snd] in *; [|split; [done|split; by intros ? ? ?%elem_of_nil]].
  destruct (Hok u eq_refl) as [-> Hb]. destruct (ar_upsert env) eqn:Eu; cbn [fst snd]; (split; [done|]).
  { split; [|intros pp ans Hin; apply list_elem_of_singleton in Hin; discriminate]. intros ep ans Hin. apply list_elem_of_singleton in Hin as [= -> ->]. cbn. split_and!; try done. apply endpointPolicyFrom_valid. }
  unfold recordPeerPolicy. destruct (peerPolicyOf cfg (ar_seen env) m) as [pp|] eqn:Ep; [destruct (String.eqb_spec (PeerID m) "") as [E0|E0]|].
  2: { destruct (peerPolicyOf_announced _ _ _ Ep) as (Han & Eid & En). assert (usable m pp) as Hus by (split; [done|apply (announced_validates m); congruence]). split.
       - intros ep ans [[= -> ->]|Hin]%elem_of_cons; [cbn; split_and!; try done; apply endpointPolicyFrom_valid|]. apply list_elem_of_singleton in Hin. discriminate.
       - intros pp' ans [Hin|Hin]%elem_of_cons; [discriminate|]. apply list_elem_of_singleton in Hin as [= -> ->]. split_and!; try done. by eexists. }
  all: split; [intros ep ans Hin; apply list_elem_of_singleton in Hin as [= -> ->]; cbn; split_and!; try done; apply endpointPolicyFrom_valid|].
  all: intros pp' ans Hin; apply list_elem_of_singleton in Hin; discriminate.
Qed.

(** C22: No announcement reaches the registry unchecked.  However the announcements
    follow each other: an endpoint is written only under the URL the peer
    announced, trimmed, after that URL passed the guard with the answers of
    the resolver at this announcement, or at an earlier one of the same URL
    no longer than one time to live before; its policy, if any, passes the
    store's validation.  A policy row is handed to the store only after the
    endpoint of the same announcement was written without an error, under a
    named peer, with the announced fee and with the announced size limits that
    can be stored (others are zero), or with the legacy fee where there is no
    fee policy; the store's validation refuses the row exactly when its fee is
    too large to store. *)
Theorem discovery_backed msgs i env m ws :
  msgs !! i = Some (env, m) ->
  (consume cfg msgs (NewSuccessCache discoveryValidationTTL discoveryValidationCacheMax)).1 !! i = Some ws -> writesOk (take i msgs) env m ws.
Proof.
  assert (∀ msgs past c i env m ws, discoveryInv past c -> msgs !! i = Some (env, m) -> (consume cfg msgs c).1 !! i = Some ws -> writesOk (past ++ take i msgs) env m ws) as Hgen.
  { induction msgs0 as [|[env0 m0] msgs0 IH]; intros past c i0 env1 m1 ws1 Hi Hm Hw; [done|]. cbn [consume] in Hw.
    destruct (handleNodeStatus_spec past env0 m0 c Hi) as [Hi' Hok]. destruct (handleNodeStatus cfg env0 m0 c) as [ws0 c']. cbn [fst snd] in *.
    specialize (IH (past ++ [(env0, m0)]) c'). destruct (consume cfg msgs0 c') as [rest c'']. cbn [fst] in *. destruct i0 as [|i0]; cbn in Hm, Hw.
    - injection Hm as -> ->. injection Hw as ->. cbn. by rewrite app_nil_r.
    - cbn [take]. specialize (IH i0 env1 m1 ws1 Hi' Hm Hw). by rewrite <-app_assoc in IH. }
  intros Hm Hw. change (take i msgs) with ([] ++ take i msgs). eapply Hgen; [|done|done]. split; [done|]. intros k e Hk. cbn in Hk. by rewrite lookup_empty in Hk.
Qed.
End Announcements.

Section Listing.
Context `{NetLib}.

(** A row as it was listed: what surrounded it, and its URL. *)
Definition histOf (rows : list (around * DatahubEndpoint)) : list (around * string) := List.map (fun r => (r.1, DE_URL r.2)) rows.

Definition passedURL (allowPrivate : bool) (env : around) (url : string) : Prop := ValidateURL url allowPrivate (ar_lookup env) = None.

(** [url] passes amid [env], or passed at most one time to live before. *)
Definition backedURL (allowPrivate : bool) (past : list (around * string)) (env : around) (url : string) : Prop :=
  passedURL allowPrivate env url ∨ ∃ env', (env', url) ∈ past ∧ passedURL allowPrivate env' url ∧ (ar_now env <= ar_put env' + endpointSourceValidationTTL)%Z.

Definition sourceInv (past : list (around * string)) (a : endpointSource) : Prop :=
  sc_ttl (es_validated a) = endpointSourceValidationTTL
  ∧ ∀ url e, sc_entries (es_validated a) !! url = Some e ->
      ∃ env, (env, url) ∈ past ∧ passedURL (es_allowPrivate a) env url ∧ se_expiry e = (ar_put env + endpointSourceValidationTTL)%Z.

Definition sameSource (a a' : endpointSource) : Prop :=
  es_includeDiscovered a' = es_includeDiscovered a ∧ es_allowPrivate a' = es_allowPrivate a ∧ es_discoveredTTL a' = es_discoveredTTL a.

Lemma sourceInv_mono past past' a : past ⊆ past' -> sourceInv past a -> sourceInv past' a.
Proof. intros Hs [Ht He]. split; [done|]. intros url e Hk. destruct (He url e Hk) as (env & Hin & Hrest). exists env. split; [by apply Hs|done]. Qed.

Lemma backedURL_mono ap past past' env url : past ⊆ past' -> backedURL ap past env url -> backedURL ap past' env url.
Proof. intros Hs [?|(env' & Hin & Hrest)]; [by left|right]. exists env'. split; [by apply Hs|done]. Qed.

Lemma validDiscoveredURL_spec past env url a :
  sourceInv past a ->
  let r := validDiscoveredURL env url a in
  sourceInv (past ++ [(env, url)]) r.2 ∧ sameSource a r.2 ∧ es_warned r.2 ⊆ {[url]} ∪ es_warned a
  ∧ (r.1 = true -> backedURL (es_allowPrivate a) past env url) ∧ (passedURL (es_allowPrivate a) env url -> r.1 = true).
Proof.
  intros [Ht He]. cbn zeta. unfold validDiscoveredURL.
  pose proof (SuccessGet_entries (ar_now env) (es_validated a) url) as Hg. pose proof (SuccessGet_ttl (ar_now env) (es_validated a) url) as Hgt. pose proof (SuccessGet_hit (ar_now env) (es_validated a) url) as Hh.
  destruct (SuccessGet (ar_now env) (es_validated a) url) as [hit c1]. cbn [fst snd] in *.
  assert (∀ w, sourceInv (past ++ [(env, url)]) (withValidated c1 w a)) as Hsub.
  { intros w. split; [cbn; congruence|]. cbn. intros k e Hk. destruct (He k e (Hg k e Hk)) as (env' & Hin & Hrest). exists env'. split; [apply elem_of_app; by left|done]. }
  destruct hit as [v|]; cbn [fst snd es_allowPrivate withValidated].
  { split_and!; [apply Hsub|done..|set_solver| |done]. intros _. destruct (Hh v eq_refl) as (e & Ek & _ & Hx). destruct (He url e Ek) as (env' & Hin & Hp & Ee). right. exists env'. split_and!; try done. lia. }
  destruct (ValidateURL url (es_allowPrivate a) (ar_lookup env)) eqn:Ev; cbn [fst snd].
  - split_and!; [apply Hsub|done..|cbn; set_solver|done|]. unfold passedURL. congruence.
  - split_and!; [|done..|cbn; set_solver|by left|done]. split; [cbn; rewrite SuccessPut_ttl; congruence|]. cbn. intros k e [[-> ->]|Hk]%SuccessPut_entries.
    + exists env. cbn. split_and!; [apply elem_of_app; right; by left|done|congruence].
    + destruct (He k e (Hg k e Hk)) as (env' & Hin & Hrest). exists env'. split; [apply elem_of_app; by left|done].
Qed.

(** What a listing hands out. *)
Definition listedOk (includeDiscovered allowPrivate : bool) (cutoff : Z) (past : list (around * string)) (rows : list (around * DatahubEndpoint)) (out : list string) : Prop :=
  out `sublist_of` List.map (fun r => DE_URL r.2) rows
  ∧ (∀ env ep, (env, ep) ∈ rows -> isDiscovered ep = false -> DE_URL ep ∈ out)
  ∧ (∀ env ep, (env, ep) ∈ rows -> isDiscovered ep = true -> includeDiscovered = true -> stale cutoff ep = false -> passedURL allowPrivate env (DE_URL ep) -> DE_URL ep ∈ out)
  ∧ (∀ url, url ∈ out -> ∃ env ep, (env, ep) ∈ rows ∧ DE_URL ep = url
       ∧ (isDiscovered ep = false ∨ includeDiscovered = true ∧ stale cutoff ep = false ∧ backedURL allowPrivate (past ++ histOf rows) env url)).

Lemma stale_discovered cutoff ep : stale cutoff ep = true -> isDiscovered ep = true.
Proof. unfold stale. by intros [[? _]%andb_true_iff _]%andb_true_iff. Qed.

Lemma listRows_spec cutoff past done rows current out a :
  sourceInv (past ++ histOf done) a -> listedOk (es_includeDiscovered a) (es_allowPrivate a) cutoff past done out ->
  let '(out', current', a') := listRows cutoff rows current out a in
  sourceInv (past ++ histOf (done ++ rows)) a' ∧ sameSource a a' ∧ listedOk (es_includeDiscovered a) (es_allowPrivate a) cutoff past (done ++ rows) out'.
Proof.
  revert done current out a. induction rows as [|[env ep] rows IH]; intros done current out a Hi Hok; cbn [listRows]; [by rewrite app_nil_r|].
  assert (histOf (done ++ [(env, ep)]) = histOf done ++ [(env, DE_URL ep)]) as Eh by (unfold histOf; by rewrite map_app).
  assert (past ++ histOf done ⊆ past ++ histOf (done ++ [(env, ep)])) as Hmono. { rewrite Eh. intros x [?|?]%elem_of_app; apply elem_of_app; [by left|right; apply elem_of_app; by left]. }
  assert (∀ current' a', sourceInv (past ++ histOf (done ++ [(env, ep)])) a' -> sameSource a a' -> ∀ out', listedOk (es_includeDiscovered a) (es_allowPrivate a) cutoff past (done ++ [(env, ep)]) out' ->
    let '(o, c, a'') := listRows cutoff rows current' out' a' in
    sourceInv (past ++ histOf (done ++ (env, ep) :: rows)) a'' ∧ sameSource a a'' ∧ listedOk (es_includeDiscovered a) (es_allowPrivate a) cutoff past (done ++ (env, ep) :: rows) o) as Hrec.
  { intros current' a' Hi' (E1 & E2 & E3) out' Hok'. specialize (IH (done ++ [(env, ep)]) current' out' a' Hi'). rewrite E1, E2 in IH. specialize (IH Hok').
    destruct (listRows cutoff rows current' out' a') as [[o c] a'']. rewrite <-app_assoc in IH. destruct IH as (H1 & (F1 & F2 & F3) & H3). split_and!; try done; [unfold sameSource; split_and!; congruence]. }
  destruct Hok as (Hsub & Hconf & Hpass & Hback).
  assert (∀ out', (out' = out ∨ out' = out ++ [DE_URL ep]) ->
    (isDiscovered ep = false -> DE_URL ep ∈ out') -> (isDiscovered ep = true -> es_includeDiscovered a = true -> stale cutoff ep = false -> passedURL (es_allowPrivate a) env (DE_URL ep) -> DE_URL ep ∈ out') ->
    (out' = out ++ [DE_URL ep] -> isDiscovered ep = false ∨ es_includeDiscovered a = true ∧ stale cutoff ep = false ∧ backedURL (es_allowPrivate a) (past ++ histOf done) env (DE_URL ep)) ->
    listedOk (es_includeDiscovered a) (es_allowPrivate a) cutoff past (done ++ [(env, ep)]) out') as Hstep.
  { intros out' Ho Hc Hp Hb. assert (∀ u, u ∈ out -> u ∈ out') as Hsup by (intros u Hu; destruct Ho as [->| ->]; [done|apply elem_of_app; by left]). split_and!.
    - rewrite map_app. destruct Ho as [->| ->]; [by apply sublist_inserts_r|by apply sublist_app].
    - intros env0 ep0 [Hin|[= -> ->]%list_elem_of_singleton]%elem_of_app Hd; [by eapply Hsup, Hconf|by apply Hc].
    - intros env0 ep0 [Hin|[= -> ->]%list_elem_of_singleton]%elem_of_app Hd Hinc Hst Hps; [by eapply Hsup, Hpass|by apply Hp].
    - intros url Hurl. assert (url ∈ out ∨ out' = out ++ [DE_URL ep] ∧ url = DE_URL ep) as [Hin|[E ->]].
      { destruct Ho as [->| ->]; [by left|]. apply elem_of_app in Hurl as [?| ->%list_elem_of_singleton]; [by left|by right]. }
      + destruct (Hback url Hin) as (env0 & ep0 & Hr & Eu & Hcase). exists env0, ep0. split_and!; [apply elem_of_app; by left|done|].
        destruct Hcase as [?|(? & ? & ?)]; [by left|right]. split_and!; try done. by eapply backedURL_mono.
      + exists env, ep. split_and!; [apply elem_of_app; right; by left|done|]. destruct (Hb E) as [?|(? & ? & ?)]; [by left|right]. split_and!; try done. by eapply backedURL_mono. }
  assert (sourceInv (past ++ histOf (done ++ [(env, ep)])) a) as Hi1 by (by eapply sourceInv_mono).
  assert (sameSource a a) as Hsame by done. assert (out = out ++ [DE_URL ep] -> False) as Hne by (intros E; apply (f_equal length) in E; rewrite length_app in E; cbn in E; lia).
  destruct (stale cutoff ep) eqn:Est.
  { apply Hrec; [done|done|]. pose proof (stale_discovered _ _ Est). apply Hstep; [by left|congruence|congruence|by intros ?%Hne]. }
  destruct (isDiscovered ep) eqn:Ed; [|apply Hrec; [done|done|apply Hstep; [by right|intros _; apply elem_of_app; right; by left|done|by left]]].
  destruct (es_includeDiscovered a) eqn:Einc; cbn [negb]; [|apply Hrec; [done|done|apply Hstep; [by left|done|done|by intros ?%Hne]]].
  destruct (validDiscoveredURL_spec (past ++ histOf done) env (DE_URL ep) a Hi) as (Hi' & Hs' & _ & Htrue & Hpassed).
  destruct (validDiscoveredURL env (DE_URL ep) a) as [ok a']. cbn [fst snd] in *. rewrite <-app_assoc, <-Eh in Hi'. destruct ok; apply Hrec; try done.
  - apply Hstep; [by right|done|intros; apply elem_of_app; right; by left|]. intros _. right. split_and!; try done. by apply Htrue.
  - apply Hstep; [by left|done| |by intros ?%Hne]. intros _ _ _ Hp. discriminate (Hpassed Hp).
Qed.

(** The listings before, each with its rows. *)
Definition listAll (ls : list (Z * Res (list (around * DatahubEndpoint)))) (a : endpointSource) : endpointSource :=
  foldl (fun a l => (ListEndpointURLs l.1 l.2 a).2) a ls.
Definition pastOf (ls : list (Z * Res (list (around * DatahubEndpoint)))) : list (around * string) :=
  List.concat (List.map (fun l => match l.2 with Ok rows => histOf rows | Err _ => [] end) ls).

Lemma listing_spec past now rows a :
  sourceInv past a ->
  sourceInv (past ++ match rows with Ok rows => histOf rows | Err _ => [] end) (ListEndpointURLs now rows a).2 ∧ sameSource a (ListEndpointURLs now rows a).2
  ∧ (∀ out, (ListEndpointURLs now rows a).1 = Ok out -> ∃ rows', rows = Ok rows' ∧ listedOk (es_includeDiscovered a) (es_allowPrivate a) (now - es_discoveredTTL a) past rows' out).
Proof.
  intros Hi. unfold ListEndpointURLs. destruct rows as [rows|e]; [|cbn; rewrite app_nil_r; by split_and!].
  pose proof (listRows_spec (now - es_discoveredTTL a) past [] rows ∅ [] a) as Hl. cbn [histOf List.map app] in Hl. rewrite app_nil_r in Hl.
  destruct (listRows (now - es_discoveredTTL a) rows ∅ [] a) as [[out current] a']. destruct (Hl Hi) as (H1 & H2 & H3).
  { split_and!; [done|by intros ? ? ?%elem_of_nil|by intros ? ? ?%elem_of_nil|by intros ? ?%elem_of_nil]. }
  cbn [fst snd]. split_and!; try done. intros out0 [= <-]. by exists rows.
Qed.

(** Only validated peers are broadcast to, and no operator row is withheld.
    After any sequence of listings of the registry, what a listing hands to
    the broadcast client are URLs of its rows in order; every row an operator
    configured is among them; so is every discovered row, unless discovery is
    off, the row was not announced within the time to live, or its URL does
    not pass the guard; and a discovered row is among them only if its URL
    passes the guard now or passed it at most the cache's time to live ago. *)
Theorem listing_backed includeDiscovered allowPrivate ttl ls now rows out :
  let a := listAll ls (newEndpointSource includeDiscovered allowPrivate ttl) in
  (ListEndpointURLs now (Ok rows) a).1 = Ok out ->
  listedOk includeDiscovered allowPrivate (now - (if (ttl <=? 0)%Z then defaultDiscoveredTTL else ttl)) (pastOf ls) rows out.
Proof.
  cbn zeta. intros Hout. assert (∀ ls past a, sourceInv past a -> sourceInv (past ++ pastOf ls) (listAll ls a) ∧ sameSource a (listAll ls a)) as Hall.
  { induction ls0 as [|[n r] ls0 IH]; intros past a Hi; [cbn; by rewrite app_nil_r|]. destruct (listing_spec past n r a Hi) as (H1 & (E1 & E2 & E3) & _).
    destruct (IH _ _ H1) as (H2 & F1 & F2 & F3). unfold pastOf in *. cbn [List.map List.concat snd]. rewrite <-app_assoc in H2. split; [done|]. unfold sameSource, listAll in *. cbn [foldl fst snd] in *. split_and!; congruence. }
  destruct (Hall ls [] (newEndpointSource includeDiscovered allowPrivate ttl)) as (Hi & E1 & E2 & E3); [split; [done|]; intros url e Hk; cbn in Hk; by rewrite lookup_empty in Hk|].
  destruct (listing_spec _ now (Ok rows) _ Hi) as (_ & _ & Hok). destruct (Hok out Hout) as (rows' & [= <-] & H3). by rewrite E1, E2, E3 in H3.
Qed.
End Listing.

(** ** Concrete runs *)

#[local] Instance wNet : NetLib := {
  urlParse s := if String.eqb s "https://node/" then Ok (mkURL "https" "node" false) else Err ErrDecode;
  ParseIP s := None;
  SplitHost s := Err ErrDecode
}.

Definition resolves (ip : IP) (now : Z) : around := mkAround now now now (fun _ => Ok [Some ip]) (Some now) None None.
Definition announces : NodeStatusMessage := mkNodeStatusMessage "peer" "https://node/" "" (Some (mkFeePolicy 1 1000 0 0 0)) None.
Definition wDiscovery : discoveryConfig := mkDiscoveryConfig "mainnet" false.

(** A name that resolves to a public address, then to an internal one, and
    again after the time to live. *)
Definition wMsgs : list (around * NodeStatusMessage) :=
  [(resolves [8; 8; 8; 8]%Z 0, announces); (resolves [10; 0; 0; 1]%Z 5, announces); (resolves [10; 0; 0; 1]%Z 300000000001, announces)].

Lemma discovery_backed_witness :
  let r := (consume wDiscovery wMsgs (NewSuccessCache discoveryValidationTTL discoveryValidationCacheMax)).1 in
  List.map length r = [2; 2; 0]%nat ∧ ∃ ws, r !! 1%nat = Some ws ∧ writesOk wDiscovery (take 1 wMsgs) (resolves [10; 0; 0; 1]%Z 5) announces ws.
Proof.
  cbn zeta. split; [vm_compute; reflexivity|].
  destruct ((consume wDiscovery wMsgs (NewSuccessCache discoveryValidationTTL discoveryValidationCacheMax)).1 !! 1%nat) as [ws|] eqn:E; [|vm_compute in E; discriminate].
  exists ws. split; [done|]. apply (discovery_backed wDiscovery wMsgs 1 (resolves [10; 0; 0; 1]%Z 5) announces ws); [reflexivity|done].
Defined.

Definition wRows (env : around) : list (around * DatahubEndpoint) :=
  [(env, mkDatahubEndpoint "http://static" "mainnet" "configured" None None);
   (env, mkDatahubEndpoint "https://node/" "mainnet" DatahubEndpointSourceDiscovered None (Some 1%Z))].

Lemma listing_backed_witness :
  let a := listAll [(1%Z, Ok (wRows (resolves [8; 8; 8; 8]%Z 1)))] (newEndpointSource true false 0) in
  (ListEndpointURLs 5 (Ok (wRows (resolves [10; 0; 0; 1]%Z 5))) a).1 = Ok ["http://static"; "https://node/"]
  ∧ (ListEndpointURLs 300000000002 (Ok (wRows (resolves [10; 0; 0; 1]%Z 300000000002))) a).1 = Ok ["http://static"]
  ∧ listedOk true false (5 - defaultDiscoveredTTL) (pastOf [(1%Z, Ok (wRows (resolves [8; 8; 8; 8]%Z 1)))]) (wRows (resolves [10; 0; 0; 1]%Z 5)) ["http://static"; "https://node/"].
Proof.
  cbn zeta. split; [vm_compute; reflexivity|]. split; [vm_compute; reflexivity|].
  apply (listing_backed true false 0 [(1%Z, Ok (wRows (resolves [8; 8; 8; 8]%Z 1)))] 5 (wRows (resolves [10; 0; 0; 1]%Z 5)) ["http://static"; "https://node/"]). vm_compute. reflexivity.
Defined.
