(* ===== verification/NetPolicy.v ===== *)
(** * NetPolicy: the transaction policy intake enforces

    Models [src/validator] (the effective policy and its replacement, the
    conversion to extended format and the classification of errors),
    [validatorPolicyFromConfig] of [src/app],
    [src/services/api_server/policy_refresher.go] (the policy observed on the
    network) and [policy_routes.go] (the policy that is advertised).  The
    script engine, the codec of go-bt and the parameters of the chain are
    arguments. *)
From stdpp Require Import base gmap strings list pretty.
From Stdlib Require Import Ascii ZArith Lia.
From Stdlib Require Import Strings.Byte.
From S2P Require Import Prelude Models StoreCore GoStrings Verdicts.

(** ** Errors with an ARC code *)

Record ArcError : Type := mkArcError { ae_Err : string; ae_StatusCode : Z; ae_ExtraInfo : string }.

Definition ArcError_Error (e : ArcError) : string :=
  if negb (String.eqb (ae_ExtraInfo e) "") then (ae_Err e ++ ": " ++ ae_ExtraInfo e)%string else ae_Err e.

Definition NewArcErrorWithInfo (err : string) (code : Z) (extraInfo : string) : ArcError := mkArcError err code extraInfo.

Definition StatusTxFormat : Z := 460.
Definition StatusUnlockingScripts : Z := 461.
Definition StatusInputs : Z := 462.
Definition StatusMalformed : Z := 463.
Definition StatusFees : Z := 465.
Definition StatusTxSize : Z := 474.

(** ** [validator/errmap.go] *)

Inductive tnCode : Type := ERR_PROCESSING | ERR_INVALID_ARGUMENT | ERR_OTHER.

(** An error of the validation: its text, whether it is or wraps
    [errMissingSourceData], and teranode's code if it has one. *)
Record vErr : Type := mkVErr { ve_text : string; ve_missing : bool; ve_tn : option tnCode }.

Definition classifyByMessage (msg : string) : ArcError :=
  let lower := ToLower msg in
  let code :=
    if Contains lower "fee is too low" || Contains lower "input satoshis is less than output" then StatusFees
    else if Contains lower "coinbase" || Contains lower "bad-txns-inputs-too-large" then StatusInputs
    else if Contains lower "oversize" || Contains lower "tx-size" || Contains lower "too big" then StatusTxSize
    else if Contains lower "gobdk" || Contains lower "script" then StatusUnlockingScripts
    else StatusGeneric in
  NewArcErrorWithInfo msg code msg.

Definition mapTeranodeError (err : vErr) : ArcError :=
  if ve_missing err then NewArcErrorWithInfo (ve_text err) StatusTxFormat (ve_text err)
  else
    match ve_tn err with
    | Some ERR_PROCESSING => NewArcErrorWithInfo (ve_text err) StatusGeneric (ve_text err)
    | Some ERR_INVALID_ARGUMENT => NewArcErrorWithInfo (ve_text err) StatusMalformed (ve_text err)
    | _ => classifyByMessage (ve_text err)
    end.

(** ** The validator *)

Definition allForksActiveHeight : Z := 2000000000.
Definition unknownParentHeight : Z := 2 ^ 32 - 1.
Definition maxTxSizePolicyConsensusLimit : Z := 1000000000.
Definition defaultMaxTxSizePolicy : Z := 10485760.
Definition defaultMaxScriptSizePolicy : Z := 500000.
Definition DefaultMinFeePerKB : Z := 100.

Record Policy : Type := mkPolicy {
  po_MaxTxSizePolicy : Z;
  po_MaxScriptSizePolicy : Z;
  po_MaxTxSigopsCountsPolicy : Z;
  po_MinFeePerKB : option Z
}.

(** What of the settings [buildSettings] gives an engine varies.  The fee is
    kept in satoshis per kB: its conversion to a float of BSV per kB and the
    settings that are constants are part of [NewTxValidator], the engine's
    constructor, which is a parameter. *)
Record settings : Type := mkSettings { se_MaxTxSize : Z; se_MaxScriptSize : Z; se_MaxSigops : Z; se_MinFeePerKB : Z }.

Definition resolveMaxTxSize (v : Z) : Z :=
  if (v <=? 0)%Z then defaultMaxTxSizePolicy
  else if (maxTxSizePolicyConsensusLimit <? v)%Z then maxTxSizePolicyConsensusLimit
  else v.

Definition resolveMaxScriptSize (v maxTxSize : Z) : Z :=
  let v := if (v <=? 0)%Z then defaultMaxScriptSizePolicy else v in
  if (maxTxSize <? v)%Z then maxTxSize else v.

Definition clampToInt (v : Z) : Z := if (maxInt64 <? v)%Z then maxInt64 else v.

(** An input as the submission carries it, and as the engine reads it. *)
Record sdkInput : Type := mkSdkInput { SourceTxSatoshis : option Z; SourceTxScript : option (list byte) }.
Record btInput : Type := mkBtInput { PreviousTxSatoshis : Z; PreviousTxScript : list byte }.

Section Validator.
(** The engine: its construction, which may panic, and its verdict on the
    bytes of a transaction with its extended inputs; and go-bt's reading of
    the bytes, of which the number of inputs matters. *)
Context {TxValidator : Type} (NewTxValidator : settings -> option TxValidator).
Context (engineValidate : TxValidator -> list byte -> list btInput -> Z -> list Z -> option vErr).
Context (NewTxFromBytes : list byte -> nat + string).

Record effectivePolicy : Type := mkEffectivePolicy {
  tv : TxValidator;
  tvNoFee : TxValidator;
  minFeePerKB : Z;
  maxTxSizePolicy : Z;
  maxScriptSizePolicy : Z;
  maxTxSigopsCountsPolicy : Z
}.

(** [NewValidatorForNetwork] on a known network; [None] is a panic. *)
Definition NewValidatorForNetwork (policy : option Policy) : option effectivePolicy :=
  let minFee := default DefaultMinFeePerKB (policy ≫= po_MinFeePerKB) in
  let maxTxSize := resolveMaxTxSize (default 0%Z (po_MaxTxSizePolicy <$> policy)) in
  let maxScriptSize := resolveMaxScriptSize (default 0%Z (po_MaxScriptSizePolicy <$> policy)) maxTxSize in
  let maxSigops := match policy with Some p => if (0 <? po_MaxTxSigopsCountsPolicy p)%Z then po_MaxTxSigopsCountsPolicy p else 0%Z | None => 0%Z end in
  t ← NewTxValidator (mkSettings maxTxSize maxScriptSize maxSigops minFee);
  n ← NewTxValidator (mkSettings maxTxSize maxScriptSize maxSigops 0);
  Some (mkEffectivePolicy t n minFee maxTxSize maxScriptSize maxSigops).

(** A panic while an engine is built leaves the policy as it is. *)
Definition SetNetworkPolicy (minFee maxTxSize maxScriptSize : Z) (cur : effectivePolicy) : effectivePolicy :=
  let txSize := resolveMaxTxSize (clampToInt maxTxSize) in
  let scriptSize := resolveMaxScriptSize (clampToInt maxScriptSize) txSize in
  if (minFeePerKB cur =? minFee)%Z && (maxTxSizePolicy cur =? txSize)%Z && (maxScriptSizePolicy cur =? scriptSize)%Z then cur
  else
    let sigops := maxTxSigopsCountsPolicy cur in
    default cur
      (t ← NewTxValidator (mkSettings txSize scriptSize sigops minFee);
       n ← (if negb (maxTxSizePolicy cur =? txSize)%Z || negb (maxScriptSizePolicy cur =? scriptSize)%Z
            then NewTxValidator (mkSettings txSize scriptSize sigops 0)
            else Some (tvNoFee cur));
       Some (mkEffectivePolicy t n minFee txSize scriptSize sigops)).

Definition SetMinFeePerKB (minFee : Z) (cur : effectivePolicy) : effectivePolicy :=
  SetNetworkPolicy minFee (maxTxSizePolicy cur) (maxScriptSizePolicy cur) cur.

(** *** A transaction *)

(** The source data of every input, or the first that lacks it. *)
Fixpoint extendInputs (i : nat) (inputs : list sdkInput) : list btInput + vErr :=
  match inputs with
  | [] => inl []
  | inp :: inputs =>
      match SourceTxSatoshis inp, SourceTxScript inp with
      | Some sats, Some lock =>
          match extendInputs (S i) inputs with
          | inl rest => inl (mkBtInput sats lock :: rest)
          | inr e => inr e
          end
      | _, _ => inr (mkVErr ("transaction could not be transformed to extended format: missing input source data: input " ++ pretty i) true None)
      end
  end.

Definition toExtendedBT (raw : list byte) (inputs : list sdkInput) : list btInput + vErr :=
  match NewTxFromBytes raw with
  | inr text => inr (mkVErr ("re-parse transaction into go-bt: " ++ text) false None)
  | inl n =>
      if negb (n =? length inputs)%nat
      then inr (mkVErr ("input count mismatch after re-parse: bt=" ++ pretty n ++ " sdk=" ++ pretty (length inputs)) false None)
      else extendInputs 0 inputs
  end.

Definition ValidateTransaction (eff : effectivePolicy) (raw : list byte) (inputs : list sdkInput) (skipFees : bool) : option ArcError :=
  match toExtendedBT raw inputs with
  | inr e => Some (mapTeranodeError e)
  | inl btx =>
      let utxoHeights := replicate (length btx) unknownParentHeight in
      let t := if skipFees then tvNoFee eff else tv eff in
      mapTeranodeError <$> engineValidate t raw btx allForksActiveHeight utxoHeights
  end.
End Validator.
Arguments effectivePolicy TxValidator : clear implicits.

(** ** [policy_refresher.go] *)

Record validatorConfig : Type := mkValidatorConfig {
  vc_AcceptZeroFee : bool;
  vc_MinFeePerKB : Z;
  vc_MaxTxSizePolicy : Z;
  vc_MaxScriptSizePolicy : Z;
  vc_MaxTxSigopsCountsPolicy : Z;
  vc_ObservedFeeTTLMs : Z;
  vc_ObservedFeeRefreshMs : Z;
  vc_DisableFinalityCheck : bool;
  vc_StandardFormatSupported : bool
}.

(** [validatorPolicyFromConfig]: the policy the validator is built with. *)
Definition validatorPolicyFromConfig (vc : validatorConfig) : Policy :=
  mkPolicy (int64 (vc_MaxTxSizePolicy vc)) (int64 (vc_MaxScriptSizePolicy vc)) (vc_MaxTxSigopsCountsPolicy vc)
    (if vc_AcceptZeroFee vc then Some 0%Z else if negb (vc_MinFeePerKB vc =? 0)%Z then Some (vc_MinFeePerKB vc) else None).

Definition DefaultValidatorMinFeePerKB : Z := 100.
Definition DefaultValidatorMaxTxSizePolicy : Z := 10485760.
Definition DefaultValidatorMaxScriptSizePolicy : Z := 500000.
Definition DefaultValidatorObservedFeeTTLMs : Z := 900000.
Definition DefaultValidatorObservedFeeRefreshMs : Z := 30000.
Definition minDiscoveredFeePerKB : Z := 1.

Definition feePinned (vc : validatorConfig) : bool := vc_AcceptZeroFee vc || negb (vc_MinFeePerKB vc =? 0)%Z.
Definition maxTxSizePinned (vc : validatorConfig) : bool := negb (vc_MaxTxSizePolicy vc =? 0)%Z.
Definition maxScriptSizePinned (vc : validatorConfig) : bool := negb (vc_MaxScriptSizePolicy vc =? 0)%Z.
Definition policyTracked (vc : validatorConfig) : bool := negb (feePinned vc) || negb (maxTxSizePinned vc) || negb (maxScriptSizePinned vc).
Definition observedFeeTTLMs (vc : validatorConfig) : Z :=
  if (vc_ObservedFeeTTLMs vc =? 0)%Z then DefaultValidatorObservedFeeTTLMs else vc_ObservedFeeTTLMs vc.

(** The period of the refreshes. *)
Definition observedFeeRefreshMs (vc : validatorConfig) : Z :=
  if (vc_ObservedFeeRefreshMs vc =? 0)%Z then DefaultValidatorObservedFeeRefreshMs else vc_ObservedFeeRefreshMs vc.

Definition ceilFeePerKB (satoshis bytes : Z) : Z :=
  let scale := 1000%Z in
  let whole := (satoshis / bytes)%Z in
  let rem := (satoshis mod bytes)%Z in
  if (maxUint64 / scale <? whole)%Z || (maxUint64 / scale <? rem)%Z then maxUint64
  else
    let base := uint64 (whole * scale) in
    let remScaled := uint64 (rem * scale) in
    let add := (remScaled / bytes)%Z in
    let add := if negb (remScaled mod bytes =? 0)%Z then uint64 (add + 1) else add in
    if (maxUint64 - add <? base)%Z then maxUint64 else uint64 (base + add).

(** Heard within the time to live, or at an unknown time. *)
Definition freshPeer (cutoff : Z) (p : PeerPolicy) : bool :=
  match PP_LastSeen p with None => true | Some t => negb (t <? cutoff)%Z end.

Fixpoint lowestLoop (cutoff : Z) (peers : list PeerPolicy) (best : option (Z * string)) : option (Z * string) :=
  match peers with
  | [] => best
  | p :: peers =>
      if (PP_MiningFeeBytes p =? 0)%Z || negb (freshPeer cutoff p) then lowestLoop cutoff peers best
      else
        let perKB := ceilFeePerKB (PP_MiningFeeSatoshis p) (PP_MiningFeeBytes p) in
        lowestLoop cutoff peers (match best with
                                 | Some (b, _) => if (perKB <? b)%Z then Some (perKB, PP_PeerID p) else best
                                 | None => Some (perKB, PP_PeerID p)
                                 end)
  end.

Definition lowestObservedFeePerKB (peers : list PeerPolicy) (ttl now : Z) : option (Z * string) := lowestLoop (now - ttl) peers None.

Definition discoveredFeePerKB (peers : list PeerPolicy) (ttl now : Z) : Z * string :=
  match lowestObservedFeePerKB peers ttl now with
  | None => (DefaultValidatorMinFeePerKB, "")
  | Some (observed, peerID) => if (observed <? minDiscoveredFeePerKB)%Z then (minDiscoveredFeePerKB, peerID) else (observed, peerID)
  end.

Fixpoint highestLoop (cutoff : Z) (pick : PeerPolicy -> Z) (peers : list PeerPolicy) (best : option Z) : option Z :=
  match peers with
  | [] => best
  | p :: peers =>
      if (pick p =? 0)%Z || negb (freshPeer cutoff p) then highestLoop cutoff pick peers best
      else highestLoop cutoff pick peers (match best with Some b => if (b <? pick p)%Z then Some (pick p) else best | None => Some (pick p) end)
  end.

Definition highestObservedLimit (peers : list PeerPolicy) (ttl now : Z) (pick : PeerPolicy -> Z) : option Z := highestLoop (now - ttl) pick peers None.

Definition discoveredLimit (peers : list PeerPolicy) (ttl now : Z) (pick : PeerPolicy -> Z) (floor : Z) : Z :=
  match highestObservedLimit peers ttl now pick with
  | Some observed => if (observed <? floor)%Z then floor else observed
  | None => floor
  end.

Section Refresher.
Context {TxValidator : Type} (NewTxValidator : settings -> option TxValidator).

(** One refresh: the answer of the store and the time after it.  The
    validator is the state. *)
Definition refreshPolicyOnce (vc : validatorConfig) (peers : Res (list PeerPolicy)) (now : Z) (v : effectivePolicy TxValidator) : effectivePolicy TxValidator :=
  match peers with
  | Err _ => v
  | Ok peers =>
      let ttl := int64 (observedFeeTTLMs vc * 1000000) in
      let fee := if feePinned vc then minFeePerKB v else (discoveredFeePerKB peers ttl now).1 in
      let maxTxSize := if maxTxSizePinned vc then vc_MaxTxSizePolicy vc else discoveredLimit peers ttl now PP_MaxTxSizePolicy DefaultValidatorMaxTxSizePolicy in
      let maxScriptSize := if maxScriptSizePinned vc then vc_MaxScriptSizePolicy vc else discoveredLimit peers ttl now PP_MaxScriptSizePolicy DefaultValidatorMaxScriptSizePolicy in
      SetNetworkPolicy NewTxValidator fee maxTxSize maxScriptSize v
  end.

(** [runPolicyRefresher]: a refresh at the start and at every tick. *)
Definition runPolicyRefresher (vc : validatorConfig) (ticks : list (Res (list PeerPolicy) * Z)) (v : effectivePolicy TxValidator) : effectivePolicy TxValidator :=
  foldl (fun v '(peers, now) => refreshPolicyOnce vc peers now v) v ticks.

(** ** [policy_routes.go] *)

Definition miningFeeBytesBasis : Z := 1000.
Definition arcUnlimitedSigops : Z := 4294967295.
Definition arcSigops (internal : Z) : Z := if (internal =? 0)%Z then arcUnlimitedSigops else internal.
Definition firstNonZero (v fallback : Z) : Z := if (v =? 0)%Z then fallback else v.

Record advertised : Type := mkAdvertised {
  ad_Satoshis : Z;
  ad_Bytes : Z;
  ad_MaxTxSize : Z;
  ad_MaxScriptSize : Z;
  ad_MaxSigops : Z;
  ad_StandardFormat : bool
}.

Definition resolveMiningFee (vc : validatorConfig) (v : option (effectivePolicy TxValidator)) : Z * Z :=
  match v with
  | Some v => (minFeePerKB v, miningFeeBytesBasis)
  | None =>
      if vc_AcceptZeroFee vc then (0%Z, miningFeeBytesBasis)
      else if negb (vc_MinFeePerKB vc =? 0)%Z then (vc_MinFeePerKB vc, miningFeeBytesBasis)
      else (DefaultValidatorMinFeePerKB, miningFeeBytesBasis)
  end.

Definition handlePolicy (vc : validatorConfig) (v : option (effectivePolicy TxValidator)) : advertised :=
  let '(sats, byts) := resolveMiningFee vc v in
  match v with
  | Some v => mkAdvertised sats byts (maxTxSizePolicy v) (maxScriptSizePolicy v) (arcSigops (maxTxSigopsCountsPolicy v)) (vc_StandardFormatSupported vc)
  | None =>
      mkAdvertised sats byts (firstNonZero (vc_MaxTxSizePolicy vc) DefaultValidatorMaxTxSizePolicy)
        (firstNonZero (vc_MaxScriptSizePolicy vc) DefaultValidatorMaxScriptSizePolicy) (arcSigops (vc_MaxTxSigopsCountsPolicy vc)) (vc_StandardFormatSupported vc)
  end.
End Refresher.
