(* ===== verification/NetPolicyProps.v ===== *)
(** * NetPolicyProps: what is advertised is what is enforced, and it is bounded

    The arithmetic of the observed fee, the choice among the peers, the
    invariant of the validator under every sequence of refreshes, and the
    classification of a refused transaction. *)
From stdpp Require Import base gmap strings list pretty.
From Stdlib Require Import Ascii ZArith Lia.
From Stdlib Require Import Strings.Byte.
From S2P Require Import Prelude Models StoreCore GoStrings Verdicts NetPolicy.

(** ** The fee of one peer *)

Lemma ceilFee_parts s b (q := (s / b)%Z) (r := (s mod b)%Z) :
  (0 <= s)%Z -> (0 < b)%Z -> (s * 1000 = (q * 1000) * b + r * 1000 ∧ 0 <= r < b ∧ 0 <= q)%Z.
Proof. intros Hs Hb. unfold q, r. pose proof (Z.div_mod s b ltac:(lia)). pose proof (Z.mod_pos_bound s b Hb). pose proof (Z.div_pos s b Hs Hb). split_and!; nia. Qed.

(** [ceil (x / b)], as the code rounds. *)
Lemma round_up x b : (0 <= x)%Z -> (0 < b)%Z -> (x / b + (if negb (x mod b =? 0)%Z then 1 else 0) = (x + b - 1) / b)%Z.
Proof.
  intros Hx Hb. pose proof (Z.div_mod x b ltac:(lia)) as Hd. pose proof (Z.mod_pos_bound x b Hb) as Hm. destruct (Z.eqb_spec (x mod b) 0) as [E|E]; cbn [negb].
  - apply (Z.div_unique_pos _ _ _ (b - 1)); nia.
  - apply (Z.div_unique_pos _ _ _ (x mod b - 1)); nia.
Qed.

Lemma uint64_small z : (0 <= z <= maxUint64)%Z -> uint64 z = z.
Proof. unfold uint64, maxUint64. intros ?. apply Z.mod_small. lia. Qed.

Lemma ceilFeePerKB_spec s b :
  is_u64 s -> is_u64 b -> (0 < b)%Z ->
  (0 <= ceilFeePerKB s b <= maxUint64)%Z
  ∧ (s * 1000 <= ceilFeePerKB s b * b ∨ ceilFeePerKB s b = maxUint64)%Z
  ∧ ((s mod b <= maxUint64 / 1000)%Z -> ceilFeePerKB s b = Z.min maxUint64 ((s * 1000 + b - 1) / b)).
Proof.
  intros Hs Hb Hp. destruct (ceilFee_parts s b) as (E & Hr & Hq); [destruct Hs; lia|done|]. unfold ceilFeePerKB. set (q := (s / b)%Z) in *. set (r := (s mod b)%Z) in *. cbn zeta.
  assert (((s * 1000 + b - 1) / b = q * 1000 + (r * 1000 + b - 1) / b)%Z) as Eceil.
  { rewrite E. replace (q * 1000 * b + r * 1000 + b - 1)%Z with (q * 1000 * b + (r * 1000 + b - 1))%Z by lia. by rewrite Z.div_add_l by lia. }
  assert (0 <= (r * 1000 + b - 1) / b)%Z as Ha by (apply Z.div_pos; lia).
  destruct (Z.ltb_spec (maxUint64 / 1000) q) as [H1|H1]; cbn [orb].
  { split; [unfold maxUint64; lia|]; split; [by right|]. intros _. rewrite Z.min_l; [done|]. assert (maxUint64 <= maxUint64 / 1000 * 1000 + 1000)%Z by by vm_compute. rewrite Eceil. lia. }
  destruct (Z.ltb_spec (maxUint64 / 1000) r) as [H2|H2]; [split; [unfold maxUint64; lia|]; split; [by right|lia]|].
  assert (maxUint64 / 1000 * 1000 <= maxUint64)%Z as Hm by by vm_compute.
  rewrite !(uint64_small (q * 1000)), !(uint64_small (r * 1000)) by nia.
  pose proof (round_up (r * 1000) b ltac:(lia) Hp) as Hru.
  assert ((r * 1000 + b - 1) / b <= 1000)%Z as Hle by (apply Z.lt_succ_r, Z.div_lt_upper_bound; lia).
  set (a := (if negb (r * 1000 mod b =? 0)%Z then uint64 (r * 1000 / b + 1) else r * 1000 / b)%Z).
  assert (a = (r * 1000 + b - 1) / b)%Z as ->.
  { unfold a. pose proof (Z.div_pos (r * 1000) b ltac:(lia) Hp). destruct (negb _); [|lia]. rewrite uint64_small; [lia|]. split; [lia|]. unfold maxUint64. lia. }
  set (a := ((r * 1000 + b - 1) / b)%Z) in *.
  destruct (Z.ltb_spec (maxUint64 - a) (q * 1000)) as [H3|H3].
  - split; [unfold maxUint64; lia|]; split; [by right|]. intros _. rewrite Eceil. lia.
  - rewrite uint64_small by lia. split; [lia|]; split; [|intros _; rewrite Eceil; lia].
    left. rewrite E. assert (r * 1000 <= a * b)%Z; [|lia]. unfold a.
    pose proof (Z.div_mod (r * 1000 + b - 1) b ltac:(lia)). pose proof (Z.mod_pos_bound (r * 1000 + b - 1) b Hp). nia.
Qed.

(** ** The choice among the peers *)

(** A peer whose fee counts. *)
Definition counts (cutoff : Z) (p : PeerPolicy) : bool := negb (PP_MiningFeeBytes p =? 0)%Z && freshPeer cutoff p.
Definition rate (p : PeerPolicy) : Z := ceilFeePerKB (PP_MiningFeeSatoshis p) (PP_MiningFeeBytes p).

Lemma lowestLoop_spec cutoff peers best :
  match lowestLoop cutoff peers best with
  | None => best = None ∧ ∀ p, p ∈ peers -> counts cutoff p = false
  | Some (f, id) =>
      (best = Some (f, id) ∨ ∃ p, p ∈ peers ∧ counts cutoff p = true ∧ PP_PeerID p = id ∧ rate p = f)
      ∧ (∀ p, p ∈ peers -> counts cutoff p = true -> (f <= rate p)%Z) ∧ (∀ b i, best = Some (b, i) -> (f <= b)%Z)
  end.
Proof.
  revert best. induction peers as [|p peers IH]; intros best; cbn [lowestLoop].
  { destruct best as [[f id]|]; [split_and!; [by left|by intros ? ?%elem_of_nil|intros ? ? [= -> ->]; lia]|]. split; [done|]. by intros ? ?%elem_of_nil. }
  assert (negb (counts cutoff p) = (PP_MiningFeeBytes p =? 0)%Z || negb (freshPeer cutoff p)) as <- by (unfold counts; by destruct (_ =? 0)%Z, (freshPeer _ _)).
  fold (rate p). destruct (counts cutoff p) eqn:Ec; cbn [negb].
  2: { specialize (IH best). destruct (lowestLoop cutoff peers best) as [[f id]|].
       - destruct IH as (H1 & H2 & H3). split_and!; [destruct H1 as [?|(x & ? & ?)]; [by left|right; exists x; split; [by right|done]]| |done].
         intros x [->|Hx]%elem_of_cons ?; [congruence|by apply H2].
       - destruct IH as [-> H]. split; [done|]. intros x [->|Hx]%elem_of_cons; [done|by apply H]. }
  set (best' := match best with Some (b, _) => if (rate p <? b)%Z then Some (rate p, PP_PeerID p) else best | None => Some (rate p, PP_PeerID p) end).
  assert (∃ b i, best' = Some (b, i) ∧ (b <= rate p)%Z ∧ (∀ b0 i0, best = Some (b0, i0) -> (b <= b0)%Z) ∧ (best = Some (b, i) ∨ (b = rate p ∧ i = PP_PeerID p))) as (b & i & Eb & Hb1 & Hb2 & Hb3).
  { unfold best'. destruct best as [[b i]|]; [destruct (Z.ltb_spec (rate p) b)|].
    - exists (rate p), (PP_PeerID p). split_and!; [done|lia|intros ? ? [= -> ->]; lia|by right].
    - exists b, i. split_and!; [done|lia|intros ? ? [= -> ->]; lia|by left].
    - exists (rate p), (PP_PeerID p). split_and!; [done|lia|done|by right]. }
  specialize (IH best'). rewrite Eb in IH |- *. destruct (lowestLoop cutoff peers _) as [[f id]|]; [|by destruct IH].
  destruct IH as (H1 & H2 & H3). specialize (H3 b i eq_refl). split_and!.
  - destruct H1 as [[= <- <-]|(x & ? & ?)]; [|right; exists x; split; [by right|done]].
    destruct Hb3 as [?|[-> ->]]; [by left|right]. exists p. split_and!; try done. by left.
  - intros x [->|Hx]%elem_of_cons ?; [lia|by apply H2].
  - intros b0 i0 E0. specialize (Hb2 b0 i0 E0). lia.
Qed.

Lemma highestLoop_spec cutoff pick peers best :
  let r := highestLoop cutoff pick peers best in
  (∀ v, r = Some v -> best = Some v ∨ ∃ p, p ∈ peers ∧ freshPeer cutoff p = true ∧ pick p = v)
  ∧ (∀ p, p ∈ peers -> freshPeer cutoff p = true -> pick p ≠ 0%Z -> ∃ v, r = Some v ∧ (pick p <= v)%Z)
  ∧ (∀ b, best = Some b -> ∃ v, r = Some v ∧ (b <= v)%Z).
Proof.
  revert best. induction peers as [|p peers IH]; intros best; cbn [highestLoop].
  { split_and!; [intros v ->; by left|by intros ? ?%elem_of_nil|intros b ->; exists b; split; [done|lia]]. }
  destruct ((pick p =? 0)%Z || negb (freshPeer cutoff p)) eqn:Ec.
  { destruct (IH best) as (H1 & H2 & H3). split_and!; [|intros x [->|Hx]%elem_of_cons Hf Hn; [|by apply H2]|done].
    - intros v E. destruct (H1 v E) as [?|(x & ? & ?)]; [by left|right; exists x; split; [by right|done]].
    - rewrite Hf, orb_false_r in Ec. apply Z.eqb_eq in Ec. congruence. }
  apply orb_false_iff in Ec as [En Ef%negb_false_iff]. set (best' := match best with Some b => _ | None => _ end).
  assert (∃ b, best' = Some b ∧ (pick p <= b)%Z ∧ (∀ b0, best = Some b0 -> (b0 <= b)%Z) ∧ (best = Some b ∨ b = pick p)) as (b & Eb & Hb1 & Hb2 & Hb3).
  { unfold best'. destruct best as [b|]; [destruct (Z.ltb_spec b (pick p))|].
    - exists (pick p). split_and!; [done|lia|intros ? [= ->]; lia|by right].
    - exists b. split_and!; [done|lia|intros ? [= ->]; lia|by left].
    - exists (pick p). split_and!; [done|lia|done|by right]. }
  destruct (IH best') as (H1 & H2 & H3). destruct (H3 b Eb) as (v & Ev & Hv). split_and!.
  - intros v' E'. destruct (H1 v' E') as [E1|(x & ? & ?)]; [|right; exists x; split; [by right|done]]. rewrite Eb in E1. injection E1 as <-.
    destruct Hb3 as [?| ->]; [by left|right]. exists p. split_and!; try done. by left.
  - intros x [->|Hx]%elem_of_cons Hf Hn; [exists v; split; [done|lia]|by apply H2].
  - intros b0 E0. specialize (Hb2 b0 E0). exists v. split; [done|lia].
Qed.

(** C36: Observation is bounded on the safe side.  A peer's rate is never rounded
    below what it asks: it is the exact ceiling, or the largest number when
    that does not fit, and the exact ceiling whenever the remainder can be
    scaled.  The fee taken from the network is at least one satoshi per kB,
    is the rate of the peer it names, and no fresh peer asks for less; with
    no fresh peer it is the default.  A size limit is never below the built
    in one, admits what any fresh peer admits, and is one of these. *)
Theorem observed_policy_bounds peers ttl now pick floor s b :
  (is_u64 s -> is_u64 b -> (0 < b)%Z ->
     (0 <= ceilFeePerKB s b <= maxUint64)%Z ∧ (s * 1000 <= ceilFeePerKB s b * b ∨ ceilFeePerKB s b = maxUint64)%Z
     ∧ ((s mod b <= maxUint64 / 1000)%Z -> ceilFeePerKB s b = Z.min maxUint64 ((s * 1000 + b - 1) / b)))
  ∧ (let '(f, id) := discoveredFeePerKB peers ttl now in
     (1 <= f)%Z
     ∧ ((∃ p, p ∈ peers ∧ counts (now - ttl) p = true ∧ PP_PeerID p = id ∧ f = Z.max 1 (rate p))
        ∨ f = DefaultValidatorMinFeePerKB ∧ ∀ p, p ∈ peers -> counts (now - ttl) p = false)
     ∧ ∀ p, p ∈ peers -> counts (now - ttl) p = true -> (f <= Z.max 1 (rate p))%Z)
  ∧ (let l := discoveredLimit peers ttl now pick floor in
     (floor <= l)%Z ∧ (∀ p, p ∈ peers -> freshPeer (now - ttl) p = true -> pick p ≠ 0%Z -> (pick p <= l)%Z)
     ∧ (l = floor ∨ ∃ p, p ∈ peers ∧ freshPeer (now - ttl) p = true ∧ pick p = l)).
Proof.
  split; [apply ceilFeePerKB_spec|]; split.
  - unfold discoveredFeePerKB, lowestObservedFeePerKB, minDiscoveredFeePerKB. pose proof (lowestLoop_spec (now - ttl) peers None) as Hl.
    destruct (lowestLoop (now - ttl) peers None) as [[f id]|].
    + destruct Hl as ([?|(p & Hin & Hc & Hid & Hr)] & Hmin & _); [done|].
      destruct (Z.ltb_spec f 1); (split_and!; [lia|left; exists p; split_and!; try done; lia|intros q Hq Hqc; specialize (Hmin q Hq Hqc); lia]).
    + destruct Hl as [_ Hn]. split_and!; [unfold DefaultValidatorMinFeePerKB; lia|right; by split|]. intros p Hin Hc. rewrite Hn in Hc; done.
  - unfold discoveredLimit, highestObservedLimit. destruct (highestLoop_spec (now - ttl) pick peers None) as (H1 & H2 & _).
    destruct (highestLoop (now - ttl) pick peers None) as [v|] eqn:E.
    + destruct (Z.ltb_spec v floor) as [Hlt|Hge]; (split_and!; [lia| |]).
      * intros p Hin Hf Hn. destruct (H2 p Hin Hf Hn) as (v' & [= <-] & ?). lia.
      * by left.
      * intros p Hin Hf Hn. by destruct (H2 p Hin Hf Hn) as (v' & [= <-] & ?).
      * right. destruct (H1 v eq_refl) as [?|(p & ?)]; [done|by exists p].
    + split_and!; [lia|intros p Hin Hf Hn; by destruct (H2 p Hin Hf Hn) as (v' & ? & _)|by left].
Qed.

(** ** The validator under refreshes *)

Lemma resolveMaxTxSize_range v : (0 < resolveMaxTxSize v <= maxTxSizePolicyConsensusLimit)%Z.
Proof. unfold resolveMaxTxSize, defaultMaxTxSizePolicy, maxTxSizePolicyConsensusLimit. destruct (Z.leb_spec v 0); [lia|]. destruct (Z.ltb_spec 1000000000 v); lia. Qed.
Lemma resolveMaxScriptSize_range v m : (0 < m)%Z -> (0 < resolveMaxScriptSize v m <= m)%Z.
Proof.
  intros Hm. unfold resolveMaxScriptSize, defaultMaxScriptSizePolicy. destruct (Z.leb_spec v 0);
    [destruct (Z.ltb_spec m 500000)|destruct (Z.ltb_spec m v)]; lia.
Qed.

Section Invariant.
Context {TxValidator : Type} (NewTxValidator : settings -> option TxValidator).

(** The engines are those of the policy, and the policy is within bounds. *)
Definition enforced (v : effectivePolicy TxValidator) : Prop :=
  NewTxValidator (mkSettings (maxTxSizePolicy v) (maxScriptSizePolicy v) (maxTxSigopsCountsPolicy v) (minFeePerKB v)) = Some (tv v)
  ∧ NewTxValidator (mkSettings (maxTxSizePolicy v) (maxScriptSizePolicy v) (maxTxSigopsCountsPolicy v) 0) = Some (tvNoFee v)
  ∧ (0 < maxTxSizePolicy v <= maxTxSizePolicyConsensusLimit)%Z ∧ (0 < maxScriptSizePolicy v <= maxTxSizePolicy v)%Z.

Lemma NewValidatorForNetwork_enforced policy v : NewValidatorForNetwork NewTxValidator policy = Some v -> enforced v.
Proof.
  unfold NewValidatorForNetwork. cbn zeta. intros E. apply bind_Some in E as (t & Et & E). apply bind_Some in E as (n & En & [= <-]).
  pose proof (resolveMaxTxSize_range (default 0%Z (po_MaxTxSizePolicy <$> policy))) as H1. unfold enforced. cbn [maxTxSizePolicy maxScriptSizePolicy maxTxSigopsCountsPolicy minFeePerKB tv tvNoFee].
  split; [done|]. split; [done|]. split; [done|]. apply resolveMaxScriptSize_range, H1.
Qed.

(** A replacement is whole or not at all. *)
Lemma SetNetworkPolicy_spec fee tx script v :
  enforced v ->
  let v' := SetNetworkPolicy NewTxValidator fee tx script v in
  enforced v' ∧ maxTxSigopsCountsPolicy v' = maxTxSigopsCountsPolicy v
  ∧ (v' = v ∨ minFeePerKB v' = fee ∧ maxTxSizePolicy v' = resolveMaxTxSize (clampToInt tx)
              ∧ maxScriptSizePolicy v' = resolveMaxScriptSize (clampToInt script) (resolveMaxTxSize (clampToInt tx))).
Proof.
  intros Hv. cbn zeta. unfold SetNetworkPolicy. cbn zeta. set (txSize := resolveMaxTxSize (clampToInt tx)). set (scriptSize := resolveMaxScriptSize (clampToInt script) txSize).
  destruct ((minFeePerKB v =? fee)%Z && _ && _); [split; [done|]; split; [done|by left]|].
  destruct (NewTxValidator (mkSettings txSize scriptSize (maxTxSigopsCountsPolicy v) fee)) as [t|] eqn:Et; cbn [mbind option_bind default]; [|split; [done|]; split; [done|by left]].
  destruct (if negb _ || negb _ then _ else _) as [n|] eqn:En; cbn [mbind option_bind default]; [|split; [done|]; split; [done|by left]].
  split; [|split; [done|by right]]. unfold enforced. cbn [maxTxSizePolicy maxScriptSizePolicy maxTxSigopsCountsPolicy minFeePerKB tv tvNoFee].
  split; [done|]. split.
  - destruct (Z.eqb_spec (maxTxSizePolicy v) txSize) as [E1|]; [destruct (Z.eqb_spec (maxScriptSizePolicy v) scriptSize) as [E2|]|]; cbn [negb orb] in En; try done.
    destruct Hv as (_ & Hn & _). injection En as <-. by rewrite <-E1, <-E2.
  - pose proof (resolveMaxTxSize_range (clampToInt tx)) as H1. split; [done|]. apply resolveMaxScriptSize_range, H1.
Qed.

Lemma widened l : (DefaultValidatorMaxTxSizePolicy <= l)%Z -> (DefaultValidatorMaxTxSizePolicy <= resolveMaxTxSize (clampToInt l))%Z.
Proof.
  unfold DefaultValidatorMaxTxSizePolicy, resolveMaxTxSize, clampToInt, defaultMaxTxSizePolicy, maxTxSizePolicyConsensusLimit. intros Hl.
  assert (10485760 <= maxInt64)%Z by by vm_compute. destruct (Z.ltb_spec maxInt64 l); [destruct (Z.leb_spec maxInt64 0); [lia|]; destruct (Z.ltb_spec 1000000000 maxInt64); lia|].
  destruct (Z.leb_spec l 0); [lia|]. destruct (Z.ltb_spec 1000000000 l); lia.
Qed.

Lemma widenedScript l m : (0 < m)%Z -> (DefaultValidatorMaxScriptSizePolicy <= l)%Z -> (Z.min DefaultValidatorMaxScriptSizePolicy m <= resolveMaxScriptSize (clampToInt l) m)%Z.
Proof.
  unfold DefaultValidatorMaxScriptSizePolicy, resolveMaxScriptSize, clampToInt, defaultMaxScriptSizePolicy. intros Hm Hl. assert (500000 <= maxInt64)%Z by by vm_compute.
  destruct (Z.ltb_spec maxInt64 l); [destruct (Z.leb_spec maxInt64 0); [lia|]; destruct (Z.ltb_spec m maxInt64); lia|].
  destruct (Z.leb_spec l 0); [lia|]. destruct (Z.ltb_spec m l); lia.
Qed.

(** A configuration whose sizes fit the machine's integers. *)
Definition sane (vc : validatorConfig) : Prop :=
  (0 <= vc_MinFeePerKB vc)%Z ∧ (0 <= vc_MaxTxSizePolicy vc <= maxInt64)%Z ∧ (0 <= vc_MaxScriptSizePolicy vc <= maxInt64)%Z.

(** What holds of the policy at all times: each part is the operator's, or
    bounded on the safe side. *)
Definition governed (vc : validatorConfig) (v : effectivePolicy TxValidator) : Prop :=
  enforced v ∧ maxTxSigopsCountsPolicy v = Z.max 0 (vc_MaxTxSigopsCountsPolicy vc)
  ∧ (if vc_AcceptZeroFee vc then minFeePerKB v = 0 else if negb (vc_MinFeePerKB vc =? 0) then minFeePerKB v = vc_MinFeePerKB vc else 1 <= minFeePerKB v)%Z
  ∧ (if maxTxSizePinned vc then maxTxSizePolicy v = Z.min (vc_MaxTxSizePolicy vc) maxTxSizePolicyConsensusLimit else DefaultValidatorMaxTxSizePolicy <= maxTxSizePolicy v)%Z
  ∧ (if maxScriptSizePinned vc then maxScriptSizePolicy v = Z.min (vc_MaxScriptSizePolicy vc) (maxTxSizePolicy v)
     else Z.min DefaultValidatorMaxScriptSizePolicy (maxTxSizePolicy v) <= maxScriptSizePolicy v)%Z.

Lemma pinnedTx x : (0 < x)%Z -> resolveMaxTxSize x = Z.min x maxTxSizePolicyConsensusLimit.
Proof. intros Hx. unfold resolveMaxTxSize. destruct (Z.leb_spec x 0); [lia|]. destruct (Z.ltb_spec maxTxSizePolicyConsensusLimit x); lia. Qed.
Lemma pinnedScript x m : (0 < x)%Z -> resolveMaxScriptSize x m = Z.min x m.
Proof. intros Hx. unfold resolveMaxScriptSize. destruct (Z.leb_spec x 0); [lia|]. destruct (Z.ltb_spec m x); lia. Qed.
Lemma clampToInt_small x : (x <= maxInt64)%Z -> clampToInt x = x.
Proof. intros Hx. unfold clampToInt. destruct (Z.ltb_spec maxInt64 x); lia. Qed.

Lemma initial_governed vc v0 : sane vc -> NewValidatorForNetwork NewTxValidator (Some (validatorPolicyFromConfig vc)) = Some v0 -> governed vc v0.
Proof.
  intros (Hf & Ht & Hs) E. split; [by eapply NewValidatorForNetwork_enforced|]. revert E. unfold NewValidatorForNetwork, validatorPolicyFromConfig. cbn zeta.
  cbn [po_MaxTxSizePolicy po_MaxScriptSizePolicy po_MaxTxSigopsCountsPolicy po_MinFeePerKB mbind option_bind fmap option_fmap option_map default]. rewrite !int64_small by done.
  intros E. apply bind_Some in E as (t & _ & E). apply bind_Some in E as (n & _ & [= <-]). cbn [maxTxSizePolicy maxScriptSizePolicy maxTxSigopsCountsPolicy minFeePerKB].
  set (tx := resolveMaxTxSize (vc_MaxTxSizePolicy vc)). assert (0 < tx)%Z as Htx by apply resolveMaxTxSize_range. split; [destruct (Z.ltb_spec 0 (vc_MaxTxSigopsCountsPolicy vc)); lia|]. split.
  { destruct (vc_AcceptZeroFee vc); [done|]. destruct (Z.eqb_spec (vc_MinFeePerKB vc) 0); cbn; [by unfold DefaultMinFeePerKB|done]. }
  unfold maxTxSizePinned, maxScriptSizePinned. split.
  - unfold tx. destruct (Z.eqb_spec (vc_MaxTxSizePolicy vc) 0) as [E|]; cbn [negb]; [rewrite E; by vm_compute|]. apply pinnedTx. lia.
  - destruct (Z.eqb_spec (vc_MaxScriptSizePolicy vc) 0) as [E|]; cbn [negb]; [|apply pinnedScript; lia]. rewrite E. unfold resolveMaxScriptSize, defaultMaxScriptSizePolicy, DefaultValidatorMaxScriptSizePolicy.
    cbn. destruct (Z.ltb_spec tx 500000); lia.
Qed.

Lemma discovered_at_least peers ttl now : (1 <= (discoveredFeePerKB peers ttl now).1)%Z.
Proof.
  unfold discoveredFeePerKB, minDiscoveredFeePerKB, DefaultValidatorMinFeePerKB. destruct (lowestObservedFeePerKB peers ttl now) as [[f id]|]; [|done]. destruct (Z.ltb_spec f 1); cbn; lia.
Qed.
Lemma limit_at_least peers ttl now pick floor : (floor <= discoveredLimit peers ttl now pick floor)%Z.
Proof. unfold discoveredLimit. destruct (highestObservedLimit peers ttl now pick) as [v|]; [destruct (Z.ltb_spec v floor)|]; lia. Qed.

Lemma refreshPolicyOnce_governed vc peers now v : sane vc -> governed vc v -> governed vc (refreshPolicyOnce NewTxValidator vc peers now v).
Proof.
  intros (Hcf & Hct & Hcs) (Hv & Hs & Hf & Ht & Hsc). unfold refreshPolicyOnce. destruct peers as [peers|e]; [|done]. cbn zeta. set (ttl := int64 _).
  set (fee := if feePinned vc then _ else _). set (tx := if maxTxSizePinned vc then _ else _). set (script := if maxScriptSizePinned vc then _ else _).
  destruct (SetNetworkPolicy_spec fee tx script v Hv) as (Hv' & Hs' & [E|(Ef & Et & Es)]); [by rewrite E in *|]. rewrite <-Et in Es. assert (0 < maxTxSizePolicy (SetNetworkPolicy NewTxValidator fee tx script v))%Z as Hpos by apply Hv'.
  split; [done|]. split; [congruence|]. split_and!.
  - rewrite Ef. unfold fee, feePinned. destruct (vc_AcceptZeroFee vc); [done|]. cbn [orb]. destruct (negb _); [done|apply discovered_at_least].
  - rewrite Et. unfold tx, maxTxSizePinned in *. destruct (Z.eqb_spec (vc_MaxTxSizePolicy vc) 0); cbn [negb] in *; [apply widened, limit_at_least|]. rewrite clampToInt_small by lia. apply pinnedTx. lia.
  - rewrite Es. unfold script, maxScriptSizePinned in *. destruct (Z.eqb_spec (vc_MaxScriptSizePolicy vc) 0); cbn [negb] in *; [apply widenedScript; [done|apply limit_at_least]|].
    rewrite clampToInt_small by lia. apply pinnedScript. lia.
Qed.

(** C21: What is advertised is what is enforced, whatever the network announces.
    From the validator as the configuration builds it, after any refreshes
    with any answers of the store: both engines are those built for exactly
    the fee, the sizes and the signature count the policy document
    advertises, the one without fees too; a script fits a transaction and a
    transaction the consensus limit.  The fee is zero only if the operator
    accepts it, the pinned one if there is one, and otherwise at least one
    satoshi per kB; a pinned size stays, up to the limits, and one that is
    left to the network never falls below the built in default. *)
Theorem policy_invariant vc v0 ticks :
  sane vc -> NewValidatorForNetwork NewTxValidator (Some (validatorPolicyFromConfig vc)) = Some v0 ->
  let v := runPolicyRefresher NewTxValidator vc ticks v0 in
  governed vc v
  ∧ ∃ s, NewTxValidator s = Some (tv v) ∧ NewTxValidator (mkSettings (se_MaxTxSize s) (se_MaxScriptSize s) (se_MaxSigops s) 0) = Some (tvNoFee v)
    ∧ handlePolicy vc (Some v) = mkAdvertised (se_MinFeePerKB s) 1000 (se_MaxTxSize s) (se_MaxScriptSize s) (if (se_MaxSigops s =? 0)%Z then 4294967295 else se_MaxSigops s) (vc_StandardFormatSupported vc).
Proof.
  intros Hs E0. cbn zeta. assert (governed vc (runPolicyRefresher NewTxValidator vc ticks v0)) as Ha.
  { apply initial_governed in E0; [|done]. unfold runPolicyRefresher.
    assert (∀ v, governed vc v -> governed vc (foldl (fun v '(peers, now) => refreshPolicyOnce NewTxValidator vc peers now v) v ticks)) as Hrun; [|by apply Hrun].
    induction ticks as [|[peers now] ticks IH]; intros v H; [done|]. cbn [foldl]. apply IH. by apply refreshPolicyOnce_governed. }
  split; [done|]. set (v := runPolicyRefresher _ _ _ _) in *. destruct Ha as ((H1 & H2 & _) & _).
  exists (mkSettings (maxTxSizePolicy v) (maxScriptSizePolicy v) (maxTxSigopsCountsPolicy v) (minFeePerKB v)). by split_and!.
Qed.
End Invariant.

(** ** Verdicts *)

Section Verdicts.
Context {TxValidator : Type}.
Context (engineValidate : TxValidator -> list byte -> list btInput -> Z -> list Z -> option vErr).
Context (NewTxFromBytes : list byte -> nat + string).
(** The error of missing source data is the conversion's own. *)
Context (engine_own : ∀ t raw ins h hs e, engineValidate t raw ins h hs = Some e -> ve_missing e = false).

(** The input has what the engine needs, and this is it. *)
Definition extends (inp : sdkInput) (b : btInput) : Prop := SourceTxSatoshis inp = Some (PreviousTxSatoshis b) ∧ SourceTxScript inp = Some (PreviousTxScript b).
Definition lacks (inp : sdkInput) : Prop := SourceTxSatoshis inp = None ∨ SourceTxScript inp = None.

Lemma extendInputs_spec i inputs :
  match extendInputs i inputs with
  | inl btx => Forall2 extends inputs btx
  | inr e => ve_missing e = true ∧ Exists lacks inputs
  end.
Proof.
  revert i. induction inputs as [|inp inputs IH]; intros i; cbn [extendInputs]; [constructor|].
  destruct (SourceTxSatoshis inp) as [sats|] eqn:E1; [|split; [done|]; apply Exists_cons_hd; by left].
  destruct (SourceTxScript inp) as [lock|] eqn:E2; [|split; [done|]; apply Exists_cons_hd; by right].
  specialize (IH (S i)). destruct (extendInputs (S i) inputs) as [rest|e]; [by constructor|]. destruct IH. split; [done|]. by apply Exists_cons_tl.
Qed.

Lemma extends_lacks inputs btx : Forall2 extends inputs btx -> ~ Exists lacks inputs.
Proof. intros H. induction H as [|inp b inputs btx [E1 E2] H IH]; [by intros ?%Exists_nil|]. intros [[?|?]|?]%Exists_cons; [congruence|congruence|done]. Qed.

Definition arcCodes : list Z := [StatusTxFormat; StatusUnlockingScripts; StatusInputs; StatusMalformed; StatusFees; StatusGeneric; StatusTxSize].

Lemma mapTeranodeError_spec e :
  let a := mapTeranodeError e in
  ae_StatusCode a ∈ arcCodes ∧ (ae_StatusCode a = StatusTxFormat <-> ve_missing e = true) ∧ ae_Err a = ve_text e ∧ ae_ExtraInfo a = ve_text e.
Proof.
  cbn zeta. unfold mapTeranodeError, classifyByMessage. destruct (ve_missing e); [split_and!; try done; set_solver|].
  destruct (ve_tn e) as [[]|]; cbn [ae_StatusCode ae_Err ae_ExtraInfo NewArcErrorWithInfo]; repeat (destruct (_ || _)); (split_and!; try done; set_solver).
Qed.

(** C37: The intake verdict is complete and classified.  A transaction is accepted
    exactly when its bytes read back with the same number of inputs, every
    input carries its source data, and the engine, the one without fees when
    fees are skipped, accepts it with exactly this data.  Every refusal has
    one of the codes of the taxonomy; the code for a missing extended format
    is given exactly when some input lacks its source data.  The reason the
    client reads is the text of the cause, twice. *)
Theorem validation_classified (eff : effectivePolicy TxValidator) raw inputs (skipFees : bool) :
  let t := if skipFees then tvNoFee eff else tv eff in
  (ValidateTransaction engineValidate NewTxFromBytes eff raw inputs skipFees = None <->
     NewTxFromBytes raw = inl (length inputs)
     ∧ ∃ btx, Forall2 extends inputs btx ∧ engineValidate t raw btx allForksActiveHeight (replicate (length inputs) unknownParentHeight) = None)
  ∧ ∀ e, ValidateTransaction engineValidate NewTxFromBytes eff raw inputs skipFees = Some e ->
      ae_StatusCode e ∈ arcCodes
      ∧ (ae_StatusCode e = StatusTxFormat <-> NewTxFromBytes raw = inl (length inputs) ∧ Exists lacks inputs)
      ∧ (ae_Err e ≠ "" -> ArcError_Error e = (ae_Err e ++ ": " ++ ae_Err e)%string).
Proof.
  cbn zeta. unfold ValidateTransaction, toExtendedBT. set (t := if skipFees then tvNoFee eff else tv eff).
  assert (∀ e, ae_Err (mapTeranodeError e) ≠ "" -> ArcError_Error (mapTeranodeError e) = (ae_Err (mapTeranodeError e) ++ ": " ++ ae_Err (mapTeranodeError e))%string) as Htext.
  { intros e Hn. destruct (mapTeranodeError_spec e) as (_ & _ & E1 & E2). unfold ArcError_Error. rewrite E2. rewrite <-E1. by destruct (String.eqb_spec (ae_Err (mapTeranodeError e)) ""). }
  destruct (NewTxFromBytes raw) as [n|text].
  2: { split; [split; [done|by intros [? _]]|]. intros e [= <-]. destruct (mapTeranodeError_spec (mkVErr ("re-parse transaction into go-bt: " ++ text) false None)) as (H1 & H2 & _).
       split; [done|]. split; [|apply Htext]. rewrite H2. cbn. split; [done|by intros [? _]]. }
  destruct (Nat.eqb_spec n (length inputs)) as [->|Hne]; cbn [negb].
  2: { split; [split; [done|intros [[= ?] _]; done]|]. intros e [= <-]. set (err := mkVErr _ false None). destruct (mapTeranodeError_spec err) as (H1 & H2 & _).
       split; [done|]. split; [|apply Htext]. rewrite H2. cbn. split; [done|intros [[= ?] _]; done]. }
  pose proof (extendInputs_spec 0 inputs) as Hx. destruct (extendInputs 0 inputs) as [btx|err].
  - rewrite <-(Forall2_length _ _ _ Hx). destruct (engineValidate t raw btx allForksActiveHeight (replicate (length inputs) unknownParentHeight)) as [err|] eqn:Ee; cbn [fmap option_fmap option_map].
    + split; [split; [done|]|].
      * intros (_ & btx' & Hx' & E'). assert (btx' = btx) as ->; [|congruence]. clear -Hx Hx'. revert btx Hx. induction Hx' as [|inp b' inputs btx' [E1 E2] H IH]; intros btx Hx; inversion Hx; subst; [done|].
        f_equal; [|by apply IH]. destruct b', y. cbn in *. destruct H2 as [E3 E4]. cbn in *. congruence.
      * intros e [= <-]. destruct (mapTeranodeError_spec err) as (H1 & H2 & _). split; [done|]. split; [|apply Htext]. rewrite H2, (engine_own _ _ _ _ _ _ Ee).
        split; [done|]. intros [_ Hl]. by apply extends_lacks in Hx.
    + split; [|done]. split; [|done]. intros _. split; [done|]. by exists btx.
  - destruct Hx as [Hm Hl]. split; [split; [done|]|].
    + intros (_ & btx & Hx & _). by apply extends_lacks in Hx.
    + intros e [= <-]. destruct (mapTeranodeError_spec err) as (H1 & H2 & _). split; [done|]. split; [|apply Htext]. rewrite H2. by split.
Qed.
End Verdicts.

(** ** Concrete runs *)

(** The engine is its settings; it cannot be built for a fee over 1000. *)
Definition demoEngine (s : settings) : option settings := if (1000 <? se_MinFeePerKB s)%Z then None else Some s.
Definition demoPeer (id : string) (sats byts tx : Z) (seen : Time) : PeerPolicy := mkPeerPolicy id "main" sats byts tx 0 seen.
Definition demoVC : validatorConfig := mkValidatorConfig false 0 0 0 0 0 0 false true.

(** One satoshi per 1001 bytes is one per kB, not none. *)
Lemma observed_policy_bounds_witness :
  discoveredFeePerKB [demoPeer "a" 50 1000 0 None; demoPeer "b" 1 1001 0 (Some 5%Z); demoPeer "old" 0 1000 0 (Some (-2)%Z)] 10 9 = (1, "b")%Z
  ∧ ceilFeePerKB 1 1001 = 1%Z ∧ ceilFeePerKB 20000000000000000 4000000000000000000 = maxUint64
  ∧ (1 * 1000 <= ceilFeePerKB 1 1001 * 1001 ∨ ceilFeePerKB 1 1001 = maxUint64)%Z.
Proof.
  split; [vm_compute; reflexivity|]. split; [vm_compute; reflexivity|]. split; [vm_compute; reflexivity|].
  destruct (observed_policy_bounds [] 10 9 PP_MaxTxSizePolicy 0 1 1001) as (H & _). apply H; [split; vm_compute; congruence..|reflexivity].
Defined.

(** A refresh adopts the network's policy; the next asks for a fee no engine
    can be built for and changes nothing. *)
Lemma policy_invariant_witness :
  ∃ v0 : effectivePolicy settings, NewValidatorForNetwork demoEngine (Some (validatorPolicyFromConfig demoVC)) = Some v0
  ∧ let v := runPolicyRefresher demoEngine demoVC [(Ok [demoPeer "a" 50 1000 20000000 None], 9%Z); (Ok [demoPeer "b" 5000 1000 0 None], 10%Z)] v0 in
    minFeePerKB v = 50%Z ∧ maxTxSizePolicy v = 20000000%Z ∧ governed demoEngine demoVC v.
Proof.
  eexists. split; [vm_compute; reflexivity|]. cbn zeta. split; [vm_compute; reflexivity|]. split; [vm_compute; reflexivity|].
  apply (policy_invariant demoEngine demoVC); [|vm_compute; reflexivity]. unfold sane. split_and!; by vm_compute.
Defined.

Definition demoVerdict (t : settings) (raw : list byte) (ins : list btInput) (h : Z) (hs : list Z) : option vErr :=
  if (se_MinFeePerKB t =? 0)%Z then None else Some (mkVErr "transaction fee is too low" false (Some ERR_OTHER)).
Definition demoEff : effectivePolicy settings := mkEffectivePolicy (mkSettings 9 9 0 1) (mkSettings 9 9 0 0) 1 9 9 0.

Lemma validation_classified_witness :
  (∀ e, ValidateTransaction demoVerdict (fun _ => inl 1%nat) demoEff [] [mkSdkInput (Some 7%Z) (Some [])] false = Some e -> ae_StatusCode e ∈ arcCodes)
  ∧ (ae_StatusCode <$> ValidateTransaction demoVerdict (fun _ => inl 1%nat) demoEff [] [mkSdkInput (Some 7%Z) (Some [])] false) = Some StatusFees
  ∧ ValidateTransaction demoVerdict (fun _ => inl 1%nat) demoEff [] [mkSdkInput (Some 7%Z) (Some [])] true = None.
Proof.
  split; [|split; vm_compute; reflexivity]. intros e He.
  assert (∀ t raw ins h hs e, demoVerdict t raw ins h hs = Some e -> ve_missing e = false) as Hown.
  { intros t raw ins h hs e'. unfold demoVerdict. destruct (_ =? 0)%Z; [done|]. by intros [= <-]. }
  by apply (proj2 (validation_classified demoVerdict (fun _ => inl 1%nat) Hown demoEff [] [mkSdkInput (Some 7%Z) (Some [])] false)).
Defined.
