(* ===== verification/Intake.v ===== *)
(** * Intake: the HTTP handlers of the API server

    Models [src/services/api_server/handlers.go] and the error table of
    [src/errors]: submission of
    one transaction and of a batch, the callbacks of merkle-service and the
    status read.  A handler is a program over the calls it makes (the
    validator, the finality check, the store, the tracker, the queue of
    submissions, the broker and the publisher) and returns the response.
    The transaction and merkle-path codecs of go-sdk and the JSON decoding of
    a request are an interface. *)
From stdpp Require Import base gmap strings list pretty.
From Stdlib Require Import Ascii ZArith Lia.
From Stdlib Require Import Strings.Byte.
From S2P Require Import Prelude Models PebbleTx Effects BumpBuilder GoStrings Verdicts NetGuard FamilyKeys NetPolicy.

(** ** ARC errors *)

(** Title and detail of the codes; any other code is reported as generic. *)
Definition arcTable : list (Z * (string * string)) :=
  [(200%Z, ("OK", "Request successful"));
   (400%Z, ("Bad request", "The request seems to be malformed and cannot be processed"));
   (404%Z, ("Not found", "The requested resource could not be found"));
   (460%Z, ("Not extended format", "Missing input scripts: Transaction could not be transformed to extended format"));
   (461%Z, ("Malformed transaction", "Transaction unlocking scripts are invalid"));
   (462%Z, ("Invalid inputs", "Transaction is invalid because the inputs are non-existent or spent"));
   (463%Z, ("Malformed transaction", "Transaction is malformed and cannot be processed"));
   (464%Z, ("Invalid outputs", "Transaction is invalid because the outputs are non-existent or invalid"));
   (465%Z, ("Fee too low", "Transaction fee is too low"));
   (466%Z, ("Conflicting tx found", "Transaction is valid, but there is a conflicting tx in the block template"));
   (467%Z, ("Generic error", "Transaction could not be processed"));
   (468%Z, ("Invalid BEEF", "BEEF validation failed: BEEF invalid"));
   (469%Z, ("Merkle Roots validation failed", "BEEF validation failed: couldn't verify Merkle Roots"));
   (471%Z, ("Input Frozen", "Input Frozen (blacklist manager policy blacklisted)"));
   (472%Z, ("Input Frozen", "Input Frozen (blacklist manager consensus blacklisted)"));
   (473%Z, ("Cumulative fee validation failed", "Cumulative fee validation failed"));
   (474%Z, ("Transaction size validation failed", "Transaction size validation failed"));
   (475%Z, ("Mined ancestors not found in BUMPs", "BEEF validation failed: couldn't find mined ancestor of the transaction in provided BUMPs"));
   (476%Z, ("Transaction not final", "Transaction nLockTime is in the future and input sequence numbers are not final; resubmit once the locktime expires"))].

Record ErrorFields : Type := mkErrorFields { ef_Type : string; ef_Title : string; ef_Status : Z; ef_Detail : string; ef_ExtraInfo : option string }.

Definition NewErrorFields (status : Z) (extraInfo : string) : ErrorFields :=
  let info := if negb (String.eqb extraInfo "") then Some extraInfo else None in
  let doc (n : Z) := ("https://bitcoin-sv.github.io/arc/#/errors?id=_" ++ pretty n)%string in
  match List.find (fun e => (e.1 =? status)%Z) arcTable with
  | Some (_, (title, detail)) => mkErrorFields (doc status) title status detail info
  | None => mkErrorFields (doc StatusGeneric) "Generic error" StatusGeneric "Transaction could not be processed" info
  end.

(** ** Requests and responses *)

Record submitOptions : Type := mkSubmitOptions { CallbackURL : string; CallbackToken : string; FullStatusUpdates : bool }.
Definition hasSubscription (o : submitOptions) : bool := negb (String.eqb (CallbackURL o) "") || negb (String.eqb (CallbackToken o) "").

(** The headers a submission reads, and its body. *)
Record request : Type := mkRequest {
  rq_CallbackUrl : string;
  rq_CallbackToken : string;
  rq_FullStatusUpdates : string;
  rq_Authorization : string;
  rq_ContentType : string;
  rq_Body : list byte
}.

Definition extractSubmitOptions (r : request) : submitOptions :=
  mkSubmitOptions (rq_CallbackUrl r) (rq_CallbackToken r) (String.eqb (rq_FullStatusUpdates r) "true").

(** An error of the validator: its text and its ARC code, if it has one. *)
Record verdict : Type := mkVerdict { ve_reason : string; ve_code : option Z }.

(** What a status read shows of a subscription. *)
Record callbackDelivery : Type := mkCallbackDelivery {
  cd_CallbackURL : string;
  cd_LastDeliveredStatus : Status;
  cd_Attempts : Z;
  cd_LastAttemptAt : option Z;
  cd_LastResult : string;
  cd_NextRetryAt : option Z
}.

Inductive body : Type :=
| bNone
| bError (msg : string)
| bParseError (parsed : nat)
| bInvalid (txid : string) (reason : string) (fields : option ErrorFields)
| bSubmitted (txid : string) (txStatus : Status)
| bBatch (submitted duplicates total : nat)
| bStatus (st : TransactionStatus) (callbacks : list callbackDelivery).

Record response : Type := mkResponse { rs_code : Z; rs_body : body; rs_retryAfter : bool }.
Definition answer_ (code : Z) (b : body) : response := mkResponse code b false.
Definition fails (code : Z) (msg : string) : response := answer_ code (bError msg).

(** [models.CallbackMessage]; the last field is what BLOCK_PROCESSED carries. *)
Record callbackMsg : Type := mkCallbackMsg {
  cbm_Type : string;
  cbm_TxID : string;
  cbm_TxIDs : list string;
  cbm_SubtreeIndex : Z;
  cbm_Stump : list byte;
  cbm_block : CallbackMessage
}.

Definition CallbackSeenOnNetwork : string := "SEEN_ON_NETWORK".
Definition CallbackSeenMultipleNodes : string := "SEEN_MULTIPLE_NODES".
Definition CallbackStump : string := "STUMP".
Definition CallbackBlockProcessed : string := "BLOCK_PROCESSED".

(** What is outside: the codecs of go-sdk ([NewTransactionFromStream] with the
    bytes it used, the txid and the inputs of a transaction, whether a merkle
    path parses and has a level), the JSON bodies, and the hash. *)
Inductive bound (A : Type) : Type :=
| Bound (a : A)
| BodyTooLarge
| BadBody.
Arguments Bound {A} a.
Arguments BodyTooLarge {A}.
Arguments BadBody {A}.

Class IntakeLib : Type := {
  Tx : Type;
  NewTransactionFromStream : list byte -> Res (Tx * nat);
  TxIDOf : Tx -> string;
  InputsOf : Tx -> list (option (option string));
  parsesAsPath : list byte -> bool;
  bindRawTx : Z -> list byte -> bound string;
  bindCallback : Z -> list byte -> bound callbackMsg;
  sha256Sum : list byte -> list byte
}.

Record serverConfig : Type := mkServerConfig {
  sv_CallbackToken : string;
  sv_AllowPrivateIPs : bool;
  sv_MaxBodyBytes : Z;
  (* which of the optional collaborators are wired *)
  sv_store : bool;
  sv_validator : bool;
  sv_tracker : bool;
  sv_publisher : bool
}.

Definition maxSingleTxBytes : Z := 33554432.
Definition maxBatchBytes : Z := 268435456.
Definition DefaultCallbackMaxBodyBytes : Z := 16777216.

Definition callbackMaxBodyBytes (cfg : serverConfig) : Z := if (0 <? sv_MaxBodyBytes cfg)%Z then sv_MaxBodyBytes cfg else DefaultCallbackMaxBodyBytes.

(** [io.ReadAll] behind [http.MaxBytesReader]. *)
Definition readBody (max : Z) (b : list byte) : option (list byte) := if (max <? Z.of_nat (length b))%Z then None else Some b.

Definition shouldRepublishExisting (status : Status) : bool := String.eqb status StatusRejected || String.eqb status StatusReceived.

(** The errors of the producer: [errors.Is] tells one from the others. *)
Inductive sendError : Type := ErrBrokerBackpressure | ErrSend.

Section Handlers.
Context `{NetLib} `{IntakeLib} (cfg : serverConfig).

(** ** Calls *)

Inductive icall : Type :=
| iNow
| iValidate (tx : Tx)
| iFinality (tx : Tx)
| iGetOrInsert (row : TransactionStatus)
| iUpdateStatus (row : TransactionStatus)
| iTrackerAdd (txid : string) (st : Status)
| iTrackerGet (txid : string)
| iTrackerUpdate (txid : string) (st : Status)
| iRandom
| iEnqueue (sub : Submission)
| iSend (m : KeyValue)
| iSendBatch (ms : list KeyValue)
| iSendBlock (key : string) (m : callbackMsg)
| iPublish (st : TransactionStatus)
| iPublishBulk (st : TransactionStatus)
| iBatchUpdate (sts : list TransactionStatus)
| iInsertStump (s : Stump)
| iGetStatus (txid : string)
| iGetSubmissions (txid : string).

(** The validator and the finality check answer their error; a batch update
    answers a result per row, even with an error. *)
Definition ianswer (c : icall) : Type :=
  match c with
  | iNow => Time
  | iValidate _ => option verdict
  | iFinality _ => option string
  | iGetOrInsert _ => Res (option TransactionStatus * bool)
  | iTrackerGet _ => option Status
  | iTrackerAdd _ _ | iTrackerUpdate _ _ => unit
  | iRandom => Res (list byte)
  | iEnqueue _ => bool
  | iSend _ | iSendBatch _ | iSendBlock _ _ => option sendError
  | iUpdateStatus _ | iPublish _ | iPublishBulk _ | iInsertStump _ => option error
  | iBatchUpdate _ => list StatusUpdate * option error
  | iGetStatus _ => Res (option TransactionStatus)
  | iGetSubmissions _ => Res (list Submission)
  end.

Abbreviation IProg := (prog ianswer).

(** ** Subscriptions *)

Definition validateCallbackURL (url : string) : option response :=
  if String.eqb url "" then None
  else match ValidateCallbackURL url (sv_AllowPrivateIPs cfg) with
       | Some _ => Some (fails 400 "invalid callback url")
       | None => None
       end.

(** [newSubmissionID], and the queue that may be full. *)
Definition recordSubmission (txid : string) (opts : submitOptions) : IProg unit :=
  if negb (hasSubscription opts) then mret tt
  else
    b ← perform iRandom;
    match (b : Res (list byte)) with
    | Err _ => mret tt
    | Ok b =>
        now ← perform iNow;
        perform (iEnqueue (mkSubmission (HexJSON.EncodeToString b) txid (CallbackURL opts) (CallbackToken opts) (FullStatusUpdates opts) "" 0 None 0 None "" now)) ;;
        mret tt
    end.

(** ** Rejection at intake *)

Definition intakeRow (txid : string) (st : Status) (code : Z) (ts : Time) (info : string) (raw : list byte) : TransactionStatus :=
  mkTransactionStatus txid st code ts [] "" 0 [] info [] raw 0 None None [] None.

Definition persistRejectedAtIntake (txid reason : string) (code : Z) : IProg bool :=
  if negb (sv_store cfg) then mret true
  else
    now ← perform iNow;
    let row := intakeRow txid StatusRejected code now reason [] in
    r ← perform (iGetOrInsert row);
    match (r : Res (option TransactionStatus * bool)) with
    | Err _ => mret true
    | Ok (_, true) => mret true
    | Ok (existing, false) =>
        if match existing with Some e => negb (CanTransitionFrom StatusRejected (ts_Status e)) | None => false end then mret false
        else perform (iUpdateStatus row) ;; mret true
    end.

Definition rejectAtIntake (txid reason : string) (code : Z) (opts : submitOptions) : IProg unit :=
  wrote ← persistRejectedAtIntake txid reason code;
  recordSubmission txid opts ;;
  if negb (wrote : bool) || negb (sv_publisher cfg) then mret tt
  else
    now ← perform iNow;
    perform (iPublish (intakeRow txid StatusRejected code now reason [])) ;;
    mret tt.

Definition arcStatusCodeOf (v : verdict) : Z := default 0%Z (ve_code v).

(** Of the fields, the document has all but the extra information. *)
Definition respondSubmitError (txid : string) (v : verdict) : response :=
  answer_ 400 (bInvalid txid (ve_reason v) ((fun code => NewErrorFields code "") <$> ve_code v)).

(** ** One transaction *)

(** The raw bytes of a submission, or the response. *)
Definition rawOf (r : request) : response + list byte :=
  if GoStrings.Contains (rq_ContentType r) "octet-stream" then
    match readBody maxSingleTxBytes (rq_Body r) with
    | None => inl (fails 400 "failed to read body")
    | Some b => inr b
    end
  else if GoStrings.Contains (rq_ContentType r) "text/plain" then
    match readBody maxSingleTxBytes (rq_Body r) with
    | None => inl (fails 400 "failed to read body")
    | Some b =>
        match HexJSON.DecodeString (TrimSpace (String.string_of_list_byte b)) with
        | Ok raw => inr raw
        | Err _ => inl (fails 400 "invalid hex")
        end
    end
  else
    match bindRawTx maxSingleTxBytes (rq_Body r) with
    | Bound s => match HexJSON.DecodeString s with Ok raw => inr raw | Err _ => inl (fails 400 "invalid hex in rawTx") end
    | _ => inl (fails 400 "invalid request")
    end.

(** The dedup insert: [inl] is the response to a known transaction, [inr] goes
    on to publish. *)
Definition dedupOne (txid : string) (raw : list byte) (opts : submitOptions) : IProg (response + unit) :=
  if negb (sv_store cfg) then mret (inr tt)
  else
    now ← perform iNow;
    r ← perform (iGetOrInsert (intakeRow txid StatusReceived 0 now "" raw));
    match (r : Res (option TransactionStatus * bool)) with
    | Ok (Some existing, false) =>
        if shouldRepublishExisting (ts_Status existing) then mret (inr tt)
        else
          (if sv_tracker cfg then perform (iTrackerAdd txid (ts_Status existing)) else mret tt) ;;
          recordSubmission txid opts ;;
          mret (inl (answer_ 202 (bSubmitted txid (ts_Status existing))))
    | _ => mret (inr tt)
    end.

Definition backpressure (e : sendError) : bool := match e with ErrBrokerBackpressure => true | ErrSend => false end.
Definition overloaded : response := mkResponse 503 (bError "service overloaded, retry shortly") true.

Definition handleSubmitTransaction (r : request) : IProg response :=
  let opts := extractSubmitOptions r in
  match validateCallbackURL (CallbackURL opts) with
  | Some resp => mret resp
  | None =>
      match rawOf r with
      | inl resp => mret resp
      | inr [] => mret (fails 400 "empty transaction")
      | inr raw =>
          match NewTransactionFromStream raw with
          | Err _ => mret (fails 400 "failed to parse transaction")
          | Ok (tx, _) =>
              let txid := TxIDOf tx in
              v ← (if sv_validator cfg then perform (iValidate tx) else mret None);
              match (v : option verdict) with
              | Some v => rejectAtIntake txid (ve_reason v) (arcStatusCodeOf v) opts ;; mret (respondSubmitError txid v)
              | None =>
                  f ← perform (iFinality tx);
                  match (f : option string) with
                  | Some reason => mret (respondSubmitError txid (mkVerdict reason (Some StatusNotFinal)))
                  | None =>
                      d ← dedupOne txid raw opts;
                      match (d : response + unit) with
                      | inl resp => mret resp
                      | inr _ =>
                          (if sv_tracker cfg then perform (iTrackerAdd txid StatusReceived) else mret tt) ;;
                          recordSubmission txid opts ;;
                          e ← perform (iSend (mkKeyValue txid txid raw (collectInputTXIDs (InputsOf tx))));
                          match (e : option sendError) with
                          | Some e => mret (if backpressure e then overloaded else fails 500 "failed to submit")
                          | None => mret (answer_ 202 (bSubmitted txid StatusReceived))
                          end
                      end
                  end
              end
          end
      end
  end.

(** ** A batch *)

(** Phase 1: [None] is a parse error after the transactions parsed so far. *)
Fixpoint parseAll (fuel : nat) (b : list byte) (parsed : list (Tx * list byte)) : (nat + list (Tx * list byte)) :=
  match fuel with
  | O => inr parsed
  | S fuel =>
      match b with
      | [] => inr parsed
      | _ =>
          match NewTransactionFromStream b with
          | Err _ => inl (length parsed)
          | Ok (_, O) => inr parsed
          | Ok (tx, used) => parseAll fuel (drop used b) (parsed ++ [(tx, take used b)])
          end
      end
  end.

Definition itemOf (p : Tx * list byte) : parsedItem := mkParsedItem (InputsOf p.1) p.2 (TxIDOf p.1).

Fixpoint validateAll (opts : submitOptions) (ps : list (Tx * list byte)) : IProg (option response) :=
  match ps with
  | [] => mret None
  | (tx, _) :: ps =>
      v ← perform (iValidate tx);
      match (v : option verdict) with
      | Some v => rejectAtIntake (TxIDOf tx) (ve_reason v) (arcStatusCodeOf v) opts ;; mret (Some (respondSubmitError (TxIDOf tx) v))
      | None => validateAll opts ps
      end
  end.

Fixpoint finalityAll (ps : list (Tx * list byte)) : IProg (option response) :=
  match ps with
  | [] => mret None
  | (tx, _) :: ps =>
      f ← perform (iFinality tx);
      match (f : option string) with
      | Some reason => mret (Some (respondSubmitError (TxIDOf tx) (mkVerdict reason (Some StatusNotFinal))))
      | None => finalityAll ps
      end
  end.

(** Phase 3: what is to be published, and the number of duplicates. *)
Fixpoint dedupAll (opts : submitOptions) (ps : list (Tx * list byte)) (toPublish : list (Tx * list byte)) (duplicates : nat)
  : IProg (list (Tx * list byte) * nat) :=
  match ps with
  | [] => mret (toPublish, duplicates)
  | p :: ps =>
      now ← perform iNow;
      r ← perform (iGetOrInsert (intakeRow (TxIDOf p.1) StatusReceived 0 now "" p.2));
      match (r : Res (option TransactionStatus * bool)) with
      | Ok (Some existing, false) =>
          if shouldRepublishExisting (ts_Status existing) then dedupAll opts ps (toPublish ++ [p]) duplicates
          else
            (if sv_tracker cfg then perform (iTrackerAdd (TxIDOf p.1) (ts_Status existing)) else mret tt) ;;
            recordSubmission (TxIDOf p.1) opts ;;
            dedupAll opts ps toPublish (S duplicates)
      | _ => dedupAll opts ps (toPublish ++ [p]) duplicates
      end
  end.

Fixpoint trackAll (ps : list (Tx * list byte)) : IProg unit :=
  match ps with
  | [] => mret tt
  | p :: ps => perform (iTrackerAdd (TxIDOf p.1) StatusReceived) ;; trackAll ps
  end.

Fixpoint recordAll (opts : submitOptions) (ps : list (Tx * list byte)) : IProg unit :=
  match ps with
  | [] => mret tt
  | p :: ps => recordSubmission (TxIDOf p.1) opts ;; recordAll opts ps
  end.

(** Phase 4; a panic of the key computation would answer 500. *)
Definition publishBatch (parsed toPublish : list (Tx * list byte)) (duplicates : nat) : IProg response :=
  match toPublish with
  | [] => mret (answer_ 202 (bBatch 0 duplicates (length parsed)))
  | _ =>
      match familyKeysBySubmittedTxid (List.map itemOf parsed) with
      | None => mret (fails 500 "panic")
      | Some (keyByTxid, inputsByTxid) =>
          e ← perform (iSendBatch (propagationMessages (List.map itemOf toPublish) keyByTxid inputsByTxid));
          match (e : option sendError) with
          | Some e => mret (if backpressure e then overloaded else fails 500 "failed to submit")
          | None => mret (answer_ 202 (bBatch (length toPublish) duplicates (length parsed)))
          end
      end
  end.

Definition handleSubmitTransactions (r : request) : IProg response :=
  if negb (GoStrings.Contains (rq_ContentType r) "octet-stream") then mret (fails 400 "Content-Type must be application/octet-stream")
  else
    let opts := extractSubmitOptions r in
    match validateCallbackURL (CallbackURL opts) with
    | Some resp => mret resp
    | None =>
        match readBody maxBatchBytes (rq_Body r) with
        | None => mret (fails 400 "failed to read body")
        | Some [] => mret (fails 400 "empty body")
        | Some b =>
            match parseAll (length b) b [] with
            | inl n => mret (answer_ 400 (bParseError n))
            | inr [] => mret (fails 400 "no transactions parsed")
            | inr parsed =>
                v ← (if sv_validator cfg then validateAll opts parsed else mret None);
                match (v : option response) with
                | Some resp => mret resp
                | None =>
                    f ← finalityAll parsed;
                    match (f : option response) with
                    | Some resp => mret resp
                    | None =>
                        d ← (if sv_store cfg then dedupAll opts parsed [] 0 else mret (parsed, 0%nat));
                        let '(toPublish, duplicates) := (d : list (Tx * list byte) * nat) in
                        (if sv_tracker cfg then trackAll toPublish else mret tt) ;;
                        recordAll opts toPublish ;;
                        publishBatch parsed toPublish duplicates
                    end
                end
            end
        end
    end.

(** ** Callbacks of merkle-service *)

(** The txids the tracker does not know to be at the target or past it. *)
Fixpoint prefilter (target : Status) (txids : list string) : IProg (list string) :=
  match txids with
  | [] => mret []
  | txid :: txids =>
      prev ← (if sv_tracker cfg then perform (iTrackerGet txid) else mret None);
      rest ← prefilter target txids;
      mret (if match (prev : option Status) with Some p => String.eqb p target || negb (CanTransitionFrom target p) | None => false end
            then rest else txid :: rest)
  end.

(** The rows that moved, in order. *)
Fixpoint applied (target : Status) (kept : list string) (updates : list StatusUpdate) : IProg (list string) :=
  match kept, updates with
  | txid :: kept, u :: updates =>
      match Prev u with
      | Some prev =>
          if String.eqb (ts_Status prev) target then applied target kept updates
          else
            (if sv_tracker cfg then perform (iTrackerUpdate txid target) else mret tt) ;;
            rest ← applied target kept updates;
            mret (txid :: rest)
      | None => applied target kept updates
      end
  | _, _ => mret []
  end.

Definition applySeenCallback (m : callbackMsg) (target : Status) : IProg (option error) :=
  match ResolveSeenTxIDs (mkSeenCallback (cbm_TxID m) (cbm_TxIDs m)) with
  | [] => mret None
  | txids =>
      now ← perform iNow;
      kept ← prefilter target txids;
      match (kept : list string) with
      | [] => mret None
      | _ =>
          u ← perform (iBatchUpdate (List.map (fun txid => intakeRow txid target 0 now "" []) kept));
          successful ← applied target kept (u : list StatusUpdate * option error).1;
          (match (successful : list string) with
           | [] => mret tt
           | _ =>
               if sv_publisher cfg
               then perform (iPublishBulk (mkTransactionStatus "" target 0 now successful "" 0 [] "" [] [] 0 None None [] None)) ;; mret tt
               else mret tt
           end) ;;
          mret (u : list StatusUpdate * option error).2
      end
  end.

Definition handleStump (m : callbackMsg) : IProg response :=
  if String.eqb (cm_BlockHash (cbm_block m)) "" || (length (cbm_Stump m) =? 0)%nat then mret (fails 400 "blockHash and stump are required")
  else if negb (parsesAsPath (cbm_Stump m)) then mret (fails 400 "stump is not a valid BRC-74 merkle path")
  else
    e ← perform (iInsertStump (NewStump sha256Sum (cm_BlockHash (cbm_block m)) (cbm_SubtreeIndex m) (cbm_Stump m)));
    match (e : option error) with
    | Some _ => mret (fails 500 "failed to store stump")
    | None => mret (answer_ 200 bNone)
    end.

Definition handleBlockProcessed (m : callbackMsg) : IProg response :=
  if String.eqb (cm_BlockHash (cbm_block m)) "" then mret (fails 400 "blockHash is required")
  else
    e ← perform (iSendBlock (cm_BlockHash (cbm_block m)) m);
    match (e : option sendError) with
    | Some _ => mret (fails 500 "failed to enqueue")
    | None => mret (answer_ 200 bNone)
    end.

(** [subtle.ConstantTimeCompare] is equality. *)
Definition authorized (r : request) : bool :=
  let presented := if HasPrefix (rq_Authorization r) "Bearer " then String.substring 7 (String.length (rq_Authorization r) - 7) (rq_Authorization r) else "" in
  negb (String.eqb (sv_CallbackToken cfg) "") && String.eqb (sv_CallbackToken cfg) presented.

Definition handleCallback (r : request) : IProg response :=
  if negb (authorized r) then mret (fails 401 "unauthorized")
  else
    match bindCallback (callbackMaxBodyBytes cfg) (rq_Body r) with
    | BodyTooLarge => mret (fails 413 "request body too large")
    | BadBody => mret (fails 400 "invalid request body")
    | Bound m =>
            let seen target : IProg response :=
              e ← applySeenCallback m target;
              mret (match (e : option error) with Some _ => fails 500 "failed to store seen status" | None => answer_ 200 bNone end) in
            if String.eqb (cbm_Type m) CallbackSeenOnNetwork then seen StatusSeenOnNetwork
            else if String.eqb (cbm_Type m) CallbackSeenMultipleNodes then seen StatusSeenMultipleNodes
            else if String.eqb (cbm_Type m) CallbackStump then handleStump m
            else if String.eqb (cbm_Type m) CallbackBlockProcessed then handleBlockProcessed m
            else mret (answer_ 200 bNone)
    end.

(** ** Status reads *)

Definition deliveryOf (s : Submission) : callbackDelivery :=
  mkCallbackDelivery (sb_CallbackURL s) (sb_LastDeliveredStatus s) (sb_Attempts s) (sb_LastAttemptAt s) (sb_LastResult s) (sb_NextRetryAt s).

(** The delivery state of the submissions under [token]. *)
Definition callbackDeliveries (txid token : string) : IProg (list callbackDelivery) :=
  if String.eqb token "" || negb (sv_store cfg) then mret []
  else
    r ← perform (iGetSubmissions txid);
    mret (match (r : Res (list Submission)) with
          | Err _ => []
          | Ok subs => List.map deliveryOf (List.filter (fun s => String.eqb (sb_CallbackToken s) token) subs)
          end).

Definition handleGetTransaction (txid token : string) : IProg response :=
  if String.eqb txid "" then mret (fails 400 "txid is required")
  else
    r ← perform (iGetStatus txid);
    match (r : Res (option TransactionStatus)) with
    | Err _ => mret (fails 500 "internal error")
    | Ok None => mret (fails 404 "transaction not found")
    | Ok (Some st) =>
        cbs ← callbackDeliveries txid token;
        mret (answer_ 200 (bStatus st cbs))
    end.
End Handlers.
