(* ===== verification/IntakeProps.v ===== *)
(** * IntakeProps: what the API server publishes, records and answers

    Every message on the propagation topic is of a transaction that passed the
    validator and the finality check, is not known yet, is tracked and has
    its subscription queued; a rejection is written only on a verdict of the
    validator.  The answers are accounted for: 202 stands for a published or
    a known transaction, 200 to a callback for a durable effect. *)
From stdpp Require Import base gmap strings list.
From Stdlib Require Import Ascii ZArith Lia.
From Stdlib Require Import Strings.Byte.
From S2P Require Import Prelude Models PebbleTx Effects BumpBuilder GoStrings Verdicts NetGuard FamilyKeys FamilyKeysProps NetPolicy Intake.

Section IntakeProps.
Context `{HN : NetLib} `{HI : IntakeLib} (cfg : serverConfig).

Abbreviation Tr := (trace ianswer).
Abbreviation Ev := (Event (answer := ianswer)).

(** ** Evidence *)

(** [tx] passed the validator, where there is one, and the finality check. *)
Definition passedChecks (tr : Tr) (tx : Tx) : Prop :=
  (sv_validator cfg = true -> Ev (iValidate tx) None ∈ tr) ∧ Ev (iFinality tx) None ∈ tr.

(** The status of a row that is known and needs no publishing. *)
Definition knownAnswer (r : Res (option TransactionStatus * bool)) : option Status :=
  match r with
  | Ok (Some e, false) => if shouldRepublishExisting (ts_Status e) then None else Some (ts_Status e)
  | _ => None
  end.

(** The dedup insert of [tx], and its answer. *)
Definition deduped (tr : Tr) (tx : Tx) (raw : list byte) (st : option Status) : Prop :=
  ∃ now r, Ev (iGetOrInsert (intakeRow (TxIDOf tx) StatusReceived 0 now "" raw)) r ∈ tr ∧ knownAnswer r = st.

Definition tracked (tr : Tr) (txid : string) : Prop := sv_tracker cfg = true -> Ev (iTrackerAdd txid StatusReceived) tt ∈ tr.

(** The subscription was queued, or the random source failed. *)
Definition subscribed (opts : submitOptions) (tr : Tr) (txid : string) : Prop :=
  hasSubscription opts = true ->
  (∃ e, Ev iRandom (Err e) ∈ tr)
  ∨ ∃ sub queued, Ev (iEnqueue sub) queued ∈ tr ∧ sb_TxID sub = txid ∧ sb_CallbackURL sub = CallbackURL opts ∧ sb_CallbackToken sub = CallbackToken opts.

(** All that comes before publishing [tx]. *)
Definition ready (opts : submitOptions) (tr : Tr) (tx : Tx) (raw : list byte) : Prop :=
  passedChecks tr tx ∧ (sv_store cfg = true -> deduped tr tx raw None) ∧ tracked tr (TxIDOf tx) ∧ subscribed opts tr (TxIDOf tx).

(** [row] rejects a transaction the validator refused, in its words. *)
Definition rejection (tr : Tr) (row : TransactionStatus) : Prop :=
  ∃ tx v now, Ev (iValidate tx) (Some v) ∈ tr ∧ row = intakeRow (TxIDOf tx) StatusRejected (arcStatusCodeOf v) now (ve_reason v) [].

(** ** The calls a submission may make, and after what *)

Definition admits (opts : submitOptions) (tr : Tr) (c : icall) : Prop :=
  match c with
  | iNow | iRandom | iValidate _ => True
  | iFinality tx => sv_validator cfg = true -> Ev (iValidate tx) None ∈ tr
  | iTrackerAdd txid _ => ∃ tx, TxIDOf tx = txid ∧ passedChecks tr tx
  | iGetOrInsert row => rejection tr row ∨ ∃ tx raw now, row = intakeRow (TxIDOf tx) StatusReceived 0 now "" raw ∧ passedChecks tr tx
  | iUpdateStatus row =>
      rejection tr row
      ∧ ∃ existing, Ev (iGetOrInsert row) (Ok (existing, false)) ∈ tr ∧ (∀ e, existing = Some e -> CanTransitionFrom StatusRejected (ts_Status e) = true)
  | iPublish row => rejection tr row
  | iEnqueue sub =>
      sb_CallbackURL sub = CallbackURL opts ∧ sb_CallbackToken sub = CallbackToken opts
      ∧ (CallbackURL opts = "" ∨ ValidateCallbackURL (CallbackURL opts) (sv_AllowPrivateIPs cfg) = None)
  | iSend m => ∃ tx raw, ready opts tr tx raw ∧ m = mkKeyValue (TxIDOf tx) (TxIDOf tx) raw (collectInputTXIDs (InputsOf tx))
  | iSendBatch ms =>
      ∃ parsed : list (Tx * list byte),
        ∀ m, m ∈ ms -> (∃ tx, (tx, kv_raw_tx m) ∈ parsed ∧ kv_txid m = TxIDOf tx ∧ ready opts tr tx (kv_raw_tx m))
          ∧ isKey (List.map pi_txid (List.map itemOf parsed)) (List.map (fun p => collectInputTXIDs (pi_inputs p)) (List.map itemOf parsed)) (kv_txid m) (kv_Key m)
  | _ => False
  end.

Abbreviation R := (fun _ _ => True).

(** ** Traces *)

Definition isSend (c : icall) : bool := match c with iSend _ | iSendBatch _ => true | _ => false end.

(** Nothing was published on the way. *)
Definition calm (tr tr' : Tr) : Prop := tr ⊆ tr' ∧ project isSend tr' = project isSend tr.

Lemma calm_refl tr : calm tr tr.
Proof. done. Qed.
Lemma calm_trans tr1 tr2 tr3 : calm tr1 tr2 -> calm tr2 tr3 -> calm tr1 tr3.
Proof. intros [? ?] [? ?]. split; [by etrans|congruence]. Qed.
Lemma calm_snoc tr tr' c x : calm tr tr' -> isSend c = false -> calm tr (tr' ++ [Ev c x]).
Proof. intros [Hs E] Hc. split; [etrans; [exact Hs|apply grows_snoc]|]. rewrite project_app, E. cbn. by rewrite Hc, app_nil_r. Qed.

Lemma passedChecks_grows tr tr' tx : tr ⊆ tr' -> passedChecks tr tx -> passedChecks tr' tx.
Proof. intros Hs [H1 H2]. split; [intros ?; by apply Hs, H1|by apply Hs]. Qed.
Lemma deduped_grows tr tr' tx raw st : tr ⊆ tr' -> deduped tr tx raw st -> deduped tr' tx raw st.
Proof. intros Hs (now & r & Hin & E). exists now, r. split; [by apply Hs|done]. Qed.
Lemma tracked_grows tr tr' txid : tr ⊆ tr' -> tracked tr txid -> tracked tr' txid.
Proof. intros Hs Ht E. by apply Hs, Ht. Qed.
Lemma subscribed_grows opts tr tr' txid : tr ⊆ tr' -> subscribed opts tr txid -> subscribed opts tr' txid.
Proof.
  intros Hs Hsub E. destruct (Hsub E) as [[e He]|(sub & q & Hin & Hrest)]; [left; exists e; by apply Hs|right].
  exists sub, q. split; [by apply Hs|done].
Qed.
Lemma rejection_grows tr tr' row : tr ⊆ tr' -> rejection tr row -> rejection tr' row.
Proof. intros Hs (tx & v & now & Hin & E). exists tx, v, now. split; [by apply Hs|done]. Qed.

(** ** The parts of a submission *)

Definition urlOk (opts : submitOptions) : Prop := CallbackURL opts = "" ∨ ValidateCallbackURL (CallbackURL opts) (sv_AllowPrivateIPs cfg) = None.

Lemma validateCallbackURL_ok opts : validateCallbackURL cfg (CallbackURL opts) = None -> urlOk opts.
Proof. unfold validateCallbackURL, urlOk. destruct (String.eqb_spec (CallbackURL opts) ""); [by left|]. destruct (ValidateCallbackURL _ _); [done|by right]. Qed.

Section Submission.
Context (opts : submitOptions) (Hurl : urlOk opts).

Lemma recordSubmission_wp txid tr :
  wp (admits opts) R (recordSubmission txid opts) tr (fun _ tr' => calm tr tr' ∧ subscribed opts tr' txid).
Proof.
  unfold recordSubmission. destruct (hasSubscription opts) eqn:Eh; cbn [negb]; [|wp_go; split; [done|]; intros ?; congruence].
  wp_go. wp_ask b idtac. destruct b as [b|e].
  - wp_go. wp_ask now idtac. wp_go. wp_ask q ltac:(by split_and!). wp_go.
    split; [by repeat apply calm_snoc|]. intros _. right. eexists _, q. split; [apply snoc_here|done].
  - wp_go. split; [by apply calm_snoc|]. intros _. left. exists e. apply snoc_here.
Qed.

Lemma trackIf_wp txid st tr :
  (∃ tx, TxIDOf tx = txid ∧ passedChecks tr tx) ->
  wp (admits opts) R (if sv_tracker cfg then perform (iTrackerAdd txid st) else mret tt) tr
    (fun _ tr' => calm tr tr' ∧ (st = StatusReceived -> tracked tr' txid)).
Proof.
  intros Hp. destruct (sv_tracker cfg) eqn:E.
  - wp_ask u ltac:(done). split; [by apply calm_snoc|]. intros -> _. destruct u. apply snoc_here.
  - wp_go. split; [done|]. intros _ ?. congruence.
Qed.

Lemma rejectAtIntake_wp tx v tr :
  Ev (iValidate tx) (Some v) ∈ tr ->
  wp (admits opts) R (rejectAtIntake cfg (TxIDOf tx) (ve_reason v) (arcStatusCodeOf v) opts) tr (fun _ tr' => calm tr tr').
Proof.
  intros Hv. assert (∀ tr' now, tr ⊆ tr' -> rejection tr' (intakeRow (TxIDOf tx) StatusRejected (arcStatusCodeOf v) now (ve_reason v) [])) as Hrej.
  { intros tr' now Hs. exists tx, v, now. split; [by apply Hs|done]. }
  unfold rejectAtIntake. wp_go.
  apply (wp_mono _ _ _ _ (fun _ tr' => calm tr tr')).
  { unfold persistRejectedAtIntake. destruct (negb (sv_store cfg)); [by wp_go|]. wp_go. wp_ask now idtac. wp_go.
    wp_ask r ltac:(left; apply Hrej, grows_snoc). destruct r as [[existing []]|e]; [wp_go; by repeat apply calm_snoc| |wp_go; by repeat apply calm_snoc].
    destruct (match existing with Some e => _ | None => _ end) eqn:Ec; [wp_go; by repeat apply calm_snoc|]. wp_go.
    wp_ask e ltac:(split; [apply Hrej; etrans; apply grows_snoc|exists existing; split; [apply snoc_here|]; intros x ->; by apply negb_false_iff in Ec]).
    wp_go. by repeat apply calm_snoc. }
  intros wrote tr1 H1. wp_go. eapply wp_mono; [apply recordSubmission_wp|]. intros _ tr2 [H2 _].
  pose proof (calm_trans _ _ _ H1 H2) as H3. destruct (negb wrote || _); [by wp_go|]. wp_go. wp_ask now idtac. wp_go.
  wp_ask e ltac:(apply Hrej; etrans; [apply H3|apply grows_snoc]). wp_go. by repeat apply calm_snoc.
Qed.


(** ** One transaction *)

Lemma dedupOne_wp tx raw tr :
  passedChecks tr tx ->
  wp (admits opts) R (dedupOne cfg (TxIDOf tx) raw opts) tr (fun d tr' => calm tr tr' ∧
    match d with
    | inl resp => ∃ st, deduped tr' tx raw (Some st) ∧ resp = answer_ 202 (bSubmitted (TxIDOf tx) st)
    | inr _ => sv_store cfg = true -> deduped tr' tx raw None
    end).
Proof.
  intros Hp. unfold dedupOne. destruct (sv_store cfg) eqn:Es; cbn [negb]; [|wp_go; by split].
  wp_go. wp_ask now idtac. wp_go.
  wp_ask r ltac:(right; exists tx, raw, now; split; [done|]; eapply passedChecks_grows; [apply grows_snoc|done]).
  set (tr1 := tr ++ _). set (tr2 := tr1 ++ _). assert (calm tr tr2) as H2 by by repeat apply calm_snoc.
  assert (∀ st, knownAnswer r = st -> deduped tr2 tx raw st) as Hd by (intros st E; exists now, r; split; [apply snoc_here|done]).
  assert (knownAnswer r = None -> wp (admits opts) R (mret (inr tt)) tr2 (fun d tr' => calm tr tr' ∧
    match d with inl resp => ∃ st, deduped tr' tx raw (Some st) ∧ resp = answer_ 202 (bSubmitted (TxIDOf tx) st) | inr _ => true = true -> deduped tr' tx raw None end)) as Hgo.
  { intros E. wp_go. split; [done|]. intros _. by apply Hd. }
  destruct r as [[[existing|] []]|e]; try by apply Hgo. cbn [knownAnswer] in Hd, Hgo. destruct (shouldRepublishExisting (ts_Status existing)); [by apply Hgo|].
  wp_go. eapply wp_mono; [apply trackIf_wp; exists tx; split; [done|]; eapply passedChecks_grows; [apply H2|done]|]. intros _ tr3 [H3 _].
  wp_go. eapply wp_mono; [apply recordSubmission_wp|]. intros _ tr4 [H4 _]. wp_go. split; [eapply calm_trans; [exact H2|by eapply calm_trans]|].
  exists (ts_Status existing). split; [|done]. eapply deduped_grows; [|by apply Hd]. etrans; [apply H3|apply H4].
Qed.

(** The broker took what it was sent. *)
Definition accepted (e : event ianswer) : bool :=
  let '(Event c x) := e in
  match c return ianswer c -> bool with
  | iSend _ | iSendBatch _ => fun x => match x with None => true | Some _ => false end
  | _ => fun _ => false
  end x.

Definition unsent (tr : Tr) : Prop := ∀ e, e ∈ tr -> accepted e = false.

Lemma accepted_isSend e : accepted e = true -> isSend (ev_call e) = true.
Proof. destruct e as [c x]. by destruct c. Qed.
Lemma unsent_calm tr tr' : calm tr tr' -> unsent tr -> unsent tr'.
Proof.
  intros [_ E] H e He. destruct (accepted e) eqn:Ea; [|done]. rewrite <-(H e); [done|].
  assert (e ∈ project isSend tr') as Hp by (apply elem_of_project; split; [done|by apply accepted_isSend]).
  rewrite E in Hp. by apply elem_of_project in Hp as [? _].
Qed.
Lemma unsent_nil : unsent [].
Proof. intros m Hin. by apply elem_of_nil in Hin. Qed.
Lemma unsent_snoc tr e : unsent tr -> accepted e = false -> unsent (tr ++ [e]).
Proof. intros H He x [?| ->%list_elem_of_singleton]%elem_of_app; [by apply H|done]. Qed.

(** What a 202 for one transaction stands for. *)
Definition taken (tr : Tr) (tx : Tx) (raw : list byte) (resp : response) : Prop :=
  (resp = answer_ 202 (bSubmitted (TxIDOf tx) StatusReceived)
   ∧ Ev (iSend (mkKeyValue (TxIDOf tx) (TxIDOf tx) raw (collectInputTXIDs (InputsOf tx)))) None ∈ tr)
  ∨ ∃ st, resp = answer_ 202 (bSubmitted (TxIDOf tx) st) ∧ deduped tr tx raw (Some st) ∧ unsent tr.
End Submission.

(** How one submission ends: the transaction was taken, or nothing was sent. *)
Definition outcome (r : request) (resp : response) (tr : Tr) : Prop :=
  (∃ raw tx used, rawOf r = inr raw ∧ NewTransactionFromStream raw = Ok (tx, used) ∧ taken tr tx raw resp)
  ∨ (rs_code resp ≠ 202%Z ∧ unsent tr).

Lemma handleSubmitTransaction_wp r :
  wp (admits (extractSubmitOptions r)) R (handleSubmitTransaction cfg r) [] (outcome r).
Proof.
  unfold handleSubmitTransaction. set (opts := extractSubmitOptions r).
  assert (∀ resp tr, rs_code resp ≠ 202%Z -> calm [] tr -> outcome r resp tr) as Hno. { intros resp tr Hc Ht. right. split; [done|]. eapply unsent_calm; [exact Ht|apply unsent_nil]. }
  destruct (validateCallbackURL cfg (CallbackURL opts)) as [resp|] eqn:Eu.
  { wp_go. apply Hno; [|done]. unfold validateCallbackURL in Eu. destruct (String.eqb _ _); [done|]. destruct (ValidateCallbackURL _ _); [|done]. by injection Eu as <-. }
  apply validateCallbackURL_ok in Eu. destruct (rawOf r) as [resp|raw] eqn:Er.
  { wp_go. apply Hno; [|done]. clear -Er. unfold rawOf in Er. repeat case_match; by simplify_eq. }
  destruct raw as [|b0 raw0] eqn:Eraw; [wp_go; by apply Hno|]. rewrite <-Eraw in *. clear Eraw b0 raw0.
  destruct (NewTransactionFromStream raw) as [[tx used]|e] eqn:En; [|wp_go; by apply Hno].
  wp_go. apply (wp_mono _ _ _ _ (fun v tr => calm [] tr ∧ match v with Some v => Ev (iValidate tx) (Some v) ∈ tr | None => sv_validator cfg = true -> Ev (iValidate tx) None ∈ tr end)).
  { destruct (sv_validator cfg); [|wp_go; by split]. wp_ask v idtac. split; [by apply calm_snoc|]. destruct v; [|intros _]; apply snoc_here. }
  intros v tr [H1 Hv]. destruct v as [v|].
  { wp_go. eapply wp_mono; [by apply (rejectAtIntake_wp opts Eu)|]. intros ? tr' H2. wp_go. apply Hno; [done|by eapply calm_trans]. }
  wp_go. wp_ask f ltac:(exact Hv). destruct f as [reason|]; [wp_go; apply Hno; [done|by apply calm_snoc]|].
  set (tr2 := tr ++ _). assert (calm [] tr2) as H2 by by apply calm_snoc.
  assert (passedChecks tr2 tx) as Hp. { split; [intros E; apply grows_snoc; by apply Hv|apply snoc_here]. }
  wp_go. eapply wp_mono; [by apply (dedupOne_wp opts Eu)|]. intros d tr3 [H3 Hd]. pose proof (calm_trans _ _ _ H2 H3) as H03. destruct d as [resp|[]].
  { destruct Hd as (st & Hd & ->). wp_go. left. exists raw, tx, used. split_and!; try done. right. exists st. split_and!; try done. eapply unsent_calm; [exact H03|apply unsent_nil]. }
  wp_go. eapply wp_mono; [apply trackIf_wp; exists tx; split; [done|]; eapply passedChecks_grows; [apply H3|done]|]. intros _ tr4 [H4 Ht].
  wp_go. eapply wp_mono; [by apply recordSubmission_wp|]. intros _ tr5 [H5 Hs]. pose proof (calm_trans _ _ _ H03 (calm_trans _ _ _ H4 H5)) as H05.
  wp_go. wp_ask e ltac:(exists tx, raw; split; [|done]; split_and!;
    [eapply passedChecks_grows; [|exact Hp]; etrans; [apply H3|]; etrans; [apply H4|apply H5]
    |intros Es; eapply deduped_grows; [|by apply Hd]; etrans; [apply H4|apply H5]|eapply tracked_grows; [apply H5|by apply Ht]|done]).
  destruct e as [e|]; wp_go.
  - right. split; [by destruct e|]. apply unsent_snoc; [eapply unsent_calm; [exact H05|apply unsent_nil]|done].
  - left. exists raw, tx, used. split_and!; try done. left. split; [done|]. apply snoc_here.
Qed.

(** ** A batch *)

Section Batch.
Context (opts : submitOptions) (Hurl : urlOk opts).

(** The transactions of a batch passed all checks. *)
Definition allPassed (tr : Tr) (ps : list (Tx * list byte)) : Prop := ∀ tx raw, (tx, raw) ∈ ps -> passedChecks tr tx.

Lemma validateAll_wp ps tr :
  wp (admits opts) R (validateAll cfg opts ps) tr (fun v tr' => calm tr tr' ∧
    match v with Some resp => rs_code resp = 400%Z | None => ∀ tx raw, (tx, raw) ∈ ps -> Ev (iValidate tx) None ∈ tr' end).
Proof.
  revert tr. induction ps as [|[tx raw] ps IH]; intros tr; cbn [validateAll].
  { wp_go. split; [done|]. by intros ? ? ?%elem_of_nil. }
  wp_go. wp_ask v idtac. destruct v as [v|].
  - wp_go. eapply wp_mono; [apply (rejectAtIntake_wp opts Hurl), snoc_here|]. intros ? tr' H2. wp_go. split; [|done].
    eapply calm_trans; [|exact H2]. by apply calm_snoc.
  - eapply wp_mono; [apply IH|]. intros v tr' [H2 Hv]. split; [eapply calm_trans; [|exact H2]; by apply calm_snoc|]. destruct v as [resp|]; [done|].
    intros tx' raw' [[= -> ->]|Hin]%elem_of_cons; [apply H2, snoc_here|by eapply Hv].
Qed.

Lemma finalityAll_wp ps tr :
  (∀ tx raw, (tx, raw) ∈ ps -> sv_validator cfg = true -> Ev (iValidate tx) None ∈ tr) ->
  wp (admits opts) R (finalityAll ps) tr (fun f tr' => calm tr tr' ∧
    match f with Some resp => rs_code resp = 400%Z | None => allPassed tr' ps end).
Proof.
  revert tr. induction ps as [|[tx raw] ps IH]; intros tr Hv; cbn [finalityAll].
  { wp_go. split; [done|]. by intros ? ? ?%elem_of_nil. }
  wp_go. wp_ask f ltac:(intros Es; apply (Hv tx raw); [by left|done]). destruct f as [reason|]; [wp_go; split; [by apply calm_snoc|done]|].
  eapply wp_mono; [apply IH; intros tx' raw' Hin Ev'; apply grows_snoc, (Hv tx' raw'); [by right|done]|]. intros f tr' [H2 Hf].
  split; [eapply calm_trans; [|exact H2]; by apply calm_snoc|]. destruct f as [resp|]; [done|].
  intros tx' raw' [[= -> ->]|Hin]%elem_of_cons; [|by eapply Hf]. split; [|apply H2, snoc_here].
  intros Es. apply H2, grows_snoc, (Hv tx raw); [by left|done].
Qed.

(** The dedup inserts split a batch: what is published, and what is known. *)
Lemma dedupAll_wp ps toPublish duplicates tr :
  allPassed tr ps ->
  wp (admits opts) R (dedupAll cfg opts ps toPublish duplicates) tr (fun d tr' => calm tr tr' ∧
    ∃ fresh known, d = (toPublish ++ fresh, (duplicates + length known)%nat) ∧ ps ≡ₚ fresh ++ known ∧ fresh `sublist_of` ps
      ∧ (∀ tx raw, (tx, raw) ∈ fresh -> deduped tr' tx raw None)
      ∧ (∀ tx raw, (tx, raw) ∈ known -> ∃ st, deduped tr' tx raw (Some st))).
Proof.
  revert toPublish duplicates tr. induction ps as [|[tx raw] ps IH]; intros toPublish duplicates tr Hp; cbn [dedupAll fst snd].
  { wp_go. split; [done|]. exists [], []. cbn. rewrite app_nil_r, Nat.add_0_r. split_and!; try done; by intros ? ? ?%elem_of_nil. }
  assert (passedChecks tr tx) as Htx by (apply (Hp tx raw); by left).
  assert (∀ tr', tr ⊆ tr' -> allPassed tr' ps) as Hps. { intros tr' Hs tx' raw' Hin. eapply passedChecks_grows; [exact Hs|]. apply (Hp tx' raw'). by right. }
  wp_go. wp_ask now idtac. wp_go.
  wp_ask r ltac:(right; exists tx, raw, now; split; [done|]; eapply passedChecks_grows; [apply grows_snoc|done]).
  set (tr1 := tr ++ _). set (tr2 := tr1 ++ _). assert (calm tr tr2) as H2 by by repeat apply calm_snoc.
  assert (deduped tr2 tx raw (knownAnswer r)) as Hd by (exists now, r; split; [apply snoc_here|done]).
  set (Q := fun (d : list (Tx * list byte) * nat) (tr' : Tr) => calm tr tr' ∧ ∃ fresh known, d = (toPublish ++ fresh, (duplicates + length known)%nat) ∧ (tx, raw) :: ps ≡ₚ fresh ++ known
    ∧ fresh `sublist_of` (tx, raw) :: ps ∧ (∀ tx0 raw0, (tx0, raw0) ∈ fresh -> deduped tr' tx0 raw0 None) ∧ (∀ tx0 raw0, (tx0, raw0) ∈ known -> ∃ st, deduped tr' tx0 raw0 (Some st))).
  change (wp (admits opts) R match r with Ok (Some existing, false) => if shouldRepublishExisting (ts_Status existing) then dedupAll cfg opts ps (toPublish ++ [(tx, raw)]) duplicates
      else (if sv_tracker cfg then perform (iTrackerAdd (TxIDOf tx) (ts_Status existing)) else mret tt) ;; recordSubmission (TxIDOf tx) opts ;; dedupAll cfg opts ps toPublish (S duplicates)
    | _ => dedupAll cfg opts ps (toPublish ++ [(tx, raw)]) duplicates end tr2 Q).
  assert (knownAnswer r = None -> wp (admits opts) R (dedupAll cfg opts ps (toPublish ++ [(tx, raw)]) duplicates) tr2 Q) as Hgo.
  { intros E. rewrite E in Hd. eapply wp_mono; [apply IH, Hps, H2|]. intros d tr' [H3 (fresh & known & -> & Hperm & Hsub & Hf & Hk)].
    split; [by eapply calm_trans|]. exists ((tx, raw) :: fresh), known. rewrite <-app_assoc. split_and!; try done.
    - by apply Permutation_cons.
    - by constructor.
    - intros tx' raw' [[= -> ->]|Hin]%elem_of_cons; [eapply deduped_grows; [apply H3|done]|by apply Hf]. }
  destruct r as [[[existing|] []]|e]; try by apply Hgo. cbn [knownAnswer] in Hd, Hgo. destruct (shouldRepublishExisting (ts_Status existing)); [by apply Hgo|].
  wp_go. eapply wp_mono; [apply trackIf_wp; exists tx; split; [done|]; eapply passedChecks_grows; [apply H2|done]|]. intros _ tr3 [H3 _].
  wp_go. eapply wp_mono; [by apply recordSubmission_wp|]. intros _ tr4 [H4 _]. pose proof (calm_trans _ _ _ H2 (calm_trans _ _ _ H3 H4)) as H04.
  eapply wp_mono; [apply IH, Hps, H04|]. intros d tr' [H5 (fresh & known & -> & Hperm & Hsub & Hf & Hk)].
  split; [by eapply calm_trans|]. exists fresh, ((tx, raw) :: known). split_and!; try done.
  - cbn. f_equal. lia.
  - etrans; [apply Permutation_cons, Hperm; done|apply Permutation_middle].
  - by constructor.
  - intros tx' raw' [[= -> ->]|Hin]%elem_of_cons; [|by eapply Hk]. exists (ts_Status existing). eapply deduped_grows; [|exact Hd]. etrans; [apply H3|]. etrans; [apply H4|apply H5].
Qed.

Lemma trackAll_wp ps tr :
  allPassed tr ps -> wp (admits opts) R (trackAll ps) tr (fun _ tr' => calm tr tr' ∧ ∀ tx raw, (tx, raw) ∈ ps -> tracked tr' (TxIDOf tx)).
Proof.
  revert tr. induction ps as [|[tx raw] ps IH]; intros tr Hp; cbn [trackAll fst].
  { wp_go. split; [done|]. by intros ? ? ?%elem_of_nil. }
  wp_go. wp_ask u ltac:(exists tx; split; [done|]; apply (Hp tx raw); by left). destruct u.
  eapply wp_mono; [apply IH; intros tx' raw' Hin; eapply passedChecks_grows; [apply grows_snoc|]; apply (Hp tx' raw'); by right|].
  intros ? tr' [H2 Ht]. split; [eapply calm_trans; [|exact H2]; by apply calm_snoc|].
  intros tx' raw' [[= -> ->]|Hin]%elem_of_cons; [|by eapply Ht]. intros _. apply H2, snoc_here.
Qed.

Lemma recordAll_wp ps tr :
  wp (admits opts) R (recordAll opts ps) tr (fun _ tr' => calm tr tr' ∧ ∀ tx raw, (tx, raw) ∈ ps -> subscribed opts tr' (TxIDOf tx)).
Proof.
  revert tr. induction ps as [|[tx raw] ps IH]; intros tr; cbn [recordAll fst].
  { wp_go. split; [done|]. by intros ? ? ?%elem_of_nil. }
  wp_go. eapply wp_mono; [by apply recordSubmission_wp|]. intros ? tr1 [H1 Hs]. eapply wp_mono; [apply IH|]. intros ? tr' [H2 Ht].
  split; [by eapply calm_trans|]. intros tx' raw' [[= -> ->]|Hin]%elem_of_cons; [|by eapply Ht]. eapply subscribed_grows; [apply H2|done].
Qed.
End Batch.

(** The parser reads the body as it is: the pieces in order are a prefix, and
    what is left is nothing, or what the codec takes no byte of. *)
Lemma parseAll_spec fuel b acc :
  (length b <= fuel)%nat ->
  match parseAll fuel b acc with
  | inl n => ∃ (parsed : list (Tx * list byte)) rest e, concat (List.map snd parsed) ++ rest = b ∧ NewTransactionFromStream rest = Err e ∧ n = (length acc + length parsed)%nat
  | inr all => ∃ (parsed : list (Tx * list byte)) rest, all = acc ++ parsed ∧ concat (List.map snd parsed) ++ rest = b
      ∧ (rest = [] ∨ ∃ tx, NewTransactionFromStream rest = Ok (tx, 0%nat))
  end.
Proof.
  revert b acc. induction fuel as [|fuel IH]; intros b acc Hl; cbn [parseAll].
  { destruct b; [|cbn in Hl; lia]. exists [], []. rewrite app_nil_r. split_and!; try done. by left. }
  destruct b as [|b0 b']; [exists [], []; rewrite app_nil_r; split_and!; try done; by left|]. set (b := b0 :: b') in *.
  destruct (NewTransactionFromStream b) as [[tx [|used]]|e] eqn:E; cbv iota.
  - exists [], b. rewrite app_nil_r. split_and!; try done. right. by exists tx.
  - specialize (IH (drop (S used) b) (acc ++ [(tx, take (S used) b)])). rewrite length_drop in IH. specialize (IH ltac:(cbn in Hl |- *; lia)).
    destruct (parseAll fuel (drop (S used) b) _) as [n|all].
    + destruct IH as (parsed & rest & e & Hc & He & ->). exists ((tx, take (S used) b) :: parsed), rest, e. cbn [List.map concat snd]. rewrite <-app_assoc, Hc, take_drop.
      split_and!; try done. rewrite length_app. cbn [length]. lia.
    + destruct IH as (parsed & rest & -> & Hc & Hr). exists ((tx, take (S used) b) :: parsed), rest. cbn [List.map concat snd]. rewrite <-!app_assoc, Hc, take_drop. by split_and!.
  - exists [], b, e. split_and!; try done; cbn; lia.
Qed.

(** How a batch ends: every transaction was published or is known, and the
    counts say which; or nothing was sent. *)
Definition batchOutcome (r : request) (resp : response) (tr : Tr) : Prop :=
  (∃ parsed fresh known, parseAll (length (rq_Body r)) (rq_Body r) [] = inr parsed ∧ parsed ≡ₚ fresh ++ known
     ∧ resp = answer_ 202 (bBatch (length fresh) (length known) (length parsed))
     ∧ (fresh = [] ∧ unsent tr
        ∨ ∃ ms, Ev (iSendBatch ms) None ∈ tr ∧ List.map (fun m => (kv_txid m, kv_raw_tx m)) ms = List.map (fun p => (TxIDOf p.1, p.2)) fresh)
     ∧ (∀ tx raw, (tx, raw) ∈ known -> ∃ st, deduped tr tx raw (Some st)))
  ∨ (rs_code resp ≠ 202%Z ∧ unsent tr).

Lemma publishBatch_wp opts r parsed fresh known tr :
  parseAll (length (rq_Body r)) (rq_Body r) [] = inr parsed -> parsed ≡ₚ fresh ++ known -> unsent tr ->
  (∀ tx raw, (tx, raw) ∈ fresh -> ready opts tr tx raw) -> (∀ tx raw, (tx, raw) ∈ known -> ∃ st, deduped tr tx raw (Some st)) ->
  wp (admits opts) R (publishBatch parsed fresh (length known)) tr (batchOutcome r).
Proof.
  intros Hpa Hperm Hun Hready Hknown. unfold publishBatch. destruct fresh as [|p0 fresh0] eqn:Ef.
  { wp_go. left. exists parsed, [], known. split_and!; try done. by left. }
  rewrite <-Ef in *. clear Ef p0 fresh0.
  destruct (family_messages (List.map itemOf parsed) (List.map itemOf fresh)) as (kbt & ibt & -> & Em & Hkey & _).
  { intros x Hx. apply list_elem_of_In, in_map_iff in Hx as (p & <- & Hp). apply list_elem_of_In, in_map. apply list_elem_of_In. rewrite Hperm. apply elem_of_app. left. by apply list_elem_of_In. }
  set (ms := propagationMessages _ kbt ibt) in *. rewrite List.map_map in Em. cbn in Em.
  wp_go. wp_ask e ltac:(exists parsed; intros m Hm; split; [|by destruct (Hkey m Hm) as (q & _ & _ & _ & Hk)];
    assert ((kv_txid m, kv_raw_tx m) ∈ List.map (fun m => (kv_txid m, kv_raw_tx m)) ms) as Hin by (apply list_elem_of_In, (in_map (fun m => (kv_txid m, kv_raw_tx m))), list_elem_of_In; exact Hm);
    rewrite Em in Hin; apply list_elem_of_In, in_map_iff in Hin as ([tx raw] & [= E1 E2] & Hp%list_elem_of_In); cbn in E1, E2; subst raw;
    exists tx; split_and!; [rewrite Hperm; apply elem_of_app; by left|done|by apply Hready]).
  destruct e as [e|]; wp_go.
  - right. split; [by destruct e|]. by apply unsent_snoc.
  - left. exists parsed, fresh, known. split_and!; try done.
    + right. exists ms. split; [apply snoc_here|done].
    + intros tx raw Hin. destruct (Hknown tx raw Hin) as [st Hd]. exists st. eapply deduped_grows; [apply grows_snoc|done].
Qed.

Lemma handleSubmitTransactions_wp r :
  wp (admits (extractSubmitOptions r)) R (handleSubmitTransactions cfg r) [] (batchOutcome r).
Proof.
  unfold handleSubmitTransactions. set (opts := extractSubmitOptions r).
  assert (∀ resp tr, rs_code resp ≠ 202%Z -> calm [] tr -> batchOutcome r resp tr) as Hno. { intros resp tr Hc Ht. right. split; [done|]. eapply unsent_calm; [exact Ht|apply unsent_nil]. }
  destruct (negb _); [wp_go; by apply Hno|]. destruct (validateCallbackURL cfg (CallbackURL opts)) as [resp|] eqn:Eu.
  { wp_go. apply Hno; [|done]. unfold validateCallbackURL in Eu. destruct (String.eqb _ _); [done|]. destruct (ValidateCallbackURL _ _); [|done]. by injection Eu as <-. }
  apply validateCallbackURL_ok in Eu. unfold readBody. destruct (maxBatchBytes <? _)%Z; [wp_go; by apply Hno|].
  destruct (rq_Body r) as [|b0 b'] eqn:Eb; [wp_go; by apply Hno|]. rewrite <-Eb in *. clear Eb b0 b'.
  destruct (parseAll (length (rq_Body r)) (rq_Body r) []) as [n|parsed] eqn:Ep; [wp_go; by apply Hno|].
  destruct parsed as [|p0 parsed0] eqn:Eps; [wp_go; by apply Hno|]. rewrite <-Eps in *. clear Eps p0 parsed0. wp_go.
  apply (wp_mono _ _ _ _ (fun v tr => calm [] tr ∧ match v with Some resp => rs_code resp = 400%Z | None => ∀ tx raw, (tx, raw) ∈ parsed -> sv_validator cfg = true -> Ev (iValidate tx) None ∈ tr end)).
  { destruct (sv_validator cfg); [|wp_go; by split]. eapply wp_mono; [by apply validateAll_wp|]. intros v tr [H1 Hv]. split; [done|]. destruct v; [done|]. intros tx raw Hin _. by eapply Hv. }
  intros v tr [H1 Hv]. destruct v as [resp|]; [wp_go; apply Hno; [by rewrite Hv|done]|].
  wp_go. eapply wp_mono; [by apply finalityAll_wp|]. intros f tr2 [H2 Hf]. pose proof (calm_trans _ _ _ H1 H2) as H02.
  destruct f as [resp|]; [wp_go; apply Hno; [by rewrite Hf|done]|]. wp_go.
  apply (wp_mono _ _ _ _ (fun d tr' => calm tr2 tr' ∧ ∃ fresh known, d = (fresh, length known) ∧ parsed ≡ₚ fresh ++ known
    ∧ (∀ tx raw, (tx, raw) ∈ fresh -> sv_store cfg = true -> deduped tr' tx raw None) ∧ (∀ tx raw, (tx, raw) ∈ known -> ∃ st, deduped tr' tx raw (Some st)))).
  { destruct (sv_store cfg).
    - eapply wp_mono; [by apply dedupAll_wp|]. intros d tr' [H3 (fresh & known & -> & Hperm & _ & Hfr & Hk)]. split; [done|]. exists fresh, known. split_and!; try done. intros tx raw Hin _. by apply Hfr.
    - wp_go. split; [done|]. exists parsed, []. rewrite app_nil_r. split_and!; try done. by intros ? ? ?%elem_of_nil. }
  intros d tr3 [H3 (fresh & known & -> & Hperm & Hfr & Hk)]. pose proof (calm_trans _ _ _ H02 H3) as H03.
  assert (∀ tr', tr3 ⊆ tr' -> allPassed tr' fresh) as Hp.
  { intros tr' Hs tx raw Hin. eapply passedChecks_grows; [etrans; [apply H3|exact Hs]|]. apply (Hf tx raw). rewrite Hperm. apply elem_of_app. by left. }
  wp_go. apply (wp_mono _ _ _ _ (fun _ tr' => calm tr3 tr' ∧ ∀ tx raw, (tx, raw) ∈ fresh -> tracked tr' (TxIDOf tx))).
  { destruct (sv_tracker cfg) eqn:Et; [by apply trackAll_wp, Hp|]. wp_go. split; [done|]. intros tx raw _ ?. congruence. }
  intros _ tr4 [H4 Ht]. wp_go. eapply wp_mono; [by apply recordAll_wp|]. intros _ tr5 [H5 Hs].
  assert (calm tr3 tr5) as H35 by by eapply calm_trans. apply publishBatch_wp; try done.
  - eapply unsent_calm; [eapply calm_trans; [exact H03|exact H35]|apply unsent_nil].
  - intros tx raw Hin. split_and!.
    + by apply (Hp tr5 (proj1 H35) tx raw).
    + intros Es. eapply deduped_grows; [apply H35|]. by apply Hfr.
    + eapply tracked_grows; [apply H5|]. by eapply Ht.
    + by eapply Hs.
  - intros tx raw Hin. destruct (Hk tx raw Hin) as [st Hd]. exists st. eapply deduped_grows; [apply H35|done].
Qed.

(** ** Callbacks *)

(** The tracker knows [txid] to be at the target or past it. *)
Definition passedBy (tr : Tr) (target : Status) (txid : string) : Prop :=
  ∃ p, Ev (iTrackerGet txid) (Some p) ∈ tr ∧ (p = target ∨ CanTransitionFrom target p = false).

(** The transactions of a batch update whose status moved. *)
Definition moved (target : Status) (kept : list string) (updates : list StatusUpdate) : list string :=
  omap (fun '(txid, u) => match Prev u with Some prev => if String.eqb (ts_Status prev) target then None else Some txid | None => None end) (zip kept updates).

Definition seenRows (target : Status) (now : Time) (kept : list string) : list TransactionStatus :=
  List.map (fun txid => intakeRow txid target 0 now "" []) kept.

Definition bulk (target : Status) (now : Time) (txids : list string) : TransactionStatus :=
  mkTransactionStatus "" target 0 now txids "" 0 [] "" [] [] 0 None None [] None.

Definition seenTxids (m : callbackMsg) : list string := ResolveSeenTxIDs (mkSeenCallback (cbm_TxID m) (cbm_TxIDs m)).

(** The calls of a callback, and after what. *)
Definition seenCall (m : callbackMsg) (target : Status) (tr : Tr) (c : icall) : Prop :=
  match c with
  | iNow => True
  | iTrackerGet txid => txid ∈ seenTxids m
  | iBatchUpdate rows => ∃ now kept, rows = seenRows target now kept ∧ kept `sublist_of` seenTxids m
      ∧ ∀ txid, txid ∈ kept -> sv_tracker cfg = true -> ∃ p, Ev (iTrackerGet txid) p ∈ tr ∧ (∀ st, p = Some st -> st ≠ target ∧ CanTransitionFrom target st = true)
  | iTrackerUpdate txid st => st = target ∧ ∃ now kept us err, Ev (iBatchUpdate (seenRows target now kept)) (us, err) ∈ tr ∧ txid ∈ moved target kept us
  | iPublishBulk st => ∃ now kept us err, Ev (iBatchUpdate (seenRows target now kept)) (us, err) ∈ tr ∧ st = bulk target now (moved target kept us) ∧ moved target kept us ≠ []
  | _ => False
  end.

Definition callbackCall (m : callbackMsg) (tr : Tr) (c : icall) : Prop :=
  if String.eqb (cbm_Type m) CallbackSeenOnNetwork then seenCall m StatusSeenOnNetwork tr c
  else if String.eqb (cbm_Type m) CallbackSeenMultipleNodes then seenCall m StatusSeenMultipleNodes tr c
  else if String.eqb (cbm_Type m) CallbackStump then
    c = iInsertStump (NewStump sha256Sum (cm_BlockHash (cbm_block m)) (cbm_SubtreeIndex m) (cbm_Stump m))
    ∧ cm_BlockHash (cbm_block m) ≠ "" ∧ parsesAsPath (cbm_Stump m) = true
  else cbm_Type m = CallbackBlockProcessed ∧ c = iSendBlock (cm_BlockHash (cbm_block m)) m ∧ cm_BlockHash (cbm_block m) ≠ "".

(** Every transaction is past the target, or its row was offered and the
    store answered without an error, with the moves published. *)
Definition seenDone (m : callbackMsg) (target : Status) (tr : Tr) : Prop :=
  ∃ kept, (∀ txid, txid ∈ seenTxids m -> txid ∈ kept ∨ passedBy tr target txid)
    ∧ (kept = [] ∨ ∃ now us, Ev (iBatchUpdate (seenRows target now kept)) (us, None) ∈ tr
         ∧ (sv_publisher cfg = true -> moved target kept us ≠ [] -> ∃ e, Ev (iPublishBulk (bulk target now (moved target kept us))) e ∈ tr)
         ∧ (sv_tracker cfg = true -> ∀ txid, txid ∈ moved target kept us -> Ev (iTrackerUpdate txid target) tt ∈ tr)).

Definition callbackDone (m : callbackMsg) (tr : Tr) : Prop :=
  if String.eqb (cbm_Type m) CallbackSeenOnNetwork then seenDone m StatusSeenOnNetwork tr
  else if String.eqb (cbm_Type m) CallbackSeenMultipleNodes then seenDone m StatusSeenMultipleNodes tr
  else if String.eqb (cbm_Type m) CallbackStump then
    Ev (iInsertStump (NewStump sha256Sum (cm_BlockHash (cbm_block m)) (cbm_SubtreeIndex m) (cbm_Stump m))) None ∈ tr
  else if String.eqb (cbm_Type m) CallbackBlockProcessed then Ev (iSendBlock (cm_BlockHash (cbm_block m)) m) None ∈ tr
  else tr = [].

Lemma prefilter_wp m target txids tr :
  txids ⊆ seenTxids m ->
  wp (seenCall m target) R (prefilter cfg target txids) tr (fun kept tr' => tr ⊆ tr' ∧ kept `sublist_of` txids
    ∧ (∀ txid, txid ∈ txids -> txid ∈ kept ∨ passedBy tr' target txid)
    ∧ (∀ txid, txid ∈ kept -> sv_tracker cfg = true -> ∃ p, Ev (iTrackerGet txid) p ∈ tr' ∧ (∀ st, p = Some st -> st ≠ target ∧ CanTransitionFrom target st = true))).
Proof.
  revert tr. induction txids as [|txid txids IH]; intros tr Hsub; cbn [prefilter].
  { wp_go. split_and!; try done; by intros ? ?%elem_of_nil. }
  wp_go. apply (wp_mono _ _ _ _ (fun p tr' => tr ⊆ tr' ∧ (sv_tracker cfg = true -> Ev (iTrackerGet txid) p ∈ tr') ∧ (sv_tracker cfg = false -> p = None))).
  { destruct (sv_tracker cfg); [|wp_go; by split_and!]. wp_ask p ltac:(apply Hsub; by left). split_and!; [apply grows_snoc|intros _; apply snoc_here|done]. }
  intros p tr1 (H1 & Hp & Hn). wp_go. eapply wp_mono; [apply IH; intros x Hx; apply Hsub; by right|]. intros kept tr2 (H2 & Hsb & Hall & Hk).
  wp_go. split; [by etrans|]. set (skip := match p with Some p => _ | None => false end).
  assert (skip = true -> passedBy tr2 target txid) as Hskip.
  { unfold skip. destruct p as [p|]; [|done]. intros Hs. destruct (sv_tracker cfg) eqn:Et; [|by specialize (Hn eq_refl)]. exists p. split; [by apply H2, Hp|].
    destruct (String.eqb_spec p target); [by left|right]. by apply negb_true_iff in Hs. }
  destruct skip eqn:Es; split_and!.
  - by constructor.
  - intros x [->|Hx]%elem_of_cons; [right; by apply Hskip|by apply Hall].
  - done.
  - by constructor.
  - intros x [->|Hx]%elem_of_cons; [left; by left|]. destruct (Hall x Hx); [left; by right|by right].
  - intros x [->|Hx]%elem_of_cons Et; [|by apply Hk]. exists p. split; [by apply H2, Hp|]. intros st ->. unfold skip in Es. apply orb_false_iff in Es as [E1 E2].
    split; [by apply String.eqb_neq|by apply negb_false_iff].
Qed.

Lemma applied_wp m target now kept us err kept0 us0 tr :
  Ev (iBatchUpdate (seenRows target now kept0)) (us0, err) ∈ tr -> moved target kept us ⊆ moved target kept0 us0 ->
  wp (seenCall m target) R (applied cfg target kept us) tr (fun succ tr' => tr ⊆ tr' ∧ succ = moved target kept us
    ∧ (sv_tracker cfg = true -> ∀ txid, txid ∈ succ -> Ev (iTrackerUpdate txid target) tt ∈ tr')).
Proof.
  revert us tr. induction kept as [|txid kept IH]; intros [|u us] tr Hev Hsub; cbn [applied];
    [wp_go; split_and!; try done; by intros ? ? ?%elem_of_nil..|]. unfold moved in *. cbn [zip zip_with omap list_omap] in *.
  destruct (Prev u) as [prev|]; [|by apply IH]. destruct (String.eqb (ts_Status prev) target); [by apply IH|].
  wp_go. apply (wp_mono _ _ _ _ (fun _ tr' => tr ⊆ tr' ∧ (sv_tracker cfg = true -> Ev (iTrackerUpdate txid target) tt ∈ tr'))).
  { destruct (sv_tracker cfg); [|wp_go; by split]. wp_ask v ltac:(split; [done|]; exists now, kept0, us0, err; split; [done|]; apply Hsub; by left).
    destruct v. split; [apply grows_snoc|intros _; apply snoc_here]. }
  intros _ tr1 [H1 Ht]. wp_go. eapply wp_mono; [apply IH; [by apply H1|]; intros x Hx; apply Hsub; by right|]. intros succ tr2 (H2 & -> & Hu).
  wp_go. split_and!; [by etrans|done|]. intros Et x [->|Hx]%elem_of_cons; [by apply H2, Ht|by apply Hu].
Qed.

Lemma applySeenCallback_wp m target :
  wp (seenCall m target) R (applySeenCallback cfg m target) [] (fun e tr' => e = None -> seenDone m target tr').
Proof.
  unfold applySeenCallback. fold (seenTxids m). destruct (seenTxids m) as [|t0 ts0] eqn:Et.
  { wp_go. intros _. exists []. split; [rewrite Et; by intros ? ?%elem_of_nil|by left]. }
  rewrite <-Et. clear Et t0 ts0. wp_go. wp_ask now idtac. wp_go. eapply wp_mono; [by apply prefilter_wp|]. intros kept tr1 (H1 & Hsb & Hall & Hk).
  destruct kept as [|k0 ks0] eqn:Ek; [wp_go; intros _; exists []; split; [done|by left]|]. rewrite <-Ek in *. clear Ek k0 ks0.
  wp_go. fold (seenRows target now kept). wp_ask u ltac:(exists now, kept; by split_and!). destruct u as [us err]. cbn [fst snd].
  wp_go. eapply wp_mono; [by apply (applied_wp m target now kept us err kept us); [apply snoc_here|]|]. intros succ tr2 (H2 & -> & Hu).
  assert (Ev (iBatchUpdate (seenRows target now kept)) (us, err) ∈ tr2) as Hev by apply H2, snoc_here. wp_go. fold (bulk target now (moved target kept us)).
  apply (wp_mono _ _ _ _ (fun _ tr3 => tr2 ⊆ tr3 ∧ (sv_publisher cfg = true -> moved target kept us ≠ [] -> ∃ e, Ev (iPublishBulk (bulk target now (moved target kept us))) e ∈ tr3))).
  { destruct (moved target kept us) as [|s0 ss] eqn:Es; [wp_go; by split|]. rewrite <-Es. destruct (sv_publisher cfg); [|wp_go; by split].
    wp_go. wp_ask e ltac:(exists now, kept, us, err; split_and!; [done|done|by rewrite Es]). wp_go. split; [apply grows_snoc|]. intros _ _. exists e. apply snoc_here. }
  intros _ tr3 [H3 Hb]. wp_go. intros ->. exists kept. split.
  - intros txid Hin. destruct (Hall txid Hin) as [?|(p & Hp & Hpp)]; [by left|right]. exists p. split; [|done]. apply H3, H2, grows_snoc, Hp.
  - right. exists now, us. split_and!; [by apply H3|done|]. intros Et txid Hin. by apply H3, Hu.
Qed.

Lemma honoured_any (tr : Tr) : honoured R [] tr.
Proof. by intros ????. Qed.

Lemma seenResponse_wp m target (G : Tr -> icall -> Prop) (D : Tr -> Prop) :
  (∀ tr c, seenCall m target tr c -> G tr c) -> (∀ tr, seenDone m target tr -> D tr) ->
  wp G R (e ← applySeenCallback cfg m target; mret (match (e : option error) with Some _ => fails 500 "failed to store seen status" | None => answer_ 200 bNone end)) []
    (fun resp tr => rs_code resp ≠ 401%Z ∧ (rs_code resp = 200%Z -> D tr)).
Proof.
  intros HG HD. wp_go. eapply (wp_weaken (seenCall m target) G R R); [done|done|]. eapply wp_mono; [apply applySeenCallback_wp|].
  intros [e|] tr Hd; wp_go; (split; [done|]); [done|]. intros _. by apply HD, Hd.
Qed.

(** The request carries the configured token, and one is configured. *)
Definition presentsToken (r : request) : Prop := sv_CallbackToken cfg ≠ "" ∧ rq_Authorization r = ("Bearer " ++ sv_CallbackToken cfg)%string.

Lemma after_prefix p s : has_prefix p s = true -> s = (p ++ String.substring (String.length p) (String.length s - String.length p) s)%string.
Proof.
  revert s. induction p as [|a p IH]; intros s E.
  - cbn. rewrite Nat.sub_0_r. induction s as [|c s IHs]; cbn; [done|]. f_equal. apply IHs. by destruct s.
  - destruct s as [|c s]; [done|]. cbn in E. apply andb_true_iff in E as [->%Ascii.eqb_eq E]. cbn. f_equal. by apply IH.
Qed.

Lemma authorized_spec r : authorized cfg r = true <-> presentsToken r.
Proof.
  unfold authorized, presentsToken, HasPrefix. set (token := sv_CallbackToken cfg). set (auth := rq_Authorization r). rewrite andb_true_iff, negb_true_iff, String.eqb_neq, String.eqb_eq. split.
  - intros [Hn E]. split; [done|]. destruct (has_prefix "Bearer " auth) eqn:Ep; [|by subst]. rewrite (after_prefix _ _ Ep) at 1. f_equal. by rewrite E.
  - intros [Hn E]. split; [done|]. assert (has_prefix "Bearer " auth = true) as Ep by (rewrite E; done). rewrite Ep. pose proof (after_prefix _ _ Ep) as Ea. rewrite E in Ea at 1. by apply (inj (String.app "Bearer ")) in Ea.
Qed.

Lemma handleCallback_wp r m :
  authorized cfg r = true -> bindCallback (callbackMaxBodyBytes cfg) (rq_Body r) = Bound m ->
  wp (callbackCall m) R (handleCallback cfg r) [] (fun resp tr => rs_code resp ≠ 401%Z ∧ (rs_code resp = 200%Z -> callbackDone m tr)).
Proof.
  intros Ha Eb. unfold handleCallback. rewrite Ha, Eb. cbn [negb]. cbv zeta.
  destruct (String.eqb (cbm_Type m) CallbackSeenOnNetwork) eqn:E1.
  { apply seenResponse_wp; intros; unfold callbackCall, callbackDone; by rewrite E1. }
  destruct (String.eqb (cbm_Type m) CallbackSeenMultipleNodes) eqn:E2.
  { apply seenResponse_wp; intros; unfold callbackCall, callbackDone; by rewrite E1, E2. }
  unfold callbackDone. rewrite E1, E2. destruct (String.eqb (cbm_Type m) CallbackStump) eqn:E3.
  { unfold handleStump. destruct (String.eqb_spec (cm_BlockHash (cbm_block m)) ""); [wp_go; by split|]. destruct (_ =? 0)%nat; [wp_go; by split|]. cbn [orb].
    destruct (parsesAsPath (cbm_Stump m)) eqn:Ep; cbn [negb]; [|wp_go; by split]. wp_go. wp_ask e ltac:(unfold callbackCall; rewrite E1, E2, E3; by split_and!).
    destruct e as [e|]; wp_go; (split; [done|]); [done|]. intros _. apply snoc_here. }
  destruct (String.eqb_spec (cbm_Type m) CallbackBlockProcessed) as [E4|E4]; [|wp_go; by split].
  unfold handleBlockProcessed. destruct (String.eqb_spec (cm_BlockHash (cbm_block m)) ""); [wp_go; by split|]. wp_go.
  wp_ask e ltac:(unfold callbackCall; rewrite E1, E2, E3; by split_and!). destruct e as [e|]; wp_go; (split; [done|]); [done|]. intros _. apply snoc_here.
Qed.

(** ** The theorems *)


(** C6: Every answer to a submission is true.  A 202 for one transaction means
    that the broker took its message, with its bytes, or that it was known
    with the status that is answered; a 202 for a batch splits what was
    parsed, with its repetitions, into the transactions of one message batch
    the broker took and those that were known, and counts both.  On any other
    answer no send was acknowledged.  What was parsed is the body from its
    start, in order. *)
Theorem submit_accounts r :
  (∀ tr resp, ends (handleSubmitTransaction cfg r) tr resp -> outcome r resp tr)
  ∧ (∀ tr resp, ends (handleSubmitTransactions cfg r) tr resp -> batchOutcome r resp tr)
  ∧ (∀ parsed, parseAll (length (rq_Body r)) (rq_Body r) [] = inr parsed ->
       ∃ rest, concat (List.map snd parsed) ++ rest = rq_Body r ∧ (rest = [] ∨ ∃ tx, NewTransactionFromStream rest = Ok (tx, 0%nat))).
Proof.
  split_and!.
  - intros tr resp He. apply (wp_ends (admits (extractSubmitOptions r)) R _ _ _ _ (handleSubmitTransaction_wp r) He), honoured_any.
  - intros tr resp He. apply (wp_ends (admits (extractSubmitOptions r)) R _ _ _ _ (handleSubmitTransactions_wp r) He), honoured_any.
  - intros parsed E. pose proof (parseAll_spec (length (rq_Body r)) (rq_Body r) [] ltac:(lia)) as Hs. rewrite E in Hs. destruct Hs as (ps & rest & -> & Hc & Hr). by exists rest.
Qed.

(** C9: A callback is authenticated, durable and exact.  Without the configured
    token, or when none is configured, the answer is 401 and nothing at all
    is called, and no other request gets a 401.  A 200 means that the effect
    is durable: the STUMP was stored under its content hash, the message was
    queued, or every transaction is at the target status or was offered to
    the store without an error.  Whatever is answered, the calls are those of
    the message: only transactions of the message are offered, none that the
    tracker knows to be past the target; the tracker moves and the event
    announces exactly the rows the store moved; a STUMP is stored only when
    it parses. *)
Theorem callback_exact r tr resp :
  ends (handleCallback cfg r) tr resp ->
  (rs_code resp = 401%Z <-> ~ presentsToken r) ∧ (~ presentsToken r -> tr = [])
  ∧ (rs_code resp = 200%Z -> ∃ m, bindCallback (callbackMaxBodyBytes cfg) (rq_Body r) = Bound m ∧ callbackDone m tr)
  ∧ (∀ tr1 e tr2, tr = tr1 ++ e :: tr2 -> ∃ m, bindCallback (callbackMaxBodyBytes cfg) (rq_Body r) = Bound m ∧ callbackCall m tr1 (ev_call e)).
Proof.
  intros He. pose proof (authorized_spec r) as Hauth. destruct (authorized cfg r) eqn:Ea.
  - assert (~ ~ presentsToken r) as Hpt by (intros Hn; by apply Hn, Hauth). destruct (bindCallback (callbackMaxBodyBytes cfg) (rq_Body r)) as [m| |] eqn:Eb.
    + pose proof (handleCallback_wp r m Ea Eb) as Hw. destruct (wp_ends _ _ _ _ _ _ Hw He (honoured_any tr)) as [H1 H2].
      split_and!; [split; done|by intros ?|intros E; exists m; by split; [|apply H2]|]. intros tr1 e tr2 E. exists m. split; [done|].
      eapply (wp_begins (callbackCall m) R); [exact Hw|by eapply ends_begins|apply honoured_any|exact E].
    + unfold handleCallback in He. rewrite Ea, Eb in He. inversion He; subst. split_and!; try done. by intros [|] ? ?.
    + unfold handleCallback in He. rewrite Ea, Eb in He. inversion He; subst. split_and!; try done. by intros [|] ? ?.
  - assert (~ presentsToken r) as Hpt by (intros Ht; by apply Hauth in Ht). unfold handleCallback in He. rewrite Ea in He. inversion He; subst. split_and!; try done. by intros [|] ? ?.
Qed.
End IntakeProps.

(** ** Concrete runs *)

(** Every byte is a transaction without inputs. *)
#[local] Instance demoIntake : IntakeLib := {
  Tx := byte;
  NewTransactionFromStream b := match b with [] => Err ErrDecode | x :: _ => Ok (x, 1%nat) end;
  TxIDOf x := HexJSON.EncodeToString [x];
  InputsOf _ := [];
  parsesAsPath b := (0 <? length b)%nat;
  bindRawTx _ _ := BadBody;
  bindCallback limit b :=
    if (limit <? Z.of_nat (length b))%Z then BodyTooLarge
    else Bound (mkCallbackMsg CallbackSeenOnNetwork "" ["01"; "02"] 0 b (mkCallbackMessage "" "" 0 [] [] []));
  sha256Sum b := b
}.

(** No URL parses. *)
#[local] Instance demoGuard : NetLib := { urlParse _ := Err ErrDecode; ParseIP _ := None; SplitHost _ := Err ErrDecode }.

(** Everything works; the transaction 02 has been seen, and the rest is
    received. *)
Definition demoAnswer (c : icall) (s : unit) : ianswer c * unit :=
  match c return ianswer c * unit with
  | iNow => (Some 7%Z, s)
  | iRandom => (Ok [x00], s)
  | iEnqueue _ => (true, s)
  | iGetOrInsert row => (if String.eqb (ts_TxID row) "02" then Ok (Some (intakeRow "02" StatusSeenOnNetwork 0 None "" []), false) else Ok (Some row, true), s)
  | iTrackerGet txid => (if String.eqb txid "02" then Some StatusSeenOnNetwork else Some StatusReceived, s)
  | iTrackerAdd _ _ | iTrackerUpdate _ _ => (tt, s)
  | iBatchUpdate rows => ((List.map (fun row => mkStatusUpdate (Some (intakeRow (ts_TxID row) StatusReceived 0 None "" [])) None) rows, None), s)
  | iGetStatus _ => (Ok None, s)
  | iGetSubmissions _ => (Ok [], s)
  | _ => (None, s)
  end.

Definition demoServer : serverConfig := mkServerConfig "secret" false 0 true true true true.
Definition demoRequest (auth : string) : request := mkRequest "" "token" "" auth "application/octet-stream" [x01; x02; x03].

(** A batch of three of which the second is known. *)
Definition demoBatch : trace ianswer := run_trace demoAnswer (handleSubmitTransactions demoServer (demoRequest "")) tt.


Lemma submit_accounts_witness :
  (run demoAnswer (handleSubmitTransactions demoServer (demoRequest "")) tt).1 = answer_ 202 (bBatch 2 1 3)
  ∧ batchOutcome (demoRequest "") (answer_ 202 (bBatch 2 1 3)) demoBatch.
Proof.
  split; [vm_compute; reflexivity|]. destruct (submit_accounts demoServer (demoRequest "")) as (_ & Hb & _).
  apply Hb. apply (run_ends demoAnswer (handleSubmitTransactions demoServer (demoRequest "")) tt).
Defined.

(** A SEEN callback for two transactions, of which the tracker knows one. *)
Definition demoSeen (auth : string) : trace ianswer := run_trace demoAnswer (handleCallback demoServer (demoRequest auth)) tt.

Lemma callback_exact_witness :
  demoSeen "Bearer wrong" = [] ∧ (run demoAnswer (handleCallback demoServer (demoRequest "Bearer secret")) tt).1 = answer_ 200 bNone
  ∧ ∃ m, bindCallback (callbackMaxBodyBytes demoServer) [x01; x02; x03] = Bound m ∧ callbackDone demoServer m (demoSeen "Bearer secret").
Proof.
  split; [vm_compute; reflexivity|]. split; [vm_compute; reflexivity|].
  destruct (callback_exact demoServer (demoRequest "Bearer secret") (demoSeen "Bearer secret") (answer_ 200 bNone)) as (_ & _ & Hd & _); [|by apply Hd].
  apply (run_ends demoAnswer (handleCallback demoServer (demoRequest "Bearer secret")) tt).
Defined.
