(* ===== verification/ApiReads.v ===== *)
(** * ApiReads: the read and operator routes of the API server

    Models [src/services/api_server/block_status_routes.go] and
    [reprocess_routes.go], and the caches of the health route in
    [handlers.go].  The values [strconv] makes of the query parameters, and
    the answers of the store to the caches, are arguments; the block list is
    written against the class of [Paging]. *)
From stdpp Require Import base gmap strings list.
From Stdlib Require Import Ascii ZArith Lia.
From S2P Require Import Prelude Models StoreCore GoStrings Paging Teranode Effects MerklePool.

(** ** [GET /api/v1/blocks/processing-status] *)

Definition blockStatusListDefaultLimit : Z := 50.
Definition blockStatusListMaxLimit : Z := 200.

(** A row as it is served; a time as its instant. *)
Record blockProcessingStatusResponse : Type := mkBlockResponse {
  br_BlockHash : string;
  br_BlockHeight : Z;
  br_HeaderSeenAt : Time;
  br_ProcessedAt : option Z;
  br_BUMPBuiltAt : option Z;
  br_Status : string;
  br_OrphanedAt : option Z;
  br_ReconciledAt : option Z;
  br_HasBlockProcessed : bool;
  br_HasCompoundBUMP : bool
}.

Definition isSet (t : option Z) : bool := match t with Some _ => true | None => false end.

Definition toBlockProcessingResponse (bp : BlockProcessingStatus) : blockProcessingStatusResponse :=
  mkBlockResponse (bp_BlockHash bp) (bp_BlockHeight bp) (bp_HeaderSeenAt bp) (bp_ProcessedAt bp) (bp_BUMPBuiltAt bp) (bp_Status bp)
    (bp_OrphanedAt bp) (bp_ReconciledAt bp) (isSet (bp_ProcessedAt bp)) (isSet (bp_BUMPBuiltAt bp)).

(** A query parameter: absent, or what [strconv] makes of it. *)
Abbreviation param := (option (Res Z)).

Inductive listAnswer : Type :=
| laError (code : Z) (msg : string)
| laPage (blocks : list blockProcessingStatusResponse) (nextCursor : option Z).

Definition limitOf (limit : param) : option Z :=
  match limit with
  | None => Some (Z.min blockStatusListDefaultLimit blockStatusListMaxLimit)
  | Some (Err _) => None
  | Some (Ok n) => if (n <=? 0)%Z then None else Some (if (blockStatusListMaxLimit <? n)%Z then blockStatusListMaxLimit else n)
  end.

Section BlockRoutes.
Context {S : Type} `{BlockLister S}.

Definition handleListBlockProcessingStatus (s : S) (limit beforeHeight : param) : listAnswer :=
  match limitOf limit with
  | None => laError 400 "limit must be a positive integer"
  | Some limit =>
      match beforeHeight with
      | Some (Err _) => laError 400 "before-height must be a non-negative integer"
      | _ =>
          let before := match beforeHeight with Some (Ok n) => n | _ => 0%Z end in
          if (maxInt64 <? before)%Z then laError 400 "before-height is too large"
          else
            match bl_list s background before (limit + 1) with
            | (_, Some _) => laError 500 "failed to list block processing status"
            | (rows, None) =>
                if (limit <? Z.of_nat (length rows))%Z
                then laPage (List.map toBlockProcessingResponse (take (Z.to_nat limit) rows)) (bp_BlockHeight <$> rows !! (Z.to_nat limit - 1)%nat)
                else laPage (List.map toBlockProcessingResponse rows) None
            end
      end
  end.
End BlockRoutes.

(** The row of one hash: the status code, and the row. *)
Definition handleGetBlockProcessingStatus (hash : string) (row : Res BlockProcessingStatus) : Z * option blockProcessingStatusResponse :=
  if String.eqb hash "" then (400%Z, None)
  else
    match row with
    | Err ErrNotFound => (404%Z, None)
    | Err _ => (500%Z, None)
    | Ok bp => (200%Z, Some (toBlockProcessingResponse bp))
    end.

(** ** [POST /api/v1/blocks/:blockHash/reprocess] *)

Definition validBlockHash (s : string) : bool :=
  (String.length s =? 64)%nat && match HexJSON.DecodeString s with Ok _ => true | Err _ => false end.

(** The response to the client, from the error of the pool. *)
Definition reprocessStatus (err : option svcErr) : Z :=
  match err with
  | None => 202
  | Some (ReprocessErr code _) => if (400 <=? code)%Z && (code <? 500)%Z then 422 else 502
  | Some _ => 500
  end.

(** [urls] are the endpoints of the pool, if one is configured. *)
Definition handleReprocessBlock (token : string) (urls : option (list string)) (callbackURL callbackToken hash : string) : MProg Z :=
  if String.eqb hash "" then mret 400%Z
  else if negb (validBlockHash hash) then mret 400%Z
  else
    match urls with
    | None => mret 503%Z
    | Some urls =>
        err ← Reprocess token urls hash callbackURL callbackToken;
        mret (reprocessStatus err)
    end.

(** ** The caches of [GET /health] *)

Definition healthTipTTL : Z := 5 * 1000000000.

Record healthCache : Type := mkHealthCache {
  tipHeight : Z;
  tipFetchedAt : Time;
  policyByURL : gmap string EndpointPolicy;
  policyFetchedAt : Time
}.
Definition newHealthCache : healthCache := mkHealthCache 0 None ∅ None.

(** [time.Since(t) < healthTipTTL]; the zero time is long ago. *)
Definition within (t : Time) (now : Z) : bool := match t with Some t => (now - t <? healthTipTTL)%Z | None => false end.

(** A probe with a store: the time, what the store would answer, and the
    time after it. *)
Definition activeTipHeight (now : Z) (answer : Res Z) (after : Z) (c : healthCache) : Z * healthCache :=
  if within (tipFetchedAt c) now then (tipHeight c, c)
  else
    match answer with
    | Err _ => (tipHeight c, c)
    | Ok h => (h, mkHealthCache h (Some after) (policyByURL c) (policyFetchedAt c))
    end.

Definition normalizeEndpointURL (u : string) : string := Breaker.normalizeURL (TrimSpace u).

Definition policiesOf (eps : list DatahubEndpoint) : gmap string EndpointPolicy :=
  foldl (fun m ep => match DE_Policy ep with Some p => <[normalizeEndpointURL (DE_URL ep) := p]> m | None => m end) ∅ eps.

Definition endpointPolicies (now : Z) (answer : Res (list DatahubEndpoint)) (after : Z) (c : healthCache) : gmap string EndpointPolicy * healthCache :=
  if within (policyFetchedAt c) now then (policyByURL c, c)
  else
    match answer with
    | Err _ => (policyByURL c, c)
    | Ok eps => let m := policiesOf eps in (m, mkHealthCache (tipHeight c) (tipFetchedAt c) m (Some after))
    end.

(** The datahub part of the health document: each endpoint of the client with
    its advertised policy. *)
Definition datahubStatuses (statuses : list EndpointStatus) (policies : gmap string EndpointPolicy) : list (EndpointStatus * option EndpointPolicy) :=
  List.map (fun st => (st, policies !! normalizeEndpointURL (es_URL st))) statuses.

Record probe_ : Type := mkProbe { pr_now : Z; pr_tip : Res Z; pr_tipAfter : Z; pr_eps : Res (list DatahubEndpoint); pr_epsAfter : Z }.

Definition handleHealth (statuses : list EndpointStatus) (p : probe_) (c : healthCache) : Z * list (EndpointStatus * option EndpointPolicy) * healthCache :=
  let '(height, c) := activeTipHeight (pr_now p) (pr_tip p) (pr_tipAfter p) c in
  let '(policies, c) := endpointPolicies (pr_now p) (pr_eps p) (pr_epsAfter p) c in
  (height, datahubStatuses statuses policies, c).
