(* ===== verification/ApiReadsProps.v ===== *)
(** * ApiReadsProps: what a page, a probe and a reprocess request show

    A page of the block list holds the next rows below its cursor, and says
    where to go on; the health document shows the last height that could be
    read, at most one time to live late while the store answers. *)
From stdpp Require Import base gmap strings list sorting.
From Stdlib Require Import Ascii ZArith Lia.
From S2P Require Import Prelude Models Keys Engine PebbleBlocks PebbleBlocksInv PebbleBlocksProps StoreCore GoStrings Paging Teranode Effects MerklePool ApiReads.

(** ** Pages *)

Lemma limitOf_range limit n : limitOf limit = Some n -> (0 < n <= blockStatusListMaxLimit)%Z.
Proof.
  unfold limitOf, blockStatusListMaxLimit, blockStatusListDefaultLimit. destruct limit as [[n'|e]|]; [|done|intros [= <-]; lia].
  destruct (Z.leb_spec n' 0); [done|]. destruct (Z.ltb_spec 200 n'); intros [= <-]; lia.
Qed.

Section Pages.
Context {S : Type} `{BlockLister S}.

(** What a page shows of the rows below [before], and what its cursor leaves
    for the pages after it. *)
Definition pageOk (s : S) (before : Z) (rows : list BlockProcessingStatus) (cursor : option Z) : Prop :=
  NoDup rows ∧ StronglySorted desc rows ∧ (∀ r, r ∈ rows -> bl_has s r ∧ below before r)
  ∧ match cursor with
    | None => ∀ r, bl_has s r -> below before r -> r ∈ rows
    | Some c =>
        (∃ r0, last rows = Some r0 ∧ bp_BlockHeight r0 = c)
        ∧ (∀ r, bl_has s r -> below before r -> r ∈ rows ∨ (bp_BlockHeight r <= c)%Z)
        ∧ ((∀ r r', bl_has s r -> bl_has s r' -> bp_BlockHeight r = bp_BlockHeight r' -> r = r') ->
             (0 < c)%Z ∧ ∀ r, bl_has s r -> below before r -> r ∈ rows ∨ below c r)
    end.

Lemma take_drop_in {A} n (q : list A) x : x ∈ q -> x ∈ take n q ∨ x ∈ drop n q.
Proof. rewrite <-(take_drop n q) at 1. by rewrite elem_of_app. Qed.

Lemma page_of s before limit (q := (bl_list s background before (limit + 1)).1) :
  is_u64 before -> (0 < limit)%Z ->
  (bl_list s background before (limit + 1)).2 = None
  ∧ if (limit <? Z.of_nat (length q))%Z then pageOk s before (take (Z.to_nat limit) q) (bp_BlockHeight <$> q !! (Z.to_nat limit - 1)%nat) else pageOk s before q None.
Proof.
  intros Hb Hl. unfold q. clear q. destruct (bl_spec s before (limit + 1) Hb ltac:(lia)) as (q & -> & Hs & Hn & Hq). cbn [fst snd]. split; [done|].
  rewrite length_take. destruct (Z.ltb_spec limit (Z.of_nat (Z.to_nat (limit + 1) `min` length q))) as [Hlt|Hge].
  - rewrite take_take, Nat.min_l by lia. rewrite lookup_take_lt by lia. set (n := Z.to_nat limit) in *. assert (n < length q)%nat as Hlen by lia.
    destruct (lookup_lt_is_Some_2 q (n - 1) ltac:(lia)) as [r0 E0]. rewrite E0. cbn [fmap option_fmap option_map].
    assert (r0 ∈ take n q) as Hin0 by (apply (list_elem_of_lookup_2 _ (n - 1)); rewrite lookup_take_lt; [done|lia]).
    assert (∀ r, r ∈ drop n q -> (bp_BlockHeight r <= bp_BlockHeight r0)%Z) as Hrest by (intros r Hr; by apply (sorted_split q n r0 r)).
    unfold pageOk. split; [eapply sublist_NoDup; [exact Hn|apply sublist_take]|]. split; [by apply sorted_take|].
    split; [intros r Hr; apply Hq; eapply subseteq_take, Hr|]. split; [exists r0; split; [|done]|].
    { rewrite last_lookup, length_take, Nat.min_l by lia. replace (Nat.pred n) with (n - 1)%nat by lia. rewrite lookup_take_lt; [done|lia]. }
    assert (∀ r, bl_has s r -> below before r -> r ∈ take n q ∨ r ∈ drop n q) as Hall by (intros r H1 H2; apply take_drop_in; by apply Hq).
    split; [intros r H1 H2; destruct (Hall r H1 H2); [by left|right; by apply Hrest]|]. intros Hd.
    assert (∀ r, r ∈ drop n q -> (bp_BlockHeight r < bp_BlockHeight r0)%Z) as Hstrict.
    { intros r Hr. specialize (Hrest r Hr). destruct (Z.eq_dec (bp_BlockHeight r) (bp_BlockHeight r0)) as [E|]; [|lia].
      assert (r = r0) as ->. { apply Hd; [|apply Hq; eapply subseteq_take, Hin0|done]. apply Hq. eapply subseteq_drop, Hr. }
      rewrite <-(take_drop n q) in Hn. apply NoDup_app in Hn as (_ & Hn & _). by destruct (Hn r0 Hin0). }
    split; [|intros r H1 H2; destruct (Hall r H1 H2); [by left|right; right; by apply Hstrict]].
    destruct (lookup_lt_is_Some_2 q n Hlen) as [r1 E1]. assert (r1 ∈ drop n q) as Hr1 by (apply (list_elem_of_lookup_2 _ 0); by rewrite lookup_drop, Nat.add_0_r).
    pose proof (Hstrict r1 Hr1). pose proof (bl_height s r1 (proj1 (proj1 (Hq r1) (subseteq_drop _ _ _ Hr1)))). lia.
  - rewrite take_ge by lia. unfold pageOk. split_and!; try done; intros r; [by apply Hq|]. intros H1 H2. by apply Hq.
Qed.

(** The block list tells the truth.  A page has at most 200 rows, the next
    ones below its cursor in descending height, each once.  Without a next
    cursor nothing is left.  With one, it is the height of the last row,
    every row that is not shown is at that height or below it, and when no
    two rows share a height the next page goes on exactly where this one
    ends. *)
Theorem page_truthful s limit before blocks cursor :
  is_u64 (match before with Some (Ok n) => n | _ => 0%Z end) ->
  handleListBlockProcessingStatus s limit before = laPage blocks cursor ->
  ∃ rows, blocks = List.map toBlockProcessingResponse rows ∧ (Z.of_nat (length rows) <= 200)%Z
    ∧ pageOk s (match before with Some (Ok n) => n | _ => 0%Z end) rows cursor.
Proof.
  intros Hu. unfold handleListBlockProcessingStatus. destruct (limitOf limit) as [n|] eqn:El; [|done]. apply limitOf_range in El. unfold blockStatusListMaxLimit in El.
  set (b := match before with Some (Ok n) => n | _ => 0%Z end) in *. destruct (page_of s b n Hu ltac:(lia)) as [He Hp].
  intros E. assert ((if (maxInt64 <? b)%Z then laError 400 "before-height is too large"
    else match bl_list s background b (n + 1) with (_, Some _) => laError 500 "failed to list block processing status"
      | (rows, None) => if (n <? Z.of_nat (length rows))%Z then laPage (List.map toBlockProcessingResponse (take (Z.to_nat n) rows)) (bp_BlockHeight <$> rows !! (Z.to_nat n - 1)%nat)
        else laPage (List.map toBlockProcessingResponse rows) None end) = laPage blocks cursor) as E'.
  { destruct before as [[?|?]|]; try done. }
  clear E. destruct (maxInt64 <? b)%Z; [done|]. destruct (bl_list s background b (n + 1)) as [rows err]. cbn [fst snd] in *. rewrite He in E'.
  destruct (Z.ltb_spec n (Z.of_nat (length rows))); injection E' as <- <-; eexists; (split; [reflexivity|split; [|exact Hp]]).
  - rewrite length_take. lia.
  - lia.
Qed.
End Pages.

(** ** Health *)

(** The heights served over a sequence of probes, from a fresh server. *)
Fixpoint probeAll (statuses : list EndpointStatus) (ps : list probe_) (c : healthCache) : list Z * healthCache :=
  match ps with
  | [] => ([], c)
  | p :: ps =>
      let '(h, _, c) := handleHealth statuses p c in
      let '(hs, c) := probeAll statuses ps c in (h :: hs, c)
  end.

(** [h] was read at a probe of [past], and since then every probe was within
    the time to live of that read, or the store could not answer. *)
Definition lastRead (past : list probe_) (h : Z) (at_ : Time) : Prop :=
  (at_ = None ∧ h = 0%Z ∧ ∀ p, p ∈ past -> ∃ e, pr_tip p = Err e)
  ∨ ∃ before p after, past = before ++ p :: after ∧ pr_tip p = Ok h ∧ at_ = Some (pr_tipAfter p)
      ∧ ∀ p', p' ∈ after -> (pr_now p' - pr_tipAfter p < healthTipTTL)%Z ∨ ∃ e, pr_tip p' = Err e.

Lemma handleHealth_lastRead statuses past p c :
  lastRead past (tipHeight c) (tipFetchedAt c) ->
  let r := handleHealth statuses p c in
  lastRead (past ++ [p]) r.1.1 (tipFetchedAt r.2) ∧ tipHeight r.2 = r.1.1.
Proof.
  intros Hl. unfold handleHealth, activeTipHeight, endpointPolicies.
  assert (∀ c0 : healthCache, tipHeight (if within (policyFetchedAt c0) (pr_now p) then (policyByURL c0, c0) else match pr_eps p with Err _ => (policyByURL c0, c0)
    | Ok eps => (policiesOf eps, mkHealthCache (tipHeight c0) (tipFetchedAt c0) (policiesOf eps) (Some (pr_epsAfter p))) end).2 = tipHeight c0
    ∧ tipFetchedAt (if within (policyFetchedAt c0) (pr_now p) then (policyByURL c0, c0) else match pr_eps p with Err _ => (policyByURL c0, c0)
    | Ok eps => (policiesOf eps, mkHealthCache (tipHeight c0) (tipFetchedAt c0) (policiesOf eps) (Some (pr_epsAfter p))) end).2 = tipFetchedAt c0) as Hpol.
  { intros c0. destruct (within _ _); [done|]. by destruct (pr_eps p). }
  assert (∀ h (c0 : healthCache), tipHeight c0 = h -> lastRead (past ++ [p]) h (tipFetchedAt c0) ->
    let r := (let '(policies, c1) := (if within (policyFetchedAt c0) (pr_now p) then (policyByURL c0, c0) else match pr_eps p with Err _ => (policyByURL c0, c0)
      | Ok eps => (policiesOf eps, mkHealthCache (tipHeight c0) (tipFetchedAt c0) (policiesOf eps) (Some (pr_epsAfter p))) end) in (h, datahubStatuses statuses policies, c1)) in
    lastRead (past ++ [p]) r.1.1 (tipFetchedAt r.2) ∧ tipHeight r.2 = r.1.1) as Hfin.
  { intros h c0 E Hr. destruct (Hpol c0) as [H1 H2]. destruct (if within _ _ then _ else _) as [policies c1]. cbn [fst snd] in *. rewrite H1, H2. by split. }
  destruct (within (tipFetchedAt c) (pr_now p)) eqn:Ew; [|destruct (pr_tip p) as [h|e] eqn:Et].
  - apply Hfin; [done|]. destruct Hl as [(E & _)|(b & q & a & -> & Eq & E & Hall)]; [by rewrite E in Ew|]. right. exists b, q, (a ++ [p]). rewrite <-app_assoc. split_and!; try done.
    intros p' [?| ->%list_elem_of_singleton]%elem_of_app; [by apply Hall|left]. rewrite E in Ew. cbn in Ew. by apply Z.ltb_lt.
  - apply Hfin; [done|]. right. exists past, p, []. split_and!; try done. by intros ? ?%elem_of_nil.
  - apply Hfin; [done|]. destruct Hl as [(E & E' & Hall)|(b & q & a & -> & Eq & E & Hall)].
    + left. split_and!; try done. intros p' [?| ->%list_elem_of_singleton]%elem_of_app; [by apply Hall|by exists e].
    + right. exists b, q, (a ++ [p]). rewrite <-app_assoc. split_and!; try done. intros p' [?| ->%list_elem_of_singleton]%elem_of_app; [by apply Hall|right; by exists e].
Qed.

(** The height on the health route is as fresh as the store allows.  At every
    probe, whatever came before, the served height is that of the last read
    that succeeded, and every probe since then was within one time to live of
    it or met a store that could not answer; zero is served only while no
    read has succeeded. *)
Theorem health_tip_fresh statuses ps i h :
  (probeAll statuses ps newHealthCache).1 !! i = Some h -> ∃ at_, lastRead (take (S i) ps) h at_.
Proof.
  assert (∀ ps past c i h, lastRead past (tipHeight c) (tipFetchedAt c) -> (probeAll statuses ps c).1 !! i = Some h -> ∃ at_, lastRead (past ++ take (S i) ps) h at_) as Hgen.
  { induction ps0 as [|p ps0 IH]; intros past c i0 h0 Hl Hi; [done|]. cbn [probeAll] in Hi. destruct (handleHealth_lastRead statuses past p c Hl) as [H1 H2].
    destruct (handleHealth statuses p c) as [[h1 ds] c1]. cbn [fst snd] in *. specialize (IH (past ++ [p]) c1). rewrite H2 in IH.
    destruct (probeAll statuses ps0 c1) as [hs c2]. cbn [fst] in *. destruct i0 as [|i0]; cbn [lookup list_lookup] in Hi.
    - injection Hi as <-. by exists (tipFetchedAt c1).
    - destruct (IH i0 h0 H1 Hi) as [at_ Hr]. exists at_. rewrite <-app_assoc in Hr. exact Hr. }
  intros Hi. apply (Hgen ps [] newHealthCache i h); [|done]. left. split_and!; try done. by intros ? ?%elem_of_nil.
Qed.

(** ** Reprocess requests *)

(** A malformed hash never reaches a merkle-service. *)
Lemma reprocess_guarded token urls callbackURL callbackToken hash tr :
  validBlockHash hash = false -> begins (handleReprocessBlock token urls callbackURL callbackToken hash) tr -> tr = [].
Proof.
  intros Hv [q Hs]. unfold handleReprocessBlock in Hs. destruct (String.eqb hash ""); [by inversion Hs|]. rewrite Hv in Hs. cbn [negb] in Hs. by inversion Hs.
Qed.

(** ** Concrete runs *)

(** Two blocks at height 7 and one at 9.  The first page of two ends inside
    height 7, and its cursor hides the other block of that height from the
    next page. *)
Lemma page_truthful_witness :
  (∃ b, handleListBlockProcessingStatus wLister (Some (Ok 2%Z)) None = laPage b (Some 7%Z) ∧ List.map br_BlockHash b = ["cc"; "aa"])
  ∧ handleListBlockProcessingStatus wLister (Some (Ok 2%Z)) (Some (Ok 7%Z)) = laPage [] None
  ∧ ∃ rows : list BlockProcessingStatus, (Z.of_nat (length rows) <= 200)%Z ∧ pageOk wLister 7 rows None.
Proof.
  assert (handleListBlockProcessingStatus wLister (Some (Ok 2%Z)) (Some (Ok 7%Z)) = laPage [] None) as E by (vm_compute; reflexivity).
  split; [eexists; split; vm_compute; reflexivity|]. split; [exact E|].
  destruct (page_truthful wLister (Some (Ok 2%Z)) (Some (Ok 7%Z)) [] None) as (rows & _ & Hl & Hp); [by split|exact E|]. exists rows. exact (conj Hl Hp).
Defined.

(** A sibling of the last row of a page is on no page: the cursor of the
    block list is the height itself, and the next page starts below it. *)
Lemma page_skips_sibling :
  ∃ r b, bl_has wLister r ∧ handleListBlockProcessingStatus wLister (Some (Ok 2%Z)) None = laPage b (Some 7%Z)
    ∧ (toBlockProcessingResponse r ∉ b) ∧ handleListBlockProcessingStatus wLister (Some (Ok 2%Z)) (Some (Ok 7%Z)) = laPage [] None.
Proof.
  exists (storedBlockProcessing_toModel (mkStoredBlockProcessing "bb" 7 11 0 0 BlockStatusActive 0 0)). eexists. split; [by eexists|].
  split; [vm_compute; reflexivity|]. split; [vm_compute; set_solver|vm_compute; reflexivity].
Qed.

Definition demoProbe (now : Z) (tip : Res Z) : probe_ := mkProbe now tip now (Ok []) now.

(** The second probe is served from the cache, the third fails to read. *)
Lemma health_tip_fresh_witness :
  let ps := [demoProbe 10 (Ok 100%Z); demoProbe 20 (Ok 101%Z); demoProbe 6000000000 (Err ErrIO)] in
  (probeAll [] ps newHealthCache).1 = [100; 100; 100]%Z ∧ ∃ at_, lastRead ps 100 at_.
Proof.
  cbn zeta. split; [vm_compute; reflexivity|].
  apply (health_tip_fresh [] [demoProbe 10 (Ok 100%Z); demoProbe 20 (Ok 101%Z); demoProbe 6000000000 (Err ErrIO)] 2 100). vm_compute. reflexivity.
Defined.
