(* ===== verification/Kafka.v ===== *)
(** * Kafka: the in-process broker and the consumer

    Models [src/kafka/memory_broker.go], [consumer.go], [partitions.go] and
    [topics.go].  A mailbox is the list of what was ever put into it, in
    order; which branch a [select] takes (there was room, the subscriber is
    gone, the context ended, the wait was too long) is an argument, and so is
    the order in which the groups of a topic are visited.  Publishes are taken
    one after the other.  The consumer is a program over the calls it makes;
    the number of rounds of its loops is arbitrary. *)
From stdpp Require Import base gmap strings list pretty.
From Stdlib Require Import Ascii ZArith Lia.
From Stdlib Require Import Strings.Byte.
From S2P Require Import Prelude Effects.

(** ** Messages and partitions *)

Record brokerMsg : Type := mkBrokerMsg {
  bm_Topic : string;
  bm_Key : string;
  bm_Value : list byte;
  bm_Partition : Z;
  bm_Offset : Z
}.

Definition DLQTopic (topic : string) : string := (topic ++ ".dlq")%string.

(** [fnv.New32a]. *)
Definition fnvStep (h : Z) (c : ascii) : Z := (Z.lxor h (Z.of_nat (nat_of_ascii c)) * 16777619) mod 2 ^ 32.
Fixpoint fnv32a (h : Z) (key : string) : Z :=
  match key with
  | EmptyString => h
  | String c key => fnv32a (fnvStep h c) key
  end.
Definition fnvOffset : Z := 2166136261.

Definition int32 (z : Z) : Z := (z + 2 ^ 31) mod 2 ^ 32 - 2 ^ 31.

(** Go's remainder has the sign of the dividend. *)
Definition partitionForKey (key : string) (n : Z) : Z :=
  if (n <=? 1)%Z || String.eqb key "" then 0%Z
  else
    let p := Z.rem (int32 (fnv32a fnvOffset key)) (int32 n) in
    if (p <? 0)%Z then (- p)%Z else p.

(** ** The in-process broker *)

Abbreviation mailbox := (list brokerMsg).

Record memoryBroker : Type := mkMemoryBroker {
  mb_closed : bool;
  mb_groups : gmap string (gmap string (list mailbox));
  mb_offsets : gmap string Z;
  mb_partitions : gmap string Z
}.

Definition NewMemoryBroker (partitions : gmap string Z) : memoryBroker := mkMemoryBroker false ∅ ∅ partitions.

Definition partitionsFor (b : memoryBroker) (topic : string) : Z :=
  match mb_partitions b !! topic with
  | Some n => if (0 <? n)%Z then n else 1%Z
  | None => 1%Z
  end.

Inductive brokerError : Type := ErrClosed | ErrBackpressure | ErrCtx.

(** What the [select] of one send finds. *)
Inductive branch : Type := brRoom | brGone | brDone | brTimeout.

Definition withGroups (g : gmap string (gmap string (list mailbox))) (b : memoryBroker) : memoryBroker :=
  mkMemoryBroker (mb_closed b) g (mb_offsets b) (mb_partitions b).

(** [t.ch <- msg] for the mailbox of [group]. *)
Definition put (group topic : string) (p : nat) (msg : brokerMsg) (b : memoryBroker) : memoryBroker :=
  withGroups (alter (alter (alter (fun m => m ++ [msg]) p) topic) group (mb_groups b)) b.

Definition hasMailbox (b : memoryBroker) (topic : string) (p : nat) (group : string) : bool :=
  match mb_groups b !! group ≫= (fun topics => topics !! topic) with
  | Some mbs => (p <? length mbs)%nat
  | None => false
  end.

(** The loop over the targets. *)
Fixpoint sendAll (async : bool) (targets : list string) (found : string -> branch) (topic : string) (p : nat) (msg : brokerMsg) (b : memoryBroker)
  : option brokerError * memoryBroker :=
  match targets with
  | [] => (None, b)
  | g :: targets =>
      match found g with
      | brRoom => sendAll async targets found topic p msg (put g topic p msg b)
      | brGone => sendAll async targets found topic p msg b
      | brDone => if async then sendAll async targets found topic p msg b else (Some ErrCtx, b)
      | brTimeout => if async then sendAll async targets found topic p msg b else (Some ErrBackpressure, b)
      end
  end.

(** How one publish meets the world: the order of the groups, and what each
    send finds. *)
Record weather : Type := mkWeather { we_order : list string; we_found : string -> branch }.

Definition publish (async : bool) (w : weather) (topic key : string) (value : list byte) (b : memoryBroker) : option brokerError * memoryBroker :=
  if mb_closed b then (Some ErrClosed, b)
  else
    let p := partitionForKey key (partitionsFor b topic) in
    let offsetKey := (topic ++ "#" ++ pretty p)%string in
    let offset := default 0%Z (mb_offsets b !! offsetKey) in
    let targets := List.filter (hasMailbox b topic (Z.to_nat p)) (we_order w) in
    let b := mkMemoryBroker (mb_closed b) (mb_groups b) (<[offsetKey := (offset + 1)%Z]> (mb_offsets b)) (mb_partitions b) in
    sendAll async targets (we_found w) topic (Z.to_nat p) (mkBrokerMsg topic key value p offset) b.

(** A key with its encoded value. *)
Fixpoint SendBatch (topic : string) (msgs : list (weather * (string * list byte))) (b : memoryBroker) : option brokerError * memoryBroker :=
  match msgs with
  | [] => (None, b)
  | (w, (key, value)) :: msgs =>
      match publish false w topic key value b with
      | (Some e, b) => (Some e, b)
      | (None, b) => SendBatch topic msgs b
      end
  end.

(** The mailboxes of the topics, made on first use and shared by a group. *)
Definition Subscribe (group : string) (topics : list string) (b : memoryBroker) : option memoryBroker :=
  if mb_closed b then None
  else
    let add (m : gmap string (list mailbox)) t :=
      match m !! t with Some _ => m | None => <[t := replicate (Z.to_nat (partitionsFor b t)) []]> m end in
    Some (withGroups (<[group := foldl add (default ∅ (mb_groups b !! group)) topics]> (mb_groups b)) b).

Definition HasSubscriber (topic : string) (b : memoryBroker) : bool :=
  existsb (fun e => match e.2 !! topic with Some (_ :: _) => true | _ => false end) (map_to_list (mb_groups b)).

Definition CloseBroker (b : memoryBroker) : memoryBroker := mkMemoryBroker true ∅ (mb_offsets b) (mb_partitions b).

(** ** Start-up checks *)

(** The partition count of a topic: a number, not found, or an error. *)
Inductive countAnswer : Type := caCount (n : Z) | caNotFound | caError.

Fixpoint CheckPartitions (count : string -> countAnswer) (topics : list string) (minPartitions : Z) : bool :=
  if (minPartitions <=? 1)%Z then true
  else
    match topics with
    | [] => true
    | t :: topics =>
        match count t with
        | caNotFound => CheckPartitions count topics minPartitions
        | caError => false
        | caCount n => if (n <? minPartitions)%Z then false else CheckPartitions count topics minPartitions
        end
    end.

Definition CheckMinPartitions (count : countAnswer) (want : Z) : bool :=
  let want := if (want <? 1)%Z then 1%Z else want in
  match count with
  | caCount n => negb (n <? want)%Z
  | _ => false
  end.

(** ** The consumer *)

Record consumerConfig : Type := mkConsumerConfig { cc_maxRetries : nat; cc_producer : bool; cc_flushFunc : bool }.

(** [NewConsumerGroup]: the configured retries, five if there are none. *)
Definition resolveRetries (n : Z) : nat := if (n <=? 0)%Z then 5%nat else Z.to_nat n.

(** A dead letter. *)
Record dlqMsg : Type := mkDlqMsg {
  dl_original_topic : string;
  dl_original_key : string;
  dl_original_value : list byte;
  dl_error : string;
  dl_partition : Z;
  dl_offset : Z
}.

Inductive received : Type := rMsg (m : brokerMsg) | rClosed | rTick | rDone | rEmpty.

Inductive kcall : Type :=
| kNext
| kPoll
| kHandler (m : brokerMsg)
| kWait (attempt : nat)
| kSendRaw (topic key : string) (data : dlqMsg)
| kMark (m : brokerMsg)
| kFlush.

(** [kNext] is the blocking select of the loop, [kPoll] the one that drains;
    a wait answers whether it elapsed. *)
Definition kanswer (c : kcall) : Type :=
  match c with
  | kNext | kPoll => received
  | kHandler _ => option string
  | kWait _ => bool
  | kSendRaw _ _ _ => bool
  | kMark _ => unit
  | kFlush => option string
  end.

Abbreviation KProg := (prog kanswer).

Section Consumer.
Context (cc : consumerConfig).

(** The loop of [processWithRetry]; the error of the last attempt. *)
Fixpoint retryLoop (remaining attempt : nat) (lastErr : option string) (m : brokerMsg) : KProg (option string) :=
  match remaining with
  | O => mret lastErr
  | S remaining =>
      waited ← (if (0 <? attempt)%nat then perform (kWait attempt) else mret true);
      if negb (waited : bool) then mret lastErr
      else
        e ← perform (kHandler m);
        match (e : option string) with
        | Some e => retryLoop remaining (S attempt) (Some e) m
        | None => mret None
        end
  end.

Definition processWithRetry (m : brokerMsg) : KProg (option string) := retryLoop (cc_maxRetries cc) 0 None m.

(** Whether the message may be marked. *)
Definition sendToDLQ (m : brokerMsg) (processErr : string) : KProg bool :=
  if negb (cc_producer cc) then mret true
  else perform (kSendRaw (DLQTopic (bm_Topic m)) (bm_Key m)
                  (mkDlqMsg (bm_Topic m) (bm_Key m) (bm_Value m) processErr (bm_Partition m) (bm_Offset m))).

Definition processOne (m : brokerMsg) : KProg unit :=
  err ← processWithRetry m;
  ok ← match (err : option string) with Some e => sendToDLQ m e | None => mret true end;
  if (ok : bool) then perform (kMark m) else mret tt.

Definition flushClaim : KProg unit := if cc_flushFunc cc then perform kFlush ;; mret tt else mret tt.

(** The inner loop; [false] when the channel was closed. *)
Fixpoint drainReady (fuel : nat) : KProg bool :=
  match fuel with
  | O => mret true
  | S fuel =>
      r ← perform kPoll;
      match (r : received) with
      | rMsg m => processOne m ;; drainReady fuel
      | rClosed => mret false
      | _ => mret true
      end
  end.

(** [handleClaim]: rounds of the loop; the flush at the end is deferred. *)
Fixpoint claimLoop (rounds : nat) : KProg unit :=
  match rounds with
  | O => mret tt
  | S rounds =>
      r ← perform kNext;
      match (r : received) with
      | rMsg m => processOne m ;; open ← drainReady rounds; if (open : bool) then flushClaim ;; claimLoop rounds else mret tt
      | rTick => flushClaim ;; claimLoop rounds
      | _ => mret tt
      end
  end.

Definition handleClaim (rounds : nat) : KProg unit := claimLoop rounds ;; flushClaim.
End Consumer.
