(* ===== verification/KafkaProps.v ===== *)
(** * KafkaProps: placement, order and the marks of the consumer

    A key always goes to one partition of the topic; the mailboxes of a group
    hold the messages of a batch in order, so that a dependency family stays
    together and in order from the submission to the consumer; and a message
    is marked only once it was handled or dead-lettered. *)
From stdpp Require Import base gmap strings list pretty.
From Stdlib Require Import Ascii ZArith Lia.
From Stdlib Require Import Strings.Byte.
From S2P Require Import Prelude Effects FamilyKeys FamilyKeysProps Kafka.

(** ** Partitions *)

Lemma int32_small z : (0 <= z < 2 ^ 31)%Z -> int32 z = z.
Proof. intros Hz. unfold int32. rewrite Z.mod_small; lia. Qed.

Lemma partitionForKey_range key n : (0 < n < 2 ^ 31)%Z -> (0 <= partitionForKey key n < n)%Z.
Proof.
  intros Hn. unfold partitionForKey. destruct (Z.leb_spec n 1); cbn [orb]; [lia|]. destruct (String.eqb key ""); [lia|]. rewrite (int32_small n) by lia.
  pose proof (Z.rem_bound_abs (int32 (fnv32a fnvOffset key)) n ltac:(lia)) as Hb. destruct (Z.ltb_spec (Z.rem (int32 (fnv32a fnvOffset key)) n) 0); lia.
Qed.

(** ** What a group has received *)

Definition logOf (b : memoryBroker) (group topic : string) (p : nat) : option mailbox :=
  mb_groups b !! group ≫= (fun topics => topics !! topic ≫= (fun mbs => mbs !! p)).

Lemma logOf_put g t p m b g' t' p' :
  logOf (put g t p m b) g' t' p' = if bool_decide (g' = g ∧ t' = t ∧ p' = p) then (fun l => l ++ [m]) <$> logOf b g t p else logOf b g' t' p'.
Proof.
  unfold logOf, put, withGroups. cbn [mb_groups]. destruct (decide (g' = g)) as [->|Hg].
  2: { rewrite bool_decide_eq_false_2 by tauto. by rewrite lookup_alter_ne. }
  rewrite lookup_alter_eq. destruct (mb_groups b !! g) as [topics|]; cbn [fmap option_fmap option_map mbind option_bind]; [|by destruct (bool_decide _)].
  destruct (decide (t' = t)) as [->|Ht]; [|rewrite bool_decide_eq_false_2 by tauto; by rewrite lookup_alter_ne]. rewrite lookup_alter_eq.
  destruct (topics !! t) as [mbs|]; cbn [fmap option_fmap option_map mbind option_bind]; [|by destruct (bool_decide _)].
  destruct (decide (p' = p)) as [->|Hp]; [rewrite bool_decide_eq_true_2 by done; apply list_lookup_alter_eq|rewrite bool_decide_eq_false_2 by tauto; by apply list_lookup_alter_ne].
Qed.

Lemma hasMailbox_logOf b topic p g : hasMailbox b topic p g = true <-> is_Some (logOf b g topic p).
Proof.
  unfold hasMailbox, logOf. destruct (mb_groups b !! g) as [topics|]; cbn [mbind option_bind]; [|split; [done|by intros [? ?]]].
  destruct (topics !! topic) as [mbs|]; cbn [mbind option_bind]; [|split; [done|by intros [? ?]]]. rewrite lookup_lt_is_Some. apply Nat.ltb_lt.
Qed.

(** The broker keeps its shape, and the log of [group] grew by [added]. *)
Definition grew (b b' : memoryBroker) (topic group : string) (added : nat -> list brokerMsg) : Prop :=
  mb_closed b' = mb_closed b ∧ mb_partitions b' = mb_partitions b ∧ ∀ p, logOf b' group topic p = (fun l => l ++ added p) <$> logOf b group topic p.

Lemma sendAll_grew targets found topic p m b e b' group :
  NoDup targets -> sendAll false targets found topic p m b = (e, b') ->
  ∃ ms, grew b b' topic group (fun p' => if decide (p' = p) then ms else []) ∧ (ms = [] ∨ ms = [m])
    ∧ (e = None -> group ∈ targets -> found group ≠ brGone -> ms = [m]) ∧ (group ∉ targets -> ms = []).
Proof.
  assert (∀ (b0 : memoryBroker), grew b0 b0 topic group (fun p' => if decide (p' = p) then [] else [])) as Hrefl.
  { intros b0. split_and!; try done. intros p'. destruct (decide _), (logOf b0 group topic p'); cbn; by rewrite ?app_nil_r. }
  revert b. induction targets as [|g targets IH]; intros b Hn E; cbn [sendAll] in E.
  { injection E as <- <-. exists []. split_and!; try done; [by left|]. by intros _ ?%elem_of_nil. }
  apply NoDup_cons in Hn as [Hg Hn]. destruct (found g) eqn:Ef.
  - destruct (IH _ Hn E) as (ms & (H1 & H2 & H3) & Hms & Hall & Hnot). destruct (decide (group = g)) as [->|Hne].
    + rewrite (Hnot Hg) in H3. exists [m]. split_and!; [| by right|done|intros Hx; exfalso; apply Hx; by left]. split_and!; try done. intros p'. rewrite H3, logOf_put.
      destruct (decide (p' = p)) as [->|Hp]; [rewrite bool_decide_eq_true_2 by done|rewrite bool_decide_eq_false_2 by tauto]; destruct (logOf b g topic _); cbn; by rewrite ?app_nil_r.
    + exists ms. split_and!; [|done| |].
      * split_and!; try done. intros p'. rewrite H3, logOf_put, bool_decide_eq_false_2 by tauto. done.
      * intros He [->|Hin]%elem_of_cons; [done|by apply Hall].
      * intros Hx. apply Hnot. intros Hin. apply Hx. by right.
  - destruct (IH _ Hn E) as (ms & Hgr & Hms & Hall & Hnot). exists ms. split_and!; try done.
    + intros He [->|Hin]%elem_of_cons Hf; [done|by apply Hall].
    + intros Hx. apply Hnot. intros Hin. apply Hx. by right.
  - injection E as <- <-. exists []. split_and!; try done. by left.
  - injection E as <- <-. exists []. split_and!; try done. by left.
Qed.

Lemma grew_trans b1 b2 b3 topic group a1 a2 :
  grew b1 b2 topic group a1 -> grew b2 b3 topic group a2 -> grew b1 b3 topic group (fun p => a1 p ++ a2 p).
Proof.
  intros (H1 & H2 & H3) (H4 & H5 & H6). split_and!; [congruence|congruence|]. intros p. rewrite H6, H3. destruct (logOf b1 group topic p); cbn; [|done]. by rewrite app_assoc.
Qed.

Definition partOf (n : Z) (key : string) : nat := Z.to_nat (partitionForKey key n).

Lemma publish_grew w topic key value b e b' group :
  NoDup (we_order w) -> publish false w topic key value b = (e, b') ->
  ∃ ms, grew b b' topic group (fun p => if decide (p = partOf (partitionsFor b topic) key) then ms else [])
    ∧ (ms = [] ∨ ∃ m, ms = [m] ∧ bm_Key m = key ∧ bm_Value m = value)
    ∧ (e = None -> group ∈ we_order w -> we_found w group ≠ brGone -> is_Some (logOf b group topic (partOf (partitionsFor b topic) key)) -> ms ≠ []).
Proof.
  intros Hn. unfold publish, partOf. destruct (mb_closed b) eqn:Ec.
  { intros [= <- <-]. exists []. split_and!; [|by left|done]. split_and!; try done. intros p. destruct (decide _), (logOf b group topic p); cbn; by rewrite ?app_nil_r. }
  cbn zeta. set (p := partitionForKey key (partitionsFor b topic)). set (b1 := mkMemoryBroker _ _ _ _). set (m := mkBrokerMsg _ _ _ _ _). intros E.
  assert (NoDup (List.filter (hasMailbox b topic (Z.to_nat p)) (we_order w))) as Hnf by (apply NoDup_ListNoDup, List.NoDup_filter, NoDup_ListNoDup, Hn).
  destruct (sendAll_grew _ _ _ _ _ _ _ _ group Hnf E) as (ms & (H1 & H2 & H3) & Hms & Hall & _). exists ms. split_and!.
  - split_and!; [by rewrite H1|done|]. intros p'. by rewrite H3.
  - destruct Hms as [->| ->]; [by left|right]. by exists m.
  - intros He Hin Hf Hs. rewrite Hall; try done. apply list_elem_of_In, List.filter_In. split; [by apply list_elem_of_In|]. by apply hasMailbox_logOf.
Qed.

Definition pairOf (m : brokerMsg) : string * list byte := (bm_Key m, bm_Value m).
Definition mine (n : Z) (p : nat) (kvs : list (string * list byte)) : list (string * list byte) := List.filter (fun kv => (partOf n kv.1 =? p)%nat) kvs.

Lemma SendBatch_grew topic msgs b e b' group :
  Forall (fun x => NoDup (we_order x.1)) msgs -> SendBatch topic msgs b = (e, b') ->
  ∃ added, grew b b' topic group added
    ∧ (∀ p, List.map pairOf (added p) `sublist_of` mine (partitionsFor b topic) p (List.map snd msgs))
    ∧ (e = None -> Forall (fun x => group ∈ we_order x.1 ∧ we_found x.1 group ≠ brGone) msgs ->
       ∀ p, is_Some (logOf b group topic p) -> List.map pairOf (added p) = mine (partitionsFor b topic) p (List.map snd msgs)).
Proof.
  revert b. induction msgs as [|[w [key value]] msgs IH]; intros b Hn E; cbn [SendBatch] in E.
  { injection E as <- <-. exists (fun _ => []). split_and!; try done. split_and!; try done. intros p. destruct (logOf b group topic p); cbn; by rewrite ?app_nil_r. }
  apply Forall_cons in Hn as [Hw Hn]. cbn [fst] in Hw. destruct (publish false w topic key value b) as [e1 b1] eqn:Ep. destruct (publish_grew _ _ _ _ _ _ _ group Hw Ep) as (ms & Hg1 & Hms & Hne).
  set (n := partitionsFor b topic) in *. assert (partitionsFor b1 topic = n) as En. { destruct Hg1 as (_ & E2 & _). unfold n, partitionsFor. by rewrite E2. }
  set (a1 := fun p => if decide (p = partOf n key) then ms else []) in *.
  assert (∀ p kvs, mine n p ((key, value) :: kvs) = (if decide (p = partOf n key) then [(key, value)] else []) ++ mine n p kvs) as Hmine.
  { intros p kvs. unfold mine. cbn [List.filter fst]. destruct (decide (p = partOf n key)) as [->|Hx]; [by rewrite Nat.eqb_refl|]. destruct (Nat.eqb_spec (partOf n key) p); [congruence|done]. }
  assert (∀ p, List.map pairOf (a1 p) `sublist_of` (if decide (p = partOf n key) then [(key, value)] else [])) as Ha1.
  { intros p. unfold a1. destruct (decide _); [|done]. destruct Hms as [->|(m & -> & E1 & E2)]; [apply sublist_nil_l|]. unfold pairOf. cbn. by rewrite E1, E2. }
  destruct e1 as [e1|].
  - injection E as <- <-. exists a1. split_and!; [done| |done]. intros p. cbn [List.map snd]. rewrite Hmine. etrans; [apply Ha1|]. apply sublist_inserts_r. done.
  - destruct (IH b1 Hn E) as (a2 & Hg2 & Hs & Hall). rewrite En in Hs, Hall. exists (fun p => a1 p ++ a2 p). split; [by eapply grew_trans|]. split.
    + intros p. cbn [List.map snd]. rewrite Hmine, List.map_app. by apply sublist_app.
    + intros He [[Hin Hf] Hr]%Forall_cons p Hp. cbn [List.map snd]. rewrite Hmine, List.map_app. f_equal.
      * unfold a1. destruct (decide (p = partOf n key)) as [->|]; [|done]. destruct Hms as [->|(m & -> & E1 & E2)]; [by destruct (Hne eq_refl Hin Hf Hp)|]. unfold pairOf. cbn. by rewrite E1, E2.
      * apply Hall; [done|done|]. destruct Hg1 as (_ & _ & H3). rewrite H3. by apply fmap_is_Some.
Qed.

(** C26: A family travels together and in order.  When the messages of what is
    published of a submission are sent as one batch and the broker reports no
    error, then the partition of a message holds the messages of its whole
    family, and every group that stays subscribed receives on that partition
    exactly the messages meant for it, in the order of the submission. *)
Theorem family_delivered topic parsed toPublish kbt ibt (enc : KeyValue -> list byte) ws group b b' m0
  (n := partitionsFor b topic) (ms := propagationMessages toPublish kbt ibt) (p := partOf n (kv_Key m0)) :
  toPublish ⊆ parsed -> familyKeysBySubmittedTxid parsed = Some (kbt, ibt) -> length ws = length toPublish -> (n < 2 ^ 31)%Z ->
  Forall (fun w => NoDup (we_order w) ∧ group ∈ we_order w ∧ we_found w group ≠ brGone) ws ->
  (∀ p : nat, (Z.of_nat p < n)%Z -> is_Some (logOf b group topic p)) ->
  SendBatch topic (zip ws (List.map (fun m => (kv_Key m, enc m)) ms)) b = (None, b') -> m0 ∈ ms ->
  (Z.of_nat p < n)%Z
  ∧ (∀ m, m ∈ ms -> family (List.map pi_txid parsed) (List.map (fun p => collectInputTXIDs (pi_inputs p)) parsed) (kv_txid m0) (kv_txid m) -> partOf n (kv_Key m) = p)
  ∧ ∃ added, logOf b' group topic p = (fun l => l ++ added) <$> logOf b group topic p
      ∧ List.map pairOf added = List.map (fun m => (kv_Key m, enc m)) (List.filter (fun m => (partOf n (kv_Key m) =? p)%nat) ms).
Proof.
  intros Hsub Hfk Hlen Hn Hw Hlog E Hm0. destruct (family_messages parsed toPublish Hsub) as (kbt' & ibt' & Efk & _ & _ & Hkey). rewrite Hfk in Efk. injection Efk as <- <-. fold ms in Hkey.
  assert (0 < n)%Z as Hpos. { unfold n, partitionsFor. destruct (mb_partitions b !! topic) as [k|]; [destruct (Z.ltb_spec 0 k)|]; lia. }
  assert (Z.of_nat p < n)%Z as Hp. { unfold p, partOf. pose proof (partitionForKey_range (kv_Key m0) n ltac:(lia)). lia. }
  split; [done|]. split; [intros m Hm Hf; unfold p; f_equal; symmetry; by apply (Hkey m0 m Hm0 Hm)|].
  set (kvs := List.map (fun m => (kv_Key m, enc m)) ms) in *. assert (length ws = length kvs) as Hl. { unfold kvs, ms, propagationMessages. by rewrite !List.length_map. }
  assert (∀ x, x ∈ zip ws kvs -> x.1 ∈ ws) as Hfst by (intros [x y] Hx; by apply elem_of_zip_l in Hx).
  rewrite Forall_forall in Hw. destruct (SendBatch_grew topic (zip ws kvs) b None b' group) as (added & (_ & _ & Hg) & _ & Hall); [|exact E|].
  { apply Forall_forall. intros x Hx. by apply Hw, Hfst. }
  exists (added p). split; [apply Hg|]. rewrite Hall; [|done| |by apply Hlog].
  - fold n. change (List.map snd (zip ws kvs)) with (snd <$> zip ws kvs). rewrite snd_zip by lia. unfold mine, kvs. clear. induction ms as [|m ms IH]; cbn; [done|].
    destruct (partOf n (kv_Key m) =? p)%nat; cbn; by rewrite IH.
  - apply Forall_forall. intros x Hx. by apply Hw, Hfst.
Qed.

(** ** The consumer *)

(** The message in hand, and what happened to it since it was received. *)
Record inHand : Type := mkInHand { ih_msg : option brokerMsg; ih_failed : nat; ih_handled : bool; ih_buried : bool; ih_marked : bool }.

Definition handStep (s : inHand) (e : event kanswer) : inHand :=
  let '(Event c x) := e in
  match c return kanswer c -> inHand with
  | kNext | kPoll => fun x => match x with rMsg m => mkInHand (Some m) 0 false false false | _ => s end
  | kHandler _ => fun x => match x with
                           | None => mkInHand (ih_msg s) (ih_failed s) true (ih_buried s) (ih_marked s)
                           | Some _ => mkInHand (ih_msg s) (S (ih_failed s)) (ih_handled s) (ih_buried s) (ih_marked s)
                           end
  | kSendRaw _ _ _ => fun x => mkInHand (ih_msg s) (ih_failed s) (ih_handled s) (x || ih_buried s) (ih_marked s)
  | kMark _ => fun _ => mkInHand (ih_msg s) (ih_failed s) (ih_handled s) (ih_buried s) true
  | _ => fun _ => s
  end x.

Definition inHandAfter (tr : trace kanswer) : inHand := foldl handStep (mkInHand None 0 false false true) tr.

Lemma inHandAfter_snoc tr e : inHandAfter (tr ++ [e]) = handStep (inHandAfter tr) e.
Proof. unfold inHandAfter. by rewrite foldl_app. Qed.

Section Marks.
Context (cc : consumerConfig).

(** The message in hand is settled: marked, or left for redelivery because
    the dead letter could not be written. *)
Definition settled (s : inHand) : Prop :=
  ih_marked s = true ∨ cc_producer cc = true ∧ ih_handled s = false ∧ ih_buried s = false ∧ (0 < ih_failed s)%nat.

(** The calls of the consumer, by the state of the message in hand. *)
Definition consumes (tr : trace kanswer) (c : kcall) : Prop :=
  let s := inHandAfter tr in
  match c with
  | kNext | kPoll => settled s
  | kHandler m => ih_msg s = Some m ∧ (ih_failed s < cc_maxRetries cc)%nat ∧ ih_handled s = false ∧ ih_marked s = false
  | kWait attempt => attempt = ih_failed s ∧ (0 < attempt)%nat
  | kSendRaw topic key d => ∃ m, ih_msg s = Some m ∧ topic = DLQTopic (bm_Topic m) ∧ key = bm_Key m ∧ dl_original_value d = bm_Value m ∧ dl_offset d = bm_Offset m
      ∧ dl_partition d = bm_Partition m ∧ (0 < ih_failed s)%nat ∧ ih_handled s = false ∧ ih_marked s = false
  | kMark m => ih_msg s = Some m ∧ ih_marked s = false
      ∧ (ih_handled s = true ∨ ih_buried s = true ∨ cc_producer cc = false ∧ (0 < ih_failed s)%nat)
  | kFlush => True
  end.

Abbreviation R := (fun _ _ => True).

Definition fresh (m : brokerMsg) (failed : nat) : inHand := mkInHand (Some m) failed false false false.

Lemma retryLoop_wp remaining attempt lastErr m tr :
  inHandAfter tr = fresh m attempt -> (attempt + remaining = cc_maxRetries cc)%nat -> (lastErr = None <-> attempt = 0%nat) ->
  (0 < cc_maxRetries cc)%nat ->
  wp consumes R (retryLoop remaining attempt lastErr m) tr (fun r tr' =>
    match r with
    | None => inHandAfter tr' = mkInHand (Some m) (ih_failed (inHandAfter tr')) true false false
    | Some _ => ∃ n, inHandAfter tr' = fresh m n ∧ (0 < n)%nat
    end).
Proof.
  revert attempt lastErr tr. induction remaining as [|remaining IH]; intros attempt lastErr tr Hs Hsum Hl Hmax; cbn [retryLoop].
  { wp_go. destruct lastErr as [e|]; [exists attempt; split; [done|lia]|]. assert (attempt = 0%nat) by by apply Hl. lia. }
  wp_go. apply (wp_mono _ _ _ _ (fun w tr' => inHandAfter tr' = fresh m attempt ∧ (w = false -> (0 < attempt)%nat))).
  { destruct (Nat.ltb_spec 0 attempt); [|wp_go; by split]. wp_ask w ltac:(unfold consumes; rewrite Hs; by split). rewrite inHandAfter_snoc. by split. }
  intros w tr1 [H1 Hw]. destruct w; cbn [negb].
  2: { wp_go. specialize (Hw eq_refl). destruct lastErr as [e|]; [by exists attempt|]. assert (attempt = 0%nat) by by apply Hl. lia. }
  wp_go. wp_ask e ltac:(unfold consumes; rewrite H1; cbn; split_and!; try done; lia). destruct e as [e|].
  - apply IH; [by rewrite inHandAfter_snoc, H1|lia|done|done].
  - wp_go. rewrite inHandAfter_snoc, H1. done.
Qed.

Lemma processOne_wp m tr :
  (0 < cc_maxRetries cc)%nat -> inHandAfter tr = fresh m 0 -> wp consumes R (processOne cc m) tr (fun _ tr' => settled (inHandAfter tr')).
Proof.
  intros Hmax Hs. unfold processOne, processWithRetry. wp_go. eapply wp_mono; [by apply retryLoop_wp|]. intros r tr1 Hr. wp_go. destruct r as [e|].
  - destruct Hr as (n & Hr & Hn). unfold sendToDLQ. destruct (cc_producer cc) eqn:Ep; cbn [negb].
    + wp_ask ok ltac:(unfold consumes; rewrite Hr; exists m; by split_and!). assert (inHandAfter (tr1 ++ [Event (kSendRaw (DLQTopic (bm_Topic m)) (bm_Key m)
        (mkDlqMsg (bm_Topic m) (bm_Key m) (bm_Value m) e (bm_Partition m) (bm_Offset m))) ok]) = mkInHand (Some m) n false ok false) as H2.
      { rewrite inHandAfter_snoc, Hr. cbn. by rewrite orb_false_r. }
      destruct ok; wp_go.
      * wp_ask u ltac:(unfold consumes; rewrite H2; split_and!; try done; right; by left). rewrite inHandAfter_snoc. by left.
      * rewrite H2. right. by split_and!.
    + wp_go. wp_ask u ltac:(unfold consumes; rewrite Hr; split_and!; try done; right; by right). rewrite inHandAfter_snoc. by left.
  - wp_go. wp_ask u ltac:(unfold consumes; rewrite Hr; split_and!; try done; by left). rewrite inHandAfter_snoc. by left.
Qed.

Lemma flushClaim_wp tr : settled (inHandAfter tr) -> wp consumes R (flushClaim cc) tr (fun _ tr' => settled (inHandAfter tr')).
Proof. intros Hs. unfold flushClaim. destruct (cc_flushFunc cc); [|by wp_go]. wp_go. wp_ask e ltac:(done). wp_go. by rewrite inHandAfter_snoc. Qed.

Lemma drainReady_wp fuel tr :
  (0 < cc_maxRetries cc)%nat -> settled (inHandAfter tr) -> wp consumes R (drainReady cc fuel) tr (fun _ tr' => settled (inHandAfter tr')).
Proof.
  intros Hmax. revert tr. induction fuel as [|fuel IH]; intros tr Hs; cbn [drainReady]; [by wp_go|]. wp_go. wp_ask r ltac:(done).
  destruct r as [m| | | |]; [|wp_go; by rewrite inHandAfter_snoc..]. wp_go. eapply wp_mono; [apply processOne_wp; [done|by rewrite inHandAfter_snoc]|]. intros ? tr1 H1. by apply IH.
Qed.

Lemma claimLoop_wp rounds tr :
  (0 < cc_maxRetries cc)%nat -> settled (inHandAfter tr) -> wp consumes R (claimLoop cc rounds) tr (fun _ tr' => settled (inHandAfter tr')).
Proof.
  intros Hmax. revert tr. induction rounds as [|rounds IH]; intros tr Hs; cbn [claimLoop]; [by wp_go|]. wp_go. wp_ask r ltac:(done).
  destruct r as [m| | | |]; [|wp_go; by rewrite inHandAfter_snoc| |wp_go; by rewrite inHandAfter_snoc..].
  - wp_go. eapply wp_mono; [apply processOne_wp; [done|by rewrite inHandAfter_snoc]|]. intros ? tr1 H1. wp_go.
    eapply wp_mono; [by apply drainReady_wp|]. intros open tr2 H2. destruct open; [|by wp_go]. wp_go. eapply wp_mono; [by apply flushClaim_wp|]. intros ? tr3 H3. by apply IH.
  - wp_go. eapply wp_mono; [apply flushClaim_wp; by rewrite inHandAfter_snoc|]. intros ? tr3 H3. by apply IH.
Qed.

(** C25: No message is marked unless it was dealt with.  In every execution of a
    claim, cut short or not: the handler sees only the message in hand, at
    most as often as retries are configured and never again after it
    succeeded; the waits grow with the failures; a dead letter is written
    only after a failure, carries the message and goes to the topic of its
    topic; a message is marked once, after it was handled or dead-lettered,
    or failed with no producer for dead letters; and the next message is
    taken only when this one is marked, or when its dead letter was
    refused. *)
Theorem marks_backed rounds tr tr1 e tr2 :
  (0 < cc_maxRetries cc)%nat -> begins (handleClaim cc rounds) tr -> tr = tr1 ++ e :: tr2 -> consumes tr1 (ev_call e).
Proof.
  intros Hmax Hb E. eapply (wp_begins consumes R _ _ (fun _ _ => True)); [|exact Hb|by intros ????|exact E]. unfold handleClaim. wp_go.
  eapply wp_mono; [apply claimLoop_wp; [done|by left]|]. intros ? tr' Hs. eapply wp_mono; [by apply flushClaim_wp|]. done.
Qed.
End Marks.

(** ** Concrete runs *)

Definition demoMsg (offset : Z) : brokerMsg := mkBrokerMsg "t" "k" [] 0 offset.

(** The offset a claim commits: one past the highest mark. *)
Definition committed (tr : trace kanswer) : Z :=
  foldl (fun acc e => match ev_call e with kMark m => Z.max acc (bm_Offset m + 1) | _ => acc end) 0%Z tr.

(** Two messages arrive; the handler refuses the first, whose dead letter is
    refused too. *)
Definition demoAnswer (c : kcall) (n : nat) : kanswer c * nat :=
  match c return kanswer c * nat with
  | kNext => (match n with O => rMsg (demoMsg 5) | _ => rDone end, S n)
  | kPoll => (match n with 1%nat => rMsg (demoMsg 6) | _ => rEmpty end, S n)
  | kHandler m => (if (bm_Offset m =? 5)%Z then Some "no" else None, n)
  | kWait _ => (true, n)
  | kSendRaw _ _ _ => (false, n)
  | kMark _ => (tt, n)
  | kFlush => (None, n)
  end.
Definition demoCC : consumerConfig := mkConsumerConfig 2 true true.

Lemma marks_backed_witness :
  ∃ tr1 tr2, run_trace demoAnswer (handleClaim demoCC 3) 0%nat = tr1 ++ Event (answer := kanswer) (kMark (demoMsg 6)) tt :: tr2 ∧ consumes demoCC tr1 (kMark (demoMsg 6)).
Proof.
  assert (∃ tr1 tr2, run_trace demoAnswer (handleClaim demoCC 3) 0%nat = tr1 ++ Event (answer := kanswer) (kMark (demoMsg 6)) tt :: tr2) as (tr1 & tr2 & E).
  { exists (take 7 (run_trace demoAnswer (handleClaim demoCC 3) 0%nat)), (drop 8 (run_trace demoAnswer (handleClaim demoCC 3) 0%nat)). vm_compute. reflexivity. }
  exists tr1, tr2. split; [exact E|]. apply (marks_backed demoCC 3 (run_trace demoAnswer (handleClaim demoCC 3) 0%nat) tr1 (Event (kMark (demoMsg 6)) tt) tr2); [unfold demoCC; cbn; lia|apply run_begins|exact E].
Defined.

(** A message whose dead letter is refused is left unmarked to be delivered
    again, but the mark of the next message commits an offset past it. *)
Lemma mark_passes_failed :
  let tr := run_trace demoAnswer (handleClaim demoCC 3) 0%nat in
  (∀ u, Event (answer := kanswer) (kMark (demoMsg 5)) u ∉ tr) ∧ committed tr = 7%Z.
Proof.
  split; [|vm_compute; reflexivity]. intros u Hin.
  assert (forallb (fun e => match ev_call e with kMark m => negb (bm_Offset m =? 5)%Z | _ => true end) (run_trace demoAnswer (handleClaim demoCC 3) 0%nat) = true) as Hf by (vm_compute; reflexivity).
  rewrite forallb_forall in Hf. apply list_elem_of_In, Hf in Hin. discriminate.
Qed.

(** A parent and its child on a topic of four partitions. *)
Definition demoFamily : list parsedItem := [mkParsedItem [] [] "p"; mkParsedItem [Some (Some "p")] [] "c"].
Definition demoBroker : memoryBroker := default (NewMemoryBroker ∅) (Subscribe "g" ["t"] (NewMemoryBroker {["t" := 4%Z]})).
Definition demoWeather : weather := mkWeather ["g"] (fun _ => brRoom).

Lemma family_delivered_witness :
  ∃ kbt ibt b' m0, familyKeysBySubmittedTxid demoFamily = Some (kbt, ibt)
  ∧ m0 ∈ propagationMessages demoFamily kbt ibt
  ∧ ∃ added, logOf b' "g" "t" (partOf 4 (kv_Key m0)) = (fun l => l ++ added) <$> logOf demoBroker "g" "t" (partOf 4 (kv_Key m0)) ∧ length added = 2%nat.
Proof.
  assert (match familyKeysBySubmittedTxid demoFamily with Some (kbt, ibt) => propagationMessages demoFamily kbt ibt | None => [] end
    = [mkKeyValue "c" "p" [] []; mkKeyValue "c" "c" [] ["p"]]) as Em by (vm_compute; reflexivity).
  destruct (familyKeysBySubmittedTxid demoFamily) as [[kbt ibt]|] eqn:E; [|discriminate].
  exists kbt, ibt. destruct (SendBatch "t" (zip [demoWeather; demoWeather] (List.map (fun m => (kv_Key m, [])) (propagationMessages demoFamily kbt ibt))) demoBroker) as [e b'] eqn:Eb.
  assert (e = None) as -> by (rewrite Em in Eb; vm_compute in Eb; congruence).
  exists b', (mkKeyValue "c" "p" [] []). split; [done|]. split; [rewrite Em; by left|].
  destruct (family_delivered "t" demoFamily demoFamily kbt ibt (fun _ => []) [demoWeather; demoWeather] "g" demoBroker b' (mkKeyValue "c" "p" [] [])) as (_ & _ & added & Ea & Hm);
    [done|exact E|done|by vm_compute| | |exact Eb|rewrite Em; by left|].
  - repeat constructor; try done; set_solver.
  - intros p Hp. assert (partitionsFor demoBroker "t" = 4%Z) as E4 by (vm_compute; reflexivity). rewrite E4 in Hp.
    destruct p as [|[|[|[|p]]]]; [vm_compute; by eexists..|lia].
  - exists added. split; [exact Ea|]. apply (f_equal length) in Hm. rewrite Em, !List.length_map in Hm. exact Hm.
Defined.
